(* ===== verification/_CoqProject ===== *)
-Q . S2P
Prelude.v
Collections.v
PolicyData.v
PolicyModule.v
VmScope.v
Vm.v
VmInvariant.v
VmCalls.v
VmSafety.v
VmTestIO.v
VmTheorems.v
VmEntry.v
Ast.v
CompileTypes.v
Compile.v
CompileProofs.v
CompiledCode.v
PolicySemantics.v
CompileSim.v
CompileLogic.v
CompileExprs.v
CompileCalls.v
CompileStatements.v
CompileLink.v
CompileCorrect.v
CompileTheorems.v
Tracer.v
TracerProofs.v
TracerTheorems.v
RuntimeTypes.v
FactStore.v
Bytes.v
FactKeys.v
MemFacts.v
Graph.v
MemStorage.v
MemStorageFacts.v
MemTheorems.v
LinearFacts.v
LinearFactsProofs.v
Client.v
BraidProofs.v
LinearStorage.v
LinearStorageProofs.v
LinearFile.v
LinearReach.v
LinearTheorems.v
BraidTheorems.v
RuntimeOps.v
VmPolicyIO.v
VmPolicy.v
VmPolicyProofs.v
StorageLaws.v
SearchSound.v
Session.v
SessionProofs.v
Transaction.v
TransactionProofs.v
ClientState.v
StorageInstances.v
VmPolicyTheorems.v
SessionTheorems.v
MemLaws.v
LinearLaws.v
ClientProofs.v
Providers.v
SeqPolicy.v
ClientTheorems.v
Sync.v
SyncProofs.v
SyncTheorems.v
AfcTypes.v
AfcClient.v
AfcShm.v
AfcLayout.v
AfcShmProofs.v
AfcShmSys.v
AfcMutex.v
AfcChannels.v
AfcTheorems.v
