(* ===== verification/Prelude.v ===== *)
(** * Aranya core: the policy compiler, the policy VM, the graph runtime and
      fast channels

    Aranya runs access-control policies on a replicated graph of commands.
    A policy is compiled to instructions for a stack machine (the policy VM).
    Commands are stored in a graph, in segments; every replica evaluates the
    commands of a graph in one order (the braid), which updates a database of
    facts. Beside the graph, peers exchange encrypted messages over fast
    channels, whose keys one process writes to a shared memory and others read.
    This library models these parts and proves them correct. All source
    paths below are relative to [src/crates/].

    ** Parts of the program and the files that model them

    Shared:
    - [Prelude]: results of Rust code ([outcome]: [Ok], [Err] or a panic), the
      state-and-error monad [M] of handlers on [&mut self], [usize] and [i64]
      arithmetic with explicit overflow, [Vec] operations, tactics, hints.
    - [Collections]: [Ord] as a class, [BTreeMap] as a key-sorted list.

    Policy VM ([aranya-policy-vm], [aranya-policy-module],
    [aranya-policy-ast]):
    - [PolicyData] ([data.rs], [ast.rs]): values, structs, facts, types.
    - [PolicyModule] ([instructions.rs], [label.rs], [module.rs],
      [codemap.rs]): instructions, labels, modules, source positions.
    - [VmScope] ([scope.rs], [stack.rs], [error.rs]): scopes, stack, errors.
    - [Vm] ([machine.rs]): [Machine], [RunState], one definition [exec_*] per
      instruction, [step], [run], the validations and the [setup_*] and
      [call_*] entry points. The I/O is the class [MachineIO]; postcard's
      serialization is a parameter.
    - [VmInvariant], [VmCalls], [VmSafety]: the machine invariant,
      frames and control flow, what the machine can do to its I/O, freedom
      from panics.
    - [VmTestIO] ([tests/bits/testio.rs], [printffi.rs]): a concrete I/O.
    - [VmTheorems], [VmEntry]: the claims.

    Policy compiler ([aranya-policy-compiler/src], [aranya-policy-ast]):
    - [Ast] ([ast.rs]): the syntax of policies, with induction over nested
      expressions and statements.
    - [CompileTypes] ([compile/types.rs], [compile/error.rs],
      [compile/target.rs], [aranya-policy-module/src/ffi.rs]): identifier types,
      types of expressions, errors with positions, the compiler's state.
    - [Compile] ([compile.rs]): every method of [CompileState], as a computation
      that emits instructions and labels or fails.
    - [CompileProofs], [CompiledCode]: what every method keeps (code and labels
      are only added, contexts and signatures return), resolution of labels.
    - [PolicySemantics]: the specification, a definitional interpreter of the
      syntax with variables and no stack or jumps.
    - [CompileSim], [CompileLogic]: one rule per instruction that relates a run
      of the VM to the interpreter, and the judgement [imp] that a method's code
      implements a computation of the interpreter; [CompileExprs],
      [CompileCalls], [CompileStatements] prove it for every construct,
      [CompileLink] finds the code of every definition in the module,
      [CompileCorrect] closes the recursion.
    - [CompileTheorems]: the claims and a sample policy.
    - [Tracer] ([tracer.rs], [tracer/analyzers.rs] and its submodules,
      [validate.rs]): the tracer over the class [Analyzer], its three analyzers
      and [validate]; [TracerProofs]: its turns as an inductive relation, paths
      of the control flow and what analyzers promise ([AnalyzerLaws]);
      [TracerTheorems]: the claims, with runs of the VM as paths.

    Runtime ([aranya-runtime/src]):
    - [RuntimeTypes] ([prior.rs], [command.rs], [storage/mod.rs],
      [engine.rs]): parents, addresses, commands, locations, errors.
    - [FactStore] ([storage/mod.rs]): the classes [Query] and [QueryMut] with
      their laws ([FactView] is the abstract map of facts).
    - [Bytes]: big- and little-endian integers as bytes, chunks of slices.
    - [FactKeys] ([vm_policy/io.rs]): byte encoding of fact keys.
    - [MemFacts], [MemStorage] ([storage/memory.rs]): the in-memory storage;
      [MemStorageFacts], [MemTheorems]: its invariant and claims.
    - [Graph] ([storage/mod.rs]): the class [Storage] of the traits [Storage]
      and [Segment], and the searches [is_ancestor] and [get_location_from]
      that the trait provides, for every implementation.
    - [LinearFacts], [LinearStorage] ([storage/linear/mod.rs]): the persistent
      storage over an append-only file, whose interface ([storage/linear/io.rs])
      is the classes [FactIo] and [SegIo] with laws; [LinearFile]
      ([storage/linear/testing.rs]) is an instance. [LinearFactsProofs],
      [LinearStorageProofs], [LinearReach], [LinearTheorems]: invariants,
      reachable files, claims.
    - [VmPolicyIO] ([vm_policy/io.rs]): the [MachineIO] the runtime gives to
      the VM, over any fact store.
    - [VmPolicy] ([vm_policy.rs], [vm_policy/protocol.rs], [vm_policy/error.rs]):
      the policy of the runtime that opens, evaluates, recalls, seals and
      publishes commands by running the VM, for any perspective and sink.
      [VmPolicyProofs] has what each method keeps, [VmPolicyTheorems] the claims
      and the policy as an instance of [PolicyOps] and [PolicyLaws].
    - [Session] ([client/session.rs]): ephemeral sessions over any provider,
      policy and sinks; [SessionProofs], [SessionTheorems]: facts and claims.
    - [Client] ([client.rs]): [last_common_ancestor] and [braid] over any
      [Storage]; [BraidProofs], [BraidTheorems]: correctness and claims.
    - [RuntimeOps] ([storage/mod.rs], [engine.rs]): the traits through which
      the client drives the runtime, as classes of operations. What they
      promise is stated apart from them: [StorageLaws] for
      storages and providers, proved for both storages in [MemLaws],
      [LinearLaws] and [Providers] ([StorageInstances] has the operations);
      [PolicyLaws] says that a policy changes what it is given through the
      methods of its trait only.
    - [SearchSound]: what the searches return, whatever their input.
    - [Transaction] ([client/transaction.rs], and the peer cache of
      [sync/responder.rs]), [ClientState] ([client.rs]): receiving commands,
      merging heads, committing, new graphs and actions, for any storage, policy
      and sink.
      [TransactionProofs], [ClientProofs] prove the invariants by one rule per
      operation; [ClientTheorems] has the claims; [SeqPolicy] the policy and
      the graphs of the transaction tests.
    - [Sync] ([sync/mod.rs], [dispatcher.rs], [requester.rs],
      [responder.rs]): messages and the two state machines, over any storage
      provider; postcard is the class [Postcard]. [SyncProofs] (what is sent,
      and its bytes), [SyncTheorems] (the claims).

    Fast channels ([aranya-fast-channels/src], [aranya-crypto/src/afc]):
    - [AfcTypes] ([state.rs], [error.rs], [header.rs], [afc/keys.rs],
      [afc/shared.rs]): identifiers, directed keys, errors, headers, keys. The
      contexts of HPKE, of another crate, are the class [Hpke] with the laws
      [HpkeLaws]: sealing with a key and a number and opening with the same
      give the text back, and nothing else opens.
    - [AfcClient] ([state.rs], [memory.rs], [buf.rs], [client.rs]): the traits
      [AfcState], [AranyaState] and [Buf] as classes with laws ([AfcLaws],
      [BufLaws]), the in-memory state, the buffers, and [seal], [seal_in_place],
      [open] and [open_in_place] of the client, proved against the laws.
    - [AfcShm] ([shm/shared.rs], [shm/write.rs], [shm/read.rs]): the memory with
      its two lists of channels and the operations of the writer and the
      readers, with and without debug assertions. [AfcShmProofs]: the invariant
      [shm_inv], what each operation does to the map of channels, the reader as
      an instance of [AfcLaws]. [AfcShmSys]: sequence numbers, and one writer
      with any number of readers in any order of operations.
    - [AfcLayout] ([shm/align.rs], the layouts of [shm/shared.rs]): where the
      sides and the channels lie, in 64-bit wrapping arithmetic.
    - [AfcMutex] ([mutex.rs]): the mutex, as atomic steps of any number of
      threads, with the futex of the kernel or as a spinlock.
    - [AfcChannels] ([aranya-afc-util/src/ffi.rs], [handler.rs],
      [transform.rs], [aranya-crypto/src/afc/bidi.rs], [afc/uni.rs],
      [keystore]): how a policy creates a channel and both users derive its
      keys, over any key store ([KeyStore] with [KeyStoreLaws], which the
      in-memory store satisfies) and engine. The key encapsulation of HPKE is
      the class [HpkeKem] with the laws [HpkeKemLaws]: sender and receiver of
      matching keys get the same secrets.
    - [AfcTheorems]: the claims, with a small cipher and a small key agreement as
      instances of [Hpke] and [HpkeKem].

    ** What the theorems show

    - VM: every entry point and step keeps the state well formed (stack within
      its capacity, integers within [i64], scopes and call stack in step); a
      return restores its caller's frames; programs without the two
      unimplemented instructions never panic; code without backward jumps and
      calls ends; arithmetic is exact or fails; queries and counts return what
      the facts say; entry points accept exactly the declared arguments.
    - Compiler: the code of a compiled policy is closed under execution and
      never makes the VM panic; the VM accepts exactly the calls that the
      source declares; and every call ends the way the interpreter says, with
      the same exit, error, result, input and output.
    - Validation: a trace reports a failure exactly if an analyzer does on some
      path; it ends exactly if the paths are bounded; rules of validated
      policies exit normally only through a finish block.
    - Facts: keys survive encoding and keep their order; both storages
      implement the abstract map, through layers, tombstones, writing and
      compaction; so does the VM's I/O on top of them.
    - Graph: every storage state reachable by any sequence of operations is a
      well-formed graph, in memory and on file; commits only move the head
      forward; perspectives show the facts of their command; checkpoints work.
    - Searches: ancestry and locating an address end with the right answer on
      every well-formed graph, with or without skip lists; the last common
      ancestor does on graphs with one root and a skip at every merge, as the
      persistent storage writes them.
    - Braid: on graphs whose merges join incomparable commands, the braid of
      two incomparable heads lists the commands of both histories once,
      ancestors first; two replicas with the same commands get the same order,
      whatever their storage, segmentation or the order of the heads. Received
      merges are not checked for this: an example shows a misordered braid of
      comparable commands.
    - Client: whatever is done with a client and any number of interleaved
      transactions, with every error on the way and any policy, its graphs
      stay well formed and history is never lost; a commit that succeeds
      integrates the whole transaction, and the loop of commit ends within a
      number of turns that its heads bound.
    - Sync: in a graph of at most [SEGMENT_BUFFER_MAX] segments, the answer to a
      request is taken from a list of every command that the peer lacks, parents
      before children, and the peer decodes the commands that were encoded.
    - VM policy: a received command of a compiled policy is evaluated as the
      policy's source says, from its bytes to facts, effects and the error that
      is reported; on perspectives that check parents an action publishes one
      command at most; perspectives and sinks are touched through their methods
      only, which is what the client assumes of a policy ([vm_policy_laws]).
    - Sessions: their facts are those of the graph with the session's changes
      on top; what fails leaves the facts as they were.
    - Fast channels: when a policy has created a channel, its two users derive
      matching keys, the author's secret is used once, and the channel then
      carries messages. What is sealed is opened by the peer, and [open] accepts
      nothing else; in place it does the same. The shared memory is a map of
      channels for the writer; readers use the writer's current keys whatever
      they have cached, and never see an operation half done. A reader
      alone does not reuse a sequence number while the writer is idle, but does
      after every change (a bug), and can with a second reader (a bug, shown by
      a run). The mutex excludes, loses no update and no
      wake-up. The sides and channels lie inside the memory, apart from each
      other.

    ** Fuel, bounds and other choices

    Loops of the source over the graph take fuel. [is_ancestor] and [braid]
    get fuel exponential or linear in the graph as the code's own search
    visits it, and the theorems show that this is enough ([search_fuel],
    [2 ^ bound]; the search keeps no set of visited segments, so a segment may
    be visited once per path). [last_common_ancestor] needs at most the sum of
    the max cuts; [get_skip] at most the offset of its segment, which
    decreases. [run] of the VM is only partial by nature: claims about it hold
    for every fuel or give enough fuel. Numbers of type [usize] are [nat]; an
    addition that the source checks fails from [2 ^ 64] on. Numbers of type
    [i64] are [Z] with their range. A reader of the append-only file is the
    file at the time it was made: what it can read never changes.

    The searches of the sync protocol descend to parents, whose segment
    numbers are smaller, so one more turn than the number of the head's
    segment is enough. The loop of [commit] gets one turn per head and three
    more, and takes at most one per head and two more. In the VM policy a run
    of the VM that does not end within the fuel is a panic of the method; the
    claims hold for every fuel, or for every fuel from some number on.

    The generation of a list of channels is a [u32] that wraps, so the claims
    on the shared memory are for fewer than [2 ^ 32] operations: after that a
    cached key could be taken for a current one. [remove_if] gets one turn per
    channel and one more. An operation of the writer is a sequence of steps at
    the points where a reader can see the memory; a call of a reader is one
    step, since it reads the list under its mutex. Steps of the mutex are its
    atomic accesses in a sequentially consistent order, as the code asks for
    ([Relaxed] is used for one load whose value is only a hint).

    The interpreter of policies takes fuel for nested evaluations, since
    policies can recurse; out of fuel it stops with [StopUnknown], about which
    the correctness theorem says nothing. For every other outcome the VM gives
    the same one for every fuel from some number on. The interpreter counts the
    values that are kept, because running out of the VM's stack is an error of
    the language; a foreign call without arguments on a full stack is also
    [StopUnknown], as foreign functions push their result themselves. The
    tracer takes one unit of fuel per instruction of a path, and its theorems
    say how much is enough.

    ** Not modelled

    The policy parser (its grammar is compiled by a macro), cryptography and
    its FFI modules, of fast channels the mapping of shared memory, paths and
    error numbers (system calls) and the big-endian conversions, of the key
    stores the one in files and the engines that wrap keys, the C API, the system calls behind the file interface, network
    syncers, tests and tools. *)

From Stdlib.Strings Require Import Byte.
From stdpp Require Export strings sorting numbers option base tactics relations sets list.

#[export] Set Default Goal Selector "!".
#[export] Set Warnings "-clear-no-such-hyp,-register-all".

(** * Outcomes *)

(** What a call of a Rust function can do: return [Ok], return [Err], or
    panic (a failed [assert!], an out-of-range index, [todo!()]). *)
Inductive outcome (E A : Type) : Type :=
| Ok (a : A)
| Err (e : E)
| Panic (why : string).
Arguments Ok {E A} a.
Arguments Err {E A} e.
Arguments Panic {E A} why.

#[export] Instance outcome_ret E : MRet (outcome E) := λ A, Ok.
#[export] Instance outcome_bind E : MBind (outcome E) := λ A B k m,
  match m with Ok a => k a | Err e => Err e | Panic w => Panic w end.
#[export] Instance outcome_fmap E : FMap (outcome E) := λ A B f m,
  match m with Ok a => Ok (f a) | Err e => Err e | Panic w => Panic w end.

(** [Result::map_err]. *)
Definition map_err {E F A} (f : E → F) (m : outcome E A) : outcome F A :=
  match m with Ok a => Ok a | Err e => Err (f e) | Panic w => Panic w end.

(** [Option::ok_or] and [Option::ok_or_else]. *)
Definition ok_or {E A} (o : option A) (e : E) : outcome E A :=
  match o with Some a => Ok a | None => Err e end.

Lemma outcome_bind_Ok {E A B} (m : outcome E A) (k : A → outcome E B) b :
  (m ≫= k) = Ok b → ∃ a, m = Ok a ∧ k a = Ok b.
Proof. destruct m; naive_solver. Qed.

Definition is_ok {E A} (m : outcome E A) : bool :=
  match m with Ok _ => true | _ => false end.

Definition is_panic {E A} (m : outcome E A) : bool :=
  match m with Panic _ => true | _ => false end.

(** * The state-and-error monad

    A method that takes [&mut self] and returns [Result<A, E>]: the state is
    returned in every case, so that what a failing call leaves behind is part
    of the model. *)
Definition M (S E A : Type) : Type := S → outcome E A * S.

#[export] Instance M_ret S E : MRet (M S E) := λ A a s, (Ok a, s).
#[export] Instance M_bind S E : MBind (M S E) := λ A B k m s,
  match m s with
  | (Ok a, s') => k a s'
  | (Err e, s') => (Err e, s')
  | (Panic w, s') => (Panic w, s')
  end.

Section MonadOps.
Context {S E : Type}.

Definition get_state : M S E S := λ s, (Ok s, s).
Definition put_state (s : S) : M S E unit := λ _, (Ok tt, s).
Definition modify (f : S → S) : M S E unit := λ s, (Ok tt, f s).
Definition throw {A} (e : E) : M S E A := λ s, (Err e, s).
Definition crash {A} (w : string) : M S E A := λ s, (Panic w, s).

(** A call that does not touch the state. *)
Definition lift {A} (m : outcome E A) : M S E A := λ s, (m, s).

(** The [?] operator after [Option::ok_or]. *)
Definition lift_opt {A} (o : option A) (e : E) : M S E A := λ s, (ok_or o e, s).

Fixpoint for_each {A} (f : A → M S E unit) (l : list A) : M S E unit :=
  match l with
  | [] => mret tt
  | x :: l' => f x ≫= λ _, for_each f l'
  end.
End MonadOps.

Lemma M_bind_Ok {S E A B} (m : M S E A) (k : A → M S E B) s a s' :
  m s = (Ok a, s') → (m ≫= k) s = k a s'.
Proof. intros H. unfold mbind, M_bind. by rewrite H. Qed.

Lemma M_bind_inv_Ok {S E A B} (m : M S E A) (k : A → M S E B) s b s' :
  (m ≫= k) s = (Ok b, s') → ∃ a s1, m s = (Ok a, s1) ∧ k a s1 = (Ok b, s').
Proof. unfold mbind, M_bind. destruct (m s) as [[a|e|w] s1]; naive_solver. Qed.

(** * Relational reasoning on the monad

    [keeps R m]: whatever its outcome, [m] ends in a state related by [R] to
    the one it started from. *)
Definition keeps {S E A} (R : S → S → Prop) (m : M S E A) : Prop := ∀ s, R s (m s).2.

Section Keeps.
Context {S E : Type} (R : S → S → Prop) `{!PreOrder R}.

Lemma keeps_bind {A B} (m : M S E A) (k : A → M S E B) :
  keeps R m → (∀ a, keeps R (k a)) → keeps R (m ≫= k).
Proof.
  intros Hm Hk s. unfold mbind, M_bind. specialize (Hm s). destruct (m s) as [[a|e|w] s']; try done.
  etrans; [exact Hm|apply Hk].
Qed.
Lemma keeps_get {B} (k : S → M S E B) : (∀ a, keeps R (k a)) → keeps R (get_state ≫= k).
Proof. intros Hk s. apply Hk. Qed.
Lemma keeps_same {A} (m : M S E A) : (∀ s, (m s).2 = s) → keeps R m.
Proof. intros Hm s. by rewrite Hm. Qed.
Lemma keeps_modify (f : S → S) : (∀ s, R s (f s)) → keeps (E := E) R (modify f).
Proof. intros Hf s. apply Hf. Qed.
Lemma keeps_lift {A} (m : outcome E A) : keeps R (lift m).
Proof. by intros s. Qed.
Lemma keeps_ret {A} (a : A) : keeps (E := E) R (mret a).
Proof. by intros s. Qed.
End Keeps.

(** * Machine-width integers

    [usize] and [u64] values are natural numbers; the operations that can
    leave the 64-bit range are written out. *)
Definition pow64 : Z := 18446744073709551616.
Definition i64_min : Z := -9223372036854775808.
Definition i64_max : Z := 9223372036854775807.

Definition checked_add (a b : nat) : option nat :=
  if (Z.of_nat a + Z.of_nat b <? pow64)%Z then Some (a + b) else None.

Definition checked_sub (a b : nat) : option nat :=
  if b <=? a then Some (a - b) else None.

Definition i64_ok (z : Z) : bool := (i64_min <=? z)%Z && (z <=? i64_max)%Z.

Definition i64_checked_add (a b : Z) : option Z :=
  if i64_ok (a + b) then Some (a + b)%Z else None.

Definition i64_checked_sub (a b : Z) : option Z :=
  if i64_ok (a - b) then Some (a - b)%Z else None.

Lemma checked_add_Some a b c :
  checked_add a b = Some c ↔ c = a + b ∧ (Z.of_nat a + Z.of_nat b < pow64)%Z.
Proof. unfold checked_add. destruct (Z.ltb_spec (Z.of_nat a + Z.of_nat b) pow64); split; [|intros [??]| |intros [??]]; intros; simplify_eq; done || lia. Qed.

Lemma checked_sub_Some a b c : checked_sub a b = Some c ↔ b ≤ a ∧ c = a - b.
Proof. unfold checked_sub. destruct (Nat.leb_spec b a); split; intros; destruct_and?; simplify_eq; try done; try lia. Qed.

Lemma checked_sub_None a b : checked_sub a b = None ↔ a < b.
Proof. unfold checked_sub. destruct (Nat.leb_spec b a); split; intros; destruct_and?; simplify_eq; try done; try lia. Qed.

Lemma i64_ok_iff z : i64_ok z = true ↔ (i64_min ≤ z ≤ i64_max)%Z.
Proof. unfold i64_ok. rewrite andb_true_iff, !Z.leb_le. lia. Qed.

(** * [Vec] operations

    A [Vec] is a list in index order: [push] and [pop] work at the end. *)
Definition vec_push {A} (x : A) (l : list A) : list A := l ++ [x].

Fixpoint vec_pop {A} (l : list A) : option (A * list A) :=
  match l with
  | [] => None
  | [x] => Some (x, [])
  | x :: l' => match vec_pop l' with Some (y, r) => Some (y, x :: r) | None => None end
  end.

(** [last_mut] followed by an assignment through the reference. *)
Definition vec_set_last {A} (x : A) (l : list A) : list A :=
  match vec_pop l with Some (_, r) => r ++ [x] | None => l end.

Definition vec_swap {A} (i j : nat) (l : list A) : option (list A) :=
  match l !! i, l !! j with
  | Some x, Some y => Some (<[i := y]> (<[j := x]> l))
  | _, _ => None
  end.

Lemma vec_pop_snoc {A} (l : list A) x : vec_pop (l ++ [x]) = Some (x, l).
Proof.
  induction l as [|y l IH]; [done|]. simpl. rewrite IH.
  destruct l; done.
Qed.

Lemma vec_pop_Some {A} (l : list A) x r : vec_pop l = Some (x, r) ↔ l = r ++ [x].
Proof.
  split; [|intros ->; apply vec_pop_snoc].
  destruct l as [|y l _] using rev_ind; [done|].
  rewrite vec_pop_snoc. naive_solver.
Qed.

Lemma vec_pop_None {A} (l : list A) : vec_pop l = None ↔ l = [].
Proof.
  split; [|by intros ->].
  destruct l as [|y l _] using rev_ind; [done|]. by rewrite vec_pop_snoc.
Qed.

Lemma vec_set_last_snoc {A} (l : list A) x y : vec_set_last y (l ++ [x]) = l ++ [y].
Proof. unfold vec_set_last. by rewrite vec_pop_snoc. Qed.

Lemma last_vec_pop {A} (l : list A) : last l = option_map fst (vec_pop l).
Proof.
  destruct l as [|x l _] using rev_ind; [done|].
  by rewrite last_snoc, vec_pop_snoc.
Qed.

Lemma vec_swap_lookup {A} (i j : nat) (l l' : list A) :
  vec_swap i j l = Some l' →
  length l' = length l ∧ l' !! i = l !! j ∧ l' !! j = l !! i ∧
  ∀ k, k ≠ i → k ≠ j → l' !! k = l !! k.
Proof.
  unfold vec_swap. intros H. repeat case_match; simplify_eq.
  pose proof (lookup_lt_Some _ _ _ H0). pose proof (lookup_lt_Some _ _ _ H1).
  rewrite !length_insert. split_and!; [done|..].
  - rewrite list_lookup_insert_eq; [done|]. by rewrite length_insert.
  - destruct (decide (i = j)) as [->|].
    + rewrite list_lookup_insert_eq; [congruence|]. by rewrite length_insert.
    + rewrite list_lookup_insert_ne, list_lookup_insert_eq by done. done.
  - intros k Hi Hj. by rewrite !list_lookup_insert_ne by done.
Qed.

(** * [slice::starts_with] *)
Fixpoint starts_with {A} `{EqDecision A} (prefix l : list A) : bool :=
  match prefix, l with
  | [], _ => true
  | x :: p, y :: l' => bool_decide (x = y) && starts_with p l'
  | _ :: _, [] => false
  end.

Lemma starts_with_spec {A} `{EqDecision A} (p l : list A) :
  starts_with p l = true ↔ ∃ r, l = p ++ r.
Proof.
  revert l. induction p as [|x p IH]; intros l; simpl; [naive_solver|].
  destruct l as [|y l]; [naive_solver|]. rewrite andb_true_iff, bool_decide_eq_true, IH. naive_solver.
Qed.

(** * Sorted lists *)
Lemma StronglySorted_snoc {A} (R : relation A) l x :
  StronglySorted R l → (∀ y, y ∈ l → R y x) → StronglySorted R (l ++ [x]).
Proof.
  intros Hl Hx. apply StronglySorted_app_2; [|done|repeat constructor].
  intros y z Hy ->%list_elem_of_singleton. by apply Hx.
Qed.

Lemma StronglySorted_filter {A} (R : relation A) (f : A → bool) l :
  StronglySorted R l → StronglySorted R (List.filter f l).
Proof.
  induction 1 as [|x l Hl IH HF]; simpl; [constructor|]. destruct (f x); [|done]. constructor; [done|].
  apply Forall_forall. intros y Hy%list_elem_of_In%filter_In. apply (proj1 (Forall_forall _ _) HF), list_elem_of_In, Hy.
Qed.

Lemma StronglySorted_rev {A} (R : relation A) l :
  StronglySorted R l → StronglySorted (flip R) (rev l).
Proof.
  induction 1 as [|x l Hl IH HF]; simpl; [constructor|]. apply StronglySorted_snoc; [done|].
  intros y Hy%list_elem_of_In%in_rev%list_elem_of_In.
  by apply (proj1 (Forall_forall _ _) HF).
Qed.

(** * Bytes *)
Abbreviation u8 := Byte.byte.
#[export] Instance byte_eq_dec : EqDecision u8 := Byte.byte_eq_dec.

(** * Tactics and hint databases *)

(** Split every [match] and [if] of the goal and hypotheses, closing the
    contradictory branches. *)
Ltac crush_match := repeat (case_match; simplify_eq/=; try done).

(** Normalise a monadic equation in hypothesis [H] into the sequence of the
    calls that succeeded. *)
Ltac inv_bind H :=
  repeat match type of H with
  | (_ ≫= _) _ = (Ok _, _) =>
      let a := fresh "a" in let s := fresh "s" in let H1 := fresh "Hb" in
      apply M_bind_inv_Ok in H as (a & s & H1 & H); cbn beta in H
  end.

Create HintDb rust.
Create Rewrite HintDb rust.
Create HintDb vm.
#[export] Hint Rewrite @vec_pop_snoc @vec_set_last_snoc @last_snoc
  @length_app : rust.
#[export] Hint Resolve Forall_app_2 Forall_singleton : rust.
