(* ===== verification/Collections.v ===== *)
(** Ordered maps as the code uses them: Rust's [Ord] as a type class with the
    derived instances the sources rely on (integers, strings, byte strings,
    lexicographic pairs and slices), and [BTreeMap] as a key-sorted
    association list, whose iteration order is the order of its keys. *)
From S2P Require Import Prelude.

(** * [Ord] *)
Class Ord (K : Type) := cmp : K → K → comparison.
#[global] Hint Mode Ord ! : typeclass_instances.

Class OrdLaws (K : Type) `{Ord K} : Prop := {
  cmp_eq_iff (x y : K) : cmp x y = Eq ↔ x = y;
  cmp_antisym (x y : K) : cmp y x = CompOpp (cmp x y);
  cmp_lt_trans (x y z : K) : cmp x y = Lt → cmp y z = Lt → cmp x z = Lt
}.
#[global] Hint Mode OrdLaws ! - : typeclass_instances.

Section OrdFacts.
Context {K : Type} `{OrdLaws K}.

Lemma cmp_refl (x : K) : cmp x x = Eq.
Proof. by apply cmp_eq_iff. Qed.

Lemma cmp_gt_lt (x y : K) : cmp x y = Gt ↔ cmp y x = Lt.
Proof. rewrite (cmp_antisym x y). destruct (cmp x y); simpl; split; congruence. Qed.

Lemma cmp_lt_irrefl (x : K) : cmp x x ≠ Lt.
Proof. by rewrite cmp_refl. Qed.

Lemma cmp_lt_ne (x y : K) : cmp x y = Lt → x ≠ y.
Proof. intros Hl ->. by apply cmp_lt_irrefl in Hl. Qed.

Lemma cmp_lt_asym (x y : K) : cmp x y = Lt → cmp y x ≠ Lt.
Proof. intros Hl. rewrite cmp_antisym, Hl. done. Qed.

Lemma cmp_not_gt_trans (x y z : K) : cmp x y ≠ Gt → cmp y z ≠ Gt → cmp x z ≠ Gt.
Proof.
  destruct (cmp x y) eqn:E1; [apply cmp_eq_iff in E1 as ->; done| |done]. intros _.
  destruct (cmp y z) eqn:E2; [apply cmp_eq_iff in E2 as <-; by rewrite E1| |done].
  by rewrite (cmp_lt_trans _ _ _ E1 E2).
Qed.

Definition ord_eqb (x y : K) : bool := match cmp x y with Eq => true | _ => false end.

Lemma ord_eqb_true (x y : K) : ord_eqb x y = true ↔ x = y.
Proof. unfold ord_eqb. rewrite <- cmp_eq_iff. destruct (cmp x y); split; congruence. Qed.

Lemma ord_eqb_false (x y : K) : ord_eqb x y = false ↔ x ≠ y.
Proof. rewrite <- ord_eqb_true. destruct (ord_eqb x y); split; congruence. Qed.

Lemma ord_eqb_refl (x : K) : ord_eqb x x = true.
Proof. by apply ord_eqb_true. Qed.

(** The three-way case analysis on two keys. *)
Lemma cmp_cases (x y : K) :
  (cmp x y = Lt ∧ x ≠ y) ∨ (cmp x y = Eq ∧ x = y) ∨ (cmp x y = Gt ∧ cmp y x = Lt ∧ x ≠ y).
Proof.
  destruct (cmp x y) eqn:E.
  - right; left. by apply cmp_eq_iff in E.
  - left. by split; [|apply cmp_lt_ne].
  - right; right. apply cmp_gt_lt in E. split_and!; [done..|].
    intros ->. by apply cmp_lt_irrefl in E.
Qed.
End OrdFacts.
#[global] Hint Resolve cmp_refl cmp_lt_ne : rust.

(** ** Instances *)
#[export] Instance nat_ord : Ord nat := Nat.compare.
#[export] Instance nat_ord_laws : OrdLaws nat.
Proof.
  unfold nat_ord; split; unfold cmp; intros.
  - apply Nat.compare_eq_iff.
  - apply Nat.compare_antisym.
  - rewrite Nat.compare_lt_iff in *; lia.
Qed.

#[export] Instance Z_ord : Ord Z := Z.compare.
#[export] Instance Z_ord_laws : OrdLaws Z.
Proof.
  unfold Z_ord; split; unfold cmp; intros.
  - apply Z.compare_eq_iff.
  - apply Z.compare_antisym.
  - rewrite Z.compare_lt_iff in *; lia.
Qed.

(** An order pulled back along an injection. *)
Lemma ord_laws_inj {A K} `{OrdLaws K} (f : A → K) `{!Inj eq eq f} :
  @OrdLaws A (λ x y, cmp (f x) (f y)).
Proof.
  split.
  - intros x y. change (cmp (f x) (f y) = Eq ↔ x = y).
    rewrite cmp_eq_iff. split; [apply (inj f)|congruence].
  - intros x y. exact (cmp_antisym (f x) (f y)).
  - intros x y z. exact (cmp_lt_trans (f x) (f y) (f z)).
Qed.

#[export] Instance u8_ord : Ord u8 := λ x y, N.compare (Byte.to_N x) (Byte.to_N y).
#[export] Instance u8_ord_laws : OrdLaws u8.
Proof.
  unfold u8_ord; split; unfold cmp; intros.
  - rewrite N.compare_eq_iff. split; [|congruence]. intros E.
    apply (f_equal Byte.of_N) in E. rewrite !Byte.of_to_N in E. congruence.
  - apply N.compare_antisym.
  - rewrite N.compare_lt_iff in *; lia.
Qed.

(** Slices compare lexicographically. *)
Fixpoint list_cmp {A} `{Ord A} (l k : list A) : comparison :=
  match l, k with
  | [], [] => Eq
  | [], _ :: _ => Lt
  | _ :: _, [] => Gt
  | x :: l', y :: k' => match cmp x y with Eq => list_cmp l' k' | c => c end
  end.
#[export] Instance list_ord {A} `{Ord A} : Ord (list A) := list_cmp.

#[export] Instance list_ord_laws {A} `{OrdLaws A} : OrdLaws (list A).
Proof.
  unfold list_ord; split; unfold cmp.
  - induction x as [|x l IH]; intros [|y k]; simpl; try done.
    destruct (cmp_cases x y) as [[-> ?]|[[-> ->]|[-> [? ?]]]];
      [split; congruence| |split; congruence]. rewrite IH. split; congruence.
  - induction x as [|x l IH]; intros [|y k]; simpl; try done.
    rewrite (cmp_antisym x y). destruct (cmp x y); simpl; done || apply IH.
  - induction x as [|x l IH]; intros [|y k] [|z m]; simpl; try done.
    destruct (cmp x y) eqn:E1; [apply cmp_eq_iff in E1 as ->| |done];
      destruct (cmp y z) eqn:E2; try done; intros ??.
    + by eapply IH.
    + by apply cmp_eq_iff in E2 as ->; rewrite E1.
    + by rewrite (cmp_lt_trans _ _ _ E1 E2).
Qed.

(** Tuples and structs with derived [Ord] compare field by field. *)
#[export] Instance pair_ord {A B} `{Ord A, Ord B} : Ord (A * B) := λ p q,
  match cmp p.1 q.1 with Eq => cmp p.2 q.2 | c => c end.
#[export] Instance pair_ord_laws {A B} `{OrdLaws A, OrdLaws B} : OrdLaws (A * B).
Proof.
  split.
  - intros [a b] [c d]. change (match cmp a c with Eq => cmp b d | r => r end = Eq ↔ (a, b) = (c, d)).
    destruct (cmp_cases a c) as [[-> ?]|[[-> ->]|[-> [? ?]]]];
      [naive_solver| |naive_solver]. rewrite cmp_eq_iff. naive_solver.
  - intros [a b] [c d].
    change (match cmp c a with Eq => cmp d b | r => r end
            = CompOpp match cmp a c with Eq => cmp b d | r => r end).
    rewrite (cmp_antisym a c). destruct (cmp a c); simpl; done || apply cmp_antisym.
  - intros [a b] [c d] [e f].
    change (match cmp a c with Eq => cmp b d | r => r end = Lt →
            match cmp c e with Eq => cmp d f | r => r end = Lt →
            match cmp a e with Eq => cmp b f | r => r end = Lt).
    destruct (cmp a c) eqn:E1; [apply cmp_eq_iff in E1 as ->| |done];
      destruct (cmp c e) eqn:E2; try done; intros ??.
    + by eapply cmp_lt_trans.
    + by apply cmp_eq_iff in E2 as ->; rewrite E1.
    + by rewrite (cmp_lt_trans _ _ _ E1 E2).
Qed.

(** [str] compares by its bytes. *)
#[export] Instance string_ord : Ord string := λ s t,
  cmp (String.list_byte_of_string s) (String.list_byte_of_string t).
#[export] Instance string_ord_laws : OrdLaws string.
Proof.
  unshelve eapply (ord_laws_inj String.list_byte_of_string).
  intros s t E. apply (f_equal String.string_of_list_byte) in E.
  by rewrite !String.string_of_list_byte_of_string in E.
Qed.

(** * [BTreeMap] *)
Abbreviation BTreeMap K V := (list (K * V)).

Section BTreeMap.
Context {K V : Type} `{Ord K}.
Implicit Types (m : list (K * V)) (k : K) (v : V).

Fixpoint bt_get k m : option V :=
  match m with
  | [] => None
  | (k', v) :: m' => if ord_eqb k k' then Some v else bt_get k m'
  end.

Definition bt_contains k m : bool := match bt_get k m with Some _ => true | None => false end.

Fixpoint bt_insert k v m : list (K * V) :=
  match m with
  | [] => [(k, v)]
  | (k', v') :: m' =>
      match cmp k k' with
      | Lt => (k, v) :: m
      | Eq => (k, v) :: m'
      | Gt => (k', v') :: bt_insert k v m'
      end
  end.

Fixpoint bt_remove k m : list (K * V) :=
  match m with
  | [] => []
  | (k', v') :: m' => if ord_eqb k k' then m' else (k', v') :: bt_remove k m'
  end.

(** [collect()] from an iterator of pairs: later pairs overwrite. *)
Definition bt_from_iter (l : list (K * V)) : list (K * V) :=
  fold_left (λ m p, bt_insert p.1 p.2 m) l [].

(** [entry(k).or_default()] followed by an update through the reference. *)
Definition bt_upsert (k : K) (dflt : V) (f : V → V) m : list (K * V) :=
  bt_insert k (f (default dflt (bt_get k m))) m.

(** [get_mut(k)] followed by an update through the reference. *)
Definition bt_alter (k : K) (f : V → V) m : list (K * V) :=
  match bt_get k m with Some v => bt_insert k (f v) m | None => m end.

Definition key_lt (p q : K * V) : Prop := cmp p.1 q.1 = Lt.
Definition bt_wf m : Prop := StronglySorted key_lt m.
End BTreeMap.

Arguments bt_wf {K V _} m.
Arguments key_lt {K V _} p q.

Section BTreeMapFacts.
Context {K V : Type} `{OrdLaws K}.
Implicit Types (m : list (K * V)) (k : K) (v : V).

Lemma bt_get_insert k k' v m :
  bt_get k (bt_insert k' v m) = if ord_eqb k k' then Some v else bt_get k m.
Proof.
  induction m as [|[k1 v1] m IH]; simpl; [done|].
  destruct (cmp_cases k' k1) as [[-> ?]|[[-> ->]|[-> [? ?]]]]; simpl.
  - done.
  - by destruct (ord_eqb k k1).
  - rewrite IH. destruct (ord_eqb k k1) eqn:E1; [|done].
    apply ord_eqb_true in E1 as ->.
    by rewrite (proj2 (ord_eqb_false k1 k')) by congruence.
Qed.

Lemma bt_get_insert_eq k v m : bt_get k (bt_insert k v m) = Some v.
Proof. by rewrite bt_get_insert, ord_eqb_refl. Qed.

Lemma bt_get_insert_ne k k' v m : k ≠ k' → bt_get k (bt_insert k' v m) = bt_get k m.
Proof. intros Hn. by rewrite bt_get_insert, (proj2 (ord_eqb_false _ _) Hn). Qed.

Lemma bt_get_elem k v m : bt_get k m = Some v → (k, v) ∈ m.
Proof.
  induction m as [|[k1 v1] m IH]; simpl; [done|].
  destruct (ord_eqb k k1) eqn:E; rewrite elem_of_cons.
  - apply ord_eqb_true in E as ->. naive_solver.
  - auto.
Qed.

Lemma bt_get_None_notin k m : bt_get k m = None ↔ k ∉ m.*1.
Proof.
  induction m as [|[k1 v1] m IH]; simpl; [set_solver|].
  rewrite not_elem_of_cons. destruct (ord_eqb k k1) eqn:E.
  - apply ord_eqb_true in E. naive_solver.
  - apply ord_eqb_false in E. naive_solver.
Qed.

(** ** The sorted representation *)
Lemma bt_wf_nil : bt_wf ([] : list (K * V)).
Proof. constructor. Qed.

Lemma bt_wf_tail p m : bt_wf (p :: m) → bt_wf m.
Proof. by inversion 1. Qed.

Lemma bt_wf_cons k v m :
  bt_wf ((k, v) :: m) ↔ bt_wf m ∧ ∀ k' v', (k', v') ∈ m → cmp k k' = Lt.
Proof.
  unfold bt_wf. split.
  - inversion 1 as [|? ? ? HF]; subst. split; [done|].
    intros k' v' Hin. rewrite Forall_forall in HF. by apply (HF (k', v')).
  - intros [Hs HF]. constructor; [done|]. apply Forall_forall. intros [k' v'] Hin. eapply HF, Hin.
Qed.

Lemma bt_get_lt_None k k1 v1 m : bt_wf ((k1, v1) :: m) → cmp k k1 = Lt → bt_get k ((k1, v1) :: m) = None.
Proof.
  intros [_ HF]%bt_wf_cons Hl. apply bt_get_None_notin. simpl.
  apply not_elem_of_cons. split; [by apply cmp_lt_ne|].
  rewrite list_elem_of_fmap. intros ([k2 v2] & -> & Hin). simpl in Hl.
  apply (cmp_lt_irrefl k2). eapply cmp_lt_trans; [exact Hl|]. eapply HF, Hin.
Qed.

Lemma bt_wf_notin k v m : bt_wf ((k, v) :: m) → bt_get k m = None.
Proof.
  intros [_ HF]%bt_wf_cons. apply bt_get_None_notin.
  rewrite list_elem_of_fmap. intros ([k2 v2] & -> & Hin).
  by apply HF, cmp_lt_irrefl in Hin.
Qed.

Lemma bt_elem_get k v m : bt_wf m → (k, v) ∈ m → bt_get k m = Some v.
Proof.
  induction m as [|[k1 v1] m IH]; [set_solver|].
  intros Hw [[= -> ->]|Hin]%elem_of_cons; simpl.
  - by rewrite ord_eqb_refl.
  - apply bt_wf_cons in Hw as [Hw HF]. apply HF in Hin as Hl.
    destruct (ord_eqb k k1) eqn:E; [|auto].
    apply ord_eqb_true in E as ->. by apply cmp_lt_irrefl in Hl.
Qed.

Lemma bt_get_iff k v m : bt_wf m → bt_get k m = Some v ↔ (k, v) ∈ m.
Proof. split; eauto using bt_get_elem, bt_elem_get. Qed.

Lemma elem_of_bt_insert k v k' v' m :
  (k', v') ∈ bt_insert k v m → (k', v') = (k, v) ∨ (k', v') ∈ m.
Proof.
  induction m as [|[k1 v1] m IH]; simpl; [set_solver|].
  destruct (cmp k k1); set_solver.
Qed.

Lemma bt_wf_insert k v m : bt_wf m → bt_wf (bt_insert k v m).
Proof.
  induction m as [|[k1 v1] m IH]; intros Hw; simpl.
  - apply bt_wf_cons. split; [constructor|set_solver].
  - apply bt_wf_cons in Hw as Hw'. destruct Hw' as [Hm HF].
    destruct (cmp k k1) eqn:E.
    + apply cmp_eq_iff in E as ->. by apply bt_wf_cons.
    + apply bt_wf_cons. split; [done|].
      intros k' v' [[= -> ->]|Hin]%elem_of_cons; eauto using cmp_lt_trans.
    + apply cmp_gt_lt in E. apply bt_wf_cons. split; [auto|].
      intros k' v' [[= -> ->]|Hin]%elem_of_bt_insert; eauto.
Qed.

Lemma elem_of_bt_remove k p m : p ∈ bt_remove k m → p ∈ m.
Proof.
  induction m as [|[k1 v1] m IH]; simpl; [done|].
  destruct (ord_eqb k k1); set_solver.
Qed.

Lemma bt_wf_remove k m : bt_wf m → bt_wf (bt_remove k m).
Proof.
  induction m as [|[k1 v1] m IH]; intros Hw; simpl; [done|].
  apply bt_wf_cons in Hw as [Hm HF]. destruct (ord_eqb k k1); [done|].
  apply bt_wf_cons. split; [auto|]. intros k' v' Hin%elem_of_bt_remove. eauto.
Qed.

Lemma bt_get_remove k k' m :
  bt_wf m → bt_get k (bt_remove k' m) = if ord_eqb k k' then None else bt_get k m.
Proof.
  induction m as [|[k1 v1] m IH]; intros Hw; simpl; [by case_match|].
  destruct (ord_eqb k' k1) eqn:E1; simpl.
  - apply ord_eqb_true in E1 as ->. destruct (ord_eqb k k1) eqn:E2; [|done].
    apply ord_eqb_true in E2 as ->. by eapply bt_wf_notin.
  - rewrite IH by (by eapply bt_wf_tail). destruct (ord_eqb k k1) eqn:E2; [|done].
    apply ord_eqb_true in E2 as ->. apply ord_eqb_false, not_eq_sym, ord_eqb_false in E1.
    by rewrite E1.
Qed.

Lemma bt_wf_filter (P : K * V → bool) m : bt_wf m → bt_wf (List.filter P m).
Proof.
  induction m as [|[k1 v1] m IH]; intros Hw; simpl; [done|].
  apply bt_wf_cons in Hw as [Hm HF]. destruct (P (k1, v1)); [|auto].
  apply bt_wf_cons. split; [auto|]. intros k' v' Hin. apply list_elem_of_In, filter_In in Hin as [Hin _].
  apply list_elem_of_In in Hin. eauto.
Qed.

Lemma bt_get_filter (P : K * V → bool) k m :
  bt_wf m →
  bt_get k (List.filter P m) =
    match bt_get k m with Some v => if P (k, v) then Some v else None | None => None end.
Proof.
  induction m as [|[k1 v1] m IH]; intros Hw; simpl; [done|].
  pose proof (bt_wf_notin _ _ _ Hw) as Hn. specialize (IH (bt_wf_tail _ _ Hw)).
  destruct (P (k1, v1)) eqn:EP; simpl; destruct (ord_eqb k k1) eqn:E; try done.
  - apply ord_eqb_true in E as ->. by rewrite EP.
  - apply ord_eqb_true in E as ->. rewrite IH, Hn, EP. done.
Qed.

(** Two sorted maps with the same lookups are the same list. *)
Lemma bt_ext m1 m2 : bt_wf m1 → bt_wf m2 → (∀ k, bt_get k m1 = bt_get k m2) → m1 = m2.
Proof.
  revert m2. induction m1 as [|[k1 v1] m1 IH]; intros [|[k2 v2] m2] Hw1 Hw2 Hg.
  - done.
  - specialize (Hg k2). simpl in Hg. by rewrite ord_eqb_refl in Hg.
  - specialize (Hg k1). simpl in Hg. by rewrite ord_eqb_refl in Hg.
  - destruct (cmp_cases k1 k2) as [[E ?]|[[E ->]|[E [E' ?]]]].
    + specialize (Hg k1). rewrite (bt_get_lt_None _ _ _ _ Hw2 E) in Hg.
      simpl in Hg. by rewrite ord_eqb_refl in Hg.
    + pose proof (Hg k2) as Hv. simpl in Hv. rewrite !ord_eqb_refl in Hv. simplify_eq.
      f_equal. apply IH; [by eapply bt_wf_tail..|]. intros k. specialize (Hg k).
      simpl in Hg. destruct (ord_eqb k k2) eqn:Ek; [|done].
      apply ord_eqb_true in Ek as ->. by rewrite (bt_wf_notin _ _ _ Hw1), (bt_wf_notin _ _ _ Hw2).
    + specialize (Hg k2). rewrite (bt_get_lt_None _ _ _ _ Hw1 E') in Hg.
      simpl in Hg. by rewrite ord_eqb_refl in Hg.
Qed.

Lemma bt_get_upsert k k' d f m :
  bt_get k (bt_upsert k' d f m) =
    if ord_eqb k k' then Some (f (default d (bt_get k' m))) else bt_get k m.
Proof. apply bt_get_insert. Qed.

Lemma bt_wf_upsert k d f m : bt_wf m → bt_wf (bt_upsert k d f m).
Proof. apply bt_wf_insert. Qed.

Lemma bt_get_alter k k' f m :
  bt_get k (bt_alter k' f m) = if ord_eqb k k' then f <$> bt_get k' m else bt_get k m.
Proof.
  unfold bt_alter. destruct (bt_get k' m) as [v|] eqn:E; [apply bt_get_insert|].
  destruct (ord_eqb k k') eqn:Ek; [|done]. by apply ord_eqb_true in Ek as ->.
Qed.

Lemma bt_wf_alter k f m : bt_wf m → bt_wf (bt_alter k f m).
Proof. unfold bt_alter. case_match; eauto using bt_wf_insert. Qed.

Lemma bt_wf_from_iter (l : list (K * V)) : bt_wf (bt_from_iter l).
Proof.
  unfold bt_from_iter.
  enough (∀ m, bt_wf m → bt_wf (fold_left (λ m p, bt_insert p.1 p.2 m) l m)) by (apply H1, bt_wf_nil).
  induction l as [|[k v] l IH]; simpl; eauto using bt_wf_insert.
Qed.

(** The lookups of a collected map: the last pair with the key wins. *)
Lemma bt_get_from_iter_app k (l1 l2 : list (K * V)) :
  bt_get k (bt_from_iter (l1 ++ l2)) =
    match bt_get k (bt_from_iter l2) with Some v => Some v | None => bt_get k (bt_from_iter l1) end.
Proof.
  unfold bt_from_iter. rewrite fold_left_app.
  generalize (fold_left (λ m p, bt_insert p.1 p.2 m) l1 []) as m1.
  induction l2 as [|[k2 v2] l2 IH] using rev_ind; intros m1; [done|].
  rewrite !fold_left_app. simpl. rewrite !bt_get_insert. destruct (ord_eqb k k2); [done|apply IH].
Qed.

Lemma bt_get_from_iter_None k (l : list (K * V)) : bt_get k (bt_from_iter l) = None ↔ k ∉ l.*1.
Proof.
  induction l as [|[k2 v2] l IH]; [simpl; set_solver|].
  change ((k2, v2) :: l) with ([(k2, v2)] ++ l). rewrite bt_get_from_iter_app. simpl.
  rewrite not_elem_of_cons. destruct (bt_get k (bt_from_iter l)); [naive_solver|].
  destruct (ord_eqb k k2) eqn:E; [apply ord_eqb_true in E|apply ord_eqb_false in E]; naive_solver.
Qed.

(** A map collected from pairs with different keys holds exactly the pairs. *)
Lemma bt_insert_perm k v m : bt_get k m = None → bt_insert k v m ≡ₚ (k, v) :: m.
Proof.
  induction m as [|[k' v'] m IH]; simpl; [done|]. unfold ord_eqb. destruct (cmp k k'); [done..|].
  intros Hk. rewrite IH by done. apply Permutation_swap.
Qed.
Lemma bt_from_iter_perm (l : list (K * V)) : NoDup l.*1 → bt_from_iter l ≡ₚ l.
Proof.
  induction l as [|[k v] l IH] using rev_ind; [done|]. rewrite fmap_app. intros (Hl & Hk & _)%NoDup_app.
  unfold bt_from_iter. rewrite fold_left_app. cbn [fold_left fst snd]. fold (bt_from_iter l).
  rewrite bt_insert_perm, IH, Permutation_app_comm; [done..|]. apply bt_get_from_iter_None. intros Hin. apply (Hk k Hin). by left.
Qed.
End BTreeMapFacts.

#[export] Hint Resolve bt_wf_nil bt_wf_insert bt_wf_remove bt_wf_filter bt_wf_upsert
  bt_wf_alter bt_wf_from_iter : rust.

(** * Sorting

    [slice::sort] is stable; an insertion sort that keeps the order of equal
    elements gives the same list. *)
Section Sort.
Context {K : Type} `{OrdLaws K}.
Implicit Types (x y : K) (l : list K).

Fixpoint sort_insert x l : list K :=
  match l with
  | [] => [x]
  | y :: l' => match cmp y x with Gt => x :: y :: l' | _ => y :: sort_insert x l' end
  end.
Definition vec_sort l : list K := fold_left (λ acc x, sort_insert x acc) l [].

Lemma sort_insert_perm x l : sort_insert x l ≡ₚ x :: l.
Proof. induction l as [|y l IH]; simpl; [done|]. destruct (cmp y x); [..|done]; rewrite IH; apply Permutation_swap. Qed.
Lemma vec_sort_perm l : vec_sort l ≡ₚ l.
Proof.
  unfold vec_sort. assert (∀ acc, fold_left (λ acc x, sort_insert x acc) l acc ≡ₚ l ++ acc) as Hacc.
  { induction l as [|x l IH]; intros acc; simpl; [done|]. rewrite IH, sort_insert_perm. by rewrite <- Permutation_middle. }
  by rewrite Hacc, app_nil_r.
Qed.

Definition ord_le x y : Prop := cmp x y ≠ Gt.
Lemma sort_insert_sorted x l : StronglySorted ord_le l → StronglySorted ord_le (sort_insert x l).
Proof.
  induction 1 as [|y l Hl IH Hy]; simpl; [repeat constructor|]. destruct (cmp_cases y x) as [[E _]|[[E _]|[E [E' _]]]]; rewrite E.
  1, 2: constructor; [done|]; rewrite sort_insert_perm; constructor; [unfold ord_le; by rewrite E|done].
  constructor; [by constructor|]. constructor; [unfold ord_le; by rewrite E'|].
  eapply Forall_impl; [exact Hy|]. intros z Hz. eapply cmp_not_gt_trans; [by rewrite E'|exact Hz].
Qed.
Lemma vec_sort_sorted l : StronglySorted ord_le (vec_sort l).
Proof.
  unfold vec_sort. assert (∀ acc, StronglySorted ord_le acc → StronglySorted ord_le (fold_left (λ acc x, sort_insert x acc) l acc)) as Hacc.
  { induction l as [|x l IH]; intros acc Hs; simpl; [done|]. by apply IH, sort_insert_sorted. }
  apply Hacc. constructor.
Qed.
End Sort.
