(* ===== verification/PolicyData.v ===== *)
(** The data of the policy language as the VM sees it: the types of
    [aranya-policy-ast] that reach the VM ([VType], field and fact
    definitions) and the values of [aranya-policy-module/src/data.rs]
    ([Value], [Struct], [Fact], [HashableValue], [KVPair]) with their
    conversions. *)
From S2P Require Import Prelude Collections.
Local Open Scope string_scope.
Local Open Scope list_scope.
Local Open Scope nat_scope.

(** * Types and schemas (aranya-policy-ast) *)
Inductive VType : Type :=
| TString
| TBytes
| TInt
| TBool
| TId
| TStruct (name : string)
| TEnum (name : string)
| TOptional (t : VType).

#[export] Instance VType_eq_dec : EqDecision VType.
Proof. solve_decision. Defined.

Fixpoint vtype_display (t : VType) : string :=
  match t with
  | TString => "string"
  | TBytes => "bytes"
  | TInt => "int"
  | TBool => "bool"
  | TId => "id"
  | TStruct name => "struct " +:+ name
  | TEnum name => "enum " +:+ name
  | TOptional t' => "optional " +:+ vtype_display t'
  end.

Record FieldDefinition := mkFieldDefinition {
  fd_identifier : string;
  fd_field_type : VType
}.

Record FactDefinition := mkFactDefinition {
  fdef_immutable : bool;
  fdef_identifier : string;
  fdef_key : list FieldDefinition;
  fdef_value : list FieldDefinition
}.

(** * Values *)

(** [Id([u8; 64])]: compared and ordered by its bytes. *)
Definition Id : Type := list u8.

Inductive HashableValue : Type :=
| HInt (i : Z)
| HBool (b : bool)
| HString (s : string)
| HId (id : Id).

#[export] Instance HashableValue_eq_dec : EqDecision HashableValue.
Proof. solve_decision. Defined.

Record FactKey := mkFactKey { fk_identifier : string; fk_value : HashableValue }.

#[export] Instance FactKey_eq_dec : EqDecision FactKey.
Proof. solve_decision. Defined.

Definition FactKeyList := list FactKey.

(** The records that hold values are declared over the value type, so that
    [Value] can be nested in them as it is in the source. *)
Record FactValueOf (V : Type) := mkFactValue { fv_identifier : string; fv_value : V }.
Arguments mkFactValue {V}. Arguments fv_identifier {V}. Arguments fv_value {V}.

Record StructOf (V : Type) := mkStruct { s_name : string; s_fields : list (string * V) }.
Arguments mkStruct {V}. Arguments s_name {V}. Arguments s_fields {V}.

Record FactOf (V : Type) := mkFact {
  f_name : string;
  f_keys : list FactKey;
  f_values : list (FactValueOf V)
}.
Arguments mkFact {V}. Arguments f_name {V}. Arguments f_keys {V}. Arguments f_values {V}.

Inductive Value : Type :=
| VInt (i : Z)
| VBool (b : bool)
| VString (s : string)
| VBytes (b : list u8)
| VStruct (s : StructOf Value)
| VFact (f : FactOf Value)
| VId (id : Id)
| VEnum (name value : string)
| VNone.

Definition FactValue := FactValueOf Value.
Definition FactValueList := list FactValue.
Definition Struct := StructOf Value.
Definition Fact := FactOf Value.

(** ** Induction and equality on values *)

(** The induction principle that reaches the values nested in structs and
    facts. *)
Section ValueInd.
Variable P : Value → Prop.
Hypothesis HInt_ : ∀ i, P (VInt i).
Hypothesis HBool_ : ∀ b, P (VBool b).
Hypothesis HString_ : ∀ s, P (VString s).
Hypothesis HBytes_ : ∀ b, P (VBytes b).
Hypothesis HStruct_ : ∀ n fs, Forall (λ p, P p.2) fs → P (VStruct (mkStruct n fs)).
Hypothesis HFact_ : ∀ n ks vs, Forall (λ v, P (fv_value v)) vs → P (VFact (mkFact n ks vs)).
Hypothesis HId_ : ∀ i, P (VId i).
Hypothesis HEnum_ : ∀ n v, P (VEnum n v).
Hypothesis HNone_ : P VNone.

Fixpoint Value_nested_ind (v : Value) : P v :=
  match v with
  | VInt i => HInt_ i
  | VBool b => HBool_ b
  | VString s => HString_ s
  | VBytes b => HBytes_ b
  | VStruct (mkStruct n fs) =>
      HStruct_ n fs ((fix go (l : list (string * Value)) : Forall (λ p, P p.2) l :=
        match l with
        | [] => Forall_nil_2 _
        | p :: l' => Forall_cons_2 _ p l' (Value_nested_ind p.2) (go l')
        end) fs)
  | VFact (mkFact n ks vs) =>
      HFact_ n ks vs ((fix go (l : list (FactValueOf Value)) : Forall (λ w, P (fv_value w)) l :=
        match l with
        | [] => Forall_nil_2 _
        | w :: l' => Forall_cons_2 _ w l' (Value_nested_ind (fv_value w)) (go l')
        end) vs)
  | VId i => HId_ i
  | VEnum n w => HEnum_ n w
  | VNone => HNone_
  end.
End ValueInd.

(** The derived [PartialEq] of [Value]. *)
Fixpoint value_eqb (v w : Value) : bool :=
  match v, w with
  | VInt a, VInt b => (a =? b)%Z
  | VBool a, VBool b => Bool.eqb a b
  | VString a, VString b => bool_decide (a = b)
  | VBytes a, VBytes b => bool_decide (a = b)
  | VStruct (mkStruct n fs), VStruct (mkStruct n' fs') =>
      bool_decide (n = n') &&
      (fix go (l l' : list (string * Value)) : bool :=
         match l, l' with
         | [], [] => true
         | p :: t, p' :: t' => bool_decide (p.1 = p'.1) && value_eqb p.2 p'.2 && go t t'
         | _, _ => false
         end) fs fs'
  | VFact (mkFact n ks vs), VFact (mkFact n' ks' vs') =>
      bool_decide (n = n') && bool_decide (ks = ks') &&
      (fix go (l l' : list (FactValueOf Value)) : bool :=
         match l, l' with
         | [], [] => true
         | p :: t, p' :: t' =>
             bool_decide (fv_identifier p = fv_identifier p')
             && value_eqb (fv_value p) (fv_value p') && go t t'
         | _, _ => false
         end) vs vs'
  | VId a, VId b => bool_decide (a = b)
  | VEnum a b, VEnum a' b' => bool_decide (a = a') && bool_decide (b = b')
  | VNone, VNone => true
  | _, _ => false
  end.

Lemma value_eqb_eq v : ∀ w, value_eqb v w = true ↔ v = w.
Proof.
  induction v as [i|b|s|b|n fs IH|n ks vs IH|i|n e|] using Value_nested_ind; intros w;
    destruct w as [i'|b'|s'|b'|[n' fs']|[n' ks' vs']|i'|n' e'|]; simpl; try (split; congruence).
  - rewrite Z.eqb_eq. split; congruence.
  - rewrite Bool.eqb_true_iff. split; congruence.
  - rewrite bool_decide_eq_true. split; congruence.
  - rewrite bool_decide_eq_true. split; congruence.
  - rewrite andb_true_iff, bool_decide_eq_true.
    match goal with |- n = n' ∧ ?b ↔ _ => assert (b ↔ fs = fs') as -> end; [|split; [intros [-> ->]|]; split || idtac; congruence].
    revert fs'. induction IH as [|[k v] fs Hv HF IHl]; intros [|[k' v'] fs']; try (split; congruence).
    rewrite !andb_true_iff, bool_decide_eq_true, IHl, Hv. simpl. split; [intros [[-> ->] ->]|]; naive_solver.
  - rewrite !andb_true_iff, !bool_decide_eq_true.
    match goal with |- (n = n' ∧ ks = ks') ∧ ?b ↔ _ => assert (b ↔ vs = vs') as -> end; [|naive_solver].
    revert vs'. induction IH as [|[k v] vs Hv HF IHl]; intros [|[k' v'] vs']; try (split; congruence).
    rewrite !andb_true_iff, bool_decide_eq_true, IHl, Hv. simpl. naive_solver.
  - rewrite bool_decide_eq_true. split; congruence.
  - rewrite andb_true_iff, !bool_decide_eq_true. naive_solver.
Qed.

#[export] Instance Value_eq_dec : EqDecision Value.
Proof.
  intros v w. destruct (value_eqb v w) eqn:E; [left|right].
  - by apply value_eqb_eq.
  - intros Heq%value_eqb_eq. congruence.
Defined.

(** ** Inspection *)

Definition vtype (v : Value) : option VType :=
  match v with
  | VInt _ => Some TInt
  | VBool _ => Some TBool
  | VString _ => Some TString
  | VBytes _ => Some TBytes
  | VId _ => Some TId
  | VEnum name _ => Some (TEnum name)
  | VStruct s => Some (TStruct (s_name s))
  | _ => None
  end.

Definition type_name (v : Value) : string :=
  match v with
  | VInt _ => "Int"
  | VBool _ => "Bool"
  | VString _ => "String"
  | VBytes _ => "Bytes"
  | VStruct s => "Struct " +:+ s_name s
  | VFact f => "Fact " +:+ f_name f
  | VId _ => "Id"
  | VEnum name _ => "Enum " +:+ name
  | VNone => "None"
  end.

(** [Value::fits_type]; the [unreachable!()] arm is a panic. *)
Definition fits_type {E} (v : Value) (expected_type : VType) : outcome E bool :=
  match vtype v, expected_type with
  | None, TOptional _ => Ok true
  | None, _ => Ok false
  | Some (TOptional _), _ => Panic "unreachable"
  | Some t, TOptional inner => Ok (bool_decide (t = inner))
  | Some t, u => Ok (bool_decide (t = u))
  end.

(** [HashableValue::vtype]. *)
Definition hashable_vtype (h : HashableValue) : VType :=
  match h with
  | HInt _ => TInt
  | HBool _ => TBool
  | HString _ => TString
  | HId _ => TId
  end.

(** * Conversions *)
Inductive ValueConversionError : Type :=
| VCE_InvalidType (want got msg : string)
| VCE_InvalidStructMember (k : string)
| VCE_OutOfRange
| VCE_BadState.

(** [TryFrom<Value>] for each Rust type the VM pops. *)
Class TryFromValue (T : Type) := try_from_value : Value → outcome ValueConversionError T.
(** [Into<Value>]. *)
Class IntoValue (T : Type) := into_value : T → Value.

#[export] Instance i64_from_value : TryFromValue Z := λ v,
  match v with VInt i => Ok i | _ => Err (VCE_InvalidType "Int" (type_name v) "Value -> i64") end.
#[export] Instance bool_from_value : TryFromValue bool := λ v,
  match v with VBool b => Ok b | _ => Err (VCE_InvalidType "Bool" (type_name v) "Value -> bool") end.
#[export] Instance string_from_value : TryFromValue string := λ v,
  match v with VString s => Ok s | _ => Err (VCE_InvalidType "String" (type_name v) "Value -> String") end.
#[export] Instance bytes_from_value : TryFromValue (list u8) := λ v,
  match v with VBytes b => Ok b | _ => Err (VCE_InvalidType "Bytes" (type_name v) "Value -> Vec<u8>") end.
#[export] Instance struct_from_value : TryFromValue (StructOf Value) := λ v,
  match v with VStruct s => Ok s | _ => Err (VCE_InvalidType "Struct" (type_name v) "Value -> Struct") end.
#[export] Instance fact_from_value : TryFromValue (FactOf Value) := λ v,
  match v with VFact f => Ok f | _ => Err (VCE_InvalidType "Fact" (type_name v) "Value -> Fact") end.
#[export] Instance hashable_from_value : TryFromValue HashableValue := λ v,
  match v with
  | VInt i => Ok (HInt i)
  | VBool b => Ok (HBool b)
  | VString s => Ok (HString s)
  | VId i => Ok (HId i)
  | _ => Err (VCE_InvalidType "Int | Bool | String | Id" (type_name v) "Value -> HashableValue")
  end.
(** [TryFrom<Value> for Id]; an [Id] and a byte vector share their model, so
    this one is a function. *)
Definition id_from_value (v : Value) : outcome ValueConversionError Id :=
  match v with VId i => Ok i | _ => Err (VCE_InvalidType "Id" (type_name v) "Value -> Id") end.
(** The blanket implementation for [Option<T>]. *)
#[export] Instance option_from_value {T} `{TryFromValue T} : TryFromValue (option T) := λ v,
  match v with VNone => Ok None | _ => Some <$> try_from_value v end.

#[export] Instance i64_into_value : IntoValue Z := VInt.
#[export] Instance bool_into_value : IntoValue bool := VBool.
#[export] Instance string_into_value : IntoValue string := VString.
#[export] Instance bytes_into_value : IntoValue (list u8) := VBytes.
#[export] Instance struct_into_value : IntoValue (StructOf Value) := VStruct.
#[export] Instance fact_into_value : IntoValue (FactOf Value) := VFact.
#[export] Instance hashable_into_value : IntoValue HashableValue := λ h,
  match h with HInt i => VInt i | HBool b => VBool b | HString s => VString s | HId i => VId i end.
#[export] Instance option_into_value {T} `{IntoValue T} : IntoValue (option T) := λ o,
  match o with Some x => into_value x | None => VNone end.

(** [TryAsMut<bool>] and [TryAsMut<Fact>]: the reference into the value on the
    stack, as the current contents; writing back rebuilds the value. *)
Definition try_as_mut_bool (v : Value) : outcome ValueConversionError bool :=
  match v with VBool b => Ok b | _ => Err (VCE_InvalidType "bool" (type_name v) "Value -> bool") end.
Definition try_as_mut_fact (v : Value) : outcome ValueConversionError Fact :=
  match v with VFact f => Ok f | _ => Err (VCE_InvalidType "Fact" (type_name v) "Value -> Fact") end.

(** * Key-value pairs, facts and structs *)
Record KVPair := mkKVPair { kv_key : string; kv_value : Value }.

Definition kvpair_of_fact_key (k : FactKey) : KVPair :=
  mkKVPair (fk_identifier k) (into_value (fk_value k)).
Definition kvpair_of_fact_value (v : FactValue) : KVPair :=
  mkKVPair (fv_identifier v) (fv_value v).
Definition kvpair_to_pair (p : KVPair) : string * Value := (kv_key p, kv_value p).

(** [Struct::new]. *)
Definition struct_new (name : string) (fields : list KVPair) : Struct :=
  mkStruct name (bt_from_iter (map kvpair_to_pair fields)).

(** [From<Struct> for (String, Vec<KVPair>)]. *)
Definition struct_to_kvpairs (s : Struct) : string * list KVPair :=
  (s_name s, map (λ p, mkKVPair p.1 p.2) (s_fields s)).

(** [Fact::new]. *)
Definition fact_new (name : string) : Fact := mkFact name [] [].

(** [iter_mut().find(..)] then push or overwrite. *)
Fixpoint set_key_in (name : string) (value : HashableValue) (keys : list FactKey) : list FactKey :=
  match keys with
  | [] => [mkFactKey name value]
  | e :: keys' =>
      if bool_decide (fk_identifier e = name) then mkFactKey (fk_identifier e) value :: keys'
      else e :: set_key_in name value keys'
  end.
Definition set_key (name : string) (value : HashableValue) (f : Fact) : Fact :=
  mkFact (f_name f) (set_key_in name value (f_keys f)) (f_values f).

Fixpoint set_value_in (name : string) (value : Value) (values : list FactValue) : list FactValue :=
  match values with
  | [] => [mkFactValue name value]
  | e :: values' =>
      if bool_decide (fv_identifier e = name) then mkFactValue (fv_identifier e) value :: values'
      else e :: set_value_in name value values'
  end.
Definition set_value (name : string) (value : Value) (f : Fact) : Fact :=
  mkFact (f_name f) (f_keys f) (set_value_in name value (f_values f)).

(** * Properties of the data model *)

(** A value that carries no optional type of its own has a type that is never
    [Optional], so the [unreachable!()] arm of [fits_type] is never taken. *)
Lemma vtype_not_optional v t : vtype v ≠ Some (TOptional t).
Proof. by destruct v. Qed.

Definition find_key (name : string) (keys : list FactKey) : option FactKey :=
  List.find (λ k, bool_decide (fk_identifier k = name)) keys.
Definition find_value (name : string) (values : list FactValue) : option FactValue :=
  List.find (λ v, bool_decide (fv_identifier v = name)) values.

(** The identifiers of a fact are pairwise distinct. *)
Definition fact_wf (f : Fact) : Prop :=
  NoDup (map fk_identifier (f_keys f)) ∧ NoDup (map fv_identifier (f_values f)).

Lemma set_key_in_ids name v ks :
  map fk_identifier (set_key_in name v ks) =
    if bool_decide (name ∈ map fk_identifier ks) then map fk_identifier ks
    else map fk_identifier ks ++ [name].
Proof.
  induction ks as [|k ks IH]; simpl; [done|].
  destruct (decide (fk_identifier k = name)) as [<-|Hn].
  - rewrite bool_decide_eq_true_2 by done. simpl. rewrite bool_decide_eq_true_2; [done|set_solver].
  - rewrite bool_decide_eq_false_2 by done. simpl. rewrite IH.
    destruct (decide (name ∈ map fk_identifier ks)).
    + rewrite !bool_decide_eq_true_2; set_solver.
    + rewrite !bool_decide_eq_false_2; set_solver.
Qed.

Lemma set_value_in_ids name v ks :
  map fv_identifier (set_value_in name v ks) =
    if bool_decide (name ∈ map fv_identifier ks) then map fv_identifier ks
    else map fv_identifier ks ++ [name].
Proof.
  induction ks as [|k ks IH]; simpl; [done|].
  destruct (decide (fv_identifier k = name)) as [<-|Hn].
  - rewrite bool_decide_eq_true_2 by done. simpl. rewrite bool_decide_eq_true_2; [done|set_solver].
  - rewrite bool_decide_eq_false_2 by done. simpl. rewrite IH.
    destruct (decide (name ∈ map fv_identifier ks)).
    + rewrite !bool_decide_eq_true_2; set_solver.
    + rewrite !bool_decide_eq_false_2; set_solver.
Qed.

Lemma NoDup_snoc_if (x : string) l :
  NoDup l → NoDup (if bool_decide (x ∈ l) then l else l ++ [x]).
Proof.
  intros Hl. case_bool_decide; [done|]. apply NoDup_app. split_and!; [done|set_solver|].
  apply NoDup_singleton.
Qed.

Lemma fact_wf_set_key name v f : fact_wf f → fact_wf (set_key name v f).
Proof.
  intros [Hk Hv]. split; simpl; [|done]. rewrite set_key_in_ids. by apply NoDup_snoc_if.
Qed.

Lemma fact_wf_set_value name v f : fact_wf f → fact_wf (set_value name v f).
Proof.
  intros [Hk Hv]. split; simpl; [done|]. rewrite set_value_in_ids. by apply NoDup_snoc_if.
Qed.

Lemma fact_wf_new name : fact_wf (fact_new name).
Proof. split; constructor. Qed.

Lemma find_set_key_eq name v ks : find_key name (set_key_in name v ks) = Some (mkFactKey name v).
Proof.
  induction ks as [|k ks IH]; simpl; [by rewrite bool_decide_eq_true_2|].
  destruct (decide (fk_identifier k = name)) as [<-|Hn].
  - rewrite bool_decide_eq_true_2 by done. simpl. by rewrite bool_decide_eq_true_2.
  - rewrite bool_decide_eq_false_2 by done. simpl. by rewrite bool_decide_eq_false_2.
Qed.

Lemma find_set_key_ne name name' v ks :
  name ≠ name' → find_key name' (set_key_in name v ks) = find_key name' ks.
Proof.
  intros Hne. induction ks as [|k ks IH]; simpl; [by rewrite bool_decide_eq_false_2|].
  destruct (decide (fk_identifier k = name)) as [<-|Hn].
  - rewrite bool_decide_eq_true_2 by done. simpl. by rewrite bool_decide_eq_false_2.
  - rewrite bool_decide_eq_false_2 by done. simpl. by rewrite IH.
Qed.
#[export] Hint Resolve fact_wf_set_key fact_wf_set_value fact_wf_new : rust.

(** * The order of fact keys

    [HashableValue] and [FactKey] derive [Ord]: by variant, then by payload;
    by identifier, then by value. *)
Definition hashable_repr (h : HashableValue) : nat * (Z * list u8) :=
  match h with
  | HInt i => (0, (i, []))
  | HBool b => (1, (if b then 1%Z else 0%Z, []))
  | HString s => (2, (0%Z, String.list_byte_of_string s))
  | HId id => (3, (0%Z, id))
  end.

#[export] Instance hashable_repr_inj : Inj eq eq hashable_repr.
Proof.
  intros [i|b|s|i] [j|c|t|j]; simpl; intros; simplify_eq; try done.
  - by destruct b, c.
  - f_equal. rewrite <- (String.string_of_list_byte_of_string s),
      <- (String.string_of_list_byte_of_string t). congruence.
Qed.

#[export] Instance hashable_ord : Ord HashableValue := λ x y, cmp (hashable_repr x) (hashable_repr y).
#[export] Instance hashable_ord_laws : OrdLaws HashableValue := ord_laws_inj hashable_repr.

Definition fact_key_repr (k : FactKey) : string * HashableValue := (fk_identifier k, fk_value k).
#[export] Instance fact_key_repr_inj : Inj eq eq fact_key_repr.
Proof. intros [] []. unfold fact_key_repr. simpl. congruence. Qed.
#[export] Instance fact_key_ord : Ord FactKey := λ x y, cmp (fact_key_repr x) (fact_key_repr y).
#[export] Instance fact_key_ord_laws : OrdLaws FactKey := ord_laws_inj fact_key_repr.
