(* ===== verification/PolicyModule.v ===== *)
(** The serialisable policy module ([aranya-policy-module]): labels,
    instructions, the versioned module container, and the code map that ties
    program addresses to source text. *)
From S2P Require Import Prelude Collections PolicyData.
Local Open Scope string_scope.
Local Open Scope list_scope.
Local Open Scope nat_scope.

(** * Labels (label.rs) *)
Inductive LabelType : Type :=
| LAction
| LCommandPolicy
| LCommandRecall
| LCommandSeal
| LCommandOpen
| LTemporary
| LFunction.

#[export] Instance LabelType_eq_dec : EqDecision LabelType.
Proof. solve_decision. Defined.

Definition label_type_index (t : LabelType) : nat :=
  match t with
  | LAction => 0 | LCommandPolicy => 1 | LCommandRecall => 2 | LCommandSeal => 3
  | LCommandOpen => 4 | LTemporary => 5 | LFunction => 6
  end.

(** The derived [Ord]: declaration order. *)
#[export] Instance LabelType_ord : Ord LabelType := λ a b,
  cmp (label_type_index a) (label_type_index b).
#[export] Instance LabelType_ord_laws : OrdLaws LabelType.
Proof. unshelve eapply (ord_laws_inj label_type_index). by intros [] []. Qed.

Record Label := mkLabel { l_name : string; l_ltype : LabelType }.

#[export] Instance Label_eq_dec : EqDecision Label.
Proof. solve_decision. Defined.
#[export] Instance Label_ord : Ord Label := λ a b,
  cmp (l_name a, l_ltype a) (l_name b, l_ltype b).
#[export] Instance Label_ord_laws : OrdLaws Label.
Proof. unshelve eapply (ord_laws_inj (λ l, (l_name l, l_ltype l))). by intros [] [] [= -> ->]. Qed.

Definition label_new_temp (name : string) : Label := mkLabel name LTemporary.

Definition label_type_display (t : LabelType) : string :=
  match t with
  | LAction => "action" | LCommandPolicy => "policy" | LCommandRecall => "recall"
  | LCommandSeal => "seal" | LCommandOpen => "open" | LTemporary => "temp" | LFunction => "fn"
  end.

Definition label_display (l : Label) : string :=
  label_type_display (l_ltype l) +:+ ":" +:+ l_name l.

(** * Instructions (instructions.rs) *)
Inductive ExitReason : Type := ExitNormal | ExitCheck | ExitPanic.

#[export] Instance ExitReason_eq_dec : EqDecision ExitReason.
Proof. solve_decision. Defined.

Inductive Target : Type :=
| Unresolved (l : Label)
| Resolved (addr : nat).

Definition target_resolved (t : Target) : option nat :=
  match t with Resolved i => Some i | _ => None end.

Inductive Meta : Type :=
| MetaLet (n : string)
| MetaGet (n : string)
| MetaFinish (b : bool)
| MetaFFI (module procedure : string).

Inductive Instruction : Type :=
| IConst (v : Value)
| IDef (ident : string)
| IGet (ident : string)
| ISwap (d : nat)
| IDup (d : nat)
| IPop
| IBlock
| IEnd
| IJump (t : Target)
| IBranch (t : Target)
| INext
| ILast
| ICall (t : Target)
| IExtCall (module procedure : nat)
| IReturn
| IExit (reason : ExitReason)
| IAdd
| ISub
| INot
| IAnd
| IOr
| IGt
| ILt
| IEq
| IFactNew (ident : string)
| IFactKeySet (ident : string)
| IFactValueSet (ident : string)
| IStructNew (ident : string)
| IStructSet (ident : string)
| IStructGet (ident : string)
| IPublish
| ICreate
| IDelete
| IUpdate
| IEmit
| IQuery
| IFactCount (limit : Z)
| IQueryStart
| IQueryNext (ident : string)
| ISerialize
| IDeserialize
| IMeta (m : Meta).

(** * Source spans (codemap.rs) *)

(** A [str] is its UTF-8 bytes. [is_char_boundary] is the standard library's
    test: offset zero, the end, or a byte that is not a continuation byte. *)
Definition is_continuation (b : u8) : bool :=
  let n := Byte.to_N b in (128 <=? n)%N && (n <? 192)%N.

Definition is_char_boundary (text : list u8) (i : nat) : bool :=
  (i =? 0) || match text !! i with
              | Some b => negb (is_continuation b)
              | None => i =? length text
              end.

(** [text.get(start..end)]. *)
Definition str_get (text : list u8) (start end_ : nat) : option (list u8) :=
  if (start <=? end_) && (end_ <=? length text)
     && is_char_boundary text start && is_char_boundary text end_
  then Some (take (end_ - start) (drop start text)) else None.

Record Span := mkSpan { sp_text : list u8; sp_start : nat; sp_end : nat }.

(** [Span::new]. *)
Definition span_new (text : list u8) (start end_ : nat) : option Span :=
  match str_get text start end_ with
  | Some _ => Some (mkSpan text start end_)
  | None => None
  end.

(** [Span::as_str]; indexing panics where [get] gives [None]. *)
Definition span_as_str {E} (sp : Span) : outcome E (list u8) :=
  match str_get (sp_text sp) (sp_start sp) (sp_end sp) with
  | Some s => Ok s
  | None => Panic "byte index is not a char boundary or out of range"
  end.

(** The loop of [linecol] over the characters of a prefix: a continuation
    byte belongs to the character before it. *)
Fixpoint count_linecol (bytes : list u8) (line col : nat) : nat * nat :=
  match bytes with
  | [] => (line, col)
  | b :: bytes' =>
      if (Byte.to_N b =? 10)%N then count_linecol bytes' (line + 1) 1
      else if is_continuation b then count_linecol bytes' line col
      else count_linecol bytes' line (col + 1)
  end.

Definition linecol {E} (sp : Span) (pos : nat) : outcome E (nat * nat) :=
  if negb (pos <? length (sp_text sp)) then Panic "assertion failed: pos < self.text.len()"
  else match str_get (sp_text sp) 0 pos with
       | Some prefix => Ok (count_linecol prefix 1 1)
       | None => Panic "byte index is not a char boundary or out of range"
       end.

Definition start_linecol {E} (sp : Span) : outcome E (nat * nat) := linecol sp (sp_start sp).
Definition end_linecol {E} (sp : Span) : outcome E (nat * nat) := linecol sp (sp_end sp).

(** * The code map *)
Inductive RangeError : Type := RangeError_.

Record CodeMap := mkCodeMap {
  cm_text : list u8;
  cm_ranges : list (nat * nat);
  cm_instruction_mapping : list (nat * nat)
}.

Definition codemap_new (text : list u8) (ranges : list (nat * nat)) : CodeMap :=
  mkCodeMap text ranges [].

(** [slice::binary_search_by] on the first components, by its documented
    result on a sorted slice: [inl i] is the index of the key, [inr i] the
    position where it would be inserted. *)
Fixpoint binary_search_from (i : nat) (key : nat) (l : list (nat * nat)) : nat + nat :=
  match l with
  | [] => inr i
  | (k, _) :: l' =>
      if k =? key then inl i
      else if key <? k then inr i
      else binary_search_from (S i) key l'
  end.
Definition binary_search (key : nat) (l : list (nat * nat)) : nat + nat :=
  binary_search_from 0 key l.

Definition add_text_range (start end_ : nat) (cm : CodeMap) : outcome RangeError CodeMap :=
  match binary_search start (cm_ranges cm) with
  | inr _ => Ok (mkCodeMap (cm_text cm) (vec_push (start, end_) (cm_ranges cm)) (cm_instruction_mapping cm))
  | inl _ => Err RangeError_
  end.

Definition map_instruction_range (instruction locator : nat) (cm : CodeMap)
  : outcome RangeError CodeMap :=
  let push im := Ok (mkCodeMap (cm_text cm) (cm_ranges cm) (vec_push (instruction, locator) im)) in
  match vec_pop (cm_instruction_mapping cm) with
  | Some ((last_idx, _), rest) =>
      if instruction =? last_idx then push rest
      else if instruction <=? last_idx then Err RangeError_
      else push (cm_instruction_mapping cm)
  | None => push (cm_instruction_mapping cm)
  end.

Definition span_from_locator (cm : CodeMap) (locator : nat) : outcome RangeError Span :=
  match binary_search locator (cm_ranges cm) with
  | inl idx =>
      match cm_ranges cm !! idx with
      | Some (start, end_) => ok_or (span_new (cm_text cm) start end_) RangeError_
      | None => Panic "index out of bounds"
      end
  | inr _ => Err RangeError_
  end.

Definition locator_from_instruction (cm : CodeMap) (ip : nat) : outcome RangeError nat :=
  idx ← match binary_search ip (cm_instruction_mapping cm) with
        | inl v => Ok v
        | inr v => ok_or (checked_sub v 1) RangeError_
        end;
  match cm_instruction_mapping cm !! idx with
  | Some (_, locator) => Ok locator
  | None => Panic "index out of bounds"
  end.

Definition span_from_instruction (cm : CodeMap) (ip : nat) : outcome RangeError Span :=
  locator ← locator_from_instruction cm ip;
  span_from_locator cm locator.

(** * Modules (module.rs) *)
Record ModuleV0 := mkModuleV0 {
  mo_progmem : list Instruction;
  mo_labels : BTreeMap Label nat;
  mo_action_defs : BTreeMap string (list FieldDefinition);
  mo_command_defs : BTreeMap string (BTreeMap string VType);
  mo_fact_defs : BTreeMap string FactDefinition;
  mo_struct_defs : BTreeMap string (list FieldDefinition);
  mo_command_attributes : BTreeMap string (BTreeMap string Value);
  mo_codemap : option CodeMap;
  mo_globals : BTreeMap string Value
}.

Inductive ModuleData : Type := V0 (m : ModuleV0).
Record Module_ := mkModule { mo_data : ModuleData }.
Inductive Version : Type := Version_V0.
Definition module_version (m : Module_) : Version := match mo_data m with V0 _ => Version_V0 end.

(** * Properties of the code map *)

(** Instruction addresses of the mapping increase strictly. *)
Definition mapping_sorted (l : list (nat * nat)) : Prop :=
  StronglySorted (λ p q, p.1 < q.1) l.

Lemma mapping_sorted_snoc l i loc :
  mapping_sorted l → Forall (λ p, p.1 < i) l → mapping_sorted (l ++ [(i, loc)]).
Proof.
  unfold mapping_sorted. induction l as [|[k v] l IH]; simpl; intros Hs HF.
  - repeat constructor.
  - inversion Hs as [|? ? Hs' HF']; inversion HF; subst. constructor; [auto|].
    apply Forall_app. split; [done|]. by apply Forall_singleton.
Qed.

Lemma mapping_sorted_init l p : mapping_sorted (l ++ [p]) → mapping_sorted l ∧ Forall (λ q, q.1 < p.1) l.
Proof.
  unfold mapping_sorted. induction l as [|q l IH]; simpl; intros Hs; [split; constructor|].
  inversion Hs as [|? ? Hs' HF]; subst. apply Forall_app in HF as [HF Hp].
  apply IH in Hs' as [??]. split; [by constructor|]. constructor; [exact (Forall_inv Hp)|done].
Qed.

(** The search finds, in a sorted list, the position that separates the keys
    below from the keys above. *)
Lemma binary_search_from_spec i key l :
  mapping_sorted l →
  match binary_search_from i key l with
  | inl j => i ≤ j ∧ ∃ v, l !! (j - i) = Some (key, v)
  | inr j => i ≤ j ≤ i + length l
             ∧ Forall (λ p, p.1 < key) (take (j - i) l)
             ∧ Forall (λ p, key < p.1) (drop (j - i) l)
  end.
Proof.
  revert i. induction l as [|[k v] l IH]; intros i Hs; simpl.
  - split_and!; [lia..| |]; by rewrite ?take_nil, ?drop_nil.
  - inversion Hs as [|? ? Hs' HF]; subst. destruct (Nat.eqb_spec k key) as [->|Hne].
    + split; [done|]. exists v. by rewrite Nat.sub_diag.
    + destruct (Nat.ltb_spec key k).
      * rewrite Nat.sub_diag. simpl. split_and!; [lia..|done|]. constructor; [done|].
        eapply Forall_impl; [exact HF|]. simpl. lia.
      * specialize (IH (S i) Hs'). destruct (binary_search_from (S i) key l) as [j|j].
        -- destruct IH as (? & w & Hw). split; [lia|]. exists w.
           replace (j - i) with (S (j - S i)) by lia. done.
        -- destruct IH as (? & Hlo & Hhi). replace (j - i) with (S (j - S i)) by lia.
           simpl. split_and!; [lia..| |done]. constructor; [simpl; lia|done].
Qed.

Lemma map_instruction_range_sorted i loc cm cm' :
  mapping_sorted (cm_instruction_mapping cm) →
  map_instruction_range i loc cm = Ok cm' →
  mapping_sorted (cm_instruction_mapping cm').
Proof.
  unfold map_instruction_range. intros Hs H.
  destruct (vec_pop _) as [[[k v] rest]|] eqn:E; simplify_eq/=.
  - apply vec_pop_Some in E. rewrite E in Hs. apply mapping_sorted_init in Hs as Hs'.
    destruct Hs' as [Hr HF]. simpl in HF.
    destruct (Nat.eqb_spec i k) as [->|]; simplify_eq/=; [by apply mapping_sorted_snoc|].
    destruct (Nat.leb_spec i k); simplify_eq/=. unfold vec_push. apply mapping_sorted_snoc; rewrite E; [done|].
    apply Forall_app. split; [|by apply Forall_singleton].
    eapply Forall_impl; [exact HF|]. simpl. lia.
  - apply vec_pop_None in E. rewrite E. repeat constructor.
Qed.
