(* ===== verification/VmScope.v ===== *)
(** The errors of the policy VM ([aranya-policy-vm/src/error.rs], [io.rs]),
    its value stack ([stack.rs] and [MachineStack] of [machine.rs]) and its
    scope manager ([scope.rs]). *)
From S2P Require Import Prelude Collections PolicyData PolicyModule.
Local Open Scope string_scope.
Local Open Scope list_scope.
Local Open Scope nat_scope.

(** * Errors *)
Inductive MachineIOError : Type := FactExists | FactNotFound | Internal.

Inductive MachineErrorType : Type :=
| StackUnderflow
| StackOverflow
| AlreadyDefined (name : string)
| NotDefined (name : string)
| InvalidType (want got msg : string)
| InvalidStructMember (k : string)
| InvalidFact (name : string)
| InvalidSchema (name : string)
| UnresolvedTarget (l : Label)
| InvalidAddress (name : string)
| BadState (why : string)
| IntegerOverflow
| InvalidInstruction
| CallStack
| IO_ (e : MachineIOError)
| FfiModuleNotDefined (module : nat)
| FfiProcedureNotDefined (module : string) (procedure : nat)
| Bug (msg : string)
| Unknown (reason : string).

(** [From<ValueConversionError> for MachineErrorType]. *)
Definition met_of_conversion (e : ValueConversionError) : MachineErrorType :=
  match e with
  | VCE_InvalidType want got msg => InvalidType want got msg
  | VCE_InvalidStructMember s => InvalidStructMember s
  | VCE_OutOfRange => InvalidType "Int" "Int" "out of range"
  | VCE_BadState => BadState "value conversion error"
  end.

Record MachineErrorSource := mkMachineErrorSource {
  mes_linecol : nat * nat;
  mes_text : list u8
}.

Record MachineError := mkMachineError {
  me_err_type : MachineErrorType;
  me_source : option MachineErrorSource
}.

(** [MachineError::new], which is also [From<MachineErrorType>]. *)
Definition machine_error_new (t : MachineErrorType) : MachineError := mkMachineError t None.

(** [with_position]: the source location is filled in once, and computing it
    can panic in [linecol]. *)
Definition with_position {E} (e : MachineError) (pc : nat) (codemap : option CodeMap)
  : outcome E MachineError :=
  match me_source e, codemap with
  | None, Some cm =>
      match span_from_instruction cm pc with
      | Ok span =>
          lc ← start_linecol span;
          text ← span_as_str span;
          Ok (mkMachineError (me_err_type e) (Some (mkMachineErrorSource lc text)))
      | Err _ => Ok e
      | Panic w => Panic w
      end
  | _, _ => Ok e
  end.

Definition from_position {E} (t : MachineErrorType) (pc : nat) (codemap : option CodeMap)
  : outcome E MachineError :=
  with_position (machine_error_new t) pc codemap.

Lemma with_position_err_type {E} e pc cm e' :
  with_position (E := E) e pc cm = Ok e' → me_err_type e' = me_err_type e.
Proof.
  unfold with_position. destruct (me_source e), cm as [cm|]; try (intros; by simplify_eq).
  destruct (span_from_instruction cm pc) as [sp| |]; try (intros; by simplify_eq).
  unfold mbind, outcome_bind. intros H. crush_match.
Qed.

(** * The value stack *)
Definition STACK_SIZE : nat := 100.

(** [HVec<Value, STACK_SIZE>], bottom first. *)
Abbreviation MachineStack := (list Value).

Definition push_value (v : Value) (st : MachineStack) : outcome MachineErrorType MachineStack :=
  if length st <? STACK_SIZE then Ok (vec_push v st) else Err StackOverflow.

Definition pop_value (st : MachineStack) : outcome MachineErrorType (Value * MachineStack) :=
  ok_or (vec_pop st) StackUnderflow.

Definition peek_value (st : MachineStack) : outcome MachineErrorType Value :=
  ok_or (last st) StackUnderflow.

(** [Stack::push], [Stack::pop] and [Stack::peek] of the trait. *)
Definition stack_push {V} `{IntoValue V} (v : V) (st : MachineStack) :=
  push_value (into_value v) st.

(** The raw value is gone from the stack also when its conversion fails. *)
Definition stack_pop {V} `{TryFromValue V} (st : MachineStack)
  : outcome MachineErrorType V * MachineStack :=
  match pop_value st with
  | Ok (raw, st') => (map_err met_of_conversion (try_from_value raw), st')
  | Err e => (Err e, st)
  | Panic w => (Panic w, st)
  end.

Definition stack_peek {V} (as_mut : Value → outcome ValueConversionError V) (st : MachineStack)
  : outcome MachineErrorType V :=
  raw ← peek_value st;
  map_err met_of_conversion (as_mut raw).

(** The stack never holds more than [STACK_SIZE] values. *)
Definition stack_ok (st : MachineStack) : Prop := length st ≤ STACK_SIZE.

Lemma push_value_inv v st st' :
  push_value v st = Ok st' → st' = st ++ [v] ∧ length st < STACK_SIZE.
Proof. unfold push_value, vec_push. destruct (Nat.ltb_spec (length st) STACK_SIZE); naive_solver. Qed.

Lemma push_value_stack_ok v st st' : push_value v st = Ok st' → stack_ok st'.
Proof. intros [-> ?]%push_value_inv. unfold stack_ok. rewrite length_app. simpl. lia. Qed.

Lemma pop_value_Ok st v st' : pop_value st = Ok (v, st') ↔ st = st' ++ [v].
Proof.
  unfold pop_value. rewrite <- vec_pop_Some. destruct (vec_pop st); simpl; naive_solver.
Qed.

Lemma stack_pop_inv {V} `{TryFromValue V} st r st' :
  stack_pop (V := V) st = (r, st') →
  (∃ raw, st = st' ++ [raw] ∧ r = map_err met_of_conversion (try_from_value raw))
  ∨ (st = [] ∧ st' = [] ∧ r = Err StackUnderflow).
Proof.
  unfold stack_pop, pop_value. destruct (vec_pop st) as [[raw rest]|] eqn:E; simpl; intros; simplify_eq.
  - apply vec_pop_Some in E. left. eauto.
  - apply vec_pop_None in E. subst. auto.
Qed.

(** * The scope manager *)
Record ScopeManager := mkScope {
  sc_globals : BTreeMap string Value;
  sc_locals : list (list (BTreeMap string Value))
}.

Definition scope_new (globals : BTreeMap string Value) : ScopeManager := mkScope globals [[[]]].

Definition set_locals (l : list (list (BTreeMap string Value))) (s : ScopeManager) : ScopeManager :=
  mkScope (sc_globals s) l.

Definition enter_function (s : ScopeManager) : ScopeManager :=
  set_locals (vec_push [[]] (sc_locals s)) s.

Definition exit_function (s : ScopeManager) : outcome MachineErrorType ScopeManager :=
  match vec_pop (sc_locals s) with
  | Some (_, rest) => Ok (set_locals rest s)
  | None => Err (BadState "exit_function: empty function-scope stack")
  end.

Definition enter_block (s : ScopeManager) : outcome MachineErrorType ScopeManager :=
  match vec_pop (sc_locals s) with
  | Some (locals, rest) => Ok (set_locals (rest ++ [vec_push [] locals]) s)
  | None => Err (BadState "enter_block: empty function-scope stack")
  end.

Definition exit_block (s : ScopeManager) : outcome MachineErrorType ScopeManager :=
  match vec_pop (sc_locals s) with
  | Some (lst, rest) =>
      match vec_pop lst with
      | Some (_, lst') => Ok (set_locals (rest ++ [lst']) s)
      | None => Err (BadState "exit_block: no block")
      end
  | None => Err (BadState "exit_block: empty function-scope stack")
  end.

(** The loop of [get] over the blocks, innermost first. *)
Fixpoint get_in_blocks (key : string) (blocks : list (BTreeMap string Value)) : option Value :=
  match blocks with
  | [] => None
  | b :: blocks' => match bt_get key b with Some v => Some v | None => get_in_blocks key blocks' end
  end.

Definition scope_get (key : string) (s : ScopeManager) : outcome MachineErrorType Value :=
  let local := match last (sc_locals s) with
               | Some locals => get_in_blocks key (reverse locals)
               | None => None
               end in
  match local with
  | Some v => Ok v
  | None => match bt_get key (sc_globals s) with
            | Some v => Ok v
            | None => Err (NotDefined key)
            end
  end.

Definition scope_set (ident : string) (value : Value) (s : ScopeManager)
  : outcome MachineErrorType ScopeManager :=
  if bt_contains ident (sc_globals s) then Err (AlreadyDefined ident)
  else match vec_pop (sc_locals s) with
       | None => Err (BadState "set: no local block")
       | Some (locals, rest) =>
           if existsb (bt_contains ident) locals then Err (AlreadyDefined ident)
           else match vec_pop locals with
                | None => Err (BadState "set: no locals")
                | Some (block, outer) =>
                    Ok (set_locals (rest ++ [outer ++ [bt_insert ident value block]]) s)
                end
       end.

Definition scope_clear (s : ScopeManager) : ScopeManager := set_locals [[[]]] s.

Definition scope_locals (s : ScopeManager) : list (string * Value) :=
  match last (sc_locals s) with
  | Some locals => concat (reverse locals)
  | None => []
  end.

Implicit Types (key k : string) (b : BTreeMap string Value)
  (blocks bs : list (BTreeMap string Value)).

(** ** The scoping discipline

    In every function frame a name is defined in at most one block, and never
    shadows a global: the order in which [get] walks the blocks does not
    matter. *)
Definition block_ok (globals : BTreeMap string Value) (b : BTreeMap string Value) : Prop :=
  bt_wf b ∧ ∀ k, bt_contains k b = true → bt_contains k globals = false.

Definition blocks_disjoint (blocks : list (BTreeMap string Value)) : Prop :=
  ∀ i j bi bj k, blocks !! i = Some bi → blocks !! j = Some bj →
    bt_contains k bi = true → bt_contains k bj = true → i = j.

Definition frame_ok (globals : BTreeMap string Value) (blocks : list (BTreeMap string Value)) : Prop :=
  Forall (block_ok globals) blocks ∧ blocks_disjoint blocks.

Definition scope_ok (s : ScopeManager) : Prop := Forall (frame_ok (sc_globals s)) (sc_locals s).

Lemma get_in_blocks_None key blocks :
  get_in_blocks key blocks = None ↔ Forall (λ b, bt_get key b = None) blocks.
Proof.
  induction blocks as [|b bs IH]; simpl; [split; auto|].
  rewrite Forall_cons. destruct (bt_get key b); [naive_solver|]. rewrite IH. naive_solver.
Qed.

Lemma get_in_blocks_app key bs1 bs2 :
  get_in_blocks key (bs1 ++ bs2) =
    match get_in_blocks key bs1 with Some v => Some v | None => get_in_blocks key bs2 end.
Proof. induction bs1 as [|b bs1 IH]; simpl; [done|]. by destruct (bt_get key b). Qed.

Lemma existsb_contains_false key blocks :
  existsb (bt_contains key) blocks = false ↔ Forall (λ b, bt_get key b = None) blocks.
Proof.
  induction blocks as [|b bs IH]; simpl; [split; auto|].
  rewrite orb_false_iff, Forall_cons, IH. unfold bt_contains.
  destruct (bt_get key b); naive_solver.
Qed.

Lemma frame_ok_nil_block g : frame_ok g [[]].
Proof.
  split.
  - apply Forall_singleton. split; [constructor|]. intros k. done.
  - intros i j bi bj k Hi Hj. apply list_lookup_singleton_Some in Hi as [-> _].
    by apply list_lookup_singleton_Some in Hj as [-> _].
Qed.

Lemma scope_ok_new g : scope_ok (scope_new g).
Proof. apply Forall_singleton, frame_ok_nil_block. Qed.

Lemma scope_ok_snoc g l fr : scope_ok (mkScope g (l ++ [fr])) ↔ scope_ok (mkScope g l) ∧ frame_ok g fr.
Proof. unfold scope_ok. simpl. rewrite Forall_app, Forall_singleton. done. Qed.

Lemma blocks_disjoint_prefix bs1 bs2 : blocks_disjoint (bs1 ++ bs2) → blocks_disjoint bs1.
Proof. intros Hd i j bi bj k Hi Hj. apply Hd; by apply lookup_app_l_Some. Qed.

Lemma frame_ok_prefix g bs1 bs2 : frame_ok g (bs1 ++ bs2) → frame_ok g bs1.
Proof. intros [HF Hd]. split; [by apply Forall_app in HF as [? _]|by eapply blocks_disjoint_prefix]. Qed.

(** Adding a block whose keys are fresh for the frame. *)
Lemma frame_ok_snoc g bs b :
  frame_ok g bs → block_ok g b →
  (∀ k, bt_contains k b = true → Forall (λ b', bt_get k b' = None) bs) →
  frame_ok g (bs ++ [b]).
Proof.
  intros [HF Hd] Hb Hfresh. split; [by apply Forall_app; split; [|apply Forall_singleton]|].
  intros i j bi bj k Hi Hj Ci Cj.
  assert (∀ i' b', bs !! i' = Some b' → bt_contains k b' = true → bt_contains k b = true → False) as Hx.
  { intros i' b' Hl Hc Hc'. specialize (Hfresh k Hc'). rewrite Forall_lookup in Hfresh.
    apply Hfresh in Hl. unfold bt_contains in Hc. by rewrite Hl in Hc. }
  apply lookup_snoc_Some in Hi as [[? Hi]|[-> <-]], Hj as [[? Hj]|[-> <-]]; [by eapply Hd|naive_solver..].
Qed.

Lemma enter_function_ok s : scope_ok s → scope_ok (enter_function s).
Proof. destruct s as [g l]. intros Hs. apply scope_ok_snoc. split; [done|apply frame_ok_nil_block]. Qed.

Lemma exit_function_ok s s' : scope_ok s → exit_function s = Ok s' → scope_ok s'.
Proof.
  destruct s as [g l]. unfold exit_function. simpl. intros Hs H.
  destruct (vec_pop l) as [[fr rest]|] eqn:E; simplify_eq. apply vec_pop_Some in E as ->.
  by apply scope_ok_snoc in Hs as [? _].
Qed.

Lemma enter_block_ok s s' : scope_ok s → enter_block s = Ok s' → scope_ok s'.
Proof.
  destruct s as [g l]. unfold enter_block. simpl. intros Hs H.
  destruct (vec_pop l) as [[fr rest]|] eqn:E; simplify_eq. apply vec_pop_Some in E as ->.
  apply scope_ok_snoc in Hs as [? Hf]. apply scope_ok_snoc. split; [done|].
  apply frame_ok_snoc; [done| |done]. split; [constructor|done].
Qed.

Lemma exit_block_ok s s' : scope_ok s → exit_block s = Ok s' → scope_ok s'.
Proof.
  destruct s as [g l]. unfold exit_block. simpl. intros Hs H.
  destruct (vec_pop l) as [[fr rest]|] eqn:E; simplify_eq. apply vec_pop_Some in E as ->.
  destruct (vec_pop fr) as [[b fr']|] eqn:E; simplify_eq. apply vec_pop_Some in E as ->.
  apply scope_ok_snoc in Hs as [? Hf]. apply scope_ok_snoc. split; [done|by eapply frame_ok_prefix].
Qed.

Lemma bt_contains_insert k k' v (m : BTreeMap string Value) :
  bt_contains k (bt_insert k' v m) = ord_eqb k k' || bt_contains k m.
Proof. unfold bt_contains. rewrite bt_get_insert. by destruct (ord_eqb k k'). Qed.

(** What a successful [set] did: the shape of the frames before and after. *)
Lemma scope_set_inv k v s s' :
  scope_set k v s = Ok s' →
  ∃ rest outer block,
    sc_locals s = rest ++ [outer ++ [block]]
    ∧ s' = set_locals (rest ++ [outer ++ [bt_insert k v block]]) s
    ∧ bt_get k (sc_globals s) = None
    ∧ Forall (λ b, bt_get k b = None) (outer ++ [block]).
Proof.
  unfold scope_set. destruct (bt_contains k (sc_globals s)) eqn:Eg; [done|].
  destruct (vec_pop (sc_locals s)) as [[fr rest]|] eqn:E1; [|done]. apply vec_pop_Some in E1.
  destruct (existsb (bt_contains k) fr) eqn:Ex; [done|]. apply existsb_contains_false in Ex.
  destruct (vec_pop fr) as [[block outer]|] eqn:E2; [|done]. apply vec_pop_Some in E2 as ->.
  intros; simplify_eq. exists rest, outer, block. split_and!; [done..| |done].
  unfold bt_contains in Eg. by destruct (bt_get k (sc_globals s)).
Qed.

Lemma scope_set_ok k v s s' : scope_ok s → scope_set k v s = Ok s' → scope_ok s'.
Proof.
  intros Hs (rest & outer & block & Hl & -> & Hg & HF)%scope_set_inv.
  destruct s as [g l]. simpl in Hl, Hg. subst l. apply scope_ok_snoc in Hs as [Hr Hf].
  apply scope_ok_snoc. split; [done|]. destruct Hf as [HB Hd].
  apply Forall_app in HB as [HB Hb]. destruct (Forall_inv Hb) as [Hw Hdom].
  apply frame_ok_snoc.
  - split; [done|by eapply blocks_disjoint_prefix].
  - split; [by apply bt_wf_insert|]. intros k'. rewrite bt_contains_insert.
    intros [->%ord_eqb_true|?]%orb_true_iff; [|auto]. unfold bt_contains. simpl. by rewrite Hg.
  - intros k'. rewrite bt_contains_insert. apply Forall_app in HF as [HF _].
    intros [->%ord_eqb_true|Hk]%orb_true_iff; [done|].
    apply Forall_lookup. intros i b Hi. destruct (bt_get k' b) eqn:Eb; [|done]. exfalso.
    assert (i = length outer) as ->.
    { eapply (Hd i (length outer) b block k'); [by apply lookup_app_l_Some| |unfold bt_contains; by rewrite Eb|done].
      by rewrite lookup_app_r, Nat.sub_diag. }
    apply lookup_lt_Some in Hi. lia.
Qed.
#[export] Hint Resolve scope_ok_new enter_function_ok : rust.

(** ** Behaviour of the scope operations *)

(** After [set k v], [k] reads [v] and every other name reads as before. *)
Lemma scope_get_set k v s s' :
  scope_set k v s = Ok s' →
  scope_get k s' = Ok v ∧ ∀ k', k' ≠ k → scope_get k' s' = scope_get k' s.
Proof.
  intros (rest & outer & block & Hl & -> & Hg & HF)%scope_set_inv.
  unfold scope_get, set_locals. simpl. rewrite Hl, !last_snoc, !reverse_app. simpl.
  split; [by rewrite bt_get_insert_eq|]. intros k' Hne. by rewrite bt_get_insert_ne.
Qed.

(** Where the frame has a block, [set] refuses exactly the names [get] already
    finds. *)
Lemma scope_set_defined k v s rest outer block :
  sc_locals s = rest ++ [outer ++ [block]] →
  (∃ s', scope_set k v s = Ok s') ↔ scope_get k s = Err (NotDefined k).
Proof.
  intros Hl. unfold scope_set, scope_get.
  rewrite Hl, vec_pop_snoc, last_snoc, vec_pop_snoc. unfold bt_contains at 1.
  assert (get_in_blocks k (reverse (outer ++ [block])) = None
          ↔ existsb (bt_contains k) (outer ++ [block]) = false) as Hx.
  { rewrite get_in_blocks_None, existsb_contains_false, !Forall_forall.
    by setoid_rewrite elem_of_reverse. }
  destruct (bt_get k (sc_globals s)) as [w|];
    destruct (get_in_blocks k (reverse (outer ++ [block]))) as [u|];
    destruct (existsb (bt_contains k) (outer ++ [block])); naive_solver.
Qed.

Lemma exit_enter_function s : exit_function (enter_function s) = Ok s.
Proof.
  unfold exit_function, enter_function, vec_push. simpl. rewrite vec_pop_snoc. by destruct s.
Qed.

Lemma scope_get_enter_function k s :
  scope_get k (enter_function s) =
    match bt_get k (sc_globals s) with Some v => Ok v | None => Err (NotDefined k) end.
Proof. unfold scope_get, enter_function, vec_push. simpl. by rewrite last_snoc. Qed.

(** What a scope-changing operation can do to the frame stack below the
    current frame: nothing. [scope_steps] is a run of block operations and
    definitions inside one function. *)
Inductive scope_step : ScopeManager → ScopeManager → Prop :=
| step_enter_block s s' : enter_block s = Ok s' → scope_step s s'
| step_exit_block s s' : exit_block s = Ok s' → scope_step s s'
| step_set k v s s' : scope_set k v s = Ok s' → scope_step s s'.

Lemma scope_step_frames s s' :
  scope_step s s' →
  ∃ rest fr fr', sc_locals s = rest ++ [fr] ∧ s' = set_locals (rest ++ [fr']) s.
Proof.
  destruct 1 as [s s' H|s s' H|k v s s' H].
  - unfold enter_block in H. destruct (vec_pop _) as [[fr rest]|] eqn:E; simplify_eq.
    apply vec_pop_Some in E. eauto.
  - unfold exit_block in H. destruct (vec_pop (sc_locals s)) as [[fr rest]|] eqn:E; simplify_eq.
    apply vec_pop_Some in E. destruct (vec_pop fr) as [[? ?]|]; simplify_eq. eauto.
  - apply scope_set_inv in H as (rest & outer & block & Hl & -> & _). eauto 6.
Qed.

Lemma scope_steps_frames s s' rest fr :
  rtc scope_step s s' → sc_locals s = rest ++ [fr] →
  ∃ fr', s' = set_locals (rest ++ [fr']) s.
Proof.
  intros Hs. revert fr. induction Hs as [s|s s1 s' H1 _ IH]; intros fr Hl.
  - exists fr. rewrite <- Hl. by destruct s.
  - apply scope_step_frames in H1 as (rest' & fr1 & fr2 & Hl' & ->).
    rewrite Hl in Hl'. apply app_inj_tail in Hl' as [<- <-].
    destruct (IH fr2 eq_refl) as [fr3 ->]. by exists fr3.
Qed.
