(* ===== verification/Vm.v ===== *)
(** The policy virtual machine ([aranya-policy-vm/src/machine.rs], [data.rs],
    [io.rs]): the static machine, the run state, one definition per
    instruction, [step], [run], and the entry points that set a call up.

    The I/O of the machine is the [MachineIO] class, the counterpart of the
    source's trait; [postcard] is a parameter. *)
From stdpp Require Import pretty.
From S2P Require Import Prelude Collections PolicyData PolicyModule VmScope.
Local Open Scope string_scope.
Local Open Scope list_scope.
Local Open Scope nat_scope.

(** * Contexts (data.rs) *)
Record ActionContext := mkActionContext { ac_name : string; ac_head_id : Id }.
Record SealContext := mkSealContext { seal_name : string; seal_head_id : Id }.
Record OpenContext := mkOpenContext { open_name : string }.
Record PolicyContext := mkPolicyContext {
  pc_name : string;
  pc_id : Id;
  pc_author : Id;
  pc_version : Id
}.
Inductive CommandContext : Type :=
| CtxAction (c : ActionContext)
| CtxSeal (c : SealContext)
| CtxOpen (c : OpenContext)
| CtxPolicy (c : PolicyContext)
| CtxRecall (c : PolicyContext).

(** * Machine I/O (io.rs) *)

(** A query iterator is the sequence of items it yields. *)
Definition QueryItem : Type := outcome MachineIOError (FactKeyList * FactValueList).
Definition QueryIterator : Type := list QueryItem.

Class MachineIO (IO : Type) := {
  io_fact_insert : string → FactKeyList → FactValueList → IO → outcome MachineIOError unit * IO;
  io_fact_delete : string → FactKeyList → IO → outcome MachineIOError unit * IO;
  io_fact_query : string → FactKeyList → IO → outcome MachineIOError QueryIterator;
  io_publish : string → list KVPair → IO → IO;
  io_effect : string → list KVPair → Id → bool → IO → IO;
  io_call : nat → nat → CommandContext → MachineStack → IO → outcome MachineError unit * MachineStack * IO
}.

(** What the type [HVec<Value, STACK_SIZE>] guarantees of any implementation:
    an external call cannot grow the stack past its capacity. *)
Class MachineIOLaws (IO : Type) `{MachineIO IO} : Prop :=
  io_call_stack_ok m p ctx st io r st' io' :
    stack_ok st → io_call m p ctx st io = (r, st', io') → stack_ok st'.

(** * The machine and its run state *)
Record Machine := mkMachine {
  progmem : list Instruction;
  labels : BTreeMap Label nat;
  action_defs : BTreeMap string (list FieldDefinition);
  command_defs : BTreeMap string (BTreeMap string VType);
  fact_defs : BTreeMap string FactDefinition;
  struct_defs : BTreeMap string (list FieldDefinition);
  command_attributes : BTreeMap string (BTreeMap string Value);
  codemap : option CodeMap;
  globals : BTreeMap string Value
}.

Definition machine_new (instructions : list Instruction) : Machine :=
  mkMachine instructions [] [] [] [] [] [] None [].

Definition machine_from_codemap (cm : CodeMap) : Machine :=
  mkMachine [] [] [] [] [] [] [] (Some cm) [].

(** [from_module]; [UnsupportedVersion] has no case to arise from. *)
Definition from_module (m : Module_) : outcome unit Machine :=
  match mo_data m with
  | V0 m => Ok (mkMachine (mo_progmem m) (mo_labels m) (mo_action_defs m) (mo_command_defs m)
                  (mo_fact_defs m) (mo_struct_defs m) (mo_command_attributes m) (mo_codemap m)
                  (mo_globals m))
  end.

Definition into_module (m : Machine) : Module_ :=
  mkModule (V0 (mkModuleV0 (progmem m) (labels m) (action_defs m) (command_defs m) (fact_defs m)
                  (struct_defs m) (command_attributes m) (codemap m) (globals m))).

Inductive MachineStatus : Type :=
| Executing
| Exited (reason : ExitReason).

Record RunState (IO : Type) := mkRunState {
  rs_scope : ScopeManager;
  rs_stack : MachineStack;
  rs_call_state : list nat;
  rs_pc : nat;
  rs_io : IO;
  rs_ctx : CommandContext;
  rs_query_iter_stack : list QueryIterator
}.
Arguments mkRunState {IO}. Arguments rs_scope {IO}. Arguments rs_stack {IO}.
Arguments rs_call_state {IO}. Arguments rs_pc {IO}. Arguments rs_io {IO}.
Arguments rs_ctx {IO}. Arguments rs_query_iter_stack {IO}.

Section Setters.
Context {IO : Type}.
Implicit Types s : RunState IO.

Definition set_scope v s := mkRunState v (rs_stack s) (rs_call_state s) (rs_pc s) (rs_io s) (rs_ctx s) (rs_query_iter_stack s).
Definition set_stack v s := mkRunState (rs_scope s) v (rs_call_state s) (rs_pc s) (rs_io s) (rs_ctx s) (rs_query_iter_stack s).
Definition set_call_state v s := mkRunState (rs_scope s) (rs_stack s) v (rs_pc s) (rs_io s) (rs_ctx s) (rs_query_iter_stack s).
Definition set_pc v s := mkRunState (rs_scope s) (rs_stack s) (rs_call_state s) v (rs_io s) (rs_ctx s) (rs_query_iter_stack s).
Definition set_io (v : IO) s : RunState IO := mkRunState (rs_scope s) (rs_stack s) (rs_call_state s) (rs_pc s) v (rs_ctx s) (rs_query_iter_stack s).
Definition set_ctx v s := mkRunState (rs_scope s) (rs_stack s) (rs_call_state s) (rs_pc s) (rs_io s) v (rs_query_iter_stack s).
Definition set_query_iter_stack v s := mkRunState (rs_scope s) (rs_stack s) (rs_call_state s) (rs_pc s) (rs_io s) (rs_ctx s) v.
End Setters.

(** * Schema checks *)

(** [validate_fact_schema]. *)
Definition validate_fact_schema (fact : Fact) (schema : FactDefinition) : bool :=
  bool_decide (f_name fact = fdef_identifier schema) &&
  forallb (λ key,
    match List.find (λ k, bool_decide (fd_identifier k = fk_identifier key)) (fdef_key schema) with
    | None => false
    | Some key_value => bool_decide (hashable_vtype (fk_value key) = fd_field_type key_value)
    end) (f_keys fact) &&
  forallb (λ value,
    match List.find (λ v, bool_decide (fd_identifier v = fv_identifier value)) (fdef_value schema) with
    | None => false
    | Some schema_value =>
        match vtype (fv_value value) with
        | None => false
        | Some value_type => bool_decide (value_type = fd_field_type schema_value)
        end
    end) (f_values fact).

(** [fact_match]. *)
Definition fact_match (query : Fact) (keys : FactKeyList) (values : FactValueList) : bool :=
  starts_with (f_keys query) keys &&
  forallb (λ qv,
    match List.find (λ v, bool_decide (fv_identifier v = fv_identifier qv)) values with
    | Some v => bool_decide (fv_value v = fv_value qv)
    | None => false
    end) (f_values query).

(** Whether control falls through to the increment of the program counter or
    the instruction returned early. *)
Inductive flow : Type :=
| FallThrough
| ReturnStatus (st : MachineStatus).

Section Machine.
Context {IO : Type} `{MachineIO IO}.
Variable machine : Machine.
(** [postcard::to_allocvec] and [postcard::from_bytes] on [Struct]. *)
Variable to_allocvec : Struct → option (list u8).
Variable from_bytes : list u8 → option Struct.

Definition VM (A : Type) : Type := M (RunState IO) MachineError A.

(** [RunState::new]. *)
Definition run_state_new (io : IO) (ctx : CommandContext) : RunState IO :=
  mkRunState (scope_new (globals machine)) [] [] 0 io ctx [].

Definition set_context (ctx : CommandContext) (s : RunState IO) : RunState IO := set_ctx ctx s.

(** [reset]. *)
Definition reset (s : RunState IO) : RunState IO :=
  set_pc 0 (set_stack [] (set_scope (scope_clear (rs_scope s)) s)).

(** [self.err(t)]: the error with its position, or a panic. *)
Definition err (t : MachineErrorType) : VM MachineError :=
  λ s, (from_position t (rs_pc s) (codemap machine), s).
Definition fail_at {A} (t : MachineErrorType) : VM A := e ← err t; throw e.

(** A [MachineErrorType] propagated by [?]: no position. *)
Definition fail {A} (t : MachineErrorType) : VM A := throw (machine_error_new t).

Definition try_at {A} (m : outcome MachineErrorType A) : VM A :=
  match m with Ok a => mret a | Err t => fail_at t | Panic w => crash w end.
Definition try {A} (m : outcome MachineErrorType A) : VM A :=
  match m with Ok a => mret a | Err t => fail t | Panic w => crash w end.
Definition try_io {A} (m : outcome MachineIOError A) : VM A :=
  try (map_err IO_ m).
Definition no_err {A} (m : outcome False A) : VM A :=
  match m with Ok a => mret a | Err e => match e with end | Panic w => crash w end.

Definition ipush_value (v : Value) : VM unit :=
  s ← get_state;
  st ← try_at (push_value v (rs_stack s));
  modify (set_stack st).
Definition ipush {V} `{IntoValue V} (v : V) : VM unit := ipush_value (into_value v).

Definition ipop {V} `{TryFromValue V} : VM V :=
  s ← get_state;
  let '(r, st) := stack_pop (rs_stack s) in
  modify (set_stack st) ≫= λ _, try_at r.

Definition ipop_value : VM Value :=
  s ← get_state;
  p ← try_at (pop_value (rs_stack s));
  modify (set_stack p.2) ≫= λ _, mret p.1.

(** [ipeek] followed by a write through the reference it returns. *)
Definition ipeek_update {V} (as_mut : Value → outcome ValueConversionError V)
    (back : V → Value) (f : V → V) : VM unit :=
  s ← get_state;
  x ← try_at (stack_peek as_mut (rs_stack s));
  modify (set_stack (vec_set_last (back (f x)) (rs_stack s))).

Definition modify_scope (f : ScopeManager → ScopeManager) : VM unit :=
  modify (λ s, set_scope (f (rs_scope s)) s).
Definition update_scope (tr : ∀ A, outcome MachineErrorType A → VM A)
    (f : ScopeManager → outcome MachineErrorType ScopeManager) : VM unit :=
  s ← get_state;
  sc ← tr _ (f (rs_scope s));
  modify (set_scope sc).

(** [validate_struct_schema]; the error is built before it is needed. The
    inner [f] shadows the definition's, as in the source. *)
Definition validate_struct_schema (s : Struct) : VM unit :=
  e ← err (InvalidSchema (s_name s));
  match bt_get (s_name s) (struct_defs machine) with
  | Some fields =>
      if negb (forallb (λ f, existsb (λ v, bool_decide (fd_identifier v = f.1)) fields) (s_fields s))
      then throw e
      else if forallb (λ f, match bt_get (fd_identifier f) (s_fields s) with
                            | Some f => bool_decide (vtype f = vtype f)
                            | None => false
                            end) fields
      then mret tt
      else throw e
  | None => throw e
  end.

Definition validate_fact_literal (fact : Fact) : VM unit :=
  if match bt_get (f_name fact) (fact_defs machine) with
     | Some schema => validate_fact_schema fact schema
     | None => false
     end
  then mret tt
  else fail_at (InvalidSchema (f_name fact)).

(** ** Instructions *)
Definition exec_const (v : Value) : VM flow := ipush_value v ≫= λ _, mret FallThrough.

Definition exec_def (key : string) : VM flow :=
  value ← ipop_value;
  update_scope (@try) (scope_set key value) ≫= λ _, mret FallThrough.

Definition exec_get (key : string) : VM flow :=
  s ← get_state;
  value ← try (scope_get key (rs_scope s));
  ipush_value value ≫= λ _, mret FallThrough.

Definition exec_swap (d : nat) : VM flow :=
  if d =? 0 then fail_at InvalidInstruction else
  s ← get_state;
  index1 ← try (ok_or (checked_sub (length (rs_stack s)) 1) StackUnderflow);
  index2 ← try (ok_or (checked_sub index1 d) StackUnderflow);
  match vec_swap index1 index2 (rs_stack s) with
  | Some st => modify (set_stack st) ≫= λ _, mret FallThrough
  | None => crash "index out of bounds"
  end.

Definition exec_dup (d : nat) : VM flow :=
  s ← get_state;
  i ← try (ok_or (checked_sub (length (rs_stack s)) d) StackUnderflow);
  index ← try (ok_or (checked_sub i 1) StackUnderflow);
  match rs_stack s !! index with
  | Some v => ipush_value v ≫= λ _, mret FallThrough
  | None => crash "index out of bounds"
  end.

(** The result of the pop is ignored. *)
Definition exec_pop : VM flow :=
  s ← get_state;
  match pop_value (rs_stack s) with
  | Ok (_, st) => modify (set_stack st) ≫= λ _, mret FallThrough
  | _ => mret FallThrough
  end.

Definition exec_block : VM flow := update_scope (@try_at) enter_block ≫= λ _, mret FallThrough.
Definition exec_end : VM flow := update_scope (@try_at) exit_block ≫= λ _, mret FallThrough.

Definition exec_jump (t : Target) : VM flow :=
  match t with
  | Unresolved label => fail_at (UnresolvedTarget label)
  | Resolved n => modify (set_pc n) ≫= λ _, mret (ReturnStatus Executing)
  end.

Definition exec_branch (t : Target) : VM flow :=
  conditional ← ipop;
  if (conditional : bool) then
    match t with
    | Unresolved label => fail_at (UnresolvedTarget label)
    | Resolved n => modify (set_pc n) ≫= λ _, mret (ReturnStatus Executing)
    end
  else mret FallThrough.

Definition exec_call (t : Target) : VM flow :=
  match t with
  | Unresolved label => fail_at (UnresolvedTarget label)
  | Resolved n =>
      modify_scope enter_function ≫= λ _,
      modify (λ s, set_call_state (vec_push (rs_pc s) (rs_call_state s)) s) ≫= λ _,
      modify (set_pc n) ≫= λ _,
      mret (ReturnStatus Executing)
  end.

Definition exec_return : VM flow :=
  s ← get_state;
  match rs_call_state s with
  | [] => mret (ReturnStatus (Exited ExitNormal))
  | _ =>
      match vec_pop (rs_call_state s) with
      | Some (pc, rest) =>
          modify (λ s, set_pc pc (set_call_state rest s)) ≫= λ _,
          update_scope (@try_at) exit_function ≫= λ _,
          mret FallThrough
      | None => fail_at CallStack
      end
  end.

Definition exec_ext_call (module procedure : nat) : VM flow :=
  s ← get_state;
  let '(r, st, io) := io_call module procedure (rs_ctx s) (rs_stack s) (rs_io s) in
  modify (λ s, set_io io (set_stack st s)) ≫= λ _,
  lift r ≫= λ _, mret FallThrough.

(** [Add] and [Sub]; [ok_or] builds its error argument eagerly. *)
Definition exec_arith (op : Z → Z → option Z) : VM flow :=
  b ← ipop;
  a ← ipop;
  e ← err IntegerOverflow;
  r ← lift_opt (op a b) e;
  ipush (r : Z) ≫= λ _, mret FallThrough.

Definition exec_logic (op : bool → bool → bool) : VM flow :=
  a ← ipop;
  b ← ipop;
  ipush (op a b) ≫= λ _, mret FallThrough.

Definition exec_not : VM flow :=
  ipeek_update try_as_mut_bool VBool negb ≫= λ _, mret FallThrough.

(** [Gt] and [Lt]. *)
Definition exec_compare (op : Z → Z → bool) (msg : string) : VM flow :=
  b ← ipop_value;
  a ← ipop_value;
  match a, b with
  | VInt ia, VInt ib => ipush (op ia ib) ≫= λ _, mret FallThrough
  | _, _ => fail_at (InvalidType "Int, Int" (type_name a +:+ ", " +:+ type_name b) msg)
  end.

Definition exec_eq : VM flow :=
  b ← ipop_value;
  a ← ipop_value;
  ipush (bool_decide (a = b)) ≫= λ _, mret FallThrough.

Definition exec_fact_new (name : string) : VM flow :=
  ipush (fact_new name) ≫= λ _, mret FallThrough.

Definition exec_fact_key_set (varname : string) : VM flow :=
  v ← ipop;
  ipeek_update try_as_mut_fact VFact (set_key varname v) ≫= λ _, mret FallThrough.

Definition exec_fact_value_set (varname : string) : VM flow :=
  value ← ipop_value;
  ipeek_update try_as_mut_fact VFact (set_value varname value) ≫= λ _, mret FallThrough.

Definition exec_struct_new (name : string) : VM flow :=
  ipush (mkStruct name [] : Struct) ≫= λ _, mret FallThrough.

Definition exec_struct_set (field_name : string) : VM flow :=
  value ← ipop_value;
  s ← ipop;
  match bt_get (s_name (s : Struct)) (struct_defs machine) with
  | None => fail_at (InvalidSchema (s_name s))
  | Some fields =>
      if negb (existsb (λ f, bool_decide (fd_identifier f = field_name)) fields)
      then fail_at (InvalidStructMember field_name)
      else ipush (mkStruct (s_name s) (bt_insert field_name value (s_fields s)))
             ≫= λ _, mret FallThrough
  end.

Definition exec_struct_get (varname : string) : VM flow :=
  s ← ipop;
  match bt_get varname (s_fields (s : Struct)) with
  | Some v => ipush_value v ≫= λ _, mret FallThrough
  | None => fail_at (InvalidStructMember varname)
  end.

Definition exec_publish : VM flow :=
  s ← ipop;
  validate_struct_schema s ≫= λ _,
  let '(name, fields) := struct_to_kvpairs s in
  modify (λ st, set_io (io_publish name fields (rs_io st)) st) ≫= λ _, mret FallThrough.

(** Run an I/O operation that changes the I/O state. *)
Definition with_io {A} (f : IO → outcome MachineIOError A * IO) : VM A :=
  s ← get_state;
  let '(r, io) := f (rs_io s) in
  modify (set_io io) ≫= λ _, try_io r.

Definition exec_create : VM flow :=
  f ← ipop;
  with_io (io_fact_insert (f_name (f : Fact)) (f_keys f) (f_values f)) ≫= λ _, mret FallThrough.

Definition exec_delete : VM flow :=
  f ← ipop;
  with_io (io_fact_delete (f_name (f : Fact)) (f_keys f)) ≫= λ _, mret FallThrough.

Definition exec_update : VM flow :=
  fact_to ← ipop;
  fact_from ← ipop;
  s ← get_state;
  iter ← try_io (io_fact_query (f_name (fact_from : Fact)) (f_keys fact_from) (rs_io s));
  replaced_fact ← match iter with
                  | [] => fail_at (InvalidFact (f_name fact_from))
                  | item :: _ => try_io item
                  end;
  with_io (io_fact_delete (f_name fact_from) replaced_fact.1) ≫= λ _,
  with_io (io_fact_insert (f_name (fact_to : Fact)) (f_keys fact_to) (f_values fact_to)) ≫= λ _,
  mret FallThrough.

Definition exec_emit : VM flow :=
  s ← ipop;
  validate_struct_schema s ≫= λ _,
  let '(name, fields) := struct_to_kvpairs s in
  rs ← get_state;
  cr ← match rs_ctx rs with
       | CtxPolicy ctx => mret (pc_id ctx, false)
       | CtxRecall ctx => mret (pc_id ctx, true)
       | _ => fail_at (BadState "Emit: wrong command context")
       end;
  modify (λ st, set_io (io_effect name fields cr.1 cr.2 (rs_io st)) st) ≫= λ _, mret FallThrough.

(** [find_map] of [Query]: the first match or the first error. *)
Fixpoint query_find (qf : Fact) (iter : QueryIterator) : option QueryItem :=
  match iter with
  | [] => None
  | Ok f :: iter' => if fact_match qf f.1 f.2 then Some (Ok f) else query_find qf iter'
  | e :: _ => Some e
  end.

(** The fields of a queried fact: keys first, then values. *)
Definition fact_fields (f : FactKeyList * FactValueList) : list KVPair :=
  map kvpair_of_fact_key f.1 ++ map kvpair_of_fact_value f.2.

Definition exec_query : VM flow :=
  qf ← ipop;
  validate_fact_literal qf ≫= λ _,
  s ← get_state;
  iter ← try_io (io_fact_query (f_name qf) (f_keys qf) (rs_io s));
  match query_find qf iter with
  | Some r =>
      f ← try_io r;
      ipush (struct_new (f_name qf) (fact_fields f)) ≫= λ _, mret FallThrough
  | None => ipush_value VNone ≫= λ _, mret FallThrough
  end.

(** The counting loop of [FactCount]. *)
Fixpoint count_loop (fact : Fact) (limit count : Z) (iter : QueryIterator) : VM Z :=
  if (count <? limit)%Z then
    match iter with
    | [] => mret count
    | Ok f :: iter' =>
        if fact_match fact f.1 f.2 then
          match i64_checked_add count 1 with
          | Some c => count_loop fact limit c iter'
          | None => fail (Bug "should be able to increment fact counter")
          end
        else count_loop fact limit count iter'
    | Err e :: _ => fail_at (IO_ e)
    | Panic w :: _ => crash w
    end
  else mret count.

Definition exec_fact_count (limit : Z) : VM flow :=
  fact ← ipop;
  validate_fact_literal fact ≫= λ _,
  s ← get_state;
  iter ← try_io (io_fact_query (f_name fact) (f_keys fact) (rs_io s));
  count ← count_loop fact limit 0 iter;
  ipush_value (VInt count) ≫= λ _, mret FallThrough.

Definition exec_query_start : VM flow :=
  fact ← ipop;
  validate_fact_literal fact ≫= λ _,
  s ← get_state;
  iter ← try_io (io_fact_query (f_name fact) (f_keys fact) (rs_io s));
  modify (λ s, set_query_iter_stack (vec_push iter (rs_query_iter_stack s)) s) ≫= λ _,
  mret FallThrough.

Definition exec_query_next (ident : string) : VM flow :=
  s ← get_state;
  match vec_pop (rs_query_iter_stack s) with
  | None => fail_at (BadState "QueryNext: no results")
  | Some (iter, rest) =>
      match iter with
      | result :: iter' =>
          modify (set_query_iter_stack (rest ++ [iter'])) ≫= λ _,
          kv ← try_io result;
          let s := struct_new ident (fact_fields kv) in
          update_scope (@try) (scope_set ident (VStruct s)) ≫= λ _,
          ipush_value (VBool false) ≫= λ _, mret FallThrough
      | [] =>
          modify (set_query_iter_stack rest) ≫= λ _,
          ipush_value (VBool true) ≫= λ _, mret FallThrough
      end
  end.

Definition exec_serialize : VM flow :=
  s ← get_state;
  match rs_ctx s with
  | CtxSeal ctx =>
      command_struct ← ipop;
      if negb (bool_decide (s_name (command_struct : Struct) = seal_name ctx))
      then fail_at InvalidInstruction
      else match to_allocvec command_struct with
           | Some bytes => ipush bytes ≫= λ _, mret FallThrough
           | None => fail_at (Unknown "could not serialize command Struct")
           end
  | _ => fail_at InvalidInstruction
  end.

Definition exec_deserialize : VM flow :=
  s ← get_state;
  match rs_ctx s with
  | CtxOpen ctx =>
      bytes ← ipop;
      match from_bytes bytes with
      | None => fail_at (Unknown "could not deserialize Struct")
      | Some st =>
          if negb (bool_decide (open_name ctx = s_name st)) then fail_at InvalidInstruction
          else ipush st ≫= λ _, mret FallThrough
      end
  | _ => fail_at InvalidInstruction
  end.

(** ** [step] *)
Definition exec (i : Instruction) : VM flow :=
  match i with
  | IConst v => exec_const v
  | IDef key => exec_def key
  | IGet key => exec_get key
  | ISwap d => exec_swap d
  | IDup d => exec_dup d
  | IPop => exec_pop
  | IBlock => exec_block
  | IEnd => exec_end
  | IJump t => exec_jump t
  | IBranch t => exec_branch t
  | INext | ILast => crash "not yet implemented"
  | ICall t => exec_call t
  | IReturn => exec_return
  | IExtCall module procedure => exec_ext_call module procedure
  | IExit reason => mret (ReturnStatus (Exited reason))
  | IAdd => exec_arith i64_checked_add
  | ISub => exec_arith i64_checked_sub
  | IAnd => exec_logic andb
  | IOr => exec_logic orb
  | INot => exec_not
  | IGt => exec_compare Z.gtb "Greater-than comparison"
  | ILt => exec_compare Z.ltb "Less-than comparison"
  | IEq => exec_eq
  | IFactNew name => exec_fact_new name
  | IFactKeySet varname => exec_fact_key_set varname
  | IFactValueSet varname => exec_fact_value_set varname
  | IStructNew name => exec_struct_new name
  | IStructSet field_name => exec_struct_set field_name
  | IStructGet varname => exec_struct_get varname
  | IPublish => exec_publish
  | ICreate => exec_create
  | IDelete => exec_delete
  | IUpdate => exec_update
  | IEmit => exec_emit
  | IQuery => exec_query
  | IFactCount limit => exec_fact_count limit
  | IQueryStart => exec_query_start
  | IQueryNext ident => exec_query_next ident
  | ISerialize => exec_serialize
  | IDeserialize => exec_deserialize
  | IMeta _ => mret FallThrough
  end.

Definition advance_pc : VM MachineStatus :=
  s ← get_state;
  match checked_add (rs_pc s) 1 with
  | Some pc => modify (set_pc pc) ≫= λ _, mret Executing
  | None => fail (Bug "self.pc + 1 must not wrap")
  end.

Definition step : VM MachineStatus :=
  s ← get_state;
  match progmem machine !! rs_pc s with
  | None => fail_at (InvalidAddress "pc")
  | Some i =>
      fl ← exec i;
      match fl with
      | ReturnStatus st => mret st
      | FallThrough => advance_pc
      end
  end.

(** ** [run]

    The loop of [run], bounded by fuel: [None] means the fuel ran out. An
    error of [step] gets a position if it has none. *)
Definition step_with_position : VM MachineStatus := λ s,
  match step s with
  | (Err e, s') => (e' ← with_position e (rs_pc s') (codemap machine); Err e', s')
  | r => r
  end.

Fixpoint run (fuel : nat) : VM (option ExitReason) :=
  match fuel with
  | 0 => mret None
  | S fuel' =>
      st ← step_with_position;
      match st with
      | Executing => run fuel'
      | Exited reason => mret (Some reason)
      end
  end.

(** ** Entry points *)
Definition set_pc_by_label (label : Label) : VM unit :=
  match bt_get label (labels machine) with
  | Some addr => modify (set_pc addr)
  | None => fail_at (InvalidAddress (l_name label))
  end.

Definition setup_function (label : Label) : VM unit :=
  set_pc_by_label label ≫= λ _,
  modify (set_call_state []) ≫= λ _,
  modify_scope scope_clear.

(** The loop over the fields of [this]. *)
Fixpoint check_fields (command_def : BTreeMap string VType) (fields : list (string * Value)) : VM unit :=
  match fields with
  | [] => mret tt
  | (name, value) :: fields' =>
      e ← err (InvalidStructMember name);
      expected_type ← lift_opt (bt_get name command_def) e;
      fits ← no_err (fits_type value expected_type);
      if negb fits then
        fail_at (InvalidType (vtype_display expected_type) (type_name value) "invalid function argument")
      else check_fields command_def fields'
  end.

Definition setup_command (name : string) (label_type : LabelType) (this_data : Struct) : VM unit :=
  setup_function (mkLabel name label_type) ≫= λ _,
  e ← err (NotDefined name);
  command_def ← lift_opt (bt_get name (command_defs machine)) e;
  if negb (length (s_fields this_data) =? length command_def) then
    fail_at (Unknown ("command `" +:+ name +:+ "` expects " +:+ pretty (length command_def)
                      +:+ " field(s), but `this` contains " +:+ pretty (length (s_fields this_data))))
  else
    check_fields command_def (s_fields this_data) ≫= λ _,
    update_scope (@try_at) (scope_set "this" (VStruct this_data)).

Definition call_command_policy (fuel : nat) (name : string) (this_data envelope : Struct)
  : VM (option ExitReason) :=
  setup_command name LCommandPolicy this_data ≫= λ _,
  ipush envelope ≫= λ _,
  run fuel.

Definition call_command_recall (fuel : nat) (name : string) (this_data envelope : Struct)
  : VM (option ExitReason) :=
  setup_command name LCommandRecall this_data ≫= λ _,
  ipush envelope ≫= λ _,
  run fuel.

(** The loop that checks arguments against the action's definition. *)
Fixpoint check_args (args : list Value) (arg_def : list FieldDefinition) : VM unit :=
  match args, arg_def with
  | [], _ => mret tt
  | arg :: args', def :: defs' =>
      fits ← no_err (fits_type arg (fd_field_type def));
      if negb fits then
        fail (InvalidType (vtype_display (fd_field_type def)) (type_name arg) "invalid function argument")
      else check_args args' defs'
  | _ :: _, [] => crash "index out of bounds"
  end.

Definition setup_action (name : string) (args : list Value) : VM unit :=
  match bt_get name (action_defs machine) with
  | None => fail (NotDefined name)
  | Some arg_def =>
      if negb (length args =? length arg_def) then
        fail (Unknown ("action `" +:+ name +:+ "` expects " +:+ pretty (length arg_def)
                       +:+ " argument(s), but was called with " +:+ pretty (length args)))
      else
        check_args args arg_def ≫= λ _,
        setup_function (mkLabel name LAction) ≫= λ _,
        for_each ipush_value args
  end.

Definition call_action (fuel : nat) (name : string) (args : list Value) : VM (option ExitReason) :=
  setup_action name args ≫= λ _, run fuel.

Definition call_seal (fuel : nat) (name : string) (this_data : Struct) : VM (option ExitReason) :=
  setup_function (mkLabel name LCommandSeal) ≫= λ _,
  ipush this_data ≫= λ _,
  run fuel.

Definition call_open (fuel : nat) (name : string) (envelope : Struct) : VM (option ExitReason) :=
  setup_function (mkLabel name LCommandOpen) ≫= λ _,
  ipush envelope ≫= λ _,
  run fuel.

Definition consume_return : VM Value :=
  s ← get_state;
  p ← try_at (pop_value (rs_stack s));
  modify (set_stack p.2) ≫= λ _, mret p.1.
End Machine.
