(* ===== verification/VmInvariant.v ===== *)
(** Well-formedness of VM states: every instruction keeps the stack within its
    capacity, the values within their types, the scopes disciplined and the
    function frames in step with the call stack. The proofs go through a small
    Hoare logic for the state-and-error monad. *)
From S2P Require Import Prelude Collections PolicyData PolicyModule VmScope Vm.
Local Open Scope list_scope.
Local Open Scope nat_scope.

(** * Triples *)

(** [triple I m Q]: from a state in [I], [m] ends in a state in [I] whatever
    its outcome, and a value it returns satisfies [Q]. *)
Definition ok_at {S E A} (I : S → Prop) (Q : A → Prop) (r : outcome E A * S) : Prop :=
  I r.2 ∧ match r.1 with Ok a => Q a | _ => True end.
Definition triple {S E A} (I : S → Prop) (m : M S E A) (Q : A → Prop) : Prop :=
  ∀ s, I s → ok_at I Q (m s).

Section Triples.
Context {S E : Type} (I : S → Prop).

Lemma ok_at_bind {A B} (m : M S E A) (k : A → M S E B) (Q : A → Prop) (R : B → Prop) s :
  ok_at I Q (m s) → (∀ a, Q a → triple I (k a) R) → ok_at I R ((m ≫= k) s).
Proof.
  intros Hm Hk. unfold mbind, M_bind. destruct (m s) as [[a|e|w] s'].
  - destruct Hm as [Hs Ha]. by apply Hk.
  - destruct Hm as [? _]. by split.
  - destruct Hm as [? _]. by split.
Qed.

Lemma triple_state {A} (m : M S E A) (Q : A → Prop) s : triple I m Q → I s → I (m s).2.
Proof. intros Hm Hs. apply Hm, Hs. Qed.

Lemma triple_bind {A B} (m : M S E A) (k : A → M S E B) (Q : A → Prop) (R : B → Prop) :
  triple I m Q → (∀ a, Q a → triple I (k a) R) → triple I (m ≫= k) R.
Proof. intros Hm Hk s Hs. eapply ok_at_bind; [by apply Hm|done]. Qed.

(** Reading the state gives the state the rest starts from. *)
Lemma triple_get {B} (k : S → M S E B) (R : B → Prop) :
  (∀ s, I s → ok_at I R (k s s)) → triple I (get_state ≫= k) R.
Proof. intros Hk s Hs. by apply Hk. Qed.

Lemma triple_ret {A} (a : A) (Q : A → Prop) : Q a → triple (E := E) I (mret a) Q.
Proof. intros HQ s Hs. by split. Qed.

Lemma triple_throw {A} (e : E) (Q : A → Prop) : triple I (throw e) Q.
Proof. intros s Hs. by split. Qed.

Lemma triple_crash {A} w (Q : A → Prop) : triple (E := E) I (crash w) Q.
Proof. intros s Hs. by split. Qed.

Lemma triple_modify (f : S → S) (Q : unit → Prop) :
  (∀ s, I s → I (f s)) → Q tt → triple (E := E) I (modify f) Q.
Proof. intros Hf HQ s Hs. split; [by apply Hf|done]. Qed.

Lemma triple_lift_opt {A} (o : option A) (e : E) (Q : A → Prop) :
  (∀ a, o = Some a → Q a) → triple I (lift_opt o e) Q.
Proof. intros HQ s Hs. split; [done|]. destruct o; simpl; auto. Qed.

Lemma triple_lift {A} (o : outcome E A) (Q : A → Prop) :
  (∀ a, o = Ok a → Q a) → triple I (lift o) Q.
Proof. intros HQ s Hs. split; [done|]. destruct o; simpl; auto. Qed.

Lemma triple_weaken {A} (m : M S E A) (Q R : A → Prop) :
  (∀ a, Q a → R a) → triple I m Q → triple I m R.
Proof. intros HQR Hm s Hs. destruct (Hm s Hs) as [? HQ]. split; [done|]. destruct (m s).1; auto. Qed.
End Triples.

(** * Values within their types *)
Definition key_ok (k : FactKey) : Prop :=
  match fk_value k with HInt i => i64_ok i = true | _ => True end.

Inductive value_ok : Value → Prop :=
| ok_int i : i64_ok i = true → value_ok (VInt i)
| ok_bool b : value_ok (VBool b)
| ok_string s : value_ok (VString s)
| ok_bytes b : value_ok (VBytes b)
| ok_struct n fs : bt_wf fs → Forall (λ p, value_ok p.2) fs → value_ok (VStruct (mkStruct n fs))
| ok_fact n ks vs : Forall key_ok ks → Forall (λ v, value_ok (fv_value v)) vs → value_ok (VFact (mkFact n ks vs))
| ok_id i : value_ok (VId i)
| ok_enum n v : value_ok (VEnum n v)
| ok_none : value_ok VNone.
#[export] Hint Constructors value_ok : vm.

Definition struct_ok (s : Struct) : Prop := bt_wf (s_fields s) ∧ Forall (λ p, value_ok p.2) (s_fields s).
Definition fact_ok (f : Fact) : Prop := Forall key_ok (f_keys f) ∧ Forall (λ v, value_ok (fv_value v)) (f_values f).
Definition block_vals_ok (b : BTreeMap string Value) : Prop := Forall (λ p, value_ok p.2) b.
Definition scope_vals_ok (s : ScopeManager) : Prop :=
  block_vals_ok (sc_globals s) ∧ Forall (Forall block_vals_ok) (sc_locals s).

Definition item_ok (i : QueryItem) : Prop :=
  match i with Ok (k, v) => Forall key_ok k ∧ Forall (λ v, value_ok (fv_value v)) v | _ => True end.

Lemma value_ok_struct s : value_ok (VStruct s) ↔ struct_ok s.
Proof. destruct s as [n fs]. split; [by inversion 1|intros [??]; by constructor]. Qed.
Lemma value_ok_fact f : value_ok (VFact f) ↔ fact_ok f.
Proof. destruct f as [n ks vs]. split; [by inversion 1|intros [??]; by constructor]. Qed.

Lemma bt_insert_vals_ok k v (m : BTreeMap string Value) :
  value_ok v → block_vals_ok m → block_vals_ok (bt_insert k v m).
Proof.
  intros Hv Hm. apply Forall_forall. intros [k' v'] [[= -> ->]|Hin]%elem_of_bt_insert; [done|].
  by apply (proj1 (Forall_forall _ _) Hm (k', v')).
Qed.

Lemma bt_get_vals_ok k v (m : BTreeMap string Value) :
  block_vals_ok m → bt_get k m = Some v → value_ok v.
Proof. intros Hm Hin%bt_get_elem. by apply (proj1 (Forall_forall _ _) Hm (k, v)). Qed.

Lemma struct_ok_new n ps : Forall (λ p, value_ok (kv_value p)) ps → struct_ok (struct_new n ps).
Proof.
  intros HF. split; simpl; [apply bt_wf_from_iter|]. unfold bt_from_iter.
  assert (block_vals_ok []) as H0 by constructor. revert H0. generalize (@nil (string * Value)).
  induction HF as [|p ps Hp HF IH]; intros m Hm; simpl; [done|].
  apply IH, bt_insert_vals_ok; done.
Qed.

Lemma set_key_in_ok n v ks : key_ok (mkFactKey n v) → Forall key_ok ks → Forall key_ok (set_key_in n v ks).
Proof.
  intros Hv. induction 1 as [|k ks Hk HF IH]; simpl; [by constructor|].
  case_bool_decide; by constructor.
Qed.

Lemma set_value_in_ok n v vs :
  value_ok v → Forall (λ w, value_ok (fv_value w)) vs → Forall (λ w, value_ok (fv_value w)) (set_value_in n v vs).
Proof.
  intros Hv. induction 1 as [|k ks Hk HF IH]; simpl; [by repeat constructor|].
  case_bool_decide; by constructor.
Qed.

Lemma fact_fields_ok kv :
  Forall key_ok kv.1 → Forall (λ v, value_ok (fv_value v)) kv.2 →
  Forall (λ p, value_ok (kv_value p)) (fact_fields kv).
Proof.
  intros Hk Hv. apply Forall_app. split; apply Forall_map.
  - eapply Forall_impl; [exact Hk|]. intros [n []] Hok; simpl; by constructor.
  - exact Hv.
Qed.

(** Values held by scopes. *)
Lemma scope_vals_ok_snoc g l fr :
  scope_vals_ok (mkScope g (l ++ [fr])) ↔ scope_vals_ok (mkScope g l) ∧ Forall block_vals_ok fr.
Proof. unfold scope_vals_ok. simpl. rewrite Forall_app, Forall_singleton. naive_solver. Qed.

Lemma enter_block_vals_ok s s' : scope_vals_ok s → enter_block s = Ok s' → scope_vals_ok s'.
Proof.
  destruct s as [g l]. unfold enter_block. simpl. intros Hs E.
  destruct (vec_pop l) as [[fr rest]|] eqn:Ep; simplify_eq.
  apply vec_pop_Some in Ep as ->. apply scope_vals_ok_snoc in Hs as [? Hf].
  apply scope_vals_ok_snoc. split; [done|]. apply Forall_app. split; [done|]. by repeat constructor.
Qed.

Lemma exit_block_vals_ok s s' : scope_vals_ok s → exit_block s = Ok s' → scope_vals_ok s'.
Proof.
  destruct s as [g l]. unfold exit_block. simpl. intros Hs E.
  destruct (vec_pop l) as [[fr rest]|] eqn:Ep; simplify_eq. apply vec_pop_Some in Ep as ->.
  destruct (vec_pop fr) as [[b fr']|] eqn:Ep; simplify_eq. apply vec_pop_Some in Ep as ->.
  apply scope_vals_ok_snoc in Hs as [? Hf].
  apply scope_vals_ok_snoc. split; [done|]. by apply Forall_app in Hf as [? _].
Qed.

Lemma scope_set_vals_ok k v s s' :
  scope_vals_ok s → value_ok v → scope_set k v s = Ok s' → scope_vals_ok s'.
Proof.
  destruct s as [g l]. intros Hs Hv (rest & outer & block & Hl & -> & _)%scope_set_inv.
  simpl in Hl. subst l. apply scope_vals_ok_snoc in Hs as [? Hf]. apply scope_vals_ok_snoc.
  split; [done|]. apply Forall_app in Hf as [? Hb]. apply Forall_app. split; [done|].
  apply Forall_singleton, bt_insert_vals_ok; [done|]. exact (Forall_inv Hb).
Qed.

Lemma scope_get_vals_ok k s v : scope_vals_ok s → scope_get k s = Ok v → value_ok v.
Proof.
  intros [Hg Hl]. unfold scope_get.
  assert (∀ bs, Forall block_vals_ok bs → ∀ w, get_in_blocks k bs = Some w → value_ok w) as Hb.
  { induction 1 as [|b bs Hb HF IH]; simpl; [done|]. intros w.
    destruct (bt_get k b) eqn:E; [|apply IH]. intros. simplify_eq. by eapply bt_get_vals_ok. }
  destruct (last (sc_locals s)) as [fr|] eqn:El.
  - assert (Forall block_vals_ok (reverse fr)) as HF.
    { apply Forall_reverse. apply last_Some in El as [l' Heq]. rewrite Heq in Hl.
      apply Forall_app in Hl as [_ Hl]. exact (Forall_inv Hl). }
    destruct (get_in_blocks k (reverse fr)) eqn:E; intros; simplify_eq; [by eapply Hb|].
    destruct (bt_get k (sc_globals s)) eqn:Eg; simplify_eq. by eapply bt_get_vals_ok.
  - intros. destruct (bt_get k (sc_globals s)) eqn:Eg; simplify_eq. by eapply bt_get_vals_ok.
Qed.

(** * The machine invariant *)
Section Invariant.
Context {IO : Type} `{MachineIOLaws IO}.
Variable machine : Machine.
Variable to_allocvec : Struct → option (list u8).
Variable from_bytes : list u8 → option Struct.

(** The values the machine takes from outside are values of their Rust
    types: constants of the program, globals, decoded structs, and what the
    I/O returns. *)
Definition machine_ok : Prop :=
  (∀ a v, progmem machine !! a = Some (IConst v) → value_ok v)
  ∧ bt_wf (globals machine) ∧ block_vals_ok (globals machine)
  ∧ ∀ b s, from_bytes b = Some s → struct_ok s.

(** An invariant of the I/O state under which its facts are well typed. *)
Variable io_ok : IO → Prop.
Record io_vals_ok : Prop := mk_io_vals_ok {
  vals_insert n k v io : io_ok io → Forall key_ok k → Forall (λ w, value_ok (fv_value w)) v →
    io_ok (io_fact_insert n k v io).2;
  vals_delete n k io : io_ok io → io_ok (io_fact_delete n k io).2;
  vals_query n k io it : io_ok io → io_fact_query n k io = Ok it → Forall item_ok it;
  vals_publish n f io : io_ok io → io_ok (io_publish n f io);
  vals_effect n f c r io : io_ok io → io_ok (io_effect n f c r io);
  vals_call m p ctx st io r st' io' :
    io_call m p ctx st io = (r, st', io') → io_ok io → Forall value_ok st →
    Forall value_ok st' ∧ io_ok io'
}.

Record vm_ok (s : RunState IO) : Prop := mk_vm_ok {
  ok_capacity : stack_ok (rs_stack s);
  ok_stack_vals : Forall value_ok (rs_stack s);
  ok_scope : scope_ok (rs_scope s);
  ok_globals : sc_globals (rs_scope s) = globals machine;
  ok_scope_vals : scope_vals_ok (rs_scope s);
  ok_io : io_ok (rs_io s);
  ok_iters : Forall (Forall item_ok) (rs_query_iter_stack s);
  (** one frame per active call, and the frame of the entry point *)
  ok_frames : length (sc_locals (rs_scope s)) = S (length (rs_call_state s));
  (** every return address is the address of a call instruction *)
  ok_returns : Forall (λ a, ∃ t, progmem machine !! a = Some (ICall t)) (rs_call_state s)
}.

Hypothesis Hmachine : machine_ok.
Hypothesis Hio : io_vals_ok.

Lemma vm_ok_stack st s :
  vm_ok s → stack_ok st → Forall value_ok st → vm_ok (set_stack st s).
Proof. intros [] ??. by constructor. Qed.

Lemma vm_ok_iters it s :
  vm_ok s → Forall (Forall item_ok) it → vm_ok (set_query_iter_stack it s).
Proof. intros [] ?. by constructor. Qed.

Lemma vm_ok_set_io io s : io_ok io → vm_ok s → vm_ok (set_io io s).
Proof. intros ? []. by constructor. Qed.

Lemma vm_ok_set_pc pc s : vm_ok s → vm_ok (set_pc pc s).
Proof. intros []. by constructor. Qed.

Lemma vm_ok_set_scope sc s :
  vm_ok s → scope_ok sc → sc_globals sc = globals machine → scope_vals_ok sc →
  length (sc_locals sc) = length (sc_locals (rs_scope s)) → vm_ok (set_scope sc s).
Proof. intros [] ????. constructor; simpl; try done. congruence. Qed.

(** ** Triples of the machine's primitives *)
Abbreviation triple_vm := (triple vm_ok).

Lemma triple_err t : triple_vm (err machine t) (λ _, True).
Proof. intros s Hs. split; [done|]. simpl. by case_match. Qed.

Lemma triple_fail_at {A} t (Q : A → Prop) : triple_vm (fail_at machine t) Q.
Proof. eapply triple_bind; [apply triple_err|]. intros e _. apply triple_throw. Qed.

Lemma triple_fail {A} t (Q : A → Prop) : triple_vm (fail t) Q.
Proof. apply triple_throw. Qed.

Lemma triple_try_at {A} (m : outcome MachineErrorType A) (Q : A → Prop) :
  (∀ a, m = Ok a → Q a) → triple_vm (try_at machine m) Q.
Proof. intros HQ. destruct m; simpl; [by apply triple_ret, HQ|apply triple_fail_at|apply triple_crash]. Qed.

Lemma triple_try {A} (m : outcome MachineErrorType A) (Q : A → Prop) :
  (∀ a, m = Ok a → Q a) → triple_vm (try m) Q.
Proof. intros HQ. destruct m; simpl; [by apply triple_ret, HQ|apply triple_fail|apply triple_crash]. Qed.

Lemma triple_try_io {A} (m : outcome MachineIOError A) (Q : A → Prop) :
  (∀ a, m = Ok a → Q a) → triple_vm (try_io m) Q.
Proof. intros HQ. apply triple_try. destruct m; simpl; intros; simplify_eq. auto. Qed.

Lemma triple_ipush_value v : value_ok v → triple_vm (ipush_value machine v) (λ _, True).
Proof.
  intros Hv. apply triple_get. intros s Hs.
  destruct (push_value v (rs_stack s)) as [st|e|w] eqn:E; simpl.
  - apply push_value_stack_ok in E as ?. apply push_value_inv in E as [-> _].
    split; [|done]. apply vm_ok_stack; [done..|]. destruct Hs.
    apply Forall_app. by split; [|apply Forall_singleton].
  - eapply ok_at_bind; [by apply (triple_fail_at (A := MachineStack) e (λ _, False))|done].
  - by split.
Qed.

Lemma triple_ipush {V} `{IntoValue V} (v : V) :
  value_ok (into_value v) → triple_vm (ipush machine v) (λ _, True).
Proof. apply triple_ipush_value. Qed.

(** Taking the top off a good stack leaves a good stack and a good value. *)
Lemma vm_ok_pop s st v : vm_ok s → rs_stack s = st ++ [v] → vm_ok (set_stack st s) ∧ value_ok v.
Proof.
  intros Hs Heq. pose proof (ok_stack_vals _ Hs) as HF. pose proof (ok_capacity _ Hs) as Hc.
  rewrite Heq in HF, Hc. apply Forall_app in HF as [HF Hv]. split; [|exact (Forall_inv Hv)].
  apply vm_ok_stack; [done| |done]. unfold stack_ok in *. rewrite length_app in Hc. simpl in Hc. lia.
Qed.

Lemma triple_ipop {V} `{TryFromValue V} (Q : V → Prop) :
  (∀ raw v, value_ok raw → try_from_value raw = Ok v → Q v) → triple_vm (ipop machine) Q.
Proof.
  intros HQ. apply triple_get. intros s Hs.
  destruct (stack_pop (rs_stack s)) as [r st] eqn:E.
  apply stack_pop_inv in E as [(raw & Heq & ->)|(Heq & -> & ->)].
  - destruct (vm_ok_pop _ _ _ Hs Heq) as [Hs' Hraw].
    eapply (ok_at_bind _ _ _ (λ _, True)); [by split|]. intros _ _. apply triple_try_at.
    intros v Hv. destruct (try_from_value raw) eqn:Ev; simplify_eq/=. eauto.
  - eapply (ok_at_bind _ _ _ (λ _, True)).
    + split; [|done]. apply vm_ok_stack; [done|unfold stack_ok; simpl; lia|done].
    + intros _ _. apply triple_try_at. done.
Qed.

Lemma triple_ipop_value : triple_vm (ipop_value machine) value_ok.
Proof.
  apply triple_get. intros s Hs. destruct (pop_value (rs_stack s)) as [[v st]|e|w] eqn:E; simpl.
  - apply pop_value_Ok in E. destruct (vm_ok_pop _ _ _ Hs E). by split.
  - eapply ok_at_bind; [by apply (triple_fail_at (A := Value * MachineStack) e (λ _, False))|done].
  - by split.
Qed.

Lemma triple_ipeek_update {V} (as_mut : Value → outcome ValueConversionError V) back f :
  (∀ raw x, value_ok raw → as_mut raw = Ok x → value_ok (back (f x))) →
  triple_vm (ipeek_update machine as_mut back f) (λ _, True).
Proof.
  intros HQ. apply triple_get. intros s Hs. unfold stack_peek, peek_value.
  destruct (rs_stack s) as [|v st _] eqn:Est using rev_ind; simpl.
  - eapply ok_at_bind; [by apply (triple_fail_at (A := V) StackUnderflow (λ _, False))|done].
  - rewrite last_snoc. simpl. destruct (vm_ok_pop _ _ _ Hs Est) as [Hs' Hv].
    destruct (as_mut v) as [x|e|w] eqn:Ev; simpl.
    + split; [|done]. simpl. rewrite vec_set_last_snoc. pose proof (ok_capacity _ Hs) as Hc.
      apply vm_ok_stack; [done|..].
      * rewrite Est in Hc. unfold stack_ok in *. by rewrite length_app in *.
      * apply Forall_app. split; [apply (ok_stack_vals _ Hs')|]. apply Forall_singleton. eauto.
    + eapply ok_at_bind; [by apply (triple_fail_at (A := V) _ (λ _, False))|done].
    + by split.
Qed.

Lemma triple_update_scope (tr : ∀ A, outcome MachineErrorType A → VM (IO := IO) A) f :
  (∀ A m (Q : A → Prop), (∀ a, m = Ok a → Q a) → triple_vm (tr A m) Q) →
  (∀ A m (s : RunState IO) a s', tr A m s = (Ok a, s') → s' = s) →
  (∀ s sc, vm_ok s → f (rs_scope s) = Ok sc →
     scope_ok sc ∧ sc_globals sc = globals machine ∧ scope_vals_ok sc
     ∧ length (sc_locals sc) = length (sc_locals (rs_scope s))) →
  triple_vm (update_scope tr f) (λ _, True).
Proof.
  intros Htr Hst Hf. apply triple_get. intros s Hs.
  pose proof (Htr _ (f (rs_scope s)) (λ sc, f (rs_scope s) = Ok sc) (λ a H, H) s Hs) as Hok.
  unfold mbind, M_bind. destruct (tr _ (f (rs_scope s)) s) as [[sc|e|w] s'] eqn:E;
    [|by destruct Hok; split..].
  apply Hst in E as ->. destruct Hok as [_ Hsc]. simpl in Hsc.
  destruct (Hf s sc Hs Hsc) as (? & ? & ? & ?). split; [|done]. by apply vm_ok_set_scope.
Qed.

(** The block operations and definitions act on the current frame only. *)
Lemma triple_scope_step (tr : ∀ A, outcome MachineErrorType A → VM (IO := IO) A) f :
  (∀ A m (Q : A → Prop), (∀ a, m = Ok a → Q a) → triple_vm (tr A m) Q) →
  (∀ A m (s : RunState IO) a s', tr A m s = (Ok a, s') → s' = s) →
  (∀ s s', f s = Ok s' → scope_step s s') →
  (∀ s s', scope_ok s → f s = Ok s' → scope_ok s') →
  (∀ s s', scope_vals_ok s → f s = Ok s' → scope_vals_ok s') →
  triple_vm (update_scope tr f) (λ _, True).
Proof.
  intros Htr Hst Hstep Hok Hvals. apply triple_update_scope; [done..|]. intros s sc [] E.
  pose proof (scope_step_frames _ _ (Hstep _ _ E)) as (rest & fr & fr' & Hl & Heq).
  split_and!; [eauto| |eauto|]; subst sc; simpl; [done|]. by rewrite Hl, !length_app.
Qed.

Lemma try_at_state {A} (m : outcome MachineErrorType A) (s : RunState IO) a s' :
  try_at machine m s = (Ok a, s') → s' = s.
Proof.
  destruct m; simpl; [by intros [= _ ->]| |done].
  unfold fail_at, err, mbind, M_bind. by destruct (from_position _ _ _).
Qed.

Lemma try_state {A} (m : outcome MachineErrorType A) (s : RunState IO) a s' :
  try m s = (Ok a, s') → s' = s.
Proof. destruct m; simpl; [by intros [= _ ->]|done..]. Qed.

(** ** One triple per instruction *)
Lemma triple_exec_def key : triple_vm (exec_def machine key) (λ _, True).
Proof.
  eapply triple_bind; [apply triple_ipop_value|]. intros v Hv.
  eapply triple_bind; [|by intros; apply triple_ret].
  apply triple_scope_step; eauto using @triple_try, try_state, step_set, scope_set_ok, scope_set_vals_ok.
Qed.

Lemma triple_exec_block : triple_vm (exec_block machine) (λ _, True).
Proof.
  eapply triple_bind; [|by intros; apply triple_ret].
  apply triple_scope_step; eauto using @triple_try_at, try_at_state, step_enter_block, enter_block_ok, enter_block_vals_ok.
Qed.

Lemma triple_exec_end : triple_vm (exec_end machine) (λ _, True).
Proof.
  eapply triple_bind; [|by intros; apply triple_ret].
  apply triple_scope_step; eauto using @triple_try_at, try_at_state, step_exit_block, exit_block_ok, exit_block_vals_ok.
Qed.

Lemma triple_exec_get key : triple_vm (exec_get machine key) (λ _, True).
Proof.
  apply triple_get. intros s Hs. eapply (ok_at_bind _ _ _ value_ok).
  - apply triple_try; [|done]. intros v. apply scope_get_vals_ok, Hs.
  - intros v Hv. eapply triple_bind; [by apply triple_ipush_value|by intros; apply triple_ret].
Qed.

(** Finishes an instruction that only moves values between good places. *)
Ltac vm_auto :=
  repeat first
    [ apply triple_fail_at | apply triple_fail | apply triple_crash
    | apply triple_throw | by apply triple_ret
    | case_match
    | match goal with
      | |- triple _ (ipop_value _ ≫= _) _ =>
          eapply triple_bind; [apply triple_ipop_value|intros ? ?]
      | |- triple _ (ipush _ _ ≫= _) _ =>
          eapply triple_bind; [apply triple_ipush|intros ? ?]
      | |- triple _ (ipush_value _ _ ≫= _) _ =>
          eapply triple_bind; [apply triple_ipush_value|intros ? ?]
      | |- triple _ (err _ _ ≫= _) _ =>
          eapply triple_bind; [apply triple_err|intros ? ?]
      end ].

Lemma triple_exec_swap d : triple_vm (exec_swap machine d) (λ _, True).
Proof.
  unfold exec_swap. destruct (d =? 0); [apply triple_fail_at|].
  apply triple_get. intros s Hs.
  destruct (checked_sub (length (rs_stack s)) 1) as [i1|]; [|by split].
  unfold mbind at 1, M_bind. simpl. destruct (checked_sub i1 d) as [i2|]; [|by split].
  unfold mbind at 1, M_bind. simpl. destruct (vec_swap i1 i2 (rs_stack s)) as [st|] eqn:E; [|by split].
  split; [|done]. simpl. pose proof Hs as [Hc Hv]. unfold vec_swap in E.
  destruct (rs_stack s !! i1) as [x|] eqn:E1; [|done].
  destruct (rs_stack s !! i2) as [y|] eqn:E2; simplify_eq. apply vm_ok_stack; [done|..].
  - unfold stack_ok in *. by rewrite !length_insert.
  - rewrite Forall_lookup in Hv. repeat apply Forall_insert; eauto. by apply Forall_lookup.
Qed.

Lemma triple_exec_dup d : triple_vm (exec_dup machine d) (λ _, True).
Proof.
  apply triple_get. intros s Hs.
  destruct (checked_sub (length (rs_stack s)) d) as [i1|]; [|by split].
  unfold mbind at 1, M_bind. simpl. destruct (checked_sub i1 1) as [i2|]; [|by split].
  unfold mbind at 1, M_bind. simpl. destruct (rs_stack s !! i2) as [v|] eqn:E; [|by split].
  eapply ok_at_bind; [apply triple_ipush_value; [|done]|by intros; apply triple_ret].
  by eapply Forall_lookup_1; [apply Hs|].
Qed.

Lemma triple_exec_pop : triple_vm exec_pop (λ _, True).
Proof.
  apply triple_get. intros s Hs. destruct (pop_value (rs_stack s)) as [[v st]|e|w] eqn:E; [|by split..].
  apply pop_value_Ok in E. destruct (vm_ok_pop _ _ _ Hs E). by split.
Qed.

Lemma triple_exec_jump t : triple_vm (exec_jump machine t) (λ _, True).
Proof.
  destruct t; simpl; [apply triple_fail_at|].
  eapply (triple_bind _ _ _ (λ _, True)); [|by intros; apply triple_ret].
  apply triple_modify; [apply vm_ok_set_pc|done].
Qed.

Lemma triple_exec_branch t : triple_vm (exec_branch machine t) (λ _, True).
Proof.
  eapply triple_bind; [by apply (triple_ipop (λ _ : bool, True))|]. intros b _.
  destruct b; [exact (triple_exec_jump t)|by apply triple_ret].
Qed.

(** A call pushes a frame and a return address together. *)
Lemma exec_call_ok t s :
  vm_ok s → progmem machine !! rs_pc s = Some (ICall t) → ok_at vm_ok (λ _, True) (exec_call machine t s).
Proof.
  intros Hs Hpc. destruct t as [l|n]; [by apply triple_fail_at|]. split; [|done]. simpl.
  destruct Hs. constructor; simpl; try done.
  - by apply enter_function_ok.
  - destruct (rs_scope s) as [g l]. apply scope_vals_ok_snoc. split; [done|]. by repeat constructor.
  - unfold enter_function, set_locals, vec_push. simpl. rewrite !length_app. simpl. lia.
  - apply Forall_app. split; [done|]. apply Forall_singleton. eauto.
Qed.

Lemma exec_return_ok s : vm_ok s → ok_at vm_ok (λ _, True) (exec_return machine s).
Proof.
  intros Hs. unfold exec_return, get_state, mbind, M_bind.
  destruct (rs_call_state s) as [|a cs _] eqn:Ecs using rev_ind; [by split|].
  destruct (cs ++ [a]) eqn:Ec; [by destruct cs|].
  rewrite <- Ec in Ecs |- *. rewrite vec_pop_snoc. simpl.
  pose proof (ok_frames _ Hs) as Hl. rewrite Ecs, length_app in Hl. simpl in Hl.
  unfold update_scope, exit_function, get_state, mbind, M_bind. simpl.
  destruct (sc_locals (rs_scope s)) as [|fr rest _] eqn:El using rev_ind; [done|].
  rewrite vec_pop_snoc. split; [|done]. simpl. rewrite length_app in Hl. simpl in Hl.
  destruct Hs. rewrite Ecs in *. destruct (rs_scope s) as [g ls]. simpl in *. subst ls.
  constructor; simpl; try done.
  - by apply scope_ok_snoc in ok_scope0 as [? _].
  - by apply scope_vals_ok_snoc in ok_scope_vals0 as [? _].
  - lia.
  - by apply Forall_app in ok_returns0 as [? _].
Qed.

Lemma triple_exec_ext_call m p : triple_vm (exec_ext_call m p) (λ _, True).
Proof.
  apply triple_get. intros s Hs.
  destruct (io_call m p (rs_ctx s) (rs_stack s) (rs_io s)) as [[r st] io] eqn:E.
  eapply (ok_at_bind _ _ _ (λ _, True)).
  - destruct (vals_call Hio _ _ _ _ _ _ _ _ E) as [Hst Hio']; [apply Hs..|].
    split; [|done]. simpl. apply vm_ok_set_io; [done|]. apply vm_ok_stack; [done| |done].
    eapply io_call_stack_ok; [|done]. apply Hs.
  - intros _ _. eapply (triple_bind _ _ _ (λ _, True)); [by apply triple_lift|by intros; apply triple_ret].
Qed.

Lemma triple_exec_arith op :
  (∀ a b r, op a b = Some r → i64_ok r = true) → triple_vm (exec_arith machine op) (λ _, True).
Proof.
  intros Hop. eapply triple_bind; [by apply (triple_ipop (λ _ : Z, True))|]. intros b _.
  eapply triple_bind; [by apply (triple_ipop (λ _ : Z, True))|]. intros a _.
  eapply triple_bind; [apply triple_err|]. intros e _.
  eapply (triple_bind _ _ _ (λ r, i64_ok r = true)); [apply triple_lift_opt; eauto|]. intros r Hr.
  vm_auto. by constructor.
Qed.

Lemma triple_exec_logic op : triple_vm (exec_logic machine op) (λ _, True).
Proof.
  eapply triple_bind; [by apply (triple_ipop (λ _ : bool, True))|]. intros a _.
  eapply triple_bind; [by apply (triple_ipop (λ _ : bool, True))|]. intros b _.
  vm_auto. constructor.
Qed.

Lemma triple_exec_not : triple_vm (exec_not machine) (λ _, True).
Proof.
  eapply triple_bind; [|by intros; apply triple_ret].
  apply triple_ipeek_update. intros raw x _ _. constructor.
Qed.

Lemma triple_exec_compare op msg : triple_vm (exec_compare machine op msg) (λ _, True).
Proof. unfold exec_compare. vm_auto. constructor. Qed.

Lemma triple_exec_eq : triple_vm (exec_eq machine) (λ _, True).
Proof. unfold exec_eq. vm_auto. constructor. Qed.

(** Popping at the types of the data model. *)
Lemma triple_ipop_struct : triple_vm (ipop machine) struct_ok.
Proof. apply triple_ipop. intros raw v Hok E. unfold try_from_value, struct_from_value in E.
  destruct raw; simplify_eq. by apply value_ok_struct. Qed.
Lemma triple_ipop_fact : triple_vm (ipop machine) fact_ok.
Proof. apply triple_ipop. intros raw v Hok E. unfold try_from_value, fact_from_value in E.
  destruct raw; simplify_eq. by apply value_ok_fact. Qed.
Lemma triple_ipop_hashable n : triple_vm (ipop machine) (λ h, key_ok (mkFactKey n h)).
Proof. apply triple_ipop. intros raw v Hok E. unfold try_from_value, hashable_from_value in E.
  destruct raw; simplify_eq; unfold key_ok; simpl; [by inversion Hok|done..]. Qed.

Lemma triple_with_io {A} (f : IO → outcome MachineIOError A * IO) :
  (∀ io, io_ok io → io_ok (f io).2) → triple_vm (with_io f) (λ _, True).
Proof.
  intros Hf. apply triple_get. intros s Hs. specialize (Hf (rs_io s) (ok_io _ Hs)).
  destruct (f (rs_io s)) as [r io].
  eapply (ok_at_bind _ _ _ (λ _, True)); [split; [by apply vm_ok_set_io|done]|].
  intros _ _. by apply triple_try_io.
Qed.

Lemma triple_validate_struct s : triple_vm (validate_struct_schema machine s) (λ _, True).
Proof. unfold validate_struct_schema. vm_auto. Qed.

Lemma triple_validate_fact f : triple_vm (validate_fact_literal machine f) (λ _, True).
Proof. unfold validate_fact_literal. vm_auto. Qed.

(** A query against the current I/O state yields good items. *)
Lemma triple_query {B} n k (cont : QueryIterator → VM (IO := IO) B) (R : B → Prop) :
  (∀ it, Forall item_ok it → triple_vm (cont it) R) →
  triple_vm (s ← get_state; iter ← try_io (io_fact_query n k (rs_io s)); cont iter) R.
Proof.
  intros Hc. apply triple_get. intros s Hs. eapply (ok_at_bind _ _ _ (Forall item_ok)).
  - apply triple_try_io; [|done]. intros it. apply Hio, Hs.
  - done.
Qed.

Lemma triple_exec_fact_new n : triple_vm (exec_fact_new machine n) (λ _, True).
Proof. unfold exec_fact_new. vm_auto. by repeat constructor. Qed.

Lemma triple_exec_fact_key_set n : triple_vm (exec_fact_key_set machine n) (λ _, True).
Proof.
  eapply triple_bind; [apply (triple_ipop_hashable n)|]. intros h Hh.
  eapply triple_bind; [|by intros; apply triple_ret]. apply triple_ipeek_update.
  intros [] x Hok E; simplify_eq/=. apply value_ok_fact in Hok as [Hk Hv].
  apply value_ok_fact. split; [by apply set_key_in_ok|done].
Qed.

Lemma triple_exec_fact_value_set n : triple_vm (exec_fact_value_set machine n) (λ _, True).
Proof.
  eapply triple_bind; [apply triple_ipop_value|]. intros v Hv0.
  eapply triple_bind; [|by intros; apply triple_ret]. apply triple_ipeek_update.
  intros [] x Hok E; simplify_eq/=. apply value_ok_fact in Hok as [Hk Hv].
  apply value_ok_fact. split; [done|by apply set_value_in_ok].
Qed.

Lemma triple_exec_struct_new n : triple_vm (exec_struct_new machine n) (λ _, True).
Proof. unfold exec_struct_new. vm_auto. by repeat constructor. Qed.

Lemma triple_exec_struct_set n : triple_vm (exec_struct_set machine n) (λ _, True).
Proof.
  eapply triple_bind; [apply triple_ipop_value|]. intros v Hv.
  eapply triple_bind; [apply triple_ipop_struct|]. intros s [Hw Hs].
  vm_auto. apply value_ok_struct. split; [by apply bt_wf_insert|by apply bt_insert_vals_ok].
Qed.

Lemma triple_exec_struct_get n : triple_vm (exec_struct_get machine n) (λ _, True).
Proof.
  eapply triple_bind; [apply triple_ipop_struct|]. intros s [Hw Hs].
  vm_auto. by eapply bt_get_vals_ok.
Qed.

Lemma triple_modify_io (f : IO → IO) :
  (∀ io, io_ok io → io_ok (f io)) →
  triple_vm (modify (λ st, set_io (f (rs_io st)) st) : VM unit) (λ _, True).
Proof. intros Hf. apply triple_modify; [|done]. intros s Hs. apply vm_ok_set_io; [apply Hf, Hs|done]. Qed.

Lemma triple_exec_publish : triple_vm (exec_publish machine) (λ _, True).
Proof.
  eapply triple_bind; [apply triple_ipop_struct|]. intros s Hs.
  eapply triple_bind; [apply triple_validate_struct|]. intros _ _. simpl.
  eapply triple_bind; [apply triple_modify_io; intros; by apply Hio|by intros; apply triple_ret].
Qed.

Lemma triple_exec_create : triple_vm (exec_create machine) (λ _, True).
Proof.
  eapply triple_bind; [apply triple_ipop_fact|]. intros f Hf.
  eapply triple_bind; [apply triple_with_io; intros; apply Hio; [done|apply Hf..]|by intros; apply triple_ret].
Qed.

Lemma triple_exec_delete : triple_vm (exec_delete machine) (λ _, True).
Proof.
  eapply triple_bind; [apply triple_ipop_fact|]. intros f Hf.
  eapply triple_bind; [apply triple_with_io; intros; apply Hio; [done|apply Hf..]|by intros; apply triple_ret].
Qed.

Lemma triple_exec_update : triple_vm (exec_update machine) (λ _, True).
Proof.
  eapply triple_bind; [apply triple_ipop_fact|]. intros ft Hft.
  eapply triple_bind; [apply triple_ipop_fact|]. intros ff Hff.
  apply triple_query. intros it Hit. eapply (triple_bind _ _ _ (λ _, True)).
  - destruct it; [apply triple_fail_at|by apply triple_try_io].
  - intros kv _. eapply triple_bind; [apply triple_with_io; intros; by apply Hio|]. intros _ _.
    eapply triple_bind; [apply triple_with_io; intros; apply Hio; [done|apply Hft..]|by intros; apply triple_ret].
Qed.

Lemma triple_exec_emit : triple_vm (exec_emit machine) (λ _, True).
Proof.
  eapply triple_bind; [apply triple_ipop_struct|]. intros s Hs.
  eapply triple_bind; [apply triple_validate_struct|]. intros _ _. simpl.
  apply triple_get. intros rs Hrs. eapply (ok_at_bind _ _ _ (λ _, True)).
  - destruct (rs_ctx rs); first [by apply triple_fail_at | by apply triple_ret].
  - intros cr _. eapply triple_bind; [apply triple_modify_io; intros; by apply Hio|by intros; apply triple_ret].
Qed.

Lemma query_find_ok qf it r : Forall item_ok it → query_find qf it = Some r → item_ok r.
Proof.
  induction 1 as [|i it Hi HF IH]; simpl; [done|]. destruct i as [f|e|w]; [|naive_solver..].
  destruct (fact_match qf f.1 f.2); [naive_solver|done].
Qed.

Lemma triple_exec_query : triple_vm (exec_query machine) (λ _, True).
Proof.
  eapply triple_bind; [apply triple_ipop_fact|]. intros qf Hqf.
  eapply triple_bind; [apply triple_validate_fact|]. intros _ _.
  apply triple_query. intros it Hit. destruct (query_find qf it) as [r|] eqn:E; [|vm_auto; constructor].
  apply query_find_ok in E; [|done].
  eapply (triple_bind _ _ _ (λ f, item_ok (Ok f))); [by apply triple_try_io; intros a ->|].
  intros [k v] [Hk Hv]. vm_auto. by apply value_ok_struct, struct_ok_new, fact_fields_ok.
Qed.

Lemma i64_checked_add_ok a b r : i64_checked_add a b = Some r → i64_ok r = true.
Proof. unfold i64_checked_add. intros H'. case_match; naive_solver. Qed.
Lemma i64_checked_sub_ok a b r : i64_checked_sub a b = Some r → i64_ok r = true.
Proof. unfold i64_checked_sub. intros H'. case_match; naive_solver. Qed.

Lemma triple_count_loop f limit c it :
  i64_ok c = true → triple_vm (count_loop machine f limit c it) (λ r, i64_ok r = true).
Proof.
  revert c. induction it as [|i it IH]; intros c Hc; simpl; [vm_auto|].
  destruct (c <? limit)%Z; [|by apply triple_ret].
  destruct i as [kv|e|w]; [|apply triple_fail_at|apply triple_crash].
  destruct (fact_match f kv.1 kv.2); [|by apply IH].
  destruct (i64_checked_add c 1) eqn:E; [|apply triple_fail].
  apply IH. by eapply i64_checked_add_ok.
Qed.

Lemma triple_exec_fact_count limit : triple_vm (exec_fact_count machine limit) (λ _, True).
Proof.
  eapply triple_bind; [apply triple_ipop_fact|]. intros f Hf.
  eapply triple_bind; [apply triple_validate_fact|]. intros _ _.
  apply triple_query. intros it Hit.
  eapply triple_bind; [by apply triple_count_loop|]. intros c Hc. vm_auto. by constructor.
Qed.

Lemma triple_exec_query_start : triple_vm (exec_query_start machine) (λ _, True).
Proof.
  eapply triple_bind; [apply triple_ipop_fact|]. intros f Hf.
  eapply triple_bind; [apply triple_validate_fact|]. intros _ _.
  apply triple_query. intros it Hit.
  eapply (triple_bind _ _ _ (λ _, True)); [|by intros; apply triple_ret].
  apply triple_modify; [|done]. intros s Hs. apply vm_ok_iters; [done|].
  apply Forall_app. split; [apply Hs|by apply Forall_singleton].
Qed.

Lemma triple_exec_query_next n : triple_vm (exec_query_next machine n) (λ _, True).
Proof.
  apply triple_get. intros s Hs.
  destruct (vec_pop (rs_query_iter_stack s)) as [[it rest]|] eqn:E; [|by apply triple_fail_at].
  apply vec_pop_Some in E. pose proof (ok_iters _ Hs) as HF. rewrite E in HF.
  apply Forall_app in HF as [Hrest Hit]. apply Forall_inv in Hit.
  destruct it as [|r it]; (eapply (ok_at_bind _ _ _ (λ _, True)); [split; [|done]|intros _ _]).
  - by apply vm_ok_iters.
  - vm_auto. constructor.
  - apply vm_ok_iters; [done|]. apply Forall_app. split; [done|].
    apply Forall_singleton. by inversion Hit.
  - eapply (triple_bind _ _ _ (λ f, item_ok (Ok f))).
    { apply triple_try_io. intros a ->. by inversion Hit. }
    intros [k v] [Hk Hv]. eapply triple_bind; [|intros _ _; vm_auto; constructor].
    apply triple_scope_step; eauto using @triple_try, try_state, step_set, scope_set_ok.
    intros s0 s1 Hs0. apply scope_set_vals_ok; [done|].
    by apply value_ok_struct, struct_ok_new, fact_fields_ok.
Qed.

Lemma triple_exec_serialize : triple_vm (exec_serialize machine to_allocvec) (λ _, True).
Proof.
  apply triple_get. intros s Hs. destruct (rs_ctx s); try by apply triple_fail_at.
  eapply ok_at_bind; [by apply triple_ipop_struct|]. intros cs Hcs. vm_auto. constructor.
Qed.

Lemma triple_exec_deserialize : triple_vm (exec_deserialize machine from_bytes) (λ _, True).
Proof.
  apply triple_get. intros s Hs. destruct (rs_ctx s); try by apply triple_fail_at.
  eapply ok_at_bind; [by apply (triple_ipop (λ _ : list u8, True))|]. intros b _.
  destruct (from_bytes b) as [st|] eqn:E; vm_auto.
  apply value_ok_struct. by eapply (proj2 (proj2 (proj2 Hmachine))).
Qed.

(** ** [step] and the entry points *)
Lemma exec_ok i s :
  vm_ok s → progmem machine !! rs_pc s = Some i →
  ok_at vm_ok (λ _, True) (exec machine to_allocvec from_bytes i s).
Proof.
  intros Hs Hpc. destruct i; simpl;
    try solve [by split | by apply exec_call_ok | by apply exec_return_ok
      | apply triple_exec_def, Hs | apply triple_exec_get, Hs | apply triple_exec_swap, Hs
      | apply triple_exec_dup, Hs | apply triple_exec_pop, Hs | apply triple_exec_block, Hs
      | apply triple_exec_end, Hs | apply triple_exec_jump, Hs | apply triple_exec_branch, Hs
      | apply triple_exec_ext_call, Hs | apply triple_exec_logic, Hs | apply triple_exec_not, Hs
      | apply triple_exec_compare, Hs | apply triple_exec_eq, Hs | apply triple_exec_fact_new, Hs
      | apply triple_exec_fact_key_set, Hs | apply triple_exec_fact_value_set, Hs
      | apply triple_exec_struct_new, Hs | apply triple_exec_struct_set, Hs
      | apply triple_exec_struct_get, Hs | apply triple_exec_publish, Hs
      | apply triple_exec_create, Hs | apply triple_exec_delete, Hs | apply triple_exec_update, Hs
      | apply triple_exec_emit, Hs | apply triple_exec_query, Hs | apply triple_exec_fact_count, Hs
      | apply triple_exec_query_start, Hs | apply triple_exec_query_next, Hs
      | apply triple_exec_serialize, Hs | apply triple_exec_deserialize, Hs].
  - eapply ok_at_bind; [|by intros; apply triple_ret]. apply triple_ipush_value; [|done].
    by eapply (proj1 Hmachine).
  - apply triple_exec_arith; [apply i64_checked_add_ok|done].
  - apply triple_exec_arith; [apply i64_checked_sub_ok|done].
Qed.

Lemma triple_advance_pc : triple_vm (advance_pc) (λ _, True).
Proof.
  apply triple_get. intros s Hs. destruct (checked_add (rs_pc s) 1) as [pc|]; [|by apply triple_fail].
  split; [by apply vm_ok_set_pc|done].
Qed.

Lemma triple_step : triple_vm (step machine to_allocvec from_bytes) (λ _, True).
Proof.
  apply triple_get. intros s Hs.
  destruct (progmem machine !! rs_pc s) as [i|] eqn:Hpc; [|by apply triple_fail_at].
  eapply ok_at_bind; [by apply exec_ok|]. intros [|st] _; [apply triple_advance_pc|by apply triple_ret].
Qed.

Lemma triple_step_with_position : triple_vm (step_with_position machine to_allocvec from_bytes) (λ _, True).
Proof.
  intros s Hs. pose proof (triple_step s Hs) as Hok. unfold step_with_position.
  destruct (step machine to_allocvec from_bytes s) as [[st|e|w] s']; try done.
  destruct Hok as [Hok _]. split; [done|]. simpl.
  by destruct (with_position e (rs_pc s') (codemap machine)).
Qed.

Lemma triple_run fuel : triple_vm (run machine to_allocvec from_bytes fuel) (λ _, True).
Proof.
  induction fuel as [|fuel IH]; simpl; [by apply triple_ret|].
  eapply triple_bind; [apply triple_step_with_position|]. intros [|r] _; [done|by apply triple_ret].
Qed.

Lemma vm_ok_new io ctx : io_ok io → vm_ok (run_state_new machine io ctx).
Proof.
  intros Hi. constructor; simpl; try done.
  - unfold stack_ok. simpl. lia.
  - apply scope_ok_new.
  - split; [apply Hmachine|by repeat constructor].
Qed.

(** [setup_function] discards all frames and calls together. *)
Lemma triple_setup_function l : triple_vm (setup_function machine l) (λ _, True).
Proof.
  intros s Hs. unfold setup_function, set_pc_by_label.
  destruct (bt_get l (labels machine)) as [a|]; simpl.
  - split; [|done]. destruct Hs. constructor; simpl; try done.
    + apply Forall_singleton, frame_ok_nil_block.
    + split; [by destruct ok_scope_vals0|by repeat constructor].
  - eapply ok_at_bind; [by apply (triple_fail_at (A := unit) _ (λ _, False))|done].
Qed.

Lemma triple_check_args args defs : triple_vm (check_args args defs : VM unit) (λ _, True).
Proof.
  revert defs. induction args as [|a args IH]; intros [|d defs]; simpl; try by apply triple_ret.
  - apply triple_crash.
  - eapply (triple_bind _ _ _ (λ _, True)).
    + destruct (fits_type a (fd_field_type d)) as [|[]|]; [by apply triple_ret|apply triple_crash].
    + intros [] _; simpl; [done|apply triple_fail].
Qed.

Lemma triple_check_fields def fs : triple_vm (check_fields machine def fs) (λ _, True).
Proof.
  induction fs as [|[n v] fs IH]; simpl; [by apply triple_ret|].
  eapply triple_bind; [apply triple_err|]. intros e _.
  eapply (triple_bind _ _ _ (λ _, True)); [by apply triple_lift_opt|]. intros t _.
  eapply (triple_bind _ _ _ (λ _, True)).
  - destruct (fits_type v t) as [|[]|]; [by apply triple_ret|apply triple_crash].
  - intros [] _; simpl; [done|apply triple_fail_at].
Qed.

Lemma triple_setup_command n lt this :
  struct_ok this → triple_vm (setup_command machine n lt this) (λ _, True).
Proof.
  intros Hthis. eapply triple_bind; [apply triple_setup_function|]. intros _ _.
  eapply triple_bind; [apply triple_err|]. intros e _.
  eapply (triple_bind _ _ _ (λ _, True)); [by apply triple_lift_opt|]. intros def _.
  case_match; [apply triple_fail_at|].
  eapply triple_bind; [apply triple_check_fields|]. intros _ _.
  apply triple_scope_step; eauto using @triple_try_at, try_at_state, step_set, scope_set_ok.
  intros s s' Hs. apply scope_set_vals_ok; [done|]. by apply value_ok_struct.
Qed.

Lemma triple_push_args args :
  Forall value_ok args → triple_vm (for_each (ipush_value machine) args) (λ _, True).
Proof.
  induction 1 as [|v args Hv HF IH]; simpl; [by apply triple_ret|].
  by eapply triple_bind; [apply triple_ipush_value|].
Qed.

Lemma triple_setup_action n args :
  Forall value_ok args → triple_vm (setup_action machine n args) (λ _, True).
Proof.
  intros Hargs. unfold setup_action. case_match; [|apply triple_fail].
  case_match; [apply triple_fail|]. eapply triple_bind; [apply triple_check_args|]. intros _ _.
  eapply triple_bind; [apply triple_setup_function|]. intros _ _. by apply triple_push_args.
Qed.
End Invariant.
