(* ===== verification/VmCalls.v ===== *)
(** What runs of the VM do to frames, control flow and the I/O. *)
From S2P Require Import Prelude Collections PolicyData PolicyModule VmScope Vm VmInvariant.
Local Open Scope string_scope.
Local Open Scope list_scope.
Local Open Scope nat_scope.

(** Calls, returns and termination: what an instruction can do to the frames
    below the current one, to the call stack and to control flow. *)
Section Control.
Context {IO : Type} `{MachineIO IO}.
Variable machine : Machine.
Variable to_allocvec : Struct → option (list u8).
Variable from_bytes : list u8 → option Struct.
Implicit Types s : RunState IO.

Lemma fail_at_inv {A} t s (a : A) s' : fail_at machine t s ≠ (Ok a, s').
Proof. unfold fail_at, mbind, M_bind, err. by destruct (from_position _ _ _). Qed.
Lemma same_fail_at {A} t s : (fail_at (A := A) machine t s).2 = s.
Proof. unfold fail_at, mbind, M_bind, err. by destruct (from_position _ _ _). Qed.
Lemma same_try_at {A} (m : outcome MachineErrorType A) s : (try_at machine m s).2 = s.
Proof. destruct m; [done|apply same_fail_at|done]. Qed.
Lemma same_try {A} (m : outcome MachineErrorType A) s : (try m s).2 = s.
Proof. by destruct m. Qed.

(** ** What stays of the frames and the call stack *)
Definition same_frames (s s' : RunState IO) : Prop :=
  rs_call_state s' = rs_call_state s ∧ rs_pc s' = rs_pc s ∧ rtc scope_step (rs_scope s) (rs_scope s').
#[export] Instance same_frames_preorder : PreOrder same_frames.
Proof.
  split; [done|]. intros s1 s2 s3 (E1 & P1 & H1) (E2 & P2 & H2). split_and!; [congruence..|by etrans].
Qed.
Abbreviation kept := (keeps same_frames).

Lemma kept_stack st : kept (modify (set_stack st) : VM unit).
Proof. by intros s. Qed.
Lemma kept_io io : kept (modify (set_io io) : VM unit).
Proof. by intros s. Qed.
Lemma kept_try_at {A} (m : outcome MachineErrorType A) : kept (try_at machine m).
Proof. apply keeps_same, same_try_at. apply _. Qed.
Lemma kept_try {A} (m : outcome MachineErrorType A) : kept (try m).
Proof. apply keeps_same, same_try. apply _. Qed.
Lemma kept_try_io {A} (m : outcome MachineIOError A) : kept (try_io m).
Proof. apply kept_try. Qed.
Lemma kept_fail_at {A} t : kept (fail_at (A := A) machine t).
Proof. apply keeps_same, same_fail_at. apply _. Qed.
Lemma kept_err t : kept (err machine t).
Proof. by intros s. Qed.
Lemma kept_ret {A} (a : A) : kept (mret a : VM A).
Proof. by intros s. Qed.
Lemma kept_throw {A} e : kept (throw e : VM A).
Proof. by intros s. Qed.
Lemma kept_crash {A} w : kept (crash w : VM A).
Proof. by intros s. Qed.
Lemma kept_lift {A} (m : outcome MachineError A) : kept (lift m).
Proof. by intros s. Qed.
Lemma kept_lift_opt {A} (o : option A) e : kept (lift_opt o e : VM A).
Proof. by intros s. Qed.
Lemma kept_iters l : kept (modify (set_query_iter_stack l) : VM unit).
Proof. by intros s. Qed.

Lemma kept_update_scope (tr : ∀ A, outcome MachineErrorType A → VM A) f :
  (∀ A m s, (tr A m s).2 = s) → (∀ A (a : A) s, tr A (Ok a) s = (Ok a, s)) →
  (∀ A m (a : A) s, (tr A m s).1 = Ok a → m = Ok a) →
  (∀ sc sc', f sc = Ok sc' → scope_step sc sc') →
  kept (update_scope tr f).
Proof.
  intros Htr Hok Hinv Hf s. unfold update_scope, get_state, mbind, M_bind. simpl.
  destruct (tr _ (f (rs_scope s)) s) as [[sc|e|w] s'] eqn:E.
  - pose proof (Hinv _ (f (rs_scope s)) sc s) as Hm. rewrite E in Hm. specialize (Hm eq_refl).
    rewrite Hm, Hok in E. simplify_eq. split_and!; [done..|]. simpl. by apply rtc_once, Hf.
  - pose proof (Htr _ (f (rs_scope s)) s) as Hs. rewrite E in Hs. simpl in *. by subst.
  - pose proof (Htr _ (f (rs_scope s)) s) as Hs. rewrite E in Hs. simpl in *. by subst.
Qed.

Lemma try_at_inv A m (a : A) s : (try_at machine m s).1 = Ok a → m = Ok a.
Proof.
  destruct m; simpl; [naive_solver| |done]. unfold fail_at, mbind, M_bind, err.
  by destruct (from_position _ _ _).
Qed.
Lemma try_inv A m (a : A) s : (try m s).1 = Ok a → m = Ok a.
Proof. destruct m; naive_solver. Qed.

Lemma kept_update_scope_at f :
  (∀ sc sc', f sc = Ok sc' → scope_step sc sc') → kept (update_scope (@try_at _ machine) f).
Proof. apply kept_update_scope; [intros; apply same_try_at|done|apply try_at_inv]. Qed.
Lemma kept_update_scope_try f :
  (∀ sc sc', f sc = Ok sc' → scope_step sc sc') → kept (update_scope (@try _) f).
Proof. apply kept_update_scope; [intros; apply same_try|done|apply try_inv]. Qed.
End Control.

#[export] Hint Resolve kept_stack kept_io kept_try_at kept_try kept_try_io kept_fail_at kept_err kept_ret
  kept_throw kept_crash kept_lift kept_lift_opt kept_iters : vm.

(** Open the definition of an instruction. *)
Ltac unfold_exec :=
  progress unfold exec_const, exec_def, exec_get, exec_swap, exec_dup, exec_pop, exec_block, exec_end,
    exec_jump, exec_branch, exec_ext_call, exec_arith, exec_logic, exec_not, exec_compare, exec_eq,
    exec_fact_new, exec_fact_key_set, exec_fact_value_set, exec_struct_new, exec_struct_set,
    exec_struct_get, exec_publish, exec_create, exec_delete, exec_update, exec_emit, exec_query,
    exec_fact_count, exec_query_start, exec_query_next, exec_serialize, exec_deserialize.

(** Split a computation of the machine into its primitives. *)
Ltac kept_auto :=
  repeat first
    [ solve [eauto 2 with vm nocore]
    | unfold_exec
    | progress unfold with_io, ipush, ipush_value, ipop, ipop_value, ipeek_update, validate_struct_schema,
        validate_fact_literal, fail
    | lazymatch goal with
      | |- keeps _ (get_state ≫= _) => apply keeps_get; intros ?
      | |- keeps _ (_ ≫= _) => apply keeps_bind; [apply _| |intros ?]
      | |- keeps _ (modify _) => apply keeps_modify; by intros
      end
    | case_match ].

Section Frames.
Context {IO : Type} `{MachineIO IO}.
Variable machine : Machine.
Variable to_allocvec : Struct → option (list u8).
Variable from_bytes : list u8 → option Struct.
Implicit Types s : RunState IO.
Abbreviation kept := (keeps same_frames).

Lemma kept_count_loop f limit c it : kept (count_loop (IO := IO) machine f limit c it).
Proof. revert c. induction it as [|[kv|e|w] it IH]; intros c; simpl; kept_auto; apply IH. Qed.

(** Every instruction that is not a jump, a call or a return keeps the call
    stack, the program counter and the frames below the current one. *)
Definition is_control (i : Instruction) : bool :=
  match i with IJump _ | IBranch _ | ICall _ | IReturn => true | _ => false end.

Lemma kept_exec i : is_control i = false → kept (exec machine to_allocvec from_bytes i).
Proof.
  intros Hi. destruct i; try done; simpl; kept_auto; try apply kept_count_loop;
    try apply kept_update_scope_at; try apply kept_update_scope_try; eauto using scope_step.
Qed.

Lemma kept_ipop {V} `{TryFromValue V} : kept (ipop (V := V) (IO := IO) machine).
Proof. kept_auto. Qed.

(** A jump that is taken changes the program counter only. *)
Lemma exec_jump_inv t s fl s' :
  exec_jump machine t s = (Ok fl, s') →
  ∃ n, t = Resolved n ∧ fl = ReturnStatus Executing ∧ s' = set_pc n s.
Proof.
  unfold exec_jump. destruct t as [l|n].
  - by intros ?%fail_at_inv.
  - unfold mbind, M_bind, modify. simpl. intros [= <- <-]. by exists n.
Qed.

Lemma exec_branch_inv t s fl s' :
  exec_branch machine t s = (Ok fl, s') →
  ∃ s1, same_frames s s1 ∧
    ((fl = FallThrough ∧ s' = s1) ∨ ∃ n, t = Resolved n ∧ fl = ReturnStatus Executing ∧ s' = set_pc n s1).
Proof.
  unfold exec_branch. intros (b & s1 & E1 & E2)%M_bind_inv_Ok. exists s1. split.
  - pose proof (kept_ipop (V := bool) s) as Hk. by rewrite E1 in Hk.
  - destruct b; [right; by apply exec_jump_inv in E2|]. left. by inversion E2.
Qed.

(** ** One step *)
Definition vm_step s s' : Prop := step machine to_allocvec from_bytes s = (Ok Executing, s').

Lemma advance_pc_inv s st s' :
  advance_pc s = (Ok st, s') → st = Executing ∧ s' = set_pc (S (rs_pc s)) s.
Proof.
  unfold advance_pc, get_state, mbind, M_bind, modify. simpl.
  destruct (checked_add (rs_pc s) 1) as [pc|] eqn:E; [|done].
  apply checked_add_Some in E as [-> _]. rewrite Nat.add_1_r. by intros [= <- <-].
Qed.

Lemma vm_step_inv s s' :
  vm_step s s' → ∃ i fl s1,
    progmem machine !! rs_pc s = Some i ∧ exec machine to_allocvec from_bytes i s = (Ok fl, s1)
    ∧ ((fl = FallThrough ∧ s' = set_pc (S (rs_pc s1)) s1) ∨ (fl = ReturnStatus Executing ∧ s' = s1)).
Proof.
  unfold vm_step, step. intros (? & ? & [= <- <-] & E)%M_bind_inv_Ok.
  destruct (progmem machine !! rs_pc s) as [i|] eqn:Ei.
  - apply M_bind_inv_Ok in E as (fl & s1 & E1 & E2). exists i, fl, s1. split_and!; [done..|].
    destruct fl as [|st]; [left; by apply advance_pc_inv in E2 as [_ ->]|right; by inversion E2].
  - by apply fail_at_inv in E.
Qed.

(** ** Activations

    [activation s0 s]: [s] runs inside the call made at [s0]: the frames and
    the return addresses of [s0] are still there, below those of the
    callee. *)
Definition activation s0 s : Prop :=
  ∃ frames calls,
    rs_scope s = mkScope (sc_globals (rs_scope s0)) (sc_locals (rs_scope s0) ++ frames)
    ∧ rs_call_state s = rs_call_state s0 ++ rs_pc s0 :: calls
    ∧ length frames = S (length calls).

Lemma activation_scope s0 s s' :
  activation s0 s → rs_call_state s' = rs_call_state s → rtc scope_step (rs_scope s) (rs_scope s') →
  activation s0 s'.
Proof.
  intros (frames & calls & Hsc & Hc & Hlen) Hc' Hst.
  destruct frames as [|fr frames _] using rev_ind; [done|].
  rewrite Hsc in Hst. eapply scope_steps_frames in Hst as [fr' Hst];
    [|simpl; by rewrite app_assoc].
  exists (frames ++ [fr']), calls. split_and!; [|congruence|].
  - rewrite Hst. unfold set_locals. simpl. by rewrite app_assoc.
  - rewrite length_app in *. simpl in *. lia.
Qed.

Lemma activation_call s0 n s1 :
  progmem machine !! rs_pc s0 = Some (ICall (Resolved n)) → vm_step s0 s1 →
  activation s0 s1 ∧ rs_pc s1 = n.
Proof.
  intros Hi (i & fl & s2 & Hi' & E & Hfl)%vm_step_inv. rewrite Hi in Hi'. simplify_eq.
  simpl in E. unfold exec_call, modify_scope, mbind, M_bind, modify, mret, M_ret in E. simplify_eq/=.
  destruct Hfl as [[? _]|[_ ->]]; [done|]. split; [|done].
  by exists [[[]]], [].
Qed.

(** A return inside a nested call goes back to an activation of [s0]; one
    from the activation itself restores the caller. *)
Lemma exec_return_activation s0 s fl s1 :
  activation s0 s → exec_return machine s = (Ok fl, s1) →
  fl = FallThrough ∧
  ((length (rs_call_state s) = S (length (rs_call_state s0)) ∧
    s1 = set_scope (rs_scope s0) (set_pc (rs_pc s0) (set_call_state (rs_call_state s0) s)))
   ∨ (length (rs_call_state s) > S (length (rs_call_state s0)) ∧ activation s0 s1)).
Proof.
  intros (frames & calls & Hsc & Hc & Hlen).
  destruct frames as [|fr frames _] using rev_ind; [done|]. rewrite length_app in Hlen. simpl in Hlen.
  unfold exec_return, get_state, mbind, M_bind. simpl.
  destruct calls as [|c calls _] using rev_ind.
  - destruct frames; [|simpl in Hlen; lia]. rewrite Hc. destruct (rs_call_state s0 ++ [rs_pc s0]) eqn:E0;
      [by destruct (rs_call_state s0)|]. rewrite <- E0, vec_pop_snoc. unfold modify, update_scope, mbind, M_bind.
    simpl. rewrite Hsc. unfold exit_function. simpl. rewrite vec_pop_snoc. simpl. intros [= <- <-].
    split; [done|]. left. split; [rewrite length_app; simpl; lia|]. unfold set_scope. simpl. f_equal.
    unfold set_locals. by destruct (rs_scope s0).
  - rewrite Hc. destruct (rs_call_state s0 ++ rs_pc s0 :: calls ++ [c]) eqn:E0;
      [by destruct (rs_call_state s0)|]. rewrite <- E0, app_comm_cons, app_assoc, vec_pop_snoc.
    unfold modify, update_scope, mbind, M_bind. simpl. rewrite Hsc. unfold exit_function. simpl.
    rewrite app_assoc, vec_pop_snoc. simpl. intros [= <- <-]. split; [done|]. right.
    rewrite !length_app in *. simpl in *. split; [lia|].
    exists frames, calls. split_and!; [done..|lia].
Qed.

Lemma activation_step s0 s s' :
  activation s0 s → vm_step s s' → length (rs_call_state s0) < length (rs_call_state s') →
  activation s0 s'.
Proof.
  intros Ha (i & fl & s1 & Hi & E & Hfl)%vm_step_inv Hd.
  assert (activation s0 s1 → activation s0 s') as Hpc.
  { intros Ha1. destruct Hfl as [[_ ->]|[_ ->]]; [|done].
    destruct Ha1 as (fs & cs & ? & ? & ?). by exists fs, cs. }
  apply Hpc. destruct (is_control i) eqn:Hctl.
  - destruct i; try done; simpl in E.
    + apply exec_jump_inv in E as (n & -> & -> & ->). by eapply activation_scope.
    + apply exec_branch_inv in E as (s2 & (Hc & _ & Hst) & [[-> ->]|(n & -> & -> & ->)]);
        by eapply activation_scope.
    + destruct Ha as (frames & calls & Hsc & Hc & Hlen). unfold exec_call in E. destruct t as [l|n].
      { by apply fail_at_inv in E. }
      unfold modify_scope, mbind, M_bind, modify, mret, M_ret in E. simplify_eq/=.
      exists (frames ++ [[[]]]), (calls ++ [rs_pc s]). unfold enter_function, vec_push, set_locals. simpl.
      rewrite Hsc, Hc. simpl. rewrite <- !app_assoc, !length_app. simpl. split_and!; [done..|lia].
    + apply (exec_return_activation s0) in E as [-> [[Hl ->]|[_ Ha1]]]; [|done|done].
      destruct Hfl as [[_ ->]|[? _]]; [|done]. simpl in Hd. lia.
  - pose proof (kept_exec i Hctl s) as (Hc & _ & Hst). rewrite E in Hc, Hst.
    by eapply activation_scope.
Qed.
End Frames.

(** * Forward programs

    Code without calls whose jumps all go forward. *)
Definition forward_at (a : nat) (i : Instruction) : bool :=
  match i with
  | IJump (Resolved n) | IBranch (Resolved n) => a <? n
  | ICall _ => false
  | _ => true
  end.
Definition forward_only (p : list Instruction) : bool :=
  forallb (λ ai, forward_at ai.1 ai.2) (imap (λ a i, (a, i)) p).

Lemma forward_only_lookup p a i : forward_only p = true → p !! a = Some i → forward_at a i = true.
Proof.
  unfold forward_only. rewrite forallb_forall. intros HF Hi. apply (HF (a, i)).
  apply list_elem_of_In, (list_elem_of_lookup_2 _ a). by rewrite list_lookup_imap, Hi.
Qed.

Section Forward.
Context {IO : Type} `{MachineIO IO}.
Variable machine : Machine.
Variable to_allocvec : Struct → option (list u8).
Variable from_bytes : list u8 → option Struct.
Implicit Types s : RunState IO.
Definition ends_run (m : VM (IO := IO) flow) : Prop :=
  ∀ s fl s', m s = (Ok fl, s') → fl ≠ ReturnStatus Executing.

Hypothesis Hfwd : forward_only (progmem machine) = true.

(** Only jumps, calls and returns end an instruction early without ending the
    run. *)
Lemma exec_status i s fl s1 :
  is_control i = false → exec machine to_allocvec from_bytes i s = (Ok fl, s1) →
  fl ≠ ReturnStatus Executing.
Proof.
  assert (∀ A (m : VM (IO := IO) A) k, (∀ a, ends_run (k a)) → ends_run (m ≫= k)) as Hbind.
  { intros A m k Hk s0 fl0 s2 (a & s3 & _ & E)%M_bind_inv_Ok. by eapply Hk. }
  assert (∀ t, ends_run (fail_at machine t)) as Hfail.
  { by intros t s0 fl0 s2 ?%fail_at_inv. }
  intros Hi. cut (ends_run (exec machine to_allocvec from_bytes i)); [intros Hx; by apply Hx|].
  destruct i; try done; simpl;
    repeat first
      [ apply Hfail | apply Hbind; intros ? | (intros ???; discriminate)
      | by intros ??? [= <- <-]
      | case_match
      | unfold_exec ].
Qed.

Lemma forward_step s s' :
  rs_call_state s = [] → vm_step machine to_allocvec from_bytes s s' →
  rs_call_state s' = [] ∧ rs_pc s < rs_pc s' ∧ rs_pc s < length (progmem machine).
Proof.
  intros Hc0 (i & fl & s1 & Hi & E & Hfl)%vm_step_inv.
  pose proof (forward_only_lookup _ _ _ Hfwd Hi) as Hf. apply lookup_lt_Some in Hi as Hlt.
  destruct (is_control i) eqn:Hctl.
  - destruct i; try done; simpl in E.
    + apply exec_jump_inv in E as (n & -> & -> & ->). destruct Hfl as [[? _]|[_ ->]]; [done|].
      simpl in *. apply Nat.ltb_lt in Hf. done.
    + apply exec_branch_inv in E as (s2 & (Hc & Hpc & Hst) & [[-> ->]|(n & -> & -> & ->)]).
      * destruct Hfl as [[_ ->]|[? _]]; [|done]. simpl. split_and!; [congruence|lia|done].
      * destruct Hfl as [[? _]|[_ ->]]; [done|]. simpl in *. apply Nat.ltb_lt in Hf.
        split_and!; [congruence|lia|done].
    + unfold exec_return, get_state, mbind, M_bind, mret, M_ret in E. simpl in E. rewrite Hc0 in E.
      simplify_eq. destruct Hfl as [[? _]|[? _]]; done.
  - pose proof (kept_exec machine to_allocvec from_bytes i Hctl s) as (Hc & Hpc & _).
    rewrite E in Hc, Hpc. simpl in Hc, Hpc.
    destruct Hfl as [[_ ->]|[-> ->]]; simpl; [split_and!; [congruence|lia|done]|].
    by apply exec_status in E.
Qed.

Lemma run_forward fuel s :
  rs_call_state s = [] → length (progmem machine) - rs_pc s < fuel →
  (run machine to_allocvec from_bytes fuel s).1 ≠ Ok None.
Proof.
  revert s. induction fuel as [|fuel IH]; intros s Hc Hf; [lia|]. simpl.
  unfold step_with_position, mbind at 1, M_bind at 1.
  destruct (step machine to_allocvec from_bytes s) as [[[|r]|e|w] s'] eqn:E; try done.
  - apply forward_step in E as (Hc' & Hpc & Hlt); [|done]. apply IH; [done|lia].
  - by destruct (with_position e (rs_pc s') (codemap machine)).
Qed.
End Forward.

(** A return inside an activation finds its return address and its frame. *)
Lemma exec_return_total {IO} machine (s0 s : RunState IO) :
  activation s0 s → ∃ fl s1, exec_return machine s = (Ok fl, s1).
Proof.
  intros (frames & calls & Hsc & Hc & Hlen). unfold exec_return, get_state, mbind, M_bind. simpl.
  destruct (rs_call_state s) as [|c cs] eqn:E; [by destruct (rs_call_state s0)|]. rewrite <- E.
  destruct (vec_pop (rs_call_state s)) as [[pc rest]|] eqn:Ep; [|apply vec_pop_None in Ep; congruence].
  unfold modify, update_scope, mbind, M_bind, exit_function. simpl. rewrite Hsc. simpl.
  destruct frames as [|fr frames _] using rev_ind; [done|]. rewrite app_assoc, vec_pop_snoc. simpl. eauto.
Qed.

(** The VM reaches the outside only through its I/O interface: whatever it
    runs, the I/O ends in a state that calls of the interface lead to. *)

Section Io.
Context {IO : Type} `{MachineIO IO}.
Variable machine : Machine.
Variable to_allocvec : Struct → option (list u8).
Variable from_bytes : list u8 → option Struct.
Implicit Types (s : RunState IO) (io : IO).

(** A call of the interface. *)
Inductive io_step : IO → IO → Prop :=
| io_step_insert name k v io : io_step io (io_fact_insert name k v io).2
| io_step_delete name k io : io_step io (io_fact_delete name k io).2
| io_step_publish name fields io : io_step io (io_publish name fields io)
| io_step_effect name fields id recalled io : io_step io (io_effect name fields id recalled io)
| io_step_call m p ctx st io : io_step io (io_call m p ctx st io).2.

Definition io_reach s s' : Prop := rtc io_step (rs_io s) (rs_io s').
#[export] Instance io_reach_preorder : PreOrder io_reach.
Proof. unfold io_reach. split; [by intros s|]. intros s1 s2 s3 H1 H2. by etrans. Qed.
Abbreviation reaches := (keeps io_reach).

Lemma reaches_same {A} (m : VM A) : (∀ s, rs_io (m s).2 = rs_io s) → reaches m.
Proof. intros Hm s. unfold io_reach. by rewrite Hm. Qed.
Lemma reaches_stack st : reaches (modify (set_stack st) : VM unit).
Proof. by apply reaches_same. Qed.
Lemma reaches_try_at {A} (m : outcome MachineErrorType A) : reaches (try_at machine m).
Proof. apply reaches_same. intros s. by rewrite same_try_at. Qed.
Lemma reaches_try {A} (m : outcome MachineErrorType A) : reaches (try m : VM A).
Proof. apply reaches_same. intros s. by rewrite same_try. Qed.
Lemma reaches_try_io {A} (m : outcome MachineIOError A) : reaches (try_io m : VM A).
Proof. apply reaches_try. Qed.
Lemma reaches_fail_at {A} t : reaches (fail_at (A := A) machine t).
Proof. apply reaches_same. intros s. by rewrite same_fail_at. Qed.
Lemma reaches_err t : reaches (err machine t).
Proof. by apply reaches_same. Qed.
Lemma reaches_ret {A} (a : A) : reaches (mret a : VM A).
Proof. by apply reaches_same. Qed.
Lemma reaches_throw {A} e : reaches (throw e : VM A).
Proof. by apply reaches_same. Qed.
Lemma reaches_crash {A} w : reaches (crash w : VM A).
Proof. by apply reaches_same. Qed.
Lemma reaches_lift {A} (m : outcome MachineError A) : reaches (lift m : VM A).
Proof. by apply reaches_same. Qed.
Lemma reaches_lift_opt {A} (o : option A) e : reaches (lift_opt o e : VM A).
Proof. by apply reaches_same. Qed.
Lemma reaches_iters l : reaches (modify (set_query_iter_stack l) : VM unit).
Proof. by apply reaches_same. Qed.
Lemma reaches_update_scope_at f : reaches (update_scope (@try_at _ machine) f).
Proof.
  unfold update_scope. apply keeps_get. intros a. apply keeps_bind; [apply _|apply reaches_try_at|]. intros sc. by apply reaches_same.
Qed.
Lemma reaches_update_scope_try f : reaches (update_scope (@try IO) f).
Proof.
  unfold update_scope. apply keeps_get. intros a. apply keeps_bind; [apply _|apply reaches_try|]. intros sc. by apply reaches_same.
Qed.
Lemma reaches_with_io {A} (f : IO → outcome MachineIOError A * IO) : (∀ io, io_step io (f io).2) → reaches (with_io f).
Proof.
  intros Hf s. unfold with_io, get_state, mbind, M_bind. specialize (Hf (rs_io s)). destruct (f (rs_io s)) as [r io] eqn:E.
  unfold io_reach. transitivity io; [by apply rtc_once|]. cbn. pose proof (reaches_try_io r (set_io io s)) as Hr. exact Hr.
Qed.
Lemma reaches_insert name k v : reaches (with_io (io_fact_insert name k v)).
Proof. apply reaches_with_io. intros io. apply io_step_insert. Qed.
Lemma reaches_delete name k : reaches (with_io (io_fact_delete name k)).
Proof. apply reaches_with_io. intros io. apply io_step_delete. Qed.
Lemma reaches_publish name fields : reaches (modify (λ st, set_io (io_publish name fields (rs_io st)) st) : VM unit).
Proof. intros s. apply rtc_once, io_step_publish. Qed.
Lemma reaches_effect name fields id b : reaches (modify (λ st, set_io (io_effect name fields id b (rs_io st)) st) : VM unit).
Proof. intros s. apply rtc_once, io_step_effect. Qed.
Lemma reaches_ext_call m p : reaches (exec_ext_call m p : VM flow).
Proof.
  intros s. unfold exec_ext_call, get_state, mbind, M_bind. pose proof (io_step_call m p (rs_ctx s) (rs_stack s) (rs_io s)) as Hstep.
  destruct (io_call m p (rs_ctx s) (rs_stack s) (rs_io s)) as [[r st] io]. unfold io_reach. destruct r; by apply rtc_once.
Qed.
End Io.
Create HintDb vmio.
Abbreviation reaches := (keeps io_reach).
#[export] Hint Resolve reaches_stack reaches_try_at reaches_try reaches_try_io reaches_fail_at reaches_err reaches_ret reaches_throw
  reaches_crash reaches_lift reaches_lift_opt reaches_iters reaches_update_scope_at reaches_update_scope_try reaches_insert
  reaches_delete reaches_publish reaches_effect reaches_ext_call : vmio.

(** Split a computation into calls of the interface and the rest. *)
Ltac reaches_auto :=
  repeat first
    [ solve [eauto 2 with vmio nocore]
    | unfold_exec
    | progress unfold exec_call, exec_return, advance_pc, modify_scope, ipush, ipush_value, ipop, ipop_value, ipeek_update, validate_struct_schema,
        validate_fact_literal, fail
    | lazymatch goal with
      | |- keeps _ (get_state ≫= _) => apply keeps_get; intros ?
      | |- keeps _ (_ ≫= _) => apply keeps_bind; [apply _| |intros ?]
      | |- keeps _ (modify _) => apply keeps_modify; intros ?; apply rtc_refl
      end
    | case_match ].

Section Run.
Context {IO : Type} `{MachineIO IO}.
Variable machine : Machine.
Variable to_allocvec : Struct → option (list u8).
Variable from_bytes : list u8 → option Struct.

Lemma reaches_count_loop f limit c it : reaches (count_loop (IO := IO) machine f limit c it).
Proof. revert c. induction it as [|[kv|e|w] it IH]; intros c; simpl; reaches_auto; apply IH. Qed.
Lemma reaches_exec i : reaches (exec (IO := IO) machine to_allocvec from_bytes i).
Proof. destruct i; simpl; reaches_auto; try apply reaches_count_loop. Qed.
Lemma reaches_step : reaches (step (IO := IO) machine to_allocvec from_bytes).
Proof.
  unfold step. apply keeps_get. intros s. case_match; [|apply reaches_fail_at]. apply keeps_bind; [apply _|apply reaches_exec|].
  intros fl. reaches_auto.
Qed.
Lemma reaches_run fuel : reaches (run (IO := IO) machine to_allocvec from_bytes fuel).
Proof.
  induction fuel as [|fuel IH]; [apply reaches_ret|]. simpl. apply keeps_bind; [apply _| |intros st; case_match; [apply IH|apply reaches_ret]].
  intros s. unfold step_with_position. pose proof (reaches_step s) as Hs. destruct (step _ _ _ s) as [[| |] s']; exact Hs.
Qed.

Lemma reaches_setup_function label : reaches (setup_function (IO := IO) machine label).
Proof. unfold setup_function, set_pc_by_label, modify_scope. reaches_auto. Qed.
Lemma reaches_check_fields def fields : reaches (check_fields (IO := IO) machine def fields).
Proof. induction fields as [|[n v] fields IH]; simpl; unfold no_err; reaches_auto; apply IH. Qed.
Lemma reaches_setup_command name ty this : reaches (setup_command (IO := IO) machine name ty this).
Proof.
  unfold setup_command. apply keeps_bind; [apply _|apply reaches_setup_function|intros _]. reaches_auto; apply reaches_check_fields.
Qed.
Lemma reaches_check_args args defs : reaches (check_args (IO := IO) args defs).
Proof. revert defs. induction args as [|v args IH]; intros [|d defs]; simpl; unfold no_err; reaches_auto; apply IH. Qed.
Lemma reaches_setup_action name args : reaches (setup_action (IO := IO) machine name args).
Proof.
  assert (reaches (for_each (ipush_value (IO := IO) machine) args)) as Hpush.
  { induction args as [|v args IH]; [apply reaches_ret|]. cbn [for_each]. apply keeps_bind; [apply _| |intros _; exact IH]. reaches_auto. }
  unfold setup_action. case_match; [|reaches_auto]. case_match; [reaches_auto|].
  apply keeps_bind; [apply _|apply reaches_check_args|intros _].
  apply keeps_bind; [apply _|apply reaches_setup_function|intros _; exact Hpush].
Qed.

(** Every entry point. *)
Lemma entry_points_reach fuel name args this envelope :
  reaches (call_action (IO := IO) machine to_allocvec from_bytes fuel name args)
  ∧ reaches (call_command_policy (IO := IO) machine to_allocvec from_bytes fuel name this envelope)
  ∧ reaches (call_command_recall (IO := IO) machine to_allocvec from_bytes fuel name this envelope)
  ∧ reaches (call_seal (IO := IO) machine to_allocvec from_bytes fuel name this)
  ∧ reaches (call_open (IO := IO) machine to_allocvec from_bytes fuel name envelope)
  ∧ reaches (consume_return (IO := IO) machine).
Proof.
  assert (∀ st : Struct, reaches (ipush (IO := IO) machine st ≫= λ _, run machine to_allocvec from_bytes fuel)) as Hpush.
  { intros st. apply keeps_bind; [apply _| |intros _; apply reaches_run]. reaches_auto. }
  split_and!; unfold call_action, call_command_policy, call_command_recall, call_seal, call_open.
  - apply keeps_bind; [apply _|apply reaches_setup_action|intros _; apply reaches_run].
  - apply keeps_bind; [apply _|apply reaches_setup_command|intros _; apply Hpush].
  - apply keeps_bind; [apply _|apply reaches_setup_command|intros _; apply Hpush].
  - apply keeps_bind; [apply _|apply reaches_setup_function|intros _; apply Hpush].
  - apply keeps_bind; [apply _|apply reaches_setup_function|intros _; apply Hpush].
  - unfold consume_return. reaches_auto.
Qed.
End Run.
