(* ===== verification/VmSafety.v ===== *)
(** Freedom from panics: a program without the unimplemented instructions,
    over an I/O that does not panic, never panics. In particular the indices
    [Swap] and [Dup] compute are always in range. *)
From S2P Require Import Prelude Collections PolicyData PolicyModule VmScope Vm VmInvariant VmCalls.
Local Open Scope string_scope.
Local Open Scope list_scope.
Local Open Scope nat_scope.

(** [calm I m]: from a state in [I], [m] does not panic and stays in [I]. *)
Definition calm {S E A} (I : S → Prop) (m : M S E A) : Prop :=
  ∀ s, I s → I (m s).2 ∧ is_panic (m s).1 = false.

Section Calm.
Context {S E : Type} (I : S → Prop).

Lemma calm_bind {A B} (m : M S E A) (k : A → M S E B) :
  calm I m → (∀ a, calm I (k a)) → calm I (m ≫= k).
Proof.
  intros Hm Hk s Hs. unfold mbind, M_bind. destruct (Hm s Hs) as [Hs' Hp].
  destruct (m s) as [[a|e|w] s']; try done. by apply Hk.
Qed.
Lemma calm_bind_at {A B} (m : M S E A) (k : A → M S E B) s :
  I (m s).2 ∧ is_panic (m s).1 = false → (∀ a, calm I (k a)) →
  I ((m ≫= k) s).2 ∧ is_panic ((m ≫= k) s).1 = false.
Proof.
  intros [Hs' Hp] Hk. unfold mbind, M_bind. destruct (m s) as [[a|e|w] s']; try done. by apply Hk.
Qed.
(** A computation that fails ends there. *)
Lemma calm_bind_err {A B} (m : M S E A) (k : A → M S E B) :
  calm I m → (∀ s a, (m s).1 ≠ Ok a) → calm I (m ≫= k).
Proof.
  intros Hm Hne s Hs. unfold mbind, M_bind. destruct (Hm s Hs) as [Hs' Hp].
  specialize (Hne s). destruct (m s) as [[a|e|w] s']; try done. by destruct (Hne a).
Qed.
Lemma calm_get {B} (k : S → M S E B) :
  (∀ s, I s → I (k s s).2 ∧ is_panic (k s s).1 = false) → calm I (get_state ≫= k).
Proof. intros Hk s Hs. by apply Hk. Qed.
Lemma calm_modify (f : S → S) : (∀ s, I s → I (f s)) → calm (E := E) I (modify f).
Proof. intros Hf s Hs. split; [by apply Hf|done]. Qed.
Lemma calm_ret {A} (a : A) : calm (E := E) I (mret a).
Proof. by intros s. Qed.
Lemma calm_throw {A} e : calm I (throw e : M S E A).
Proof. by intros s. Qed.
Lemma calm_lift_opt {A} (o : option A) e : calm I (lift_opt o e : M S E A).
Proof. intros s. by destruct o. Qed.
Lemma calm_lift {A} (m : outcome E A) : is_panic m = false → calm I (lift m).
Proof. by intros Hm s. Qed.
End Calm.

Section Safety.
Context {IO : Type} `{MachineIOLaws IO}.
Variable machine : Machine.
Variable to_allocvec : Struct → option (list u8).
Variable from_bytes : list u8 → option Struct.

(** Positions of errors can be computed. *)
Definition codemap_total : Prop :=
  ∀ t pc, is_panic (E := MachineError) (from_position t pc (codemap machine)) = false.
Definition items_calm (it : QueryIterator) : Prop := Forall (λ i, is_panic i = false) it.
Definition io_calm : Prop :=
  (∀ n k v (io : IO), is_panic (io_fact_insert n k v io).1 = false)
  ∧ (∀ n k (io : IO), is_panic (io_fact_delete n k io).1 = false)
  ∧ (∀ n k (io : IO), match io_fact_query n k io with Ok it => items_calm it | Err _ => True | Panic _ => False end)
  ∧ (∀ m p ctx st (io : IO), stack_ok st → is_panic (io_call m p ctx st io).1.1 = false).
Definition iters_calm (s : RunState IO) : Prop := Forall items_calm (rs_query_iter_stack s).
Definition calm_state (s : RunState IO) : Prop := iters_calm s ∧ stack_ok (rs_stack s).
Definition implemented (i : Instruction) : bool :=
  match i with INext | ILast => false | _ => true end.

Hypothesis Hcm : codemap_total.
Hypothesis Hio : io_calm.
Abbreviation calm_vm := (calm calm_state).

Lemma calm_err t : calm_vm (err machine t).
Proof. intros s Hs. split; [done|]. apply Hcm. Qed.
Lemma calm_fail_at {A} t : calm_vm (fail_at machine t : VM A).
Proof. apply calm_bind; [apply calm_err|]. intros. apply calm_throw. Qed.
Lemma calm_try_at {A} (m : outcome MachineErrorType A) : is_panic m = false → calm_vm (try_at machine m).
Proof. destruct m; intros; [apply calm_ret|apply calm_fail_at|done]. Qed.
Lemma calm_try {A} (m : outcome MachineErrorType A) : is_panic m = false → calm_vm (try m).
Proof. destruct m; intros; [apply calm_ret|apply calm_throw|done]. Qed.
Lemma calm_try_io {A} (m : outcome MachineIOError A) : is_panic m = false → calm_vm (try_io m).
Proof. intros Hm. apply calm_try. by destruct m. Qed.

Lemma calm_get_k {B} (k : RunState IO → VM B) :
  (∀ s, calm_state s → calm_vm (k s)) → calm_vm (get_state ≫= k).
Proof. intros Hk s Hs. by apply Hk. Qed.
Lemma calm_stack st : stack_ok st → calm_vm (modify (set_stack st) : VM unit).
Proof. intros Hst. by apply calm_modify; intros s []. Qed.
Lemma calm_try_at_bind {A B} (m : outcome MachineErrorType A) (k : A → VM B) :
  is_panic m = false → (∀ a, m = Ok a → calm_vm (k a)) → calm_vm (try_at machine m ≫= k).
Proof.
  intros Hp Hk. destruct m as [a|e|w]; [|apply calm_bind_err|done].
  - intros s Hs. by apply (Hk a eq_refl).
  - apply calm_fail_at.
  - intros s. simpl. unfold fail_at, mbind, M_bind. by destruct (err machine e s) as [[] ?].
Qed.
Lemma calm_try_bind {A B} (m : outcome MachineErrorType A) (k : A → VM B) :
  is_panic m = false → (∀ a, m = Ok a → calm_vm (k a)) → calm_vm (try m ≫= k).
Proof. intros Hp Hk. destruct m as [a|e|w]; [|by intros s|done]. intros s Hs. by apply (Hk a eq_refl). Qed.

Lemma is_panic_push v st : is_panic (push_value v st) = false.
Proof. unfold push_value. by case_match. Qed.
Lemma is_panic_pop st : is_panic (pop_value st) = false.
Proof. unfold pop_value. by destruct (vec_pop st). Qed.

Lemma stack_ok_pop st (v : Value) : stack_ok (st ++ [v]) → stack_ok st.
Proof. unfold stack_ok. rewrite length_app. simpl. lia. Qed.

Lemma calm_ipush_value v : calm_vm (ipush_value machine v).
Proof.
  apply calm_get_k. intros s _. apply calm_try_at_bind; [apply is_panic_push|]. intros st Hst.
  by eapply calm_stack, push_value_stack_ok.
Qed.
Lemma calm_ipush {V} `{IntoValue V} (v : V) : calm_vm (ipush machine v).
Proof. apply calm_ipush_value. Qed.
Lemma calm_ipop_value : calm_vm (ipop_value machine).
Proof.
  apply calm_get_k. intros s [_ Hc]. apply calm_try_at_bind; [apply is_panic_pop|].
  intros [v st] Hst%pop_value_Ok. apply calm_bind; [|intros; apply calm_ret].
  apply calm_stack. rewrite Hst in Hc. by eapply stack_ok_pop.
Qed.

(** Conversions fail with errors only. *)
Definition conv_calm (V : Type) `{TryFromValue V} : Prop :=
  ∀ v, is_panic (try_from_value (T := V) v) = false.
Lemma calm_ipop {V} `{TryFromValue V} : conv_calm V → calm_vm (ipop machine : VM V).
Proof.
  intros Hv. apply calm_get_k. intros s [_ Hc]. destruct (stack_pop (rs_stack s)) as [r st] eqn:E.
  apply stack_pop_inv in E as [(raw & Hst & ->)|(Hst & -> & ->)]; rewrite Hst in Hc.
  - apply calm_bind; [by eapply calm_stack, stack_ok_pop|]. intros _. apply calm_try_at.
    specialize (Hv raw). by destruct (try_from_value raw).
  - apply calm_bind; [by apply calm_stack|]. intros _. by apply calm_try_at.
Qed.
Lemma conv_bool : conv_calm bool.
Proof. intros []; done. Qed.
Lemma conv_Z : conv_calm Z.
Proof. intros []; done. Qed.
Lemma conv_fact : conv_calm (FactOf Value).
Proof. intros []; done. Qed.
Lemma conv_struct : conv_calm (StructOf Value).
Proof. intros []; done. Qed.
Lemma conv_bytes : conv_calm (list u8).
Proof. intros []; done. Qed.
Lemma conv_hashable : conv_calm HashableValue.
Proof. intros []; done. Qed.

Lemma calm_ipeek_update {V} (as_mut : Value → outcome ValueConversionError V) back f :
  (∀ v, is_panic (as_mut v) = false) → calm_vm (ipeek_update machine as_mut back f).
Proof.
  intros Hv. apply calm_get_k. intros s [_ Hc]. apply calm_bind; intros.
  - apply calm_try_at. unfold stack_peek, peek_value. destruct (last (rs_stack s)) as [v|]; [|done]. simpl.
    specialize (Hv v). by destruct (as_mut v).
  - apply calm_stack. destruct (rs_stack s) as [|v st _] using rev_ind; [done|].
    rewrite vec_set_last_snoc. unfold stack_ok in *. by rewrite length_app in *.
Qed.

Lemma calm_update_scope (tr : ∀ A, outcome MachineErrorType A → VM (IO := IO) A) f :
  (∀ A (m : outcome MachineErrorType A), is_panic m = false → calm_vm (tr A m)) →
  (∀ sc, is_panic (f sc) = false) → calm_vm (update_scope tr f).
Proof.
  intros Htr Hf. apply calm_get_k. intros s _. apply calm_bind; [by apply Htr|]. intros. by apply calm_modify; intros ? [].
Qed.
Lemma is_panic_scope_get k sc : is_panic (scope_get k sc) = false.
Proof. unfold scope_get. by repeat case_match. Qed.
Lemma is_panic_scope_set k v sc : is_panic (scope_set k v sc) = false.
Proof. unfold scope_set. by repeat case_match. Qed.
Lemma is_panic_enter_block sc : is_panic (enter_block sc) = false.
Proof. unfold enter_block. by repeat case_match. Qed.
Lemma is_panic_exit_block sc : is_panic (exit_block sc) = false.
Proof. unfold exit_block. by repeat case_match. Qed.
Lemma is_panic_exit_function sc : is_panic (exit_function sc) = false.
Proof. unfold exit_function. by repeat case_match. Qed.

Lemma calm_validate_struct st : calm_vm (validate_struct_schema machine st).
Proof.
  apply calm_bind; [apply calm_err|]. intros e.
  repeat case_match; first [apply calm_throw | apply calm_ret].
Qed.
Lemma calm_validate_fact f : calm_vm (validate_fact_literal machine f).
Proof. unfold validate_fact_literal. repeat case_match; first [apply calm_fail_at | apply calm_ret]. Qed.

Lemma calm_with_io {A} (f : IO → outcome MachineIOError A * IO) :
  (∀ io, is_panic (f io).1 = false) → calm_vm (with_io f).
Proof.
  intros Hf. apply calm_get_k. intros s _. specialize (Hf (rs_io s)). destruct (f (rs_io s)) as [r io].
  apply calm_bind; [by apply calm_modify|]. intros. by apply calm_try_io.
Qed.

Lemma calm_query {B} n ks (k : QueryIterator → VM B) :
  (∀ it, items_calm it → calm_vm (k it)) →
  calm_vm (s ← get_state; it ← try_io (io_fact_query n ks (rs_io s)); k it).
Proof.
  intros Hk. apply calm_get_k. intros s _. destruct Hio as (_ & _ & Hq & _). specialize (Hq n ks (rs_io s)).
  destruct (io_fact_query n ks (rs_io s)) as [it|e|w]; [|by intros s'|done].
  intros s' Hs'. by apply (Hk it Hq).
Qed.

Lemma calm_count_loop f limit c it : items_calm it → calm_vm (count_loop machine f limit c it).
Proof.
  intros Hit. revert c. induction Hit as [|[kv|e|w] it Hi Hit IH]; intros c; simpl; [case_match; apply calm_ret|..|done].
  - repeat case_match; first [apply IH | apply calm_throw | apply calm_ret].
  - case_match; first [apply calm_fail_at | apply calm_ret].
Qed.

Lemma query_find_calm qf it r : items_calm it → query_find qf it = Some r → is_panic r = false.
Proof.
  induction 1 as [|[kv|e|w] it Hi Hit IH]; simpl; intros; simplify_eq; try done.
  case_match; simplify_eq; auto.
Qed.

(** Split an instruction into primitives that do not panic. *)
#[local] Ltac calm_auto :=
  repeat first
    [ solve [eauto 2 using calm_ret, calm_throw, calm_lift_opt, calm_err, @calm_fail_at, calm_ipush_value,
        @calm_ipush, calm_ipop_value, calm_validate_struct, calm_validate_fact, conv_bool, conv_Z, conv_fact,
        conv_struct, conv_bytes, conv_hashable, @calm_ipop, calm_count_loop with nocore]
    | unfold_exec
    | lazymatch goal with
      | |- calm _ (get_state ≫= λ s, try_io (io_fact_query _ _ (rs_io s)) ≫= _) => apply calm_query; intros ? ?
      | |- calm _ (get_state ≫= _) => apply calm_get_k; intros ? ?
      | |- calm _ (_ ≫= _) => apply calm_bind; [|intros ?]
      | |- calm _ (ipop _) => apply calm_ipop; intros []; done
      | |- calm _ (modify _) => by apply calm_modify
      | |- calm _ (try_io _) => apply calm_try_io
      end
    | case_match ].

Lemma calm_index {B} i (l : list Value) w (k : Value → VM B) :
  i < length l → (∀ v, calm_vm (k v)) →
  calm_vm (match l !! i with Some v => k v | None => crash w end).
Proof. intros [x ->]%lookup_lt_is_Some_2 Hk. apply Hk. Qed.

Lemma is_panic_ok_or {E A} (o : option A) (e : E) : is_panic (ok_or o e) = false.
Proof. by destruct o. Qed.

Lemma ok_or_Ok {E A} (o : option A) (e : E) a : ok_or o e = Ok a → o = Some a.
Proof. destruct o; simpl; congruence. Qed.

(** [Swap] and [Dup] index the stack in range. *)
Lemma calm_exec_swap d : calm_vm (exec_swap machine d).
Proof.
  unfold exec_swap. destruct (Nat.eqb_spec d 0); [apply calm_fail_at|]. apply calm_get_k. intros s [_ Hc].
  apply calm_try_bind; [apply is_panic_ok_or|]. intros i1 [? ->]%ok_or_Ok%checked_sub_Some.
  apply calm_try_bind; [apply is_panic_ok_or|]. intros i2 [? ->]%ok_or_Ok%checked_sub_Some. unfold vec_swap.
  destruct (lookup_lt_is_Some_2 (rs_stack s) (length (rs_stack s) - 1)) as [x ->]; [lia|].
  destruct (lookup_lt_is_Some_2 (rs_stack s) (length (rs_stack s) - 1 - d)) as [y ->]; [lia|].
  apply calm_bind; [|intros; apply calm_ret]. apply calm_stack. unfold stack_ok. by rewrite !length_insert.
Qed.

Lemma calm_exec_dup d : calm_vm (exec_dup machine d).
Proof.
  apply calm_get_k. intros s _.
  apply calm_try_bind; [apply is_panic_ok_or|]. intros i1 [? ->]%ok_or_Ok%checked_sub_Some.
  apply calm_try_bind; [apply is_panic_ok_or|]. intros i2 [? ->]%ok_or_Ok%checked_sub_Some.
  apply calm_index; [lia|]. intros v. apply calm_bind; [apply calm_ipush_value|intros; apply calm_ret].
Qed.

Lemma calm_exec_return : calm_vm (exec_return machine).
Proof.
  apply calm_get_k. intros s Hs. destruct (rs_call_state s) eqn:E; [apply calm_ret|]. rewrite <- E.
  destruct (vec_pop (rs_call_state s)) as [[pc rest]|]; [|apply calm_fail_at].
  apply calm_bind; [by apply calm_modify|]. intros _. apply calm_bind; [|intros; apply calm_ret].
  apply calm_update_scope; [intros; by apply calm_try_at|apply is_panic_exit_function].
Qed.

Lemma calm_exec_ext_call m p : calm_vm (exec_ext_call m p).
Proof.
  apply calm_get_k. intros s [_ Hs]. destruct Hio as (_ & _ & _ & Hc).
  specialize (Hc m p (rs_ctx s) (rs_stack s) (rs_io s) Hs).
  destruct (io_call m p (rs_ctx s) (rs_stack s) (rs_io s)) as [[r st] io] eqn:E.
  apply io_call_stack_ok in E; [|done].
  apply calm_bind; [by apply calm_modify; intros ? []|]. intros _.
  apply calm_bind; [by apply calm_lift|intros; apply calm_ret].
Qed.

Lemma calm_exec_query_next n : calm_vm (exec_query_next machine n).
Proof.
  apply calm_get. intros s [Hs Hc].
  destruct (vec_pop (rs_query_iter_stack s)) as [[it rest]|] eqn:E; [|by apply calm_fail_at].
  apply vec_pop_Some in E. unfold iters_calm in Hs. rewrite E in Hs.
  apply Forall_app in Hs as [Hrest Hit]. apply Forall_inv in Hit.
  destruct it as [|r it]; (eapply calm_bind_at; [split; [|done]|intros _]).
  - by split.
  - apply calm_bind; [apply calm_ipush_value|intros; apply calm_ret].
  - split; [|done]. apply Forall_app. split; [done|]. apply Forall_singleton. by inversion Hit.
  - apply calm_bind; [apply calm_try_io; by inversion Hit|]. intros kv.
    apply calm_bind; [|intros _; apply calm_bind; [apply calm_ipush_value|intros; apply calm_ret]].
    apply calm_update_scope; [intros; by apply calm_try|intros; apply is_panic_scope_set].
Qed.

Lemma calm_exec i : implemented i = true → calm_vm (exec machine to_allocvec from_bytes i).
Proof.
  intros Hi. destruct i; try done; simpl;
    try solve [apply calm_exec_swap | apply calm_exec_dup | apply calm_exec_return
      | apply calm_exec_ext_call | apply calm_exec_query_next]; calm_auto.
  all: try solve
    [ apply calm_update_scope; intros; [by apply calm_try|apply is_panic_scope_set]
    | apply calm_update_scope; intros; [by apply calm_try_at|apply is_panic_enter_block]
    | apply calm_update_scope; intros; [by apply calm_try_at|apply is_panic_exit_block]
    | apply calm_try, is_panic_scope_get
    | apply calm_ipeek_update; by intros []
    | apply calm_with_io; intros; apply Hio
    | by eapply query_find_calm
    | match goal with Hx : items_calm (_ :: _) |- _ => by inversion_clear Hx end ].
  - apply calm_stack. apply pop_value_Ok in H2. destruct H1 as [_ Hc]. rewrite H2 in Hc. by eapply stack_ok_pop.
  - unfold exec_call. case_match; [apply calm_fail_at|]. by repeat (apply calm_bind; [by apply calm_modify|]; intros []).
  - apply calm_modify. intros s [Hs ?]. split; [|done]. apply Forall_app. by split; [|apply Forall_singleton].
Qed.

Lemma calm_step : forallb implemented (progmem machine) = true → calm_vm (step machine to_allocvec from_bytes).
Proof.
  intros Hall. apply calm_get_k. intros s _.
  destruct (progmem machine !! rs_pc s) as [i|] eqn:Hi; [|apply calm_fail_at].
  apply calm_bind.
  - apply calm_exec. rewrite forallb_forall in Hall. by eapply Hall, list_elem_of_In, list_elem_of_lookup_2.
  - intros [|st]; [|apply calm_ret]. apply calm_get_k. intros s1 _.
    case_match; [|apply calm_throw]. apply calm_bind; [by apply calm_modify|intros; apply calm_ret].
Qed.

(** Adding a position to an error asks the code map again. *)
Lemma with_position_calm e pc : is_panic (E := MachineError) (with_position e pc (codemap machine)) = false.
Proof.
  specialize (Hcm (me_err_type e) pc). unfold from_position, with_position in *. simpl in Hcm.
  destruct (me_source e), (codemap machine); try done.
  destruct (span_from_instruction c pc); try done.
Qed.

Lemma calm_run fuel :
  forallb implemented (progmem machine) = true → calm_vm (run machine to_allocvec from_bytes fuel).
Proof.
  intros Hall. induction fuel as [|fuel IH]; simpl; [apply calm_ret|].
  apply calm_bind; [|intros [|r]; [done|apply calm_ret]].
  intros s Hs. unfold step_with_position. destruct (calm_step Hall s Hs) as [Hs' Hp].
  destruct (step machine to_allocvec from_bytes s) as [[st|e|w] s']; try done.
  split; [done|]. simpl. pose proof (with_position_calm e (rs_pc s')) as He.
  by destruct (with_position e (rs_pc s') (codemap machine)).
Qed.
End Safety.
