(* ===== verification/VmTestIO.v ===== *)
(** The in-memory machine I/O of the VM's own tests
    ([aranya-policy-vm/tests/bits/testio.rs] and [printffi.rs]): facts in a
    sorted map, published commands and effects in order, one FFI module. It is
    the implementation at which the theorems over an arbitrary [MachineIO] are
    instantiated. *)
From S2P Require Import Prelude Collections PolicyData PolicyModule VmScope Vm VmInvariant VmCalls VmSafety.
Local Open Scope string_scope.
Local Open Scope list_scope.
Local Open Scope nat_scope.

(** * The I/O state *)
Record TestIO := mkTestIO {
  ti_facts : BTreeMap (string * list FactKey) FactValueList;
  ti_publish_stack : list (string * list KVPair);
  ti_effect_stack : list (string * list KVPair)
}.

Definition test_io_new : TestIO := mkTestIO [] [] [].

Definition set_ti_facts (f : BTreeMap (string * list FactKey) FactValueList) (io : TestIO) : TestIO :=
  mkTestIO f (ti_publish_stack io) (ti_effect_stack io).

Definition test_fact_insert (name : string) (key : FactKeyList) (value : FactValueList) (io : TestIO)
  : outcome MachineIOError unit * TestIO :=
  match bt_get (name, key) (ti_facts io) with
  | None => (Ok tt, set_ti_facts (bt_insert (name, key) value (ti_facts io)) io)
  | Some _ => (Err FactExists, io)
  end.

Definition test_fact_delete (name : string) (key : FactKeyList) (io : TestIO)
  : outcome MachineIOError unit * TestIO :=
  match bt_get (name, key) (ti_facts io) with
  | None => (Err FactNotFound, io)
  | Some _ => (Ok tt, set_ti_facts (bt_remove (name, key) (ti_facts io)) io)
  end.

Definition prefix_key_match (fact query : list FactKey) : bool := starts_with query fact.

Definition test_fact_query (name : string) (key : FactKeyList) (io : TestIO)
  : outcome MachineIOError QueryIterator :=
  Ok (map (λ f, Ok (f.1.2, f.2))
        (List.filter (λ f, bool_decide (f.1.1 = name) && prefix_key_match f.1.2 key) (ti_facts io))).

(** [sort_by] on the keys, which is stable. *)
Fixpoint insert_by_key (p : KVPair) (l : list KVPair) : list KVPair :=
  match l with
  | [] => [p]
  | q :: l' => match cmp (kv_key p) (kv_key q) with
               | Gt => q :: insert_by_key p l'
               | _ => p :: l
               end
  end.
Definition sort_by_key (l : list KVPair) : list KVPair := foldr insert_by_key [] l.

Definition test_publish (name : string) (fields : list KVPair) (io : TestIO) : TestIO :=
  mkTestIO (ti_facts io) (vec_push (name, sort_by_key fields) (ti_publish_stack io)) (ti_effect_stack io).

Definition test_effect (name : string) (fields : list KVPair) (_command : Id) (_recalled : bool)
    (io : TestIO) : TestIO :=
  mkTestIO (ti_facts io) (ti_publish_stack io) (vec_push (name, sort_by_key fields) (ti_effect_stack io)).

(** [PrintFfi::call]; [to_uppercase] is Unicode case mapping. *)
Definition print_ffi_call (to_uppercase : string → string) (procedure : nat) (st : MachineStack)
  : outcome MachineError unit * MachineStack :=
  match procedure with
  | 0 => match stack_pop st with
         | (Ok s, st') =>
             match push_value (VString (to_uppercase s)) st' with
             | Ok st'' => (Ok tt, st'')
             | Err _ | Panic _ => (Panic "can't push", st')
             end
         | (Err e, st') => (Err (machine_error_new e), st')
         | (Panic w, st') => (Panic w, st')
         end
  | _ => (Err (machine_error_new (FfiProcedureNotDefined "print" procedure)), st)
  end.

Definition test_call (to_uppercase : string → string) (module procedure : nat) (ctx : CommandContext)
    (st : MachineStack) (io : TestIO) : outcome MachineError unit * MachineStack * TestIO :=
  match module with
  | 0 => let '(r, st') := print_ffi_call to_uppercase procedure st in (r, st', io)
  | _ => (Err (machine_error_new (FfiModuleNotDefined module)), st, io)
  end.

Definition test_machine_io (to_uppercase : string → string) : MachineIO TestIO := {|
  io_fact_insert := test_fact_insert;
  io_fact_delete := test_fact_delete;
  io_fact_query := test_fact_query;
  io_publish := test_publish;
  io_effect := test_effect;
  io_call := test_call to_uppercase
|}.

Lemma print_ffi_call_stack tu p st r st' :
  print_ffi_call tu p st = (r, st') →
  (stack_ok st → stack_ok st') ∧ (Forall value_ok st → Forall value_ok st').
Proof.
  unfold print_ffi_call. destruct p as [|p]; [|intros; by simplify_eq].
  destruct (stack_pop st) as [x st1] eqn:E.
  apply stack_pop_inv in E as [(raw & -> & ->)|(-> & -> & ->)]; [|intros; by simplify_eq].
  assert ((stack_ok (st1 ++ [raw]) → stack_ok st1)
    ∧ (Forall value_ok (st1 ++ [raw]) → Forall value_ok st1)) as [Hc Hv].
  { unfold stack_ok. rewrite length_app, Forall_app. split; [lia|naive_solver]. }
  destruct (try_from_value raw) as [s|e|w]; simpl; intros H'; [|by simplify_eq..].
  destruct (push_value (VString (tu s)) st1) as [st2|e|w] eqn:Ep; simplify_eq; [|done..].
  split; [by eapply push_value_stack_ok in Ep|]. intros HF%Hv.
  apply push_value_inv in Ep as [-> _]. apply Forall_app. by repeat constructor.
Qed.

Lemma test_io_laws tu : @MachineIOLaws TestIO (test_machine_io tu).
Proof.
  intros m p ctx st io r st' io'. simpl. unfold test_call. destruct m as [|m]; [|intros; by simplify_eq].
  destruct (print_ffi_call tu p st) as [r1 st1] eqn:E. intros; simplify_eq.
  apply print_ffi_call_stack in E as [? _]. auto.
Qed.

(** ** Laws of the fact store *)

(** A fact that was inserted is returned by a query for any prefix of its
    keys. *)
Lemma test_query_elem io name key k v :
  bt_wf (ti_facts io) →
  (Ok (k, v) ∈ match test_fact_query name key io with Ok it => it | _ => [] end)
  ↔ bt_get (name, k) (ti_facts io) = Some v ∧ starts_with key k = true.
Proof.
  intros Hwf. simpl. rewrite list_elem_of_fmap. split.
  - intros ([[n k'] v'] & [= -> ->] & Hin%list_elem_of_In). simpl in *.
    apply filter_In in Hin as [Hin [Hn Hk]%andb_true_iff]. apply bool_decide_eq_true in Hn. simpl in Hn, Hk. subst n.
    split; [|done]. apply bt_get_iff; [done|by apply list_elem_of_In].
  - intros [Hg Hk]. exists ((name, k), v). split; [done|]. apply list_elem_of_In, filter_In.
    split; [by apply list_elem_of_In, bt_get_elem|]. simpl. rewrite bool_decide_eq_true_2 by done. done.
Qed.

(** Facts of the store are well typed, and every operation keeps them so. *)
Definition test_io_ok (io : TestIO) : Prop :=
  Forall (λ f, Forall key_ok f.1.2 ∧ Forall (λ w, value_ok (fv_value w)) f.2) (ti_facts io).

Lemma test_io_vals_ok tu : @io_vals_ok _ (test_machine_io tu) test_io_ok.
Proof.
  constructor; simpl.
  - intros n k v io Hio Hk Hv. unfold test_fact_insert. case_match; [done|].
    apply Forall_forall. intros f Hf. destruct f as [k' v']. apply elem_of_bt_insert in Hf as [[= -> ->]|Hf]; [by split|].
    by apply (proj1 (Forall_forall _ _) Hio).
  - intros n k io Hio. unfold test_fact_delete. case_match; [|done].
    apply Forall_forall. intros g Hf%elem_of_bt_remove. by apply (proj1 (Forall_forall _ _) Hio).
  - intros n k io it Hio [= <-]. apply Forall_map, Forall_forall. intros f Hf%list_elem_of_In.
    apply filter_In in Hf as [Hf _]. by apply (proj1 (Forall_forall _ _) Hio), list_elem_of_In.
  - done.
  - done.
  - intros m p ctx st io r st' io'. unfold test_call. destruct m as [|m]; [|intros; by simplify_eq].
    destruct (print_ffi_call tu p st) as [r1 st1] eqn:E. intros [= <- <- <-] Hio Hst.
    apply print_ffi_call_stack in E as [_ Hv]. auto.
Qed.

Lemma print_ffi_calm tu p st : stack_ok st → is_panic (print_ffi_call tu p st).1 = false.
Proof.
  intros Hst. unfold print_ffi_call. destruct p; [|done]. destruct (stack_pop st) as [r st'] eqn:E.
  apply stack_pop_inv in E as [(raw & -> & ->)|(-> & -> & ->)]; [|done].
  destruct raw; try done. simpl. unfold push_value.
  destruct (Nat.ltb_spec (length st') STACK_SIZE); [done|].
  unfold stack_ok in Hst. rewrite length_app in Hst. simpl in Hst. lia.
Qed.

Lemma test_io_calm tu : @io_calm _ (test_machine_io tu).
Proof.
  split_and!; simpl.
  - intros n k v io. unfold test_fact_insert. by case_match.
  - intros n k io. unfold test_fact_delete. by case_match.
  - intros n k io. by apply Forall_map, Forall_true.
  - intros m p ctx st io Hst. unfold test_call. destruct m; [|done].
    pose proof (print_ffi_calm tu p st Hst). by destruct (print_ffi_call tu p st).
Qed.
