(* ===== verification/VmTheorems.v ===== *)
(** Theorems about the policy VM: the machine invariant, calls and returns,
    freedom from panics, termination, arithmetic, facts, schemas, scopes,
    entry points, serialization and source positions. *)
From S2P Require Import Prelude Collections PolicyData PolicyModule VmScope Vm VmInvariant.
From S2P Require Import VmTestIO VmCalls VmSafety.
Local Open Scope string_scope.
Local Open Scope list_scope.
Local Open Scope nat_scope.

(** * Concrete machines for the witnesses *)
Module Demo.
#[export] Instance io : MachineIO TestIO := test_machine_io (λ s, s).
#[export] Instance io_laws : MachineIOLaws TestIO := test_io_laws (λ s, s).

Definition no_ser (s : Struct) : option (list u8) := None.
Definition no_deser (b : list u8) : option Struct := None.
Definition ctx : CommandContext := CtxAction (mkActionContext "act" []).

(** [act(x)]: calls [f], which defines a local and adds. *)
Definition program : list Instruction :=
  [ ICall (Resolved 2); IExit ExitNormal; IDef "x"; IGet "x"; IConst (VInt 2); IAdd; IReturn ].
Definition machine : Machine :=
  mkMachine program [(mkLabel "act" LAction, 0)]
    [("act", [mkFieldDefinition "x" TInt])] [] [] [] [] None [].
Definition start : RunState TestIO := set_stack [VInt 40] (run_state_new machine test_io_new ctx).

Definition step_of (s : RunState TestIO) : RunState TestIO := (step machine no_ser no_deser s).2.
Definition after (n : nat) : RunState TestIO := Nat.iter n step_of start.

Lemma machine_ok_demo : machine_ok machine no_deser.
Proof.
  split_and!; [|constructor|constructor|done]. intros a v Ha.
  do 7 (destruct a as [|a]; [simpl in Ha; simplify_eq; try by constructor|]). done.
Qed.

Lemma start_ok : vm_ok machine test_io_ok start.
Proof.
  apply vm_ok_stack.
  - apply vm_ok_new with (from_bytes := no_deser); [exact machine_ok_demo|constructor].
  - vm_compute. lia.
  - by repeat constructor.
Qed.
End Demo.
Import Demo.

(** * The machine invariant *)

(** C10: every entry point of the VM (an action, a command's policy and recall
    rules, seal and open) run for any number of steps, and every single step,
    leaves the run state well formed whatever the outcome (a value, an error
    or a panic): at most [STACK_SIZE] values on the stack, every value within
    its Rust type, no name shadowed in a frame, the globals untouched, one
    scope frame per active call plus one, and every return address the address
    of a call instruction. *)
Theorem entry_points_preserve_vm_ok {IO} `{MachineIOLaws IO} machine to_allocvec from_bytes
    (io_ok : IO → Prop) fuel name args this envelope (s : RunState IO) :
  machine_ok machine from_bytes → io_vals_ok io_ok →
  Forall value_ok args → struct_ok this → struct_ok envelope → vm_ok machine io_ok s →
  vm_ok machine io_ok (step machine to_allocvec from_bytes s).2
  ∧ vm_ok machine io_ok (call_action machine to_allocvec from_bytes fuel name args s).2
  ∧ vm_ok machine io_ok (call_command_policy machine to_allocvec from_bytes fuel name this envelope s).2
  ∧ vm_ok machine io_ok (call_command_recall machine to_allocvec from_bytes fuel name this envelope s).2
  ∧ vm_ok machine io_ok (call_seal machine to_allocvec from_bytes fuel name this s).2
  ∧ vm_ok machine io_ok (call_open machine to_allocvec from_bytes fuel name envelope s).2.
Proof.
  intros Hm Hio Hargs Hthis Henv Hs.
  assert (∀ fuel, triple (vm_ok machine io_ok) (run machine to_allocvec from_bytes fuel) (λ _, True)) as Hrun
    by (intros; by apply triple_run).
  assert (∀ st, struct_ok st → triple (vm_ok machine io_ok)
    (ipush machine st ≫= λ _, run machine to_allocvec from_bytes fuel) (λ _, True)) as Hpush.
  { intros st Hst. eapply triple_bind; [|intros _ _; apply Hrun]. by apply triple_ipush, value_ok_struct. }
  split_and!.
  - eapply triple_state; [by apply triple_step|done].
  - eapply triple_state; [eapply (triple_bind _ _ _ (λ _, True)); [by apply triple_setup_action|intros; apply Hrun]|done].
  - eapply triple_state; [eapply (triple_bind _ _ _ (λ _, True)); [by apply triple_setup_command|intros; by apply Hpush]|done].
  - eapply triple_state; [eapply (triple_bind _ _ _ (λ _, True)); [by apply triple_setup_command|intros; by apply Hpush]|done].
  - eapply triple_state; [eapply (triple_bind _ _ _ (λ _, True)); [by apply triple_setup_function|intros; by apply Hpush]|done].
  - eapply triple_state; [eapply (triple_bind _ _ _ (λ _, True)); [by apply triple_setup_function|intros; by apply Hpush]|done].
Qed.

Lemma entry_points_preserve_vm_ok_witness :
  vm_ok machine test_io_ok (call_action machine no_ser no_deser 10 "act" [VInt 1] start).2
  ∧ (call_action machine no_ser no_deser 10 "act" [VInt 1] start).1 = Ok (Some ExitNormal).
Proof.
  split; [|by vm_compute].
  refine (proj1 (proj2 (entry_points_preserve_vm_ok machine no_ser no_deser test_io_ok 10 "act" [VInt 1]
    (mkStruct "" []) (mkStruct "" []) start _ _ _ _ _ _))).
  - exact machine_ok_demo.
  - apply test_io_vals_ok.
  - by repeat constructor.
  - by repeat constructor.
  - by repeat constructor.
  - exact start_ok.
Defined.

(** * Calls and returns *)

(** C11: a call returns to its caller. If the machine executes a [Call] and then
    any steps during which the callee has not returned (nested calls, blocks
    and definitions included) up to the callee's [Return], that [Return]
    succeeds: execution continues after the call, with exactly the scopes and
    the call stack of the caller; only what is on the value stack, the I/O and
    the query iterators is left by the callee. *)
Theorem call_returns_to_caller {IO} `{MachineIO IO} machine to_allocvec from_bytes n (s0 s1 s2 : RunState IO) :
  progmem machine !! rs_pc s0 = Some (ICall (Resolved n)) →
  vm_step machine to_allocvec from_bytes s0 s1 →
  rtc (λ a b, vm_step machine to_allocvec from_bytes a b
              ∧ length (rs_call_state s0) < length (rs_call_state b)) s1 s2 →
  progmem machine !! rs_pc s2 = Some IReturn →
  length (rs_call_state s2) = S (length (rs_call_state s0)) →
  (Z.of_nat (S (rs_pc s0)) < pow64)%Z →
  vm_step machine to_allocvec from_bytes s2
    (mkRunState (rs_scope s0) (rs_stack s2) (rs_call_state s0) (S (rs_pc s0)) (rs_io s2) (rs_ctx s2)
       (rs_query_iter_stack s2)).
Proof.
  intros Hcall H01 H12 Hret Hlen Hpc.
  eapply activation_call in H01 as [Ha _]; [|done].
  assert (activation s0 s2) as Ha2.
  { clear Hret Hlen. induction H12 as [|a b c [Hab Hd] _ IH]; [done|].
    apply IH. by eapply activation_step. }
  unfold vm_step, step, get_state. unfold mbind at 1, M_bind at 1. rewrite Hret. simpl.
  destruct (exec_return_total machine s0 s2 Ha2) as (fl & s3 & E).
  unfold mbind at 1, M_bind at 1. rewrite E.
  apply (exec_return_activation machine s0) in E as [-> [[_ ->]|[? _]]]; [|lia|done].
  unfold advance_pc, get_state, mbind, M_bind, modify. simpl.
  rewrite (proj2 (checked_add_Some _ 1 (S (rs_pc s0)))); [done|]. split; lia.
Qed.

Lemma call_returns_to_caller_witness :
  vm_step machine no_ser no_deser (after 5)
    (mkRunState (rs_scope start) [VInt 42] [] 1 test_io_new ctx []).
Proof.
  apply (call_returns_to_caller machine no_ser no_deser 2 start (after 1) (after 5)).
  - reflexivity.
  - vm_compute. reflexivity.
  - do 4 (eapply rtc_l; [split; [unfold vm_step; vm_compute; reflexivity|vm_compute; lia]|]). apply rtc_refl.
  - reflexivity.
  - reflexivity.
  - vm_compute. reflexivity.
Defined.

(** * Panics and termination *)

(** A program without the unimplemented instructions [Next] and [Last],
    over an I/O that does not panic and a code map whose positions can be
    computed, never panics, however long it runs: every stack access is
    checked, and the indices [Swap] and [Dup] compute are in range. *)
Theorem run_never_panics {IO} `{MachineIOLaws IO} machine to_allocvec from_bytes fuel (s : RunState IO) :
  codemap_total machine → io_calm (IO := IO) →
  forallb implemented (progmem machine) = true → calm_state s →
  is_panic (run machine to_allocvec from_bytes fuel s).1 = false.
Proof. intros Hcm Hio Hi Hs. by apply calm_run. Qed.

(** A code map over the text [a;b], one mapping. *)
Definition two_lines : CodeMap :=
  mkCodeMap (String.list_byte_of_string "a;b;") [(0, 2); (2, 4)] [(0, 0); (2, 2)].
Definition mapped : Machine :=
  mkMachine [IConst (VString "hi"); IExtCall 0 0; ISwap 3; IExit ExitNormal] [] [] [] [] [] [] (Some two_lines) [].

Lemma run_never_panics_witness :
  is_panic (run mapped no_ser no_deser 10 (run_state_new mapped test_io_new ctx)).1 = false
  ∧ is_ok (run mapped no_ser no_deser 10 (run_state_new mapped test_io_new ctx)).1 = false.
Proof.
  split; [|by vm_compute].
  apply (run_never_panics mapped no_ser no_deser).
  - intros t pc. do 3 (destruct pc as [|pc]; [by vm_compute|]). by vm_compute.
  - apply test_io_calm.
  - reflexivity.
  - split; [constructor|vm_compute; lia].
Defined.

(** Code without calls whose jumps all go forward terminates: from any
    state outside calls, more fuel than there are instructions left suffices
    for [run] to return an exit reason, an error or a panic. *)
Theorem forward_run_terminates {IO} `{MachineIO IO} machine to_allocvec from_bytes fuel (s : RunState IO) :
  forward_only (progmem machine) = true → rs_call_state s = [] →
  length (progmem machine) - rs_pc s < fuel →
  (run machine to_allocvec from_bytes fuel s).1 ≠ Ok None.
Proof. intros Hf Hc Hfuel. by apply run_forward. Qed.

Definition branching : Machine :=
  machine_new [ IConst (VBool true); IBranch (Resolved 3); IExit ExitPanic; IConst (VInt 7); IReturn ].

Lemma forward_run_terminates_witness :
  (run branching no_ser no_deser 6 (run_state_new branching test_io_new ctx)).1 ≠ Ok None.
Proof. apply (forward_run_terminates branching no_ser no_deser); [reflexivity..|vm_compute; lia]. Defined.

(** * Shared lemmas on [step] *)
Section StepLemmas.
Context {IO : Type} `{MachineIO IO}.
Variable machine : Machine.
Variable to_allocvec : Struct → option (list u8).
Variable from_bytes : list u8 → option Struct.
Implicit Types s : RunState IO.

Lemma step_fall s i s1 :
  progmem machine !! rs_pc s = Some i → exec machine to_allocvec from_bytes i s = (Ok FallThrough, s1) →
  (Z.of_nat (S (rs_pc s1)) < pow64)%Z →
  step machine to_allocvec from_bytes s = (Ok Executing, set_pc (S (rs_pc s1)) s1).
Proof.
  intros Hi E Hpc. unfold step, get_state. unfold mbind at 1, M_bind at 1. rewrite Hi.
  rewrite (M_bind_Ok _ _ _ _ _ E). unfold advance_pc, get_state, mbind, M_bind, modify. simpl.
  rewrite (proj2 (checked_add_Some _ 1 (S (rs_pc s1)))); [done|]. split; lia.
Qed.

Lemma step_fail s i e s1 :
  progmem machine !! rs_pc s = Some i → exec machine to_allocvec from_bytes i s = (Err e, s1) →
  step machine to_allocvec from_bytes s = (Err e, s1).
Proof.
  intros Hi E. unfold step, get_state. unfold mbind at 1, M_bind at 1. rewrite Hi.
  unfold mbind, M_bind. by rewrite E.
Qed.

(** An error with its position, where positions can be computed. *)
Lemma err_total t s :
  codemap_total machine → ∃ e, err machine t s = (Ok e, s) ∧ me_err_type e = t.
Proof.
  intros Hcm. unfold err. specialize (Hcm t (rs_pc s)).
  destruct (from_position t (rs_pc s) (codemap machine)) as [e|e|w] eqn:E; [|exfalso..].
  - exists e. split; [done|]. by apply with_position_err_type in E.
  - unfold from_position, with_position in E. simpl in E. destruct (codemap machine); [|done].
    destruct (span_from_instruction c (rs_pc s)) as [sp|x|x]; [|done..]. unfold mbind, outcome_bind in E.
    unfold start_linecol, linecol, span_as_str in E. crush_match.
  - done.
Qed.

Lemma err_bind t s :
  codemap_total machine →
  ∃ e, me_err_type e = t ∧ ∀ B (k : MachineError → VM B), (err machine t ≫= k) s = k e s.
Proof.
  intros Hcm. destruct (err_total t s Hcm) as (e & He & Ht). exists e. split; [done|]. intros B k.
  by etrans; [eapply M_bind_Ok, He|].
Qed.

Lemma ipop_ok {V} `{TryFromValue V} s st v x :
  rs_stack s = st ++ [v] → try_from_value v = Ok x → ipop machine s = (Ok (x : V), set_stack st s).
Proof.
  intros Hst Hv. unfold ipop, get_state, mbind, M_bind, stack_pop, pop_value. simpl.
  rewrite Hst, vec_pop_snoc. simpl. by rewrite Hv.
Qed.

Lemma ipush_value_ok s v :
  length (rs_stack s) < STACK_SIZE →
  ipush_value machine v s = (Ok tt, set_stack (rs_stack s ++ [v]) s).
Proof.
  intros Hlt. unfold ipush_value, get_state, mbind, M_bind, push_value, vec_push. simpl.
  destruct (Nat.ltb_spec (length (rs_stack s)) STACK_SIZE); [done|lia].
Qed.
End StepLemmas.

(** * Arithmetic *)

(** [Add] and [Sub] compute on 64-bit integers exactly or fail: the two
    integers are popped and their mathematical sum (difference) is pushed when
    it fits in an [i64]; otherwise the step fails with [IntegerOverflow] and
    pushes nothing. There is no wrap-around. *)
Theorem arith_exact_or_overflow {IO} `{MachineIO IO} machine to_allocvec from_bytes (s : RunState IO) st a b i exact :
  codemap_total machine → stack_ok (rs_stack s) → rs_stack s = st ++ [VInt a; VInt b] →
  progmem machine !! rs_pc s = Some i → (Z.of_nat (S (rs_pc s)) < pow64)%Z →
  (i = IAdd ∧ exact = (a + b)%Z) ∨ (i = ISub ∧ exact = (a - b)%Z) →
  if decide (i64_min ≤ exact ≤ i64_max)%Z
  then step machine to_allocvec from_bytes s
       = (Ok Executing, set_pc (S (rs_pc s)) (set_stack (st ++ [VInt exact]) s))
  else ∃ e, step machine to_allocvec from_bytes s = (Err e, set_stack st s) ∧ me_err_type e = IntegerOverflow.
Proof.
  intros Hcm Hok Hst Hi Hpc Hop.
  assert (∃ op, exec machine to_allocvec from_bytes i = exec_arith machine op
    ∧ op a b = if i64_ok exact then Some exact else None) as (op & Hexec & Hres).
  { destruct Hop as [[-> ->]|[-> ->]]; [by exists i64_checked_add|by exists i64_checked_sub]. }
  destruct (err_total machine IntegerOverflow (set_stack st s) Hcm) as (e & He & Ht).
  assert (∀ r : outcome MachineError flow * RunState IO,
    (lift_opt (op a b) e ≫= λ r, ipush machine (r : Z) ≫= λ _, mret FallThrough) (set_stack st s) = r →
    exec machine to_allocvec from_bytes i s = r) as Hrun.
  { intros r <-. rewrite Hexec. unfold exec_arith.
    etrans; [eapply M_bind_Ok, (ipop_ok machine s (st ++ [VInt a]) (VInt b) b); [by rewrite <- app_assoc|done]|].
    etrans; [eapply M_bind_Ok, (ipop_ok machine _ st (VInt a) a); done|].
    by etrans; [eapply M_bind_Ok, He|]. }
  unfold stack_ok in Hok. rewrite Hst, length_app in Hok. simpl in Hok.
  rewrite Hres in Hrun. case_decide as Hx.
  - apply (step_fall _ _ _ s i (set_stack (st ++ [VInt exact]) s)); [done| |done].
    apply Hrun. rewrite (proj2 (i64_ok_iff _)) by done.
    etrans; [by eapply M_bind_Ok|].
    etrans; [eapply M_bind_Ok, (ipush_value_ok machine (set_stack st s)); simpl; lia|done].
  - exists e. split; [|done]. apply step_fail with i; [done|]. apply Hrun.
    destruct (i64_ok exact) eqn:E; [by apply i64_ok_iff in E|done].
Qed.

Lemma arith_exact_or_overflow_witness :
  ∃ e, (let m := machine_new [IAdd] in
        let s := set_stack [VInt i64_max; VInt 1] (run_state_new m test_io_new ctx) in
        step m no_ser no_deser s = (Err e, set_stack [] s)) ∧ me_err_type e = IntegerOverflow.
Proof.
  refine (arith_exact_or_overflow (machine_new [IAdd]) no_ser no_deser
    (set_stack [VInt i64_max; VInt 1] (run_state_new (machine_new [IAdd]) test_io_new ctx))
    [] i64_max 1 IAdd (i64_max + 1) _ _ eq_refl eq_refl eq_refl (or_introl (conj eq_refl eq_refl))).
  - by intros t pc.
  - vm_compute. lia.
Defined.

(** * Facts *)

(** The facts of the store a query literal matches. *)
Definition matching (qf : Fact) (items : list (FactKeyList * FactValueList)) :=
  List.filter (λ kv, fact_match qf kv.1 kv.2) items.

(** The literal on top of the stack is valid and the store answers. *)
Definition queried {IO} `{MachineIO IO} (machine : Machine) (s : RunState IO) (st : MachineStack) (qf : Fact)
    (items : list (FactKeyList * FactValueList)) : Prop :=
  stack_ok (rs_stack s) ∧ rs_stack s = st ++ [VFact qf]
  ∧ match bt_get (f_name qf) (fact_defs machine) with
    | Some schema => validate_fact_schema qf schema = true
    | None => False
    end
  ∧ io_fact_query (f_name qf) (f_keys qf) (rs_io s) = Ok (map Ok items).

Section Queries.
Context {IO : Type} `{MachineIO IO}.
Variable machine : Machine.
Implicit Types s : RunState IO.

Lemma count_loop_spec f limit c items s :
  (limit ≤ i64_max)%Z → (0 ≤ c)%Z →
  count_loop machine f limit c (map Ok items) s
    = (Ok (if (limit <=? c)%Z then c else Z.min limit (c + Z.of_nat (length (matching f items)))), s).
Proof.
  intros Hl. revert c. induction items as [|kv items IH]; intros c Hc.
  - simpl. rewrite Z.add_0_r. destruct (Z.ltb_spec c limit); destruct (Z.leb_spec limit c); try lia; try done.
    by rewrite Z.min_r by lia.
  - simpl. destruct (Z.ltb_spec c limit); destruct (Z.leb_spec limit c); try lia; [|done].
    destruct (fact_match f kv.1 kv.2); [|rewrite IH by done; by destruct (Z.leb_spec limit c); [lia|]].
    unfold i64_checked_add. rewrite (proj2 (i64_ok_iff _)) by (unfold i64_min, i64_max in *; lia).
    rewrite IH by lia. f_equal. f_equal. simpl length. destruct (Z.leb_spec limit (c + 1)); lia.
Qed.

Lemma query_find_items qf items :
  query_find qf (map Ok items) = option_map Ok (head (matching qf items)).
Proof. induction items as [|kv items IH]; simpl; [done|]. by destruct (fact_match qf kv.1 kv.2). Qed.

(** The common prefix of [Query], [FactCount] and [QueryStart]. *)
Lemma queried_run {B} s st qf items (k : Fact → QueryIterator → VM (IO := IO) B) :
  queried machine s st qf items →
  (f ← ipop machine; validate_fact_literal machine f ≫= λ _,
   s0 ← get_state; it ← try_io (io_fact_query (f_name f) (f_keys f) (rs_io s0)); k f it) s
  = k qf (map Ok items) (set_stack st s).
Proof.
  intros (Hok & Hst & Hv & Hq).
  etrans; [eapply M_bind_Ok, (ipop_ok machine s st (VFact qf) qf); done|].
  etrans; [eapply (M_bind_Ok _ _ _ tt (set_stack st s))|].
  - unfold validate_fact_literal. by destruct (bt_get (f_name qf) (fact_defs machine)); [rewrite Hv|].
  - unfold get_state, mbind, M_bind. simpl. by rewrite Hq.
Qed.
End Queries.

(** [FactCount] counts: with a valid fact literal on the stack and a store
    that answers, the instruction replaces the literal by the number of facts
    the literal matches, capped at the instruction's limit (and never
    negative); the counter cannot overflow. *)
Theorem fact_count_is_capped_count {IO} `{MachineIO IO} machine to_allocvec from_bytes (s : RunState IO)
    st qf items limit :
  queried machine s st qf items → progmem machine !! rs_pc s = Some (IFactCount limit) →
  (limit ≤ i64_max)%Z → (Z.of_nat (S (rs_pc s)) < pow64)%Z →
  step machine to_allocvec from_bytes s =
    (Ok Executing, set_pc (S (rs_pc s)) (set_stack (st ++
       [VInt (Z.max 0 (Z.min limit (Z.of_nat (length (matching qf items)))))]) s)).
Proof.
  intros Hq Hi Hl Hpc.
  replace (Z.max 0 (Z.min limit (Z.of_nat (length (matching qf items)))))
    with (if (limit <=? 0)%Z then 0%Z else Z.min limit (0 + Z.of_nat (length (matching qf items))))
    by (destruct (Z.leb_spec limit 0); lia).
  eapply (step_fall _ _ _ s _ (set_stack _ s)); [done| |done].
  simpl. etrans; [eapply (queried_run machine s st qf items
    (λ f it, count ← count_loop machine f limit 0 it;
             ipush_value machine (VInt count) ≫= λ _, mret FallThrough)), Hq|].
  etrans; [by eapply M_bind_Ok, count_loop_spec|].
  etrans; [eapply M_bind_Ok, ipush_value_ok|].
  - destruct Hq as (Hok & Hst & _). unfold stack_ok in Hok. rewrite Hst, length_app in Hok. simpl in *. lia.
  - done.
Qed.

(** [Query] finds: with a valid fact literal on the stack and a store that
    answers, the instruction replaces the literal by a struct with the keys
    and values of the first fact the literal matches, or by [None] when there
    is none. *)
Theorem query_pushes_first_match {IO} `{MachineIO IO} machine to_allocvec from_bytes (s : RunState IO)
    st qf items :
  queried machine s st qf items → progmem machine !! rs_pc s = Some IQuery →
  (Z.of_nat (S (rs_pc s)) < pow64)%Z →
  step machine to_allocvec from_bytes s =
    (Ok Executing, set_pc (S (rs_pc s)) (set_stack (st ++
       [match matching qf items with
        | kv :: _ => VStruct (struct_new (f_name qf) (fact_fields kv))
        | [] => VNone
        end]) s)).
Proof.
  intros Hq Hi Hpc. eapply (step_fall _ _ _ s _ (set_stack _ s)); [done| |done].
  assert (length (rs_stack (set_stack st s)) < STACK_SIZE) as Hlt.
  { destruct Hq as (Hok & Hst & _). unfold stack_ok in Hok. rewrite Hst, length_app in Hok. simpl in *. lia. }
  simpl. unfold exec_query. rewrite (queried_run machine s st qf items) by done.
  rewrite query_find_items. destruct (matching qf items) as [|kv ms]; simpl.
  - by etrans; [eapply M_bind_Ok, ipush_value_ok|].
  - etrans; [by eapply M_bind_Ok|]. by etrans; [eapply M_bind_Ok, (ipush_value_ok machine)|].
Qed.

(** A machine with one fact schema, a store with three facts. *)
Definition counting : Machine :=
  mkMachine [IFactCount 2; IQuery] [] [] []
    [("F", mkFactDefinition false "F" [mkFieldDefinition "k" TInt] [mkFieldDefinition "v" TBool])] [] [] None [].
Definition stored (i : Z) (b : bool) : FactKeyList * FactValueList :=
  ([mkFactKey "k" (HInt i)], [mkFactValue "v" (VBool b)]).
Definition store : TestIO :=
  mkTestIO [(("F", (stored 1 true).1), (stored 1 true).2); (("F", (stored 2 false).1), (stored 2 false).2);
            (("F", (stored 3 true).1), (stored 3 true).2)] [] [].
Definition literal : Fact := mkFact "F" [] [mkFactValue "v" (VBool true)].
Definition counting_at (pc : nat) : RunState TestIO :=
  set_pc pc (set_stack [VFact literal] (run_state_new counting store ctx)).

Lemma fact_count_is_capped_count_witness :
  step counting no_ser no_deser (counting_at 0) =
    (Ok Executing, set_pc 1 (set_stack [VInt 2] (counting_at 0))).
Proof.
  apply (fact_count_is_capped_count counting no_ser no_deser (counting_at 0) [] literal
    [stored 1 true; stored 2 false; stored 3 true] 2);
    [split_and!; [vm_compute; lia|reflexivity..]|reflexivity|vm_compute; discriminate|reflexivity].
Defined.

Lemma query_pushes_first_match_witness :
  step counting no_ser no_deser (counting_at 1) =
    (Ok Executing, set_pc 2 (set_stack
       [VStruct (mkStruct "F" [("k", VInt 1); ("v", VBool true)])] (counting_at 1))).
Proof.
  apply (query_pushes_first_match counting no_ser no_deser (counting_at 1) [] literal
    [stored 1 true; stored 2 false; stored 3 true]);
    [split_and!; [vm_compute; lia|reflexivity..]|reflexivity|reflexivity].
Defined.
