(* ===== verification/VmEntry.v ===== *)
(** Theorems about the VM's schema checks, scopes, entry points,
    serialization and source positions. *)
From S2P Require Import Prelude Collections PolicyData PolicyModule VmScope Vm VmInvariant.
From S2P Require Import VmTestIO VmCalls VmSafety VmTheorems.
Import Demo.
Local Open Scope string_scope.
Local Open Scope list_scope.
Local Open Scope nat_scope.

(** * Struct schemas *)
Lemma existsb_field (fields : list FieldDefinition) n :
  existsb (λ v, bool_decide (fd_identifier v = n)) fields = true ↔ n ∈ map fd_identifier fields.
Proof.
  rewrite existsb_exists, list_elem_of_fmap. setoid_rewrite bool_decide_eq_true.
  setoid_rewrite list_elem_of_In. naive_solver.
Qed.

Lemma bt_get_is_Some {V} n (m : BTreeMap string V) : is_Some (bt_get n m) ↔ n ∈ m.*1.
Proof.
  pose proof (bt_get_None_notin n m) as Hn. destruct (bt_get n m) eqn:E.
  - split; [|by eauto]. intros _. destruct (decide (n ∈ m.*1)); [done|]. by apply Hn in n0.
  - split; [by intros []|]. intros Hin. by destruct (proj1 Hn eq_refl).
Qed.

(** [Publish] and [Emit] accept a struct exactly when a struct of that name
    is defined and it has exactly the fields of the definition; the types of
    the fields play no role (the comparison in the source compares a value's
    type with itself). A rejected struct gives [InvalidSchema]; the state is
    untouched in every case. *)
Theorem struct_schema_checks_names_only {IO} `{MachineIO IO} machine (st : Struct) (s : RunState IO) :
  codemap_total machine →
  ∃ r, validate_struct_schema machine st s = (r, s)
    ∧ (r = Ok tt ↔ ∃ fields, bt_get (s_name st) (struct_defs machine) = Some fields
                     ∧ ∀ n, n ∈ (s_fields st).*1 ↔ n ∈ map fd_identifier fields)
    ∧ (r ≠ Ok tt → ∃ e, r = Err e ∧ me_err_type e = InvalidSchema (s_name st)).
Proof.
  intros Hcm. destruct (err_bind machine (InvalidSchema (s_name st)) s Hcm) as (e & Ht & He).
  unfold validate_struct_schema. rewrite He. clear He Hcm.
  destruct (bt_get (s_name st) (struct_defs machine)) as [fields|]; [|exists (Err e); naive_solver].
  destruct (forallb (λ f, existsb (λ v, bool_decide (fd_identifier v = f.1)) fields) (s_fields st)) eqn:E1; simpl.
  - destruct (forallb (λ f, match bt_get (fd_identifier f) (s_fields st) with
      | Some f => bool_decide (vtype f = vtype f) | None => false end) fields) eqn:E2.
    + exists (Ok tt). split_and!; [done| |done]. split; [intros _|done]. exists fields. split; [done|]. intros n.
      rewrite forallb_forall in E1, E2. split.
      * intros ([n' v] & -> & Hin%list_elem_of_In)%list_elem_of_fmap. by apply E1, existsb_field in Hin.
      * intros (f & -> & Hin%list_elem_of_In)%list_elem_of_fmap. apply E2 in Hin. apply bt_get_is_Some.
        destruct (bt_get (fd_identifier f) (s_fields st)); [by eauto|done].
    + exists (Err e). split_and!; [done| |naive_solver]. split; [done|]. intros (fs & [= <-] & Hn).
      apply not_true_iff_false in E2. destruct E2. apply forallb_forall. intros f Hf%list_elem_of_In.
      destruct (proj2 (bt_get_is_Some (fd_identifier f) (s_fields st))) as [v ->]; [|by apply bool_decide_eq_true].
      apply Hn, list_elem_of_fmap. eauto.
  - exists (Err e). split_and!; [done| |naive_solver]. split; [done|]. intros (fs & [= <-] & Hn).
    apply not_true_iff_false in E1. destruct E1. apply forallb_forall. intros p Hp%list_elem_of_In.
    apply existsb_field, Hn, list_elem_of_fmap. eauto.
Qed.

Definition structs : Machine :=
  mkMachine [] [] [] [] [] [("S", [mkFieldDefinition "a" TInt])] [] None [].

Lemma struct_schema_checks_names_only_witness :
  ∃ r, validate_struct_schema structs (mkStruct "S" [("a", VString "not an integer")])
         (run_state_new structs test_io_new ctx) = (r, run_state_new structs test_io_new ctx)
    ∧ (r = Ok tt ↔ ∃ fields, bt_get "S" (struct_defs structs) = Some fields
                     ∧ ∀ n, n ∈ ["a"] ↔ n ∈ map fd_identifier fields)
    ∧ (r ≠ Ok tt → ∃ e, r = Err e ∧ me_err_type e = InvalidSchema "S").
Proof.
  apply (struct_schema_checks_names_only structs (mkStruct "S" [("a", VString "not an integer")])
    (run_state_new structs test_io_new ctx)). by intros t pc.
Defined.

(** * Scopes *)

(** a name can be defined exactly when it is not visible, and then it reads
    back: in a frame with an open block, [set] succeeds exactly when [get]
    reports the name as not defined; after it the name has the new value and
    every other name reads as before. *)
Theorem scope_set_spec key v s rest outer block :
  sc_locals s = rest ++ [outer ++ [block]] →
  match scope_get key s with
  | Ok _ => scope_set key v s = Err (AlreadyDefined key)
  | _ => ∃ s', scope_set key v s = Ok s' ∧ scope_get key s' = Ok v
               ∧ ∀ k, k ≠ key → scope_get k s' = scope_get k s
  end.
Proof.
  intros Hl. pose proof (scope_set_defined key v s rest outer block Hl) as Hd.
  destruct (scope_get key s) as [w|e|x] eqn:Eg.
  - assert (∀ s', scope_set key v s ≠ Ok s') as Hno by (intros s' Hs'; discriminate (proj1 Hd (ex_intro _ s' Hs'))).
    unfold scope_set in *. rewrite Hl, vec_pop_snoc in *. case_match; [done|]. case_match; [done|].
    rewrite vec_pop_snoc in *. by edestruct Hno.
  - destruct (proj2 Hd) as [s' Hs'].
    { unfold scope_get in Eg. crush_match. }
    exists s'. split; [done|]. by apply scope_get_set.
  - unfold scope_get in Eg. crush_match.
Qed.

Lemma scope_set_spec_witness :
  ∃ s', scope_set "x" (VInt 1) (scope_new [("g", VBool true)]) = Ok s' ∧ scope_get "x" s' = Ok (VInt 1)
        ∧ ∀ k, k ≠ "x" → scope_get k s' = scope_get k (scope_new [("g", VBool true)]).
Proof. apply (scope_set_spec "x" (VInt 1) (scope_new [("g", VBool true)]) [] [] []). reflexivity. Defined.

(** What code inside an open block can do to the scope: define names, and open
    and close nested blocks around more of the same. *)
Inductive in_block : ScopeManager → ScopeManager → Prop :=
| in_done s : in_block s s
| in_set k v s s1 s2 : scope_set k v s = Ok s1 → in_block s1 s2 → in_block s s2
| in_nested s s1 s2 s3 s4 :
    enter_block s = Ok s1 → in_block s1 s2 → exit_block s2 = Ok s3 → in_block s3 s4 → in_block s s4.

Lemma enter_block_inv s s' :
  enter_block s = Ok s' →
  ∃ rest fr, sc_locals s = rest ++ [fr] ∧ s' = set_locals (rest ++ [fr ++ [[]]]) s.
Proof.
  unfold enter_block. destruct (vec_pop (sc_locals s)) as [[fr rest]|] eqn:E; [|done].
  apply vec_pop_Some in E. intros [= <-]. eauto.
Qed.

Lemma exit_block_snoc s rest fr b :
  sc_locals s = rest ++ [fr ++ [b]] → exit_block s = Ok (set_locals (rest ++ [fr]) s).
Proof. intros Hl. unfold exit_block. by rewrite Hl, !vec_pop_snoc. Qed.

(** Only the innermost block changes. *)
Lemma in_block_inv s s' rest fr b :
  in_block s s' → sc_locals s = rest ++ [fr ++ [b]] → ∃ b', s' = set_locals (rest ++ [fr ++ [b']]) s.
Proof.
  intros Hb. revert rest fr b. induction Hb as [s|k v s s1 s2 Hs _ IH|s s1 s2 s3 s4 He _ IH1 Hx _ IH2]; intros rest fr b Hl.
  - exists b. rewrite <- Hl. by destruct s.
  - apply scope_set_inv in Hs as (rest' & outer & block & Hl' & -> & _). rewrite Hl in Hl'.
    apply app_inj_tail in Hl' as [<- [<- <-]%app_inj_tail].
    destruct (IH rest fr _ eq_refl) as [b' ->]. by exists b'.
  - apply enter_block_inv in He as (rest' & fr' & Hl' & ->). rewrite Hl in Hl'.
    apply app_inj_tail in Hl' as [<- <-].
    destruct (IH1 rest (fr ++ [b]) [] eq_refl) as [b' ->].
    rewrite (exit_block_snoc _ rest (fr ++ [b]) b') in Hx by done. injection Hx as <-.
    destruct (IH2 rest fr b eq_refl) as [b'' ->]. by exists b''.
Qed.

(** Leaving a block restores the scope: whatever is defined inside a block,
    nested blocks included, the scope after [End] is the scope before the
    matching [Block]. *)
Theorem block_restores_scope s s1 s2 :
  enter_block s = Ok s1 → in_block s1 s2 → exit_block s2 = Ok s.
Proof.
  intros (rest & fr & Hl & ->)%enter_block_inv Hb.
  apply (in_block_inv _ _ rest fr []) in Hb as [b ->]; [|done].
  rewrite (exit_block_snoc _ rest fr b) by done. unfold set_locals. simpl.
  rewrite <- Hl. by destruct s.
Qed.

Lemma block_restores_scope_witness :
  exit_block (mkScope [] [[[("a", VInt 1)]; [("b", VInt 2)]]]) = Ok (mkScope [] [[[("a", VInt 1)]]]).
Proof.
  apply (block_restores_scope (mkScope [] [[[("a", VInt 1)]]]) (mkScope [] [[[("a", VInt 1)]; []]])).
  - reflexivity.
  - apply (in_nested _ (mkScope [] [[[("a", VInt 1)]; []; []]]) (mkScope [] [[[("a", VInt 1)]; []; [("c", VNone)]]])
      (mkScope [] [[[("a", VInt 1)]; []]])); [reflexivity| |reflexivity|].
    + apply (in_set "c" VNone _ (mkScope [] [[[("a", VInt 1)]; []; [("c", VNone)]]])); [reflexivity|apply in_done].
    + apply (in_set "b" (VInt 2) _ (mkScope [] [[[("a", VInt 1)]; [("b", VInt 2)]]])); [reflexivity|apply in_done].
Defined.

(** * Entry points *)
Section Entry.
Context {IO : Type} `{MachineIO IO}.
Variable machine : Machine.
Implicit Types s : RunState IO.

Definition arg_fits (a : Value) (d : FieldDefinition) : Prop :=
  fits_type (E := False) a (fd_field_type d) = Ok true.

Lemma check_args_iff args defs s s' :
  length args = length defs →
  check_args args defs s = (Ok tt, s') ↔ Forall2 arg_fits args defs ∧ s' = s.
Proof.
  revert defs. induction args as [|a args IH]; intros [|d defs] Hl; try done; simpl.
  - unfold mret, M_ret. split; [by intros [= <-]|by intros [_ ->]].
  - unfold mbind, M_bind. rewrite Forall2_cons. unfold arg_fits at 1.
    destruct (fits_type a (fd_field_type d)) as [[]|[]|w]; simpl.
    + rewrite IH by (simpl in Hl; lia). naive_solver.
    + naive_solver.
    + naive_solver.
Qed.

Lemma push_args_iff args s s' :
  stack_ok (rs_stack s) →
  for_each (ipush_value machine) args s = (Ok tt, s')
  ↔ length (rs_stack s) + length args ≤ STACK_SIZE ∧ s' = set_stack (rs_stack s ++ args) s.
Proof.
  revert s. induction args as [|v args IH]; intros s Hok; simpl.
  - rewrite app_nil_r. unfold mret, M_ret, stack_ok in *. destruct s; unfold set_stack; simpl in *.
    split; [intros [= <-]; by split; [lia|]|by intros [_ ->]].
  - destruct (decide (length (rs_stack s) < STACK_SIZE)) as [Hlt|Hge].
    + etrans; [by erewrite M_bind_Ok by by apply ipush_value_ok|]. rewrite IH.
      * simpl. rewrite length_app, <- app_assoc. simpl. split; intros [? ->]; (split; [lia|done]).
      * unfold stack_ok. simpl. rewrite length_app. simpl. lia.
    + split; [|intros [? _]; lia]. intros (? & s1 & E & _)%M_bind_inv_Ok. exfalso.
      unfold ipush_value, get_state in E. apply M_bind_inv_Ok in E as (? & ? & [= <- <-] & E).
      apply M_bind_inv_Ok in E as (st & s2 & E & _).
      assert ((try_at machine (push_value v (rs_stack s)) s).1 = Ok st) as E' by by rewrite E.
      apply try_at_inv, push_value_inv in E'. lia.
Qed.

Lemma setup_function_iff l s s' :
  setup_function machine l s = (Ok tt, s') ↔
  ∃ addr, bt_get l (labels machine) = Some addr
          ∧ s' = set_scope (scope_clear (rs_scope s)) (set_call_state [] (set_pc addr s)).
Proof.
  unfold setup_function, set_pc_by_label. destruct (bt_get l (labels machine)) as [addr|].
  - unfold modify_scope, modify, mbind, M_bind. simpl. split; [intros [= <-]; eauto|naive_solver].
  - split; [|naive_solver]. intros (a & ? & E & _)%M_bind_inv_Ok.
    by apply fail_at_inv in E.
Qed.
End Entry.

(** [setup_action] accepts exactly the well-typed calls: it succeeds if and
    only if the action is defined, it gets as many arguments as it declares,
    every argument fits its declared type, the action has a label, and the
    arguments fit on the stack; then the machine is at that label, outside any
    call, with an empty local scope and the arguments on the stack in order. *)
Theorem setup_action_accepts_iff {IO} `{MachineIO IO} machine name args (s s' : RunState IO) :
  stack_ok (rs_stack s) →
  setup_action machine name args s = (Ok tt, s') ↔
  ∃ defs addr,
    bt_get name (action_defs machine) = Some defs ∧ Forall2 arg_fits args defs
    ∧ bt_get (mkLabel name LAction) (labels machine) = Some addr
    ∧ length (rs_stack s) + length args ≤ STACK_SIZE
    ∧ s' = mkRunState (mkScope (sc_globals (rs_scope s)) [[[]]]) (rs_stack s ++ args) [] addr (rs_io s) (rs_ctx s)
             (rs_query_iter_stack s).
Proof.
  intros Hok. unfold setup_action.
  destruct (bt_get name (action_defs machine)) as [defs|]; [|naive_solver].
  destruct (Nat.eqb_spec (length args) (length defs)) as [Hl|Hl]; simpl.
  - split.
    + intros ([] & s1 & Hc & E)%M_bind_inv_Ok. apply check_args_iff in Hc as [HF ->]; [|done].
      apply M_bind_inv_Ok in E as ([] & s2 & Hf & E).
      apply setup_function_iff in Hf as (addr & Ha & ->). apply push_args_iff in E as [? ->]; [|done].
      exists defs, addr. done.
    + intros (? & addr & [= <-] & HF & Ha & Hlen & ->).
      etrans; [by eapply M_bind_Ok, check_args_iff|].
      etrans; [eapply M_bind_Ok, setup_function_iff; eauto|]. by apply push_args_iff.
  - split; [naive_solver|]. intros (? & addr & [= <-] & HF & _). by apply Forall2_length in HF.
Qed.

Lemma setup_action_accepts_iff_witness :
  setup_action machine "act" [VInt 5] (run_state_new machine test_io_new ctx) =
    (Ok tt, mkRunState (mkScope [] [[[]]]) [VInt 5] [] 0 test_io_new ctx []).
Proof.
  apply (setup_action_accepts_iff machine "act" [VInt 5] (run_state_new machine test_io_new ctx)).
  - vm_compute. lia.
  - exists [mkFieldDefinition "x" TInt], 0. split_and!; [reflexivity| |reflexivity|vm_compute; lia|reflexivity].
    constructor; [reflexivity|constructor].
Defined.

(** ** Commands *)

(** Every field of [this] is declared by the command and fits its type. *)
Definition field_fits (def : BTreeMap string VType) (f : string * Value) : Prop :=
  ∃ t, bt_get f.1 def = Some t ∧ fits_type (E := False) f.2 t = Ok true.

Lemma check_fields_iff {IO} `{MachineIO IO} machine def fs (s s' : RunState IO) :
  codemap_total machine →
  check_fields machine def fs s = (Ok tt, s') ↔ Forall (field_fits def) fs ∧ s' = s.
Proof.
  intros Hcm. induction fs as [|[n v] fs IH]; simpl.
  - unfold mret, M_ret. split; [by intros [= <-]|by intros [_ ->]].
  - destruct (err_bind machine (InvalidStructMember n) s Hcm) as (e & _ & He).
    rewrite He, Forall_cons. unfold field_fits at 1. simpl.
    unfold mbind, M_bind, lift_opt. destruct (bt_get n def) as [t|]; simpl; [|naive_solver].
    destruct (fits_type v t) as [[]|[]|w] eqn:Ef; simpl.
    + rewrite IH. naive_solver.
    + split; [by intros ?%fail_at_inv|]. intros [[(t' & [= <-] & Hf) _] _]. congruence.
    + split; [done|]. intros [[(t' & [= <-] & Hf) _] _]. congruence.
Qed.

(** [setup_command] accepts exactly the well-typed commands: it succeeds if
    and only if the rule has a label, the command is defined, [this] has as
    many fields as the definition, each of them declared and of its declared
    type, and no global is named [this]; then the machine is at the label,
    outside any call, and [this] is the only local name. *)
Theorem setup_command_accepts_iff {IO} `{MachineIO IO} machine name lt (this : Struct) (s s' : RunState IO) :
  codemap_total machine →
  setup_command machine name lt this s = (Ok tt, s') ↔
  ∃ addr def,
    bt_get (mkLabel name lt) (labels machine) = Some addr
    ∧ bt_get name (command_defs machine) = Some def
    ∧ length (s_fields this) = length def ∧ Forall (field_fits def) (s_fields this)
    ∧ bt_get "this" (sc_globals (rs_scope s)) = None
    ∧ s' = mkRunState (mkScope (sc_globals (rs_scope s)) [[[("this", VStruct this)]]]) (rs_stack s) [] addr
             (rs_io s) (rs_ctx s) (rs_query_iter_stack s).
Proof.
  intros Hcm. unfold setup_command.
  set (s1 addr := set_scope (scope_clear (rs_scope s)) (set_call_state [] (set_pc addr s))).
  assert (∀ addr, update_scope (@try_at _ machine) (scope_set "this" (VStruct this)) (s1 addr) = (Ok tt, s') ↔
    bt_get "this" (sc_globals (rs_scope s)) = None ∧ s' = set_scope (mkScope (sc_globals (rs_scope s)) [[[("this", VStruct this)]]]) (s1 addr)) as Hset.
  { intros addr. unfold update_scope, get_state, mbind, M_bind. simpl. unfold scope_set, bt_contains. simpl.
    destruct (bt_get "this" (sc_globals (rs_scope s))) as [g|]; simpl; [|unfold modify; naive_solver].
    destruct (fail_at machine (AlreadyDefined "this") (s1 addr)) as [[?|?|?] ?] eqn:E; [|naive_solver..].
    by apply fail_at_inv in E. }
  split.
  - intros ([] & s2 & (addr & Ha & ->)%setup_function_iff & E)%M_bind_inv_Ok. fold (s1 addr) in E.
    apply M_bind_inv_Ok in E as (e & s3 & E1 & E).
    assert (s3 = s1 addr) as -> by (unfold err in E1; congruence).
    apply M_bind_inv_Ok in E as (def & s3 & E2 & E). unfold lift_opt in E2.
    destruct (bt_get name (command_defs machine)) as [def'|] eqn:Ed; [|done]. injection E2 as -> <-.
    destruct (Nat.eqb_spec (length (s_fields this)) (length def)) as [Hl|Hl]; simpl in E;
      [|by apply fail_at_inv in E].
    apply M_bind_inv_Ok in E as ([] & s3 & [HF ->]%check_fields_iff & E); [|done].
    apply Hset in E as [Hg ->]. exists addr, def. done.
  - intros (addr & def & Ha & Hd & Hl & HF & Hg & ->).
    etrans; [eapply M_bind_Ok, setup_function_iff; eauto|]. fold (s1 addr).
    destruct (err_bind machine (NotDefined name) (s1 addr) Hcm) as (e & _ & He).
    rewrite He, Hd. etrans; [by eapply M_bind_Ok|].
    rewrite Hl, Nat.eqb_refl. simpl. etrans; [by eapply M_bind_Ok, check_fields_iff|].
    by apply Hset.
Qed.

Definition command_machine : Machine :=
  mkMachine [IReturn] [(mkLabel "Cmd" LCommandPolicy, 0)] [] [("Cmd", [("n", TInt)])] [] [] [] None [].

Lemma setup_command_accepts_iff_witness :
  setup_command command_machine "Cmd" LCommandPolicy (mkStruct "Cmd" [("n", VInt 3)])
    (run_state_new command_machine test_io_new ctx) =
  (Ok tt, mkRunState (mkScope [] [[[("this", VStruct (mkStruct "Cmd" [("n", VInt 3)]))]]]) [] [] 0 test_io_new ctx []).
Proof.
  apply (setup_command_accepts_iff command_machine "Cmd" LCommandPolicy (mkStruct "Cmd" [("n", VInt 3)])
    (run_state_new command_machine test_io_new ctx)); [by intros t pc|].
  exists 0, [("n", TInt)]. split_and!; try reflexivity.
  constructor; [exists TInt; split; reflexivity|constructor].
Defined.

(** * Serialization *)

(** Sealing and opening are inverse: with a serializer whose output its
    deserializer reads back, [Serialize] in the seal context of a command
    replaces the command struct by bytes from which [Deserialize] in the open
    context of the same command rebuilds exactly that struct. *)
Theorem serialize_deserialize_roundtrip {IO} `{MachineIO IO} machine to_allocvec from_bytes
    (s1 s2 : RunState IO) st1 st2 (cmd : Struct) head bytes :
  (∀ x b, to_allocvec x = Some b → from_bytes b = Some x) →
  to_allocvec cmd = Some bytes → stack_ok (rs_stack s1) → stack_ok (rs_stack s2) →
  rs_ctx s1 = CtxSeal (mkSealContext (s_name cmd) head) → rs_stack s1 = st1 ++ [VStruct cmd] →
  rs_ctx s2 = CtxOpen (mkOpenContext (s_name cmd)) → rs_stack s2 = st2 ++ [VBytes bytes] →
  exec machine to_allocvec from_bytes ISerialize s1 = (Ok FallThrough, set_stack (st1 ++ [VBytes bytes]) s1)
  ∧ exec machine to_allocvec from_bytes IDeserialize s2 = (Ok FallThrough, set_stack (st2 ++ [VStruct cmd]) s2).
Proof.
  intros Hpc Hb Hok1 Hok2 Hc1 Hs1 Hc2 Hs2. unfold stack_ok in *. rewrite Hs1 in Hok1. rewrite Hs2 in Hok2.
  rewrite length_app in Hok1, Hok2. simpl in Hok1, Hok2. split; simpl.
  - unfold exec_serialize. etrans; [by eapply (M_bind_Ok get_state)|]. rewrite Hc1.
    etrans; [eapply M_bind_Ok, (ipop_ok machine s1 st1 (VStruct cmd) cmd); done|]. simpl.
    rewrite bool_decide_eq_true_2 by done. simpl. rewrite Hb.
    by etrans; [eapply M_bind_Ok, (ipush_value_ok machine); simpl; lia|].
  - unfold exec_deserialize. etrans; [by eapply (M_bind_Ok get_state)|]. rewrite Hc2.
    etrans; [eapply M_bind_Ok, (ipop_ok machine s2 st2 (VBytes bytes) bytes); done|]. simpl.
    rewrite (Hpc _ _ Hb), bool_decide_eq_true_2 by done. simpl.
    by etrans; [eapply M_bind_Ok, (ipush_value_ok machine); simpl; lia|].
Qed.

(** A serializer for structs without fields: the bytes of the name. *)
Definition name_ser (s : Struct) : option (list u8) :=
  match s_fields s with [] => Some (String.list_byte_of_string (s_name s)) | _ => None end.
Definition name_deser (b : list u8) : option Struct := Some (mkStruct (String.string_of_list_byte b) []).
Definition in_ctx (c : CommandContext) (v : Value) : RunState TestIO :=
  set_stack [v] (run_state_new (machine_new []) test_io_new c).

Lemma serialize_deserialize_roundtrip_witness :
  exec (machine_new []) name_ser name_deser IDeserialize
    (in_ctx (CtxOpen (mkOpenContext "C")) (VBytes (String.list_byte_of_string "C")))
  = (Ok FallThrough, in_ctx (CtxOpen (mkOpenContext "C")) (VStruct (mkStruct "C" []))).
Proof.
  refine (proj2 (serialize_deserialize_roundtrip (machine_new []) name_ser name_deser
    (in_ctx (CtxSeal (mkSealContext "C" [])) (VStruct (mkStruct "C" [])))
    (in_ctx (CtxOpen (mkOpenContext "C")) (VBytes (String.list_byte_of_string "C"))) [] []
    (mkStruct "C" []) [] (String.list_byte_of_string "C") _ eq_refl _ _ eq_refl eq_refl eq_refl eq_refl)).
  - intros [n [|f fs]] b; [|done]. intros [= <-]. unfold name_deser. simpl.
    by rewrite String.string_of_list_byte_of_string.
  - vm_compute. lia.
  - vm_compute. lia.
Defined.

(** * Source positions *)

(** The code map a compiler builds with a sequence of calls of
    [map_instruction_range]. *)
Fixpoint map_all (calls : list (nat * nat)) (cm : CodeMap) : outcome RangeError CodeMap :=
  match calls with
  | [] => Ok cm
  | c :: calls' => cm' ← map_instruction_range c.1 c.2 cm; map_all calls' cm'
  end.

Definition up_to (ip : nat) (l : list (nat * nat)) : option (nat * nat) :=
  last (List.filter (λ c, c.1 <=? ip) l).

Lemma filter_all {A} (f : A → bool) l : Forall (λ x, f x = true) l → List.filter f l = l.
Proof. induction 1 as [|x l Hx _ IH]; simpl; [done|]. by rewrite Hx, IH. Qed.
Lemma filter_none {A} (f : A → bool) l : Forall (λ x, f x = false) l → List.filter f l = [].
Proof. induction 1 as [|x l Hx _ IH]; simpl; [done|]. by rewrite Hx. Qed.

Lemma up_to_snoc ip l c : up_to ip (l ++ [c]) = if c.1 <=? ip then Some c else up_to ip l.
Proof.
  unfold up_to. rewrite List.filter_app. simpl. destruct (c.1 <=? ip); [by rewrite last_snoc|by rewrite app_nil_r].
Qed.

Lemma mapping_sorted_drop l j p :
  mapping_sorted l → l !! j = Some p → Forall (λ q, p.1 < q.1) (drop (S j) l).
Proof.
  intros Hs. revert j. induction Hs as [|x l Hs IH HF]; intros [|j] Hj; simplify_eq/=; [done|].
  by apply IH.
Qed.

(** In a sorted mapping, the last entry at or below [ip] is found at the index
    after which all entries are above [ip]. *)
Lemma up_to_at ip l j p :
  l !! j = Some p → p.1 ≤ ip → Forall (λ q, ip < q.1) (drop (S j) l) → up_to ip l = Some p.
Proof.
  intros Hj Hp HF. unfold up_to. rewrite <- (take_drop (S j) l), List.filter_app.
  rewrite (filter_none _ (drop (S j) l)).
  - rewrite (take_S_r _ _ _ Hj), List.filter_app. simpl. destruct (Nat.leb_spec p.1 ip); [|lia].
    by rewrite app_nil_r, last_snoc.
  - eapply Forall_impl; [exact HF|]. intros q Hq. simpl in *. by apply Nat.leb_gt.
Qed.

Lemma locator_sorted cm ip :
  mapping_sorted (cm_instruction_mapping cm) →
  locator_from_instruction cm ip = ok_or (option_map snd (up_to ip (cm_instruction_mapping cm))) RangeError_.
Proof.
  unfold locator_from_instruction, binary_search. set (l := cm_instruction_mapping cm). intros Hs.
  pose proof (binary_search_from_spec 0 ip l Hs) as Hb.
  destruct (binary_search_from 0 ip l) as [j|j]; rewrite ?Nat.sub_0_r in Hb; simpl.
  - destruct Hb as (_ & v & Hj). rewrite Hj, (up_to_at ip l j (ip, v)); try done.
    by apply (mapping_sorted_drop l j (ip, v)).
  - destruct Hb as ([_ Hjl] & Hlo & Hhi). destruct j as [|j]; simpl.
    + unfold up_to. rewrite filter_none; [done|]. eapply Forall_impl; [exact Hhi|].
      intros q Hq. simpl in *. by apply Nat.leb_gt.
    + rewrite Nat.sub_0_r. destruct (lookup_lt_is_Some_2 l j) as [[k v] Hk]; [lia|]. rewrite Hk.
      rewrite (up_to_at ip l j (k, v)); [done..| |done].
      rewrite Forall_lookup in Hlo. apply Nat.lt_le_incl, (Hlo j (k, v)). by rewrite lookup_take_lt by lia.
Qed.

Lemma map_all_snoc calls c cm :
  map_all (calls ++ [c]) cm = (cm' ← map_all calls cm; map_instruction_range c.1 c.2 cm').
Proof.
  revert cm. induction calls as [|d calls IH]; intros cm; simpl.
  - unfold mbind, outcome_bind. by destruct (map_instruction_range c.1 c.2 cm).
  - unfold mbind, outcome_bind. destruct (map_instruction_range d.1 d.2 cm); [|done..]. by rewrite IH.
Qed.

Lemma map_instruction_range_up_to i loc cm cm' ip :
  map_instruction_range i loc cm = Ok cm' →
  up_to ip (cm_instruction_mapping cm')
  = if i <=? ip then Some (i, loc) else up_to ip (cm_instruction_mapping cm).
Proof.
  unfold map_instruction_range. intros E.
  destruct (vec_pop (cm_instruction_mapping cm)) as [[[k v] rest]|] eqn:Ep.
  - apply vec_pop_Some in Ep. destruct (Nat.eqb_spec i k) as [->|].
    + injection E as <-. unfold vec_push. simpl. rewrite Ep, !up_to_snoc. simpl. by destruct (k <=? ip).
    + destruct (i <=? k); [done|]. injection E as <-. unfold vec_push. simpl. by rewrite up_to_snoc.
  - injection E as <-. unfold vec_push. simpl. by rewrite up_to_snoc.
Qed.

(** source positions: after any sequence of [map_instruction_range] calls
    that all succeed, the locator of an instruction is the one of the last
    call made for an address at or below it (so the greatest such address,
    and the newest mapping of it), and an error if there is none; the lookup
    never panics. *)
Theorem locator_is_last_mapping_at_or_below text ranges calls cm ip :
  map_all calls (codemap_new text ranges) = Ok cm →
  locator_from_instruction cm ip = ok_or (option_map snd (up_to ip calls)) RangeError_.
Proof.
  intros Hm. enough (mapping_sorted (cm_instruction_mapping cm)
    ∧ up_to ip (cm_instruction_mapping cm) = up_to ip calls) as [Hs <-] by by apply locator_sorted.
  revert cm Hm. induction calls as [|c calls IH] using rev_ind; intros cm Hm.
  - injection Hm as <-. split; [constructor|done].
  - rewrite map_all_snoc in Hm. unfold mbind, outcome_bind in Hm.
    destruct (map_all calls (codemap_new text ranges)) as [cm1| |]; [|done..].
    destruct (IH cm1 eq_refl) as [Hs Hu]. split; [by eapply map_instruction_range_sorted|].
    rewrite up_to_snoc, (map_instruction_range_up_to _ _ _ _ _ Hm), Hu. by destruct c.
Qed.

Lemma locator_is_last_mapping_at_or_below_witness :
  locator_from_instruction
    (mkCodeMap (String.list_byte_of_string "abc") [(0, 1); (1, 2)] [(0, 0); (4, 1); (7, 0)]) 6 = Ok 1.
Proof.
  apply (locator_is_last_mapping_at_or_below (String.list_byte_of_string "abc") [(0, 1); (1, 2)]
    [(0, 0); (4, 0); (4, 1); (7, 0)]). reflexivity.
Defined.
