(* ===== verification/Ast.v ===== *)
(** The abstract syntax of the policy language
    ([aranya-policy-ast/src/ast.rs]): expressions, statements, definitions and
    policies, with the equality that the source derives. *)
From S2P Require Import Prelude Collections PolicyData.
Local Open Scope string_scope.
Local Open Scope list_scope.
Local Open Scope nat_scope.

Inductive PolicyVersion : Type := PolicyV1.

Record AstNode (T : Type) := mkAstNode { inner : T; locator : nat }.
Arguments mkAstNode {T}. Arguments inner {T}. Arguments locator {T}.

(** * Expressions

    The records that hold expressions are declared over the type of
    expressions, so that [Expression] can be nested in them. *)
Inductive FactFieldOf (E : Type) : Type :=
| FExpression (e : E)
| FBind.
Arguments FExpression {E}. Arguments FBind {E}.

Record FactLiteralOf (E : Type) := mkFactLiteral {
  fl_identifier : string;
  fl_key_fields : list (string * FactFieldOf E);
  fl_value_fields : option (list (string * FactFieldOf E))
}.
Arguments mkFactLiteral {E}. Arguments fl_identifier {E}. Arguments fl_key_fields {E}. Arguments fl_value_fields {E}.

Record FunctionCallOf (E : Type) := mkFunctionCall { fc_identifier : string; fc_arguments : list E }.
Arguments mkFunctionCall {E}. Arguments fc_identifier {E}. Arguments fc_arguments {E}.

Record ForeignFunctionCallOf (E : Type) := mkForeignFunctionCall {
  ffc_module : string;
  ffc_identifier : string;
  ffc_arguments : list E
}.
Arguments mkForeignFunctionCall {E}. Arguments ffc_module {E}. Arguments ffc_identifier {E}. Arguments ffc_arguments {E}.

Record NamedStructOf (E : Type) := mkNamedStruct { ns_identifier : string; ns_fields : list (string * E) }.
Arguments mkNamedStruct {E}. Arguments ns_identifier {E}. Arguments ns_fields {E}.

Record EnumReference := mkEnumReference { er_identifier : string; er_value : string }.
#[export] Instance EnumReference_eq_dec : EqDecision EnumReference.
Proof. solve_decision. Defined.

Inductive FactCountType : Type := UpTo | AtLeast | AtMost | Exactly.
#[export] Instance FactCountType_eq_dec : EqDecision FactCountType.
Proof. solve_decision. Defined.

Inductive InternalFunctionOf (E : Type) : Type :=
| IFQuery (f : FactLiteralOf E)
| IFExists (f : FactLiteralOf E)
| IFFactCount (cmp_type : FactCountType) (limit : Z) (f : FactLiteralOf E)
| IFIf (c t f : E)
| IFSerialize (e : E)
| IFDeserialize (e : E).
Arguments IFQuery {E}. Arguments IFExists {E}. Arguments IFFactCount {E}. Arguments IFIf {E}.
Arguments IFSerialize {E}. Arguments IFDeserialize {E}.

Inductive Expression : Type :=
| EInt (n : Z)
| EString (s : string)
| EBool (b : bool)
| EOptional (o : option Expression)
| ENamedStruct (s : NamedStructOf Expression)
| EInternalFunction (f : InternalFunctionOf Expression)
| EFunctionCall (f : FunctionCallOf Expression)
| EForeignFunctionCall (f : ForeignFunctionCallOf Expression)
| EIdentifier (i : string)
| EEnumReference (e : EnumReference)
| EAdd (a b : Expression)
| ESubtract (a b : Expression)
| EAnd (a b : Expression)
| EOr (a b : Expression)
| EDot (e : Expression) (field : string)
| EEqual (a b : Expression)
| ENotEqual (a b : Expression)
| EGreaterThan (a b : Expression)
| ELessThan (a b : Expression)
| EGreaterThanOrEqual (a b : Expression)
| ELessThanOrEqual (a b : Expression)
| ENegative (e : Expression)
| ENot (e : Expression)
| EUnwrap (e : Expression)
| ECheckUnwrap (e : Expression)
| EIs (e : Expression) (is_some : bool).

Definition FactField := FactFieldOf Expression.
Definition FactLiteral := FactLiteralOf Expression.
Definition FunctionCall := FunctionCallOf Expression.
Definition ForeignFunctionCall := ForeignFunctionCallOf Expression.
Definition NamedStruct := NamedStructOf Expression.
Definition InternalFunction := InternalFunctionOf Expression.

(** * Statements *)
Record LetStatement := mkLetStatement { let_identifier : string; let_expression : Expression }.
Record CheckStatement := mkCheckStatement { check_expression : Expression }.
Record ReturnStatement := mkReturnStatement { return_expression : Expression }.
Record CreateStatement := mkCreateStatement { create_fact : FactLiteral }.
Record UpdateStatement := mkUpdateStatement { update_fact : FactLiteral; update_to : list (string * FactField) }.
Record DeleteStatement := mkDeleteStatement { delete_fact : FactLiteral }.
Inductive MatchPattern : Type :=
| PatDefault
| PatValues (values : list Expression).

Record MatchArmOf (S : Type) := mkMatchArm { ma_pattern : MatchPattern; ma_statements : list (AstNode S) }.
Arguments mkMatchArm {S}. Arguments ma_pattern {S}. Arguments ma_statements {S}.
Record MatchStatementOf (S : Type) := mkMatchStatement { ms_expression : Expression; ms_arms : list (MatchArmOf S) }.
Arguments mkMatchStatement {S}. Arguments ms_expression {S}. Arguments ms_arms {S}.
Record IfStatementOf (S : Type) := mkIfStatement {
  if_branches : list (Expression * list (AstNode S));
  if_fallback : option (list (AstNode S))
}.
Arguments mkIfStatement {S}. Arguments if_branches {S}. Arguments if_fallback {S}.
Record MapStatementOf (S : Type) := mkMapStatement {
  map_fact : FactLiteral;
  map_identifier : string;
  map_statements : list (AstNode S)
}.
Arguments mkMapStatement {S}. Arguments map_fact {S}. Arguments map_identifier {S}. Arguments map_statements {S}.

Inductive Statement : Type :=
| SLet (s : LetStatement)
| SCheck (s : CheckStatement)
| SMatch (s : MatchStatementOf Statement)
| SIf (s : IfStatementOf Statement)
| SFinish (s : list (AstNode Statement))
| SMap (s : MapStatementOf Statement)
| SReturn (s : ReturnStatement)
| SActionCall (f : FunctionCall)
| SPublish (e : Expression)
| SCreate (s : CreateStatement)
| SUpdate (s : UpdateStatement)
| SDelete (s : DeleteStatement)
| SEmit (e : Expression)
| SFunctionCall (f : FunctionCall)
| SDebugAssert (e : Expression).

Definition MatchArm := MatchArmOf Statement.
Definition MatchStatement := MatchStatementOf Statement.
Definition IfStatement := IfStatementOf Statement.
Definition MapStatement := MapStatementOf Statement.
Definition Statements : Type := list (AstNode Statement).

(** * Definitions and policies *)
Record EffectFieldDefinition := mkEffectFieldDefinition {
  efd_identifier : string;
  efd_field_type : VType;
  efd_dynamic : bool
}.
(** [From<&EffectFieldDefinition> for FieldDefinition]. *)
Definition field_of_effect_field (f : EffectFieldDefinition) : FieldDefinition :=
  mkFieldDefinition (efd_identifier f) (efd_field_type f).

Record EnumDefinition := mkEnumDefinition { enum_identifier : string; enum_values_of : list string }.
Record EffectDefinition := mkEffectDefinition { effect_identifier : string; effect_fields : list EffectFieldDefinition }.
Record StructDefinition := mkStructDefinition { struct_identifier : string; struct_fields : list FieldDefinition }.
Record ActionDefinition := mkActionDefinition {
  action_identifier : string;
  action_arguments : list FieldDefinition;
  action_statements : Statements
}.
Record CommandDefinition := mkCommandDefinition {
  cd_attributes : list (string * Expression);
  cd_identifier : string;
  cd_fields : list FieldDefinition;
  cd_seal : Statements;
  cd_open : Statements;
  cd_policy : Statements;
  cd_recall : Statements
}.
Record FunctionDefinition := mkFunctionDefinition {
  fn_identifier : string;
  fn_arguments : list FieldDefinition;
  fn_return_type : VType;
  fn_statements : Statements
}.
Record FinishFunctionDefinition := mkFinishFunctionDefinition {
  ff_identifier : string;
  ff_arguments : list FieldDefinition;
  ff_statements : Statements
}.
Record GlobalLetStatement := mkGlobalLetStatement { gl_identifier : string; gl_expression : Expression }.

Record Policy := mkPolicy {
  pl_version : PolicyVersion;
  pl_ffi_imports : list string;
  pl_facts : list (AstNode FactDefinition);
  pl_actions : list (AstNode ActionDefinition);
  pl_effects : list (AstNode EffectDefinition);
  pl_structs : list (AstNode StructDefinition);
  pl_enums : list (AstNode EnumDefinition);
  pl_commands : list (AstNode CommandDefinition);
  pl_functions : list (AstNode FunctionDefinition);
  pl_finish_functions : list (AstNode FinishFunctionDefinition);
  pl_global_lets : list (AstNode GlobalLetStatement);
  pl_text : list u8;
  pl_ranges : list (nat * nat)
}.
(** [Policy::new]. *)
Definition policy_new (version : PolicyVersion) (text : list u8) : Policy :=
  mkPolicy version [] [] [] [] [] [] [] [] [] [] text [].

(** * Derived equality

    Equality of containers, given the equality of what they hold. *)
Section ContainerEq.
Context {A : Type} (eqb : A → A → bool).
Definition spec_on (x : A) : Prop := ∀ y, eqb x y = true ↔ x = y.
Fixpoint list_eqb (l l' : list A) : bool :=
  match l, l' with
  | [], [] => true
  | x :: t, x' :: t' => eqb x x' && list_eqb t t'
  | _, _ => false
  end.
Definition option_eqb (o o' : option A) : bool :=
  match o, o' with
  | Some x, Some x' => eqb x x'
  | None, None => true
  | _, _ => false
  end.
Definition named_eqb (p p' : string * A) : bool := bool_decide (p.1 = p'.1) && eqb p.2 p'.2.
Definition node_eqb (n n' : AstNode A) : bool := eqb (inner n) (inner n') && (locator n =? locator n').
Definition field_eqb (f f' : FactFieldOf A) : bool :=
  match f, f' with
  | FExpression e, FExpression e' => eqb e e'
  | FBind, FBind => true
  | _, _ => false
  end.

Lemma list_eqb_spec l : (∀ x, x ∈ l → spec_on x) → ∀ l', list_eqb l l' = true ↔ l = l'.
Proof.
  induction l as [|x l IH]; intros Hl [|x' l']; simpl; [done..|].
  rewrite andb_true_iff, (Hl x ltac:(set_solver) x'), IH; [naive_solver|set_solver].
Qed.
Lemma option_eqb_spec o : (∀ x, o = Some x → spec_on x) → ∀ o', option_eqb o o' = true ↔ o = o'.
Proof. destruct o as [x|]; intros Ho [x'|]; simpl; [rewrite (Ho x eq_refl x')|..]; naive_solver. Qed.
Lemma named_eqb_spec p : spec_on p.2 → ∀ p', named_eqb p p' = true ↔ p = p'.
Proof. destruct p as [n x]; intros Hp [n' x']. unfold named_eqb. simpl. rewrite andb_true_iff, bool_decide_eq_true, (Hp x'). naive_solver. Qed.
Lemma node_eqb_spec n : spec_on (inner n) → ∀ n', node_eqb n n' = true ↔ n = n'.
Proof. destruct n as [x i]; intros Hn [x' i']. unfold node_eqb. simpl. rewrite andb_true_iff, Nat.eqb_eq, (Hn x'). naive_solver. Qed.
Lemma field_eqb_spec f : (∀ e, f = FExpression e → spec_on e) → ∀ f', field_eqb f f' = true ↔ f = f'.
Proof. destruct f as [e|]; intros Hf [e'|]; simpl; [rewrite (Hf e eq_refl e')|..]; naive_solver. Qed.
End ContainerEq.

(** ** Expressions *)
Fixpoint expr_eqb (x y : Expression) : bool :=
  let fact_eqb f f' :=
    bool_decide (fl_identifier f = fl_identifier f')
    && list_eqb (named_eqb (field_eqb expr_eqb)) (fl_key_fields f) (fl_key_fields f')
    && option_eqb (list_eqb (named_eqb (field_eqb expr_eqb))) (fl_value_fields f) (fl_value_fields f') in
  match x, y with
  | EInt n, EInt n' => (n =? n')%Z
  | EString s, EString s' => bool_decide (s = s')
  | EBool b, EBool b' => Bool.eqb b b'
  | EOptional o, EOptional o' => option_eqb expr_eqb o o'
  | ENamedStruct s, ENamedStruct s' =>
      bool_decide (ns_identifier s = ns_identifier s') && list_eqb (named_eqb expr_eqb) (ns_fields s) (ns_fields s')
  | EInternalFunction f, EInternalFunction f' =>
      match f, f' with
      | IFQuery f, IFQuery f' | IFExists f, IFExists f' => fact_eqb f f'
      | IFFactCount c n f, IFFactCount c' n' f' => bool_decide (c = c') && (n =? n')%Z && fact_eqb f f'
      | IFIf c t f, IFIf c' t' f' => expr_eqb c c' && expr_eqb t t' && expr_eqb f f'
      | IFSerialize e, IFSerialize e' | IFDeserialize e, IFDeserialize e' => expr_eqb e e'
      | _, _ => false
      end
  | EFunctionCall f, EFunctionCall f' =>
      bool_decide (fc_identifier f = fc_identifier f') && list_eqb expr_eqb (fc_arguments f) (fc_arguments f')
  | EForeignFunctionCall f, EForeignFunctionCall f' =>
      bool_decide (ffc_module f = ffc_module f') && bool_decide (ffc_identifier f = ffc_identifier f')
      && list_eqb expr_eqb (ffc_arguments f) (ffc_arguments f')
  | EIdentifier i, EIdentifier i' => bool_decide (i = i')
  | EEnumReference e, EEnumReference e' => bool_decide (e = e')
  | EDot e s, EDot e' s' => expr_eqb e e' && bool_decide (s = s')
  | EIs e b, EIs e' b' => expr_eqb e e' && Bool.eqb b b'
  | EAdd a b, EAdd a' b' | ESubtract a b, ESubtract a' b' | EAnd a b, EAnd a' b' | EOr a b, EOr a' b'
  | EEqual a b, EEqual a' b' | ENotEqual a b, ENotEqual a' b' | EGreaterThan a b, EGreaterThan a' b'
  | ELessThan a b, ELessThan a' b' | EGreaterThanOrEqual a b, EGreaterThanOrEqual a' b'
  | ELessThanOrEqual a b, ELessThanOrEqual a' b' => expr_eqb a a' && expr_eqb b b'
  | ENegative e, ENegative e' | ENot e, ENot e' | EUnwrap e, EUnwrap e' | ECheckUnwrap e, ECheckUnwrap e' => expr_eqb e e'
  | _, _ => false
  end.

(** The expressions directly inside an expression, and induction over them. *)
Definition field_exprs {E} (l : list (string * FactFieldOf E)) : list E :=
  flat_map (λ p, match p.2 with FExpression e => [e] | FBind => [] end) l.
Definition fact_exprs {E} (f : FactLiteralOf E) : list E :=
  field_exprs (fl_key_fields f) ++ match fl_value_fields f with Some l => field_exprs l | None => [] end.
Definition subexprs (e : Expression) : list Expression :=
  match e with
  | EInt _ | EString _ | EBool _ | EIdentifier _ | EEnumReference _ => []
  | EOptional o => match o with Some e => [e] | None => [] end
  | ENamedStruct s => map snd (ns_fields s)
  | EInternalFunction f =>
      match f with
      | IFQuery f | IFExists f | IFFactCount _ _ f => fact_exprs f
      | IFIf c t f => [c; t; f]
      | IFSerialize e | IFDeserialize e => [e]
      end
  | EFunctionCall f => fc_arguments f
  | EForeignFunctionCall f => ffc_arguments f
  | EDot e _ | EIs e _ | ENegative e | ENot e | EUnwrap e | ECheckUnwrap e => [e]
  | EAdd a b | ESubtract a b | EAnd a b | EOr a b | EEqual a b | ENotEqual a b | EGreaterThan a b | ELessThan a b
  | EGreaterThanOrEqual a b | ELessThanOrEqual a b => [a; b]
  end.

Section ExpressionInd.
Variable P : Expression → Prop.
Hypothesis step : ∀ e, Forall P (subexprs e) → P e.
Fixpoint Expression_nested_ind (e : Expression) : P e :=
  let fields := fix go (l : list (string * FactFieldOf Expression)) : Forall P (field_exprs l) :=
    match l with
    | [] => Forall_nil_2 _
    | (n, f) :: l' =>
        match f as f return Forall P (field_exprs ((n, f) :: l')) with
        | FExpression e => Forall_cons_2 _ e _ (Expression_nested_ind e) (go l')
        | FBind => go l'
        end
    end in
  let exprs := fix go (l : list Expression) : Forall P l :=
    match l with [] => Forall_nil_2 _ | e :: l' => Forall_cons_2 _ e l' (Expression_nested_ind e) (go l') end in
  let one e := Forall_cons_2 P e [] (Expression_nested_ind e) (Forall_nil_2 _) in
  let two a b := Forall_cons_2 P a [b] (Expression_nested_ind a) (one b) in
  let fact f : Forall P (fact_exprs f) :=
    match f with
    | mkFactLiteral n ks vs =>
        Forall_app_2 P (field_exprs ks) _ (fields ks)
          (match vs as vs return Forall P (match vs with Some l => field_exprs l | None => [] end) with
           | Some l => fields l
           | None => Forall_nil_2 _
           end)
    end in
  step e
    (match e as e return Forall P (subexprs e) with
     | EInt _ | EString _ | EBool _ | EIdentifier _ | EEnumReference _ => Forall_nil_2 _
     | EOptional o => match o with Some e => one e | None => Forall_nil_2 _ end
     | ENamedStruct (mkNamedStruct _ fs) =>
         (fix go (l : list (string * Expression)) : Forall P (map snd l) :=
            match l with [] => Forall_nil_2 _ | (n, e) :: l' => Forall_cons_2 _ e _ (Expression_nested_ind e) (go l') end) fs
     | EInternalFunction f =>
         match f as f return Forall P (subexprs (EInternalFunction f)) with
         | IFQuery f | IFExists f | IFFactCount _ _ f => fact f
         | IFIf c t f => Forall_cons_2 P c _ (Expression_nested_ind c) (two t f)
         | IFSerialize e | IFDeserialize e => one e
         end
     | EFunctionCall (mkFunctionCall _ l) => exprs l
     | EForeignFunctionCall (mkForeignFunctionCall _ _ l) => exprs l
     | EDot e _ | EIs e _ | ENegative e | ENot e | EUnwrap e | ECheckUnwrap e => one e
     | EAdd a b | ESubtract a b | EAnd a b | EOr a b | EEqual a b | ENotEqual a b | EGreaterThan a b | ELessThan a b
     | EGreaterThanOrEqual a b | ELessThanOrEqual a b => two a b
     end).
End ExpressionInd.

Lemma fields_eqb_spec l :
  Forall (spec_on expr_eqb) (field_exprs l) → ∀ l', list_eqb (named_eqb (field_eqb expr_eqb)) l l' = true ↔ l = l'.
Proof.
  rewrite Forall_forall. intros Hl. apply list_eqb_spec. intros [n f] Hp y. apply named_eqb_spec. intros f'. simpl.
  apply field_eqb_spec. intros e ->. apply Hl. unfold field_exprs.
  apply list_elem_of_In, in_flat_map. exists (n, FExpression e). split; [by apply list_elem_of_In|by left].
Qed.
Lemma fact_eqb_spec (f f' : FactLiteral) : Forall (spec_on expr_eqb) (fact_exprs f) →
  bool_decide (fl_identifier f = fl_identifier f')
  && list_eqb (named_eqb (field_eqb expr_eqb)) (fl_key_fields f) (fl_key_fields f')
  && option_eqb (list_eqb (named_eqb (field_eqb expr_eqb))) (fl_value_fields f) (fl_value_fields f') = true ↔ f = f'.
Proof.
  destruct f as [n ks vs], f' as [n' ks' vs']. intros [Hk Hv]%Forall_app. simpl in *.
  rewrite !andb_true_iff, bool_decide_eq_true, fields_eqb_spec by done.
  rewrite option_eqb_spec; [naive_solver|]. intros l -> y. by apply fields_eqb_spec.
Qed.
Lemma exprs_eqb_spec l l' : Forall (spec_on expr_eqb) l → list_eqb expr_eqb l l' = true ↔ l = l'.
Proof. rewrite Forall_forall. intros Hl. by apply list_eqb_spec. Qed.

(** Close an equivalence between equal parts and equal wholes. *)
Ltac solve_parts :=
  rewrite ?andb_true_iff, ?bool_decide_eq_true, ?Z.eqb_eq, ?Bool.eqb_true_iff;
  split; [intros; destruct_and?; congruence|intros [=]; subst; split_and?; done].
Lemma expr_eqb_eq e : ∀ e', expr_eqb e e' = true ↔ e = e'.
Proof.
  change (spec_on expr_eqb e). induction e as [e IH] using Expression_nested_ind.
  intros e'. destruct e; destruct e'; try (split; discriminate); cbn [subexprs] in IH; cbn [expr_eqb]; rewrite ?andb_true_iff;
    try (apply Forall_cons in IH as [IHa IH]; rewrite (IHa _));
    try (apply Forall_cons in IH as [IHb IH]; rewrite (IHb _)); try solve_parts.
  - rewrite option_eqb_spec; [solve_parts|]. intros x ->. by apply Forall_cons in IH as [??].
  - destruct s as [n fs], s0 as [n' fs']. simpl in *. rewrite list_eqb_spec; [solve_parts|].
    intros [k x] Hx y. apply named_eqb_spec. rewrite Forall_forall in IH. apply IH. apply list_elem_of_fmap. by exists (k, x).
  - destruct f, f0; try (split; discriminate); cbn [expr_eqb subexprs] in *;
      rewrite ?(andb_true_iff (_ && (_ =? _)%Z)), ?fact_eqb_spec by done; try solve_parts; rewrite ?andb_true_iff.
    + rewrite !Forall_cons in IH. destruct IH as (IH1 & IH2 & IH3 & _). rewrite (IH1 _), (IH2 _), (IH3 _). solve_parts.
    + apply Forall_cons in IH as [IH1 _]. rewrite (IH1 _). solve_parts.
    + apply Forall_cons in IH as [IH1 _]. rewrite (IH1 _). solve_parts.
  - destruct f as [n l], f0 as [n' l']. simpl in *. rewrite exprs_eqb_spec by done. solve_parts.
  - destruct f as [m n l], f0 as [m' n' l']. simpl in *. rewrite exprs_eqb_spec by done. solve_parts.
Qed.
#[export] Instance Expression_eq_dec : EqDecision Expression.
Proof.
  intros x y. destruct (expr_eqb x y) eqn:E; [left|right].
  - by apply expr_eqb_eq.
  - intros ->. by rewrite (proj2 (expr_eqb_eq y y)) in E.
Defined.
#[export] Instance FactField_eq_dec : EqDecision FactField.
Proof. unfold FactField. solve_decision. Defined.
#[export] Instance FactLiteral_eq_dec : EqDecision FactLiteral.
Proof. unfold FactLiteral. solve_decision. Defined.
#[export] Instance FunctionCall_eq_dec : EqDecision FunctionCall.
Proof. unfold FunctionCall. solve_decision. Defined.
#[export] Instance LetStatement_eq_dec : EqDecision LetStatement.
Proof. solve_decision. Defined.
#[export] Instance CheckStatement_eq_dec : EqDecision CheckStatement.
Proof. solve_decision. Defined.
#[export] Instance ReturnStatement_eq_dec : EqDecision ReturnStatement.
Proof. solve_decision. Defined.
#[export] Instance CreateStatement_eq_dec : EqDecision CreateStatement.
Proof. solve_decision. Defined.
#[export] Instance UpdateStatement_eq_dec : EqDecision UpdateStatement.
Proof. solve_decision. Defined.
#[export] Instance DeleteStatement_eq_dec : EqDecision DeleteStatement.
Proof. solve_decision. Defined.
#[export] Instance MatchPattern_eq_dec : EqDecision MatchPattern.
Proof. solve_decision. Defined.

(** ** Statements *)
Fixpoint stmt_eqb (x y : Statement) : bool :=
  let block_eqb := list_eqb (node_eqb stmt_eqb) in
  match x, y with
  | SLet s, SLet s' => bool_decide (s = s')
  | SCheck s, SCheck s' => bool_decide (s = s')
  | SMatch s, SMatch s' =>
      bool_decide (ms_expression s = ms_expression s')
      && list_eqb (λ a a', bool_decide (ma_pattern a = ma_pattern a') && block_eqb (ma_statements a) (ma_statements a'))
           (ms_arms s) (ms_arms s')
  | SIf s, SIf s' =>
      list_eqb (λ b b', bool_decide (b.1 = b'.1) && block_eqb b.2 b'.2) (if_branches s) (if_branches s')
      && option_eqb block_eqb (if_fallback s) (if_fallback s')
  | SFinish s, SFinish s' => block_eqb s s'
  | SMap s, SMap s' =>
      bool_decide (map_fact s = map_fact s') && bool_decide (map_identifier s = map_identifier s')
      && block_eqb (map_statements s) (map_statements s')
  | SReturn s, SReturn s' => bool_decide (s = s')
  | SActionCall f, SActionCall f' | SFunctionCall f, SFunctionCall f' => bool_decide (f = f')
  | SPublish e, SPublish e' | SEmit e, SEmit e' | SDebugAssert e, SDebugAssert e' => bool_decide (e = e')
  | SCreate s, SCreate s' => bool_decide (s = s')
  | SUpdate s, SUpdate s' => bool_decide (s = s')
  | SDelete s, SDelete s' => bool_decide (s = s')
  | _, _ => false
  end.
Definition arm_eqb (a b : MatchArm) : bool :=
  bool_decide (ma_pattern a = ma_pattern b) && list_eqb (node_eqb stmt_eqb) (ma_statements a) (ma_statements b).

(** The statements directly inside a statement, and induction over them. *)
Definition block_statements {S} (l : list (AstNode S)) : list S := map inner l.
Definition substatements (s : Statement) : list Statement :=
  match s with
  | SMatch s => flat_map (λ a, block_statements (ma_statements a)) (ms_arms s)
  | SIf s => flat_map (λ b, block_statements b.2) (if_branches s)
             ++ match if_fallback s with Some l => block_statements l | None => [] end
  | SFinish s => block_statements s
  | SMap s => block_statements (map_statements s)
  | _ => []
  end.

Section StatementInd.
Variable P : Statement → Prop.
Hypothesis step : ∀ s, Forall P (substatements s) → P s.
Fixpoint Statement_nested_ind (s : Statement) : P s :=
  let block := fix go (l : list (AstNode Statement)) : Forall P (block_statements l) :=
    match l with
    | [] => Forall_nil_2 _
    | mkAstNode s i :: l' => Forall_cons_2 P s _ (Statement_nested_ind s) (go l')
    end in
  step s
    (match s as s return Forall P (substatements s) with
     | SMatch (mkMatchStatement _ arms) =>
         (fix go (l : list (MatchArmOf Statement)) : Forall P (flat_map (λ a, block_statements (ma_statements a)) l) :=
            match l with
            | [] => Forall_nil_2 _
            | mkMatchArm _ b :: l' => Forall_app_2 P (block_statements b) _ (block b) (go l')
            end) arms
     | SIf (mkIfStatement branches fallback) =>
         Forall_app_2 P _ _
           ((fix go (l : list (Expression * list (AstNode Statement))) : Forall P (flat_map (λ b, block_statements b.2) l) :=
              match l with
              | [] => Forall_nil_2 _
              | (_, b) :: l' => Forall_app_2 P (block_statements b) _ (block b) (go l')
              end) branches)
           (match fallback as f return Forall P (match f with Some l => block_statements l | None => [] end) with
            | Some l => block l
            | None => Forall_nil_2 _
            end)
     | SFinish s => block s
     | SMap (mkMapStatement _ _ b) => block b
     | _ => Forall_nil_2 _
     end).
End StatementInd.
