(* ===== verification/CompileTypes.v ===== *)
(** What the policy compiler works on ([aranya-policy-compiler/src/compile]):
    its errors ([error.rs]), its target ([target.rs]), the stack of identifier
    types and the types of expressions ([types.rs]), and the state of the
    compiler ([compile.rs]). *)
From stdpp Require Import pretty.
From S2P Require Import Prelude Collections PolicyData PolicyModule Ast.
Local Open Scope string_scope.
Local Open Scope list_scope.
Local Open Scope nat_scope.

(** * Schemas of foreign functions ([aranya-policy-module/src/ffi.rs]) *)
Inductive FfiType : Type :=
| FTString
| FTBytes
| FTInt
| FTBool
| FTId
| FTStruct (name : string)
| FTOptional (t : FfiType).
Fixpoint vtype_of_ffi (t : FfiType) : VType :=
  match t with
  | FTString => TString
  | FTBytes => TBytes
  | FTInt => TInt
  | FTBool => TBool
  | FTId => TId
  | FTStruct s => TStruct s
  | FTOptional t => TOptional (vtype_of_ffi t)
  end.
Record FfiArg := mkFfiArg { fa_name : string; fa_vtype : FfiType }.
Record FfiFunc := mkFfiFunc { ffn_name : string; ffn_args : list FfiArg; ffn_return_type : FfiType }.
Record FfiStruct := mkFfiStruct { fs_name : string; fs_fields : list FfiArg }.
Record ModuleSchema := mkModuleSchema {
  sch_name : string;
  sch_functions : list FfiFunc;
  sch_structs : list FfiStruct
}.

(** * Errors ([error.rs]) *)
Inductive StatementContext : Type :=
| SCAction (a : ActionDefinition)
| SCCommandPolicy (c : CommandDefinition)
| SCCommandRecall (c : CommandDefinition)
| SCPureFunction (f : FunctionDefinition)
| SCFinish.

Inductive CallColor : Type := ColorPure | ColorFinish.
Inductive CompileErrorType : Type :=
| CEInvalidStatement (c : StatementContext)
| CEInvalidExpression (e : Expression)
| CEInvalidType (s : string)
| CEInvalidCallColor (c : CallColor)
| CEBadTarget (s : string)
| CEBadArgument (s : string)
| CENotDefined (s : string)
| CEAlreadyDefined (s : string)
| CEReservedIdentifier (s : string)
| CEMissing (s : string)
| CEInvalidFactLiteral (s : string)
| CENoReturn
| CEValidation
| CEBug (msg : string)
| CEUnknown (s : string).

Record ErrorSource := mkErrorSource { es_linecol : nat * nat; es_text : list u8 }.
Record CompileError := mkCompileError { ce_err_type : CompileErrorType; ce_source : option ErrorSource }.

(** [CompileError::new], also [From<CompileErrorType>]. *)
Definition compile_error_new (t : CompileErrorType) : CompileError := mkCompileError t None.
(** Looking up the position can panic in [linecol]. *)
Definition compile_error_from_locator {E} (t : CompileErrorType) (loc : nat) (codemap : option CodeMap) : outcome E CompileError :=
  match codemap with
  | None => Ok (mkCompileError t None)
  | Some cm =>
      match span_from_locator cm loc with
      | Ok span =>
          linecol ← start_linecol span;
          text ← span_as_str span;
          Ok (mkCompileError t (Some (mkErrorSource linecol text)))
      | Err _ => Ok (mkCompileError t None)
      | Panic w => Panic w
      end
  end.

(** * The target ([target.rs]) *)
Record CompileTarget := mkCompileTarget {
  ct_progmem : list Instruction;
  ct_labels : BTreeMap Label nat;
  ct_action_defs : BTreeMap string (list FieldDefinition);
  ct_command_defs : BTreeMap string (BTreeMap string VType);
  ct_fact_defs : BTreeMap string FactDefinition;
  ct_struct_defs : BTreeMap string (list FieldDefinition);
  ct_command_attributes : BTreeMap string (BTreeMap string Value);
  ct_codemap : option CodeMap;
  ct_globals : BTreeMap string Value
}.
Definition compile_target_new (codemap : CodeMap) : CompileTarget :=
  mkCompileTarget [] [] [] [] [] [] [] (Some codemap) [].
Definition target_into_module (t : CompileTarget) : Module_ :=
  mkModule (V0 (mkModuleV0 (ct_progmem t) (ct_labels t) (ct_action_defs t) (ct_command_defs t) (ct_fact_defs t)
                  (ct_struct_defs t) (ct_command_attributes t) (ct_codemap t) (ct_globals t))).

(** * Identifier types ([types.rs]) *)
Inductive Typeish : Type := TType (t : VType) | Indeterminate.
Definition typeish_display (t : Typeish) : string :=
  match t with TType t => vtype_display t | Indeterminate => "indeterminate" end.
Definition map_vtype (f : VType → VType) (t : Typeish) : Typeish :=
  match t with TType t => TType (f t) | x => x end.
(** [TypeError] is its message. *)
Definition TypeError : Type := string.
Definition map_result (f : VType → outcome TypeError Typeish) (t : Typeish) : outcome TypeError Typeish :=
  match t with TType t => f t | x => Ok x end.
Definition is_equal (x y : Typeish) : bool :=
  match x, y with TType a, TType b => bool_decide (a = b) | _, _ => false end.
Definition is_indeterminate (x : Typeish) : bool := match x with Indeterminate => true | _ => false end.
Definition is_maybe (x : Typeish) (t : VType) : bool := match x with TType a => bool_decide (a = t) | _ => true end.

(** The maps of the stack are only looked up and extended, so their order
    does not matter. *)
Record IdentifierTypeStack := mkTypeStack {
  it_globals : BTreeMap string Typeish;
  it_locals : list (list (BTreeMap string Typeish))
}.
Definition type_stack_new : IdentifierTypeStack := mkTypeStack [] [[[]]].

Definition it_add_global (name : string) (value : Typeish) (s : IdentifierTypeStack) : outcome CompileErrorType IdentifierTypeStack :=
  match bt_get name (it_globals s) with
  | Some _ => Err (CEAlreadyDefined name)
  | None => Ok (mkTypeStack (bt_insert name value (it_globals s)) (it_locals s))
  end.

Definition it_add (ident : string) (value : Typeish) (s : IdentifierTypeStack) : outcome CompileErrorType IdentifierTypeStack :=
  if bt_contains ident (it_globals s) then Err (CEAlreadyDefined ident) else
  match vec_pop (it_locals s) with
  | None => Panic "no function scope"
  | Some (locals, functions) =>
      match vec_pop locals with
      | None => Panic "no block scope"
      | Some (block, blocks) =>
          if existsb (bt_contains ident) blocks then Err (CEAlreadyDefined ident) else
          match bt_get ident block, value with
          | Some (TType ty1), TType ty2 =>
              if bool_decide (ty1 = ty2) then Ok s
              else Err (CEInvalidType ("Definitions of `" +:+ ident +:+ "` do not have the same type: "
                                       +:+ vtype_display ty1 +:+ " != " +:+ vtype_display ty2))
          | Some _, _ => Ok s
          | None, _ => Ok (mkTypeStack (it_globals s) (functions ++ [blocks ++ [bt_insert ident value block]]))
          end
      end
  end.

(** The loop of [get] over the blocks, innermost first. *)
Fixpoint it_get_in_blocks (name : string) (blocks : list (BTreeMap string Typeish)) : option Typeish :=
  match blocks with
  | [] => None
  | b :: blocks' => match bt_get name b with Some v => Some v | None => it_get_in_blocks name blocks' end
  end.
Definition it_get (name : string) (s : IdentifierTypeStack) : outcome CompileErrorType Typeish :=
  match match last (it_locals s) with Some locals => it_get_in_blocks name (reverse locals) | None => None end with
  | Some v => Ok v
  | None => match bt_get name (it_globals s) with
            | Some v => Ok v
            | None => Err (CENotDefined name)
            end
  end.

Definition it_enter_function (s : IdentifierTypeStack) : IdentifierTypeStack :=
  mkTypeStack (it_globals s) (vec_push [[]] (it_locals s)).
Definition it_exit_function {E} (s : IdentifierTypeStack) : outcome E IdentifierTypeStack :=
  match vec_pop (it_locals s) with
  | Some (_, rest) => Ok (mkTypeStack (it_globals s) rest)
  | None => Panic "no function scope"
  end.
Definition it_enter_block {E} (s : IdentifierTypeStack) : outcome E IdentifierTypeStack :=
  match vec_pop (it_locals s) with
  | Some (locals, rest) => Ok (mkTypeStack (it_globals s) (rest ++ [vec_push [] locals]))
  | None => Panic "no function scope"
  end.
Definition it_exit_block {E} (s : IdentifierTypeStack) : outcome E IdentifierTypeStack :=
  match vec_pop (it_locals s) with
  | Some (locals, rest) =>
      match vec_pop locals with
      | Some (_, blocks) => Ok (mkTypeStack (it_globals s) (rest ++ [blocks]))
      | None => Panic "no block scope"
      end
  | None => Panic "no function scope"
  end.

(** * The state of the compiler ([compile.rs]) *)
Inductive FunctionColor : Type := FCPure (t : VType) | FCFinish.
Record FunctionSignature := mkFunctionSignature { sig_args : list VType; sig_color : FunctionColor }.

(** What never changes while compiling. *)
Record CompileEnv := mkCompileEnv {
  ce_policy : Policy;
  ce_ffi_modules : list ModuleSchema;
  ce_is_debug : bool;
  ce_stub_ffi : bool
}.
Record CompileState := mkCompileState {
  cs_m : CompileTarget;
  cs_wp : nat;
  cs_c : nat;
  cs_function_signatures : BTreeMap string FunctionSignature;
  cs_last_locator : nat;
  cs_statement_context : list StatementContext;
  cs_identifier_types : IdentifierTypeStack;
  cs_enum_values : BTreeMap string (list string)
}.

(** * Types of expressions ([types.rs]) *)
Section Types.
Variable env : CompileEnv.
Variable cs : CompileState.

Definition struct_type (s : NamedStruct) : outcome TypeError Typeish :=
  if bt_contains (ns_identifier s) (ct_struct_defs (cs_m cs)) then Ok (TType (TStruct (ns_identifier s)))
  else Err ("Struct `" +:+ ns_identifier s +:+ "` not defined").
Definition query_fact_type (f : FactLiteral) : outcome TypeError Typeish :=
  if bt_contains (fl_identifier f) (ct_fact_defs (cs_m cs)) then Ok (TType (TStruct (fl_identifier f)))
  else Err ("Fact `" +:+ fl_identifier f +:+ "` not defined").

(** [unify_pair], on the types of the two expressions. *)
Definition unify_types (left_type right_type : Typeish) : outcome TypeError Typeish :=
  if is_equal left_type right_type then Ok left_type
  else if is_indeterminate left_type || is_indeterminate right_type then Ok Indeterminate
  else Err ("types do not match: " +:+ typeish_display left_type +:+ " and " +:+ typeish_display right_type).

(** The member of a struct type. *)
Definition dot_type (field : string) (t : VType) : outcome TypeError Typeish :=
  match t with
  | TStruct name =>
      match bt_get name (ct_struct_defs (cs_m cs)) with
      | None => Err ("Struct `" +:+ name +:+ "` not defined")
      | Some struct_def =>
          match List.find (λ f, bool_decide (fd_identifier f = field)) struct_def with
          | Some field_def => Ok (TType (fd_field_type field_def))
          | None => Err ("Struct `" +:+ name +:+ "` has no member `" +:+ field +:+ "`")
          end
      end
  | _ => Err "Expression left of `.` is not a struct"
  end.
Definition call_type (identifier : string) : outcome TypeError Typeish :=
  match bt_get identifier (cs_function_signatures cs) with
  | Some func_def =>
      match sig_color func_def with
      | FCPure t => Ok (TType t)
      | FCFinish => Err "Finish functions are not allowed outside of finish blocks or finish functions"
      end
  | None => Err ("Function `" +:+ identifier +:+ "` not defined")
  end.
Definition foreign_call_type (module identifier : string) : outcome TypeError Typeish :=
  if ce_stub_ffi env then Ok Indeterminate else
  match List.find (λ m, bool_decide (sch_name m = module)) (ce_ffi_modules env) with
  | None => Err ("Module `" +:+ module +:+ "` not found")
  | Some m =>
      match List.find (λ f, bool_decide (ffn_name f = identifier)) (sch_functions m) with
      | Some ffi_def => Ok (TType (vtype_of_ffi (ffn_return_type ffi_def)))
      | None => Err ("Foreign function `" +:+ sch_name m +:+ "::" +:+ identifier +:+ "` not defined")
      end
  end.
(** A type that must be [want], or [msg] is reported. *)
Definition expect_type (want : VType) (result : VType → VType) (msg : string) (t : Typeish) : outcome TypeError Typeish :=
  map_result (λ t, if bool_decide (t = want) then Ok (TType (result t)) else Err msg) t.

Fixpoint calculate_expression_type (expression : Expression) : outcome TypeError Typeish :=
  let unify_pair lhs rhs :=
    left_type ← calculate_expression_type lhs;
    right_type ← calculate_expression_type rhs;
    unify_types left_type right_type in
  match expression with
  | EInt _ => Ok (TType TInt)
  | EString _ => Ok (TType TString)
  | EBool _ => Ok (TType TBool)
  | EOptional (Some t) =>
      inner_type ← calculate_expression_type t;
      Ok (map_vtype TOptional inner_type)
  | EOptional None => Ok Indeterminate
  | ENamedStruct s => struct_type s
  | EInternalFunction f =>
      match f with
      | IFQuery f => t ← query_fact_type f; Ok (map_vtype TOptional t)
      | IFExists _ => Ok (TType TBool)
      | IFIf c t f =>
          condition_type ← calculate_expression_type c;
          if negb (is_maybe condition_type TBool) then Err "if condition must be a boolean expression"
          else unify_pair t f
      | IFSerialize _ => Ok (TType TBytes)
      | IFDeserialize _ => Ok Indeterminate
      | IFFactCount UpTo _ _ => Ok (TType TInt)
      | IFFactCount _ _ _ => Ok (TType TBool)
      end
  | EFunctionCall f => call_type (fc_identifier f)
  | EForeignFunctionCall f => foreign_call_type (ffc_module f) (ffc_identifier f)
  | EIdentifier i => map_err (λ _, "Unknown identifier `" +:+ i +:+ "`") (it_get i (cs_identifier_types cs))
  | EAdd lhs rhs | ESubtract lhs rhs =>
      t ← unify_pair lhs rhs;
      expect_type TInt id "Cannot do math on non-int types" t
  | EAnd lhs rhs | EOr lhs rhs =>
      t ← unify_pair lhs rhs;
      expect_type TBool id "Cannot use boolean operator on non-bool types" t
  | EDot e field =>
      t ← calculate_expression_type e;
      map_result (dot_type field) t
  | EEqual lhs rhs | ENotEqual lhs rhs =>
      _ ← unify_pair lhs rhs;
      Ok (TType TBool)
  | EGreaterThan lhs rhs | ELessThan lhs rhs | EGreaterThanOrEqual lhs rhs | ELessThanOrEqual lhs rhs =>
      t ← unify_pair lhs rhs;
      expect_type TInt (λ _, TBool) "Cannot compare non-int expressions" t
  | ENegative e =>
      t ← calculate_expression_type e;
      expect_type TInt id "Cannot negate non-int expression" t
  | ENot e =>
      t ← calculate_expression_type e;
      expect_type TBool id "Cannot invert non-boolean expression" t
  | EUnwrap e | ECheckUnwrap e =>
      t ← calculate_expression_type e;
      map_result (λ t, match t with
                       | TOptional t => Ok (TType t)
                       | _ => Err "Cannot unwrap non-option expression"
                       end) t
  | EIs a _ =>
      t ← calculate_expression_type a;
      map_result (λ t, match t with
                       | TOptional _ => Ok (TType TBool)
                       | _ => Err "`is` must operate on an optional expression`"
                       end) t
  | EEnumReference e => Ok (TType (TEnum (er_identifier e)))
  end.
End Types.
