(* ===== verification/Compile.v ===== *)
(** The policy compiler ([aranya-policy-compiler/src/compile.rs]): from the
    abstract syntax of a policy to a module for the VM. Methods of
    [CompileState] are computations of the state-and-error monad; methods that
    call each other recursively take the recursive call as an argument. *)
From stdpp Require Import pretty.
From S2P Require Import Prelude Collections PolicyData PolicyModule Ast CompileTypes.
Local Open Scope string_scope.
Local Open Scope list_scope.
Local Open Scope nat_scope.

(** * Access to the state *)
Section Setters.
Implicit Types (cs : CompileState) (t : CompileTarget).
Definition set_m v cs := mkCompileState v (cs_wp cs) (cs_c cs) (cs_function_signatures cs) (cs_last_locator cs) (cs_statement_context cs) (cs_identifier_types cs) (cs_enum_values cs).
Definition set_wp v cs := mkCompileState (cs_m cs) v (cs_c cs) (cs_function_signatures cs) (cs_last_locator cs) (cs_statement_context cs) (cs_identifier_types cs) (cs_enum_values cs).
Definition set_c v cs := mkCompileState (cs_m cs) (cs_wp cs) v (cs_function_signatures cs) (cs_last_locator cs) (cs_statement_context cs) (cs_identifier_types cs) (cs_enum_values cs).
Definition set_signatures v cs := mkCompileState (cs_m cs) (cs_wp cs) (cs_c cs) v (cs_last_locator cs) (cs_statement_context cs) (cs_identifier_types cs) (cs_enum_values cs).
Definition set_last_locator v cs := mkCompileState (cs_m cs) (cs_wp cs) (cs_c cs) (cs_function_signatures cs) v (cs_statement_context cs) (cs_identifier_types cs) (cs_enum_values cs).
Definition set_statement_context v cs := mkCompileState (cs_m cs) (cs_wp cs) (cs_c cs) (cs_function_signatures cs) (cs_last_locator cs) v (cs_identifier_types cs) (cs_enum_values cs).
Definition set_identifier_types v cs := mkCompileState (cs_m cs) (cs_wp cs) (cs_c cs) (cs_function_signatures cs) (cs_last_locator cs) (cs_statement_context cs) v (cs_enum_values cs).
Definition set_enum_values v cs := mkCompileState (cs_m cs) (cs_wp cs) (cs_c cs) (cs_function_signatures cs) (cs_last_locator cs) (cs_statement_context cs) (cs_identifier_types cs) v.

Definition set_progmem v t := mkCompileTarget v (ct_labels t) (ct_action_defs t) (ct_command_defs t) (ct_fact_defs t) (ct_struct_defs t) (ct_command_attributes t) (ct_codemap t) (ct_globals t).
Definition set_labels v t := mkCompileTarget (ct_progmem t) v (ct_action_defs t) (ct_command_defs t) (ct_fact_defs t) (ct_struct_defs t) (ct_command_attributes t) (ct_codemap t) (ct_globals t).
Definition set_action_defs v t := mkCompileTarget (ct_progmem t) (ct_labels t) v (ct_command_defs t) (ct_fact_defs t) (ct_struct_defs t) (ct_command_attributes t) (ct_codemap t) (ct_globals t).
Definition set_command_defs v t := mkCompileTarget (ct_progmem t) (ct_labels t) (ct_action_defs t) v (ct_fact_defs t) (ct_struct_defs t) (ct_command_attributes t) (ct_codemap t) (ct_globals t).
Definition set_fact_defs v t := mkCompileTarget (ct_progmem t) (ct_labels t) (ct_action_defs t) (ct_command_defs t) v (ct_struct_defs t) (ct_command_attributes t) (ct_codemap t) (ct_globals t).
Definition set_struct_defs v t := mkCompileTarget (ct_progmem t) (ct_labels t) (ct_action_defs t) (ct_command_defs t) (ct_fact_defs t) v (ct_command_attributes t) (ct_codemap t) (ct_globals t).
Definition set_command_attributes v t := mkCompileTarget (ct_progmem t) (ct_labels t) (ct_action_defs t) (ct_command_defs t) (ct_fact_defs t) (ct_struct_defs t) v (ct_codemap t) (ct_globals t).
Definition set_codemap v t := mkCompileTarget (ct_progmem t) (ct_labels t) (ct_action_defs t) (ct_command_defs t) (ct_fact_defs t) (ct_struct_defs t) (ct_command_attributes t) v (ct_globals t).
Definition set_ct_globals v t := mkCompileTarget (ct_progmem t) (ct_labels t) (ct_action_defs t) (ct_command_defs t) (ct_fact_defs t) (ct_struct_defs t) (ct_command_attributes t) (ct_codemap t) v.
End Setters.
(** Change the target. *)
Definition on_target (f : CompileTarget → CompileTarget) (cs : CompileState) : CompileState := set_m (f (cs_m cs)) cs.

(** * Free functions *)

(** [find_duplicate], on the values compared: the first value that occurs
    before. *)
Fixpoint find_duplicate_after {A} `{EqDecision A} (seen l : list A) : option A :=
  match l with
  | [] => None
  | x :: l' => if bool_decide (x ∈ seen) then Some x else find_duplicate_after (seen ++ [x]) l'
  end.
Definition find_duplicate {A} `{EqDecision A} (l : list A) : option A := find_duplicate_after [] l.

Fixpoint expression_vtype (e : Expression) : option VType :=
  match e with
  | EInt _ => Some TInt
  | EBool _ => Some TBool
  | EString _ => Some TString
  | ENamedStruct s => Some (TStruct (ns_identifier s))
  | EOptional (Some e) => TOptional <$> expression_vtype e
  | _ => None
  end.
Definition field_vtype (f : FactField) : option VType :=
  match f with FExpression e => expression_vtype e | FBind => None end.

(** The loop stops at the first field without a value. *)
Fixpoint expression_value (e : Expression) : option Value :=
  match e with
  | EInt v => Some (VInt v)
  | EBool v => Some (VBool v)
  | EString v => Some (VString v)
  | ENamedStruct s =>
      fields ← (fix go (l : list (string * Expression)) (acc : BTreeMap string Value) : option (BTreeMap string Value) :=
                  match l with
                  | [] => Some acc
                  | (k, e) :: l' => match expression_value e with
                                    | Some v => go l' (bt_insert k v acc)
                                    | None => None
                                    end
                  end) (ns_fields s) [];
      Some (VStruct (mkStruct (ns_identifier s) fields))
  | EEnumReference e => Some (VEnum (er_identifier e) (er_value e))
  | _ => None
  end.

Inductive ScopeFlag : Type := ScopeLayered | ScopeSame.

Section Compile.
Variable env : CompileEnv.
Definition C (A : Type) : Type := M CompileState CompileError A.

(** * Errors *)
Definition cerr_loc (t : CompileErrorType) (loc : nat) : C CompileError := λ cs,
  (compile_error_from_locator t loc (ct_codemap (cs_m cs)), cs).
Definition cerr (t : CompileErrorType) : C CompileError := λ cs, cerr_loc t (cs_last_locator cs) cs.
Definition cfail_at {A} (t : CompileErrorType) (loc : nat) : C A := e ← cerr_loc t loc; throw e.
Definition cfail {A} (t : CompileErrorType) : C A := e ← cerr t; throw e.
(** The [?] operator on a [CompileErrorType]: no position. *)
Definition ctry {A} (m : outcome CompileErrorType A) : C A := lift (map_err compile_error_new m).
(** An option, or an error at the last position. *)
Definition get_or {A} (o : option A) (t : CompileErrorType) : C A :=
  match o with Some x => mret x | None => cfail t end.

(** * Contexts, instructions and labels *)
Definition enter_statement_context (c : StatementContext) : C unit :=
  modify (λ cs, set_statement_context (vec_push c (cs_statement_context cs)) cs).
Definition exit_statement_context : C unit :=
  modify (λ cs, match vec_pop (cs_statement_context cs) with
                | Some (_, rest) => set_statement_context rest cs
                | None => cs
                end).
Definition get_statement_context : C StatementContext :=
  cs ← get_state;
  get_or (last (cs_statement_context cs)) (CEBug "compiling statement without statement context").

Definition append_instruction (i : Instruction) : C unit :=
  modify (on_target (λ t, set_progmem (vec_push i (ct_progmem t)) t)) ≫= λ _,
  cs ← get_state;
  match checked_add (cs_wp cs) 1 with
  | Some wp => modify (set_wp wp)
  | None => crash "self.wp + 1 must not wrap"
  end.
(** Run an operation of the type stack. *)
Definition on_types (f : IdentifierTypeStack → outcome CompileErrorType IdentifierTypeStack) : C unit :=
  cs ← get_state;
  s ← ctry (f (cs_identifier_types cs));
  modify (set_identifier_types s).
Definition append_var (identifier : string) (vtype : VType) : C unit :=
  append_instruction (IMeta (MetaLet identifier)) ≫= λ _,
  append_instruction (IDef identifier) ≫= λ _,
  on_types (it_add identifier (TType vtype)).

Definition define_label (label : Label) (addr : nat) : C unit :=
  cs ← get_state;
  match bt_get label (ct_labels (cs_m cs)) with
  | None => modify (on_target (λ t, set_labels (bt_insert label addr (ct_labels t)) t))
  | Some _ => cfail (CEAlreadyDefined (l_name label))
  end.
(** [define_label(label, self.wp)]. *)
Definition define_label_here (label : Label) : C unit := cs ← get_state; define_label label (cs_wp cs).
Definition anonymous_label : C Label :=
  cs ← get_state;
  match checked_add (cs_c cs) 1 with
  | Some c => modify (set_c c) ≫= λ _, mret (label_new_temp ("anonymous" +:+ pretty (cs_c cs)))
  | None => crash "self.c + 1 must not wrap"
  end.
Definition map_range (loc : nat) : C unit :=
  modify (set_last_locator loc) ≫= λ _,
  cs ← get_state;
  match ct_codemap (cs_m cs) with
  | None => mret tt
  | Some codemap =>
      match map_instruction_range (cs_wp cs) loc codemap with
      | Ok codemap => modify (on_target (set_codemap (Some codemap)))
      | Err _ => cfail_at (CEUnknown ("could not map address " +:+ pretty (cs_wp cs) +:+ " to text range " +:+ pretty loc)) loc
      | Panic w => crash w
      end
  end.

(** * Definitions *)

(** The loops over identifiers that must be new. *)
Fixpoint check_unique (seen : list string) (l : list FieldDefinition) : C (list string) :=
  match l with
  | [] => mret seen
  | f :: l' =>
      if bool_decide (fd_identifier f ∈ seen) then cfail (CEAlreadyDefined (fd_identifier f))
      else check_unique (fd_identifier f :: seen) l'
  end.
Definition define_fact (fact : FactDefinition) : C unit :=
  cs ← get_state;
  if bt_contains (fdef_identifier fact) (ct_fact_defs (cs_m cs)) then cfail (CEAlreadyDefined (fdef_identifier fact))
  else
    identifiers ← check_unique [] (fdef_key fact);
    _ ← check_unique identifiers (fdef_value fact);
    modify (on_target (λ t, set_fact_defs (bt_insert (fdef_identifier fact) fact (ct_fact_defs t)) t)).
Definition define_struct (identifier : string) (fields : list FieldDefinition) : C unit :=
  cs ← get_state;
  match bt_get identifier (ct_struct_defs (cs_m cs)) with
  | None =>
      _ ← check_unique [] fields;
      modify (on_target (λ t, set_struct_defs (bt_insert identifier fields (ct_struct_defs t)) t))
  | Some _ => cfail (CEAlreadyDefined identifier)
  end.
Fixpoint check_enum_values (enum_name : string) (values l : list string) : C (list string) :=
  match l with
  | [] => mret values
  | v :: l' =>
      if bool_decide (v ∈ values) then cfail (CEAlreadyDefined (enum_name +:+ "::" +:+ v))
      else check_enum_values enum_name (vec_push v values) l'
  end.
Definition compile_enum_definition (enum_def : EnumDefinition) : C unit :=
  cs ← get_state;
  if bt_contains (enum_identifier enum_def) (cs_enum_values cs) then cfail (CEAlreadyDefined (enum_identifier enum_def))
  else
    values ← check_enum_values (enum_identifier enum_def) [] (enum_values_of enum_def);
    modify (λ cs, set_enum_values (bt_insert (enum_identifier enum_def) values (cs_enum_values cs)) cs).
(** [define_function_signature] and [define_finish_function_signature]. *)
Definition define_signature (identifier : string) (signature : FunctionSignature) (loc : nat) : C unit :=
  cs ← get_state;
  match bt_get identifier (cs_function_signatures cs) with
  | None => modify (λ cs, set_signatures (bt_insert identifier signature (cs_function_signatures cs)) cs)
  | Some _ => cfail_at (CEAlreadyDefined identifier) loc
  end.
Definition define_function_signature (node : AstNode FunctionDefinition) : C unit :=
  let def := inner node in
  define_signature (fn_identifier def)
    (mkFunctionSignature (map fd_field_type (fn_arguments def)) (FCPure (fn_return_type def))) (locator node).
Definition define_finish_function_signature (node : AstNode FinishFunctionDefinition) : C unit :=
  let def := inner node in
  define_signature (ff_identifier def)
    (mkFunctionSignature (map fd_field_type (ff_arguments def)) FCFinish) (locator node).

(** * Fact literals *)
Definition get_fact_def (name : string) : C FactDefinition :=
  cs ← get_state;
  get_or (bt_get name (ct_fact_defs (cs_m cs))) (CENotDefined name).

Definition hashable_type (t : VType) : bool :=
  match t with TInt | TBool | TString | TId => true | _ => false end.
Fixpoint verify_keys (schema : list FieldDefinition) (lit : list (string * FactField)) : C unit :=
  match schema, lit with
  | schema_key :: schema', lit_key :: lit' =>
      if negb (bool_decide (fd_identifier schema_key = lit_key.1)) then
        cfail (CEInvalidFactLiteral ("Invalid key: expected " +:+ fd_identifier schema_key +:+ ", got " +:+ lit_key.1))
      else
        match field_vtype lit_key.2 with
        | None => verify_keys schema' lit'
        | Some vtype =>
            if negb (hashable_type vtype && bool_decide (fd_field_type schema_key = vtype)) then
              cfail (CEInvalidType ("Fact field `" +:+ fd_identifier schema_key +:+ "` must be "
                                   +:+ vtype_display (fd_field_type schema_key)))
            else verify_keys schema' lit'
        end
  | _, _ => mret tt
  end.
Fixpoint verify_values (lit : list (string * FactField)) (schema : list FieldDefinition) : C unit :=
  match lit, schema with
  | lit_value :: lit', schema_value :: schema' =>
      if negb (bool_decide (lit_value.1 = fd_identifier schema_value)) then
        cfail (CEInvalidFactLiteral ("Expected value " +:+ fd_identifier schema_value +:+ ", got " +:+ lit_value.1))
      else
        match field_vtype lit_value.2 with
        | None => verify_values lit' schema'
        | Some lit_type =>
            if negb (bool_decide (lit_type = fd_field_type schema_value)) then
              cfail (CEInvalidType ("field `" +:+ fd_identifier schema_value +:+ "` type should be "
                                   +:+ vtype_display (fd_field_type schema_value)))
            else verify_values lit' schema'
        end
  | _, _ => mret tt
  end.
Definition verify_fact_values (values : list (string * FactField)) (fact_def : FactDefinition) : C unit :=
  if negb (length values =? length (fdef_value fact_def)) then cfail (CEInvalidFactLiteral "incorrect number of values")
  else verify_values values (fdef_value fact_def).
Definition verify_fact_against_schema (fact : FactLiteral) (require_value : bool) : C unit :=
  fact_def ← get_fact_def (fl_identifier fact);
  if negb (length (fl_key_fields fact) =? length (fdef_key fact_def)) then
    cfail (CEInvalidFactLiteral "Fact keys don't match definition")
  else
    verify_keys (fdef_key fact_def) (fl_key_fields fact) ≫= λ _,
    match fl_value_fields fact with
    | Some values => verify_fact_values values fact_def
    | None => if require_value then cfail (CEInvalidFactLiteral "fact literal requires value") else mret tt
    end.

(** * Expressions *)
Definition is_finish_context (c : StatementContext) : bool := match c with SCFinish => true | _ => false end.
Definition is_pure_context (c : StatementContext) : bool := match c with SCPureFunction _ => true | _ => false end.
Definition check_finish_expression (expression : Expression) : C unit :=
  match expression with
  | EInt _ | EString _ | EBool _ | EIdentifier _ | ENamedStruct _ | EDot _ _ | EOptional _ | EEnumReference _ => mret tt
  | _ => cfail (CEInvalidExpression expression)
  end.
(** [calculate_expression_type] with its error at the last position. *)
Definition expression_type (expression : Expression) : C Typeish :=
  cs ← get_state;
  match calculate_expression_type env cs expression with
  | Ok t => mret t
  | Err e => cfail (CEInvalidType e)
  | Panic w => crash w
  end.

(** [iter().enumerate().find(..)]. *)
Fixpoint find_index_from {A} (i : nat) (p : A → bool) (l : list A) : option (nat * A) :=
  match l with
  | [] => None
  | x :: l' => if p x then Some (i, x) else find_index_from (S i) p l'
  end.
Definition find_index {A} (p : A → bool) (l : list A) : option (nat * A) := find_index_from 0 p l.

Section Recursive.
Variable compile_expression : Expression → C Typeish.

Definition compile_struct_literal (s : NamedStruct) : C unit :=
  cs ← get_state;
  if negb (bt_contains (ns_identifier s) (ct_struct_defs (cs_m cs))) then cfail (CEBadArgument (ns_identifier s))
  else
    append_instruction (IStructNew (ns_identifier s)) ≫= λ _,
    for_each (λ field,
      compile_expression field.2 ≫= λ _,
      append_instruction (IStructSet field.1)) (ns_fields s).

(** The loops over the fields of a fact literal; bind values are skipped. *)
Definition compile_fields (set : string → Instruction) (fields : list (string * FactField)) : C unit :=
  for_each (λ field,
    match field.2 with
    | FExpression e => compile_expression e ≫= λ _, append_instruction (set field.1)
    | FBind => mret tt
    end) fields.
Definition compile_fact_literal (f : FactLiteral) : C unit :=
  append_instruction (IFactNew (fl_identifier f)) ≫= λ _,
  compile_fields IFactKeySet (fl_key_fields f) ≫= λ _,
  match fl_value_fields f with
  | Some value_fields => compile_fields IFactValueSet value_fields
  | None => mret tt
  end.

Definition compile_arguments (l : list Expression) : C unit := for_each (λ a, compile_expression a ≫= λ _, mret tt) l.
Definition compile_function_call (fc : FunctionCall) (is_finish : bool) : C unit :=
  compile_arguments (fc_arguments fc) ≫= λ _,
  append_instruction (ICall (Unresolved (mkLabel (fc_identifier fc) (if is_finish then LTemporary else LFunction)))).

Definition compile_unwrap (e : Expression) (exit_reason : ExitReason) : C unit :=
  not_none ← anonymous_label;
  _ ← compile_expression e;
  append_instruction (IDup 0) ≫= λ _,
  append_instruction (IConst VNone) ≫= λ _,
  append_instruction IEq ≫= λ _,
  append_instruction INot ≫= λ _,
  append_instruction (IBranch (Unresolved not_none)) ≫= λ _,
  append_instruction (IExit exit_reason) ≫= λ _,
  define_label_here not_none.

Definition compile_counting_function (cmp_type : FactCountType) (limit : Z) (fact : FactLiteral) : C unit :=
  if (limit <=? 0)%Z then cfail (CEBadArgument "count limit must be greater than zero") else
  verify_fact_against_schema fact false ≫= λ _,
  compile_fact_literal fact ≫= λ _,
  let limit_plus_one := ctry (ok_or (i64_checked_add limit 1) (CEBug "fact count too large")) in
  match cmp_type with
  | UpTo => append_instruction (IFactCount limit)
  | AtLeast =>
      append_instruction (IFactCount limit) ≫= λ _,
      append_instruction (IConst (VInt limit)) ≫= λ _,
      append_instruction ILt ≫= λ _,
      append_instruction INot
  | AtMost =>
      n ← limit_plus_one;
      append_instruction (IFactCount n) ≫= λ _,
      append_instruction (IConst (VInt limit)) ≫= λ _,
      append_instruction IGt ≫= λ _,
      append_instruction INot
  | Exactly =>
      n ← limit_plus_one;
      append_instruction (IFactCount n) ≫= λ _,
      append_instruction (IConst (VInt limit)) ≫= λ _,
      append_instruction IEq
  end.

Definition compile_query (f : FactLiteral) : C unit :=
  verify_fact_against_schema f false ≫= λ _,
  compile_fact_literal f ≫= λ _,
  append_instruction IQuery.

(** [serialize] and [deserialize] are for pure functions only. *)
Definition compile_serial (e : Expression) (i : Instruction) : C unit :=
  context ← get_statement_context;
  if negb (is_pure_context context) then cfail (CEInvalidExpression e)
  else
    _ ← compile_expression e;
    append_instruction i.
Definition compile_if_expression (e t f : Expression) : C unit :=
  else_name ← anonymous_label;
  end_name ← anonymous_label;
  _ ← compile_expression e;
  append_instruction (IBranch (Unresolved else_name)) ≫= λ _,
  _ ← compile_expression f;
  append_instruction (IJump (Unresolved end_name)) ≫= λ _,
  define_label_here else_name ≫= λ _,
  _ ← compile_expression t;
  define_label_here end_name.
Definition compile_internal_function (f : InternalFunction) : C unit :=
  match f with
  | IFQuery f => compile_query f
  | IFExists f =>
      compile_query f ≫= λ _,
      append_instruction (IConst VNone) ≫= λ _,
      append_instruction IEq ≫= λ _,
      append_instruction INot
  | IFFactCount cmp_type n fact => compile_counting_function cmp_type n fact
  | IFIf e t f => compile_if_expression e t f
  | IFSerialize e => compile_serial e ISerialize
  | IFDeserialize e => compile_serial e IDeserialize
  end.

Definition compile_pure_call (f : FunctionCall) : C unit :=
  cs ← get_state;
  signature ← get_or (bt_get (fc_identifier f) (cs_function_signatures cs)) (CENotDefined (fc_identifier f));
  match sig_color signature with
  | FCFinish => cfail (CEInvalidCallColor ColorFinish)
  | FCPure _ =>
      if negb (length (sig_args signature) =? length (fc_arguments f)) then
        cfail (CEBadArgument ("call to `" +:+ fc_identifier f +:+ "` has " +:+ pretty (length (fc_arguments f))
                             +:+ " arguments and it should have " +:+ pretty (length (sig_args signature))))
      else compile_function_call f false
  end.
Definition compile_foreign_call (f : ForeignFunctionCall) : C unit :=
  if negb (bool_decide (ffc_module f ∈ pl_ffi_imports (ce_policy env))) then cfail (CENotDefined (ffc_module f)) else
  append_instruction (IMeta (MetaFFI (ffc_module f) (ffc_identifier f))) ≫= λ _,
  if ce_stub_ffi env then mret tt else
  module ← get_or (find_index (λ m, bool_decide (sch_name m = ffc_module f)) (ce_ffi_modules env)) (CENotDefined (ffc_module f));
  procedure ← get_or (find_index (λ proc, bool_decide (ffn_name proc = ffc_identifier f)) (sch_functions module.2))
                (CENotDefined (ffc_module f +:+ "::" +:+ ffc_identifier f));
  if negb (length (ffc_arguments f) =? length (ffn_args procedure.2)) then cfail (CEBadArgument (ffc_identifier f))
  else
    compile_arguments (ffc_arguments f) ≫= λ _,
    append_instruction (IExtCall module.1 procedure.1).
Definition compile_enum_reference (e : EnumReference) : C unit :=
  cs ← get_state;
  enum_def ← get_or (bt_get (er_identifier e) (cs_enum_values cs)) (CENotDefined (er_identifier e));
  if negb (bool_decide (er_value e ∈ enum_def)) then cfail (CENotDefined (er_identifier e +:+ "::" +:+ er_value e))
  else append_instruction (IConst (VEnum (er_identifier e) (er_value e))).

Definition compile_binary (a b : Expression) (i : Instruction) : C unit :=
  _ ← compile_expression a;
  _ ← compile_expression b;
  append_instruction i.
(** [>=] and [<=]: equality or the strict comparison. *)
Definition compile_weak_comparison (a b : Expression) (i : Instruction) : C unit :=
  _ ← compile_expression a;
  _ ← compile_expression b;
  append_instruction (IDup 1) ≫= λ _,
  append_instruction (IDup 1) ≫= λ _,
  append_instruction IEq ≫= λ _,
  append_instruction (ISwap 2) ≫= λ _,
  append_instruction (ISwap 1) ≫= λ _,
  append_instruction i ≫= λ _,
  append_instruction IOr.
End Recursive.

Fixpoint compile_expression (expression : Expression) : C Typeish :=
  context ← get_statement_context;
  (if is_finish_context context then check_finish_expression expression else mret tt) ≫= λ _,
  type ← expression_type expression;
  (match expression with
   | EInt n => append_instruction (IConst (VInt n))
   | EString s => append_instruction (IConst (VString s))
   | EBool b => append_instruction (IConst (VBool b))
   | EOptional None => append_instruction (IConst VNone)
   | EOptional (Some v) => compile_expression v ≫= λ _, mret tt
   | ENamedStruct s => compile_struct_literal compile_expression s
   | EInternalFunction f => compile_internal_function compile_expression f
   | EFunctionCall f => compile_pure_call compile_expression f
   | EForeignFunctionCall f => compile_foreign_call compile_expression f
   | EIdentifier i =>
       append_instruction (IMeta (MetaGet i)) ≫= λ _,
       append_instruction (IGet i)
   | EEnumReference e => compile_enum_reference e
   | EDot t s =>
       _ ← compile_expression t;
       append_instruction (IStructGet s)
   | EAdd a b => compile_binary compile_expression a b IAdd
   | ESubtract a b => compile_binary compile_expression a b ISub
   | EAnd a b => compile_binary compile_expression a b IAnd
   | EOr a b => compile_binary compile_expression a b IOr
   | EEqual a b => compile_binary compile_expression a b IEq
   | EGreaterThan a b => compile_binary compile_expression a b IGt
   | ELessThan a b => compile_binary compile_expression a b ILt
   | EGreaterThanOrEqual a b => compile_weak_comparison compile_expression a b IGt
   | ELessThanOrEqual a b => compile_weak_comparison compile_expression a b ILt
   | ENotEqual a b =>
       compile_binary compile_expression a b IEq ≫= λ _,
       append_instruction INot
   | ENegative e =>
       _ ← compile_expression e;
       append_instruction (IConst (VInt 0)) ≫= λ _,
       append_instruction (ISwap 1) ≫= λ _,
       append_instruction ISub
   | ENot e =>
       _ ← compile_expression e;
       append_instruction INot
   | EUnwrap e => compile_unwrap compile_expression e ExitPanic
   | ECheckUnwrap e => compile_unwrap compile_expression e ExitCheck
   | EIs e expr_is_some =>
       _ ← compile_expression e;
       append_instruction (IConst VNone) ≫= λ _,
       append_instruction IEq ≫= λ _,
       if expr_is_some : bool then append_instruction INot else mret tt
   end) ≫= λ _,
  mret type.

(** * Statements *)

(** [instruction_range_contains(from..self.wp, is a Return)]; slicing panics
    out of range. *)
Definition is_return (i : Instruction) : bool := match i with IReturn => true | _ => false end.
Definition range_has_return (from : nat) : C bool :=
  cs ← get_state;
  let progmem := ct_progmem (cs_m cs) in
  if (from <=? cs_wp cs) && (cs_wp cs <=? length progmem) then
    mret (existsb is_return (take (cs_wp cs - from) (drop from progmem)))
  else crash "slice index out of range".

Definition is_bind (f : string * FactField) : bool := match f.2 with FBind => true | _ => false end.
Definition has_bind (f : FactLiteral) : bool :=
  existsb is_bind (fl_key_fields f) || match fl_value_fields f with Some v => existsb is_bind v | None => false end.

Definition pattern_values (p : MatchPattern) : list Expression := match p with PatValues v => v | PatDefault => [] end.
Definition is_default (a : MatchArm) : bool := match ma_pattern a with PatDefault => true | _ => false end.

(** The first loop of [match]: the tests of the arms, and their labels. *)
Definition compile_arm_test (arms : list MatchArm) (arm_label : Label) (arm : MatchArm) : C unit :=
  match ma_pattern arm with
  | PatValues values =>
      for_each (λ value,
        append_instruction (IDup 0) ≫= λ _,
        _ ← compile_expression value;
        append_instruction IEq ≫= λ _,
        append_instruction (IBranch (Unresolved arm_label))) values
  | PatDefault =>
      append_instruction (IJump (Unresolved arm_label)) ≫= λ _,
      match last arms with
      | Some l => if arm_eqb arm l then mret tt else cfail (CEUnknown "Default match case must be last.")
      | None => crash "last arm"
      end
  end.
Fixpoint compile_arm_tests (arms l : list MatchArm) : C (list Label) :=
  match l with
  | [] => mret []
  | arm :: l' =>
      arm_label ← anonymous_label;
      compile_arm_test arms arm_label arm ≫= λ _,
      labels ← compile_arm_tests arms l';
      mret (arm_label :: labels)
  end.

(** A check of [debug_assert] or [check]: skip the exit if the value is true. *)
Definition compile_assertion (reason : ExitReason) (next : C nat) : C unit :=
  addr ← next;
  append_instruction (IBranch (Resolved addr)) ≫= λ _,
  append_instruction (IExit reason).

(** The arguments of a call to another action, with their types. *)
Fixpoint compile_action_arguments (loc : nat) (action_args : list FieldDefinition) (arguments : list Expression) : C unit :=
  match arguments with
  | [] => mret tt
  | arg :: arguments' =>
      arg_type ← compile_expression arg;
      match arg_type, action_args with
      | TType t, expected_arg :: _ =>
          if bool_decide (t = fd_field_type expected_arg) then mret tt
          else cfail_at (CEBadArgument ("invalid argument type for `" +:+ fd_identifier expected_arg +:+ "`: expected `"
                                       +:+ vtype_display (fd_field_type expected_arg) +:+ "`, but got `" +:+ vtype_display t +:+ "`")) loc
      | TType _, [] => crash "index out of bounds"
      | Indeterminate, _ => mret tt
      end ≫= λ _,
      compile_action_arguments loc (tail action_args) arguments'
  end.

Definition compile_update (loc : nat) (s : UpdateStatement) : C unit :=
  fact_def ← get_fact_def (fl_identifier (update_fact s));
  if fdef_immutable fact_def then cfail (CEUnknown "fact is immutable") else
  verify_fact_against_schema (update_fact s) true ≫= λ _,
  compile_fact_literal compile_expression (update_fact s) ≫= λ _,
  append_instruction (IDup 0) ≫= λ _,
  fact_def ← get_fact_def (fl_identifier (update_fact s));
  verify_fact_values (update_to s) fact_def ≫= λ _,
  for_each (λ '(k, v),
    match v with
    | FBind => cfail_at (CEBadArgument "Cannot update fact to a bind value") loc
    | FExpression e => compile_expression e ≫= λ _, append_instruction (IFactValueSet k)
    end) (update_to s) ≫= λ _,
  append_instruction IUpdate.

Definition compile_finish_call (loc : nat) (f : FunctionCall) : C unit :=
  cs ← get_state;
  match bt_get (fc_identifier f) (cs_function_signatures cs) with
  | None => cfail_at (CENotDefined (fc_identifier f)) loc
  | Some signature =>
      match sig_color signature with
      | FCPure _ => cfail_at (CEInvalidCallColor ColorPure) loc
      | FCFinish =>
          if negb (length (sig_args signature) =? length (fc_arguments f)) then
            cfail_at (CEBadArgument ("call to `" +:+ fc_identifier f +:+ "` has " +:+ pretty (length (fc_arguments f))
                                    +:+ " arguments but it should have " +:+ pretty (length (sig_args signature)))) loc
          else compile_function_call compile_expression f true
      end
  end.
Definition compile_action_call (loc : nat) (fc : FunctionCall) : C unit :=
  match List.find (λ a, bool_decide (action_identifier (inner a) = fc_identifier fc)) (pl_actions (ce_policy env)) with
  | None => cfail_at (CENotDefined (fc_identifier fc)) loc
  | Some node =>
      let action_def := inner node in
      if negb (length (action_arguments action_def) =? length (fc_arguments fc)) then
        cfail_at (CEBadArgument ("call to `" +:+ fc_identifier fc +:+ "` has " +:+ pretty (length (fc_arguments fc))
                                +:+ " arguments, but it should have " +:+ pretty (length (action_arguments action_def)))) loc
      else
        compile_action_arguments loc (action_arguments action_def) (fc_arguments fc) ≫= λ _,
        append_instruction (ICall (Unresolved (mkLabel (fc_identifier fc) LAction)))
  end.

(** Which statements a context allows. *)
Definition allowed (statement : Statement) (context : StatementContext) : bool :=
  match statement, context with
  | (SLet _ | SCheck _ | SMatch _ | SIf _), SCFinish => false
  | (SLet _ | SCheck _ | SMatch _ | SIf _), _ => true
  | (SPublish _ | SMap _ | SActionCall _), SCAction _ => true
  | SReturn _, SCPureFunction _ => true
  | SFinish _, (SCCommandPolicy _ | SCCommandRecall _) => true
  | (SCreate _ | SUpdate _ | SDelete _ | SEmit _ | SFunctionCall _), SCFinish => true
  | SDebugAssert _, _ => true
  | _, _ => false
  end.

Section Block.
(** The statement [statement] of the block [statements] in [context]. *)
Variable compile_statement : Statements → StatementContext → AstNode Statement → C unit.

Definition compile_block (statements : Statements) (scope : ScopeFlag) : C unit :=
  (match scope with
   | ScopeLayered => on_types it_enter_block ≫= λ _, append_instruction IBlock
   | ScopeSame => mret tt
   end) ≫= λ _,
  context ← get_statement_context;
  for_each (λ statement,
    map_range (locator statement) ≫= λ _,
    if allowed (inner statement) context then compile_statement statements context statement
    else cfail_at (CEInvalidStatement context) (locator statement)) statements ≫= λ _,
  match scope with
  | ScopeLayered => append_instruction IEnd ≫= λ _, on_types it_exit_block
  | ScopeSame => mret tt
  end.

(** The second loop of [match]: the arms. *)
Definition compile_arm (arm_start end_label : Label) (arm : MatchArm) : C unit :=
  define_label_here arm_start ≫= λ _,
  append_instruction IPop ≫= λ _,
  compile_block (ma_statements arm) ScopeSame ≫= λ _,
  append_instruction (IJump (Unresolved end_label)).
Fixpoint compile_arms (end_label : Label) (arms : list MatchArm) (labels : list Label) : C unit :=
  match arms, labels with
  | arm :: arms', arm_start :: labels' =>
      compile_arm arm_start end_label arm ≫= λ _,
      compile_arms end_label arms' labels'
  | _, _ => mret tt
  end.
Definition compile_match (loc : nat) (s : MatchStatement) : C unit :=
  match find_duplicate (flat_map (λ a, pattern_values (ma_pattern a)) (ms_arms s)) with
  | Some _ => cfail_at (CEAlreadyDefined "duplicate match arm value") loc
  | None =>
      _ ← compile_expression (ms_expression s);
      end_label ← anonymous_label;
      arm_labels ← compile_arm_tests (ms_arms s) (ms_arms s);
      (if existsb is_default (ms_arms s) then mret tt else append_instruction (IExit ExitPanic)) ≫= λ _,
      compile_arms end_label (ms_arms s) arm_labels ≫= λ _,
      define_label_here end_label
  end.

Definition compile_branch (end_label : Label) (b : Expression * Statements) : C unit :=
  next_label ← anonymous_label;
  _ ← compile_expression b.1;
  append_instruction INot ≫= λ _,
  append_instruction (IBranch (Unresolved next_label)) ≫= λ _,
  compile_block b.2 ScopeSame ≫= λ _,
  append_instruction (IJump (Unresolved end_label)) ≫= λ _,
  define_label_here next_label.
Definition compile_if (s : IfStatement) : C unit :=
  end_label ← anonymous_label;
  for_each (compile_branch end_label) (if_branches s) ≫= λ _,
  (match if_fallback s with Some fallback => compile_block fallback ScopeSame | None => mret tt end) ≫= λ _,
  define_label_here end_label.

Definition compile_finish (statements : Statements) (statement : AstNode Statement) (s : Statements) : C unit :=
  enter_statement_context SCFinish ≫= λ _,
  append_instruction (IMeta (MetaFinish true)) ≫= λ _,
  compile_block s ScopeLayered ≫= λ _,
  exit_statement_context ≫= λ _,
  match last statements with
  | None => crash "expected statement"
  | Some l =>
      if negb (node_eqb stmt_eqb statement l) then
        cfail_at (CEUnknown "`finish` must be the last statement in the block") (locator statement)
      else append_instruction (IExit ExitNormal)
  end.

Definition compile_map (s : MapStatement) : C unit :=
  verify_fact_against_schema (map_fact s) false ≫= λ _,
  compile_fact_literal compile_expression (map_fact s) ≫= λ _,
  append_instruction IQueryStart ≫= λ _,
  on_types it_enter_block ≫= λ _,
  on_types (it_add (map_identifier s) (TType (TStruct (fl_identifier (map_fact s))))) ≫= λ _,
  top_label ← anonymous_label;
  end_label ← anonymous_label;
  define_label_here top_label ≫= λ _,
  append_instruction IBlock ≫= λ _,
  append_instruction (IQueryNext (map_identifier s)) ≫= λ _,
  append_instruction (IBranch (Unresolved end_label)) ≫= λ _,
  compile_block (map_statements s) ScopeSame ≫= λ _,
  append_instruction IEnd ≫= λ _,
  append_instruction (IJump (Unresolved top_label)) ≫= λ _,
  define_label_here end_label ≫= λ _,
  append_instruction IEnd ≫= λ _,
  on_types it_exit_block.
End Block.

(** [assume] and [expect] on [self.wp + 2]. *)
Definition wp_plus_two (overflow : C nat) : C nat :=
  cs ← get_state;
  match checked_add (cs_wp cs) 2 with Some next => mret next | None => overflow end.

(** One statement, in a context that allows it. *)
Fixpoint compile_statement (statements : Statements) (context : StatementContext) (statement : Statement) (loc : nat) : C unit :=
  let compile_node := λ statements context (node : AstNode Statement), compile_statement statements context (inner node) (locator node) in
  match statement with
  | SLet s =>
      et ← compile_expression (let_expression s);
      on_types (it_add (let_identifier s) et) ≫= λ _,
      append_instruction (IMeta (MetaLet (let_identifier s))) ≫= λ _,
      append_instruction (IDef (let_identifier s))
  | SCheck s =>
      et ← compile_expression (check_expression s);
      if negb (is_maybe et TBool) then cfail (CEInvalidType "check must have boolean expression")
      else compile_assertion ExitCheck (wp_plus_two (ctry (Err (CEBug "self.wp + 2 must not wrap"))))
  | SMatch s => compile_match compile_node loc s
  | SIf s => compile_if compile_node s
  | SPublish e =>
      _ ← compile_expression e;
      append_instruction IPublish
  | SReturn s =>
      et ← compile_expression (return_expression s);
      match context with
      | SCPureFunction fd =>
          if negb (is_maybe et (fn_return_type fd)) then
            cfail (CEInvalidType ("Return value of `" +:+ fn_identifier fd +:+ "()` must be " +:+ vtype_display (fn_return_type fd)))
          else append_instruction IReturn
      | _ => cfail_at (CEInvalidStatement context) loc
      end
  | SFinish s => compile_finish compile_node statements (mkAstNode statement loc) s
  | SMap s => compile_map compile_node s
  | SCreate s =>
      if has_bind (create_fact s) then cfail_at (CEBadArgument "Cannot create fact with bind values") loc else
      verify_fact_against_schema (create_fact s) true ≫= λ _,
      compile_fact_literal compile_expression (create_fact s) ≫= λ _,
      append_instruction ICreate
  | SUpdate s => compile_update loc s
  | SDelete s =>
      verify_fact_against_schema (delete_fact s) false ≫= λ _,
      compile_fact_literal compile_expression (delete_fact s) ≫= λ _,
      append_instruction IDelete
  | SEmit e =>
      et ← compile_expression e;
      match et with
      | TType (TStruct _) => append_instruction IEmit
      | _ => cfail (CEInvalidType "Emit must be given a struct")
      end
  | SFunctionCall f => compile_finish_call loc f
  | SActionCall fc => compile_action_call loc fc
  | SDebugAssert e =>
      if ce_is_debug env then
        _ ← compile_expression e;
        compile_assertion ExitPanic (wp_plus_two (crash "self.wp + 2 must not wrap"))
      else mret tt
  end.
Definition compile_node (statements : Statements) (context : StatementContext) (node : AstNode Statement) : C unit :=
  compile_statement statements context (inner node) (locator node).
Definition compile_statements (statements : Statements) (scope : ScopeFlag) : C unit :=
  compile_block compile_node statements scope.

(** * Functions, actions and commands *)

(** The loop over the arguments, last first. *)
Definition append_arguments (arguments : list FieldDefinition) : C unit :=
  for_each (λ arg, append_var (fd_identifier arg) (fd_field_type arg)) (rev arguments).
Definition check_arguments (arguments : list FieldDefinition) (loc : nat) : C unit :=
  match find_duplicate (map fd_identifier arguments) with
  | Some identifier => cfail_at (CEAlreadyDefined identifier) loc
  | None => mret tt
  end.
(** The body of a function must have a [return]. *)
Definition compile_returning (statements : Statements) (loc : nat) : C unit :=
  cs ← get_state;
  compile_statements statements ScopeSame ≫= λ _,
  found ← range_has_return (cs_wp cs);
  if negb found then cfail_at CENoReturn loc else mret tt.

Definition compile_function (node : AstNode FunctionDefinition) : C unit :=
  let function := inner node in
  define_label_here (mkLabel (fn_identifier function) LFunction) ≫= λ _,
  map_range (locator node) ≫= λ _,
  define_function_signature node ≫= λ _,
  check_arguments (fn_arguments function) (locator node) ≫= λ _,
  on_types (λ s, Ok (it_enter_function s)) ≫= λ _,
  append_arguments (fn_arguments function) ≫= λ _,
  compile_returning (fn_statements function) (locator node) ≫= λ _,
  append_instruction (IExit ExitPanic) ≫= λ _,
  on_types it_exit_function.
Definition compile_finish_function (node : AstNode FinishFunctionDefinition) : C unit :=
  let function := inner node in
  define_label_here (label_new_temp (ff_identifier function)) ≫= λ _,
  map_range (locator node) ≫= λ _,
  on_types (λ s, Ok (it_enter_function s)) ≫= λ _,
  append_arguments (ff_arguments function) ≫= λ _,
  compile_statements (ff_statements function) ScopeSame ≫= λ _,
  append_instruction IReturn ≫= λ _,
  on_types it_exit_function.

(** The action's definition for the module. *)
Definition define_action (identifier : string) (arguments : list FieldDefinition) : C unit :=
  cs ← get_state;
  match bt_get identifier (ct_action_defs (cs_m cs)) with
  | None => modify (on_target (λ t, set_action_defs (bt_insert identifier arguments (ct_action_defs t)) t))
  | Some _ => cfail (CEAlreadyDefined identifier)
  end.
Definition compile_action (node : AstNode ActionDefinition) : C unit :=
  let action := inner node in
  on_types (λ s, Ok (it_enter_function s)) ≫= λ _,
  define_label_here (mkLabel (action_identifier action) LAction) ≫= λ _,
  map_range (locator node) ≫= λ _,
  check_arguments (action_arguments action) (locator node) ≫= λ _,
  append_arguments (action_arguments action) ≫= λ _,
  compile_statements (action_statements action) ScopeSame ≫= λ _,
  append_instruction IReturn ≫= λ _,
  on_types it_exit_function ≫= λ _,
  define_action (action_identifier action) (action_arguments action).

Definition compile_global_let (node : AstNode GlobalLetStatement) : C unit :=
  let identifier := gl_identifier (inner node) in
  value ← get_or (expression_value (gl_expression (inner node))) (CEInvalidExpression (gl_expression (inner node)));
  match vtype value with
  | None => crash "global let expression has weird type"
  | Some vt =>
      cs ← get_state;
      match bt_get identifier (ct_globals (cs_m cs)) with
      | Some _ => cfail (CEAlreadyDefined identifier)
      | None =>
          modify (on_target (λ t, set_ct_globals (bt_insert identifier value (ct_globals t)) t)) ≫= λ _,
          on_types (it_add_global identifier (TType vt))
      end
  end.

(** [compile_command_policy] and [compile_command_recall]. *)
Definition compile_command_block (command : CommandDefinition) (ltype : LabelType) (context : StatementContext) (statements : Statements) : C unit :=
  define_label_here (mkLabel (cd_identifier command) ltype) ≫= λ _,
  enter_statement_context context ≫= λ _,
  on_types (λ s, Ok (it_enter_function s)) ≫= λ _,
  on_types (it_add "this" (TType (TStruct (cd_identifier command)))) ≫= λ _,
  on_types (it_add "envelope" (TType (TStruct "Envelope"))) ≫= λ _,
  append_instruction (IDef "envelope") ≫= λ _,
  compile_statements statements ScopeSame ≫= λ _,
  on_types it_exit_function ≫= λ _,
  exit_statement_context ≫= λ _,
  append_instruction (IExit ExitNormal).
Definition compile_command_policy (command : CommandDefinition) : C unit :=
  compile_command_block command LCommandPolicy (SCCommandPolicy command) (cd_policy command).
Definition compile_command_recall (command : CommandDefinition) : C unit :=
  compile_command_block command LCommandRecall (SCCommandRecall command) (cd_recall command).

(** [compile_command_seal] and [compile_command_open]: a stub that calls the
    block, and the block as a function of one value. *)
Definition compile_command_function (command : CommandDefinition) (ltype : LabelType) (def : FunctionDefinition)
    (value type : string) (statements : Statements) (loc : nat) (missing : string) : C unit :=
  if bool_decide (statements = []) then cfail_at (CEUnknown missing) loc else
  define_label_here (mkLabel (cd_identifier command) ltype) ≫= λ _,
  actual ← anonymous_label;
  append_instruction (ICall (Unresolved actual)) ≫= λ _,
  append_instruction (IExit ExitNormal) ≫= λ _,
  define_label_here actual ≫= λ _,
  enter_statement_context (SCPureFunction def) ≫= λ _,
  on_types (λ s, Ok (it_enter_function s)) ≫= λ _,
  on_types (it_add value (TType (TStruct type))) ≫= λ _,
  append_instruction (IDef value) ≫= λ _,
  compile_returning statements loc ≫= λ _,
  on_types it_exit_function ≫= λ _,
  exit_statement_context ≫= λ _,
  append_instruction (IExit ExitPanic).
Definition compile_command_seal (command : CommandDefinition) (loc : nat) : C unit :=
  compile_command_function command LCommandSeal (mkFunctionDefinition "seal" [] (TStruct "Envelope") [])
    "this" (cd_identifier command) (cd_seal command) loc "Empty/missing seal block in command".
Definition compile_command_open (command : CommandDefinition) (loc : nat) : C unit :=
  compile_command_function command LCommandOpen (mkFunctionDefinition "open" [] (TStruct (cd_identifier command)) [])
    "envelope" "Envelope" (cd_open command) loc "Empty/missing open block in command".

Definition compile_attribute (command : string) (attr : string * Expression) : C unit :=
  cs ← get_state;
  let attr_map := default [] (bt_get command (ct_command_attributes (cs_m cs))) in
  match bt_get attr.1 attr_map with
  | Some _ => cfail (CEAlreadyDefined attr.1)
  | None =>
      match expression_value attr.2 with
      | Some value =>
          modify (on_target (λ t, set_command_attributes (bt_insert command (bt_insert attr.1 value attr_map) (ct_command_attributes t)) t))
      | None => cfail (CEInvalidExpression attr.2)
      end
  end.
(** The command's fields for the module. *)
Definition define_command (identifier : string) (fields : list FieldDefinition) : C unit :=
  cs ← get_state;
  match bt_get identifier (ct_command_defs (cs_m cs)) with
  | None =>
      let map := bt_from_iter (map (λ f, (fd_identifier f, fd_field_type f)) fields) in
      modify (on_target (λ t, set_command_defs (bt_insert identifier map (ct_command_defs t)) t))
  | Some _ => cfail (CEAlreadyDefined identifier)
  end.
Definition compile_command (node : AstNode CommandDefinition) : C unit :=
  let command := inner node in
  map_range (locator node) ≫= λ _,
  compile_command_policy command ≫= λ _,
  compile_command_recall command ≫= λ _,
  compile_command_seal command (locator node) ≫= λ _,
  compile_command_open command (locator node) ≫= λ _,
  modify (on_target (λ t, set_command_attributes (bt_upsert (cd_identifier command) [] id (ct_command_attributes t)) t)) ≫= λ _,
  for_each (compile_attribute (cd_identifier command)) (cd_attributes command) ≫= λ _,
  define_command (cd_identifier command) (cd_fields command).

(** * Targets *)
Definition resolve_target (labels : BTreeMap Label nat) (target : Target) : outcome CompileErrorType Target :=
  match target with
  | Unresolved s => addr ← ok_or (bt_get s labels) (CEBadTarget (l_name s)); Ok (Resolved addr)
  | Resolved addr => Ok (Resolved addr)
  end.
Definition resolve_instruction (labels : BTreeMap Label nat) (i : Instruction) : outcome CompileErrorType Instruction :=
  match i with
  | IBranch t => IBranch <$> resolve_target labels t
  | IJump t => IJump <$> resolve_target labels t
  | ICall t => ICall <$> resolve_target labels t
  | i => Ok i
  end.
Fixpoint resolve_instructions (labels : BTreeMap Label nat) (l : list Instruction) : outcome CompileErrorType (list Instruction) :=
  match l with
  | [] => Ok []
  | i :: l' => i ← resolve_instruction labels i; l' ← resolve_instructions labels l'; Ok (i :: l')
  end.
Definition keep_label (p : Label * nat) : bool := negb (bool_decide (l_ltype p.1 = LTemporary)).
Definition resolve_targets : C unit :=
  cs ← get_state;
  progmem ← ctry (resolve_instructions (ct_labels (cs_m cs)) (ct_progmem (cs_m cs)));
  modify (on_target (set_progmem progmem)) ≫= λ _,
  modify (on_target (λ t, set_labels (List.filter keep_label (ct_labels t)) t)).

(** * The whole policy *)
Definition fields_of_ffi (s : FfiStruct) : list FieldDefinition :=
  map (λ a, mkFieldDefinition (fa_name a) (vtype_of_ffi (fa_vtype a))) (fs_fields s).
(** Everything that has a name, before any code. *)
Definition compile_definitions (policy : Policy) : C unit :=
  for_each compile_global_let (pl_global_lets policy) ≫= λ _,
  for_each (λ e, define_struct (effect_identifier (inner e)) (map field_of_effect_field (effect_fields (inner e)))) (pl_effects policy) ≫= λ _,
  for_each (λ s, define_struct (struct_identifier (inner s)) (struct_fields (inner s))) (pl_structs policy) ≫= λ _,
  for_each (λ ffi_mod, for_each (λ s, define_struct (fs_name s) (fields_of_ffi s)) (sch_structs ffi_mod)) (ce_ffi_modules env) ≫= λ _,
  for_each (λ e, compile_enum_definition (inner e)) (pl_enums policy) ≫= λ _,
  for_each (λ f,
    define_struct (fdef_identifier (inner f)) (fdef_key (inner f) ++ fdef_value (inner f)) ≫= λ _,
    define_fact (inner f)) (pl_facts policy) ≫= λ _,
  for_each (λ c, define_struct (cd_identifier (inner c)) (cd_fields (inner c))) (pl_commands policy) ≫= λ _,
  for_each define_finish_function_signature (pl_finish_functions policy).
Definition compile_code (policy : Policy) : C unit :=
  for_each (λ f,
    enter_statement_context (SCPureFunction (inner f)) ≫= λ _,
    compile_function f ≫= λ _,
    exit_statement_context) (pl_functions policy) ≫= λ _,
  enter_statement_context SCFinish ≫= λ _,
  for_each compile_finish_function (pl_finish_functions policy) ≫= λ _,
  exit_statement_context ≫= λ _,
  for_each compile_command (pl_commands policy) ≫= λ _,
  for_each (λ a,
    enter_statement_context (SCAction (inner a)) ≫= λ _,
    compile_action a ≫= λ _,
    exit_statement_context) (pl_actions policy).
Definition compile_policy : C unit :=
  append_instruction (IExit ExitPanic) ≫= λ _,
  compile_definitions (ce_policy env) ≫= λ _,
  compile_code (ce_policy env) ≫= λ _,
  resolve_targets.

(** [Compiler::compile]. *)
Definition compile_state_new : CompileState :=
  mkCompileState (compile_target_new (codemap_new (pl_text (ce_policy env)) (pl_ranges (ce_policy env))))
    0 0 [] 0 [] type_stack_new [].
Definition compile : outcome CompileError Module_ :=
  let '(res, cs) := compile_policy compile_state_new in
  _ ← res;
  Ok (target_into_module (cs_m cs)).
End Compile.
