(* ===== verification/CompileProofs.v ===== *)
(** What the compiler emits, whatever it compiles: code and labels are only
    added, jumps stay in the code, every instruction is implemented, and the
    code map stays sorted. *)
From stdpp Require Import pretty.
From S2P Require Import Prelude Collections PolicyData PolicyModule VmScope Vm VmInvariant VmCalls VmSafety Ast.
From S2P Require Import CompileTypes Compile.
Local Open Scope string_scope.
Local Open Scope list_scope.
Local Open Scope nat_scope.

Create HintDb closed.

(** * Reasoning on successful computations

    [on_ok R m]: if [m] succeeds, its final state is related by [R] to its
    initial state. *)
Definition on_ok {S E A} (R : S → S → Prop) (m : M S E A) : Prop :=
  ∀ s a s', m s = (Ok a, s') → R s s'.

Section OnOk.
Context {S E : Type} (R : S → S → Prop) `{!PreOrder R}.
Lemma on_ok_bind {A B} (m : M S E A) (k : A → M S E B) : on_ok R m → (∀ a, on_ok R (k a)) → on_ok R (m ≫= k).
Proof. intros Hm Hk s b s' (a & s1 & E1 & E2)%M_bind_inv_Ok. etrans; [by eapply Hm|by eapply Hk]. Qed.
Lemma on_ok_ret {A} (a : A) : on_ok R (mret a : M S E A).
Proof. intros s b s' [= _ <-]. done. Qed.
Lemma on_ok_get : on_ok R (get_state : M S E S).
Proof. intros s b s' [= _ <-]. done. Qed.
Lemma on_ok_lift {A} (m : outcome E A) : on_ok R (lift m : M S E A).
Proof. intros s b s' [= _ <-]. done. Qed.
Lemma on_ok_crash {A} w : on_ok R (crash w : M S E A).
Proof. by intros s b s'. Qed.
Lemma on_ok_for_each {A} (f : A → M S E unit) l : (∀ x, x ∈ l → on_ok R (f x)) → on_ok R (for_each f l).
Proof.
  intros Hf. induction l as [|x l IH]; simpl; [apply on_ok_ret|]. apply on_ok_bind; [apply Hf; by left|].
  intros _. apply IH. intros y Hy. apply Hf. by right.
Qed.
End OnOk.

(** * What every method keeps

    A relation on states that the primitive operations respect is respected
    by every method of the compiler. *)

(** The parts of the state that code generation reads and writes. *)
Definition same_code (cs cs' : CompileState) : Prop :=
  ct_progmem (cs_m cs') = ct_progmem (cs_m cs) ∧ ct_labels (cs_m cs') = ct_labels (cs_m cs)
  ∧ ct_codemap (cs_m cs') = ct_codemap (cs_m cs) ∧ cs_wp cs' = cs_wp cs ∧ cs_statement_context cs' = cs_statement_context cs
  ∧ cs_function_signatures cs' = cs_function_signatures cs ∧ ct_action_defs (cs_m cs') = ct_action_defs (cs_m cs)
  ∧ ct_command_defs (cs_m cs') = ct_command_defs (cs_m cs).
(** The target of an instruction is not resolved yet. *)
Definition unresolved (i : Instruction) : bool :=
  match i with IJump (Resolved _) | IBranch (Resolved _) | ICall (Resolved _) | INext | ILast => false | _ => true end.
Definition enter_context (c : StatementContext) (cs : CompileState) : CompileState :=
  set_statement_context (vec_push c (cs_statement_context cs)) cs.
Definition leave_context (cs : CompileState) : CompileState :=
  match vec_pop (cs_statement_context cs) with
  | Some (_, rest) => set_statement_context rest cs
  | None => cs
  end.
Class Tolerant (R : CompileState → CompileState → Prop) : Prop :=
  R_same cs cs' : same_code cs cs' → R cs cs'.
(** [R] does not look at the signatures of functions. *)
Class Unsigned (R : CompileState → CompileState → Prop) : Prop :=
  R_signatures sigs cs : R cs (set_signatures sigs cs).
(** [R] allows new actions and commands. *)
Class Acting (R : CompileState → CompileState → Prop) : Prop := {
  R_define_action x args : on_ok R (define_action x args);
  R_define_command x fields : on_ok R (define_command x fields)
}.
Class Respected (R : CompileState → CompileState → Prop) : Prop := {
  respected_tolerant :: Tolerant R;
  R_append i : unresolved i = true → on_ok R (append_instruction i);
  R_assertion reason overflow : (∀ cs n cs', overflow cs ≠ (Ok n, cs')) →
    on_ok R (compile_assertion reason (wp_plus_two overflow));
  R_label l : on_ok R (define_label_here l);
  R_map loc : on_ok R (map_range loc);
  R_context c cs cs' : R (enter_context c cs) cs' → R cs (leave_context cs')
}.

Section Tolerated.
Variable env : CompileEnv.
Variable R : CompileState → CompileState → Prop.
Context `{!PreOrder R} `{!Tolerant R}.

Lemma closed_modify f : (∀ cs, same_code cs (f cs)) → on_ok R (modify f : C unit).
Proof. intros Hf s b s' [= _ <-]. apply R_same, Hf. Qed.
Lemma closed_fail {A} t : on_ok R (cfail t : C A).
Proof. intros s b s' (e & s1 & _ & ?)%M_bind_inv_Ok. done. Qed.
Lemma closed_fail_at {A} t loc : on_ok R (cfail_at t loc : C A).
Proof. intros s b s' (e & s1 & _ & ?)%M_bind_inv_Ok. done. Qed.
Lemma closed_get_or {A} (o : option A) t : on_ok R (get_or o t).
Proof. destruct o; [apply on_ok_ret, _|apply closed_fail]. Qed.
Lemma closed_anonymous : on_ok R anonymous_label.
Proof.
  unfold anonymous_label. apply on_ok_bind; [done|apply on_ok_get, _|]. intros cs.
  destruct (checked_add _ _); [|apply on_ok_crash]. apply on_ok_bind; [done|by apply closed_modify|intros _; apply on_ok_ret, _].
Qed.
Lemma closed_types f : on_ok R (on_types f).
Proof.
  unfold on_types. apply on_ok_bind; [done|apply on_ok_get, _|]. intros cs. apply on_ok_bind; [done|apply on_ok_lift, _|].
  intros s. by apply closed_modify.
Qed.
Lemma closed_statement_context : on_ok R get_statement_context.
Proof. unfold get_statement_context. apply on_ok_bind; [done|apply on_ok_get, _|]. intros cs. apply closed_get_or. Qed.

End Tolerated.

(** Split a method into its calls. *)
Ltac closed_step :=
  match goal with
  | |- on_ok ?R (_ ≫= _) => apply on_ok_bind; [exact _| |intros ?]
  | |- on_ok ?R (mret _) => apply on_ok_ret, _
  | |- on_ok ?R get_state => apply on_ok_get, _
  | |- on_ok ?R (lift _) => apply on_ok_lift, _
  | |- on_ok ?R (ctry _) => apply on_ok_lift, _
  | |- on_ok ?R (crash _) => apply on_ok_crash
  | |- on_ok ?R (cfail _) => apply closed_fail
  | |- on_ok ?R (cfail_at _ _) => apply closed_fail_at
  | |- on_ok ?R (get_or _ _) => apply closed_get_or
  | |- on_ok ?R anonymous_label => apply closed_anonymous
  | |- on_ok ?R (on_types _) => apply closed_types
  | |- on_ok ?R get_statement_context => apply closed_statement_context
  | |- on_ok ?R (append_instruction _) => apply R_append; done
  | |- on_ok ?R (define_label_here _) => apply R_label
  | |- on_ok ?R (map_range _) => apply R_map
  | |- on_ok ?R (define_action _ _) => apply R_define_action
  | |- on_ok ?R (define_command _ _) => apply R_define_command
  | |- on_ok ?R (modify _) => apply closed_modify; [exact _|by intros ?; split_and!]
  | |- on_ok ?R (compile_assertion _ _) => apply R_assertion; done
  | |- on_ok ?R (for_each _ _) => apply on_ok_for_each; [exact _|intros ? ?]
  | |- on_ok ?R (if ?b then _ else _) => destruct b
  | |- on_ok ?R (match ?x with _ => _ end) => destruct x
  | H : on_ok ?R ?m |- on_ok ?R ?m => exact H
  end.
Ltac closed := repeat (closed_step; simpl); try exact _; auto with closed.
#[export] Hint Extern 1 (Tolerant _) => exact _ : closed.
#[export] Hint Extern 1 (Respected _) => exact _ : closed.
#[export] Hint Extern 1 (Unsigned _) => exact _ : closed.
#[export] Hint Extern 1 (Acting _) => exact _ : closed.
#[export] Hint Extern 1 (PreOrder _) => exact _ : closed.


Section ToleratedMethods.
Variable env : CompileEnv.
Variable R : CompileState → CompileState → Prop.
Context `{!PreOrder R} `{!Tolerant R}.

Lemma closed_keys schema lit : on_ok R (verify_keys schema lit).
Proof. revert lit. induction schema as [|x schema IH]; intros [|y lit]; simpl; closed. Qed.
Lemma closed_values lit schema : on_ok R (verify_values lit schema).
Proof. revert schema. induction lit as [|x lit IH]; intros [|y schema]; simpl; closed. Qed.
#[local] Hint Resolve closed_keys closed_values : closed.
Lemma closed_fact_values values def : on_ok R (verify_fact_values values def).
Proof. unfold verify_fact_values. closed. Qed.
#[local] Hint Resolve closed_fact_values : closed.
Lemma closed_fact_def name : on_ok R (get_fact_def name).
Proof. unfold get_fact_def. closed. Qed.
#[local] Hint Resolve closed_fact_def : closed.
Lemma closed_verify fact b : on_ok R (verify_fact_against_schema fact b).
Proof. unfold verify_fact_against_schema. closed. Qed.
#[local] Hint Resolve closed_verify : closed.

(** ** Definitions *)
Lemma closed_unique seen l : on_ok R (check_unique seen l).
Proof. revert seen. induction l as [|x l IH]; intros seen; simpl; closed. Qed.
Lemma closed_enum_values n seen l : on_ok R (check_enum_values n seen l).
Proof. revert seen. induction l as [|x l IH]; intros seen; simpl; closed. Qed.
#[local] Hint Resolve closed_unique closed_enum_values : closed.
Lemma closed_fact f : on_ok R (define_fact f).
Proof. unfold define_fact. closed. Qed.
Lemma closed_struct i l : on_ok R (define_struct i l).
Proof. unfold define_struct. closed. Qed.
Lemma closed_enum e : on_ok R (compile_enum_definition e).
Proof. unfold compile_enum_definition. closed. Qed.
Lemma closed_signature `{!Unsigned R} i sig loc : on_ok R (define_signature i sig loc).
Proof. unfold define_signature. closed. intros ? ? ? [= _ <-]. apply R_signatures. Qed.
Lemma closed_global g : on_ok R (compile_global_let g).
Proof. unfold compile_global_let. closed. Qed.
#[local] Hint Resolve closed_fact closed_struct closed_enum closed_signature closed_global : closed.
Lemma closed_definitions `{!Unsigned R} p : on_ok R (compile_definitions env p).
Proof. unfold compile_definitions, define_finish_function_signature. closed. Qed.

Lemma closed_check_arguments l loc : on_ok R (check_arguments l loc).
Proof. unfold check_arguments. closed. Qed.
Lemma closed_attribute c a : on_ok R (compile_attribute c a).
Proof. unfold compile_attribute. closed. Qed.
End ToleratedMethods.
#[export] Hint Resolve closed_keys closed_values closed_fact_values closed_fact_def closed_verify closed_unique closed_enum_values
  closed_fact closed_struct closed_enum closed_signature closed_global closed_check_arguments : closed.

Section Closed.
Variable env : CompileEnv.
Variable R : CompileState → CompileState → Prop.
Context `{!PreOrder R} `{!Respected R}.

(** ** Expressions *)
Section Expressions.
Variable ce : Expression → C Typeish.
Abbreviation all l := (Forall (λ e, on_ok R (ce e)) l).

Lemma closed_fields set fields : (∀ x, unresolved (set x) = true) → all (field_exprs fields) → on_ok R (compile_fields ce set fields).
Proof.
  intros Hset Hf. unfold compile_fields. apply on_ok_for_each; [done|]. intros [n f] Hx. destruct f as [e|]; simpl; closed.
  rewrite Forall_forall in Hf. apply Hf, list_elem_of_In, in_flat_map. exists (n, FExpression e).
  split; [by apply list_elem_of_In|by left].
Qed.
Lemma closed_fact_literal f : all (fact_exprs f) → on_ok R (compile_fact_literal ce f).
Proof.
  unfold compile_fact_literal, fact_exprs. intros [Hk Hv]%Forall_app. closed; by apply closed_fields.
Qed.
Lemma closed_arguments l : all l → on_ok R (compile_arguments ce l).
Proof. rewrite Forall_forall. intros Hl. unfold compile_arguments. closed. Qed.
#[local] Hint Resolve closed_fact_literal closed_arguments : closed.
Lemma closed_function_call f b : all (fc_arguments f) → on_ok R (compile_function_call ce f b).
Proof. intros Hf. unfold compile_function_call. closed. Qed.
#[local] Hint Resolve closed_function_call : closed.
Lemma closed_query f : all (fact_exprs f) → on_ok R (compile_query ce f).
Proof. intros Hf. unfold compile_query. closed. Qed.
#[local] Hint Resolve closed_query : closed.
Lemma closed_internal f : all (subexprs (EInternalFunction f)) → on_ok R (compile_internal_function ce f).
Proof.
  destruct f; simpl; intros Hf; try (closed; fail).
  - unfold compile_counting_function. closed.
  - rewrite !Forall_cons in Hf. destruct Hf as (? & ? & ? & _). unfold compile_if_expression. closed.
  - apply Forall_cons in Hf as [? _]. unfold compile_serial. closed.
  - apply Forall_cons in Hf as [? _]. unfold compile_serial. closed.
Qed.
Lemma closed_struct_literal s : all (map snd (ns_fields s)) → on_ok R (compile_struct_literal ce s).
Proof.
  rewrite Forall_forall. intros Hs. unfold compile_struct_literal. closed. apply Hs, list_elem_of_fmap. by exists x.
Qed.
Lemma closed_binary a b i : on_ok R (ce a) → on_ok R (ce b) → unresolved i = true → on_ok R (compile_binary ce a b i).
Proof. intros. unfold compile_binary. closed. Qed.
Lemma closed_weak a b i : on_ok R (ce a) → on_ok R (ce b) → unresolved i = true → on_ok R (compile_weak_comparison ce a b i).
Proof. intros. unfold compile_weak_comparison. closed. Qed.
Lemma closed_unwrap e r : on_ok R (ce e) → on_ok R (compile_unwrap ce e r).
Proof. intros. unfold compile_unwrap. closed. Qed.
End Expressions.
#[local] Hint Resolve closed_fact_literal closed_arguments closed_function_call closed_query closed_internal closed_struct_literal
  closed_binary closed_weak closed_unwrap : closed.

Lemma closed_expression e : on_ok R (compile_expression env e).
Proof.
  induction e as [e IH] using Expression_nested_ind. assert (on_ok R (expression_type env e)) as Ht by (unfold expression_type; closed).
  destruct e; cbn [compile_expression subexprs] in *; unfold check_finish_expression in *;
    rewrite ?Forall_cons in IH; destruct_and?; try (closed; fail).
  - destruct o; [apply Forall_cons in IH as [? _]|]; closed.
  - unfold compile_pure_call. closed.
  - unfold compile_foreign_call. closed.
  - unfold compile_enum_reference. closed.
Qed.
#[local] Hint Resolve closed_expression : closed.
Lemma closed_expressions l : Forall (λ e, on_ok R (compile_expression env e)) l.
Proof. apply Forall_true. auto with closed. Qed.
#[local] Hint Resolve closed_expressions : closed.

(** ** Statements *)
Lemma closed_bracket (c : StatementContext) (m : C unit) : on_ok R m →
  on_ok R (enter_statement_context c ≫= λ _, m ≫= λ _, exit_statement_context).
Proof.
  intros Hm s [] s' ([] & s1 & [= <-] & ([] & s2 & E2 & [= <-])%M_bind_inv_Ok)%M_bind_inv_Ok. apply (R_context c). by eapply Hm.
Qed.
Lemma closed_arm_test arms label arm : on_ok R (compile_arm_test env arms label arm).
Proof. unfold compile_arm_test. closed. Qed.
#[local] Hint Resolve closed_arm_test : closed.
Lemma closed_arm_tests arms l : on_ok R (compile_arm_tests env arms l).
Proof. induction l as [|arm l IH]; simpl; closed. Qed.
Lemma closed_action_arguments loc args l : on_ok R (compile_action_arguments env loc args l).
Proof. revert args. induction l as [|x l IH]; intros args; simpl; closed. Qed.
Lemma closed_update loc s : on_ok R (compile_update env loc s).
Proof. unfold compile_update. closed. Qed.
Lemma closed_finish_call loc f : on_ok R (compile_finish_call env loc f).
Proof. unfold compile_finish_call. closed. Qed.
#[local] Hint Resolve closed_arm_tests closed_action_arguments closed_update closed_finish_call : closed.
Lemma closed_action_call loc f : on_ok R (compile_action_call env loc f).
Proof. unfold compile_action_call. closed. Qed.
#[local] Hint Resolve closed_action_call : closed.

Section Blocks.
Variable cn : Statements → StatementContext → AstNode Statement → C unit.
Abbreviation node_ok := (λ s, ∀ statements context loc, on_ok R (cn statements context (mkAstNode s loc))).
Abbreviation all l := (Forall node_ok (block_statements l)).
Lemma closed_block l scope : all l → on_ok R (compile_block cn l scope).
Proof.
  rewrite Forall_forall. intros Hl. unfold compile_block. closed. destruct x as [s loc]. apply Hl, list_elem_of_fmap. by exists (mkAstNode s loc).
Qed.
#[local] Hint Resolve closed_block : closed.
Lemma closed_arms e arms labels : Forall node_ok (flat_map (λ a, block_statements (ma_statements a)) arms) → on_ok R (compile_arms cn e arms labels).
Proof.
  revert labels. induction arms as [|arm arms IH]; intros [|l labels] Ha; simpl; closed; apply Forall_app in Ha as [??]; unfold compile_arm; closed.
Qed.
#[local] Hint Resolve closed_arms : closed.
Lemma closed_match loc s : Forall node_ok (substatements (SMatch s)) → on_ok R (compile_match env cn loc s).
Proof. simpl. intros Hs. unfold compile_match. closed. Qed.
Lemma closed_if s : Forall node_ok (substatements (SIf s)) → on_ok R (compile_if env cn s).
Proof.
  simpl. intros [Hb Hf]%Forall_app. unfold compile_if, compile_branch. closed. apply closed_block.
  rewrite Forall_forall in Hb |- *. intros st Hst. apply Hb, list_elem_of_In, in_flat_map. exists x. split; by apply list_elem_of_In.
Qed.
Lemma closed_finish statements node s : all s → on_ok R (compile_finish cn statements node s).
Proof.
  intros Hs s0 [] s' E0. unfold compile_finish in E0.
  apply M_bind_inv_Ok in E0 as ([] & s1 & E1 & E0). apply M_bind_inv_Ok in E0 as ([] & s2 & E2 & E0).
  apply M_bind_inv_Ok in E0 as ([] & s3 & E3 & E0). apply M_bind_inv_Ok in E0 as ([] & s4 & E4 & E0).
  etrans.
  - apply (closed_bracket SCFinish (append_instruction (IMeta (MetaFinish true)) ≫= λ _, compile_block cn s ScopeLayered)) with (a := tt) (s' := s4).
    + closed.
    + unfold mbind, M_bind. rewrite E1. simpl. rewrite E2, E3. done.
  - revert E0. assert (on_ok R (match last statements with
      | None => crash "expected statement"
      | Some l => if negb (node_eqb stmt_eqb node l)
                  then cfail_at (CEUnknown "`finish` must be the last statement in the block") (locator node)
                  else append_instruction (IExit ExitNormal)
      end)) as Hk by closed. apply Hk.
Qed.
Lemma closed_map s : all (map_statements s) → on_ok R (compile_map env cn s).
Proof. intros Hs. unfold compile_map. closed. Qed.
End Blocks.
#[local] Hint Resolve closed_match closed_if closed_finish closed_map closed_block : closed.

Lemma closed_statement s : ∀ statements context loc, on_ok R (compile_statement env statements context s loc).
Proof.
  induction s as [s IH] using Statement_nested_ind. intros statements context loc.
  destruct s; cbn [compile_statement] in *; try (closed; fail).
Qed.
Lemma closed_statements l scope : on_ok R (compile_statements env l scope).
Proof. apply closed_block, Forall_true. intros. apply closed_statement. Qed.
#[local] Hint Resolve closed_statements : closed.

(** ** Functions, actions and commands *)
Lemma closed_append_arguments l : on_ok R (append_arguments l).
Proof. unfold append_arguments, append_var. closed. Qed.
Lemma closed_returning l loc : on_ok R (compile_returning env l loc).
Proof. unfold compile_returning, range_has_return. closed. Qed.
#[local] Hint Resolve closed_append_arguments closed_returning : closed.
Lemma closed_function `{!Unsigned R} f : on_ok R (compile_function env f).
Proof. unfold compile_function, define_function_signature. closed. Qed.
Lemma closed_finish_function f : on_ok R (compile_finish_function env f).
Proof. unfold compile_finish_function. closed. Qed.
Lemma closed_action `{!Acting R} a : on_ok R (compile_action env a).
Proof. unfold compile_action. closed. Qed.
#[local] Hint Resolve closed_function closed_finish_function closed_action : closed.
End Closed.

(** * Code and labels are only added *)

(** An instruction that the VM knows, whose target, if it is resolved, is
    below [n]. *)
Definition target_of (i : Instruction) : option Target :=
  match i with IJump t | IBranch t | ICall t => Some t | _ => None end.
Definition instr_ok (n : nat) (i : Instruction) : Prop :=
  implemented i = true ∧ match target_of i with Some (Resolved a) => a < n | _ => True end.
Lemma instr_ok_mono n n' i : n ≤ n' → instr_ok n i → instr_ok n' i.
Proof. intros Hn [Hi Ht]. split; [done|]. destruct (target_of i) as [[|]|]; [done|lia|done]. Qed.
Lemma unresolved_ok n i : unresolved i = true → instr_ok n i.
Proof. intros Hi. by destruct i as [| | | | | | | |[]|[]| | |[]| | | | | | | | | | | | | | | | | | | | | | | | | | | | |]. Qed.

Section Emits.
Variable env : CompileEnv.
Abbreviation code cs := (ct_progmem (cs_m cs)).
Abbreviation labels_of cs := (ct_labels (cs_m cs)).

(** The write pointer is the length of the code and in range; labels and
    resolved targets are at most the write pointer; the code map has the text
    and the ranges of the policy. *)
Record wf (cs : CompileState) : Prop := {
  wf_wp : cs_wp cs = length (code cs);
  wf_range : (Z.of_nat (cs_wp cs) < pow64)%Z;
  wf_code : Forall (instr_ok (S (cs_wp cs))) (code cs);
  wf_labels_sorted : bt_wf (labels_of cs);
  wf_labels : ∀ l a, bt_get l (labels_of cs) = Some a → a ≤ cs_wp cs;
  wf_codemap : ∃ cm, ct_codemap (cs_m cs) = Some cm ∧ cm_text cm = pl_text (ce_policy env) ∧ cm_ranges cm = pl_ranges (ce_policy env)
                     ∧ mapping_sorted (cm_instruction_mapping cm)
}.
Record extends (cs cs' : CompileState) : Prop := {
  ext_code : code cs `prefix_of` code cs';
  ext_labels : ∀ l a, bt_get l (labels_of cs) = Some a → bt_get l (labels_of cs') = Some a;
  ext_actions : ∀ x args, bt_get x (ct_action_defs (cs_m cs)) = Some args → bt_get x (ct_action_defs (cs_m cs')) = Some args;
  ext_commands : ∀ x fields, bt_get x (ct_command_defs (cs_m cs)) = Some fields → bt_get x (ct_command_defs (cs_m cs')) = Some fields
}.
#[export] Instance extends_preorder : PreOrder extends.
Proof.
  split.
  - intros cs. by split.
  - intros cs1 cs2 cs3 [] []. split; [by etrans|auto..].
Qed.
Definition emits (cs cs' : CompileState) : Prop := wf cs → wf cs' ∧ extends cs cs'.
#[export] Instance emits_preorder : PreOrder emits.
Proof.
  split.
  - by intros cs Hw.
  - intros cs1 cs2 cs3 H12 H23 Hw. destruct (H12 Hw) as [Hw2 He2]. destruct (H23 Hw2) as [Hw3 He3]. split; [done|by etrans].
Qed.

Lemma emits_same cs cs' : same_code cs cs' → emits cs cs'.
Proof. intros (E1 & E2 & E3 & E4 & _ & _ & E5 & E6) []. split; split; rewrite ?E1, ?E2, ?E3, ?E4, ?E5, ?E6; done. Qed.

(** One instruction: it is at the old write pointer. *)
Lemma append_instruction_Ok i cs a cs' :
  append_instruction i cs = (Ok a, cs') →
  cs' = set_wp (S (cs_wp cs)) (on_target (λ t, set_progmem (ct_progmem t ++ [i]) t) cs) ∧ (Z.of_nat (S (cs_wp cs)) < pow64)%Z.
Proof.
  unfold append_instruction. intros (u & s1 & [= _ <-] & (s2 & s3 & [= <- <-] & E)%M_bind_inv_Ok)%M_bind_inv_Ok.
  destruct (checked_add _ 1) as [wp|] eqn:Ec; [|done]. apply checked_add_Some in Ec as [-> Hr]. injection E as _ <-.
  simpl in *. rewrite Nat.add_1_r. split; [done|lia].
Qed.
Lemma append_wf i cs :
  wf cs → (Z.of_nat (S (cs_wp cs)) < pow64)%Z → instr_ok (S (S (cs_wp cs))) i →
  let cs' := set_wp (S (cs_wp cs)) (on_target (λ t, set_progmem (ct_progmem t ++ [i]) t) cs) in wf cs' ∧ extends cs cs'.
Proof.
  intros [] Hr Hi. split; split; simpl; rewrite ?length_app; simpl; try done; try lia.
  - apply Forall_app. split; [|by apply Forall_singleton]. eapply Forall_impl; [done|]. intros j. apply instr_ok_mono. lia.
  - intros l a Hl. specialize (wf_labels0 l a Hl). lia.
  - by exists [i].
Qed.
Lemma emits_append i : unresolved i = true → on_ok emits (append_instruction i).
Proof. intros Hi cs a cs' [-> Hr]%append_instruction_Ok Hw. by apply append_wf, unresolved_ok. Qed.

(** The branch of an assertion skips the exit that follows it. *)
Lemma compile_assertion_Ok reason overflow cs a cs' :
  (∀ cs n cs', overflow cs ≠ (Ok n, cs')) → compile_assertion reason (wp_plus_two overflow) cs = (Ok a, cs') →
  cs' = set_wp (S (S (cs_wp cs))) (on_target (λ t, set_progmem (ct_progmem t ++ [IBranch (Resolved (S (S (cs_wp cs)))); IExit reason]) t) cs)
  ∧ (Z.of_nat (S (S (cs_wp cs))) < pow64)%Z.
Proof.
  intros Ho (n & s1 & E1 & (u & s2 & E2 & E3)%M_bind_inv_Ok)%M_bind_inv_Ok. unfold wp_plus_two in E1.
  apply M_bind_inv_Ok in E1 as (x & y & [= <- <-] & E1). destruct (checked_add _ 2) as [m|] eqn:Ec; [|by destruct (Ho _ _ _ E1)].
  apply checked_add_Some in Ec as [-> Hr]. injection E1 as <- <-. apply append_instruction_Ok in E2 as [-> _].
  apply append_instruction_Ok in E3 as [-> ?]. unfold on_target. simpl in *.
  replace (cs_wp cs + 2) with (S (S (cs_wp cs))) by lia. by rewrite <- app_assoc.
Qed.
Lemma emits_assertion reason overflow : (∀ cs n cs', overflow cs ≠ (Ok n, cs')) →
  on_ok emits (compile_assertion reason (wp_plus_two overflow)).
Proof.
  intros Ho cs a cs' [-> Hr]%compile_assertion_Ok Hw; [|done]. destruct Hw.
  split; split; simpl; rewrite ?length_app; simpl; try done; try lia.
  - apply Forall_app. split; [eapply Forall_impl; [done|]; intros j; apply instr_ok_mono; lia|].
    repeat constructor; simpl; lia.
  - intros l b Hl. specialize (wf_labels0 l b Hl). lia.
  - by eexists.
Qed.

Lemma define_label_here_Ok l cs a cs' :
  define_label_here l cs = (Ok a, cs') →
  bt_get l (labels_of cs) = None ∧ cs' = on_target (λ t, set_labels (bt_insert l (cs_wp cs) (ct_labels t)) t) cs.
Proof.
  unfold define_label_here, define_label. intros (x & s1 & [= <- <-] & (y & s2 & [= <- <-] & E)%M_bind_inv_Ok)%M_bind_inv_Ok.
  destruct (bt_get l (labels_of cs)) eqn:El; [|by injection E as _ <-].
  by apply M_bind_inv_Ok in E as (e & s2 & _ & ?).
Qed.
Lemma emits_label l : on_ok emits (define_label_here l).
Proof.
  intros cs a cs' [Hn ->]%define_label_here_Ok []. split; split; simpl; try done.
  - by apply bt_wf_insert.
  - intros k b. rewrite bt_get_insert. destruct (ord_eqb k l); [by intros [= <-]|apply wf_labels0].
  - intros k b Hk. rewrite bt_get_insert_ne; [done|]. congruence.
Qed.

Lemma emits_map loc : on_ok emits (map_range loc).
Proof.
  intros cs a cs' E Hw. unfold map_range in E. apply M_bind_inv_Ok in E as (u & s1 & [= _ <-] & E).
  apply M_bind_inv_Ok in E as (x & s2 & [= <- <-] & E). destruct Hw. destruct wf_codemap0 as (cm & Hcm & Ht & Hg & Hs). simpl in E.
  rewrite Hcm in E. destruct (map_instruction_range _ _ _) as [cm'|e|w] eqn:Em; [|by apply M_bind_inv_Ok in E as (? & ? & _ & ?)|done].
  injection E as _ <-. pose proof (map_instruction_range_sorted _ _ _ _ Hs Em) as Hs'.
  assert (cm_text cm' = cm_text cm ∧ cm_ranges cm' = cm_ranges cm) as [Ht' Hg'].
  { clear -Em. unfold map_instruction_range in Em. crush_match. }
  split; split; simpl; try done. exists cm'. split_and!; [done|congruence..|done].
Qed.
Lemma emits_context c cs cs' : emits (enter_context c cs) cs' → emits cs (leave_context cs').
Proof.
  intros He Hw. assert (wf (enter_context c cs)) as [Hw' [H1 H2]]%He by by destruct Hw.
  unfold leave_context. destruct (vec_pop _) as [[? rest]|]; [|done]. split; [by destruct Hw'|by split].
Qed.
End Emits.

(** ** Contexts *)
Definition same_context (cs cs' : CompileState) : Prop := cs_statement_context cs' = cs_statement_context cs.
#[export] Instance same_context_preorder : PreOrder same_context.
Proof. split; [by intros cs|]. intros cs1 cs2 cs3 H1 H2. unfold same_context in *. congruence. Qed.
Lemma context_append i : on_ok same_context (append_instruction i).
Proof. by intros cs a cs' [-> Hr]%append_instruction_Ok. Qed.
Lemma context_assertion reason overflow : (∀ cs n cs', overflow cs ≠ (Ok n, cs')) →
  on_ok same_context (compile_assertion reason (wp_plus_two overflow)).
Proof. by intros Ho cs a cs' [-> Hr]%compile_assertion_Ok. Qed.
Lemma context_label l : on_ok same_context (define_label_here l).
Proof. by intros cs a cs' [_ ->]%define_label_here_Ok. Qed.
Lemma context_map loc : on_ok same_context (map_range loc).
Proof.
  intros cs a cs' E. unfold map_range in E. apply M_bind_inv_Ok in E as (u & s1 & [= _ <-] & E).
  apply M_bind_inv_Ok in E as (x & s2 & [= <- <-] & E). simpl in E.
  destruct (ct_codemap _) as [cm|]; [|by injection E as _ <-].
  destruct (map_instruction_range _ _ _) as [cm'|e|w]; [|by apply M_bind_inv_Ok in E as (? & ? & _ & ?)|done]. by injection E as _ <-.
Qed.
Lemma context_context c cs cs' : same_context (enter_context c cs) cs' → same_context cs (leave_context cs').
Proof. unfold same_context, leave_context. simpl. intros ->. unfold vec_push. by rewrite vec_pop_snoc. Qed.


#[export] Instance emits_respected env : Respected (emits env).
Proof.
  split.
  - intros cs cs'. apply emits_same.
  - apply emits_append.
  - apply emits_assertion.
  - apply emits_label.
  - apply emits_map.
  - apply emits_context.
Qed.
#[export] Instance same_context_respected : Respected same_context.
Proof.
  split.
  - by intros cs cs' (_ & _ & _ & _ & E & _).
  - intros i _. apply context_append.
  - apply context_assertion.
  - apply context_label.
  - apply context_map.
  - apply context_context.
Qed.
Lemma define_action_Ok x args cs a cs' : define_action x args cs = (Ok a, cs') →
  bt_get x (ct_action_defs (cs_m cs)) = None ∧ cs' = on_target (λ t, set_action_defs (bt_insert x args (ct_action_defs t)) t) cs.
Proof.
  intros (y & s1 & [= <- <-] & E)%M_bind_inv_Ok. destruct (bt_get x _) eqn:Ex; [by apply M_bind_inv_Ok in E as (? & ? & _ & ?)|].
  by injection E as _ <-.
Qed.
Lemma define_command_Ok x fields cs a cs' : define_command x fields cs = (Ok a, cs') →
  bt_get x (ct_command_defs (cs_m cs)) = None
  ∧ cs' = on_target (λ t, set_command_defs (bt_insert x (bt_from_iter (map (λ f, (fd_identifier f, fd_field_type f)) fields)) (ct_command_defs t)) t) cs.
Proof.
  intros (y & s1 & [= <- <-] & E)%M_bind_inv_Ok. destruct (bt_get x _) eqn:Ex; [by apply M_bind_inv_Ok in E as (? & ? & _ & ?)|].
  by injection E as _ <-.
Qed.
#[export] Instance emits_acting env : Acting (emits env).
Proof.
  split.
  - intros x args cs a cs' [Hx ->]%define_action_Ok Hw. split; [by destruct Hw|]. split; simpl; [done..| |done].
    intros z b Hz. rewrite bt_get_insert_ne; [done|]. congruence.
  - intros x fields cs a cs' [Hx ->]%define_command_Ok Hw. split; [by destruct Hw|]. split; simpl; [done..|].
    intros z b Hz. rewrite bt_get_insert_ne; [done|]. congruence.
Qed.
#[export] Instance same_context_acting : Acting same_context.
Proof. split; [by intros x args cs a cs' [_ ->]%define_action_Ok|by intros x args cs a cs' [_ ->]%define_command_Ok]. Qed.
#[export] Instance emits_unsigned env : Unsigned (emits env).
Proof. intros sigs cs Hw. split; [by destruct Hw|by split]. Qed.
#[export] Instance same_context_unsigned : Unsigned same_context.
Proof. done. Qed.

(** ** Signatures *)
Definition same_signatures (cs cs' : CompileState) : Prop := cs_function_signatures cs' = cs_function_signatures cs.
#[export] Instance same_signatures_preorder : PreOrder same_signatures.
Proof. split; [by intros cs|]. intros cs1 cs2 cs3 H1 H2. unfold same_signatures in *. congruence. Qed.
#[export] Instance same_signatures_respected : Respected same_signatures.
Proof.
  split.
  - by intros cs cs' (_ & _ & _ & _ & _ & E & _).
  - by intros i _ cs a cs' [-> Hr]%append_instruction_Ok.
  - by intros reason overflow Ho cs a cs' [-> Hr]%compile_assertion_Ok.
  - by intros l cs a cs' [_ ->]%define_label_here_Ok.
  - intros loc cs a cs' E. unfold map_range in E. apply M_bind_inv_Ok in E as (u & s1 & [= _ <-] & E).
    apply M_bind_inv_Ok in E as (x & s2 & [= <- <-] & E). simpl in E.
    destruct (ct_codemap _) as [cm|]; [|by injection E as _ <-].
    destruct (map_instruction_range _ _ _) as [cm'|e|w]; [|by apply M_bind_inv_Ok in E as (? & ? & _ & ?)|done]. by injection E as _ <-.
  - intros c cs cs'. unfold same_signatures, leave_context. simpl. by destruct (vec_pop _) as [[? ?]|].
Qed.

(** Methods that compile expressions and statements, all in one. *)
Definition both {S} (R1 R2 : S → S → Prop) (s s' : S) : Prop := R1 s s' ∧ R2 s s'.
#[export] Instance both_preorder {S} (R1 R2 : S → S → Prop) : PreOrder R1 → PreOrder R2 → PreOrder (both R1 R2).
Proof. intros H1 H2. split; [by split|]. intros s1 s2 s3 [] []. split; by etrans. Qed.
#[export] Instance both_respected R1 R2 : Respected R1 → Respected R2 → Respected (both R1 R2).
Proof.
  intros H1 H2. split.
  - intros cs cs' E. split; by apply R_same.
  - intros i Hi cs a cs' E. split; by eapply R_append.
  - intros reason o Ho cs a cs' E. split; by eapply R_assertion.
  - intros l cs a cs' E. split; by eapply R_label.
  - intros l cs a cs' E. split; by eapply R_map.
  - intros c cs cs' []. split; by eapply R_context.
Qed.
Definition grows (env : CompileEnv) := both (emits env) (both same_context same_signatures).

(** * Commands and whole policies *)
Section Policies.
Variable env : CompileEnv.
Abbreviation code cs := (ct_progmem (cs_m cs)).
Abbreviation labels_of cs := (ct_labels (cs_m cs)).

Lemma emits_enter c : on_ok (emits env) (enter_statement_context c).
Proof. intros cs a cs' [= _ <-] Hw. split; [by destruct Hw|by split]. Qed.
Lemma emits_exit : on_ok (emits env) exit_statement_context.
Proof. intros cs a cs' [= _ <-] Hw. destruct (vec_pop _) as [[? rest]|]; split; [by destruct Hw|by split|done|done]. Qed.
#[local] Hint Resolve emits_enter emits_exit closed_statements closed_returning closed_append_arguments closed_function
  closed_finish_function closed_action closed_attribute : closed.

(** ** The end of a function, an action or a command

    The last instruction ends it, and everything points before the end. *)
Definition terminal (i : Instruction) : bool := match i with IReturn | IExit _ => true | _ => false end.
Record sealed (cs : CompileState) : Prop := {
  sealed_last : ∃ i, last (code cs) = Some i ∧ terminal i = true;
  sealed_labels : ∀ l a, bt_get l (labels_of cs) = Some a → a < cs_wp cs;
  sealed_code : Forall (instr_ok (cs_wp cs)) (code cs)
}.
Definition seals (cs cs' : CompileState) : Prop := wf env cs → sealed cs'.
(** Code and labels stay as they are. *)
Definition same_output (cs cs' : CompileState) : Prop :=
  code cs' = code cs ∧ labels_of cs' = labels_of cs ∧ cs_wp cs' = cs_wp cs.
#[local] Instance same_output_preorder : PreOrder same_output.
Proof.
  split; [by intros cs|]. intros cs1 cs2 cs3 (E1 & E2 & E3) (E4 & E5 & E6). unfold same_output. split_and!; congruence.
Qed.
#[local] Instance same_output_tolerant : Tolerant same_output.
Proof. intros cs cs' (? & ? & _ & ? & _). done. Qed.
#[local] Instance same_output_unsigned : Unsigned same_output.
Proof. done. Qed.
#[local] Instance same_output_acting : Acting same_output.
Proof. split; [by intros x args cs a cs' [_ ->]%define_action_Ok|by intros x args cs a cs' [_ ->]%define_command_Ok]. Qed.
Lemma same_output_exit : on_ok same_output exit_statement_context.
Proof. intros cs a cs' [= _ <-]. by destruct (vec_pop _) as [[? rest]|]. Qed.
#[local] Hint Resolve same_output_exit : closed.
Lemma sealed_same cs cs' : same_output cs cs' → sealed cs → sealed cs'.
Proof. intros (E1 & E2 & E3) []. split; rewrite ?E1, ?E2, ?E3; done. Qed.

Lemma seals_bind {A B} (m : C A) (k : A → C B) : on_ok (emits env) m → (∀ a, on_ok seals (k a)) → on_ok seals (m ≫= k).
Proof. intros Hm Hk s b s' (a & s1 & E1 & E2)%M_bind_inv_Ok Hw. eapply Hk; [done|]. by apply (Hm _ _ _ E1). Qed.
Lemma seals_append i : terminal i = true → on_ok seals (append_instruction i).
Proof.
  intros Hi cs a cs' [-> Hr]%append_instruction_Ok []. split; simpl.
  - exists i. by rewrite last_snoc.
  - intros l b Hl. specialize (wf_labels0 l b Hl). lia.
  - apply Forall_app. split; [done|]. apply Forall_singleton, unresolved_ok. by destruct i.
Qed.
Lemma seals_then {A B} (m : C A) (k : A → C B) : on_ok seals m → (∀ a, on_ok same_output (k a)) → on_ok seals (m ≫= k).
Proof. intros Hm Hk s b s' (a & s1 & E1 & E2)%M_bind_inv_Ok Hw. eapply sealed_same; [by eapply Hk|]. by eapply Hm. Qed.

Lemma seals_function f : on_ok seals (compile_function env f).
Proof.
  unfold compile_function, define_function_signature. do 7 (apply seals_bind; [solve [closed]|intros ?]).
  apply seals_then; [by apply seals_append|]. intros ?. closed.
Qed.
Lemma seals_finish_function f : on_ok seals (compile_finish_function env f).
Proof.
  unfold compile_finish_function. do 5 (apply seals_bind; [solve [closed]|intros ?]).
  apply seals_then; [by apply seals_append|]. intros ?. closed.
Qed.
Lemma seals_action a : on_ok seals (compile_action env a).
Proof.
  unfold compile_action. do 6 (apply seals_bind; [solve [closed]|intros ?]).
  apply seals_then; [by apply seals_append|]. intros ?. closed.
Qed.
Lemma emits_command_block c t x l : on_ok (emits env) (compile_command_block env c t x l).
Proof. unfold compile_command_block. closed. Qed.
Lemma emits_command_function c t d v ty l loc m : on_ok (emits env) (compile_command_function env c t d v ty l loc m).
Proof. unfold compile_command_function. closed. Qed.
#[local] Hint Resolve emits_command_block emits_command_function : closed.
Lemma seals_command_function c t d v ty l loc m : on_ok seals (compile_command_function env c t d v ty l loc m).
Proof.
  unfold compile_command_function. case_bool_decide; [intros cs a cs' (? & ? & _ & ?)%M_bind_inv_Ok; done|].
  do 12 (apply seals_bind; [solve [closed]|intros ?]). by apply seals_append.
Qed.
Lemma emits_command c : on_ok (emits env) (compile_command env c).
Proof. unfold compile_command, compile_command_policy, compile_command_recall, compile_command_seal, compile_command_open. closed. Qed.
Lemma seals_command c : on_ok seals (compile_command env c).
Proof.
  unfold compile_command, compile_command_policy, compile_command_recall, compile_command_seal, compile_command_open.
  do 4 (apply seals_bind; [solve [closed]|intros ?]). apply seals_then; [apply seals_command_function|]. intros ?. closed.
Qed.
#[local] Hint Resolve emits_command : closed.

(** ** The whole code *)
Definition seal_step (cs cs' : CompileState) : Prop := wf env cs → sealed cs → wf env cs' ∧ extends cs cs' ∧ sealed cs'.
#[local] Instance seal_step_preorder : PreOrder seal_step.
Proof.
  split; [by intros cs|]. intros cs1 cs2 cs3 H12 H23 Hw Hs. destruct (H12 Hw Hs) as (Hw2 & He2 & Hs2).
  destruct (H23 Hw2 Hs2) as (? & ? & ?). split_and!; [done|by etrans|done].
Qed.
Lemma seal_step_same {A} (m : C A) : on_ok (emits env) m → on_ok same_output m → on_ok seal_step m.
Proof.
  intros He Hs cs a cs' E Hw Hl. destruct (He _ _ _ E Hw). split_and!; [done..|]. eapply sealed_same; [by eapply Hs|done].
Qed.
Lemma seal_step_seals {A} (m : C A) : on_ok (emits env) m → on_ok seals m → on_ok seal_step m.
Proof. intros He Hs cs a cs' E Hw Hl. destruct (He _ _ _ E Hw). split_and!; [done..|]. by eapply Hs. Qed.
Lemma seal_step_enter c : on_ok seal_step (enter_statement_context c).
Proof. apply seal_step_same; [apply emits_enter|]. by intros cs a cs' [= _ <-]. Qed.
Lemma seal_step_exit : on_ok seal_step exit_statement_context.
Proof. apply seal_step_same; [apply emits_exit|apply same_output_exit]. Qed.
#[local] Hint Resolve seals_function seals_finish_function seals_action seals_command : closed.
Lemma seal_step_code p : on_ok seal_step (compile_code env p).
Proof.
  unfold compile_code. repeat match goal with
  | |- on_ok _ (_ ≫= _) => apply on_ok_bind; [exact _| |intros ?]
  | |- on_ok _ (for_each _ _) => apply on_ok_for_each; [exact _|intros ? _]
  | |- on_ok _ (enter_statement_context _) => apply seal_step_enter
  | |- on_ok _ exit_statement_context => apply seal_step_exit
  | |- _ => apply seal_step_seals; [closed|by auto with closed]
  end.
Qed.
Lemma seal_step_definitions p : on_ok seal_step (compile_definitions env p).
Proof. apply seal_step_same; apply closed_definitions; exact _. Qed.

(** The state before the targets are resolved. *)
Lemma wf_new : wf env (compile_state_new env).
Proof.
  split; simpl; try done.
  - apply bt_wf_nil.
  - eexists. split_and!; [done..|constructor].
Qed.
Lemma compiled_code a cs' :
  compile_policy env (compile_state_new env) = (Ok a, cs') →
  ∃ cs progmem, (append_instruction (IExit ExitPanic) ≫= λ _, compile_definitions env (ce_policy env) ≫= λ _,
    compile_code env (ce_policy env)) (compile_state_new env) = (Ok tt, cs)
  ∧ wf env cs ∧ sealed cs ∧ resolve_instructions (labels_of cs) (code cs) = Ok progmem
  ∧ cs' = on_target (λ t, set_labels (List.filter keep_label (ct_labels t)) (set_progmem progmem t)) cs.
Proof.
  unfold compile_policy. intros ([] & cs1 & E1 & ([] & cs2 & E2 & ([] & cs3 & E3 & E4)%M_bind_inv_Ok)%M_bind_inv_Ok)%M_bind_inv_Ok.
  assert (wf env cs1) as Hw1 by (by eapply (emits_append env (IExit ExitPanic) eq_refl), wf_new).
  assert (sealed cs1) as Hs1 by (by eapply (seals_append (IExit ExitPanic) eq_refl), wf_new).
  destruct (seal_step_definitions _ _ _ _ E2 Hw1 Hs1) as (Hw2 & _ & Hs2). destruct (seal_step_code _ _ _ _ E3 Hw2 Hs2) as (Hw3 & _ & Hs3).
  exists cs3. unfold resolve_targets in E4. apply M_bind_inv_Ok in E4 as (x & y & [= <- <-] & E4).
  apply M_bind_inv_Ok in E4 as (progmem & y & E4 & E5). unfold ctry, lift in E4.
  destruct (resolve_instructions _ _) as [pm|e|w] eqn:Er; [|done..]. injection E4 as -> <-. exists progmem. split_and!; try done.
  - unfold mbind, M_bind. by rewrite E1, E2.
  - by injection E5 as _ <-.
Qed.
End Policies.
