(* ===== verification/CompiledCode.v ===== *)
(** Compiled code in the VM: the program counter stays in the code, targets are
    resolved, and a compiled policy does not make the VM panic. *)
From S2P Require Import Prelude Collections PolicyData PolicyModule VmScope Vm VmInvariant VmCalls VmSafety VmEntry.
From S2P Require Import Ast CompileTypes Compile CompileProofs.
Local Open Scope string_scope.
Local Open Scope list_scope.
Local Open Scope nat_scope.

(** * Resolved targets *)
Lemma resolve_instruction_shape L i i' :
  resolve_instruction L i = Ok i' →
  implemented i' = implemented i ∧ terminal i' = terminal i
  ∧ match target_of i with
    | Some (Unresolved l) => ∃ a, bt_get l L = Some a ∧ target_of i' = Some (Resolved a)
    | t => target_of i' = t
    end.
Proof.
  unfold resolve_instruction, resolve_target. destruct i as [| | | | | | | |[l|]|[l|]| | |[l|]| | | | | | | | | | | | | | | | | | | | | | | | | | | | |]; intros E;
    try (injection E as <-; done).
  all: destruct (bt_get l L) as [a|] eqn:El; [|done]; injection E as <-; split_and!; [done..|by exists a].
Qed.
Lemma resolve_instructions_lookup L l l' pc :
  resolve_instructions L l = Ok l' →
  match l !! pc with
  | Some i => ∃ i', l' !! pc = Some i' ∧ resolve_instruction L i = Ok i'
  | None => l' !! pc = None
  end.
Proof.
  revert l' pc. induction l as [|i l IH]; intros l' pc E; simpl in E; [by injection E as <-|].
  apply outcome_bind_Ok in E as (i' & Ei & E). apply outcome_bind_Ok in E as (l1 & El & E). injection E as <-.
  destruct pc as [|pc]; simpl; [by exists i'|by apply IH].
Qed.
Lemma resolve_instructions_length L l l' : resolve_instructions L l = Ok l' → length l' = length l.
Proof.
  revert l'. induction l as [|i l IH]; intros l' E; simpl in E; [by injection E as <-|].
  apply outcome_bind_Ok in E as (i' & Ei & E). apply outcome_bind_Ok in E as (l1 & El & E). injection E as <-. simpl. by rewrite (IH _ El).
Qed.

(** * Closed code *)
Definition resolved_below (n : nat) (i : Instruction) : Prop :=
  match target_of i with
  | Some (Resolved a) => a < n
  | Some (Unresolved _) => False
  | None => True
  end.
Record code_closed (m : Machine) : Prop := {
  cc_instr pc i : progmem m !! pc = Some i → implemented i = true ∧ resolved_below (length (progmem m)) i;
  cc_last : ∃ i, last (progmem m) = Some i ∧ terminal i = true;
  cc_labels l a : bt_get l (labels m) = Some a → a < length (progmem m);
  cc_range : (Z.of_nat (length (progmem m)) < pow64)%Z
}.

(** The machine of a compiled module. *)
Definition compiles_to (env : CompileEnv) (m : Machine) : Prop :=
  ∃ md, compile env = Ok md ∧ from_module md = Ok m.
Lemma compiles_to_inv env m : compiles_to env m →
  ∃ cs, (append_instruction (IExit ExitPanic) ≫= λ _, compile_definitions env (ce_policy env) ≫= λ _,
    compile_code env (ce_policy env)) (compile_state_new env) = (Ok tt, cs)
  ∧ wf env cs ∧ sealed cs ∧ resolve_instructions (ct_labels (cs_m cs)) (ct_progmem (cs_m cs)) = Ok (progmem m)
  ∧ labels m = List.filter keep_label (ct_labels (cs_m cs)) ∧ codemap m = ct_codemap (cs_m cs)
  ∧ action_defs m = ct_action_defs (cs_m cs) ∧ globals m = ct_globals (cs_m cs)
  ∧ struct_defs m = ct_struct_defs (cs_m cs) ∧ fact_defs m = ct_fact_defs (cs_m cs) ∧ command_defs m = ct_command_defs (cs_m cs).
Proof.
  intros (md & E & Em). unfold compile in E. destruct (compile_policy _ _) as [res cs'] eqn:Ec. destruct res as [[]|e|w]; [|done..].
  injection E as <-. apply compiled_code in Ec as (cs & pm & ? & ? & ? & ? & ->). simpl in Em. injection Em as <-. by exists cs.
Qed.

Lemma compiled_code_closed env m : compiles_to env m → code_closed m.
Proof.
  intros (cs & _ & Hw & Hs & Hr & Hl & _)%compiles_to_inv. pose proof (resolve_instructions_length _ _ _ Hr) as Hlen.
  destruct Hw as [Hwp Hrange _ Hsorted _ _]. destruct Hs as [Hlast Hlab Hcode]. split.
  - intros pc i' Hi'. pose proof (resolve_instructions_lookup _ _ _ pc Hr) as Hpc.
    destruct (ct_progmem (cs_m cs) !! pc) as [i|] eqn:Hi; [|congruence]. destruct Hpc as (i2 & Hi2 & Hri). simplify_eq.
    destruct (resolve_instruction_shape _ _ _ Hri) as (Himp & _ & Ht). pose proof (Forall_lookup_1 _ _ _ _ Hcode Hi) as [Hok1 Hok2].
    split; [congruence|]. unfold resolved_below. rewrite Hlen, <- Hwp. destruct (target_of i) as [[l|a]|].
    + destruct Ht as (a & Ha & ->). by eapply Hlab.
    + by rewrite Ht.
    + by rewrite Ht.
  - destruct Hlast as (i & Hi & Hterm). rewrite last_lookup in Hi. pose proof (resolve_instructions_lookup _ _ _ (pred (length (ct_progmem (cs_m cs)))) Hr) as Hpc.
    rewrite Hi in Hpc. destruct Hpc as (i' & Hi' & Hri). exists i'. rewrite last_lookup, Hlen. split; [done|].
    destruct (resolve_instruction_shape _ _ _ Hri) as (_ & -> & _). done.
  - intros l a Ha. rewrite Hl in Ha. rewrite bt_get_filter in Ha by done. rewrite Hlen, <- Hwp. destruct (bt_get l _) as [b|] eqn:Hb; [|done].
    simpl in Ha. crush_match. by eapply Hlab.
  - rewrite Hlen. lia.
Qed.

(** * The program counter *)
Section Running.
Context {IO : Type} `{MachineIO IO}.
Variable m : Machine.
Variable to_allocvec : Struct → option (list u8).
Variable from_bytes : list u8 → option Struct.
Hypothesis Hm : code_closed m.
Abbreviation vm_step := (vm_step m to_allocvec from_bytes).

(** The program counter and what follows every return address are in the
    code. *)
Definition pc_ok (s : RunState IO) : Prop :=
  rs_pc s < length (progmem m) ∧ Forall (λ a, S a < length (progmem m)) (rs_call_state s).

Lemma not_last pc i : progmem m !! pc = Some i → terminal i = false → S pc < length (progmem m).
Proof.
  intros Hi Ht. destruct (cc_last _ Hm) as (j & Hj & Htj). rewrite last_lookup in Hj. pose proof (lookup_lt_Some _ _ _ Hi) as Hlt.
  destruct (decide (S pc = length (progmem m))) as [Heq|]; [|lia]. rewrite <- Heq in Hj. simpl in Hj. congruence.
Qed.
Lemma exec_return_inv (s : RunState IO) fl s1 :
  exec_return m s = (Ok fl, s1) →
  fl = ReturnStatus (Exited ExitNormal)
  ∨ ∃ a rest, rs_call_state s = rest ++ [a] ∧ fl = FallThrough ∧ rs_pc s1 = a ∧ rs_call_state s1 = rest.
Proof.
  unfold exec_return, get_state, mbind, M_bind. destruct (rs_call_state s) as [|x l _] using rev_ind; [intros [= <- <-]; by left|].
  destruct (l ++ [x]) eqn:El; [by destruct l|]. rewrite <- El, vec_pop_snoc. intros E. right. exists x, l.
  unfold modify, update_scope, mbind, M_bind, try_at, get_state in E. simpl in E.
  destruct (exit_function _); [by injection E as <- <-|..]; [|done]. unfold fail_at, mbind, M_bind in E. by destruct (err _ _ _) as [[]].
Qed.
Lemma pc_ok_step s s' : pc_ok s → vm_step s s' → pc_ok s'.
Proof.
  intros [Hpc Hcalls] (i & fl & s1 & Hi & E & Hfl)%vm_step_inv. destruct (cc_instr _ Hm _ _ Hi) as [_ Ht].
  destruct (is_control i) eqn:Hc.
  - destruct i; try done; simpl in E, Ht.
    + apply exec_jump_inv in E as (n & -> & -> & ->). destruct Hfl as [[? _]|[_ ->]]; [done|]. by split.
    + apply exec_branch_inv in E as (s2 & (Hc2 & Hp2 & _) & [[-> ->]|(n & -> & -> & ->)]).
      * destruct Hfl as [[_ ->]|[? _]]; [|done]. split; simpl; rewrite ?Hc2, ?Hp2; [by eapply not_last|done].
      * destruct Hfl as [[? _]|[_ ->]]; [done|]. split; simpl; by rewrite ?Hc2.
    + destruct t as [l|n]; [by apply fail_at_inv in E|]. injection E as <- <-. destruct Hfl as [[? _]|[_ ->]]; [done|].
      split; simpl; [done|]. apply Forall_app. split; [done|]. apply Forall_singleton. by eapply not_last.
    + apply exec_return_inv in E as [->|(a & rest & Ea & -> & Ep & Er)]; [by destruct Hfl as [[? _]|[? _]]|].
      destruct Hfl as [[_ ->]|[? _]]; [|done]. rewrite Ea in Hcalls. apply Forall_app in Hcalls as [Hrest Ha].
      split; simpl; rewrite ?Ep, ?Er; [exact (Forall_inv Ha)|done].
  - pose proof (kept_exec m to_allocvec from_bytes i Hc s) as (Hc2 & Hp2 & _). rewrite E in Hc2, Hp2. simpl in Hc2, Hp2.
    pose proof (exec_status m to_allocvec from_bytes i s fl s1 Hc E) as Hst. destruct Hfl as [[-> ->]|[-> _]]; [|done].
    split; simpl; rewrite ?Hc2, ?Hp2; [|done]. eapply not_last; [done|]. by destruct i.
Qed.
Lemma pc_ok_steps s s' : pc_ok s → rtc vm_step s s' → pc_ok s'.
Proof. intros Hs. induction 1 as [|s s1 s2 Hst _ IH]; [done|]. apply IH. by eapply pc_ok_step. Qed.
End Running.

(** * Positions *)
Lemma binary_search_from_at i key l j : binary_search_from i key l = inl j → i ≤ j ∧ ∃ v, l !! (j - i) = Some (key, v).
Proof.
  revert i. induction l as [|[k v] l IH]; intros i; simpl; [done|]. destruct (Nat.eqb_spec k key) as [->|].
  - intros [= <-]. split; [done|]. exists v. by rewrite Nat.sub_diag.
  - destruct (key <? k); [done|]. intros (? & w & Hw)%IH. split; [lia|]. exists w. by replace (j - i) with (S (j - S i)) by lia.
Qed.
(** The ranges of the policy start inside its text. *)
Definition ranges_ok (p : Policy) : Prop := Forall (λ r, r.1 < length (pl_text p)) (pl_ranges p).
Lemma span_total {E} (cm : CodeMap) loc sp :
  Forall (λ r, r.1 < length (cm_text cm)) (cm_ranges cm) → span_from_locator cm loc = Ok sp →
  is_panic (start_linecol (E := E) sp) = false ∧ is_panic (span_as_str (E := E) sp) = false.
Proof.
  intros Hr Hs. unfold span_from_locator in Hs. destruct (binary_search loc _) as [j|j] eqn:Eb; [|done].
  destruct (cm_ranges cm !! j) as [[b e]|] eqn:Ej; [|done]. unfold span_new in Hs. destruct (str_get _ b e) as [str|] eqn:Eg; [|done].
  injection Hs as <-. pose proof (Forall_lookup_1 _ _ _ _ Hr Ej) as Hb. simpl in Hb.
  split; [|unfold span_as_str; simpl; by rewrite Eg]. unfold start_linecol, linecol. simpl. rewrite (proj2 (Nat.ltb_lt _ _) Hb). simpl.
  unfold str_get in *. destruct (_ && _) eqn:Econd in Eg; [|done]. rewrite !andb_true_iff in Econd. destruct Econd as [[[_ _] Hb'] _].
  rewrite Hb'. assert ((b <=? length (cm_text cm)) = true) as -> by (apply Nat.leb_le; lia). simpl. by destruct (is_char_boundary (cm_text cm) 0).
Qed.
Lemma compiled_codemap_total env m : compiles_to env m → ranges_ok (ce_policy env) → codemap_total m.
Proof.
  intros (cs & _ & Hw & _ & _ & _ & Hcm & _)%compiles_to_inv Hr t pc. destruct (wf_codemap _ _ Hw) as (cm & Ecm & Ht & Hg & Hs).
  rewrite Hcm, Ecm. unfold from_position, with_position. simpl. unfold span_from_instruction. rewrite locator_sorted by done.
  destruct (option_map snd _) as [loc|]; simpl; [|done]. unfold ranges_ok in Hr. rewrite <- Ht, <- Hg in Hr.
  destruct (span_from_locator cm loc) as [sp|e|w] eqn:Es; [|done|].
  - destruct (span_total (E := MachineError) cm loc sp Hr Es). unfold mbind, outcome_bind. by destruct (start_linecol sp), (span_as_str sp).
  - unfold span_from_locator in Es. destruct (binary_search loc _) as [j|j] eqn:Eb; [|done].
    apply binary_search_from_at in Eb as (_ & v & Hv). rewrite Nat.sub_0_r in Hv. rewrite Hv in Es. by destruct (span_new _ _ _).
Qed.
