(* ===== verification/PolicySemantics.v ===== *)
(** A reference semantics of the policy language: what expressions and
    statements mean, as a definitional interpreter over the syntax, with local
    variables instead of a stack machine. It is the specification that compiled
    code is compared with.

    Fuel bounds the nesting of evaluations, so that recursive functions have a
    meaning; [StopUnknown] is the answer when it runs out. Every evaluation is
    given the number of values that are kept for later ([d]): the VM has a stack
    of fixed size, and running out of it is part of the language's behaviour. *)
From S2P Require Import Prelude Collections PolicyData PolicyModule VmScope Vm Ast CompileTypes Compile.
Local Open Scope string_scope.
Local Open Scope list_scope.
Local Open Scope nat_scope.

(** Why an evaluation stops before its end. *)
Inductive stop : Type :=
| StopExit (reason : ExitReason)
| StopError (t : MachineErrorType)
| StopReturn (v : Value)
| StopUnknown.

(** The blocks of the current function, innermost last, and the I/O. *)
Record Local_ (IO : Type) := mkLocal { lo_frame : list (BTreeMap string Value); lo_io : IO }.
Arguments mkLocal {IO}. Arguments lo_frame {IO}. Arguments lo_io {IO}.

(** The counting loop of the VM, without the VM. *)
Fixpoint count_facts (fact : Fact) (limit count : Z) (iter : QueryIterator) : outcome MachineErrorType Z :=
  if (count <? limit)%Z then
    match iter with
    | [] => Ok count
    | Ok f :: iter' =>
        if fact_match fact f.1 f.2 then
          match i64_checked_add count 1 with
          | Some c => count_facts fact limit c iter'
          | None => Err (Bug "should be able to increment fact counter")
          end
        else count_facts fact limit count iter'
    | Err e :: _ => Err (IO_ e)
    | Panic w :: _ => Panic w
    end
  else Ok count.
Definition struct_schema_ok (SD : BTreeMap string (list FieldDefinition)) (s : Struct) : bool :=
  match bt_get (s_name s) SD with
  | Some fields =>
      forallb (λ f, existsb (λ v, bool_decide (fd_identifier v = f.1)) fields) (s_fields s)
      && forallb (λ f, bt_contains (fd_identifier f) (s_fields s)) fields
  | None => false
  end.

(** What the runtime calls. *)
Inductive Entry : Type :=
| EntryAction (a : AstNode ActionDefinition) (args : list Value)
| EntryPolicy (c : AstNode CommandDefinition) (this envelope : Struct)
| EntryRecall (c : AstNode CommandDefinition) (this envelope : Struct)
| EntrySeal (c : AstNode CommandDefinition) (this : Struct)
| EntryOpen (c : AstNode CommandDefinition) (envelope : Struct).
Definition entry_of (p : Policy) (e : Entry) : Prop :=
  match e with
  | EntryAction a _ => a ∈ pl_actions p
  | EntryPolicy c _ _ | EntryRecall c _ _ | EntrySeal c _ | EntryOpen c _ => c ∈ pl_commands p
  end.

Section Semantics.
Context {IO : Type} `{MachineIO IO}.
Variable env : CompileEnv.
(** The global values and the schemas of the policy. *)
Variable G : BTreeMap string Value.
Variable SD : BTreeMap string (list FieldDefinition).
Variable FD : BTreeMap string FactDefinition.
Variable ctx : CommandContext.
Variable to_allocvec : Struct → option (list u8).
Variable from_bytes : list u8 → option Struct.
(** What a foreign function returns for its arguments. *)
Variable ffi : nat → nat → CommandContext → list Value → IO → outcome MachineError Value * IO.
Abbreviation Local := (Local_ IO).
Definition Sem (A : Type) : Type := M Local stop A.

(** * Primitives *)
Definition stop_error {A} (t : MachineErrorType) : Sem A := throw (StopError t).
Definition sem_try {A} (m : outcome MachineErrorType A) : Sem A := lift (map_err StopError m).
Definition sem_io {A} (m : outcome MachineIOError A) : Sem A := sem_try (map_err IO_ m).
Definition conv {V} `{TryFromValue V} (v : Value) : Sem V := sem_try (map_err met_of_conversion (try_from_value v)).
(** Room for one more value. *)
Definition guard (d : nat) : Sem unit := if d <? STACK_SIZE then mret tt else stop_error StackOverflow.
Definition lookup_var (x : string) : Sem Value :=
  s ← get_state;
  sem_try (scope_get x (mkScope G [lo_frame s])).
(** An operation of the scope, on the current function. *)
Definition on_frame (f : ScopeManager → outcome MachineErrorType ScopeManager) : Sem unit := λ s,
  match f (mkScope G [lo_frame s]) with
  | Ok sc => (Ok tt, mkLocal (default [] (last (sc_locals sc))) (lo_io s))
  | Err t => (Err (StopError t), s)
  | Panic w => (Panic w, s)
  end.
Definition on_io {A} (f : IO → outcome MachineIOError A * IO) : Sem A := λ s,
  let '(r, io) := f (lo_io s) in (map_err (λ e, StopError (IO_ e)) r, mkLocal (lo_frame s) io).
Definition update_io (f : IO → IO) : Sem unit := modify (λ s, mkLocal (lo_frame s) (f (lo_io s))).
(** A call: the callee has variables of its own. *)
Definition in_frame {A} (m : Sem A) : Sem A := λ s,
  let '(r, s') := m (mkLocal [[]] (lo_io s)) in (r, mkLocal (lo_frame s) (lo_io s')).
Definition catch_return (m : Sem Value) : Sem Value := λ s,
  match m s with
  | (Err (StopReturn v), s') => (Ok v, s')
  | r => r
  end.

(** * Facts and structs *)
Definition check_fact (f : Fact) : Sem unit :=
  if match bt_get (f_name f) FD with Some schema => validate_fact_schema f schema | None => false end
  then mret tt else stop_error (InvalidSchema (f_name f)).
Definition check_struct (s : Struct) : Sem unit :=
  if struct_schema_ok SD s then mret tt else stop_error (InvalidSchema (s_name s)).
Definition run_query (f : Fact) : Sem QueryIterator :=
  s ← get_state;
  sem_io (io_fact_query (f_name f) (f_keys f) (lo_io s)).
Definition start_query (f : Fact) : Sem QueryIterator :=
  check_fact f ≫= λ _,
  run_query f.
Definition find_fact (f : Fact) : Sem Value :=
  check_fact f ≫= λ _,
  iter ← run_query f;
  match query_find f iter with
  | Some r => kv ← sem_io r; mret (VStruct (struct_new (f_name f) (fact_fields kv)))
  | None => mret VNone
  end.
Definition count (f : Fact) (limit : Z) : Sem Z :=
  check_fact f ≫= λ _,
  iter ← run_query f;
  sem_try (count_facts f limit 0 iter).
Definition set_member (name : string) (v : Value) (s : Struct) : Sem Struct :=
  match bt_get (s_name s) SD with
  | None => stop_error (InvalidSchema (s_name s))
  | Some fields =>
      if existsb (λ f, bool_decide (fd_identifier f = name)) fields
      then mret (mkStruct (s_name s) (bt_insert name v (s_fields s)))
      else stop_error (InvalidStructMember name)
  end.
Definition sem_set_key (name : string) (v : Value) (f : Fact) : Sem Fact := h ← conv v; mret (set_key name h f).
Definition sem_set_value (name : string) (v : Value) (f : Fact) : Sem Fact := mret (set_value name v f).

Definition member (x : string) (v : Value) : Sem Value :=
  s ← conv v;
  sem_try (ok_or (bt_get x (s_fields (s : Struct))) (InvalidStructMember x)).
Definition serialized (v : Value) : Sem Value :=
  match ctx with
  | CtxSeal sc =>
      s ← conv v;
      if negb (bool_decide (s_name (s : Struct) = seal_name sc)) then stop_error InvalidInstruction
      else match to_allocvec s with
           | Some bytes => mret (VBytes bytes)
           | None => stop_error (Unknown "could not serialize command Struct")
           end
  | _ => stop_error InvalidInstruction
  end.
Definition deserialized (v : Value) : Sem Value :=
  match ctx with
  | CtxOpen oc =>
      bytes ← conv v;
      match from_bytes bytes with
      | None => stop_error (Unknown "could not deserialize Struct")
      | Some s => if negb (bool_decide (open_name oc = s_name s)) then stop_error InvalidInstruction else mret (VStruct s)
      end
  | _ => stop_error InvalidInstruction
  end.

(** * Operators *)
Definition arith (op : Z → Z → option Z) (x y : Value) : Sem Value :=
  b ← conv y;
  a ← conv x;
  r ← sem_try (ok_or (op a b) IntegerOverflow);
  mret (VInt r).
Definition logic (op : bool → bool → bool) (x y : Value) : Sem Value :=
  b ← conv y;
  a ← conv x;
  mret (VBool (op b a)).
Definition compare (op : Z → Z → bool) (msg : string) (x y : Value) : Sem Value :=
  match x, y with
  | VInt a, VInt b => mret (VBool (op a b))
  | _, _ => stop_error (InvalidType "Int, Int" (type_name x +:+ ", " +:+ type_name y) msg)
  end.
Definition greater := compare Z.gtb "Greater-than comparison".
Definition less := compare Z.ltb "Less-than comparison".
Definition equal (x y : Value) : Value := VBool (bool_decide (x = y)).
Definition complement (x : Value) : Sem Value := b ← sem_try (map_err met_of_conversion (try_as_mut_bool x)); mret (VBool (negb b)).

Section Recursive.
(** Expressions and blocks, one level of nesting below. *)
Variable ev : nat → Expression → Sem Value.
Variable ex : nat → Statements → Sem unit.

(** * Expressions *)
Fixpoint eval_list (d : nat) (l : list Expression) : Sem (list Value) :=
  match l with
  | [] => mret []
  | e :: l' => v ← ev d e; vs ← eval_list (S d) l'; mret (v :: vs)
  end.
Fixpoint eval_fields (set : string → Value → Fact → Sem Fact) (d : nat) (fields : list (string * FactField)) (f : Fact) : Sem Fact :=
  match fields with
  | [] => mret f
  | (name, FExpression e) :: fields' => v ← ev (S d) e; f ← set name v f; eval_fields set d fields' f
  | (_, FBind) :: fields' => eval_fields set d fields' f
  end.
Definition eval_fact (d : nat) (f : FactLiteral) : Sem Fact :=
  guard d ≫= λ _,
  fact ← eval_fields sem_set_key d (fl_key_fields f) (fact_new (fl_identifier f));
  match fl_value_fields f with
  | Some values => eval_fields sem_set_value d values fact
  | None => mret fact
  end.
Fixpoint eval_members (d : nat) (fields : list (string * Expression)) (s : Struct) : Sem Struct :=
  match fields with
  | [] => mret s
  | (name, e) :: fields' => v ← ev (S d) e; s ← set_member name v s; eval_members d fields' s
  end.
Definition eval_query (d : nat) (f : FactLiteral) : Sem Value := fact ← eval_fact d f; find_fact fact.
Definition eval_count (d : nat) (cmp_type : FactCountType) (limit : Z) (f : FactLiteral) : Sem Value :=
  fact ← eval_fact d f;
  match cmp_type with
  | UpTo => n ← count fact limit; mret (VInt n)
  | AtLeast => n ← count fact limit; guard (S d) ≫= λ _, r ← less (VInt n) (VInt limit); complement r
  | AtMost => n ← count fact (limit + 1); guard (S d) ≫= λ _, r ← greater (VInt n) (VInt limit); complement r
  | Exactly => n ← count fact (limit + 1); guard (S d) ≫= λ _, mret (equal (VInt n) (VInt limit))
  end.
Definition eval_unwrap (d : nat) (e : Expression) (reason : ExitReason) : Sem Value :=
  v ← ev d e;
  guard (S d) ≫= λ _,
  guard (S (S d)) ≫= λ _,
  if bool_decide (v = VNone) then throw (StopExit reason) else mret v.
Definition eval_internal (d : nat) (f : InternalFunction) : Sem Value :=
  match f with
  | IFQuery f => eval_query d f
  | IFExists f =>
      v ← eval_query d f;
      guard (S d) ≫= λ _,
      mret (VBool (negb (bool_decide (v = VNone))))
  | IFFactCount cmp_type limit f => eval_count d cmp_type limit f
  | IFIf c t f =>
      v ← ev d c;
      b ← conv v;
      if (b : bool) then ev d t else ev d f
  | IFSerialize e =>
      v ← ev d e;
      serialized v
  | IFDeserialize e =>
      v ← ev d e;
      deserialized v
  end.

(** The parameters of a function get the values of its arguments, the last
    one first. *)
Definition bind_arguments (params : list FieldDefinition) (args : list Value) : Sem unit :=
  for_each (λ '(x, v), on_frame (scope_set x v)) (rev (zip (map fd_identifier params) args)).
Definition run_body (d : nat) (params : list FieldDefinition) (body : Statements) (args : list Value) : Sem unit :=
  bind_arguments params args ≫= λ _,
  ex d body.
Definition eval_call (d : nat) (f : FunctionCall) : Sem Value :=
  match List.find (λ n, bool_decide (fn_identifier (inner n) = fc_identifier f)) (pl_functions (ce_policy env)) with
  | None => throw StopUnknown
  | Some node =>
      args ← eval_list d (fc_arguments f);
      in_frame (catch_return (
        run_body d (fn_arguments (inner node)) (fn_statements (inner node)) args ≫= λ _,
        throw (StopExit ExitPanic)))
  end.
Definition foreign_index (f : ForeignFunctionCall) : option (nat * nat) :=
  '(i, m) ← find_index (λ m, bool_decide (sch_name m = ffc_module f)) (ce_ffi_modules env);
  '(j, _) ← find_index (λ p, bool_decide (ffn_name p = ffc_identifier f)) (sch_functions m);
  Some (i, j).
Definition call_foreign (i j : nat) (args : list Value) : Sem Value := λ s,
  let '(r, io) := ffi i j ctx args (lo_io s) in
  (map_err (λ e, StopError (me_err_type e)) r, mkLocal (lo_frame s) io).
Definition eval_foreign (d : nat) (f : ForeignFunctionCall) : Sem Value :=
  match foreign_index f with
  | None => throw StopUnknown
  | Some (i, j) =>
      args ← eval_list d (ffc_arguments f);
      if d <? STACK_SIZE then call_foreign i j args else throw StopUnknown
  end.

Definition eval_expression (d : nat) (e : Expression) : Sem Value :=
  let binary (op : Value → Value → Sem Value) a b := x ← ev d a; y ← ev (S d) b; op x y in
  let weak (op : Value → Value → Sem Value) a b :=
    x ← ev d a; y ← ev (S d) b;
    guard (S (S d)) ≫= λ _,
    guard (S (S (S d))) ≫= λ _,
    r ← op x y;
    logic orb (equal x y) r in
  match e with
  | EInt n => guard d ≫= λ _, mret (VInt n)
  | EString s => guard d ≫= λ _, mret (VString s)
  | EBool b => guard d ≫= λ _, mret (VBool b)
  | EOptional None => guard d ≫= λ _, mret VNone
  | EOptional (Some e) => ev d e
  | ENamedStruct s =>
      guard d ≫= λ _,
      st ← eval_members d (ns_fields s) (mkStruct (ns_identifier s) []);
      mret (VStruct st)
  | EInternalFunction f => eval_internal d f
  | EFunctionCall f => eval_call d f
  | EForeignFunctionCall f => eval_foreign d f
  | EIdentifier x => v ← lookup_var x; guard d ≫= λ _, mret v
  | EEnumReference e => guard d ≫= λ _, mret (VEnum (er_identifier e) (er_value e))
  | EAdd a b => binary (arith i64_checked_add) a b
  | ESubtract a b => binary (arith i64_checked_sub) a b
  | EAnd a b => binary (logic andb) a b
  | EOr a b => binary (logic orb) a b
  | EDot e x =>
      v ← ev d e;
      member x v
  | EEqual a b => binary (λ x y, mret (equal x y)) a b
  | ENotEqual a b => binary (λ x y, complement (equal x y)) a b
  | EGreaterThan a b => binary greater a b
  | ELessThan a b => binary less a b
  | EGreaterThanOrEqual a b => weak greater a b
  | ELessThanOrEqual a b => weak less a b
  | ENegative e => v ← ev d e; guard (S d) ≫= λ _, arith i64_checked_sub (VInt 0) v
  | ENot e => v ← ev d e; complement v
  | EUnwrap e => eval_unwrap d e ExitPanic
  | ECheckUnwrap e => eval_unwrap d e ExitCheck
  | EIs e expr_is_some =>
      v ← ev d e;
      guard (S d) ≫= λ _,
      mret (VBool (if expr_is_some : bool then negb (bool_decide (v = VNone)) else bool_decide (v = VNone)))
  end.

(** * Statements *)
Fixpoint matches_value (d : nat) (v : Value) (values : list Expression) : Sem bool :=
  match values with
  | [] => mret false
  | e :: values' =>
      guard (S d) ≫= λ _,
      w ← ev (S (S d)) e;
      if bool_decide (v = w) then mret true else matches_value d v values'
  end.
Fixpoint run_arms (d : nat) (v : Value) (arms : list MatchArm) : Sem unit :=
  match arms with
  | [] => throw (StopExit ExitPanic)
  | arm :: arms' =>
      match ma_pattern arm with
      | PatDefault => ex d (ma_statements arm)
      | PatValues values =>
          found ← matches_value d v values;
          if (found : bool) then ex d (ma_statements arm) else run_arms d v arms'
      end
  end.
Fixpoint run_branches (d : nat) (branches : list (Expression * Statements)) (fallback : Sem unit) : Sem unit :=
  match branches with
  | [] => fallback
  | (cond, block) :: branches' =>
      v ← ev d cond;
      b ← complement v;
      skip ← conv b;
      if (skip : bool) then run_branches d branches' fallback else ex d block
  end.
(** One turn of [map] per fact that the query found. *)
Definition bind_fact (d : nat) (ident : string) (item : QueryItem) : Sem unit :=
  kv ← sem_io item;
  on_frame (scope_set ident (VStruct (struct_new ident (fact_fields kv)))) ≫= λ _,
  guard d.
Fixpoint run_map (d : nat) (ident : string) (body : Statements) (iter : QueryIterator) : Sem unit :=
  on_frame enter_block ≫= λ _,
  match iter with
  | [] => guard d ≫= λ _, on_frame exit_block
  | item :: iter' =>
      bind_fact d ident item ≫= λ _,
      ex d body ≫= λ _,
      on_frame exit_block ≫= λ _,
      run_map d ident body iter'
  end.
Definition run_update (from to : Fact) : Sem unit :=
  iter ← run_query from;
  replaced ← match iter with
             | [] => stop_error (InvalidFact (f_name from))
             | item :: _ => sem_io item
             end;
  on_io (io_fact_delete (f_name from) replaced.1) ≫= λ _,
  on_io (io_fact_insert (f_name to) (f_keys to) (f_values to)).
Definition emitted_by : Sem (Id * bool) :=
  match ctx with
  | CtxPolicy c => mret (pc_id c, false)
  | CtxRecall c => mret (pc_id c, true)
  | _ => stop_error (BadState "Emit: wrong command context")
  end.
Definition run_call (d : nat) (params : list FieldDefinition) (body : Statements) (arguments : list Expression) : Sem unit :=
  args ← eval_list d arguments;
  in_frame (run_body d params body args).
Definition assertion (v : Value) (reason : ExitReason) : Sem unit :=
  b ← conv v;
  if (b : bool) then mret tt else throw (StopExit reason).

Definition run_statement (d : nat) (s : Statement) : Sem unit :=
  match s with
  | SLet s => v ← ev d (let_expression s); on_frame (scope_set (let_identifier s) v)
  | SCheck s => v ← ev d (check_expression s); assertion v ExitCheck
  | SMatch s => v ← ev d (ms_expression s); run_arms d v (ms_arms s)
  | SIf s => run_branches d (if_branches s) (match if_fallback s with Some b => ex d b | None => mret tt end)
  | SFinish b =>
      on_frame enter_block ≫= λ _,
      ex d b ≫= λ _,
      on_frame exit_block ≫= λ _,
      throw (StopExit ExitNormal)
  | SMap s =>
      fact ← eval_fact d (map_fact s);
      iter ← start_query fact;
      run_map d (map_identifier s) (map_statements s) iter
  | SReturn s => v ← ev d (return_expression s); throw (StopReturn v)
  | SActionCall f =>
      match List.find (λ a, bool_decide (action_identifier (inner a) = fc_identifier f)) (pl_actions (ce_policy env)) with
      | None => throw StopUnknown
      | Some node => run_call d (action_arguments (inner node)) (action_statements (inner node)) (fc_arguments f)
      end
  | SPublish e =>
      v ← ev d e;
      s ← conv v;
      check_struct s ≫= λ _,
      update_io (io_publish (struct_to_kvpairs s).1 (struct_to_kvpairs s).2)
  | SCreate s =>
      f ← eval_fact d (create_fact s);
      on_io (io_fact_insert (f_name f) (f_keys f) (f_values f))
  | SUpdate s =>
      from ← eval_fact d (update_fact s);
      guard (S d) ≫= λ _,
      to ← eval_fields sem_set_value (S d) (update_to s) from;
      run_update from to
  | SDelete s =>
      f ← eval_fact d (delete_fact s);
      on_io (io_fact_delete (f_name f) (f_keys f))
  | SEmit e =>
      v ← ev d e;
      s ← conv v;
      check_struct s ≫= λ _,
      cr ← emitted_by;
      update_io (io_effect (struct_to_kvpairs s).1 (struct_to_kvpairs s).2 cr.1 cr.2)
  | SFunctionCall f =>
      match List.find (λ n, bool_decide (ff_identifier (inner n) = fc_identifier f)) (pl_finish_functions (ce_policy env)) with
      | None => throw StopUnknown
      | Some node => run_call d (ff_arguments (inner node)) (ff_statements (inner node)) (fc_arguments f)
      end
  | SDebugAssert e => if ce_is_debug env then v ← ev d e; assertion v ExitPanic else mret tt
  end.
End Recursive.

(** * Evaluation *)
Fixpoint eval (n : nat) (d : nat) (e : Expression) : Sem Value :=
  match n with
  | 0 => throw StopUnknown
  | S n' => eval_expression (eval n') (exec_statements n') d e
  end
with exec_statements (n : nat) (d : nat) (l : Statements) : Sem unit :=
  match n with
  | 0 => throw StopUnknown
  | S n' => for_each (λ s, run_statement (eval n') (exec_statements n') d (inner s)) l
  end.

(** * Entry points

    What the runtime calls. An evaluation that ends is a normal exit; the
    functions that make an envelope of a command and back have a result. *)
Definition run_block (n : nat) (body : Statements) (envelope : Struct) : Sem (option Value) :=
  (on_frame (scope_set "envelope" (VStruct envelope)) ≫= λ _, exec_statements n 0 body) ≫= λ _,
  mret None.
Definition run_function (n : nat) (x : string) (arg : Struct) (body : Statements) : Sem (option Value) :=
  v ← in_frame (catch_return (
    (on_frame (scope_set x (VStruct arg)) ≫= λ _, exec_statements n 0 body) ≫= λ _,
    throw (StopExit ExitPanic)));
  mret (Some v).
Definition meaning (n : nat) (e : Entry) : Sem (option Value) :=
  match e with
  | EntryAction a args => run_body (exec_statements n) 0 (action_arguments (inner a)) (action_statements (inner a)) args ≫= λ _, mret None
  | EntryPolicy c _ envelope => run_block n (cd_policy (inner c)) envelope
  | EntryRecall c _ envelope => run_block n (cd_recall (inner c)) envelope
  | EntrySeal c this => run_function n "this" this (cd_seal (inner c))
  | EntryOpen c envelope => run_function n "envelope" envelope (cd_open (inner c))
  end.
Definition entry_local (e : Entry) (io : IO) : Local :=
  mkLocal (match e with
           | EntryPolicy _ this _ | EntryRecall _ this _ => [[("this", VStruct this)]]
           | _ => [[]]
           end) io.
End Semantics.
