(* ===== verification/CompileSim.v ===== *)
(** The instructions of the VM and the operations of the reference semantics:
    what each instruction does in a state of the VM that represents a state of
    the semantics. *)
From S2P Require Import Prelude Collections PolicyData PolicyModule VmScope Vm VmInvariant VmCalls VmSafety VmTheorems.
From S2P Require Import Ast CompileTypes Compile CompileProofs CompiledCode PolicySemantics.
Local Open Scope string_scope.
Local Open Scope list_scope.
Local Open Scope nat_scope.

(** Where code runs: the frames, return addresses and queries of the callers,
    the kind of block, and the stack on entry to the function. *)
Record Place := mkPlace {
  p_outer : list (list (BTreeMap string Value));
  p_calls : list nat;
  p_qs : list QueryIterator;
  p_context : StatementContext;
  p_base : list Value
}.
Definition with_qs (qs : list QueryIterator) (P : Place) : Place := mkPlace (p_outer P) (p_calls P) qs (p_context P) (p_base P).
Definition with_context (x : StatementContext) (P : Place) : Place := mkPlace (p_outer P) (p_calls P) (p_qs P) x (p_base P).

(** What a foreign function does to the stack: it takes its arguments and
    leaves its result. *)
Definition ffi_contract {IO} `{MachineIO IO} (env : CompileEnv) (ffi : nat → nat → CommandContext → list Value → IO → outcome MachineError Value * IO) : Prop :=
  ∀ i j mo f ctx (stk args : list Value) io,
    ce_ffi_modules env !! i = Some mo → sch_functions mo !! j = Some f → length args = length (ffn_args f) → length stk < STACK_SIZE →
    match ffi i j ctx args io with
    | (Ok v, io') => io_call i j ctx (stk ++ args) io = (Ok tt, stk ++ [v], io')
    | (Err e, io') => ∃ stk', io_call i j ctx (stk ++ args) io = (Err e, stk', io')
    | (Panic w, io') => ∃ stk', io_call i j ctx (stk ++ args) io = (Panic w, stk', io')
    end.

Existing Class codemap_total.

(** Room on the stack, by its length. *)
Ltac room := unfold stack_ok in *; rewrite ?length_app in *; simpl in *; lia.

Section Instructions.
Context {IO : Type} `{MachineIO IO}.
Variable m : Machine.
Variable to_allocvec : Struct → option (list u8).
Variable from_bytes : list u8 → option Struct.
Variable G : BTreeMap string Value.
Variable ctx : CommandContext.
Context {Hcm : codemap_total m}.
Abbreviation Local := (Local_ IO).
Implicit Types (P : Place) (st : Local) (stk : list Value) (pc : nat).

Definition at_ P st stk pc : RunState IO :=
  mkRunState (mkScope G (p_outer P ++ [lo_frame st])) stk (p_calls P) pc (lo_io st) ctx (p_qs P).

(** * A computation of the VM follows one of the semantics *)
Definition vsim {A B} (x : outcome MachineError A * RunState IO) (y : outcome stop B * Local)
    (post : A → RunState IO → B → Local → Prop) : Prop :=
  match x with
  | (Ok a, s') => match y with (Ok b, st') => post a s' b st' | _ => False end
  | (Err e, s') => match y with (Err (StopError t), st') => t = me_err_type e ∧ rs_io s' = lo_io st' | _ => False end
  | (Panic w, _) => match y with (Panic w', _) => w' = w | _ => False end
  end.

Lemma err_Ok t (s : RunState IO) : ∃ e, err m t s = (Ok e, s) ∧ me_err_type e = t.
Proof. by apply err_total. Qed.

Lemma fail_at_Ok {A} t (s : RunState IO) : ∃ e, (fail_at m t : VM A) s = (Err e, s) ∧ me_err_type e = t.
Proof. destruct (err_Ok t s) as (e & He & Ht). exists e. unfold fail_at, mbind, M_bind. by rewrite He. Qed.

Section Rules.
Context {A B : Type} (post : A → RunState IO → B → Local → Prop).

Lemma vsim_ret a b s st : post a s b st → vsim ((mret a : VM A) s) ((mret b : Sem B) st) post.
Proof. done. Qed.
Lemma vsim_fail_at t s st : rs_io s = lo_io st → vsim ((fail_at m t : VM A) s) ((stop_error t : Sem B) st) post.
Proof. intros Hio. unfold fail_at, mbind, M_bind. destruct (err_Ok t s) as (e & -> & <-). done. Qed.
Lemma vsim_err t s (k : MachineError → VM A) y :
  (∀ e, me_err_type e = t → vsim (k e s) y post) → vsim ((err m t ≫= k) s) y post.
Proof. intros Hk. unfold mbind, M_bind. destruct (err_Ok t s) as (e & -> & ?). by apply Hk. Qed.
Lemma vsim_throw e s st : rs_io s = lo_io st → vsim ((throw e : VM A) s) ((stop_error (me_err_type e) : Sem B) st) post.
Proof. done. Qed.
Lemma vsim_get s (k : RunState IO → VM A) y : vsim (k s s) y post → vsim ((get_state ≫= k) s) y post.
Proof. done. Qed.
Lemma vsim_modify f s (k : unit → VM A) y : vsim (k tt (f s)) y post → vsim ((modify f ≫= k) s) y post.
Proof. done. Qed.

(** ** The stack *)
Lemma vsim_pop {V} `{TryFromValue V} P st stk v pc (k : V → VM A) (t : V → Sem B) :
  (∀ x, vsim (k x (at_ P st stk pc)) (t x st) post) →
  vsim ((ipop m ≫= k) (at_ P st (stk ++ [v]) pc)) ((conv v ≫= t) st) post.
Proof.
  intros Hk. unfold ipop, conv, sem_try, lift, stack_pop, pop_value. unfold mbind, M_bind, get_state. simpl. rewrite vec_pop_snoc. simpl.
  unfold try_at. destruct (try_from_value v) as [x|e|w]; simpl; [apply Hk| |done].
  unfold fail_at, mbind, M_bind. destruct (err_Ok (met_of_conversion e) (set_stack stk (at_ P st (stk ++ [v]) pc))) as (e' & -> & <-). done.
Qed.
Lemma vsim_pop_value P st stk v pc (k : Value → VM A) y :
  vsim (k v (at_ P st stk pc)) y post → vsim ((ipop_value m ≫= k) (at_ P st (stk ++ [v]) pc)) y post.
Proof. intros Hk. unfold ipop_value, pop_value, mbind, M_bind, get_state, modify. simpl. rewrite vec_pop_snoc. exact Hk. Qed.
Lemma vsim_pop_as {V} `{TryFromValue V} P st stk v x pc (k : V → VM A) y :
  try_from_value v = Ok x → vsim (k x (at_ P st stk pc)) y post → vsim ((ipop m ≫= k) (at_ P st (stk ++ [v]) pc)) y post.
Proof.
  intros Hx Hk. unfold ipop, stack_pop, pop_value, mbind, M_bind, get_state, modify. simpl. rewrite vec_pop_snoc. simpl. by rewrite Hx.
Qed.
Lemma vsim_push P st stk v pc (k : unit → VM A) y : length stk < STACK_SIZE →
  vsim (k tt (at_ P st (stk ++ [v]) pc)) y post → vsim ((ipush_value m v ≫= k) (at_ P st stk pc)) y post.
Proof.
  intros Hr Hk. unfold ipush_value, push_value, mbind, M_bind, get_state, modify. simpl. by rewrite (proj2 (Nat.ltb_lt _ _) Hr).
Qed.
Lemma vsim_push_guard P st stk d v pc (k : unit → VM A) (t : unit → Sem B) : d = length stk →
  (length stk < STACK_SIZE → vsim (k tt (at_ P st (stk ++ [v]) pc)) (t tt st) post) →
  vsim ((ipush_value m v ≫= k) (at_ P st stk pc)) ((guard d ≫= t) st) post.
Proof.
  intros -> Hk. unfold ipush_value, push_value, guard, mbind, M_bind, get_state, modify. simpl.
  destruct (Nat.ltb_spec (length stk) STACK_SIZE); [by apply Hk|]. simpl. unfold fail_at, mbind, M_bind.
  destruct (err_Ok StackOverflow (at_ P st stk pc)) as (e & -> & <-). done.
Qed.

(** ** Outcomes *)
Lemma vsim_try_io {V} (x : outcome MachineIOError V) P st stk pc (k : V → VM A) (t : V → Sem B) :
  (∀ v, vsim (k v (at_ P st stk pc)) (t v st) post) → vsim ((try_io x ≫= k) (at_ P st stk pc)) ((sem_io x ≫= t) st) post.
Proof. intros Hk. destruct x as [v|e|w]; [apply Hk|done..]. Qed.
Lemma vsim_with_io {V} (f : IO → outcome MachineIOError V * IO) P st stk pc (k : V → VM A) (t : V → Sem B) :
  (∀ v st', vsim (k v (at_ P st' stk pc)) (t v st') post) → vsim ((with_io f ≫= k) (at_ P st stk pc)) ((on_io f ≫= t) st) post.
Proof.
  intros Hk. unfold with_io, on_io, mbind, M_bind, get_state, modify. simpl. destruct (f (lo_io st)) as [r io].
  destruct r as [v|e|w]; simpl; [apply (Hk v (mkLocal (lo_frame st) io))|done..].
Qed.

(** ** The scope *)

(** An operation that works on the last frame. *)
Definition frame_op (f : ScopeManager → outcome MachineErrorType ScopeManager) : Prop :=
  ∀ outer fr, match f (mkScope G [fr]) with
              | Ok sc => ∃ fr', sc = mkScope G [fr'] ∧ f (mkScope G (outer ++ [fr])) = Ok (mkScope G (outer ++ [fr']))
              | Err t => f (mkScope G (outer ++ [fr])) = Err t
              | Panic w => f (mkScope G (outer ++ [fr])) = Panic w
              end.
Lemma vsim_scope (tr : ∀ A, outcome MachineErrorType A → VM A) f P st stk pc (k : unit → VM A) (t : unit → Sem B) :
  (tr = (@try IO) ∨ tr = (@try_at IO m)) → frame_op f →
  (∀ st', vsim (k tt (at_ P st' stk pc)) (t tt st') post) →
  vsim ((update_scope tr f ≫= k) (at_ P st stk pc)) ((on_frame G f ≫= t) st) post.
Proof.
  intros Htr Hf Hk. specialize (Hf (p_outer P) (lo_frame st)). unfold update_scope, on_frame, mbind, M_bind, get_state, modify. simpl.
  destruct (f (mkScope G [lo_frame st])) as [sc|e|w].
  - destruct Hf as (fr' & -> & ->). destruct Htr as [-> | ->]; apply (Hk (mkLocal fr' (lo_io st))).
  - rewrite Hf. destruct Htr as [-> | ->]; [done|]. simpl. unfold fail_at, mbind, M_bind.
    destruct (err_Ok e (at_ P st stk pc)) as (e' & -> & <-). done.
  - rewrite Hf. by destruct Htr as [-> | ->].
Qed.
End Rules.

Lemma frame_enter : frame_op enter_block.
Proof. intros outer fr. unfold enter_block. simpl. rewrite vec_pop_snoc. by eexists. Qed.
Lemma frame_exit : frame_op exit_block.
Proof. intros outer fr. unfold exit_block. simpl. rewrite vec_pop_snoc. destruct (vec_pop fr) as [[b r]|]; [by eexists|done]. Qed.
Lemma frame_set x v : frame_op (scope_set x v).
Proof.
  intros outer fr. unfold scope_set. simpl. destruct (bt_contains x G); [done|]. rewrite vec_pop_snoc.
  destruct (existsb _ fr); [done|]. destruct (vec_pop fr) as [[b r]|]; [by eexists|done].
Qed.
Lemma scope_get_frame x outer fr : scope_get x (mkScope G (outer ++ [fr])) = scope_get x (mkScope G [fr]).
Proof. unfold scope_get. simpl. by rewrite last_snoc. Qed.

(** * One instruction

    [does P i stk sem P' stk']: where the stack is [stk], the instruction [i]
    does [sem] and leaves the stack [stk'], which depends on the result. *)
Definition does {B} P (i : Instruction) stk (sem : Sem B) P' (stk' : B → list Value) : Prop :=
  ∀ st pc, stack_ok stk → vsim (exec m to_allocvec from_bytes i (at_ P st stk pc)) (sem st)
    (λ fl s' b st', fl = FallThrough ∧ s' = at_ P' st' (stk' b) pc ∧ stack_ok (stk' b)).

Lemma bind_ret_r {S E A} (k : M S E A) s : (k ≫= mret) s = k s.
Proof. unfold mbind, M_bind. by destruct (k s) as [[| |] ?]. Qed.
Lemma vsim_bind_ret {A B} (x : outcome MachineError A * RunState IO) (sem : Sem B) st post :
  vsim x ((sem ≫= mret) st) post → vsim x (sem st) post.
Proof. intros Hv. rewrite <- (bind_ret_r sem st). exact Hv. Qed.
Ltac fall := apply vsim_ret; split_and!; [done..|room].

Lemma does_const P stk v d : d = length stk → does P (IConst v) stk (guard d) P (λ _, stk ++ [v]).
Proof. intros Hd st pc Hs. apply vsim_bind_ret. cbn [exec]. unfold exec_const. apply vsim_push_guard; [done|]. intros Hl. fall. Qed.
Lemma does_def P stk v x : does P (IDef x) (stk ++ [v]) (on_frame G (scope_set x v)) P (λ _, stk).
Proof.
  intros st pc Hs. apply vsim_bind_ret. simpl. unfold exec_def. apply vsim_pop_value.
  apply vsim_scope; [by left|apply frame_set|]. intros st'. fall.
Qed.
Lemma does_get P stk x d : d = length stk →
  does P (IGet x) stk (v ← lookup_var G x; guard d ≫= λ _, mret v) P (λ v, stk ++ [v]).
Proof.
  intros Hd st pc Hs. simpl. unfold exec_get, lookup_var. apply vsim_get. simpl. rewrite scope_get_frame. unfold sem_try, lift.
  destruct (scope_get x _) as [v|e|w] eqn:Eg; simpl; unfold mbind, M_bind; simpl; rewrite ?Eg; simpl; [|done..].
  apply (vsim_push_guard _ P st stk d v pc (λ _, mret FallThrough) (λ _, mret v)); [done|]. intros Hl. fall.
Qed.
Lemma checked_sub_ok a b : b ≤ a → checked_sub a b = Some (a - b).
Proof. intros. by apply checked_sub_Some. Qed.
Lemma does_swap P l1 x l2 y : does P (ISwap (S (length l2))) (l1 ++ x :: l2 ++ [y]) (mret tt) P (λ _, l1 ++ y :: l2 ++ [x]).
Proof.
  intros st pc Hs. assert (length (l1 ++ x :: l2 ++ [y]) = S (S (length l1 + length l2))) as Hlen.
  { rewrite length_app. simpl. rewrite length_app. simpl. lia. }
  cbn [exec]. unfold exec_swap. cbn [Nat.eqb]. apply vsim_get. cbn [rs_stack at_]. rewrite Hlen, checked_sub_ok by lia. simpl.
  unfold mbind at 1, M_bind at 1. cbn [mret M_ret]. rewrite checked_sub_ok by lia. simpl. unfold mbind at 1, M_bind at 1. cbn [mret M_ret].
  replace (S (length l1 + length l2) - 0) with (S (length l1 + length l2)) by lia.
  replace (length l1 + length l2 - length l2) with (length l1) by lia. unfold vec_swap.
  rewrite (lookup_app_r l1) by lia. replace (S (length l1 + length l2) - length l1) with (S (length l2)) by lia. simpl.
  rewrite (lookup_app_r l2), Nat.sub_diag by lia. simpl. rewrite (lookup_app_r l1), Nat.sub_diag by lia. simpl.
  unfold mbind, M_bind, modify. simpl. split_and!; [done| |].
  - rewrite insert_app_r_alt, Nat.sub_diag by lia. simpl. rewrite insert_app_r_alt by lia.
    replace (S (length l1 + length l2) - length l1) with (S (length l2)) by lia. simpl. rewrite insert_app_r_alt, Nat.sub_diag by lia. done.
  - unfold stack_ok in *. rewrite Hlen in Hs. rewrite length_app. simpl. rewrite length_app. simpl. lia.
Qed.
Lemma does_swap1 P stk x y : does P (ISwap 1) ((stk ++ [x]) ++ [y]) (mret tt) P (λ _, (stk ++ [y]) ++ [x]).
Proof. rewrite <- !app_assoc. apply (does_swap P stk x [] y). Qed.
Lemma does_swap2 P stk x y z : does P (ISwap 2) (((stk ++ [x]) ++ [y]) ++ [z]) (mret tt) P (λ _, ((stk ++ [z]) ++ [y]) ++ [x]).
Proof. rewrite <- !app_assoc. apply (does_swap P stk x [y] z). Qed.
Lemma does_dup P l1 x l2 : does P (IDup (length l2)) (l1 ++ x :: l2) (guard (length (l1 ++ x :: l2))) P (λ _, (l1 ++ x :: l2) ++ [x]).
Proof.
  intros st pc Hs. apply vsim_bind_ret. cbn [exec]. unfold exec_dup. apply vsim_get. cbn [rs_stack at_].
  assert (length (l1 ++ x :: l2) = S (length l1 + length l2)) as Hlen by (rewrite length_app; simpl; lia).
  rewrite Hlen at 1. rewrite checked_sub_ok by lia. cbn [ok_or try].
  unfold mbind at 1, M_bind at 1. cbn [mret M_ret]. rewrite checked_sub_ok by lia. cbn [ok_or try]. unfold mbind at 1, M_bind at 1. cbn [mret M_ret].
  replace (S (length l1 + length l2) - length l2 - 1) with (length l1) by lia.
  rewrite lookup_app_r, Nat.sub_diag by lia. simpl. apply vsim_push_guard; [done|]. intros Hl. fall.
Qed.
Lemma does_dup0 P stk x d : d = length stk → does P (IDup 0) (stk ++ [x]) (guard (S d)) P (λ _, (stk ++ [x]) ++ [x]).
Proof. intros ->. replace (S (length stk)) with (length (stk ++ [x])) by (rewrite length_app; simpl; lia). apply (does_dup P stk x []). Qed.
Lemma does_dup1 P stk x y d : d = length stk →
  does P (IDup 1) ((stk ++ [x]) ++ [y]) (guard (S (S d))) P (λ _, ((stk ++ [x]) ++ [y]) ++ [x]).
Proof.
  intros ->. rewrite <- app_assoc. replace (S (S (length stk))) with (length (stk ++ [x] ++ [y])) by (rewrite length_app; simpl; lia).
  apply (does_dup P stk x [y]).
Qed.
Lemma does_pop P stk v : does P IPop (stk ++ [v]) (mret tt) P (λ _, stk).
Proof.
  intros st pc Hs. simpl. unfold exec_pop, get_state, mbind, M_bind, pop_value. simpl. rewrite vec_pop_snoc. simpl. split_and!; [done..|room].
Qed.
Lemma does_block P stk : does P IBlock stk (on_frame G enter_block) P (λ _, stk).
Proof. intros st pc Hs. apply vsim_bind_ret. cbn [exec]. unfold exec_block. apply vsim_scope; [by right|apply frame_enter|]. intros st'. fall. Qed.
Lemma does_end P stk : does P IEnd stk (on_frame G exit_block) P (λ _, stk).
Proof. intros st pc Hs. apply vsim_bind_ret. cbn [exec]. unfold exec_end. apply vsim_scope; [by right|apply frame_exit|]. intros st'. fall. Qed.
Lemma does_meta P stk x : does P (IMeta x) stk (mret tt) P (λ _, stk).
Proof. intros st pc Hs. simpl. by split_and!. Qed.

(** ** Operators *)
Lemma does_arith P stk x y op i : exec (IO := IO) m to_allocvec from_bytes i = exec_arith m op →
  does P i ((stk ++ [x]) ++ [y]) (arith op x y) P (λ v, stk ++ [v]).
Proof.
  intros Hi st pc Hs. rewrite Hi. unfold exec_arith, arith. apply vsim_pop. intros b. apply vsim_pop. intros a.
  apply vsim_err. intros e He. unfold lift_opt, sem_try, lift, mbind, M_bind. destruct (op a b) as [r|]; simpl; [|by rewrite He].
  apply (vsim_push _ P st stk (VInt r) pc (λ _, mret FallThrough) ((mret (VInt r) : Sem Value) st)); [room|]. fall.
Qed.
Lemma does_logic P stk x y op i : exec (IO := IO) m to_allocvec from_bytes i = exec_logic m op →
  does P i ((stk ++ [x]) ++ [y]) (logic op x y) P (λ v, stk ++ [v]).
Proof.
  intros Hi st pc Hs. rewrite Hi. unfold exec_logic, logic. apply vsim_pop. intros a. apply vsim_pop. intros b.
  apply vsim_push; [room|]. fall.
Qed.
Lemma vsim_peek {V} (as_mut : Value → outcome ValueConversionError V) back f P st stk v pc {A B} (k : unit → VM A) (t : V → Sem B) post :
  (∀ x, as_mut v = Ok x → vsim (k tt (at_ P st (stk ++ [back (f x)]) pc)) (t x st) post) →
  vsim ((ipeek_update m as_mut back f ≫= k) (at_ P st (stk ++ [v]) pc)) ((sem_try (map_err met_of_conversion (as_mut v)) ≫= t) st) post.
Proof.
  intros Hk. unfold ipeek_update, stack_peek, peek_value, sem_try, lift. unfold mbind, M_bind, get_state, modify. simpl. rewrite last_snoc. simpl.
  destruct (as_mut v) as [x|e|w] eqn:Ev; simpl; [|by destruct (fail_at_Ok (A := V) (met_of_conversion e) (at_ P st (stk ++ [v]) pc)) as (e' & -> & <-)|done]. specialize (Hk x eq_refl). revert Hk. unfold at_, set_stack. simpl.
  by rewrite vec_set_last_snoc.
Qed.
Lemma vsim_peek_as {V} (as_mut : Value → outcome ValueConversionError V) back f P st stk v x pc {A B} (k : unit → VM A) (y : outcome stop B * Local) post :
  as_mut v = Ok x → vsim (k tt (at_ P st (stk ++ [back (f x)]) pc)) y post →
  vsim ((ipeek_update m as_mut back f ≫= k) (at_ P st (stk ++ [v]) pc)) y post.
Proof.
  intros Hx. unfold ipeek_update, stack_peek, peek_value, mbind, M_bind, get_state, modify, at_, set_stack. simpl. rewrite last_snoc. simpl.
  rewrite Hx. simpl. by rewrite vec_set_last_snoc.
Qed.
Lemma does_not P stk x : does P INot (stk ++ [x]) (complement x) P (λ v, stk ++ [v]).
Proof. intros st pc Hs. cbn [exec]. unfold exec_not, complement. apply vsim_peek. intros b Hb. fall. Qed.
Lemma does_not_bool P stk b : does P INot (stk ++ [VBool b]) (mret tt) P (λ _, stk ++ [VBool (negb b)]).
Proof. intros st pc Hs. cbn [exec]. unfold exec_not. apply (vsim_peek_as try_as_mut_bool VBool negb P st stk (VBool b) b); [done|]. fall. Qed.
Lemma does_compare P stk x y op msg i : exec (IO := IO) m to_allocvec from_bytes i = exec_compare m op msg →
  does P i ((stk ++ [x]) ++ [y]) (compare op msg x y) P (λ v, stk ++ [v]).
Proof.
  intros Hi st pc Hs. rewrite Hi. unfold exec_compare, compare. apply vsim_pop_value, vsim_pop_value.
  destruct x, y; try (by apply vsim_fail_at). apply vsim_push; [room|]. fall.
Qed.
Lemma does_eq P stk x y : does P IEq ((stk ++ [x]) ++ [y]) (mret tt) P (λ _, stk ++ [equal x y]).
Proof. intros st pc Hs. cbn [exec]. unfold exec_eq. apply vsim_pop_value, vsim_pop_value, vsim_push; [room|]. fall. Qed.

(** ** Facts and structs *)
Lemma does_fact_new P stk x d : d = length stk → does P (IFactNew x) stk (guard d) P (λ _, stk ++ [VFact (fact_new x)]).
Proof. apply (does_const P stk (VFact (fact_new x))). Qed.
Lemma does_struct_new P stk x d : d = length stk → does P (IStructNew x) stk (guard d) P (λ _, stk ++ [VStruct (mkStruct x [])]).
Proof. apply (does_const P stk (VStruct (mkStruct x []))). Qed.
Lemma does_key_set P stk f v x : does P (IFactKeySet x) ((stk ++ [VFact f]) ++ [v]) (sem_set_key x v f) P (λ f', stk ++ [VFact f']).
Proof.
  intros st pc Hs. cbn [exec]. unfold exec_fact_key_set, sem_set_key. apply vsim_pop. intros h.
  apply (vsim_peek_as try_as_mut_fact VFact (set_key x h) P st stk (VFact f) f); [done|]. fall.
Qed.
Lemma does_value_set P stk f v x : does P (IFactValueSet x) ((stk ++ [VFact f]) ++ [v]) (sem_set_value x v f) P (λ f', stk ++ [VFact f']).
Proof.
  intros st pc Hs. cbn [exec]. unfold exec_fact_value_set, sem_set_value. apply vsim_pop_value.
  apply (vsim_peek_as try_as_mut_fact VFact (set_value x v) P st stk (VFact f) f); [done|]. fall.
Qed.
Lemma does_struct_set P stk s v x : does P (IStructSet x) ((stk ++ [VStruct s]) ++ [v]) (set_member (struct_defs m) x v s) P (λ s', stk ++ [VStruct s']).
Proof.
  intros st pc Hs. cbn [exec]. unfold exec_struct_set, set_member. apply vsim_pop_value. apply (vsim_pop_as _ P st stk (VStruct s) s); [done|].
  destruct (bt_get (s_name s) (struct_defs m)); [|by apply vsim_fail_at]. destruct (existsb _ _); simpl; [|by apply vsim_fail_at].
  apply vsim_push; [room|]. fall.
Qed.
Lemma does_struct_get P stk v x : does P (IStructGet x) (stk ++ [v]) (member x v) P (λ w, stk ++ [w]).
Proof.
  intros st pc Hs. cbn [exec]. unfold exec_struct_get, member. apply vsim_pop. intros s.
  destruct (bt_get x (s_fields s)) as [w|]; [|by apply vsim_fail_at]. apply vsim_push; [room|]. fall.
Qed.
(** ** Input and output *)
Section IoRules.
Context {A B : Type} (post : A → RunState IO → B → Local → Prop).
Lemma vsim_check_fact f P st stk pc (k : unit → VM A) (t : unit → Sem B) :
  vsim (k tt (at_ P st stk pc)) (t tt st) post →
  vsim ((validate_fact_literal m f ≫= k) (at_ P st stk pc)) ((check_fact (fact_defs m) f ≫= t) st) post.
Proof.
  intros Hk. unfold validate_fact_literal, check_fact. destruct (bt_get (f_name f) (fact_defs m)) as [schema|]; [destruct (validate_fact_schema f schema); [done|]|]; unfold mbind, M_bind;
    by destruct (fail_at_Ok (A := unit) (InvalidSchema (f_name f)) (at_ P st stk pc)) as (e & -> & <-).
Qed.
Lemma vsim_check_struct s P st stk pc (k : unit → VM A) (t : unit → Sem B) :
  vsim (k tt (at_ P st stk pc)) (t tt st) post →
  vsim ((validate_struct_schema m s ≫= k) (at_ P st stk pc)) ((check_struct (struct_defs m) s ≫= t) st) post.
Proof.
  intros Hk. unfold validate_struct_schema, check_struct, struct_schema_ok. unfold mbind, M_bind.
  destruct (err_Ok (InvalidSchema (s_name s)) (at_ P st stk pc)) as (e & -> & He). destruct (bt_get (s_name s) (struct_defs m)) as [fields|]; [|by rewrite <- He].
  destruct (forallb _ (s_fields s)); simpl; [|by rewrite <- He].
  replace (forallb (λ f, match bt_get (fd_identifier f) (s_fields s) with Some f => bool_decide (vtype f = vtype f) | None => false end) fields)
    with (forallb (λ f, bt_contains (fd_identifier f) (s_fields s)) fields); [destruct (forallb _ fields); [done|by rewrite <- He]|].
  induction fields as [|f fields IH]; [done|]. simpl. rewrite IH. f_equal. unfold bt_contains. destruct (bt_get _ _); [|done].
  by rewrite bool_decide_eq_true_2.
Qed.
Lemma vsim_query f P st stk pc (k : QueryIterator → VM A) (t : QueryIterator → Sem B) :
  (∀ iter, vsim (k iter (at_ P st stk pc)) (t iter st) post) →
  vsim ((s ← get_state; try_io (io_fact_query (f_name f) (f_keys f) (rs_io s)) ≫= k) (at_ P st stk pc)) ((run_query f ≫= t) st) post.
Proof.
  intros Hk. unfold run_query, sem_io, sem_try, lift, mbind, M_bind, get_state. simpl.
  destruct (io_fact_query _ _ _) as [iter|e|w]; [apply Hk|done..].
Qed.
Lemma vsim_count f limit P st stk pc (k : Z → VM A) (t : Z → Sem B) iter : ∀ n,
  (∀ c, vsim (k c (at_ P st stk pc)) (t c st) post) →
  vsim ((count_loop m f limit n iter ≫= k) (at_ P st stk pc)) ((sem_try (count_facts f limit n iter) ≫= t) st) post.
Proof.
  induction iter as [|item iter IH]; intros n Hk; simpl; destruct (n <? limit)%Z; try apply Hk. destruct item as [kv|e|w].
  - destruct (fact_match _ _ _); [|by apply IH]. destruct (i64_checked_add n 1); [by apply IH|done].
  - unfold mbind, M_bind. by destruct (fail_at_Ok (A := Z) (IO_ e) (at_ P st stk pc)) as (e' & -> & <-).
  - done.
Qed.
Lemma vsim_update_io f P st stk pc (k : unit → VM A) (t : unit → Sem B) :
  (∀ st', vsim (k tt (at_ P st' stk pc)) (t tt st') post) →
  vsim ((modify (λ s, set_io (f (rs_io s)) s) ≫= k) (at_ P st stk pc)) ((update_io f ≫= t) st) post.
Proof. intros Hk. exact (Hk (mkLocal (lo_frame st) (f (lo_io st)))). Qed.
Lemma vsim_emitted c P st stk pc (k : Id * bool → VM A) (t : Id * bool → Sem B) :
  (∀ cr, vsim (k cr (at_ P st stk pc)) (t cr st) post) →
  vsim ((match c with
         | CtxPolicy ctx => mret (pc_id ctx, false)
         | CtxRecall ctx => mret (pc_id ctx, true)
         | _ => fail_at m (BadState "Emit: wrong command context")
         end ≫= k) (at_ P st stk pc)) ((emitted_by c ≫= t) st) post.
Proof.
  intros Hk. destruct c; try apply Hk; unfold mbind, M_bind;
    by destruct (fail_at_Ok (A := Id * bool) (BadState "Emit: wrong command context") (at_ P st stk pc)) as (e & -> & He); simpl; rewrite He.
Qed.
End IoRules.

Lemma does_query P stk f : does P IQuery (stk ++ [VFact f]) (find_fact (fact_defs m) f) P (λ v, stk ++ [v]).
Proof.
  intros st pc Hs. cbn [exec]. unfold exec_query, find_fact. apply (vsim_pop_as _ P st stk (VFact f) f); [done|].
  apply vsim_check_fact, vsim_query. intros iter. destruct (query_find f iter) as [r|]; [|apply vsim_push; [room|]; fall].
  apply vsim_try_io. intros kv. apply vsim_push; [room|]. fall.
Qed.
Lemma does_count P stk f limit : does P (IFactCount limit) (stk ++ [VFact f]) (count (fact_defs m) f limit) P (λ n, stk ++ [VInt n]).
Proof.
  intros st pc Hs. cbn [exec]. unfold exec_fact_count, count. apply (vsim_pop_as _ P st stk (VFact f) f); [done|].
  apply vsim_check_fact, vsim_query. intros iter. apply vsim_bind_ret, vsim_count. intros c. apply vsim_push; [room|]. fall.
Qed.
Lemma does_publish P stk v :
  does P IPublish (stk ++ [v]) (s ← conv v; check_struct (struct_defs m) s ≫= λ _, update_io (io_publish (struct_to_kvpairs s).1 (struct_to_kvpairs s).2)) P (λ _, stk).
Proof.
  intros st pc Hs. cbn [exec]. unfold exec_publish. apply vsim_pop. intros s. apply vsim_check_struct, vsim_bind_ret.
  apply (vsim_update_io _ (io_publish (struct_to_kvpairs s).1 (struct_to_kvpairs s).2)). intros st'. fall.
Qed.
Lemma does_emit P stk v :
  does P IEmit (stk ++ [v]) (s ← conv v; check_struct (struct_defs m) s ≫= λ _, cr ← emitted_by ctx;
    update_io (io_effect (struct_to_kvpairs s).1 (struct_to_kvpairs s).2 cr.1 cr.2)) P (λ _, stk).
Proof.
  intros st pc Hs. cbn [exec]. unfold exec_emit. apply vsim_pop. intros s. apply vsim_check_struct.
  apply (vsim_get _ (at_ P st stk pc)), vsim_emitted. intros cr. apply vsim_bind_ret.
  apply (vsim_update_io _ (io_effect (struct_to_kvpairs s).1 (struct_to_kvpairs s).2 cr.1 cr.2)). intros st'. fall.
Qed.
Lemma does_create P stk f : does P ICreate (stk ++ [VFact f]) (on_io (io_fact_insert (f_name f) (f_keys f) (f_values f))) P (λ _, stk).
Proof.
  intros st pc Hs. cbn [exec]. unfold exec_create. apply (vsim_pop_as _ P st stk (VFact f) f); [done|].
  apply vsim_bind_ret, vsim_with_io. intros [] st'. fall.
Qed.
Lemma does_delete P stk f : does P IDelete (stk ++ [VFact f]) (on_io (io_fact_delete (f_name f) (f_keys f))) P (λ _, stk).
Proof.
  intros st pc Hs. cbn [exec]. unfold exec_delete. apply (vsim_pop_as _ P st stk (VFact f) f); [done|].
  apply vsim_bind_ret, vsim_with_io. intros [] st'. fall.
Qed.
Lemma does_update P stk from to : does P IUpdate ((stk ++ [VFact from]) ++ [VFact to]) (run_update from to) P (λ _, stk).
Proof.
  intros st pc Hs. cbn [exec]. unfold exec_update, run_update. apply (vsim_pop_as _ P st _ (VFact to) to); [done|].
  apply (vsim_pop_as _ P st _ (VFact from) from); [done|]. apply vsim_query. intros [|item iter].
  - unfold mbind, M_bind. by destruct (fail_at_Ok (A := FactKeyList * FactValueList) (InvalidFact (f_name from)) (at_ P st stk pc)) as (e & -> & <-).
  - apply vsim_try_io. intros kv. apply vsim_with_io. intros [] st1. apply vsim_bind_ret, vsim_with_io. intros [] st2. fall.
Qed.
Lemma does_serialize P stk v : does P ISerialize (stk ++ [v]) (serialized ctx to_allocvec v) P (λ w, stk ++ [w]).
Proof.
  intros st pc Hs. cbn [exec]. unfold exec_serialize, serialized. apply vsim_get. cbn [rs_ctx at_].
  remember ctx as c eqn:Hc. destruct c as [|sc| | |]; try by apply vsim_fail_at. apply vsim_pop. intros s.
  destruct (negb _); [by apply vsim_fail_at|]. destruct (to_allocvec s); [|by apply vsim_fail_at]. apply vsim_push; [room|]. fall.
Qed.
Lemma does_deserialize P stk v : does P IDeserialize (stk ++ [v]) (deserialized ctx from_bytes v) P (λ w, stk ++ [w]).
Proof.
  intros st pc Hs. cbn [exec]. unfold exec_deserialize, deserialized. apply vsim_get. cbn [rs_ctx at_].
  remember ctx as c eqn:Hc. destruct c as [| |oc| |]; try by apply vsim_fail_at. apply vsim_pop. intros bytes.
  destruct (from_bytes bytes) as [s|]; [|by apply vsim_fail_at]. destruct (negb _); [by apply vsim_fail_at|]. apply vsim_push; [room|]. fall.
Qed.
(** Queries of [map] are kept on a stack of their own. *)
Lemma query_start_spec P st stk f pc : stack_ok stk →
  vsim (exec m to_allocvec from_bytes IQueryStart (at_ P st (stk ++ [VFact f]) pc)) (start_query (fact_defs m) f st)
    (λ fl s' iter st', fl = FallThrough ∧ s' = at_ (with_qs (p_qs P ++ [iter]) P) st' stk pc).
Proof.
  intros Hs. cbn [exec]. unfold exec_query_start, start_query. apply (vsim_pop_as _ P st stk (VFact f) f); [done|].
  apply vsim_check_fact, vsim_bind_ret, vsim_query. intros iter. apply vsim_modify. by apply vsim_ret.
Qed.
Lemma query_next_spec P st stk qs x iter pc d : d = length stk → p_qs P = qs ++ [iter] →
  vsim (exec m to_allocvec from_bytes (IQueryNext x) (at_ P st stk pc))
    (match iter with
     | [] => guard d
     | item :: _ => bind_fact G d x item
     end st)
    (λ fl s' (_ : unit) st', fl = FallThrough ∧ s' = at_ (with_qs (match iter with [] => qs | _ :: iter' => qs ++ [iter'] end) P) st'
                                         (stk ++ [VBool (match iter with [] => true | _ => false end)]) pc).
Proof.
  intros Hd Hq. cbn [exec]. unfold exec_query_next. apply vsim_get. cbn [rs_query_iter_stack at_]. rewrite Hq, vec_pop_snoc. destruct iter as [|item iter].
  - apply vsim_modify, vsim_bind_ret. apply (vsim_push_guard _ (with_qs qs P)); [done|]. intros Hl. by apply vsim_ret.
  - apply vsim_modify. apply (vsim_try_io _ _ (with_qs (qs ++ [iter]) P)). intros kv. apply vsim_scope; [by left|apply frame_set|]. intros st'.
    apply vsim_bind_ret. apply vsim_push_guard; [done|]. intros Hl. by apply vsim_ret.
Qed.
End Instructions.
