(* ===== verification/CompileLogic.v ===== *)
(** A program logic for compiled code: what the code that a method of the
    compiler appends does, in terms of the reference semantics. *)
From S2P Require Import Prelude Collections PolicyData PolicyModule VmScope Vm VmInvariant VmCalls VmSafety VmTheorems.
From S2P Require Import Ast CompileTypes Compile CompileProofs CompiledCode PolicySemantics CompileSim.
Local Open Scope string_scope.
Local Open Scope list_scope.
Local Open Scope nat_scope.

Create HintDb imp.

(** * What a program promises

    The calls of functions that the compiler lets through are calls of
    functions that the policy has, with the number of arguments they take. *)
Definition find_function (env : CompileEnv) (x : string) : option (AstNode FunctionDefinition) :=
  List.find (λ n, bool_decide (fn_identifier (inner n) = x)) (pl_functions (ce_policy env)).
Definition find_finish_function (env : CompileEnv) (x : string) : option (AstNode FinishFunctionDefinition) :=
  List.find (λ n, bool_decide (ff_identifier (inner n) = x)) (pl_finish_functions (ce_policy env)).
Definition signature_ok (env : CompileEnv) (x : string) (sig : FunctionSignature) : Prop :=
  match sig_color sig with
  | FCPure _ => ∃ node, find_function env x = Some node ∧ length (sig_args sig) = length (fn_arguments (inner node))
  | FCFinish => ∃ node, find_finish_function env x = Some node ∧ length (sig_args sig) = length (ff_arguments (inner node))
  end.
Definition sigs_ok (env : CompileEnv) (cs : CompileState) : Prop :=
  ∀ x sig, bt_get x (cs_function_signatures cs) = Some sig → signature_ok env x sig.

(** The code of [cs] ends where that of [cs'] does. *)
Definition same_wp (cs cs' : CompileState) : Prop := cs_wp cs' = cs_wp cs.
#[export] Instance same_wp_preorder : PreOrder same_wp.
Proof. split; [by intros cs|]. intros cs1 cs2 cs3 H1 H2. unfold same_wp in *. congruence. Qed.
(** No code is appended. *)
Definition quiet (env : CompileEnv) := both (grows env) same_wp.
#[export] Instance grows_preorder env : PreOrder (grows env).
Proof. unfold grows. exact _. Qed.
#[export] Instance grows_respected env : Respected (grows env).
Proof. unfold grows. exact _. Qed.
#[export] Instance quiet_preorder env : PreOrder (quiet env).
Proof. unfold quiet. exact _. Qed.
#[export] Instance quiet_tolerant env : Tolerant (quiet env).
Proof. intros cs cs' Hs. split; [by apply R_same|]. by destruct Hs as (_ & _ & _ & ? & _). Qed.
Lemma quiet_map_range env loc : on_ok (quiet env) (map_range loc).
Proof.
  intros cs a cs' E. split; [by apply (R_map loc) in E|]. unfold map_range in E. apply M_bind_inv_Ok in E as (u & s1 & [= _ <-] & E).
  apply M_bind_inv_Ok in E as (x & s2 & [= <- <-] & E). simpl in E. destruct (ct_codemap _) as [cm|]; [|by injection E as _ <-].
  destruct (map_instruction_range _ _ _) as [cm'|e|w]; [|by apply M_bind_inv_Ok in E as (? & ? & _ & ?)|done]. by injection E as _ <-.
Qed.
Lemma quiet_label env l : on_ok (quiet env) (define_label_here l).
Proof. intros cs a cs' E. split; [by apply (R_label l) in E|]. by apply define_label_here_Ok in E as [_ ->]. Qed.
#[export] Instance same_wp_tolerant : Tolerant same_wp.
Proof. intros cs cs' Hs. by destruct Hs as (_ & _ & _ & ? & _). Qed.
Lemma on_types_wp f cs a cs' : on_types f cs = (Ok a, cs') → cs_wp cs' = cs_wp cs.
Proof. apply (closed_types same_wp). Qed.
Lemma anonymous_wp cs l cs' : anonymous_label cs = (Ok l, cs') → cs_wp cs' = cs_wp cs.
Proof. apply (closed_anonymous same_wp). Qed.
#[export] Hint Resolve quiet_map_range quiet_label closed_expression closed_expressions closed_statements closed_fact_literal closed_arguments closed_fields
  closed_function_call closed_query closed_internal closed_struct_literal closed_binary closed_weak closed_unwrap closed_append_arguments closed_returning closed_action_arguments closed_update closed_finish_call
  closed_action_call closed_arm_test closed_arm_tests closed_statement : closed.

(** The machine of a policy, and the state of the compiler before it resolves
    the targets. *)
Class Compiled (env : CompileEnv) (m : Machine) (fin : CompileState) : Prop := {
  compiled_codemap :: codemap_total m;
  compiled_wf : wf env fin;
  compiled_resolved : resolve_instructions (ct_labels (cs_m fin)) (ct_progmem (cs_m fin)) = Ok (progmem m)
}.

Section Logic.
Context {IO : Type} `{MachineIO IO}.
Variable env : CompileEnv.
Variable m : Machine.
Variable to_allocvec : Struct → option (list u8).
Variable from_bytes : list u8 → option Struct.
Variable G : BTreeMap string Value.
Variable ctx : CommandContext.
Variable fin : CompileState.
Context `{Hcomp : !Compiled env m fin}.
Abbreviation Local := (Local_ IO).
Abbreviation vm_step := (vm_step m to_allocvec from_bytes).
Abbreviation step := (step m to_allocvec from_bytes).
Abbreviation at_ := (at_ G ctx).
Implicit Types (P : Place) (st : Local) (stk : list Value) (pc : nat) (s : RunState IO) (cs : CompileState).

(** * Runs that follow the semantics *)
Definition sim {A} s (y : outcome stop A * Local) (post : A → Local → RunState IO → Prop) (ret : Value → Local → RunState IO → Prop) : Prop :=
  match y with
  | (Ok a, st) => ∃ s', rtc vm_step s s' ∧ post a st s'
  | (Err (StopReturn v), st) => ∃ s', rtc vm_step s s' ∧ ret v st s'
  | (Err (StopExit r), st) => ∃ s1 s2, rtc vm_step s s1 ∧ step s1 = (Ok (Exited r), s2) ∧ rs_io s2 = lo_io st
  | (Err (StopError t), st) => ∃ s1 e s2, rtc vm_step s s1 ∧ step s1 = (Err e, s2) ∧ me_err_type e = t ∧ rs_io s2 = lo_io st
  | (Err StopUnknown, _) => True
  | (Panic w, _) => ∃ s1 s2, rtc vm_step s s1 ∧ step s1 = (Panic w, s2)
  end.

Lemma sim_steps {A} s s' (y : outcome stop A * Local) post ret : rtc vm_step s s' → sim s' y post ret → sim s y post ret.
Proof.
  intros Hs. destruct y as [[a|[r|t|v|]|w] st]; simpl; [| | | |done|].
  - intros (s1 & H1 & ?). exists s1. split; [by etrans|done].
  - intros (s1 & s2 & H1 & ?). exists s1, s2. split; [by etrans|done].
  - intros (s1 & e & s2 & H1 & ?). exists s1, e, s2. split; [by etrans|done].
  - intros (s1 & H1 & ?). exists s1. split; [by etrans|done].
  - intros (s1 & s2 & H1 & ?). exists s1, s2. split; [by etrans|done].
Qed.
Lemma sim_bind {A B} s (sem : Sem A) (t : A → Sem B) st post1 post ret :
  sim s (sem st) post1 ret → (∀ a st1 s1, post1 a st1 s1 → sim s1 (t a st1) post ret) → sim s ((sem ≫= t) st) post ret.
Proof.
  intros H1 Ht. unfold mbind, M_bind. destruct (sem st) as [[a|e|w] st1]; [|done..]. destruct H1 as (s1 & Hs & Hp).
  eapply sim_steps; [done|]. by apply Ht.
Qed.
Lemma sim_conseq {A} s (y : outcome stop A * Local) (post post' : A → Local → RunState IO → Prop) (ret ret' : Value → Local → RunState IO → Prop) :
  sim s y post ret → (∀ a st s', post a st s' → post' a st s') → (∀ v st s', ret v st s' → ret' v st s') → sim s y post' ret'.
Proof. intros Hs Hp Hr. destruct y as [[a|[r|t|v|]|w] st]; simpl in *; [naive_solver|done|done|naive_solver|done..]. Qed.

Lemma sim_assoc {A B D} s (sem : Sem A) (t : A → Sem B) (t' : B → Sem D) st post ret :
  sim s ((sem ≫= λ a, t a ≫= t') st) post ret → sim s (((sem ≫= t) ≫= t') st) post ret.
Proof. unfold mbind, M_bind. by destruct (sem st) as [[| |] ?]. Qed.

(** ** One step *)
Definition code pc (i : Instruction) : Prop := progmem m !! pc = Some i.
Lemma code_range pc i : code pc i → (Z.of_nat (S pc) < pow64)%Z.
Proof.
  intros Hi%lookup_lt_Some. rewrite (resolve_instructions_length _ _ _ (compiled_resolved (env := env))), <- (wf_wp _ _ (compiled_wf (m := m) (fin := fin))) in Hi.
  pose proof (wf_range _ _ (compiled_wf (m := m) (fin := fin))). lia.
Qed.
Lemma advance s pc i : code pc i → rs_pc s = pc → advance_pc s = (Ok Executing, set_pc (S pc) s).
Proof.
  intros Hi%code_range <-. unfold advance_pc, get_state, mbind, M_bind, modify. unfold checked_add.
  destruct (Z.ltb_spec (Z.of_nat (rs_pc s) + Z.of_nat 1) pow64); [|lia]. by rewrite Nat.add_1_r.
Qed.
Lemma sim_exec {B} i s (sem : Sem B) st (Q : RunState IO → B → Local → Prop) ret :
  code (rs_pc s) i → vsim (exec m to_allocvec from_bytes i s) (sem st) (λ fl s' b st', fl = FallThrough ∧ Q s' b st' ∧ rs_pc s' = rs_pc s) →
  sim s (sem st) (λ b st' s', ∃ s0, Q s0 b st' ∧ s' = set_pc (S (rs_pc s)) s0) ret.
Proof.
  intros Hi Hv. unfold vsim in Hv. assert (step s = match exec m to_allocvec from_bytes i s with
    | (Ok fl, s1) => (match fl with ReturnStatus st => mret st | FallThrough => advance_pc end) s1
    | (Err e, s1) => (Err e, s1) | (Panic w, s1) => (Panic w, s1) end) as Estep.
  { unfold Vm.step, get_state. unfold mbind at 1, M_bind at 1. rewrite Hi. done. }
  destruct (exec m to_allocvec from_bytes i s) as [[fl|e|w] s'].
  - destruct (sem st) as [[b|e|w] st']; [|done..]. destruct Hv as (-> & HQ & Hpc). exists (set_pc (S (rs_pc s)) s').
    split; [|by exists s']. apply rtc_once. unfold VmCalls.vm_step. rewrite Estep. by apply (advance s' (rs_pc s) i).
  - destruct (sem st) as [[b|[r|t|v|]|w] st']; try done. destruct Hv as [-> Hio]. exists s, e, s'. by rewrite Estep.
  - destruct (sem st) as [[b|e|w'] st']; try done. subst w'. exists s, s'. by rewrite Estep.
Qed.
Lemma sim_does {B} P i stk (sem : Sem B) P' (stk' : B → list Value) st pc ret :
  code pc i → does m to_allocvec from_bytes G ctx P i stk sem P' stk' → stack_ok stk →
  sim (at_ P st stk pc) (sem st) (λ b st' s', s' = at_ P' st' (stk' b) (S pc) ∧ stack_ok (stk' b)) ret.
Proof.
  intros Hi Hd Hs. eapply sim_conseq; [eapply (sim_exec i _ _ _ (λ s' b st', s' = at_ P' st' (stk' b) pc ∧ stack_ok (stk' b))); [exact Hi|]| |done].
  - specialize (Hd st pc Hs). unfold vsim in *. destruct (exec _ _ _ _ _) as [[fl|e|w] s']; [|done..].
    destruct (sem st) as [[b|e|w] st']; [|done..]. by destruct Hd as (? & -> & ?).
  - simpl. by intros b st' s' (s0 & [-> ?] & ->).
Qed.
Lemma sim_skip {B} P i stk stk1 st pc (y : outcome stop B * Local) post ret :
  code pc i → does m to_allocvec from_bytes G ctx P i stk (mret tt : Sem unit) P (λ _, stk1) → stack_ok stk →
  (stack_ok stk1 → sim (at_ P st stk1 (S pc)) y post ret) → sim (at_ P st stk pc) y post ret.
Proof.
  intros Hc Hd Hs Hk. destruct (sim_does P i stk (mret tt : Sem unit) P (λ _, stk1) st pc (λ _ _ _, False) Hc Hd Hs) as (s1 & Hs1 & -> & Hok).
  eapply sim_steps; [done|]. by apply Hk.
Qed.
Lemma step_to s i fl s' : code (rs_pc s) i → exec m to_allocvec from_bytes i s = (Ok fl, s') → rs_pc s' = rs_pc s ∨ fl ≠ FallThrough →
  step s = (Ok match fl with FallThrough => Executing | ReturnStatus st => st end, match fl with FallThrough => set_pc (S (rs_pc s)) s' | _ => s' end).
Proof.
  intros Hi He Hf. unfold Vm.step, get_state. unfold mbind at 1, M_bind at 1. rewrite Hi. unfold mbind, M_bind. rewrite He.
  destruct fl; [|done]. destruct Hf as [Hf|]; [|done]. by apply (advance s' (rs_pc s) i).
Qed.

(** * Code that a method appends *)
Definition inside cs : Prop := extends cs fin.
Lemma inside_before {A} (c : C A) cs a cs' : on_ok (grows env) c → c cs = (Ok a, cs') → wf env cs → inside cs' → inside cs.
Proof. intros Hc E Hw Hi. destruct (Hc _ _ _ E) as [He _]. destruct (He Hw). unfold inside in *. by etrans. Qed.

Lemma code_at i cs a cs' : append_instruction i cs = (Ok a, cs') → wf env cs → inside cs' →
  cs_wp cs' = S (cs_wp cs) ∧ ∃ i', code (cs_wp cs) i' ∧ resolve_instruction (ct_labels (cs_m fin)) i = Ok i'.
Proof.
  intros [-> _]%append_instruction_Ok Hw [[l Hl] _]. split; [done|]. simpl in Hl. pose proof (resolve_instructions_lookup _ _ _ (cs_wp cs) (compiled_resolved (env := env))) as Hr.
  rewrite Hl, <- app_assoc, (wf_wp _ _ Hw), lookup_app_r, Nat.sub_diag in Hr by lia. simpl in Hr. by rewrite (wf_wp _ _ Hw).
Qed.
Lemma resolve_plain L i : target_of i = None → resolve_instruction L i = Ok i.
Proof. by destruct i. Qed.
Lemma code_plain i cs a cs' : target_of i = None → append_instruction i cs = (Ok a, cs') → wf env cs → inside cs' →
  cs_wp cs' = S (cs_wp cs) ∧ code (cs_wp cs) i.
Proof. intros Ht E Hw Hi. destruct (code_at _ _ _ _ E Hw Hi) as (Hwp & i' & Hc & Hr). rewrite resolve_plain in Hr by done. by simplify_eq. Qed.
Definition label_at (l : Label) addr : Prop := bt_get l (ct_labels (cs_m fin)) = Some addr.
Lemma label_inside l cs a cs' : define_label_here l cs = (Ok a, cs') → inside cs' → label_at l (cs_wp cs) ∧ cs_wp cs' = cs_wp cs.
Proof.
  intros [Hn ->]%define_label_here_Ok [_ Hl]. split; [|done]. apply Hl. simpl. apply bt_get_insert_eq.
Qed.
Lemma code_branch l addr cs a cs' : append_instruction (IBranch (Unresolved l)) cs = (Ok a, cs') → wf env cs → inside cs' → label_at l addr →
  cs_wp cs' = S (cs_wp cs) ∧ code (cs_wp cs) (IBranch (Resolved addr)).
Proof. intros E Hw Hi Hl. destruct (code_at _ _ _ _ E Hw Hi) as (Hwp & i' & Hc & Hr). simpl in Hr. rewrite Hl in Hr. by injection Hr as <-. Qed.
Lemma code_jump l addr cs a cs' : append_instruction (IJump (Unresolved l)) cs = (Ok a, cs') → wf env cs → inside cs' → label_at l addr →
  cs_wp cs' = S (cs_wp cs) ∧ code (cs_wp cs) (IJump (Resolved addr)).
Proof. intros E Hw Hi Hl. destruct (code_at _ _ _ _ E Hw Hi) as (Hwp & i' & Hc & Hr). simpl in Hr. rewrite Hl in Hr. by injection Hr as <-. Qed.
Lemma code_call l addr cs a cs' : append_instruction (ICall (Unresolved l)) cs = (Ok a, cs') → wf env cs → inside cs' → label_at l addr →
  cs_wp cs' = S (cs_wp cs) ∧ code (cs_wp cs) (ICall (Resolved addr)).
Proof. intros E Hw Hi Hl. destruct (code_at _ _ _ _ E Hw Hi) as (Hwp & i' & Hc & Hr). simpl in Hr. rewrite Hl in Hr. by injection Hr as <-. Qed.

(** ** Control *)
Lemma step_jump P st stk pc addr : code pc (IJump (Resolved addr)) → vm_step (at_ P st stk pc) (at_ P st stk addr).
Proof. intros Hi. unfold VmCalls.vm_step. rewrite (step_to (at_ P st stk pc) _ _ _ Hi eq_refl); [done|by right]. Qed.
Lemma step_branch P st stk pc addr (b : bool) : code pc (IBranch (Resolved addr)) →
  vm_step (at_ P st (stk ++ [VBool b]) pc) (at_ P st stk (if b then addr else S pc)).
Proof.
  intros Hi. assert (exec m to_allocvec from_bytes (IBranch (Resolved addr)) (at_ P st (stk ++ [VBool b]) pc) =
    (Ok (if b then ReturnStatus Executing else FallThrough), at_ P st stk (if b then addr else pc))) as He.
  { simpl. unfold exec_branch, ipop, stack_pop, pop_value, mbind, M_bind, get_state, modify. simpl. rewrite vec_pop_snoc. by destruct b. }
  unfold VmCalls.vm_step. rewrite (step_to (at_ P st (stk ++ [VBool b]) pc) _ _ _ Hi He); destruct b; [done|done|by right|by left].
Qed.
(** A branch on a value that may not be a boolean. *)
Lemma sim_branch {B} P st stk pc addr v (t : bool → Sem B) post ret : code pc (IBranch (Resolved addr)) →
  (∀ b : bool, sim (at_ P st stk (if b then addr else S pc)) (t b st) post ret) →
  sim (at_ P st (stk ++ [v]) pc) ((conv v ≫= t) st) post ret.
Proof.
  intros Hi Hk. unfold conv, sem_try, lift, mbind, M_bind. destruct (try_from_value v) as [b|e|w] eqn:Ev; simpl.
  - assert (v = VBool b) as -> by (unfold try_from_value, bool_from_value in Ev; destruct v; by simplify_eq). eapply sim_steps; [by apply rtc_once, step_branch|]. apply Hk.
  - assert (∃ e', exec m to_allocvec from_bytes (IBranch (Resolved addr)) (at_ P st (stk ++ [v]) pc) = (Err e', at_ P st stk pc)
      ∧ me_err_type e' = met_of_conversion e) as (e' & He & Ht).
    { simpl. unfold exec_branch, ipop, stack_pop, pop_value, mbind, M_bind, get_state, modify. simpl. rewrite vec_pop_snoc. simpl. rewrite Ev. simpl.
      destruct (fail_at_Ok m (A := bool) (met_of_conversion e) (set_stack stk (at_ P st (stk ++ [v]) pc))) as (e' & -> & ?). by exists e'. }
    exists (at_ P st (stk ++ [v]) pc), e', (at_ P st stk pc). split; [done|]. split; [|done].
    eapply step_fail; [exact Hi|exact He].
  - by destruct v.
Qed.
Lemma sim_exit {B} P st stk pc r (post : B → Local → RunState IO → Prop) ret : code pc (IExit r) → sim (at_ P st stk pc) ((throw (StopExit r) : Sem B) st) post ret.
Proof.
  intros Hi. exists (at_ P st stk pc), (at_ P st stk pc). split; [done|]. split; [|done].
  rewrite (step_to (at_ P st stk pc) _ _ _ Hi eq_refl); [done|by right].
Qed.

(** * The judgement

    [imp P c stk sem stk']: in the place [P], the code that [c] appends, started
    with the stack [stk], does [sem] and ends with the stack [stk'], after the
    code, unless it stops, or is at a [return] with the value on the stack. *)
Definition returns P (v : Value) st s : Prop :=
  is_pure_context (p_context P) = true ∧ ∃ pc, code pc IReturn ∧ s = at_ P st (p_base P ++ [v]) pc ∧ stack_ok (p_base P ++ [v]).
Record placed P cs : Prop := {
  placed_wf : wf env cs;
  placed_sigs : sigs_ok env cs;
  placed_context : last (cs_statement_context cs) = Some (p_context P)
}.
Definition imp {A B} P (c : C A) stk (sem : Sem B) (out : B → list Value) : Prop :=
  ∀ cs a cs', c cs = (Ok a, cs') → placed P cs → inside cs' → stack_ok stk → ∀ st,
  sim (at_ P st stk (cs_wp cs)) (sem st) (λ b st' s', s' = at_ P st' (out b) (cs_wp cs') ∧ stack_ok (out b)) (returns P).

Lemma placed_grows {A} P (c : C A) cs a cs' : on_ok (grows env) c → c cs = (Ok a, cs') → placed P cs → placed P cs'.
Proof.
  intros Hc E [Hw Hs Hx]. destruct (Hc _ _ _ E) as (He & Hx' & Hs'). split; [by apply He| |by rewrite Hx'].
  intros x sig. rewrite Hs'. apply Hs.
Qed.
Lemma imp_bind_eq {A A' B B'} P (c : C A) (k : A → C A') stk (sem : Sem B) (t : B → Sem B') out1 out :
  on_ok (grows env) c → (∀ a, on_ok (grows env) (k a)) →
  imp P c stk sem out1 → (∀ a b, (∃ st st', sem st = (Ok b, st')) → imp P (k a) (out1 b) (t b) out) → imp P (c ≫= k) stk (sem ≫= t) out.
Proof.
  intros Gc Gk Hc Hk cs a' cs' (a & cs1 & E1 & E2)%M_bind_inv_Ok Hp Hi Hs st. pose proof (placed_grows P c _ _ _ Gc E1 Hp) as Hp1.
  assert (inside cs1) as Hi1 by (eapply inside_before; [apply Gk|done|apply Hp1|done]).
  specialize (Hc cs a cs1 E1 Hp Hi1 Hs st). unfold mbind, M_bind. destruct (sem st) as [[b|e|w] st1] eqn:Es; [|done..].
  destruct Hc as (s1 & Hs1 & -> & Hok). eapply sim_steps; [done|]. eapply Hk; eauto.
Qed.
Lemma imp_bind {A A' B B'} P (c : C A) (k : A → C A') stk (sem : Sem B) (t : B → Sem B') out1 out :
  on_ok (grows env) c → (∀ a, on_ok (grows env) (k a)) →
  imp P c stk sem out1 → (∀ a b, imp P (k a) (out1 b) (t b) out) → imp P (c ≫= k) stk (sem ≫= t) out.
Proof. intros Gc Gk Hc Hk. by eapply imp_bind_eq. Qed.
(** Code that the semantics has no counterpart of. *)
Lemma imp_step {A B} P i (k : unit → C A) stk (sem : Sem B) stk1 out :
  unresolved i = true → target_of i = None → does m to_allocvec from_bytes G ctx P i stk (mret tt : Sem unit) P (λ _, stk1) →
  on_ok (grows env) (k tt) → imp P (k tt) stk1 sem out → imp P (append_instruction i ≫= k) stk sem out.
Proof.
  intros Hu Ht Hd Gk Hk cs a' cs' ([] & cs1 & E1 & E2)%M_bind_inv_Ok Hp Hi Hs st.
  pose proof (placed_grows P (append_instruction i) _ _ _ (R_append i Hu) E1 Hp) as Hp1.
  assert (inside cs1) as Hi1 by (eapply inside_before; [exact Gk|done|apply Hp1|done]).
  destruct (code_plain _ _ _ _ Ht E1 (placed_wf _ _ Hp) Hi1) as [Hwp Hc].
  destruct (sim_does P i stk (mret tt : Sem unit) P (λ _, stk1) st (cs_wp cs) (λ _ _ _, False) Hc Hd Hs) as (s1 & Hs1 & -> & Hok).
  eapply sim_steps; [done|]. rewrite <- Hwp. by eapply Hk.
Qed.
Lemma imp_instr {B} P i stk (sem : Sem B) out :
  target_of i = None → does m to_allocvec from_bytes G ctx P i stk sem P out → imp P (append_instruction i) stk sem out.
Proof.
  intros Ht Hd cs a cs' E Hp Hi Hs st. destruct (code_plain _ _ _ _ Ht E (placed_wf _ _ Hp) Hi) as [-> Hc]. by apply (sim_does P i).
Qed.
(** The last instruction computes a value that is known. *)
Lemma imp_value {B} P i stk (b : B) out :
  target_of i = None → does m to_allocvec from_bytes G ctx P i stk (mret tt : Sem unit) P (λ _, out b) → imp P (append_instruction i) stk (mret b : Sem B) out.
Proof.
  intros Ht Hd cs a cs' E Hp Hi Hs st. destruct (code_plain _ _ _ _ Ht E (placed_wf _ _ Hp) Hi) as [-> Hc].
  destruct (sim_does P i stk (mret tt : Sem unit) P (λ _, out b) st (cs_wp cs) (λ _ _ _, False) Hc Hd Hs) as (s1 & Hs1 & -> & Hok). by eexists.
Qed.
(** Methods that append no code. *)
Lemma imp_quiet {A A' B} P (c : C A) (k : A → C A') stk (sem : Sem B) out :
  on_ok (quiet env) c → (∀ a, (∃ cs cs', placed P cs ∧ c cs = (Ok a, cs')) → imp P (k a) stk sem out) → imp P (c ≫= k) stk sem out.
Proof.
  intros Gc Hk cs a' cs' (a & cs1 & E1 & E2)%M_bind_inv_Ok Hp Hi Hs st. destruct (Gc _ _ _ E1) as [_ Hwp]. rewrite <- Hwp.
  eapply Hk; [by exists cs, cs1|done| |done..]. eapply placed_grows; [|done|done]. intros ? ? ? E. by apply (Gc _ _ _ E).
Qed.
Lemma imp_quiet_last {A A' B} P (c : C A) (k : A → C A') stk (sem : Sem B) out :
  on_ok (grows env) c → (∀ a, on_ok (quiet env) (k a)) → imp P c stk sem out → imp P (c ≫= k) stk sem out.
Proof.
  intros Gc Gk Hc cs a' cs' (a & cs1 & E1 & E2)%M_bind_inv_Ok Hp Hi Hs st. pose proof (placed_grows P c _ _ _ Gc E1 Hp) as Hp1.
  destruct (Gk _ _ _ _ E2) as [_ Hwp]. rewrite Hwp. eapply Hc; [done..| |done].
  eapply inside_before; [|done|apply Hp1|done]. intros ? ? ? E. by apply (Gk _ _ _ _ E).
Qed.
Lemma imp_ret {A B} P (a : A) (b : B) stk out : out b = stk → imp P (mret a) stk (mret b : Sem B) out.
Proof. intros <- cs a' cs' [= _ <-] Hp Hi Hs st. by eexists. Qed.
Lemma imp_ext {A B} P (c : C A) stk (sem sem' : Sem B) out : (∀ st, sem st = sem' st) → imp P c stk sem out → imp P c stk sem' out.
Proof. intros He Hc cs a cs' E Hp Hi Hs st. rewrite <- He. by eapply Hc. Qed.
Lemma imp_code_ext {A B} P (c c' : C A) stk (sem : Sem B) out : (∀ cs, c cs = c' cs) → imp P c stk sem out → imp P c' stk sem out.
Proof. intros He Hc cs a cs' E. rewrite <- He in E. by apply (Hc cs a cs'). Qed.
Lemma imp_stack {A B} P (c : C A) stk (sem : Sem B) out out2 : (∀ b, out b = out2 b) → imp P c stk sem out → imp P c stk sem out2.
Proof.
  intros He Hc cs a cs' E Hp Hi Hs st. eapply sim_conseq; [by eapply Hc| |done]. simpl. intros b st' s' [-> ?]. by rewrite <- He.
Qed.
Lemma imp_fmap {A B B'} P (c : C A) stk (sem : Sem B) (f : B → B') out :
  imp P c stk sem (λ b, out (f b)) → imp P c stk (sem ≫= λ b, (mret (f b) : Sem B')) out.
Proof.
  intros Hc cs a cs' E Hp Hi Hs st. eapply sim_bind; [by eapply Hc|]. simpl. intros b st' s' [-> ?]. by eexists.
Qed.
Lemma imp_assoc {A A' A'' B} P (c : C A) (k : A → C A') (k' : A' → C A'') stk (sem : Sem B) out :
  imp P (c ≫= λ a, k a ≫= k') stk sem out → imp P ((c ≫= k) ≫= k') stk sem out.
Proof.
  intros Hc cs a cs' E. apply (Hc cs a cs'). revert E. unfold mbind, M_bind. by destruct (c cs) as [[| |] ?].
Qed.
Lemma imp_sem_assoc {A B B' B''} P (c : C A) stk (sem : Sem B) (t : B → Sem B') (t' : B' → Sem B'') out :
  imp P c stk (sem ≫= λ b, t b ≫= t') out → imp P c stk ((sem ≫= t) ≫= t') out.
Proof. apply imp_ext. intros st. unfold mbind, M_bind. by destruct (sem st) as [[| |] ?]. Qed.
(** A method that cannot succeed. *)
Lemma imp_never {A B} P (c : C A) stk (sem : Sem B) out : (∀ cs a cs', c cs ≠ (Ok a, cs')) → imp P c stk sem out.
Proof. intros Hn cs a cs' E. by destruct (Hn cs a cs'). Qed.
Lemma imp_fail {A B} P t stk (sem : Sem B) out : imp P (cfail t : C A) stk sem out.
Proof. apply imp_never. intros cs a cs' (? & ? & _ & ?)%M_bind_inv_Ok. done. Qed.
Lemma imp_fail_at {A B} P t loc stk (sem : Sem B) out : imp P (cfail_at t loc : C A) stk sem out.
Proof. apply imp_never. intros cs a cs' (? & ? & _ & ?)%M_bind_inv_Ok. done. Qed.
Lemma imp_unknown {A B} P (c : C A) stk out : imp P c stk (throw StopUnknown : Sem B) out.
Proof. by intros cs a cs' E Hp Hi Hs st. Qed.
Lemma imp_exit {B} P r stk out : imp P (append_instruction (IExit r)) stk (throw (StopExit r) : Sem B) out.
Proof. intros cs a cs' E Hp Hi Hs st. destruct (code_plain (IExit r) _ _ _ eq_refl E (placed_wf _ _ Hp) Hi) as [_ Hc]. by apply sim_exit. Qed.
(** Run the code of a method, and what follows it. *)
Lemma imp_sim {A B} P (c : C A) stk (sem : Sem B) out cs a cs' st pc post ret :
  imp P c stk sem out → c cs = (Ok a, cs') → placed P cs → inside cs' → stack_ok stk → pc = cs_wp cs →
  (∀ b st', stack_ok (out b) → ∃ s', rtc vm_step (at_ P st' (out b) (cs_wp cs')) s' ∧ post b st' s') →
  (∀ v st' s', returns P v st' s' → ret v st' s') → sim (at_ P st stk pc) (sem st) post ret.
Proof.
  intros Hc E Hp Hi Hs -> Hpost Hret. specialize (Hc cs a cs' E Hp Hi Hs st). destruct (sem st) as [[b|[r|t|v|]|w] st']; simpl in *; [|done|done| |done..].
  - destruct Hc as (s' & Hr & -> & Hok). destruct (Hpost b st' Hok) as (s2 & Hr2 & ?). exists s2. split; [by etrans|done].
  - destruct Hc as (s' & Hr & Hv). exists s'. auto.
Qed.
End Logic.

(** Invert a method into its calls, and place each of them in the final code:
    [placed] goes forwards and [inside] backwards. *)
Ltac inv_calls E :=
  repeat match type of E with
  | (_ ≫= _) _ = (Ok _, _) =>
      let a := fresh "a" in let cs := fresh "cs" in let H1 := fresh "E" in
      apply M_bind_inv_Ok in E as (a & cs & H1 & E); cbn beta in E
  end.
Ltac forwards := repeat match goal with
  | E : ?c ?cs = (Ok _, ?cs'), Hp : placed ?env ?P ?cs |- _ =>
      lazymatch goal with _ : placed env P cs' |- _ => fail | _ => idtac end;
      assert (placed env P cs') by (eapply placed_grows; [|exact E|exact Hp]; solve [closed])
  end.
Ltac backwards := repeat match goal with
  | E : ?c ?cs = (Ok _, ?cs'), Hp : placed ?env ?P ?cs, Hi : inside ?fin ?cs' |- _ =>
      lazymatch goal with _ : inside fin cs |- _ => fail | _ => idtac end;
      assert (inside fin cs) by (eapply inside_before; [|exact E|exact (placed_wf _ _ _ Hp)|exact Hi]; solve [closed])
  end.
Ltac calls E := inv_calls E; repeat match goal with a : unit |- _ => destruct a end; forwards; backwards.
(** The addresses of labels and instructions. *)
Ltac locate :=
  repeat match goal with
  | E : on_types _ _ = (Ok _, _) |- _ => apply on_types_wp in E
  | E : anonymous_label _ = (Ok _, _) |- _ => apply anonymous_wp in E
  | E : define_label_here _ _ = (Ok _, ?cs'), Hi : inside _ ?cs' |- _ =>
      let H1 := fresh "Hl" in let H2 := fresh "Hw" in destruct (label_inside _ _ _ _ _ E Hi) as [H1 H2]; clear E
  end;
  repeat match goal with
  | E : append_instruction (IBranch (Unresolved ?l)) ?cs = (Ok _, ?cs'), Hp : placed _ _ ?cs, Hi : inside _ ?cs', Hl : label_at _ ?l _ |- _ =>
      let H1 := fresh "Hc" in let H2 := fresh "Hw" in destruct (code_branch _ _ _ _ _ _ _ _ E (placed_wf _ _ _ Hp) Hi Hl) as [H2 H1]; clear E
  | E : append_instruction (IJump (Unresolved ?l)) ?cs = (Ok _, ?cs'), Hp : placed _ _ ?cs, Hi : inside _ ?cs', Hl : label_at _ ?l _ |- _ =>
      let H1 := fresh "Hc" in let H2 := fresh "Hw" in destruct (code_jump _ _ _ _ _ _ _ _ E (placed_wf _ _ _ Hp) Hi Hl) as [H2 H1]; clear E
  | E : append_instruction (ICall (Unresolved ?l)) ?cs = (Ok _, ?cs'), Hp : placed _ _ ?cs, Hi : inside _ ?cs', Hl : label_at _ ?l _ |- _ =>
      let H1 := fresh "Hc" in let H2 := fresh "Hw" in destruct (code_call _ _ _ _ _ _ _ _ E (placed_wf _ _ _ Hp) Hi Hl) as [H2 H1]; clear E
  | E : append_instruction ?i ?cs = (Ok _, ?cs'), Hp : placed _ _ ?cs, Hi : inside _ ?cs' |- _ =>
      let H1 := fresh "Hc" in let H2 := fresh "Hw" in destruct (code_plain _ _ _ i _ _ _ eq_refl E (placed_wf _ _ _ Hp) Hi) as [H2 H1]; clear E
  end.
Ltac wps := repeat match goal with
  | Hw : cs_wp ?a = S (cs_wp ?b) |- context [S (cs_wp ?b)] => rewrite <- Hw
  | Hw : cs_wp ?a = cs_wp ?b |- context [cs_wp ?a] => rewrite Hw
  end.
