(* ===== verification/CompileExprs.v ===== *)
(** Compiled expressions compute what the reference semantics says. *)
From S2P Require Import Prelude Collections PolicyData PolicyModule VmScope Vm VmInvariant VmCalls VmSafety VmTheorems.
From S2P Require Import Ast CompileTypes Compile CompileProofs CompiledCode PolicySemantics CompileSim CompileLogic.
Local Open Scope string_scope.
Local Open Scope list_scope.
Local Open Scope nat_scope.

(** Split a method and its meaning into their first calls and the rest. *)
Ltac seq := eapply imp_bind; [solve [closed]|intros ?; solve [closed]| |intros ? ?].
Ltac len := rewrite ?length_app; simpl; lia.
(** An instruction without counterpart in the semantics. *)
Ltac skip lem := eapply imp_step; [exact _|done|done|eapply lem; exact _|solve [closed]|].
Ltac instr lem := eapply imp_instr; [exact _|done|eapply lem; try exact _].

Section Expressions.
Context {IO : Type} `{MachineIO IO}.
Variable env : CompileEnv.
Variable m : Machine.
Variable to_allocvec : Struct → option (list u8).
Variable from_bytes : list u8 → option Struct.
Variable G : BTreeMap string Value.
Variable ctx : CommandContext.
Variable ffi : nat → nat → CommandContext → list Value → IO → outcome MachineError Value * IO.
Variable fin : CompileState.
Context `{Hcomp : !Compiled env m fin}.
Hypothesis Hffi : ffi_contract env ffi.
Hypothesis Hstub : ce_stub_ffi env = false.
Abbreviation imp := (imp env m to_allocvec from_bytes G ctx fin).
Abbreviation ce := (compile_expression env).
Abbreviation SD := (struct_defs m).
Abbreviation FD := (fact_defs m).
Implicit Types (P : Place) (st : Local_ IO) (stk : list Value) (pc : nat) (cs : CompileState).

Variable ev : nat → Expression → Sem (IO := IO) Value.
Variable ex : nat → Statements → Sem (IO := IO) unit.
Hypothesis Hev : ∀ P stk d e, d = length stk → imp P (ce e) stk (ev d e) (λ v, stk ++ [v]).
Hypothesis Hex : ∀ P d l, d = length (p_base P) → imp P (compile_statements env l ScopeSame) (p_base P) (ex d l) (λ _, p_base P).

(** * Lists of expressions *)
Lemma imp_arguments P stk d l : d = length stk → imp P (compile_arguments ce l) stk (eval_list ev d l) (λ vs, stk ++ vs).
Proof.
  revert stk d. induction l as [|e l IH]; intros stk d Hd; [apply imp_ret, app_nil_r|].
  change (compile_arguments ce (e :: l)) with ((ce e ≫= λ _, mret tt) ≫= λ _, compile_arguments ce l). cbn [eval_list]. seq.
  - apply imp_quiet_last; [closed|intros; closed|by apply Hev].
  - apply imp_fmap. eapply imp_stack; [|apply (IH (stk ++ [b]) (S d)); len]. intros vs. simpl. by rewrite <- app_assoc.
Qed.
Lemma imp_fields P set sem_set stk d fields : (∀ x, unresolved (set x) = true ∧ target_of (set x) = None) →
  (∀ stk f v x, does m to_allocvec from_bytes G ctx P (set x) ((stk ++ [VFact f]) ++ [v]) (sem_set x v f) P (λ f', stk ++ [VFact f'])) →
  d = length stk → ∀ f, imp P (compile_fields ce set fields) (stk ++ [VFact f]) (eval_fields ev sem_set d fields f) (λ f', stk ++ [VFact f']).
Proof.
  intros Hset Hdoes Hd. induction fields as [|[x [e|]] fields IH]; intros f; [by apply imp_ret| |].
  - change (compile_fields ce set ((x, FExpression e) :: fields)) with
      ((ce e ≫= λ _, append_instruction (set x)) ≫= λ _, compile_fields ce set fields).
    destruct (Hset x). cbn [eval_fields]. apply imp_assoc. assert (on_ok (grows env) (compile_fields ce set fields)) as Hg.
    { apply closed_fields; [exact _..|apply Hset|apply closed_expressions; exact _]. }
    seq; [apply Hev; len|]. seq; [|apply IH]. by apply imp_instr.
  - apply IH.
Qed.
Lemma imp_fact_literal P stk d f : d = length stk → imp P (compile_fact_literal ce f) stk (eval_fact ev d f) (λ f, stk ++ [VFact f]).
Proof.
  intros Hd. unfold compile_fact_literal, eval_fact.
  seq; [by instr does_fact_new|]. seq; [apply imp_fields; [done|intros; apply does_key_set; exact _|done]|].
  destruct (fl_value_fields f); [|by apply imp_ret]. apply imp_fields; [done|intros; apply does_value_set; exact _|done].
Qed.
Lemma imp_struct_literal P stk d s : d = length stk →
  imp P (compile_struct_literal ce s) stk (eval_expression env G SD FD ctx to_allocvec from_bytes ffi ev ex d (ENamedStruct s)) (λ v, stk ++ [v]).
Proof.
  intros Hd. unfold compile_struct_literal. apply imp_quiet; [closed|]. intros cs _. destruct (negb _); [apply imp_fail|]. cbn [eval_expression].
  seq; [by instr does_struct_new|]. apply imp_fmap. set (st := mkStruct (ns_identifier s) []). clearbody st. revert st.
  induction (ns_fields s) as [|[x e] fields IH]; intros st; [by apply imp_ret|].
  simpl. apply imp_assoc. seq; [apply Hev; len|]. seq; [instr does_struct_set|]. apply IH.
Qed.

(** * Queries and counts *)
Lemma imp_query P stk d f : d = length stk → imp P (compile_query ce f) stk (eval_query FD ev d f) (λ v, stk ++ [v]).
Proof.
  intros Hd. unfold compile_query, eval_query. apply imp_quiet; [closed|]. intros _ _.
  seq; [by apply imp_fact_literal|]. instr does_query.
Qed.
Lemma imp_count P stk d cmp limit f : d = length stk →
  imp P (compile_counting_function ce cmp limit f) stk (eval_count FD ev d cmp limit f) (λ v, stk ++ [v]).
Proof.
  intros Hd. unfold compile_counting_function, eval_count. destruct (limit <=? 0)%Z; [apply imp_fail|]. apply imp_quiet; [closed|]. intros _ _.
  seq; [by apply imp_fact_literal|].
  assert (∀ n (i : C unit) (sem : Z → Sem Value), on_ok (grows env) i →
    (∀ c, imp P i ((stk ++ [VInt c]) ++ [VInt limit]) (sem c) (λ v, stk ++ [v])) →
    imp P (append_instruction (IFactCount n) ≫= λ _, append_instruction (IConst (VInt limit)) ≫= λ _, i) (stk ++ [VFact b])
      (count FD b n ≫= λ c, guard (S d) ≫= λ _, sem c) (λ v, stk ++ [v])) as Hc.
  { intros n i sem Hg Hi. seq; [instr does_count|]. seq; [instr does_const; len|]. apply Hi. }
  assert (∀ n, (∃ cs cs', placed env P cs ∧ ctry (ok_or (i64_checked_add limit 1) (CEBug "fact count too large")) cs = (Ok n, cs')) → n = (limit + 1)%Z) as Hn.
  { intros n (cs & cs' & _ & E). unfold ctry, lift, i64_checked_add in E. destruct (i64_ok _); [|done]. by injection E as <- _. }
  destruct cmp.
  - apply imp_fmap. instr does_count.
  - apply Hc; [closed|]. intros c. seq; [by instr does_compare|]. instr does_not.
  - apply imp_quiet; [closed|]. intros n ->%Hn. apply Hc; [closed|]. intros c. seq; [by instr does_compare|]. instr does_not.
  - apply imp_quiet; [closed|]. intros n ->%Hn. apply Hc; [closed|]. intros c. apply imp_value; [exact _|done|]. apply does_eq; exact _.
Qed.

(** * Branches in expressions *)
Lemma imp_skip_exit P l r stk v (b : bool) :
  imp P (append_instruction (IBranch (Unresolved l)) ≫= λ _, append_instruction (IExit r) ≫= λ _, define_label_here l)
    ((stk ++ [v]) ++ [VBool b]) (if b then mret v else throw (StopExit r)) (λ v, stk ++ [v]).
Proof.
  intros cs [] cs' E Hp Hi Hs st. calls E. locate. eapply sim_steps; [by eapply rtc_once, step_branch|].
  destruct b; wps; [|by eapply sim_exit]. eexists. split; [done|]. split; [done|room].
Qed.
Lemma imp_unwrap P stk d e r : d = length stk → imp P (compile_unwrap ce e r) stk (eval_unwrap ev d e r) (λ v, stk ++ [v]).
Proof.
  intros Hd. unfold compile_unwrap, eval_unwrap. apply imp_quiet; [closed|]. intros l _. seq; [by apply Hev|].
  seq; [by instr does_dup0|]. seq; [instr does_const; len|]. skip does_eq. skip does_not_bool.
  eapply imp_ext; [|apply (imp_skip_exit P l r stk b)]. intros st. unfold equal. by case_bool_decide.
Qed.
Lemma imp_if_expression P stk d e t f : d = length stk →
  imp P (compile_if_expression ce e t f) stk (v ← ev d e; b ← conv v; if (b : bool) then ev d t else ev d f) (λ v, stk ++ [v]).
Proof.
  intros Hd. unfold compile_if_expression. apply imp_quiet; [closed|]. intros else_ _. apply imp_quiet; [closed|]. intros end_ _. seq; [by apply Hev|].
  intros cs [] cs' E Hp Hi Hs st. calls E. locate. assert (stack_ok stk) as Hs' by room. eapply sim_branch; [exact _|done|]. intros [|]; wps.
  - eapply (imp_sim _ _ _ _ _ _ _ P (ce t)); [by apply (Hev P stk d)|done..| |done]. intros v st' ?. by eexists.
  - eapply (imp_sim _ _ _ _ _ _ _ P (ce f)); [by apply (Hev P stk d)|done..| |done]. intros v st' ?. eexists. split; [by eapply rtc_once, step_jump|done].
Qed.
Lemma imp_internal P stk d f : d = length stk →
  imp P (compile_internal_function ce f) stk (eval_internal FD ctx to_allocvec from_bytes ev d f) (λ v, stk ++ [v]).
Proof.
  intros Hd. destruct f; cbn [compile_internal_function eval_internal].
  - by apply imp_query.
  - seq; [by apply imp_query|]. seq; [instr does_const; len|]. skip does_eq. apply imp_value; [exact _|done|]. apply does_not_bool; exact _.
  - by apply imp_count.
  - by apply imp_if_expression.
  - unfold compile_serial. apply imp_quiet; [closed|]. intros x _. destruct (negb _); [apply imp_fail|]. seq; [by apply Hev|]. instr does_serialize.
  - unfold compile_serial. apply imp_quiet; [closed|]. intros x _. destruct (negb _); [apply imp_fail|]. seq; [by apply Hev|]. instr does_deserialize.
Qed.

(** * Operators *)
Lemma imp_binary P stk d a b i (op : Value → Value → Sem Value) : d = length stk → unresolved i = true → target_of i = None →
  (∀ x y, does m to_allocvec from_bytes G ctx P i ((stk ++ [x]) ++ [y]) (op x y) P (λ v, stk ++ [v])) →
  imp P (compile_binary ce a b i) stk (x ← ev d a; y ← ev (S d) b; op x y) (λ v, stk ++ [v]).
Proof.
  intros Hd Hu Ht Hi. unfold compile_binary. seq; [by apply Hev|]. seq; [apply Hev; len|]. apply imp_instr; [exact _|done|]. apply Hi.
Qed.
Lemma imp_weak P stk d a b i op msg : d = length stk → exec (IO := IO) m to_allocvec from_bytes i = exec_compare m op msg → unresolved i = true → target_of i = None →
  imp P (compile_weak_comparison ce a b i) stk
    (x ← ev d a; y ← ev (S d) b; guard (S (S d)) ≫= λ _, guard (S (S (S d))) ≫= λ _, r ← compare op msg x y; logic orb (equal x y) r) (λ v, stk ++ [v]).
Proof.
  intros Hd Hi Hu Ht. unfold compile_weak_comparison. seq; [by apply Hev|]. seq; [apply Hev; len|]. seq; [by instr does_dup1|].
  seq; [instr does_dup1; len|]. skip does_eq. skip does_swap2. skip does_swap1. seq; [by instr does_compare|]. by instr does_logic.
Qed.

(** * Foreign calls *)
Lemma find_index_from_Some {A} (p : A → bool) l i j x : find_index_from i p l = Some (j, x) → i ≤ j ∧ l !! (j - i) = Some x.
Proof.
  revert i. induction l as [|y l IH]; intros i; simpl; [done|]. destruct (p y).
  - intros [= <- <-]. by rewrite Nat.sub_diag.
  - intros [? Hl]%IH. split; [lia|]. by replace (j - i) with (S (j - S i)) by lia.
Qed.
Lemma find_index_Some {A} (p : A → bool) l j x : find_index p l = Some (j, x) → l !! j = Some x.
Proof. intros [_ Hl]%find_index_from_Some. by rewrite Nat.sub_0_r in Hl. Qed.
Lemma get_or_Ok {A} (o : option A) t x cs cs' : get_or o t cs = (Ok x, cs') → o = Some x.
Proof. destruct o; [by intros [= <- _]|]. by intros (? & ? & _ & ?)%M_bind_inv_Ok. Qed.
Lemma eval_list_length d l st vs st' : eval_list ev d l st = (Ok vs, st') → length vs = length l.
Proof.
  revert d st vs st'. induction l as [|e l IH]; intros d st vs st'; simpl; [by intros [= <- _]|].
  intros (v & st1 & _ & (ws & st2 & E & [= <- _])%M_bind_inv_Ok)%M_bind_inv_Ok. simpl. by rewrite (IH _ _ _ _ E).
Qed.
Lemma does_foreign P stk args i j mo f : ce_ffi_modules env !! i = Some mo → sch_functions mo !! j = Some f → length args = length (ffn_args f) →
  length stk < STACK_SIZE → does m to_allocvec from_bytes G ctx P (IExtCall i j) (stk ++ args) (call_foreign ctx ffi i j args) P (λ v, stk ++ [v]).
Proof.
  intros Hi Hj Ha Hl st pc Hs. cbn [exec]. unfold exec_ext_call, call_foreign, mbind, M_bind, get_state, modify, lift. simpl.
  pose proof (Hffi i j mo f ctx stk args (lo_io st) Hi Hj Ha Hl) as Hc. destruct (ffi i j ctx args (lo_io st)) as [[v|e|w] io].
  - rewrite Hc. simpl. split_and!; [done..|room].
  - destruct Hc as [stk' ->]. done.
  - destruct Hc as [stk' ->]. done.
Qed.
Lemma imp_foreign_call P stk d f : d = length stk →
  imp P (compile_foreign_call env ce f) stk (eval_foreign env ctx ffi ev d f) (λ v, stk ++ [v]).
Proof.
  intros Hd. unfold compile_foreign_call, eval_foreign, foreign_index. destruct (negb _); [apply imp_fail|]. skip does_meta. rewrite Hstub.
  apply imp_quiet; [closed|]. intros [i mo] (cs1 & cs2 & _ & Ei%get_or_Ok). rewrite Ei. simpl.
  apply imp_quiet; [closed|]. intros [j p] (cs3 & cs4 & _ & Ej%get_or_Ok). rewrite Ej. simpl.
  destruct (Nat.eqb_spec (length (ffc_arguments f)) (length (ffn_args p))) as [Hlen|]; [|apply imp_fail]. simpl.
  eapply imp_bind_eq; [closed|intros; closed|by apply imp_arguments|]. intros _ args (st & st' & Ha%eval_list_length).
  destruct (Nat.ltb_spec d STACK_SIZE); [|apply imp_unknown].
  apply imp_instr; [exact _|done|]. eapply does_foreign; [by eapply find_index_Some|by eapply find_index_Some|congruence|lia].
Qed.

Lemma imp_const P stk d v : d = length stk → imp P (append_instruction (IConst v)) stk (guard d ≫= λ _, mret v) (λ v, stk ++ [v]).
Proof. intros Hd. apply (imp_fmap _ _ _ _ _ _ _ P _ stk (guard d) (λ _, v)). by instr does_const. Qed.
Lemma closed_pure_call f : on_ok (grows env) (compile_pure_call ce f).
Proof. unfold compile_pure_call. closed. Qed.
Lemma closed_foreign_call f : on_ok (grows env) (compile_foreign_call env ce f).
Proof. unfold compile_foreign_call. closed. Qed.
Lemma closed_enum_reference e : on_ok (grows env) (compile_enum_reference e).
Proof. unfold compile_enum_reference. closed. Qed.
#[local] Hint Resolve closed_pure_call closed_foreign_call closed_enum_reference : closed.

(** ** Every expression, given function calls *)
Lemma imp_expression P stk d e : d = length stk →
  (∀ f, e = EFunctionCall f → imp P (compile_pure_call ce f) stk (eval_call env G ev ex d f) (λ v, stk ++ [v])) →
  imp P (ce e) stk (eval_expression env G SD FD ctx to_allocvec from_bytes ffi ev ex d e) (λ v, stk ++ [v]).
Proof.
  intros Hd Hcall. destruct e; cbn [compile_expression]; (apply imp_quiet; [closed|]; intros x _);
    (apply imp_quiet; [unfold check_finish_expression; closed|]; intros _ _); (apply imp_quiet; [unfold expression_type; closed|]; intros ty _);
    (apply imp_quiet_last; [solve [closed]|intros; closed|]); cbn [eval_expression]; try (by apply imp_const).
  - destruct o; [|by apply imp_const]. apply imp_quiet_last; [closed|intros; closed|by apply Hev].
  - by apply imp_struct_literal.
  - by apply imp_internal.
  - by apply Hcall.
  - by apply imp_foreign_call.
  - skip does_meta. by instr does_get.
  - unfold compile_enum_reference. do 2 (apply imp_quiet; [closed|]; intros ? _). destruct (negb _); [apply imp_fail|by apply imp_const].
  - apply imp_binary; [done..|]. intros. by apply does_arith; try exact _.
  - apply imp_binary; [done..|]. intros. by apply does_arith; try exact _.
  - apply imp_binary; [done..|]. intros. by apply does_logic; try exact _.
  - apply imp_binary; [done..|]. intros. by apply does_logic; try exact _.
  - seq; [by apply Hev|]. instr does_struct_get.
  - unfold compile_binary. seq; [by apply Hev|]. seq; [apply Hev; len|]. apply imp_value; [exact _|done|]. apply does_eq; exact _.
  - unfold compile_binary. apply imp_assoc. seq; [by apply Hev|]. apply imp_assoc. seq; [apply Hev; len|]. skip does_eq. instr does_not.
  - apply imp_binary; [done..|]. intros. by apply does_compare; try exact _.
  - apply imp_binary; [done..|]. intros. by apply does_compare; try exact _.
  - by eapply imp_weak.
  - by eapply imp_weak.
  - seq; [by apply Hev|]. seq; [instr does_const; len|]. skip does_swap1. by instr does_arith.
  - seq; [by apply Hev|]. instr does_not.
  - by apply imp_unwrap.
  - by apply imp_unwrap.
  - seq; [by apply Hev|]. seq; [instr does_const; len|]. skip does_eq. destruct is_some; [|by apply imp_ret].
    apply imp_value; [exact _|done|]. apply does_not_bool; exact _.
Qed.
End Expressions.
