(* ===== verification/CompileCalls.v ===== *)
(** Compiled calls of functions, finish functions and actions. *)
From S2P Require Import Prelude Collections PolicyData PolicyModule VmScope Vm VmInvariant VmCalls VmSafety VmTheorems.
From S2P Require Import Ast CompileTypes Compile CompileProofs CompiledCode PolicySemantics CompileSim CompileLogic.
From S2P Require Import CompileExprs.
Local Open Scope string_scope.
Local Open Scope list_scope.
Local Open Scope nat_scope.

(** What follows the label of a function, a finish function or an action, up
    to its last instruction. *)
Definition function_code (env : CompileEnv) (params : list FieldDefinition) (body : Statements) (loc : nat) : C unit :=
  append_arguments params ≫= λ _,
  compile_returning env body loc.
Definition procedure_code (env : CompileEnv) (params : list FieldDefinition) (body : Statements) : C unit :=
  append_arguments params ≫= λ _,
  compile_statements env body ScopeSame.

(** The code of a method in the final code, in a context. *)
Record located {A} (env : CompileEnv) (fin : CompileState) (x : StatementContext) (c : C A) (cs cs' : CompileState) : Prop := {
  located_runs : ∃ a, c cs = (Ok a, cs');
  located_wf : wf env cs;
  located_sigs : sigs_ok env cs;
  located_context : last (cs_statement_context cs) = Some x;
  located_inside : inside fin cs'
}.
(** Every function of the policy has its code, at its label. *)
Class Linked (env : CompileEnv) (fin : CompileState) : Prop := {
  linked_function node : node ∈ pl_functions (ce_policy env) →
    ∃ cs cs', located env fin (SCPureFunction (inner node)) (function_code env (fn_arguments (inner node)) (fn_statements (inner node)) (locator node) ≫= λ _, append_instruction (IExit ExitPanic)) cs cs'
      ∧ label_at fin (mkLabel (fn_identifier (inner node)) LFunction) (cs_wp cs);
  linked_finish_function node : node ∈ pl_finish_functions (ce_policy env) →
    ∃ cs cs', located env fin SCFinish (procedure_code env (ff_arguments (inner node)) (ff_statements (inner node)) ≫= λ _, append_instruction IReturn) cs cs'
      ∧ label_at fin (label_new_temp (ff_identifier (inner node))) (cs_wp cs);
  linked_action node : node ∈ pl_actions (ce_policy env) →
    ∃ cs cs', located env fin (SCAction (inner node)) (procedure_code env (action_arguments (inner node)) (action_statements (inner node)) ≫= λ _, append_instruction IReturn) cs cs'
      ∧ label_at fin (mkLabel (action_identifier (inner node)) LAction) (cs_wp cs)
}.

Section Calls.
Context {IO : Type} `{MachineIO IO}.
Variable env : CompileEnv.
Variable m : Machine.
Variable to_allocvec : Struct → option (list u8).
Variable from_bytes : list u8 → option Struct.
Variable G : BTreeMap string Value.
Variable ctx : CommandContext.
Variable fin : CompileState.
Context `{Hcomp : !Compiled env m fin} `{Hlink : !Linked env fin}.
Abbreviation imp := (imp env m to_allocvec from_bytes G ctx fin).
Abbreviation sim := (sim m to_allocvec from_bytes).
Abbreviation vm_step := (vm_step m to_allocvec from_bytes).
Abbreviation at_ := (at_ G ctx).
Abbreviation ce := (compile_expression env).
Implicit Types (P : Place) (st : Local_ IO) (stk : list Value) (pc : nat) (cs : CompileState).

Variable ev : nat → Expression → Sem (IO := IO) Value.
Variable ex : nat → Statements → Sem (IO := IO) unit.
Hypothesis Hev : ∀ P stk d e, d = length stk → imp P (ce e) stk (ev d e) (λ v, stk ++ [v]).
Hypothesis Hex : ∀ P d l, d = length (p_base P) → imp P (compile_statements env l ScopeSame) (p_base P) (ex d l) (λ _, p_base P).

(** * Entering and leaving *)
Definition callee P st stk pc (x : StatementContext) : Place :=
  mkPlace (p_outer P ++ [lo_frame st]) (p_calls P ++ [pc]) (p_qs P) x stk.
Lemma step_call P st stk args pc addr x : code m pc (ICall (Resolved addr)) →
  vm_step (at_ P st (stk ++ args) pc) (at_ (callee P st stk pc x) (mkLocal [[]] (lo_io st)) (stk ++ args) addr).
Proof.
  intros Hi. unfold VmCalls.vm_step. rewrite (step_to env m to_allocvec from_bytes fin (at_ P st (stk ++ args) pc) _ _ _ Hi eq_refl); [done|by right].
Qed.
Lemma step_return P st stk pc x st' stk' pc' i : code m pc i → code m pc' IReturn →
  vm_step (at_ (callee P st stk pc x) st' stk' pc') (at_ P (mkLocal (lo_frame st) (lo_io st')) stk' (S pc)).
Proof.
  intros Hi Hr. unfold VmCalls.vm_step, Vm.step, get_state. unfold mbind at 1, M_bind at 1. cbn [rs_pc CompileSim.at_]. rewrite Hr. cbn [exec].
  assert (exec_return m (at_ (callee P st stk pc x) st' stk' pc') = (Ok FallThrough, at_ P (mkLocal (lo_frame st) (lo_io st')) stk' pc)) as He.
  { unfold exec_return, get_state, mbind, M_bind, modify, update_scope, exit_function. simpl. rewrite vec_pop_snoc.
    destruct (p_calls P ++ [pc]) eqn:Ec; [by destruct (p_calls P)|]. unfold get_state, mbind, M_bind. simpl. by rewrite vec_pop_snoc. }
  unfold mbind, M_bind. rewrite He. by eapply (advance env m fin (at_ P (mkLocal (lo_frame st) (lo_io st')) stk' pc) pc i).
Qed.

(** * Arguments *)
Lemma imp_append_arguments P stk params : ∀ args, length params = length args →
  imp P (append_arguments params) (stk ++ args) (bind_arguments G params args) (λ _, stk).
Proof.
  unfold append_arguments, bind_arguments. induction params as [|p params IH] using rev_ind; intros args Hlen.
  - destruct args; [|done]. simpl. apply imp_ret. by rewrite app_nil_r.
  - destruct args as [|v args _] using rev_ind; [rewrite length_app in Hlen; simpl in Hlen; lia|]. rewrite !length_app in Hlen. simpl in Hlen.
    rewrite map_app, zip_with_app by (rewrite length_map; lia). rewrite !rev_app_distr. simpl. rewrite app_assoc.
    apply imp_bind with (out1 := λ _, stk ++ args).
    + unfold append_var. closed.
    + intros _. unfold append_var. closed.
    + unfold append_var. skip does_meta. apply imp_quiet_last; [closed|intros; closed|]. instr does_def.
    + intros _ _. apply IH. lia.
Qed.

(** * Bodies *)
Lemma located_placed {A} P (c : C A) cs cs' : located env fin (p_context P) c cs cs' → placed env P cs.
Proof. intros []. by split. Qed.
Lemma imp_returning P d l loc : d = length (p_base P) → imp P (compile_returning env l loc) (p_base P) (ex d l) (λ _, p_base P).
Proof.
  intros Hd. unfold compile_returning. apply imp_quiet; [closed|]. intros cs _. apply imp_quiet_last; [closed| |by apply Hex].
  intros _. unfold range_has_return. closed.
Qed.
Lemma imp_function_code P d params body loc args : d = length (p_base P) → length params = length args →
  imp P (function_code env params body loc) (p_base P ++ args) (run_body G ex d params body args) (λ _, p_base P).
Proof. intros Hd Hlen. unfold function_code, run_body. seq; [by apply imp_append_arguments|]. by apply imp_returning. Qed.
Lemma imp_procedure_code P d params body args : d = length (p_base P) → length params = length args →
  imp P (procedure_code env params body) (p_base P ++ args) (run_body G ex d params body args) (λ _, p_base P).
Proof. intros Hd Hlen. unfold procedure_code, run_body. seq; [by apply imp_append_arguments|]. by apply Hex. Qed.
Lemma closed_function_code params body loc : on_ok (grows env) (function_code env params body loc).
Proof. unfold function_code. closed. Qed.
Lemma closed_procedure_code params body : on_ok (grows env) (procedure_code env params body).
Proof. unfold procedure_code. closed. Qed.
#[local] Hint Resolve closed_function_code closed_procedure_code : closed.

(** A function runs to a [return], or to the panic at its end. *)
Lemma function_sim P d params body loc args cs cs' st : d = length (p_base P) →
  located env fin (p_context P) (function_code env params body loc ≫= λ _, append_instruction (IExit ExitPanic)) cs cs' →
  length params = length args → stack_ok (p_base P ++ args) →
  sim (at_ P st (p_base P ++ args) (cs_wp cs)) ((run_body G ex d params body args ≫= λ _, (throw (StopExit ExitPanic) : Sem Value)) st)
    (λ _ _ _, False) (returns m G ctx P).
Proof.
  intros Hd Hloc Hlen Hs. pose proof (located_placed _ _ _ _ Hloc) as Hp. destruct Hloc as [[[] E] _ _ _ Hi]. calls E. locate.
  eapply sim_bind; [by eapply imp_function_code|]. intros [] st1 s1 [-> _]. by apply (sim_exit env m to_allocvec from_bytes G ctx fin (B := Value)).
Qed.
(** A procedure runs to its [IReturn]. *)
Lemma procedure_sim P d params body args cs cs' st : d = length (p_base P) → is_pure_context (p_context P) = false →
  located env fin (p_context P) (procedure_code env params body ≫= λ _, append_instruction IReturn) cs cs' →
  length params = length args → stack_ok (p_base P ++ args) →
  sim (at_ P st (p_base P ++ args) (cs_wp cs)) (run_body G ex d params body args st)
    (λ _ st' s', stack_ok (p_base P) ∧ ∃ pc, code m pc IReturn ∧ s' = at_ P st' (p_base P) pc) (λ _ _ _, False).
Proof.
  intros Hd Hx Hloc Hlen Hs. pose proof (located_placed _ _ _ _ Hloc) as Hp. destruct Hloc as [[[] E] _ _ _ Hi]. calls E. locate.
  eapply sim_conseq; [by eapply imp_procedure_code| |].
  - simpl. intros [] st1 s1 [-> ?]. eauto.
  - simpl. intros v st1 s1 [Hy _]. congruence.
Qed.

(** * Calls *)
Lemma find_elem {A} (p : A → bool) l x : List.find p l = Some x → x ∈ l ∧ p x = true.
Proof. intros [? ?]%find_some. by rewrite list_elem_of_In. Qed.
Lemma sim_call_procedure P st stk pc x i s (body : Sem unit) ret : code m pc i →
  sim s (body (mkLocal [[]] (lo_io st)))
    (λ _ st' s', stack_ok stk ∧ ∃ pc', code m pc' IReturn ∧ s' = at_ (callee P st stk pc x) st' stk pc') (λ _ _ _, False) →
  sim s (in_frame body st) (λ _ st' s', s' = at_ P st' stk (S pc) ∧ stack_ok stk) ret.
Proof.
  intros Hi Hsim. unfold in_frame. destruct (body (mkLocal [[]] (lo_io st))) as [[[]|[r|t|v|]|w] st']; simpl in *; try done.
  - destruct Hsim as (s' & Hr & Hok & pc' & Hret & ->). eexists. split; [|split; [reflexivity|done]]. eapply rtc_r; [done|]. by eapply step_return.
  - by destruct Hsim as (? & _ & []).
Qed.
Lemma sim_call_function P st stk pc x i s (body : Sem Value) ret : code m pc i →
  sim s (body (mkLocal [[]] (lo_io st))) (λ _ _ _, False) (returns m G ctx (callee P st stk pc x)) →
  sim s (in_frame (catch_return body) st) (λ v st' s', s' = at_ P st' (stk ++ [v]) (S pc) ∧ stack_ok (stk ++ [v])) ret.
Proof.
  intros Hi Hsim. unfold in_frame, catch_return. destruct (body (mkLocal [[]] (lo_io st))) as [[v|[r|t|v|]|w] st']; simpl in *; try done.
  - by destruct Hsim as (? & _ & []).
  - destruct Hsim as (s' & Hr & _ & pc' & Hret & -> & Hok). eexists. split; [|split; [reflexivity|done]]. eapply rtc_r; [done|]. by eapply step_return.
Qed.
Lemma imp_call_procedure P stk d params body args l x cs cs' : d = length stk → is_pure_context x = false →
  located env fin x (procedure_code env params body ≫= λ _, append_instruction IReturn) cs cs' → label_at fin l (cs_wp cs) → length params = length args →
  imp P (append_instruction (ICall (Unresolved l))) (stk ++ args) (in_frame (run_body G ex d params body args)) (λ _, stk).
Proof.
  intros Hd Hx Hloc Hl Hlen cs1 [] cs2 E Hp Hi Hs st. locate. rewrite Hw.
  eapply sim_steps; [by eapply rtc_once, (step_call P st stk args _ _ x)|]. eapply sim_call_procedure; [done|]. by eapply procedure_sim.
Qed.
Lemma imp_call_function P stk d params body loc args l x cs cs' : d = length stk →
  located env fin x (function_code env params body loc ≫= λ _, append_instruction (IExit ExitPanic)) cs cs' → label_at fin l (cs_wp cs) → length params = length args →
  imp P (append_instruction (ICall (Unresolved l))) (stk ++ args)
    (in_frame (catch_return (run_body G ex d params body args ≫= λ _, throw (StopExit ExitPanic)))) (λ v, stk ++ [v]).
Proof.
  intros Hd Hloc Hl Hlen cs1 [] cs2 E Hp Hi Hs st. locate. rewrite Hw.
  eapply sim_steps; [by eapply rtc_once, (step_call P st stk args _ _ x)|]. eapply sim_call_function; [done|].
  by eapply (function_sim (callee P st stk (cs_wp cs1) x)).
Qed.

(** ** The calls of the language *)
Lemma imp_pure_call P stk d f : d = length stk → imp P (compile_pure_call ce f) stk (eval_call env G ev ex d f) (λ v, stk ++ [v]).
Proof.
  intros Hd. unfold compile_pure_call, eval_call. apply imp_quiet; [closed|]. intros cs (? & ? & Hp & [= <- <-]).
  apply imp_quiet; [closed|]. intros sig (cs1 & cs2 & _ & Esig%get_or_Ok). pose proof (placed_sigs _ _ _ Hp _ _ Esig) as Hok. unfold signature_ok in Hok.
  destruct (sig_color sig); [|apply imp_fail]. destruct Hok as (node & Hfind & Hargs). unfold find_function in Hfind. rewrite Hfind.
  apply find_elem in Hfind as [Hin Hname%bool_decide_eq_true].
  destruct (Nat.eqb_spec (length (sig_args sig)) (length (fc_arguments f))) as [Hlen|]; [|apply imp_fail]. unfold compile_function_call. simpl.
  destruct (linked_function node Hin) as (csn & csn' & Hloc & Hl).
  eapply imp_bind_eq; [closed|intros; closed|by eapply imp_arguments|]. intros _ args (st & st' & Ha%eval_list_length).
  rewrite <- Hname. eapply imp_call_function; [done|done|done|congruence].
Qed.
Lemma imp_finish_call P d loc f : d = length (p_base P) →
  imp P (compile_finish_call env loc f) (p_base P)
    (match find_finish_function env (fc_identifier f) with
     | None => throw StopUnknown
     | Some node => run_call G ev ex d (ff_arguments (inner node)) (ff_statements (inner node)) (fc_arguments f)
     end) (λ _, p_base P).
Proof.
  intros Hd. unfold compile_finish_call. apply imp_quiet; [closed|]. intros cs (? & ? & Hp & [= <- <-]).
  destruct (bt_get _ _) as [sig|] eqn:Esig; [|apply imp_fail_at]. pose proof (placed_sigs _ _ _ Hp _ _ Esig) as Hok. unfold signature_ok in Hok.
  destruct (sig_color sig); [apply imp_fail_at|]. destruct Hok as (node & Hfind & Hargs). rewrite Hfind. unfold find_finish_function in Hfind.
  apply find_elem in Hfind as [Hin Hname%bool_decide_eq_true].
  destruct (Nat.eqb_spec (length (sig_args sig)) (length (fc_arguments f))) as [Hlen|]; [|apply imp_fail_at]. unfold compile_function_call, run_call. simpl.
  destruct (linked_finish_function node Hin) as (csn & csn' & Hloc & Hl).
  eapply imp_bind_eq; [closed|intros; closed|by eapply imp_arguments|]. intros _ args (st & st' & Ha%eval_list_length).
  rewrite <- Hname. eapply imp_call_procedure; [done| |exact Hloc|exact Hl|congruence]; done.
Qed.
Lemma imp_action_arguments P loc : ∀ stk d defs l, d = length stk → imp P (compile_action_arguments env loc defs l) stk (eval_list ev d l) (λ vs, stk ++ vs).
Proof.
  intros stk d defs l. revert stk d defs. induction l as [|e l IH]; intros stk d defs Hd; simpl; [apply imp_ret, app_nil_r|].
  seq; [by apply Hev|]. apply imp_quiet; [destruct a; [destruct defs|]; closed|]. intros _ _. apply imp_fmap.
  eapply imp_stack; [|apply (IH (stk ++ [b]) (S d)); len]. intros vs. simpl. by rewrite <- app_assoc.
Qed.
Lemma imp_action_call P d loc f : d = length (p_base P) →
  imp P (compile_action_call env loc f) (p_base P)
    (match List.find (λ a, bool_decide (action_identifier (inner a) = fc_identifier f)) (pl_actions (ce_policy env)) with
     | None => throw StopUnknown
     | Some node => run_call G ev ex d (action_arguments (inner node)) (action_statements (inner node)) (fc_arguments f)
     end) (λ _, p_base P).
Proof.
  intros Hd. unfold compile_action_call. destruct (List.find _ _) as [node|] eqn:Hfind; [|apply imp_fail_at].
  apply find_elem in Hfind as [Hin Hname%bool_decide_eq_true].
  destruct (Nat.eqb_spec (length (action_arguments (inner node))) (length (fc_arguments f))) as [Hlen|]; [|apply imp_fail_at]. unfold run_call. simpl.
  destruct (linked_action node Hin) as (csn & csn' & Hloc & Hl).
  eapply imp_bind_eq; [closed|intros; closed|by eapply imp_action_arguments|]. intros _ args (st & st' & Ha%eval_list_length).
  rewrite <- Hname. eapply imp_call_procedure; [done| |exact Hloc|exact Hl|congruence]; done.
Qed.
End Calls.
