(* ===== verification/CompileStatements.v ===== *)
(** Compiled statements do what the reference semantics says. *)
From S2P Require Import Prelude Collections PolicyData PolicyModule VmScope Vm VmInvariant VmCalls VmSafety VmTheorems.
From S2P Require Import Ast CompileTypes Compile CompileProofs CompiledCode PolicySemantics CompileSim CompileLogic.
From S2P Require Import CompileExprs CompileCalls.
Local Open Scope string_scope.
Local Open Scope list_scope.
Local Open Scope nat_scope.

Section Statements.
Context {IO : Type} `{MachineIO IO}.
Variable env : CompileEnv.
Variable m : Machine.
Variable to_allocvec : Struct → option (list u8).
Variable from_bytes : list u8 → option Struct.
Variable G : BTreeMap string Value.
Variable ctx : CommandContext.
Variable fin : CompileState.
Context `{Hcomp : !Compiled env m fin} `{Hlink : !Linked env fin}.
Abbreviation imp := (imp env m to_allocvec from_bytes G ctx fin).
Abbreviation sim := (sim m to_allocvec from_bytes).
Abbreviation vm_step := (vm_step m to_allocvec from_bytes).
Abbreviation at_ := (at_ G ctx).
Abbreviation ce := (compile_expression env).
Abbreviation cn := (compile_node env).
Abbreviation SD := (struct_defs m).
Abbreviation FD := (fact_defs m).
Implicit Types (P : Place) (st : Local_ IO) (stk : list Value) (pc : nat) (cs : CompileState).

Variable ev : nat → Expression → Sem (IO := IO) Value.
Variable ex : nat → Statements → Sem (IO := IO) unit.
Hypothesis Hev : ∀ P stk d e, d = length stk → imp P (ce e) stk (ev d e) (λ v, stk ++ [v]).
Hypothesis Hex : ∀ P d l, d = length (p_base P) → imp P (compile_statements env l ScopeSame) (p_base P) (ex d l) (λ _, p_base P).

(** The code of a statement: it ends at [pc], with the stack it started with. *)
Definition done_at P pc (_ : unit) st (s : RunState IO) : Prop := s = at_ P st (p_base P) pc ∧ stack_ok (p_base P).

(** * Assertions *)
Lemma imp_assertion P stk v reason overflow : (∀ cs n cs', overflow cs ≠ (Ok n, cs')) →
  imp P (compile_assertion reason (wp_plus_two overflow)) (stk ++ [v]) (assertion v reason) (λ _, stk).
Proof.
  intros Ho cs [] cs' E Hp Hi Hs st. apply compile_assertion_Ok in E as [-> Hr]; [|done]. simpl.
  destruct Hi as [[l Hl] _]. simpl in Hl. pose proof (placed_wf _ _ _ Hp) as Hw.
  assert (∀ k i, [IBranch (Resolved (S (S (cs_wp cs)))); IExit reason] !! k = Some i → code m (k + cs_wp cs) i) as Hcode.
  { intros k i Hk. pose proof (resolve_instructions_lookup _ _ _ (k + cs_wp cs) (compiled_resolved (env := env))) as Hres.
    pose proof (wf_wp _ _ Hw) as Hlen. rewrite Hl, <- app_assoc, lookup_app_r in Hres by lia.
    replace (k + cs_wp cs - length (ct_progmem (cs_m cs))) with k in Hres by lia.
    rewrite (lookup_app_l_Some _ _ _ _ Hk) in Hres. destruct Hres as (i' & Hi' & Hr').
    assert (resolve_instruction (ct_labels (cs_m fin)) i = Ok i) as Hri by (destruct k as [|[|k]]; simpl in Hk; [by injection Hk as <-..|done]). rewrite Hri in Hr'. by injection Hr' as ->. }
  eapply sim_branch; [exact _|by apply (Hcode 0)|]. intros [|].
  - eexists. split; [done|]. split; [done|room].
  - apply (sim_exit env m to_allocvec from_bytes G ctx fin (B := unit)). by apply (Hcode 1).
Qed.

(** * Blocks *)
Lemma grows_nested l : on_ok (grows env) (compile_block cn l ScopeSame).
Proof. apply (closed_statements env (grows env) l ScopeSame). Qed.
#[local] Hint Resolve grows_nested : closed.
Lemma grows_branch end_label b : on_ok (grows env) (compile_branch env cn end_label b).
Proof. unfold compile_branch. closed. Qed.
#[local] Hint Resolve grows_branch : closed.

(** * [if] *)
Lemma if_sim P d branches end_label end_ fallback cs cs' : d = length (p_base P) → for_each (compile_branch env cn end_label) branches cs = (Ok tt, cs') →
  placed env P cs → inside fin cs' → label_at fin end_label end_ →
  (∀ st, sim (at_ P st (p_base P) (cs_wp cs')) (fallback st) (done_at P end_) (returns m G ctx P)) →
  ∀ st, stack_ok (p_base P) → sim (at_ P st (p_base P) (cs_wp cs)) (run_branches ev ex d branches fallback st) (done_at P end_) (returns m G ctx P).
Proof.
  intros Hd. revert cs. induction branches as [|[cond block] branches IH]; intros cs E Hp Hi Hend Hfb st Hs; simpl in E |- *.
  { injection E as <-. apply Hfb. }
  apply M_bind_inv_Ok in E as ([] & cs1 & E1 & E).
  assert (placed env P cs1) as Hp1 by (eapply placed_grows; [apply grows_branch|done|done]).
  assert (inside fin cs1) as Hi1.
  { eapply inside_before; [|exact E|apply Hp1|done]. apply on_ok_for_each; [exact _|]. intros x _. apply grows_branch. }
  unfold compile_branch in E1. simpl in E1. apply M_bind_inv_Ok in E1 as (next & cs2 & E2 & E1).
  assert (cs_wp cs2 = cs_wp cs) as Hwp by (by eapply (closed_anonymous (quiet env))). calls E1. locate. rewrite <- Hwp.
  eapply sim_bind; [by eapply Hev|]. intros v st1 s1 [-> Hs1]. eapply sim_bind; [eapply sim_does; [exact _|done|apply does_not; exact _|done]|].
  intros b st2 s2 [-> Hs2]. wps. eapply sim_branch; [exact _|done|]. intros [|].
  - rewrite <- Hw. by apply IH.
  - wps. eapply (imp_sim _ _ _ _ _ _ _ P); [by apply (Hex P d)|done..| |done]. intros [] st3 ?. eexists. split; [by eapply rtc_once, step_jump|done].
Qed.
Lemma imp_if P d s : d = length (p_base P) →
  imp P (compile_if env cn s) (p_base P) (run_branches ev ex d (if_branches s) (match if_fallback s with Some b => ex d b | None => mret tt end)) (λ _, p_base P).
Proof.
  intros Hd. unfold compile_if. apply imp_quiet; [closed|]. intros end_label _ cs [] cs' E Hp Hi Hs st. calls E. locate.
  rewrite Hw. eapply (if_sim P d (if_branches s)); [done..| |done]. intros st1. destruct (if_fallback s) as [b|].
  - eapply (imp_sim _ _ _ _ _ _ _ P); [by apply (Hex P d)|done..| |done]. intros [] st2 ?. eexists. by split.
  - injection E1 as <-. eexists. by split.
Qed.

(** * [match] *)
Lemma grows_arms end_label arms labels : on_ok (grows env) (compile_arms cn end_label arms labels).
Proof. apply closed_arms; [exact _..|]. apply Forall_true. intros. apply (closed_statement env); exact _. Qed.
Lemma grows_arm label end_label arm : on_ok (grows env) (compile_arm cn label end_label arm).
Proof. unfold compile_arm. closed. Qed.
#[local] Hint Resolve grows_arms grows_arm : closed.
Definition arm_runs P d end_ (arm : MatchArm) (label : Label) : Prop :=
  ∃ addr, label_at fin label addr ∧ ∀ v st, stack_ok (p_base P ++ [v]) →
    sim (at_ P st (p_base P ++ [v]) addr) (ex d (ma_statements arm) st) (done_at P end_) (returns m G ctx P).
Lemma arms_sim P d end_label end_ arms labels cs cs' : d = length (p_base P) → compile_arms cn end_label arms labels cs = (Ok tt, cs') →
  length labels = length arms → placed env P cs → inside fin cs' → label_at fin end_label end_ → Forall2 (arm_runs P d end_) arms labels.
Proof.
  intros Hd. revert labels cs. induction arms as [|arm arms IH]; intros [|label labels] cs E Hlen Hp Hi Hend; try done. simpl in E.
  calls E. constructor.
  - unfold compile_arm in E0. calls E0. locate. exists (cs_wp cs). split; [done|]. intros v st Hs. rewrite <- Hw.
    eapply sim_skip; [exact _|done|apply does_pop|done|]. intros Hs'. wps.
    eapply (imp_sim _ _ _ _ _ _ _ P); [by apply (Hex P d)|done..| |done]. intros [] st2 ?. eexists. split; [by eapply rtc_once, step_jump|done].
  - eapply (IH labels cs0); [done|by injection Hlen|done..].
Qed.

(** The tests of an arm. *)
Lemma values_sim P d label addr v values post (t : bool → Sem unit) cs cs' : d = length (p_base P) →
  for_each (λ value, append_instruction (IDup 0) ≫= λ _, _ ← ce value; append_instruction IEq ≫= λ _, append_instruction (IBranch (Unresolved label))) values cs = (Ok tt, cs') →
  placed env P cs → inside fin cs' → label_at fin label addr → stack_ok (p_base P ++ [v]) →
  (∀ (b : bool) st, sim (at_ P st (p_base P ++ [v]) (if b then addr else cs_wp cs')) (t b st) post (returns m G ctx P)) →
  ∀ st, sim (at_ P st (p_base P ++ [v]) (cs_wp cs)) ((matches_value ev d v values ≫= t) st) post (returns m G ctx P).
Proof.
  intros Hd. revert cs. induction values as [|value values IH]; intros cs E Hp Hi Hl Hs Ht st; simpl in E.
  { injection E as <-. apply (Ht false). }
  calls E. calls E0. locate. cbn [matches_value].
  apply sim_assoc. eapply sim_bind; [eapply sim_does; [exact _|done|by apply does_dup0; try exact _|done]|]. intros [] st1 s1 [-> Hs1]. wps.
  apply sim_assoc. eapply sim_bind; [eapply Hev; [len|done..]|]. intros w st2 s2 [-> Hs2]. wps.
  eapply sim_skip; [exact _|done|apply does_eq; exact _|done|]. intros Hs3. wps.
  eapply sim_steps; [by eapply rtc_once, step_branch|]. case_bool_decide; [by apply (Ht true)|]. wps. by apply IH.
Qed.
Lemma tests_sim P d end_ arms v l labels cs cs' : d = length (p_base P) → compile_arm_tests env arms l cs = (Ok labels, cs') →
  placed env P cs → inside fin cs' → Forall2 (arm_runs P d end_) l labels → stack_ok (p_base P ++ [v]) →
  (existsb is_default l = false → code m (cs_wp cs') (IExit ExitPanic)) →
  ∀ st, sim (at_ P st (p_base P ++ [v]) (cs_wp cs)) (run_arms ev ex d v l st) (done_at P end_) (returns m G ctx P).
Proof.
  intros Hd. revert labels cs. induction l as [|arm l IH]; intros labels cs E Hp Hi Hruns Hs Hend st; simpl in E.
  { injection E as _ <-. apply (sim_exit env m to_allocvec from_bytes G ctx fin (B := unit)). by apply Hend. }
  apply M_bind_inv_Ok in E as (label & cs1 & E1 & E). assert (cs_wp cs1 = cs_wp cs) as Hwp by (by eapply (closed_anonymous (quiet env))).
  calls E. injection E as <- <-. inversion Hruns as [|? ? ? ? (addr & Hl & Hrun) Hruns']; subst. rewrite <- Hwp. cbn [run_arms].
  unfold compile_arm_test in E0. destruct (ma_pattern arm) as [|values] eqn:Epat.
  - calls E0. locate. eapply sim_steps; [by eapply rtc_once, step_jump|]. by apply Hrun.
  - eapply values_sim; [done|exact E0|done..|]. intros [|] st1; [by apply Hrun|]. eapply IH; [done..|]. intros Hdef. apply Hend. simpl.
    unfold is_default at 1. by rewrite Epat.
Qed.
Lemma tests_length arms l labels cs cs' : compile_arm_tests env arms l cs = (Ok labels, cs') → length labels = length l.
Proof.
  revert labels cs. induction l as [|arm l IH]; intros labels cs E; simpl in E; [by injection E as <- _|]. inv_calls E.
  injection E as <- <-. simpl. f_equal. by eapply IH.
Qed.
Lemma imp_match P d loc s : d = length (p_base P) →
  imp P (compile_match env cn loc s) (p_base P) (v ← ev d (ms_expression s); run_arms ev ex d v (ms_arms s)) (λ _, p_base P).
Proof.
  intros Hd. unfold compile_match. destruct (find_duplicate _); [apply imp_fail_at|]. seq; [by apply Hev|]. apply imp_quiet; [closed|]. intros end_label _.
  intros cs [] cs' E Hp Hi Hs st. pose proof E as E0. calls E. locate. rewrite Hw. eapply tests_sim; [done|exact E1|done..| |done|].
  - eapply arms_sim; [done|exact E3| |done..]. by eapply tests_length.
  - intros Hdef. rewrite Hdef in E2. by locate.
Qed.

(** * [finish] *)
Lemma grows_layered l : on_ok (grows env) (compile_block cn l ScopeLayered).
Proof. apply (closed_statements env (grows env) l ScopeLayered). Qed.
#[local] Hint Resolve grows_layered : closed.
Lemma imp_layered P d l : d = length (p_base P) →
  imp P (compile_block cn l ScopeLayered) (p_base P) (on_frame G enter_block ≫= λ _, ex d l ≫= λ _, on_frame G exit_block) (λ _, p_base P).
Proof.
  intros Hd. apply imp_code_ext with (on_types it_enter_block ≫= λ _, append_instruction IBlock ≫= λ _, compile_block cn l ScopeSame ≫= λ _,
    append_instruction IEnd ≫= λ _, on_types it_exit_block).
  { intros cs. unfold compile_block, mbind, M_bind. destruct (on_types it_enter_block cs) as [[[]|e|w] cs1]; [|done..].
    destruct (append_instruction IBlock cs1) as [[[]|e|w] cs2]; [|done..]. simpl. destruct (get_statement_context cs2) as [[x|e|w] cs3]; [|done..].
    by destruct (for_each _ l cs3) as [[[]|e|w] cs4]. }
  apply imp_quiet; [closed|]. intros _ _. seq; [instr does_block|]. seq; [by apply Hex|].
  apply imp_quiet_last; [closed|intros; closed|]. instr does_end.
Qed.
Lemma imp_finish P d statements node s : d = length (p_base P) →
  imp P (compile_finish cn statements node s) (p_base P)
    (on_frame G enter_block ≫= λ _, ex d s ≫= λ _, on_frame G exit_block ≫= λ _, (throw (StopExit ExitNormal) : Sem unit)) (λ _, p_base P).
Proof.
  intros Hd cs [] cs' E Hp Hi Hs st. set (Q := with_context SCFinish P). unfold compile_finish in E.
  apply M_bind_inv_Ok in E as ([] & cs1 & [= <-] & E). assert (placed env Q (enter_context SCFinish cs)) as Hq.
  { destruct Hp. split; [by apply (emits_enter env SCFinish cs tt)|done|]. simpl. unfold vec_push. by rewrite last_snoc. }
  inv_calls E. forwards.
  assert (placed env P cs2 ∧ extends cs1 cs2 ∧ cs_wp cs2 = cs_wp cs1) as (Hp2 & He2 & Hw2).
  { destruct (emits_exit env _ _ _ E2 (placed_wf _ _ _ H1)) as [Hwf He]. destruct Hp as [_ _ Hx].
    destruct (R_append (R := grows env) (IMeta (MetaFinish true)) eq_refl _ _ _ E0) as (_ & Hx0 & _).
    destruct (grows_layered _ _ _ _ E1) as (_ & Hx1 & _). unfold same_context in *. simpl in Hx0. rewrite Hx0 in Hx1.
    injection E2 as _ <-. unfold vec_push in Hx1. rewrite Hx1, vec_pop_snoc in *. destruct H1. by split_and!. }
  destruct (last statements) as [l|]; [|done]. destruct (negb _); [by apply M_bind_inv_Ok in E as (? & ? & _ & ?)|]. backwards. locate.
  assert (inside fin cs1) as Hi1 by (unfold inside in *; by etrans). backwards. locate.
  assert (∀ st, (on_frame G enter_block ≫= λ _, ex d s ≫= λ _, on_frame G exit_block ≫= λ _, (throw (StopExit ExitNormal) : Sem unit)) st
    = ((on_frame G enter_block ≫= λ _, ex d s ≫= λ _, on_frame G exit_block) ≫= λ _, (throw (StopExit ExitNormal) : Sem unit)) st) as ->.
  { intros st1. unfold mbind, M_bind. destruct (on_frame G enter_block st1) as [[[]|e|w] st2]; [|done..]. by destruct (ex d s st2) as [[[]|e|w] st3]. }
  simpl in Hw0, Hc0. eapply sim_skip; [exact _|exact Hc0|apply does_meta|done|]. intros _. rewrite <- Hw0. eapply sim_bind.
  - change (at_ P st (p_base P) (cs_wp cs0)) with (at_ Q st (p_base Q) (cs_wp cs0)).
    eapply (imp_sim _ _ _ _ _ _ _ Q) with (post := λ _ st' s', s' = at_ P st' (p_base P) (cs_wp cs2)); [by apply (imp_layered Q d)|done..| |].
    + intros [] st' _. eexists. split; [done|]. by rewrite Hw2.
    + by intros v st' s' [? _].
  - intros [] st1 s1 Hs1. cbn beta in Hs1. subst s1. by apply (sim_exit env m to_allocvec from_bytes G ctx fin (B := unit)).
Qed.

(** * [map] *)
Lemma query_next_sim P st stk qs x iter pc d ret : code m pc (IQueryNext x) → d = length stk → p_qs P = qs ++ [iter] →
  sim (at_ P st stk pc) (match iter with [] => guard d | item :: _ => bind_fact G d x item end st)
    (λ _ st' s', s' = at_ (with_qs (match iter with [] => qs | _ :: iter' => qs ++ [iter'] end) P) st'
                        (stk ++ [VBool (match iter with [] => true | _ => false end)]) (S pc)) ret.
Proof.
  intros Hc Hd Hq. set (sem := match iter with [] => guard d | item :: _ => bind_fact G d x item end).
  eapply sim_conseq with (ret := ret); [eapply (sim_exec env m to_allocvec from_bytes fin _ _ sem st
    (λ s' _ st', s' = at_ (with_qs (match iter with [] => qs | _ :: iter' => qs ++ [iter'] end) P) st'
                        (stk ++ [VBool (match iter with [] => true | _ => false end)]) pc)); [exact Hc|]| |done].
  - pose proof (query_next_spec m to_allocvec from_bytes G ctx P st stk qs x iter pc d Hd Hq) as Hv. fold sem in Hv. unfold vsim in *.
    destruct (exec _ _ _ _ _) as [[fl|e|w] s']; [|done..]. destruct (sem st) as [[[]|e|w] st']; [|done..]. by destruct Hv as [-> ->].
  - simpl. by intros [] st' s' (s0 & -> & ->).
Qed.
Lemma map_sim P d ident body top end_label iter qs cs cs' : d = length (p_base P) → is_pure_context (p_context P) = false →
  (append_instruction IBlock ≫= λ _, append_instruction (IQueryNext ident) ≫= λ _, append_instruction (IBranch (Unresolved end_label)) ≫= λ _,
   compile_block cn body ScopeSame ≫= λ _, append_instruction IEnd ≫= λ _, append_instruction (IJump (Unresolved top)) ≫= λ _,
   define_label_here end_label ≫= λ _, append_instruction IEnd) cs = (Ok tt, cs') →
  placed env P cs → inside fin cs' → label_at fin top (cs_wp cs) → stack_ok (p_base P) → p_qs P = qs →
  ∀ st, sim (at_ (with_qs (qs ++ [iter]) P) st (p_base P) (cs_wp cs)) (run_map G ex d ident body iter st) (done_at P (cs_wp cs')) (λ _ _ _, False).
Proof.
  intros Hd Hx E Hp Hi Htop Hs Hqs. calls E. locate. induction iter as [|item iter IH]; intros st; cbn [run_map].
  all: set (Q := with_qs _ P).
  all: eapply sim_bind; [eapply sim_does; [exact _|done|apply (does_block _ _ _ _ _ Q); exact _|done]|]; intros [] st1 s1 [-> _]; wps.
  - eapply sim_bind; [by eapply (query_next_sim Q st1 (p_base P) qs ident [])|]. simpl. intros [] st2 s2 ->. wps.
    eapply sim_steps; [by eapply rtc_once, step_branch|]. rewrite <- Hw.
    eapply sim_conseq with (ret := λ _ _ _, False); [eapply sim_does; [exact _|done|apply does_end; exact _|done]| |done]. simpl. intros [] st3 s3 [-> ?]. wps. split; [|done].
    by destruct P; simpl in *; subst.
  - eapply sim_bind; [by eapply (query_next_sim Q st1 (p_base P) qs ident (item :: iter))|]. simpl. intros [] st2 s2 ->. wps.
    eapply sim_steps; [by eapply rtc_once, step_branch|]. wps. set (R := with_qs (qs ++ [iter]) P).
    eapply sim_bind.
    + eapply (imp_sim _ _ _ _ _ _ _ R) with (post := λ _ st' s', s' = at_ R st' (p_base P) (cs_wp cs3)); [by apply (Hex R d)|done|by destruct H2|done..| |].
      * intros [] st3 _. by eexists.
      * intros v st3 s3 [? _]. simpl in *. congruence.
    + intros [] st3 s3 Hs3. cbn beta in Hs3. subst s3.
      eapply sim_bind; [eapply sim_does; [exact _|done|apply does_end; exact _|done]|]. intros [] st4 s4 [-> _]. wps.
      eapply sim_steps; [by eapply rtc_once, step_jump|]. apply IH.
Qed.
Lemma imp_map P d s : d = length (p_base P) → is_pure_context (p_context P) = false →
  imp P (compile_map env cn s) (p_base P)
    (fact ← eval_fact ev d (map_fact s); iter ← start_query FD fact; run_map G ex d (map_identifier s) (map_statements s) iter) (λ _, p_base P).
Proof.
  intros Hd Hx. unfold compile_map. apply imp_quiet; [closed|]. intros _ _. seq; [by eapply imp_fact_literal|].
  intros cs [] cs' E Hp Hi Hs st.
  calls E. assert (label_at fin a3 (cs_wp cs5)) as Htop by (destruct (label_inside _ _ _ _ _ E5 H23) as [? ->]; done).
  assert ((append_instruction IBlock ≫= λ _, append_instruction (IQueryNext (map_identifier s)) ≫= λ _, append_instruction (IBranch (Unresolved a4)) ≫= λ _,
   compile_block cn (map_statements s) ScopeSame ≫= λ _, append_instruction IEnd ≫= λ _, append_instruction (IJump (Unresolved a3)) ≫= λ _,
   define_label_here a4 ≫= λ _, append_instruction IEnd) cs5 = (Ok tt, cs13)) as Eloop.
  { unfold mbind, M_bind. by rewrite E6, E7, E8, E9, E10, E11, E12, E13. }
  clear E6 E7 E8 E9 E10 E11 E12 E13. locate. assert (stack_ok (p_base P)) as Hs' by room.
  assert (cs_wp cs5 = S (cs_wp cs)) as Hwp by lia.
  eapply sim_bind; [eapply (sim_exec env m to_allocvec from_bytes fin IQueryStart _ (start_query FD b) st
    (λ s' iter st', s' = at_ (with_qs (p_qs P ++ [iter]) P) st' (p_base P) (cs_wp cs))); [exact Hc|]|].
  - pose proof (query_start_spec m to_allocvec from_bytes G ctx P st (p_base P) b (cs_wp cs) Hs') as Hv. unfold vsim in *.
    destruct (exec _ _ _ _ _) as [[fl|e|w] s']; [|done..]. destruct (start_query FD b st) as [[iter|e|w] st']; [|done..]. by destruct Hv as [-> ->].
  - simpl. intros iter st1 s1 (s0 & -> & ->). rewrite E.
    change (set_pc _ _) with (at_ (with_qs (p_qs P ++ [iter]) P) st1 (p_base P) (S (cs_wp cs))). rewrite <- Hwp.
    eapply sim_conseq; [eapply (map_sim P d) with (st := st1) (iter := iter); [done|done|exact Eloop|done..]|done|done].
Qed.

(** * Facts, effects and returns *)
Lemma imp_update P d loc s : d = length (p_base P) →
  imp P (compile_update env loc s) (p_base P)
    (from ← eval_fact ev d (update_fact s); guard (S d) ≫= λ _, to ← eval_fields ev sem_set_value (S d) (update_to s) from; run_update from to) (λ _, p_base P).
Proof.
  intros Hd. unfold compile_update. apply imp_quiet; [closed|]. intros def _. destruct (fdef_immutable def); [apply imp_fail|].
  apply imp_quiet; [closed|]. intros _ _. seq; [by eapply imp_fact_literal|]. seq; [by instr does_dup0|].
  do 2 (apply imp_quiet; [closed|]; intros ? _).
  assert (∀ l f, imp P (for_each (λ '(k, v), match v with
      | FBind => cfail_at (CEBadArgument "Cannot update fact to a bind value") loc
      | FExpression e => ce e ≫= λ _, append_instruction (IFactValueSet k)
      end) l) ((p_base P ++ [VFact b]) ++ [VFact f]) (eval_fields ev sem_set_value (S d) l f) (λ f', (p_base P ++ [VFact b]) ++ [VFact f'])) as Hl.
  { intros l. induction l as [|[k [e|]] l IH]; intros f; simpl; [by apply imp_ret| |].
    - apply imp_assoc. seq; [apply Hev; len|]. seq; [instr does_value_set|]. apply IH.
    - apply imp_never. by intros ? ? ? (? & ? & (? & ? & _ & ?)%M_bind_inv_Ok & _)%M_bind_inv_Ok. }
  seq; [apply Hl|]. instr does_update.
Qed.
Lemma imp_return P v : is_pure_context (p_context P) = true →
  imp P (append_instruction IReturn) (p_base P ++ [v]) (throw (StopReturn v) : Sem unit) (λ _, p_base P).
Proof.
  intros Hx cs [] cs' E Hp Hi Hs st. locate. eexists. split; [done|]. split; [done|]. by eexists.
Qed.

(** * Every statement *)
Lemma imp_statement P d statements s loc : d = length (p_base P) → allowed s (p_context P) = true →
  imp P (compile_statement env statements (p_context P) s loc) (p_base P) (run_statement env G SD FD ctx ev ex d s) (λ _, p_base P).
Proof.
  intros Hd Hok. destruct s; cbn [compile_statement run_statement].
  - seq; [by apply Hev|]. apply imp_quiet; [closed|]. intros _ _. skip does_meta. instr does_def.
  - seq; [by apply Hev|]. destruct (negb _); [apply imp_fail|]. by apply imp_assertion.
  - by apply imp_match.
  - by apply imp_if.
  - by apply imp_finish.
  - apply imp_map; [done|]. by destruct (p_context P).
  - seq; [by apply Hev|]. destruct (p_context P) eqn:Ex; try apply imp_fail_at. destruct (negb _); [apply imp_fail|]. apply imp_return. by rewrite Ex.
  - by apply imp_action_call.
  - seq; [by apply Hev|]. instr does_publish.
  - destruct (has_bind _); [apply imp_fail_at|]. apply imp_quiet; [closed|]. intros _ _. seq; [by eapply imp_fact_literal|]. instr does_create.
  - by apply imp_update.
  - apply imp_quiet; [closed|]. intros _ _. seq; [by eapply imp_fact_literal|]. instr does_delete.
  - seq; [by apply Hev|]. destruct a as [[]|]; try apply imp_fail. instr does_emit.
  - by apply imp_finish_call.
  - destruct (ce_is_debug env); [|by apply imp_ret]. seq; [by apply Hev|]. by apply imp_assertion.
Qed.
End Statements.
