(* ===== verification/CompileLink.v ===== *)
(** Where the code of a policy is: every function, finish function, action and
    command has its code at its label, and calls find functions with the
    arguments they take. *)
From S2P Require Import Prelude Collections PolicyData PolicyModule VmScope Vm VmInvariant VmCalls VmSafety VmTheorems.
From S2P Require Import Ast CompileTypes Compile CompileProofs CompiledCode PolicySemantics CompileSim CompileLogic.
From S2P Require Import CompileCalls.
Local Open Scope string_scope.
Local Open Scope list_scope.
Local Open Scope nat_scope.

(** * Loops *)
Lemma for_each_elem {S E A} (f : A → M S E unit) l s s' x : for_each f l s = (Ok tt, s') → x ∈ l →
  ∃ l1 l2 s1 s2, l = l1 ++ x :: l2 ∧ for_each f l1 s = (Ok tt, s1) ∧ f x s1 = (Ok tt, s2) ∧ for_each f l2 s2 = (Ok tt, s').
Proof.
  revert s. induction l as [|y l IH]; intros s E1 Hx; [by apply elem_of_nil in Hx|]. simpl in E1. apply M_bind_inv_Ok in E1 as ([] & s1 & E1 & E2).
  apply elem_of_cons in Hx as [->|Hx]; [by exists [], l, s, s1|]. destruct (IH s1 E2 Hx) as (l1 & l2 & s2 & s3 & -> & Ea & Eb & Ec).
  exists (y :: l1), l2, s2, s3. split_and!; [done| |done|done]. simpl. unfold mbind, M_bind. by rewrite E1.
Qed.
Lemma find_unique {A} (key : A → string) l x : NoDup (map key l) → x ∈ l → List.find (λ y, bool_decide (key y = key x)) l = Some x.
Proof.
  induction l as [|y l IH]; intros Hn Hx; [by apply elem_of_nil in Hx|]. simpl in Hn. apply NoDup_cons in Hn as [Hy Hn]. simpl.
  apply elem_of_cons in Hx as [->|Hx]; [by rewrite bool_decide_eq_true_2|]. rewrite bool_decide_eq_false_2; [by apply IH|].
  intros E. apply Hy. rewrite E. apply list_elem_of_fmap. by exists x.
Qed.

(** * States on the way *)
Lemma emits_forward env {A} (c : C A) cs a cs' : on_ok (emits env) c → c cs = (Ok a, cs') → wf env cs → wf env cs' ∧ extends cs cs'.
Proof. intros Hc E. by apply (Hc _ _ _ E). Qed.
(** Every state on the way is well formed and inside the final code. *)
Ltac wfs := repeat match goal with
  | E : ?c ?cs = (Ok _, ?cs'), Hw : wf ?env ?cs |- _ =>
      lazymatch goal with _ : wf env cs' |- _ => fail | _ => idtac end;
      let H1 := fresh "Hw" in let H2 := fresh "X" in
      assert (wf env cs' ∧ extends cs cs') as [H1 H2] by (eapply emits_forward; [|exact E|exact Hw]; solve [closed])
  end.
Ltac insides := repeat match goal with
  | X : extends ?cs ?cs', Hi : inside ?fin ?cs' |- _ =>
      lazymatch goal with _ : inside fin cs |- _ => fail | _ => idtac end;
      assert (inside fin cs) by (unfold inside in *; etrans; [exact X|exact Hi])
  end.

Section Link.
Variable env : CompileEnv.
Abbreviation policy := (ce_policy env).
Abbreviation sigs cs := (cs_function_signatures cs).

(** * Signatures *)
Lemma define_signature_Ok x sig loc cs a cs' : define_signature x sig loc cs = (Ok a, cs') →
  bt_get x (sigs cs) = None ∧ cs' = set_signatures (bt_insert x sig (sigs cs)) cs.
Proof.
  intros (y & s1 & [= <- <-] & E)%M_bind_inv_Ok. destruct (bt_get x _) eqn:Ex; [by apply M_bind_inv_Ok in E as (? & ? & _ & ?)|]. by injection E as _ <-.
Qed.
(** A loop that adds a signature with every turn. *)
Lemma signatures_unique {A} (key : A → string) (f : A → C unit) l : ∀ cs cs',
  (∀ x cs a cs', f x cs = (Ok a, cs') → bt_get (key x) (sigs cs) = None ∧ ∃ sig, sigs cs' = bt_insert (key x) sig (sigs cs)) →
  for_each f l cs = (Ok tt, cs') → NoDup (map key l) ∧ (∀ x, x ∈ l → bt_get (key x) (sigs cs) = None).
Proof.
  intros cs cs' Hf. revert cs. induction l as [|x l IH]; intros cs E; simpl in *; [split; [constructor|by intros ? ?%elem_of_nil]|].
  apply M_bind_inv_Ok in E as ([] & cs1 & E1 & E2). destruct (Hf _ _ _ _ E1) as (Hn & sig & Hs). destruct (IH _ E2) as [Hd Hl].
  assert (∀ y, y ∈ l → key y ≠ key x ∧ bt_get (key y) (sigs cs) = None) as Hy.
  { intros y Hy. specialize (Hl y Hy). rewrite Hs, bt_get_insert in Hl. destruct (ord_eqb _ _) eqn:Eo; [done|]. by apply ord_eqb_false in Eo. }
  split.
  - apply NoDup_cons. split; [|done]. intros (y & E & Hin)%list_elem_of_fmap. by destruct (Hy y Hin).
  - intros y [->|Hin]%elem_of_cons; [done|]. by apply Hy.
Qed.
Lemma signature_insert cs x sig : sigs_ok env cs → signature_ok env x sig → sigs_ok env (set_signatures (bt_insert x sig (sigs cs)) cs).
Proof.
  intros Hs Hx y sig'. simpl. rewrite bt_get_insert. destruct (ord_eqb y x) eqn:Ey; [|apply Hs]. apply ord_eqb_true in Ey as ->. by intros [= <-].
Qed.
Lemma sigs_ok_same cs cs' : same_signatures cs cs' → sigs_ok env cs → sigs_ok env cs'.
Proof. intros E Hs x sig. rewrite E. apply Hs. Qed.
Definition keeps_sigs (cs cs' : CompileState) : Prop := sigs_ok env cs → sigs_ok env cs'.
#[local] Instance keeps_sigs_preorder : PreOrder keeps_sigs.
Proof. split; [by intros cs ?|]. intros cs1 cs2 cs3 H1 H2 Hs. auto. Qed.

(** * Functions *)
Lemma quiet_types f : on_ok (quiet env) (on_types f).
Proof. closed. Qed.
Record function_parts (node : AstNode FunctionDefinition) (cs csb csc cs' : CompileState) : Prop := {
  fp_code : (function_code env (fn_arguments (inner node)) (fn_statements (inner node)) (locator node) ≫= λ _, append_instruction (IExit ExitPanic)) csb = (Ok tt, csc);
  fp_wf : wf env csb;
  fp_extends : extends csc cs';
  fp_wp : cs_wp csb = cs_wp cs;
  fp_label : bt_get (mkLabel (fn_identifier (inner node)) LFunction) (ct_labels (cs_m csb)) = Some (cs_wp cs);
  fp_context : same_context cs csb;
  fp_fresh : bt_get (fn_identifier (inner node)) (sigs cs) = None;
  fp_sigs : sigs csb = bt_insert (fn_identifier (inner node))
              (mkFunctionSignature (map fd_field_type (fn_arguments (inner node))) (FCPure (fn_return_type (inner node)))) (sigs cs);
  fp_same : sigs cs' = sigs csb
}.
Lemma grows_function_code params body loc : on_ok (grows env) (function_code env params body loc).
Proof. unfold function_code. closed. Qed.
Lemma compile_function_parts node cs cs' : compile_function env node cs = (Ok tt, cs') → wf env cs → ∃ csb csc, function_parts node cs csb csc cs'.
Proof.
  intros E Hw. unfold compile_function in E. inv_calls E. destruct a, a0, a1, a2, a3, a4, a5, a6.
  destruct (define_label_here_Ok _ _ _ _ E0) as [_ Ecs0].
  destruct (R_label (R := grows env) _ _ _ _ E0) as (W0 & C0 & S0). destruct (quiet_map_range env _ _ _ _ E1) as [(W1 & C1 & S1) P1].
  destruct (define_signature_Ok _ _ _ _ _ _ E2) as [Hfresh Esig]. clear E2.
  assert (on_ok (quiet env) (check_arguments (fn_arguments (inner node)) (locator node))) as Hq by (closed).
  destruct (Hq _ _ _ E3) as [(W3 & C3 & S3) P3]. destruct (quiet_types _ _ _ _ E4) as [(W4 & C4 & S4) P4]. destruct (quiet_types _ _ _ _ E) as [(W5 & _ & S5) _].
  destruct (W0 Hw) as [Hw0 X0]. destruct (W1 Hw0) as [Hw1 X1]. assert (emits env cs1 cs2) as W2 by (rewrite Esig; apply R_signatures).
  destruct (W2 Hw1) as [Hw2 X2]. destruct (W3 Hw2) as [Hw3 X3]. destruct (W4 Hw3) as [Hw4 X4].
  destruct (grows_function_code (fn_arguments (inner node)) (fn_statements (inner node)) (locator node) cs4 tt cs6) as (W6 & _ & S6).
  { unfold function_code, mbind, M_bind. by rewrite E5. }
  destruct (W6 Hw4) as [Hw6 X6]. destruct (R_append (R := grows env) (IExit ExitPanic) eq_refl _ _ _ E7) as (W7 & _ & S7). destruct (W7 Hw6) as [Hw7 X7].
  unfold same_context, same_signatures, same_wp in *. exists cs4, cs7. split.
  - unfold function_code, mbind, M_bind. by rewrite E5, E6.
  - done.
  - by apply W5.
  - rewrite P4, P3, Esig. simpl. by rewrite P1, Ecs0.
  - apply X4, X3, X2, X1. rewrite Ecs0. simpl. apply bt_get_insert_eq.
  - unfold same_context. rewrite C4, C3, Esig. simpl. by rewrite C1, C0.
  - by rewrite <- S0, <- S1.
  - rewrite S4, S3, Esig. simpl. by rewrite S1, S0.
  - by rewrite S5, S7, S6.
Qed.

(** * Finish functions and actions *)
Lemma grows_procedure_code params body : on_ok (grows env) (procedure_code env params body).
Proof. unfold procedure_code. closed. Qed.
Record procedure_parts (label : Label) (params : list FieldDefinition) (body : Statements) (cs csb csc cs' : CompileState) : Prop := {
  pp_code : (procedure_code env params body ≫= λ _, append_instruction IReturn) csb = (Ok tt, csc);
  pp_wf : wf env csb;
  pp_extends : extends csc cs';
  pp_label : bt_get label (ct_labels (cs_m csb)) = Some (cs_wp csb);
  pp_context : same_context cs csb;
  pp_sigs : sigs csb = sigs cs
}.
Lemma procedure_parts_intro label params body cs cs1 csb csc cs' :
  define_label_here label cs = (Ok tt, cs1) → quiet env cs1 csb → (procedure_code env params body ≫= λ _, append_instruction IReturn) csb = (Ok tt, csc) →
  emits env csc cs' → wf env cs → procedure_parts label params body cs csb csc cs'.
Proof.
  intros E0 [(W1 & C1 & S1) P1] E2 W3 Hw. destruct (R_label (R := grows env) _ _ _ _ E0) as (W0 & C0 & S0). destruct (define_label_here_Ok _ _ _ _ E0) as [_ Ecs1].
  destruct (W0 Hw) as [Hw1 _]. destruct (W1 Hw1) as [Hwb Xb]. unfold same_context, same_signatures, same_wp in *.
  assert (on_ok (grows env) (procedure_code env params body ≫= λ _, append_instruction IReturn)) as Hg.
  { apply on_ok_bind; [exact _|apply grows_procedure_code|]. intros _. by apply R_append. }
  destruct (Hg _ _ _ E2) as (W2 & _). split; [done|done|by apply W3, W2| | |congruence].
  - apply Xb. rewrite P1, Ecs1. simpl. apply bt_get_insert_eq.
  - unfold same_context. congruence.
Qed.
Lemma compile_finish_function_parts node cs cs' : compile_finish_function env node cs = (Ok tt, cs') → wf env cs →
  ∃ csb csc, procedure_parts (label_new_temp (ff_identifier (inner node))) (ff_arguments (inner node)) (ff_statements (inner node)) cs csb csc cs'.
Proof.
  intros E Hw. unfold compile_finish_function in E. inv_calls E. destruct a, a0, a1, a2, a3, a4. exists cs2, cs5.
  eapply procedure_parts_intro; [exact E0| | | |done].
  - etrans; [by apply (quiet_map_range env) in E1|by apply quiet_types in E2].
  - unfold procedure_code, mbind, M_bind. by rewrite E3, E4.
  - by apply (closed_types (emits env)) in E.
Qed.
Lemma compile_action_parts node cs cs' : compile_action env node cs = (Ok tt, cs') → wf env cs →
  ∃ csb csc, procedure_parts (mkLabel (action_identifier (inner node)) LAction) (action_arguments (inner node)) (action_statements (inner node)) cs csb csc cs'
  ∧ bt_get (action_identifier (inner node)) (ct_action_defs (cs_m cs')) = Some (action_arguments (inner node)).
Proof.
  intros E Hw. unfold compile_action in E. inv_calls E. destruct a, a0, a1, a2, a3, a4, a5, a6. exists cs3, cs6.
  destruct (quiet_types _ _ _ _ E0) as [(W0 & C0 & S0) P0]. destruct (W0 Hw) as [Hw0 _].
  assert (on_ok (quiet env) (check_arguments (action_arguments (inner node)) (locator node))) as Hq by (closed). split.
  - destruct (procedure_parts_intro (mkLabel (action_identifier (inner node)) LAction) (action_arguments (inner node)) (action_statements (inner node))
      cs0 cs1 cs3 cs6 cs' E1) as []; [|unfold procedure_code, mbind, M_bind; by rewrite E4, E5| |done|split; try done; unfold same_context, same_signatures in *; congruence].
    + etrans; [exact (quiet_map_range env _ _ _ _ E2)|exact (Hq _ _ _ E3)].
    + etrans; [exact (closed_types (emits env) _ _ _ _ E7)|exact (R_define_action _ _ _ _ _ E)].
  - apply define_action_Ok in E as [_ ->]. simpl. apply bt_get_insert_eq.
Qed.

(** * Commands *)
Section Commands.
Variable m : Machine.
Variable fin : CompileState.
Context `{!Compiled env m fin}.

Definition block_linked (label : Label) (x : StatementContext) (body : Statements) : Prop :=
  ∃ csb csc, located env fin x (append_instruction (IDef "envelope") ≫= λ _, compile_statements env body ScopeSame) csb csc
    ∧ label_at fin label (cs_wp csb) ∧ code m (cs_wp csc) (IExit ExitNormal).
Definition function_linked (label : Label) (x : StatementContext) (value : string) (body : Statements) (loc : nat) : Prop :=
  ∃ csb csc addr, located env fin x (append_instruction (IDef value) ≫= λ _, compile_returning env body loc) csb csc
    ∧ label_at fin label addr ∧ code m addr (ICall (Resolved (cs_wp csb))) ∧ code m (S addr) (IExit ExitNormal) ∧ code m (cs_wp csc) (IExit ExitPanic).

#[local] Hint Resolve emits_enter emits_exit : closed.
Lemma exit_context_Ok cs a cs' : exit_statement_context cs = (Ok a, cs') → cs_wp cs' = cs_wp cs.
Proof. intros [= _ <-]. by destruct (vec_pop _) as [[? ?]|]. Qed.
Lemma enter_context_Ok x cs a cs' : enter_statement_context x cs = (Ok a, cs') → cs' = enter_context x cs.
Proof. by intros [= _ <-]. Qed.

Lemma link_block c ltype x body cs cs' : compile_command_block env c ltype x body cs = (Ok tt, cs') → wf env cs → sigs_ok env cs → inside fin cs' →
  block_linked (mkLabel (cd_identifier c) ltype) x body.
Proof.
  intros E Hw Hs Hi. unfold compile_command_block in E. inv_calls E. repeat match goal with a : unit |- _ => destruct a end. wfs. insides.
  assert (quiet env cs1 cs4) as [(_ & C4 & S4) P4].
  { etrans; [exact (quiet_types _ _ _ _ E2)|]. etrans; [exact (quiet_types _ _ _ _ E3)|exact (quiet_types _ _ _ _ E4)]. }
  destruct (R_label (R := grows env) _ _ _ _ E0) as (_ & C0 & S0). unfold same_context, same_signatures, same_wp in *.
  pose proof (enter_context_Ok _ _ _ _ E1) as ->. apply exit_context_Ok in E8. apply on_types_wp in E7. simpl in *.
  exists cs4, cs6. split; [split|split].
  - exists tt. unfold mbind, M_bind. by rewrite E5.
  - done.
  - intros y sig. rewrite S4, S0. apply Hs.
  - rewrite C4. unfold vec_push. apply last_snoc.
  - done.
  - destruct (label_inside fin _ _ _ _ E0 ltac:(assumption)) as [Hl Hwl]. by rewrite P4, Hwl.
  - rewrite <- E7, <- E8. by eapply code_plain.
Qed.
Lemma link_function c ltype def value ty body loc missing cs cs' : compile_command_function env c ltype def value ty body loc missing cs = (Ok tt, cs') →
  wf env cs → sigs_ok env cs → inside fin cs' → function_linked (mkLabel (cd_identifier c) ltype) (SCPureFunction def) value body loc.
Proof.
  intros E Hw Hs Hi. unfold compile_command_function in E. case_bool_decide; [by apply M_bind_inv_Ok in E as (? & ? & _ & ?)|].
  inv_calls E. repeat match goal with a : unit |- _ => destruct a end. wfs. insides.
  destruct (R_label (R := grows env) _ _ _ _ E0) as (_ & C0 & S0). destruct (closed_anonymous (quiet env) _ _ _ E1) as [(_ & C1 & S1) P1].
  destruct (R_append (R := grows env) (ICall (Unresolved a0)) eq_refl _ _ _ E2) as (_ & C2 & S2).
  destruct (R_append (R := grows env) (IExit ExitNormal) eq_refl _ _ _ E3) as (_ & C3 & S3). destruct (R_label (R := grows env) _ _ _ _ E4) as (_ & C4 & S4).
  assert (quiet env cs5 cs7) as [(_ & C7 & S7) P7] by (etrans; [exact (quiet_types _ _ _ _ E6)|exact (quiet_types _ _ _ _ E7)]).
  pose proof (enter_context_Ok _ _ _ _ E5) as ->. apply exit_context_Ok in E11. apply on_types_wp in E10.
  destruct (label_inside fin _ _ _ _ E0 ltac:(assumption)) as [Hl Hwl]. destruct (label_inside fin _ _ _ _ E4 ltac:(assumption)) as [Hla Hwla].
  unfold same_context, same_signatures, same_wp in *. simpl in *.
  destruct (code_call env m fin _ _ _ _ _ E2 ltac:(assumption) ltac:(assumption) Hla) as [Q2 Hc2].
  destruct (code_plain env m fin (IExit ExitNormal) _ _ _ eq_refl E3 ltac:(assumption) ltac:(assumption)) as [Q3 Hc3].
  exists cs7, cs9, (cs_wp cs). split; [split|split_and!].
  - exists tt. unfold mbind, M_bind. by rewrite E8.
  - done.
  - intros y sig. rewrite S7, S4, S3, S2, S1, S0. apply Hs.
  - rewrite C7. unfold vec_push. apply last_snoc.
  - done.
  - done.
  - rewrite P7, Hwla, <- Hwl, <- P1. done.
  - rewrite <- Hwl, <- P1, <- Q2. done.
  - rewrite <- E10, <- E11. by eapply code_plain.
Qed.
End Commands.

(** * The whole policy *)
Lemma compile_function_sigs node cs a cs' : compile_function env node cs = (Ok a, cs') →
  bt_get (fn_identifier (inner node)) (sigs cs) = None
  ∧ sigs cs' = bt_insert (fn_identifier (inner node)) (mkFunctionSignature (map fd_field_type (fn_arguments (inner node))) (FCPure (fn_return_type (inner node)))) (sigs cs).
Proof.
  intros E. unfold compile_function in E. apply M_bind_inv_Ok in E as ([] & cs0 & E0 & E). apply M_bind_inv_Ok in E as ([] & cs1 & E1 & E).
  apply M_bind_inv_Ok in E as ([] & cs2 & E2 & E). apply (R_label (R := same_signatures)) in E0. apply (R_map (R := same_signatures)) in E1.
  destruct (define_signature_Ok _ _ _ _ _ _ E2) as [Hf ->]. unfold same_signatures in *. rewrite E1, E0 in Hf. split; [done|].
  assert (on_ok same_signatures (check_arguments (fn_arguments (inner node)) (locator node) ≫= λ _, on_types (λ s, Ok (it_enter_function s)) ≫= λ _,
    append_arguments (fn_arguments (inner node)) ≫= λ _, compile_returning env (fn_statements (inner node)) (locator node) ≫= λ _,
    append_instruction (IExit ExitPanic) ≫= λ _, on_types it_exit_function)) as Hc by closed.
  rewrite (Hc _ _ _ E). simpl. by rewrite E1, E0.
Qed.
Definition function_turn (f : AstNode FunctionDefinition) : C unit :=
  enter_statement_context (SCPureFunction (inner f)) ≫= λ _, compile_function env f ≫= λ _, exit_statement_context.
Definition action_turn (a : AstNode ActionDefinition) : C unit :=
  enter_statement_context (SCAction (inner a)) ≫= λ _, compile_action env a ≫= λ _, exit_statement_context.
Lemma function_turn_inv f cs a cs' : function_turn f cs = (Ok a, cs') →
  ∃ cs1, compile_function env f (enter_context (SCPureFunction (inner f)) cs) = (Ok tt, cs1) ∧ exit_statement_context cs1 = (Ok tt, cs').
Proof. intros E. unfold function_turn in E. inv_calls E. destruct a0, a1, a. injection E0 as <-. by exists cs1. Qed.
Lemma exit_sigs cs a cs' : exit_statement_context cs = (Ok a, cs') → sigs cs' = sigs cs.
Proof. intros [= _ <-]. by destruct (vec_pop _) as [[? ?]|]. Qed.
Lemma function_turn_sigs f cs a cs' : function_turn f cs = (Ok a, cs') →
  bt_get (fn_identifier (inner f)) (sigs cs) = None ∧ ∃ sig, sigs cs' = bt_insert (fn_identifier (inner f)) sig (sigs cs).
Proof.
  intros (cs1 & E1%compile_function_sigs & E2%exit_sigs)%function_turn_inv. destruct E1 as [Hf Hs]. split; [done|]. rewrite E2, Hs. by eexists.
Qed.
Lemma functions_unique cs cs' : for_each function_turn (pl_functions policy) cs = (Ok tt, cs') →
  NoDup (map (λ f, fn_identifier (inner f)) (pl_functions policy)).
Proof. intros E. by apply (signatures_unique (λ f, fn_identifier (inner f)) function_turn _ cs cs' function_turn_sigs) in E as [? _]. Qed.
Lemma finish_unique cs cs' : for_each define_finish_function_signature (pl_finish_functions policy) cs = (Ok tt, cs') →
  NoDup (map (λ f, ff_identifier (inner f)) (pl_finish_functions policy)).
Proof.
  intros E. apply (signatures_unique (λ f, ff_identifier (inner f)) define_finish_function_signature _ cs cs') in E as [? _]; [done|].
  intros f cs1 a cs2 [Hf ->]%define_signature_Ok. split; [done|]. by eexists.
Qed.
Lemma keeps_function_turn f : NoDup (map (λ f, fn_identifier (inner f)) (pl_functions policy)) → f ∈ pl_functions policy → on_ok keeps_sigs (function_turn f).
Proof.
  intros Hn Hf cs a cs' (cs1 & E1%compile_function_sigs & E2%exit_sigs)%function_turn_inv Hs. destruct E1 as [_ E1]. intros x sig. rewrite E2, E1.
  apply (signature_insert (enter_context (SCPureFunction (inner f)) cs)); [done|]. exists f. split; [|simpl; by rewrite length_map].
  exact (find_unique (λ f, fn_identifier (inner f)) _ _ Hn Hf).
Qed.
Lemma keeps_finish_signature f : NoDup (map (λ f, ff_identifier (inner f)) (pl_finish_functions policy)) → f ∈ pl_finish_functions policy →
  on_ok keeps_sigs (define_finish_function_signature f).
Proof.
  intros Hn Hf cs a cs' [_ ->]%define_signature_Ok Hs. apply signature_insert; [done|]. exists f. split; [|simpl; by rewrite length_map].
  exact (find_unique (λ f, ff_identifier (inner f)) _ _ Hn Hf).
Qed.

(** ** Nothing else has signatures *)
Lemma sigs_enter x : on_ok same_signatures (enter_statement_context x).
Proof. by intros cs a cs' [= _ <-]. Qed.
Lemma sigs_exit : on_ok same_signatures exit_statement_context.
Proof. intros cs a cs'. apply exit_sigs. Qed.
#[local] Hint Resolve sigs_enter sigs_exit closed_finish_function emits_enter emits_exit emits_command emits_command_block emits_command_function closed_function closed_action closed_attribute : closed.
#[export] Instance same_signatures_acting : Acting same_signatures.
Proof. split; [by intros x args cs a cs' [_ ->]%define_action_Ok|by intros x args cs a cs' [_ ->]%define_command_Ok]. Qed.
Lemma sigs_command c : on_ok same_signatures (compile_command env c).
Proof.
  unfold compile_command, compile_command_policy, compile_command_recall, compile_command_seal, compile_command_open, compile_command_block, compile_command_function.
  closed.
Qed.
Lemma sigs_action_turn a : on_ok same_signatures (action_turn a).
Proof. unfold action_turn. closed. Qed.
Lemma emits_action_turn a : on_ok (emits env) (action_turn a).
Proof. unfold action_turn. closed. Qed.
Lemma emits_function_turn f : on_ok (emits env) (function_turn f).
Proof. unfold function_turn. closed. Qed.
#[local] Hint Resolve sigs_command sigs_action_turn emits_action_turn emits_function_turn : closed.
Lemma definitions_sigs cs cs' : compile_definitions env policy cs = (Ok tt, cs') → sigs cs = [] → sigs_ok env cs'.
Proof.
  intros E Hs. unfold compile_definitions in E. inv_calls E.
  assert (sigs cs6 = []) as Hs6.
  { repeat match goal with E : for_each _ _ ?x = (Ok _, ?y) |- _ =>
      lazymatch goal with _ : same_signatures x y |- _ => fail | _ => idtac end;
      assert (same_signatures x y) by (revert E; apply (on_ok_for_each same_signatures); intros; solve [closed])
    end. unfold same_signatures in *. congruence. }
  pose proof (finish_unique _ _ E) as Hn. assert (on_ok keeps_sigs (for_each define_finish_function_signature (pl_finish_functions policy))) as Hk.
  { apply on_ok_for_each; [exact _|]. intros f Hf. by apply keeps_finish_signature. }
  apply (Hk _ _ _ E). intros x sig. by rewrite Hs6.
Qed.

(** ** The phases of the compiler *)
Record phases (fin cs1 cs2 cs3 cs4 cs5 cs6 : CompileState) : Prop := {
  ph_functions : for_each function_turn (pl_functions policy) cs1 = (Ok tt, cs2);
  ph_finish : for_each (compile_finish_function env) (pl_finish_functions policy) cs3 = (Ok tt, cs4);
  ph_commands : for_each (compile_command env) (pl_commands policy) cs5 = (Ok tt, cs6);
  ph_actions : for_each action_turn (pl_actions policy) cs6 = (Ok tt, fin);
  ph_context : last (cs_statement_context cs3) = Some SCFinish;
  ph_wf : wf env cs1 ∧ wf env cs3 ∧ wf env cs5 ∧ wf env cs6;
  ph_inside : extends cs2 fin ∧ extends cs4 fin ∧ extends cs6 fin;
  ph_sigs : sigs_ok env cs1 ∧ sigs_ok env cs3 ∧ sigs_ok env cs5 ∧ sigs_ok env cs6
}.
Lemma compile_code_phases cs1 fin : compile_code env policy cs1 = (Ok tt, fin) → wf env cs1 → sigs_ok env cs1 → ∃ cs2 cs3 cs4 cs5 cs6, phases fin cs1 cs2 cs3 cs4 cs5 cs6.
Proof.
  intros E Hw Hs. unfold compile_code in E. inv_calls E. repeat match goal with a : unit |- _ => destruct a end. exists cs, cs0, cs2, cs3, cs4.
  change (for_each function_turn (pl_functions policy) cs1 = (Ok tt, cs)) in E0. change (for_each action_turn (pl_actions policy) cs4 = (Ok tt, fin)) in E.
  assert (∀ A (f : A → C unit) l, (∀ x, on_ok (emits env) (f x)) → on_ok (emits env) (for_each f l)) as Hloop.
  { intros A f l Hf. apply on_ok_for_each; [exact _|]. auto. }
  destruct (emits_forward env _ _ _ _ (Hloop _ _ _ emits_function_turn) E0 Hw) as [W0 X0]. destruct (emits_forward env _ _ _ _ (emits_enter env SCFinish) E1 W0) as [W1 X1].
  destruct (emits_forward env _ _ _ _ (Hloop _ _ _ (closed_finish_function env (emits env))) E2 W1) as [W2 X2].
  destruct (emits_forward env _ _ _ _ (emits_exit env) E3 W2) as [W3 X3]. destruct (emits_forward env _ _ _ _ (Hloop _ _ _ (emits_command env)) E4 W3) as [W4 X4].
  destruct (emits_forward env _ _ _ _ (Hloop _ _ _ emits_action_turn) E W4) as [W5 X5].
  assert (sigs_ok env cs) as S0.
  { pose proof (functions_unique _ _ E0) as Hn. eapply (on_ok_for_each keeps_sigs); [|exact E0|done]. intros f Hf. by apply keeps_function_turn. }
  assert (same_signatures cs cs4) as S4.
  { transitivity cs0; [exact (sigs_enter _ _ _ _ E1)|]. transitivity cs2; [revert E2; apply (on_ok_for_each same_signatures); intros; solve [closed]|].
    transitivity cs3; [exact (sigs_exit _ _ _ E3)|]. revert E4. apply (on_ok_for_each same_signatures). intros. solve [closed]. }
  assert (same_signatures cs3 cs4) as S4'' by (revert E4; apply (on_ok_for_each same_signatures); intros; solve [closed]).
  split; try done.
  - injection E1 as <-. simpl. unfold vec_push. apply last_snoc.
  - assert (extends cs2 fin) as X by (etrans; [exact X3|]; etrans; [exact X4|exact X5]). split_and!; [|done|done].
    etrans; [exact X1|]. etrans; [exact X2|exact X].
  - unfold same_signatures in *. split_and!; [done|..].
    + injection E1 as <-. exact S0.
    + intros x sig. rewrite <- S4'', S4. apply S0.
    + intros x sig. rewrite S4. apply S0.
Qed.

(** An element of a loop, with the states around it. *)
Lemma loop_elem {A} (f : A → C unit) l cs cs' x : for_each f l cs = (Ok tt, cs') → x ∈ l → wf env cs → (∀ x, on_ok (emits env) (f x)) →
  ∃ csa csb, f x csa = (Ok tt, csb) ∧ wf env csa ∧ extends csb cs'
    ∧ ∀ R : CompileState → CompileState → Prop, PreOrder R → (∀ x, x ∈ l → on_ok R (f x)) → R cs csa.
Proof.
  intros E Hx Hw Hf. destruct (for_each_elem f l cs cs' x E Hx) as (l1 & l2 & csa & csb & -> & E1 & E2 & E3). exists csa, csb.
  assert (∀ l, on_ok (emits env) (for_each f l)) as Hloop by (intros l; apply on_ok_for_each; [exact _|auto]).
  destruct (emits_forward env _ _ _ _ (Hloop l1) E1 Hw) as [Wa _]. destruct (emits_forward env _ _ _ _ (Hf x) E2 Wa) as [Wb _].
  destruct (emits_forward env _ _ _ _ (Hloop l2) E3 Wb) as [_ X]. split_and!; [done..|].
  intros R HR HRf. eapply (on_ok_for_each R); [|exact E1]. intros y Hy. apply HRf. apply elem_of_app. by left.
Qed.

Section Linking.
Variables (fin cs1 cs2 cs3 cs4 cs5 cs6 : CompileState).
Hypothesis Hph : phases fin cs1 cs2 cs3 cs4 cs5 cs6.
Lemma link_functions node : node ∈ pl_functions policy →
  ∃ cs cs', located env fin (SCPureFunction (inner node))
      (function_code env (fn_arguments (inner node)) (fn_statements (inner node)) (locator node) ≫= λ _, append_instruction (IExit ExitPanic)) cs cs'
    ∧ label_at fin (mkLabel (fn_identifier (inner node)) LFunction) (cs_wp cs).
Proof.
  intros Hin. destruct Hph as [Ef _ _ _ _ (Hw & _) (Hi & _) (Hs & _)]. pose proof (functions_unique _ _ Ef) as Hn.
  destruct (loop_elem function_turn _ _ _ node Ef Hin Hw emits_function_turn) as (csa & csb & E & Ha & Hb & HR).
  assert (sigs_ok env csa) as Hsa by (apply (HR keeps_sigs); [exact _|intros x Hx; by apply keeps_function_turn|done]).
  apply function_turn_inv in E as (csd & E1 & E2). assert (wf env (enter_context (SCPureFunction (inner node)) csa)) as Hwe by by destruct Ha.
  destruct (compile_function_parts node _ _ E1 Hwe) as (csx & csy & []).
  destruct (emits_forward env _ _ _ _ (closed_function env (emits env) node) E1 Hwe) as [Hwd _].
  destruct (emits_forward env _ _ _ _ (emits_exit env) E2 Hwd) as [_ Xd]. assert (inside fin csy) as Hiy by (unfold inside; do 3 (etrans; [done|]); done).
  exists csx, csy. split; [split; [by eexists|done| | |done]|].
  - intros x sig. rewrite fp_sigs0. apply (signature_insert (enter_context (SCPureFunction (inner node)) csa)); [done|].
    exists node. split; [exact (find_unique (λ f, fn_identifier (inner f)) _ _ Hn Hin)|]. simpl. by rewrite length_map.
  - rewrite fp_context0. simpl. unfold vec_push. apply last_snoc.
  - rewrite fp_wp0. apply (inside_before env fin) in fp_code0; [by apply fp_code0| |done|done].
    apply on_ok_bind; [exact _|apply grows_function_code|]. intros _. by apply R_append.
Qed.
Lemma link_procedure label params body x cs csb csc cs' : procedure_parts label params body cs csb csc cs' → extends cs' fin → sigs_ok env cs →
  last (cs_statement_context cs) = Some x →
  located env fin x (procedure_code env params body ≫= λ _, append_instruction IReturn) csb csc ∧ label_at fin label (cs_wp csb).
Proof.
  intros [] Hi Hs Hx. assert (inside fin csc) as Hic by (unfold inside; by etrans). split; [split; [by eexists|done| | |done]|].
  - intros y sig. rewrite pp_sigs0. apply Hs.
  - by rewrite pp_context0.
  - apply (inside_before env fin) in pp_code0; [by apply pp_code0| |done|done].
    apply on_ok_bind; [exact _|apply grows_procedure_code|]. intros _. by apply R_append.
Qed.
Lemma link_finish_functions node : node ∈ pl_finish_functions policy →
  ∃ cs cs', located env fin SCFinish (procedure_code env (ff_arguments (inner node)) (ff_statements (inner node)) ≫= λ _, append_instruction IReturn) cs cs'
    ∧ label_at fin (label_new_temp (ff_identifier (inner node))) (cs_wp cs).
Proof.
  intros Hin. destruct Hph as [_ Ef _ _ Hx (_ & Hw & _) (_ & Hi & _) (_ & Hs & _)].
  destruct (loop_elem _ _ _ _ node Ef Hin Hw (closed_finish_function env (emits env))) as (csa & csb & E & Ha & Hb & HR).
  destruct (compile_finish_function_parts node _ _ E Ha) as (csx & csy & Hpp). exists csx, csy. eapply link_procedure; [exact Hpp|by etrans| |].
  - eapply sigs_ok_same; [|exact Hs]. apply HR; [exact _|]. intros. solve [closed].
  - rewrite (HR same_context); [done|exact _|]. intros. solve [closed].
Qed.
Lemma link_actions node : node ∈ pl_actions policy →
  ∃ cs cs', (located env fin (SCAction (inner node))
      (procedure_code env (action_arguments (inner node)) (action_statements (inner node)) ≫= λ _, append_instruction IReturn) cs cs'
    ∧ label_at fin (mkLabel (action_identifier (inner node)) LAction) (cs_wp cs))
    ∧ bt_get (action_identifier (inner node)) (ct_action_defs (cs_m fin)) = Some (action_arguments (inner node)).
Proof.
  intros Hin. destruct Hph as [_ _ _ Ef _ (_ & _ & _ & Hw) _ (_ & _ & _ & Hs)].
  destruct (loop_elem _ _ _ _ node Ef Hin Hw emits_action_turn) as (csa & csb & E & Ha & Hb & HR).
  unfold action_turn in E. inv_calls E. destruct a, a0. injection E0 as <-. set (csd := enter_context (SCAction (inner node)) csa).
  assert (wf env csd) as Hwd by by destruct Ha. destruct (compile_action_parts node _ _ E1 Hwd) as (csx & csy & Hpp & Hdef).
  destruct (emits_forward env _ _ _ _ (closed_action env (emits env) node) E1 Hwd) as [Hw1 _]. destruct (emits_forward env _ _ _ _ (emits_exit env) E Hw1) as [_ X].
  assert (extends cs0 fin) as Hi by by etrans. exists csx, csy. split; [|by apply Hi]. eapply link_procedure; [exact Hpp|done| |].
  - apply (sigs_ok_same cs6); [|exact Hs]. apply (HR same_signatures); [exact _|]. intros. solve [closed].
  - simpl. unfold vec_push. apply last_snoc.
Qed.
Lemma link_command m `{!Compiled env m fin} node : node ∈ pl_commands policy →
  let c := inner node in
  block_linked m fin (mkLabel (cd_identifier c) LCommandPolicy) (SCCommandPolicy c) (cd_policy c)
  ∧ block_linked m fin (mkLabel (cd_identifier c) LCommandRecall) (SCCommandRecall c) (cd_recall c)
  ∧ (∃ def, function_linked m fin (mkLabel (cd_identifier c) LCommandSeal) (SCPureFunction def) "this" (cd_seal c) (locator node))
  ∧ (∃ def, function_linked m fin (mkLabel (cd_identifier c) LCommandOpen) (SCPureFunction def) "envelope" (cd_open c) (locator node))
  ∧ bt_get (cd_identifier c) (ct_command_defs (cs_m fin)) = Some (bt_from_iter (map (λ f, (fd_identifier f, fd_field_type f)) (cd_fields c))).
Proof.
  intros Hin c. destruct Hph as [_ _ Ef _ _ (_ & _ & Hw & _) (_ & _ & Hi) (_ & _ & Hs & _)].
  destruct (loop_elem _ _ _ _ node Ef Hin Hw (emits_command env)) as (csa & csb & E & Ha & Hb & HR).
  assert (sigs_ok env csa) as Hsa.
  { apply (sigs_ok_same cs5); [|done]. apply (HR same_signatures); [exact _|]. intros. solve [closed]. }
  unfold compile_command in E. inv_calls E. repeat match goal with a : unit |- _ => destruct a end.
  assert (inside fin csb) as Hib by (unfold inside; by etrans).
  unfold compile_command_policy, compile_command_recall, compile_command_seal, compile_command_open in *. wfs. insides.
  pose proof (sigs_ok_same _ _ (R_map (R := same_signatures) _ _ _ _ E0) Hsa) as S0.
  assert (on_ok same_signatures (compile_command_block env (inner node) LCommandPolicy (SCCommandPolicy (inner node)) (cd_policy (inner node)))) as G1
    by (unfold compile_command_block; closed).
  assert (on_ok same_signatures (compile_command_block env (inner node) LCommandRecall (SCCommandRecall (inner node)) (cd_recall (inner node)))) as G2
    by (unfold compile_command_block; closed).
  pose proof (sigs_ok_same _ _ (G1 _ _ _ E1) S0) as S1. pose proof (sigs_ok_same _ _ (G2 _ _ _ E2) S1) as S2.
  assert (∀ lt def v ty l loc mm, on_ok same_signatures (compile_command_function env (inner node) lt def v ty l loc mm)) as G3
    by (intros; unfold compile_command_function; closed).
  pose proof (sigs_ok_same _ _ (G3 _ _ _ _ _ _ _ _ _ _ E3) S2) as S3.
  split_and!; [by eapply link_block|by eapply link_block|eexists; by eapply link_function|eexists; by eapply link_function|].
  apply Hib. apply define_command_Ok in E as [_ ->]. simpl. apply bt_get_insert_eq.
Qed.
End Linking.

(** The final state of the compiler, for a policy that compiles. *)
Lemma policy_links m : compiles_to env m → ranges_ok policy →
  ∃ fin cs1 cs2 cs3 cs4 cs5 cs6, phases fin cs1 cs2 cs3 cs4 cs5 cs6 ∧ Compiled env m fin ∧ Linked env fin
    ∧ (∀ l a, l_ltype l ≠ LTemporary → label_at fin l a ↔ bt_get l (labels m) = Some a) ∧ action_defs m = ct_action_defs (cs_m fin)
    ∧ command_defs m = ct_command_defs (cs_m fin).
Proof.
  intros Hc Hr. pose proof (compiled_codemap_total _ _ Hc Hr) as Hcm. apply compiles_to_inv in Hc as (fin & E & Hw & _ & Hres & Hl & _ & Hact & _ & _ & _ & Hcom).
  apply M_bind_inv_Ok in E as ([] & cs0 & E0 & E). apply M_bind_inv_Ok in E as ([] & cs1 & E1 & E).
  pose proof (wf_new env) as Hwn. destruct (emits_forward env _ _ _ _ (R_append (R := emits env) (IExit ExitPanic) eq_refl) E0 Hwn) as [Hw0 _].
  destruct (emits_forward env _ _ _ _ (closed_definitions env (emits env) policy) E1 Hw0) as [Hw1 _].
  assert (sigs_ok env cs1) as Hs1.
  { eapply definitions_sigs; [exact E1|]. by rewrite (R_append (R := same_signatures) (IExit ExitPanic) eq_refl _ _ _ E0). }
  destruct (compile_code_phases _ _ E Hw1 Hs1) as (cs2 & cs3 & cs4 & cs5 & cs6 & Hph). exists fin, cs1, cs2, cs3, cs4, cs5, cs6.
  split_and!; [done|by split| | |done|done].
  - split; intros node Hin; [by eapply link_functions|by eapply link_finish_functions|].
    destruct (link_actions _ _ _ _ _ _ _ Hph node Hin) as (csx & csy & ? & _). by exists csx, csy.
  - intros l a Ht. unfold label_at. rewrite Hl, bt_get_filter by apply Hw. destruct (bt_get l _) as [b|]; [|done]. simpl.
    unfold keep_label. simpl. rewrite bool_decide_eq_false_2 by done. done.
Qed.
End Link.
