(* ===== verification/CompileCorrect.v ===== *)
(** Compiled policies implement the reference semantics: expressions, blocks
    and whole entry points. *)
From S2P Require Import Prelude Collections PolicyData PolicyModule VmScope Vm VmInvariant VmCalls VmSafety VmTheorems.
From S2P Require Import VmEntry Ast CompileTypes Compile CompileProofs CompiledCode PolicySemantics CompileSim.
From S2P Require Import CompileLogic CompileExprs CompileCalls CompileStatements CompileLink.
Local Open Scope string_scope.
Local Open Scope list_scope.
Local Open Scope nat_scope.

(** * Calls of the runtime *)
Definition call_entry {IO} `{MachineIO IO} m to_allocvec from_bytes (fuel : nat) (e : Entry) : VM (IO := IO) (option ExitReason) :=
  match e with
  | EntryAction a args => call_action m to_allocvec from_bytes fuel (action_identifier (inner a)) args
  | EntryPolicy c this envelope => call_command_policy m to_allocvec from_bytes fuel (cd_identifier (inner c)) this envelope
  | EntryRecall c this envelope => call_command_recall m to_allocvec from_bytes fuel (cd_identifier (inner c)) this envelope
  | EntrySeal c this => call_seal m to_allocvec from_bytes fuel (cd_identifier (inner c)) this
  | EntryOpen c envelope => call_open m to_allocvec from_bytes fuel (cd_identifier (inner c)) envelope
  end.
(** What is checked before the code runs. *)
Definition accepts {IO} `{MachineIO IO} m (e : Entry) (s : RunState IO) : Prop :=
  match e with
  | EntryAction a args => ∃ s', setup_action m (action_identifier (inner a)) args s = (Ok tt, s')
  | EntryPolicy c this _ => ∃ s', setup_command m (cd_identifier (inner c)) LCommandPolicy this s = (Ok tt, s')
  | EntryRecall c this _ => ∃ s', setup_command m (cd_identifier (inner c)) LCommandRecall this s = (Ok tt, s')
  | EntrySeal c _ | EntryOpen c _ => True
  end.
(** The call ends the way the semantics does: with the same exit, error or
    result, and having done the same input and output. *)
Definition ends_as {IO A} (call : nat → outcome MachineError (option ExitReason) * RunState IO) (y : outcome stop A * Local_ IO)
    (result : A → RunState IO → Prop) : Prop :=
  match y with
  | (Ok a, st) => ∃ k s', (∀ fuel, call (k + fuel) = (Ok (Some ExitNormal), s')) ∧ rs_io s' = lo_io st ∧ result a s'
  | (Err (StopExit r), st) => ∃ k s', (∀ fuel, call (k + fuel) = (Ok (Some r), s')) ∧ rs_io s' = lo_io st
  | (Err (StopError t), st) => ∃ k e s', (∀ fuel, call (k + fuel) = (Err e, s')) ∧ me_err_type e = t ∧ rs_io s' = lo_io st
  | (Panic w, st) => ∃ k s', ∀ fuel, call (k + fuel) = (Panic w, s')
  | (Err (StopReturn _), _) => False
  | (Err StopUnknown, _) => True
  end.
(** The result of a call is on the stack. *)
Definition on_stack {IO} (v : option Value) (s : RunState IO) : Prop := rs_stack s = match v with Some v => [v] | None => [] end.

Section Correct.
Context {IO : Type} `{MachineIO IO}.
Variable env : CompileEnv.
Variable m : Machine.
Variable to_allocvec : Struct → option (list u8).
Variable from_bytes : list u8 → option Struct.
Variable G : BTreeMap string Value.
Variable ctx : CommandContext.
Variable ffi : nat → nat → CommandContext → list Value → IO → outcome MachineError Value * IO.
Variable fin : CompileState.
Context `{Hcomp : !Compiled env m fin} `{Hlink : !Linked env fin}.
Hypothesis Hffi : ffi_contract env ffi.
Hypothesis Hstub : ce_stub_ffi env = false.
Abbreviation imp := (imp env m to_allocvec from_bytes G ctx fin).
Abbreviation sim := (sim m to_allocvec from_bytes).
Abbreviation vm_step := (vm_step m to_allocvec from_bytes).
Abbreviation step := (step m to_allocvec from_bytes).
Abbreviation at_ := (at_ G ctx).
Abbreviation ce := (compile_expression env).
Abbreviation eval := (eval env G (struct_defs m) (fact_defs m) ctx to_allocvec from_bytes ffi).
Abbreviation exec := (exec_statements env G (struct_defs m) (fact_defs m) ctx to_allocvec from_bytes ffi).
Abbreviation meaning := (meaning env G (struct_defs m) (fact_defs m) ctx to_allocvec from_bytes ffi).
Implicit Types (P : Place) (st : Local_ IO) (stk : list Value) (pc : nat) (cs : CompileState).

(** * Expressions and blocks, by induction on the fuel *)
Lemma imp_block ev ex P d l : d = length (p_base P) →
  (∀ P stk d e, d = length stk → imp P (ce e) stk (ev d e) (λ v, stk ++ [v])) →
  (∀ P d l, d = length (p_base P) → imp P (compile_statements env l ScopeSame) (p_base P) (ex d l) (λ _, p_base P)) →
  imp P (compile_statements env l ScopeSame) (p_base P)
    (for_each (λ s, run_statement env G (struct_defs m) (fact_defs m) ctx ev ex d (inner s)) l) (λ _, p_base P).
Proof.
  intros Hd Hev Hex. unfold compile_statements, compile_block. apply imp_quiet; [closed|]. intros _ _.
  apply imp_quiet; [closed|]. intros x (cs & cs' & Hp & E).
  assert (x = p_context P) as ->.
  { unfold get_statement_context in E. apply M_bind_inv_Ok in E as (? & ? & [= <- <-] & E%get_or_Ok). rewrite (placed_context _ _ _ Hp) in E. by injection E. }
  assert (∀ statements s, on_ok (grows env) (map_range (locator s) ≫= λ _,
    if allowed (inner s) (p_context P) then compile_node env statements (p_context P) s else cfail_at (CEInvalidStatement (p_context P)) (locator s))) as Hg.
  { intros statements s. unfold compile_node. closed. }
  apply imp_quiet_last; [apply on_ok_for_each; [exact _|auto]|intros; closed|]. generalize l at 1. intros statements.
  induction l as [|s l IH]; simpl; [by apply imp_ret|]. eapply imp_bind; [apply Hg|intros ?; apply on_ok_for_each; [exact _|auto]| |intros ? ?; apply IH].
  apply imp_quiet; [closed|]. intros _ _. destruct (allowed _ _) eqn:Ea; [|apply imp_fail_at]. by eapply imp_statement.
Qed.
Lemma semantics_correct n :
  (∀ P stk d e, d = length stk → imp P (ce e) stk (eval n d e) (λ v, stk ++ [v]))
  ∧ (∀ P d l, d = length (p_base P) → imp P (compile_statements env l ScopeSame) (p_base P) (exec n d l) (λ _, p_base P)).
Proof.
  induction n as [|n [IHe IHs]]; [split; intros; apply imp_unknown|]. split.
  - intros P stk d e Hd. eapply imp_expression; [done..|]. intros f _. by eapply imp_pure_call.
  - intros P d l Hd. by eapply imp_block.
Qed.

(** * Runs *)
Abbreviation run := (run m to_allocvec from_bytes).
Lemma run_steps s s1 : rtc vm_step s s1 → ∃ k, ∀ fuel, run (k + fuel) s = run fuel s1.
Proof.
  induction 1 as [s|s s1 s2 Hs _ [k IH]]; [by exists 0|]. exists (S k). intros fuel. simpl. unfold mbind, M_bind, step_with_position.
  unfold VmCalls.vm_step in Hs. by rewrite Hs.
Qed.
Lemma run_exit s s1 s2 r : rtc vm_step s s1 → step s1 = (Ok (Exited r), s2) → ∃ k, ∀ fuel, run (k + fuel) s = (Ok (Some r), s2).
Proof.
  intros [k Hk]%run_steps Hs. exists (S k). intros fuel. rewrite Nat.add_succ_comm, Hk. simpl. unfold mbind, M_bind, step_with_position. by rewrite Hs.
Qed.
Lemma run_error s s1 s2 e : rtc vm_step s s1 → step s1 = (Err e, s2) → ∃ k e', (∀ fuel, run (k + fuel) s = (Err e', s2)) ∧ me_err_type e' = me_err_type e.
Proof.
  intros [k Hk]%run_steps Hs. pose proof (with_position_calm m compiled_codemap e (rs_pc s2)) as Hc.
  destruct (with_position (E := MachineError) e (rs_pc s2) (codemap m)) as [e'|e'|w] eqn:Ew; [| |done].
  - exists (S k), e'. split; [|by eapply with_position_err_type]. intros fuel. rewrite Nat.add_succ_comm, Hk. simpl.
    unfold mbind, M_bind, step_with_position. rewrite Hs. simpl. by rewrite Ew.
  - exfalso. unfold with_position in Ew. unfold mbind, outcome_bind, start_linecol, linecol, span_as_str in Ew. crush_match.
Qed.
Lemma run_panic s s1 s2 w : rtc vm_step s s1 → step s1 = (Panic w, s2) → ∃ k, ∀ fuel, run (k + fuel) s = (Panic w, s2).
Proof.
  intros [k Hk]%run_steps Hs. exists (S k). intros fuel. rewrite Nat.add_succ_comm, Hk. simpl. unfold mbind, M_bind, step_with_position. by rewrite Hs.
Qed.
Lemma sim_ends {A} s (y : outcome stop A * Local_ IO) post result : sim s y post (λ _ _ _, False) →
  (∀ a st s', post a st s' → ∃ s2, step s' = (Ok (Exited ExitNormal), s2) ∧ rs_io s2 = lo_io st ∧ result a s2) →
  ends_as (λ fuel, run fuel s) y result.
Proof.
  intros Hsim Hpost. destruct y as [[a|[r|t|v|]|w] st]; simpl in *; [| | | |done|].
  - destruct Hsim as (s' & Hr & Hp). destruct (Hpost a st s' Hp) as (s2 & Hs & Hio & Hres). destruct (run_exit _ _ _ _ Hr Hs) as [k Hk]. by exists k, s2.
  - destruct Hsim as (s1 & s2 & Hr & Hs & Hio). destruct (run_exit _ _ _ _ Hr Hs) as [k Hk]. by exists k, s2.
  - destruct Hsim as (s1 & e & s2 & Hr & Hs & Ht & Hio). destruct (run_error _ _ _ _ Hr Hs) as (k & e' & Hk & He). exists k, e', s2. split; [done|]. by split; [congruence|].
  - by destruct Hsim as (s' & _ & []).
  - destruct Hsim as (s1 & s2 & Hr & Hs). destruct (run_panic _ _ _ _ Hr Hs) as [k Hk]. by exists k, s2.
Qed.

(** * Entry points *)
Lemma sim_fmap {A B} s (sem : Sem A) (f : A → B) st post ret :
  sim s (sem st) (λ a st' s', post (f a) st' s') ret → sim s ((sem ≫= λ a, (mret (f a) : Sem B)) st) post ret.
Proof. unfold mbind, M_bind. destruct (sem st) as [[a|[r|t|v|]|w] st']; done. Qed.
(** Where the code of an entry point runs. *)
Definition outermost (qs : list QueryIterator) (x : StatementContext) : Place := mkPlace [] [] qs x [].
Lemma action_ends n node args addr qs io : node ∈ pl_actions (ce_policy env) → length args = length (action_arguments (inner node)) → stack_ok args →
  label_at fin (mkLabel (action_identifier (inner node)) LAction) addr →
  ends_as (λ fuel, run fuel (at_ (outermost qs (SCAction (inner node))) (mkLocal [[]] io) args addr)) (meaning n (EntryAction node args) (mkLocal [[]] io)) on_stack.
Proof.
  intros Hin Hlen Hs Hl. destruct (linked_action node Hin) as (cs & cs' & Hloc & Hl'). unfold label_at in *. simplify_eq.
  destruct (semantics_correct n) as [_ Hx]. set (P := outermost qs (SCAction (inner node))).
  eapply sim_ends with (post := λ r st s', r = None ∧ ∃ pc, code m pc IReturn ∧ s' = at_ P st [] pc).
  - cbn [PolicySemantics.meaning]. apply (sim_fmap _ _ (λ _, None)).
    eapply sim_conseq; [apply (procedure_sim env m to_allocvec from_bytes G ctx fin _ Hx P 0 _ _ args cs cs' _ eq_refl eq_refl Hloc); done| |done].
    simpl. intros _ st s' (_ & pc & ? & ->). eauto.
  - simpl. intros a st s' (-> & pc & Hc & ->). exists (at_ P st [] pc). split; [|done]. rewrite (step_to env m to_allocvec from_bytes fin (at_ P st [] pc) IReturn (ReturnStatus (Exited ExitNormal)) _ Hc eq_refl); [done|by right].
Qed.
Lemma block_ends n label x body envelope frame qs io addr : block_linked env m fin label x body → is_pure_context x = false → label_at fin label addr →
  ends_as (λ fuel, run fuel (at_ (outermost qs x) (mkLocal frame io) [VStruct envelope] addr))
    (run_block env G (struct_defs m) (fact_defs m) ctx to_allocvec from_bytes ffi n body envelope (mkLocal frame io)) on_stack.
Proof.
  intros (csb & csc & Hloc & Hl' & Hc) Hx Hl. unfold label_at in *. simplify_eq. destruct (semantics_correct n) as [_ Hex]. set (P := outermost qs x).
  pose proof (located_placed env fin P _ _ _ Hloc) as Hp. destruct Hloc as [[[] E] _ _ _ Hi].
  eapply sim_ends with (post := λ r st s', r = None ∧ s' = at_ P st [] (cs_wp csc)).
  - unfold run_block. apply (sim_fmap _ _ (λ _, None)).
    eapply (imp_sim env m to_allocvec from_bytes G ctx fin P _ [VStruct envelope] _ (λ _, [])); [|exact E|done|done| |done| |].
    + seq; [instr (does_def m to_allocvec from_bytes G ctx P [])|]. by apply (Hex P).
    + unfold stack_ok, STACK_SIZE. simpl. lia.
    + simpl. intros [] st _. eexists. by split.
    + intros v st s' [Hy _]. simpl in Hy. congruence.
  - simpl. intros a st s' [-> ->]. exists (at_ P st [] (cs_wp csc)). split; [|done]. rewrite (step_to env m to_allocvec from_bytes fin (at_ P st [] (cs_wp csc)) (IExit ExitNormal) _ _ Hc eq_refl); [done|by right].
Qed.
Lemma function_ends n label def x body loc arg qs io addr : function_linked env m fin label (SCPureFunction def) x body loc → label_at fin label addr →
  ends_as (λ fuel, run fuel (at_ (outermost qs (SCPureFunction def)) (mkLocal [[]] io) [VStruct arg] addr))
    (run_function env G (struct_defs m) (fact_defs m) ctx to_allocvec from_bytes ffi n x arg body (mkLocal [[]] io)) on_stack.
Proof.
  intros (csb & csc & addr' & Hloc & Hl' & Hcall & Hexit & Hc) Hl. unfold label_at in *. assert (addr' = addr) as -> by congruence. destruct (semantics_correct n) as [_ Hex].
  set (P := outermost qs (SCPureFunction def)). set (st := mkLocal [[]] io). set (Q := callee P st [] addr (SCPureFunction def)).
  pose proof (located_placed env fin Q _ _ _ Hloc) as Hp. destruct Hloc as [[[] E] _ _ _ Hi].
  eapply sim_ends with (post := λ r st s', ∃ v, r = Some v ∧ s' = at_ P st [v] (S addr)).
  - unfold run_function. apply (sim_fmap _ _ Some).
    eapply sim_steps; [by eapply rtc_once, (step_call env m to_allocvec from_bytes G ctx fin P st [] [VStruct arg] addr _ (SCPureFunction def))|].
    eapply sim_conseq with (ret := λ _ _ _, False); [eapply (sim_call_function env m to_allocvec from_bytes G ctx fin P st [] addr (SCPureFunction def)); [exact Hcall|]| |].
    + eapply sim_bind.
      * eapply (imp_sim env m to_allocvec from_bytes G ctx fin Q _ [VStruct arg] _ (λ _, [])) with (post := λ _ st' s', s' = at_ Q st' [] (cs_wp csc));
          [|exact E|done|done| |done| |done].
        -- seq; [instr (does_def m to_allocvec from_bytes G ctx Q [])|]. by apply (imp_returning env m to_allocvec from_bytes G ctx fin _ Hex Q).
        -- unfold stack_ok, STACK_SIZE. simpl. lia.
        -- simpl. intros [] st' _. by eexists.
      * intros [] st' s' Hs'. cbn beta in Hs'. subst s'. by apply (sim_exit env m to_allocvec from_bytes G ctx fin (B := Value)).
    + simpl. intros v st' s' [-> _]. by eexists.
    + done.
  - simpl. intros r st' s' (v & -> & ->). exists (at_ P st' [v] (S addr)). split; [|done].
    rewrite (step_to env m to_allocvec from_bytes fin (at_ P st' [v] (S addr)) (IExit ExitNormal) _ _ Hexit eq_refl); [done|by right].
Qed.
End Correct.
