(* ===== verification/CompileTheorems.v ===== *)
(** What compiling a policy guarantees: its code is closed, never makes the VM
    panic, and does what the reference semantics says. *)
From S2P Require Import Prelude Collections PolicyData PolicyModule VmScope Vm VmInvariant VmCalls VmSafety VmTestIO.
From S2P Require Import VmTheorems VmEntry Ast CompileTypes Compile CompileProofs CompiledCode PolicySemantics.
From S2P Require Import CompileSim CompileLogic CompileExprs CompileCalls CompileStatements CompileLink CompileCorrect.
Local Open Scope string_scope.
Local Open Scope list_scope.
Local Open Scope nat_scope.

(** * Closed code *)

(** C5: the code of a compiled policy is closed: from every label of the module,
    however long the VM runs, through jumps, branches, calls and returns, the
    program counter is at an instruction of the module, which the VM
    implements, and whose target, if it has one, is resolved to an instruction
    of the module. *)
Theorem compiled_code_is_closed {IO} `{MachineIO IO} env m to_allocvec from_bytes l addr (s s' : RunState IO) :
  compiles_to env m → bt_get l (labels m) = Some addr → rs_pc s = addr → rs_call_state s = [] →
  rtc (vm_step m to_allocvec from_bytes) s s' →
  ∃ i, progmem m !! rs_pc s' = Some i ∧ implemented i = true ∧ resolved_below (length (progmem m)) i.
Proof.
  intros Hc%compiled_code_closed Hl Hpc Hcalls Hs. destruct (pc_ok_steps m to_allocvec from_bytes Hc s s') as [Hlt _]; [|done|].
  - split; [rewrite Hpc; by eapply cc_labels|rewrite Hcalls; constructor].
  - destruct (lookup_lt_is_Some_2 _ _ Hlt) as [i Hi]. exists i. split; [done|]. by eapply cc_instr.
Qed.

(** C6: a compiled policy does not make the VM panic: whatever the policy, if the
    ranges of its source positions start inside its text, then no run of its
    code panics, over an I/O that does not panic, however long it runs. *)
Theorem compiled_policy_never_panics {IO} `{MachineIOLaws IO} env m to_allocvec from_bytes fuel (s : RunState IO) :
  compiles_to env m → ranges_ok (ce_policy env) → io_calm (IO := IO) → calm_state s →
  is_panic (run m to_allocvec from_bytes fuel s).1 = false.
Proof.
  intros Hc Hr Hio Hs. apply calm_run; [by eapply compiled_codemap_total|done| |done].
  apply forallb_forall. intros i [pc Hpc]%list_elem_of_In%list_elem_of_lookup. by eapply cc_instr, Hpc; apply (compiled_code_closed env).
Qed.

(** * The reference semantics *)
Lemma ends_as_ext {IO A} (f g : nat → outcome MachineError (option ExitReason) * RunState IO) (y : outcome stop A * Local_ IO) result :
  (∀ fuel, g fuel = f fuel) → ends_as f y result → ends_as g y result.
Proof.
  intros Hfg. destruct y as [[a|[r|t|v|]|w] st]; simpl; try done.
  - intros (k & s' & Hk & ?). exists k, s'. split; [|done]. intros fuel. by rewrite Hfg.
  - intros (k & s' & Hk & ?). exists k, s'. split; [|done]. intros fuel. by rewrite Hfg.
  - intros (k & e & s' & Hk & ?). exists k, e, s'. split; [|done]. intros fuel. by rewrite Hfg.
  - intros (k & s' & Hk). exists k, s'. intros fuel. by rewrite Hfg.
Qed.
Lemma push_envelope {IO} `{MachineIO IO} m (s : RunState IO) (v : Struct) {A} (k : unit → VM A) : rs_stack s = [] →
  (ipush m v ≫= k) s = k tt (set_stack [VStruct v] s).
Proof. intros Hs. unfold ipush, ipush_value, push_value, mbind, M_bind, get_state, modify. by rewrite Hs. Qed.

Section Commands.
Context {IO : Type} `{MachineIO IO}.
Variables (env : CompileEnv) (m : Machine) (to_allocvec : Struct → option (list u8)) (from_bytes : list u8 → option Struct).
Variable ffi : nat → nat → CommandContext → list Value → IO → outcome MachineError Value * IO.
Variable fin : CompileState.
Context `{Hcomp : !Compiled env m fin} `{Hlink : !Linked env fin}.
Hypothesis Hffi : ffi_contract env ffi.
Hypothesis Hstub : ce_stub_ffi env = false.
Hypothesis Hlab : ∀ l a, l_ltype l ≠ LTemporary → label_at fin l a ↔ bt_get l (labels m) = Some a.
(** The policy and recall rules. *)
Lemma command_ends n name lt x body this envelope (s : RunState IO) : lt ≠ LTemporary → is_pure_context x = false → rs_stack s = [] →
  block_linked env m fin (mkLabel name lt) x body → (∃ s', setup_command m name lt this s = (Ok tt, s')) →
  ends_as (λ fuel, (setup_command m name lt this ≫= λ _, ipush m envelope ≫= λ _, run m to_allocvec from_bytes fuel) s)
    (run_block env (sc_globals (rs_scope s)) (struct_defs m) (fact_defs m) (rs_ctx s) to_allocvec from_bytes ffi n body envelope (mkLocal [[("this", VStruct this)]] (rs_io s)))
    on_stack.
Proof.
  intros Hlt Hx Hs Hb (s1 & Hset). pose proof Hset as Hset2. apply setup_command_accepts_iff in Hset2 as (addr & def & Hl & _ & _ & _ & _ & ->); [|exact compiled_codemap].
  eapply ends_as_ext; [|eapply (block_ends env m to_allocvec from_bytes _ (rs_ctx s) _ fin Hffi Hstub n _ x body envelope _ (rs_query_iter_stack s) (rs_io s) addr Hb Hx); by apply Hlab].
  intros fuel. etrans; [by eapply M_bind_Ok|]. by rewrite push_envelope.
Qed.
(** The seal and open functions. *)
Lemma conversion_ends n name lt def x body loc arg (s : RunState IO) : lt ≠ LTemporary → rs_stack s = [] →
  function_linked env m fin (mkLabel name lt) (SCPureFunction def) x body loc →
  ends_as (λ fuel, (setup_function m (mkLabel name lt) ≫= λ _, ipush m arg ≫= λ _, run m to_allocvec from_bytes fuel) s)
    (run_function env (sc_globals (rs_scope s)) (struct_defs m) (fact_defs m) (rs_ctx s) to_allocvec from_bytes ffi n x arg body (mkLocal [[]] (rs_io s))) on_stack.
Proof.
  intros Hlt Hs Hf. pose proof Hf as (csb & csc & addr & _ & Hl & _). pose proof (proj1 (Hlab (mkLabel name lt) _ Hlt) Hl) as Hl2.
  eapply ends_as_ext; [|eapply (function_ends env m to_allocvec from_bytes _ (rs_ctx s) _ fin Hffi Hstub n _ def x body loc arg (rs_query_iter_stack s) (rs_io s) addr Hf Hl)].
  intros fuel. etrans; [eapply M_bind_Ok, setup_function_iff; by eexists|]. by rewrite push_envelope.
Qed.
End Commands.

(** Each entry, by the proof for its kind. *)
Lemma compiled_entry_ends {IO} `{MachineIO IO} env m to_allocvec from_bytes ffi n e (s : RunState IO) :
  compiles_to env m → ranges_ok (ce_policy env) → ce_stub_ffi env = false → ffi_contract env ffi →
  entry_of (ce_policy env) e → rs_stack s = [] → accepts m e s →
  ends_as (λ fuel, call_entry m to_allocvec from_bytes fuel e s)
    (meaning env (sc_globals (rs_scope s)) (struct_defs m) (fact_defs m) (rs_ctx s) to_allocvec from_bytes ffi n e (entry_local e (rs_io s)))
    on_stack.
Proof.
  intros Hc Hr Hstub Hffi He Hs Ha. destruct (policy_links env m Hc Hr) as (fin & cs1 & cs2 & cs3 & cs4 & cs5 & cs6 & Hph & Hcomp & Hlink & Hlab & Hact & _).
  destruct e as [a args|c this envelope|c this envelope|c this|c envelope]; simpl in He, Ha |- *.
  - destruct Ha as (s1 & Hset). assert (stack_ok (rs_stack s)) as Hok by (rewrite Hs; apply Nat.le_0_l).
    pose proof Hset as Hset2. apply setup_action_accepts_iff in Hset2 as (defs & addr & Hdefs & Hfit & Hl & Hlen & ->); [|done].
    destruct (link_actions env fin cs1 cs2 cs3 cs4 cs5 cs6 Hph a He) as (? & ? & _ & Hdef). rewrite Hact, Hdef in Hdefs. injection Hdefs as <-.
    rewrite Hs in Hset, Hlen. eapply ends_as_ext; [|eapply (action_ends env m to_allocvec from_bytes _ _ _ fin Hffi Hstub n a args addr (rs_query_iter_stack s) (rs_io s))].
    + intros fuel. unfold call_action, mbind, M_bind. by rewrite Hset.
    + done.
    + by apply Forall2_length in Hfit.
    + exact Hlen.
    + by apply Hlab.
  - destruct (link_command env fin cs1 cs2 cs3 cs4 cs5 cs6 Hph m c He) as (Hb & _). eapply (command_ends env m to_allocvec from_bytes ffi fin); [| | | | | |exact Hb|]. all: done.
  - destruct (link_command env fin cs1 cs2 cs3 cs4 cs5 cs6 Hph m c He) as (_ & Hb & _). eapply (command_ends env m to_allocvec from_bytes ffi fin); [| | | | | |exact Hb|]. all: done.
  - destruct (link_command env fin cs1 cs2 cs3 cs4 cs5 cs6 Hph m c He) as (_ & _ & (def & Hf) & _). eapply (conversion_ends env m to_allocvec from_bytes ffi fin); [| | | | |exact Hf]. all: done.
  - destruct (link_command env fin cs1 cs2 cs3 cs4 cs5 cs6 Hph m c He) as (_ & _ & _ & (def & Hf) & _). eapply (conversion_ends env m to_allocvec from_bytes ffi fin); [| | | | |exact Hf]. all: done.
Qed.

(** C3: compiling is correct: whatever the policy, a call of the compiled code
    from the runtime - an action, the policy or recall rule of a command, or
    its seal or open function - ends the way the reference semantics of the
    source says: the same exit, the same error or the same result, after the
    same input and output, for every VM fuel from some point on. The only
    exception is an evaluation for which the fuel of the semantics is too
    small. Foreign functions are assumed to take their arguments from the stack
    and to leave their result on it. *)
Theorem compiled_policy_correct {IO} `{MachineIO IO} env m to_allocvec from_bytes ffi n e (s : RunState IO) :
  compiles_to env m → ranges_ok (ce_policy env) → ce_stub_ffi env = false → ffi_contract env ffi →
  entry_of (ce_policy env) e → rs_stack s = [] → accepts m e s →
  ends_as (λ fuel, call_entry m to_allocvec from_bytes fuel e s)
    (meaning env (sc_globals (rs_scope s)) (struct_defs m) (fact_defs m) (rs_ctx s) to_allocvec from_bytes ffi n e (entry_local e (rs_io s)))
    on_stack.
Proof. apply compiled_entry_ends. Qed.

(** * Types of calls *)
Lemma check_unique_NoDup l seen cs seen' cs' : check_unique seen l cs = (Ok seen', cs') →
  NoDup (map fd_identifier l) ∧ ∀ x, x ∈ map fd_identifier l → x ∉ seen.
Proof.
  revert seen cs. induction l as [|f l IH]; intros seen cs E; simpl in *; [split; [constructor|set_solver]|].
  destruct (bool_decide_reflect (fd_identifier f ∈ seen)) as [|Hn]; [by apply M_bind_inv_Ok in E as (? & ? & _ & ?)|].
  apply IH in E as [Hd Hs]. split.
  - constructor; [|done]. intros Hin. apply (Hs _ Hin). by left.
  - intros x [->|Hx]%elem_of_cons; [done|]. intros Hin. apply (Hs x Hx). by right.
Qed.
Lemma define_struct_NoDup x fields cs a cs' : define_struct x fields cs = (Ok a, cs') → NoDup (map fd_identifier fields).
Proof.
  intros (y & s1 & [= <- <-] & E)%M_bind_inv_Ok. destruct (bt_get x _); [by apply M_bind_inv_Ok in E as (? & ? & _ & ?)|].
  apply M_bind_inv_Ok in E as (u & s2 & E & _). exact (proj1 (check_unique_NoDup _ _ _ _ _ E)).
Qed.
Lemma command_fields_NoDup env m c : compiles_to env m → c ∈ pl_commands (ce_policy env) → NoDup (map fd_identifier (cd_fields (inner c))).
Proof.
  intros (cs & E & _)%compiles_to_inv Hc. inv_calls E. destruct a0. unfold compile_definitions in E1. inv_calls E1.
  match goal with H : for_each _ (pl_commands _) _ = (Ok ?u, _) |- _ => destruct u; destruct (for_each_elem _ _ _ _ c H Hc) as (? & ? & ? & ? & _ & _ & Hd & _) end.
  by apply define_struct_NoDup in Hd.
Qed.

(** The fields of [this] are those the command declares. *)
Definition declared (fields : list FieldDefinition) (f : string * Value) : Prop :=
  ∃ d, d ∈ fields ∧ fd_identifier d = f.1 ∧ arg_fits f.2 d.
(** What the source says of the arguments of a call. *)
Definition typed_call {IO} (e : Entry) (s : RunState IO) : Prop :=
  match e with
  | EntryAction a args => Forall2 arg_fits args (action_arguments (inner a)) ∧ length (rs_stack s) + length args ≤ STACK_SIZE
  | EntryPolicy c this _ | EntryRecall c this _ =>
      length (s_fields this) = length (cd_fields (inner c)) ∧ Forall (declared (cd_fields (inner c))) (s_fields this)
      ∧ bt_get "this" (sc_globals (rs_scope s)) = None
  | EntrySeal _ _ | EntryOpen _ _ => True
  end.
Lemma setup_command_typed {IO} `{MachineIO IO} m name lt fields this (s : RunState IO) addr : codemap_total m →
  bt_get (mkLabel name lt) (labels m) = Some addr → NoDup (map fd_identifier fields) →
  bt_get name (command_defs m) = Some (bt_from_iter (map (λ f, (fd_identifier f, fd_field_type f)) fields)) →
  (∃ s', setup_command m name lt this s = (Ok tt, s')) ↔
  length (s_fields this) = length fields ∧ Forall (declared fields) (s_fields this) ∧ bt_get "this" (sc_globals (rs_scope s)) = None.
Proof.
  intros Hcm Hl Hd Hdef. set (def := bt_from_iter _) in Hdef.
  assert (def ≡ₚ map (λ f, (fd_identifier f, fd_field_type f)) fields) as Hp by (apply bt_from_iter_perm; rewrite map_map; exact Hd).
  assert (∀ f, field_fits def f ↔ declared fields f) as Hf.
  { intros [x v]. unfold field_fits, declared, arg_fits. setoid_rewrite bt_get_iff; [|apply bt_wf_from_iter]. setoid_rewrite Hp.
    setoid_rewrite list_elem_of_fmap. simpl. split; [intros (t & (d & [= -> ->] & ?) & ?); by exists d|intros (d & ? & <- & ?)]. eexists. split; [by exists d|done]. }
  pose proof (Permutation_length Hp) as Hlen. rewrite length_map in Hlen. setoid_rewrite setup_command_accepts_iff; [|done].
  rewrite Hl, Hdef. split.
  - intros (? & ? & ? & [= <-] & [= <-] & ? & ? & ? & _). rewrite <- (Forall_iff _ _ _ Hf). split_and!; [congruence|done..].
  - intros (? & ? & ?). do 3 eexists. split_and!; [done|done|congruence|by rewrite (Forall_iff _ _ _ Hf)|done|done].
Qed.

(** Each kind of call, by the definitions of the module. *)
Lemma compiled_calls_typed {IO} `{MachineIO IO} env m e (s : RunState IO) :
  compiles_to env m → ranges_ok (ce_policy env) → entry_of (ce_policy env) e → stack_ok (rs_stack s) →
  accepts m e s ↔ typed_call e s.
Proof.
  intros Hc Hr He Hs. destruct (policy_links env m Hc Hr) as (fin & cs1 & cs2 & cs3 & cs4 & cs5 & cs6 & Hph & Hcomp & Hlink & Hlab & Hact & Hcom).
  pose proof (compiled_codemap_total _ _ Hc Hr) as Hcm.
  assert (∀ c, c ∈ pl_commands (ce_policy env) → NoDup (map fd_identifier (cd_fields (inner c)))) as Hnd by (intros; by eapply command_fields_NoDup).
  destruct e as [a args|c this envelope|c this envelope|c this|c envelope]; simpl in He |- *; [|destruct (link_command env fin cs1 cs2 cs3 cs4 cs5 cs6 Hph m c He) as (Hb1 & Hb2 & _ & _ & Hdef)..|done|done].
  - setoid_rewrite setup_action_accepts_iff; [|done]. destruct (link_actions env fin cs1 cs2 cs3 cs4 cs5 cs6 Hph a He) as (? & ? & [_ Hl] & Hdef).
    rewrite Hact, Hdef. apply Hlab in Hl; [|done]. rewrite Hl. split; [intros (? & ? & ? & [= <-] & ? & _ & ? & _); done|intros []; by repeat eexists].
  - destruct Hb1 as (? & ? & _ & Hl%Hlab & _); [|done]. eapply setup_command_typed; [done|exact Hl|auto|congruence].
  - destruct Hb2 as (? & ? & _ & Hl%Hlab & _); [|done]. eapply setup_command_typed; [done|exact Hl|auto|congruence].
Qed.

(** C4: calls are typed: for a compiled policy, the VM accepts a call of an
    action exactly when its arguments are as many as the policy's source
    declares, each of its declared type, and fit on the stack; and it accepts a
    command exactly when the command has the declared fields, each of its
    declared type, unless a global is named [this]. *)
Theorem compiled_calls_are_typed {IO} `{MachineIO IO} env m e (s : RunState IO) :
  compiles_to env m → ranges_ok (ce_policy env) → entry_of (ce_policy env) e → stack_ok (rs_stack s) →
  accepts m e s ↔ typed_call e s.
Proof. apply compiled_calls_typed. Qed.

(** * A policy *)
Module CompileExample.
Definition node {A} (x : A) : AstNode A := mkAstNode x 0.
Definition this_ (x : string) : Expression := EDot (EIdentifier "this") x.
Definition count_of_total (value : FactField) : FactLiteral :=
  mkFactLiteral "Count" [("id", FExpression (EString "total"))] (Some [("n", value)]).
(** [let old = unwrap query Count[id: "total"]=>{n: ?}
     check this.n > 0
     let total = old.n + this.n
     finish { update Count[id: "total"]=>{n: old.n} to {n: total}
              emit Counted {n: total, by: print::print(this.by)} }]
    where the foreign call is made before the block. *)
Definition add_policy : Statements := [
  node (SLet (mkLetStatement "old" (EUnwrap (EInternalFunction (IFQuery (count_of_total FBind))))));
  node (SCheck (mkCheckStatement (EGreaterThan (this_ "n") (EInt 0))));
  node (SLet (mkLetStatement "total" (EAdd (EDot (EIdentifier "old") "n") (this_ "n"))));
  node (SLet (mkLetStatement "who" (EForeignFunctionCall (mkForeignFunctionCall "print" "print" [this_ "by"]))));
  node (SFinish [
    node (SUpdate (mkUpdateStatement (count_of_total (FExpression (EDot (EIdentifier "old") "n")))
      [("n", FExpression (EIdentifier "total"))]));
    node (SEmit (ENamedStruct (mkNamedStruct "Counted" [("n", EIdentifier "total"); ("by", EIdentifier "who")])))])].
Definition add_fields : list FieldDefinition := [mkFieldDefinition "n" TInt; mkFieldDefinition "by" TString].
Definition add_command : AstNode CommandDefinition := node (mkCommandDefinition [] "Add" add_fields
  [node (SReturn (mkReturnStatement (ENamedStruct (mkNamedStruct "Envelope" [("n", this_ "n"); ("by", this_ "by")]))))]
  [node (SReturn (mkReturnStatement (ENamedStruct (mkNamedStruct "Add"
    [("n", EDot (EIdentifier "envelope") "n"); ("by", EDot (EIdentifier "envelope") "by")]))))]
  add_policy []).
(** A function that calls itself, and an action that publishes its result. *)
Definition double : AstNode FunctionDefinition := node (mkFunctionDefinition "double" [mkFieldDefinition "n" TInt] TInt [
  node (SIf (mkIfStatement [(EEqual (EIdentifier "n") (EInt 0), [node (SReturn (mkReturnStatement (EInt 0)))])] None));
  node (SReturn (mkReturnStatement (EAdd (EInt 2)
    (EFunctionCall (mkFunctionCall "double" [ESubtract (EIdentifier "n") (EInt 1)])))))]).
Definition add_action : AstNode ActionDefinition := node (mkActionDefinition "add" [mkFieldDefinition "n" TInt] [
  node (SPublish (ENamedStruct (mkNamedStruct "Add"
    [("n", EFunctionCall (mkFunctionCall "double" [EIdentifier "n"])); ("by", EString "me")])))]).
Definition policy : Policy := mkPolicy PolicyV1 ["print"]
  [node (mkFactDefinition false "Count" [mkFieldDefinition "id" TString] [mkFieldDefinition "n" TInt])]
  [add_action]
  [node (mkEffectDefinition "Counted" [mkEffectFieldDefinition "n" TInt false; mkEffectFieldDefinition "by" TString false])]
  [node (mkStructDefinition "Envelope" add_fields)] [] [add_command] [double] [] []
  (String.list_byte_of_string "policy") [(0, 6)].
Definition print_schema : ModuleSchema := mkModuleSchema "print" [mkFfiFunc "print" [mkFfiArg "s" FTString] FTString] [].
Definition env : CompileEnv := mkCompileEnv policy [print_schema] false false.
Definition m : Machine := Eval vm_compute in
  match compile env with Ok md => match from_module md with Ok m => m | _ => machine_new [] end | _ => machine_new [] end.

(** The I/O of the VM's tests, whose one foreign function meets the contract. *)
Definition upper (s : string) : string := s +:+ "!".
Definition io : MachineIO TestIO := test_machine_io upper.
Definition print (_ _ : nat) (_ : CommandContext) (args : list Value) (t : TestIO) : outcome MachineError Value * TestIO :=
  match args with
  | [v] => (match map_err met_of_conversion (try_from_value v) with
            | Ok s => Ok (VString (upper s))
            | Err e => Err (machine_error_new e)
            | Panic w => Panic w
            end, t)
  | _ => (Panic "no arguments", t)
  end.
Definition facts : TestIO := set_ti_facts [(("Count", [mkFactKey "id" (HString "total")]), [mkFactValue "n" (VInt 40)])] test_io_new.
Definition by_policy : CommandContext := CtxPolicy (mkPolicyContext "Add" [] [] []).
Definition start : RunState TestIO := run_state_new m facts by_policy.
Definition no_bytes (s : Struct) : option (list u8) := None.
Definition no_struct (b : list u8) : option Struct := None.
Definition this : Struct := mkStruct "Add" [("by", VString "me"); ("n", VInt 2)].
Definition envelope : Struct := mkStruct "Envelope" [].
Lemma compiled : compiles_to env m.
Proof. eexists. split; vm_compute; reflexivity. Qed.
Lemma print_contract : @ffi_contract _ io env print.
Proof.
  intros i j mo f ctx stk args t Hm Hf Hl Hs. destruct i as [|i]; [|done]. injection Hm as <-. destruct j as [|j]; [|done]. injection Hf as <-.
  destruct args as [|v [|]]; [done| |done]. simpl. unfold stack_pop, pop_value. rewrite vec_pop_snoc. simpl.
  destruct (try_from_value v) as [s|e|w]; simpl; [|by eexists..].
  unfold push_value. by rewrite (proj2 (Nat.ltb_lt _ _)).
Qed.
Lemma ranges : ranges_ok (ce_policy env).
Proof. apply Forall_singleton. vm_compute. lia. Qed.
(** After [k] steps from a label. *)
Fixpoint steps_from (addr k : nat) : RunState TestIO :=
  match k with
  | 0 => set_pc addr (set_stack [VStruct envelope] start)
  | S k' => (@step _ io m no_bytes no_struct (steps_from addr k')).2
  end.
Definition running (s : RunState TestIO) : bool :=
  match (@step _ io m no_bytes no_struct s).1 with Ok Executing => true | _ => false end.
Lemma steps_from_rtc addr k : (∀ j, j < k → running (steps_from addr j) = true) →
  rtc (@vm_step _ io m no_bytes no_struct) (steps_from addr 0) (steps_from addr k).
Proof.
  induction k as [|k IH]; intros Hk; [done|]. eapply rtc_r; [apply IH; auto|]. specialize (Hk k ltac:(lia)). unfold running in Hk.
  unfold vm_step. cbn [steps_from]. destruct (step _ _ _ _) as [[[|]| |] ?]; done.
Qed.
End CompileExample.

Lemma compiled_code_is_closed_witness :
  ∃ i, progmem CompileExample.m !! rs_pc (CompileExample.steps_from 21 7) = Some i ∧ implemented i = true
    ∧ resolved_below (length (progmem CompileExample.m)) i.
Proof.
  apply (@compiled_code_is_closed _ CompileExample.io CompileExample.env CompileExample.m CompileExample.no_bytes
    CompileExample.no_struct (mkLabel "Add" LCommandPolicy) 21 (CompileExample.steps_from 21 0)).
  - exact CompileExample.compiled.
  - reflexivity.
  - reflexivity.
  - reflexivity.
  - apply CompileExample.steps_from_rtc. intros j Hj. do 7 (destruct j as [|j]; [by vm_compute|]). lia.
Defined.

Lemma compiled_policy_never_panics_witness :
  is_panic (@run _ CompileExample.io CompileExample.m CompileExample.no_bytes CompileExample.no_struct 100
    (set_pc 21 CompileExample.start)).1 = false.
Proof.
  apply (@compiled_policy_never_panics _ CompileExample.io (test_io_laws _) CompileExample.env).
  - exact CompileExample.compiled.
  - exact CompileExample.ranges.
  - apply test_io_calm.
  - split; [constructor|vm_compute; lia].
Defined.

Lemma compiled_policy_correct_witness : ∃ k s',
  (∀ fuel, @call_entry _ CompileExample.io CompileExample.m CompileExample.no_bytes CompileExample.no_struct (k + fuel)
     (EntryPolicy CompileExample.add_command CompileExample.this CompileExample.envelope) CompileExample.start = (Ok (Some ExitNormal), s'))
  ∧ rs_io s' = mkTestIO [(("Count", [mkFactKey "id" (HString "total")]), [mkFactValue "n" (VInt 42)])] []
                 [("Counted", [mkKVPair "by" (VString "me!"); mkKVPair "n" (VInt 42)])].
Proof.
  refine (@compiled_policy_correct _ CompileExample.io CompileExample.env CompileExample.m CompileExample.no_bytes CompileExample.no_struct
    CompileExample.print 20 (EntryPolicy CompileExample.add_command CompileExample.this CompileExample.envelope) CompileExample.start _ _ _ _ _ _ _).
  - exact CompileExample.compiled.
  - exact CompileExample.ranges.
  - reflexivity.
  - exact CompileExample.print_contract.
  - by left.
  - reflexivity.
  - eexists. vm_compute. reflexivity.
Defined.

Lemma compiled_calls_are_typed_witness :
  ¬ @accepts _ CompileExample.io CompileExample.m (EntryAction CompileExample.add_action [VString "one"]) CompileExample.start
  ∧ @accepts _ CompileExample.io CompileExample.m (EntryPolicy CompileExample.add_command CompileExample.this CompileExample.envelope) CompileExample.start.
Proof.
  split.
  - intros Ha. apply (@compiled_calls_are_typed _ CompileExample.io CompileExample.env) in Ha.
    + destruct Ha as [Hf _]. inversion_clear Hf. discriminate.
    + exact CompileExample.compiled.
    + exact CompileExample.ranges.
    + by left.
    + vm_compute. lia.
  - apply (@compiled_calls_are_typed _ CompileExample.io CompileExample.env).
    + exact CompileExample.compiled.
    + exact CompileExample.ranges.
    + by left.
    + vm_compute. lia.
    + split_and!; [reflexivity| |reflexivity]. constructor; [|constructor; [|constructor]].
      * exists (mkFieldDefinition "by" TString). split_and!; [right; by left|reflexivity|reflexivity].
      * exists (mkFieldDefinition "n" TInt). split_and!; [by left|reflexivity|reflexivity].
Defined.
