(* ===== verification/Tracer.v ===== *)
(** The tracer of compiled code and the validation of modules
    ([aranya-policy-compiler/src/tracer.rs], [tracer/analyzers.rs] and its
    submodules, [tracer/error.rs], [validate.rs]): every path of the code from a
    label is followed, and analyzers look at its instructions. *)
From stdpp Require Import strings gmap.
From S2P Require Import Prelude Collections PolicyData PolicyModule.
Local Open Scope string_scope.
Local Open Scope list_scope.
Local Open Scope nat_scope.

(** * Errors, failures and analyzers *)
Inductive TraceErrorType : Type :=
| TEBadLabel (l : Label)
| TEBug.
Record TraceError := mkTraceError { te_etype : TraceErrorType; te_instruction_path : list nat }.
Record TraceFailure := mkTraceFailure {
  tf_instruction_path : list nat;
  tf_responsible_instruction : nat;
  tf_message : string
}.
Inductive AnalyzerStatus : Type :=
| AOk
| AFailed (s : string)
| AHalted (s : string).

(** The trait [Analyzer]. *)
Class Analyzer (A : Type) := {
  an_init : ModuleV0 → A → A;
  an_analyze_instruction : nat → Instruction → ModuleV0 → A → outcome TraceError AnalyzerStatus * A;
  an_post_analyze : list TraceFailure → list (list nat) → A → list TraceFailure
}.

(** ** Every path to a normal exit goes through a finish block *)
Record FinishAnalyzer := mkFinishAnalyzer { fin_finish : bool }.
Definition finish_analyzer_new : FinishAnalyzer := mkFinishAnalyzer false.
Definition finish_analyze (i : Instruction) (a : FinishAnalyzer) : outcome TraceError AnalyzerStatus * FinishAnalyzer :=
  match i with
  | IMeta (MetaFinish s) => (Ok AOk, mkFinishAnalyzer s)
  | IExit ExitNormal => (Ok (if fin_finish a then AOk else AFailed "Exit without Finish"), a)
  | _ => (Ok AOk, a)
  end.
(** The loop over one successful path: how many of its first branches are on
    the path of the failure, and the last of them. *)
Fixpoint common_branches (path : list nat) (i len subseq_addr : nat) (sb : list nat) : nat * nat :=
  match sb with
  | [] => (len, subseq_addr)
  | addr :: sb' =>
      if existsb (Nat.eqb addr) path then common_branches path (S i) (S i) addr sb'
      else (len, subseq_addr)
  end.
Definition last_common_branch (path : list nat) (successful_branches : list (list nat)) : option nat :=
  (fold_left (λ '(longest_common_path, last_addr) sb,
     let '(len, subseq_addr) := common_branches path 0 0 0 sb in
     if longest_common_path <? len then (len, Some subseq_addr) else (longest_common_path, last_addr))
   successful_branches (0, None)).2.
Definition finish_post_analyze (failures : list TraceFailure) (successful_branches : list (list nat)) : list TraceFailure :=
  map (λ f, match last_common_branch (tf_instruction_path f) successful_branches with
            | Some la => mkTraceFailure (tf_instruction_path f) la (tf_message f)
            | None => f
            end) failures.

(** ** Every path of a function returns *)
Record FunctionAnalyzer := mkFunctionAnalyzer { fun_have_return : bool }.
Definition function_analyzer_new : FunctionAnalyzer := mkFunctionAnalyzer false.
Definition function_analyze (i : Instruction) (a : FunctionAnalyzer) : outcome TraceError AnalyzerStatus * FunctionAnalyzer :=
  match i with
  | IReturn => (Ok AOk, mkFunctionAnalyzer true)
  | IExit _ => (Ok (if fun_have_return a then AOk else AFailed "no return"), a)
  | _ => (Ok AOk, a)
  end.

(** ** Every value is set once before it is read *)
Record ValueAnalyzer := mkValueAnalyzer { va_globals : gset string; va_value_sets : list (gset string) }.
Definition value_analyzer_new (globals predefined : list string) : ValueAnalyzer :=
  mkValueAnalyzer (list_to_set globals) [list_to_set predefined].
Definition value_contains {E} (name : string) (a : ValueAnalyzer) : outcome E bool :=
  match last (va_value_sets a) with
  | Some current_set => Ok (bool_decide (name ∈ current_set) || bool_decide (name ∈ va_globals a))
  | None => Panic "no current value set"
  end.
(** Whether the name is new, and the analyzer with it. *)
Definition value_insert {E} (name : string) (a : ValueAnalyzer) : outcome E (bool * ValueAnalyzer) :=
  match vec_pop (va_value_sets a) with
  | Some (current_set, rest) =>
      Ok (negb (bool_decide (name ∈ current_set)), mkValueAnalyzer (va_globals a) (rest ++ [{[name]} ∪ current_set]))
  | None => Panic "no current value set"
  end.
Definition value_analyze (i : Instruction) (a : ValueAnalyzer) : outcome TraceError AnalyzerStatus * ValueAnalyzer :=
  match i with
  | ICall _ => (Ok AOk, mkValueAnalyzer (va_globals a) (vec_push ∅ (va_value_sets a)))
  | IReturn => (Ok AOk, match vec_pop (va_value_sets a) with
                        | Some (_, rest) => mkValueAnalyzer (va_globals a) rest
                        | None => a
                        end)
  | IMeta (MetaLet s) =>
      match value_insert s a with
      | Ok (new, a') => (Ok (if new : bool then AOk else AFailed ("Value `" +:+ s +:+ "` is set twice")), a')
      | Err e => (Err e, a)
      | Panic w => (Panic w, a)
      end
  | IMeta (MetaGet s) =>
      (b ← value_contains s a; Ok (if b : bool then AOk else AFailed ("Value `" +:+ s +:+ "` is not set")), a)
  | _ => (Ok AOk, a)
  end.

#[export] Instance finish_analyzer : Analyzer FinishAnalyzer := {|
  an_init _ a := a;
  an_analyze_instruction _ i _ a := finish_analyze i a;
  an_post_analyze failures branches _ := finish_post_analyze failures branches
|}.
#[export] Instance function_analyzer : Analyzer FunctionAnalyzer := {|
  an_init _ a := a;
  an_analyze_instruction _ i _ a := function_analyze i a;
  an_post_analyze failures _ _ := failures
|}.
#[export] Instance value_analyzer : Analyzer ValueAnalyzer := {|
  an_init _ a := a;
  an_analyze_instruction _ i _ a := value_analyze i a;
  an_post_analyze failures _ _ := failures
|}.

(** [Box<dyn Analyzer>]: one of the analyzers. *)
Inductive AnyAnalyzer : Type :=
| AnyFinish (a : FinishAnalyzer)
| AnyFunction (a : FunctionAnalyzer)
| AnyValue (a : ValueAnalyzer).
#[export] Instance any_analyzer : Analyzer AnyAnalyzer := {|
  an_init m a :=
    match a with
    | AnyFinish a => AnyFinish (an_init m a)
    | AnyFunction a => AnyFunction (an_init m a)
    | AnyValue a => AnyValue (an_init m a)
    end;
  an_analyze_instruction pc i m a :=
    match a with
    | AnyFinish a => let '(r, a) := an_analyze_instruction pc i m a in (r, AnyFinish a)
    | AnyFunction a => let '(r, a) := an_analyze_instruction pc i m a in (r, AnyFunction a)
    | AnyValue a => let '(r, a) := an_analyze_instruction pc i m a in (r, AnyValue a)
    end;
  an_post_analyze failures branches a :=
    match a with
    | AnyFinish a => an_post_analyze failures branches a
    | AnyFunction a => an_post_analyze failures branches a
    | AnyValue a => an_post_analyze failures branches a
    end
|}.

(** * The tracer *)
Record TraceAnalyzer (A : Type) := mkTraceAnalyzer {
  ta_call_stack : list nat;
  ta_instruction_path : list nat;
  ta_branches : list nat;
  ta_tracer_enable : list bool;
  ta_analyzers : list A
}.
Arguments mkTraceAnalyzer {A}. Arguments ta_call_stack {A}. Arguments ta_instruction_path {A}.
Arguments ta_branches {A}. Arguments ta_tracer_enable {A}. Arguments ta_analyzers {A}.
Record TraceIntermediate := mkTraceIntermediate {
  ti_failures : list (list TraceFailure);
  ti_successful_branch_paths : list (list nat)
}.

(** [dedup_by]: of neighbours that are the same, the first stays. *)
Fixpoint dedup_after {T} (same : T → T → bool) (x : T) (l : list T) : list T :=
  match l with
  | [] => []
  | y :: l' => if same y x then dedup_after same x l' else y :: dedup_after same y l'
  end.
Definition dedup_by {T} (same : T → T → bool) (l : list T) : list T :=
  match l with [] => [] | x :: l' => x :: dedup_after same x l' end.
(** [sort_by] on the responsible instruction, which is stable. *)
Fixpoint insert_failure (f : TraceFailure) (l : list TraceFailure) : list TraceFailure :=
  match l with
  | [] => [f]
  | g :: l' => if tf_responsible_instruction f <=? tf_responsible_instruction g then f :: l else g :: insert_failure f l'
  end.
Definition sort_failures (l : list TraceFailure) : list TraceFailure := foldr insert_failure [] l.
Definition same_failure (f g : TraceFailure) : bool :=
  bool_decide (tf_message f = tf_message g) && (tf_responsible_instruction f =? tf_responsible_instruction g).

Section Tracer.
Context {A : Type} `{Analyzer A}.
Variable ct : ModuleV0.
Abbreviation Tracer := (TraceAnalyzer A).

(** [TraceAnalyzerBuilder]: the analyzers are added, then the tracer is built. *)
Definition add_analyzer (tracers : list A) (a : A) : list A := vec_push (an_init ct a) tracers.
Definition build (tracers : list A) : Tracer := mkTraceAnalyzer [] [] [] [] tracers.

Definition trace_err (etype : TraceErrorType) (self : Tracer) : TraceError := mkTraceError etype (ta_instruction_path self).
Definition push_path (pc : nat) (self : Tracer) : Tracer :=
  mkTraceAnalyzer (ta_call_stack self) (vec_push pc (ta_instruction_path self)) (ta_branches self) (ta_tracer_enable self) (ta_analyzers self).
Definition push_branch (pc : nat) (self : Tracer) : Tracer :=
  mkTraceAnalyzer (ta_call_stack self) (ta_instruction_path self) (vec_push pc (ta_branches self)) (ta_tracer_enable self) (ta_analyzers self).
Definition set_calls (calls : list nat) (self : Tracer) : Tracer :=
  mkTraceAnalyzer calls (ta_instruction_path self) (ta_branches self) (ta_tracer_enable self) (ta_analyzers self).

(** Every enabled analyzer looks at the instruction; the others say [AOk]. *)
Definition analyze_one (pc : nat) (i : Instruction) (a : A) (enabled : bool) : outcome TraceError AnalyzerStatus * A :=
  if enabled then an_analyze_instruction pc i ct a else (Ok AOk, a).
Definition analyze_instruction (pc : nat) (i : Instruction) (self : Tracer) : list (outcome TraceError AnalyzerStatus) * Tracer :=
  let rs := zip_with (analyze_one pc i) (ta_analyzers self) (ta_tracer_enable self) in
  (map fst rs, mkTraceAnalyzer (ta_call_stack self) (ta_instruction_path self) (ta_branches self) (ta_tracer_enable self)
                 (map snd rs ++ drop (length rs) (ta_analyzers self))).

(** A panic of an analyzer comes before the results are looked at. *)
Fixpoint find_panic (ar : list (outcome TraceError AnalyzerStatus)) : option string :=
  match ar with
  | [] => None
  | Panic w :: _ => Some w
  | _ :: ar' => find_panic ar'
  end.
(** The loop over the results: a failure is added to those of its analyzer, and
    an analyzer that halts is disabled. There is a list of failures and a flag
    for every result. *)
Definition status_failure (pc : nat) (instruction_path : list nat) (s : AnalyzerStatus) : list TraceFailure :=
  match s with
  | AFailed m | AHalted m => [mkTraceFailure instruction_path pc m]
  | AOk => []
  end.
Definition halts (s : AnalyzerStatus) : bool := match s with AHalted _ => true | _ => false end.
Fixpoint record_results (pc index : nat) (ar : list (outcome TraceError AnalyzerStatus)) (self : Tracer) (failures : list (list TraceFailure))
  : outcome TraceError (Tracer * list (list TraceFailure)) :=
  match ar with
  | [] => Ok (self, failures)
  | res :: ar' =>
      astatus ← res;
      let self' :=
        if halts astatus then
          mkTraceAnalyzer (ta_call_stack self) (ta_instruction_path self) (ta_branches self)
            (<[index := false]> (ta_tracer_enable self)) (ta_analyzers self)
        else self in
      record_results pc (S index) ar' self' (alter (λ l, l ++ status_failure pc (ta_instruction_path self) astatus) index failures)
  end.

(** [trace_inner], one turn of its loop per unit of fuel; [None] is a loop that
    has not ended. The recursive call at a branch works on a copy of the tracer;
    the tracer itself is returned with the results. *)
Definition no_failures (self : Tracer) : list (list TraceFailure) := replicate (length (ta_analyzers self)) [].
Fixpoint trace_loop (fuel : nat) (self : Tracer) (pc : nat) (failures : list (list TraceFailure)) (paths : list (list nat))
  : option (outcome TraceError (TraceIntermediate * Tracer)) :=
  match fuel with
  | 0 => None
  | S fuel' =>
      if negb (pc <? length (mo_progmem ct)) then Some (Err (trace_err TEBug self)) else
      let self := push_path pc self in
      match mo_progmem ct !! pc with
      | None => Some (Err (trace_err TEBug self))
      | Some i =>
          let '(ar, self) := analyze_instruction pc i self in
          match match find_panic ar with Some w => Panic w | None => record_results pc 0 ar self failures end with
          | Err e => Some (Err e)
          | Panic w => Some (Panic w)
          | Ok (self, failures) =>
              let bug := Some (Err (trace_err TEBug self)) in
              let next self pc failures paths :=
                match checked_add pc 1 with
                | Some pc => trace_loop fuel' self pc failures paths
                | None => bug
                end in
              let finish := Some (Ok (mkTraceIntermediate failures (vec_push (ta_branches self) paths), self)) in
              match i with
              | IJump t =>
                  match target_resolved t with
                  | Some a => trace_loop fuel' self a failures paths
                  | None => bug
                  end
              | IBranch t =>
                  let self := push_branch pc self in
                  match target_resolved t with
                  | None => bug
                  | Some jump_pc =>
                      match trace_loop fuel' self jump_pc (no_failures self) [] with
                      | Some (Ok (jump, _)) =>
                          next self pc (zip_with app failures (ti_failures jump))
                            (paths ++ (if bool_decide (ti_failures jump = []) then [] else ti_successful_branch_paths jump))
                      | r => r
                      end
                  end
              | ICall t =>
                  match match t with Unresolved l => bt_get l (mo_labels ct) | Resolved a => Some a end with
                  | None => bug
                  | Some next_addr => trace_loop fuel' (set_calls (vec_push pc (ta_call_stack self)) self) next_addr failures paths
                  end
              | IReturn =>
                  match vec_pop (ta_call_stack self) with
                  | None => finish
                  | Some (pc, rest) => next (set_calls rest self) pc failures paths
                  end
              | IExit _ => finish
              | _ => next self pc failures paths
              end
          end
      end
  end.
Definition trace_inner (fuel : nat) (self : Tracer) (entry : nat) : option (outcome TraceError (TraceIntermediate * Tracer)) :=
  trace_loop fuel self entry (no_failures self) [].

Definition enable_all (self : Tracer) : Tracer :=
  mkTraceAnalyzer (ta_call_stack self) (ta_instruction_path self) (ta_branches self) (replicate (length (ta_analyzers self)) true) (ta_analyzers self).
Definition post_analyze (self : Tracer) (failures : list (list TraceFailure)) (paths : list (list nat)) : list (list TraceFailure) :=
  zip_with (λ a fs, an_post_analyze fs paths a) (ta_analyzers self) failures.
Definition trace_pc (fuel : nat) (self : Tracer) (start : nat) : option (outcome TraceError (list TraceFailure)) :=
  match trace_inner fuel (enable_all self) start with
  | Some (Ok (inter, self)) =>
      let paths := dedup_by (λ p q, bool_decide (p = q)) (vec_sort (ti_successful_branch_paths inter)) in
      let failures := concat (post_analyze self (ti_failures inter) paths) in
      Some (Ok (dedup_by same_failure (sort_failures failures)))
  | Some (Err e) => Some (Err e)
  | Some (Panic w) => Some (Panic w)
  | None => None
  end.
Definition trace (fuel : nat) (self : Tracer) (start : Label) : option (outcome TraceError (list TraceFailure)) :=
  match bt_get start (mo_labels ct) with
  | Some pc => trace_pc fuel self pc
  | None => Some (Err (trace_err (TEBadLabel start) self))
  end.
End Tracer.

(** * Validation *)
Section Validate.
Variable m : ModuleV0.

(** The names that are defined when the code of a label starts; [None] is a
    label that is not traced. *)
Definition predefined_names {E} (l : Label) : outcome E (option (list string)) :=
  match l_ltype l with
  | LAction =>
      match bt_get (l_name l) (mo_action_defs m) with
      | Some defs => Ok (Some (map fd_identifier defs))
      | None => Panic "no action"
      end
  | LCommandPolicy | LCommandRecall => Ok (Some ["this"; "envelope"])
  | LCommandSeal => Ok (Some ["this"])
  | LCommandOpen => Ok (Some ["envelope"])
  | LFunction => Ok (Some [])
  | LTemporary => Ok None
  end.
Definition analyzers_for (l : Label) (predefined : list string) : list AnyAnalyzer :=
  let global_names := map fst (mo_globals m) in
  let value := AnyValue (value_analyzer_new global_names predefined) in
  match l_ltype l with
  | LAction | LCommandSeal | LCommandOpen => add_analyzer m [] value
  | LCommandPolicy | LCommandRecall => add_analyzer m (add_analyzer m [] value) (AnyFinish finish_analyzer_new)
  | LFunction => add_analyzer m [] (AnyFunction function_analyzer_new)
  | LTemporary => []
  end.
(** What is printed for a failure; looking up its position can panic. *)
Definition report {E} (f : TraceFailure) : outcome E unit :=
  match mo_codemap m with
  | None => Ok tt
  | Some codemap =>
      match span_from_instruction codemap (tf_responsible_instruction f) with
      | Ok span =>
          _ ← start_linecol span;
          _ ← span_as_str span;
          Ok tt
      | Err _ => Ok tt
      | Panic w => Panic w
      end
  end.
Fixpoint report_all {E} (failures : list TraceFailure) : outcome E unit :=
  match failures with
  | [] => Ok tt
  | f :: failures' => _ ← report f; report_all failures'
  end.
(** The loop over the labels; [failed] is whether there were failures. [None]
    is a trace that has not ended. *)
Fixpoint validate_labels {E} (fuel : nat) (failed : bool) (ls : list (Label * nat)) : option (outcome E bool) :=
  match ls with
  | [] => Some (Ok failed)
  | (l, _) :: ls' =>
      match predefined_names l with
      | Err e => Some (Err e)
      | Panic w => Some (Panic w)
      | Ok None => validate_labels fuel failed ls'
      | Ok (Some predefined) =>
          match trace m fuel (build (analyzers_for l predefined)) l with
          | None => None
          | Some (Ok failures) =>
              match report_all failures with
              | Ok _ => validate_labels fuel (failed || negb (length failures =? 0)) ls'
              | Err e => Some (Err e)
              | Panic w => Some (Panic w)
              end
          | Some (Err _) => Some (Ok false)
          | Some (Panic w) => Some (Panic w)
          end
      end
  end.
End Validate.
Definition validate {E} (fuel : nat) (module : Module_) : option (outcome E bool) :=
  match mo_data module with V0 m => validate_labels m fuel false (mo_labels m) end.
