(* ===== verification/TracerProofs.v ===== *)
(** What the tracer does: it follows every path of the control flow, and the
    failures it collects are exactly those of the analyzers on some path. *)
From S2P Require Import Prelude Collections PolicyData PolicyModule Tracer.
Local Open Scope string_scope.
Local Open Scope list_scope.
Local Open Scope nat_scope.

(** * Control flow *)

(** The address and the call stack. *)
Definition point : Type := nat * list nat.
Definition successors (ct : ModuleV0) (p : point) : list point :=
  match mo_progmem ct !! p.1 with
  | None => []
  | Some (IJump t) => match target_resolved t with Some a => [(a, p.2)] | None => [] end
  | Some (IBranch t) => match target_resolved t with Some a => [(a, p.2); (S p.1, p.2)] | None => [] end
  | Some (ICall t) =>
      match match t with Unresolved l => bt_get l (mo_labels ct) | Resolved a => Some a end with
      | Some a => [(a, p.2 ++ [p.1])]
      | None => []
      end
  | Some IReturn => match vec_pop p.2 with Some (pc, rest) => [(S pc, rest)] | None => [] end
  | Some (IExit _) => []
  | Some _ => [(S p.1, p.2)]
  end.
Definition flow (ct : ModuleV0) (p q : point) : Prop := q ∈ successors ct p.

(** * Analyzers along paths *)
Section Along.
Context {A : Type} `{Analyzer A}.
Variable ct : ModuleV0.

(** An analyzer that has seen the instructions of a path, at the end of it. *)
Definition seen : Type := A * point.
Definition look (x : seen) : outcome TraceError AnalyzerStatus * A :=
  match mo_progmem ct !! x.2.1 with
  | Some i => an_analyze_instruction x.2.1 i ct x.1
  | None => (Ok AOk, x.1)
  end.
Definition follows (x y : seen) : Prop := ∃ st, look x = (Ok st, y.1) ∧ flow ct x.2 y.2.
(** On no path from here does the analyzer report anything. *)
Definition passes (x : seen) : Prop := ∀ y, rtc follows x y → (look y).1 = Ok AOk.

Lemma passes_unfold x : passes x ↔ (look x).1 = Ok AOk ∧ ∀ q, flow ct x.2 q → passes ((look x).2, q).
Proof.
  split.
  - intros Hx. split; [by apply Hx|]. intros q Hq y Hy. apply Hx. eapply rtc_l; [|exact Hy]. exists AOk. split; [|done].
    specialize (Hx x ltac:(done)). by destruct (look x) as [? ?]; simpl in *; subst.
  - intros [Hx Hq] y Hy. destruct Hy as [|x y z (st & Hl & Hf) Hy]; [done|]. specialize (Hq y.2 Hf). rewrite Hl in Hq. destruct y. by apply Hq.
Qed.

(** * One turn of the loop *)

(** A list that has grown, unless [P]. *)
Definition grew {T} (l l' : list T) (P : Prop) : Prop := ∃ r, l' = l ++ r ∧ (r = [] ↔ P).
Lemma grew_refl {T} (l : list T) (P : Prop) : P → grew l l P.
Proof. intros HP. exists []. by rewrite app_nil_r. Qed.
Lemma grew_trans {T} (l1 l2 l3 : list T) P Q : grew l1 l2 P → grew l2 l3 Q → grew l1 l3 (P ∧ Q).
Proof.
  intros (r1 & -> & H1) (r2 & -> & H2). exists (r1 ++ r2). rewrite app_assoc, <- H1, <- H2. split; [done|]. split.
  - by intros [? ?]%app_nil.
  - by intros [-> ->].
Qed.
#[local] Instance grew_proper {T} (l l' : list T) : Proper (iff ==> iff) (grew l l').
Proof. intros P Q HPQ. unfold grew. by setoid_rewrite HPQ. Qed.
Lemma grew_iff {T} (l l' : list T) P Q : (P ↔ Q) → grew l l' P → grew l l' Q.
Proof. by intros ->. Qed.
Lemma grew_app {T} (l r : list T) P : grew [] r P → grew l (l ++ r) P.
Proof. intros (r' & -> & Hr). by exists r'. Qed.

(** There is a flag and a list of failures for every analyzer. *)
Definition sized (self : TraceAnalyzer A) (failures : list (list TraceFailure)) : Prop :=
  length (ta_tracer_enable self) = length (ta_analyzers self) ∧ length failures = length (ta_analyzers self).

Lemma record_results_spec pc ar : ∀ index (self : TraceAnalyzer A) failures self' failures',
  record_results pc index ar self failures = Ok (self', failures') →
  ta_analyzers self' = ta_analyzers self ∧ ta_call_stack self' = ta_call_stack self ∧ length failures' = length failures
  ∧ length (ta_tracer_enable self') = length (ta_tracer_enable self)
  ∧ ∀ k, (k < index → failures' !! k = failures !! k ∧ ta_tracer_enable self' !! k = ta_tracer_enable self !! k)
    ∧ ∀ res, index ≤ k → ar !! (k - index) = Some res →
      ∃ st path, res = Ok st ∧ failures' !! k = (λ l, l ++ status_failure pc path st) <$> failures !! k
        ∧ ta_tracer_enable self' !! k = (λ b, if halts st then false else b) <$> ta_tracer_enable self !! k.
Proof.
  induction ar as [|res ar IH]; intros index self failures self' failures' E; simpl in E.
  { injection E as <- <-. split_and!; try done. }
  destruct res as [st|e|w]; [|done..]. simpl in E. apply IH in E as (Ea & Ec & Lf & Le & Hk). clear IH.
  assert (∀ k, k ≠ index → ta_tracer_enable (if halts st then mkTraceAnalyzer (ta_call_stack self) (ta_instruction_path self) (ta_branches self)
     (<[index:=false]> (ta_tracer_enable self)) (ta_analyzers self) else self) !! k = ta_tracer_enable self !! k) as Hen.
  { intros k Hne. destruct (halts st); [|done]. simpl. by rewrite list_lookup_insert_ne. }
  split_and!.
  - rewrite Ea. by destruct (halts st).
  - rewrite Ec. by destruct (halts st).
  - by rewrite Lf, length_alter.
  - rewrite Le. destruct (halts st); simpl; by rewrite ?length_insert.
  - intros k. destruct (Hk k) as [Hlt Hge]. split.
    + intros Hki. destruct Hlt as [-> ->]; [lia|]. rewrite list_lookup_alter_ne, Hen by lia. done.
    + intros res Hki Hres. destruct (decide (k = index)) as [->|Hne].
      * rewrite Nat.sub_diag in Hres. injection Hres as <-. exists st, (ta_instruction_path self). destruct Hlt as [-> ->]; [lia|].
        rewrite list_lookup_alter_eq. split_and!; [done|done|]. destruct (halts st); simpl; [|by destruct (ta_tracer_enable self !! index)].
        rewrite list_lookup_insert. destruct (ta_tracer_enable self !! index) as [b|] eqn:Eb; simpl.
        -- apply lookup_lt_Some in Eb. by rewrite decide_True.
        -- apply lookup_ge_None in Eb. rewrite decide_False by lia. done.
      * replace (k - index) with (S (k - S index)) in Hres by lia. destruct (Hge res) as (st' & path & -> & -> & ->); [lia|done|].
        exists st', path. rewrite list_lookup_alter_ne, Hen by done. done.
Qed.

Lemma turn_spec pc i self failures ar self0 self1 failures1 :
  sized self failures → analyze_instruction ct pc i self = (ar, self0) → record_results pc 0 ar self0 failures = Ok (self1, failures1) →
  sized self1 failures1 ∧ ta_call_stack self1 = ta_call_stack self
  ∧ ∀ k a (e : bool) l, ta_analyzers self !! k = Some a → ta_tracer_enable self !! k = Some e → failures !! k = Some l →
    ∃ st a' l', (if e then an_analyze_instruction pc i ct a = (Ok st, a') else st = AOk)
      ∧ ta_analyzers self1 !! k = Some a' ∧ ta_tracer_enable self1 !! k = Some (if halts st then false else e)
      ∧ failures1 !! k = Some l' ∧ grew l l' (st = AOk).
Proof.
  intros [Le Lf] E Er. injection E as <- <-. set (rs := zip_with (analyze_one ct pc i) (ta_analyzers self) (ta_tracer_enable self)) in *.
  assert (length rs = length (ta_analyzers self)) as Lr by (unfold rs; rewrite length_zip_with; lia).
  apply record_results_spec in Er as (Ea & Ec & Lf1 & Le1 & Hk). simpl in *. rewrite drop_ge, app_nil_r in Ea by lia.
  split; [|split; [done|]].
  - split; rewrite Ea, length_map; congruence.
  - intros k a e l Ha He Hl. assert (rs !! k = Some (analyze_one ct pc i a e)) as Hr by (apply lookup_zip_with_Some; eauto).
    destruct (Hk k) as [_ Hk']. destruct (Hk' (analyze_one ct pc i a e).1) as (st & path & Est & Hf & Hen); [lia| |].
    { rewrite Nat.sub_0_r, list_lookup_fmap, Hr. done. }
    exists st, (analyze_one ct pc i a e).2, (l ++ status_failure pc path st). rewrite Hf, Hen, Hl, He, Ea, list_lookup_fmap, Hr. unfold analyze_one in *.
    split_and!; [|done..|].
    + destruct e; [|simpl in Est; congruence]. by destruct (an_analyze_instruction _ _ _ _); simpl in *; subst.
    + eexists. split; [done|]. by destruct st.
Qed.

(** * The whole loop *)

(** The failures of every enabled analyzer grow exactly if [P] fails for it. *)
Definition collects (self : TraceAnalyzer A) (failures results : list (list TraceFailure)) (P : A → Prop) : Prop :=
  length results = length (ta_analyzers self)
  ∧ ∀ k a (e : bool) l, ta_analyzers self !! k = Some a → ta_tracer_enable self !! k = Some e → failures !! k = Some l →
    ∃ l', results !! k = Some l' ∧ if e then grew l l' (P a) else l' = l.

(** What follows a turn, put after it. *)
Lemma collects_turn pc i self failures ar self0 self1 failures1 results (P : A → Prop) :
  mo_progmem ct !! pc = Some i → sized self failures →
  analyze_instruction ct pc i self = (ar, self0) → record_results pc 0 ar self0 failures = Ok (self1, failures1) →
  (∀ a, P a ↔ ∀ q, flow ct (pc, ta_call_stack self) q → passes (a, q)) →
  collects self1 failures1 results P → collects self failures results (λ a, passes (a, (pc, ta_call_stack self))).
Proof.
  intros Hi Hsz Ea Er HP [Hlen Hk]. destruct (turn_spec _ _ _ _ _ _ _ _ Hsz Ea Er) as ([Le1 Lf1] & Ec & Ht).
  assert (length (ta_analyzers self1) = length (ta_analyzers self)) as Hl.
  { injection Ea as <- <-. apply record_results_spec in Er as (-> & _). simpl. destruct Hsz. rewrite length_app, length_drop, !length_map, length_zip_with. lia. }
  split; [congruence|]. intros k a e l Ha He Hfl. destruct (Ht k a e l Ha He Hfl) as (st & a' & l1 & Han & Ha1 & He1 & Hl1 & Hg).
  destruct (Hk k a' _ l1 Ha1 He1 Hl1) as (l2 & Hl2 & Hg2). exists l2. split; [done|]. destruct e.
  - assert (look (a, (pc, ta_call_stack self)) = (Ok st, a')) as Hlook by (unfold look; simpl; by rewrite Hi).
    rewrite passes_unfold, Hlook. simpl. rewrite <- HP. destruct st; simpl in Hg2.
    + eapply grew_iff; [|by eapply grew_trans]. naive_solver.
    + eapply grew_iff; [|by eapply grew_trans]. naive_solver.
    + subst l2. eapply grew_iff; [|exact Hg]. naive_solver.
  - subst st. simpl in Hg2. subst l2. destruct Hg as (r & -> & Hr). rewrite (proj2 Hr eq_refl). by rewrite app_nil_r.
Qed.
(** Nothing follows. *)
Lemma collects_nothing self failures (P : A → Prop) : sized self failures → (∀ a, P a) → collects self failures failures P.
Proof.
  intros [Le Lf] HP. split; [done|]. intros k a e l _ _ Hl. exists l. split; [done|]. destruct e; [|done]. by apply grew_refl.
Qed.
(** A branch: first what comes from the target, then what follows. *)
Lemma collects_branch self failures jump results (P Q : A → Prop) : sized self failures →
  collects self (replicate (length (ta_analyzers self)) []) jump P → collects self (zip_with app failures jump) results Q →
  collects self failures results (λ a, P a ∧ Q a).
Proof.
  intros [Le Lf] [Lj Hj] [Lr Hr]. split; [done|]. intros k a e l Ha He Hl.
  destruct (Hj k a e [] Ha He) as (lj & Hlj & Hgj); [apply lookup_replicate; split; [done|by eapply lookup_lt_Some]|].
  destruct (Hr k a e (l ++ lj) Ha He) as (lr & Hlr & Hgr); [apply lookup_zip_with_Some; eauto|]. exists lr. split; [done|]. destruct e.
  - eapply grew_trans; [by apply grew_app|done].
  - subst lj lr. by rewrite app_nil_r.
Qed.
Lemma collects_iff self failures results (P Q : A → Prop) : (∀ a, P a ↔ Q a) → collects self failures results P → collects self failures results Q.
Proof.
  intros HPQ [Hl Hk]. split; [done|]. intros k a e l Ha He Hf. destruct (Hk k a e l Ha He Hf) as (l' & ? & Hg). exists l'. split; [done|].
  destruct e; [|done]. eapply grew_iff; [apply HPQ|done].
Qed.

Lemma sized_turn pc i self failures ar self0 self1 failures1 : sized self failures →
  analyze_instruction ct pc i self = (ar, self0) → record_results pc 0 ar self0 failures = Ok (self1, failures1) →
  sized self1 failures1 ∧ ta_call_stack self1 = ta_call_stack self.
Proof. intros Hsz Ea Er. destruct (turn_spec _ _ _ _ _ _ _ _ Hsz Ea Er) as (? & ? & _). done. Qed.
Lemma checked_succ n m : checked_add n 1 = Some m → m = S n.
Proof. intros [-> _]%checked_add_Some. lia. Qed.

(** The turn of the loop at an address, and how the loop goes on after it. *)
Definition turned (pc : nat) (self : TraceAnalyzer A) (failures : list (list TraceFailure)) (self1 : TraceAnalyzer A) (failures1 : list (list TraceFailure)) : Prop :=
  ∃ i ar self0, mo_progmem ct !! pc = Some i ∧ analyze_instruction ct pc i (push_path pc self) = (ar, self0)
    ∧ record_results pc 0 ar self0 failures = Ok (self1, failures1).
Abbreviation result := (option (outcome TraceError (TraceIntermediate * TraceAnalyzer A))).
Definition failed (r : result) : Prop := match r with Some (Err _) | Some (Panic _) => True | _ => False end.
Inductive turns (fuel : nat) (self : TraceAnalyzer A) (pc : nat) (failures : list (list TraceFailure)) (paths : list (list nat)) : result → Prop :=
| turns_failed r : failed r → turns fuel self pc failures paths r
| turns_end self1 failures1 paths1 : turned pc self failures self1 failures1 → successors ct (pc, ta_call_stack self) = [] →
    turns fuel self pc failures paths (Some (Ok (mkTraceIntermediate failures1 paths1, self1)))
| turns_go self1 failures1 q calls : turned pc self failures self1 failures1 → successors ct (pc, ta_call_stack self) = [(q, calls)] →
    turns fuel self pc failures paths (trace_loop ct fuel (set_calls calls self1) q failures1 paths)
| turns_both self1 failures1 a jump selfj paths1 : turned pc self failures self1 failures1 →
    successors ct (pc, ta_call_stack self) = [(a, ta_call_stack self); (S pc, ta_call_stack self)] →
    trace_loop ct fuel (push_branch pc self1) a (no_failures self1) [] = Some (Ok (jump, selfj)) →
    turns fuel self pc failures paths (trace_loop ct fuel (push_branch pc self1) (S pc) (zip_with app failures1 (ti_failures jump)) paths1)
| turns_target self1 failures1 a : turned pc self failures self1 failures1 →
    successors ct (pc, ta_call_stack self) = [(a, ta_call_stack self); (S pc, ta_call_stack self)] →
    (∀ x, trace_loop ct fuel (push_branch pc self1) a (no_failures self1) [] ≠ Some (Ok x)) →
    turns fuel self pc failures paths (trace_loop ct fuel (push_branch pc self1) a (no_failures self1) []).
#[local] Hint Constructors turns : core.

Lemma turned_calls pc self failures self1 failures1 : turned pc self failures self1 failures1 → ta_call_stack self1 = ta_call_stack self.
Proof. intros (i & ar & self0 & _ & Ea & Er). injection Ea as <- <-. by apply record_results_spec in Er as (_ & -> & _). Qed.
Lemma trace_loop_turns fuel self pc failures paths : turns fuel self pc failures paths (trace_loop ct (S fuel) self pc failures paths).
Proof.
  cbn [trace_loop]. destruct (Nat.ltb_spec pc (length (mo_progmem ct))) as [Hpc|]; cbn [negb]; [|by apply turns_failed].
  destruct (mo_progmem ct !! pc) as [i|] eqn:Hi; [|by apply turns_failed].
  destruct (analyze_instruction ct pc i (push_path pc self)) as [ar self0] eqn:Ea. destruct (find_panic ar); [by apply turns_failed|].
  destruct (record_results pc 0 ar self0 failures) as [[self1 failures1]|e|w] eqn:Er; [|by apply turns_failed..].
  assert (turned pc self failures self1 failures1) as Ht by by exists i, ar, self0. pose proof (turned_calls _ _ _ _ _ Ht) as Ec.
  assert (set_calls (ta_call_stack self) self1 = self1) as Hcalls by (rewrite <- Ec; by destruct self1).
  assert (∀ q, successors ct (pc, ta_call_stack self) = [(q, ta_call_stack self)] → turns fuel self pc failures paths (trace_loop ct fuel self1 q failures1 paths)) as Hgo.
  { intros q Hq. rewrite <- Hcalls at 1. by eapply turns_go. }
  pose proof (turns_end fuel self pc failures paths self1 failures1) as Hend. specialize (Hend) with (1 := Ht).
  pose proof (turns_go fuel self pc failures paths self1 failures1) as Hcall. specialize (Hcall) with (1 := Ht).
  pose proof (turns_both fuel self pc failures paths self1 failures1) as Hboth. specialize (Hboth) with (1 := Ht).
  pose proof (turns_target fuel self pc failures paths self1 failures1) as Htarget. specialize (Htarget) with (1 := Ht).
  unfold successors in *. cbn [fst snd] in *. rewrite Hi in *.
  destruct i; try (destruct (checked_add pc 1) as [pc1|] eqn:Ep; [apply checked_succ in Ep as ->; by apply Hgo|by apply turns_failed]).
  - destruct (target_resolved t) as [a|]; [by apply Hgo|by apply turns_failed].
  - destruct (target_resolved t) as [a|]; [|by apply turns_failed].
    destruct (trace_loop ct fuel (push_branch pc self1) a (no_failures (push_branch pc self1)) []) as [[[jump selfj]|e|w]|] eqn:Ej.
    + destruct (checked_add pc 1) as [pc1|] eqn:Ep; [|by apply turns_failed]. apply checked_succ in Ep as ->. by eapply Hboth.
    + by apply turns_failed.
    + by apply turns_failed.
    + rewrite <- Ej. apply Htarget; [done|]. change (no_failures self1) with (no_failures (push_branch pc self1)). by rewrite Ej.
  - destruct (match t with Unresolved l => _ | _ => _ end) as [a|]; [|by apply turns_failed]. rewrite Ec. by apply Hcall.
  - rewrite Ec. destruct (vec_pop (ta_call_stack self)) as [[r rest]|]; [|by apply Hend].
    destruct (checked_add r 1) as [pc1|] eqn:Ep; [|by apply turns_failed]. apply checked_succ in Ep as ->. by apply Hcall.
  - by apply Hend.
Qed.

Lemma turned_sized pc self failures self1 failures1 : turned pc self failures self1 failures1 → sized self failures → sized self1 failures1.
Proof. intros (i & ar & self0 & _ & Ea & Er) Hsz. by eapply (sized_turn pc i (push_path pc self)) in Er as [? _]. Qed.
Lemma turned_collects pc self failures self1 failures1 results (P : A → Prop) : turned pc self failures self1 failures1 → sized self failures →
  (∀ a, P a ↔ ∀ q, q ∈ successors ct (pc, ta_call_stack self) → passes (a, q)) →
  collects self1 failures1 results P → collects self failures results (λ a, passes (a, (pc, ta_call_stack self))).
Proof. intros (i & ar & self0 & Hi & Ea & Er) Hsz HP. exact (collects_turn pc i (push_path pc self) _ _ _ _ _ _ P Hi Hsz Ea Er HP). Qed.

Lemma trace_loop_collects fuel : ∀ self pc failures paths inter self', sized self failures →
  trace_loop ct fuel self pc failures paths = Some (Ok (inter, self')) →
  collects self failures (ti_failures inter) (λ a, passes (a, (pc, ta_call_stack self))).
Proof.
  induction fuel as [|fuel IH]; intros self pc failures paths inter self' Hsz E; [done|].
  pose proof (trace_loop_turns fuel self pc failures paths) as Ht. rewrite E in Ht.
  inversion Ht as [r Hr|self1 failures1 paths1 Hturn Hs|self1 failures1 q calls Hturn Hs Er|self1 failures1 a jump selfj paths1 Hturn Hs Ej Er|self1 failures1 a Hturn Hs Hn Er];
    subst; [done|..|by destruct (Hn (inter, self'))]; pose proof (turned_sized _ _ _ _ _ Hturn Hsz) as Hsz1.
  - eapply turned_collects; [done..| |by apply (collects_nothing _ _ (λ _, True))]. rewrite Hs. set_solver.
  - apply IH in Er; [|done]. eapply turned_collects; [done..| |exact Er]. rewrite Hs. intros x. setoid_rewrite list_elem_of_singleton. naive_solver.
  - apply IH in Ej; [|destruct Hsz1; split; [done|apply length_replicate]].
    apply IH in Er; [|destruct Hsz1, Ej; split; [done|]; rewrite length_zip_with; simpl in *; lia].
    eapply turned_collects; [done..| |exact (collects_branch self1 _ _ _ _ _ Hsz1 Ej Er)]. intros x. simpl. rewrite (turned_calls _ _ _ _ _ Hturn), Hs.
    setoid_rewrite elem_of_cons. setoid_rewrite list_elem_of_singleton. naive_solver.
Qed.

(** * Ends of traces *)
Lemma trace_loop_analyzers fuel : ∀ self pc failures paths inter self', sized self failures →
  trace_loop ct fuel self pc failures paths = Some (Ok (inter, self')) → length (ta_analyzers self') = length (ta_analyzers self).
Proof.
  induction fuel as [|fuel IH]; intros self pc failures paths inter self' Hsz E; [done|].
  pose proof (trace_loop_turns fuel self pc failures paths) as Ht. rewrite E in Ht.
  assert (∀ self1 failures1, turned pc self failures self1 failures1 → length (ta_analyzers self1) = length (ta_analyzers self)) as Hlen.
  { intros self1 failures1 (i & ar & self0 & _ & Ea & Er). injection Ea as <- <-. apply record_results_spec in Er as (-> & _). simpl. destruct Hsz.
    rewrite length_app, length_drop, !length_map, length_zip_with. lia. }
  inversion Ht as [r Hr|self1 failures1 paths1 Hturn Hs|self1 failures1 q calls Hturn Hs Er|self1 failures1 a jump selfj paths1 Hturn Hs Ej Er|self1 failures1 a Hturn Hs Hn Er];
    subst; [done|..|by destruct (Hn (inter, self'))]; pose proof (turned_sized _ _ _ _ _ Hturn Hsz) as Hsz1; rewrite <- (Hlen _ _ Hturn); [done|..].
  - by apply IH in Er.
  - apply trace_loop_collects in Ej as [Lj _]; [|destruct Hsz1; split; [done|apply length_replicate]].
    apply IH in Er; [done|]. destruct Hsz1. split; [done|]. rewrite length_zip_with. simpl in *. lia.
Qed.

(** A trace that has not ended is on a path of as many steps as its fuel, and
    one that has ended with a result has followed all paths to their ends. *)
Lemma trace_loop_None fuel : ∀ self pc failures paths,
  trace_loop ct fuel self pc failures paths = None → ∃ q, nsteps (flow ct) fuel (pc, ta_call_stack self) q.
Proof.
  induction fuel as [|fuel IH]; intros self pc failures paths E; [eexists; constructor|].
  pose proof (trace_loop_turns fuel self pc failures paths) as Ht. rewrite E in Ht.
  inversion Ht as [r Hr|self1 failures1 paths1 Hturn Hs|self1 failures1 q calls Hturn Hs Er|self1 failures1 a jump selfj paths1 Hturn Hs Ej Er|self1 failures1 a Hturn Hs Hn Er];
    subst; [done|..]; try (apply IH in Er as [q' Hq]; exists q'; eapply nsteps_l; [|exact Hq]; unfold flow; rewrite Hs; simpl;
      rewrite ?(turned_calls _ _ _ _ _ Hturn); set_solver).
Qed.
Lemma trace_loop_Ok fuel : ∀ self pc failures paths x,
  trace_loop ct fuel self pc failures paths = Some (Ok x) → ∀ n q, nsteps (flow ct) n (pc, ta_call_stack self) q → n < fuel.
Proof.
  induction fuel as [|fuel IH]; intros self pc failures paths x E n q Hn; [done|]. destruct n as [|n]; [lia|].
  inversion Hn as [|? ? q1 ? Hq1 Hn1]; subst. unfold flow in Hq1.
  pose proof (trace_loop_turns fuel self pc failures paths) as Ht. rewrite E in Ht.
  inversion Ht as [r Hr|self1 failures1 paths1 Hturn Hs|self1 failures1 q2 calls Hturn Hs Er|self1 failures1 a jump selfj paths1 Hturn Hs Ej Er|self1 failures1 a Hturn Hs Hno Er];
    subst; [done|..|by destruct (Hno x)]; rewrite Hs in Hq1.
  - by apply not_elem_of_nil in Hq1.
  - apply list_elem_of_singleton in Hq1 as ->. apply (IH _ _ _ _ _ Er) in Hn1. lia.
  - rewrite <- (turned_calls _ _ _ _ _ Hturn) in Hq1. apply elem_of_cons in Hq1 as [->|Hq1%list_elem_of_singleton].
    + apply (IH _ _ _ _ _ Ej) in Hn1. lia.
    + subst q1. apply (IH _ _ _ _ _ Er) in Hn1. lia.
Qed.
End Along.

(** * What analyzers promise *)

(** An analyzer that is ready for the call stack of a point looks at the
    instruction there without an error, and is ready for what follows; its
    post-analysis keeps failures. *)
Class AnalyzerLaws (A : Type) `{Analyzer A} := {
  an_ready : list nat → A → Prop;
  an_total ct pc i cs a : mo_progmem ct !! pc = Some i → an_ready cs a →
    ∃ st a', an_analyze_instruction pc i ct a = (Ok st, a') ∧ ∀ q, flow ct (pc, cs) q → an_ready q.2 a';
  an_post_nil fs paths a : an_post_analyze fs paths a = [] ↔ fs = []
}.

#[export, refine] Instance finish_analyzer_laws : AnalyzerLaws FinishAnalyzer := {| an_ready _ _ := True |}.
Proof.
  - intros ct pc i cs a _ _. simpl. unfold finish_analyze. repeat case_match; by do 2 eexists.
  - intros fs paths a. simpl. unfold finish_post_analyze. by destruct fs.
Defined.
#[export, refine] Instance function_analyzer_laws : AnalyzerLaws FunctionAnalyzer := {| an_ready _ _ := True |}.
Proof.
  - intros ct pc i cs a _ _. simpl. unfold function_analyze. destruct i; by do 2 eexists.
  - done.
Defined.
#[export, refine] Instance value_analyzer_laws : AnalyzerLaws ValueAnalyzer := {| an_ready cs a := length (va_value_sets a) = S (length cs) |}.
Proof.
  - intros ct pc i cs a Hi Hl. unfold flow, successors. simpl. rewrite Hi.
    assert (∃ rest x, va_value_sets a = rest ++ [x] ∧ length rest = length cs) as (rest & x & Hx & Hr).
    { destruct (va_value_sets a) as [|x rest _] using rev_ind; [done|]. exists rest, x. rewrite length_app in Hl. simpl in Hl. split; [done|lia]. }
    destruct i; try (do 2 eexists; split; [done|]; intros q ->%list_elem_of_singleton; done).
    + do 2 eexists. split; [done|]. intros q. destruct (target_resolved t); [intros ->%list_elem_of_singleton; done|by intros ?%not_elem_of_nil].
    + do 2 eexists. split; [done|]. intros q. destruct (target_resolved t); [|by intros ?%not_elem_of_nil].
      intros [->|Hq%list_elem_of_singleton]%elem_of_cons; [done|by subst q].
    + do 2 eexists. split; [done|]. intros q. destruct (match t with Unresolved l => _ | _ => _ end); [|by intros ?%not_elem_of_nil].
      intros ->%list_elem_of_singleton. simpl. unfold vec_push. rewrite !length_app. simpl. lia.
    + do 2 eexists. split; [done|]. intros q. destruct cs as [|r cs' _] using rev_ind; [by intros ?%not_elem_of_nil|]. rewrite vec_pop_snoc.
      intros ->%list_elem_of_singleton. rewrite Hx, vec_pop_snoc. simpl. rewrite Hr, length_app. simpl. lia.
    + do 2 eexists. split; [done|]. by intros q ?%not_elem_of_nil.
    + destruct m as [x'|x'| |]; simpl; unfold value_insert, value_contains.
      * rewrite Hx, vec_pop_snoc. do 2 eexists. split; [done|]. intros q ->%list_elem_of_singleton. simpl. rewrite length_app, Hr. simpl. lia.
      * rewrite Hx, last_snoc. do 2 eexists. split; [done|]. by intros q ->%list_elem_of_singleton.
      * do 2 eexists. split; [done|]. by intros q ->%list_elem_of_singleton.
      * do 2 eexists. split; [done|]. by intros q ->%list_elem_of_singleton.
  - done.
Defined.
#[export, refine] Instance any_analyzer_laws : AnalyzerLaws AnyAnalyzer := {|
  an_ready cs a := match a with AnyFinish a => an_ready cs a | AnyFunction a => an_ready cs a | AnyValue a => an_ready cs a end
|}.
Proof.
  - intros ct pc i cs [a|a|a] Hi Ha; destruct (an_total ct pc i cs a Hi Ha) as (st & a' & E & Hq); cbn [an_analyze_instruction any_analyzer];
      setoid_rewrite E; do 2 eexists; (split; [done|]); exact Hq.
  - intros fs paths [a|a|a]; apply (an_post_nil fs paths a).
Defined.

(** * Whole traces *)
Lemma dedup_by_nil {T} same (l : list T) : dedup_by same l = [] ↔ l = [].
Proof. by destruct l. Qed.
Lemma sort_failures_nil l : sort_failures l = [] ↔ l = [].
Proof. destruct l as [|f l]; [done|]. simpl. split; [|done]. destruct (sort_failures l); simpl; [done|]. by case_match. Qed.
Lemma concat_nil_iff {T} (l : list (list T)) : concat l = [] ↔ ∀ k x, l !! k = Some x → x = [].
Proof.
  rewrite concat_nil_Forall, Forall_lookup. done.
Qed.

Section Traces.
Context {A : Type} `{AnalyzerLaws A}.
Variable ct : ModuleV0.
Abbreviation passes := (passes (A := A) ct).

Lemma enable_all_sized (self : TraceAnalyzer A) : sized (enable_all self) (no_failures (enable_all self)).
Proof. unfold no_failures. split; simpl; apply length_replicate. Qed.
(** The failures of a trace are empty exactly if every analyzer passes. *)
Lemma trace_pc_passes fuel tracers start failures :
  trace_pc ct fuel (build tracers) start = Some (Ok failures) → failures = [] ↔ ∀ a, a ∈ tracers → passes (a, (start, [])).
Proof.
  unfold trace_pc, trace_inner. set (self := enable_all (build tracers)).
  destruct (trace_loop ct fuel self start _ []) as [[[inter self']|e|w]|] eqn:E; [|done..]. intros [= <-].
  pose proof (trace_loop_analyzers ct _ _ _ _ _ _ _ (enable_all_sized _) E) as Hlen. destruct (trace_loop_collects ct _ _ _ _ _ _ _ (enable_all_sized _) E) as [Lr Hk].
  rewrite dedup_by_nil, sort_failures_nil, concat_nil_iff. unfold post_analyze. simpl in *. split.
  - intros Hnil a (k & Ha)%list_elem_of_lookup. destruct (Hk k a true [] Ha) as (l & Hl & r & -> & Hr);
      [apply lookup_replicate; split; [done|by eapply lookup_lt_Some]..|]. apply Hr.
    destruct (lookup_lt_is_Some_2 (ta_analyzers self') k) as [a' Ha']; [rewrite Hlen; by eapply lookup_lt_Some|].
    apply (an_post_nil r (dedup_by (λ p q, bool_decide (p = q)) (vec_sort (ti_successful_branch_paths inter))) a').
    apply (Hnil k). apply lookup_zip_with_Some. by exists a', r.
  - intros Hp k x (a' & l & -> & Ha' & Hl)%lookup_zip_with_Some. apply an_post_nil.
    destruct (lookup_lt_is_Some_2 tracers k) as [a Ha]; [rewrite <- Hlen; by eapply lookup_lt_Some|].
    destruct (Hk k a true [] Ha) as (l' & Hl' & r & -> & Hr); [apply lookup_replicate; split; [done|by eapply lookup_lt_Some]..|].
    simpl in Hl'. simplify_eq. apply Hr, Hp. by eapply list_elem_of_lookup_2.
Qed.
End Traces.
