(* ===== verification/TracerTheorems.v ===== *)
(** What validation with the tracer guarantees of compiled policies. *)
From S2P Require Import Prelude Collections PolicyData PolicyModule VmScope Vm VmInvariant VmCalls VmSafety VmTestIO.
From S2P Require Import VmTheorems VmEntry Ast CompileTypes Compile CompileProofs CompiledCode CompileTheorems Tracer.
From S2P Require Import TracerProofs.
Local Open Scope string_scope.
Local Open Scope list_scope.
Local Open Scope nat_scope.

(** The module that a policy compiles to, and the machine that runs it. *)
Definition compiles_module (env : CompileEnv) (ct : ModuleV0) : Prop := compile env = Ok (mkModule (V0 ct)).
Definition machine_of (ct : ModuleV0) : Machine :=
  mkMachine (mo_progmem ct) (mo_labels ct) (mo_action_defs ct) (mo_command_defs ct) (mo_fact_defs ct) (mo_struct_defs ct)
    (mo_command_attributes ct) (mo_codemap ct) (mo_globals ct).
Lemma compiles_module_to env ct : compiles_module env ct → compiles_to env (machine_of ct).
Proof. intros Hc. eexists. split; [exact Hc|done]. Qed.

(** * Points of closed code *)
Section Closed.
Context {A : Type} `{AnalyzerLaws A}.
Variable ct : ModuleV0.
Hypothesis Hm : code_closed (machine_of ct).
Definition on_code (p : point) : Prop :=
  p.1 < length (mo_progmem ct) ∧ Forall (λ a, S a < length (mo_progmem ct)) p.2.

Lemma flow_on_code p q : on_code p → flow ct p q → on_code q.
Proof.
  destruct p as [pc cs]. intros [Hpc Hcs] Hq. unfold flow, successors in Hq. simpl in *.
  destruct (mo_progmem ct !! pc) as [i|] eqn:Hi; [|by apply not_elem_of_nil in Hq].
  destruct (cc_instr _ Hm _ _ Hi) as [_ Ht]. unfold resolved_below in Ht. simpl in Ht.
  assert (terminal i = false → S pc < length (mo_progmem ct)) as Hnext by by apply (not_last (machine_of ct) Hm pc i).
  destruct i; simpl in *; try (apply list_elem_of_singleton in Hq as ->; split; [by apply Hnext|done]).
  - destruct t; [done|]. apply list_elem_of_singleton in Hq as ->. by split.
  - destruct t; [done|]. apply elem_of_cons in Hq as [->|Hq%list_elem_of_singleton]; [by split|]. subst q. split; [by apply Hnext|done].
  - destruct t; [done|]. apply list_elem_of_singleton in Hq as ->. split; [done|]. apply Forall_app. split; [done|]. apply Forall_singleton. by apply Hnext.
  - destruct cs as [|r cs' _] using rev_ind; [by apply not_elem_of_nil in Hq|]. rewrite vec_pop_snoc in Hq. apply list_elem_of_singleton in Hq as ->.
    apply Forall_app in Hcs as [? Hr]. split; [exact (Forall_inv Hr)|done].
  - by apply not_elem_of_nil in Hq.
Qed.

(** The enabled analyzers are ready. *)
Definition ready (self : TraceAnalyzer A) (cs : list nat) : Prop :=
  ∀ k a, ta_analyzers self !! k = Some a → ta_tracer_enable self !! k = Some true → an_ready cs a.
Lemma record_results_total pc ar : ∀ index (self : TraceAnalyzer A) failures, Forall (λ r, ∃ st, r = Ok st) ar →
  ∃ x, record_results pc index ar self failures = Ok x.
Proof.
  induction ar as [|r ar IH]; intros index self failures Har; [by eexists|]. apply Forall_cons in Har as [(st & ->) Har]. simpl. by apply IH.
Qed.
Lemma find_panic_total ar : Forall (λ r : outcome TraceError AnalyzerStatus, ∃ st, r = Ok st) ar → find_panic ar = None.
Proof. induction 1 as [|r ar (st & ->) _ IH]; [done|exact IH]. Qed.
Lemma analyze_total pc i (self : TraceAnalyzer A) ar self0 : mo_progmem ct !! pc = Some i → ready self (ta_call_stack self) →
  analyze_instruction ct pc i self = (ar, self0) → Forall (λ r, ∃ st, r = Ok st) ar.
Proof.
  intros Hi Hr [= <- <-]. apply Forall_forall. intros r (p & -> & (k & Hp)%list_elem_of_lookup)%list_elem_of_fmap.
  apply lookup_zip_with_Some in Hp as (a & e & -> & Ha & He). unfold analyze_one. destruct e; [|by eexists].
  destruct (an_total ct pc i _ a Hi (Hr k a Ha He)) as (st & a' & E & _). rewrite E. by exists st.
Qed.
(** One turn succeeds, and the analyzers are ready for what follows. *)
Lemma turn_total pc i (self : TraceAnalyzer A) failures : mo_progmem ct !! pc = Some i → sized self failures → ready self (ta_call_stack self) →
  let '(ar, self0) := analyze_instruction ct pc i (push_path pc self) in
  find_panic ar = None ∧ ∃ self1 failures1, record_results pc 0 ar self0 failures = Ok (self1, failures1)
    ∧ sized self1 failures1 ∧ ta_call_stack self1 = ta_call_stack self ∧ ∀ q, flow ct (pc, ta_call_stack self) q → ready self1 q.2.
Proof.
  intros Hi Hsz Hr. destruct (analyze_instruction ct pc i (push_path pc self)) as [ar self0] eqn:Ea.
  pose proof (analyze_total _ _ (push_path pc self) _ _ Hi Hr Ea) as Har. split; [by apply find_panic_total|].
  destruct (record_results_total pc ar 0 self0 failures Har) as [[self1 failures1] Er]. exists self1, failures1. split; [done|].
  destruct (turn_spec ct pc i (push_path pc self) failures ar self0 self1 failures1 Hsz Ea Er) as (Hsz1 & Ec & Ht). split; [done|]. split; [done|].
  intros q Hq k a' Ha' He'.
  assert (ta_analyzers self1 = ta_analyzers self0) as Hsame by by apply record_results_spec in Er as (-> & _).
  assert (k < length (ta_analyzers self)) as Hk.
  { apply lookup_lt_Some in Ha'. rewrite Hsame in Ha'. injection Ea as <- <-. simpl in Ha'. destruct Hsz. rewrite length_app, length_drop, !length_map, length_zip_with in Ha'. lia. }
  destruct Hsz as [Le Lf]. destruct (lookup_lt_is_Some_2 _ _ Hk) as [a Ha]. destruct (lookup_lt_is_Some_2 (ta_tracer_enable self) k) as [e He]; [lia|].
  destruct (lookup_lt_is_Some_2 failures k) as [l Hl]; [lia|]. destruct (Ht k a e l Ha He Hl) as (st & a2 & l' & Han & Ha2 & He2 & _).
  simplify_eq. destruct (halts st); [done|]. simplify_eq. destruct (an_total ct pc i _ a Hi (Hr k a Ha He)) as (st' & a3 & E & Hq'). rewrite E in Han. simplify_eq. by apply Hq'.
Qed.

Lemma trace_loop_total fuel : ∀ (self : TraceAnalyzer A) pc failures paths, on_code (pc, ta_call_stack self) → sized self failures →
  ready self (ta_call_stack self) → ¬ failed (trace_loop ct fuel self pc failures paths).
Proof.
  assert (∀ n, n < length (mo_progmem ct) → checked_add n 1 = Some (S n)) as Hadd.
  { intros n Hn. apply checked_add_Some. pose proof (cc_range _ Hm) as Hr. simpl in Hr. split; lia. }
  induction fuel as [|fuel IH]; intros self pc failures paths Hp Hsz Hr; [by intros []|]. cbn [trace_loop]. pose proof Hp as [Hpc Hcs]. simpl in Hpc.
  rewrite (proj2 (Nat.ltb_lt _ _) Hpc). cbn [negb]. destruct (lookup_lt_is_Some_2 _ _ Hpc) as [i Hi]. rewrite Hi.
  pose proof (turn_total pc i self failures Hi Hsz Hr) as Ht. destruct (analyze_instruction ct pc i (push_path pc self)) as [ar self0].
  destruct Ht as (-> & self1 & failures1 & -> & Hsz1 & Ec & Hr1).
  assert (∀ q calls self2 fs ps, flow ct (pc, ta_call_stack self) (q, calls) → ta_analyzers self2 = ta_analyzers self1 → ta_tracer_enable self2 = ta_tracer_enable self1 →
    ta_call_stack self2 = calls → length fs = length (ta_analyzers self1) → ¬ failed (trace_loop ct fuel self2 q fs ps)) as Hgo.
  { intros q calls self2 fs ps Hq Ha2 He2 Hc2 Hfs. apply IH.
    - rewrite Hc2. by eapply flow_on_code.
    - destruct Hsz1. split; rewrite ?Ha2, ?He2; done.
    - rewrite Hc2. intros k a. rewrite Ha2, He2. by apply (Hr1 _ Hq). }
  destruct Hsz1 as [Le1 Lf1]. destruct (cc_instr _ Hm _ _ Hi) as [_ Htgt]. unfold resolved_below in Htgt. simpl in Htgt.
  unfold flow, successors in Hgo. simpl in Hgo. rewrite Hi in Hgo.
  destruct i; try (rewrite Hadd by done; apply (Hgo _ (ta_call_stack self)); [by apply list_elem_of_singleton|done..]).
  - destruct t as [|a]; [done|]. apply (Hgo _ (ta_call_stack self)); [by apply list_elem_of_singleton|done..].
  - destruct t as [|a]; [done|]. cbn [target_resolved] in *.
    destruct (trace_loop ct fuel (push_branch pc self1) a (no_failures (push_branch pc self1)) []) as [[[jump selfj]|e|w]|] eqn:Ej.
    + rewrite Hadd by done. apply (Hgo _ (ta_call_stack self)); [right; by left|done..|]. apply trace_loop_collects in Ej as [Lj _].
      * rewrite length_zip_with. simpl in Lj. lia.
      * split; [done|]. apply length_replicate.
    + intros _. apply (Hgo a (ta_call_stack self) (push_branch pc self1) (no_failures (push_branch pc self1)) []); [by left|done..|apply length_replicate|]. by rewrite Ej.
    + intros _. apply (Hgo a (ta_call_stack self) (push_branch pc self1) (no_failures (push_branch pc self1)) []); [by left|done..|apply length_replicate|]. by rewrite Ej.
    + by intros [].
  - destruct t as [|a]; [done|]. rewrite Ec. apply (Hgo _ (ta_call_stack self ++ [pc])); [by apply list_elem_of_singleton|done..].
  - rewrite Ec. destruct (ta_call_stack self) as [|r cs _] using rev_ind; [by intros []|]. rewrite vec_pop_snoc in Hgo |- *.
    apply Forall_app in Hcs as [_ Hret%Forall_inv]. rewrite Hadd by lia. apply (Hgo _ cs); [by apply list_elem_of_singleton|done..].
  - by intros [].
Qed.
End Closed.

(** * Traces *)
Lemma closed_trace_loop {A} `{AnalyzerLaws A} ct fuel (tracers : list A) l addr : code_closed (machine_of ct) →
  bt_get l (mo_labels ct) = Some addr → Forall (an_ready []) tracers →
  ¬ failed (trace_loop ct fuel (enable_all (build tracers)) addr (no_failures (enable_all (build tracers))) []).
Proof.
  intros Hc Hl Hr. apply trace_loop_total; [done|split; [exact (cc_labels _ Hc l addr Hl)|constructor]|apply enable_all_sized|].
  intros k a Ha _. by eapply Forall_lookup_1 in Hr.
Qed.
Lemma closed_trace_no_error {A} `{AnalyzerLaws A} ct fuel (tracers : list A) l addr e : code_closed (machine_of ct) →
  bt_get l (mo_labels ct) = Some addr → Forall (an_ready []) tracers → trace ct fuel (build tracers) l ≠ Some (Err e).
Proof.
  intros Hc Hl Hr E. pose proof (closed_trace_loop ct fuel tracers l addr Hc Hl Hr) as Hf. unfold trace in E. rewrite Hl in E.
  unfold trace_pc, trace_inner in E. destruct (trace_loop _ _ _ _ _ _) as [[[inter self']|e'|w]|]; done.
Qed.

(** C8: a trace is exact: when tracing from a label ends, it reports no failure
    if and only if no analyzer reports one on any path of the control flow from
    the label, through jumps, both sides of branches, calls and returns. *)
Theorem trace_is_exact {A} `{AnalyzerLaws A} ct fuel (tracers : list A) l addr failures :
  bt_get l (mo_labels ct) = Some addr → trace ct fuel (build tracers) l = Some (Ok failures) →
  failures = [] ↔ ∀ a, a ∈ tracers → passes ct (a, (addr, [])).
Proof. intros Hl E. unfold trace in E. rewrite Hl in E. by eapply trace_pc_passes. Qed.

(** C9: tracing compiled code ends exactly if the paths from the label are
    bounded, and never fails: either every path of the control flow has fewer
    steps than the fuel, and the trace ends with its failures, or some path has
    as many steps as the fuel, and the trace has not ended. So it ends with no
    fuel for code with a loop or a recursive call, and in no case with an error
    or a panic of the tracer. *)
Theorem trace_ends_iff {A} `{AnalyzerLaws A} env ct fuel (tracers : list A) l addr :
  compiles_module env ct → bt_get l (mo_labels ct) = Some addr → Forall (an_ready []) tracers →
  (∃ failures, trace ct fuel (build tracers) l = Some (Ok failures)) ∧ (∀ n q, nsteps (flow ct) n (addr, []) q → n < fuel)
  ∨ trace ct fuel (build tracers) l = None ∧ ∃ q, nsteps (flow ct) fuel (addr, []) q.
Proof.
  intros Hc%compiles_module_to%compiled_code_closed Hl Hr. unfold trace. rewrite Hl. unfold trace_pc, trace_inner.
  pose proof (closed_trace_loop ct fuel tracers l addr Hc Hl Hr) as Hf. set (self := enable_all (build tracers)) in *.
  destruct (trace_loop ct fuel self addr _ []) as [[[inter self']|e|w]|] eqn:E; [left|by destruct Hf..|right].
  - split; [by eexists|]. exact (trace_loop_Ok ct _ _ _ _ _ _ E).
  - split; [done|]. by apply trace_loop_None in E.
Qed.

(** * Runs of the VM are paths *)
Section Runs.
Context {IO : Type} `{MachineIO IO}.
Variables (ct : ModuleV0) (to_allocvec : Struct → option (list u8)) (from_bytes : list u8 → option Struct).
Hypothesis Hm : code_closed (machine_of ct).
Abbreviation vm_step := (vm_step (machine_of ct) to_allocvec from_bytes).
Definition point_of (s : RunState IO) : point := (rs_pc s, rs_call_state s).

Lemma vm_step_flow s s' : vm_step s s' → flow ct (point_of s) (point_of s').
Proof.
  intros (i & fl & s1 & Hi & E & Hfl)%vm_step_inv. simpl in Hi. unfold flow, successors. simpl. rewrite Hi. unfold point_of.
  destruct (is_control i) eqn:Hc.
  - destruct i; try done; simpl in E |- *.
    + apply exec_jump_inv in E as (n & -> & -> & ->). destruct Hfl as [[? _]|[_ ->]]; [done|]. by left.
    + destruct (cc_instr _ Hm _ _ Hi) as [_ Ht]. apply exec_branch_inv in E as (s2 & (Hc2 & Hp2 & _) & [[-> ->]|(n & -> & -> & ->)]).
      * destruct Hfl as [[_ ->]|[? _]]; [|done]. destruct t; [done|]. simpl. rewrite Hc2, Hp2. right. by left.
      * destruct Hfl as [[? _]|[_ ->]]; [done|]. simpl. rewrite Hc2. by left.
    + destruct t as [l|n]; [by apply fail_at_inv in E|]. injection E as <- <-. destruct Hfl as [[? _]|[_ ->]]; [done|]. by left.
    + apply exec_return_inv in E as [->|(a & rest & Ea & -> & Ep & Er)]; [by destruct Hfl as [[? _]|[? _]]|].
      destruct Hfl as [[_ ->]|[? _]]; [|done]. rewrite Ea, vec_pop_snoc. simpl. rewrite Ep, Er. by left.
  - pose proof (kept_exec (machine_of ct) to_allocvec from_bytes i Hc s) as (Hc2 & Hp2 & _). rewrite E in Hc2, Hp2. simpl in Hc2, Hp2.
    pose proof (exec_status (machine_of ct) to_allocvec from_bytes i s fl s1 Hc E) as Hst. destruct Hfl as [[-> ->]|[-> _]]; [|done].
    simpl. rewrite Hc2, Hp2. destruct i; try done; by left.
Qed.
End Runs.

(** * Validation *)
Lemma report_all_false {E} m failures : report_all (E := E) m failures = Ok tt ∨ ∃ w, report_all (E := E) m failures = Panic w.
Proof.
  assert (∀ f, report (E := E) m f = Ok tt ∨ ∃ w, report (E := E) m f = Panic w) as Hone.
  { intros f. unfold report. destruct (mo_codemap m) as [cm|]; [|by left]. destruct (span_from_instruction cm _) as [sp|e|w]; [|by left|right; by eexists].
    unfold start_linecol, linecol, span_as_str. repeat case_match; simpl; try (by left); right; by eexists. }
  induction failures as [|f failures IH]; simpl; [by left|]. destruct (Hone f) as [->|[w ->]]; [exact IH|right; by eexists].
Qed.
(** A validation that finds nothing, if no trace failed, has traced every
    label without failures. *)
Lemma validate_labels_false {E} m fuel ls : ∀ failed, validate_labels (E := E) m fuel failed ls = Some (Ok false) →
  (∀ l addr p e, (l, addr) ∈ ls → trace m fuel (build (analyzers_for m l p)) l ≠ Some (Err e)) →
  failed = false ∧ ∀ l addr p, (l, addr) ∈ ls → @predefined_names m E l = Ok (Some p) → trace m fuel (build (analyzers_for m l p)) l = Some (Ok []).
Proof.
  induction ls as [|[l addr] ls IH]; intros failed Ev Hno; simpl in Ev; [split; [congruence|by intros ? ? ? ?%not_elem_of_nil]|].
  assert (∀ l0 addr0 p e, (l0, addr0) ∈ ls → trace m fuel (build (analyzers_for m l0 p)) l0 ≠ Some (Err e)) as Hno' by (intros; eapply Hno; by right).
  destruct (predefined_names m l) as [[p|]|e|w] eqn:Ep; [| |done..].
  - destruct (trace m fuel (build (analyzers_for m l p)) l) as [[failures|e|w]|] eqn:Et; [|exfalso; by eapply Hno; [left|]|done..].
    destruct (report_all_false (E := E) m failures) as [Er|[w Er]]; rewrite Er in Ev; [|done]. apply IH in Ev as [Hf Hls]; [|done].
    apply orb_false_iff in Hf as [-> Hn%negb_false_iff%Nat.eqb_eq]. destruct failures; [|done]. split; [done|].
    intros l0 addr0 p0 [[= -> ->]|Hin]%elem_of_cons Hp0; [|by eapply Hls]. rewrite Ep in Hp0. by injection Hp0 as <-.
  - apply IH in Ev as [Hf Hls]; [|done]. split; [done|]. intros l0 addr0 p0 [[= -> ->]|Hin]%elem_of_cons Hp0; [congruence|by eapply Hls].
Qed.

Section Finish.
Context {IO : Type} `{MachineIO IO}.
Variables (ct : ModuleV0) (to_allocvec : Struct → option (list u8)) (from_bytes : list u8 → option Struct).
Hypothesis Hm : code_closed (machine_of ct).
Abbreviation vm_step := (vm_step (machine_of ct) to_allocvec from_bytes).

Definition enters_finish (i : Instruction) : bool := match i with IMeta (MetaFinish true) => true | _ => false end.
Lemma enters_finish_true i : enters_finish i = true → i = IMeta (MetaFinish true).
Proof. destruct i; try discriminate. destruct m as [| |[]|]; done. Qed.
(** The finish analyzer knows whether the run has entered a finish block. *)
Lemma finish_passes (s s' : RunState IO) : rtc vm_step s s' → ∀ b, passes ct (AnyFinish (mkFinishAnalyzer b), point_of s) →
  mo_progmem ct !! rs_pc s' = Some (IExit ExitNormal) →
  b = true ∨ ∃ s1, rtc vm_step s s1 ∧ rtc vm_step s1 s' ∧ mo_progmem ct !! rs_pc s1 = Some (IMeta (MetaFinish true)).
Proof.
  induction 1 as [s|s s2 s' Hst Hrun IH]; intros b Hp Hex; apply passes_unfold in Hp as [Hlook Hnext]; unfold look in *; simpl in *.
  - rewrite Hex in Hlook. simpl in Hlook. destruct b; [by left|done].
  - pose proof (vm_step_flow ct to_allocvec from_bytes Hm _ _ Hst) as Hq. specialize (Hnext _ Hq).
    destruct (mo_progmem ct !! rs_pc s) as [i|] eqn:Hi; [|unfold flow, successors in Hq; simpl in Hq; rewrite Hi in Hq; by apply not_elem_of_nil in Hq].
    destruct (enters_finish i) eqn:Hent; [apply enters_finish_true in Hent as ->|].
    { right. exists s. split_and!; [done|by eapply rtc_l|done]. }
    assert (∃ b', (b' = true → b = true) ∧ passes ct (AnyFinish (mkFinishAnalyzer b'), point_of s2)) as (b' & Hb & Hp').
    { destruct (finish_analyze i (mkFinishAnalyzer b)) as [r [b']] eqn:Ef. exists b'. split; [|done]. intros ->.
      unfold finish_analyze in Ef. repeat case_match; simplify_eq; simpl in Hent; try done. }
    destruct (IH b' Hp' Hex) as [Hb'|(s1 & ? & ? & ?)]; [left; auto|]. right. exists s1. split_and!; [by eapply rtc_l|done|done].
Qed.
End Finish.

Lemma analyzers_for_ready ct l p : Forall (an_ready []) (analyzers_for ct l p).
Proof. unfold analyzers_for, add_analyzer, vec_push. destruct (l_ltype l); repeat constructor. Qed.
Lemma compiled_labels_wf env ct : compiles_module env ct → bt_wf (mo_labels ct).
Proof.
  intros (cs & _ & Hw & _ & _ & Hl & _)%compiles_module_to%compiles_to_inv. simpl in Hl. rewrite Hl. apply bt_wf_filter, Hw.
Qed.

(** C7: validated policies finish: if validating the module of a compiled
    policy finds no failure, then every run of the policy or recall rule of a
    command that comes to its normal exit has entered a finish block. *)
Theorem validated_policy_finishes {IO} `{MachineIO IO} env ct fuel to_allocvec from_bytes name lt addr (s s' : RunState IO) :
  compiles_module env ct → validate (E := Empty_set) fuel (mkModule (V0 ct)) = Some (Ok false) →
  lt = LCommandPolicy ∨ lt = LCommandRecall → bt_get (mkLabel name lt) (mo_labels ct) = Some addr →
  rs_pc s = addr → rs_call_state s = [] → rtc (vm_step (machine_of ct) to_allocvec from_bytes) s s' →
  mo_progmem ct !! rs_pc s' = Some (IExit ExitNormal) →
  ∃ s1, rtc (vm_step (machine_of ct) to_allocvec from_bytes) s s1 ∧ rtc (vm_step (machine_of ct) to_allocvec from_bytes) s1 s'
    ∧ mo_progmem ct !! rs_pc s1 = Some (IMeta (MetaFinish true)).
Proof.
  intros Hc Hv Hlt Hl Hpc Hcs Hrun Hex. pose proof (compiled_code_closed _ _ (compiles_module_to _ _ Hc)) as Hm.
  assert (trace ct fuel (build (analyzers_for ct (mkLabel name lt) ["this"; "envelope"])) (mkLabel name lt) = Some (Ok [])) as Et.
  { eapply validate_labels_false; [exact Hv| |by apply bt_get_elem|by destruct Hlt as [->| ->]].
    intros l a p e Hin. eapply closed_trace_no_error; [done|apply bt_elem_get; [by eapply compiled_labels_wf|done]|apply analyzers_for_ready]. }
  unfold trace in Et. rewrite Hl in Et. pose proof (proj1 (trace_pc_passes ct _ _ _ _ Et) eq_refl) as Hp.
  assert (passes ct (AnyFinish finish_analyzer_new, point_of s)) as Hps.
  { unfold point_of. rewrite Hpc, Hcs. apply Hp. destruct Hlt as [->| ->]; right; by left. }
  destruct (finish_passes ct to_allocvec from_bytes Hm s s' Hrun _ Hps Hex) as [?|?]; done.
Qed.

(** * Policies *)
Module TracerExample.
Import CompileExample.
Definition module_of (env : CompileEnv) : ModuleV0 :=
  match compile env with Ok md => match mo_data md with V0 m => m end | _ => mkModuleV0 [] [] [] [] [] [] [] None [] end.

(** A command whose rules finish, with constant seal and open functions. *)
Definition literal (name : string) : Statements := [node (SReturn (mkReturnStatement (ENamedStruct (mkNamedStruct name []))))].
Definition ping : AstNode CommandDefinition := node (mkCommandDefinition [] "Ping" [] (literal "Envelope") (literal "Ping")
  [node (SLet (mkLetStatement "n" (EInt 1)));
   node (SIf (mkIfStatement [(EGreaterThan (EIdentifier "n") (EInt 0),
     [node (SFinish [node (SEmit (ENamedStruct (mkNamedStruct "Pong" [])))])])] None));
   node (SFinish [])]
  [node (SFinish [])]).
Definition ping_policy : Policy := mkPolicy PolicyV1 [] [] [] [node (mkEffectDefinition "Pong" [])] [node (mkStructDefinition "Envelope" [])]
  [] [ping] [] [] [] (String.list_byte_of_string "policy") [(0, 6)].
Definition ping_env : CompileEnv := mkCompileEnv ping_policy [] false false.
Definition ping_module : ModuleV0 := Eval vm_compute in module_of ping_env.
Definition ping_rule : Label := mkLabel "Ping" LCommandPolicy.
Lemma ping_compiled : compiles_module ping_env ping_module.
Proof. vm_compute. reflexivity. Qed.
Definition ping_start : RunState TestIO :=
  set_pc 1 (set_stack [VStruct (mkStruct "Envelope" [])] (run_state_new (machine_of ping_module) test_io_new (CtxPolicy (mkPolicyContext "Ping" [] [] [])))).
Fixpoint ping_after (k : nat) : RunState TestIO :=
  match k with
  | 0 => ping_start
  | S k' => (@step _ io (machine_of ping_module) no_bytes no_struct (ping_after k')).2
  end.
Lemma ping_run k : k ≤ 15 → rtc (@vm_step _ io (machine_of ping_module) no_bytes no_struct) ping_start (ping_after k).
Proof.
  induction k as [|k IH]; intros Hk; [done|]. eapply rtc_r; [apply IH; lia|]. unfold vm_step.
  do 15 (destruct k as [|k]; [by vm_compute|]). lia.
Qed.

(** Validating a correct policy reports failures: the code of a seal or open
    function starts with a call, for which the analyzer forgets the names
    that are defined; and the arguments of an action are defined before its
    code, and again by it. *)
Definition add_module : ModuleV0 := Eval vm_compute in module_of CompileExample.env.
Lemma seal_of_add_reported :
  trace add_module 40 (build (analyzers_for add_module (mkLabel "Add" LCommandSeal) ["this"])) (mkLabel "Add" LCommandSeal) =
  Some (Ok [mkTraceFailure [84; 86; 87; 88] 88 "Value `this` is not set"; mkTraceFailure [84; 86; 87; 88; 89; 90; 91; 92] 92 "Value `this` is not set"]).
Proof. vm_compute. reflexivity. Qed.
Definition act : AstNode ActionDefinition := node (mkActionDefinition "act" [mkFieldDefinition "n" TInt] []).
(** A function that calls another one and then does not return passes. *)
Definition one : AstNode FunctionDefinition := node (mkFunctionDefinition "one" [] TInt [node (SReturn (mkReturnStatement (EInt 1)))]).
Definition forgets : AstNode FunctionDefinition := node (mkFunctionDefinition "forgets" [] TInt [
  node (SLet (mkLetStatement "x" (EFunctionCall (mkFunctionCall "one" []))));
  node (SIf (mkIfStatement [(EEqual (EIdentifier "x") (EInt 0), [node (SReturn (mkReturnStatement (EInt 0)))])] None))]).
Definition small_module : ModuleV0 := Eval vm_compute in
  module_of (mkCompileEnv (mkPolicy PolicyV1 [] [] [act] [] [] [] [] [one; forgets] [] [] (String.list_byte_of_string "policy") [(0, 6)]) [] false false).
Lemma action_arguments_reported :
  trace small_module 40 (build (analyzers_for small_module (mkLabel "act" LAction) ["n"])) (mkLabel "act" LAction) =
  Some (Ok [mkTraceFailure [17] 17 "Value `n` is set twice"]).
Proof. vm_compute. reflexivity. Qed.
Lemma missing_return_not_reported :
  trace small_module 40 (build (analyzers_for small_module (mkLabel "forgets" LFunction) [])) (mkLabel "forgets" LFunction) = Some (Ok []).
Proof. vm_compute. reflexivity. Qed.
(** Tracing a recursive function never ends. *)
Definition double_loop : list nat := [1; 2; 3; 4; 5; 6; 7; 8; 12; 13; 14; 15; 16; 17].
Lemma double_loops p : p.1 ∈ double_loop → ∃ q, flow add_module p q ∧ q.1 ∈ double_loop.
Proof.
  destruct p as [pc cs]. cbn [fst]. unfold flow, double_loop. intros Hin.
  repeat (apply elem_of_cons in Hin as [->|Hin]; [eexists; split; [cbn; by left|by apply (bool_decide_unpack _); vm_compute]|]).
  by apply not_elem_of_nil in Hin.
Qed.
Lemma recursive_trace_never_ends fuel failures :
  trace add_module fuel (build [AnyFunction function_analyzer_new]) (mkLabel "double" LFunction) ≠ Some (Ok failures).
Proof.
  assert (∀ n p, p.1 ∈ double_loop → ∃ q, nsteps (flow add_module) n p q) as Hn.
  { induction n as [|n IH]; intros p Hp; [eexists; constructor|]. destruct (double_loops p Hp) as (q & Hq & Hl).
    destruct (IH q Hl) as [r Hr]. exists r. by eapply nsteps_l. }
  destruct (Hn fuel (1, [])) as [q Hq]; [by left|]. unfold trace. cbn [bt_get]. change (bt_get _ (mo_labels add_module)) with (Some 1). unfold trace_pc, trace_inner.
  destruct (trace_loop _ _ _ _ _ _) as [[[inter self']|e|w]|] eqn:E; [|done..]. apply (trace_loop_Ok _ _ _ _ _ _ _ E) in Hq. lia.
Qed.
End TracerExample.

Lemma trace_is_exact_witness :
  passes TracerExample.ping_module (AnyFinish finish_analyzer_new, (1, [])).
Proof.
  apply (trace_is_exact TracerExample.ping_module 30 [AnyFinish finish_analyzer_new] TracerExample.ping_rule 1 []).
  - reflexivity.
  - vm_compute. reflexivity.
  - reflexivity.
  - by left.
Defined.

Lemma trace_ends_iff_witness :
  (∃ failures, trace TracerExample.ping_module 30 (build [AnyFinish finish_analyzer_new]) TracerExample.ping_rule = Some (Ok failures))
  ∧ ∀ n q, nsteps (flow TracerExample.ping_module) n (1, []) q → n < 30.
Proof.
  destruct (trace_ends_iff TracerExample.ping_env TracerExample.ping_module 30 [AnyFinish finish_analyzer_new] TracerExample.ping_rule 1)
    as [He|[Hn _]].
  - exact TracerExample.ping_compiled.
  - reflexivity.
  - by repeat constructor.
  - exact He.
  - vm_compute in Hn. discriminate Hn.
Defined.

Lemma validated_policy_finishes_witness :
  mo_progmem TracerExample.ping_module !! rs_pc (TracerExample.ping_after 15) = Some (IExit ExitNormal)
  ∧ ∃ s1, mo_progmem TracerExample.ping_module !! rs_pc (s1 : RunState TestIO) = Some (IMeta (MetaFinish true)).
Proof.
  split; [vm_compute; reflexivity|].
  destruct (@validated_policy_finishes _ CompileExample.io TracerExample.ping_env TracerExample.ping_module 40 CompileExample.no_bytes
    CompileExample.no_struct "Ping" LCommandPolicy 1 TracerExample.ping_start (TracerExample.ping_after 15)) as (s1 & _ & _ & Hs1).
  - exact TracerExample.ping_compiled.
  - vm_compute. reflexivity.
  - by left.
  - reflexivity.
  - reflexivity.
  - reflexivity.
  - by apply TracerExample.ping_run.
  - vm_compute. reflexivity.
  - exists s1. exact Hs1.
Defined.
