(* ===== verification/RuntimeTypes.v ===== *)
(** Types of the runtime shared by its components: parents ([prior.rs]),
    addresses, priorities and commands ([command.rs]), locations and storage
    errors ([storage/mod.rs]), merge parents ([engine.rs]). *)
From S2P Require Import Prelude Collections.
Local Open Scope string_scope.
Local Open Scope list_scope.
Local Open Scope nat_scope.

(** * Parents (prior.rs) *)
Inductive Prior (T : Type) : Type :=
| PNone
| PSingle (x : T)
| PMerge (x y : T).
Arguments PNone {T}. Arguments PSingle {T} x. Arguments PMerge {T} x y.

#[export] Instance Prior_eq_dec {T} `{EqDecision T} : EqDecision (Prior T).
Proof. solve_decision. Defined.

(** One call of [IntoIter::next] and the whole iteration. *)
Definition prior_next {T} (p : Prior T) : option T * Prior T :=
  match p with
  | PNone => (None, PNone)
  | PSingle x => (Some x, PNone)
  | PMerge x y => (Some x, PSingle y)
  end.
Fixpoint prior_iter {T} (fuel : nat) (p : Prior T) : list T :=
  match fuel with
  | 0 => []
  | S fuel' => match prior_next p with (Some x, p') => x :: prior_iter fuel' p' | (None, _) => [] end
  end.
Definition prior_list {T} (p : Prior T) : list T := prior_iter 3 p.

Lemma prior_list_spec {T} (p : Prior T) :
  prior_list p = match p with PNone => [] | PSingle x => [x] | PMerge x y => [x; y] end.
Proof. by destruct p. Qed.

(** * Commands (command.rs) *)
Abbreviation CommandId := (list u8).
Definition PolicyId : Type := nat.
Abbreviation GraphId := (list u8).

Record Address := mkAddress { ad_id : CommandId; ad_max_cut : nat }.
#[export] Instance Address_eq_dec : EqDecision Address.
Proof. solve_decision. Defined.

Definition address_repr (a : Address) : list u8 * nat := (ad_id a, ad_max_cut a).
#[export] Instance address_repr_inj : Inj eq eq address_repr.
Proof. intros [] []. unfold address_repr. simpl. congruence. Qed.
#[export] Instance address_ord : Ord Address := λ x y, cmp (address_repr x) (address_repr y).
#[export] Instance address_ord_laws : OrdLaws Address := ord_laws_inj address_repr.

Inductive Priority : Type :=
| PrioMerge
| PrioBasic (n : nat)
| PrioFinalize
| PrioInit.
#[export] Instance Priority_eq_dec : EqDecision Priority.
Proof. solve_decision. Defined.

(** Derived order: by variant, then by payload. *)
Definition priority_repr (p : Priority) : nat * nat :=
  match p with PrioMerge => (0, 0) | PrioBasic n => (1, n) | PrioFinalize => (2, 0) | PrioInit => (3, 0) end.
#[export] Instance priority_repr_inj : Inj eq eq priority_repr.
Proof. intros [] []; simpl; congruence. Qed.
#[export] Instance priority_ord : Ord Priority := λ x y, cmp (priority_repr x) (priority_repr y).
#[export] Instance priority_ord_laws : OrdLaws Priority := ord_laws_inj priority_repr.

(** [buggy::Bug] carries a message. *)
Inductive Bug_ : Type := BugMsg (msg : string).

(** [Option::assume]. *)
Definition assume {A} (o : option A) (msg : string) : outcome Bug_ A := ok_or o (BugMsg msg).

(** [Command::max_cut]: the default of the trait, from the parents. *)
Definition max_cut_of_parent (p : Prior Address) : outcome Bug_ nat :=
  match p with
  | PNone => Ok 0
  | PSingle l => assume (checked_add (ad_max_cut l) 1) "must not overflow"
  | PMerge l r => assume (checked_add (Nat.max (ad_max_cut l) (ad_max_cut r)) 1) "must not overflow"
  end.

(** [Prior::<Address>::next_max_cut]. *)
Definition next_max_cut (p : Prior Address) : outcome Bug_ nat :=
  match p with
  | PNone => Ok 1
  | PSingle l => assume (checked_add (ad_max_cut l) 1) "must not overflow"
  | PMerge l r => assume (checked_add (Nat.max (ad_max_cut l) (ad_max_cut r)) 1) "must not overflow"
  end.

(** A value of a type that implements [Command]; [cmd_max_cut] is what its
    [max_cut] method returns. *)
Record Command := mkCommand {
  cmd_priority : Priority;
  cmd_id : CommandId;
  cmd_parent : Prior Address;
  cmd_policy : option (list u8);
  cmd_bytes : list u8;
  cmd_max_cut : outcome Bug_ nat
}.

(** [Command::address]. *)
Definition cmd_address (c : Command) : outcome Bug_ Address :=
  mc ← cmd_max_cut c; Ok (mkAddress (cmd_id c) mc).

(** * Locations and errors (storage/mod.rs) *)
Record Location := mkLocation { loc_segment : nat; loc_command : nat }.
#[export] Instance Location_eq_dec : EqDecision Location.
Proof. solve_decision. Defined.
Definition location_repr (l : Location) : nat * nat := (loc_segment l, loc_command l).
#[export] Instance location_repr_inj : Inj eq eq location_repr.
Proof. intros [] []. unfold location_repr. simpl. congruence. Qed.
#[export] Instance location_ord : Ord Location := λ x y, cmp (location_repr x) (location_repr y).
#[export] Instance location_ord_laws : OrdLaws Location := ord_laws_inj location_repr.

(** [Location::previous] and [Location::same_segment]. *)
Definition loc_previous (l : Location) : option Location :=
  match checked_sub (loc_command l) 1 with
  | Some n => Some (mkLocation (loc_segment l) n)
  | None => None
  end.
Definition same_segment (l m : Location) : bool := loc_segment l =? loc_segment m.

Inductive StorageError : Type :=
| StorageExists
| NoSuchStorage
| SegmentOutOfBounds (l : Location)
| CommandOutOfBounds (l : Location)
| IoError
| NotMerge
| NoSuchId (id : CommandId)
| PolicyMismatch
| EmptyPerspective
| HeadNotAncestor
| PerspectiveHeadMismatch
| SBug (b : Bug_).

(** [From<Bug> for StorageError], the conversion [?] applies. *)
Definition sbug {A} (m : outcome Bug_ A) : outcome StorageError A := map_err SBug m.

(** * Merge parents (engine.rs) *)
Record MergeIds := mkMergeIds { mi_left : Address; mi_right : Address }.

Definition merge_ids_new (a b : Address) : option MergeIds :=
  match cmp (ad_id a) (ad_id b) with
  | Lt => Some (mkMergeIds a b)
  | Eq => None
  | Gt => Some (mkMergeIds b a)
  end.
