(* ===== verification/FactStore.v ===== *)
(** Facts in storage: the query interface of [storage/mod.rs] with its laws,
    prefix search, and the in-memory fact index and fact perspective of
    [storage/memory.rs]. *)
From S2P Require Import Prelude Collections RuntimeTypes.
Local Open Scope list_scope.
Local Open Scope nat_scope.

(** * Keys and facts (storage/mod.rs) *)
Abbreviation Bytes := (list u8).
Abbreviation Keys := (list (list u8)).
Record StoredFact := mkStoredFact { sf_key : Keys; sf_value : Bytes }.

(** [None] is a tombstone: the fact was deleted. *)
Abbreviation FactMap := (BTreeMap Keys (option Bytes)).
Abbreviation NamedFactMap := (BTreeMap string FactMap).

Implicit Types (name : string) (keys prefix : Keys) (m : FactMap) (nm : NamedFactMap).

(** * The query interface *)
Definition QueryItems : Type := list (outcome StorageError StoredFact).

Class Query (P : Type) := {
  query : P → string → Keys → outcome StorageError (option Bytes);
  query_prefix : P → string → Keys → outcome StorageError QueryItems
}.
Class QueryMut (P : Type) `{Query P} := {
  q_insert : string → Keys → Bytes → P → P;
  q_delete : string → Keys → P → P
}.

(** ** What a fact store promises

    A store holds a partial map from name and keys to a value. [query] reads
    it; [query_prefix] lists, in key order, exactly the facts of the name
    whose keys start with the prefix. *)
Definition FactView : Type := string → Keys → option Bytes.

Definition view_insert name keys (v : option Bytes) (w : FactView) : FactView :=
  λ n k, if decide (n = name ∧ k = keys) then v else w n k.

Definition lists_prefix (w : FactView) name prefix (l : list StoredFact) : Prop :=
  StronglySorted (λ a b, cmp (sf_key a) (sf_key b) = Lt) l
  ∧ ∀ k v, mkStoredFact k v ∈ l ↔ w name k = Some v ∧ starts_with prefix k = true.

(** A prefix listing is determined by the facts. *)
Lemma lists_prefix_unique (w : FactView) name prefix l1 l2 :
  lists_prefix w name prefix l1 → lists_prefix w name prefix l2 → l1 = l2.
Proof.
  assert (∀ l : list StoredFact, StronglySorted (λ a b, cmp (sf_key a) (sf_key b) = Lt) l → NoDup l) as Hnodup.
  { induction 1 as [|x l Hl IH HF]; constructor; [|done]. intros Hin.
    apply (proj1 (Forall_forall _ _) HF) in Hin. by rewrite cmp_refl in Hin. }
  intros [Hs1 H1] [Hs2 H2]. refine (StronglySorted_unique_strong _ _ _ _ Hs1 Hs2 _).
  - intros x1 x2 _ _ Hlt Hgt. rewrite cmp_antisym, Hlt in Hgt. done.
  - apply NoDup_Permutation; [by apply Hnodup..|]. intros [k v]. by rewrite H1, H2.
Qed.

Class QueryLaws (P : Type) `{Query P} (wf : P → Prop) (view : P → FactView) : Prop := {
  query_view p name keys : wf p → query p name keys = Ok (view p name keys);
  query_prefix_view p name prefix :
    wf p → ∃ l, query_prefix p name prefix = Ok (map Ok l) ∧ lists_prefix (view p) name prefix l
}.
Class QueryMutLaws (P : Type) `{QueryMut P} (wf : P → Prop) (view : P → FactView) : Prop := {
  query_mut_laws :: QueryLaws P wf view;
  insert_wf name keys v p : wf p → wf (q_insert name keys v p);
  insert_view name keys v p n k :
    wf p → view (q_insert name keys v p) n k = view_insert name keys (Some v) (view p) n k;
  delete_wf name keys p : wf p → wf (q_delete name keys p);
  delete_view name keys p n k :
    wf p → view (q_delete name keys p) n k = view_insert name keys None (view p) n k
}.

(** * Prefix search *)

(** [range((Included(prefix), Unbounded))] then [take_while]. *)
Fixpoint take_while {A} (f : A → bool) (l : list A) : list A :=
  match l with
  | [] => []
  | x :: l' => if f x then x :: take_while f l' else []
  end.
Definition range_from prefix m : FactMap :=
  List.filter (λ kv, match cmp kv.1 prefix with Lt => false | _ => true end) m.
Definition find_prefixes m prefix : list (Keys * option Bytes) :=
  take_while (λ kv, starts_with prefix kv.1) (range_from prefix m).

Lemma cmp_cons {A} `{Ord A} (x y : A) l k :
  cmp (x :: l) (y :: k) = match cmp x y with Eq => cmp l k | c => c end.
Proof. done. Qed.

Lemma starts_with_le {A} `{EqDecision A} `{OrdLaws A} (p l : list A) :
  starts_with p l = true → cmp l p ≠ Lt.
Proof.
  revert l. induction p as [|x p IH]; intros [|y l]; simpl; try done.
  rewrite andb_true_iff, bool_decide_eq_true, cmp_cons. intros [-> ?]. rewrite cmp_refl. by apply IH.
Qed.

(** The lists that start with [p] are contiguous from [p] upward. *)
Lemma starts_with_between {A} `{EqDecision A} `{OrdLaws A} (p k l : list A) :
  cmp k p ≠ Lt → cmp k l = Lt → starts_with p l = true → starts_with p k = true.
Proof.
  revert k l. induction p as [|x p IH]; intros k l; [done|].
  destruct k as [|y k]; [done|]. destruct l as [|z l]; [done|]. simpl. rewrite !cmp_cons.
  rewrite !andb_true_iff, !bool_decide_eq_true. intros Hkp Hkl [-> Hpl].
  destruct (cmp y z) eqn:E; [|done|done].
  apply cmp_eq_iff in E as ->. split; [done|by eapply IH].
Qed.

Lemma take_while_filter {A} (f : A → bool) l :
  (∀ i j x y, i < j → l !! i = Some x → l !! j = Some y → f y = true → f x = true) →
  take_while f l = List.filter f l.
Proof.
  induction l as [|x l IH]; intros Hf; simpl; [done|]. destruct (f x) eqn:E.
  - f_equal. apply IH. intros i j y z Hij Hi Hj. by apply (Hf (S i) (S j)); [lia|..].
  - assert (∀ y, In y l → f y = false) as Hno.
    { intros y [j Hj]%list_elem_of_In%list_elem_of_lookup. destruct (f y) eqn:Ey; [|done].
      rewrite (Hf 0 (S j) x y) in E; done || lia. }
    clear -Hno. induction l as [|y l IH]; simpl; [done|]. rewrite Hno by (by left). apply IH.
    intros z Hz. apply Hno. by right.
Qed.

Lemma bt_wf_lookup {K V} `{OrdLaws K} (l : BTreeMap K V) i j x y :
  bt_wf l → i < j → l !! i = Some x → l !! j = Some y → cmp x.1 y.1 = Lt.
Proof.
  intros Hwf. revert i j. induction Hwf as [|p l Hwf IH HF]; intros i j Hij Hi Hj; [done|].
  destruct j as [|j]; [lia|]. destruct i as [|i]; simpl in *.
  - simplify_eq. rewrite Forall_lookup in HF. by apply (HF j y).
  - apply (IH i j); [lia|done..].
Qed.

(** The search returns exactly the entries whose keys start with the prefix,
    in key order. *)
Lemma find_prefixes_filter m prefix :
  bt_wf m → find_prefixes m prefix = List.filter (λ kv, starts_with prefix kv.1) m.
Proof.
  intros Hwf. unfold find_prefixes. rewrite take_while_filter.
  - unfold range_from. induction Hwf as [|[k v] m Hwf IH HF]; [done|]. simpl.
    destruct (cmp k prefix) eqn:E; simpl; rewrite IH; try done.
    destruct (starts_with prefix k) eqn:Es; [|done]. by apply starts_with_le in Es.
  - intros i j x y Hij Hi Hj Hy. apply (starts_with_between _ _ y.1); [|eapply bt_wf_lookup; [by apply bt_wf_filter|done..]|done].
    apply list_elem_of_lookup_2, list_elem_of_In, filter_In in Hi as [_ Hi]. intros Hlt. by rewrite Hlt in Hi.
Qed.

Lemma bt_wf_find_prefixes m prefix : bt_wf m → bt_wf (find_prefixes m prefix).
Proof. intros Hwf. rewrite find_prefixes_filter by done. by apply bt_wf_filter. Qed.

Lemma bt_get_find_prefixes m prefix k :
  bt_wf m → bt_get k (find_prefixes m prefix) = if starts_with prefix k then bt_get k m else None.
Proof.
  intros Hwf. rewrite find_prefixes_filter, bt_get_filter by done.
  destruct (bt_get k m); simpl; by destruct (starts_with prefix k).
Qed.

(** * Named fact maps *)
Definition named_get name keys nm : option (option Bytes) :=
  match bt_get name nm with Some m => bt_get keys m | None => None end.
(** [entry(name).or_default().insert(keys, v)]. *)
Definition named_insert name keys (v : option Bytes) nm : NamedFactMap :=
  bt_upsert name [] (bt_insert keys v) nm.
Definition named_wf nm : Prop := bt_wf nm ∧ Forall (λ p, bt_wf p.2) nm.

Lemma named_wf_nil : named_wf [].
Proof. split; constructor. Qed.

Lemma named_wf_get name nm m : named_wf nm → bt_get name nm = Some m → bt_wf m.
Proof. intros [_ HF] Hg%bt_get_elem. by apply (proj1 (Forall_forall _ _) HF (name, m)). Qed.

Lemma named_wf_insert name keys v nm : named_wf nm → named_wf (named_insert name keys v nm).
Proof.
  intros Hwf. split; [by apply bt_wf_upsert, Hwf|]. apply Forall_forall.
  intros [n m] [[= -> ->]|Hin]%elem_of_bt_insert; simpl.
  - apply bt_wf_insert. destruct (bt_get name nm) eqn:E; [by eapply named_wf_get|constructor].
  - destruct Hwf as [_ HF]. by apply (proj1 (Forall_forall _ _) HF (n, m)).
Qed.

Lemma named_get_insert name keys v nm n k :
  named_get n k (named_insert name keys v nm)
  = if decide (n = name ∧ k = keys) then Some v else named_get n k nm.
Proof.
  unfold named_get, named_insert, bt_upsert. rewrite bt_get_insert.
  destruct (ord_eqb n name) eqn:En; [apply ord_eqb_true in En as ->|apply ord_eqb_false in En].
  - rewrite bt_get_insert. destruct (ord_eqb k keys) eqn:Ek;
      [apply ord_eqb_true in Ek as ->|apply ord_eqb_false in Ek].
    + by rewrite decide_True.
    + rewrite decide_False by naive_solver. by destruct (bt_get name nm).
  - rewrite decide_False by naive_solver. done.
Qed.

(** The entries of a name whose keys start with a prefix. *)
Definition named_prefixes nm name prefix : list (Keys * option Bytes) :=
  match bt_get name nm with Some m => find_prefixes m prefix | None => [] end.

Lemma bt_get_named_prefixes nm name prefix k :
  named_wf nm →
  bt_get k (named_prefixes nm name prefix) = if starts_with prefix k then named_get name k nm else None.
Proof.
  intros Hwf. unfold named_prefixes, named_get. destruct (bt_get name nm) as [m|] eqn:E.
  - apply bt_get_find_prefixes. by eapply named_wf_get.
  - by destruct (starts_with prefix k).
Qed.
#[export] Hint Resolve named_wf_nil named_wf_insert : rust.

(** Turn the matches of a prefix search into the facts of an iterator:
    tombstones are dropped. *)
Definition live_facts (matches : FactMap) : list StoredFact :=
  omap (λ kv, match kv.2 with Some v => Some (mkStoredFact kv.1 v) | None => None end) matches.

Lemma live_facts_sorted (matches : FactMap) :
  bt_wf matches → StronglySorted (λ a b, cmp (sf_key a) (sf_key b) = Lt) (live_facts matches).
Proof.
  induction 1 as [|[k v] l Hwf IH HF]; [constructor|]. simpl. destruct v as [v|]; [|done].
  constructor; [done|]. apply Forall_forall. intros f Hf.
  apply list_elem_of_omap in Hf as ([k' v'] & Hin & Hf). destruct v'; simplify_eq/=.
  apply (proj1 (Forall_forall _ _) HF) in Hin. done.
Qed.

Lemma live_facts_elem (matches : FactMap) k v :
  bt_wf matches → mkStoredFact k v ∈ live_facts matches ↔ bt_get k matches = Some (Some v).
Proof.
  intros Hwf. rewrite bt_get_iff by done. unfold live_facts. rewrite list_elem_of_omap. split.
  - intros ([k' [v'|]] & Hin & ?); by simplify_eq/=.
  - intros Hin. by exists (k, Some v).
Qed.

(** What a store whose matches are right promises. *)
Lemma lists_prefix_live (w : FactView) name prefix (matches : FactMap) (slot : Keys → option (option Bytes)) :
  bt_wf matches →
  (∀ k, bt_get k matches = if starts_with prefix k then slot k else None) →
  (∀ k, w name k = match slot k with Some v => v | None => None end) →
  lists_prefix w name prefix (live_facts matches).
Proof.
  intros Hwf Hget Hw. split; [by apply live_facts_sorted|]. intros k v.
  rewrite live_facts_elem, Hget, Hw by done. destruct (starts_with prefix k); [|naive_solver].
  destruct (slot k) as [[]|]; naive_solver.
Qed.
