(* ===== verification/Bytes.v ===== *)
(** Byte strings as the standard library handles them: big-endian and
    little-endian integers, and splitting slices into chunks. *)
From S2P Require Import Prelude Collections.
Local Open Scope list_scope.
Local Open Scope nat_scope.

(** * Big-endian integers *)
Definition byte_of (z : Z) : u8 := default Byte.x00 (Byte.of_N (Z.to_N (z mod 256))).
Definition byte_val (b : u8) : Z := Z.of_N (Byte.to_N b).

(** [to_be_bytes] of a [w]-byte unsigned integer. *)
Fixpoint be_bytes (w : nat) (z : Z) : list u8 :=
  match w with
  | 0 => []
  | S w' => byte_of (z / 256 ^ Z.of_nat w') :: be_bytes w' (z mod 256 ^ Z.of_nat w')
  end.
(** [from_be_bytes]. *)
Definition from_be (bs : list u8) : Z := fold_left (λ acc b, 256 * acc + byte_val b)%Z bs 0%Z.

Lemma byte_val_of z : (0 ≤ z < 256)%Z → byte_val (byte_of z) = z.
Proof.
  intros Hz. unfold byte_val, byte_of. rewrite Z.mod_small by done.
  destruct (Byte.of_N (Z.to_N z)) as [b|] eqn:E.
  - apply Byte.to_of_N in E. simpl. rewrite E. lia.
  - exfalso. apply Byte.of_N_None_iff in E. lia.
Qed.

Lemma byte_val_range b : (0 ≤ byte_val b < 256)%Z.
Proof. unfold byte_val. pose proof (Byte.to_N_bounded b). lia. Qed.

Lemma pow256_pos (w : nat) : (0 < 256 ^ Z.of_nat w)%Z.
Proof. apply Z.pow_pos_nonneg; lia. Qed.
Lemma pow256_S (w : nat) : (256 ^ Z.of_nat (S w) = 256 * 256 ^ Z.of_nat w)%Z.
Proof. rewrite Nat2Z.inj_succ, Z.pow_succ_r by lia. lia. Qed.

Lemma length_be_bytes w z : length (be_bytes w z) = w.
Proof. revert z. induction w as [|w IH]; intros z; simpl; [done|]. by rewrite IH. Qed.

(** The most significant byte of a number in range. *)
Lemma top_byte w z : (0 ≤ z < 256 ^ Z.of_nat (S w))%Z → (0 ≤ z / 256 ^ Z.of_nat w < 256)%Z.
Proof.
  rewrite pow256_S. intros [H0 H1]. pose proof (pow256_pos w). split; [by apply Z.div_pos; lia|].
  apply Z.div_lt_upper_bound; lia.
Qed.

Lemma from_be_app_aux bs acc : fold_left (λ acc b, 256 * acc + byte_val b)%Z bs acc
  = (acc * 256 ^ Z.of_nat (length bs) + from_be bs)%Z.
Proof.
  unfold from_be. revert acc. induction bs as [|b bs IH]; intros acc; cbn [fold_left length]; [lia|].
  rewrite IH, (IH (256 * 0 + byte_val b)%Z), pow256_S. lia.
Qed.

Lemma from_be_bytes w z : (0 ≤ z < 256 ^ Z.of_nat w)%Z → from_be (be_bytes w z) = z.
Proof.
  revert z. induction w as [|w IH]; intros z Hz; [simpl in *; unfold from_be; simpl; lia|].
  unfold from_be. cbn [be_bytes fold_left]. rewrite from_be_app_aux, length_be_bytes.
  pose proof (pow256_pos w). rewrite byte_val_of by by apply top_byte.
  rewrite IH by (apply Z.mod_pos_bound; lia). rewrite (Z.div_mod z (256 ^ Z.of_nat w)) at 3 by lia. lia.
Qed.

(** * Little-endian integers *)
(** [to_le_bytes] of a [w]-byte unsigned integer. *)
Fixpoint le_bytes (w : nat) (z : Z) : list u8 :=
  match w with
  | 0 => []
  | S w' => byte_of z :: le_bytes w' (z / 256)
  end.
(** [from_le_bytes]. *)
Fixpoint from_le (bs : list u8) : Z :=
  match bs with [] => 0%Z | b :: r => (byte_val b + 256 * from_le r)%Z end.

Lemma length_le_bytes w z : length (le_bytes w z) = w.
Proof. revert z. induction w as [|w IH]; intros z; simpl; [done|]. by rewrite IH. Qed.

Lemma byte_val_mod z : byte_val (byte_of z) = (z mod 256)%Z.
Proof.
  pose proof (Z.mod_pos_bound z 256 ltac:(lia)).
  rewrite <- (byte_val_of (z mod 256)) by done. unfold byte_of. by rewrite Z.mod_mod.
Qed.

Lemma byte_of_val b : byte_of (byte_val b) = b.
Proof.
  unfold byte_of, byte_val. pose proof (Byte.to_N_bounded b).
  rewrite Z.mod_small by lia. by rewrite N2Z.id, Byte.of_to_N.
Qed.

Lemma from_le_bytes w z : (0 ≤ z < 256 ^ Z.of_nat w)%Z → from_le (le_bytes w z) = z.
Proof.
  revert z. induction w as [|w IH]; intros z Hz; [simpl in *; lia|].
  rewrite pow256_S in Hz. cbn [le_bytes from_le].
  rewrite byte_val_mod, IH by (split; [apply Z.div_pos|apply Z.div_lt_upper_bound]; lia).
  pose proof (Z.div_mod z 256). lia.
Qed.

Lemma le_bytes_from bs : le_bytes (length bs) (from_le bs) = bs.
Proof.
  induction bs as [|b bs IH]; [done|]. cbn [length le_bytes from_le].
  pose proof (byte_val_range b). f_equal.
  - rewrite <- (byte_of_val b) at 2. unfold byte_of.
    by rewrite (Z.mul_comm 256), Z.mod_add by lia.
  - etransitivity; [|exact IH]. f_equal. rewrite (Z.mul_comm 256), Z.div_add by lia.
    by rewrite (Z.div_small (byte_val b)) by done.
Qed.

Lemma from_le_range bs : (0 ≤ from_le bs < 256 ^ Z.of_nat (length bs))%Z.
Proof.
  induction bs as [|b bs IH]; [done|]. cbn [length from_le].
  rewrite pow256_S. pose proof (byte_val_range b). lia.
Qed.

(** * Chunks *)
(** [<[u8]>::split_first_chunk]. *)
Definition split_first_chunk (n : nat) (bs : list u8) : option (list u8 * list u8) :=
  if n <=? length bs then Some (take n bs, drop n bs) else None.

(** [<[u8]>::split_last_chunk]: the chunk is the second component. *)
Definition split_last_chunk (n : nat) (bs : list u8) : option (list u8 * list u8) :=
  if n <=? length bs then Some (take (length bs - n) bs, drop (length bs - n) bs) else None.

Lemma split_first_chunk_app n (a b : list u8) :
  length a = n → split_first_chunk n (a ++ b) = Some (a, b).
Proof.
  intros <-. unfold split_first_chunk. rewrite length_app.
  case (Nat.leb_spec (length a) (length a + length b)); [|lia]. intros _.
  by rewrite take_app_length, drop_app_length.
Qed.

Lemma split_first_chunk_Some n bs a b :
  split_first_chunk n bs = Some (a, b) ↔ bs = a ++ b ∧ length a = n.
Proof.
  split.
  - unfold split_first_chunk. case_match eqn:E; [|done]. apply Nat.leb_le in E. intros [= <- <-].
    rewrite take_drop, length_take. split; [done|lia].
  - intros [-> Hn]. by apply split_first_chunk_app.
Qed.

Lemma split_first_chunk_None n bs : split_first_chunk n bs = None ↔ length bs < n.
Proof. unfold split_first_chunk. case_match eqn:E; [apply Nat.leb_le in E|apply Nat.leb_gt in E]; split; (done || lia). Qed.

Lemma split_last_chunk_app n (a b : list u8) :
  length b = n → split_last_chunk n (a ++ b) = Some (a, b).
Proof.
  intros <-. unfold split_last_chunk. rewrite length_app.
  case (Nat.leb_spec (length b) (length a + length b)); [|lia]. intros _.
  replace (length a + length b - length b) with (length a) by lia.
  by rewrite take_app_length, drop_app_length.
Qed.

Lemma split_last_chunk_Some n bs a b :
  split_last_chunk n bs = Some (a, b) ↔ bs = a ++ b ∧ length b = n.
Proof.
  split.
  - unfold split_last_chunk. case_match eqn:E; [|done]. apply Nat.leb_le in E. intros [= <- <-].
    rewrite take_drop, length_drop. split; [done|lia].
  - intros [-> Hn]. by apply split_last_chunk_app.
Qed.

Lemma split_last_chunk_None n bs : split_last_chunk n bs = None ↔ length bs < n.
Proof. unfold split_last_chunk. case_match eqn:E; [apply Nat.leb_le in E|apply Nat.leb_gt in E]; split; (done || lia). Qed.
