(* ===== verification/FactKeys.v ===== *)
(** Serialization of fact keys for storage ([vm_policy/io.rs]: [ser_key],
    [deser_key] and the sequences of them), with the UTF-8 check of the standard
    library. *)
From S2P Require Import Prelude Collections PolicyData FactStore Bytes.
Local Open Scope string_scope.
Local Open Scope list_scope.
Local Open Scope nat_scope.

(** * Signed integers *)
(** Reading a 64-bit pattern as an [i64], and back. *)
Definition to_signed (u : Z) : Z := if (u <? 2 ^ 63)%Z then u else (u - 2 ^ 64)%Z.
Definition to_unsigned (z : Z) : Z := (z mod 2 ^ 64)%Z.

Lemma cmp_bytes_Z a b : cmp (a : u8) b = (byte_val a ?= byte_val b)%Z.
Proof. unfold cmp, u8_ord, byte_val. by rewrite N2Z.inj_compare. Qed.

(** Big-endian encodings of one width compare like the numbers. *)
Lemma cmp_be_bytes w x y :
  (0 ≤ x < 256 ^ Z.of_nat w)%Z → (0 ≤ y < 256 ^ Z.of_nat w)%Z →
  cmp (be_bytes w x) (be_bytes w y) = (x ?= y)%Z.
Proof.
  revert x y. induction w as [|w IH]; intros x y Hx Hy.
  - simpl in Hx, Hy. assert (x = 0%Z) as -> by lia. assert (y = 0%Z) as -> by lia. done.
  - cbn [be_bytes]. rewrite cmp_cons, cmp_bytes_Z, !byte_val_of by by apply top_byte.
    pose proof (pow256_pos w) as Hp. rewrite IH by (apply Z.mod_pos_bound; lia).
    pose proof (Z.div_mod x (256 ^ Z.of_nat w)). pose proof (Z.div_mod y (256 ^ Z.of_nat w)).
    pose proof (Z.mod_pos_bound x (256 ^ Z.of_nat w) Hp). pose proof (Z.mod_pos_bound y (256 ^ Z.of_nat w) Hp).
    set (m := (256 ^ Z.of_nat w)%Z) in *.
    destruct (Z.compare_spec (x / m) (y / m)) as [E|E|E]; symmetry.
    + rewrite E in *. destruct (Z.compare_spec (x mod m) (y mod m)).
      * apply Z.compare_eq_iff. lia.
      * apply Z.compare_lt_iff. lia.
      * apply Z.compare_gt_iff. lia.
    + apply Z.compare_lt_iff. nia.
    + apply Z.compare_gt_iff. nia.
Qed.

(** Flipping the sign bit is adding [2^63]. *)
Lemma lxor_top x : (0 ≤ x < 2 ^ 63)%Z → Z.lxor x (2 ^ 63) = (x + 2 ^ 63)%Z.
Proof.
  intros Hx. symmetry. apply Z.add_nocarry_lxor. apply Z.bits_inj'. intros n Hn.
  rewrite Z.land_spec, Z.bits_0, Z.pow2_bits_eqb by lia. destruct (Z.eqb_spec 63 n) as [<-|]; [|apply andb_false_r].
  rewrite andb_true_r. rewrite Z.testbit_eqb by lia. rewrite Z.div_small by done. done.
Qed.

Lemma flip_sign z : i64_ok z = true → Z.lxor (to_unsigned z) (2 ^ 63) = (z + 2 ^ 63)%Z.
Proof.
  rewrite i64_ok_iff. unfold i64_min, i64_max, to_unsigned. intros Hz. destruct (Z.leb_spec 0 z).
  - rewrite Z.mod_small by lia. apply lxor_top. lia.
  - replace (z mod 2 ^ 64)%Z with ((z + 2 ^ 63) + 2 ^ 63)%Z.
    + rewrite <- (lxor_top (z + 2 ^ 63)) by lia. by rewrite Z.lxor_assoc, Z.lxor_nilpotent, Z.lxor_0_r.
    + rewrite <- (Z.mod_add z 1 (2 ^ 64)) by lia. rewrite Z.mod_small; lia.
Qed.

Lemma unflip_sign z : i64_ok z = true → to_signed (Z.lxor (z + 2 ^ 63) (2 ^ 63)) = z.
Proof.
  intros Hz. rewrite <- flip_sign by done. rewrite Z.lxor_assoc, Z.lxor_nilpotent, Z.lxor_0_r.
  apply i64_ok_iff in Hz. unfold i64_min, i64_max, to_unsigned, to_signed in *.
  destruct (Z.leb_spec 0 z).
  - rewrite Z.mod_small by lia. destruct (Z.ltb_spec z (2 ^ 63)); lia.
  - rewrite <- (Z.mod_add z 1 (2 ^ 64)), Z.mod_small by lia. destruct (Z.ltb_spec (z + 1 * 2 ^ 64) (2 ^ 63)); lia.
Qed.

(** * UTF-8 *)
Definition in_range (lo hi : N) (b : u8) : bool := (lo <=? Byte.to_N b)%N && (Byte.to_N b <=? hi)%N.
Definition cont (b : u8) : bool := in_range 128 191 b.

(** Well-formed UTF-8 as [core::str::from_utf8] checks it: no overlong forms,
    no surrogates, nothing above U+10FFFF. *)
Fixpoint utf8_valid (bs : list u8) : bool :=
  match bs with
  | [] => true
  | b :: r1 =>
      if in_range 0 127 b then utf8_valid r1
      else match r1 with
      | [] => false
      | c1 :: r2 =>
          if in_range 194 223 b then cont c1 && utf8_valid r2
          else match r2 with
          | [] => false
          | c2 :: r3 =>
              if (in_range 224 224 b && in_range 160 191 c1) || (in_range 225 236 b && cont c1)
                 || (in_range 237 237 b && in_range 128 159 c1) || (in_range 238 239 b && cont c1)
              then cont c2 && utf8_valid r3
              else match r3 with
              | [] => false
              | c3 :: r4 =>
                  ((in_range 240 240 b && in_range 144 191 c1) || (in_range 241 243 b && cont c1)
                   || (in_range 244 244 b && in_range 128 143 c1))
                  && cont c2 && cont c3 && utf8_valid r4
              end
          end
      end
  end.
Definition from_utf8 (bs : list u8) : option string :=
  if utf8_valid bs then Some (String.string_of_list_byte bs) else None.

(** The bytes of a [str]. *)
Definition as_bytes (s : string) : list u8 := String.list_byte_of_string s.

Lemma from_utf8_as_bytes s : utf8_valid (as_bytes s) = true → from_utf8 (as_bytes s) = Some s.
Proof. intros Hs. unfold from_utf8, as_bytes in *. by rewrite Hs, String.string_of_list_byte_of_string. Qed.

(** * Keys *)
Inductive KeyType : Type := KInt | KBool | KString | KId.
Definition key_type_to_u8 (t : KeyType) : u8 :=
  match t with KInt => Byte.x00 | KBool => Byte.x01 | KString => Byte.x02 | KId => Byte.x03 end.
Definition key_type_from_u8 (b : u8) : option KeyType :=
  match b with
  | Byte.x00 => Some KInt | Byte.x01 => Some KBool | Byte.x02 => Some KString | Byte.x03 => Some KId
  | _ => None
  end.

Definition value_bytes (v : HashableValue) : KeyType * list u8 :=
  match v with
  | HInt int => (KInt, be_bytes 8 (Z.lxor (to_unsigned int) (2 ^ 63)))
  | HBool b => (KBool, if b then [Byte.x01] else [Byte.x00])
  | HString s => (KString, as_bytes s)
  | HId id => (KId, id)
  end.

(** [ser_key]. *)
Definition ser_key (k : FactKey) : list u8 :=
  let identifier := as_bytes (fk_identifier k) in
  let '(tag, value) := value_bytes (fk_value k) in
  be_bytes 8 (Z.of_nat (length identifier)) ++ identifier ++ [key_type_to_u8 tag] ++ value.

Definition ID_LEN : nat := 64.

(** The match on the tag in [deser_key]. *)
Definition deser_value (tag : KeyType) (bytes : list u8) : outcome string HashableValue :=
  match tag with
  | KInt =>
      if length bytes =? 8 then Ok (HInt (to_signed (Z.lxor (from_be bytes) (2 ^ 63))))
      else Err "invalid integer length"
  | KBool => match bytes with
             | [Byte.x00] => Ok (HBool false)
             | [Byte.x01] => Ok (HBool true)
             | _ => Err "invalid boolean"
             end
  | KString => s ← ok_or (from_utf8 bytes) "string not utf8"; Ok (HString s)
  | KId => if length bytes =? ID_LEN then Ok (HId bytes) else Err "invalid ID length"
  end.

(** [deser_key]; [usize] has 64 bits. *)
Definition deser_key (bytes : list u8) : outcome string FactKey :=
  chunk ← ok_or (split_first_chunk 8 bytes) "missing identifier length";
  let '(len, bytes) := chunk in
  let identifier_len := Z.to_nat (from_be len) in
  if length bytes <? identifier_len then Err "identifier too short"
  else
    let identifier := take identifier_len bytes in
    let bytes := drop identifier_len bytes in
    identifier ← ok_or (from_utf8 identifier) "identifier not utf8";
    match bytes with
    | [] => Err "missing tag"
    | tag :: bytes =>
        tag ← ok_or (key_type_from_u8 tag) "invalid tag";
        value ← deser_value tag bytes;
        Ok (mkFactKey identifier value)
    end.

(** [ser_keys] and [deser_keys]; the error of [deser_keys] is
    [MachineIOError::Internal], left to the caller. *)
Definition ser_keys (ks : list FactKey) : Keys := map ser_key ks.
Fixpoint deser_keys (ks : Keys) : outcome string (list FactKey) :=
  match ks with
  | [] => Ok []
  | k :: ks' => key ← deser_key k; rest ← deser_keys ks'; Ok (key :: rest)
  end.

(** ** Keys that are values of their Rust types *)
Definition hashable_ok (v : HashableValue) : Prop :=
  match v with
  | HInt i => i64_ok i = true
  | HBool _ => True
  | HString s => utf8_valid (as_bytes s) = true
  | HId id => length id = ID_LEN
  end.
Definition fact_key_ok (k : FactKey) : Prop :=
  utf8_valid (as_bytes (fk_identifier k)) = true
  ∧ (Z.of_nat (length (as_bytes (fk_identifier k))) < 2 ^ 64)%Z ∧ hashable_ok (fk_value k).

Lemma key_type_roundtrip t : key_type_from_u8 (key_type_to_u8 t) = Some t.
Proof. by destruct t. Qed.

Lemma deser_value_bytes v : hashable_ok v → deser_value (value_bytes v).1 (value_bytes v).2 = Ok v.
Proof.
  destruct v as [i|b|s|id]; cbn [value_bytes hashable_ok fst snd deser_value]; intros Hv.
  - rewrite length_be_bytes. cbn [Nat.eqb]. rewrite flip_sign by done.
    rewrite from_be_bytes, unflip_sign; [done|done|].
    apply i64_ok_iff in Hv. unfold i64_min, i64_max in Hv. change (256 ^ Z.of_nat 8)%Z with (2 ^ 64)%Z. lia.
  - by destruct b.
  - by rewrite from_utf8_as_bytes.
  - by rewrite Hv.
Qed.

Lemma deser_ser_key k : fact_key_ok k → deser_key (ser_key k) = Ok k.
Proof.
  destruct k as [name v]. intros (Hu & Hlen & Hv%deser_value_bytes). cbn [fk_identifier fk_value] in *.
  unfold ser_key, deser_key. cbn [fk_identifier fk_value].
  destruct (value_bytes v) as [tag vb]. cbn [fst snd] in Hv. unfold split_first_chunk.
  rewrite length_app, length_be_bytes. cbn [Nat.leb Nat.add ok_or mbind outcome_bind].
  rewrite take_app_length', drop_app_length' by by rewrite length_be_bytes.
  rewrite from_be_bytes by (change (256 ^ Z.of_nat 8)%Z with (2 ^ 64)%Z; lia). rewrite Nat2Z.id.
  destruct (Nat.ltb_spec (length (as_bytes name ++ [key_type_to_u8 tag] ++ vb)) (length (as_bytes name)));
    [rewrite length_app in *; lia|].
  rewrite take_app_length, drop_app_length, from_utf8_as_bytes by done. cbn [ok_or mbind outcome_bind app].
  rewrite key_type_roundtrip. cbn [ok_or mbind outcome_bind]. by rewrite Hv.
Qed.

Lemma deser_ser_keys ks : Forall fact_key_ok ks → deser_keys (ser_keys ks) = Ok ks.
Proof.
  induction 1 as [|k ks Hk _ IH]; [done|]. unfold ser_keys. cbn [map deser_keys].
  rewrite deser_ser_key by done. cbn [mbind outcome_bind]. unfold ser_keys in IH. by rewrite IH.
Qed.

(** Distinct keys have distinct encodings, so prefixes of keys are prefixes of
    encodings. *)
Lemma ser_key_inj k1 k2 : fact_key_ok k1 → fact_key_ok k2 → ser_key k1 = ser_key k2 → k1 = k2.
Proof. intros H1%deser_ser_key H2%deser_ser_key E. rewrite E in H1. congruence. Qed.

Lemma starts_with_ser_keys p ks :
  Forall fact_key_ok p → Forall fact_key_ok ks → starts_with (ser_keys p) (ser_keys ks) = starts_with p ks.
Proof.
  intros Hp. revert ks. induction Hp as [|k p Hk _ IH]; intros [|k' ks]; simpl; try done.
  intros HF. inversion HF; subst. rewrite IH by done. f_equal. apply bool_decide_ext.
  split; [by apply ser_key_inj|congruence].
Qed.

(** ** Order *)
Lemma cmp_app_prefix {A} `{OrdLaws A} (p a b : list A) : cmp (p ++ a) (p ++ b) = cmp a b.
Proof. induction p as [|x p IH]; [done|]. cbn [app]. by rewrite cmp_cons, cmp_refl. Qed.

Lemma cmp_ser_key_value name v1 v2 :
  (value_bytes v1).1 = (value_bytes v2).1 →
  cmp (ser_key (mkFactKey name v1)) (ser_key (mkFactKey name v2)) = cmp (value_bytes v1).2 (value_bytes v2).2.
Proof.
  unfold ser_key. cbn [fk_identifier fk_value]. destruct (value_bytes v1) as [t1 b1], (value_bytes v2) as [t2 b2].
  cbn [fst snd]. intros ->. by rewrite !cmp_app_prefix.
Qed.

(** * Claims *)

(** Fact keys survive storage: for every key whose strings are UTF-8, whose
    integer is an [i64] and whose ID has the length of an ID, [deser_key] of
    [ser_key] gives the key back, and the same for sequences of keys. *)
Theorem fact_key_roundtrip k ks :
  fact_key_ok k → Forall fact_key_ok ks →
  deser_key (ser_key k) = Ok k ∧ deser_keys (ser_keys ks) = Ok ks.
Proof. intros Hk Hks. split; [by apply deser_ser_key|by apply deser_ser_keys]. Qed.

Lemma fact_key_roundtrip_witness :
  deser_key (ser_key (mkFactKey "n" (HInt (-5)))) = Ok (mkFactKey "n" (HInt (-5)))
  ∧ deser_keys (ser_keys [mkFactKey "a" (HBool true); mkFactKey "b" (HString "x")])
    = Ok [mkFactKey "a" (HBool true); mkFactKey "b" (HString "x")].
Proof.
  apply (fact_key_roundtrip (mkFactKey "n" (HInt (-5))) [mkFactKey "a" (HBool true); mkFactKey "b" (HString "x")]).
  - split_and!; vm_compute; reflexivity.
  - repeat constructor; vm_compute; reflexivity.
Defined.

(** Encoded keys sort like the values: for two keys with the same name and
    values of the same type, the byte strings [ser_key] produces compare
    exactly as the values do, negative integers included, so prefix queries
    iterate over facts in value order. *)
Theorem ser_key_preserves_order name v1 v2 :
  hashable_ok v1 → hashable_ok v2 → hashable_vtype v1 = hashable_vtype v2 →
  cmp (ser_key (mkFactKey name v1)) (ser_key (mkFactKey name v2)) = cmp v1 v2.
Proof.
  intros H1 H2 Ht. destruct v1 as [i|b|s|id], v2 as [j|c|t|jd]; try discriminate;
    rewrite cmp_ser_key_value by done; cbn [value_bytes snd]; unfold cmp at 2, hashable_ord; cbn [hashable_repr].
  - rewrite !flip_sign by done. apply i64_ok_iff in H1, H2. unfold i64_min, i64_max in *.
    rewrite cmp_be_bytes by (change (256 ^ Z.of_nat 8)%Z with (2 ^ 64)%Z; lia).
    unfold cmp, pair_ord, cmp, nat_ord, Z_ord. cbn [fst snd Nat.compare].
    rewrite !(Z.add_comm _ (2 ^ 63)), Z.add_compare_mono_l. by destruct (i ?= j)%Z.
  - by destruct b, c.
  - reflexivity.
  - reflexivity.
Qed.

Lemma ser_key_preserves_order_witness :
  cmp (ser_key (mkFactKey "n" (HInt (-1)))) (ser_key (mkFactKey "n" (HInt 1))) = cmp (HInt (-1)) (HInt 1).
Proof. apply (ser_key_preserves_order "n" (HInt (-1)) (HInt 1)); vm_compute; reflexivity. Defined.
