(* ===== verification/MemFacts.v ===== *)
(** The in-memory fact index and fact perspective of [storage/memory.rs], and
    that both are fact stores in the sense of the query interface. *)
From S2P Require Import Prelude Collections RuntimeTypes FactStore.
Local Open Scope list_scope.
Local Open Scope nat_scope.
Implicit Types (name : string) (keys prefix : Keys) (m : FactMap) (nm : NamedFactMap).

(** * Fact indices

    [MemFactIndex] is a shared immutable chain: the facts of one segment and
    the index they are layered on. *)
Inductive MemFactIndex : Type :=
| MemFacts (map : NamedFactMap) (prior : option MemFactIndex).

Definition mfi_map (i : MemFactIndex) : NamedFactMap := match i with MemFacts m _ => m end.
Definition mfi_prior (i : MemFactIndex) : option MemFactIndex := match i with MemFacts _ p => p end.

Section Induction.
Variable P : MemFactIndex → Prop.
Hypothesis Hroot : ∀ nm, P (MemFacts nm None).
Hypothesis Hlayer : ∀ nm i, P i → P (MemFacts nm (Some i)).
Fixpoint mfi_ind (i : MemFactIndex) : P i :=
  match i with
  | MemFacts nm None => Hroot nm
  | MemFacts nm (Some j) => Hlayer nm j (mfi_ind j)
  end.
End Induction.

(** The loop of [query]. *)
Fixpoint mfi_lookup (i : MemFactIndex) name keys : option Bytes :=
  match i with
  | MemFacts nm prior =>
      match named_get name keys nm with
      | Some slot => slot
      | None => match prior with Some j => mfi_lookup j name keys | None => None end
      end
  end.
Definition mfi_query (i : MemFactIndex) name keys : outcome StorageError (option Bytes) :=
  Ok (mfi_lookup i name keys).

(** The inner loop of [query_prefix_inner]: do not override what was found. *)
Definition add_missing (l : list (Keys * option Bytes)) (matches : FactMap) : FactMap :=
  fold_left (λ acc kv, if bt_contains kv.1 acc then acc else bt_insert kv.1 kv.2 acc) l matches.
Fixpoint mfi_prefix_loop (i : MemFactIndex) name prefix (matches : FactMap) : FactMap :=
  match i with
  | MemFacts nm prior =>
      let matches := match bt_get name nm with
                     | Some m => add_missing (find_prefixes m prefix) matches
                     | None => matches
                     end in
      match prior with Some j => mfi_prefix_loop j name prefix matches | None => matches end
  end.
Definition mfi_query_prefix_inner (i : MemFactIndex) name prefix : FactMap :=
  mfi_prefix_loop i name prefix [].
Definition mfi_query_prefix (i : MemFactIndex) name prefix : outcome StorageError QueryItems :=
  Ok (map Ok (live_facts (mfi_query_prefix_inner i name prefix))).

#[export] Instance mfi_query_instance : Query MemFactIndex :=
  {| query := mfi_query; query_prefix := mfi_query_prefix |}.

(** ** Fact indices are fact stores *)

(** The newest slot of a key along the chain. *)
Fixpoint mfi_slot (i : MemFactIndex) name keys : option (option Bytes) :=
  match i with
  | MemFacts nm prior =>
      match named_get name keys nm with
      | Some slot => Some slot
      | None => match prior with Some j => mfi_slot j name keys | None => None end
      end
  end.
Definition slot_view (o : option (option Bytes)) : option Bytes := match o with Some v => v | None => None end.
Definition mfi_view (i : MemFactIndex) : FactView := λ name keys, slot_view (mfi_slot i name keys).

Fixpoint mfi_wf (i : MemFactIndex) : Prop :=
  match i with
  | MemFacts nm prior => named_wf nm ∧ match prior with Some j => mfi_wf j | None => True end
  end.

Lemma mfi_lookup_view i name keys : mfi_lookup i name keys = mfi_view i name keys.
Proof.
  unfold mfi_view. induction i as [nm|nm i IH] using mfi_ind; simpl; by destruct (named_get name keys nm).
Qed.

Lemma add_missing_wf l (matches : FactMap) : bt_wf matches → bt_wf (add_missing l matches).
Proof.
  unfold add_missing. revert matches. induction l as [|kv l IH]; intros matches Hwf; simpl; [done|].
  apply IH. case_match; [done|by apply bt_wf_insert].
Qed.

Lemma add_missing_get l (matches : FactMap) k :
  bt_wf l → bt_get k (add_missing l matches) =
    match bt_get k matches with Some v => Some v | None => bt_get k l end.
Proof.
  unfold add_missing. intros Hwf. revert matches. induction Hwf as [|[k1 v1] l Hwf IH HF]; intros matches; simpl.
  - by destruct (bt_get k matches).
  - rewrite IH. unfold bt_contains. destruct (bt_get k1 matches) eqn:E1.
    + destruct (bt_get k matches) eqn:E; [done|]. destruct (ord_eqb k k1) eqn:Ek; [|done].
      apply ord_eqb_true in Ek as ->. congruence.
    + rewrite bt_get_insert. destruct (ord_eqb k k1) eqn:Ek; [|done].
      apply ord_eqb_true in Ek as ->. by rewrite E1.
Qed.

Lemma mfi_prefix_loop_spec i name prefix (matches : FactMap) :
  mfi_wf i → bt_wf matches →
  bt_wf (mfi_prefix_loop i name prefix matches)
  ∧ ∀ k, bt_get k (mfi_prefix_loop i name prefix matches) =
      match bt_get k matches with
      | Some v => Some v
      | None => if starts_with prefix k then mfi_slot i name k else None
      end.
Proof.
  revert matches. assert (∀ nm matches, named_wf nm → bt_wf matches →
    let r := match bt_get name nm with
             | Some m => add_missing (find_prefixes m prefix) matches | None => matches end in
    bt_wf r ∧ ∀ k, bt_get k r = match bt_get k matches with
      | Some v => Some v | None => if starts_with prefix k then named_get name k nm else None end) as Hlayer.
  { intros nm matches Hnm Hm. simpl. split; [case_match; [by apply add_missing_wf|done]|]. intros k.
    unfold named_get. destruct (bt_get name nm) as [m|] eqn:E.
    - assert (bt_wf m) by by eapply named_wf_get.
      rewrite add_missing_get, bt_get_find_prefixes by eauto using bt_wf_find_prefixes. done.
    - destruct (bt_get k matches); [done|]. by destruct (starts_with prefix k). }
  induction i as [nm|nm i IH] using mfi_ind; intros matches [Hnm Hi] Hm; simpl;
    destruct (Hlayer nm matches Hnm Hm) as [Hwf Hget].
  - split; [done|]. intros k. rewrite Hget. destruct (bt_get k matches); [done|].
    destruct (starts_with prefix k); [|done]. by destruct (named_get name k nm).
  - destruct (IH _ Hi Hwf) as [Hwf' Hget']. split; [done|]. intros k. rewrite Hget', Hget.
    destruct (bt_get k matches); [done|]. destruct (starts_with prefix k); [|done].
    by destruct (named_get name k nm).
Qed.

#[export] Instance mfi_laws : QueryLaws MemFactIndex mfi_wf mfi_view.
Proof.
  split.
  - intros i name keys Hi. simpl. unfold mfi_query. by rewrite mfi_lookup_view.
  - intros i name prefix Hi. eexists. split; [done|].
    destruct (mfi_prefix_loop_spec i name prefix [] Hi) as [Hwf Hget]; [constructor|].
    by apply lists_prefix_live with (slot := mfi_slot i name).
Qed.

(** * Fact perspectives *)
Inductive MemFactPerspective : Type :=
| MemFP (map : NamedFactMap) (prior : FactPerspectivePrior)
with FactPerspectivePrior : Type :=
| FPNone
| FPPerspective (p : MemFactPerspective)
| FPIndex (i : MemFactIndex).

Definition mfp_map (p : MemFactPerspective) : NamedFactMap := match p with MemFP m _ => m end.
Definition mfp_prior (p : MemFactPerspective) : FactPerspectivePrior := match p with MemFP _ q => q end.

(** [From<Option<MemFactIndex>> for FactPerspectivePrior]. *)
Definition prior_of_option (o : option MemFactIndex) : FactPerspectivePrior :=
  match o with None => FPNone | Some i => FPIndex i end.

Definition mfp_new (prior : FactPerspectivePrior) : MemFactPerspective := MemFP [] prior.
Definition mfp_clear (p : MemFactPerspective) : MemFactPerspective := MemFP [] (mfp_prior p).

Definition Update : Type := string * Keys * option Bytes.
Definition apply_updates (updates : list Update) (p : MemFactPerspective) : MemFactPerspective :=
  MemFP (fold_left (λ nm u, named_insert u.1.1 u.1.2 u.2 nm) updates (mfp_map p)) (mfp_prior p).

Fixpoint mfp_query (p : MemFactPerspective) name keys : outcome StorageError (option Bytes) :=
  match p with
  | MemFP nm prior =>
      match named_get name keys nm with
      | Some wrapped => Ok wrapped
      | None => match prior with
                | FPNone => Ok None
                | FPPerspective q => mfp_query q name keys
                | FPIndex i => mfi_query i name keys
                end
      end
  end.

(** Overwrite the earlier facts. *)
Definition overwrite (l : list (Keys * option Bytes)) (matches : FactMap) : FactMap :=
  fold_left (λ acc kv, bt_insert kv.1 kv.2 acc) l matches.
Fixpoint mfp_query_prefix_inner (p : MemFactPerspective) name prefix : FactMap :=
  match p with
  | MemFP nm prior =>
      let matches := match prior with
                     | FPNone => []
                     | FPPerspective q => mfp_query_prefix_inner q name prefix
                     | FPIndex i => mfi_query_prefix_inner i name prefix
                     end in
      match bt_get name nm with
      | Some m => overwrite (find_prefixes m prefix) matches
      | None => matches
      end
  end.
Definition mfp_query_prefix (p : MemFactPerspective) name prefix : outcome StorageError QueryItems :=
  Ok (map Ok (live_facts (mfp_query_prefix_inner p name prefix))).

Definition mfp_insert name keys (v : Bytes) (p : MemFactPerspective) : MemFactPerspective :=
  MemFP (named_insert name keys (Some v) (mfp_map p)) (mfp_prior p).
Definition mfp_delete name keys (p : MemFactPerspective) : MemFactPerspective :=
  MemFP (named_insert name keys None (mfp_map p)) (mfp_prior p).

#[export] Instance mfp_query_instance : Query MemFactPerspective :=
  {| query := mfp_query; query_prefix := mfp_query_prefix |}.
#[export] Instance mfp_query_mut : QueryMut MemFactPerspective :=
  {| q_insert := mfp_insert; q_delete := mfp_delete |}.

(** [MemStorage::write_facts]. *)
Fixpoint write_facts (facts : MemFactPerspective) : outcome StorageError MemFactIndex :=
  match facts with
  | MemFP nm prior =>
      prior' ← match prior with
               | FPNone => Ok None
               | FPPerspective q => i ← write_facts q; Ok (Some i)
               | FPIndex i => Ok (Some i)
               end;
      match nm, prior' with
      | [], Some i => Ok i
      | _, _ => Ok (MemFacts nm prior')
      end
  end.

(** ** Fact perspectives are mutable fact stores *)
Section PerspectiveInduction.
Variable P : MemFactPerspective → Prop.
Hypothesis Hnone : ∀ nm, P (MemFP nm FPNone).
Hypothesis Hpersp : ∀ nm q, P q → P (MemFP nm (FPPerspective q)).
Hypothesis Hindex : ∀ nm i, P (MemFP nm (FPIndex i)).
Fixpoint mfp_ind (p : MemFactPerspective) : P p :=
  match p with
  | MemFP nm FPNone => Hnone nm
  | MemFP nm (FPPerspective q) => Hpersp nm q (mfp_ind q)
  | MemFP nm (FPIndex i) => Hindex nm i
  end.
End PerspectiveInduction.

Fixpoint mfp_slot (p : MemFactPerspective) name keys : option (option Bytes) :=
  match p with
  | MemFP nm prior =>
      match named_get name keys nm with
      | Some slot => Some slot
      | None => match prior with
                | FPNone => None
                | FPPerspective q => mfp_slot q name keys
                | FPIndex i => mfi_slot i name keys
                end
      end
  end.
Definition mfp_view (p : MemFactPerspective) : FactView := λ name keys, slot_view (mfp_slot p name keys).
Fixpoint mfp_wf (p : MemFactPerspective) : Prop :=
  match p with
  | MemFP nm prior =>
      named_wf nm ∧ match prior with FPNone => True | FPPerspective q => mfp_wf q | FPIndex i => mfi_wf i end
  end.

(** The view of what a perspective is layered on. *)
Definition prior_view (q : FactPerspectivePrior) : FactView :=
  match q with FPNone => λ _ _, None | FPPerspective p => mfp_view p | FPIndex i => mfi_view i end.
Definition prior_wf (q : FactPerspectivePrior) : Prop :=
  match q with FPNone => True | FPPerspective p => mfp_wf p | FPIndex i => mfi_wf i end.

Lemma mfp_view_layer nm prior name keys :
  mfp_view (MemFP nm prior) name keys =
    match named_get name keys nm with Some slot => slot | None => prior_view prior name keys end.
Proof. unfold mfp_view. simpl. destruct (named_get name keys nm); [done|]. by destruct prior. Qed.

Lemma mfp_wf_layer nm prior : mfp_wf (MemFP nm prior) ↔ named_wf nm ∧ prior_wf prior.
Proof. by destruct prior. Qed.

Lemma mfp_query_view p name keys : mfp_query p name keys = Ok (mfp_view p name keys).
Proof.
  unfold mfp_view. induction p as [nm|nm q IH|nm i] using mfp_ind; simpl; destruct (named_get name keys nm); try done.
  unfold mfi_query. by rewrite mfi_lookup_view.
Qed.

Lemma overwrite_wf l (matches : FactMap) : bt_wf matches → bt_wf (overwrite l matches).
Proof.
  unfold overwrite. revert matches. induction l as [|kv l IH]; intros matches Hwf; simpl; [done|].
  by apply IH, bt_wf_insert.
Qed.

Lemma overwrite_get l (matches : FactMap) k :
  bt_wf l → bt_get k (overwrite l matches) =
    match bt_get k l with Some v => Some v | None => bt_get k matches end.
Proof.
  unfold overwrite. intros Hwf. revert matches. induction Hwf as [|[k1 v1] l Hwf IH HF]; intros matches; simpl; [done|].
  rewrite IH, bt_get_insert. destruct (ord_eqb k k1) eqn:Ek; [|done]. apply ord_eqb_true in Ek as ->.
  by rewrite (bt_wf_notin k1 v1 l) by by constructor.
Qed.

Lemma mfp_prefix_inner_spec p name prefix :
  mfp_wf p →
  bt_wf (mfp_query_prefix_inner p name prefix)
  ∧ ∀ k, bt_get k (mfp_query_prefix_inner p name prefix)
         = if starts_with prefix k then mfp_slot p name k else None.
Proof.
  assert (∀ nm (matches : FactMap) slot, named_wf nm → bt_wf matches →
    (∀ k, bt_get k matches = if starts_with prefix k then slot k else None) →
    let r := match bt_get name nm with Some m => overwrite (find_prefixes m prefix) matches | None => matches end in
    bt_wf r ∧ ∀ k, bt_get k r = if starts_with prefix k
      then match named_get name k nm with Some s => Some s | None => slot k end else None) as Hlayer.
  { intros nm matches slot Hnm Hm Hs. simpl. split; [case_match; [by apply overwrite_wf|done]|]. intros k.
    unfold named_get. destruct (bt_get name nm) as [m|] eqn:E; [|apply Hs].
    assert (bt_wf m) by by eapply named_wf_get.
    rewrite overwrite_get, bt_get_find_prefixes, Hs by eauto using bt_wf_find_prefixes.
    by destruct (starts_with prefix k). }
  induction p as [nm|nm q IH|nm i] using mfp_ind; intros [Hnm Hp]; simpl.
  - apply Hlayer; [done|constructor|]. intros k. by destruct (starts_with prefix k).
  - destruct (IH Hp). by apply Hlayer.
  - destruct (mfi_prefix_loop_spec i name prefix [] Hp) as [Hwf Hget]; [constructor|]. by apply Hlayer.
Qed.

Lemma mfp_update_wf name keys v p :
  mfp_wf p → mfp_wf (MemFP (named_insert name keys v (mfp_map p)) (mfp_prior p)).
Proof. destruct p as [nm q]. intros [Hnm Hq]. split; [by apply named_wf_insert|done]. Qed.

Lemma mfp_update_view name keys v p n k :
  mfp_view (MemFP (named_insert name keys v (mfp_map p)) (mfp_prior p)) n k
  = view_insert name keys v (mfp_view p) n k.
Proof.
  destruct p as [nm q]. rewrite !mfp_view_layer. simpl. rewrite named_get_insert. unfold view_insert.
  case_decide; [done|]. by rewrite mfp_view_layer.
Qed.

#[export] Instance mfp_laws : QueryMutLaws MemFactPerspective mfp_wf mfp_view.
Proof.
  split; [split|..].
  - intros p name keys _. apply mfp_query_view.
  - intros p name prefix Hp. eexists. split; [done|].
    destruct (mfp_prefix_inner_spec p name prefix Hp) as [Hwf Hget].
    by apply lists_prefix_live with (slot := mfp_slot p name).
  - intros. by apply mfp_update_wf.
  - intros. apply mfp_update_view.
  - intros. by apply mfp_update_wf.
  - intros. apply mfp_update_view.
Qed.

(** ** Applying a sequence of updates *)
Definition view_updates (updates : list Update) (w : FactView) : FactView :=
  fold_left (λ w u, view_insert u.1.1 u.1.2 u.2 w) updates w.

Lemma view_insert_ext name keys v (w1 w2 : FactView) :
  (∀ n k, w1 n k = w2 n k) → ∀ n k, view_insert name keys v w1 n k = view_insert name keys v w2 n k.
Proof. intros Hw n k. unfold view_insert. by case_decide. Qed.

Lemma view_updates_ext updates (w1 w2 : FactView) :
  (∀ n k, w1 n k = w2 n k) → ∀ n k, view_updates updates w1 n k = view_updates updates w2 n k.
Proof.
  unfold view_updates. revert w1 w2. induction updates as [|u us IH]; intros w1 w2 Hw n k; simpl; [done|].
  apply IH. by apply view_insert_ext.
Qed.

Lemma apply_updates_step u us p :
  apply_updates (u :: us) p = apply_updates us (MemFP (named_insert u.1.1 u.1.2 u.2 (mfp_map p)) (mfp_prior p)).
Proof. done. Qed.

Lemma apply_updates_wf us p : mfp_wf p → mfp_wf (apply_updates us p).
Proof.
  revert p. induction us as [|u us IH]; intros p Hp; [by destruct p|].
  rewrite apply_updates_step. by apply IH, mfp_update_wf.
Qed.

Lemma apply_updates_view us p n k :
  mfp_view (apply_updates us p) n k = view_updates us (mfp_view p) n k.
Proof.
  revert p. induction us as [|u us IH]; intros p; [by destruct p|].
  rewrite apply_updates_step, IH. apply (view_updates_ext us _ (view_insert u.1.1 u.1.2 u.2 (mfp_view p))). intros n' k'. apply mfp_update_view.
Qed.

(** ** Writing a perspective *)

(** Writing never fails, and the index shows the facts of the perspective. *)
Lemma write_facts_spec p :
  mfp_wf p → ∃ i, write_facts p = Ok i ∧ mfi_wf i ∧ ∀ n k, mfi_view i n k = mfp_view p n k.
Proof.
  assert (∀ nm (prior : option MemFactIndex) (w : FactView), named_wf nm →
    match prior with Some j => mfi_wf j ∧ ∀ n k, mfi_view j n k = w n k | None => ∀ n k, w n k = None end →
    ∃ i, match nm, prior with [], Some i => Ok i | _, _ => Ok (MemFacts nm prior) end = Ok (E := StorageError) i
      ∧ mfi_wf i ∧ ∀ n k, mfi_view i n k = match named_get n k nm with Some s => s | None => w n k end) as Hlayer.
  { intros nm prior w Hnm Hprior. assert (mfi_wf (MemFacts nm prior) ∧ ∀ n k, mfi_view (MemFacts nm prior) n k
      = match named_get n k nm with Some s => s | None => w n k end) as Hgen.
    { destruct prior as [j|]; simpl; (split; [naive_solver|]); intros n k; unfold mfi_view; simpl;
        destruct (named_get n k nm); try done; naive_solver. }
    destruct nm as [|nk nm]; [destruct prior as [j|]|]; eexists; naive_solver. }
  induction p as [nm|nm q IH|nm i] using mfp_ind; intros [Hnm Hp]; simpl; unfold mbind, outcome_bind; simpl.
  - destruct (Hlayer nm None (λ _ _, None) Hnm) as (i & Hi & Hwf & Hv); [done|].
    exists i. split_and!; [by destruct nm|done|]. intros n k. by rewrite Hv, mfp_view_layer.
  - destruct (IH Hp) as (j & -> & Hj & Hjv). destruct (Hlayer nm (Some j) (mfp_view q) Hnm) as (i & Hi & Hwf & Hv); [done|].
    exists i. split_and!; [done..|]. intros n k. by rewrite Hv, mfp_view_layer.
  - destruct (Hlayer nm (Some i) (mfi_view i) Hnm) as (i' & Hi & Hwf & Hv); [done|].
    exists i'. split_and!; [done..|]. intros n k. by rewrite Hv, mfp_view_layer.
Qed.
