(* ===== verification/Graph.v ===== *)
(** The graph of commands behind the [Storage] and [Segment] traits of
    [storage/mod.rs]: the two searches the trait provides, [is_ancestor] and
    [get_location_from], over any implementation. *)
From S2P Require Import Prelude Collections RuntimeTypes FactStore.
Local Open Scope string_scope.
Local Open Scope list_scope.
Local Open Scope nat_scope.

(** * The interface of segments and storage *)
Class Storage (St Seg : Type) := {
  get_segment : St → Location → outcome StorageError Seg;
  get_head : St → outcome StorageError Location;
  seg_prior : Seg → Prior Location;
  seg_get_command : Seg → Location → option Command;
  seg_get_from_max_cut : Seg → nat → outcome StorageError (option Location);
  seg_get_from : Seg → Location → outcome StorageError (list Command);
  seg_longest_max_cut : Seg → outcome StorageError nat;
  seg_shortest_max_cut : Seg → nat;
  seg_skip_list : Seg → list (Location * nat);
  seg_head_location : Seg → outcome StorageError Location;
  seg_first_location : Seg → Location;
  seg_contains : Seg → Location → bool;
  seg_policy : Seg → PolicyId
}.

Section Search.
Context {St Seg : Type} `{Storage St Seg}.
Implicit Types (st : St) (seg : Seg) (l : Location) (queue : list Location).

(** The first skip whose max cut is not below the target's. *)
Fixpoint find_skip (target : nat) (skips : list (Location * nat)) : option Location :=
  match skips with
  | [] => None
  | (skip, max_cut) :: skips' => if target <=? max_cut then Some skip else find_skip target skips'
  end.

(** What a segment adds to the queue of a search. *)
Definition enqueue (target : nat) seg queue : list Location :=
  match find_skip target (seg_skip_list seg) with
  | Some skip => vec_push skip queue
  | None => queue ++ prior_list (seg_prior seg)
  end.

(** The loop of [is_ancestor]; [None]: out of fuel. *)
Fixpoint is_ancestor_loop (fuel : nat) st (search : Location) (address : Address) queue
  : option (outcome StorageError bool) :=
  match fuel with
  | 0 => None
  | S fuel' =>
      match vec_pop queue with
      | None => Some (Ok false)
      | Some (location, queue) =>
          if (loc_segment location =? loc_segment search) && (loc_command search <=? loc_command location)
          then Some (Ok true)
          else match get_segment st location with
               | Err e => Some (Err e)
               | Panic w => Some (Panic w)
               | Ok segment =>
                   match seg_longest_max_cut segment with
                   | Err e => Some (Err e)
                   | Panic w => Some (Panic w)
                   | Ok longest =>
                       if longest <? ad_max_cut address then is_ancestor_loop fuel' st search address queue
                       else is_ancestor_loop fuel' st search address
                              (enqueue (ad_max_cut address) segment queue)
                   end
               end
      end
  end.

Definition search_address st (search : Location) : outcome StorageError Address :=
  segment ← get_segment st search;
  command ← sbug (assume (seg_get_command segment search) "location must exist");
  sbug (cmd_address command).

Definition is_ancestor (fuel : nat) st (search : Location) seg : option (outcome StorageError bool) :=
  match search_address st search with
  | Err e => Some (Err e)
  | Panic w => Some (Panic w)
  | Ok address => is_ancestor_loop fuel st search address (prior_list (seg_prior seg))
  end.

(** The loop of [get_location_from]. *)
Fixpoint get_location_loop (fuel : nat) st (address : Address) queue
  : option (outcome StorageError (option Location)) :=
  match fuel with
  | 0 => None
  | S fuel' =>
      match vec_pop queue with
      | None => Some (Ok None)
      | Some (loc, queue) =>
          match (head ← get_segment st loc;
                 longest ← seg_longest_max_cut head;
                 if longest <? ad_max_cut address then Ok (inr queue)
                 else
                   found ← seg_get_from_max_cut head (ad_max_cut address);
                   hit ← match found with
                         | Some loc =>
                             command ← sbug (assume (seg_get_command head loc) "command must exist");
                             Ok (if bool_decide (cmd_id command = ad_id address) then Some loc else None)
                         | None => Ok None
                         end;
                   Ok (match hit with
                       | Some loc => inl loc
                       | None => inr (enqueue (ad_max_cut address) head queue)
                       end)) with
          | Ok (inl loc) => Some (Ok (Some loc))
          | Ok (inr queue) => get_location_loop fuel' st address queue
          | Err e => Some (Err e)
          | Panic w => Some (Panic w)
          end
      end
  end.

Definition get_location_from (fuel : nat) st (start : Location) (address : Address) :=
  get_location_loop fuel st address [start].
Definition get_location (fuel : nat) st (address : Address) : option (outcome StorageError (option Location)) :=
  match get_head st with
  | Ok head => get_location_from fuel st head address
  | Err e => Some (Err e)
  | Panic w => Some (Panic w)
  end.

(** * Well-formed graphs

    The segments of a graph are those at the indices in [D]: a file holds
    other items too, so not every index that can be read is one of a
    segment. A segment occupies one index; its parents are commands of
    segments with lower indices; max cuts count up along a segment and grow
    from parents to children. *)
Definition seg_at st (n : nat) : option Seg :=
  match get_segment st (mkLocation n 0) with Ok seg => Some seg | _ => None end.
Definition present st (n : nat) : Prop := is_Some (seg_at st n).

(** [anc st l x]: the command at [x] is the one at [l] or an ancestor of it. *)
Inductive anc st : Location → Location → Prop :=
| anc_here l x : loc_segment x = loc_segment l → loc_command x ≤ loc_command l → anc st l x
| anc_prior l x seg p :
    seg_at st (loc_segment l) = Some seg → p ∈ prior_list (seg_prior seg) → anc st p x → anc st l x.

(** The max cut of the command at a location. *)
Definition max_cut_at (D : nat → Prop) st l (c : nat) : Prop :=
  D (loc_segment l) ∧
  ∃ seg cmd, seg_at st (loc_segment l) = Some seg ∧ seg_get_command seg l = Some cmd ∧ cmd_max_cut cmd = Ok c.
Definition valid D st l : Prop := ∃ c, max_cut_at D st l c.

(** A segment with index [n], [len] commands and first max cut [base]. *)
Record seg_shape D st (n : nat) seg (base len : nat) : Prop := mk_seg_shape {
  sh_command c : is_Some (seg_get_command seg (mkLocation n c)) ↔ c < len;
  sh_max_cut c cmd : seg_get_command seg (mkLocation n c) = Some cmd → cmd_max_cut cmd = Ok (base + c);
  sh_longest : 0 < len ∧ seg_longest_max_cut seg = Ok (base + len - 1);
  sh_from_max_cut mc :
    mc ≤ base + len - 1 →
    seg_get_from_max_cut seg mc = Ok (if base <=? mc then Some (mkLocation n (mc - base)) else None);
  (** parents come before, and their max cuts are smaller *)
  sh_prior p : p ∈ prior_list (seg_prior seg) →
    loc_segment p < n ∧ ∃ c, max_cut_at D st p c ∧ c < base;
  (** a skip is an ancestor that no ancestor up to its max cut misses *)
  sh_skip l mc : (l, mc) ∈ seg_skip_list seg →
    loc_segment l < n ∧ max_cut_at D st l mc
    ∧ (∃ p, p ∈ prior_list (seg_prior seg) ∧ anc st p l)
    ∧ (∀ p x c, p ∈ prior_list (seg_prior seg) → anc st p x → max_cut_at D st x c → c ≤ mc → anc st l x)
}.

Record graph_ok D st : Prop := mk_graph_ok {
  go_index l seg : D (loc_segment l) → seg_at st (loc_segment l) = Some seg → get_segment st l = Ok seg;
  go_shape n : D n → ∃ seg base len, seg_at st n = Some seg ∧ seg_shape D st n seg base len
}.
End Search.

(** * Correctness of the searches *)
Section Correctness.
Context {St Seg : Type} `{Storage St Seg}.
Variables (D : nat → Prop) (st : St).
Hypothesis Hg : graph_ok D st.
Implicit Types (seg : Seg) (l x p q : Location) (queue : list Location).

Lemma max_cut_at_shape l c :
  max_cut_at D st l c → ∃ seg base len cmd,
    seg_at st (loc_segment l) = Some seg ∧ get_segment st l = Ok seg ∧ seg_shape D st (loc_segment l) seg base len
    ∧ seg_get_command seg l = Some cmd ∧ loc_command l < len ∧ c = base + loc_command l.
Proof.
  intros (HD & seg & cmd & Hs & Hc & Hm). destruct (go_shape _ _ Hg _ HD) as (seg' & base & len & Hs' & Hsh). simplify_eq.
  exists seg, base, len, cmd. destruct l as [n i]. simpl in *.
  assert (i < len) as Hi by (apply (sh_command _ _ _ _ _ _ Hsh); by rewrite Hc).
  split_and!; try done; [by apply (go_index _ _ Hg (mkLocation n i))|].
  apply (sh_max_cut _ _ _ _ _ _ Hsh) in Hc. congruence.
Qed.

Lemma seg_shape_base n seg base len base' len' :
  seg_shape D st n seg base len → seg_shape D st n seg base' len' → base = base'.
Proof.
  intros Hs Hs'. destruct (proj2 (sh_command _ _ _ _ _ _ Hs 0) (proj1 (sh_longest _ _ _ _ _ _ Hs))) as [cmd Hc].
  pose proof (sh_max_cut _ _ _ _ _ _ Hs _ _ Hc) as H1. rewrite (sh_max_cut _ _ _ _ _ _ Hs' _ _ Hc) in H1.
  injection H1. lia.
Qed.

(** The max cut of a command, from the shape of its segment. *)
Lemma max_cut_at_eq l c seg base len :
  max_cut_at D st l c → seg_at st (loc_segment l) = Some seg → seg_shape D st (loc_segment l) seg base len →
  c = base + loc_command l ∧ loc_command l < len.
Proof.
  intros Hl Hs Hsh. destruct l as [n i]. destruct Hl as (_ & seg' & cmd & Hs' & Hc & Hm). simpl in *. simplify_eq.
  rewrite (sh_max_cut _ _ _ _ _ _ Hsh _ _ Hc) in Hm. injection Hm as <-. split; [done|].
  apply (sh_command _ _ _ _ _ _ Hsh). by rewrite Hc.
Qed.

(** A command of a segment of the graph. *)
Lemma shape_max_cut_at n seg base len c :
  D n → seg_at st n = Some seg → seg_shape D st n seg base len → c < len →
  max_cut_at D st (mkLocation n c) (base + c).
Proof.
  intros HD Hs Hsh Hc. destruct (proj2 (sh_command _ _ _ _ _ _ Hsh c) Hc) as [cmd Hcmd].
  split; [done|]. exists seg, cmd. split_and!; [done..|]. by eapply sh_max_cut.
Qed.

Lemma max_cut_at_inj l c c' : max_cut_at D st l c → max_cut_at D st l c' → c = c'.
Proof. intros (_ & s1 & c1 & Hs1 & Hc1 & Hm1) (_ & s2 & c2 & Hs2 & Hc2 & Hm2). congruence. Qed.

Lemma max_cut_at_cmd l c seg cmd :
  max_cut_at D st l c → seg_at st (loc_segment l) = Some seg → seg_get_command seg l = Some cmd →
  D (loc_segment l) ∧ cmd_max_cut cmd = Ok c.
Proof. intros (HD & s1 & c1 & Hs1 & Hc1 & Hm1) Hs Hc. simplify_eq. done. Qed.

Lemma anc_trans l x y : anc st l x → anc st x y → anc st l y.
Proof.
  induction 1 as [l x Hs Hc|l x seg p Hs Hp _ IH]; intros Hxy.
  - destruct Hxy as [x y Hs' Hc'|x y seg p Hs' Hp Hpy].
    + apply anc_here; [congruence|lia].
    + rewrite Hs in Hs'. by eapply anc_prior.
  - eapply anc_prior; [done..|]. by apply IH.
Qed.

(** An ancestor is a command of the graph with no greater max cut. *)
Lemma anc_max_cut l x c : anc st l x → max_cut_at D st l c → ∃ c', max_cut_at D st x c' ∧ c' ≤ c.
Proof.
  intros Ha. revert c. induction Ha as [l x Hs Hc|l x seg p Hs Hp _ IH]; intros c Hl.
  - pose proof (proj1 Hl) as HD.
    apply max_cut_at_shape in Hl as (seg & base & len & cmd & Hseg & _ & Hsh & _ & Hlt & ->).
    exists (base + loc_command x). split; [|lia]. destruct x as [n i]. simpl in *. subst n.
    eapply shape_max_cut_at; [done..|lia].
  - apply max_cut_at_shape in Hl as (seg' & base & len & cmd & Hseg & _ & Hsh & _ & Hlt & ->).
    rewrite Hs in Hseg. simplify_eq.
    destruct (sh_prior _ _ _ _ _ _ Hsh p Hp) as (_ & cp & Hcp & Hlt').
    destruct (IH cp Hcp) as (c' & ? & ?). exists c'. split; [done|lia].
Qed.

(** An ancestor in another segment is reached through a parent. *)
Lemma anc_inv l x seg :
  anc st l x → seg_at st (loc_segment l) = Some seg →
  (loc_segment x = loc_segment l ∧ loc_command x ≤ loc_command l)
  ∨ ∃ p, p ∈ prior_list (seg_prior seg) ∧ anc st p x.
Proof. destruct 1 as [|l x seg' p Hs Hp Hx]; intros Hseg; [by left|]. right. simplify_eq. eauto. Qed.

(** ** Fuel

    Every location popped is replaced by at most two of lower segments. *)
Definition weight l : nat := 2 ^ S (loc_segment l) - 1.
Definition queue_weight queue : nat := sum_list_with weight queue.

Lemma queue_weight_app queue queue' : queue_weight (queue ++ queue') = queue_weight queue + queue_weight queue'.
Proof. unfold queue_weight. by rewrite sum_list_with_app. Qed.

Lemma weight_lt n l : loc_segment l < n → weight l ≤ 2 ^ n - 1.
Proof.
  intros Hlt. unfold weight. pose proof (Nat.pow_le_mono_r 2 (S (loc_segment l)) n). lia.
Qed.

Lemma enqueue_weight n seg base len target queue l :
  seg_shape D st n seg base len → loc_segment l = n →
  queue_weight (enqueue target seg queue) < queue_weight (queue ++ [l]).
Proof.
  intros Hsh <-. unfold enqueue. rewrite queue_weight_app. unfold queue_weight at 3. simpl. unfold weight at 1.
  assert (2 ^ S (loc_segment l) = 2 * 2 ^ loc_segment l) as Hpow by apply Nat.pow_succ_r'.
  pose proof (Nat.pow_nonzero 2 (loc_segment l)).
  destruct (find_skip target (seg_skip_list seg)) as [skip|] eqn:E.
  - unfold vec_push. rewrite queue_weight_app. unfold queue_weight at 2. simpl.
    assert (∃ mc, (skip, mc) ∈ seg_skip_list seg) as [mc Hin].
    { clear -E. induction (seg_skip_list seg) as [|[s m] l IH]; simpl in E; [done|].
      destruct (target <=? m); simplify_eq; [exists m; by left|].
      destruct (IH E) as [mc ?]. exists mc. by right. }
    destruct (sh_skip _ _ _ _ _ _ Hsh _ _ Hin) as [Hlt _]. apply weight_lt in Hlt. lia.
  - rewrite queue_weight_app. pose proof (sh_prior _ _ _ _ _ _ Hsh) as Hp.
    rewrite prior_list_spec in *. unfold queue_weight at 2. destruct (seg_prior seg) as [|a|a b]; simpl.
    + lia.
    + destruct (Hp a) as [Ha _]; [by left|]. apply weight_lt in Ha. lia.
    + destruct (Hp a) as [Ha _]; [by left|]. destruct (Hp b) as [Hb _]; [by right; left|].
      apply weight_lt in Ha, Hb. lia.
Qed.

Lemma find_skip_elem target skips l :
  find_skip target skips = Some l → ∃ mc, (l, mc) ∈ skips ∧ target ≤ mc.
Proof.
  induction skips as [|[s m] skips IH]; simpl; intros E; [done|].
  destruct (Nat.leb_spec target m); simplify_eq; [exists m; split; [by left|done]|].
  destruct (IH E) as (mc & ? & ?). exists mc. split; [by right|done].
Qed.

Lemma enqueue_valid n seg base len target queue :
  seg_shape D st n seg base len → Forall (valid D st) queue → Forall (valid D st) (enqueue target seg queue).
Proof.
  intros Hsh HF. unfold enqueue. destruct (find_skip target (seg_skip_list seg)) as [skip|] eqn:E.
  - apply find_skip_elem in E as (mc & Hin & _). apply Forall_app. split; [done|]. apply Forall_singleton.
    exists mc. by apply (sh_skip _ _ _ _ _ _ Hsh _ _ Hin).
  - apply Forall_app. split; [done|]. apply Forall_forall. intros p Hp.
    destruct (sh_prior _ _ _ _ _ _ Hsh p Hp) as (_ & c & Hc & _). by exists c.
Qed.

(** Replacing a location by what its segment enqueues keeps the ancestors
    with the target's max cut that are in other segments. *)
Lemma enqueue_anc l seg base len target queue x :
  seg_at st (loc_segment l) = Some seg → seg_shape D st (loc_segment l) seg base len →
  max_cut_at D st x target → ¬ (loc_segment x = loc_segment l ∧ loc_command x ≤ loc_command l) →
  (∃ q, q ∈ queue ++ [l] ∧ anc st q x) ↔ ∃ q, q ∈ enqueue target seg queue ∧ anc st q x.
Proof.
  intros Hseg Hsh Hx Hnot. unfold enqueue.
  assert (anc st l x ↔ ∃ p, p ∈ prior_list (seg_prior seg) ∧ anc st p x) as Hl.
  { split; [intros Ha; by destruct (anc_inv _ _ _ Ha Hseg)|]. intros (p & Hp & Ha). by eapply anc_prior. }
  setoid_rewrite elem_of_app. setoid_rewrite list_elem_of_singleton.
  destruct (find_skip target (seg_skip_list seg)) as [skip|] eqn:E.
  - apply find_skip_elem in E as (mc & Hin & Hmc).
    destruct (sh_skip _ _ _ _ _ _ Hsh _ _ Hin) as (_ & _ & (p0 & Hp0 & Hskip) & Hcomplete).
    assert (anc st l x ↔ anc st skip x) as Heq.
    { rewrite Hl. split; [intros (p & Hp & Ha); by eapply Hcomplete|]. intros Ha. exists p0.
      split; [done|by eapply anc_trans]. }
    unfold vec_push. setoid_rewrite elem_of_app. setoid_rewrite list_elem_of_singleton. naive_solver.
  - setoid_rewrite elem_of_app. naive_solver.
Qed.

(** ** [is_ancestor] *)
Lemma is_ancestor_loop_spec fuel search address queue :
  max_cut_at D st search (ad_max_cut address) → Forall (valid D st) queue → queue_weight queue < fuel →
  ∃ b, is_ancestor_loop fuel st search address queue = Some (Ok b)
       ∧ (b = true ↔ ∃ q, q ∈ queue ∧ anc st q search).
Proof.
  intros Hsearch. revert queue. induction fuel as [|fuel IH]; intros queue Hv Hf; [lia|]. simpl.
  destruct queue as [|l queue _] using rev_ind; [exists false; set_solver|].
  rewrite vec_pop_snoc. apply Forall_app in Hv as [Hv Hl]. apply Forall_inv in Hl as [cl Hl].
  destruct ((loc_segment l =? loc_segment search) && (loc_command search <=? loc_command l)) eqn:Ehit.
  { apply andb_true_iff in Ehit as [Hs%Nat.eqb_eq Hc%Nat.leb_le]. exists true. split; [done|]. split; [|done].
    intros _. exists l. split; [set_solver|]. by apply anc_here. }
  assert (¬ (loc_segment search = loc_segment l ∧ loc_command search ≤ loc_command l)) as Hnot.
  { intros [Hs Hc]. apply not_true_iff_false in Ehit. destruct Ehit.
    by apply andb_true_iff; rewrite Nat.eqb_eq, Nat.leb_le. }
  apply max_cut_at_shape in Hl as Hl'. destruct Hl' as (seg & base & len & cmd & Hseg & -> & Hsh & _ & Hlt & ->).
  destruct (sh_longest _ _ _ _ _ _ Hsh) as [_ ->].
  destruct (Nat.ltb_spec (base + len - 1) (ad_max_cut address)).
  - rewrite queue_weight_app in Hf. destruct (IH queue Hv) as (b & -> & Hb).
    { unfold queue_weight at 2 in Hf. simpl in Hf. unfold weight in Hf.
      pose proof (Nat.pow_nonzero 2 (S (loc_segment l))).
      assert (2 ≤ 2 ^ S (loc_segment l)) by (rewrite Nat.pow_succ_r'; pose proof (Nat.pow_nonzero 2 (loc_segment l)); lia).
      lia. }
    exists b. split; [done|]. rewrite Hb. setoid_rewrite elem_of_app. setoid_rewrite list_elem_of_singleton.
    split; [naive_solver|]. intros (q & [?| ->] & Ha); [by eauto|]. exfalso.
    destruct (anc_max_cut _ _ _ Ha Hl) as (c' & Hc' & Hle).
    pose proof (max_cut_at_inj _ _ _ Hsearch Hc'). lia.
  - pose proof (enqueue_weight _ _ _ _ (ad_max_cut address) queue l Hsh eq_refl).
    destruct (IH (enqueue (ad_max_cut address) seg queue)) as (b & -> & Hb).
    + by eapply enqueue_valid.
    + lia.
    + exists b. split; [done|]. rewrite Hb. symmetry. by eapply enqueue_anc.
Qed.

Lemma weight_pos l : 0 < weight l.
Proof.
  unfold weight. rewrite Nat.pow_succ_r'. pose proof (Nat.pow_nonzero 2 (loc_segment l)). lia.
Qed.

Lemma search_address_ok search address seg cmd :
  D (loc_segment search) → seg_at st (loc_segment search) = Some seg → seg_get_command seg search = Some cmd →
  cmd_address cmd = Ok address → search_address st search = Ok address ∧ max_cut_at D st search (ad_max_cut address).
Proof.
  intros HD Hs Hc Ha. unfold search_address. rewrite (go_index _ _ Hg _ _ HD Hs). unfold mbind, outcome_bind. simpl.
  rewrite Hc. simpl. rewrite Ha. split; [done|]. split; [done|]. exists seg, cmd. split_and!; [done..|].
  unfold cmd_address, mbind, outcome_bind in Ha. destruct (cmd_max_cut cmd); simplify_eq. done.
Qed.

(** [is_ancestor] on parents of the graph. *)
Lemma is_ancestor_spec fuel search seg :
  valid D st search → Forall (valid D st) (prior_list (seg_prior seg)) →
  queue_weight (prior_list (seg_prior seg)) < fuel →
  ∃ b, is_ancestor fuel st search seg = Some (Ok b)
       ∧ (b = true ↔ ∃ q, q ∈ prior_list (seg_prior seg) ∧ anc st q search).
Proof.
  intros [c (HD & ss & cmd & Hss & Hcmd & Hm)] Hp Hf. unfold is_ancestor.
  destruct (search_address_ok search (mkAddress (cmd_id cmd) c) ss cmd) as [-> Hat]; [done..| |].
  { unfold cmd_address. by rewrite Hm. }
  by apply is_ancestor_loop_spec.
Qed.

(** ** [get_location_from] *)

(** The command at [l] has the address. *)
Definition has_address l (address : Address) : Prop :=
  D (loc_segment l) ∧ ∃ seg cmd, seg_at st (loc_segment l) = Some seg ∧ seg_get_command seg l = Some cmd
             ∧ cmd_address cmd = Ok address.

Lemma has_address_max_cut l address : has_address l address → max_cut_at D st l (ad_max_cut address).
Proof. intros (HD & seg & cmd & Hs & Hc & Ha). by eapply search_address_ok. Qed.

(** In its segment, the command with an address is the one found by its max
    cut. *)
Lemma has_address_iff l seg base len cmd address :
  D (loc_segment l) → seg_at st (loc_segment l) = Some seg → seg_shape D st (loc_segment l) seg base len →
  base ≤ ad_max_cut address →
  seg_get_command seg (mkLocation (loc_segment l) (ad_max_cut address - base)) = Some cmd →
  has_address (mkLocation (loc_segment l) (ad_max_cut address - base)) address ↔ cmd_id cmd = ad_id address.
Proof.
  intros HD Hseg Hsh Hb Hc. assert (cmd_address cmd = Ok (mkAddress (cmd_id cmd) (ad_max_cut address))) as Ha.
  { unfold cmd_address, mbind, outcome_bind. rewrite (sh_max_cut _ _ _ _ _ _ Hsh _ _ Hc). do 2 f_equal. lia. }
  split.
  - intros (_ & sx & cx & Hsx & Hcx & Hax). simpl in *. simplify_eq. rewrite Ha in Hax. by injection Hax as <-.
  - intros Hid. split; [done|]. exists seg, cmd. split_and!; [done..|]. rewrite Ha, Hid. by destruct address.
Qed.

Lemma has_address_here l seg base len x address :
  seg_at st (loc_segment l) = Some seg → seg_shape D st (loc_segment l) seg base len →
  loc_segment x = loc_segment l → has_address x address →
  base ≤ ad_max_cut address ∧ x = mkLocation (loc_segment l) (ad_max_cut address - base).
Proof.
  intros Hseg Hsh. destruct x as [n c]. intros Hn (_ & sx & cx & Hsx & Hcx & Hax). simpl in *. subst n. simplify_eq.
  unfold cmd_address, mbind, outcome_bind in Hax. rewrite (sh_max_cut _ _ _ _ _ _ Hsh _ _ Hcx) in Hax.
  injection Hax as <-. simpl. split; [lia|]. f_equal. lia.
Qed.

(** What a search promises from a queue. *)
Definition found_spec address queue (r : option Location) : Prop :=
  match r with
  | Some loc => has_address loc address
  | None => ∀ q x, q ∈ queue → anc st q x → ¬ has_address x address
  end.

(** Skipping a segment that ends below the target. *)
Lemma found_spec_below address queue l c r :
  max_cut_at D st l c → c < ad_max_cut address → found_spec address queue r → found_spec address (queue ++ [l]) r.
Proof.
  intros Hl Hlo Hr. destruct r; [done|]. intros q x [Hq| ->%list_elem_of_singleton]%elem_of_app Ha Hx;
    [by eapply Hr|]. apply has_address_max_cut in Hx. destruct (anc_max_cut _ _ _ Ha Hl) as (c' & Hc' & Hle).
  pose proof (max_cut_at_inj _ _ _ Hx Hc'). lia.
Qed.

(** Moving on from a segment that does not hold the address. *)
Lemma found_spec_enqueue address queue l seg base len r :
  seg_at st (loc_segment l) = Some seg → seg_shape D st (loc_segment l) seg base len →
  (∀ x, loc_segment x = loc_segment l → ¬ has_address x address) →
  found_spec address (enqueue (ad_max_cut address) seg queue) r → found_spec address (queue ++ [l]) r.
Proof.
  intros Hseg Hsh Hnot Hr. destruct r; [done|]. intros q x Hq Ha Hx.
  destruct (proj1 (enqueue_anc l seg base len (ad_max_cut address) queue x Hseg Hsh
    (has_address_max_cut _ _ Hx) ltac:(naive_solver))) as (q' & Hq' & Ha'); [by eauto|by eapply Hr].
Qed.

Lemma get_location_loop_spec fuel address queue :
  Forall (valid D st) queue → queue_weight queue < fuel →
  ∃ r, get_location_loop fuel st address queue = Some (Ok r) ∧ found_spec address queue r.
Proof.
  revert queue. induction fuel as [|fuel IH]; intros queue Hv Hf; [lia|]. simpl.
  destruct queue as [|l queue _] using rev_ind; [exists None; split; [done|unfold found_spec; set_solver]|].
  rewrite vec_pop_snoc. apply Forall_app in Hv as [Hv Hl]. apply Forall_inv in Hl as [cl Hl].
  pose proof (proj1 Hl) as HD.
  apply max_cut_at_shape in Hl as Hl'. destruct Hl' as (seg & base & len & cmd & Hseg & -> & Hsh & _ & Hlt & ->).
  unfold mbind, outcome_bind. destruct (sh_longest _ _ _ _ _ _ Hsh) as [Hlen ->].
  pose proof (enqueue_weight _ _ _ _ (ad_max_cut address) queue l Hsh eq_refl) as Hw.
  destruct (Nat.ltb_spec (base + len - 1) (ad_max_cut address)) as [Hlo|Hhi].
  { rewrite queue_weight_app in Hf. unfold queue_weight at 2 in Hf. simpl in Hf. pose proof (weight_pos l).
    destruct (IH queue Hv) as (r & -> & Hr); [lia|]. exists r. split; [done|].
    eapply found_spec_below; [done|lia|done]. }
  destruct (IH (enqueue (ad_max_cut address) seg queue)) as (r & Hr & Hspec); [by eapply enqueue_valid|lia|].
  rewrite (sh_from_max_cut _ _ _ _ _ _ Hsh) by done.
  destruct (Nat.leb_spec base (ad_max_cut address)) as [Hb|Hb]; simpl.
  - destruct (proj2 (sh_command _ _ _ _ _ _ Hsh (ad_max_cut address - base))) as [cmd' Hc']; [lia|].
    pose proof (has_address_iff l seg base len cmd' address HD Hseg Hsh Hb Hc') as Hiff.
    rewrite Hc'. simpl. case_bool_decide as Hid; [eexists; split; [done|by apply Hiff]|].
    rewrite Hr. exists r. split; [done|]. eapply found_spec_enqueue; try done. intros x Hs Hx.
    destruct (has_address_here _ _ _ _ _ _ Hseg Hsh Hs Hx) as [_ ->]. by apply Hid, Hiff.
  - rewrite Hr. exists r. split; [done|]. eapply found_spec_enqueue; try done. intros x Hs Hx.
    destruct (has_address_here _ _ _ _ _ _ Hseg Hsh Hs Hx). lia.
Qed.
End Correctness.

(** * Growing a graph

    Another storage, or a later state of the same one, that has the segments
    of [D] unchanged. *)
(** One more segment. *)
Definition with_segment (D : nat → Prop) (off : nat) : nat → Prop := λ n, D n ∨ n = off.

Section Growth.
Context {St Seg : Type} `{Storage St Seg}.

Record seg_eqv (s s' : Seg) : Prop := mk_seg_eqv {
  se_prior : seg_prior s = seg_prior s';
  se_command l : seg_get_command s l = seg_get_command s' l;
  se_longest : seg_longest_max_cut s = seg_longest_max_cut s';
  se_from mc : seg_get_from_max_cut s mc = seg_get_from_max_cut s' mc;
  se_skip : seg_skip_list s = seg_skip_list s'
}.

Variables (D D' : nat → Prop) (st st' : St).
Hypothesis Hg : graph_ok D st.
Hypothesis HD : ∀ n, D n → D' n.
Hypothesis Hext : ∀ n seg, D n → seg_at st n = Some seg → ∃ seg', seg_at st' n = Some seg' ∧ seg_eqv seg seg'.

Lemma ext_max_cut l c : max_cut_at D st l c ↔ D (loc_segment l) ∧ max_cut_at D' st' l c.
Proof.
  split.
  - intros (HDl & seg & cmd & Hs & Hc & Hm). split; [done|]. split; [by apply HD|].
    destruct (Hext _ _ HDl Hs) as (seg' & Hs' & He). exists seg', cmd. by rewrite <- (se_command _ _ He).
  - intros [HDl (_ & seg' & cmd & Hs' & Hc & Hm)]. split; [done|].
    destruct (go_shape _ _ Hg _ HDl) as (seg & base & len & Hs & _). destruct (Hext _ _ HDl Hs) as (s2 & Hs2 & He).
    simplify_eq. exists seg, cmd. by rewrite (se_command _ _ He).
Qed.

Lemma ext_anc l x : D (loc_segment l) → anc st l x ↔ anc st' l x.
Proof.
  intros HDl. split; intros Ha; revert HDl; induction Ha as [l x Hn Hc|l x seg p Hs Hp _ IH]; intros HDl;
    try (by apply anc_here);
    destruct (go_shape _ _ Hg _ HDl) as (seg1 & base & len & Hs1 & Hsh);
    destruct (Hext _ _ HDl Hs1) as (seg2 & Hs2 & He); simplify_eq.
  - eapply anc_prior; [done|by rewrite <- (se_prior _ _ He)|]. apply IH.
    by destruct (sh_prior _ _ _ _ _ _ Hsh p Hp) as (_ & c & [? _] & _).
  - rewrite <- (se_prior _ _ He) in Hp. eapply anc_prior; [done|done|]. apply IH.
    by destruct (sh_prior _ _ _ _ _ _ Hsh p Hp) as (_ & c & [? _] & _).
Qed.

(** What is before a command of [D] is in [D]. *)
Lemma anc_dom l x : D (loc_segment l) → anc st l x → D (loc_segment x).
Proof.
  intros HDl Ha. induction Ha as [l x Hn Hc|l x seg p Hs Hp _ IH]; [by rewrite Hn|]. apply IH.
  destruct (go_shape _ _ Hg _ HDl) as (seg1 & base & len & Hs1 & Hsh). simplify_eq.
  by destruct (sh_prior _ _ _ _ _ _ Hsh p Hp) as (_ & c & [? _] & _).
Qed.

Lemma ext_shape n seg seg' base len :
  D n → seg_at st n = Some seg → seg_at st' n = Some seg' → seg_shape D st n seg base len →
  seg_shape D' st' n seg' base len.
Proof.
  intros HDn Hs Hs' Hsh. destruct (Hext _ _ HDn Hs) as (s2 & Hs2 & He). simplify_eq. split.
  - intros c. rewrite <- (se_command _ _ He). apply Hsh.
  - intros c cmd. rewrite <- (se_command _ _ He). apply Hsh.
  - rewrite <- (se_longest _ _ He). apply Hsh.
  - intros mc. rewrite <- (se_from _ _ He). apply Hsh.
  - intros p. rewrite <- (se_prior _ _ He). intros Hp. destruct (sh_prior _ _ _ _ _ _ Hsh p Hp) as (Hlt & c & Hc & ?).
    split; [done|]. exists c. split; [|done]. by apply ext_max_cut.
  - intros l mc. rewrite <- (se_skip _ _ He), <- (se_prior _ _ He). intros Hin.
    destruct (sh_skip _ _ _ _ _ _ Hsh l mc Hin) as (Hlt & Hmc & (p & Hp & Hpl) & Hall).
    assert (∀ p, p ∈ prior_list (seg_prior seg) → D (loc_segment p)) as HDp.
    { intros q Hq. by destruct (sh_prior _ _ _ _ _ _ Hsh q Hq) as (_ & c & [? _] & _). }
    split_and!; [done|by apply ext_max_cut| |].
    + exists p. split; [done|]. apply ext_anc; [by apply HDp|done].
    + intros q x c Hq Ha Hx Hle. apply ext_anc in Ha; [|by apply HDp]. apply ext_anc; [apply Hmc|].
      apply (Hall q x c Hq Ha); [|done]. apply ext_max_cut. split; [|done]. eapply anc_dom; [|done]. by apply HDp.
Qed.
End Growth.
