(* ===== verification/MemStorage.v ===== *)
(** In-memory graph storage ([storage/memory.rs]): commands, segments,
    perspectives, checkpoints and the storage operations. *)
From S2P Require Import Prelude Collections RuntimeTypes FactStore MemFacts Graph.
Local Open Scope string_scope.
Local Open Scope list_scope.
Local Open Scope nat_scope.

(** * Commands and segments *)
Record MemCommand := mkMemCommand {
  mc_priority : Priority;
  mc_id : CommandId;
  mc_parent : Prior Address;
  mc_policy : option Bytes;
  mc_data : Bytes;
  mc_max_cut : nat
}.

(** [MemCommand::from_cmd] and the [Command] it implements. *)
Definition mem_command_from_cmd (c : Command) (max_cut : nat) : MemCommand :=
  mkMemCommand (cmd_priority c) (cmd_id c) (cmd_parent c) (cmd_policy c) (cmd_bytes c) max_cut.
Definition mem_command (c : MemCommand) : Command :=
  mkCommand (mc_priority c) (mc_id c) (mc_parent c) (mc_policy c) (mc_data c) (Ok (mc_max_cut c)).

Record CommandData := mkCommandData { cd_command : MemCommand; cd_updates : list Update }.

(** [Vec1]: a vector with a first element. *)
Record Vec1 (A : Type) := mkVec1 { v1_first : A; v1_rest : list A }.
Arguments mkVec1 {A}. Arguments v1_first {A}. Arguments v1_rest {A}.
Definition v1_list {A} (v : Vec1 A) : list A := v1_first v :: v1_rest v.
Definition v1_len {A} (v : Vec1 A) : nat := S (length (v1_rest v)).
Definition v1_last {A} (v : Vec1 A) : A := default (v1_first v) (last (v1_rest v)).
Definition v1_try_from {A} (l : list A) : option (Vec1 A) :=
  match l with [] => None | x :: l' => Some (mkVec1 x l') end.

Record MemSegment := mkMemSegment {
  ms_index : nat;
  ms_prior : Prior Location;
  ms_policy : PolicyId;
  ms_commands : Vec1 CommandData;
  ms_facts : MemFactIndex
}.

Definition ms_head (s : MemSegment) : outcome StorageError MemCommand := Ok (cd_command (v1_last (ms_commands s))).
Definition ms_first (s : MemSegment) : MemCommand := cd_command (v1_first (ms_commands s)).
Definition ms_head_location (s : MemSegment) : outcome StorageError Location :=
  match checked_sub (v1_len (ms_commands s)) 1 with
  | Some c => Ok (mkLocation (ms_index s) c)
  | None => Panic "commands.len() must be > 0"
  end.
Arguments ms_head_location : simpl never.
Definition ms_first_location (s : MemSegment) : Location := mkLocation (ms_index s) 0.
Definition ms_contains (s : MemSegment) (l : Location) : bool := loc_segment l =? ms_index s.
Definition ms_get_mem_command (s : MemSegment) (l : Location) : option MemCommand :=
  if negb (loc_segment l =? ms_index s) then None
  else option_map cd_command (v1_list (ms_commands s) !! loc_command l).
Definition ms_get_command (s : MemSegment) (l : Location) : option Command :=
  option_map mem_command (ms_get_mem_command s l).
Definition ms_get_from (s : MemSegment) (l : Location) : outcome StorageError (list Command) :=
  if negb (loc_segment l =? ms_index s) then Ok []
  else if loc_command l <=? v1_len (ms_commands s)
       then Ok (map (λ d, mem_command (cd_command d)) (drop (loc_command l) (v1_list (ms_commands s))))
       else Panic "range start index out of range for slice".
(** The loop of [get_from_max_cut]. *)
Fixpoint find_max_cut (i max_cut : nat) (l : list CommandData) : option nat :=
  match l with
  | [] => None
  | d :: l' => if mc_max_cut (cd_command d) =? max_cut then Some i else find_max_cut (S i) max_cut l'
  end.
Definition ms_get_from_max_cut (s : MemSegment) (max_cut : nat) : outcome StorageError (option Location) :=
  Ok (option_map (mkLocation (ms_index s)) (find_max_cut 0 max_cut (v1_list (ms_commands s)))).
Definition ms_longest_max_cut (s : MemSegment) : outcome StorageError nat :=
  Ok (mc_max_cut (cd_command (v1_last (ms_commands s)))).
Definition ms_shortest_max_cut (s : MemSegment) : nat := mc_max_cut (cd_command (v1_first (ms_commands s))).
Definition ms_skip_list (s : MemSegment) : list (Location * nat) := [].

(** * Perspectives *)
Record MemPerspective := mkMemPerspective {
  mp_prior : Prior Location;
  mp_parents : Prior Address;
  mp_policy : PolicyId;
  mp_facts : MemFactPerspective;
  mp_commands : list CommandData;
  mp_current_updates : list Update;
  mp_max_cut : nat
}.

Definition mp_new (prior : Prior Location) (parents : Prior Address) (policy : PolicyId)
    (prior_facts : FactPerspectivePrior) (max_cut : nat) : MemPerspective :=
  mkMemPerspective prior parents policy (mfp_new prior_facts) [] [] max_cut.
Definition mp_new_unrooted (policy : PolicyId) : MemPerspective :=
  mkMemPerspective PNone PNone policy (mfp_new FPNone) [] [] 0.

(** ** Checkpoints ([Revertable]) *)
Definition mp_checkpoint (p : MemPerspective) : nat := length (mp_commands p).
Definition mp_revert (index : nat) (p : MemPerspective) : outcome Bug_ MemPerspective :=
  if index =? length (mp_commands p) then Ok p
  else if length (mp_commands p) <? index
  then Err (BugMsg "A checkpoint's index should always be less than or equal to the length of a perspective's command history!")
  else
    let commands := take index (mp_commands p) in
    let facts := fold_left (λ f d, apply_updates (cd_updates d) f) commands (mfp_clear (mp_facts p)) in
    Ok (mkMemPerspective (mp_prior p) (mp_parents p) (mp_policy p) facts commands [] (mp_max_cut p)).

(** ** [Perspective] *)
Definition mp_head_address (p : MemPerspective) : outcome Bug_ (Prior Address) :=
  match last (mp_commands p) with
  | Some d => a ← cmd_address (mem_command (cd_command d)); Ok (PSingle a)
  | None => Ok (mp_parents p)
  end.

Definition mp_add_command (c : Command) : M MemPerspective StorageError nat := λ p,
  match sbug (mp_head_address p) with
  | Err e => (Err e, p)
  | Panic w => (Panic w, p)
  | Ok head =>
      if negb (bool_decide (cmd_parent c = head)) then (Err PerspectiveHeadMismatch, p)
      else match sbug (next_max_cut head) with
           | Err e => (Err e, p)
           | Panic w => (Panic w, p)
           | Ok mc =>
               let entry := mkCommandData (mem_command_from_cmd c mc) (mp_current_updates p) in
               let commands := vec_push entry (mp_commands p) in
               (Ok (length commands),
                mkMemPerspective (mp_prior p) (mp_parents p) (mp_policy p) (mp_facts p) commands [] (mp_max_cut p))
           end
  end.
Definition mp_includes (id : CommandId) (p : MemPerspective) : bool :=
  existsb (λ d, bool_decide (mc_id (cd_command d) = id)) (mp_commands p).

(** ** Facts of a perspective *)
Definition mp_set_facts (f : MemFactPerspective) (u : Update) (p : MemPerspective) : MemPerspective :=
  mkMemPerspective (mp_prior p) (mp_parents p) (mp_policy p) f (mp_commands p)
    (vec_push u (mp_current_updates p)) (mp_max_cut p).
Definition mp_insert (name : string) (keys : Keys) (value : Bytes) (p : MemPerspective) : MemPerspective :=
  mp_set_facts (mfp_insert name keys value (mp_facts p)) (name, keys, Some value) p.
Definition mp_delete (name : string) (keys : Keys) (p : MemPerspective) : MemPerspective :=
  mp_set_facts (mfp_delete name keys (mp_facts p)) (name, keys, None) p.

#[export] Instance mp_query_instance : Query MemPerspective :=
  {| query p := mfp_query (mp_facts p); query_prefix p := mfp_query_prefix (mp_facts p) |}.
#[export] Instance mp_query_mut : QueryMut MemPerspective :=
  {| q_insert := mp_insert; q_delete := mp_delete |}.

(** * Storage *)
Record MemStorage := mkMemStorage {
  st_segments : list MemSegment;
  st_commands : BTreeMap CommandId Location;
  st_head : option Location
}.
Definition mem_storage_new : MemStorage := mkMemStorage [] [] None.

Definition mem_get_segment (st : MemStorage) (l : Location) : outcome StorageError MemSegment :=
  ok_or (st_segments st !! loc_segment l) (SegmentOutOfBounds l).
Definition mem_get_head (st : MemStorage) : outcome StorageError Location :=
  sbug (assume (st_head st) "storage has head after init").

#[export] Instance mem_storage : Storage MemStorage MemSegment := {|
  get_segment := mem_get_segment;
  get_head := mem_get_head;
  seg_prior := ms_prior;
  seg_get_command := ms_get_command;
  seg_get_from_max_cut := ms_get_from_max_cut;
  seg_get_from := ms_get_from;
  seg_longest_max_cut := ms_longest_max_cut;
  seg_shortest_max_cut := ms_shortest_max_cut;
  seg_skip_list := ms_skip_list;
  seg_head_location := ms_head_location;
  seg_first_location := ms_first_location;
  seg_contains := ms_contains;
  seg_policy := ms_policy
|}.

Definition mem_get_command_id (st : MemStorage) (l : Location) : outcome StorageError CommandId :=
  segment ← mem_get_segment st l;
  command ← ok_or (ms_get_mem_command segment l) (CommandOutOfBounds l);
  Ok (mc_id command).

(** [new_segment]: commands get consecutive max cuts. *)
Fixpoint assign_max_cuts (max_cut i : nat) (l : list CommandData) : outcome Bug_ (list CommandData) :=
  match l with
  | [] => Ok []
  | d :: l' =>
      mc ← assume (checked_add max_cut i) "must not overflow";
      rest ← assign_max_cuts max_cut (S i) l';
      let c := cd_command d in
      Ok (mkCommandData (mkMemCommand (mc_priority c) (mc_id c) (mc_parent c) (mc_policy c) (mc_data c) mc)
            (cd_updates d) :: rest)
  end.
Definition new_segment (prior : Prior Location) (policy : PolicyId) (commands : Vec1 CommandData)
    (facts : MemFactIndex) (max_cut : nat) : M MemStorage StorageError MemSegment := λ st,
  match assign_max_cuts max_cut 0 (v1_list commands) with
  | Ok (c :: cs) =>
      let segment := mkMemSegment (length (st_segments st)) prior policy (mkVec1 c cs) facts in
      (Ok segment, mkMemStorage (vec_push segment (st_segments st)) (st_commands st) (st_head st))
  | Ok [] => (Panic "empty Vec1", st)
  | Err e => (Err (SBug e), st)
  | Panic w => (Panic w, st)
  end.

(** [write]. *)
Definition mem_write (update : MemPerspective) : M MemStorage StorageError MemSegment :=
  facts ← lift (write_facts (mp_facts update));
  commands ← lift_opt (v1_try_from (mp_commands update)) EmptyPerspective;
  modify (λ st,
    mkMemStorage (st_segments st)
      (fold_left (λ m ic, bt_insert (mc_id (cd_command ic.2)) (mkLocation (length (st_segments st)) ic.1) m)
         (imap (λ i c, (i, c)) (v1_list commands)) (st_commands st))
      (st_head st)) ≫= λ _,
  new_segment (mp_prior update) (mp_policy update) commands facts (mp_max_cut update).

(** The searches of the trait, with fuel that covers every graph of this
    size. *)
Definition search_fuel (st : MemStorage) : nat := 2 ^ S (length (st_segments st)).
Definition searched {A} (r : option (outcome StorageError A)) : outcome StorageError A :=
  match r with Some o => o | None => Panic "search does not terminate" end.

(** [commit]. *)
Definition mem_commit (segment : MemSegment) : M MemStorage StorageError unit := λ st,
  match st_head st with
  | Some head =>
      match searched (is_ancestor (search_fuel st) st head segment) with
      | Ok true => match ms_head_location segment with
                   | Ok l => (Ok tt, mkMemStorage (st_segments st) (st_commands st) (Some l))
                   | Err e => (Err e, st)
                   | Panic w => (Panic w, st)
                   end
      | Ok false => (Err HeadNotAncestor, st)
      | Err e => (Err e, st)
      | Panic w => (Panic w, st)
      end
  | None => match ms_head_location segment with
            | Ok l => (Ok tt, mkMemStorage (st_segments st) (st_commands st) (Some l))
            | Err e => (Err e, st)
            | Panic w => (Panic w, st)
            end
  end.

(** [get_linear_perspective]. *)
Definition mem_get_linear_perspective (st : MemStorage) (parent : Location)
  : outcome StorageError (option MemPerspective) :=
  segment ← mem_get_segment st parent;
  command ← ok_or (ms_get_mem_command segment parent) (CommandOutOfBounds parent);
  parent_addr ← sbug (cmd_address (mem_command command));
  head ← ms_head_location segment;
  let prior_facts :=
    if bool_decide (parent = head) then FPIndex (ms_facts segment)
    else
      let facts := fold_left (λ f d, apply_updates (cd_updates d) f)
                     (take (S (loc_command parent)) (v1_list (ms_commands segment)))
                     (mfp_new (prior_of_option (mfi_prior (ms_facts segment)))) in
      match mfp_map facts with [] => mfp_prior facts | _ => FPPerspective facts end in
  max_cut ← sbug (assume (checked_add (mc_max_cut command) 1) "must not overflow");
  Ok (Some (mp_new (PSingle parent) (PSingle parent_addr) (ms_policy segment) prior_facts max_cut)).

(** [get_fact_perspective]; [..=location.command] panics when out of range. *)
Definition mem_get_fact_perspective (st : MemStorage) (location : Location)
  : outcome StorageError MemFactPerspective :=
  segment ← mem_get_segment st location;
  head ← ms_head_location segment;
  if bool_decide (location = head)
     || forallb (λ d, match cd_updates d with [] => true | _ => false end) (v1_list (ms_commands segment))
  then Ok (mfp_new (FPIndex (ms_facts segment)))
  else if negb (loc_command location <? v1_len (ms_commands segment))
  then Panic "range end index out of range for slice"
  else Ok (fold_left (λ f d, apply_updates (cd_updates d) f)
             (take (S (loc_command location)) (v1_list (ms_commands segment)))
             (mfp_new (prior_of_option (mfi_prior (ms_facts segment))))).

(** [new_merge_perspective]; the last common ancestor is not used. *)
Definition mem_new_merge_perspective (st : MemStorage) (left right : Location) (policy_id : PolicyId)
    (braid : MemFactIndex) : outcome StorageError (option MemPerspective) :=
  left_segment ← mem_get_segment st left;
  right_segment ← mem_get_segment st right;
  if negb (policy_id =? ms_policy left_segment) && negb (policy_id =? ms_policy right_segment)
  then Err PolicyMismatch
  else
    left_command ← ok_or (ms_get_mem_command left_segment left) (CommandOutOfBounds left);
    right_command ← ok_or (ms_get_mem_command right_segment right) (CommandOutOfBounds right);
    left_addr ← sbug (cmd_address (mem_command left_command));
    right_addr ← sbug (cmd_address (mem_command right_command));
    max_cut ← sbug (assume (checked_add (Nat.max (mc_max_cut left_command) (mc_max_cut right_command)) 1)
                      "must not overflow");
    Ok (Some (mp_new (PMerge left right) (PMerge left_addr right_addr) policy_id (FPIndex braid) max_cut)).

(** * The provider *)
Definition MemStorageProvider : Type := BTreeMap GraphId MemStorage.
Definition new_storage (update : MemPerspective) : M MemStorageProvider StorageError GraphId := λ pr,
  match mp_commands update with
  | [] => (Err EmptyPerspective, pr)
  | c :: _ =>
      let graph_id := mc_id (cd_command c) in
      match bt_get graph_id pr with
      | Some _ => (Err StorageExists, pr)
      | None =>
          match (mem_write update ≫= mem_commit) mem_storage_new with
          | (Ok _, storage) => (Ok graph_id, bt_insert graph_id storage pr)
          | (Err e, _) => (Err e, pr)
          | (Panic w, _) => (Panic w, pr)
          end
      end
  end.
Definition get_storage (graph : GraphId) (pr : MemStorageProvider) : outcome StorageError MemStorage :=
  ok_or (bt_get graph pr) NoSuchStorage.
