(* ===== verification/MemStorageFacts.v ===== *)
(** Invariants of the in-memory storage: the graph stays well formed, so the
    searches of the trait terminate and are right; perspectives show the facts
    of the commands they start from. *)
From S2P Require Import Prelude Collections RuntimeTypes FactStore MemFacts Graph MemStorage.
Local Open Scope string_scope.
Local Open Scope list_scope.
Local Open Scope nat_scope.

Implicit Types (st : MemStorage) (seg : MemSegment) (l : Location) (p : MemPerspective).

(** * The graph invariant *)
Record mem_seg_ok st (n : nat) seg : Prop := mk_mem_seg_ok {
  mso_index : ms_index seg = n;
  mso_max_cuts c d : v1_list (ms_commands seg) !! c = Some d →
    mc_max_cut (cd_command d) = ms_shortest_max_cut seg + c;
  mso_prior q : q ∈ prior_list (ms_prior seg) →
    loc_segment q < n ∧ ∃ c, max_cut_at (present st) st q c ∧ c < ms_shortest_max_cut seg;
  mso_facts : mfi_wf (ms_facts seg)
}.
Definition mem_ok st : Prop := ∀ n seg, st_segments st !! n = Some seg → mem_seg_ok st n seg.

(** A perspective that can be written: its parents are commands of the graph
    with smaller max cuts. *)
Record persp_ok st p : Prop := mk_persp_ok {
  po_prior q : q ∈ prior_list (mp_prior p) → ∃ c, max_cut_at (present st) st q c ∧ c < mp_max_cut p;
  po_facts : mfp_wf (mp_facts p)
}.

Lemma seg_at_mem st n : seg_at st n = st_segments st !! n.
Proof. unfold seg_at. simpl. unfold mem_get_segment. simpl. by destruct (st_segments st !! n). Qed.

Lemma v1_last_lookup {A} (v : Vec1 A) : v1_list v !! (v1_len v - 1) = Some (v1_last v).
Proof.
  destruct v as [x l]. unfold v1_list, v1_len, v1_last. simpl. rewrite Nat.sub_0_r.
  destruct l as [|y l _] using rev_ind; [done|]. rewrite last_snoc, length_app. simpl.
  rewrite Nat.add_1_r. simpl. by rewrite lookup_app_r, Nat.sub_diag.
Qed.

Lemma v1_len_list {A} (v : Vec1 A) : length (v1_list v) = v1_len v.
Proof. done. Qed.

Lemma ms_get_command_Some seg n c :
  ms_index seg = n →
  ms_get_command seg (mkLocation n c) = option_map (λ d, mem_command (cd_command d)) (v1_list (ms_commands seg) !! c).
Proof.
  intros <-. unfold ms_get_command, ms_get_mem_command. rewrite Nat.eqb_refl. simpl.
  by destruct (v1_list (ms_commands seg) !! c).
Qed.

(** The loop of [get_from_max_cut] on consecutive max cuts. *)
Lemma find_max_cut_spec (l : list CommandData) base i mc :
  (∀ c d, l !! c = Some d → mc_max_cut (cd_command d) = base + c) →
  find_max_cut i mc l = if (base <=? mc) && (mc <? base + length l) then Some (i + (mc - base)) else None.
Proof.
  revert base i. induction l as [|d l IH]; intros base i Hl; simpl.
  - destruct (Nat.leb_spec base mc); destruct (Nat.ltb_spec mc (base + 0)); try done; lia.
  - rewrite (Hl 0 d eq_refl), Nat.add_0_r. destruct (Nat.eqb_spec base mc) as [->|Hne].
    + destruct (Nat.leb_spec mc mc), (Nat.ltb_spec mc (mc + S (length l))); simpl; try lia. f_equal. lia.
    + rewrite (IH (S base)) by (intros c d' Hc; rewrite (Hl (S c) d' Hc); lia).
      destruct (Nat.leb_spec base mc), (Nat.leb_spec (S base) mc), (Nat.ltb_spec mc (S base + length l)),
        (Nat.ltb_spec mc (base + S (length l))); simpl; try lia; try done. f_equal. lia.
Qed.

Lemma mem_seg_shape st n seg :
  mem_seg_ok st n seg → seg_shape (present st) st n seg (ms_shortest_max_cut seg) (v1_len (ms_commands seg)).
Proof.
  intros Hs. split.
  - intros c. simpl. rewrite ms_get_command_Some by apply Hs.
    rewrite <- v1_len_list, <- lookup_lt_is_Some. destruct (v1_list (ms_commands seg) !! c); simpl;
      split; intros []; by eauto.
  - intros c cmd. simpl. rewrite ms_get_command_Some by apply Hs.
    destruct (v1_list (ms_commands seg) !! c) as [d|] eqn:E; [|done]. intros [= <-]. simpl.
    f_equal. by apply (mso_max_cuts _ _ _ Hs).
  - split; [unfold v1_len; lia|]. simpl. unfold ms_longest_max_cut. f_equal.
    rewrite (mso_max_cuts _ _ _ Hs _ _ (v1_last_lookup _)). unfold v1_len. lia.
  - intros mc Hmc. simpl. unfold ms_get_from_max_cut.
    rewrite (find_max_cut_spec _ (ms_shortest_max_cut seg)) by apply Hs. rewrite v1_len_list.
    assert (mc < ms_shortest_max_cut seg + v1_len (ms_commands seg)) as Hlt by (unfold v1_len in *; lia).
    apply Nat.ltb_lt in Hlt as ->. rewrite andb_true_r.
    destruct (ms_shortest_max_cut seg <=? mc); simpl; [by rewrite (mso_index _ _ _ Hs)|done].
  - intros q Hq. by apply (mso_prior _ _ _ Hs).
  - intros l mc. simpl. by intros ?%not_elem_of_nil.
Qed.

Lemma mem_graph_ok st : mem_ok st → graph_ok (present st) st.
Proof.
  intros Hok. split.
  - intros l seg _. rewrite seg_at_mem. simpl. unfold mem_get_segment. by intros ->.
  - intros n [seg Hseg]. exists seg. do 2 eexists. split; [done|]. apply mem_seg_shape, Hok. by rewrite <- seg_at_mem.
Qed.

(** ** Growing the storage *)
Lemma max_cut_at_mem st l c :
  max_cut_at (present st) st l c ↔ ∃ seg cmd, st_segments st !! loc_segment l = Some seg
    ∧ ms_get_command seg l = Some cmd ∧ cmd_max_cut cmd = Ok c.
Proof.
  unfold max_cut_at, present. setoid_rewrite seg_at_mem. split; [by intros [_ ?]|].
  intros (seg & cmd & Hs & ?). split; [by rewrite Hs|by exists seg, cmd].
Qed.

(** Locations of the graph keep their max cuts when segments are appended. *)
Lemma max_cut_at_grow st st' l c :
  st_segments st `prefix_of` st_segments st' → max_cut_at (present st) st l c → max_cut_at (present st') st' l c.
Proof.
  intros [k Hk]. rewrite !max_cut_at_mem. intros (seg & cmd & Hs & ?). exists seg, cmd.
  rewrite Hk. split; [by apply lookup_app_l_Some|done].
Qed.

Lemma mem_seg_ok_grow st st' n seg :
  st_segments st `prefix_of` st_segments st' → mem_seg_ok st n seg → mem_seg_ok st' n seg.
Proof.
  intros Hpre []. split; try done. intros q Hq. destruct (mso_prior0 q Hq) as (? & c & ? & ?).
  split; [done|]. exists c. split; [by eapply max_cut_at_grow|done].
Qed.

(** What [assign_max_cuts] does when it does not overflow; it does not panic. *)
Lemma assign_max_cuts_spec mc i (ds : list CommandData) :
  match assign_max_cuts mc i ds with
  | Ok ds' =>
      map cd_updates ds' = map cd_updates ds
      ∧ map (λ d, mc_id (cd_command d)) ds' = map (λ d, mc_id (cd_command d)) ds
      ∧ ∀ c d, ds' !! c = Some d → mc_max_cut (cd_command d) = mc + (i + c)
  | Err _ => True
  | Panic _ => False
  end.
Proof.
  revert i. induction ds as [|d ds IH]; intros i; simpl; [done|]. unfold mbind, outcome_bind.
  destruct (checked_add mc i) as [m|] eqn:Em; simpl; [|done]. apply checked_add_Some in Em as [-> _].
  specialize (IH (S i)). destruct (assign_max_cuts mc (S i) ds) as [rest|e|w]; [|done..].
  destruct IH as (Hu & Hi & Hm). simpl. split_and!; [by rewrite Hu|by rewrite Hi|].
  intros [|c] d' Hd; simpl in Hd; [injection Hd as <-; simpl; lia|]. rewrite (Hm c d' Hd). lia.
Qed.

(** A segment appended with valid parents keeps the invariant. *)
Lemma mem_ok_append st cmds prior policy v facts mc :
  mem_ok st →
  (∀ q, q ∈ prior_list prior → ∃ c, max_cut_at (present st) st q c ∧ c < mc) → mfi_wf facts →
  (∀ c d, v1_list v !! c = Some d → mc_max_cut (cd_command d) = mc + c) →
  mem_ok (mkMemStorage (st_segments st ++ [mkMemSegment (length (st_segments st)) prior policy v facts]) cmds (st_head st)).
Proof.
  intros Hok Hprior Hf Hmc n seg Hn. simpl in Hn.
  apply lookup_snoc_Some in Hn as [[_ Hn]|[-> <-]].
  - eapply mem_seg_ok_grow; [|by apply Hok]. simpl. by eexists.
  - assert (ms_shortest_max_cut (mkMemSegment (length (st_segments st)) prior policy v facts) = mc) as Hs.
    { unfold ms_shortest_max_cut. simpl. rewrite (Hmc 0 (v1_first v) eq_refl). lia. }
    split; simpl; rewrite ?Hs; try done. intros q Hq. destruct (Hprior q Hq) as (c & Hc & Hlt). split.
    + apply max_cut_at_mem in Hc as (seg & cmd & Hseg & _). by eapply lookup_lt_Some.
    + exists c. split; [|done]. eapply max_cut_at_grow; [|done]. simpl. by eexists.
Qed.

(** What a write returns. *)
Definition written st p seg : Prop :=
  ms_index seg = length (st_segments st) ∧ ms_prior seg = mp_prior p ∧ ms_policy seg = mp_policy p
  ∧ ms_shortest_max_cut seg = mp_max_cut p
  ∧ map cd_updates (v1_list (ms_commands seg)) = map cd_updates (mp_commands p)
  ∧ map (λ d, mc_id (cd_command d)) (v1_list (ms_commands seg)) = map (λ d, mc_id (cd_command d)) (mp_commands p)
  ∧ (∀ n k, mfi_view (ms_facts seg) n k = mfp_view (mp_facts p) n k)
  ∧ write_facts (mp_facts p) = Ok (ms_facts seg).

Lemma mem_write_spec st p r st' :
  mem_ok st → persp_ok st p → mem_write p st = (r, st') →
  mem_ok st' ∧ st_head st' = st_head st ∧
  match r with
  | Ok seg => st_segments st' = st_segments st ++ [seg] ∧ written st p seg
  | Err EmptyPerspective => mp_commands p = [] ∧ st_segments st' = st_segments st
  | Err (SBug _) => st_segments st' = st_segments st
  | _ => False
  end.
Proof.
  intros Hok Hp E. destruct (write_facts_spec (mp_facts p) (po_facts _ _ Hp)) as (facts & Hf & Hfw & Hfv).
  unfold mem_write in E. rewrite Hf in E. unfold mbind, M_bind, lift, lift_opt, modify in E. simpl in E.
  assert (∀ cmds, mem_ok (mkMemStorage (st_segments st) cmds (st_head st))) as Hok'.
  { intros cmds n seg Hn. eapply mem_seg_ok_grow; [|by apply Hok]. done. }
  destruct (mp_commands p) as [|c0 cs0] eqn:Ec; simpl in E.
  { injection E as <- <-. split_and!; done. }
  unfold new_segment in E.
  pose proof (assign_max_cuts_spec (mp_max_cut p) 0 (c0 :: cs0)) as Ha. change (v1_list (mkVec1 c0 cs0)) with (c0 :: cs0) in E.
  destruct (assign_max_cuts (mp_max_cut p) 0 (c0 :: cs0)) as [[|c cs]|e|w]; [naive_solver| | |done].
  2: { injection E as <- <-. split_and!; try done. }
  injection E as <- <-. simpl. destruct Ha as (Hu & Hi & Hm).
  split_and!; try done.
  - by apply (mem_ok_append st _ _ _ _ _ (mp_max_cut p)); [|apply Hp|..].
  - unfold written. rewrite Ec. simpl in *. split_and!; try done. unfold ms_shortest_max_cut. simpl.
    rewrite (Hm 0 c eq_refl). lia.
Qed.

(** ** Replaying the updates of commands *)
Abbreviation replay ds f := (fold_left (λ f d, apply_updates (cd_updates d) f) ds f).

Lemma replay_updates ds f : replay ds f = apply_updates (concat (map cd_updates ds)) f.
Proof.
  revert f. induction ds as [|d ds IH]; intros f; simpl; [by destruct f|]. rewrite IH.
  unfold apply_updates. simpl. by rewrite fold_left_app.
Qed.

Lemma mfp_new_wf q : prior_wf q → mfp_wf (mfp_new q).
Proof. intros Hq. apply mfp_wf_layer. split; [apply named_wf_nil|done]. Qed.

Lemma prior_of_option_wf st n seg :
  mem_seg_ok st n seg → prior_wf (prior_of_option (mfi_prior (ms_facts seg))).
Proof. intros Hs. pose proof (mso_facts _ _ _ Hs) as Hf. destruct (ms_facts seg) as [nm [j|]]; [apply Hf|done]. Qed.

(** A segment is never empty: its head has a location. *)
Lemma ms_head_location_eq seg :
  ms_head_location seg = Ok (mkLocation (ms_index seg) (v1_len (ms_commands seg) - 1)).
Proof.
  unfold ms_head_location. destruct (checked_sub (v1_len (ms_commands seg)) 1) as [c|] eqn:E.
  - by apply checked_sub_Some in E as [_ ->].
  - apply checked_sub_None in E. unfold v1_len in E. lia.
Qed.

Lemma cmd_address_mem c : cmd_address (mem_command c) = Ok (mkAddress (mc_id c) (mc_max_cut c)).
Proof. done. Qed.

(** ** Perspectives that can be written *)
Lemma mfp_collapse_wf f : mfp_wf f → prior_wf (match mfp_map f with [] => mfp_prior f | _ => FPPerspective f end).
Proof. destruct f as [[|nk nm] q]; [|done]. intros Hf. by apply mfp_wf_layer in Hf as [_ ?]. Qed.

Lemma ms_get_mem_command_at st seg l cmd :
  st_segments st !! loc_segment l = Some seg → ms_get_mem_command seg l = Some cmd →
  max_cut_at (present st) st l (mc_max_cut cmd).
Proof.
  intros Es Ec. apply max_cut_at_mem. exists seg, (mem_command cmd). split_and!; try done.
  unfold ms_get_command. by rewrite Ec.
Qed.

Lemma get_linear_perspective_ok st parent p :
  mem_ok st → mem_get_linear_perspective st parent = Ok (Some p) → persp_ok st p.
Proof.
  intros Hok E. unfold mem_get_linear_perspective, mem_get_segment, mbind, outcome_bind in E.
  destruct (st_segments st !! loc_segment parent) as [seg|] eqn:Es; cbn [ok_or] in E; [|done].
  destruct (ms_get_mem_command seg parent) as [cmd|] eqn:Ec; cbn [ok_or] in E; [|done].
  rewrite cmd_address_mem, ms_head_location_eq in E. cbn [sbug map_err] in E.
  destruct (checked_add (mc_max_cut cmd) 1) as [mc|] eqn:Em; [|done]. cbn [assume ok_or map_err] in E.
  apply checked_add_Some in Em as [-> _]. injection E as <-.
  pose proof (Hok _ _ Es) as Hs. split; cbn [mp_prior mp_max_cut mp_facts mp_new].
  - simpl. intros q ->%list_elem_of_singleton. exists (mc_max_cut cmd). split; [|lia]. by eapply ms_get_mem_command_at.
  - apply mfp_new_wf. case_bool_decide; [apply Hs|]. apply mfp_collapse_wf. rewrite replay_updates.
    repeat apply apply_updates_wf. apply mfp_new_wf. by eapply prior_of_option_wf.
Qed.

Lemma new_merge_perspective_ok st left right policy braid p :
  mem_ok st → mfi_wf braid → mem_new_merge_perspective st left right policy braid = Ok (Some p) → persp_ok st p.
Proof.
  intros Hok Hb E. unfold mem_new_merge_perspective, mem_get_segment, mbind, outcome_bind in E.
  destruct (st_segments st !! loc_segment left) as [ls|] eqn:El; simpl in E; [|done].
  destruct (st_segments st !! loc_segment right) as [rs|] eqn:Er; simpl in E; [|done].
  case_match; [done|]. destruct (ms_get_mem_command ls left) as [lc|] eqn:Elc; simpl in E; [|done].
  destruct (ms_get_mem_command rs right) as [rc|] eqn:Erc; simpl in E; [|done].
  destruct (checked_add (mc_max_cut lc `max` mc_max_cut rc) 1) as [mc|] eqn:Em; simpl in E; [|done].
  apply checked_add_Some in Em as [-> _]. injection E as <-. split; simpl.
  - intros q [->|[->|[]%not_elem_of_nil]%elem_of_cons]%elem_of_cons.
    + exists (mc_max_cut lc). split; [by eapply ms_get_mem_command_at|lia].
    + exists (mc_max_cut rc). split; [by eapply ms_get_mem_command_at|lia].
  - split; [apply named_wf_nil|done].
Qed.

Lemma new_unrooted_ok st policy : persp_ok st (mp_new_unrooted policy).
Proof. split; [intros q; by intros ?%not_elem_of_nil|by apply mfp_new_wf]. Qed.

(** Working on a perspective keeps it writable. *)
Lemma persp_ok_facts st p p' :
  persp_ok st p → mp_prior p' = mp_prior p → mp_max_cut p' = mp_max_cut p → mfp_wf (mp_facts p') → persp_ok st p'.
Proof. intros [Hp _] Hpr Hmc Hf. split; [|done]. rewrite Hpr, Hmc. apply Hp. Qed.

Lemma persp_ok_insert st name keys v p : persp_ok st p → persp_ok st (mp_insert name keys v p).
Proof. intros Hp. eapply persp_ok_facts; [done..|]. by apply mfp_update_wf, Hp. Qed.
Lemma persp_ok_delete st name keys p : persp_ok st p → persp_ok st (mp_delete name keys p).
Proof. intros Hp. eapply persp_ok_facts; [done..|]. by apply mfp_update_wf, Hp. Qed.
Lemma persp_ok_add_command st c p r p' : persp_ok st p → mp_add_command c p = (r, p') → persp_ok st p'.
Proof.
  intros Hp E. unfold mp_add_command in E. destruct (sbug (mp_head_address p)); [|by simplify_eq..].
  case_match; [by simplify_eq|]. destruct (sbug (next_max_cut a)); [|by simplify_eq..].
  injection E as <- <-. eapply persp_ok_facts; [done..|apply Hp].
Qed.
Lemma persp_ok_revert st i p p' : persp_ok st p → mp_revert i p = Ok p' → persp_ok st p'.
Proof.
  intros Hp E. unfold mp_revert in E. case_match; [by simplify_eq|]. case_match; [done|]. injection E as <-.
  eapply persp_ok_facts; [done..|]. simpl. rewrite replay_updates. apply apply_updates_wf.
  pose proof (po_facts _ _ Hp) as Hf. destruct (mp_facts p) as [nm q]. apply mfp_wf_layer in Hf as [_ ?].
  by apply mfp_new_wf.
Qed.
