(* ===== verification/MemTheorems.v ===== *)
(** Theorems about the in-memory storage and the graph searches: reachable
    storages are well formed, the searches terminate and are right, commits
    move the head forward only, perspectives and checkpoints show the right
    facts. *)
From S2P Require Import Prelude Collections RuntimeTypes FactStore MemFacts Graph MemStorage MemStorageFacts.
Local Open Scope string_scope.
Local Open Scope list_scope.
Local Open Scope nat_scope.

Implicit Types (st : MemStorage) (seg : MemSegment) (l : Location) (p : MemPerspective).

(** * Reachable storages *)

(** The perspectives a client can write to a storage: obtained from it, then
    worked on. *)
Inductive writable st : MemPerspective → Prop :=
| w_init policy : writable st (mp_new_unrooted policy)
| w_linear parent p : mem_get_linear_perspective st parent = Ok (Some p) → writable st p
| w_merge left right policy braid p :
    mfi_wf braid → mem_new_merge_perspective st left right policy braid = Ok (Some p) → writable st p
| w_insert name keys v p : writable st p → writable st (mp_insert name keys v p)
| w_delete name keys p : writable st p → writable st (mp_delete name keys p)
| w_add c p r p' : writable st p → mp_add_command c p = (r, p') → writable st p'
| w_revert i p p' : writable st p → mp_revert i p = Ok p' → writable st p'.

(** Writes of such perspectives and commits of the storage's own segments. *)
Inductive mem_step : MemStorage → MemStorage → Prop :=
| step_write st p r st' : writable st p → mem_write p st = (r, st') → mem_step st st'
| step_commit st seg r st' : seg ∈ st_segments st → mem_commit seg st = (r, st') → mem_step st st'.
Definition mem_reachable st : Prop := rtc mem_step mem_storage_new st.

Lemma writable_ok st p : mem_ok st → writable st p → persp_ok st p.
Proof.
  intros Hok. induction 1; eauto using new_unrooted_ok, get_linear_perspective_ok, new_merge_perspective_ok,
    persp_ok_insert, persp_ok_delete, persp_ok_add_command, persp_ok_revert.
Qed.

(** The head, if there is one, is the last command of a segment. *)
Definition head_ok st : Prop :=
  ∀ h, st_head st = Some h → ∃ seg, seg ∈ st_segments st ∧ ms_head_location seg = Ok h.
Definition mem_inv st : Prop := mem_ok st ∧ head_ok st.

Lemma mem_commit_inv seg st r st' :
  mem_commit seg st = (r, st') →
  st' = st ∨ ∃ h, ms_head_location seg = Ok h ∧ st' = mkMemStorage (st_segments st) (st_commands st) (Some h).
Proof. unfold mem_commit. rewrite ms_head_location_eq. intros E. crush_match; eauto. Qed.

Lemma mem_inv_step st st' : mem_step st st' → mem_inv st → mem_inv st'.
Proof.
  destruct 1 as [st p r st' Hw E|st seg r st' Hin E]; intros [Hok Hh].
  - eapply writable_ok in Hw; [|done]. destruct (mem_write_spec _ _ _ _ Hok Hw E) as (Hok' & Hhead & Hr).
    split; [done|]. intros h Hst. rewrite Hhead in Hst. destruct (Hh h Hst) as (seg & Hseg & Hl). exists seg. split; [|done].
    destruct r as [s|[]|w]; try done; [destruct Hr as [-> _]; set_solver|by destruct Hr as [_ ->]|by rewrite Hr].
  - apply mem_commit_inv in E as [->|(h & Hl & ->)]; [done|]. split.
    + intros n s Hs. eapply mem_seg_ok_grow; [|by apply Hok]. done.
    + intros h' [= <-]. by exists seg.
Qed.

Lemma reachable_inv st : mem_reachable st → mem_inv st.
Proof.
  unfold mem_reachable. intros Hr. assert (mem_inv mem_storage_new) as H0 by (split; [intros n seg; done|done]).
  revert H0. induction Hr as [|st1 st2 st3 H12 _ IH]; [done|]. intros H1. by eapply IH, mem_inv_step.
Qed.

Lemma head_valid st h : mem_inv st → st_head st = Some h → valid (present st) st h.
Proof.
  intros [Hok Hh] Hst. destruct (Hh h Hst) as (seg & [n Hn]%list_elem_of_lookup & Hl).
  assert (h = mkLocation (ms_index seg) (v1_len (ms_commands seg) - 1)) as ->
    by (rewrite ms_head_location_eq in Hl; congruence). pose proof (Hok n seg Hn) as Hs.
  rewrite (mso_index _ _ _ Hs). exists (mc_max_cut (cd_command (v1_last (ms_commands seg)))).
  apply max_cut_at_mem. exists seg. eexists. split_and!; [done| |].
  - rewrite ms_get_command_Some by apply Hs. rewrite v1_last_lookup. done.
  - done.
Qed.

(** The fuel of the searches covers every queue they start from. *)
Lemma mem_weight st l : valid (present st) st l → weight l ≤ 2 ^ length (st_segments st) - 1.
Proof.
  intros [c Hc]. apply weight_lt. apply max_cut_at_mem in Hc as (seg & cmd & Hs & _). by eapply lookup_lt_Some.
Qed.

Lemma search_fuel_start st l : valid (present st) st l → queue_weight [l] < search_fuel st.
Proof.
  intros Hl%mem_weight. unfold search_fuel, queue_weight. simpl sum_list_with. rewrite Nat.pow_succ_r'.
  pose proof (Nat.pow_nonzero 2 (length (st_segments st))). lia.
Qed.

Lemma search_fuel_prior st seg n :
  mem_ok st → st_segments st !! n = Some seg → queue_weight (prior_list (ms_prior seg)) < search_fuel st.
Proof.
  intros Hok Hn. pose proof (mso_prior _ _ _ (Hok _ _ Hn)) as Hp. unfold search_fuel. rewrite Nat.pow_succ_r'.
  pose proof (Nat.pow_nonzero 2 (length (st_segments st))).
  assert (∀ q, q ∈ prior_list (ms_prior seg) → weight q ≤ 2 ^ length (st_segments st) - 1) as Hw.
  { intros q Hq. apply mem_weight. destruct (Hp q Hq) as (_ & c & Hc & _). by exists c. }
  rewrite prior_list_spec in *. unfold queue_weight. destruct (ms_prior seg) as [|a|a b]; simpl.
  - lia.
  - pose proof (Hw a ltac:(set_solver)). lia.
  - pose proof (Hw a ltac:(set_solver)). pose proof (Hw b ltac:(set_solver)). lia.
Qed.

Lemma mem_is_ancestor st seg n search :
  mem_ok st → st_segments st !! n = Some seg → valid (present st) st search →
  ∃ b, is_ancestor (search_fuel st) st search seg = Some (Ok b)
       ∧ (b = true ↔ ∃ q, q ∈ prior_list (ms_prior seg) ∧ anc st q search).
Proof.
  intros Hok Hn Hsearch.
  apply (is_ancestor_spec (present st) st (mem_graph_ok st Hok)); [done| |by eapply search_fuel_prior].
  apply Forall_forall. intros q Hq. destruct (mso_prior _ _ _ (Hok _ _ Hn) q Hq) as (_ & cq & Hq' & _). by exists cq.
Qed.

(** * A concrete graph

    An init segment, two branches on it (one of two commands, one of one), and
    a merge of both. *)
Module Example.
Definition id (n : u8) : CommandId := [n].
Definition cmd (n : u8) (parent : Prior Address) : Command :=
  mkCommand (PrioBasic 0) (id n) parent None [] (max_cut_of_parent parent).
Definition at_ (n : u8) (mc : nat) : Address := mkAddress (id n) mc.
Definition add (c : Command) (p : MemPerspective) : MemPerspective := (mp_add_command c p).2.
Definition linear st l : MemPerspective :=
  match mem_get_linear_perspective st l with Ok (Some p) => p | _ => mp_new_unrooted 0 end.
Definition merge st l r : MemPerspective :=
  match mem_new_merge_perspective st l r 0 (MemFacts [] None) with Ok (Some p) => p | _ => mp_new_unrooted 0 end.
Definition key : Keys := [[Byte.x01]].

Definition p_init : MemPerspective :=
  add (cmd Byte.x00 PNone) (mp_insert "F" key [Byte.x0a] (mp_new_unrooted 0)).
Definition st_init : MemStorage := Eval vm_compute in (mem_write p_init mem_storage_new).2.
Definition seg_init : MemSegment := Eval vm_compute in
  match st_segments st_init with s :: _ => s | [] => mkMemSegment 0 PNone 0 (mkVec1 (mkCommandData (mem_command_from_cmd (cmd Byte.x00 PNone) 0) []) []) (MemFacts [] None) end.
Definition st_commit : MemStorage := Eval vm_compute in (mem_commit seg_init st_init).2.

Definition p_left : MemPerspective :=
  add (cmd Byte.x02 (PSingle (at_ Byte.x01 1))) (add (cmd Byte.x01 (PSingle (at_ Byte.x00 0))) (linear st_commit (mkLocation 0 0))).
Definition st_left : MemStorage := Eval vm_compute in (mem_write p_left st_commit).2.
Definition p_right : MemPerspective := add (cmd Byte.x03 (PSingle (at_ Byte.x00 0))) (linear st_left (mkLocation 0 0)).
Definition st_right : MemStorage := Eval vm_compute in (mem_write p_right st_left).2.
Definition p_merge : MemPerspective :=
  add (cmd Byte.x04 (PMerge (at_ Byte.x02 2) (at_ Byte.x03 1))) (merge st_right (mkLocation 1 1) (mkLocation 2 0)).
Definition st_merge : MemStorage := Eval vm_compute in (mem_write p_merge st_right).2.
Definition seg_merge : MemSegment := Eval vm_compute in
  match st_segments st_merge !! 3 with Some s => s | None => seg_init end.
Definition seg_right : MemSegment := Eval vm_compute in
  match st_segments st_merge !! 2 with Some s => s | None => seg_init end.

Lemma writable_add st c p : writable st p → writable st (add c p).
Proof. intros Hp. by eapply w_add, surjective_pairing. Qed.
Lemma writable_linear st l : writable st (linear st l).
Proof. unfold linear. destruct (mem_get_linear_perspective st l) as [[p|]| |] eqn:E; eauto using writable. Qed.
Lemma writable_merge st l r : writable st (merge st l r).
Proof.
  unfold merge. destruct (mem_new_merge_perspective st l r 0 (MemFacts [] None)) as [[p|]| |] eqn:E;
    eauto using writable. eapply w_merge; [|done]. by split; [apply named_wf_nil|].
Qed.

Lemma reachable_left : mem_reachable st_left.
Proof.
  apply (rtc_l _ _ st_init).
  { refine (step_write _ p_init (mem_write p_init mem_storage_new).1 _ _ _); [|vm_compute; reflexivity].
    apply writable_add, w_insert, w_init. }
  apply (rtc_l _ _ st_commit).
  { refine (step_commit _ seg_init (Ok tt) _ _ _); [vm_compute; left|vm_compute; reflexivity]. }
  apply rtc_once. refine (step_write _ p_left (mem_write p_left st_commit).1 _ _ _); [|vm_compute; reflexivity].
  apply writable_add, writable_add, writable_linear.
Qed.

Lemma reachable : mem_reachable st_merge.
Proof.
  eapply rtc_r; [eapply rtc_r; [exact reachable_left|]|].
  - refine (step_write _ p_right (mem_write p_right st_left).1 st_right _ _); [|vm_compute; reflexivity].
    apply writable_add, writable_linear.
  - refine (step_write _ p_merge (mem_write p_merge st_right).1 st_merge _ _); [|vm_compute; reflexivity].
    apply writable_add, writable_merge.
Qed.

Lemma valid_at n c mc : (∃ seg cmd, st_segments st_merge !! n = Some seg
  ∧ ms_get_command seg (mkLocation n c) = Some cmd ∧ cmd_max_cut cmd = Ok mc) → valid (present st_merge) st_merge (mkLocation n c).
Proof. intros Hv. exists mc. by apply max_cut_at_mem. Qed.
End Example.

(** * Claims *)

(** C33: the storage operations keep the graph well formed: whatever sequence of
    perspectives is obtained, worked on, written and committed, starting from
    an empty storage, every segment sits at its index, its commands have
    consecutive max cuts, its parents are commands of earlier segments with
    smaller max cuts, its fact index is sorted, and the head is a command of
    the graph. *)
Theorem mem_reachable_graph_ok st :
  mem_reachable st → graph_ok (present st) st ∧ mem_ok st ∧ ∀ h, st_head st = Some h → valid (present st) st h.
Proof.
  intros Hinv%reachable_inv. split_and!; [by apply mem_graph_ok, Hinv|apply Hinv|]. intros h. by apply head_valid.
Qed.

Lemma mem_reachable_graph_ok_witness :
  graph_ok (present Example.st_merge) Example.st_merge ∧ mem_ok Example.st_merge
  ∧ ∀ h, st_head Example.st_merge = Some h → valid (present Example.st_merge) Example.st_merge h.
Proof. apply (mem_reachable_graph_ok Example.st_merge). exact Example.reachable. Defined.

(** C35: [is_ancestor] decides ancestry on every storage with a well-formed
    graph: it terminates (fuel beyond the weight of the segment's parents is
    enough), does not fail, and answers whether the searched command is a
    parent of the segment or an ancestor of one, also when it uses skip
    lists. *)
Theorem is_ancestor_decides {St Seg} `{Storage St Seg} D (st : St) (seg : Seg) search fuel :
  graph_ok D st → valid D st search → Forall (valid D st) (prior_list (seg_prior seg)) →
  queue_weight (prior_list (seg_prior seg)) < fuel →
  ∃ b, is_ancestor fuel st search seg = Some (Ok b)
       ∧ (b = true ↔ ∃ q, q ∈ prior_list (seg_prior seg) ∧ anc st q search).
Proof. intros Hg. by apply is_ancestor_spec. Qed.

Lemma is_ancestor_decides_witness :
  ∃ b, is_ancestor 100 Example.st_merge (mkLocation 1 0) Example.seg_merge = Some (Ok b)
       ∧ (b = true ↔ ∃ q, q ∈ prior_list (seg_prior Example.seg_merge) ∧ anc Example.st_merge q (mkLocation 1 0)).
Proof.
  apply (is_ancestor_decides (present Example.st_merge) Example.st_merge Example.seg_merge (mkLocation 1 0) 100).
  - apply mem_graph_ok, reachable_inv, Example.reachable.
  - apply (Example.valid_at 1 0 1). do 2 eexists. split_and!; reflexivity.
  - constructor; [|constructor; [|constructor]].
    + apply (Example.valid_at 1 1 2). do 2 eexists. split_and!; reflexivity.
    + apply (Example.valid_at 2 0 1). do 2 eexists. split_and!; reflexivity.
  - vm_compute. lia.
Defined.

(** [get_location_from] finds commands: on every storage with a well-formed
    graph it terminates without failing; a location it returns holds a command
    with the searched address, and when it returns nothing, neither the start
    nor any of its ancestors has that address. *)
Theorem get_location_from_finds {St Seg} `{Storage St Seg} D (st : St) start address fuel :
  graph_ok D st → valid D st start → queue_weight [start] < fuel →
  ∃ r, get_location_from fuel st start address = Some (Ok r)
       ∧ match r with
         | Some loc => has_address D st loc address
         | None => ∀ x, anc st start x → ¬ has_address D st x address
         end.
Proof.
  intros Hg Hv Hf. destruct (get_location_loop_spec D st Hg fuel address [start]) as (r & Hr & Hs); [by constructor|done|].
  exists r. split; [done|]. destruct r; [done|]. intros x Ha. by apply (Hs start x); [left|].
Qed.

Lemma get_location_from_finds_witness :
  ∃ r, get_location_from 100 Example.st_merge (mkLocation 3 0) (Example.at_ Byte.x01 1) = Some (Ok r)
       ∧ match r with
         | Some loc => has_address (present Example.st_merge) Example.st_merge loc (Example.at_ Byte.x01 1)
         | None => ∀ x, anc Example.st_merge (mkLocation 3 0) x → ¬ has_address (present Example.st_merge) Example.st_merge x (Example.at_ Byte.x01 1)
         end.
Proof.
  apply (get_location_from_finds (present Example.st_merge) Example.st_merge (mkLocation 3 0) (Example.at_ Byte.x01 1) 100).
  - apply mem_graph_ok, reachable_inv, Example.reachable.
  - apply (Example.valid_at 3 0 3). do 2 eexists. split_and!; reflexivity.
  - vm_compute. lia.
Defined.

(** [commit] moves the head forward only: in a reachable storage, committing
    a segment of the storage succeeds exactly when there is no head yet or the
    head is an ancestor of the segment, and then the head is the segment's
    last command; otherwise it fails with [HeadNotAncestor] and changes
    nothing. It never fails in another way. *)
Theorem commit_moves_head_forward st seg :
  mem_reachable st → seg ∈ st_segments st →
  ∃ h, ms_head_location seg = Ok h ∧
    ((mem_commit seg st = (Ok tt, mkMemStorage (st_segments st) (st_commands st) (Some h))
      ∧ ∀ old, st_head st = Some old → anc st h old)
     ∨ (mem_commit seg st = (Err HeadNotAncestor, st)
        ∧ ∃ old, st_head st = Some old ∧ ∀ q, q ∈ prior_list (ms_prior seg) → ¬ anc st q old)).
Proof.
  intros Hinv%reachable_inv [n Hn]%list_elem_of_lookup. rewrite ms_head_location_eq. eexists. split; [done|].
  unfold mem_commit. rewrite ms_head_location_eq. destruct (st_head st) as [old|] eqn:Eh; [|left; by split].
  destruct (mem_is_ancestor st seg n old (proj1 Hinv) Hn (head_valid _ _ Hinv Eh)) as (b & -> & Hb).
  cbn [searched]. destruct b.
  - left. split; [done|]. intros o [= <-]. destruct (proj1 Hb eq_refl) as (q & Hq & Ha).
    apply (anc_prior _ _ _ seg q); [|done..]. rewrite seg_at_mem. cbn [loc_segment].
    by rewrite (mso_index _ _ _ (proj1 Hinv n seg Hn)).
  - right. split; [done|]. exists old. split; [done|]. intros q Hq Ha.
    by assert (false = true) by (apply Hb; eauto).
Qed.

Lemma commit_moves_head_forward_witness :
  ∃ h, ms_head_location Example.seg_merge = Ok h ∧
    ((mem_commit Example.seg_merge Example.st_merge
        = (Ok tt, mkMemStorage (st_segments Example.st_merge) (st_commands Example.st_merge) (Some h))
      ∧ ∀ old, st_head Example.st_merge = Some old → anc Example.st_merge h old)
     ∨ (mem_commit Example.seg_merge Example.st_merge = (Err HeadNotAncestor, Example.st_merge)
        ∧ ∃ old, st_head Example.st_merge = Some old
                 ∧ ∀ q, q ∈ prior_list (ms_prior Example.seg_merge) → ¬ anc Example.st_merge q old)).
Proof.
  apply (commit_moves_head_forward Example.st_merge Example.seg_merge).
  - exact Example.reachable.
  - vm_compute. right. right. right. left.
Defined.

(** * Facts of perspectives *)

(** The updates made in a perspective, in order. *)
Definition persp_updates p : list Update := concat (map cd_updates (mp_commands p)) ++ mp_current_updates p.

(** The facts of a perspective are its updates on top of what it started
    from. *)
Definition persp_inv p : Prop :=
  mp_facts p = apply_updates (persp_updates p) (mfp_new (mfp_prior (mp_facts p))).

(** What a policy does with a perspective. *)
Inductive persp_step : MemPerspective → MemPerspective → Prop :=
| ps_insert name keys v p : persp_step p (mp_insert name keys v p)
| ps_delete name keys p : persp_step p (mp_delete name keys p)
| ps_add c p r p' : mp_add_command c p = (r, p') → persp_step p p'.

Lemma apply_updates_snoc us u f :
  apply_updates (us ++ [u]) f
  = MemFP (named_insert u.1.1 u.1.2 u.2 (mfp_map (apply_updates us f))) (mfp_prior f).
Proof. unfold apply_updates. by rewrite fold_left_app. Qed.

Lemma mp_add_command_inv c p r p' :
  mp_add_command c p = (r, p') →
  p' = p ∨ ∃ d, cd_updates d = mp_current_updates p
    ∧ p' = mkMemPerspective (mp_prior p) (mp_parents p) (mp_policy p) (mp_facts p) (mp_commands p ++ [d]) [] (mp_max_cut p).
Proof.
  unfold mp_add_command. intros E. destruct (sbug (mp_head_address p)); [|simplify_eq; by left..].
  case_match; [simplify_eq; by left|]. destruct (sbug (next_max_cut a)); [|simplify_eq; by left..].
  injection E as <- <-. right. eexists. split; [|done]. done.
Qed.

(** A step keeps the invariant and the beginning of the history. *)
Lemma persp_step_inv p p' :
  persp_step p p' → persp_inv p →
  persp_inv p' ∧ mp_commands p `prefix_of` mp_commands p'
  ∧ mp_prior p' = mp_prior p ∧ mp_parents p' = mp_parents p ∧ mp_policy p' = mp_policy p
  ∧ mp_max_cut p' = mp_max_cut p ∧ mfp_prior (mp_facts p') = mfp_prior (mp_facts p).
Proof.
  unfold persp_inv, persp_updates. intros Hs Hp. destruct Hs as [name keys v p|name keys p|c p r p' E].
  - split_and!; try done. simpl. unfold vec_push. rewrite app_assoc, apply_updates_snoc, <- Hp. done.
  - split_and!; try done. simpl. unfold vec_push. rewrite app_assoc, apply_updates_snoc, <- Hp. done.
  - apply mp_add_command_inv in E as [->|(d & Hd & ->)]; [done|]. simpl.
    split_and!; try done; [|by eexists]. rewrite map_app, concat_app, app_nil_r. simpl.
    by rewrite app_nil_r, Hd, <- Hp.
Qed.

Lemma persp_steps_inv p p' :
  rtc persp_step p p' → persp_inv p →
  persp_inv p' ∧ mp_commands p `prefix_of` mp_commands p'
  ∧ mp_prior p' = mp_prior p ∧ mp_parents p' = mp_parents p ∧ mp_policy p' = mp_policy p
  ∧ mp_max_cut p' = mp_max_cut p ∧ mfp_prior (mp_facts p') = mfp_prior (mp_facts p).
Proof.
  induction 1 as [p|p p1 p' H1 _ IH]; intros Hp; [done|].
  apply persp_step_inv in H1 as (Hp1 & Hpre & E1 & E2 & E3 & E4 & E5); [|done].
  destruct (IH Hp1) as (? & Hpre' & F1 & F2 & F3 & F4 & F5).
  split_and!; [done|by etrans|congruence..].
Qed.

(** [revert] goes back to the checkpoint once a command was added after it:
    if a perspective without pending updates makes a checkpoint and then any
    inserts, deletes and added commands follow, reverting restores exactly the
    perspective of the checkpoint, facts included. But when no command was
    added, reverting does nothing at all: the inserts and deletes made since
    the checkpoint stay. *)
Theorem revert_restores_checkpoint p p' :
  persp_inv p → mp_current_updates p = [] → rtc persp_step p p' →
  mp_revert (mp_checkpoint p) p' = Ok (if length (mp_commands p') =? length (mp_commands p) then p' else p).
Proof.
  intros Hp Hcur Hs. apply persp_steps_inv in Hs as (Hp' & [more Hmore] & Hpr & Hpa & Hpo & Hmc & Hf); [|done].
  unfold mp_revert, mp_checkpoint. rewrite Nat.eqb_sym.
  destruct (Nat.eqb_spec (length (mp_commands p')) (length (mp_commands p))) as [|Hne]; [done|].
  rewrite Hmore, length_app. destruct (Nat.ltb_spec (length (mp_commands p) + length more) (length (mp_commands p))); [lia|].
  rewrite take_app_length, replay_updates. unfold persp_inv, persp_updates in Hp. rewrite Hcur, app_nil_r in Hp.
  destruct p, p'. simpl in *. subst. f_equal. f_equal. rewrite Hp. unfold mfp_clear. by rewrite Hf.
Qed.

Lemma revert_restores_checkpoint_witness :
  let p := mp_new_unrooted 0 in
  let p' := Example.add (Example.cmd Byte.x00 PNone) (mp_insert "F" Example.key [Byte.x0a] p) in
  mp_revert (mp_checkpoint p) p' = Ok p
  ∧ mp_revert (mp_checkpoint p) (mp_insert "F" Example.key [Byte.x0a] p) = Ok (mp_insert "F" Example.key [Byte.x0a] p).
Proof.
  split.
  - apply (revert_restores_checkpoint (mp_new_unrooted 0)); [reflexivity..|].
    eapply rtc_l; [apply ps_insert|]. apply rtc_once. eapply ps_add, surjective_pairing.
  - apply (revert_restores_checkpoint (mp_new_unrooted 0)); [reflexivity..|]. apply rtc_once, ps_insert.
Defined.

(** C39: the in-memory fact structures are fact stores: for a perspective, an
    insert or a delete changes exactly the one fact, [query] reads the
    current facts and [query_prefix] lists, in key order and without deleted
    facts, exactly those whose keys start with the prefix, however many
    layers of perspectives and indices are below; the same for the queries of
    an index. *)
Theorem mem_facts_implement_fact_store :
  QueryMutLaws MemFactPerspective mfp_wf mfp_view ∧ QueryLaws MemFactIndex mfi_wf mfi_view.
Proof. split; apply _. Qed.

(** writing facts preserves them: [write_facts] never fails, and the index
    it returns answers every query and prefix query as the perspective did,
    although empty layers are dropped. *)
Theorem write_facts_preserves_queries (f : MemFactPerspective) :
  mfp_wf f → ∃ i, write_facts f = Ok i ∧ mfi_wf i
    ∧ (∀ name keys, query i name keys = query f name keys)
    ∧ (∀ name prefix, query_prefix i name prefix = query_prefix f name prefix).
Proof.
  intros Hp. destruct (write_facts_spec f Hp) as (i & Hi & Hwf & Hv). exists i. split_and!; [done..| |].
  - intros name keys. rewrite (query_view i name keys) by done. rewrite (query_view f name keys) by done. by rewrite Hv.
  - intros name prefix. destruct (query_prefix_view f name prefix Hp) as (l & -> & Hs & Hin).
    destruct (query_prefix_view i name prefix Hwf) as (l' & -> & Hl'). do 2 f_equal.
    apply (lists_prefix_unique _ _ _ _ _ Hl'). split; [done|]. intros k v. by rewrite Hin, Hv.
Qed.

Lemma write_facts_preserves_queries_witness :
  ∃ i, write_facts (mfp_insert "F" Example.key [Byte.x0a] (mfp_new FPNone)) = Ok i ∧ mfi_wf i
    ∧ (∀ name keys, query i name keys = query (mfp_insert "F" Example.key [Byte.x0a] (mfp_new FPNone)) name keys)
    ∧ (∀ name prefix, query_prefix i name prefix
         = query_prefix (mfp_insert "F" Example.key [Byte.x0a] (mfp_new FPNone)) name prefix).
Proof.
  apply (write_facts_preserves_queries (mfp_insert "F" Example.key [Byte.x0a] (mfp_new FPNone))).
  split; [|done]. split; repeat constructor.
Defined.

(** ** Facts at a command of a segment *)
Definition linear_facts st l : MemFactPerspective := mp_facts (Example.linear st l).

Lemma view_new_updates us q n k :
  mfp_view (apply_updates us (mfp_new q)) n k = view_updates us (prior_view q) n k.
Proof. rewrite apply_updates_view. apply view_updates_ext. intros n' k'. apply mfp_view_layer. Qed.

Lemma concat_take_nil {A} i (ls : list (list A)) : concat ls = [] → concat (take i ls) = [].
Proof.
  revert i. induction ls as [|x ls IH]; intros [|i]; simpl; try done.
  intros [-> ?]%app_nil. by apply IH.
Qed.

Lemma po_prior_wf st p : persp_ok st p → prior_wf (mfp_prior (mp_facts p)).
Proof. intros [_ Hf]. destruct (mp_facts p). by apply mfp_wf_layer in Hf as [_ ?]. Qed.

Lemma named_insert_nonempty name keys v nm : named_insert name keys v nm ≠ [].
Proof. unfold named_insert, bt_upsert. destruct nm as [|[k w] nm]; simpl; [done|]. by destruct (cmp name k). Qed.

Lemma apply_updates_map_nil us f : mfp_map f = [] → mfp_map (apply_updates us f) = [] ↔ us = [].
Proof.
  intros Hf. destruct us as [|u us _] using rev_ind; [by split|]. rewrite apply_updates_snoc. simpl.
  split; [by intros ?%named_insert_nonempty|]. by intros [_ ?]%app_nil.
Qed.

(** What an index written from a perspective with updates is layered on. *)
Lemma write_facts_layers nm q i :
  nm ≠ [] → prior_wf q → write_facts (MemFP nm q) = Ok i →
  ∀ n k, prior_view (prior_of_option (mfi_prior i)) n k = prior_view q n k.
Proof.
  intros Hnm Hq E n k. simpl in E. unfold mbind, outcome_bind in E. destruct q as [|f|j].
  - destruct nm; [done|]. by injection E as <-.
  - destruct (write_facts_spec f Hq) as (j & Hj & _ & Hv). rewrite Hj in E.
    destruct nm; [done|]. injection E as <-. simpl. apply Hv.
  - destruct nm; [done|]. by injection E as <-.
Qed.

Lemma concat_nil_forall (ds : list CommandData) :
  concat (map cd_updates ds) = [] ↔
  forallb (λ d, match cd_updates d with [] => true | _ => false end) ds = true.
Proof.
  induction ds as [|d ds IH]; simpl; [done|]. rewrite andb_true_iff, <- IH.
  destruct (cd_updates d); simpl; naive_solver.
Qed.

(** A fact perspective shows the facts at its command: for a segment written
    from a perspective without pending updates, [get_fact_perspective] at the
    command with index [c] shows the facts the perspective started from with
    the updates of commands [0..=c] applied, and nothing of the later
    commands. *)
Theorem fact_perspective_shows_facts_at_command st p seg st' c :
  mem_ok st → persp_ok st p → persp_inv p → mp_current_updates p = [] →
  mem_write p st = (Ok seg, st') → c < length (mp_commands p) →
  ∃ f, mem_get_fact_perspective st' (mkLocation (ms_index seg) c) = Ok f
    ∧ ∀ n k, mfp_view f n k =
        view_updates (concat (map cd_updates (take (S c) (mp_commands p)))) (prior_view (mfp_prior (mp_facts p))) n k.
Proof.
  intros Hok Hp Hinv Hcur E Hc. destruct (mem_write_spec _ _ _ _ Hok Hp E) as (_ & _ & Hseg & Hw).
  destruct Hw as (Hidx & _ & _ & _ & Hu & _ & Hfv & Hwf).
  unfold persp_inv, persp_updates in Hinv. rewrite Hcur, app_nil_r in Hinv.
  unfold mem_get_fact_perspective, mem_get_segment. rewrite Hseg. cbn [loc_segment loc_command].
  rewrite Hidx, lookup_app_r, Nat.sub_diag by lia. cbn [ok_or lookup list_lookup mbind outcome_bind].
  rewrite ms_head_location_eq. cbn [mbind outcome_bind].
  set (ds := v1_list (ms_commands seg)) in *. set (q := mfp_prior (mp_facts p)) in *.
  assert (length ds = length (mp_commands p)) as Hlen by (by rewrite <- (length_map cd_updates), Hu, length_map).
  assert (∀ n k, mfi_view (ms_facts seg) n k = view_updates (concat (map cd_updates (mp_commands p))) (prior_view q) n k) as Hall.
  { intros n k. rewrite Hfv, Hinv. apply view_new_updates. }
  destruct (forallb (λ d, match cd_updates d with [] => true | _ => false end) ds) eqn:Eall.
  { rewrite orb_true_r. eexists. split; [done|]. intros n k. etrans; [exact (Hall n k)|].
    apply concat_nil_forall in Eall. rewrite Hu in Eall. rewrite Eall, <- firstn_map.
    by rewrite concat_take_nil. }
  rewrite orb_false_r. case_bool_decide as Hhead.
  { eexists. split; [done|]. intros n k. etrans; [exact (Hall n k)|]. rewrite take_ge; [done|].
    injection Hhead as Hhead. rewrite <- Hlen. unfold ds. rewrite v1_len_list. unfold v1_len. lia. }
  assert (c < v1_len (ms_commands seg)) as ->%Nat.ltb_lt by (rewrite <- v1_len_list; fold ds; lia).
  eexists. split; [done|]. intros n k. rewrite replay_updates, <- firstn_map, Hu, firstn_map, view_new_updates.
  apply view_updates_ext. intros n' k'.
  apply (write_facts_layers (mfp_map (mp_facts p)) q); [|by eapply po_prior_wf|by destruct (mp_facts p)].
  rewrite Hinv. intros Hnil%apply_updates_map_nil; [|done]. apply not_true_iff_false in Eall. destruct Eall.
  apply concat_nil_forall. by rewrite Hu.
Qed.

Lemma fact_perspective_shows_facts_at_command_witness :
  ∃ f, mem_get_fact_perspective (mem_write Example.p_init mem_storage_new).2 (mkLocation 0 0) = Ok f
    ∧ ∀ n k, mfp_view f n k = view_updates [("F", Example.key, Some [Byte.x0a])] (λ _ _, None) n k.
Proof.
  apply (fact_perspective_shows_facts_at_command mem_storage_new Example.p_init Example.seg_init
    (mem_write Example.p_init mem_storage_new).2 0).
  - by intros n seg.
  - apply writable_ok; [by intros n seg|]. apply Example.writable_add, w_insert, w_init.
  - reflexivity.
  - reflexivity.
  - vm_compute. reflexivity.
  - vm_compute. lia.
Defined.

(** A linear perspective in the middle of a segment without updates loses the
    facts below: the segment shares the index of its parent, and the
    perspective starts from that index's prior. *)
Lemma linear_perspective_loses_facts :
  mem_reachable Example.st_left
  ∧ query (linear_facts Example.st_left (mkLocation 1 1)) "F" Example.key = Ok (Some [Byte.x0a])
  ∧ query (linear_facts Example.st_left (mkLocation 1 0)) "F" Example.key = Ok None.
Proof. split_and!; [exact Example.reachable_left|vm_compute; reflexivity..]. Qed.
