(* ===== verification/LinearFactsProofs.v ===== *)
(** The fact indices of the persistent storage against the in-memory ones:
    queries agree, perspectives without tombstones are fact stores, compaction
    and writing preserve the facts and keep the chain within its depth. *)
From S2P Require Import Prelude Collections RuntimeTypes FactStore MemFacts LinearFacts.
Local Open Scope string_scope.
Local Open Scope list_scope.
Local Open Scope nat_scope.
Implicit Types (name : string) (keys prefix : Keys) (m : FactMap) (nm : NamedFactMap).

Section Proofs.
Context {W : Type} `{FactIoLaws W}.
Implicit Types (w : W) (r : FactIndexRepr) (i : MemFactIndex).

(** [chain w r i]: the index [r] and its priors in the file [w] are the layers
    of [i]; depths count the layers and offsets decrease. *)
Inductive chain w : FactIndexRepr → MemFactIndex → Prop :=
| chain_root r :
    fr_prior r = None → fr_depth r = 1 → named_wf (fr_facts r) → chain w r (MemFacts (fr_facts r) None)
| chain_next r p i :
    fr_prior r = Some (fr_offset p) → fetch_facts w (fr_offset p) = Ok p → fr_offset p < fr_offset r →
    fr_depth r = S (fr_depth p) → fr_depth r ≤ MAX_FACT_INDEX_DEPTH → named_wf (fr_facts r) →
    chain w p i → chain w r (MemFacts (fr_facts r) (Some i)).

Lemma chain_wf w r i : chain w r i → mfi_wf i.
Proof. induction 1; by split. Qed.

Lemma chain_depth w r i : chain w r i → 1 ≤ fr_depth r ≤ MAX_FACT_INDEX_DEPTH.
Proof. induction 1; unfold MAX_FACT_INDEX_DEPTH in *; lia. Qed.

(** A file that grew still has the chain. *)
Definition grows w w' : Prop := ∀ o x, fetch_facts w o = Ok x → fetch_facts w' o = Ok x.
#[export] Instance grows_preorder : PreOrder grows.
Proof. split; [by intros w o x|]. intros w1 w2 w3 H1 H2 o x Hx. by apply H2, H1. Qed.

Lemma chain_grows w w' r i : grows w w' → chain w r i → chain w' r i.
Proof. intros Hg. induction 1; econstructor; eauto. Qed.

(** ** Queries *)
Lemma query_loop_chain w r i fuel name keys :
  chain w r i → fr_offset r < fuel → lfi_query_loop fuel w r name keys = Ok (mfi_lookup i name keys).
Proof.
  intros Hc. revert fuel. induction Hc as [r Hp Hd Hw|r p i Hp Hf Ho Hd Hm Hw Hc IH]; intros fuel Hfuel;
    (destruct fuel as [|fuel]; [lia|]); simpl; rewrite Hp.
  - by destruct (named_get name keys (fr_facts r)).
  - destruct (named_get name keys (fr_facts r)); [done|]. unfold mbind, outcome_bind. rewrite Hf.
    apply IH. lia.
Qed.

Lemma prefix_loop_chain w r i fuel name prefix (matches : FactMap) :
  chain w r i → fr_offset r < fuel →
  lfi_prefix_loop fuel w r name prefix matches = Ok (mfi_prefix_loop i name prefix matches).
Proof.
  intros Hc. revert fuel matches. induction Hc as [r Hp Hd Hw|r p i Hp Hf Ho Hd Hm Hw Hc IH]; intros fuel matches Hfuel;
    (destruct fuel as [|fuel]; [lia|]); simpl; rewrite Hp; [done|].
  unfold mbind, outcome_bind. rewrite Hf. apply IH. lia.
Qed.

Lemma lfi_query_chain w r i name keys :
  chain w r i → lfi_query (mkLinearFactIndex r w) name keys = mfi_query i name keys.
Proof. intros Hc. unfold lfi_query. cbn [li_repr li_reader]. by rewrite (query_loop_chain w r i) by (done || unfold chain_fuel; lia). Qed.

Lemma lfi_query_prefix_inner_chain w r i name prefix :
  chain w r i →
  lfi_query_prefix_inner (mkLinearFactIndex r w) name prefix = Ok (mfi_query_prefix_inner i name prefix).
Proof.
  intros Hc. unfold lfi_query_prefix_inner. cbn [li_repr li_reader].
  by rewrite (prefix_loop_chain w r i) by (done || unfold chain_fuel; lia).
Qed.

(** ** Perspectives *)

(** [persp_rep p f]: the persistent perspective [p] has the layers of the
    in-memory perspective [f]. *)
Inductive persp_rep : LinearFactPerspective (W := W) → MemFactPerspective → Prop :=
| rep_none nm : named_wf nm → persp_rep (LinFP nm LPNone) (MemFP nm FPNone)
| rep_persp nm q f : named_wf nm → persp_rep q f → persp_rep (LinFP nm (LPPerspective q)) (MemFP nm (FPPerspective f))
| rep_index nm w r i :
    named_wf nm → fetch_facts w (fr_offset r) = Ok r → chain w r i →
    persp_rep (LinFP nm (LPIndex (fr_offset r) w)) (MemFP nm (FPIndex i)).

Lemma persp_rep_wf p f : persp_rep p f → mfp_wf f.
Proof. induction 1; split; eauto using chain_wf. Qed.

Lemma lfp_query_rep p f name keys : persp_rep p f → lfp_query p name keys = mfp_query f name keys.
Proof.
  induction 1 as [nm Hn|nm q f Hn Hq IH|nm w r i Hn Hf Hc]; simpl; destruct (named_get name keys nm); try done.
  unfold mbind, outcome_bind. rewrite Hf. by apply lfi_query_chain.
Qed.

Lemma lfp_prefix_rep p f name prefix :
  persp_rep p f → lfp_query_prefix_inner p name prefix = Ok (mfp_query_prefix_inner f name prefix).
Proof.
  unfold mbind, outcome_bind.
  induction 1 as [nm Hn|nm q f Hn Hq IH|nm w r i Hn Hf Hc]; simpl; unfold mbind, outcome_bind.
  - done.
  - by rewrite IH.
  - by rewrite Hf, (lfi_query_prefix_inner_chain w r i).
Qed.

(** A perspective and its facts. *)
Definition lfp_ok (p : LinearFactPerspective (W := W)) (v : FactView) : Prop :=
  ∃ f, persp_rep p f ∧ ∀ n k, mfp_view f n k = v n k.

Lemma named_remove_wf name keys nm : named_wf nm → named_wf (named_remove name keys nm).
Proof.
  intros Hnm. unfold named_remove, bt_alter. destruct (bt_get name nm) as [m|] eqn:E; [|done].
  split; [apply bt_wf_insert, Hnm|]. apply Forall_forall. intros [n' m'] [[= -> ->]|Hin]%elem_of_bt_insert; simpl.
  - apply bt_wf_remove. by eapply named_wf_get.
  - destruct Hnm as [_ HF]. by apply (proj1 (Forall_forall _ _) HF (n', m')).
Qed.

Lemma named_get_remove name keys nm n k :
  named_wf nm →
  named_get n k (named_remove name keys nm) = if decide (n = name ∧ k = keys) then None else named_get n k nm.
Proof.
  intros Hnm. unfold named_get, named_remove. rewrite bt_get_alter.
  destruct (ord_eqb n name) eqn:En; [apply ord_eqb_true in En as ->|apply ord_eqb_false in En].
  - destruct (bt_get name nm) as [m|] eqn:E; simpl; [|by case_decide].
    rewrite bt_get_remove by by eapply named_wf_get. destruct (ord_eqb k keys) eqn:Ek.
    + apply ord_eqb_true in Ek as ->. by rewrite decide_True.
    + apply ord_eqb_false in Ek. rewrite decide_False; [done|]. naive_solver.
  - rewrite decide_False by naive_solver. done.
Qed.

Lemma persp_rep_layer nm nm' q f' :
  persp_rep (LinFP nm q) f' → named_wf nm' →
  ∃ pr, f' = MemFP nm pr ∧ persp_rep (LinFP nm' q) (MemFP nm' pr).
Proof. inversion 1; subst; intros Hn; eexists; (split; [done|]); econstructor; eauto. Qed.

Lemma lfp_update_ok name keys v p (vw : FactView) :
  lfp_ok p vw → lfp_ok (lfp_update name keys v p) (view_insert name keys v vw).
Proof.
  intros (f & Hr & Hv). destruct p as [nm q]. pose proof (persp_rep_wf _ _ Hr) as Hwf.
  assert (named_wf nm) as Hnm by (inversion Hr; subst; done).
  assert (∀ nm', named_wf nm' → (∀ n k, n ≠ name ∨ k ≠ keys → named_get n k nm' = named_get n k nm) →
    ((named_get name keys nm' = Some v) ∨ (named_get name keys nm' = None ∧ v = None ∧ q = LPNone)) →
    lfp_ok (LinFP nm' q) (view_insert name keys v vw)) as Hgen.
  { intros nm' Hn' Hother Hhere. destruct (persp_rep_layer _ nm' _ _ Hr Hn') as (pr & -> & Hr').
    exists (MemFP nm' pr). split; [done|]. intros n k. rewrite mfp_view_layer. unfold view_insert.
    case_decide as Hd.
    - destruct Hd as [-> ->]. destruct Hhere as [->|(-> & -> & ->)]; [done|]. inversion Hr'; by subst.
    - rewrite Hother by (destruct (decide (n = name)), (decide (k = keys)); naive_solver).
      rewrite <- Hv, mfp_view_layer. done. }
  unfold lfp_update. destruct v as [v|]; simpl.
  - apply Hgen; [by apply named_wf_insert| |left].
    + intros n k Hne. rewrite named_get_insert, decide_False; [done|]. naive_solver.
    + by rewrite named_get_insert, decide_True.
  - destruct q as [|q|o rd]; simpl; (apply Hgen; [by (apply named_wf_insert || apply named_remove_wf)|..]).
    + intros n k Hne. rewrite named_get_remove by done. rewrite decide_False; [done|]. naive_solver.
    + right. rewrite named_get_remove, decide_True by done. done.
    + intros n k Hne. rewrite named_get_insert, decide_False; [done|]. naive_solver.
    + left. by rewrite named_get_insert, decide_True.
    + intros n k Hne. rewrite named_get_insert, decide_False; [done|]. naive_solver.
    + left. by rewrite named_get_insert, decide_True.
Qed.

Lemma lfp_laws_query p vw name keys : lfp_ok p vw → query p name keys = Ok (vw name keys).
Proof.
  intros (f & Hr & Hv). simpl. rewrite (lfp_query_rep p f) by done. rewrite mfp_query_view. by rewrite Hv.
Qed.

Lemma lfp_laws_prefix p vw name prefix :
  lfp_ok p vw → ∃ l, query_prefix p name prefix = Ok (map Ok l) ∧ lists_prefix vw name prefix l.
Proof.
  intros (f & Hr & Hv). simpl. unfold lfp_query_prefix. rewrite (lfp_prefix_rep p f) by done.
  eexists. split; [done|]. destruct (mfp_prefix_inner_spec f name prefix (persp_rep_wf _ _ Hr)) as [Hwf Hget].
  apply lists_prefix_live with (slot := mfp_slot f name); [done..|]. intros k. by rewrite <- Hv.
Qed.

(** ** Compaction *)
Lemma named_get_cons n1 m1 nm n k :
  named_get n k ((n1, m1) :: nm) = if ord_eqb n n1 then bt_get k m1 else named_get n k nm.
Proof. unfold named_get. simpl. by destruct (ord_eqb n n1). Qed.

Lemma merge_layer_spec layer acc :
  named_wf layer → named_wf acc →
  named_wf (merge_layer layer acc)
  ∧ ∀ n k, named_get n k (merge_layer layer acc)
           = match named_get n k acc with Some v => Some v | None => named_get n k layer end.
Proof.
  intros [Hl HF]. revert acc. unfold merge_layer. induction Hl as [|[n1 m1] layer Hl IH Hlt]; intros acc Hacc.
  - split; [done|]. intros n k. simpl. unfold named_get at 3. simpl. by destruct (named_get n k acc).
  - simpl. inversion HF as [|? ? Hm1 HF']; subst. simpl in Hm1.
    set (acc1 := bt_upsert n1 [] _ acc).
    assert (∀ n k, named_get n k acc1 = match named_get n k acc with Some v => Some v
              | None => if ord_eqb n n1 then bt_get k m1 else None end) as Hget1.
    { intros n k. unfold acc1, named_get, bt_upsert. rewrite bt_get_insert.
      destruct (ord_eqb n n1) eqn:En; [apply ord_eqb_true in En as ->|by destruct (bt_get n acc) as [m|]; [destruct (bt_get k m)|]].
      rewrite (add_missing_get m1) by done. destruct (bt_get n1 acc) as [m|]; simpl; [by destruct (bt_get k m)|done]. }
    assert (named_wf acc1) as Hacc1.
    { split; [apply bt_wf_upsert, Hacc|]. apply Forall_forall. intros [n m] [[= -> ->]|Hin]%elem_of_bt_insert; simpl.
      - apply add_missing_wf. destruct (bt_get n1 acc) eqn:E; simpl; [by eapply named_wf_get|constructor].
      - destruct Hacc as [_ HFa]. by apply (proj1 (Forall_forall _ _) HFa (n, m)). }
    destruct (IH HF' acc1 Hacc1) as [Hwf Hget]. split; [done|]. intros n k. rewrite Hget, Hget1.
    rewrite named_get_cons. destruct (named_get n k acc); [done|].
    destruct (ord_eqb n n1) eqn:En; [|done]. apply ord_eqb_true in En as ->. unfold named_get.
    rewrite (bt_wf_notin n1 m1 layer) by by constructor. by destruct (bt_get k m1).
Qed.

Lemma compact_loop_spec w r i fuel acc :
  chain w r i → fr_offset r < fuel → named_wf acc →
  ∃ acc', compact_loop fuel w r acc = Ok acc' ∧ named_wf acc'
    ∧ ∀ n k, named_get n k acc' = match named_get n k acc with Some v => Some v | None => mfi_slot i n k end.
Proof.
  intros Hc. revert fuel acc. induction Hc as [r Hp Hd Hw|r p i Hp Hf Ho Hd Hm Hw Hc IH]; intros fuel acc Hfuel Hacc;
    (destruct fuel as [|fuel]; [lia|]); simpl; rewrite Hp;
    destruct (merge_layer_spec (fr_facts r) acc Hw Hacc) as [Hwf Hget].
  - eexists. split_and!; [done..|]. intros n k. rewrite Hget.
    destruct (named_get n k acc); [done|]. by destruct (named_get n k (fr_facts r)).
  - unfold mbind, outcome_bind. rewrite Hf.
    destruct (IH fuel (merge_layer (fr_facts r) acc)) as (acc' & -> & Hwf' & Hget'); [lia|done|].
    exists acc'. split_and!; [done..|]. intros n k. rewrite Hget', Hget.
    destruct (named_get n k acc); [done|]. by destruct (named_get n k (fr_facts r)).
Qed.

Lemma bt_wf_map_values {A B} (f : A → B) (l : BTreeMap string A) :
  bt_wf l → bt_wf (map (λ p, (p.1, f p.2)) l).
Proof.
  induction 1 as [|[k v] l Hl IH HF]; simpl; [constructor|]. constructor; [done|].
  apply Forall_map. eapply Forall_impl; [exact HF|]. intros [k' v']. done.
Qed.

Lemma bt_get_map_values {A B} (f : A → B) (l : BTreeMap string A) k :
  bt_get k (map (λ p, (p.1, f p.2)) l) = option_map f (bt_get k l).
Proof. induction l as [|[k' v] l IH]; simpl; [done|]. by destruct (ord_eqb k k'). Qed.

(** Dropping tombstones and empty names keeps the live facts. *)
Lemma retain_live_spec nm :
  named_wf nm →
  named_wf (retain_live nm)
  ∧ ∀ n k, named_get n k (retain_live nm)
           = match named_get n k nm with Some (Some v) => Some (Some v) | _ => None end.
Proof.
  intros Hnm. unfold retain_live. set (live m := List.filter (λ kv : Keys * option Bytes, match kv.2 with Some _ => true | None => false end) m).
  pose proof (bt_wf_map_values live nm (proj1 Hnm)) as Hwf. split.
  - split; [by apply bt_wf_filter|]. apply Forall_forall. intros [n m] Hin%list_elem_of_In. simpl.
    apply filter_In in Hin as [Hin _]. apply in_map_iff in Hin as ([n' m'] & [= -> <-] & Hin%list_elem_of_In).
    apply bt_wf_filter. destruct Hnm as [_ HF]. by apply (proj1 (Forall_forall _ _) HF (n, m')).
  - intros n k. unfold named_get. rewrite bt_get_filter, bt_get_map_values by done.
    destruct (bt_get n nm) as [m|] eqn:E; simpl; [|done].
    assert (bt_get k (live m) = match bt_get k m with Some (Some v) => Some (Some v) | _ => None end) as Hlive.
    { unfold live. rewrite bt_get_filter by by eapply named_wf_get. by destruct (bt_get k m) as [[]|]. }
    destruct (live m) as [|kv l] eqn:El; [|by rewrite Hlive]. by rewrite <- Hlive.
Qed.

(** ** Writing

    [wrote w i res]: the call grew the file, and either returned an index
    with the facts of [v], readable at its offset, or failed because an
    append failed. *)
Definition io_failed {A} (x : outcome StorageError A) : Prop :=
  match x with
  | Ok _ => False
  | Err e => ∃ f w, (append_facts f w).1 = Err e
  | Panic p => ∃ f w, (append_facts f w).1 = Panic p
  end.
Definition wrote w (v : FactView) (res : outcome StorageError (LinearFactIndex (W := W)) * W) : Prop :=
  grows w res.2 ∧
  match res.1 with
  | Ok x => grows (li_reader x) res.2 ∧ fetch_facts (li_reader x) (fr_offset (li_repr x)) = Ok (li_repr x)
            ∧ ∃ i, chain (li_reader x) (li_repr x) i ∧ ∀ n k, mfi_view i n k = v n k
  | _ => io_failed res.1
  end.

Definition layer_view nm (v : FactView) : FactView :=
  λ n k, match named_get n k nm with Some s => s | None => v n k end.

Lemma append_index_ok nm prior (v : FactView) w :
  named_wf nm →
  match prior with
  | Some p => fr_depth p < MAX_FACT_INDEX_DEPTH ∧ fetch_facts w (fr_offset p) = Ok p
              ∧ ∃ i, chain w p i ∧ ∀ n k, mfi_view i n k = v n k
  | None => ∀ n k, v n k = None
  end →
  wrote w (layer_view nm v) (append_index nm prior w)
  ∧ ∀ x, (append_index nm prior w).1 = Ok x →
      fr_depth (li_repr x) = S (match prior with Some p => fr_depth p | None => 0 end)
      ∧ li_reader x = (append_index nm prior w).2.
Proof.
  intros Hnm Hprior. unfold append_index.
  set (depth := match prior with Some p => fr_depth p | None => 0 end).
  assert (depth < MAX_FACT_INDEX_DEPTH) as Hd.
  { destruct prior; [by destruct Hprior|]. unfold depth, MAX_FACT_INDEX_DEPTH. lia. }
  assert (checked_add depth 1 = Some (S depth)) as ->.
  { apply checked_add_Some. unfold MAX_FACT_INDEX_DEPTH, pow64 in *. split; lia. }
  cbn [assume ok_or sbug map_err]. destruct (Nat.ltb_spec MAX_FACT_INDEX_DEPTH (S depth)); [lia|].
  set (f offset := mkFactIndexRepr offset (option_map fr_offset prior) (S depth) nm).
  destruct (append_facts f w) as [[r|e|x] w'] eqn:E;
    (split; [split; [intros o y Hy; by eapply append_keeps|]|]); simpl; try done; eauto.
  3, 4: by exists f, w; rewrite E.
  2: { intros x [= <-]. simpl. destruct (append_fetch _ _ _ _ E) as (off & -> & _). done. }
  destruct (append_fetch _ _ _ _ E) as (off & Hr & Hf & Hoff). split; [done|]. subst r. split; [done|].
  assert (grows w w') as Hg by (intros o y Hy; by eapply append_keeps).
  destruct prior as [p|]; simpl.
  - destruct Hprior as (_ & Hp & i & Hc & Hv). exists (MemFacts nm (Some i)). split.
    + apply (chain_next w' (f off) p i); simpl; try done; [by apply Hg|by eapply Hoff|by eapply chain_grows].
    + intros n k. unfold mfi_view, layer_view. simpl. destruct (named_get n k nm); [done|]. apply Hv.
  - exists (MemFacts nm None). split; [by apply (chain_root w' (f off))|].
    intros n k. unfold mfi_view, layer_view. simpl. rewrite Hprior. by destruct (named_get n k nm).
Qed.

Lemma compact_ok r i w :
  chain w r i →
  match compact r w with
  | (Ok p, w') => grows w w' ∧ fr_depth p = 1 ∧ fetch_facts w' (fr_offset p) = Ok p
      ∧ (∃ j, chain w' p j ∧ ∀ n k, mfi_view j n k = mfi_view i n k)
      ∧ fr_prior p = None ∧ ∀ n k, named_get n k (fr_facts p) ≠ Some None
  | (x, w') => grows w w' ∧ io_failed x
  end.
Proof.
  intros Hc. unfold compact, get_state, lift, mbind, M_bind.
  destruct (compact_loop_spec w r i (chain_fuel r) [] Hc) as (acc & -> & Hacc & Hget);
    [unfold chain_fuel; lia|apply named_wf_nil|].
  destruct (retain_live_spec acc Hacc) as [Hwf Hlive].
  destruct (append_index_ok (retain_live acc) None (λ _ _, None) w Hwf) as [[Hg Hw] Hx]; [done|].
  destruct (append_index (retain_live acc) None w) as [[x|e|p] w'] eqn:E; simpl in *; [|done..].
  destruct (Hx x eq_refl) as [Hd Hrd]. destruct Hw as (Hg' & Hf & j & Hj & Hv). rewrite Hrd in *.
  assert (fr_prior (li_repr x) = None ∧ fr_facts (li_repr x) = retain_live acc) as [Hp Hfacts].
  { unfold append_index in E. simpl in E.
    match type of E with (let (_, _) := append_facts ?f w in _) = _ => destruct (append_facts f w) as [[r'|?|?] w''] eqn:Ea end;
      [|discriminate E..].
    injection E as Ex Ew. rewrite <- Ex.
    destruct (append_fetch _ _ _ _ Ea) as (off & Hr & _). simpl. by rewrite Hr. }
  split_and!; try done.
  - exists j. split; [done|]. intros n k. rewrite Hv. unfold layer_view. rewrite Hlive, Hget. unfold mfi_view.
    simpl. by destruct (mfi_slot i n k) as [[]|].
  - intros n k. rewrite Hfacts, Hlive. by destruct (named_get n k acc) as [[]|].
Qed.

Lemma wrote_view w v v' res : (∀ n k, v n k = v' n k) → wrote w v res → wrote w v' res.
Proof.
  intros Hv [Hg Hres]. split; [done|]. destruct res.1; [|done..]. destruct Hres as (? & ? & i & ? & Hi).
  split_and!; [done..|]. exists i. split; [done|]. intros n k. by rewrite Hi.
Qed.

Lemma wrote_grows w w' v res : grows w w' → wrote w' v res → wrote w v res.
Proof. intros Hg [Hg' Hres]. split; [by etrans|done]. Qed.

(** A layer on top of an index that is in the file. *)
Lemma write_layer_ok nm p i w :
  named_wf nm → fetch_facts w (fr_offset p) = Ok p → chain w p i →
  wrote w (layer_view nm (mfi_view i)) (write_layer nm (Some p) w).
Proof.
  intros Hnm Hf Hc. unfold write_layer. pose proof (chain_depth _ _ _ Hc) as Hd.
  destruct (Nat.ltb_spec (MAX_FACT_INDEX_DEPTH - 1) (fr_depth p)) as [Hdeep|Hdeep].
  - unfold mbind, M_bind. pose proof (compact_ok p i w Hc) as Hcomp.
    destruct (compact p w) as [[p'|e|x] w'] eqn:E.
    + destruct Hcomp as (Hg & Hd' & Hf' & (j & Hj & Hv) & _). eapply wrote_grows; [done|].
      apply append_index_ok; [done|]. split_and!; [rewrite Hd'; unfold MAX_FACT_INDEX_DEPTH; lia|done|]. eauto.
    + destruct Hcomp. by split.
    + destruct Hcomp. by split.
  - change (wrote w (layer_view nm (mfi_view i)) (append_index nm (Some p) w)).
    apply append_index_ok; [done|]. split_and!; [unfold MAX_FACT_INDEX_DEPTH in *; lia|done|]. eauto.
Qed.

(** The readers of a perspective read prefixes of the file. *)
Fixpoint readers_in w (p : LinearFactPerspective (W := W)) : Prop :=
  match lfp_prior p with
  | LPNone => True
  | LPPerspective q => readers_in w q
  | LPIndex _ rd => grows rd w
  end.

(** The last step of [write_facts]: an empty layer is not written. *)
Lemma write_on_ok nm x i w :
  named_wf nm → grows (li_reader x) w → fetch_facts (li_reader x) (fr_offset (li_repr x)) = Ok (li_repr x) →
  chain (li_reader x) (li_repr x) i →
  wrote w (layer_view nm (mfi_view i))
    (match nm with [] => mret x | _ => write_layer nm (Some (li_repr x)) end w).
Proof.
  intros Hnm Hg Hf Hc. destruct nm as [|e nm].
  - split; [done|]. simpl. split_and!; [done..|]. by exists i.
  - apply write_layer_ok; [done|by apply Hg|by eapply chain_grows].
Qed.

Lemma lin_write_facts_ok p f w :
  persp_rep p f → readers_in w p → wrote w (mfp_view f) (lin_write_facts p w).
Proof.
  intros Hr. induction Hr as [nm Hn|nm q f Hn Hq IH|nm rd r i Hn Hf Hc]; simpl; intros Hrd.
  - eapply wrote_view, append_index_ok with (v := λ _ _, None); [|done..].
    intros n k. unfold layer_view. by rewrite mfp_view_layer.
  - specialize (IH Hrd). destruct IH as [Hg Hres]. unfold mbind, M_bind.
    destruct (lin_write_facts q w) as [[x|e|e] w'] eqn:E; simpl in *; [|by split..].
    destruct Hres as (Hgx & Hfx & i & Hc & Hv). eapply wrote_grows; [exact Hg|].
    eapply wrote_view, write_on_ok; [|done..].
    intros n k. unfold layer_view. rewrite mfp_view_layer. simpl. by rewrite Hv.
  - unfold mbind, M_bind, lift. rewrite Hf.
    apply (wrote_view w (layer_view nm (mfi_view i))); [|exact (write_on_ok nm (mkLinearFactIndex r rd) i w Hn Hrd Hf Hc)].
    intros n k. unfold layer_view. by rewrite mfp_view_layer.
Qed.

(** ** Sequences of updates *)
Lemma lfp_ok_ext p v v' : (∀ n k, v n k = v' n k) → lfp_ok p v → lfp_ok p v'.
Proof. intros Hv (f & Hr & Hf). exists f. split; [done|]. intros n k. by rewrite Hf. Qed.

Lemma lfp_apply_updates_ok updates p v :
  lfp_ok p v → lfp_ok (lfp_apply_updates updates p) (view_updates updates v).
Proof.
  unfold lfp_apply_updates, view_updates. revert p v.
  induction updates as [|u us IH]; intros p v Hp; simpl; [done|]. by apply IH, lfp_update_ok.
Qed.

Lemma lfp_update_readers name keys x p w : readers_in w p → readers_in w (lfp_update name keys x p).
Proof. destruct p as [nm q], x; simpl; [done|]. by destruct (prior_is_none q). Qed.

Lemma lfp_apply_updates_readers updates p w : readers_in w p → readers_in w (lfp_apply_updates updates p).
Proof.
  unfold lfp_apply_updates. revert p. induction updates as [|u us IH]; intros p Hp; simpl; [done|].
  by apply IH, lfp_update_readers.
Qed.

(** A layer below a new, empty one. *)
Lemma lfp_ok_collapse nm q (v : FactView) :
  lfp_ok (LinFP nm q) v → lfp_ok (lfp_new (match nm with [] => q | _ => LPPerspective (LinFP nm q) end)) v.
Proof.
  intros (f & Hr & Hv). destruct nm as [|nk nm]; [by exists f|]. exists (MemFP [] (FPPerspective f)).
  split; [constructor; [apply named_wf_nil|done]|]. intros n k. rewrite mfp_view_layer. apply Hv.
Qed.

(** Dropping empty maps when nothing is below. *)
Lemma lfp_ok_nonempty nm (v : FactView) :
  lfp_ok (LinFP (W := W) nm LPNone) v →
  lfp_ok (LinFP (W := W) (List.filter (λ nkv, match nkv.2 with [] => false | _ => true end) nm) LPNone) v.
Proof.
  intros (f & Hr & Hv). inversion Hr as [nm' Hnm| |]; subst. eexists. split.
  - constructor. split; [by apply bt_wf_filter, Hnm|]. destruct Hnm as [_ HF]. apply Forall_forall. intros nkv Hin.
    apply (proj1 (Forall_forall _ _) HF). by apply list_elem_of_In, filter_In, proj1, list_elem_of_In in Hin.
  - intros n k. rewrite <- Hv, !mfp_view_layer. unfold named_get. rewrite bt_get_filter by apply Hnm.
    destruct (bt_get n nm) as [[|]|]; done.
Qed.

(** A perspective on a stored index, or on the index below it. *)
Lemma lfp_ok_index w r i : fetch_facts w (fr_offset r) = Ok r → chain w r i → lfp_ok (lfp_new (LPIndex (fr_offset r) w)) (mfi_view i).
Proof.
  intros Hf Hc. exists (MemFP [] (FPIndex i)). split; [by constructor; [apply named_wf_nil|..]|].
  intros n k. by rewrite mfp_view_layer.
Qed.

Lemma lfp_ok_below w r i :
  chain w r i → ∃ v, lfp_ok (lfp_new (match fr_prior r with Some o => LPIndex o w | None => LPNone end)) v.
Proof.
  destruct 1 as [r Hp Hd Hw|r q i Hp Hf Ho Hd Hm Hw Hc]; rewrite Hp.
  - exists (λ _ _, None), (MemFP [] FPNone). split; [constructor; apply named_wf_nil|done].
  - eexists. by apply lfp_ok_index.
Qed.
End Proofs.
