(* ===== verification/Client.v ===== *)
(** Errors of the runtime client ([engine.rs]) and its searches ([client.rs]),
    over any storage: the last common ancestor, with its proof that the search
    meets at a command that every path back from either side passes, and the
    braid. *)
From S2P Require Import Prelude Collections RuntimeTypes FactStore Graph.
Local Open Scope string_scope.
Local Open Scope list_scope.
Local Open Scope nat_scope.

(** * Errors *)
Inductive EngineError : Type :=
| EERead | EEWrite | EECheck | EEPanic | EEInternalError | EEBug (b : Bug_).

Inductive ClientError : Type :=
| CENoSuchParent (id : CommandId)
| CEEngineError (e : EngineError)
| CEStorageError (e : StorageError)
| CEInitError
| CENotAuthorized
| CESessionDeserialize
| CEBug (b : Bug_).

(** The [From] conversions the [?] operator applies. *)
Definition ce_of_engine (e : EngineError) : ClientError :=
  match e with EECheck => CENotAuthorized | _ => CEEngineError e end.
Definition try_storage {A} (m : outcome StorageError A) : outcome ClientError A := map_err CEStorageError m.
Definition try_bug {A} (m : outcome Bug_ A) : outcome ClientError A := map_err CEBug m.
Definition try_engine {A} (m : outcome EngineError A) : outcome ClientError A := map_err ce_of_engine m.

Section LastCommonAncestor.
Context {St Seg : Type} `{Storage St Seg}.
Implicit Types (st : St) (seg : Seg) (l left right : Location).

(** One side of the walk steps back: to a location ([inl]), or the function
    returns ([inr]) at a merge of a storage without skip lists. *)
Definition lca_back seg l (max_cut : nat) : outcome ClientError (Location + Location * nat) :=
  match loc_previous l with
  | Some previous => Ok (inl previous)
  | None =>
      match seg_prior seg with
      | PNone => Ok (inl l)
      | PSingle s => Ok (inl s)
      | PMerge _ _ =>
          if loc_command l =? 0 then
            match last (seg_skip_list seg) with
            | Some (s, _) => Ok (inl s)
            | None => Ok (inr (l, max_cut))
            end
          else Panic "assertion failed: left.command == 0"
      end
  end.

(** One turn of the loop, or what follows it once both sides meet. *)
Definition lca_step st left right : outcome ClientError (Location * Location + Location * nat) :=
  left_seg ← try_storage (get_segment st left);
  left_cmd ← try_bug (assume (seg_get_command left_seg left) "location must exist");
  if bool_decide (left = right) then
    left_max_cut ← try_bug (cmd_max_cut left_cmd);
    Ok (inr (left, left_max_cut))
  else
    right_seg ← try_storage (get_segment st right);
    right_cmd ← try_bug (assume (seg_get_command right_seg right) "location must exist");
    left_max_cut ← try_bug (cmd_max_cut left_cmd);
    right_max_cut ← try_bug (cmd_max_cut right_cmd);
    if right_max_cut <? left_max_cut then
      back ← lca_back left_seg left left_max_cut;
      Ok (match back with inl l => inl (l, right) | inr res => inr res end)
    else
      back ← lca_back right_seg right right_max_cut;
      Ok (match back with inl r => inl (left, r) | inr res => inr res end).

(** [None]: out of fuel. *)
Fixpoint last_common_ancestor (fuel : nat) st left right : option (outcome ClientError (Location * nat)) :=
  match fuel with
  | 0 => None
  | S fuel' =>
      match lca_step st left right with
      | Ok (inr res) => Some (Ok res)
      | Ok (inl (left', right')) => last_common_ancestor fuel' st left' right'
      | Err e => Some (Err e)
      | Panic w => Some (Panic w)
      end
  end.
End LastCommonAncestor.

(** * Correctness *)

(** [choke D st l d c]: the command [d] with max cut [c] is [l] or an ancestor
    of it, and every ancestor of [l] that is not later than [d] is an ancestor
    of [d]: no branch around [d]. *)
Definition choke {St Seg} `{Storage St Seg} (D : nat → Prop) (st : St) (l d : Location) (c : nat) : Prop :=
  anc st l d ∧ max_cut_at D st d c ∧ ∀ x cx, anc st l x → max_cut_at D st x cx → cx ≤ c → anc st d x.

(** One root, and skip lists at merges. *)
Record skips_ok {St Seg} `{Storage St Seg} (D : nat → Prop) (st : St) : Prop := mk_skips_ok {
  so_root n m seg seg' : D n → D m → seg_at st n = Some seg → seg_at st m = Some seg' →
    seg_prior seg = PNone → seg_prior seg' = PNone → n = m;
  so_merge n seg l r : D n → seg_at st n = Some seg → seg_prior seg = PMerge l r → seg_skip_list seg ≠ []
}.

Section LcaCorrect.
Context {St Seg : Type} `{Storage St Seg}.
Variables (D : nat → Prop) (st : St).
Hypothesis Hg : graph_ok D st.
Implicit Types (seg : Seg) (l x p d left right : Location).

Lemma choke_max_cut l d c : choke D st l d c → max_cut_at D st d c.
Proof. by intros (_ & ? & _). Qed.

Lemma choke_refl l c : max_cut_at D st l c → choke D st l l c.
Proof. intros Hl. split_and!; [by apply anc_here|done|]. intros x cx Ha _ _. done. Qed.

Lemma choke_trans l m cm d c : choke D st l m cm → choke D st m d c → choke D st l d c.
Proof.
  intros (Hlm & Hm & Hlx) (Hmd & Hd & Hmx). split_and!; [by eapply anc_trans|done|].
  intros x cx Ha Hx Hle. apply (Hmx x cx); [|done..]. apply (Hlx x cx); [done..|].
  destruct (anc_max_cut D st Hg _ _ _ Hmd Hm) as (c' & Hc' & Hle'). pose proof (max_cut_at_inj D st _ _ _ Hd Hc'). lia.
Qed.

(** The previous command of a segment. *)
Lemma choke_previous l c p :
  max_cut_at D st l c → loc_previous l = Some p → ∃ c', c' < c ∧ choke D st l p c'.
Proof.
  intros Hl Hp. pose proof (proj1 Hl) as HD.
  destruct (max_cut_at_shape D st Hg _ _ Hl) as (seg & base & len & cmd & Hs & _ & Hsh & _ & Hlt & ->).
  destruct l as [n i]. unfold loc_previous in Hp. simpl in *.
  destruct (checked_sub i 1) as [j|] eqn:Ej; [|done]. injection Hp as <-. apply checked_sub_Some in Ej as [Hi ->].
  exists (base + (i - 1)). split; [lia|]. split_and!.
  - apply anc_here; simpl; [done|lia].
  - eapply shape_max_cut_at; [done..|lia].
  - intros x cx Ha Hx Hle. destruct (anc_inv st _ _ _ Ha Hs) as [[Hn Hc]|(q & Hq & Hqx)].
    + apply anc_here; simpl in *; [done|]. subst n.
      destruct (max_cut_at_eq D st x cx seg base len Hx Hs Hsh). lia.
    + by eapply anc_prior.
Qed.

(** The only parent of the first command of a segment. *)
Lemma choke_single l c seg p :
  max_cut_at D st l c → loc_previous l = None → seg_at st (loc_segment l) = Some seg →
  seg_prior seg = PSingle p → ∃ c', c' < c ∧ choke D st l p c'.
Proof.
  intros Hl Hprev Hs Hp.
  destruct (max_cut_at_shape D st Hg _ _ Hl) as (seg' & base & len & cmd & Hs' & _ & Hsh & _ & Hlt & ->). simplify_eq.
  destruct (sh_prior _ _ _ _ _ _ Hsh p) as (Hlt' & c' & Hc' & Hb); [rewrite Hp; by left|].
  exists c'. split; [lia|]. split_and!; [|done|].
  - eapply anc_prior; [done|rewrite Hp; by left|by apply anc_here].
  - intros x cx Ha Hx Hle. destruct (anc_inv st _ _ _ Ha Hs) as [[Hn Hc]|(q & Hq & Hqx)].
    + exfalso. rewrite <- Hn in *. destruct (max_cut_at_eq D st x cx _ base len Hx Hs Hsh). lia.
    + rewrite Hp in Hq. simpl in Hq. by apply list_elem_of_singleton in Hq as ->.
Qed.

(** The first command of the segment of a command. *)
Lemma choke_first l c seg base len :
  max_cut_at D st l c → seg_at st (loc_segment l) = Some seg → seg_shape D st (loc_segment l) seg base len →
  choke D st l (mkLocation (loc_segment l) 0) base.
Proof.
  intros Hl Hs Hsh. pose proof (shape_max_cut_at D st _ _ _ _ 0 (proj1 Hl) Hs Hsh (proj1 (sh_longest _ _ _ _ _ _ Hsh))) as H0.
  rewrite Nat.add_0_r in H0. split_and!; [apply anc_here; simpl; [done|lia]|done|].
  intros x cx Ha Hx Hle. destruct (anc_inv st _ _ _ Ha Hs) as [[Hn Hc]|(q & Hq & Hqx)]; [|by eapply anc_prior].
  rewrite <- Hn in *. destruct (max_cut_at_eq D st x cx _ base len Hx Hs Hsh).
  apply anc_here; simpl; [done|lia].
Qed.

(** A skip of the first command of a segment. *)
Lemma choke_skip l c seg s mc :
  max_cut_at D st l c → loc_previous l = None → seg_at st (loc_segment l) = Some seg →
  (s, mc) ∈ seg_skip_list seg → mc < c ∧ choke D st l s mc.
Proof.
  intros Hl Hprev Hs Hin.
  destruct (max_cut_at_shape D st Hg _ _ Hl) as (seg' & base & len & cmd & Hs' & _ & Hsh & _ & Hlt & ->). simplify_eq.
  destruct (sh_skip _ _ _ _ _ _ Hsh s mc Hin) as (_ & Hmc & (p & Hp & Hps) & Hcomplete).
  destruct (sh_prior _ _ _ _ _ _ Hsh p Hp) as (_ & cp & Hcp & Hb).
  destruct (anc_max_cut D st Hg _ _ _ Hps Hcp) as (c' & Hc' & Hle). pose proof (max_cut_at_inj D st _ _ _ Hmc Hc').
  split; [lia|]. split_and!; [by eapply anc_prior|done|].
  intros x cx Ha Hx Hxle. destruct (anc_inv st _ _ _ Ha Hs) as [[Hn Hc]|(q & Hq & Hqx)].
  - exfalso. rewrite <- Hn in *. destruct (max_cut_at_eq D st x cx _ base len Hx Hs Hsh). lia.
  - by eapply Hcomplete.
Qed.

(** A different ancestor is strictly earlier. *)
Lemma anc_max_cut_lt l x c cx :
  anc st l x → max_cut_at D st l c → max_cut_at D st x cx → x ≠ l → cx < c.
Proof.
  intros Ha Hl Hx Hne.
  destruct (max_cut_at_shape D st Hg _ _ Hl) as (seg & base & len & cmd & Hs & _ & Hsh & _ & Hlt & ->).
  destruct (anc_inv st _ _ _ Ha Hs) as [[Hn Hc]|(q & Hq & Hqx)].
  - rewrite <- Hn in *. destruct (max_cut_at_eq D st x cx seg base len Hx Hs Hsh) as [-> _].
    destruct l as [n i], x as [n' j]. simpl in *. subst n'.
    assert (i ≠ j) by congruence. lia.
  - destruct (sh_prior _ _ _ _ _ _ Hsh q Hq) as (_ & cq & Hcq & Hb).
    destruct (anc_max_cut D st Hg _ _ _ Hqx Hcq) as (c' & Hc' & Hle). pose proof (max_cut_at_inj D st _ _ _ Hx Hc'). lia.
Qed.

(** Every command has an ancestor without parents. *)
Lemma has_root l c :
  max_cut_at D st l c →
  ∃ x cx seg, anc st l x ∧ max_cut_at D st x cx ∧ loc_previous x = None
    ∧ seg_at st (loc_segment x) = Some seg ∧ seg_prior seg = PNone.
Proof.
  remember (loc_segment l) as n eqn:En. revert l c En. induction (lt_wf n) as [n _ IH]. intros l c -> Hl.
  destruct (max_cut_at_shape D st Hg _ _ Hl) as (seg & base & len & cmd & Hs & _ & Hsh & _ & Hlt & ->).
  destruct (prior_list (seg_prior seg)) as [|p ps] eqn:Ep.
  - exists (mkLocation (loc_segment l) 0), (base + 0), seg. split_and!; try done.
    + apply anc_here; simpl; [done|lia].
    + eapply shape_max_cut_at; [apply Hl|done..|lia].
    + rewrite prior_list_spec in Ep. by destruct (seg_prior seg).
  - destruct (sh_prior _ _ _ _ _ _ Hsh p) as (Hlt' & cp & Hcp & _); [rewrite Ep; by left|].
    destruct (IH _ Hlt' p cp eq_refl Hcp) as (x & cx & segx & Ha & Hx). exists x, cx, segx.
    split; [|done]. eapply anc_prior; [done|rewrite Ep; by left|done].
Qed.

Hypothesis Hs : skips_ok D st.

(** Stepping back from a command that is not the earliest. *)
Lemma lca_back_spec l c l' c' seg :
  max_cut_at D st l c → max_cut_at D st l' c' → c' ≤ c → l ≠ l' → seg_at st (loc_segment l) = Some seg →
  ∃ p cp, lca_back seg l c = Ok (inl p) ∧ cp < c ∧ choke D st l p cp.
Proof.
  intros Hl Hl' Hle Hne Hseg. unfold lca_back. destruct (loc_previous l) as [p|] eqn:Hp.
  { destruct (choke_previous l c p Hl Hp) as (cp & ? & ?). eauto. }
  destruct (seg_prior seg) as [|p|p q] eqn:Hprior.
  - exfalso. destruct (has_root l' c' Hl') as (x & cx & sx & Ha & Hx & Hpx & Hsx & Hrx).
    assert (x = l) as ->.
    { pose proof (so_root _ _ Hs _ _ _ _ (proj1 Hx) (proj1 Hl) Hsx Hseg Hrx Hprior) as Hn.
      destruct x as [n i], l as [m j]. unfold loc_previous in *. simpl in *. subst.
      destruct i, j; simpl in *; done. }
    pose proof (anc_max_cut_lt _ _ _ _ Ha Hl' Hx Hne). pose proof (max_cut_at_inj D st _ _ _ Hl Hx). lia.
  - destruct (choke_single l c seg p Hl Hp Hseg Hprior) as (cp & ? & ?). eauto.
  - assert (loc_command l = 0) as ->.
    { unfold loc_previous in Hp. destruct (checked_sub (loc_command l) 1) eqn:E; [done|]. apply checked_sub_None in E. lia. }
    simpl. destruct (last (seg_skip_list seg)) as [[s mc]|] eqn:El.
    + destruct (choke_skip l c seg s mc Hl Hp Hseg) as [??]; [by apply last_Some_elem_of|]. eauto.
    + apply last_None in El. by destruct (so_merge _ _ Hs _ _ _ _ (proj1 Hl) Hseg Hprior).
Qed.

Lemma last_common_ancestor_spec fuel left right cl cr :
  max_cut_at D st left cl → max_cut_at D st right cr → cl + cr < fuel →
  ∃ d c, last_common_ancestor fuel st left right = Some (Ok (d, c))
         ∧ choke D st left d c ∧ choke D st right d c.
Proof.
  revert left right cl cr. induction fuel as [|fuel IH]; intros left right cl cr Hl Hr Hf; [lia|]. simpl.
  unfold lca_step, mbind, outcome_bind.
  destruct (max_cut_at_shape D st Hg _ _ Hl) as (segl & _ & _ & cmdl & Hsl & -> & _ & Hcl & _ & _). simpl.
  rewrite Hcl. simpl. destruct (max_cut_at_cmd D st _ _ _ _ Hl Hsl Hcl) as [HDl ->].
  case_bool_decide as Heq; [subst right|].
  { simpl. exists left, cl. split; [done|]. by split; apply choke_refl. }
  destruct (max_cut_at_shape D st Hg _ _ Hr) as (segr & _ & _ & cmdr & Hsr & -> & _ & Hcr & _ & _). simpl.
  rewrite Hcr. simpl. destruct (max_cut_at_cmd D st _ _ _ _ Hr Hsr Hcr) as [HDr ->]. simpl.
  destruct (Nat.ltb_spec cr cl) as [Hlt|Hge].
  - destruct (lca_back_spec left cl right cr segl Hl Hr) as (p & cp & -> & Hcp & Hch); [lia|done|done|].
    destruct (IH p right cp cr) as (d & c & Hrun & Hd1 & Hd2); [apply Hch|done|lia|].
    exists d, c. split_and!; [done| |done]. by eapply choke_trans.
  - destruct (lca_back_spec right cr left cl segr Hr Hl) as (p & cp & -> & Hcp & Hch); [lia|done|done|].
    destruct (IH left p cl cp) as (d & c & Hrun & Hd1 & Hd2); [done|apply Hch|lia|].
    exists d, c. split_and!; [done|done|]. by eapply choke_trans.
Qed.
End LcaCorrect.

(** The braid of two heads ([client.rs]): the commands of both histories in the
    order in which they are evaluated. *)
Local Open Scope string_scope.
Local Open Scope list_scope.
Local Open Scope nat_scope.

Section Braid.
Context {St Seg : Type} `{Storage St Seg}.
Implicit Types (st : St) (seg : Seg) (l left right : Location).

Record Strand := mkStrand {
  sd_key : Priority * CommandId;
  sd_next : Location;
  sd_segment : Seg
}.
Implicit Types (s : Strand) (strands : list Strand).

Definition strand_new st (location : Location) (cached_segment : option Seg) : outcome ClientError Strand :=
  segment ← match cached_segment with
            | Some seg => Ok seg
            | None => try_storage (get_segment st location)
            end;
  cmd ← ok_or (seg_get_command segment location) (CEStorageError (CommandOutOfBounds location));
  Ok (mkStrand (cmd_priority cmd, cmd_id cmd) location segment).

(** [BinaryHeap]: the order of strands is the reverse of the order of keys,
    so [pop] removes a strand with the least key. *)
Fixpoint heap_pop_from s strands : Strand * list Strand :=
  match strands with
  | [] => (s, [])
  | s' :: strands' =>
      match cmp (sd_key s') (sd_key s) with
      | Lt => let '(m, r) := heap_pop_from s' strands' in (m, s :: r)
      | _ => let '(m, r) := heap_pop_from s strands' in (m, s' :: r)
      end
  end.
Definition heap_pop strands : option (Strand * list Strand) :=
  match strands with [] => None | s :: strands' => Some (heap_pop_from s strands') end.
Definition heap_push s strands : list Strand := s :: strands.

(** [None] below: a search of [is_ancestor] is out of fuel. *)

(** The loop over the other strands: is [location] reachable from one? *)
Fixpoint accessible (search_fuel : nat) st (location : Location) strands : option (outcome ClientError bool) :=
  match strands with
  | [] => Some (Ok false)
  | other :: strands' =>
      if same_segment location (sd_next other) && (loc_command location <=? loc_command (sd_next other))
      then Some (Ok true)
      else match is_ancestor search_fuel st location (sd_segment other) with
           | None => None
           | Some (Ok true) => Some (Ok true)
           | Some (Ok false) => accessible search_fuel st location strands'
           | Some (Err e) => Some (Err (CEStorageError e))
           | Some (Panic w) => Some (Panic w)
           end
  end.

(** The loop over the priors of the popped strand. *)
Fixpoint push_priors (search_fuel : nat) st (prior : list Location) (cached_segment : option Seg) strands
  : option (outcome ClientError (list Strand)) :=
  match prior with
  | [] => Some (Ok strands)
  | location :: prior' =>
      match accessible search_fuel st location strands with
      | None => None
      | Some (Err e) => Some (Err e)
      | Some (Panic w) => Some (Panic w)
      | Some (Ok true) => push_priors search_fuel st prior' cached_segment strands
      | Some (Ok false) =>
          match strand_new st location cached_segment with
          | Ok s => push_priors search_fuel st prior' None (heap_push s strands)
          | Err e => Some (Err e)
          | Panic w => Some (Panic w)
          end
      end
  end.

(** What comes before the next command of a strand. *)
Definition strand_prior s : Prior Location * option Seg :=
  match loc_previous (sd_next s) with
  | Some previous => (PSingle previous, Some (sd_segment s))
  | None => (seg_prior (sd_segment s), None)
  end.
Definition is_merge {T} (p : Prior T) : bool := match p with PMerge _ _ => true | _ => false end.

(** The loop; [acc] is the braid before it is reversed. *)
Fixpoint braid_loop (fuel search_fuel : nat) st strands (acc : list Location)
  : option (outcome ClientError (list Location)) :=
  match heap_pop strands with
  | None => Some (Ok acc)
  | Some (strand, strands) =>
      match fuel with
      | 0 => None
      | S fuel' =>
          let '(prior, cached) := strand_prior strand in
          let acc := if is_merge prior then acc else vec_push (sd_next strand) acc in
          match push_priors search_fuel st (prior_list prior) cached strands with
          | None => None
          | Some (Err e) => Some (Err e)
          | Some (Panic w) => Some (Panic w)
          | Some (Ok strands) =>
              match strands with
              | [last] => Some (Ok (vec_push (sd_next last) acc))
              | _ => braid_loop fuel' search_fuel st strands acc
              end
          end
      end
  end.

Definition braid (fuel search_fuel : nat) st left right : option (outcome ClientError (list Location)) :=
  match (l ← strand_new st left None; r ← strand_new st right None; Ok (l, r)) with
  | Ok (l, r) =>
      match braid_loop fuel search_fuel st (heap_push r (heap_push l [])) [] with
      | Some (Ok acc) => Some (Ok (rev acc))
      | x => x
      end
  | Err e => Some (Err e)
  | Panic w => Some (Panic w)
  end.
End Braid.
