(* ===== verification/BraidProofs.v ===== *)
(** The braid is a linearization of both histories, and depends on the commands
    only, not on how a storage splits them into segments. *)
From S2P Require Import Prelude Collections RuntimeTypes FactStore Graph Client.
Local Open Scope string_scope.
Local Open Scope list_scope.
Local Open Scope nat_scope.

(** * The heap *)
Section Heap.
Context {St Seg : Type} `{Storage St Seg}.
Implicit Types (s m : Strand (Seg := Seg)) (strands r : list (Strand (Seg := Seg))).

Lemma heap_pop_from_spec s strands m r :
  heap_pop_from s strands = (m, r) →
  s :: strands ≡ₚ m :: r ∧ ∀ o, o ∈ s :: strands → cmp (sd_key m) (sd_key o) ≠ Gt.
Proof.
  revert s m r. induction strands as [|s' strands IH]; intros s m r; simpl.
  { intros [= <- <-]. split; [done|]. intros o ->%list_elem_of_singleton. by rewrite cmp_refl. }
  assert (∀ a b m r, heap_pop_from a strands = (m, r) → cmp (sd_key a) (sd_key b) ≠ Gt →
    a :: b :: strands ≡ₚ m :: b :: r ∧ ∀ o, o ∈ a :: b :: strands → cmp (sd_key m) (sd_key o) ≠ Gt) as Hstep.
  { intros a b m' r' Er Hab. destruct (IH _ _ _ Er) as [Hp Hm]. split; [by rewrite Permutation_swap, Hp, Permutation_swap|].
    assert (cmp (sd_key m') (sd_key a) ≠ Gt) as Hma by (apply Hm; set_solver).
    intros o [Heq|[Heq|Ho]%elem_of_cons]%elem_of_cons; [by rewrite Heq| |apply Hm; set_solver].
    rewrite Heq. by eapply cmp_not_gt_trans. }
  destruct (cmp (sd_key s') (sd_key s)) eqn:E.
  2: { destruct (heap_pop_from s' strands) as [m' r'] eqn:Er. intros [= <- <-].
       destruct (Hstep s' s _ _ Er) as [Hp Hm]; [by rewrite E|]. split; [by rewrite <- Hp, Permutation_swap|]. set_solver. }
  all: destruct (heap_pop_from s strands) as [m' r'] eqn:Er; intros [= <- <-];
    apply (Hstep s s' _ _ Er); rewrite cmp_antisym, E; done.
Qed.

Lemma heap_pop_spec strands m r :
  heap_pop strands = Some (m, r) →
  strands ≡ₚ m :: r ∧ ∀ o, o ∈ strands → cmp (sd_key m) (sd_key o) ≠ Gt.
Proof. destruct strands; [done|]. intros [= E]. by apply heap_pop_from_spec. Qed.
End Heap.

(** * Linearization *)
Section Linearize.
Context {St Seg : Type} `{Storage St Seg}.
Variables (D : nat → Prop) (st : St).
Implicit Types (seg : Seg) (l x y p : Location) (s o : Strand (Seg := Seg)) (strands : list (Strand (Seg := Seg))).

(** ** Commands and their parents *)
Definition back seg l : Prior Location :=
  match loc_previous l with Some p => PSingle p | None => seg_prior seg end.

Lemma anc_refl l : anc st l l.
Proof. by apply anc_here. Qed.

Lemma anc_back l x seg :
  seg_at st (loc_segment l) = Some seg →
  anc st l x ↔ x = l ∨ ∃ p, p ∈ prior_list (back seg l) ∧ anc st p x.
Proof.
  intros Hs. unfold back, loc_previous. destruct l as [n i]. simpl in *.
  destruct (checked_sub i 1) as [j|] eqn:Ej.
  - apply checked_sub_Some in Ej as [Hi ->]. simpl. split.
    + intros Ha. destruct (anc_inv st _ _ _ Ha Hs) as [[Hn Hc]|(q & Hq & Hqx)].
      * destruct x as [m k]. simpl in *. subst m. destruct (decide (k = i)) as [->|]; [by left|]. right.
        exists (mkLocation n (i - 1)). split; [by left|]. apply anc_here; simpl; [done|lia].
      * right. exists (mkLocation n (i - 1)). split; [by left|]. by eapply anc_prior.
    + intros [->|(p & ->%list_elem_of_singleton & Ha)]; [apply anc_refl|].
      eapply anc_trans; [|done]. apply anc_here; simpl; [done|lia].
  - apply checked_sub_None in Ej. assert (i = 0) as -> by lia. split.
    + intros Ha. destruct (anc_inv st _ _ _ Ha Hs) as [[Hn Hc]|?]; [|by right].
      left. destruct x as [m k]. simpl in *. f_equal; lia.
    + intros [->|(p & Hp & Ha)]; [apply anc_refl|by eapply anc_prior].
Qed.

Hypothesis Hg : graph_ok D st.

Lemma back_max_cut l c seg p :
  max_cut_at D st l c → seg_at st (loc_segment l) = Some seg → p ∈ prior_list (back seg l) →
  ∃ cp, cp < c ∧ max_cut_at D st p cp.
Proof.
  intros Hl Hs Hp. unfold back in Hp. destruct (loc_previous l) as [q|] eqn:Eq.
  - apply list_elem_of_singleton in Hp as ->. destruct (choke_previous D st Hg _ _ _ Hl Eq) as (cp & ? & ?).
    exists cp. split; [done|by eapply choke_max_cut].
  - destruct (max_cut_at_shape D st Hg _ _ Hl) as (seg' & base & len & cmd & Hs' & _ & Hsh & _ & Hlt & ->). simplify_eq.
    destruct (sh_prior _ _ _ _ _ _ Hsh p Hp) as (_ & cp & Hcp & Hb). exists cp. split; [lia|done].
Qed.

Lemma anc_antisym x y : valid D st x → anc st x y → anc st y x → x = y.
Proof.
  intros [c Hx] Hxy Hyx. destruct (anc_max_cut D st Hg _ _ _ Hxy Hx) as (cy & Hy & Hle).
  destruct (decide (x = y)) as [|Hne]; [done|]. pose proof (anc_max_cut_lt D st Hg _ _ _ _ Hyx Hy Hx Hne). lia.
Qed.

Variables (bound search_fuel : nat).
Hypothesis Hbound : ∀ n, D n → n < bound.
Hypothesis Hsearch : 2 ^ bound ≤ search_fuel.

Lemma prior_weight n seg :
  D n → seg_at st n = Some seg → queue_weight (prior_list (seg_prior seg)) < search_fuel.
Proof.
  intros HD Hs. destruct (go_shape _ _ Hg _ HD) as (seg' & base & len & Hs' & Hsh). simplify_eq.
  assert (∀ q, q ∈ prior_list (seg_prior seg) → weight q ≤ 2 ^ n - 1) as Hw.
  { intros q Hq. apply weight_lt. by apply (sh_prior _ _ _ _ _ _ Hsh). }
  assert (2 * 2 ^ n ≤ 2 ^ bound) as Hpow.
  { rewrite <- Nat.pow_succ_r'. apply Nat.pow_le_mono_r; [done|]. by apply Hbound. }
  pose proof (Nat.pow_nonzero 2 n).
  rewrite prior_list_spec in *. unfold queue_weight. destruct (seg_prior seg) as [|a|a b]; simpl.
  - lia.
  - pose proof (Hw a ltac:(set_solver)). lia.
  - pose proof (Hw a ltac:(set_solver)). pose proof (Hw b ltac:(set_solver)). lia.
Qed.

(** ** Strands *)
Record strand_ok s : Prop := mk_strand_ok {
  sk_valid : valid D st (sd_next s);
  sk_segment : seg_at st (loc_segment (sd_next s)) = Some (sd_segment s);
  sk_key : ∃ cmd, seg_get_command (sd_segment s) (sd_next s) = Some cmd ∧ sd_key s = (cmd_priority cmd, cmd_id cmd)
}.

Lemma strand_new_ok l cached :
  valid D st l → (∀ seg, cached = Some seg → seg_at st (loc_segment l) = Some seg) →
  ∃ s, strand_new st l cached = Ok s ∧ sd_next s = l ∧ strand_ok s.
Proof.
  intros Hv Hcached. destruct Hv as [c Hl].
  destruct (max_cut_at_shape D st Hg _ _ Hl) as (seg & base & len & cmd & Hs & Hget & _ & Hcmd & _).
  unfold strand_new, mbind, outcome_bind.
  assert (match cached with Some seg => Ok seg | None => try_storage (get_segment st l) end = Ok seg) as ->.
  { destruct cached as [seg'|]; [rewrite (Hcached _ eq_refl) in Hs; by injection Hs as ->|by rewrite Hget]. }
  rewrite Hcmd. simpl. eexists. split_and!; [done..|]. split; simpl; [by exists c|done|by exists cmd].
Qed.

(** A location reachable from a strand. *)
Definition covered strands x : Prop := ∃ o, o ∈ strands ∧ anc st (sd_next o) x.

Lemma accessible_spec strands x :
  Forall strand_ok strands → valid D st x →
  ∃ b, accessible search_fuel st x strands = Some (Ok b) ∧ (b = true ↔ covered strands x).
Proof.
  intros HF Hx. unfold covered. induction HF as [|o strands Ho HF IH]; simpl; [exists false; set_solver|].
  setoid_rewrite elem_of_cons. unfold same_segment.
  destruct ((loc_segment x =? loc_segment (sd_next o)) && (loc_command x <=? loc_command (sd_next o))) eqn:Ehit.
  { apply andb_true_iff in Ehit as [?%Nat.eqb_eq ?%Nat.leb_le]. exists true. split; [done|]. split; [|done].
    intros _. exists o. split; [by left|]. by apply anc_here. }
  destruct (sk_valid _ Ho) as [co Hco]. pose proof (sk_segment _ Ho) as Hs.
  destruct (is_ancestor_spec D st Hg search_fuel x (sd_segment o)) as (b & -> & Hb); [done| |by eapply prior_weight; [apply Hco|]|].
  { apply Forall_forall. intros q Hq. destruct (go_shape _ _ Hg _ (proj1 Hco)) as (seg & base & len & Hs' & Hsh).
    rewrite Hs in Hs'. injection Hs' as <-. destruct (sh_prior _ _ _ _ _ _ Hsh q Hq) as (_ & cq & Hcq & _). by exists cq. }
  assert (b = true ↔ anc st (sd_next o) x) as Hbo.
  { rewrite Hb. split; [intros (q & Hq & Ha); by eapply anc_prior|]. intros Ha.
    destruct (anc_inv st _ _ _ Ha Hs) as [[H1 H2]|?]; [|done]. exfalso. apply not_true_iff_false in Ehit.
    apply Ehit, andb_true_iff. by rewrite Nat.eqb_eq, Nat.leb_le. }
  destruct b.
  - exists true. split; [done|]. split; [|done]. intros _. exists o. split; [by left|by apply Hbo].
  - destruct IH as (b & -> & Hb'). exists b. split; [done|]. rewrite Hb'. split; [naive_solver|].
    intros (o' & [->|Ho'] & Ha); [by apply Hbo in Ha|by eauto].
Qed.

(** ** Antichains *)
Definition incomp x y : Prop := ¬ anc st x y ∧ ¬ anc st y x.
Fixpoint antichain strands : Prop :=
  match strands with
  | [] => True
  | s :: strands' => Forall (λ o, incomp (sd_next s) (sd_next o)) strands' ∧ antichain strands'
  end.

#[local] Instance antichain_perm : Proper (Permutation ==> impl) antichain.
Proof.
  intros l k Hp. unfold impl. induction Hp as [|s l k Hp IH|s o l|]; simpl; try naive_solver.
  - intros [HF Ha]. split; [|by apply IH]. apply Forall_forall. intros o Ho.
    apply (proj1 (Forall_forall _ _) HF). by rewrite Hp.
  - rewrite !Forall_cons. unfold incomp. naive_solver.
Qed.

Lemma covered_incl strands strands' x : strands ⊆ strands' → covered strands x → covered strands' x.
Proof. intros Hi (o & Ho & Ha). exists o. split; [by apply Hi|done]. Qed.

Fixpoint pairwise_incomp (ps : list Location) : Prop :=
  match ps with [] => True | p :: ps' => Forall (incomp p) ps' ∧ pairwise_incomp ps' end.

Lemma push_priors_spec ps cached strands :
  Forall (valid D st) ps → pairwise_incomp ps →
  (∀ p seg, p ∈ ps → cached = Some seg → seg_at st (loc_segment p) = Some seg) →
  (∀ p o, p ∈ ps → o ∈ strands → ¬ anc st p (sd_next o)) →
  Forall strand_ok strands → antichain strands →
  ∃ new, push_priors search_fuel st ps cached strands = Some (Ok (new ++ strands))
    ∧ Forall strand_ok (new ++ strands) ∧ antichain (new ++ strands)
    ∧ (∀ o, o ∈ new → sd_next o ∈ ps) ∧ length new ≤ length ps
    ∧ ∀ p, p ∈ ps → covered (new ++ strands) p.
Proof.
  intros Hv. revert cached strands. induction Hv as [|p ps Hp Hv IH]; intros cached strands Hpw Hc Hbelow HF Ha; simpl.
  { exists []. split_and!; try done; set_solver. }
  destruct Hpw as [Hpps Hpw]. destruct (accessible_spec strands p HF Hp) as ([] & -> & Hb).
  - destruct (IH cached strands Hpw) as (new & -> & HF' & Ha' & Hin & Hlen & Hcov); try done; [set_solver..|].
    exists new. split_and!; try done; [set_solver|simpl; lia|]. intros q [->|Hq]%elem_of_cons; [|by apply Hcov].
    eapply covered_incl; [|by apply Hb]. set_solver.
  - destruct (strand_new_ok p cached Hp) as (s & -> & Hs & Hsok); [set_solver|].
    destruct (IH None (heap_push s strands) Hpw) as (new & -> & HF' & Ha' & Hin & Hlen & Hcov); try done.
    + intros q o Hq [->|Ho]%elem_of_cons; [|set_solver]. rewrite Hs. rewrite Forall_forall in Hpps. by apply Hpps.
    + by constructor.
    + simpl. split; [|done]. apply Forall_forall. intros o Ho. rewrite Hs. split; [apply Hbelow; set_solver|].
      intros Hop. assert (false = true) by (apply Hb; by exists o). done.
    + exists (new ++ [s]). unfold heap_push in *. rewrite <- app_assoc. simpl. split_and!; try done.
      * intros o [Ho| ->%list_elem_of_singleton]%elem_of_app; [set_solver|rewrite Hs; by left].
      * rewrite length_app. simpl. lia.
      * intros q [->|Hq]%elem_of_cons; [|by apply Hcov]. exists s. split; [set_solver|]. rewrite Hs. apply anc_refl.
Qed.

(** ** The loop *)
Definition merge_at l : bool :=
  match seg_at st (loc_segment l) with Some seg => is_merge (back seg l) | None => false end.
(** The parents of a merge are not ancestors of each other. *)
Hypothesis Hmerge : ∀ n seg l r, D n → seg_at st n = Some seg → seg_prior seg = PMerge l r → incomp l r.

Lemma strand_prior_eq s :
  (strand_prior s).1 = back (sd_segment s) (sd_next s)
  ∧ ∀ seg p, (strand_prior s).2 = Some seg → p ∈ prior_list (strand_prior s).1 →
      seg = sd_segment s ∧ loc_segment p = loc_segment (sd_next s).
Proof.
  unfold strand_prior, back, loc_previous. destruct (checked_sub (loc_command (sd_next s)) 1); simpl.
  - split; [done|]. intros seg p [= <-] ->%list_elem_of_singleton. done.
  - done.
Qed.

Lemma back_incomp s : strand_ok s → pairwise_incomp (prior_list (back (sd_segment s) (sd_next s))).
Proof.
  intros [[c Hc] Hs _]. unfold back. destruct (loc_previous (sd_next s)); [done|].
  rewrite prior_list_spec. destruct (seg_prior (sd_segment s)) as [|p|p q] eqn:E; simpl; try done.
  split; [|done]. apply Forall_singleton. by eapply Hmerge; [apply Hc|..].
Qed.

(** [A]: both histories; [E]: the commands popped, in order. *)
Record loop_inv (A : Location → Prop) (E : list Location) strands : Prop := mk_loop_inv {
  li_strands : Forall strand_ok strands;
  li_antichain : antichain strands;
  li_cover x : A x ↔ x ∈ E ∨ covered strands x;
  li_disjoint x : x ∈ E → ¬ covered strands x;
  li_sorted : StronglySorted (λ x y, ¬ anc st y x) E
}.

Lemma loop_inv_step A E strands s rest :
  loop_inv A E strands → strands ≡ₚ s :: rest →
  ∃ new, push_priors search_fuel st (prior_list (strand_prior s).1) (strand_prior s).2 rest = Some (Ok (new ++ rest))
    ∧ loop_inv A (E ++ [sd_next s]) (new ++ rest)
    ∧ length new ≤ 2 ∧ ∀ o, o ∈ new → sd_next o ∈ prior_list (back (sd_segment s) (sd_next s)).
Proof.
  intros [HF Ha Hcov Hdis Hsort] Hp. rewrite Hp in HF, Ha. destruct Ha as [Hs_rest Ha].
  apply Forall_cons in HF as [Hs HF]. rewrite Forall_forall in Hs_rest.
  assert (∀ x, covered strands x ↔ anc st (sd_next s) x ∨ covered rest x) as Hcs.
  { intros x. unfold covered. setoid_rewrite Hp. setoid_rewrite elem_of_cons. naive_solver. }
  destruct (strand_prior_eq s) as [Heq Hcached]. pose proof (sk_segment _ Hs) as Hseg. destruct (sk_valid _ Hs) as [c Hc].
  set (ps := prior_list (back (sd_segment s) (sd_next s))).
  assert (∀ p, p ∈ ps → ∃ cp, cp < c ∧ max_cut_at D st p cp) as Hps by (intros p Hin; by eapply back_max_cut).
  assert (∀ p x, p ∈ ps → anc st p x → anc st (sd_next s) x) as Hup.
  { intros p x Hin Hax. apply (anc_back _ _ _ Hseg). right. by exists p. }
  destruct (push_priors_spec ps (strand_prior s).2 rest) as (new & Hpush & HF' & Ha' & Hin & Hlen & Hcov'); try done.
  { apply Forall_forall. intros p Hin. destruct (Hps p Hin) as (cp & _ & ?). by exists cp. }
  { by apply back_incomp. }
  { intros p seg Hin Hcs'. rewrite Heq in Hcached. destruct (Hcached seg p Hcs' Hin) as [-> ->]. done. }
  { intros p o Hin Ho Hanc. apply (proj1 (Hs_rest o Ho)). by apply (Hup p). }
  exists new. rewrite Heq. split; [done|].
  assert (∀ x, covered (new ++ rest) x → covered strands x ∧ x ≠ sd_next s) as Hback.
  { intros x (o & [Ho|Ho]%elem_of_app & Hax).
    - split; [apply Hcs; left; apply (Hup (sd_next o)); [by apply Hin|done]|]. intros ->.
      destruct (Hps _ (Hin o Ho)) as (cp & Hlt & Hcp). destruct (anc_max_cut D st Hg _ _ _ Hax Hcp) as (c' & Hc' & ?).
      pose proof (max_cut_at_inj D st _ _ _ Hc Hc'). lia.
    - split; [apply Hcs; right; by exists o|]. intros ->. by apply (proj2 (Hs_rest o Ho)). }
  split; [|split; [|done]]. 2: { etrans; [done|]. unfold ps. rewrite prior_list_spec. by destruct (back _ _); simpl; lia. }
  split; try done.
  - intros x. rewrite Hcov, Hcs, elem_of_app, list_elem_of_singleton, (anc_back _ x _ Hseg). split.
    + intros [?|[[->|(p & Hin' & Hax)]|Hr]]; [tauto|tauto| |].
      * right. destruct (Hcov' p Hin') as (o & Ho & Hop). exists o. split; [done|by eapply anc_trans].
      * right. eapply covered_incl; [|done]. set_solver.
    + intros [[?| ->]|Hx]; [tauto|tauto|]. apply Hback in Hx as [Hx%Hcs _].
      rewrite (anc_back _ x _ Hseg) in Hx. tauto.
  - intros x [Hx| ->%list_elem_of_singleton]%elem_of_app Hx'; apply Hback in Hx' as [??]; [by eapply Hdis|done].
  - apply StronglySorted_snoc; [done|]. intros x Hx Hax. apply (Hdis x Hx), Hcs. by left.
Qed.

(** Fuel: every strand popped is replaced by at most two earlier ones. *)
Definition mc_of l : nat :=
  match seg_at st (loc_segment l) with
  | Some seg => match seg_get_command seg l with
                | Some cmd => match cmd_max_cut cmd with Ok c => c | _ => 0 end
                | None => 0
                end
  | None => 0
  end.
Definition braid_weight (ls : list Location) : nat := sum_list_with (λ l, 2 ^ S (mc_of l) - 1) ls.

Lemma mc_of_eq l c : max_cut_at D st l c → mc_of l = c.
Proof. intros (_ & seg & cmd & Hs & Hc & Hm). unfold mc_of. by rewrite Hs, Hc, Hm. Qed.

Lemma braid_weight_new c (new : list Location) :
  (∀ p, p ∈ new → mc_of p < c) → length new ≤ 2 → braid_weight new < 2 ^ S c - 1.
Proof.
  intros Hnew Hlen. assert (∀ p, p ∈ new → 2 ^ S (mc_of p) ≤ 2 ^ c) as Hp.
  { intros p Hin. apply Nat.pow_le_mono_r; [done|]. by apply Hnew. }
  pose proof (Nat.pow_nonzero 2 c). rewrite Nat.pow_succ_r'. unfold braid_weight.
  destruct new as [|p [|q [|? ?]]]; cbn [sum_list_with length] in *; [lia| | |lia].
  - pose proof (Hp p ltac:(set_solver)). lia.
  - pose proof (Hp p ltac:(set_solver)). pose proof (Hp q ltac:(set_solver)). lia.
Qed.

Definition unmerged (E : list Location) : list Location := List.filter (λ l, negb (merge_at l)) E.

Lemma braid_loop_spec A fuel strands E :
  loop_inv A E strands → 2 ≤ length strands → braid_weight (map sd_next strands) < fuel →
  ∃ last E', braid_loop fuel search_fuel st strands (unmerged E) = Some (Ok (unmerged E' ++ [sd_next last]))
    ∧ loop_inv A E' [last].
Proof.
  revert strands E. induction fuel as [|fuel IH]; intros strands E Hinv Hlen Hf; [lia|]. simpl.
  destruct (heap_pop strands) as [[s rest]|] eqn:Epop; [|destruct strands; done || simpl in Hlen; lia].
  destruct (heap_pop_spec _ _ _ Epop) as [Hperm _].
  destruct (loop_inv_step A E strands s rest Hinv Hperm) as (new & Hpush & Hinv' & Hnew & Hin).
  pose proof (li_strands _ _ _ Hinv) as HF. rewrite Hperm in HF. apply Forall_cons in HF as [Hs _].
  assert ((if is_merge (strand_prior s).1 then unmerged E else vec_push (sd_next s) (unmerged E))
          = unmerged (E ++ [sd_next s])) as Hacc.
  { unfold unmerged. rewrite List.filter_app. simpl. unfold merge_at. rewrite (sk_segment _ Hs).
    rewrite (proj1 (strand_prior_eq s)). destruct (is_merge _); simpl; [by rewrite app_nil_r|done]. }
  destruct (strand_prior s) as [prior cached] eqn:Eprior. simpl in Hpush, Hacc. rewrite Hpush, Hacc.
  assert (length (new ++ rest) = 1 ∨ 2 ≤ length (new ++ rest)) as Hcases.
  { rewrite length_app. apply Permutation_length in Hperm. simpl in Hperm. lia. }
  destruct (new ++ rest) as [|s1 [|s2 rest']] eqn:Enr; simpl in Hcases; [lia| |].
  - exists s1, (E ++ [sd_next s]). by split.
  - rewrite <- Enr in *. apply IH; [done|rewrite Enr; simpl; lia|].
    destruct (sk_valid _ Hs) as [c Hc].
    assert (braid_weight (map sd_next new) < 2 ^ S c - 1) as Hw.
    { apply braid_weight_new; [|by rewrite length_map]. intros p Hp.
      apply list_elem_of_In, in_map_iff in Hp as (o & <- & Ho%list_elem_of_In).
      destruct (back_max_cut _ _ _ _ Hc (sk_segment _ Hs) (Hin o Ho)) as (cp & ? & Hcp). by rewrite (mc_of_eq _ _ Hcp). }
    assert (braid_weight (map sd_next strands) = 2 ^ S c - 1 + braid_weight (map sd_next rest)) as Hstr.
    { unfold braid_weight. rewrite Hperm. cbn [map sum_list_with]. by rewrite (mc_of_eq _ _ Hc). }
    rewrite map_app. unfold braid_weight in *. rewrite sum_list_with_app. lia.
Qed.

(** The braid of two heads: what it starts with, and what it holds after it. *)
Lemma braid_spec fuel left right :
  valid D st left → valid D st right → incomp left right →
  braid_weight [right; left] < fuel →
  ∃ b rest, braid fuel search_fuel st left right = Some (Ok (b :: rest))
    ∧ (anc st left b ∨ anc st right b)
    ∧ (∀ x, x ∈ rest ↔ (anc st left x ∨ anc st right x) ∧ ¬ anc st b x ∧ merge_at x = false)
    ∧ StronglySorted (λ x y, ¬ anc st x y) (b :: rest).
Proof.
  intros Hl Hr Hinc Hf. unfold braid.
  destruct (strand_new_ok left None Hl) as (sl & -> & Hsl & Hokl); [done|].
  destruct (strand_new_ok right None Hr) as (sr & -> & Hsr & Hokr); [done|]. simpl. unfold heap_push.
  set (A x := anc st left x ∨ anc st right x).
  destruct (braid_loop_spec A fuel [sr; sl] []) as (last & E & Hrun & Hinv); [|done|by rewrite <- Hsl, <- Hsr in Hf|].
  { split.
    - by apply Forall_cons; split; [|apply Forall_singleton].
    - simpl. rewrite Hsl, Hsr. split; [|done]. apply Forall_singleton. rewrite Hsl. split; apply Hinc.
    - intros x. unfold A, covered. setoid_rewrite elem_of_cons. setoid_rewrite list_elem_of_singleton.
      rewrite <- Hsl, <- Hsr. set_solver.
    - by intros x ?%not_elem_of_nil.
    - constructor. }
  change (unmerged []) with (@nil Location) in Hrun. rewrite Hrun, rev_app_distr. simpl.
  exists (sd_next last), (rev (unmerged E)). destruct Hinv as [HF _ Hcov Hdis Hsort].
  assert (∀ x, covered [last] x ↔ anc st (sd_next last) x) as Hcl.
  { intros x. unfold covered. setoid_rewrite list_elem_of_singleton. naive_solver. }
  assert (∀ x, x ∈ rev (unmerged E) ↔ x ∈ E ∧ merge_at x = false) as Hin.
  { intros x. rewrite !list_elem_of_In, <- in_rev. unfold unmerged. rewrite filter_In. by rewrite negb_true_iff. }
  split_and!; [done|..].
  - apply Hcov. right. apply Hcl, anc_refl.
  - intros x. rewrite Hin. fold (A x). rewrite Hcov, Hcl. specialize (Hdis x). rewrite Hcl in Hdis. tauto.
  - constructor; [|].
    + apply StronglySorted_rev. by apply StronglySorted_filter.
    + apply Forall_forall. intros x [Hx _]%Hin Hax. apply (Hdis x Hx). by apply Hcl.
Qed.
End Linearize.

(** * Replicas

    Two storages, possibly of different kinds, that hold the same commands:
    [R] relates the locations of a command in both. *)
Definition back_at {St Seg} `{Storage St Seg} (st : St) (l : Location) : Prior Location :=
  match seg_at st (loc_segment l) with Some seg => back seg l | None => PNone end.
Definition key_at {St Seg} `{Storage St Seg} (st : St) (l : Location) : option (Priority * CommandId) :=
  match seg_at st (loc_segment l) with
  | Some seg => option_map (λ cmd, (cmd_priority cmd, cmd_id cmd)) (seg_get_command seg l)
  | None => None
  end.

Inductive prior_rel (R : Location → Location → Prop) : Prior Location → Prior Location → Prop :=
| rel_none : prior_rel R PNone PNone
| rel_single x y : R x y → prior_rel R (PSingle x) (PSingle y)
| rel_merge x y x' y' : R x y → R x' y' → prior_rel R (PMerge x x') (PMerge y y').

(** Related commands have the same priority, id and, in order, parents; ids
    are unique. *)
Record same_history {St1 Seg1 St2 Seg2} `{Storage St1 Seg1} `{Storage St2 Seg2} (D1 D2 : nat → Prop)
  (st1 : St1) (st2 : St2) (R : Location → Location → Prop) : Prop := mk_same_history {
  hist_valid x y : R x y → valid D1 st1 x ∧ valid D2 st2 y;
  hist_key x y : R x y → key_at st1 x = key_at st2 y;
  hist_back x y : R x y → prior_rel R (back_at st1 x) (back_at st2 y);
  hist_unique x y x' y' : R x y → R x' y' → key_at st1 x = key_at st1 x' → x = x' ∧ y = y'
}.

(** Reading a history from the other side. *)
Lemma same_history_sym {St1 Seg1 St2 Seg2} `{Storage St1 Seg1} `{Storage St2 Seg2} D1 D2 (st1 : St1) (st2 : St2) R :
  same_history D1 D2 st1 st2 R → same_history D2 D1 st2 st1 (flip R).
Proof.
  intros [Hv Hk Hb Hu]. split.
  - intros x y Hxy. destruct (Hv y x Hxy). done.
  - intros x y Hxy. symmetry. by apply Hk.
  - intros x y Hxy. destruct (Hb y x Hxy); by constructor.
  - intros x y x' y' Hxy Hxy' Hkey. destruct (Hu y x y' x' Hxy Hxy'); [|done].
    by rewrite (Hk _ _ Hxy), (Hk _ _ Hxy').
Qed.

Lemma prior_rel_list R p q : prior_rel R p q → Forall2 R (prior_list p) (prior_list q).
Proof. rewrite !prior_list_spec. by destruct 1; repeat constructor. Qed.

(** Ancestors of related commands are related. *)
Lemma anc_forward {St1 Seg1 St2 Seg2} `{Storage St1 Seg1} `{Storage St2 Seg2} D1 D2 (st1 : St1) (st2 : St2) R x y x' :
  graph_ok D1 st1 → same_history D1 D2 st1 st2 R → R x y → anc st1 x x' → ∃ y', anc st2 y y' ∧ R x' y'.
Proof.
  intros Hg Hh Hxy. destruct (hist_valid _ _ _ _ _ Hh x y Hxy) as [[c Hc] _]. revert y Hxy Hc.
  revert x. induction (lt_wf c) as [c _ IH]. intros x y Hxy Hc Ha.
  pose proof Hc as (_ & seg & cmd & Hs & _).
  destruct (proj1 (anc_back st1 x x' seg Hs) Ha) as [->|(p & Hp & Hpx)]; [exists y; by split; [apply anc_refl|]|].
  pose proof (hist_back _ _ _ _ _ Hh x y Hxy) as Hb%prior_rel_list. unfold back_at in Hb. rewrite Hs in Hb.
  apply list_elem_of_lookup in Hp as [i Hi].
  destruct (Forall2_lookup_l _ _ _ _ _ Hb Hi) as (q & Hq & Hpq).
  destruct (back_max_cut D1 st1 Hg x c seg p Hc Hs) as (cp & Hlt & Hcp); [by eapply list_elem_of_lookup_2|].
  destruct (IH cp Hlt p q Hpq Hcp Hpx) as (y' & Hay & Hr). exists y'. split; [|done].
  destruct (hist_valid _ _ _ _ _ Hh x y Hxy) as [_ [cy (_ & segy & cmdy & Hsy & _)]].
  apply (anc_back st2 y y' segy Hsy). right. exists q. split; [|done]. rewrite Hsy in Hq. by eapply list_elem_of_lookup_2.
Qed.

Lemma anc_same {St1 Seg1 St2 Seg2} `{Storage St1 Seg1} `{Storage St2 Seg2} D1 D2 (st1 : St1) (st2 : St2) R x y x' y' :
  graph_ok D1 st1 → graph_ok D2 st2 → same_history D1 D2 st1 st2 R → R x y → R x' y' →
  anc st1 x x' ↔ anc st2 y y'.
Proof.
  intros Hg1 Hg2 Hh Hxy Hxy'. split; intros Ha.
  - destruct (anc_forward D1 D2 st1 st2 R x y x' Hg1 Hh Hxy Ha) as (z & Hz & Hr).
    by destruct (hist_unique _ _ _ _ _ Hh _ _ _ _ Hr Hxy' eq_refl) as [_ ->].
  - pose proof (same_history_sym _ _ _ _ _ Hh) as Hh'.
    destruct (anc_forward D2 D1 st2 st1 (flip R) y x y' Hg2 Hh' Hxy Ha) as (z & Hz & Hr).
    by destruct (hist_unique _ _ _ _ _ Hh' _ _ _ _ Hr Hxy' eq_refl) as [_ ->].
Qed.

Section Converge.
Context {St1 Seg1 St2 Seg2 : Type} `{Storage St1 Seg1} `{Storage St2 Seg2}.
Variables (D1 D2 : nat → Prop) (st1 : St1) (st2 : St2).
Hypothesis Hg1 : graph_ok D1 st1.
Hypothesis Hg2 : graph_ok D2 st2.
Variable R : Location → Location → Prop.
Hypothesis Hh : same_history D1 D2 st1 st2 R.
Variables (bound1 bound2 fuel1 fuel2 : nat).
Hypothesis Hb1 : ∀ n, D1 n → n < bound1.
Hypothesis Hb2 : ∀ n, D2 n → n < bound2.
Hypothesis Hf1 : 2 ^ bound1 ≤ fuel1.
Hypothesis Hf2 : 2 ^ bound2 ≤ fuel2.

Definition strand_rel (s : Strand (Seg := Seg1)) (o : Strand (Seg := Seg2)) : Prop :=
  strand_ok D1 st1 s ∧ strand_ok D2 st2 o ∧ R (sd_next s) (sd_next o).
(** The strands of both braids, in whatever order. *)
Definition sim (S1 : list (Strand (Seg := Seg1))) (S2 : list (Strand (Seg := Seg2))) : Prop := ∃ L, Forall2 strand_rel S1 L ∧ L ≡ₚ S2.

Lemma strand_key {St Seg} `{Storage St Seg} D (st : St) s :
  strand_ok D st s → key_at st (sd_next s) = Some (sd_key s).
Proof. intros [_ Hs (cmd & Hc & Hk)]. unfold key_at. by rewrite Hs, Hc, Hk. Qed.

Lemma strand_rel_key s o : strand_rel s o → sd_key s = sd_key o.
Proof.
  intros (Hs & Ho & HR). apply (hist_key _ _ _ _ _ Hh) in HR.
  rewrite (strand_key _ _ _ Hs), (strand_key _ _ _ Ho) in HR. by injection HR.
Qed.

Lemma strand_ok_eq {St Seg} `{Storage St Seg} D (st : St) s s' :
  strand_ok D st s → strand_ok D st s' → sd_next s = sd_next s' → s = s'.
Proof.
  intros [_ Hs (c & Hc & Hk)] [_ Hs' (c' & Hc' & Hk')] Hn. destruct s as [k n seg], s' as [k' n' seg']. simpl in *.
  subst n'. rewrite Hs in Hs'. injection Hs' as <-. rewrite Hc in Hc'. injection Hc' as <-. congruence.
Qed.

Lemma sim_covered S1 S2 x y : sim S1 S2 → R x y → covered st1 S1 x ↔ covered st2 S2 y.
Proof.
  intros (L & HL & HP) HR. unfold covered. setoid_rewrite <- HP. split.
  - intros (o & [i Hi]%list_elem_of_lookup & Ha). destruct (Forall2_lookup_l _ _ _ _ _ HL Hi) as (o' & Ho' & _ & _ & HRo).
    exists o'. split; [by eapply list_elem_of_lookup_2|]. by apply (anc_same D1 D2 st1 st2 R (sd_next o) _ x y).
  - intros (o & [i Hi]%list_elem_of_lookup & Ha). destruct (Forall2_lookup_r _ _ _ _ _ HL Hi) as (o' & Ho' & _ & _ & HRo).
    exists o'. split; [by eapply list_elem_of_lookup_2|]. by apply (anc_same D1 D2 st1 st2 R _ (sd_next o) x y).
Qed.

Lemma sim_ok S1 S2 : sim S1 S2 → Forall (strand_ok D1 st1) S1 ∧ Forall (strand_ok D2 st2) S2.
Proof.
  intros (L & HL & HP). rewrite <- HP. split.
  - eapply Forall2_Forall_l; [exact HL|]. apply Forall_forall. by intros o _ s (? & _).
  - eapply Forall2_Forall_r; [exact HL|]. apply Forall_forall. by intros s _ o (_ & ? & _).
Qed.

Lemma sim_pop S1 S2 m1 r1 m2 r2 :
  sim S1 S2 → heap_pop S1 = Some (m1, r1) → heap_pop S2 = Some (m2, r2) → strand_rel m1 m2 ∧ sim r1 r2.
Proof.
  intros Hsim Hp1 Hp2. destruct Hsim as (L & HL & HP).
  apply heap_pop_spec in Hp1 as [HP1 Hmin1]. apply heap_pop_spec in Hp2 as [HP2 Hmin2].
  destruct (Permutation.Permutation_Forall2 HP1 HL) as (L' & HLL & HL'). inversion HL' as [|? a ? L1 Hm1a HL1]; subst.
  assert (a ∈ S2) as Ha by (rewrite <- HP, HLL; by left).
  assert (m2 ∈ S2) as Hm2 by (rewrite HP2; by left).
  assert (sd_key m1 = sd_key m2) as Hkey.
  { assert (m2 ∈ L) as [i Hi]%list_elem_of_lookup by by rewrite HP.
    destruct (Forall2_lookup_r _ _ _ _ _ HL Hi) as (o & Ho%list_elem_of_lookup_2 & Hom).
    pose proof (Hmin1 o Ho) as H1. rewrite (strand_rel_key _ _ Hom) in H1.
    pose proof (Hmin2 a Ha) as H2. rewrite <- (strand_rel_key _ _ Hm1a) in H2.
    rewrite cmp_antisym in H2. destruct (cmp (sd_key m1) (sd_key m2)) eqn:E; try done. by apply cmp_eq_iff in E. }
  assert (a = m2) as ->.
  { assert (m2 ∈ L) as [i Hi]%list_elem_of_lookup by by rewrite HP.
    destruct (Forall2_lookup_r _ _ _ _ _ HL Hi) as (o & Ho & Hom). destruct Hm1a as (Hok1 & Hok2 & HR).
    pose proof (strand_rel_key _ _ Hom) as Hko. destruct Hom as (Hoko & Hokm & HRo).
    eapply strand_ok_eq; [done..|].
    apply (hist_unique _ _ _ _ _ Hh _ _ _ _ HR HRo).
    rewrite (strand_key _ _ _ Hok1), (strand_key _ _ _ Hoko). by rewrite Hkey, Hko. }
  split; [done|]. exists L1. split; [done|]. apply (Permutation_cons_inv (a := m2)). by rewrite <- HLL, HP.
Qed.

Lemma sim_length S1 S2 : sim S1 S2 → length S1 = length S2.
Proof. intros (L & HL & HP). by rewrite <- HP, (Forall2_length _ _ _ HL). Qed.

Lemma sim_push s o S1 S2 : strand_rel s o → sim S1 S2 → sim (heap_push s S1) (heap_push o S2).
Proof. intros Hso (L & HL & HP). exists (o :: L). split; [by constructor|]. unfold heap_push. by rewrite HP. Qed.

Definition cached_ok {St Seg} `{Storage St Seg} (st : St) (ps : list Location) (cached : option Seg) : Prop :=
  ∀ p seg, p ∈ ps → cached = Some seg → seg_at st (loc_segment p) = Some seg.

Lemma cached_ok_cons {St Seg} `{Storage St Seg} (st : St) p ps (cached : option Seg) :
  cached_ok st (p :: ps) cached →
  (∀ seg, cached = Some seg → seg_at st (loc_segment p) = Some seg) ∧ cached_ok st ps cached ∧ cached_ok st ps None.
Proof.
  intros Hc. split_and!; [|intros q seg Hq; apply Hc; by right|by intros q seg _].
  intros seg. apply Hc. by left.
Qed.

Lemma push_priors_sim ps1 ps2 cached1 cached2 S1 S2 :
  Forall2 R ps1 ps2 → cached_ok st1 ps1 cached1 → cached_ok st2 ps2 cached2 → sim S1 S2 →
  ∃ T1 T2, push_priors fuel1 st1 ps1 cached1 S1 = Some (Ok T1) ∧ push_priors fuel2 st2 ps2 cached2 S2 = Some (Ok T2)
    ∧ sim T1 T2.
Proof.
  intros HR. revert cached1 cached2 S1 S2. induction HR as [|x y ps1 ps2 Hxy HR IH]; intros c1 c2 S1 S2 Hc1 Hc2 Hsim;
    simpl; [by exists S1, S2|].
  destruct (cached_ok_cons _ _ _ _ Hc1) as (Hx & Hc1' & Hn1), (cached_ok_cons _ _ _ _ Hc2) as (Hy & Hc2' & Hn2).
  destruct (sim_ok _ _ Hsim) as [HF1 HF2]. destruct (hist_valid _ _ _ _ _ Hh x y Hxy) as [Hvx Hvy].
  destruct (accessible_spec D1 st1 Hg1 bound1 fuel1 Hb1 Hf1 S1 x HF1 Hvx) as (b & -> & Hb).
  destruct (accessible_spec D2 st2 Hg2 bound2 fuel2 Hb2 Hf2 S2 y HF2 Hvy) as (b' & -> & Hb').
  assert (b' = b) as -> by (apply eq_bool_prop_intro; rewrite !Is_true_true, Hb, Hb'; symmetry; by apply sim_covered).
  destruct b; [by apply IH|].
  destruct (strand_new_ok D1 st1 Hg1 x c1 Hvx Hx) as (s & -> & Hs & Hoks).
  destruct (strand_new_ok D2 st2 Hg2 y c2 Hvy Hy) as (o & -> & Ho & Hoko).
  apply IH; [done..|]. apply sim_push; [|done]. unfold strand_rel. by rewrite Hs, Ho.
Qed.

Lemma strand_rel_prior s o :
  strand_rel s o →
  prior_rel R (strand_prior s).1 (strand_prior o).1
  ∧ cached_ok st1 (prior_list (strand_prior s).1) (strand_prior s).2
  ∧ cached_ok st2 (prior_list (strand_prior o).1) (strand_prior o).2.
Proof.
  intros (Hs & Ho & HR). destruct (strand_prior_eq s) as [Hes Hcs], (strand_prior_eq o) as [Heo Hco].
  apply (hist_back _ _ _ _ _ Hh) in HR. unfold back_at in HR.
  rewrite (sk_segment _ _ _ Hs), (sk_segment _ _ _ Ho) in HR. split_and!.
  - by rewrite Hes, Heo.
  - intros p seg Hp Hc. destruct (Hcs seg p Hc Hp) as [-> ->]. apply Hs.
  - intros p seg Hp Hc. destruct (Hco seg p Hc Hp) as [-> ->]. apply Ho.
Qed.

(** Both loops do the same, with the same fuel. *)
Lemma braid_loop_sim fuel S1 S2 acc1 acc2 :
  sim S1 S2 → Forall2 R acc1 acc2 →
  match braid_loop fuel fuel1 st1 S1 acc1, braid_loop fuel fuel2 st2 S2 acc2 with
  | Some (Ok res1), Some (Ok res2) => Forall2 R res1 res2
  | None, None => True
  | _, _ => False
  end.
Proof.
  revert S1 S2 acc1 acc2. induction fuel as [|fuel IH]; intros S1 S2 acc1 acc2 Hsim Hacc; simpl;
    pose proof (sim_length _ _ Hsim) as Hlen;
    (destruct (heap_pop S1) as [[m1 r1]|] eqn:E1; [|by destruct S1; [|done]; destruct S2]);
    (destruct (heap_pop S2) as [[m2 r2]|] eqn:E2; [|by destruct S2; [|done]; destruct S1]); [done|].
  destruct (sim_pop _ _ _ _ _ _ Hsim E1 E2) as [Hrel Hrest].
  destruct (strand_rel_prior _ _ Hrel) as (Hprior & Hc1 & Hc2).
  destruct (strand_prior m1) as [p1 k1], (strand_prior m2) as [p2 k2]. simpl in *.
  assert (Forall2 R (if is_merge p1 then acc1 else vec_push (sd_next m1) acc1)
                    (if is_merge p2 then acc2 else vec_push (sd_next m2) acc2)) as Hacc'.
  { unfold vec_push. destruct Hprior; simpl; try done; (apply Forall2_app; [done|]); constructor; [apply Hrel|done|apply Hrel|done]. }
  destruct (push_priors_sim _ _ _ _ _ _ (prior_rel_list _ _ _ Hprior) Hc1 Hc2 Hrest) as (T1 & T2 & -> & -> & HT).
  pose proof (sim_length _ _ HT) as HTlen.
  destruct T1 as [|t1 [|u1 T1]], T2 as [|t2 [|u2 T2]]; simpl in HTlen; try lia; try (by apply IH).
  unfold vec_push at 2 4. apply Forall2_app; [done|]. constructor; [|done].
  destruct HT as (L & HL & HP). apply Permutation_singleton_r in HP as ->. inversion HL as [|? ? ? ? (_ & _ & HR)]. done.
Qed.

Lemma braid_sim fuel l1 r1 l2 r2 :
  (R l1 l2 ∧ R r1 r2) ∨ (R l1 r2 ∧ R r1 l2) →
  match braid fuel fuel1 st1 l1 r1, braid fuel fuel2 st2 l2 r2 with
  | Some (Ok res1), Some (Ok res2) => Forall2 R res1 res2
  | None, None => True
  | _, _ => False
  end.
Proof.
  intros HR. unfold braid.
  assert (valid D1 st1 l1 ∧ valid D1 st1 r1 ∧ valid D2 st2 l2 ∧ valid D2 st2 r2) as (Hl1 & Hr1 & Hl2 & Hr2).
  { destruct HR as [[HR1 HR2]|[HR1 HR2]]; apply (hist_valid _ _ _ _ _ Hh) in HR1, HR2; tauto. }
  destruct (strand_new_ok D1 st1 Hg1 l1 None Hl1) as (sl1 & -> & Hsl1 & Hokl1); [done|].
  destruct (strand_new_ok D1 st1 Hg1 r1 None Hr1) as (sr1 & -> & Hsr1 & Hokr1); [done|].
  destruct (strand_new_ok D2 st2 Hg2 l2 None Hl2) as (sl2 & -> & Hsl2 & Hokl2); [done|].
  destruct (strand_new_ok D2 st2 Hg2 r2 None Hr2) as (sr2 & -> & Hsr2 & Hokr2); [done|]. simpl.
  assert (sim (heap_push sr1 (heap_push sl1 [])) (heap_push sr2 (heap_push sl2 []))) as Hsim.
  { subst l1 r1 l2 r2. unfold heap_push. destruct HR as [[HR1 HR2]|[HR1 HR2]].
    - exists [sr2; sl2]. split; [|done]. by do 2 (apply Forall2_cons_2; [by unfold strand_rel|]).
    - exists [sl2; sr2]. split; [|by apply Permutation_swap]. by do 2 (apply Forall2_cons_2; [by unfold strand_rel|]). }
  pose proof (braid_loop_sim fuel _ _ [] [] Hsim (Forall2_nil_2 _ _ _)) as Hloop.
  destruct (braid_loop fuel fuel1 st1 (heap_push sr1 (heap_push sl1 [])) []) as [[res1|?|?]|],
    (braid_loop fuel fuel2 st2 (heap_push sr2 (heap_push sl2 [])) []) as [[res2|?|?]|]; try done.
  rewrite !rev_alt. by apply Forall2_reverse.
Qed.
End Converge.
