(* ===== verification/LinearStorage.v ===== *)
(** Segments, perspectives and storage operations of the persistent storage
    ([storage/linear/mod.rs]): an append-only file holds segments and fact
    indices; segments carry skip lists. *)
From S2P Require Import Prelude Collections RuntimeTypes FactStore MemFacts Graph MemStorage LinearFacts.
Local Open Scope string_scope.
Local Open Scope list_scope.
Local Open Scope nat_scope.

(** * Data *)
Record LinCommandData := mkLinCommandData {
  lcd_id : CommandId;
  lcd_priority : Priority;
  lcd_policy : option Bytes;
  lcd_data : Bytes;
  lcd_updates : list Update
}.

Record SegmentRepr := mkSegmentRepr {
  sr_offset : nat;
  sr_prior : Prior Location;
  sr_parents : Prior Address;
  sr_policy : PolicyId;
  sr_facts : nat;
  sr_commands : Vec1 LinCommandData;
  sr_max_cut : nat;
  sr_skip_list : list (Location * nat)
}.

(** The part of [Write] and [Read] that segments use. *)
Class SegIo (W : Type) := {
  fetch_segment : W → nat → outcome StorageError SegmentRepr;
  append_segment : (nat → SegmentRepr) → W → outcome StorageError SegmentRepr * W;
  io_head : W → outcome StorageError Location;
  io_commit : Location → W → outcome StorageError unit * W
}.

(** What the file promises: appending returns the built item at an offset after
    every readable one and keeps everything readable, the head is the last one
    committed, and writing the head fails with errors of the file only. *)
Class SegIoLaws (W : Type) `{FactIo W} `{SegIo W} : Prop := {
  segment_keeps f w r w' : append_segment f w = (r, w') →
    (∀ o x, fetch_segment w o = Ok x → fetch_segment w' o = Ok x)
    ∧ (∀ o x, fetch_facts w o = Ok x → fetch_facts w' o = Ok x) ∧ io_head w' = io_head w;
  facts_keeps f w r w' : append_facts f w = (r, w') →
    (∀ o x, fetch_segment w o = Ok x → fetch_segment w' o = Ok x) ∧ io_head w' = io_head w;
  segment_fetch f w x w' : append_segment f w = (Ok x, w') →
    ∃ off, x = f off ∧ fetch_segment w' off = Ok x ∧ ∀ o y, fetch_segment w o = Ok y → o < off;
  commit_keeps l w r w' : io_commit l w = (r, w') →
    (∀ o x, fetch_segment w o = Ok x → fetch_segment w' o = Ok x)
    ∧ (∀ o x, fetch_facts w o = Ok x → fetch_facts w' o = Ok x)
    ∧ (is_ok r = true → io_head w' = Ok l) ∧ (io_head w' = Ok l ∨ io_head w' = io_head w);
  commit_error l w w' : io_commit l w ≠ (Err HeadNotAncestor, w')
}.

Section LinearStorage.
Context {W : Type} `{FactIo W} `{SegIo W}.
Implicit Types (w : W).

(** * Segments *)
Record LinearSegment := mkLinearSegment { lseg_repr : SegmentRepr; lseg_reader : W }.
Implicit Types (s : LinearSegment).

(** [Command] of [LinearCommand]. *)
Definition lin_command (d : LinCommandData) (parent : Prior Address) (max_cut : nat) : Command :=
  mkCommand (lcd_priority d) (lcd_id d) parent (lcd_policy d) (lcd_data d) (Ok max_cut).

Definition lseg_head s : outcome StorageError Command :=
  let r := lseg_repr s in
  let data := v1_last (sr_commands r) in
  parent ← match checked_sub (v1_len (sr_commands r)) 2 with
           | Some prev =>
               max_cut ← sbug (assume (checked_add (sr_max_cut r) prev) "must not overflow");
               d ← match v1_list (sr_commands r) !! prev with
                   | Some d => Ok d
                   | None => Panic "index out of bounds"
                   end;
               Ok (PSingle (mkAddress (lcd_id d) max_cut))
           | None => Ok (sr_parents r)
           end;
  end_ ← sbug (assume (checked_add (sr_max_cut r) (v1_len (sr_commands r))) "must not overflow");
  max_cut ← sbug (assume (checked_sub end_ 1) "must not overflow");
  Ok (lin_command data parent max_cut).
Definition lseg_first s : Command :=
  let r := lseg_repr s in lin_command (v1_first (sr_commands r)) (sr_parents r) (sr_max_cut r).
(** The length is at least one, so the subtraction does not wrap. *)
Definition lseg_head_location s : outcome StorageError Location :=
  Ok (mkLocation (sr_offset (lseg_repr s)) (v1_len (sr_commands (lseg_repr s)) - 1)).
Definition lseg_first_location s : Location := mkLocation (sr_offset (lseg_repr s)) 0.
Definition lseg_contains s (l : Location) : bool :=
  (loc_segment l =? sr_offset (lseg_repr s)) && (loc_command l <? v1_len (sr_commands (lseg_repr s))).

Definition lseg_get_command s (l : Location) : option Command :=
  let r := lseg_repr s in
  if negb (sr_offset r =? loc_segment l) then None
  else
    data ← v1_list (sr_commands r) !! loc_command l;
    parent ← match checked_sub (loc_command l) 1 with
             | Some prev =>
                 max_cut ← checked_add (sr_max_cut r) prev;
                 d ← v1_list (sr_commands r) !! prev;
                 Some (PSingle (mkAddress (lcd_id d) max_cut))
             | None => Some (sr_parents r)
             end;
    max_cut ← checked_add (sr_max_cut r) (loc_command l);
    Some (lin_command data parent max_cut).

Fixpoint collect_commands (cmds : list (option Command)) : outcome StorageError (list Command) :=
  match cmds with
  | [] => Ok []
  | None :: _ => Panic "constructed location is valid"
  | Some c :: cmds' => cs ← collect_commands cmds'; Ok (c :: cs)
  end.
Definition lseg_get_from s (l : Location) : outcome StorageError (list Command) :=
  if negb (sr_offset (lseg_repr s) =? loc_segment l) then Ok []
  else collect_commands (map (λ c, lseg_get_command s (mkLocation (loc_segment l) c))
         (seq (loc_command l) (v1_len (sr_commands (lseg_repr s)) - loc_command l))).
Definition lseg_get_from_max_cut s (max_cut : nat) : outcome StorageError (option Location) :=
  let r := lseg_repr s in
  if sr_max_cut r <=? max_cut then
    end_ ← sbug (assume (checked_add (sr_max_cut r) (v1_len (sr_commands r))) "must not overflow");
    if max_cut <=? end_ then
      c ← sbug (assume (checked_sub max_cut (sr_max_cut r)) "must not overflow");
      Ok (Some (mkLocation (sr_offset r) c))
    else Ok None
  else Ok None.
Definition lseg_facts s : outcome StorageError LinearFactIndex :=
  repr ← fetch_facts (lseg_reader s) (sr_facts (lseg_repr s));
  Ok (mkLinearFactIndex repr (lseg_reader s)).
Definition lseg_longest_max_cut s : outcome StorageError nat :=
  end_ ← sbug (assume (checked_add (sr_max_cut (lseg_repr s)) (v1_len (sr_commands (lseg_repr s)))) "must not overflow");
  sbug (assume (checked_sub end_ 1) "must not overflow").

Definition lin_get_segment w (l : Location) : outcome StorageError LinearSegment :=
  repr ← fetch_segment w (loc_segment l);
  Ok (mkLinearSegment repr w).

#[export] Instance lin_storage : Storage W LinearSegment := {|
  get_segment := lin_get_segment;
  get_head := io_head;
  seg_prior s := sr_prior (lseg_repr s);
  seg_get_command := lseg_get_command;
  seg_get_from_max_cut := lseg_get_from_max_cut;
  seg_get_from := lseg_get_from;
  seg_longest_max_cut := lseg_longest_max_cut;
  seg_shortest_max_cut s := sr_max_cut (lseg_repr s);
  seg_skip_list s := sr_skip_list (lseg_repr s);
  seg_head_location := lseg_head_location;
  seg_first_location := lseg_first_location;
  seg_contains := lseg_contains;
  seg_policy s := sr_policy (lseg_repr s)
|}.

(** * Perspectives *)
Record LinearPerspective := mkLinearPerspective {
  lp_prior : Prior Location;
  lp_parents : Prior Address;
  lp_policy : PolicyId;
  lp_facts : LinearFactPerspective (W := W);
  lp_commands : list LinCommandData;
  lp_current_updates : list Update;
  lp_max_cut : nat;
  lp_last_common_ancestor : option (Location * nat)
}.
Implicit Types (p : LinearPerspective).

Definition lp_new (prior : Prior Location) (parents : Prior Address) (policy : PolicyId)
    (prior_facts : LinFactPrior (W := W)) (max_cut : nat) (lca : option (Location * nat)) : LinearPerspective :=
  mkLinearPerspective prior parents policy (lfp_new prior_facts) [] [] max_cut lca.
(** [LinearStorageProvider::new_perspective]. *)
Definition lin_new_perspective (policy : PolicyId) : LinearPerspective := lp_new PNone PNone policy LPNone 0 None.

Definition lp_checkpoint p : nat := length (lp_commands p).
Definition lp_revert (index : nat) p : outcome Bug_ LinearPerspective :=
  if index =? length (lp_commands p) then Ok p
  else if length (lp_commands p) <? index
  then Err (BugMsg "A checkpoint's index should always be less than or equal to the length of a perspective's command history!")
  else
    let commands := take index (lp_commands p) in
    let facts := fold_left (λ f d, lfp_apply_updates (lcd_updates d) f) commands (lfp_clear (lp_facts p)) in
    Ok (mkLinearPerspective (lp_prior p) (lp_parents p) (lp_policy p) facts commands [] (lp_max_cut p)
          (lp_last_common_ancestor p)).

Definition lp_head_address p : outcome Bug_ (Prior Address) :=
  match last (lp_commands p) with
  | Some d =>
      end_ ← assume (checked_add (lp_max_cut p) (length (lp_commands p))) "must not overflow";
      max_cut ← assume (checked_sub end_ 1) "must not overflow";
      Ok (PSingle (mkAddress (lcd_id d) max_cut))
  | None => Ok (lp_parents p)
  end.
Definition lp_add_command (c : Command) : M LinearPerspective StorageError nat := λ p,
  match sbug (lp_head_address p) with
  | Err e => (Err e, p)
  | Panic x => (Panic x, p)
  | Ok head =>
      if negb (bool_decide (cmd_parent c = head)) then (Err PerspectiveHeadMismatch, p)
      else
        let commands := vec_push (mkLinCommandData (cmd_id c) (cmd_priority c) (cmd_policy c) (cmd_bytes c)
                                    (lp_current_updates p)) (lp_commands p) in
        (Ok (length commands),
         mkLinearPerspective (lp_prior p) (lp_parents p) (lp_policy p) (lp_facts p) commands [] (lp_max_cut p)
           (lp_last_common_ancestor p))
  end.
Definition lp_includes (id : CommandId) p : bool := existsb (λ d, bool_decide (lcd_id d = id)) (lp_commands p).

Definition lp_set_facts (f : LinearFactPerspective (W := W)) (u : Update) p : LinearPerspective :=
  mkLinearPerspective (lp_prior p) (lp_parents p) (lp_policy p) f (lp_commands p)
    (vec_push u (lp_current_updates p)) (lp_max_cut p) (lp_last_common_ancestor p).
Definition lp_insert (name : string) (keys : Keys) (value : Bytes) p : LinearPerspective :=
  lp_set_facts (lfp_insert name keys value (lp_facts p)) (name, keys, Some value) p.
Definition lp_delete (name : string) (keys : Keys) p : LinearPerspective :=
  lp_set_facts (lfp_delete name keys (lp_facts p)) (name, keys, None) p.

(** * Storage operations *)
Definition lin_get_command_id w (l : Location) : outcome StorageError CommandId :=
  seg ← lin_get_segment w l;
  cmd ← ok_or (lseg_get_command seg l) (CommandOutOfBounds l);
  Ok (cmd_id cmd).

(** [map.retain(|_, kv| !kv.is_empty())]. *)
Definition retain_nonempty (nm : NamedFactMap) : NamedFactMap :=
  List.filter (λ nkv, match nkv.2 with [] => false | _ => true end) nm.
Definition index_prior w (prior : option nat) : LinFactPrior (W := W) :=
  match prior with Some offset => LPIndex offset w | None => LPNone end.
(** The updates of [commands[..=command]]. *)
Definition replay_commands (commands : list LinCommandData) (command : nat) (f : LinearFactPerspective (W := W)) :=
  if command <? length commands
  then Ok (E := StorageError) (fold_left (λ f d, lfp_apply_updates (lcd_updates d) f) (take (S command) commands) f)
  else Panic "range end index out of range for slice".

Definition lin_get_linear_perspective w (parent : Location) : outcome StorageError (option LinearPerspective) :=
  segment ← lin_get_segment w parent;
  command ← ok_or (lseg_get_command segment parent) (CommandOutOfBounds parent);
  let r := lseg_repr segment in
  head ← lseg_head_location segment;
  prior_facts ← (if bool_decide (parent = head) then Ok (LPIndex (sr_facts r) w)
                 else
                   index ← lseg_facts segment;
                   facts ← replay_commands (v1_list (sr_commands r)) (loc_command parent)
                             (lfp_new (index_prior w (fr_prior (li_repr index))));
                   let m := if prior_is_none (lfp_prior facts) then retain_nonempty (lfp_map facts) else lfp_map facts in
                   Ok (match m with [] => lfp_prior facts | _ => LPPerspective (LinFP m (lfp_prior facts)) end));
  address ← sbug (cmd_address command);
  command_max_cut ← sbug (cmd_max_cut command);
  max_cut ← sbug (assume (checked_add command_max_cut 1) "must not overflow");
  Ok (Some (lp_new (PSingle parent) (PSingle address) (sr_policy r) prior_facts max_cut None)).

Definition lin_get_fact_perspective w (location : Location) : outcome StorageError (LinearFactPerspective (W := W)) :=
  segment ← lin_get_segment w location;
  let r := lseg_repr segment in
  head ← lseg_head_location segment;
  if bool_decide (location = head)
     || forallb (λ d, match lcd_updates d with [] => true | _ => false end) (v1_list (sr_commands r))
  then Ok (lfp_new (LPIndex (sr_facts r) w))
  else
    index ← lseg_facts segment;
    replay_commands (v1_list (sr_commands r)) (loc_command location) (lfp_new (index_prior w (fr_prior (li_repr index)))).

Definition lin_new_merge_perspective w (left right : Location) (lca : Location * nat) (policy_id : PolicyId)
    (braid : LinearFactIndex (W := W)) : outcome StorageError (option LinearPerspective) :=
  left_segment ← lin_get_segment w left;
  left_command ← ok_or (lseg_get_command left_segment left) (CommandOutOfBounds left);
  right_segment ← lin_get_segment w right;
  right_command ← ok_or (lseg_get_command right_segment right) (CommandOutOfBounds right);
  left_address ← sbug (cmd_address left_command);
  right_address ← sbug (cmd_address right_command);
  if negb (bool_decide (policy_id = sr_policy (lseg_repr left_segment)))
     && negb (bool_decide (policy_id = sr_policy (lseg_repr right_segment)))
  then Err PolicyMismatch
  else
    left_max_cut ← sbug (cmd_max_cut left_command);
    right_max_cut ← sbug (cmd_max_cut right_command);
    max_cut ← sbug (assume (checked_add (Nat.max left_max_cut right_max_cut) 1) "must not overflow");
    Ok (Some (lp_new (PMerge left right) (PMerge left_address right_address) policy_id
                (LPIndex (fr_offset (li_repr braid)) (li_reader braid)) max_cut (Some lca))).

(** ** Skip lists *)

(** The loop of [get_skip]; [Panic] stands for fuel that ran out. *)
Fixpoint get_skip_loop (fuel : nat) w (head : LinearSegment) (max_cut : nat) (current : option (Location * nat))
  : outcome StorageError (option (Location * nat)) :=
  longest ← lseg_longest_max_cut head;
  if longest <? max_cut then Ok current
  else
    let current := Some (lseg_first_location head, sr_max_cut (lseg_repr head)) in
    if sr_max_cut (lseg_repr head) <=? max_cut then Ok current
    else
      match List.find (λ skip, skip.2 <=? max_cut) (sr_skip_list (lseg_repr head)), sr_prior (lseg_repr head), fuel with
      | Some (skip, _), _, S fuel' =>
          head ← lin_get_segment w skip; get_skip_loop fuel' w head max_cut current
      | None, PSingle l, S fuel' =>
          head ← lin_get_segment w l; get_skip_loop fuel' w head max_cut current
      | None, (PNone | PMerge _ _), _ => Ok current
      | _, _, 0 => Panic "segments do not end"
      end.
(** Offsets decrease from a segment to the next. *)
Definition get_skip w (segment : LinearSegment) (max_cut : nat) : outcome StorageError (option (Location * nat)) :=
  get_skip_loop (S (sr_offset (lseg_repr segment))) w segment max_cut None.

(** The loop of the closure [get_skips] in [write]; [rand i n] is the
    number drawn below [n] when [i] draws are left. *)
Fixpoint get_skips (rand : nat → nat → nat) w (l : Location) (count : nat) (skips : list (Location * nat))
  : outcome StorageError (list (Location * nat)) :=
  match count with
  | 0 => Ok skips
  | S count' =>
      segment ← lin_get_segment w l;
      cmd ← sbug (assume (lseg_get_command segment l) "location must exist");
      l_max_cut ← sbug (cmd_max_cut cmd);
      if 0 <? l_max_cut then
        skip ← get_skip w segment (rand count' l_max_cut);
        match skip with
        | Some skip => get_skips rand w l count' (if bool_decide (skip ∈ skips) then skips else vec_push skip skips)
        | None => Ok skips
        end
      else get_skips rand w l count' skips
  end.

Definition lin_skip_list (rand : nat → nat → nat) w p : outcome StorageError (list (Location * nat)) :=
  match lp_prior p with
  | PNone => Ok []
  | PMerge _ _ =>
      lca ← sbug (assume (lp_last_common_ancestor p) "lca must exist");
      skips ← get_skips rand w lca.1 2 [];
      Ok (vec_sort (if bool_decide (lca ∈ skips) then skips else vec_push lca skips))
  | PSingle l =>
      skips ← get_skips rand w l 3 [];
      Ok (vec_sort skips)
  end.

(** ** [write], [commit] and [create] *)
Definition append_segment_item (f : nat → SegmentRepr) : M W StorageError SegmentRepr := append_segment f.
Definition lin_write (rand : nat → nat → nat) p : M W StorageError LinearSegment :=
  index ← lin_write_facts (lp_facts p);
  commands ← lift (ok_or (v1_try_from (lp_commands p)) EmptyPerspective);
  w ← get_state;
  skip_list ← lift (lin_skip_list rand w p);
  repr ← append_segment_item (λ offset, mkSegmentRepr offset (lp_prior p) (lp_parents p) (lp_policy p)
           (fr_offset (li_repr index)) commands (lp_max_cut p) skip_list);
  w ← get_state;
  mret (mkLinearSegment repr w).

(** [search_fuel] bounds the search of [is_ancestor]. *)
Definition lin_commit (search_fuel : nat) (segment : LinearSegment) : M W StorageError unit := λ w,
  match io_head w with
  | Err e => (Err e, w)
  | Panic x => (Panic x, w)
  | Ok head =>
      match is_ancestor search_fuel w head segment with
      | None => (Panic "is_ancestor does not end", w)
      | Some (Err e) => (Err e, w)
      | Some (Panic x) => (Panic x, w)
      | Some (Ok false) => (Err HeadNotAncestor, w)
      | Some (Ok true) =>
          io_commit (mkLocation (sr_offset (lseg_repr segment)) (v1_len (sr_commands (lseg_repr segment)) - 1)) w
      end
  end.

(** [LinearStorage::create]: the first segment of a graph. *)
Definition append_facts_item (f : nat → FactIndexRepr) : M W StorageError FactIndexRepr := append_facts f.
Definition io_commit_head (l : Location) : M W StorageError unit := io_commit l.
Definition lin_create (init : LinearPerspective) : M W StorageError unit :=
  match lp_prior init, lp_parents init, lfp_prior (lp_facts init) with
  | PNone, PNone, LPNone =>
      facts ← append_facts_item (λ offset, mkFactIndexRepr offset None 1 (retain_nonempty (lfp_map (lp_facts init))));
      commands ← lift (ok_or (v1_try_from (lp_commands init)) EmptyPerspective);
      segment ← append_segment_item (λ offset, mkSegmentRepr offset PNone PNone (lp_policy init) (fr_offset facts)
                  commands 0 []);
      command ← lift (sbug (assume (checked_sub (v1_len (sr_commands segment)) 1) "vec1 length >= 1"));
      io_commit_head (mkLocation (sr_offset segment) command)
  | _, _, _ => crash "assertion failed"
  end.

(** ** The provider

    [io_create] and [io_open] are the calls of [IoManager]; opening a file
    that does not exist gives [None]. *)
Section Provider.
Context {Mgr : Type} (io_create : GraphId → M Mgr StorageError W) (io_open : GraphId → M Mgr StorageError (option W)).
Record LinearStorageProvider := mkLinearStorageProvider { lsp_manager : Mgr; lsp_storage : BTreeMap GraphId W }.

Definition lsp_new (manager : Mgr) : LinearStorageProvider := mkLinearStorageProvider manager [].
Definition lin_new_storage (init : LinearPerspective) : M LinearStorageProvider StorageError GraphId := λ pr,
  match lp_commands init with
  | [] => (Err EmptyPerspective, pr)
  | d :: _ =>
      let graph_id := lcd_id d in
      match bt_get graph_id (lsp_storage pr) with
      | Some _ => (Err StorageExists, pr)
      | None =>
          match io_create graph_id (lsp_manager pr) with
          | (Err e, mgr) => (Err e, mkLinearStorageProvider mgr (lsp_storage pr))
          | (Panic x, mgr) => (Panic x, mkLinearStorageProvider mgr (lsp_storage pr))
          | (Ok file, mgr) =>
              match lin_create init file with
              | (Ok _, w) => (Ok graph_id, mkLinearStorageProvider mgr (bt_insert graph_id w (lsp_storage pr)))
              | (Err e, _) => (Err e, mkLinearStorageProvider mgr (lsp_storage pr))
              | (Panic x, _) => (Panic x, mkLinearStorageProvider mgr (lsp_storage pr))
              end
          end
      end
  end.
Definition lin_get_storage (graph : GraphId) : M LinearStorageProvider StorageError W := λ pr,
  match bt_get graph (lsp_storage pr) with
  | Some w => (Ok w, pr)
  | None =>
      match io_open graph (lsp_manager pr) with
      | (Ok (Some w), mgr) => (Ok w, mkLinearStorageProvider mgr (bt_insert graph w (lsp_storage pr)))
      | (Ok None, mgr) => (Err NoSuchStorage, mkLinearStorageProvider mgr (lsp_storage pr))
      | (Err e, mgr) => (Err e, mkLinearStorageProvider mgr (lsp_storage pr))
      | (Panic x, mgr) => (Panic x, mkLinearStorageProvider mgr (lsp_storage pr))
      end
  end.
End Provider.
End LinearStorage.
