(* ===== verification/LinearStorageProofs.v ===== *)
(** The persistent storage keeps a well-formed graph: segments, skip lists,
    facts and head, for every sequence of writes and commits. *)
From S2P Require Import Prelude Collections RuntimeTypes FactStore MemFacts Graph MemStorage MemStorageFacts.
From S2P Require Import LinearFacts LinearFactsProofs Client BraidProofs LinearStorage.
Local Open Scope string_scope.
Local Open Scope list_scope.
Local Open Scope nat_scope.

Section LinearGraph.
Context {W : Type} `{FactIoLaws W} `{!SegIo W} `{!SegIoLaws W}.
(** Whether merges are known to join incomparable commands. *)
Context {strict : Prop}.
Implicit Types (w : W) (D : nat → Prop) (r : SegmentRepr) (p : LinearPerspective (W := W)).

(** * Segments of a graph *)
Lemma seg_at_lin w n :
  seg_at w n = match fetch_segment w n with Ok r => Some (mkLinearSegment r w) | _ => None end.
Proof. unfold seg_at. simpl. unfold lin_get_segment, mbind, outcome_bind. simpl. by destruct (fetch_segment w n). Qed.

Definition seg_bound r : Prop := (Z.of_nat (sr_max_cut r) + Z.of_nat (v1_len (sr_commands r)) < pow64)%Z.

Lemma checked_add_lt a b c : (Z.of_nat a + Z.of_nat b < pow64)%Z → c ≤ b → checked_add a c = Some (a + c).
Proof. intros Hlt Hle. apply checked_add_Some. split; [done|]. lia. Qed.

Lemma lseg_get_command_eq r w c :
  seg_bound r →
  match lseg_get_command (mkLinearSegment r w) (mkLocation (sr_offset r) c) with
  | Some cmd => c < v1_len (sr_commands r) ∧ cmd_max_cut cmd = Ok (sr_max_cut r + c)
  | None => v1_len (sr_commands r) ≤ c
  end.
Proof.
  intros Hb. unfold lseg_get_command. cbn [lseg_repr loc_segment loc_command]. rewrite Nat.eqb_refl. cbn [negb].
  destruct (v1_list (sr_commands r) !! c) as [d|] eqn:Ed; cbn [mbind option_bind].
  - apply lookup_lt_Some in Ed as Hlt. rewrite v1_len_list in Hlt.
    assert (∃ a, match checked_sub c 1 with
      | Some prev => max_cut ← checked_add (sr_max_cut r) prev; d0 ← v1_list (sr_commands r) !! prev;
                     Some (PSingle (mkAddress (lcd_id d0) max_cut))
      | None => Some (sr_parents r) end = Some a) as [a ->].
    { destruct (checked_sub c 1) as [k|] eqn:Ek; [|by eexists]. apply checked_sub_Some in Ek as [? ->].
      rewrite (checked_add_lt _ _ (c - 1) Hb) by lia. simpl.
      destruct (lookup_lt_is_Some_2 (v1_list (sr_commands r)) (c - 1)) as [d' ->]; [rewrite v1_len_list; lia|]. by eexists. }
    cbn [mbind option_bind]. rewrite (checked_add_lt _ _ c Hb) by lia. done.
  - apply lookup_ge_None in Ed. by rewrite v1_len_list in Ed.
Qed.

Lemma lin_longest r w :
  seg_bound r → lseg_longest_max_cut (mkLinearSegment r w) = Ok (sr_max_cut r + v1_len (sr_commands r) - 1).
Proof.
  intros Hb. unfold lseg_longest_max_cut. cbn [lseg_repr]. rewrite (checked_add_lt _ _ (v1_len (sr_commands r)) Hb) by lia.
  simpl. destruct (checked_sub (sr_max_cut r + v1_len (sr_commands r)) 1) as [m|] eqn:E.
  - apply checked_sub_Some in E as [_ ->]. done.
  - apply checked_sub_None in E. unfold v1_len in E. lia.
Qed.

(** The shape of a segment that was written with these parents and skips. *)
Lemma lin_shape D w r :
  seg_bound r →
  (∀ q, q ∈ prior_list (sr_prior r) → loc_segment q < sr_offset r ∧ ∃ c, max_cut_at D w q c ∧ c < sr_max_cut r) →
  (∀ l mc, (l, mc) ∈ sr_skip_list r → loc_segment l < sr_offset r
     ∧ ∀ q, q ∈ prior_list (sr_prior r) → choke D w q l mc) →
  (∀ l mc, (l, mc) ∈ sr_skip_list r → ∃ q, q ∈ prior_list (sr_prior r)) →
  seg_shape D w (sr_offset r) (mkLinearSegment r w) (sr_max_cut r) (v1_len (sr_commands r)).
Proof.
  intros Hb Hprior Hskip Hne. split.
  - intros c. pose proof (lseg_get_command_eq r w c Hb) as Hc. simpl.
    destruct (lseg_get_command _ _); [naive_solver|]. split; [by intros []|lia].
  - intros c cmd Hcmd. pose proof (lseg_get_command_eq r w c Hb) as Hc. simpl in Hcmd. rewrite Hcmd in Hc. apply Hc.
  - split; [unfold v1_len; lia|]. by apply lin_longest.
  - intros mc Hmc. simpl. unfold lseg_get_from_max_cut. cbn [lseg_repr].
    destruct (Nat.leb_spec (sr_max_cut r) mc); [|done].
    rewrite (checked_add_lt _ _ (v1_len (sr_commands r)) Hb) by lia. simpl.
    destruct (Nat.leb_spec mc (sr_max_cut r + v1_len (sr_commands r))); [|lia].
    assert (checked_sub mc (sr_max_cut r) = Some (mc - sr_max_cut r)) as -> by by apply checked_sub_Some. done.
  - intros q Hq. by apply Hprior.
  - intros l mc Hin. simpl in *. destruct (Hskip l mc Hin) as [Hlt Hch]. destruct (Hne l mc Hin) as [q0 Hq0].
    destruct (Hch q0 Hq0) as (Ha & Hmc & _). split_and!; [done|done|by exists q0|].
    intros q x c Hq Hax Hx Hle. destruct (Hch q Hq) as (_ & _ & Hall). by eapply Hall.
Qed.

(** * The invariant *)

(** A fact index of the file. *)
Definition facts_at w (off : nat) : Prop :=
  ∃ fr i, fetch_facts w off = Ok fr ∧ fr_offset fr = off ∧ chain w fr i.

Record lin_seg_ok D w (n : nat) r : Prop := mk_lin_seg_ok {
  lso_fetch : fetch_segment w n = Ok r;
  lso_offset : sr_offset r = n;
  lso_bound : seg_bound r;
  lso_shape : seg_shape D w n (mkLinearSegment r w) (sr_max_cut r) (v1_len (sr_commands r));
  lso_facts : facts_at w (sr_facts r)
}.

Record lin_inv D w : Prop := mk_lin_inv {
  inv_seg n : D n → ∃ r, lin_seg_ok D w n r;
  inv_skips : skips_ok D w;
  inv_merge n seg a b : D n → seg_at w n = Some seg → seg_prior seg = PMerge a b → strict → incomp w a b;
  inv_head h : io_head w = Ok h → valid D w h
}.

Lemma lin_graph_ok D w : lin_inv D w → graph_ok D w.
Proof.
  intros Hinv. split.
  - intros l seg _. rewrite seg_at_lin. simpl. unfold lin_get_segment, mbind, outcome_bind.
    destruct (fetch_segment w (loc_segment l)); [|done..]. by intros [= <-].
  - intros n HD. destruct (inv_seg _ _ Hinv n HD) as [r Hr]. exists (mkLinearSegment r w). do 2 eexists.
    rewrite seg_at_lin, (lso_fetch _ _ _ _ Hr). split; [done|apply Hr].
Qed.

(** A file that grew. *)
Definition same_file w w' : Prop :=
  (∀ o x, fetch_segment w o = Ok x → fetch_segment w' o = Ok x) ∧ grows w w'.
#[export] Instance same_file_preorder : PreOrder same_file.
Proof.
  split; [intros w; split; by intros o x|]. intros w1 w2 w3 (Hs & Hf) (Hs' & Hf').
  split_and!; [eauto|by etrans].
Qed.
(** The head included. *)
Definition same_state w w' : Prop := same_file w w' ∧ io_head w' = io_head w.
#[export] Instance same_state_preorder : PreOrder same_state.
Proof.
  split; [by split|]. intros w1 w2 w3 [Hf Hh] [Hf' Hh']. split; [by etrans|congruence].
Qed.

Lemma same_file_ext D w w' n seg :
  same_file w w' → seg_at w n = Some seg → ∃ seg', seg_at w' n = Some seg' ∧ seg_eqv seg seg'.
Proof.
  intros (Hs & _) Hseg. rewrite seg_at_lin in Hseg. destruct (fetch_segment w n) as [r|?|?] eqn:E; simplify_eq.
  exists (mkLinearSegment r w'). by rewrite seg_at_lin, (Hs _ _ E).
Qed.

Lemma facts_at_grows w w' off : grows w w' → facts_at w off → facts_at w' off.
Proof.
  intros Hg (fr & i & Hf & Ho & Hc). exists fr, i. split_and!; [by apply Hg|done|by eapply chain_grows].
Qed.

Lemma lin_seg_ok_grow D D' w w' n r :
  lin_inv D w → (∀ k, D k → D' k) → same_file w w' → D n → lin_seg_ok D w n r → lin_seg_ok D' w' n r.
Proof.
  intros Hinv HDD Hsame HDn [Hf Ho Hb Hsh Hfa]. pose proof Hsame as (Hs & Hgr). split; try done; [by apply Hs| |].
  - eapply (ext_shape D D' w w' (lin_graph_ok D w Hinv) HDD); [|exact HDn|..|exact Hsh].
    + intros k seg _. by apply same_file_ext.
    + by rewrite seg_at_lin, Hf.
    + by rewrite seg_at_lin, (Hs _ _ Hf).
  - by eapply facts_at_grows.
Qed.

Lemma lin_valid_grow D D' w w' l c :
  lin_inv D w → (∀ k, D k → D' k) → same_file w w' → max_cut_at D w l c → max_cut_at D' w' l c.
Proof.
  intros Hinv HDD Hsame Hl. eapply (ext_max_cut D D' w w' (lin_graph_ok D w Hinv) HDD); [|exact Hl].
  intros k seg _. by apply same_file_ext.
Qed.

Lemma lin_anc_grow D w w' l x :
  lin_inv D w → same_file w w' → D (loc_segment l) → anc w l x ↔ anc w' l x.
Proof.
  intros Hinv Hsame HDl. eapply (ext_anc D w w' (lin_graph_ok D w Hinv)); [|exact HDl].
  intros k seg _. by apply same_file_ext.
Qed.

(** A location that stops nothing before it keeps doing so. *)
Lemma lin_choke_grow D D' w w' l d c :
  lin_inv D w → (∀ k, D k → D' k) → same_file w w' → valid D w l → choke D w l d c → choke D' w' l d c.
Proof.
  intros Hinv HDD Hsame [cl Hl] (Ha & Hd & Hall). pose proof (proj1 Hl) as HDl.
  split_and!; [by apply (lin_anc_grow D w w' l d)|by eapply lin_valid_grow|].
  intros x cx Hx Hcx Hle. apply (lin_anc_grow D w w' l x) in Hx; [|done..].
  apply (lin_anc_grow D w w' d x); [done|done|apply Hd|]. apply (Hall x cx); [done| |done].
  eapply (ext_max_cut D D' w w' (lin_graph_ok D w Hinv) HDD); [intros k seg _; by apply same_file_ext|].
  split; [|done]. by eapply (anc_dom D w (lin_graph_ok D w Hinv)).
Qed.

Lemma lin_inv_grow D w w' :
  lin_inv D w → same_file w w' → (∀ h, io_head w' = Ok h → valid D w h) → lin_inv D w'.
Proof.
  intros Hinv Hsame Hh. pose proof Hsame as (Hs & Hgr). assert (∀ n seg, D n → seg_at w' n = Some seg →
    ∃ seg0, seg_at w n = Some seg0 ∧ seg_prior seg0 = seg_prior seg ∧ seg_skip_list seg0 = seg_skip_list seg) as Hback.
  { intros n seg HD Hseg. destruct (inv_seg _ _ Hinv n HD) as [r Hr]. exists (mkLinearSegment r w).
    rewrite !seg_at_lin in *. rewrite (Hs _ _ (lso_fetch _ _ _ _ Hr)) in Hseg. injection Hseg as <-.
    by rewrite (lso_fetch _ _ _ _ Hr). }
  split.
  - intros n HD. destruct (inv_seg _ _ Hinv n HD) as [r Hr]. exists r. by eapply lin_seg_ok_grow.
  - split.
    + intros n m seg seg' HDn HDm Hn Hm Hp Hp'. destruct (Hback _ _ HDn Hn) as (s1 & Hs1 & Hp1 & _).
      destruct (Hback _ _ HDm Hm) as (s2 & Hs2 & Hp2 & _). eapply (so_root _ _ (inv_skips _ _ Hinv)); try done; congruence.
    + intros n seg l r HD Hn Hp. destruct (Hback _ _ HD Hn) as (s1 & Hs1 & Hp1 & <-).
      eapply (so_merge _ _ (inv_skips _ _ Hinv)); [done..|]. by rewrite Hp1.
  - intros n seg l r HD Hn Hp Hstrict. destruct (Hback _ _ HD Hn) as (s1 & Hs1 & Hp1 & _). rewrite <- Hp1 in Hp.
    destruct (inv_merge _ _ Hinv _ _ _ _ HD Hs1 Hp Hstrict) as [H1 H2].
    destruct (go_shape _ _ (lin_graph_ok D w Hinv) n HD) as (s2 & base & len & Hs2 & Hsh). simplify_eq.
    pose proof (sh_prior _ _ _ _ _ _ Hsh) as Hpr. rewrite Hp in Hpr.
    destruct (Hpr l) as (_ & cl & [HDl _] & _); [by left|]. destruct (Hpr r) as (_ & cr & [HDr _] & _); [by right; left|].
    split; [by rewrite <- (lin_anc_grow D w w' l r)|by rewrite <- (lin_anc_grow D w w' r l)].
  - intros h Hhead. destruct (Hh h Hhead) as [c Hc]. exists c. by eapply lin_valid_grow.
Qed.

Lemma lin_inv_same D w w' : lin_inv D w → same_state w w' → lin_inv D w'.
Proof.
  intros Hinv [Hsame Hh]. eapply lin_inv_grow; [done..|]. rewrite Hh. apply Hinv.
Qed.

(** * Skip lists *)
Definition good_skip D w (l : Location) (skip : Location * nat) : Prop := choke D w l skip.1 skip.2.

Lemma lin_segment_of D w l c :
  lin_inv D w → max_cut_at D w l c →
  ∃ r, lin_get_segment w l = Ok (mkLinearSegment r w) ∧ lin_seg_ok D w (loc_segment l) r
    ∧ ∃ cmd, lseg_get_command (mkLinearSegment r w) l = Some cmd ∧ cmd_max_cut cmd = Ok c.
Proof.
  intros Hinv (HD & seg & cmd & Hs & Hc & Hm). destruct (inv_seg _ _ Hinv _ HD) as [r Hr]. exists r.
  unfold lin_get_segment, mbind, outcome_bind. rewrite seg_at_lin, (lso_fetch _ _ _ _ Hr) in Hs. injection Hs as <-.
  rewrite (lso_fetch _ _ _ _ Hr). split_and!; [done..|]. by exists cmd.
Qed.

Lemma get_skip_loop_spec D w fuel n r l max_cut current :
  lin_inv D w → lin_seg_ok D w n r → choke D w l (mkLocation n 0) (sr_max_cut r) →
  (∀ skip, current = Some skip → good_skip D w l skip) → n < fuel →
  ∃ res, get_skip_loop fuel w (mkLinearSegment r w) max_cut current = Ok res
    ∧ ∀ skip, res = Some skip → good_skip D w l skip.
Proof.
  intros Hinv. pose proof (lin_graph_ok D w Hinv) as Hg.
  revert n r current. induction fuel as [|fuel IH]; intros n r current Hr Hch Hcur Hf; [lia|].
  cbn [get_skip_loop]. rewrite lin_longest by apply Hr. cbn [mbind outcome_bind lseg_repr].
  destruct (_ <? max_cut); [by exists current|].
  assert (lseg_first_location (mkLinearSegment r w) = mkLocation n 0) as ->.
  { unfold lseg_first_location. cbn [lseg_repr]. by rewrite (lso_offset _ _ _ _ Hr). }
  assert (∀ skip, Some (mkLocation n 0, sr_max_cut r) = Some skip → good_skip D w l skip) as Hcur' by by intros ? [= <-].
  destruct (sr_max_cut r <=? max_cut); [by eexists|].
  assert (∀ d cd, choke D w (mkLocation n 0) d cd → loc_segment d < n →
    ∃ res, (head ← lin_get_segment w d; get_skip_loop fuel w head max_cut (Some (mkLocation n 0, sr_max_cut r))) = Ok res
      ∧ ∀ skip, res = Some skip → good_skip D w l skip) as Hstep.
  { intros d cd Hd Hlt. pose proof (choke_max_cut D w _ _ _ Hd) as Hcd.
    destruct (lin_segment_of D w d cd Hinv Hcd) as (rd & -> & Hrd & _). cbn [mbind outcome_bind].
    apply (IH (loc_segment d)); [done| |done|lia].
    eapply choke_trans; [done|eapply choke_trans; [done|exact Hch|exact Hd]|].
    eapply choke_first; [done|by rewrite seg_at_lin, (lso_fetch _ _ _ _ Hrd)|apply Hrd]. }
  pose proof (choke_max_cut D w _ _ _ Hch) as Hn.
  assert (seg_at w n = Some (mkLinearSegment r w)) as Hseg by by rewrite seg_at_lin, (lso_fetch _ _ _ _ Hr).
  destruct (List.find _ (sr_skip_list r)) as [[skip smc]|] eqn:Efind.
  - apply find_some in Efind as [Hin%list_elem_of_In _].
    destruct (choke_skip D w Hg (mkLocation n 0) _ _ skip smc Hn eq_refl Hseg Hin) as [_ Hsk].
    apply (Hstep skip smc Hsk). by apply (sh_skip _ _ _ _ _ _ (lso_shape _ _ _ _ Hr) skip smc).
  - destruct (sr_prior r) as [|q|q1 q2] eqn:Ep; [by eexists| |by eexists].
    destruct (choke_single D w Hg (mkLocation n 0) _ _ q Hn eq_refl Hseg Ep) as (cq & _ & Hq).
    apply (Hstep q cq Hq). apply (sh_prior _ _ _ _ _ _ (lso_shape _ _ _ _ Hr) q). simpl. rewrite Ep. by left.
Qed.

Lemma get_skips_spec D w rand l c count skips :
  lin_inv D w → max_cut_at D w l c → Forall (good_skip D w l) skips →
  ∃ res, get_skips rand w l count skips = Ok res ∧ Forall (good_skip D w l) res.
Proof.
  intros Hinv Hl. revert skips. induction count as [|count IH]; intros skips Hskips; simpl; [by exists skips|].
  destruct (lin_segment_of D w l c Hinv Hl) as (r & -> & Hr & cmd & Hcmd & Hm). simpl. rewrite Hcmd. simpl. rewrite Hm.
  cbn [sbug map_err mbind outcome_bind]. destruct (0 <? c); [|by apply IH].
  destruct (get_skip_loop_spec D w (S (loc_segment l)) (loc_segment l) r l (rand count c) None) as (res & Hres & Hgood); try done.
  { eapply choke_first; [done|by rewrite seg_at_lin, (lso_fetch _ _ _ _ Hr)|apply Hr]. }
  { lia. }
  unfold get_skip. cbn [lseg_repr]. rewrite (lso_offset _ _ _ _ Hr), Hres. cbn [mbind outcome_bind].
  destruct res as [skip|]; [|by exists skips]. apply IH. case_bool_decide; [done|].
  apply Forall_app. split; [done|]. apply Forall_singleton. by apply Hgood.
Qed.

(** * Perspectives *)

(** A perspective that can be written: its parents are in the graph, a strict merge
    has incomparable parents, a merge has a last common ancestor, its facts read the
    file, and the max cuts of its commands fit in a [usize]. *)
Record lpersp_ok D w p : Prop := mk_lpersp_ok {
  lpo_prior q : q ∈ prior_list (lp_prior p) → ∃ c, max_cut_at D w q c ∧ c < lp_max_cut p;
  lpo_root : lp_prior p ≠ PNone;
  lpo_merge a b : lp_prior p = PMerge a b → (strict → incomp w a b)
    ∧ ∃ lca mc, lp_last_common_ancestor p = Some (lca, mc) ∧ choke D w a lca mc ∧ choke D w b lca mc;
  lpo_facts : ∃ v, lfp_ok (lp_facts p) v;
  lpo_readers : readers_in w (lp_facts p)
}.

Lemma lin_skip_list_spec D w rand p :
  lin_inv D w → lpersp_ok D w p →
  ∃ skips, lin_skip_list rand w p = Ok skips
    ∧ (∀ skip q, skip ∈ skips → q ∈ prior_list (lp_prior p) → good_skip D w q skip)
    ∧ (∀ a b, lp_prior p = PMerge a b → skips ≠ []).
Proof.
  intros Hinv Hp. pose proof (lin_graph_ok D w Hinv) as Hg. unfold lin_skip_list.
  destruct (lp_prior p) as [|l|a b] eqn:Eprior; [by destruct (lpo_root _ _ _ Hp)|..].
  - destruct (lpo_prior _ _ _ Hp l) as (c & Hc & _); [rewrite Eprior; by left|].
    destruct (get_skips_spec D w rand l c 3 [] Hinv Hc) as (res & -> & Hres); [done|]. cbn [mbind outcome_bind].
    exists (vec_sort res). split_and!; [done| |done]. intros skip q Hin ->%list_elem_of_singleton.
    rewrite vec_sort_perm in Hin. by apply (proj1 (Forall_forall _ _) Hres).
  - destruct (lpo_merge _ _ _ Hp a b Eprior) as (_ & lca & mc & -> & Ha & Hb). cbn [assume ok_or sbug map_err mbind outcome_bind fst].
    destruct (get_skips_spec D w rand lca mc 2 [] Hinv (choke_max_cut D w _ _ _ Ha)) as (res & -> & Hres); [done|].
    cbn [mbind outcome_bind]. set (skips := if bool_decide _ then _ else _).
    assert (Forall (good_skip D w lca) skips ∧ skips ≠ []) as [Hskips Hne].
    { unfold skips. case_bool_decide as Hin; [split; [done|by intros ->; apply not_elem_of_nil in Hin]|].
      split; [|by destruct res]. apply Forall_app. split; [done|]. apply Forall_singleton.
      apply choke_refl, (choke_max_cut D w _ _ _ Ha). }
    exists (vec_sort skips). split_and!; [done| |].
    + intros skip q Hin Hq. rewrite vec_sort_perm in Hin. apply (proj1 (Forall_forall _ _) Hskips) in Hin.
      rewrite prior_list_spec in Hq. apply elem_of_cons in Hq as [->| ->%list_elem_of_singleton]; by eapply choke_trans.
    + intros _ _ _ Hnil. pose proof (vec_sort_perm skips) as Hperm. rewrite Hnil in Hperm. by apply Permutation_nil in Hperm.
Qed.

(** * Writing *)
Lemma lin_inv_add D w off r :
  lin_inv D w → lin_seg_ok (with_segment D off) w off r → sr_prior r ≠ PNone →
  (∀ a b, sr_prior r = PMerge a b → sr_skip_list r ≠ [] ∧ (strict → incomp w a b)) →
  lin_inv (with_segment D off) w.
Proof.
  intros Hinv Hr Hroot Hm.
  assert (∀ n seg, with_segment D off n → seg_at w n = Some seg → D n ∨ seg = mkLinearSegment r w) as Hcases.
  { intros n seg [HD| ->] Hs; [by left|right]. rewrite seg_at_lin, (lso_fetch _ _ _ _ Hr) in Hs. by injection Hs. }
  split.
  - intros n [HD| ->]; [|by exists r]. destruct (inv_seg _ _ Hinv n HD) as [r' Hr']. exists r'.
    eapply lin_seg_ok_grow; [done|by left|done..].
  - split.
    + intros n m seg seg' HDn HDm Hn Hm' Hp Hp'.
      destruct (Hcases _ _ HDn Hn) as [HDn'| ->]; [|done]. destruct (Hcases _ _ HDm Hm') as [HDm'| ->]; [|done].
      by eapply (so_root _ _ (inv_skips _ _ Hinv)).
    + intros n seg a b HD Hn Hp. destruct (Hcases _ _ HD Hn) as [HD'| ->]; [|by eapply Hm].
      by eapply (so_merge _ _ (inv_skips _ _ Hinv)).
  - intros n seg a b HD Hn Hp. destruct (Hcases _ _ HD Hn) as [HD'| ->]; [by eapply inv_merge|]. by apply Hm.
  - intros h Hh. destruct (inv_head _ _ Hinv h Hh) as [c Hc]. exists c. eapply lin_valid_grow; [done|by left|done..].
Qed.

Lemma readers_in_grows w w' (f : LinearFactPerspective (W := W)) : grows w w' → readers_in w f → readers_in w' f.
Proof.
  intros Hgr. revert f. fix IH 1. intros [nm [|q|o rd]]; simpl; [done|apply IH|]. intros Hrd. by etrans.
Qed.

Lemma lpersp_ok_same D w w' p : lin_inv D w → same_file w w' → lpersp_ok D w p → lpersp_ok D w' p.
Proof.
  intros Hinv Hsame [Hpr Hroot Hm Hf Hrd]. split; [|done| |done|].
  - intros q Hq. destruct (Hpr q Hq) as (c & Hc & Hlt). exists c. split; [by eapply lin_valid_grow|done].
  - intros a b E. destruct (Hm a b E) as (Hinc & lca & mc & Hl & Ha & Hb).
    destruct (Hpr a) as (ca & Hca & _); [rewrite E; by left|]. destruct (Hpr b) as (cb & Hcb & _); [rewrite E; by right; left|].
    split.
    + intros [H1 H2]%Hinc. split; [rewrite <- (lin_anc_grow D w w' a b)|rewrite <- (lin_anc_grow D w w' b a)]; try done; [apply Hca|apply Hcb].
    + exists lca, mc. split_and!; [done|eapply lin_choke_grow; try done; by eexists..].
  - destruct Hsame as [_ Hgr]. by eapply readers_in_grows.
Qed.

Lemma append_facts_same f : keeps same_state (append_facts_item (W := W) f).
Proof.
  intros w. unfold append_facts_item. destruct (append_facts f w) as [x w'] eqn:E. simpl.
  destruct (facts_keeps _ _ _ _ E) as [Hs Hh]. split; [|done]. split; [done|]. intros o y Hy. by eapply append_keeps.
Qed.

Lemma append_index_same nm prior : keeps same_state (append_index (W := W) nm prior).
Proof.
  intros w. unfold append_index. destruct (sbug _) as [d|e|x]; [|done..]. destruct (_ <? _); [done|].
  match goal with |- context [append_facts ?f w] => pose proof (append_facts_same f w) as Hs end.
  unfold append_facts_item in Hs. destruct (append_facts _ w) as [[x|e|x] w']; done.
Qed.

Lemma write_layer_same nm prior : keeps same_state (write_layer (W := W) nm prior).
Proof.
  unfold write_layer. destruct prior as [q|]; [|apply append_index_same].
  apply keeps_bind; [apply _|destruct (_ <? _)|intros ?; apply append_index_same].
  - unfold compact. apply keeps_get. intros w. apply keeps_bind; [apply _|by apply keeps_lift, _|]. intros acc.
    apply keeps_bind; [apply _|apply append_index_same|]. intros i. by apply keeps_ret, _.
  - by apply keeps_ret, _.
Qed.

Lemma lin_write_facts_same (f : LinearFactPerspective (W := W)) : keeps same_state (lin_write_facts f).
Proof.
  revert f. fix IH 1. intros [nm [|q|o rd]]; cbn [lin_write_facts].
  - apply (write_layer_same nm None).
  - apply keeps_bind; [apply _|apply IH|]. intros x. destruct nm; [by apply keeps_ret, _|apply write_layer_same].
  - apply keeps_bind; [apply _|by apply keeps_lift, _|]. intros x. destruct nm; [by apply keeps_ret, _|apply write_layer_same].
Qed.

(** The segment a write appends. *)
Lemma append_segment_ok D w p skips facts commands r w' :
  lin_inv D w → lpersp_ok D w p → facts_at w facts →
  (∀ skip q, skip ∈ skips → q ∈ prior_list (lp_prior p) → good_skip D w q skip) →
  (∀ a b, lp_prior p = PMerge a b → skips ≠ []) →
  (Z.of_nat (lp_max_cut p) + Z.of_nat (v1_len commands) < pow64)%Z →
  append_segment (λ offset, mkSegmentRepr offset (lp_prior p) (lp_parents p) (lp_policy p) facts commands (lp_max_cut p) skips) w
    = (Ok r, w') →
  lin_inv (with_segment D (sr_offset r)) w' ∧ fetch_segment w' (sr_offset r) = Ok r.
Proof.
  intros Hinv Hp Hfa Hskips Hne Hb E. destruct (segment_keeps _ _ _ _ E) as (Hs & Hgr & Hh).
  assert (same_file w w') as Hsame by done. assert (same_state w w') as Hstate by done. destruct (segment_fetch _ _ _ _ E) as (off & -> & Hf & Hoff). cbn [sr_offset].
  assert (∀ n, D n → n < off) as HDoff.
  { intros n HD. destruct (inv_seg _ _ Hinv n HD) as [r0 Hr0]. eapply Hoff, (lso_fetch _ _ _ _ Hr0). }
  assert (∀ n, D n → with_segment D off n) as HDD by by left.
  split; [|done]. match type of Hf with _ = Ok ?r => apply (lin_inv_add D w' off r) end;
    [by eapply lin_inv_same| |apply (lpo_root _ _ _ Hp)|].
  - split; try done; [|by eapply facts_at_grows].
    match type of Hf with _ = Ok ?r => apply (lin_shape (with_segment D off) w' r) end; try done;
      cbn [sr_prior sr_offset sr_max_cut sr_skip_list].
    + intros q Hq. destruct (lpo_prior _ _ _ Hp q Hq) as (c & Hc & Hlt). split; [apply HDoff, Hc|].
      exists c. split; [by eapply lin_valid_grow|done].
    + intros l mc Hin. split.
      * destruct (lp_prior p) as [|q|q b] eqn:Ep; [by destruct (lpo_root _ _ _ Hp)|..];
          (eapply HDoff, (choke_max_cut D w q l mc), (Hskips (l, mc) q); [done|by left]).
      * intros q Hq. destruct (lpo_prior _ _ _ Hp q Hq) as (c & Hc & _).
        eapply lin_choke_grow; [done..|by exists c|]. by apply (Hskips (l, mc) q).
    + intros l mc _. pose proof (lpo_root _ _ _ Hp) as Hroot. rewrite prior_list_spec.
      destruct (lp_prior p) as [|q|q b]; [done|exists q; by left..].
  - intros a b Ep. cbn [sr_skip_list sr_prior] in *. split; [by eapply Hne|].
    apply (lpersp_ok_same D w w') in Hp; [|done..]. by apply (lpo_merge _ _ _ Hp a b).
Qed.

Lemma lin_write_spec D w rand p res w' :
  lin_inv D w → lpersp_ok D w p →
  (is_ok res = true → Z.of_nat (lp_max_cut p) + Z.of_nat (length (lp_commands p)) < pow64)%Z →
  lin_write rand p w = (res, w') →
  match res with
  | Ok seg => lin_inv (with_segment D (sr_offset (lseg_repr seg))) w'
              ∧ seg_at w' (sr_offset (lseg_repr seg)) = Some seg
              ∧ v1_list (sr_commands (lseg_repr seg)) = lp_commands p ∧ sr_prior (lseg_repr seg) = lp_prior p
              ∧ same_state w w'
  | Err e => lin_inv D w' ∧ (e = EmptyPerspective ∧ lp_commands p = []
              ∨ (∃ f w0, (append_facts f w0).1 = Err e) ∨ ∃ f w0, (append_segment f w0).1 = Err e)
  | Panic x => lin_inv D w' ∧ ((∃ f w0, (append_facts f w0).1 = Panic x) ∨ ∃ f w0, (append_segment f w0).1 = Panic x)
  end.
Proof.
  intros Hinv Hp Hb E. destruct (lpo_facts _ _ _ Hp) as (v & f & Hrep & Hv).
  pose proof (lin_write_facts_ok (lp_facts p) f w Hrep (lpo_readers _ _ _ Hp)) as Hw.
  pose proof (lin_write_facts_same (lp_facts p) w) as Hsame.
  unfold lin_write, mbind, M_bind in E. destruct (lin_write_facts (lp_facts p) w) as [[i|e|x] w1]; simpl in Hsame.
  2, 3: injection E as <- <-; split; [by eapply lin_inv_same|]; destruct Hw as [_ Hio]; simpl in Hio; tauto.
  pose proof (lin_inv_same _ _ _ Hinv Hsame) as Hinv1. pose proof (lpersp_ok_same _ _ _ _ Hinv (proj1 Hsame) Hp) as Hp1.
  assert (facts_at w1 (fr_offset (li_repr i))) as Hfa.
  { destruct Hw as [_ (Hgr & Hf & j & Hc & _)]. simpl in *. exists (li_repr i), j.
    split_and!; [by apply Hgr|done|by eapply chain_grows]. }
  unfold lift, get_state, append_segment_item, mret, M_ret in E. destruct (lp_commands p) as [|c cs] eqn:Ec; simpl in E.
  { injection E as <- <-. split; [done|]. by left. }
  destruct (lin_skip_list_spec D w1 rand p Hinv1 Hp1) as (skips & Hsk & Hskips & Hne). rewrite Hsk in E.
  match type of E with context [append_segment ?g w1] => destruct (append_segment g w1) as [[r|e|x] w2] eqn:Ea end;
    injection E as <- <-.
  - destruct (append_segment_ok D w1 p skips _ (mkVec1 c cs) r w2 Hinv1 Hp1 Hfa Hskips Hne (Hb eq_refl) Ea) as (Hinv2 & Hf2).
    destruct (segment_keeps _ _ _ _ Ea) as (Hs & Hgr & Hh). destruct (segment_fetch _ _ _ _ Ea) as (off & Hrr & _).
    cbn [lseg_repr]. split_and!; [done|by rewrite seg_at_lin, Hf2|by subst r|by subst r|by transitivity w1].
  - destruct (segment_keeps _ _ _ _ Ea) as (Hs & Hgr & Hh). split; [by eapply lin_inv_same|]. right; right. eexists _, w1. by rewrite Ea.
  - destruct (segment_keeps _ _ _ _ Ea) as (Hs & Hgr & Hh). split; [by eapply lin_inv_same|]. right. eexists _, w1. by rewrite Ea.
Qed.

(** * Obtaining perspectives and working on them *)
Lemma replay_fold_ok (ds : list LinCommandData) (f : LinearFactPerspective (W := W)) v w :
  lfp_ok f v → readers_in w f →
  (∃ v', lfp_ok (fold_left (λ f d, lfp_apply_updates (lcd_updates d) f) ds f) v')
  ∧ readers_in w (fold_left (λ f d, lfp_apply_updates (lcd_updates d) f) ds f).
Proof.
  revert f v. induction ds as [|d ds IH]; intros f v Hf Hrd; simpl; [by eauto|].
  eapply IH; [by apply lfp_apply_updates_ok|by apply lfp_apply_updates_readers].
Qed.

Lemma index_prior_ok w fr i :
  chain w fr i → (∃ v, lfp_ok (lfp_new (index_prior w (fr_prior fr))) v) ∧ readers_in w (lfp_new (index_prior w (fr_prior fr))).
Proof. intros Hc. split; [by eapply lfp_ok_below|]. unfold index_prior. destruct (fr_prior fr); simpl; [reflexivity|done]. Qed.

(** What [get_linear_perspective] puts below the new perspective. *)
Lemma collapse_ok (f : LinearFactPerspective (W := W)) v w :
  lfp_ok f v → readers_in w f →
  let m := if prior_is_none (lfp_prior f) then retain_nonempty (lfp_map f) else lfp_map f in
  let q := match m with [] => lfp_prior f | _ => LPPerspective (LinFP m (lfp_prior f)) end in
  lfp_ok (lfp_new q) v ∧ readers_in w (lfp_new q).
Proof.
  intros Hf Hrd. destruct f as [nm q]. cbn [lfp_prior lfp_map]. cbn zeta.
  assert (∀ m, lfp_ok (LinFP m q) v → lfp_ok (lfp_new (match m with [] => q | _ => LPPerspective (LinFP m q) end)) v
    ∧ readers_in w (lfp_new (match m with [] => q | _ => LPPerspective (LinFP m q) end))) as Hgen.
  { intros m Hm. split; [by apply lfp_ok_collapse|]. by destruct m, q. }
  destruct q as [|q|o rd]; simpl prior_is_none; apply Hgen; try done. by apply lfp_ok_nonempty.
Qed.

(** Replaying the commands of a segment up to one of them. *)
Lemma replay_segment_ok D w n r index c :
  lin_seg_ok D w n r → lseg_facts (mkLinearSegment r w) = Ok index → c < v1_len (sr_commands r) →
  ∃ f v, replay_commands (v1_list (sr_commands r)) c (lfp_new (index_prior w (fr_prior (li_repr index)))) = Ok f
    ∧ lfp_ok f v ∧ readers_in w f.
Proof.
  intros Hr Hi Hc. destruct (lso_facts _ _ _ _ Hr) as (fr & i & Hf & Ho & Hch).
  unfold lseg_facts in Hi. cbn [lseg_reader lseg_repr] in Hi. rewrite Hf in Hi. cbn [mbind outcome_bind] in Hi. injection Hi as <-.
  destruct (index_prior_ok w fr i Hch) as [[v0 Hv0] Hr0]. unfold replay_commands.
  rewrite <- v1_len_list in Hc. apply Nat.ltb_lt in Hc as ->. cbn [li_repr].
  destruct (replay_fold_ok (take (S c) (v1_list (sr_commands r))) _ v0 w Hv0 Hr0) as [[v1 Hv1] Hr1]. eauto.
Qed.

(** The index of a segment opens. *)
Lemma segment_index_ok D w n r :
  lin_seg_ok D w n r →
  (∃ v, lfp_ok (lfp_new (LPIndex (sr_facts r) w)) v) ∧ ∃ index, lseg_facts (mkLinearSegment r w) = Ok index.
Proof.
  intros Hr. destruct (lso_facts _ _ _ _ Hr) as (fr & i & Hf & Ho & Hch). split.
  - eexists. rewrite <- Ho. apply (lfp_ok_index w fr i); [by rewrite Ho|done].
  - unfold lseg_facts. cbn [lseg_reader lseg_repr]. rewrite Hf. by eexists.
Qed.

Lemma command_in_segment D w l r cmd :
  lin_seg_ok D w (loc_segment l) r → lseg_get_command (mkLinearSegment r w) l = Some cmd → loc_command l < v1_len (sr_commands r).
Proof.
  intros Hr Hcmd. pose proof (lseg_get_command_eq r w (loc_command l) (lso_bound _ _ _ _ Hr)) as Hlt.
  assert (mkLocation (sr_offset r) (loc_command l) = l) as Heq by (rewrite (lso_offset _ _ _ _ Hr); by destruct l).
  rewrite Heq, Hcmd in Hlt. by destruct Hlt.
Qed.

Lemma lin_get_fact_perspective_ok D w l f :
  lin_inv D w → valid D w l → lin_get_fact_perspective w l = Ok f → (∃ v, lfp_ok f v) ∧ readers_in w f.
Proof.
  intros Hinv [c Hc] E. destruct (lin_segment_of D w l c Hinv Hc) as (r & Hs & Hr & cmd & Hcmd & Hm).
  destruct (segment_index_ok D w _ r Hr) as [Hix [index Hi]].
  unfold lin_get_fact_perspective in E. rewrite Hs in E. cbn [mbind outcome_bind lseg_head_location lseg_repr] in E.
  case_match; [injection E as <-; split; [done|simpl; reflexivity]|]. rewrite Hi in E. cbn [mbind outcome_bind] in E.
  destruct (replay_segment_ok D w _ r index (loc_command l) Hr Hi) as (f' & v & Hrep & Hok & Hrd); [by eapply command_in_segment|].
  rewrite Hrep in E. injection E as <-. by split; [exists v|].
Qed.

Lemma lin_get_linear_perspective_ok D w parent p :
  lin_inv D w → valid D w parent → lin_get_linear_perspective w parent = Ok (Some p) → lpersp_ok D w p.
Proof.
  intros Hinv [c Hc] E. destruct (lin_segment_of D w parent c Hinv Hc) as (r & Hs & Hr & cmd & Hcmd & Hm).
  unfold lin_get_linear_perspective in E. rewrite Hs in E. cbn [mbind outcome_bind] in E.
  rewrite Hcmd in E. cbn [ok_or mbind outcome_bind lseg_head_location lseg_repr] in E.
  destruct (segment_index_ok D w _ r Hr) as [[v0 Hix] [index Hi]].
  match type of E with (?m ≫= _) = _ => assert (∃ q v, m = Ok q ∧ lfp_ok (lfp_new q) v ∧ readers_in w (lfp_new q)) as (q & v & Hq & Hqok & Hqr) end.
  { case_bool_decide; [eexists _, _; split; [done|]; split; [exact Hix|simpl; reflexivity]|]. rewrite Hi. cbn [mbind outcome_bind].
    destruct (replay_segment_ok D w _ r index (loc_command parent) Hr Hi) as (f' & v & Hrep & Hok & Hrd); [by eapply command_in_segment|].
    rewrite Hrep. cbn [mbind outcome_bind]. eexists _, v. split; [done|]. by apply collapse_ok. }
  rewrite Hq in E. cbn [mbind outcome_bind] in E. unfold cmd_address in E. rewrite Hm in E.
  cbn [mbind outcome_bind sbug map_err] in E.
  destruct (checked_add c 1) as [mc|] eqn:Emc; cbn [assume ok_or map_err mbind outcome_bind] in E; [|done].
  apply checked_add_Some in Emc as [-> _]. injection E as <-. split; cbn [lp_prior lp_max_cut lp_facts lp_new]; try done.
  - intros x ->%list_elem_of_singleton. exists c. split; [done|lia].
  - by eexists.
Qed.

Lemma lin_new_merge_perspective_ok D w left right lca mc policy braid v p :
  lin_inv D w → valid D w left → valid D w right → (strict → incomp w left right) →
  choke D w left lca mc → choke D w right lca mc →
  wrote w v (Ok braid, w) →
  lin_new_merge_perspective w left right (lca, mc) policy braid = Ok (Some p) → lpersp_ok D w p.
Proof.
  intros Hinv [cl Hl] [cr Hr] Hi Hcl Hcr (_ & Hgr & Hf & i & Hch & _) E.
  destruct (lin_segment_of D w left cl Hinv Hl) as (rl & Hsl & Hrl & cmdl & Hcmdl & Hml).
  destruct (lin_segment_of D w right cr Hinv Hr) as (rr & Hsr & Hrr & cmdr & Hcmdr & Hmr).
  unfold lin_new_merge_perspective in E. rewrite Hsl, Hsr in E. cbn [mbind outcome_bind] in E.
  rewrite Hcmdl, Hcmdr in E. cbn [ok_or mbind outcome_bind] in E. unfold cmd_address in E. rewrite Hml, Hmr in E.
  cbn [mbind outcome_bind sbug map_err] in E. case_match; [done|].
  destruct (checked_add (cl `max` cr) 1) as [m|] eqn:Em; cbn [assume ok_or map_err mbind outcome_bind] in E; [|done].
  apply checked_add_Some in Em as [-> _]. injection E as <-.
  split; cbn [lp_prior lp_max_cut lp_facts lp_new lp_last_common_ancestor]; try done.
  - intros q. rewrite prior_list_spec. intros [->|[->|[]%not_elem_of_nil]%elem_of_cons]%elem_of_cons.
    + exists cl. split; [done|lia].
    + exists cr. split; [done|lia].
  - intros a b [= <- <-]. split; [done|]. by exists lca, mc.
  - eexists. by apply lfp_ok_index.
Qed.

Lemma lpersp_ok_facts D w p p' :
  lpersp_ok D w p → lp_prior p' = lp_prior p → lp_max_cut p' = lp_max_cut p →
  lp_last_common_ancestor p' = lp_last_common_ancestor p → (∃ v, lfp_ok (lp_facts p') v) → readers_in w (lp_facts p') →
  lpersp_ok D w p'.
Proof. intros [Hp Hr Hm _ _] Hpr Hmc Hl Hf Hrd. split; try done; by rewrite ?Hpr, ?Hmc, ?Hl. Qed.

Lemma lpersp_ok_insert D w name keys v p : lpersp_ok D w p → lpersp_ok D w (lp_insert name keys v p).
Proof.
  intros Hp. destruct (lpo_facts _ _ _ Hp) as [vw Hf]. eapply lpersp_ok_facts; [done..| |].
  - eexists. exact (lfp_update_ok name keys (Some v) _ _ Hf).
  - exact (lfp_update_readers name keys (Some v) _ _ (lpo_readers _ _ _ Hp)).
Qed.
Lemma lpersp_ok_delete D w name keys p : lpersp_ok D w p → lpersp_ok D w (lp_delete name keys p).
Proof.
  intros Hp. destruct (lpo_facts _ _ _ Hp) as [vw Hf]. eapply lpersp_ok_facts; [done..| |].
  - eexists. exact (lfp_update_ok name keys None _ _ Hf).
  - exact (lfp_update_readers name keys None _ _ (lpo_readers _ _ _ Hp)).
Qed.
Lemma lpersp_ok_add_command D w c p res p' : lpersp_ok D w p → lp_add_command c p = (res, p') → lpersp_ok D w p'.
Proof.
  intros Hp E. unfold lp_add_command in E. destruct (sbug (lp_head_address p)); [|by simplify_eq..].
  case_match; [by simplify_eq|]. injection E as <- <-. eapply lpersp_ok_facts; [done..|apply Hp|apply Hp].
Qed.
Lemma lfp_clear_ok f (vw : FactView) w :
  lfp_ok (W := W) f vw → readers_in w f → (∃ v, lfp_ok (lfp_clear f) v) ∧ readers_in w (lfp_clear f).
Proof.
  intros (g & Hr & Hv) Hrd. destruct f as [nm q]. split; [|by destruct q].
  destruct (persp_rep_layer nm [] q g Hr named_wf_nil) as (pr & -> & Hr'). eexists _, (MemFP [] pr). by split.
Qed.
Lemma lpersp_ok_revert D w i p p' : lpersp_ok D w p → lp_revert i p = Ok p' → lpersp_ok D w p'.
Proof.
  intros Hp E. unfold lp_revert in E. case_match; [by simplify_eq|]. case_match; [done|]. injection E as <-.
  destruct (lpo_facts _ _ _ Hp) as [vw Hf].
  destruct (lfp_clear_ok _ _ w Hf (lpo_readers _ _ _ Hp)) as [[v0 Hv0] Hr0].
  destruct (replay_fold_ok (take i (lp_commands p)) _ v0 w Hv0 Hr0) as [Hv Hr].
  by eapply lpersp_ok_facts.
Qed.

(** * Creating a graph *)

(** A perspective for the first segment. *)
Inductive lin_initial : LinearPerspective (W := W) → Prop :=
| ini_new policy : lin_initial (lin_new_perspective policy)
| ini_insert name keys v p : lin_initial p → lin_initial (lp_insert name keys v p)
| ini_delete name keys p : lin_initial p → lin_initial (lp_delete name keys p)
| ini_add c p res p' : lin_initial p → lp_add_command c p = (res, p') → lin_initial p'
| ini_revert i p p' : lin_initial p → lp_revert i p = Ok p' → lin_initial p'.

Lemma lfp_apply_updates_prior us (f : LinearFactPerspective (W := W)) : lfp_prior (lfp_apply_updates us f) = lfp_prior f.
Proof.
  unfold lfp_apply_updates. revert f. induction us as [|u us IH]; intros f; simpl; [done|]. rewrite IH.
  unfold lfp_update. destruct u.2; [done|]. by destruct (prior_is_none (lfp_prior f)).
Qed.

Lemma lin_initial_inv p :
  lin_initial p → lp_prior p = PNone ∧ lp_parents p = PNone ∧ lfp_prior (lp_facts p) = LPNone ∧ ∃ v, lfp_ok (lp_facts p) v.
Proof.
  induction 1 as [policy|name keys v p _ (H1 & H2 & H3 & vw & H4)|name keys p _ (H1 & H2 & H3 & vw & H4)
    |c p res p' _ (H1 & H2 & H3 & vw & H4) E|i p p' _ (H1 & H2 & H3 & vw & H4) E].
  - split_and!; [done..|]. exists (λ _ _, None), (MemFP [] FPNone). split; [constructor; apply named_wf_nil|done].
  - split_and!; [done..|]. eexists. exact (lfp_update_ok name keys (Some v) _ _ H4).
  - split_and!; [done..| |].
    + simpl. unfold lfp_delete. by destruct (prior_is_none (lfp_prior (lp_facts p))).
    + eexists. exact (lfp_update_ok name keys None _ _ H4).
  - unfold lp_add_command in E. destruct (sbug (lp_head_address p)); [|by simplify_eq; eauto..].
    case_match; [by simplify_eq; eauto|]. injection E as <- <-. simpl. eauto.
  - unfold lp_revert in E. case_match; [by simplify_eq; eauto|]. case_match; [done|]. injection E as <-. simpl.
    destruct (lp_facts p) as [nm q]. simpl in H3. subst q. split_and!; [done..| |].
    + generalize (take i (lp_commands p)). intros ds. assert (∀ f : LinearFactPerspective (W := W),
        lfp_prior (fold_left (λ f d, lfp_apply_updates (lcd_updates d) f) ds f) = lfp_prior f) as ->; [|done].
      induction ds as [|d ds IH]; intros f; simpl; [done|]. by rewrite IH, lfp_apply_updates_prior.
    + generalize (take i (lp_commands p)). intros ds.
      assert (∀ f v, lfp_ok (W := W) f v → ∃ v', lfp_ok (fold_left (λ f d, lfp_apply_updates (lcd_updates d) f) ds f) v') as Hfold.
      { induction ds as [|d ds IH]; intros f v Hf; simpl; [by eauto|]. eapply IH. by apply lfp_apply_updates_ok. }
      apply (Hfold _ (λ _ _, None)). exists (MemFP [] FPNone). split; [constructor; apply named_wf_nil|done].
Qed.

(** A graph of one segment without parents. *)
Lemma lin_inv_single w r h :
  fetch_segment w (sr_offset r) = Ok r → seg_bound r → sr_prior r = PNone → sr_skip_list r = [] → facts_at w (sr_facts r) →
  io_head w = Ok h → loc_segment h = sr_offset r → loc_command h < v1_len (sr_commands r) →
  lin_inv (λ n, n = sr_offset r) w.
Proof.
  intros Hf Hb Hp Hsk Hfa Hh Hseg Hcmd. set (D n := n = sr_offset r).
  assert (seg_at w (sr_offset r) = Some (mkLinearSegment r w)) as Hat by by rewrite seg_at_lin, Hf.
  assert (seg_shape D w (sr_offset r) (mkLinearSegment r w) (sr_max_cut r) (v1_len (sr_commands r))) as Hsh.
  { apply lin_shape; [done|..]; rewrite ?Hp, ?Hsk.
    - intros q Hq. by apply not_elem_of_nil in Hq.
    - intros l mc Hin. by apply not_elem_of_nil in Hin.
    - intros l mc Hin. by apply not_elem_of_nil in Hin. }
  assert (∀ n seg, D n → seg_at w n = Some seg → seg_prior seg = PNone) as Hnone.
  { intros n seg -> Hs. rewrite Hat in Hs. injection Hs as <-. done. }
  split.
  - intros n ->. by exists r.
  - split; [by intros n m seg seg' -> -> |]. intros n seg a b HD Hs Hm. by rewrite (Hnone n seg HD Hs) in Hm.
  - intros n seg a b HD Hs Hm. by rewrite (Hnone n seg HD Hs) in Hm.
  - intros h' Hh'. rewrite Hh in Hh'. injection Hh' as <-. exists (sr_max_cut r + loc_command h).
    destruct h as [n c]. simpl in *. subst n. by eapply shape_max_cut_at.
Qed.

Lemma lin_create_spec init w w' :
  lin_initial init → (Z.of_nat (length (lp_commands init)) < pow64)%Z → lin_create init w = (Ok tt, w') →
  ∃ h, io_head w' = Ok h ∧ lin_inv (λ n, n = loc_segment h) w'.
Proof.
  intros Hi Hb E. destruct (lin_initial_inv _ Hi) as (H1 & H2 & H3 & v & f & Hr & _). unfold lin_create in E. rewrite H1, H2, H3 in E.
  apply M_bind_inv_Ok in E as (fr & w1 & Ea & E). apply M_bind_inv_Ok in E as (cmds & w1' & Ec & E).
  unfold lift in Ec. injection Ec as Ec <-. apply M_bind_inv_Ok in E as (r & w2 & Es & E).
  apply M_bind_inv_Ok in E as (c & w2' & Ecmd & E). unfold lift in Ecmd. injection Ecmd as Ecmd <-.
  unfold append_facts_item in Ea. unfold append_segment_item in Es. unfold io_commit_head in E.
  destruct (append_fetch _ _ _ _ Ea) as (off0 & Hfr & Hf0 & _). destruct (segment_keeps _ _ _ _ Es) as (_ & Hgr & _).
  destruct (segment_fetch _ _ _ _ Es) as (off & Hrr & Hf & _). destruct (commit_keeps _ _ _ _ E) as (Hks & Hkf & Hhead & _).
  specialize (Hhead eq_refl).
  assert (named_wf (retain_nonempty (lfp_map (lp_facts init)))) as Hwf.
  { destruct (lp_facts init) as [nm q]. simpl in *. subst q. inversion Hr; subst.
    destruct (lfp_ok_nonempty nm (mfp_view (MemFP nm FPNone))) as (g & Hg & _); [by eexists|].
    inversion Hg; subst. done. }
  assert (v1_len cmds = length (lp_commands init)) as Hlen.
  { destruct (lp_commands init) as [|x xs]; [done|]. injection Ec as <-. done. }
  assert (c = v1_len cmds - 1) as ->.
  { rewrite <- Ecmd, Hrr. unfold v1_len. simpl. lia. }
  exists (mkLocation (sr_offset r) (v1_len cmds - 1)). split; [done|].
  eapply (lin_inv_single w' r _); [|..|done|done|]; subst r; simpl in *; try done.
  - by apply Hks.
  - unfold seg_bound. simpl. rewrite Hlen. lia.
  - exists fr, (MemFacts (fr_facts fr) None). split_and!; [apply Hkf, Hgr|..]; subst fr; simpl; [done|done|].
    apply (chain_grows w1); [intros o x Hx; by apply Hkf, Hgr|]. by apply chain_root.
  - unfold v1_len. lia.
Qed.

(** * Committing *)
Lemma lin_commit_spec D w search_fuel bound seg res w' :
  lin_inv D w → (∀ n, D n → n < bound) → 2 ^ bound ≤ search_fuel →
  D (sr_offset (lseg_repr seg)) → seg_at w (sr_offset (lseg_repr seg)) = Some seg →
  lin_commit search_fuel seg w = (res, w') →
  lin_inv D w' ∧
  match res with
  | Ok _ => ∃ h, lseg_head_location seg = Ok h ∧ io_head w' = Ok h ∧ ∀ old, io_head w = Ok old → anc w h old
  | Err e => e = HeadNotAncestor ∧ w' = w
      ∧ (∃ old, io_head w = Ok old ∧ ∀ q, q ∈ prior_list (seg_prior seg) → ¬ anc w q old)
      ∨ io_head w = Err e ∨ ∃ l w0, (io_commit l w0).1 = Err e
  | Panic x => io_head w = Panic x ∨ ∃ l w0, (io_commit l w0).1 = Panic x
  end.
Proof.
  intros Hinv Hb Hf HD Hseg E. pose proof (lin_graph_ok D w Hinv) as Hg. unfold lin_commit in E.
  destruct (io_head w) as [old|e|x] eqn:Eh; [|injection E as <- <-; tauto..].
  destruct (go_shape _ _ Hg _ HD) as (seg' & base & len & Hseg' & Hsh). simplify_eq.
  destruct (is_ancestor_spec D w Hg search_fuel old seg) as (b & Hanc & Hiff).
  { by apply (inv_head _ _ Hinv). }
  { apply Forall_forall. intros q Hq. destruct (sh_prior _ _ _ _ _ _ Hsh q Hq) as (_ & c & Hc & _). by exists c. }
  { by eapply prior_weight. }
  rewrite Hanc in E. set (h := mkLocation _ _) in E.
  assert (valid D w h) as Hh.
  { destruct (inv_seg _ _ Hinv _ HD) as [r Hr]. pose proof Hseg as Hs. rewrite seg_at_lin, (lso_fetch _ _ _ _ Hr) in Hs.
    injection Hs as <-. eexists. eapply shape_max_cut_at; [done|exact Hseg|apply Hr|]. simpl. unfold v1_len. lia. }
  destruct b.
  - destruct (commit_keeps _ _ _ _ E) as (Hs & Hgr & Hok & Hcases). split.
    + eapply lin_inv_grow; [done..|]. intros h' Hh'. destruct Hcases as [Hc|Hc]; rewrite Hc in Hh'; [by injection Hh' as <-|].
      by apply (inv_head _ _ Hinv).
    + destruct res as [u|e|x].
      * exists h. split_and!; [done|by apply Hok|]. intros old' [= <-]. destruct (proj1 Hiff eq_refl) as (q & Hq & Ha).
        by eapply anc_prior.
      * right; right. exists h, w. by rewrite E.
      * right. exists h, w. by rewrite E.
  - injection E as <- <-. split; [done|]. left. split_and!; [done..|]. exists old. split; [done|]. intros q Hq Ha.
    by assert (false = true) by (apply Hiff; eauto).
Qed.
End LinearGraph.
