(* ===== verification/LinearFile.v ===== *)
(** The in-memory file of [storage/linear/testing.rs], which instantiates the
    file interface of the persistent storage. *)
From S2P Require Import Prelude Collections RuntimeTypes FactStore MemFacts LinearFacts LinearStorage.
Local Open Scope string_scope.
Local Open Scope list_scope.
Local Open Scope nat_scope.

(** * The writer

    Items are stored serialized, one element of [items] per item; an item's
    offset is its index. [to_allocvec] and [from_bytes] are postcard's, at the
    two types of items. *)
Section Writer.
Context {B : Type}.
Context (facts_to_allocvec : FactIndexRepr → option B) (facts_from_bytes : B → option FactIndexRepr).
Context (segment_to_allocvec : SegmentRepr → option B) (segment_from_bytes : B → option SegmentRepr).

Record Writer := mkWriter { wr_head : option Location; wr_items : list B }.

Definition writer_append {T} (to_allocvec : T → option B) (builder : nat → T) (w : Writer) : outcome StorageError T * Writer :=
  let offset := length (wr_items w) in
  let item := builder offset in
  match to_allocvec item with
  | Some bytes => (Ok item, mkWriter (wr_head w) (vec_push bytes (wr_items w)))
  | None => (Err IoError, w)
  end.
Definition reader_fetch {T} (from_bytes : B → option T) (w : Writer) (offset : nat) : outcome StorageError T :=
  bytes ← ok_or (wr_items w !! offset) (SegmentOutOfBounds (mkLocation offset 0));
  ok_or (from_bytes bytes) IoError.
Definition writer_head (w : Writer) : outcome StorageError Location := sbug (assume (wr_head w) "head exists").
Definition writer_commit (head : Location) (w : Writer) : outcome StorageError unit * Writer :=
  (Ok tt, mkWriter (Some head) (wr_items w)).

Definition writer_io : FactIo Writer :=
  {| fetch_facts := reader_fetch facts_from_bytes; append_facts := writer_append facts_to_allocvec |}.
Definition writer_seg_io : SegIo Writer := {|
  fetch_segment := reader_fetch segment_from_bytes;
  append_segment := writer_append segment_to_allocvec;
  io_head := writer_head;
  io_commit := writer_commit
|}.

(** ** Laws *)
Lemma reader_fetch_push {T} (from_bytes : B → option T) b w o x :
  reader_fetch from_bytes w o = Ok x →
  reader_fetch from_bytes (mkWriter (wr_head w) (vec_push b (wr_items w))) o = Ok x.
Proof.
  unfold reader_fetch, vec_push. simpl. destruct (wr_items w !! o) as [y|] eqn:E; [|done].
  by rewrite (lookup_app_l_Some _ _ _ _ E).
Qed.

Lemma writer_append_keeps {T U} (to_allocvec : T → option B) (from_bytes : B → option U) f w r w' :
  writer_append to_allocvec f w = (r, w') →
  (∀ o x, reader_fetch from_bytes w o = Ok x → reader_fetch from_bytes w' o = Ok x) ∧ writer_head w' = writer_head w.
Proof.
  unfold writer_append. destruct (to_allocvec _) as [b|]; intros [= <- <-]; [|done].
  split; [|done]. intros o x. apply reader_fetch_push.
Qed.

Lemma writer_append_fetch {T} (to_allocvec : T → option B) (from_bytes : B → option T) f w x w' :
  (∀ x b, to_allocvec x = Some b → from_bytes b = Some x) →
  writer_append to_allocvec f w = (Ok x, w') →
  ∃ off, x = f off ∧ reader_fetch from_bytes w' off = Ok x ∧ ∀ o y, reader_fetch from_bytes w o = Ok y → o < off.
Proof.
  intros Hround. unfold writer_append. destruct (to_allocvec _) as [b|] eqn:E; [|done]. intros [= <- <-].
  exists (length (wr_items w)). split_and!; [done|..].
  - unfold reader_fetch, vec_push. simpl. rewrite lookup_app_r, Nat.sub_diag by lia. simpl. by rewrite (Hround _ _ E).
  - intros o y Hy. unfold reader_fetch in Hy. destruct (wr_items w !! o) eqn:Eo; [|done]. by eapply lookup_lt_Some.
Qed.

(** postcard reads back what it wrote. *)
Hypothesis facts_roundtrip : ∀ x b, facts_to_allocvec x = Some b → facts_from_bytes b = Some x.
Hypothesis segment_roundtrip : ∀ x b, segment_to_allocvec x = Some b → segment_from_bytes b = Some x.

Lemma writer_laws : FactIoLaws (H := writer_io) Writer.
Proof.
  split; simpl.
  - intros f w r w' o x E. by apply (writer_append_keeps _ facts_from_bytes) in E as [E _]; apply E.
  - intros f w x w'. by apply writer_append_fetch.
Qed.

Lemma writer_seg_laws : SegIoLaws (H := writer_io) (H0 := writer_seg_io) Writer.
Proof.
  split; simpl.
  - intros f w r w' E. destruct (writer_append_keeps _ segment_from_bytes _ _ _ _ E) as [? ?].
    by destruct (writer_append_keeps _ facts_from_bytes _ _ _ _ E).
  - intros f w r w' E. by apply (writer_append_keeps _ segment_from_bytes) in E.
  - intros f w x w'. by apply writer_append_fetch.
  - intros l w r w' [= <- <-]. split_and!; try done. by left.
  - done.
Qed.
End Writer.
Arguments Writer : clear implicits.

(** The manager of these files: each graph gets a new one. *)
Section Manager.
Context {B : Type}.
Definition manager_create (_ : GraphId) : M unit StorageError (Writer B) := mret (mkWriter None []).
Definition manager_open (_ : GraphId) : M unit StorageError (option (Writer B)) := mret None.
End Manager.

(** * A concrete file

    Its bytes are the items themselves. *)
Definition PlainItem : Type := FactIndexRepr + SegmentRepr.
Definition plain_facts (b : PlainItem) : option FactIndexRepr := match b with inl x => Some x | inr _ => None end.
Definition plain_segment (b : PlainItem) : option SegmentRepr := match b with inr x => Some x | inl _ => None end.
#[export] Instance plain_io : FactIo (Writer PlainItem) := writer_io (λ x, Some (inl x)) plain_facts.
#[export] Instance plain_seg_io : SegIo (Writer PlainItem) := writer_seg_io (λ x, Some (inr x)) plain_segment.
#[export] Instance plain_laws : FactIoLaws (Writer PlainItem).
Proof. apply writer_laws. by intros x b [= <-]. Qed.
#[export] Instance plain_seg_laws : SegIoLaws (Writer PlainItem).
Proof. apply writer_seg_laws. by intros x b [= <-]. Qed.
