(* ===== verification/LinearReach.v ===== *)
(** Every file the persistent storage can produce: creating a graph, then
    opening perspectives on it, working on them, writing and committing. *)
From S2P Require Import Prelude Collections RuntimeTypes FactStore MemFacts LinearFacts LinearFactsProofs Graph.
From S2P Require Import MemStorage MemStorageFacts Client BraidProofs LinearStorage LinearStorageProofs LinearFile.
Local Open Scope string_scope.
Local Open Scope list_scope.
Local Open Scope nat_scope.

(** More fuel does not change the result of a search that ended. *)
Lemma last_common_ancestor_mono {St Seg} `{Storage St Seg} fuel fuel' (st : St) left right res :
  last_common_ancestor fuel st left right = Some res → fuel ≤ fuel' → last_common_ancestor fuel' st left right = Some res.
Proof.
  revert fuel' left right. induction fuel as [|fuel IH]; intros [|fuel'] left right; simpl; try done; [lia|].
  intros E Hf. destruct (lca_step st left right) as [[[l r]|x]| |]; [|done..]. apply IH; [done|lia].
Qed.

Section Reach.
Context {W : Type} `{FactIoLaws W} `{!SegIo W} `{!SegIoLaws W}.
Implicit Types (w : W) (D : nat → Prop) (p : LinearPerspective (W := W)).

(** Work on a perspective. *)
Inductive lin_edit : relation (LinearPerspective (W := W)) :=
| ed_insert name keys v p : lin_edit p (lp_insert name keys v p)
| ed_delete name keys p : lin_edit p (lp_delete name keys p)
| ed_add c p res p' : lp_add_command c p = (res, p') → lin_edit p p'
| ed_revert i p p' : lp_revert i p = Ok p' → lin_edit p p'.

(** The facts at a command of the graph, and what evaluating commands on top
    of them makes of them. *)
Inductive lin_working D w : LinearFactPerspective (W := W) → Prop :=
| wk_get l f : valid D w l → lin_get_fact_perspective w l = Ok f → lin_working D w f
| wk_insert name keys v f : lin_working D w f → lin_working D w (lfp_insert name keys v f)
| wk_delete name keys f : lin_working D w f → lin_working D w (lfp_delete name keys f).

(** A perspective is opened after a command, or as the merge of any
    two commands, comparable or not, with the last common ancestor that the
    client found; the facts of the braid are written first. *)
Inductive lin_opened D w : W → LinearPerspective (W := W) → Prop :=
| op_linear parent p : valid D w parent → lin_get_linear_perspective w parent = Ok (Some p) → lin_opened D w w p
| op_merge left right fuel lca f braid w1 policy p :
    valid D w left → valid D w right →
    last_common_ancestor fuel w left right = Some (Ok lca) →
    lin_working D w f → lin_write_facts f w = (Ok braid, w1) →
    lin_new_merge_perspective w1 left right lca policy braid = Ok (Some p) → lin_opened D w w1 p.

(** [lin_reachable D w]: the segments at the offsets [D] were written to [w]. *)
Inductive lin_reachable : (nat → Prop) → W → Prop :=
| lr_create init w w' h :
    lin_initial init → (Z.of_nat (length (lp_commands init)) < pow64)%Z →
    lin_create init w = (Ok tt, w') → io_head w' = Ok h → lin_reachable (λ n, n = loc_segment h) w'
| lr_write D w w1 p0 p rand res w' :
    lin_reachable D w → lin_opened D w w1 p0 → rtc lin_edit p0 p →
    (Z.of_nat (lp_max_cut p) + Z.of_nat (length (lp_commands p)) < pow64)%Z →
    lin_write rand p w1 = (res, w') →
    lin_reachable (match res with Ok seg => with_segment D (sr_offset (lseg_repr seg)) | _ => D end) w'
| lr_write_facts D w f res w' :
    lin_reachable D w → lin_working D w f → lin_write_facts f w = (res, w') → lin_reachable D w'
| lr_commit D w bound search_fuel n seg res w' :
    lin_reachable D w → (∀ n, D n → n < bound) → 2 ^ bound ≤ search_fuel →
    D n → seg_at w n = Some seg → lin_commit search_fuel seg w = (res, w') → lin_reachable D w'.

Lemma lin_working_ok D w f : lin_inv (strict := False) D w → lin_working D w f → (∃ v, lfp_ok f v) ∧ readers_in w f.
Proof.
  intros Hinv. induction 1 as [l f Hl E|name keys v f _ [[vw IH] Hrd]|name keys f _ [[vw IH] Hrd]].
  - by eapply lin_get_fact_perspective_ok.
  - split; [|exact (lfp_update_readers name keys (Some v) _ _ Hrd)]. eexists. exact (lfp_update_ok name keys (Some v) _ _ IH).
  - split; [|exact (lfp_update_readers name keys None _ _ Hrd)]. eexists. exact (lfp_update_ok name keys None _ _ IH).
Qed.

Lemma lin_edit_ok D w p p' : lpersp_ok (strict := False) D w p → rtc lin_edit p p' → lpersp_ok (strict := False) D w p'.
Proof.
  intros Hp Hr. induction Hr as [|p1 p2 p3 Hed _ IH]; [done|]. apply IH.
  destruct Hed; [by apply lpersp_ok_insert|by apply lpersp_ok_delete|by eapply lpersp_ok_add_command|by eapply lpersp_ok_revert].
Qed.

Lemma lin_write_working D w f res w' :
  lin_inv (strict := False) D w → lin_working D w f → lin_write_facts f w = (res, w') →
  lin_inv (strict := False) D w' ∧ same_state w w' ∧ ∃ v, wrote w v (res, w').
Proof.
  intros Hinv Hf E. destruct (lin_working_ok D w f Hinv Hf) as [(v & g & Hr & _) Hrd].
  pose proof (lin_write_facts_ok f g w Hr Hrd) as Hw. pose proof (lin_write_facts_same f w) as Hs.
  rewrite E in Hw, Hs. simpl in Hs. split_and!; [by eapply lin_inv_same|done|by eexists].
Qed.

(** The last common ancestor is searched in the file as it was before the facts
    of the braid were written. *)
Lemma lin_merge_after {strict : Prop} D w w' fuel left right lca policy braid v p :
  lin_inv (strict := strict) D w → lin_inv (strict := strict) D w' → same_file w w' →
  valid D w left → valid D w right → (strict → incomp w left right) →
  last_common_ancestor fuel w left right = Some (Ok lca) → wrote w' v (Ok braid, w') →
  lin_new_merge_perspective w' left right lca policy braid = Ok (Some p) → lpersp_ok (strict := strict) D w' p.
Proof.
  intros Hinv Hinv' Hs [cl Hl] [cr Hr] Hi El Hw E. destruct lca as [lca mc].
  destruct (last_common_ancestor_spec D w (lin_graph_ok _ _ Hinv) (inv_skips _ _ Hinv) (cl + cr + S fuel) left right cl cr)
    as (d & c & Hrun & Hcl & Hcr); [done|done|lia|].
  apply (last_common_ancestor_mono fuel (cl + cr + S fuel)) in El; [|lia]. simplify_eq.
  assert (∀ l c, max_cut_at D w l c → valid D w' l) as Hval
    by (intros l c Hc; exists c; by eapply (lin_valid_grow D D w w')).
  eapply (lin_new_merge_perspective_ok D w' left right lca mc policy braid v); [done|by eapply Hval..| | | |done|done].
  - intros [H1 H2]%Hi. destruct Hl as [HDl _], Hr as [HDr _].
    split; [intros Ha; apply H1|intros Ha; apply H2]; by eapply (lin_anc_grow D w w').
  - eapply (lin_choke_grow D D w w'); [done..|by exists cl|done].
  - eapply (lin_choke_grow D D w w'); [done..|by exists cr|done].
Qed.

Lemma wrote_again w w' v (i : LinearFactIndex (W := W)) : wrote w v (Ok i, w') → wrote w' v (Ok i, w').
Proof. intros [_ Hw]. split; [simpl; reflexivity|done]. Qed.

Lemma lin_opened_ok D w w1 p :
  lin_inv (strict := False) D w → lin_opened D w w1 p → lin_inv (strict := False) D w1 ∧ lpersp_ok (strict := False) D w1 p.
Proof.
  intros Hinv [parent p' Hv E|left right fuel lca f braid w' policy p' Hl Hr El Hf Ew E].
  { split; [done|by eapply lin_get_linear_perspective_ok]. }
  destruct (lin_write_working D w f _ _ Hinv Hf Ew) as (Hinv' & [Hs _] & v & Hw). split; [done|].
  by apply (lin_merge_after D w w' fuel left right lca policy braid v); try done; eapply wrote_again.
Qed.

Lemma lin_reachable_inv D w : lin_reachable D w → lin_inv (strict := False) D w.
Proof.
  induction 1 as [init w w' h Hi Hb E Hh|D w w1 p0 p rand res w' _ Hinv Ho He Hb E|D w f res w' _ Hinv Hf E
    |D w bound fuel n seg res w' _ Hinv Hb Hf HD Hs E].
  - destruct (lin_create_spec (strict := False) init w w' Hi Hb E) as (h' & Hh' & Hinv). rewrite Hh in Hh'. by injection Hh' as ->.
  - destruct (lin_opened_ok _ _ _ _ Hinv Ho) as [Hinv1 Hp]. pose proof (lin_edit_ok _ _ _ _ Hp He) as Hp'.
    pose proof (lin_write_spec D w1 rand p res w' Hinv1 Hp' (λ _, Hb) E) as Hw. destruct res; tauto.
  - by destruct (lin_write_working D w f res w' Hinv Hf E).
  - destruct (inv_seg _ _ Hinv n HD) as [r Hr]. pose proof Hs as Hs'. rewrite seg_at_lin, (lso_fetch _ _ _ _ Hr) in Hs'.
    injection Hs' as <-. eapply lin_commit_spec; [done|done|done| | |done]; cbn [lseg_repr]; by rewrite (lso_offset _ _ _ _ Hr).
Qed.
End Reach.
