(* ===== verification/LinearTheorems.v ===== *)
(** Claims about the persistent storage: its fact indices, its graph of
    segments and its head. *)
From S2P Require Import Prelude Collections RuntimeTypes FactStore MemFacts LinearFacts LinearFactsProofs Graph.
From S2P Require Import MemStorage MemStorageFacts MemTheorems Client BraidProofs LinearStorage LinearStorageProofs.
From S2P Require Import LinearFile LinearReach.
Local Open Scope string_scope.
Local Open Scope list_scope.
Local Open Scope nat_scope.
Implicit Types (name : string) (keys prefix : Keys).

(** * Claims *)
Section Claims.
Context {W : Type} `{FactIoLaws W}.
Implicit Types (p : LinearFactPerspective (W := W)) (v : FactView).

(** The perspective on top of a written index. *)
Definition lfp_on_index (i : LinearFactIndex) : LinearFactPerspective (W := W) :=
  lfp_new (LPIndex (fr_offset (li_repr i)) (li_reader i)).

Lemma lfp_on_index_ok w v i w' :
  wrote w v (Ok i, w') → lfp_ok (lfp_on_index i) v ∧ readers_in w' (lfp_on_index i).
Proof.
  intros [Hg (Hg' & Hf & j & Hc & Hv)]. split; [|done].
  exists (MemFP [] (FPIndex j)). split; [by constructor; [apply named_wf_nil|..]|].
  intros n k. rewrite mfp_view_layer. apply Hv.
Qed.

Lemma lin_write_lfp_ok w p v : lfp_ok p v → readers_in w p → wrote w v (lin_write_facts p w).
Proof. intros (f & Hr & Hv) Hrd. eapply wrote_view; [done|]. by apply lin_write_facts_ok. Qed.

(** Rounds of updates, each written before the next begins. *)
Fixpoint write_rounds (rounds : list (list Update)) p : M W StorageError (LinearFactPerspective (W := W)) :=
  match rounds with
  | [] => mret p
  | us :: rounds' =>
      i ← lin_write_facts (lfp_apply_updates us p);
      write_rounds rounds' (lfp_on_index i)
  end.

Lemma write_rounds_ok rounds p v w :
  (∀ f w, is_ok (append_facts f w).1 = true) → lfp_ok p v → readers_in w p →
  ∃ p' w', write_rounds rounds p w = (Ok p', w') ∧ lfp_ok p' (view_updates (concat rounds) v).
Proof.
  intros Happ. revert p v w. induction rounds as [|us rounds IH]; intros p v w Hp Hrd; simpl; [by exists p, w|].
  pose proof (lin_write_lfp_ok w _ _ (lfp_apply_updates_ok us p v Hp) (lfp_apply_updates_readers us p w Hrd)) as Hw.
  unfold mbind, M_bind. destruct (lin_write_facts _ w) as [[i|e|x] w'] eqn:E; simpl.
  - destruct (lfp_on_index_ok _ _ _ _ Hw) as [Hi Hri].
    destruct (IH _ _ _ Hi Hri) as (p' & w'' & Hrun & Hp'). exists p', w''. split; [done|].
    unfold view_updates in *. by rewrite fold_left_app.
  - destruct Hw as [_ (f & w0 & Hf)]. specialize (Happ f w0). by rewrite Hf in Happ.
  - destruct Hw as [_ (f & w0 & Hf)]. specialize (Happ f w0). by rewrite Hf in Happ.
Qed.
End Claims.

(** A fact perspective of the persistent storage is a fact store for every
    file that keeps the promises of [Write::append] and [Read::fetch]: queries
    read the current facts through all layers, prefix queries list exactly the
    matching live facts in key order, insert and delete change one fact, and a
    delete needs no tombstone exactly because nothing is below. *)
Theorem linear_facts_implement_fact_store {W} `{FactIoLaws W} (p : LinearFactPerspective (W := W)) (v : FactView) :
  lfp_ok p v →
  (∀ name keys, query p name keys = Ok (v name keys))
  ∧ (∀ name prefix, ∃ l, query_prefix p name prefix = Ok (map Ok l) ∧ lists_prefix v name prefix l)
  ∧ (∀ name keys x, lfp_ok (q_insert name keys x p) (view_insert name keys (Some x) v))
  ∧ (∀ name keys, lfp_ok (q_delete name keys p) (view_insert name keys None v))
  ∧ lfp_ok (lfp_new (W := W) LPNone) (λ _ _, None).
Proof.
  intros Hp. split_and!.
  - intros. by apply lfp_laws_query.
  - intros. by apply lfp_laws_prefix.
  - intros name keys x. apply (lfp_update_ok name keys (Some x)), Hp.
  - intros name keys. apply (lfp_update_ok name keys None), Hp.
  - exists (MemFP [] FPNone). split; [|done]. constructor. apply named_wf_nil.
Qed.

Lemma plain_root_ok : lfp_ok (lfp_new (W := Writer PlainItem) LPNone) (λ _ _, None).
Proof. exists (MemFP [] FPNone). split; [|done]. constructor. apply named_wf_nil. Qed.

Lemma linear_facts_implement_fact_store_witness :
  lfp_ok (W := Writer PlainItem) (q_insert "Fact" [[Byte.x01]] [Byte.x07] (lfp_new LPNone))
    (view_insert "Fact" [[Byte.x01]] (Some [Byte.x07]) (λ _ _, None)).
Proof.
  refine (proj1 (proj2 (proj2 (linear_facts_implement_fact_store (W := Writer PlainItem) _ (λ _ _, None) _))) _ _ _).
  apply plain_root_ok.
Defined.

(** [write_facts] of the persistent storage preserves the facts: if it
    succeeds, the index it returns is in the file, its chain has at most
    [MAX_FACT_INDEX_DEPTH] layers (compacting as needed) and it answers every
    query and prefix query as the perspective did; everything readable before
    still is. It fails only with an error of [append]: the chain is never
    found too deep and every prior is readable. *)
Theorem linear_write_facts_preserves_queries {W} `{FactIoLaws W} (p : LinearFactPerspective (W := W)) (v : FactView) w :
  lfp_ok p v → readers_in w p →
  match lin_write_facts p w with
  | (Ok i, w') =>
      (∀ o x, fetch_facts w o = Ok x → fetch_facts w' o = Ok x)
      ∧ fetch_facts w' (fr_offset (li_repr i)) = Ok (li_repr i)
      ∧ fr_depth (li_repr i) ≤ MAX_FACT_INDEX_DEPTH
      ∧ (∀ name keys, query i name keys = query p name keys)
      ∧ ∀ name prefix, query_prefix i name prefix = query_prefix p name prefix
  | (Err e, w') => ∃ f w0, (append_facts f w0).1 = Err e
  | (Panic x, w') => ∃ f w0, (append_facts f w0).1 = Panic x
  end.
Proof.
  intros Hp Hrd. pose proof (lin_write_lfp_ok w p v Hp Hrd) as Hw.
  destruct (lin_write_facts p w) as [[i|e|x] w']; [|apply Hw..].
  pose proof (lfp_on_index_ok _ _ _ _ Hw) as [Hi _].
  destruct Hw as [Hg (Hg' & Hf & j & Hc & Hv)]. split_and!; [done|by apply Hg'|by eapply chain_depth|..].
  - intros name keys. rewrite (lfp_laws_query p v) by done. destruct i as [r rd]. simpl.
    rewrite (lfi_query_chain rd r j) by done. unfold mfi_query. by rewrite mfi_lookup_view, <- Hv.
  - intros name prefix.
    destruct (lfp_laws_prefix _ _ name prefix Hp) as (l & -> & Hl).
    destruct (lfp_laws_prefix _ _ name prefix Hi) as (l' & Hl' & Hs).
    rewrite <- (lists_prefix_unique _ _ _ _ _ Hl Hs) in Hl'. rewrite <- Hl'.
    destruct i as [r rd]. simpl in *. unfold lfp_query_prefix, lfi_query_prefix, lfp_on_index, lfp_new. simpl.
    rewrite Hf. unfold mbind, outcome_bind. by destruct (lfi_query_prefix_inner _ name prefix).
Qed.

Lemma linear_write_facts_preserves_queries_witness :
  query (lfp_new (W := Writer PlainItem) LPNone) "Fact" [] = Ok None
  ∧ match lin_write_facts (lfp_new LPNone) (mkWriter None []) with
    | (Ok i, w') => fr_depth (li_repr i) ≤ MAX_FACT_INDEX_DEPTH
    | _ => False
    end.
Proof.
  split; [reflexivity|].
  refine (proj1 (proj2 (proj2 (linear_write_facts_preserves_queries (lfp_new LPNone) (λ _ _, None) (mkWriter None []) _ _)))).
  - apply plain_root_ok.
  - exact I.
Defined.

(** C38: any number of rounds of updates, each written before the next begins,
    always succeeds on a file that does not fail, compaction included, and at
    the end a query returns what the last update of that fact set. *)
Theorem linear_rounds_keep_facts {W} `{FactIoLaws W} (rounds : list (list Update)) (w : W) :
  (∀ f w, is_ok (append_facts f w).1 = true) →
  ∃ p w', write_rounds rounds (lfp_new LPNone) w = (Ok p, w')
    ∧ ∀ name keys, query p name keys = Ok (view_updates (concat rounds) (λ _ _, None) name keys).
Proof.
  intros Happ.
  destruct (write_rounds_ok rounds (lfp_new LPNone) (λ _ _, None) w Happ) as (p & w' & Hrun & Hp); [|done|].
  - exists (MemFP [] FPNone). split; [|done]. constructor. apply named_wf_nil.
  - exists p, w'. split; [done|]. intros. by apply lfp_laws_query.
Qed.

(** Forty rounds, more than the depth of a chain. *)
Definition forty_rounds : list (list Update) :=
  repeat [("Fact", [[Byte.x01]], Some [Byte.x07]); ("Fact", [[Byte.x02]], None)] 40.

Lemma linear_rounds_keep_facts_witness :
  (∃ p w', write_rounds forty_rounds (lfp_new LPNone) (mkWriter None []) = (Ok p, w')
    ∧ ∀ name keys, query p name keys = Ok (view_updates (concat forty_rounds) (λ _ _, None) name keys))
  ∧ match (write_rounds forty_rounds (lfp_new LPNone) (mkWriter None [])).1 with
    | Ok p => query p "Fact" [[Byte.x01]] = Ok (Some [Byte.x07])
    | _ => False
    end.
Proof.
  split; [|vm_compute; reflexivity].
  apply (linear_rounds_keep_facts (W := Writer PlainItem) forty_rounds). intros f w. reflexivity.
Defined.

(** Compaction of a chain of indices keeps exactly its facts: every query
    of the compacted index answers as the chain did; the compacted index has
    no prior and no tombstone left. It fails only with an error of [append]. *)
Theorem compact_keeps_live_facts {W} `{FactIoLaws W} r i (w : W) :
  chain w r i →
  match compact r w with
  | (Ok p, w') =>
      (∀ name keys, query (mkLinearFactIndex p w') name keys = query (mkLinearFactIndex r w) name keys)
      ∧ fr_prior p = None ∧ fr_depth p = 1 ∧ ∀ name keys, named_get name keys (fr_facts p) ≠ Some None
  | (Err e, _) => ∃ f w0, (append_facts f w0).1 = Err e
  | (Panic x, _) => ∃ f w0, (append_facts f w0).1 = Panic x
  end.
Proof.
  intros Hc. pose proof (compact_ok r i w Hc) as Hok. destruct (compact r w) as [[p|e|x] w']; [|apply Hok..].
  destruct Hok as (Hg & Hd & Hf & (j & Hj & Hv) & Hp & Hlive). split_and!; [|done..].
  intros name keys. simpl. rewrite (lfi_query_chain w' p j), (lfi_query_chain w r i) by done.
  unfold mfi_query. by rewrite !mfi_lookup_view, Hv.
Qed.

(** A base with two facts and a layer that deletes one of them. *)
Definition two_layers : Writer PlainItem :=
  (write_rounds [[("Fact", [[Byte.x01]], Some [Byte.x07]); ("Fact", [[Byte.x02]], Some [Byte.x08])];
                 [("Fact", [[Byte.x02]], None)]] (lfp_new LPNone) (mkWriter None [])).2.
Definition base_layer : FactIndexRepr :=
  mkFactIndexRepr 0 None 1 [("Fact", [([[Byte.x01]], Some [Byte.x07]); ([[Byte.x02]], Some [Byte.x08])])].
Definition top_layer : FactIndexRepr := mkFactIndexRepr 1 (Some 0) 2 [("Fact", [([[Byte.x02]], None)])].

Lemma compact_keeps_live_facts_witness :
  wr_items two_layers = [inl base_layer; inl top_layer]
  ∧ match compact top_layer two_layers with
    | (Ok p, w') => fr_facts p = [("Fact", [([[Byte.x01]], Some [Byte.x07])])]
        ∧ ∀ name keys, query (mkLinearFactIndex p w') name keys = query (mkLinearFactIndex top_layer two_layers) name keys
    | _ => False
    end.
Proof.
  split; [reflexivity|].
  assert (chain two_layers top_layer (MemFacts (fr_facts top_layer) (Some (MemFacts (fr_facts base_layer) None)))) as Hc.
  { apply (chain_next two_layers top_layer base_layer); [reflexivity..|unfold base_layer, top_layer; simpl; lia
      |reflexivity|unfold MAX_FACT_INDEX_DEPTH; simpl; lia|split; repeat constructor|].
    apply chain_root; [reflexivity..|split; repeat constructor]. }
  exact (conj eq_refl (proj1 (compact_keeps_live_facts top_layer _ two_layers Hc))).
Defined.

(** * A concrete graph: two branches and their merge *)
Module LinExample.
Abbreviation file := (Writer PlainItem).
Abbreviation persp := (LinearPerspective (W := file)).
Definition add (c : Command) (p : persp) : persp := (lp_add_command c p).2.
Definition linear (w : file) (l : Location) : persp :=
  match lin_get_linear_perspective w l with Ok (Some p) => p | _ => lin_new_perspective 0 end.
Definition rand (i n : nat) : nat := (i + 1) `mod` n.

Definition p_init : persp :=
  add (Example.cmd Byte.x00 PNone) (lp_insert "Fact" [[Byte.x01]] [Byte.x07] (lin_new_perspective 0)).
Definition w_init : file := Eval vm_compute in (lin_create p_init (mkWriter None [])).2.
Definition p_left : persp :=
  add (Example.cmd Byte.x02 (PSingle (Example.at_ Byte.x01 1))) (add (Example.cmd Byte.x01 (PSingle (Example.at_ Byte.x00 0))) (linear w_init (mkLocation 1 0))).
Definition w_left : file := Eval vm_compute in (lin_write rand p_left w_init).2.
Definition p_right : persp :=
  add (Example.cmd Byte.x03 (PSingle (Example.at_ Byte.x00 0))) (lp_delete "Fact" [[Byte.x01]] (linear w_left (mkLocation 1 0))).
Definition w_right : file := Eval vm_compute in (lin_write rand p_right w_left).2.
Definition f_braid : LinearFactPerspective (W := file) :=
  lfp_insert "Fact" [[Byte.x02]] [Byte.x08]
    match lin_get_fact_perspective w_right (mkLocation 4 0) with Ok f => f | _ => lfp_new LPNone end.
Definition braid : LinearFactIndex (W := file) := Eval vm_compute in
  match (lin_write_facts f_braid w_right).1 with Ok i => i | _ => mkLinearFactIndex (mkFactIndexRepr 0 None 0 []) w_right end.
Definition w_braid : file := Eval vm_compute in (lin_write_facts f_braid w_right).2.
Definition p_merge : persp :=
  match lin_new_merge_perspective w_braid (mkLocation 2 1) (mkLocation 4 0) (mkLocation 1 0, 0) 0 braid with
  | Ok (Some p) => p
  | _ => lin_new_perspective 0
  end.
Definition p_merged : persp := add (Example.cmd Byte.x04 (PMerge (Example.at_ Byte.x02 2) (Example.at_ Byte.x03 1))) p_merge.
Definition w_merge : file := Eval vm_compute in (lin_write rand p_merged w_braid).2.
Definition seg_merge : LinearSegment (W := file) := Eval vm_compute in
  match get_segment w_merge (mkLocation 6 0) with Ok s => s | _ => mkLinearSegment (mkSegmentRepr 0 PNone PNone 0 0 (mkVec1 (mkLinCommandData [] PrioInit None [] []) []) 0 []) w_merge end.

(** The offsets of the segments. *)
Definition D_init : nat → Prop := λ n, n = 1.
Definition D_left : nat → Prop := with_segment D_init 2.
Definition D_right : nat → Prop := with_segment D_left 4.
Definition D_merge : nat → Prop := with_segment D_right 6.

Lemma edit_add c p : rtc lin_edit p (add c p).
Proof. apply rtc_once. eapply ed_add, surjective_pairing. Qed.
Lemma lin_valid_at (D : nat → Prop) w n c mc :
  D n → (∃ seg cmd, get_segment w (mkLocation n 0) = Ok seg ∧ lseg_get_command seg (mkLocation n c) = Some cmd ∧ cmd_max_cut cmd = Ok mc) →
  valid D (w : file) (mkLocation n c).
Proof.
  intros HD (seg & cmd & Hs & Hc & Hm). exists mc. split; [done|]. exists seg, cmd. split_and!; [|done..].
  unfold seg_at. simpl loc_segment. by rewrite Hs.
Qed.
Ltac valid_by mc := apply (lin_valid_at _ _ _ _ mc); [unfold D_merge, D_right, D_left, with_segment, D_init; tauto|do 2 eexists; split_and!; reflexivity].

Lemma reach_write D w w1 p0 p (seg : LinearSegment (W := file)) off w' :
  lin_reachable D w → lin_opened D w w1 p0 → rtc lin_edit p0 p →
  (Z.of_nat (lp_max_cut p) + Z.of_nat (length (lp_commands p)) < pow64)%Z →
  lin_write rand p w1 = (Ok seg, w') → sr_offset (lseg_repr seg) = off → lin_reachable (with_segment D off) w'.
Proof. intros Hr Ho He Hb E <-. exact (lr_write D w w1 p0 p rand (Ok seg) w' Hr Ho He Hb E). Qed.

Lemma reach_left : lin_reachable D_left w_left.
Proof.
  assert (lin_reachable D_init w_init) as Hinit.
  { refine (lr_create p_init (mkWriter None []) w_init (mkLocation 1 0) _ _ _ _); [|done|vm_compute; reflexivity..].
    eapply ini_add; [apply ini_insert, ini_new|apply surjective_pairing]. }
  eapply (reach_write D_init w_init w_init (linear w_init (mkLocation 1 0)) p_left _ 2 w_left Hinit);
    [|etrans; apply edit_add|reflexivity|vm_compute; reflexivity|reflexivity].
  apply (op_linear _ _ (mkLocation 1 0)); [valid_by 0|vm_compute; reflexivity].
Qed.
Lemma reach_right : lin_reachable D_right w_right.
Proof.
  eapply (reach_write D_left w_left w_left (linear w_left (mkLocation 1 0)) p_right _ 4 w_right reach_left);
    [|etrans; [apply rtc_once, ed_delete|apply edit_add]|reflexivity|vm_compute; reflexivity|reflexivity].
  apply (op_linear _ _ (mkLocation 1 0)); [valid_by 0|vm_compute; reflexivity].
Qed.

(** Ancestors of a location, by computation. *)
Lemma lin_not_anc (w : file) l x :
  (∃ seg, get_segment w (mkLocation (loc_segment l) 0) = Ok seg ∧ loc_segment x ≠ loc_segment l
    ∧ Forall (λ q, ¬ anc w q x) (prior_list (seg_prior seg))) → ¬ anc w l x.
Proof.
  intros (seg & Hs & Hn & HF) Ha. inversion Ha as [l' x' Hseg|l' x' seg' q Hs' Hq Hqx]; subst; [done|].
  unfold seg_at in Hs'. rewrite Hs in Hs'. injection Hs' as <-. rewrite Forall_forall in HF. by eapply HF.
Qed.
Ltac no_path := apply lin_not_anc; eexists; split; [vm_compute; reflexivity|split; [done|simpl; repeat constructor; try no_path]].

Lemma merge_opened : lin_opened D_right w_right w_braid p_merge.
Proof.
  eapply (op_merge D_right w_right (mkLocation 2 1) (mkLocation 4 0) 10 (mkLocation 1 0, 0) f_braid braid w_braid 0);
    [valid_by 2|valid_by 1|vm_compute; reflexivity| |vm_compute; reflexivity..].
  apply wk_insert, (wk_get _ _ (mkLocation 4 0)); [valid_by 1|vm_compute; reflexivity].
Qed.
Lemma reach_merge : lin_reachable D_merge w_merge.
Proof.
  eapply (reach_write D_right w_right w_braid p_merge p_merged _ 6 w_merge reach_right);
    [apply merge_opened|apply edit_add|reflexivity|vm_compute; reflexivity|reflexivity].
Qed.

(** Beside the merge, one more command on the right branch. *)
Definition p_fork : persp := add (Example.cmd Byte.x05 (PSingle (Example.at_ Byte.x03 1))) (linear w_merge (mkLocation 4 0)).
Definition w_fork : file := Eval vm_compute in (lin_write rand p_fork w_merge).2.
Definition D_fork : nat → Prop := with_segment D_merge 7.
Lemma reach_fork : lin_reachable D_fork w_fork.
Proof.
  eapply (reach_write D_merge w_merge w_merge (linear w_merge (mkLocation 4 0)) p_fork _ 7 w_fork reach_merge);
    [|apply edit_add|reflexivity|vm_compute; reflexivity|reflexivity].
  apply (op_linear _ _ (mkLocation 4 0)); [valid_by 1|vm_compute; reflexivity].
Qed.
(** The heads, and the parents of the merge. *)
Lemma fork_incomp : incomp w_fork (mkLocation 6 0) (mkLocation 7 0).
Proof. split; no_path. Qed.
Lemma fork_merge n seg l r :
  D_fork n → seg_at w_fork n = Some seg → seg_prior seg = PMerge l r → incomp w_fork l r.
Proof.
  intros [[[[->| ->]| ->]| ->]| ->]; intros [= <-]; try done. intros [= <- <-]. split; no_path.
Qed.
End LinExample.

(** * The graph of the file *)

(** C34: whatever the persistent storage does after creating a graph (opening
    perspectives after any command or on the merge of any two commands, with
    their last common ancestor, inserting, deleting, adding and reverting,
    writing segments or facts, committing, successful or not, with any random
    skips), the file holds a well-formed graph: commands of a segment have
    consecutive max cuts, parents are earlier with smaller max cuts, every skip
    is an ancestor that no branch bypasses, there is one root, merges have a
    skip, the head is a command of the graph and the facts of every segment are
    readable. *)
Theorem linear_reachable_graph_ok {W} `{FactIoLaws W} `{!SegIo W} `{!SegIoLaws W} D (w : W) :
  lin_reachable D w →
  graph_ok D w ∧ skips_ok D w
  ∧ (∀ h, get_head w = Ok h → valid D w h)
  ∧ ∀ n seg, D n → seg_at w n = Some seg → ∃ i, lseg_facts seg = Ok i ∧ ∀ name keys, ∃ v, query i name keys = Ok v.
Proof.
  intros Hinv%lin_reachable_inv. split_and!; [by eapply lin_graph_ok|apply Hinv|apply Hinv|].
  intros n seg HD Hs. destruct (inv_seg _ _ Hinv n HD) as [r Hr]. rewrite seg_at_lin, (lso_fetch _ _ _ _ Hr) in Hs.
  injection Hs as <-. destruct (lso_facts _ _ _ _ Hr) as (fr & j & Hf & Ho & Hc).
  exists (mkLinearFactIndex fr w). split; [unfold lseg_facts; simpl; by rewrite Hf|].
  intros name keys. eexists. by apply (lfi_query_chain w fr j).
Qed.

(** [write] of the persistent storage stores the perspective: on a
    reachable file it returns a segment with exactly the commands and parents
    of the perspective, readable at its offset, and leaves the head alone; it
    fails only for a perspective without commands or with an error of the
    file. *)
Theorem linear_write_stores_perspective {W} `{FactIoLaws W} `{!SegIo W} `{!SegIoLaws W} D (w w1 : W) p0 p rand :
  lin_reachable D w → lin_opened D w w1 p0 → rtc lin_edit p0 p →
  (Z.of_nat (lp_max_cut p) + Z.of_nat (length (lp_commands p)) < pow64)%Z →
  match lin_write rand p w1 with
  | (Ok seg, w') =>
      get_segment w' (lseg_first_location seg) = Ok seg
      ∧ v1_list (sr_commands (lseg_repr seg)) = lp_commands p ∧ seg_prior seg = lp_prior p
      ∧ get_head w' = get_head w1
  | (Err e, _) => e = EmptyPerspective ∧ lp_commands p = []
      ∨ (∃ f w0, (append_facts f w0).1 = Err e) ∨ ∃ f w0, (append_segment f w0).1 = Err e
  | (Panic x, _) => (∃ f w0, (append_facts f w0).1 = Panic x) ∨ ∃ f w0, (append_segment f w0).1 = Panic x
  end.
Proof.
  intros Hinv%lin_reachable_inv Ho He Hb. destruct (lin_opened_ok _ _ _ _ Hinv Ho) as [Hinv1 Hp].
  apply (lin_edit_ok _ _ _ _ Hp) in He. pose proof (lin_write_spec D w1 rand p _ _ Hinv1 He (λ _, Hb) (surjective_pairing _)) as Hw.
  destruct (lin_write rand p w1) as [[seg|e|x] w']; simpl in Hw; [|tauto..].
  destruct Hw as (Hinv' & Hs & Hc & Hpr & [_ Hh]). split_and!; [|done..].
  apply (go_index _ _ (lin_graph_ok _ _ Hinv') (lseg_first_location seg)); [by right|done].
Qed.

(** [commit] of the persistent storage moves the head forward only: it
    succeeds, with the head of the given segment, when the old head is a parent
    of the segment or an ancestor of one, and otherwise fails with
    [HeadNotAncestor] and leaves the file as it was (or the file fails). *)
Theorem linear_commit_moves_head_forward {W} `{FactIoLaws W} `{!SegIo W} `{!SegIoLaws W} D (w : W) bound search_fuel n seg :
  lin_reachable D w → (∀ n, D n → n < bound) → 2 ^ bound ≤ search_fuel → D n → seg_at w n = Some seg →
  match lin_commit search_fuel seg w with
  | (Ok _, w') => ∃ h, seg_head_location seg = Ok h ∧ get_head w' = Ok h ∧ ∀ old, get_head w = Ok old → anc w h old
  | (Err e, w') => e = HeadNotAncestor ∧ w' = w
      ∧ (∃ old, get_head w = Ok old ∧ ∀ q, q ∈ prior_list (seg_prior seg) → ¬ anc w q old)
      ∨ io_head w = Err e ∨ ∃ l w0, (io_commit l w0).1 = Err e
  | (Panic x, _) => io_head w = Panic x ∨ ∃ l w0, (io_commit l w0).1 = Panic x
  end.
Proof.
  intros Hinv%lin_reachable_inv Hb Hf HD Hs. destruct (inv_seg _ _ Hinv n HD) as [r Hr].
  pose proof Hs as Hs'. rewrite seg_at_lin, (lso_fetch _ _ _ _ Hr) in Hs'. injection Hs' as <-.
  destruct (lin_commit search_fuel _ w) as [res w'] eqn:E.
  eapply (lin_commit_spec D w search_fuel bound) in E as [_ E]; try done; cbn [lseg_repr]; rewrite ?(lso_offset _ _ _ _ Hr); done.
Qed.

Lemma linear_reachable_graph_ok_witness :
  graph_ok LinExample.D_merge LinExample.w_merge
  ∧ seg_skip_list LinExample.seg_merge = [(mkLocation 1 0, 0)].
Proof.
  split; [|reflexivity].
  exact (proj1 (linear_reachable_graph_ok LinExample.D_merge LinExample.w_merge LinExample.reach_merge)).
Defined.

Lemma linear_write_stores_perspective_witness :
  match lin_write LinExample.rand LinExample.p_merged LinExample.w_braid with
  | (Ok seg, w') =>
      get_segment w' (lseg_first_location seg) = Ok seg
      ∧ v1_list (sr_commands (lseg_repr seg)) = lp_commands LinExample.p_merged
      ∧ seg_prior seg = lp_prior LinExample.p_merged ∧ get_head w' = get_head LinExample.w_braid
  | _ => False
  end.
Proof.
  pose proof (linear_write_stores_perspective LinExample.D_right LinExample.w_right LinExample.w_braid LinExample.p_merge
    LinExample.p_merged LinExample.rand LinExample.reach_right LinExample.merge_opened (LinExample.edit_add _ _) eq_refl) as Hw.
  exact Hw.
Defined.

Lemma linear_commit_moves_head_forward_witness :
  match lin_commit 128 LinExample.seg_merge LinExample.w_merge with
  | (Ok _, w') => ∃ h, seg_head_location LinExample.seg_merge = Ok h ∧ get_head w' = Ok h
      ∧ ∀ old, get_head LinExample.w_merge = Ok old → anc LinExample.w_merge h old
  | _ => False
  end.
Proof.
  refine (linear_commit_moves_head_forward LinExample.D_merge LinExample.w_merge 7 128 6 LinExample.seg_merge LinExample.reach_merge _ _ _ _).
  - intros n [[[->| ->]| ->]| ->]; lia.
  - reflexivity.
  - by right.
  - reflexivity.
Defined.
