(* ===== verification/BraidTheorems.v ===== *)
(** Claims about the last common ancestor and the braid, at concrete graphs. *)
From S2P Require Import Prelude Collections RuntimeTypes FactStore MemFacts Graph MemStorage MemStorageFacts.
From S2P Require Import MemTheorems Client BraidProofs LinearFacts LinearStorage LinearStorageProofs LinearFile LinearReach.
From S2P Require Import LinearTheorems.
Local Open Scope string_scope.
Local Open Scope list_scope.
Local Open Scope nat_scope.

(** * Two replicas of one history

    The graph of [Example.st_right], and the same four commands received in
    another order and written as other segments. *)
Module Replica.
Import Example.
Definition st_r : MemStorage := Eval vm_compute in
  (mem_write (add (cmd Byte.x03 (PSingle (at_ Byte.x00 0))) (linear st_commit (mkLocation 0 0))) st_commit).2.
Definition st_rl : MemStorage := Eval vm_compute in
  (mem_write (add (cmd Byte.x01 (PSingle (at_ Byte.x00 0))) (linear st_r (mkLocation 0 0))) st_r).2.
Definition st : MemStorage := Eval vm_compute in
  (mem_write (add (cmd Byte.x02 (PSingle (at_ Byte.x01 1))) (linear st_rl (mkLocation 2 0))) st_rl).2.

(** Where each command is in the two storages. *)
Definition places : list (Location * Location) :=
  [(mkLocation 0 0, mkLocation 0 0); (mkLocation 1 0, mkLocation 2 0);
   (mkLocation 1 1, mkLocation 3 0); (mkLocation 2 0, mkLocation 1 0)].
Definition R (x y : Location) : Prop := (x, y) ∈ places.

Lemma reachable_commit : mem_reachable st_commit.
Proof.
  apply (rtc_l _ _ st_init).
  { refine (step_write _ p_init (mem_write p_init mem_storage_new).1 _ _ _); [|vm_compute; reflexivity].
    apply writable_add, w_insert, w_init. }
  apply rtc_once. refine (step_commit _ seg_init (Ok tt) _ _ _); [vm_compute; left|vm_compute; reflexivity].
Qed.

(** One more command on top of a location. *)
Lemma reachable_linear st0 st1 c l :
  mem_reachable st0 → (mem_write (add c (linear st0 l)) st0).2 = st1 → mem_reachable st1.
Proof.
  intros Hr E. eapply rtc_r; [exact Hr|].
  apply (step_write st0 (add c (linear st0 l)) (mem_write (add c (linear st0 l)) st0).1 st1).
  - apply writable_add, writable_linear.
  - rewrite <- E. apply surjective_pairing.
Qed.

Lemma reachable_right : mem_reachable st_right.
Proof.
  apply (reachable_linear st_left st_right (cmd Byte.x03 (PSingle (at_ Byte.x00 0))) (mkLocation 0 0) reachable_left).
  vm_compute. reflexivity.
Qed.

Lemma reachable_st : mem_reachable st.
Proof.
  apply (reachable_linear st_rl st (cmd Byte.x02 (PSingle (at_ Byte.x01 1))) (mkLocation 2 0)); [|vm_compute; reflexivity].
  apply (reachable_linear st_r st_rl (cmd Byte.x01 (PSingle (at_ Byte.x00 0))) (mkLocation 0 0)); [|vm_compute; reflexivity].
  apply (reachable_linear st_commit st_r (cmd Byte.x03 (PSingle (at_ Byte.x00 0))) (mkLocation 0 0)); [|vm_compute; reflexivity].
  exact reachable_commit.
Qed.

Lemma valid_in (st0 : MemStorage) l :
  (match st_segments st0 !! loc_segment l with
   | Some seg => match ms_get_command seg l with Some _ => true | None => false end
   | None => false
   end) = true → valid (present st0) st0 l.
Proof.
  destruct (st_segments st0 !! loc_segment l) as [seg|] eqn:Es; [|done].
  destruct (ms_get_mem_command seg l) as [cmd|] eqn:Ec; unfold ms_get_command; rewrite Ec; [|done]. intros _.
  exists (mc_max_cut cmd). by eapply ms_get_mem_command_at.
Qed.

Lemma present_bound (st0 : MemStorage) n : present st0 n → n < length (st_segments st0).
Proof. unfold present. rewrite seg_at_mem. apply lookup_lt_is_Some. Qed.

Lemma same : same_history (present st_right) (present st) st_right st R.
Proof.
  assert (∀ x y, R x y → (x, y) = (mkLocation 0 0, mkLocation 0 0) ∨ (x, y) = (mkLocation 1 0, mkLocation 2 0)
    ∨ (x, y) = (mkLocation 1 1, mkLocation 3 0) ∨ (x, y) = (mkLocation 2 0, mkLocation 1 0)) as Hcases.
  { unfold R, places. intros x y HR. repeat (apply elem_of_cons in HR as [HR|HR]; [tauto|]). by apply not_elem_of_nil in HR. }
  split.
  - intros x y HR. destruct (Hcases x y HR) as [[= -> ->]|[[= -> ->]|[[= -> ->]|[= -> ->]]]]; split; by apply valid_in.
  - intros x y HR. by destruct (Hcases x y HR) as [[= -> ->]|[[= -> ->]|[[= -> ->]|[= -> ->]]]].
  - intros x y HR. destruct (Hcases x y HR) as [[= -> ->]|[[= -> ->]|[[= -> ->]|[= -> ->]]]]; vm_compute; constructor;
      unfold R, places; set_solver.
  - intros x y x' y' HR HR' Hk.
    destruct (Hcases x y HR) as [[= -> ->]|[[= -> ->]|[[= -> ->]|[= -> ->]]]];
      destruct (Hcases x' y' HR') as [[= -> ->]|[[= -> ->]|[[= -> ->]|[= -> ->]]]]; try done; vm_compute in Hk; discriminate Hk.
Qed.

(** No ancestor in either direction, from the answers of [is_ancestor]. *)
Lemma not_anc (st0 : MemStorage) l x n seg :
  mem_ok st0 → n = loc_segment l → st_segments st0 !! n = Some seg → valid (present st0) st0 x → loc_segment x ≠ n →
  is_ancestor (search_fuel st0) st0 x seg = Some (Ok false) → ¬ anc st0 l x.
Proof.
  intros Hok -> Hs Hx Hne Hf Ha. destruct (mem_is_ancestor st0 seg _ x Hok Hs Hx) as (b & Hb & Hiff).
  rewrite Hf in Hb. injection Hb as <-.
  destruct (anc_inv st0 l x seg Ha) as [[? _]|Hp]; [by rewrite seg_at_mem|done|].
  assert (false = true) by by apply Hiff. done.
Qed.
End Replica.

(** * Claims *)

(** C2: the braid of two heads linearizes their histories: on a well-formed
    graph in which every merge joins commands that are not ancestors of each
    other, and for two heads that are not ancestors of each other either, with
    fuel bounded by the max cuts of the heads, [braid] returns [b :: rest], where [rest] holds exactly the commands of the two histories
    that are neither merges nor in the history of [b]; each command comes once
    and after every ancestor of it in the list. So evaluating [rest] on the
    facts at [b] evaluates every command once, after its ancestors. *)
Theorem braid_linearizes {St Seg} `{Storage St Seg} D (st : St) bound search_fuel fuel left right :
  graph_ok D st → (∀ n, D n → n < bound) → 2 ^ bound ≤ search_fuel →
  (∀ n seg l r, D n → seg_at st n = Some seg → seg_prior seg = PMerge l r → incomp st l r) →
  valid D st left → valid D st right → incomp st left right →
  braid_weight st [right; left] < fuel →
  ∃ b rest, braid fuel search_fuel st left right = Some (Ok (b :: rest))
    ∧ (anc st left b ∨ anc st right b)
    ∧ (∀ x, x ∈ rest ↔ (anc st left x ∨ anc st right x) ∧ ¬ anc st b x ∧ merge_at st x = false)
    ∧ NoDup (b :: rest)
    ∧ StronglySorted (λ x y, ¬ anc st x y) (b :: rest).
Proof.
  intros Hg Hb Hs Hm Hl Hr Hi Hf.
  destruct (braid_spec D st Hg bound search_fuel Hb Hs Hm fuel left right Hl Hr Hi Hf) as (b & rest & Hrun & Hb' & Hrest & Hsort).
  exists b, rest. split_and!; [done..| |done].
  clear -Hsort. induction Hsort as [|x l Hl IH HF]; constructor; [|done].
  intros Hin. apply (proj1 (Forall_forall _ _) HF x Hin), anc_refl.
Qed.

Lemma right_ok : mem_ok Example.st_right.
Proof. apply reachable_inv, Replica.reachable_right. Qed.

Lemma right_no_merge {A : Prop} n seg l r :
  seg_at Example.st_right n = Some seg → seg_prior seg = PMerge l r → A.
Proof. rewrite seg_at_mem. by destruct n as [|[|[|n]]]; intros [= <-]. Qed.

Lemma right_incomp : incomp Example.st_right (mkLocation 1 1) (mkLocation 2 0).
Proof.
  split; (eapply Replica.not_anc; [exact right_ok|reflexivity|reflexivity|by apply Replica.valid_in|done|vm_compute; reflexivity]).
Qed.

(** A file with two branches and their merge, and a command beside the merge. *)
Lemma fork_ok : graph_ok LinExample.D_fork LinExample.w_fork ∧ skips_ok LinExample.D_fork LinExample.w_fork.
Proof. pose proof (lin_reachable_inv _ _ LinExample.reach_fork) as Hinv. split; [by eapply lin_graph_ok|apply Hinv]. Qed.

Lemma braid_linearizes_witness :
  braid 100 256 LinExample.w_fork (mkLocation 6 0) (mkLocation 7 0)
    = Some (Ok [mkLocation 7 0; mkLocation 2 0; mkLocation 2 1])
  ∧ ∃ b rest, braid 100 256 LinExample.w_fork (mkLocation 6 0) (mkLocation 7 0) = Some (Ok (b :: rest))
    ∧ (anc LinExample.w_fork (mkLocation 6 0) b ∨ anc LinExample.w_fork (mkLocation 7 0) b)
    ∧ (∀ x, x ∈ rest ↔ (anc LinExample.w_fork (mkLocation 6 0) x ∨ anc LinExample.w_fork (mkLocation 7 0) x)
            ∧ ¬ anc LinExample.w_fork b x ∧ merge_at LinExample.w_fork x = false)
    ∧ NoDup (b :: rest)
    ∧ StronglySorted (λ x y, ¬ anc LinExample.w_fork x y) (b :: rest).
Proof.
  split; [vm_compute; reflexivity|].
  apply (braid_linearizes LinExample.D_fork LinExample.w_fork 8 256 100 (mkLocation 6 0) (mkLocation 7 0)).
  - apply fork_ok.
  - intros n [[[[->| ->]| ->]| ->]| ->]; lia.
  - vm_compute. lia.
  - exact LinExample.fork_merge.
  - apply (LinExample.lin_valid_at _ _ _ _ 3); [left; by right|do 2 eexists; split_and!; reflexivity].
  - apply (LinExample.lin_valid_at _ _ _ _ 2); [by right|do 2 eexists; split_and!; reflexivity].
  - exact LinExample.fork_incomp.
  - vm_compute. lia.
Defined.

(** The condition is needed: of two heads of which one is an ancestor of the
    other, the braid puts the ancestor after its descendant. *)
Example comparable_heads_misordered :
  anc LinExample.w_fork (mkLocation 7 0) (mkLocation 1 0)
  ∧ braid 100 256 LinExample.w_fork (mkLocation 7 0) (mkLocation 1 0) = Some (Ok [mkLocation 7 0; mkLocation 1 0]).
Proof.
  split; [|vm_compute; reflexivity].
  eapply (anc_prior LinExample.w_fork (mkLocation 7 0) (mkLocation 1 0) _ (mkLocation 4 0)); [vm_compute; reflexivity|left|].
  eapply (anc_prior LinExample.w_fork (mkLocation 4 0) (mkLocation 1 0) _ (mkLocation 1 0)); [vm_compute; reflexivity|left|].
  apply anc_refl.
Qed.

(** C1: replicas converge: two storages, of whatever implementation, that hold
    the same commands (same priority, id and parents; unique ids) compute the
    same braid, command by command, however the commands are split into
    segments and in whichever order the two heads are given. *)
Theorem braid_converges {St1 Seg1 St2 Seg2} `{Storage St1 Seg1} `{Storage St2 Seg2}
  D1 D2 (st1 : St1) (st2 : St2) R bound1 bound2 search1 search2 fuel l1 r1 l2 r2 :
  graph_ok D1 st1 → graph_ok D2 st2 → same_history D1 D2 st1 st2 R →
  (∀ n, D1 n → n < bound1) → (∀ n, D2 n → n < bound2) → 2 ^ bound1 ≤ search1 → 2 ^ bound2 ≤ search2 →
  (∀ n seg l r, D1 n → seg_at st1 n = Some seg → seg_prior seg = PMerge l r → incomp st1 l r) →
  incomp st1 l1 r1 → braid_weight st1 [r1; l1] < fuel →
  (R l1 l2 ∧ R r1 r2) ∨ (R l1 r2 ∧ R r1 l2) →
  ∃ res1 res2, braid fuel search1 st1 l1 r1 = Some (Ok res1) ∧ braid fuel search2 st2 l2 r2 = Some (Ok res2)
    ∧ Forall2 R res1 res2 ∧ map (key_at st1) res1 = map (key_at st2) res2.
Proof.
  intros Hg1 Hg2 Hh Hb1 Hb2 Hs1 Hs2 Hm Hi Hf HR.
  assert (valid D1 st1 l1 ∧ valid D1 st1 r1) as [Hl Hr].
  { destruct HR as [[HR1 HR2]|[HR1 HR2]]; apply (hist_valid _ _ _ _ _ Hh) in HR1, HR2; tauto. }
  destruct (braid_spec D1 st1 Hg1 bound1 search1 Hb1 Hs1 Hm fuel l1 r1 Hl Hr Hi Hf) as (b & rest & Hrun & _).
  pose proof (braid_sim D1 D2 st1 st2 Hg1 Hg2 R Hh bound1 bound2 search1 search2 Hb1 Hb2 Hs1 Hs2 fuel l1 r1 l2 r2 HR) as Hsim.
  rewrite Hrun in Hsim. destruct (braid fuel search2 st2 l2 r2) as [[res2|?|?]|]; try done.
  exists (b :: rest), res2. split_and!; [done..|]. clear -Hsim Hh.
  induction Hsim as [|x y xs ys Hxy _ IH]; [done|]. cbn [map]. f_equal; [by apply (hist_key _ _ _ _ _ Hh)|done].
Qed.

Lemma braid_converges_witness :
  (∃ res1 res2, braid 100 100 Example.st_right (mkLocation 1 1) (mkLocation 2 0) = Some (Ok res1)
    ∧ braid 100 100 Replica.st (mkLocation 1 0) (mkLocation 3 0) = Some (Ok res2)
    ∧ Forall2 Replica.R res1 res2 ∧ map (key_at Example.st_right) res1 = map (key_at Replica.st) res2)
  ∧ braid 100 100 Replica.st (mkLocation 1 0) (mkLocation 3 0) = Some (Ok [mkLocation 1 0; mkLocation 2 0; mkLocation 3 0]).
Proof.
  split; [|vm_compute; reflexivity].
  apply (braid_converges (present Example.st_right) (present Replica.st) Example.st_right Replica.st Replica.R 3 4 100 100 100
    (mkLocation 1 1) (mkLocation 2 0) (mkLocation 1 0) (mkLocation 3 0)).
  - apply mem_graph_ok, right_ok.
  - apply mem_graph_ok, reachable_inv, Replica.reachable_st.
  - exact Replica.same.
  - exact (Replica.present_bound Example.st_right).
  - exact (Replica.present_bound Replica.st).
  - vm_compute. lia.
  - vm_compute. lia.
  - intros n seg l r _. apply right_no_merge.
  - exact right_incomp.
  - vm_compute. lia.
  - right. unfold Replica.R, Replica.places. split; set_solver.
Defined.

(** C37: [last_common_ancestor] finds a point without branches around it: on a
    well-formed graph with one root and a skip at every merge, as the persistent
    storage writes them, it terminates, within the sum of the max cuts, and returns a command [d] with its max cut
    that is an ancestor of both locations (or one of them), such that every
    ancestor of either that is not later than [d] is an ancestor of [d]: from
    a merge of the two, jumping to [d] misses nothing before it. *)
Theorem last_common_ancestor_no_branch {St Seg} `{Storage St Seg} D (st : St) fuel left right cl cr :
  graph_ok D st → skips_ok D st → max_cut_at D st left cl → max_cut_at D st right cr → cl + cr < fuel →
  ∃ d c, last_common_ancestor fuel st left right = Some (Ok (d, c)) ∧ max_cut_at D st d c
    ∧ anc st left d ∧ anc st right d
    ∧ ∀ x cx, anc st left x ∨ anc st right x → max_cut_at D st x cx → cx ≤ c → anc st d x.
Proof.
  intros Hg Hs Hl Hr Hf.
  destruct (last_common_ancestor_spec D st Hg Hs fuel left right cl cr Hl Hr Hf) as (d & c & Hrun & (Hld & Hd & Hlx) & (Hrd & _ & Hrx)).
  exists d, c. split_and!; [done..|]. intros x cx [Ha|Ha]; eauto.
Qed.

Lemma last_common_ancestor_no_branch_witness :
  last_common_ancestor 10 LinExample.w_fork (mkLocation 6 0) (mkLocation 7 0) = Some (Ok (mkLocation 1 0, 0))
  ∧ ∃ d c, last_common_ancestor 10 LinExample.w_fork (mkLocation 6 0) (mkLocation 7 0) = Some (Ok (d, c))
    ∧ max_cut_at LinExample.D_fork LinExample.w_fork d c
    ∧ anc LinExample.w_fork (mkLocation 6 0) d ∧ anc LinExample.w_fork (mkLocation 7 0) d
    ∧ ∀ x cx, anc LinExample.w_fork (mkLocation 6 0) x ∨ anc LinExample.w_fork (mkLocation 7 0) x →
        max_cut_at LinExample.D_fork LinExample.w_fork x cx → cx ≤ c → anc LinExample.w_fork d x.
Proof.
  split; [vm_compute; reflexivity|].
  apply (last_common_ancestor_no_branch LinExample.D_fork LinExample.w_fork 10 (mkLocation 6 0) (mkLocation 7 0) 3 2).
  - apply fork_ok.
  - apply fork_ok.
  - split; [left; by right|do 2 eexists; split_and!; reflexivity].
  - split; [by right|do 2 eexists; split_and!; reflexivity].
  - lia.
Defined.
