(* ===== verification/RuntimeOps.v ===== *)
(** The interfaces through which the client drives the runtime: perspectives,
    the operations of a storage that change it, storage providers
    ([storage/mod.rs]), and sinks, policies and engines ([engine.rs]). Each is
    a class of operations; what an implementation promises is a second class. *)
From S2P Require Import Prelude Collections RuntimeTypes FactStore Graph Client.
Local Open Scope string_scope.
Local Open Scope list_scope.
Local Open Scope nat_scope.

(** * Perspectives ([Perspective] and [Revertable]) *)
Class PerspectiveOps (P : Type) `{QueryMut P} := {
  p_policy : P → PolicyId;
  p_add_command : Command → M P StorageError nat;
  p_includes : CommandId → P → bool;
  p_head_address : P → outcome Bug_ (Prior Address)
}.
Class RevertableOps (P : Type) := {
  p_checkpoint : P → nat;
  p_revert : nat → P → outcome Bug_ P
}.

(** * Storages

    The part of [Storage] that opens and writes perspectives; [FP] are its
    fact perspectives and [FI] its fact indices. The first argument of
    [st_commit] is the fuel of its search. *)
Class StorageOps (St Seg P FP FI : Type) `{Storage St Seg} := {
  seg_head : Seg → outcome StorageError Command;
  get_linear_perspective : St → Location → outcome StorageError (option P);
  get_fact_perspective : St → Location → outcome StorageError FP;
  new_merge_perspective : St → Location → Location → Location * nat → PolicyId → FI → outcome StorageError (option P);
  st_write : P → M St StorageError Seg;
  st_write_facts : FP → M St StorageError FI;
  st_commit : nat → Seg → M St StorageError unit
}.

(** Providers; [set_storage] stands for what is done through the reference
    that [get_storage] and [new_storage] return. *)
Class ProviderOps (Pr St P : Type) := {
  pr_new_perspective : PolicyId → P;
  pr_new_storage : P → M Pr StorageError (GraphId * St);
  pr_get_storage : GraphId → M Pr StorageError St;
  pr_set_storage : GraphId → St → Pr → Pr
}.

(** * Sinks, policies and engines *)
Class Sink (Sk Effect : Type) := {
  sink_begin : Sk → Sk;
  sink_consume : Effect → Sk → Sk;
  sink_rollback : Sk → Sk;
  sink_commit : Sk → Sk
}.

(** [NullSink]. *)
#[export] Instance null_sink {Effect} : Sink unit Effect :=
  {| sink_begin s := s; sink_consume _ s := s; sink_rollback s := s; sink_commit s := s |}.

Inductive CommandRecall : Type := RecallNone | RecallOnCheck.

(** A policy works on any facts ([call_rule]) and any perspective
    ([call_action]); [pol_merge] returns the merge command. *)
Class PolicyOps (Pol Action Effect : Type) := {
  pol_serial : Pol → nat;
  pol_call_rule : ∀ {F Sk} `{QueryMut F} `{Sink Sk Effect}, Pol → Command → CommandRecall → M (F * Sk) EngineError unit;
  pol_call_action : ∀ {P Sk} `{PerspectiveOps P} `{Sink Sk Effect}, Pol → Action → M (P * Sk) EngineError unit;
  pol_merge : Pol → MergeIds → outcome EngineError Command
}.

Class EngineOps (E Pol : Type) := {
  add_policy : list u8 → M E EngineError PolicyId;
  get_policy : PolicyId → E → outcome EngineError Pol
}.

(** ** What a policy can do to what it is given

    A policy has [&mut impl FactPerspective] or [&mut impl Perspective]: it can
    change it through the methods of the traits only. So it preserves every
    property that those methods preserve. *)
Class PolicyLaws (Pol Action Effect : Type) `{PolicyOps Pol Action Effect} : Prop := {
  call_rule_keeps {F Sk} `{QueryMut F} `{Sink Sk Effect} (I : F → Prop) pol c recall f sk res f' sk' :
    (∀ name keys v f, I f → I (q_insert name keys v f)) → (∀ name keys f, I f → I (q_delete name keys f)) →
    I f → pol_call_rule pol c recall (f, sk) = (res, (f', sk')) → I f';
  call_action_keeps {P Sk} `{PerspectiveOps P} `{Sink Sk Effect} (I : P → Prop) pol action p sk res p' sk' :
    (∀ name keys v p, I p → I (q_insert name keys v p)) → (∀ name keys p, I p → I (q_delete name keys p)) →
    (∀ c p res p', I p → p_add_command c p = (res, p') → I p') →
    I p → pol_call_action pol action (p, sk) = (res, (p', sk')) → I p'
}.
