(* ===== verification/VmPolicyIO.v ===== *)
(** The machine I/O the runtime gives to the VM ([vm_policy/io.rs]): facts go
    through their serialized keys to a fact perspective, effects to a sink,
    published commands to a stack, external calls to FFI modules. It is proved
    to behave as a map from fact keys to fact values. *)
From S2P Require Import Prelude Collections PolicyData PolicyModule VmScope Vm RuntimeTypes FactStore FactKeys MemFacts.
From S2P Require Import Graph Client RuntimeOps.
Local Open Scope string_scope.
Local Open Scope list_scope.
Local Open Scope nat_scope.

Record VmEffect := mkVmEffect {
  ve_name : string;
  ve_fields : list KVPair;
  ve_command : CommandId;
  ve_recalled : bool
}.

(** An FFI module: what [FfiCallable::call] does to the stack, to the engine
    and to the module itself; [E] is the state of the engine and the modules. *)
Definition FfiCallable (E : Type) : Type :=
  nat → MachineStack → CommandContext → E → outcome MachineError unit * MachineStack * E.

Section VmPolicyIO.
Context {P Sk E : Type} `{QueryMut P} `{!Sink Sk VmEffect}.
(** [postcard] on [Vec<FactValue>]. *)
Variable to_allocvec : list FactValue → option (list u8).
Variable from_bytes : list u8 → option (list FactValue).
Variable ffis : list (FfiCallable E).

Record VmPolicyIO := mkVmPolicyIO {
  vio_facts : P;
  vio_sink : Sk;
  vio_publish_stack : list (string * list KVPair);
  vio_engine : E
}.
Implicit Types io : VmPolicyIO.

Definition vio_new (facts : P) (sink : Sk) (engine : E) : VmPolicyIO :=
  mkVmPolicyIO facts sink [] engine.
Definition set_vio_facts (f : P) io : VmPolicyIO :=
  mkVmPolicyIO f (vio_sink io) (vio_publish_stack io) (vio_engine io).

Definition ser_values (value : list FactValue) : outcome MachineIOError (list u8) :=
  ok_or (to_allocvec value) Internal.
Definition deser_values (value : list u8) : outcome MachineIOError (list FactValue) :=
  ok_or (from_bytes value) Internal.

Definition vio_fact_insert (name : string) (key : FactKeyList) (value : FactValueList) io
  : outcome MachineIOError unit * VmPolicyIO :=
  let keys := ser_keys key in
  match ser_values value with
  | Ok value => (Ok tt, set_vio_facts (q_insert name keys value (vio_facts io)) io)
  | Err e => (Err e, io)
  | Panic w => (Panic w, io)
  end.

Definition vio_fact_delete (name : string) (key : FactKeyList) io : outcome MachineIOError unit * VmPolicyIO :=
  (Ok tt, set_vio_facts (q_delete name (ser_keys key) (vio_facts io)) io).

(** [VmFactCursor::next] on one item. *)
Definition cursor_item (b : outcome StorageError StoredFact) : QueryItem :=
  b ← map_err (λ _, Internal) b;
  k ← map_err (λ _, Internal) (deser_keys (sf_key b));
  v ← deser_values (sf_value b);
  Ok (k, v).
Definition vio_fact_query (name : string) (key : FactKeyList) io : outcome MachineIOError QueryIterator :=
  iter ← map_err (λ _, Internal) (query_prefix (vio_facts io) name (ser_keys key));
  Ok (map cursor_item iter).

Definition vio_publish (name : string) (fields : list KVPair) io : VmPolicyIO :=
  mkVmPolicyIO (vio_facts io) (vio_sink io) (vec_push (name, fields) (vio_publish_stack io)) (vio_engine io).
Definition vio_effect (name : string) (fields : list KVPair) (command : Id) (recalled : bool) io : VmPolicyIO :=
  mkVmPolicyIO (vio_facts io) (sink_consume (mkVmEffect name fields command recalled) (vio_sink io))
    (vio_publish_stack io) (vio_engine io).
Definition vio_call (module procedure : nat) (ctx : CommandContext) (st : MachineStack) io
  : outcome MachineError unit * MachineStack * VmPolicyIO :=
  match ffis !! module with
  | None => (Err (machine_error_new (FfiModuleNotDefined module)), st, io)
  | Some ffi =>
      let '(r, st, eng) := ffi procedure st ctx (vio_engine io) in
      (r, st, mkVmPolicyIO (vio_facts io) (vio_sink io) (vio_publish_stack io) eng)
  end.

Definition vio_machine_io : MachineIO VmPolicyIO := {|
  io_fact_insert := vio_fact_insert;
  io_fact_delete := vio_fact_delete;
  io_fact_query := vio_fact_query;
  io_publish := vio_publish;
  io_effect := vio_effect;
  io_call := vio_call
|}.

(** * Refinement of a map of facts *)
Definition FactMapOf : Type := string → list FactKey → option (list FactValue).
Definition fact_map_set (name : string) (key : list FactKey) (v : option (list FactValue)) (m : FactMapOf) : FactMapOf :=
  λ n k, if decide (n = name ∧ k = key) then v else m n k.

Context (wf : P → Prop) (view : P → FactView) `{!QueryMutLaws P wf view}.
Hypothesis postcard_roundtrip : ∀ v b, to_allocvec v = Some b → from_bytes b = Some v.

(** [io] holds the facts of [m]: what is stored is the encoding of [m]. *)
Record represents io (m : FactMapOf) : Prop := mk_represents {
  rep_wf : wf (vio_facts io);
  rep_keys n k v : m n k = Some v → Forall fact_key_ok k ∧ ∃ b, to_allocvec v = Some b ∧ view (vio_facts io) n (ser_keys k) = Some b;
  rep_stored n ks b : view (vio_facts io) n ks = Some b → ∃ k v, Forall fact_key_ok k ∧ ks = ser_keys k ∧ m n k = Some v
}.

Lemma ser_keys_inj k1 k2 : Forall fact_key_ok k1 → Forall fact_key_ok k2 → ser_keys k1 = ser_keys k2 → k1 = k2.
Proof. intros H1%deser_ser_keys H2%deser_ser_keys Heq. rewrite Heq in H1. congruence. Qed.

Lemma represents_insert io m name key value io' :
  represents io m → Forall fact_key_ok key →
  vio_fact_insert name key value io = (Ok tt, io') →
  represents io' (fact_map_set name key (Some value) m).
Proof.
  intros Hr Hk. unfold vio_fact_insert, ser_values. destruct (to_allocvec value) as [b|] eqn:Eb; [|done].
  intros [= <-]. pose proof (rep_wf _ _ Hr) as Hwf. unfold fact_map_set. split; simpl.
  - by apply insert_wf.
  - intros n k v. rewrite insert_view by done. unfold view_insert.
    destruct (decide (n = name ∧ k = key)) as [Hd|Hd].
    + destruct Hd as [-> ->]. intros [= <-]. split; [done|]. exists b. by rewrite decide_True.
    + intros Hm. destruct (rep_keys _ _ Hr _ _ _ Hm) as (Hok & b' & Hb' & Hv). split; [done|]. exists b'.
      rewrite decide_False; [done|]. intros [-> Heq]. apply Hd. split; [done|]. by apply ser_keys_inj.
  - intros n ks b'. rewrite insert_view by done. unfold view_insert.
    destruct (decide (n = name ∧ ks = ser_keys key)) as [Hd|Hd].
    + destruct Hd as [-> ->]. intros _. exists key, value. by rewrite decide_True.
    + intros Hv. destruct (rep_stored _ _ Hr _ _ _ Hv) as (k & v & Hok & -> & Hm). exists k, v.
      rewrite decide_False; [done|]. naive_solver.
Qed.

Lemma represents_delete io m name key io' r :
  represents io m → Forall fact_key_ok key →
  vio_fact_delete name key io = (r, io') →
  r = Ok tt ∧ represents io' (fact_map_set name key None m).
Proof.
  intros Hr Hk [= <- <-]. split; [done|]. pose proof (rep_wf _ _ Hr) as Hwf. unfold fact_map_set. split; simpl.
  - by apply delete_wf.
  - intros n k v. rewrite delete_view by done. unfold view_insert.
    destruct (decide (n = name ∧ k = key)) as [Hd|Hd]; [done|].
    intros Hm. destruct (rep_keys _ _ Hr _ _ _ Hm) as (Hok & b' & Hb' & Hv). split; [done|]. exists b'.
    rewrite decide_False; [done|]. intros [-> Heq]. apply Hd. split; [done|]. by apply ser_keys_inj.
  - intros n ks b'. rewrite delete_view by done. unfold view_insert.
    destruct (decide (n = name ∧ ks = ser_keys key)) as [Hd|Hd]; [done|].
    intros Hv. destruct (rep_stored _ _ Hr _ _ _ Hv) as (k & v & Hok & -> & Hm). exists k, v.
    rewrite decide_False; [done|]. naive_solver.
Qed.

Lemma cursor_item_ok io m name f :
  represents io m → view (vio_facts io) name (sf_key f) = Some (sf_value f) →
  ∃ k v, cursor_item (Ok f) = Ok (k, v) ∧ sf_key f = ser_keys k ∧ Forall fact_key_ok k ∧ m name k = Some v.
Proof.
  intros Hr Hv. destruct (rep_stored _ _ Hr _ _ _ Hv) as (k & v & Hok & Hks & Hm).
  destruct (rep_keys _ _ Hr _ _ _ Hm) as (_ & b & Hb & Hv'). rewrite Hks in Hv. rewrite Hv in Hv'. simplify_eq.
  exists k, v. split_and!; try done. unfold cursor_item. simpl. rewrite Hks, deser_ser_keys by done. simpl.
  unfold deser_values. by rewrite (postcard_roundtrip v (sf_value f)).
Qed.

Lemma represents_query io m name prefix :
  represents io m → Forall fact_key_ok prefix →
  ∃ l, vio_fact_query name prefix io = Ok (map Ok l)
    ∧ ∀ k v, (k, v) ∈ l ↔ m name k = Some v ∧ starts_with prefix k = true.
Proof.
  intros Hr Hp. destruct (query_prefix_view (vio_facts io) name (ser_keys prefix) (rep_wf _ _ Hr)) as (fs & Hq & _ & Hin).
  assert (Forall (λ f, view (vio_facts io) name (sf_key f) = Some (sf_value f)) fs) as HF.
  { apply Forall_forall. intros [k v] Hf. apply Hin in Hf as [Hf _]. done. }
  assert (∃ l, map cursor_item (map Ok fs) = map Ok l
    ∧ ∀ k v, (k, v) ∈ l ↔ ∃ f, f ∈ fs ∧ cursor_item (Ok f) = Ok (k, v)) as (l & Hl & Hel).
  { clear Hq Hin. induction HF as [|f fs Hf _ (l & Hl & Hel)].
    - exists []. split; [done|]. set_solver.
    - destruct (cursor_item_ok _ _ _ _ Hr Hf) as (k & v & Hc & _). exists ((k, v) :: l).
      split; [cbn [map]; by rewrite Hc, Hl|]. intros k' v'. rewrite elem_of_cons, Hel.
      setoid_rewrite elem_of_cons. split.
      + intros [[= -> ->]|(f' & ? & ?)]; eauto.
      + intros (f' & [->|?] & Hc'); [left; congruence|right; eauto]. }
  exists l. unfold vio_fact_query. rewrite Hq. cbn [map_err mbind outcome_bind]. split; [by rewrite Hl|].
  intros k v. rewrite Hel. split.
  - intros ([ks b] & Hf & Hc). apply Hin in Hf as [Hv Hs].
    destruct (cursor_item_ok io m name (mkStoredFact ks b) Hr Hv) as (k' & v' & Hc' & Hks & Hok & Hm).
    rewrite Hc in Hc'. simplify_eq/=. split; [done|]. by rewrite <- starts_with_ser_keys.
  - intros [Hm Hs]. destruct (rep_keys _ _ Hr _ _ _ Hm) as (Hok & b & Hb & Hv).
    exists (mkStoredFact (ser_keys k) b). split; [apply Hin; split; [done|by rewrite starts_with_ser_keys]|].
    destruct (cursor_item_ok io m name (mkStoredFact (ser_keys k) b) Hr Hv) as (k' & v' & Hc' & Hks & Hok' & Hm').
    apply ser_keys_inj in Hks; [|done..]. subst k'. congruence.
Qed.
End VmPolicyIO.

(** * Claims *)

(** C40: the I/O of the runtime is a map from fact keys to fact values, over any
    fact store and any value serializer that reads back what it wrote:
    [Create] sets exactly the one fact (or fails without effect when the
    values cannot be serialized), [Delete] removes exactly the one fact and
    never fails, and a query yields, without errors, exactly the facts whose
    keys start with the given keys, with the keys and values that were
    created. *)
Theorem vm_policy_io_refines_fact_map {P Sk E} `{QueryMut P} `{!Sink Sk VmEffect} to_allocvec from_bytes (wf : P → Prop) view
    `{!QueryMutLaws P wf view} (io : VmPolicyIO (P := P) (Sk := Sk) (E := E)) m name key value :
  (∀ v b, to_allocvec v = Some b → from_bytes b = Some v) →
  represents to_allocvec wf view io m → Forall fact_key_ok key →
  match vio_fact_insert to_allocvec name key value io with
  | (Ok _, io') => represents to_allocvec wf view io' (fact_map_set name key (Some value) m)
  | (Err e, io') => e = Internal ∧ io' = io ∧ to_allocvec value = None
  | (Panic _, _) => False
  end
  ∧ (∃ io', vio_fact_delete name key io = (Ok tt, io')
       ∧ represents to_allocvec wf view io' (fact_map_set name key None m))
  ∧ ∃ l, vio_fact_query from_bytes name key io = Ok (map Ok l)
      ∧ ∀ k v, (k, v) ∈ l ↔ m name k = Some v ∧ starts_with key k = true.
Proof.
  intros Hpc Hr Hk. split_and!.
  - destruct (vio_fact_insert to_allocvec name key value io) as [[[]|e|w] io'] eqn:Ei.
    + by eapply represents_insert.
    + unfold vio_fact_insert, ser_values in Ei. destruct (to_allocvec value); simplify_eq/=. done.
    + unfold vio_fact_insert, ser_values in Ei. by destruct (to_allocvec value).
  - eexists. split; [done|]. by eapply (represents_delete to_allocvec wf view io m name key).
  - by apply (represents_query to_allocvec from_bytes wf view).
Qed.

(** A serializer for lists with at most one boolean value. *)
Definition bool_ser (l : list FactValue) : option (list u8) :=
  match l with
  | [] => Some []
  | [v] => match fv_value v with
           | VBool true => Some (Byte.x01 :: as_bytes (fv_identifier v))
           | VBool false => Some (Byte.x00 :: as_bytes (fv_identifier v))
           | _ => None
           end
  | _ => None
  end.
Definition bool_deser (b : list u8) : option (list FactValue) :=
  match b with
  | [] => Some []
  | Byte.x01 :: n => Some [mkFactValue (String.string_of_list_byte n) (VBool true)]
  | Byte.x00 :: n => Some [mkFactValue (String.string_of_list_byte n) (VBool false)]
  | _ => None
  end.

Lemma bool_roundtrip v b : bool_ser v = Some b → bool_deser b = Some v.
Proof.
  destruct v as [|[n v] [|]]; simpl; [by intros [= <-]| |done].
  destruct v as [|[]| | | | | | |]; try done; intros [= <-]; simpl; unfold as_bytes;
    by rewrite String.string_of_list_byte_of_string.
Qed.

Definition empty_io : VmPolicyIO (P := MemFactPerspective) (Sk := unit) (E := unit) := vio_new (mfp_new FPNone) tt tt.
Definition a_key : list FactKey := [mkFactKey "k" (HInt 7)].
Definition a_value : list FactValue := [mkFactValue "v" (VBool true)].

Lemma vm_policy_io_refines_fact_map_witness :
  represents bool_ser mfp_wf mfp_view (vio_fact_insert bool_ser "F" a_key a_value empty_io).2
    (fact_map_set "F" a_key (Some a_value) (λ _ _, None)).
Proof.
  apply (vm_policy_io_refines_fact_map bool_ser bool_deser mfp_wf mfp_view empty_io (λ _ _, None) "F" a_key a_value).
  - exact bool_roundtrip.
  - split; [split; [apply named_wf_nil|done]|done|done].
  - repeat constructor; vm_compute; reflexivity.
Defined.
