(* ===== verification/VmPolicy.v ===== *)
(** The policy that evaluates commands with the VM ([vm_policy.rs]) and the
    commands it makes ([vm_policy/protocol.rs]). *)
From S2P Require Import Prelude Collections PolicyData PolicyModule VmScope Vm RuntimeTypes FactStore.
From S2P Require Import Graph Client RuntimeOps VmPolicyIO.
Local Open Scope string_scope.
Local Open Scope list_scope.
Local Open Scope nat_scope.

(** * Commands ([protocol.rs]) *)
Inductive VmProtocolData : Type :=
| PDInit (policy : list u8) (author_id : Id) (kind : string) (serialized_fields signature : list u8)
| PDMerge (l r : Address)
| PDBasic (parent : Address) (author_id : Id) (kind : string) (serialized_fields signature : list u8).

Record VmProtocol := mkVmProtocol {
  vp_data : list u8;
  vp_id : CommandId;
  vp_unpacked : VmProtocolData;
  vp_priorities : BTreeMap string nat
}.
Definition protocol_priority (p : VmProtocol) : Priority :=
  match vp_unpacked p with
  | PDInit _ _ _ _ _ => PrioInit
  | PDMerge _ _ => PrioMerge
  | PDBasic _ _ kind _ _ => PrioBasic (default 0 (bt_get kind (vp_priorities p)))
  end.
Definition protocol_parent (p : VmProtocol) : Prior Address :=
  match vp_unpacked p with
  | PDInit _ _ _ _ _ => PNone
  | PDMerge l r => PMerge l r
  | PDBasic parent _ _ _ _ => PSingle parent
  end.
(** The max cut is the one that the trait provides. *)
Definition protocol_command (p : VmProtocol) : Command :=
  mkCommand (protocol_priority p) (vp_id p) (protocol_parent p)
    (match vp_unpacked p with PDInit policy _ _ _ _ => Some policy | _ => None end)
    (vp_data p) (max_cut_of_parent (protocol_parent p)).

(** ** Envelopes *)
Record Envelope := mkEnvelope {
  env_parent_id : CommandId;
  env_author_id : Id;
  env_command_id : CommandId;
  env_payload : list u8;
  env_signature : list u8
}.
Inductive EnvelopeError : Type :=
| EnvInvalidName (name : string)
| EnvMissingField (key : string)
| EnvInvalidType (key : string).

Definition envelope_struct (e : Envelope) : Struct :=
  struct_new "Envelope"
    [mkKVPair "parent_id" (VId (env_parent_id e)); mkKVPair "author_id" (VId (env_author_id e));
     mkKVPair "command_id" (VId (env_command_id e)); mkKVPair "payload" (VBytes (env_payload e));
     mkKVPair "signature" (VBytes (env_signature e))].
(** [get] removes the field. *)
Definition envelope_get {T} (conv : Value → outcome ValueConversionError T) (key : string) (fields : BTreeMap string Value)
  : outcome EnvelopeError (T * BTreeMap string Value) :=
  match bt_get key fields with
  | None => Err (EnvMissingField key)
  | Some v => x ← map_err (λ _, EnvInvalidType key) (conv v); Ok (x, bt_remove key fields)
  end.
Definition envelope_try_from (s : Struct) : outcome EnvelopeError Envelope :=
  if negb (bool_decide (s_name s = "Envelope")) then Err (EnvInvalidName (s_name s))
  else
    '(parent_id, fields) ← envelope_get id_from_value "parent_id" (s_fields s);
    '(author_id, fields) ← envelope_get id_from_value "author_id" fields;
    '(command_id, fields) ← envelope_get id_from_value "command_id" fields;
    '(payload, fields) ← envelope_get try_from_value "payload" fields;
    '(signature, _) ← envelope_get try_from_value "signature" fields;
    Ok (mkEnvelope parent_id author_id command_id payload signature).

(** * The policy

    [postcard] and the hash that names merges are parameters. *)
Class PolicyCodec := {
  ser_struct : Struct → option (list u8);
  deser_struct : list u8 → option Struct;
  ser_facts : list FactValue → option (list u8);
  deser_facts : list u8 → option (list FactValue);
  ser_protocol : VmProtocolData → option (list u8);
  deser_protocol : list u8 → option VmProtocolData;
  hash_for_testing_only : list u8 → CommandId
}.
Inductive VmPolicyError : Type := VPDeserialization | VPEngineError (e : EngineError) | VPStorageError (e : StorageError) | VPUnknown.

(** [CommandId::default] and [Address::default]. *)
Definition id_default : Id := repeat Byte.x00 64.
Definition address_default : Address := mkAddress id_default 0.

Section VmPolicy.
Context `{!PolicyCodec} {E : Type}.
(** How many instructions the VM may run. *)
Context (fuel : nat).

(** The engine is behind a mutex: it is passed and returned. *)
Record VmPolicy := mkVmPolicy {
  vm_machine : Machine;
  vm_ffis : list (FfiCallable E);
  vm_priority_map : BTreeMap string nat
}.
Implicit Types (pol : VmPolicy).

(** [try_into::<u32>]. *)
Definition u32_try_from (z : Z) : option nat :=
  if (0 <=? z)%Z && (z <? 2 ^ 32)%Z then Some (Z.to_nat z) else None.
Fixpoint command_priorities (attrs : list (string * BTreeMap string Value)) (acc : BTreeMap string nat)
  : outcome VmPolicyError (BTreeMap string nat) :=
  match attrs with
  | [] => Ok acc
  | (name, attrs) :: rest =>
      match bt_get "priority" attrs with
      | Some (VInt p) =>
          pv ← ok_or (u32_try_from p) VPUnknown;
          command_priorities rest (bt_insert name pv acc)
      | _ => command_priorities rest acc
      end
  end.
Definition get_command_priorities (machine : Machine) : outcome VmPolicyError (BTreeMap string nat) :=
  command_priorities (command_attributes machine) [].
Definition vm_policy_new (machine : Machine) (ffis : list (FfiCallable E)) : outcome VmPolicyError VmPolicy :=
  priority_map ← get_command_priorities machine;
  Ok (mkVmPolicy machine ffis priority_map).

(** ** Running the VM on a perspective and a sink *)
Section Facts.
Context {F Sk : Type} `{QueryMut F} `{!Sink Sk VmEffect}.
Abbreviation IO := (VmPolicyIO (P := F) (Sk := Sk) (E := E)).
Definition policy_io pol : MachineIO IO := vio_machine_io ser_facts deser_facts (vm_ffis pol).
(** What is left of the machine when a method returns. *)
Definition io_state (rs : RunState IO) : F * Sk * E := (vio_facts (rs_io rs), vio_sink (rs_io rs), vio_engine (rs_io rs)).
Definition no_fuel {A} : outcome EngineError A := Panic "policy does not end".

Definition recall_internal pol (recall : CommandRecall) (name : string) (self_data : Struct) (envelope : Envelope) (rs : RunState IO)
  : outcome EngineError unit * RunState IO :=
  match recall with
  | RecallNone => (Err EECheck, rs)
  | RecallOnCheck =>
      let '(res, rs) := @call_command_recall _ (policy_io pol) (vm_machine pol) ser_struct deser_struct fuel name self_data
                          (envelope_struct envelope) rs in
      (match res with
       | Ok (Some ExitNormal) | Ok (Some ExitCheck) => Err EECheck
       | Ok (Some ExitPanic) | Err _ => Err EEPanic
       | Ok None => no_fuel
       | Panic x => Panic x
       end, rs)
  end.

Definition evaluate_rule pol (name : string) (fields : list KVPair) (envelope : Envelope) (ctx : CommandContext) (recall : CommandRecall)
  : M (F * Sk * E) EngineError unit := λ '(facts, sink, eng),
  let rs := run_state_new (vm_machine pol) (vio_new facts sink eng) ctx in
  let self_data := struct_new name fields in
  let '(res, rs) := @call_command_policy _ (policy_io pol) (vm_machine pol) ser_struct deser_struct fuel (s_name self_data) self_data
                      (envelope_struct envelope) rs in
  let '(res, rs) :=
    match res with
    | Ok (Some ExitNormal) => (Ok tt, rs)
    | Ok (Some ExitCheck) =>
        match ctx with
        | CtxPolicy policy_ctx => recall_internal pol recall name self_data envelope (set_context (CtxRecall policy_ctx) rs)
        | _ => (Err EEInternalError, rs)
        end
    | Ok (Some ExitPanic) => (Err EEPanic, rs)
    | Ok None => (no_fuel, rs)
    | Err _ => (Err EEInternalError, rs)
    | Panic x => (Panic x, rs)
    end in
  (res, io_state rs).
End Facts.

(** [open] and [seal] run with a [NullSink]. *)
Section Sealing.
Context {F : Type} `{QueryMut F}.
Abbreviation IO := (VmPolicyIO (P := F) (Sk := unit) (E := E)).
Definition facts_engine (rs : RunState IO) : F * E := (vio_facts (rs_io rs), vio_engine (rs_io rs)).

(** [consume_return] as a struct. *)
Definition return_struct pol (rs : RunState IO) : outcome EngineError Struct * RunState IO :=
  let '(res, rs) := consume_return (vm_machine pol) rs in
  (v ← map_err (λ _, EEInternalError) res;
   map_err (λ _, EEInternalError) (try_from_value v), rs).

Definition open_command pol (name : string) (envelope : Envelope) : M (F * E) EngineError Struct := λ '(facts, eng),
  let rs := run_state_new (vm_machine pol) (vio_new facts tt eng) (CtxOpen (mkOpenContext name)) in
  let '(res, rs) := @call_open _ (policy_io pol) (vm_machine pol) ser_struct deser_struct fuel name (envelope_struct envelope) rs in
  let '(res, rs) :=
    match res with
    | Ok (Some ExitNormal) => return_struct pol rs
    | Ok (Some ExitCheck) | Ok (Some ExitPanic) => (Err EECheck, rs)
    | Ok None => (no_fuel, rs)
    | Err _ => (Err EEInternalError, rs)
    | Panic x => (Panic x, rs)
    end in
  (res, facts_engine rs).

Definition seal_command pol (name : string) (fields : list KVPair) (ctx_parent : CommandId) : M (F * E) EngineError Envelope := λ '(facts, eng),
  let rs := run_state_new (vm_machine pol) (vio_new facts tt eng) (CtxSeal (mkSealContext name ctx_parent)) in
  let '(res, rs) := @call_seal _ (policy_io pol) (vm_machine pol) ser_struct deser_struct fuel name (struct_new name fields) rs in
  let '(res, rs) :=
    match res with
    | Ok (Some ExitNormal) => return_struct pol rs
    | Ok (Some ExitCheck) => (Err EECheck, rs)
    | Ok (Some ExitPanic) => (Err EEPanic, rs)
    | Ok None => (no_fuel, rs)
    | Err _ => (Err EEInternalError, rs)
    | Panic x => (Panic x, rs)
    end in
  (strukt ← res; map_err (λ _, EEInternalError) (envelope_try_from strukt), facts_engine rs).
End Sealing.

(** ** [Policy for VmPolicy] *)
Definition vm_serial (_ : VmPolicy) : nat := 0.

(** A method that does not use the sink. *)
Definition without_sink {F Sk A} (m : M (F * E) EngineError A) : M (F * Sk * E) EngineError A := λ '(f, sk, eng),
  let '(res, (f, eng)) := m (f, eng) in (res, (f, sk, eng)).

(** [Init] and [Basic] commands are opened and evaluated. *)
Definition eval_command {F Sk} `{QueryMut F} `{!Sink Sk VmEffect} pol (command : Command) (recall : CommandRecall)
    (kind : string) (author_id : Id) (envelope : Envelope) : M (F * Sk * E) EngineError unit :=
  command_struct ← without_sink (open_command pol kind envelope);
  evaluate_rule pol kind (struct_to_kvpairs command_struct).2 envelope
    (CtxPolicy (mkPolicyContext kind (cmd_id command) author_id id_default)) recall.
Definition vm_call_rule {F Sk} `{QueryMut F} `{!Sink Sk VmEffect} pol (command : Command) (recall : CommandRecall)
  : M (F * Sk * E) EngineError unit :=
  match deser_protocol (cmd_bytes command) with
  | None => throw EERead
  | Some (PDInit _ author_id kind serialized_fields signature) =>
      eval_command pol command recall kind author_id
        (mkEnvelope id_default author_id (cmd_id command) serialized_fields signature)
  | Some (PDBasic parent author_id kind serialized_fields signature) =>
      eval_command pol command recall kind author_id
        (mkEnvelope (ad_id parent) author_id (cmd_id command) serialized_fields signature)
  | Some (PDMerge _ _) => mret tt
  end.

Record VmAction := mkVmAction { va_name : string; va_args : list Value }.

Section Action.
Context {P Sk : Type} `{PerspectiveOps P} `{!Sink Sk VmEffect}.

Definition append_command (command : Command) : M (P * Sk * E) EngineError unit := λ '(p, sk, eng),
  let '(res, p) := p_add_command command p in
  (_ ← map_err (λ _, EEWrite) res; Ok tt, (p, sk, eng)).
(** The loop over what the action published. *)
Definition publish_command pol (parent : option Address) (name : string) (fields : list KVPair) : M (P * Sk * E) EngineError unit :=
  envelope ← without_sink (seal_command pol name fields (ad_id (default address_default parent)));
  let data := match parent with
              | None => PDInit (repeat Byte.x00 8) (env_author_id envelope) name (env_payload envelope) (env_signature envelope)
              | Some parent => PDBasic parent (env_author_id envelope) name (env_payload envelope) (env_signature envelope)
              end in
  wrapped ← lift (ok_or (ser_protocol data) EERead);
  let new_command := protocol_command (mkVmProtocol wrapped (env_command_id envelope) data (vm_priority_map pol)) in
  vm_call_rule pol new_command RecallNone ≫= λ _,
  append_command new_command.
Fixpoint publish_commands pol (parent : option Address) (publish_stack : list (string * list KVPair)) : M (P * Sk * E) EngineError unit :=
  match publish_stack with
  | [] => mret tt
  | (name, fields) :: rest => publish_command pol parent name fields ≫= λ _, publish_commands pol parent rest
  end.

(** Run the action: what it published. *)
Definition run_action pol (act : VmAction) (head_id : Id) : M (P * Sk * E) EngineError (list (string * list KVPair)) := λ '(p, sk, eng),
  let rs := run_state_new (vm_machine pol) (vio_new p sk eng) (CtxAction (mkActionContext (va_name act) head_id)) in
  let '(res, rs) := @call_action _ (policy_io pol) (vm_machine pol) ser_struct deser_struct fuel (va_name act) (va_args act) rs in
  (match res with
   | Ok (Some ExitNormal) => Ok (vio_publish_stack (rs_io rs))
   | Ok (Some ExitCheck) => Err EECheck
   | Ok (Some ExitPanic) => Err EEPanic
   | Ok None => no_fuel
   | Err _ => Err EEInternalError
   | Panic x => Panic x
   end, io_state rs).
Definition vm_call_action pol (act : VmAction) : M (P * Sk * E) EngineError unit := λ s,
  match map_err EEBug (p_head_address s.1.1) with
  | Ok (PMerge _ _) => (Err (EEBug (BugMsg "cannot have a merge parent in call_action")), s)
  | Ok PNone =>
      (publish_stack ← run_action pol act (ad_id address_default); publish_commands pol None publish_stack) s
  | Ok (PSingle parent) =>
      (publish_stack ← run_action pol act (ad_id parent); publish_commands pol (Some parent) publish_stack) s
  | Err e => (Err e, s)
  | Panic x => (Panic x, s)
  end.
End Action.

(** [target] is the length of the buffer. *)
Definition vm_merge pol (target : nat) (ids : MergeIds) : outcome EngineError Command :=
  let c := PDMerge (mi_left ids) (mi_right ids) in
  match ser_protocol c with
  | Some data =>
      if length data <=? target
      then Ok (protocol_command (mkVmProtocol data (hash_for_testing_only data) c (vm_priority_map pol)))
      else Err EEWrite
  | None => Err EEWrite
  end.
End VmPolicy.
Arguments VmPolicy E : clear implicits.
