(* ===== verification/VmPolicyProofs.v ===== *)
(** The VM policy keeps the law that the client relies on: it changes facts,
    perspectives and sinks through the methods of their traits only. *)
From S2P Require Import Prelude Collections PolicyData PolicyModule VmScope Vm VmInvariant VmCalls RuntimeTypes.
From S2P Require Import FactStore Graph Client RuntimeOps VmPolicyIO VmPolicy.
Local Open Scope string_scope.
Local Open Scope list_scope.
Local Open Scope nat_scope.

(** * Envelopes *)
Lemma envelope_roundtrip e : envelope_try_from (envelope_struct e) = Ok e.
Proof. by destruct e. Qed.

(** * What a run of the VM can do *)
Section Keeps.
Context `{!PolicyCodec} {E : Type} (fuel : nat).
Implicit Types (pol : VmPolicy E).

Section Facts.
Context {F Sk : Type} `{QueryMut F} `{!Sink Sk VmEffect}.
Variables (I : F → Prop) (J : Sk → Prop).
Hypothesis Hins : ∀ name keys v f, I f → I (q_insert name keys v f).
Hypothesis Hdel : ∀ name keys f, I f → I (q_delete name keys f).
Hypothesis Hcons : ∀ e sk, J sk → J (sink_consume e sk).
Abbreviation IO := (VmPolicyIO (P := F) (Sk := Sk) (E := E)).

Definition kept_io (io : IO) : Prop := I (vio_facts io) ∧ J (vio_sink io).
Definition kept_state (s : F * Sk * E) : Prop := I s.1.1 ∧ J s.1.2.

Lemma io_steps_keep pol io io' : rtc (@io_step IO (policy_io pol)) io io' → kept_io io → kept_io io'.
Proof.
  induction 1 as [io|io io1 io2 Hstep _ IH]; [done|]. intros Hk. apply IH. clear IH. destruct Hk as [Hf Hs].
  destruct Hstep as [name k v io|name k io|name fields io|name fields id b io|m p ctx st io]; simpl.
  - unfold vio_fact_insert. destruct (ser_values _ _); simpl; split; simpl; auto.
  - split; simpl; auto.
  - by split.
  - split; simpl; auto.
  - unfold vio_call. destruct (vm_ffis pol !! m) as [ffi|]; simpl; [|done]. by destruct (ffi _ _ _ _) as [[? ?] ?].
Qed.
Lemma run_keeps pol {A} (m : VM (IO := IO) A) rs :
  keeps (@io_reach IO (policy_io pol)) m → kept_io (rs_io rs) → kept_io (rs_io (m rs).2).
Proof. intros Hm. eapply io_steps_keep. apply Hm. Qed.

Lemma evaluate_rule_keeps pol name fields envelope ctx recall s :
  kept_state s → kept_state (evaluate_rule fuel pol name fields envelope ctx recall s).2.
Proof.
  intros Hs. destruct s as [[f sk] eng]. unfold evaluate_rule.
  set (rs := run_state_new (vm_machine pol) (vio_new f sk eng) ctx). set (self_data := struct_new name fields).
  destruct (@entry_points_reach IO (policy_io pol) (vm_machine pol) ser_struct deser_struct fuel (s_name self_data) [] self_data
    (envelope_struct envelope)) as (_ & Hpol & _).
  assert (kept_io (rs_io rs)) as Hk0 by exact Hs.
  pose proof (run_keeps pol _ rs Hpol Hk0) as Hk1. destruct (call_command_policy _ _ _ _ _ _ _ rs) as [res rs1]. simpl in Hk1.
  assert (∀ rs', kept_io (rs_io rs') → kept_state (io_state rs')) as Hback by done.
  destruct res as [[[]|]|e|x]; simpl; try (by apply Hback). destruct ctx as [c|c|c|c|c]; simpl; try (by apply Hback).
  unfold recall_internal. destruct recall; simpl; [by apply Hback|].
  destruct (@entry_points_reach IO (policy_io pol) (vm_machine pol) ser_struct deser_struct fuel name [] self_data
    (envelope_struct envelope)) as (_ & _ & Hrec & _).
  pose proof (run_keeps pol _ (set_context (CtxRecall c) rs1) Hrec Hk1) as Hk2.
  destruct (call_command_recall _ _ _ _ _ _ _ _) as [r rs2]. by apply Hback.
Qed.
End Facts.

Section Sealing.
Context {F : Type} `{QueryMut F}.
Variable (I : F → Prop).
Hypothesis Hins : ∀ name keys v f, I f → I (q_insert name keys v f).
Hypothesis Hdel : ∀ name keys f, I f → I (q_delete name keys f).
Abbreviation IO := (VmPolicyIO (P := F) (Sk := unit) (E := E)).

Lemma return_struct_keeps pol rs :
  kept_io I (λ _ : unit, True) (rs_io rs) → kept_io I (λ _, True) (rs_io (return_struct pol rs).2).
Proof.
  intros Hk. unfold return_struct.
  destruct (@entry_points_reach IO (policy_io pol) (vm_machine pol) ser_struct deser_struct fuel "" [] (struct_new "" []) (struct_new "" []))
    as (_ & _ & _ & _ & _ & Hret).
  pose proof (run_keeps I (λ _, True) Hins Hdel (λ _ _ _, Logic.I) pol _ rs Hret Hk) as Hk1. by destruct (consume_return _ rs).
Qed.
Lemma open_command_keeps pol name envelope f eng : I f → I (open_command fuel pol name envelope (f, eng)).2.1.
Proof.
  intros Hf. unfold open_command. set (rs := run_state_new _ _ _).
  destruct (@entry_points_reach IO (policy_io pol) (vm_machine pol) ser_struct deser_struct fuel name [] (struct_new "" [])
    (envelope_struct envelope)) as (_ & _ & _ & _ & Hopen & _).
  assert (kept_io I (λ _, True) (rs_io rs)) as Hk0 by done.
  pose proof (run_keeps I (λ _, True) Hins Hdel (λ _ _ _, Logic.I) pol _ rs Hopen Hk0) as Hk1. destruct (call_open _ _ _ _ _ _ rs) as [res rs1].
  simpl in Hk1. destruct res as [[[]|]|e|x]; simpl; try apply Hk1.
  pose proof (return_struct_keeps pol rs1 Hk1) as Hk2. destruct (return_struct pol rs1). apply Hk2.
Qed.
Lemma seal_command_keeps pol name fields parent f eng : I f → I (seal_command fuel pol name fields parent (f, eng)).2.1.
Proof.
  intros Hf. unfold seal_command. set (rs := run_state_new _ _ _).
  destruct (@entry_points_reach IO (policy_io pol) (vm_machine pol) ser_struct deser_struct fuel name [] (struct_new name fields)
    (struct_new "" [])) as (_ & _ & _ & Hseal & _).
  assert (kept_io I (λ _, True) (rs_io rs)) as Hk0 by done.
  pose proof (run_keeps I (λ _, True) Hins Hdel (λ _ _ _, Logic.I) pol _ rs Hseal Hk0) as Hk1. destruct (call_seal _ _ _ _ _ _ rs) as [res rs1].
  simpl in Hk1. destruct res as [[[]|]|e|x]; simpl; try apply Hk1.
  pose proof (return_struct_keeps pol rs1 Hk1) as Hk2. destruct (return_struct pol rs1). apply Hk2.
Qed.
End Sealing.

(** ** Rules and actions *)
Section Rules.
Context {F Sk : Type} `{QueryMut F} `{!Sink Sk VmEffect}.
Variables (I : F → Prop) (J : Sk → Prop).
Hypothesis Hins : ∀ name keys v f, I f → I (q_insert name keys v f).
Hypothesis Hdel : ∀ name keys f, I f → I (q_delete name keys f).
Hypothesis Hcons : ∀ e sk, J sk → J (sink_consume e sk).
Abbreviation stays := (λ s s' : F * Sk * E, kept_state I J s → kept_state I J s').

#[local] Instance stays_preorder : PreOrder stays.
Proof. split; [by intros s|]. intros s1 s2 s3 Hs1 Hs2. auto. Qed.
Lemma without_sink_stays {A} (m : M (F * E) EngineError A) :
  (∀ f eng, I f → I (m (f, eng)).2.1) → keeps stays (without_sink (Sk := Sk) m).
Proof.
  intros Hm [[f sk] eng] [Hf Hs]. unfold without_sink. specialize (Hm f eng Hf). destruct (m (f, eng)) as [res [f' eng']]. by split.
Qed.
Lemma vm_call_rule_stays pol c recall : keeps stays (vm_call_rule fuel pol c recall).
Proof.
  assert (∀ kind author envelope, keeps stays (eval_command (F := F) (Sk := Sk) fuel pol c recall kind author envelope)) as Heval.
  { intros kind author envelope. unfold eval_command. apply keeps_bind; [apply _| |].
    - apply without_sink_stays. intros f eng. by apply open_command_keeps.
    - intros st s. by apply evaluate_rule_keeps. }
  unfold vm_call_rule. destruct (deser_protocol _) as [[]|]; [apply Heval|by intros s Hs|apply Heval|by intros s].
Qed.
End Rules.

Section Actions.
Context {P Sk : Type} `{PerspectiveOps P} `{!Sink Sk VmEffect}.
Variables (I : P → Prop) (J : Sk → Prop).
Hypothesis Hins : ∀ name keys v p, I p → I (q_insert name keys v p).
Hypothesis Hdel : ∀ name keys p, I p → I (q_delete name keys p).
Hypothesis Hcons : ∀ e sk, J sk → J (sink_consume e sk).
Abbreviation stays := (λ s s' : P * Sk * E, kept_state I J s → kept_state I J s').
#[local] Existing Instance stays_preorder.

Lemma run_action_stays pol act head : keeps stays (run_action fuel pol act head).
Proof.
  intros [[p sk] eng] Hs. unfold run_action. set (rs := run_state_new _ _ _).
  destruct (@entry_points_reach _ (policy_io pol) (vm_machine pol) ser_struct deser_struct fuel (va_name act) (va_args act)
    (struct_new "" []) (struct_new "" [])) as (Hact & _).
  assert (kept_io I J (rs_io rs)) as Hk0 by exact Hs.
  pose proof (run_keeps I J Hins Hdel Hcons pol _ rs Hact Hk0) as Hk1. by destruct (call_action _ _ _ _ _ _ rs) as [res rs1].
Qed.

Hypothesis Hadd : ∀ c p res p', I p → p_add_command c p = (res, p') → I p'.
Lemma publish_commands_stay pol parent stack : keeps stays (publish_commands fuel pol parent stack).
Proof.
  assert (∀ name fields, keeps stays (publish_command fuel pol parent name fields)) as Hone.
  { intros name fields. unfold publish_command. apply keeps_bind; [apply _| |intros envelope].
    { apply without_sink_stays. intros f eng. by apply seal_command_keeps. }
    apply keeps_bind; [apply _|by intros s Hs|intros wrapped].
    apply keeps_bind; [apply _|by apply vm_call_rule_stays|intros _].
    intros [[p sk] eng] [Hp Hs]. unfold append_command. simpl in Hp. destruct (p_add_command _ p) as [res p'] eqn:Ea.
    split; [by eapply Hadd|done]. }
  induction stack as [|[name fields] stack IH]; [by intros s Hs|]. simpl. apply keeps_bind; [apply _|apply Hone|intros _; exact IH].
Qed.
Lemma vm_call_action_stays pol act : keeps stays (vm_call_action fuel pol act).
Proof.
  assert (∀ head parent, keeps stays (run_action fuel pol act head ≫= publish_commands fuel pol parent)) as Hrun.
  { intros head parent. apply keeps_bind; [apply _|apply run_action_stays|intros stack; apply publish_commands_stay]. }
  intros s. unfold vm_call_action. destruct (map_err _ _) as [[]|e|x]; try done; apply Hrun.
Qed.
End Actions.
End Keeps.
