(* ===== verification/StorageLaws.v ===== *)
(** What storages and their providers promise to the client. *)
From S2P Require Import Prelude Collections RuntimeTypes FactStore Graph Client BraidProofs RuntimeOps.
Local Open Scope string_scope.
Local Open Scope list_scope.
Local Open Scope nat_scope.

(** What a storage promises to the client: its graph stays well formed, written
    segments stay, and the head moves forward only. *)
(** [sl_inv D st]: the segments of the graph in [st] are those at [D].
    [sl_grows]: nothing written is lost. [sl_small]: no max cut reaches the
    limit of a [usize]. [strict] says whether merges are known to join
    incomparable commands. *)
Class StorageLaws (strict : Prop) (St Seg P FP FI : Type) `{Storage St Seg} `{QueryMut P} `{!PerspectiveOps P}
    `{!RevertableOps P} `{QueryMut FP} `{!StorageOps St Seg P FP FI} := {
  sl_inv : (nat → Prop) → St → Prop;
  sl_persp : (nat → Prop) → St → P → Prop;
  sl_facts : (nat → Prop) → St → FP → Prop;
  sl_index : (nat → Prop) → St → FI → Prop;
  sl_prior : P → Prior Location;
  sl_grows : St → St → Prop;
  sl_small : St → Prop;

  (** the graph *)
  sl_graph D st : sl_inv D st → graph_ok D st;
  sl_head D st h : sl_inv D st → get_head st = Ok h → valid D st h;
  sl_merges D st n seg a b : strict → sl_inv D st → D n → seg_at st n = Some seg → seg_prior seg = PMerge a b → incomp st a b;

  (** growth *)
  sl_grows_preorder :: PreOrder sl_grows;
  sl_grows_small st st' : sl_grows st st' → sl_small st' → sl_small st;
  sl_grows_seg st st' n seg :
    sl_grows st st' → seg_at st n = Some seg → ∃ seg', seg_at st' n = Some seg' ∧ seg_eqv seg seg';
  sl_persp_grows D D' st st' p :
    sl_inv D st → (∀ n, D n → D' n) → sl_grows st st' → sl_persp D st p → sl_persp D' st' p;
  sl_write_grows p : keeps sl_grows (st_write p);
  sl_write_facts_grows f : keeps sl_grows (st_write_facts f);
  sl_commit_grows fuel seg : keeps sl_grows (st_commit fuel seg);

  (** perspectives *)
  sl_linear D st l p :
    sl_inv D st → valid D st l → get_linear_perspective st l = Ok (Some p) → sl_persp D st p ∧ sl_prior p = PSingle l;
  (** the last common ancestor may be searched before the facts of the braid
      are written *)
  sl_merge D st0 st fuel l r lca policy i p :
    sl_inv D st0 → sl_inv D st → sl_grows st0 st → valid D st0 l → valid D st0 r → (strict → incomp st0 l r) →
    last_common_ancestor fuel st0 l r = Some (Ok lca) → sl_index D st i →
    new_merge_perspective st l r lca policy i = Ok (Some p) → sl_persp D st p ∧ sl_prior p = PMerge l r;
  sl_insert D st name keys v p :
    sl_persp D st p → sl_persp D st (q_insert name keys v p) ∧ sl_prior (q_insert name keys v p) = sl_prior p;
  sl_delete D st name keys p :
    sl_persp D st p → sl_persp D st (q_delete name keys p) ∧ sl_prior (q_delete name keys p) = sl_prior p;
  sl_add D st c p res p' :
    sl_persp D st p → p_add_command c p = (res, p') → sl_persp D st p' ∧ sl_prior p' = sl_prior p;
  sl_revert D st i p p' :
    sl_persp D st p → p_revert i p = Ok p' → sl_persp D st p' ∧ sl_prior p' = sl_prior p;
  sl_persp_prior D st p q : sl_persp D st p → q ∈ prior_list (sl_prior p) → valid D st q;

  (** facts *)
  sl_fact_perspective D st l f : sl_inv D st → valid D st l → get_fact_perspective st l = Ok f → sl_facts D st f;
  sl_facts_insert D st name keys v f : sl_facts D st f → sl_facts D st (q_insert name keys v f);
  sl_facts_delete D st name keys f : sl_facts D st f → sl_facts D st (q_delete name keys f);
  sl_write_facts D st f res st' :
    sl_inv D st → sl_facts D st f → st_write_facts f st = (res, st') →
    sl_inv D st' ∧ get_head st' = get_head st ∧ ∀ i, res = Ok i → sl_index D st' i;

  (** writing and committing *)
  sl_write D st p res st' :
    sl_inv D st → sl_persp D st p → st_write p st = (res, st') → sl_small st' →
    get_head st' = get_head st ∧
    match res with
    | Ok seg => ∃ n, ¬ D n ∧ sl_inv (with_segment D n) st' ∧ seg_at st' n = Some seg ∧ seg_prior seg = sl_prior p
              ∧ ∀ id, p_includes id p = true → ∃ c cmd, seg_get_command seg (mkLocation n c) = Some cmd ∧ cmd_id cmd = id
    | _ => sl_inv D st'
    end;
  sl_head_location D st n seg :
    sl_inv D st → D n → seg_at st n = Some seg →
    ∃ c, seg_head_location seg = Ok (mkLocation n c) ∧ valid D st (mkLocation n c)
      ∧ (∀ k, valid D st (mkLocation n k) → k ≤ c)
      ∧ ∀ cmd, seg_head seg = Ok cmd → seg_get_command seg (mkLocation n c) = Some cmd;
  sl_commit D st fuel n seg res st' :
    sl_inv D st → D n → seg_at st n = Some seg → st_commit fuel seg st = (res, st') →
    sl_inv D st' ∧
    (res ≠ Ok tt ∧ get_head st' = get_head st
     ∨ ∃ h, seg_head_location seg = Ok h ∧ get_head st' = Ok h ∧ ∀ old, get_head st = Ok old → anc st h old);
  sl_commit_refuses D st fuel n seg st' :
    sl_inv D st → D n → seg_at st n = Some seg → st_commit fuel seg st = (Err HeadNotAncestor, st') →
    ∀ old q, get_head st = Ok old → q ∈ prior_list (seg_prior seg) → ¬ anc st q old
}.

(** What a storage provider promises to the client: it keeps one storage per
    graph, and a new graph holds what the initial perspective holds. *)

(** [pl_stored pr g]: the storage of the graph. [pl_initial p o]: [p] has no
    parents, and [o] is the id of its first command. *)
Class ProviderLaws (strict : Prop) (Pr St Seg P FP FI : Type) `{HL : StorageLaws strict St Seg P FP FI} `{!ProviderOps Pr St P} := {
  pl_stored : Pr → GraphId → option St;
  pl_initial : P → option CommandId → Prop;
  pl_new_perspective policy : pl_initial (pr_new_perspective policy) None;
  pl_insert name keys v p o : pl_initial p o → pl_initial (q_insert name keys v p) o;
  pl_delete name keys p o : pl_initial p o → pl_initial (q_delete name keys p) o;
  pl_add c p o res p' : pl_initial p o → p_add_command c p = (res, p') →
    ∃ o', pl_initial p' o' ∧ (is_ok res = true → o = None → o' = Some (cmd_id c));
  pl_get g pr res pr' : pr_get_storage g pr = (res, pr') →
    (∀ g', pl_stored pr' g' = pl_stored pr g') ∧
    match res with Ok st => pl_stored pr g = Some st | Err NoSuchStorage => pl_stored pr g = None | _ => True end;
  pl_set g st pr g' : pl_stored (pr_set_storage g st pr) g' = if decide (g' = g) then Some st else pl_stored pr g';
  pl_new_keeps p pr res pr' g st : pr_new_storage p pr = (res, pr') → pl_stored pr g = Some st → pl_stored pr' g = Some st;
  pl_new p o pr res pr' : pl_initial p o → pr_new_storage p pr = (res, pr') →
    match res with
    | Ok (g, st) => o = Some g ∧ pl_stored pr g = None ∧ (sl_small st → ∃ D, sl_inv D st)
        ∧ ∀ g', pl_stored pr' g' = if decide (g' = g) then Some st else pl_stored pr g'
    | _ => ∀ g', pl_stored pr' g' = pl_stored pr g'
    end
}.
