(* ===== verification/SearchSound.v ===== *)
(** What the client's searches return, whatever their fuel and input: locations
    of the graph. *)
From S2P Require Import Prelude Collections RuntimeTypes FactStore Graph Client BraidProofs.
Local Open Scope string_scope.
Local Open Scope list_scope.
Local Open Scope nat_scope.

Section SearchSound.
Context {St Seg : Type} `{Storage St Seg}.
Variables (D : nat → Prop) (st : St).
Hypothesis Hg : graph_ok D st.
Implicit Types (seg : Seg) (l x q : Location) (s : Strand (Seg := Seg)) (strands : list (Strand (Seg := Seg))).

Lemma valid_segment l : valid D st l → ∃ seg base len, seg_at st (loc_segment l) = Some seg ∧ get_segment st l = Ok seg
  ∧ seg_shape D st (loc_segment l) seg base len.
Proof. intros [c Hc]. destruct (max_cut_at_shape D st Hg _ _ Hc) as (seg & base & len & _ & ? & ? & ? & _). by exists seg, base, len. Qed.

Lemma prior_valid l seg q : valid D st l → seg_at st (loc_segment l) = Some seg → q ∈ prior_list (seg_prior seg) → valid D st q.
Proof.
  intros Hl Hs Hq. destruct (valid_segment l Hl) as (seg' & base & len & Hs' & _ & Hsh). simplify_eq.
  destruct (sh_prior _ _ _ _ _ _ Hsh q Hq) as (_ & c & Hc & _). by exists c.
Qed.

(** The command of another segment that comes before a command of this one
    comes before the segment. *)
Lemma anc_other_segment l m x seg :
  loc_segment m = loc_segment l → loc_segment x ≠ loc_segment l → seg_at st (loc_segment l) = Some seg →
  anc st l x → anc st m x.
Proof.
  intros Hm Hx Hs Ha. destruct (anc_inv st _ _ _ Ha Hs) as [[? _]|(q & Hq & Hqx)]; [done|].
  eapply anc_prior; [by rewrite Hm|done|done].
Qed.

(** ** [get_location_from]

    The command found is in a segment that the search reaches, but it may be
    later in it than what is reached. *)
Definition reaches (queue : list Location) x : Prop := ∃ q m, q ∈ queue ∧ anc st q m ∧ loc_segment m = loc_segment x.

Lemma enqueue_from l seg target queue x :
  valid D st l → seg_at st (loc_segment l) = Some seg →
  x ∈ enqueue target seg queue → valid D st x ∧ anc st l x ∨ x ∈ queue.
Proof.
  intros Hl Hs. destruct (valid_segment l Hl) as (seg' & base & len & Hs' & _ & Hsh). simplify_eq. unfold enqueue.
  destruct (find_skip target (seg_skip_list seg)) as [skip|] eqn:Ef.
  - intros [Hx| ->%list_elem_of_singleton]%elem_of_app; [by right|]. left.
    destruct (find_skip_elem _ _ _ Ef) as (mc & Hin & _).
    destruct (sh_skip _ _ _ _ _ _ Hsh _ _ Hin) as (_ & Hmc & (p & Hp & Hps) & _).
    split; [by exists mc|by eapply anc_prior].
  - intros [Hx|Hx]%elem_of_app; [by right|]. left. split; [by eapply prior_valid|].
    eapply anc_prior; [done..|apply anc_refl].
Qed.

Lemma get_location_loop_sound fuel address queue x :
  Forall (valid D st) queue → get_location_loop fuel st address queue = Some (Ok (Some x)) →
  has_address D st x address ∧ reaches queue x.
Proof.
  revert queue. induction fuel as [|fuel IH]; intros queue Hv; [done|]. simpl.
  destruct queue as [|l queue _] using rev_ind; [done|]. rewrite vec_pop_snoc. apply Forall_app in Hv as [Hv Hl].
  apply Forall_inv in Hl. destruct (valid_segment l Hl) as (seg & base & len & Hseg & -> & Hsh).
  pose proof Hl as [cl [HD _]]. unfold mbind, outcome_bind. destruct (sh_longest _ _ _ _ _ _ Hsh) as [Hlen ->].
  destruct (Nat.ltb_spec (base + len - 1) (ad_max_cut address)) as [Hlo|Hhi].
  { intros E. apply IH in E as [Ha (q & m & Hq & ?)]; [|done]. split; [done|]. exists q, m. set_solver. }
  assert (get_location_loop fuel st address (enqueue (ad_max_cut address) seg queue) = Some (Ok (Some x)) →
    has_address D st x address ∧ reaches (queue ++ [l]) x) as Hnext.
  { intros E. apply IH in E as [Ha (q & m & Hq & Hqm & Hm)].
    - split; [done|]. destruct (enqueue_from _ _ _ _ _ Hl Hseg Hq) as [[_ Hlq]|?].
      + exists l, m. split_and!; [set_solver|by eapply anc_trans|done].
      + exists q, m. set_solver.
    - apply Forall_forall. intros q Hq. destruct (enqueue_from _ _ _ _ _ Hl Hseg Hq) as [[? _]|?]; [done|].
      by apply (proj1 (Forall_forall _ _) Hv). }
  rewrite (sh_from_max_cut _ _ _ _ _ _ Hsh) by done.
  destruct (Nat.leb_spec base (ad_max_cut address)) as [Hb|Hb]; [|done].
  destruct (proj2 (sh_command _ _ _ _ _ _ Hsh (ad_max_cut address - base))) as [cmd' Hc']; [lia|].
  rewrite Hc'. simpl. case_bool_decide as Hid; [|done]. intros [= <-]. split.
  - by apply (has_address_iff D st l seg base len cmd').
  - exists l, l. split_and!; [set_solver|apply anc_refl|done].
Qed.

(** ** [braid] *)
Abbreviation strands_ok := (Forall (strand_ok D st)).

Lemma strand_new_sound l cached s :
  valid D st l → (∀ seg, cached = Some seg → seg_at st (loc_segment l) = Some seg) →
  strand_new st l cached = Ok s → strand_ok D st s.
Proof. intros Hl Hc E. destruct (strand_new_ok D st Hg l cached Hl Hc) as (s' & E' & _ & Hok). rewrite E in E'. by injection E' as ->. Qed.

Lemma push_priors_sound sf prior cached strands res :
  strands_ok strands → (∀ q, q ∈ prior → valid D st q) →
  (∀ seg q, cached = Some seg → q ∈ prior → seg_at st (loc_segment q) = Some seg) →
  push_priors sf st prior cached strands = Some (Ok res) → strands_ok res.
Proof.
  revert cached strands. induction prior as [|q prior IH]; intros cached strands Hs Hv Hc E; simpl in E; [by simplify_eq|].
  destruct (accessible _ _ _ _) as [[[]| |]|]; try done.
  { eapply IH; [done|intros x Hx; apply Hv; by right|intros seg x Hseg Hx; apply (Hc seg x Hseg); by right|done]. }
  destruct (strand_new st q cached) as [s| |] eqn:Es; [|done..].
  eapply (IH None (heap_push s strands)); [|intros x Hx; apply Hv; by right|done|done]. constructor; [|done].
  eapply strand_new_sound; [apply Hv; by left| |done]. intros seg Hseg. apply (Hc seg q Hseg). by left.
Qed.

Lemma strand_prior_sound s :
  strand_ok D st s →
  (∀ q, q ∈ prior_list (strand_prior s).1 → valid D st q)
  ∧ ∀ seg q, (strand_prior s).2 = Some seg → q ∈ prior_list (strand_prior s).1 → seg_at st (loc_segment q) = Some seg.
Proof.
  intros Hs. destruct (sk_valid _ _ _ Hs) as [c Hc]. pose proof (sk_segment _ _ _ Hs) as Hseg. split.
  - intros q Hq. assert (q ∈ prior_list (back (sd_segment s) (sd_next s))) as Hq'
      by (revert Hq; unfold strand_prior, back; by destruct (loc_previous _)).
    destruct (back_max_cut D st Hg _ _ _ _ Hc Hseg Hq') as (cp & _ & ?). by exists cp.
  - unfold strand_prior, loc_previous. destruct (checked_sub _ _); simpl; [|done].
    intros seg q [= <-] ->%list_elem_of_singleton. done.
Qed.

Lemma braid_loop_sound fuel sf strands acc res :
  strands_ok strands → Forall (valid D st) acc → braid_loop fuel sf st strands acc = Some (Ok res) → Forall (valid D st) res.
Proof.
  revert strands acc. induction fuel as [|fuel IH]; intros strands acc Hs Ha E; simpl in E;
    destruct (heap_pop strands) as [[s rest]|] eqn:Ep; try done; try (by simplify_eq).
  destruct (heap_pop_spec _ _ _ Ep) as [Hperm _]. rewrite Hperm in Hs. apply Forall_cons in Hs as [Hs Hrest].
  destruct (strand_prior_sound s Hs) as [Hv Hc]. destruct (strand_prior s) as [prior cached]. simpl in *.
  destruct (push_priors _ _ _ _ _) as [[strands'| |]|] eqn:Epush; try done.
  pose proof (push_priors_sound _ _ _ _ _ Hrest Hv Hc Epush) as Hs'.
  assert (Forall (valid D st) (if is_merge prior then acc else vec_push (sd_next s) acc)) as Hacc.
  { destruct (is_merge prior); [done|]. apply Forall_app. split; [done|]. by apply Forall_singleton, Hs. }
  destruct strands' as [|s1 [|s2 strands']]; [by eapply IH|simplify_eq|by eapply IH].
  apply Forall_app. split; [done|]. apply Forall_singleton. by apply Forall_inv in Hs' as [? _ _].
Qed.

Lemma braid_sound fuel sf left right res :
  valid D st left → valid D st right → braid fuel sf st left right = Some (Ok res) → Forall (valid D st) res.
Proof.
  intros Hl Hr E. unfold braid, mbind, outcome_bind in E.
  destruct (strand_new st left None) as [sl| |] eqn:El; [|done..].
  destruct (strand_new st right None) as [sr| |] eqn:Er; [|done..].
  destruct (braid_loop _ _ _ _ _) as [[acc| |]|] eqn:Eb; simplify_eq. apply Forall_rev.
  eapply braid_loop_sound; [|by constructor|done].
  repeat constructor; (eapply strand_new_sound; [| |done]; done).
Qed.
End SearchSound.
