(* ===== verification/Session.v ===== *)
(** Ephemeral sessions ([client/session.rs]): commands evaluated on top of the
    facts of a graph, without storing them in it. *)
From S2P Require Import Prelude Collections RuntimeTypes FactStore MemFacts Graph MemStorage LinearFacts LinearStorage Client RuntimeOps.
Local Open Scope string_scope.
Local Open Scope list_scope.
Local Open Scope nat_scope.

(** * Commands of a session *)
Record SessionCommand := mkSessionCommand {
  sn_storage_id : GraphId;
  sn_priority : nat;
  sn_id : CommandId;
  sn_parent : Address;
  sn_data : list u8
}.
(** Its max cut is the one that the trait provides. *)
Definition session_command (c : SessionCommand) : Command :=
  mkCommand (PrioBasic (sn_priority c)) (sn_id c) (PSingle (sn_parent c)) None (sn_data c) (max_cut_of_parent (PSingle (sn_parent c))).
Definition from_cmd (storage_id : GraphId) (command : Command) : outcome Bug_ SessionCommand :=
  match cmd_policy command with
  | Some _ => Err (BugMsg "session command should have no policy")
  | None =>
      match cmd_priority command with
      | PrioBasic p =>
          match cmd_parent command with
          | PSingle parent => Ok (mkSessionCommand storage_id p (cmd_id command) parent (cmd_bytes command))
          | _ => Err (BugMsg "wrong command type")
          end
      | _ => Err (BugMsg "wrong command type")
      end
  end.

(** postcard, a parameter. *)
Class SessionCodec := {
  to_allocvec : SessionCommand → option (list u8);
  from_bytes : list u8 → option SessionCommand
}.
(** [Segment::facts]. *)
Class SegmentFacts (Seg FI : Type) := seg_facts : Seg → outcome StorageError FI.
#[export] Instance mem_segment_facts : SegmentFacts MemSegment MemFactIndex := λ s, Ok (ms_facts s).
#[export] Instance lin_segment_facts {W} `{FactIo W} `{SegIo W} : SegmentFacts (LinearSegment (W := W)) (LinearFactIndex (W := W)) := lseg_facts.

(** * Merging the facts of the session with those of the graph

    [next] takes the lower of the two next keys; a fact of the session hides
    the one of the graph, and tombstones are skipped. *)
Definition emit (new : Keys * option Bytes) (rest : QueryItems) : QueryItems :=
  match new.2 with Some v => Ok (mkStoredFact new.1 v) :: rest | None => rest end.
Fixpoint query_iter_prior (current : list (Keys * option Bytes)) : QueryItems :=
  match current with [] => [] | new :: current' => emit new (query_iter_prior current') end.
Fixpoint query_iter (prior : QueryItems) : list (Keys * option Bytes) → QueryItems :=
  match prior with
  | [] => query_iter_prior
  | p :: prior' =>
      fix next (current : list (Keys * option Bytes)) : QueryItems :=
        match current with
        | [] => p :: prior'
        | new :: current' =>
            match p with
            | Ok old =>
                match cmp new.1 (sf_key old) with
                | Eq => emit new (query_iter prior' current')
                | Gt => p :: query_iter prior' current
                | Lt => emit new (next current')
                end
            | _ => p :: query_iter prior' current
            end
        end
  end.

Section Session.
Context {FI : Type} `{Query FI} `{!SessionCodec}.

Record Session := mkSession {
  ss_storage_id : GraphId;
  ss_policy_id : PolicyId;
  ss_base_facts : FI;
  ss_fact_log : list Update;
  ss_current_facts : NamedFactMap;
  ss_head : Address
}.
Implicit Types (s : Session).
Definition set_facts (log : list Update) (facts : NamedFactMap) s : Session :=
  mkSession (ss_storage_id s) (ss_policy_id s) (ss_base_facts s) log facts (ss_head s).
Definition set_head (head : Address) s : Session :=
  mkSession (ss_storage_id s) (ss_policy_id s) (ss_base_facts s) (ss_fact_log s) (ss_current_facts s) head.

Definition session_query s (name : string) (keys : Keys) : outcome StorageError (option Bytes) :=
  match named_get name keys (ss_current_facts s) with
  | Some slot => Ok slot
  | None => query (ss_base_facts s) name keys
  end.
Definition session_query_prefix s (name : string) (prefix : Keys) : outcome StorageError QueryItems :=
  prior ← query_prefix (ss_base_facts s) name prefix;
  Ok (query_iter prior (named_prefixes (ss_current_facts s) name prefix)).
Definition session_update (name : string) (keys : Keys) (v : option Bytes) s : Session :=
  set_facts (vec_push (name, keys, v) (ss_fact_log s)) (named_insert name keys v (ss_current_facts s)) s.
Definition session_insert (name : string) (keys : Keys) (value : Bytes) s : Session := session_update name keys (Some value) s.
Definition session_delete (name : string) (keys : Keys) s : Session := session_update name keys None s.

Definition session_checkpoint s : nat := length (ss_fact_log s).
(** The facts of a log. *)
Definition replay_log (log : list Update) : NamedFactMap :=
  fold_left (λ nm u, named_insert u.1.1 u.1.2 u.2 nm) log [].
Definition session_revert (index : nat) s : outcome Bug_ Session :=
  if index =? length (ss_fact_log s) then Ok s
  else if length (ss_fact_log s) <? index
  then Err (BugMsg "A checkpoint's index should always be less than or equal to the length of a session's fact log!")
  else
    let log := take index (ss_fact_log s) in
    Ok (set_facts log (replay_log log) s).

(** ** [SessionPerspective]: the session and a sink for its messages *)
Section Perspective.
Context {MS : Type} `{!Sink MS (list u8)}.
Definition SessionPerspective : Type := Session * MS.

#[export] Instance session_query_instance : Query SessionPerspective :=
  {| query p := session_query p.1; query_prefix p := session_query_prefix p.1 |}.
#[export] Instance session_query_mut : QueryMut SessionPerspective :=
  {| q_insert n k v p := (session_insert n k v p.1, p.2); q_delete n k p := (session_delete n k p.1, p.2) |}.

Definition session_add_command (command : Command) : M SessionPerspective StorageError nat := λ p,
  match sbug (c ← from_cmd (ss_storage_id p.1) command; a ← cmd_address (session_command c); Ok (c, a)) with
  | Ok (c, address) =>
      let s := set_head address p.1 in
      match sbug (assume (to_allocvec c) "serialize session command") with
      | Ok bytes => (Ok 0, (s, sink_consume bytes p.2))
      | Err e => (Err e, (s, p.2))
      | Panic x => (Panic x, (s, p.2))
      end
  | Err e => (Err e, p)
  | Panic x => (Panic x, p)
  end.
(** [includes] is not meant to be called: it asserts so in debug builds. *)
#[export] Instance session_perspective_ops : PerspectiveOps SessionPerspective := {|
  p_policy p := ss_policy_id p.1;
  p_add_command := session_add_command;
  p_includes _ _ := false;
  p_head_address p := Ok (PSingle (ss_head p.1))
|}.
End Perspective.

(** * The session *)
Section Methods.
Context {St Seg P Pr E Pol Action Effect : Type} `{Storage St Seg} `{!SegmentFacts Seg FI} `{!ProviderOps Pr St P}.
Context `{!EngineOps E Pol} `{!PolicyOps Pol Action Effect}.

Definition session_new (storage_id : GraphId) : M Pr ClientError Session := λ pr,
  let '(res, pr) := pr_get_storage storage_id pr in
  (st ← try_storage res;
   head_loc ← try_storage (get_head st);
   seg ← try_storage (get_segment st head_loc);
   command ← try_bug (assume (seg_get_command seg head_loc) "location must exist");
   base_facts ← try_storage (seg_facts seg);
   head ← try_bug (cmd_address command);
   Ok (mkSession storage_id (seg_policy seg) base_facts [] [] head), pr).

(** The client is not changed; the state is the session and the sinks. *)
Definition session_action {ES MS} `{!Sink ES Effect} `{!Sink MS (list u8)} (engine : E) (act : Action)
  : M (Session * MS * ES) ClientError unit := λ '(s, ms, es),
  match try_engine (get_policy (ss_policy_id s) engine) with
  | Ok policy =>
      let checkpoint := session_checkpoint s in
      let '(res, (p, es)) := pol_call_action policy act ((s, ms), sink_begin es) in
      match res with
      | Ok _ => (Ok tt, (p, sink_commit es))
      | Err e =>
          match try_bug (session_revert checkpoint p.1) with
          | Ok s => (Err (ce_of_engine e), ((s, sink_rollback p.2), sink_rollback es))
          | Err e => (Err e, (p, es))
          | Panic x => (Panic x, (p, es))
          end
      | Panic x => (Panic x, (p, es))
      end
  | Err e => (Err e, (s, ms, es))
  | Panic x => (Panic x, (s, ms, es))
  end.

Definition session_receive {ES} `{!Sink ES Effect} (engine : E) (command_bytes : list u8)
  : M (Session * ES) ClientError unit := λ '(s, es),
  match from_bytes command_bytes with
  | None => (Err CESessionDeserialize, (s, es))
  | Some command =>
      if negb (bool_decide (sn_storage_id command = ss_storage_id s))
      then (Err (CEBug (BugMsg "ephemeral commands must be run on the same graph")), (s, es))
      else match try_engine (get_policy (ss_policy_id s) engine) with
           | Ok policy =>
               let checkpoint := session_checkpoint s in
               let '(res, (p, es)) := pol_call_rule policy (session_command command) RecallNone ((s, tt), sink_begin es) in
               match res with
               | Ok _ => (Ok tt, (p.1, sink_commit es))
               | Err e =>
                   match try_bug (session_revert checkpoint p.1) with
                   | Ok s => (Err (ce_of_engine e), (s, sink_rollback es))
                   | Err e => (Err e, (p.1, es))
                   | Panic x => (Panic x, (p.1, es))
                   end
               | Panic x => (Panic x, (p.1, es))
               end
           | Err e => (Err e, (s, es))
           | Panic x => (Panic x, (s, es))
           end
  end.
End Methods.
End Session.
Arguments Session FI : clear implicits.
Arguments SessionPerspective FI MS : clear implicits.
