(* ===== verification/SessionProofs.v ===== *)
(** Sessions: the facts of a session are those of the graph with its own
    updates, and a call that fails leaves them as they were. *)
From S2P Require Import Prelude Collections RuntimeTypes FactStore MemFacts Graph MemStorage MemTheorems Client RuntimeOps Session.
Local Open Scope string_scope.
Local Open Scope list_scope.
Local Open Scope nat_scope.

(** * The merged iterator *)
Abbreviation fact_lt := (λ a b : StoredFact, cmp (sf_key a) (sf_key b) = Lt).
Implicit Types (l r : list StoredFact) (current : FactMap) (k : Keys) (v : Bytes).

(** What the merged list holds. *)
Definition overlay current l k v : Prop :=
  match bt_get k current with Some slot => slot = Some v | None => mkStoredFact k v ∈ l end.
Definition merged current l r : Prop :=
  StronglySorted fact_lt r ∧ ∀ k v, mkStoredFact k v ∈ r ↔ overlay current l k v.

Lemma sorted_above r k : (∀ k' v, mkStoredFact k' v ∈ r → cmp k k' = Lt) → Forall (λ f, cmp k (sf_key f) = Lt) r.
Proof. intros Hr. apply Forall_forall. intros [k' v] Hin. by eapply Hr. Qed.

Lemma emit_spec k0 (slot : option Bytes) r :
  StronglySorted fact_lt r → (∀ k v, mkStoredFact k v ∈ r → cmp k0 k = Lt) →
  ∃ r', emit (k0, slot) (map Ok r) = map Ok r' ∧ StronglySorted fact_lt r'
    ∧ ∀ k v, mkStoredFact k v ∈ r' ↔ (if decide (k = k0) then slot = Some v else mkStoredFact k v ∈ r).
Proof.
  intros Hs Hlow. assert (∀ v, mkStoredFact k0 v ∉ r) as Hno by (intros v Hin; apply Hlow in Hin; by rewrite cmp_refl in Hin).
  destruct slot as [v0|]; unfold emit; simpl.
  - exists (mkStoredFact k0 v0 :: r). split_and!; [done|constructor; [done|by apply sorted_above]|]. intros k v. rewrite elem_of_cons.
    case_decide as Hk; [subst k|]; naive_solver.
  - exists r. split_and!; [done|done|]. intros k v. case_decide as Hk; [subst k|]; naive_solver.
Qed.

Lemma query_iter_spec l current :
  StronglySorted fact_lt l → bt_wf current → ∃ r, query_iter (map Ok l) current = map Ok r ∧ merged current l r.
Proof.
  intros Hl. revert current. induction Hl as [|old l Hl IHl Hold]; intros current Hc.
  { exists (live_facts current). split.
    - simpl. clear. induction current as [|[k [v|]] current IH]; simpl; unfold emit; simpl; [done|by rewrite IH|done].
    - split; [by apply live_facts_sorted|]. intros k v. rewrite live_facts_elem by done. unfold overlay.
      destruct (bt_get k current) as [slot|]; [naive_solver|]. split; [done|]. by intros ?%not_elem_of_nil. }
  assert (∀ k v, mkStoredFact k v ∈ l → cmp (sf_key old) k = Lt) as Habove.
  { intros k v Hin. by apply (proj1 (Forall_forall _ _) Hold (mkStoredFact k v)). }
  induction current as [|[k0 slot] current IHc].
  { exists (old :: l). split; [done|]. split; [by constructor|]. done. }
  pose proof (bt_wf_tail _ _ Hc) as Hc'. pose proof (bt_wf_notin _ _ _ Hc) as Hnone.
  assert (∀ k x, bt_get k current = Some x → cmp k0 k = Lt) as Hcur.
  { intros k x Hk%bt_get_elem. apply bt_wf_cons in Hc as [_ HF]. by eapply HF. }
  assert (∀ k, bt_get k ((k0, slot) :: current) = if decide (k = k0) then Some slot else bt_get k current) as Hget.
  { intros k. simpl. destruct (ord_eqb k k0) eqn:E; [apply ord_eqb_true in E; by rewrite decide_True|].
    apply ord_eqb_false in E. by rewrite decide_False. }
  assert (∀ l' r, (∀ k v, mkStoredFact k v ∈ l' → cmp k0 k = Lt) → merged current l' r →
    (∀ k v, k ≠ k0 → mkStoredFact k v ∈ l' ↔ mkStoredFact k v ∈ old :: l) →
    ∃ r', emit (k0, slot) (map Ok r) = map Ok r' ∧ merged ((k0, slot) :: current) (old :: l) r') as Hemit.
  { intros l' r Hl' [Hr Hm] Hsame. destruct (emit_spec k0 slot r Hr) as (r' & -> & Hr' & Hm').
    - intros k v Hin%Hm. unfold overlay in Hin. destruct (bt_get k current) as [x|] eqn:E; [by eapply Hcur|by eapply Hl'].
    - exists r'. split; [done|]. split; [done|]. intros k v. rewrite Hm'. unfold overlay. rewrite Hget.
      case_decide as Hk; [done|]. rewrite Hm. unfold overlay. destruct (bt_get k current); [done|by apply Hsame]. }
  cbn [map query_iter fst]. destruct (cmp_cases k0 (sf_key old)) as [[E Hne]|[[E Heq]|(E & Hgt & Hne)]]; rewrite E.
  - destruct (IHc Hc') as (r & Hrun & Hm). cbn [map query_iter] in Hrun. rewrite Hrun. eapply Hemit; [|exact Hm|done].
    intros k v [<-|Hin]%elem_of_cons; [done|]. eapply cmp_lt_trans; [exact E|by eapply Habove].
  - destruct (IHl current Hc') as (r & -> & Hm). eapply Hemit; [|exact Hm|].
    + intros k v Hin. rewrite Heq. by eapply Habove.
    + intros k v Hk. rewrite elem_of_cons. split; [by right|]. intros [<-|?]; [done|done].
  - destruct (IHl ((k0, slot) :: current) Hc) as (r & -> & [Hr Hm]). exists (old :: r). split; [done|]. split.
    + constructor; [done|]. destruct old as [ko vo]. apply sorted_above. intros k v Hin%Hm. unfold overlay in Hin. rewrite Hget in Hin.
      simpl in Hgt. case_decide as Hk; [by subst k|]. destruct (bt_get k current) as [x|] eqn:Ek; [|by eapply Habove].
      eapply cmp_lt_trans; [exact Hgt|by eapply Hcur].
    + intros k v. rewrite elem_of_cons, Hm. unfold overlay. destruct (bt_get k ((k0, slot) :: current)) as [x|] eqn:Ek.
      * split; [|by right]. intros [<-|?]; [|done]. simpl in Hgt. by rewrite (bt_get_lt_None _ _ _ _ Hc Hgt) in Ek.
      * by rewrite elem_of_cons.
Qed.

(** * The facts of a session *)
Section Facts.
Context {FI : Type} `{Query FI} `{!SessionCodec}.
Implicit Types (s : Session FI) (log : list Update).

(** The current facts are those of the log. *)
Definition session_ok s : Prop := ss_current_facts s = replay_log (ss_fact_log s).

Lemma replay_snoc log u : replay_log (log ++ [u]) = named_insert u.1.1 u.1.2 u.2 (replay_log log).
Proof. unfold replay_log. by rewrite fold_left_app. Qed.
Lemma replay_wf log : named_wf (replay_log log).
Proof. induction log as [|u log IH] using rev_ind; [apply named_wf_nil|]. rewrite replay_snoc. by apply named_wf_insert. Qed.
Lemma replay_view log (w : FactView) n k :
  match named_get n k (replay_log log) with Some x => x | None => w n k end = view_updates log w n k.
Proof.
  induction log as [|u log IH] using rev_ind; [done|]. rewrite replay_snoc, named_get_insert. unfold view_updates in *.
  rewrite fold_left_app. simpl. unfold view_insert at 1. by case_decide.
Qed.

Lemma session_ok_update n k x s : session_ok s → session_ok (session_update n k x s).
Proof. unfold session_ok, session_update, set_facts, vec_push. simpl. intros ->. by rewrite replay_snoc. Qed.
Lemma session_ok_revert i s s' : session_ok s → session_revert i s = Ok s' → session_ok s'.
Proof. unfold session_revert. destruct (_ =? _); [by intros ? [= <-]|]. destruct (_ <? _); [done|]. by intros _ [= <-]. Qed.

(** ** What the methods of the trait keep *)
Section Steps.
Context {MS : Type} `{!Sink MS (list u8)}.
Implicit Types (p : SessionPerspective FI MS).

Inductive perspective_step : SessionPerspective FI MS → SessionPerspective FI MS → Prop :=
| ps_insert n k v p : perspective_step p (q_insert n k v p)
| ps_delete n k p : perspective_step p (q_delete n k p)
| ps_add c p res p' : p_add_command c p = (res, p') → perspective_step p p'
| ps_revert i s ms s' : session_revert i s = Ok s' → perspective_step (s, ms) (s', ms).

Lemma add_command_keeps c p res p' : session_add_command c p = (res, p') → p'.1 = set_head (ss_head p'.1) p.1.
Proof.
  unfold session_add_command. destruct p as [s ms]. simpl. destruct (sbug _) as [[c' a]|e|x]; [|intros [= _ <-]; by destruct s..].
  destruct (sbug _); by intros [= _ <-].
Qed.
Lemma perspective_step_keeps p p' :
  perspective_step p p' → session_ok p.1 → session_ok p'.1 ∧ ss_base_facts p'.1 = ss_base_facts p.1.
Proof.
  intros Hstep Hok. destruct Hstep as [n k v p|n k p|c p res p' E|i s ms s' E]; simpl in *.
  - split; [by apply session_ok_update|done].
  - split; [by apply session_ok_update|done].
  - apply add_command_keeps in E as ->. by destruct p as [[] ?].
  - split; [by eapply session_ok_revert|]. unfold session_revert in E. repeat case_match; simplify_eq; done.
Qed.
Lemma perspective_steps_keep p p' :
  rtc perspective_step p p' → session_ok p.1 → session_ok p'.1 ∧ ss_base_facts p'.1 = ss_base_facts p.1.
Proof.
  induction 1 as [p|p p1 p2 Hstep _ IH]; [done|]. intros Hok. destruct (perspective_step_keeps _ _ Hstep Hok) as [Hok1 <-]. by apply IH.
Qed.

(** ** A session is a fact store over the facts of the graph *)
Context (bwf : FI → Prop) (bview : FI → FactView) `{!QueryLaws FI bwf bview}.
Definition session_wf p : Prop := bwf (ss_base_facts p.1) ∧ session_ok p.1.
Definition session_view p : FactView := view_updates (ss_fact_log p.1) (bview (ss_base_facts p.1)).

Lemma session_update_view n0 k0 x s (ms ms' : MS) n k :
  session_view (session_update n0 k0 x s, ms) n k = view_insert n0 k0 x (session_view (s, ms')) n k.
Proof. unfold session_view, session_update, view_updates, vec_push. simpl. by rewrite fold_left_app. Qed.
#[export] Instance session_laws : QueryMutLaws (SessionPerspective FI MS) session_wf session_view.
Proof.
  split.
  - split.
    + intros [s ms] n k [Hb Hok]. simpl in *. unfold session_query, session_view. simpl. rewrite Hok, <- replay_view.
      destruct (named_get n k (replay_log (ss_fact_log s))); [done|by apply query_view].
    + intros [s ms] n prefix [Hb Hok]. simpl in *. unfold session_query_prefix, session_view. simpl.
      destruct (query_prefix_view (ss_base_facts s) n prefix Hb) as (l & -> & Hl & Hmem). cbn [mbind outcome_bind].
      pose proof (replay_wf (ss_fact_log s)) as Hnw. rewrite Hok.
      destruct (query_iter_spec l (named_prefixes (replay_log (ss_fact_log s)) n prefix) Hl) as (r & -> & Hr & Hm).
      { unfold named_prefixes. destruct (bt_get n _) as [m|] eqn:E; [|constructor]. apply bt_wf_find_prefixes. by eapply named_wf_get. }
      exists r. split; [done|]. split; [done|]. intros k v. rewrite Hm. unfold overlay. rewrite bt_get_named_prefixes, <- replay_view by done.
      destruct (starts_with prefix k) eqn:Es; [|rewrite Hmem, Es; naive_solver].
      destruct (named_get n k (replay_log (ss_fact_log s))); [naive_solver|]. by rewrite Hmem, Es.
  - intros n k v p [Hb Hok]. split; [done|by apply session_ok_update].
  - intros n k v [s ms] n' k' _. apply session_update_view.
  - intros n k p [Hb Hok]. split; [done|by apply session_ok_update].
  - intros n k [s ms] n' k' _. apply session_update_view.
Qed.
End Steps.
End Facts.

(** * Calls *)
Section Calls.
Context {FI St Seg P Pr E Pol Action Effect : Type} `{Query FI} `{!SessionCodec}.
Context `{Storage St Seg} `{!SegmentFacts Seg FI} `{!ProviderOps Pr St P}.
Context `{!EngineOps E Pol} `{PolicyLaws Pol Action Effect}.
Implicit Types (s : Session FI).

(** What a call may do to a session: its log grows, its facts follow. *)
Record extends s0 s : Prop := mk_extends {
  ex_ok : session_ok s;
  ex_log : ss_fact_log s0 `prefix_of` ss_fact_log s;
  ex_rest : s = set_facts (ss_fact_log s) (ss_current_facts s) (set_head (ss_head s) s0)
}.

Lemma extends_refl s : session_ok s → extends s s.
Proof. intros Hok. split; [done|done|by destruct s]. Qed.
Lemma extends_update n k x s0 s : extends s0 s → extends s0 (session_update n k x s).
Proof.
  intros [Hok Hlog Hr]. split; [by apply session_ok_update|by apply prefix_app_r|].
  unfold session_update, set_facts. simpl. rewrite Hr. done.
Qed.
Lemma extends_head a s0 s : extends s0 s → extends s0 (set_head a s).
Proof. intros [Hok Hlog Hr]. split; [done|done|]. rewrite Hr. done. Qed.

(** Reverting to where a call began undoes it. *)
Lemma revert_extends s0 s : session_ok s0 → extends s0 s → session_revert (session_checkpoint s0) s = Ok (set_head (ss_head s) s0).
Proof.
  intros Hok0 [Hok [k Hlog] Hr]. unfold session_revert, session_checkpoint. rewrite Hlog, length_app.
  destruct (Nat.eqb_spec (length (ss_fact_log s0)) (length (ss_fact_log s0) + length k)) as [Heq|Hne].
  - assert (k = []) as -> by (apply length_zero_iff_nil; lia). rewrite app_nil_r in Hlog. unfold session_ok in *.
    rewrite Hr. rewrite Hok, Hlog, <- Hok0. by destruct s0.
  - destruct (Nat.ltb_spec (length (ss_fact_log s0) + length k) (length (ss_fact_log s0))); [lia|].
    rewrite take_app_length. rewrite Hr. unfold set_facts. simpl. rewrite <- Hok0. by destruct s0.
Qed.

Lemma action_extends {ES MS} `{!Sink ES Effect} `{!Sink MS (list u8)} pol act s (ms : MS) (es : ES) res p es' :
  session_ok s → pol_call_action pol act ((s, ms), es) = (res, (p, es')) → extends s p.1.
Proof.
  intros Hok. eapply (call_action_keeps (λ p : SessionPerspective FI MS, extends s p.1)).
  - intros n k v p'. apply extends_update.
  - intros n k p'. apply extends_update.
  - intros c p0 r p' Hp E'. simpl in E'. apply add_command_keeps in E' as ->. by apply extends_head.
  - by apply extends_refl.
Qed.
Lemma rule_extends {ES} `{!Sink ES Effect} pol c recall s (es : ES) res (p : SessionPerspective FI unit) es' :
  session_ok s → pol_call_rule pol c recall ((s, tt), es) = (res, (p, es')) → extends s p.1 ∧ ss_head p.1 = ss_head s.
Proof.
  intros Hok. eapply (call_rule_keeps (λ p : SessionPerspective FI unit, extends s p.1 ∧ ss_head p.1 = ss_head s)).
  - intros n k v p' [? ?]. split; [by apply extends_update|done].
  - intros n k p' [? ?]. split; [by apply extends_update|done].
  - split; [by apply extends_refl|done].
Qed.

Lemma session_action_spec {ES MS} `{!Sink ES Effect} `{!Sink MS (list u8)} e act s (ms : MS) (es : ES) res s' ms' es' :
  session_ok s → session_action e act (s, ms, es) = (res, (s', ms', es')) →
  session_ok s' ∧ ss_fact_log s `prefix_of` ss_fact_log s' ∧ (∀ err, res = Err err → s' = set_head (ss_head s') s).
Proof.
  intros Hok E'. unfold session_action in E'.
  destruct (try_engine _) as [pol|err|x]; [|simplify_eq; split_and!; [done|done|intros; by destruct s']..].
  destruct (pol_call_action _ _ _) as [r [[p1 ms1] es1]] eqn:Ec. pose proof (action_extends _ _ _ _ _ _ _ _ Hok Ec) as Hex. simpl in *.
  destruct r as [[]|err|x]; [simplify_eq; split_and!; [apply Hex|apply Hex|done]|..|simplify_eq; split_and!; [apply Hex|apply Hex|done]].
  rewrite (revert_extends _ _ Hok Hex) in E'. simpl in E'. simplify_eq. split_and!; [done|done|]. intros _ _. by destruct s.
Qed.
Lemma session_receive_spec {ES} `{!Sink ES Effect} e bytes s (es : ES) res s' es' :
  session_ok s → session_receive e bytes (s, es) = (res, (s', es')) →
  session_ok s' ∧ ss_fact_log s `prefix_of` ss_fact_log s' ∧ (∀ err, res = Err err → s' = s).
Proof.
  intros Hok E'. unfold session_receive in E'. destruct (from_bytes bytes) as [c|]; [|by simplify_eq].
  destruct (negb _); [by simplify_eq|]. destruct (try_engine _) as [pol|err|x]; [|by simplify_eq..].
  destruct (pol_call_rule _ _ _ _) as [r [p1 es1]] eqn:Ec. destruct (rule_extends _ _ _ _ _ _ _ _ Hok Ec) as [Hex Hhd].
  destruct r as [[]|err|x]; [simplify_eq; split_and!; [apply Hex|apply Hex|done]|..|simplify_eq; split_and!; [apply Hex|apply Hex|done]].
  rewrite (revert_extends _ _ Hok Hex) in E'. simpl in E'. simplify_eq. split_and!; [done|done|].
  intros _ _. rewrite Hhd. by destruct s.
Qed.

(** ** Sessions as clients use them *)
Inductive session_reached (gid : GraphId) : Session FI → Prop :=
| sr_new (pr pr' : Pr) s : session_new gid pr = (Ok s, pr') → session_reached gid s
| sr_action {ES MS} `{!Sink ES Effect} `{!Sink MS (list u8)} e act s (ms : MS) (es : ES) res s' ms' es' :
    session_reached gid s → session_action e act (s, ms, es) = (res, (s', ms', es')) → session_reached gid s'
| sr_receive {ES} `{!Sink ES Effect} e bytes s (es : ES) res s' es' :
    session_reached gid s → session_receive e bytes (s, es) = (res, (s', es')) → session_reached gid s'.

Lemma session_new_ok gid (pr pr' : Pr) s : session_new gid pr = (Ok s, pr') → session_ok s.
Proof.
  unfold session_new. destruct (pr_get_storage gid pr) as [res pr1]. intros [= E' _].
  repeat (apply outcome_bind_Ok in E' as (? & _ & E')). by injection E' as <-.
Qed.
Lemma session_reached_ok gid s : session_reached gid s → session_ok s.
Proof.
  induction 1 as [pr pr' s E'|ES MS Hes Hms e act s ms es res s' ms' es' _ IH E'|ES Hes e bytes s es res s' es' _ IH E'].
  - by eapply session_new_ok.
  - by eapply session_action_spec.
  - by eapply session_receive_spec.
Qed.
End Calls.
