(* ===== verification/Transaction.v ===== *)
(** Receiving commands: the cache of a peer's heads and the transactions. *)
From S2P Require Import Prelude Collections RuntimeTypes FactStore Graph Client RuntimeOps.
Local Open Scope string_scope.
Local Open Scope list_scope.
Local Open Scope nat_scope.

(** The cache of a peer's heads ([sync/responder.rs]). *)
Definition PEER_HEAD_MAX : nat := 10.

(** A [heapless::Vec]: its length stays within its capacity. *)
Record PeerCache := mkPeerCache { pc_heads : list Address }.
Definition peer_cache_new : PeerCache := mkPeerCache [].

Section PeerCache.
Context {St Seg : Type} `{Storage St Seg}.
Context (search_fuel : nat).
Implicit Types (st : St).

(** A search, where [Panic] stands for fuel that ran out. *)
Definition search {A} (r : option (outcome StorageError A)) : outcome StorageError A :=
  match r with Some o => o | None => Panic "search does not end" end.

(** The closure [retain_head]: whether to keep the head, and [add_command],
    which keeps what was assigned before an error. *)
Definition retain_head st (request_head : Address) (new_head : Location) (add_command : bool)
  : outcome StorageError bool * bool :=
  match (new_head_seg ← get_segment st new_head;
         found ← search (get_location search_fuel st request_head);
         req_head_loc ← sbug (assume found "location must exist");
         req_head_seg ← get_segment st req_head_loc;
         Ok (new_head_seg, req_head_loc, req_head_seg)) with
  | Ok (new_head_seg, req_head_loc, req_head_seg) =>
      match (match seg_get_command new_head_seg new_head with
             | Some new_head_command =>
                 address ← sbug (cmd_address new_head_command);
                 Ok (if bool_decide (ad_id request_head = ad_id address) then false else add_command)
             | None => Ok add_command
             end) with
      | Ok add_command =>
          match search (is_ancestor search_fuel st new_head req_head_seg) with
          | Ok b =>
              let add_command := if b then false else add_command in
              (covered ← search (is_ancestor search_fuel st req_head_loc new_head_seg); Ok (negb covered), add_command)
          | Err e => (Err e, add_command)
          | Panic x => (Panic x, add_command)
          end
      | Err e => (Err e, add_command)
      | Panic x => (Panic x, add_command)
      end
  | Err e => (Err e, add_command)
  | Panic x => (Panic x, add_command)
  end.

(** [heads.retain(|h| retain_head(h, cmd_loc).unwrap_or(false))]. *)
Fixpoint retain_heads st (cmd_loc : Location) (heads : list Address) (add_command : bool)
  : outcome StorageError (list Address * bool) :=
  match heads with
  | [] => Ok ([], add_command)
  | h :: heads' =>
      match retain_head st h cmd_loc add_command with
      | (Panic x, _) => Panic x
      | (res, add_command) =>
          '(kept, add_command) ← retain_heads st cmd_loc heads' add_command;
          Ok (match res with Ok true => h :: kept | _ => kept end, add_command)
      end
  end.

Definition pc_add_command st (command : Address) (cmd_loc : Location) : M PeerCache StorageError unit := λ pc,
  match retain_heads st cmd_loc (pc_heads pc) true with
  | Ok (heads, add_command) =>
      (Ok tt, mkPeerCache (if add_command && negb (length heads =? PEER_HEAD_MAX) then vec_push command heads else heads))
  | Err e => (Err e, pc)
  | Panic x => (Panic x, pc)
  end.
End PeerCache.

(** Transactions ([client/transaction.rs]): receiving commands of a peer into
    temporary heads, merging the heads and committing the result; and the
    client on top of them ([client.rs]). *)

Section Transaction.
Context {St Seg P FP FI : Type} `{Storage St Seg} `{QueryMut P} `{!PerspectiveOps P} `{!RevertableOps P} `{QueryMut FP}.
Context `{!StorageOps St Seg P FP FI}.
Context {E Pol Action Effect Sk : Type} `{EngineOps E Pol} `{PolicyOps Pol Action Effect} `{Sink Sk Effect}.
(** Fuel of the graph searches and of the braid, for a storage. *)
Context (search_fuel braid_fuel : St → nat).
Implicit Types (engine : E) (st : St) (sk : Sk) (command : Command).

Record Transaction := mkTransaction {
  trx_storage_id : GraphId;
  trx_perspective : option P;
  trx_phead : option CommandId;
  trx_heads : BTreeMap Address Location
}.
Definition transaction_new (storage_id : GraphId) : Transaction := mkTransaction storage_id None None [].

Definition set_perspective (p : option P) (t : Transaction) : Transaction :=
  mkTransaction (trx_storage_id t) p (trx_phead t) (trx_heads t).
Definition set_phead (h : option CommandId) (t : Transaction) : Transaction :=
  mkTransaction (trx_storage_id t) (trx_perspective t) h (trx_heads t).
Definition set_heads (hs : BTreeMap Address Location) (t : Transaction) : Transaction :=
  mkTransaction (trx_storage_id t) (trx_perspective t) (trx_phead t) hs.

(** What the methods of a transaction change: the transaction, the storage, the
    sink and the cache of the peer. *)
Record Env := mkEnv { en_trx : Transaction; en_storage : St; en_sink : Sk; en_cache : PeerCache }.
Abbreviation TM := (M Env ClientError).

Definition get_trx : TM Transaction := λ s, (Ok (en_trx s), s).
Definition upd_trx (f : Transaction → Transaction) : TM unit :=
  modify (λ s, mkEnv (f (en_trx s)) (en_storage s) (en_sink s) (en_cache s)).
Definition upd_sink (f : Sk → Sk) : TM unit :=
  modify (λ s, mkEnv (en_trx s) (en_storage s) (f (en_sink s)) (en_cache s)).
Definition on_storage {A} (m : M St StorageError A) : TM A := λ s,
  let '(res, st) := m (en_storage s) in (try_storage res, mkEnv (en_trx s) st (en_sink s) (en_cache s)).
Definition with_storage {A} (f : St → outcome ClientError A) : TM A := λ s, (f (en_storage s), s).
Definition searching {A} (r : option (outcome ClientError A)) : outcome ClientError A :=
  match r with Some o => o | None => Panic "search does not end" end.

(** * Searching *)
Fixpoint locate_heads st (address : Address) (heads : list Location) : outcome ClientError (option Location) :=
  match heads with
  | [] => Ok None
  | head :: heads' =>
      found ← try_storage (search (get_location_from (search_fuel st) st head address));
      match found with Some l => Ok (Some l) | None => locate_heads st address heads' end
  end.
Definition locate (t : Transaction) st (address : Address) : outcome ClientError (option Location) :=
  found ← try_storage (search (get_location (search_fuel st) st address));
  match found with Some l => Ok (Some l) | None => locate_heads st address (map snd (trx_heads t)) end.

Definition get_policy_at engine st (location : Location) : outcome ClientError (Pol * PolicyId) :=
  segment ← try_storage (get_segment st location);
  let policy_id := seg_policy segment in
  policy ← try_engine (get_policy policy_id engine);
  Ok (policy, policy_id).
(** [max_by_key] returns its second argument when the keys are equal. *)
Definition choose_policy engine st (left right : Location) : outcome ClientError (Pol * PolicyId) :=
  l ← get_policy_at engine st left;
  r ← get_policy_at engine st right;
  Ok (if pol_serial r.1 <? pol_serial l.1 then l else r).

(** * Evaluating a braid *)

(** The loop over [rest]; an error other than [Check] ends it. *)
Fixpoint call_rules (pol : Pol) st (rest : list Location) : M (FP * Sk) ClientError unit := λ s,
  match rest with
  | [] => (Ok tt, s)
  | location :: rest' =>
      match (segment ← try_storage (get_segment st location);
             try_bug (assume (seg_get_command segment location) "braid only contains existing commands")) with
      | Err e => (Err e, s)
      | Panic x => (Panic x, s)
      | Ok command =>
          match pol_call_rule pol command RecallOnCheck s with
          | (Ok _, s') | (Err EECheck, s') => call_rules pol st rest' s'
          | (Err e, (f, sk)) => (Err (ce_of_engine e), (f, sink_rollback sk))
          | (Panic x, s') => (Panic x, s')
          end
      end
  end.

Definition make_braid_segment (pol : Pol) (left right : Location) : TM (FI * (Location * nat)) :=
  order ← with_storage (λ st, searching (braid (braid_fuel st) (search_fuel st) st left right));
  last_common_ancestor ← with_storage (λ st, searching (last_common_ancestor (braid_fuel st) st left right));
  match order with
  | [] => throw (CEBug (BugMsg "braid is non-empty"))
  | first :: rest =>
      braid_perspective ← with_storage (λ st, try_storage (get_fact_perspective st first));
      upd_sink sink_begin ≫= λ _,
      (λ s, let '(res, (f, sk)) := call_rules pol (en_storage s) rest (braid_perspective, en_sink s) in
            (match res with Ok _ => Ok f | Err e => Err e | Panic x => Panic x end,
             mkEnv (en_trx s) (en_storage s) sk (en_cache s))) ≫= λ braid_perspective : FP,
      braid ← on_storage (st_write_facts braid_perspective);
      upd_sink sink_commit ≫= λ _,
      mret (braid, last_common_ancestor)
  end.

(** * Adding commands *)

(** Write out the current perspective, if there is one; [reset] says whether
    the caller clears [phead] first. *)
Definition flush_perspective (reset : bool) : TM unit :=
  t ← get_trx;
  match trx_perspective t with
  | None => mret tt
  | Some p =>
      upd_trx (λ t, set_perspective None (if reset then set_phead None t else t)) ≫= λ _,
      segment ← on_storage (st_write p);
      head ← lift (try_storage (seg_head segment));
      address ← lift (try_bug (cmd_address head));
      location ← lift (try_storage (seg_head_location segment));
      upd_trx (λ t, set_heads (bt_insert address location (trx_heads t)) t)
  end.

Definition get_perspective (parent : Address) : TM P :=
  t ← get_trx;
  if bool_decide (trx_phead t = Some (ad_id parent)) then
    lift (try_bug (assume (trx_perspective t) "trx has perspective when has phead"))
  else
    flush_perspective true ≫= λ _,
    t ← get_trx;
    found ← with_storage (λ st, locate t st parent);
    loc ← lift_opt found (CENoSuchParent (ad_id parent));
    opened ← with_storage (λ st, try_storage (get_linear_perspective st loc));
    p ← lift (try_bug (assume opened "location should already be in storage"));
    upd_trx (λ t, set_heads (bt_remove parent (trx_heads t)) (set_phead (Some (ad_id parent)) (set_perspective (Some p) t))) ≫= λ _,
    mret p.

(** The command is evaluated on the transaction's perspective; [None]: it was
    rejected with the error. *)
Definition eval_on_perspective (pol : Pol) command (p : P) : TM (option EngineError) := λ s,
  let '(res, (p, sk)) := pol_call_rule pol command RecallNone (p, en_sink s) in
  let s := mkEnv (set_perspective (Some p) (en_trx s)) (en_storage s) sk (en_cache s) in
  match res with
  | Ok _ => (Ok None, s)
  | Err e => (Ok (Some e), s)
  | Panic x => (Panic x, s)
  end.
Definition perspective_add_command command : TM unit := λ s,
  match trx_perspective (en_trx s) with
  | None => (Panic "the perspective was just used", s)
  | Some p =>
      let '(res, p) := p_add_command command p in
      (try_storage (_ ← res; Ok tt), mkEnv (set_perspective (Some p) (en_trx s)) (en_storage s) (en_sink s) (en_cache s))
  end.
Definition perspective_revert (checkpoint : nat) : TM unit := λ s,
  match trx_perspective (en_trx s) with
  | None => (Panic "the perspective was just used", s)
  | Some p =>
      match try_bug (p_revert checkpoint p) with
      | Ok p => (Ok tt, mkEnv (set_perspective (Some p) (en_trx s)) (en_storage s) (en_sink s) (en_cache s))
      | Err e => (Err e, s)
      | Panic x => (Panic x, s)
      end
  end.

Definition add_single engine command (parent : Address) : TM unit :=
  perspective ← get_perspective parent;
  policy ← lift (try_engine (get_policy (p_policy perspective) engine));
  upd_sink sink_begin ≫= λ _,
  let checkpoint := p_checkpoint perspective in
  rejected ← eval_on_perspective policy command perspective;
  match rejected with
  | Some e =>
      perspective_revert checkpoint ≫= λ _,
      upd_sink sink_rollback ≫= λ _,
      throw (ce_of_engine e)
  | None =>
      perspective_add_command command ≫= λ _,
      upd_sink sink_commit ≫= λ _,
      upd_trx (set_phead (Some (cmd_id command)))
  end.

(** A merge command: its perspective replaces the current one. *)
Definition add_merge engine command (left right : Address) : TM bool :=
  flush_perspective false ≫= λ _,
  t ← get_trx;
  found ← with_storage (λ st, locate t st left);
  left_loc ← lift_opt found (CENoSuchParent (ad_id left));
  found ← with_storage (λ st, locate t st right);
  right_loc ← lift_opt found (CENoSuchParent (ad_id right));
  policy ← with_storage (λ st, choose_policy engine st left_loc right_loc);
  braid ← make_braid_segment policy.1 left_loc right_loc;
  opened ← with_storage (λ st, try_storage (new_merge_perspective st left_loc right_loc braid.2 policy.2 braid.1));
  perspective ← lift (try_bug (assume opened
    "we already found left and right locations above and we only call this with merge command"));
  perspective ← (λ s, let '(res, p) := p_add_command command perspective in (try_storage (_ ← res; Ok p), s));
  upd_trx (λ t, set_heads (bt_remove right (bt_remove left (trx_heads t))) t) ≫= λ _,
  upd_trx (set_perspective (Some perspective)) ≫= λ _,
  upd_trx (set_phead (Some (cmd_id command))) ≫= λ _,
  mret true.

Definition cache_add_command (a : Address) (l : Location) : TM unit := λ s,
  let '(res, pc) := pc_add_command (search_fuel (en_storage s)) (en_storage s) a l (en_cache s) in
  (try_storage res, mkEnv (en_trx s) (en_storage s) (en_sink s) pc).

(** The body of the loop of [add_commands]: the new count. *)
Definition add_command engine command (count : nat) : TM nat :=
  t ← get_trx;
  if match trx_perspective t with Some p => p_includes (cmd_id command) p | None => false end then mret count
  else
    address ← lift (try_bug (cmd_address command));
    found ← with_storage (λ st, locate t st address);
    match found with
    | Some loc => cache_add_command address loc ≫= λ _, mret count
    | None =>
        count ← match cmd_parent command with
                | PNone =>
                    if bool_decide (cmd_id command = trx_storage_id t) then mret count
                    else throw (CEBug (BugMsg "init command does not belong in graph"))
                | PSingle parent =>
                    add_single engine command parent ≫= λ _,
                    lift (try_bug (assume (checked_add count 1) "must not overflow"))
                | PMerge l r =>
                    add_merge engine command l r ≫= λ _,
                    lift (try_bug (assume (checked_add count 1) "must not overflow"))
                end;
        t ← get_trx;
        found ← with_storage (λ st, locate t st address);
        match found with
        | Some loc => cache_add_command address loc ≫= λ _, mret count
        | None => mret count
        end
    end.
Fixpoint add_command_loop engine (commands : list Command) (count : nat) : TM nat :=
  match commands with
  | [] => mret count
  | command :: commands' => count ← add_command engine command count; add_command_loop engine commands' count
  end.
(** What follows the choice of the storage in [add_commands]. *)
Definition add_commands_to engine (commands : list Command) (count : nat) : TM nat :=
  count ← add_command_loop engine commands count;
  head_location ← with_storage (λ st, try_storage (get_head st));
  cmd_seg ← with_storage (λ st, try_storage (get_segment st head_location));
  command ← lift (try_storage (seg_head cmd_seg));
  address ← lift (try_bug (cmd_address command));
  cache_add_command address head_location ≫= λ _,
  mret count.

(** * Committing *)

(** Merge the two heads into a new segment. *)
Definition merge_heads engine (left right : Address * Location) : TM (Address * Location) :=
  policy ← with_storage (λ st, choose_policy engine st left.2 right.2);
  merge_ids ← lift (try_bug (assume (merge_ids_new left.1 right.1) "merging different ids"));
  let '(left_loc, right_loc) :=
    match cmp left.1 right.1 with Gt => (right.2, left.2) | _ => (left.2, right.2) end in
  command ← lift (try_engine (pol_merge policy.1 merge_ids));
  braid ← make_braid_segment policy.1 left_loc right_loc;
  opened ← with_storage (λ st, try_storage (new_merge_perspective st left_loc right_loc braid.2 policy.2 braid.1));
  perspective ← lift (try_bug (assume opened "trx heads should exist in storage"));
  perspective ← (λ s, let '(res, p) := p_add_command command perspective in (try_storage (_ ← res; Ok p), s));
  segment ← on_storage (st_write perspective);
  head ← lift (try_storage (seg_head segment));
  address ← lift (try_bug (cmd_address head));
  location ← lift (try_storage (seg_head_location segment));
  mret (address, location).

(** [storage.commit], with the error that the loop handles as [false]. *)
Definition try_commit (segment : Seg) : TM bool := λ s,
  let '(res, st) := st_commit (search_fuel (en_storage s)) segment (en_storage s) in
  (match res with
   | Ok _ => Ok true
   | Err HeadNotAncestor => Ok false
   | Err e => Err (CEStorageError e)
   | Panic x => Panic x
   end, mkEnv (en_trx s) st (en_sink s) (en_cache s)).

(** The loop; each turn merges two heads or tries to commit the last one. *)
Fixpoint commit_loop (fuel : nat) engine (heads : list (Address * Location)) (merging_head : bool) : TM unit :=
  match heads, fuel with
  | [], _ => mret tt
  | _, 0 => crash "heads do not end"
  | l :: r :: heads', S fuel' =>
      head ← merge_heads engine l r;
      commit_loop fuel' engine (vec_push head heads') merging_head
  | [l], S fuel' =>
      segment ← with_storage (λ st, try_storage (get_segment st l.2));
      committed ← try_commit segment;
      if committed : bool then mret tt
      else if merging_head then throw (CEBug (BugMsg "merging with graph head again, would loop"))
      else
        head_loc ← with_storage (λ st, try_storage (get_head st));
        segment ← with_storage (λ st, try_storage (get_segment st head_loc));
        head ← lift (try_storage (seg_head segment));
        address ← lift (try_bug (cmd_address head));
        location ← lift (try_storage (seg_head_location segment));
        commit_loop fuel' engine [l; (address, location)] true
  end.

(** Each turn but the last two leaves one head less, and merging with the head
    of the graph adds one. *)
Definition commit_fuel (heads : list (Address * Location)) : nat := length heads + 3.
Definition commit_in engine : TM unit :=
  flush_perspective true ≫= λ _,
  t ← get_trx;
  let heads := trx_heads t in
  upd_trx (set_heads []) ≫= λ _,
  commit_loop (commit_fuel heads) engine heads false.
End Transaction.
Arguments Transaction P : clear implicits.
Arguments Env St P Sk : clear implicits.
