(* ===== verification/TransactionProofs.v ===== *)
(** The invariant of transactions and of the storage below them: proofs by
    weakest preconditions in the transaction's monad. *)
From S2P Require Import Prelude Collections RuntimeTypes FactStore Graph Client BraidProofs RuntimeOps StorageLaws.
From S2P Require Import SearchSound Transaction.
Local Open Scope string_scope.
Local Open Scope list_scope.
Local Open Scope nat_scope.

Create HintDb grows.

Lemma elem_of_bt_insert_new {K V} `{OrdLaws K} (k : K) (v : V) m : (k, v) ∈ bt_insert k v m.
Proof. apply bt_get_elem, bt_get_insert_eq. Qed.
Lemma elem_of_bt_insert_key {K V} `{OrdLaws K} `{EqDecision K} (k k' : K) (v v' : V) m :
  bt_wf m → (k', v') ∈ m → ∃ v2, (k', v2) ∈ bt_insert k v m.
Proof.
  intros Hw Hin. destruct (decide (k' = k)) as [->|Hne]; [exists v; apply elem_of_bt_insert_new|].
  exists v'. apply bt_get_elem. rewrite bt_get_insert_ne by done. by apply bt_elem_get.
Qed.

Section TransactionProofs.
(** [alone]: no other transaction was committed since this one was opened. *)
Context {strict alone : Prop} {St Seg P FP FI : Type} `{HL : StorageLaws strict St Seg P FP FI}.
Context {Eng Pol Action Effect Sk : Type} `{EngineOps Eng Pol} `{PolicyLaws Pol Action Effect} `{Sink Sk Effect}.
Context (search_fuel braid_fuel : St → nat).
Abbreviation env := (Env St P Sk).
Abbreviation TM := (M env ClientError).
Implicit Types (D : nat → Prop) (st : St) (s : env) (t : Transaction P) (l : Location) (p : P).

(** * Nothing written is lost, unconditionally *)
Definition env_grows s s' : Prop := sl_grows (en_storage s) (en_storage s').
#[local] Instance env_grows_preorder : PreOrder env_grows.
Proof. split; [intros s; unfold env_grows; reflexivity|]. intros s1 s2 s3. unfold env_grows. by etrans. Qed.
(** The transaction stays one of its graph. *)
Definition env_keeps s s' : Prop := env_grows s s' ∧ trx_storage_id (en_trx s') = trx_storage_id (en_trx s).
#[local] Instance env_keeps_preorder : PreOrder env_keeps.
Proof.
  split; [by intros s; split|]. intros s1 s2 s3 [Hg1 Hi1] [Hg2 Hi2]. split; [by etrans|congruence].
Qed.

Lemma grows_pure {A} (m : TM A) :
  (∀ s, en_storage (m s).2 = en_storage s ∧ trx_storage_id (en_trx (m s).2) = trx_storage_id (en_trx s)) → keeps env_keeps m.
Proof. intros Hm s. destruct (Hm s) as [Hs Hi]. split; [unfold env_grows; rewrite Hs; reflexivity|done]. Qed.
Lemma grows_on_storage {A} (m : M St StorageError A) : keeps sl_grows m → keeps env_keeps (on_storage (Sk := Sk) m).
Proof.
  intros Hm s. unfold on_storage, env_keeps, env_grows. specialize (Hm (en_storage s)). by destruct (m (en_storage s)).
Qed.
Lemma grows_bind {A B} (m : TM A) (k : A → TM B) : keeps env_keeps m → (∀ a, keeps env_keeps (k a)) → keeps env_keeps (m ≫= k).
Proof. apply keeps_bind, _. Qed.

Ltac grows_step :=
  match goal with
  | |- keeps env_keeps (mbind _ _) => apply grows_bind; [|intros]
  | |- keeps env_keeps (match ?x with _ => _ end) => destruct x
  | |- keeps env_keeps (on_storage _) => apply grows_on_storage
  | |- _ => solve [eauto with grows | apply grows_pure; done]
  end.
Ltac grows_tac := repeat grows_step.

Lemma grows_write p : keeps sl_grows (st_write p).
Proof. apply sl_write_grows. Qed.
Lemma grows_write_facts f : keeps sl_grows (st_write_facts (St := St) f).
Proof. apply sl_write_facts_grows. Qed.
#[local] Hint Resolve grows_write grows_write_facts : grows.

Lemma grows_eval pol c p : keeps env_keeps (eval_on_perspective (St := St) (Sk := Sk) pol c p).
Proof.
  apply grows_pure. intros s. unfold eval_on_perspective. destruct (pol_call_rule _ _ _ _) as [res [p' sk]]. by destruct res.
Qed.
Lemma grows_add_command c : keeps env_keeps (perspective_add_command (St := St) (Sk := Sk) c).
Proof.
  apply grows_pure. intros s. unfold perspective_add_command. destruct (trx_perspective _); [|done]. by destruct (p_add_command _ _).
Qed.
Lemma grows_revert i : keeps env_keeps (perspective_revert (St := St) (Sk := Sk) i).
Proof.
  apply grows_pure. intros s. unfold perspective_revert. destruct (trx_perspective _); [|done]. by destruct (try_bug _).
Qed.
Lemma grows_cache a l : keeps env_keeps (cache_add_command search_fuel a l).
Proof. apply grows_pure. intros s. unfold cache_add_command. by destruct (pc_add_command _ _ _ _ _). Qed.
Lemma grows_try_commit seg : keeps env_keeps (try_commit search_fuel seg).
Proof.
  intros s. unfold try_commit, env_keeps, env_grows. pose proof (sl_commit_grows (search_fuel (en_storage s)) seg (en_storage s)) as Hc.
  by destruct (st_commit _ _ _).
Qed.
#[local] Hint Resolve grows_eval grows_add_command grows_revert grows_cache grows_try_commit : grows.

Lemma grows_reset (reset : bool) :
  keeps env_keeps (upd_trx (St := St) (P := P) (Sk := Sk) (λ t, set_perspective None (if reset then set_phead None t else t))).
Proof. apply grows_pure. intros s. by destruct reset. Qed.
#[local] Hint Resolve grows_reset : grows.
Lemma grows_flush reset : keeps env_keeps (flush_perspective (St := St) (Sk := Sk) reset).
Proof. unfold flush_perspective. grows_tac. Qed.
#[local] Hint Resolve grows_flush : grows.
Lemma grows_get_perspective a : keeps env_keeps (get_perspective (Sk := Sk) search_fuel a).
Proof. unfold get_perspective. grows_tac. Qed.
Lemma grows_braid pol l r : keeps env_keeps (make_braid_segment (P := P) (Sk := Sk) search_fuel braid_fuel pol l r).
Proof.
  unfold make_braid_segment. grows_tac. apply grows_pure. intros s. by destruct (call_rules _ _ _ _) as [res [f sk]].
Qed.
#[local] Hint Resolve grows_get_perspective grows_braid : grows.
Lemma grows_add_single e c a : keeps env_keeps (add_single search_fuel e c a).
Proof. unfold add_single. grows_tac. Qed.
Lemma grows_local_add c p : keeps env_keeps (λ s : env, let '(res, p) := p_add_command c p in (try_storage (_ ← res; Ok p), s)).
Proof. apply grows_pure. intros s. by destruct (p_add_command c p). Qed.
#[local] Hint Resolve grows_local_add : grows.
Lemma grows_add_merge e c a b : keeps env_keeps (add_merge search_fuel braid_fuel e c a b).
Proof. unfold add_merge. grows_tac. Qed.
#[local] Hint Resolve grows_add_single grows_add_merge : grows.
Lemma grows_add_one e c n : keeps env_keeps (add_command search_fuel braid_fuel e c n).
Proof. unfold add_command. grows_tac. Qed.
#[local] Hint Resolve grows_add_one : grows.
Lemma grows_add_loop e cs n : keeps env_keeps (add_command_loop search_fuel braid_fuel e cs n).
Proof. revert n. induction cs as [|c cs IH]; intros n; simpl; grows_tac. Qed.
#[local] Hint Resolve grows_add_loop : grows.
Lemma grows_add_commands e cs n : keeps env_keeps (add_commands_to search_fuel braid_fuel e cs n).
Proof. unfold add_commands_to. grows_tac. Qed.
Lemma grows_merge_heads e x y : keeps env_keeps (merge_heads search_fuel braid_fuel e x y).
Proof. unfold merge_heads. grows_tac. Qed.
#[local] Hint Resolve grows_merge_heads : grows.
Lemma grows_commit_loop fuel e hs b : keeps env_keeps (commit_loop search_fuel braid_fuel fuel e hs b).
Proof. revert hs b. induction fuel as [|fuel IH]; intros [|x [|y hs]] b; simpl; grows_tac. Qed.

#[local] Hint Resolve grows_commit_loop : grows.
Lemma grows_commit_in e : keeps env_keeps (commit_in search_fuel braid_fuel e).
Proof. unfold commit_in. grows_tac. Qed.

(** * The invariant

    The heads of a transaction are the last commands of segments it wrote; none
    comes before another, before what the perspective was opened on, or before
    the head of the graph. *)
Record trx_ok D st t : Prop := mk_trx_ok {
  to_wf : bt_wf (trx_heads t);
  to_head a l : (a, l) ∈ trx_heads t → has_address D st l a;
  to_last a l k : (a, l) ∈ trx_heads t → valid D st (mkLocation (loc_segment l) k) → k ≤ loc_command l;
  to_free a l h : alone → (a, l) ∈ trx_heads t → get_head st = Ok h → ¬ anc st h l;
  to_anti a l a' l' : alone → (a, l) ∈ trx_heads t → (a', l') ∈ trx_heads t → a ≠ a' → ¬ anc st l l';
  to_persp p : trx_perspective t = Some p → sl_persp D st p;
  to_persp_free p a l q : alone → trx_perspective t = Some p → (a, l) ∈ trx_heads t → q ∈ prior_list (sl_prior p) → ¬ anc st q l
}.
Definition env_ok D s : Prop := sl_inv D (en_storage s) ∧ trx_ok D (en_storage s) (en_trx s).

(** The head only moves forward. *)
Definition forward st st' : Prop := ∀ h, get_head st = Ok h → ∃ h', get_head st' = Ok h' ∧ anc st' h' h.

(** ** Growth of the graph *)
Lemma has_address_valid D st l a : has_address D st l a → valid D st l.
Proof.
  intros (HD & seg & cmd & Hs & Hc & Ha). unfold cmd_address, mbind, outcome_bind in Ha.
  destruct (cmd_max_cut cmd) as [c| |] eqn:Em; [|done..]. exists c. split; [done|]. by exists seg, cmd.
Qed.

Lemma grow_valid D D' st st' l :
  sl_inv D st → (∀ n, D n → D' n) → sl_grows st st' → valid D st l → valid D' st' l.
Proof.
  intros Hi HD Hgr [c Hc]. exists c. eapply (ext_max_cut D D' st st' (sl_graph _ _ Hi) HD); [|done].
  intros n seg _ Hs. by eapply sl_grows_seg.
Qed.
Lemma grow_valid_inv D D' st st' l :
  sl_inv D st → (∀ n, D n → D' n) → sl_grows st st' → D (loc_segment l) → valid D' st' l → valid D st l.
Proof.
  intros Hi HD Hgr HDl [c Hc]. exists c. eapply (ext_max_cut D D' st st' (sl_graph _ _ Hi) HD); [|done].
  intros n seg _ Hs. by eapply sl_grows_seg.
Qed.
Lemma grow_anc D st st' l x : sl_inv D st → sl_grows st st' → D (loc_segment l) → anc st l x ↔ anc st' l x.
Proof.
  intros Hi Hgr HDl. eapply (ext_anc D st st' (sl_graph _ _ Hi)); [|done].
  intros n seg _ Hs. by eapply sl_grows_seg.
Qed.
Lemma grow_address D D' st st' l a :
  (∀ n, D n → D' n) → sl_grows st st' → has_address D st l a → has_address D' st' l a.
Proof.
  intros HD Hgr (HDl & seg & cmd & Hs & Hc & Ha). destruct (sl_grows_seg _ _ _ _ Hgr Hs) as (seg' & Hs' & He).
  split; [by apply HD|]. exists seg', cmd. by rewrite <- (se_command _ _ He).
Qed.

Lemma trx_ok_grow D D' st st' t :
  sl_inv D st → sl_inv D' st' → (∀ n, D n → D' n) → sl_grows st st' → (alone → get_head st' = get_head st) →
  trx_ok D st t → trx_ok D' st' t.
Proof.
  intros Hi Hi' HD Hgr Hh [Hw Ha Hl Hf Han Hp Hpf].
  assert (∀ a l, (a, l) ∈ trx_heads t → D (loc_segment l)) as HDl by (intros a l Hin; apply (Ha _ _ Hin)). split.
  - done.
  - intros a l Hin. eapply grow_address; eauto.
  - intros a l k Hin Hv. eapply Hl; [done|]. eapply grow_valid_inv; [done..| |done]. exact (HDl _ _ Hin).
  - intros a l h Hal Hin Hhead Hanc. rewrite (Hh Hal) in Hhead. eapply Hf; [done..|]. eapply grow_anc; [done..| |done].
    destruct (sl_head _ _ _ Hi Hhead) as [c [? _]]. done.
  - intros a l a' l' Hal Hin Hin' Hne Hanc. eapply (Han a l a' l'); [done..|]. eapply grow_anc; [done..| |done]. by eapply HDl.
  - intros p Ep. apply (sl_persp_grows D D' st st'); [done..|]. by apply Hp.
  - intros p a l q Hal Ep Hin Hq Hanc. eapply Hpf; [done..|]. eapply grow_anc; [done..| |done].
    destruct (sl_persp_prior _ _ _ _ (Hp p Ep) Hq) as [c [? _]]. done.
Qed.

(** * Weakest preconditions *)
Record later D s D' s' : Prop := mk_later {
  la_dom n : D n → D' n;
  la_grows : env_grows s s';
  la_ok : env_ok D' s';
  la_forward : forward (en_storage s) (en_storage s')
}.
Lemma later_refl D s : env_ok D s → later D s D s.
Proof. intros Hok. split; [done|reflexivity|done|]. intros h Hh. exists h. split; [done|apply anc_refl]. Qed.
Lemma later_trans D s D1 s1 D2 s2 : later D s D1 s1 → later D1 s1 D2 s2 → later D s D2 s2.
Proof.
  intros [Hd Hg Hok Hf] [Hd' Hg' Hok' Hf']. split; [auto|by etrans|done|]. intros h Hh.
  destruct (Hf h Hh) as (h1 & Hh1 & Ha). destruct (Hf' h1 Hh1) as (h2 & Hh2 & Ha'). exists h2. split; [done|].
  eapply anc_trans; [exact Ha'|]. apply (grow_anc D1 (en_storage s1) (en_storage s2)); [apply Hok|done| |done].
  by destruct (sl_head _ _ _ (proj1 Hok) Hh1) as [c [? _]].
Qed.

Definition wp {A} D s (m : TM A) (Q : outcome ClientError A → (nat → Prop) → env → Prop) : Prop :=
  ∀ res s', m s = (res, s') → sl_small (en_storage s') → ∃ D', later D s D' s' ∧ Q res D' s'.

Lemma wp_mono {A} D s (m : TM A) Q Q' :
  wp D s m Q → (∀ res D' s', later D s D' s' → Q res D' s' → Q' res D' s') → wp D s m Q'.
Proof. intros Hm HQ res s' E Hs. destruct (Hm res s' E Hs) as (D' & Hl & Hq). eauto. Qed.

Lemma wp_bind {A B} D s (m : TM A) (k : A → TM B) Q :
  (∀ a, keeps env_keeps (k a)) →
  wp D s m (λ res D1 s1, match res with
                         | Ok a => wp D1 s1 (k a) Q
                         | Err e => Q (Err e) D1 s1
                         | Panic x => Q (Panic x) D1 s1
                         end) →
  wp D s (m ≫= k) Q.
Proof.
  intros Hk Hm res s' E0 Hs. unfold mbind, M_bind in E0. destruct (m s) as [[a|e|x] s1] eqn:E1.
  - pose proof (Hk a s1) as [Hg _]. rewrite E0 in Hg. simpl in Hg.
    destruct (Hm _ _ E1 (sl_grows_small _ _ Hg Hs)) as (D1 & Hl & Hw). destruct (Hw _ _ E0 Hs) as (D2 & Hl' & Hq).
    exists D2. split; [by eapply later_trans|done].
  - simplify_eq. exact (Hm _ _ E1 Hs).
  - simplify_eq. exact (Hm _ _ E1 Hs).
Qed.

(** A step that leaves the state alone. *)
Lemma wp_same {A} D s (m : TM A) Q : env_ok D s → (m s).2 = s → Q (m s).1 D s → wp D s m Q.
Proof.
  intros Hok Hm HQ res s' E0 Hs. rewrite E0 in Hm, HQ. simpl in *. subst s'. exists D. split; [by apply later_refl|done].
Qed.

(** A step that changes only the transaction, the sink or the cache. *)
Lemma wp_trx {A} D s (m : TM A) Q s' :
  env_ok D s → (m s).2 = s' → en_storage s' = en_storage s → trx_ok D (en_storage s) (en_trx s') → Q (m s).1 D s' → wp D s m Q.
Proof.
  intros [Hi Ht] Hm Hst Ht' HQ res s2 E0 Hs. rewrite E0 in Hm, HQ. simpl in *. subst s2. exists D. split; [|done].
  split; [done|unfold env_grows; rewrite Hst; reflexivity|by split; rewrite Hst|].
  intros h Hh. rewrite Hst. exists h. split; [done|apply anc_refl].
Qed.

(** * Searching *)
Lemma locate_sound D st t a l :
  sl_inv D st → trx_ok D st t → locate search_fuel t st a = Ok (Some l) →
  has_address D st l a ∧ ∃ q m, (get_head st = Ok q ∨ ∃ b, (b, q) ∈ trx_heads t) ∧ anc st q m ∧ loc_segment m = loc_segment l.
Proof.
  intros Hi Ht E. pose proof (sl_graph _ _ Hi) as Hg.
  assert (∀ start, valid D st start → get_location_from (search_fuel st) st start a = Some (Ok (Some l)) →
    has_address D st l a ∧ ∃ m, anc st start m ∧ loc_segment m = loc_segment l) as Hfound.
  { intros start Hv Es. destruct (get_location_loop_sound D st Hg _ _ _ _ (Forall_cons_2 _ _ _ Hv (Forall_nil_2 _)) Es)
      as (Ha & q & m & ->%list_elem_of_singleton & ? & ?). eauto. }
  unfold locate, get_location in E. destruct (get_head st) as [h|e|x] eqn:Eh; [|done..].
  destruct (get_location_from (search_fuel st) st h a) as [[[l'|]|e|x]|] eqn:Es; simpl in E; try done.
  { injection E as ->. destruct (Hfound h (sl_head _ _ _ Hi Eh) Es) as (Ha & m & ? & ?). split; [done|]. exists h, m. eauto. }
  assert (∀ hs, (∀ q, q ∈ hs → ∃ b, (b, q) ∈ trx_heads t) → locate_heads search_fuel st a hs = Ok (Some l) →
    has_address D st l a ∧ ∃ q m, (∃ b, (b, q) ∈ trx_heads t) ∧ anc st q m ∧ loc_segment m = loc_segment l) as Hheads.
  { induction hs as [|q hs IH]; intros Hq El; [done|]. simpl in El.
    destruct (get_location_from (search_fuel st) st q a) as [[[l'|]|e|x]|] eqn:Eq; simpl in El; try done.
    - injection El as ->. destruct (Hq q) as [b Hb]; [by left|].
      destruct (Hfound q) as (Ha & m & ? & ?); [by eapply has_address_valid, to_head|done|]. split; [done|]. exists q, m. eauto.
    - apply IH; [|done]. intros q' Hq'. apply Hq. by right. }
  destruct (Hheads (map snd (trx_heads t))) as (Ha & q & m & ? & ? & ?); [|done|].
  - intros q ([b q'] & -> & Hin)%list_elem_of_fmap. by exists b.
  - split; [done|]. exists q, m. eauto.
Qed.

Lemma anc_segment D st l x :
  graph_ok D st → D (loc_segment l) → anc st l x →
  loc_segment x < loc_segment l ∨ loc_segment x = loc_segment l ∧ loc_command x ≤ loc_command l.
Proof.
  intros Hg HDl Ha. induction Ha as [l x Hn Hc|l x seg q Hs Hq _ IH]; [by right|]. left.
  destruct (go_shape _ _ Hg _ HDl) as (seg' & base & len & Hs' & Hsh). simplify_eq.
  destruct (sh_prior _ _ _ _ _ _ Hsh q Hq) as (Hlt & c & [HDq _] & _). destruct (IH HDq) as [|[? _]]; lia.
Qed.

(** What is located is not after a head, unless it is that head. *)
Lemma located_free D st t a l b h :
  alone → sl_inv D st → trx_ok D st t → locate search_fuel t st a = Ok (Some l) → (b, h) ∈ trx_heads t → b ≠ a → ¬ anc st l h.
Proof.
  intros Hal Hi Ht E Hin Hne Ha. pose proof (sl_graph _ _ Hi) as Hg. destruct (locate_sound D st t a l Hi Ht E) as (Hla & q & m & Hq & Hqm & Hm).
  destruct (decide (loc_segment h = loc_segment l)) as [Hseg|Hseg].
  - destruct (anc_segment D st l h Hg (proj1 Hla) Ha) as [|[_ Hle]]; [lia|].
    assert (loc_command l ≤ loc_command h).
    { eapply (to_last _ _ _ Ht b h); [done|]. rewrite Hseg. destruct l. by eapply has_address_valid. }
    assert (l = h) as -> by (destruct l, h; simpl in *; f_equal; lia).
    destruct (to_head _ _ _ Ht _ _ Hin) as (_ & s1 & c1 & Hs1 & Hc1 & Ha1). destruct Hla as (_ & s2 & c2 & Hs2 & Hc2 & Ha2).
    simplify_eq. rewrite Ha1 in Ha2. by injection Ha2.
  - pose proof Hla as (_ & seg & _ & Hs & _). pose proof (anc_other_segment st l m h seg Hm Hseg Hs Ha) as Hmh.
    pose proof (anc_trans st _ _ _ Hqm Hmh) as Hqh. destruct Hq as [Hq|[c Hq]]; [by eapply (to_free _ _ _ Ht)|].
    destruct (decide (c = b)) as [->|Hcb]; [|by eapply (to_anti _ _ _ Ht c q b h)].
    assert (q = h) as ->.
    { apply (bt_elem_get _ _ _ (to_wf _ _ _ Ht)) in Hq, Hin. rewrite Hq in Hin. by injection Hin. }
    assert (h = m) as <-; [|done].
    eapply anc_antisym; [done| |done|done]. by eapply has_address_valid, to_head.
Qed.

(** * Writing out the perspective *)

(** Fewer heads, and no perspective or the same one. *)
Lemma trx_ok_shrink D st t t' :
  trx_ok D st t → bt_wf (trx_heads t') → (∀ x, x ∈ trx_heads t' → x ∈ trx_heads t) →
  (∀ p, trx_perspective t' = Some p → trx_perspective t = Some p) → trx_ok D st t'.
Proof. intros [Hw Ha Hl Hf Han Hp Hpf] Hw' Hsub Hper. split; try done; eauto. Qed.

Lemma trx_ok_no_heads D st t :
  trx_heads t = [] → (∀ p, trx_perspective t = Some p → sl_persp D st p) → trx_ok D st t.
Proof.
  intros Hnil Hp. assert (∀ x, x ∈ trx_heads t → False) as Hno by (intros x; rewrite Hnil; apply not_elem_of_nil).
  split; try done; try (intros; exfalso; by eapply Hno). rewrite Hnil. apply bt_wf_nil.
Qed.

(** Another perspective with the same parents. *)
Lemma trx_ok_persp D st t t' p p' :
  trx_ok D st t → trx_perspective t = Some p → trx_heads t' = trx_heads t → trx_perspective t' = Some p' →
  sl_persp D st p' → sl_prior p' = sl_prior p → trx_ok D st t'.
Proof.
  intros [Hw Ha Hl Hf Han Hp Hpf] Ep Hh Ep' Hok Hpr. split; rewrite ?Hh; try done.
  - intros p2 E2. rewrite Ep' in E2. by injection E2 as <-.
  - intros p2 a l q Hal E2. rewrite Ep' in E2. injection E2 as <-. rewrite Hpr. by apply Hpf.
Qed.

(** The head of a segment just written becomes a head. *)
Lemma trx_ok_insert D st D' st' t n seg a c cmd pr :
  sl_inv D st → sl_inv D' st' → D' = with_segment D n → ¬ D n → sl_grows st st' → get_head st' = get_head st →
  trx_ok D st t → trx_perspective t = None → seg_at st' n = Some seg → seg_prior seg = pr →
  (∀ b l q, (b, l) ∈ trx_heads t → q ∈ prior_list pr → valid D st q ∧ (alone → ¬ anc st q l)) →
  seg_head_location seg = Ok (mkLocation n c) → (∀ k, valid D' st' (mkLocation n k) → k ≤ c) →
  seg_get_command seg (mkLocation n c) = Some cmd → cmd_address cmd = Ok a →
  trx_ok D' st' (set_heads (bt_insert a (mkLocation n c) (trx_heads t)) t).
Proof.
  intros Hi Hi' -> Hn Hgr Hh Ht Hnone Hseg Hpr Hfree Hloc Hlast Hcmd Haddr.
  pose proof (trx_ok_grow D (with_segment D n) st st' t Hi Hi' (λ k Hk, or_introl Hk) Hgr (λ _, Hh) Ht) as [Hw Ha Hl Hf Han Hp Hpf].
  assert (∀ x l b, (b, l) ∈ trx_heads t → anc st' l x → D (loc_segment x)) as Hdom.
  { intros x l b Hin Hx. pose proof (to_head _ _ _ Ht _ _ Hin) as [HDl _].
    eapply (anc_dom D st (sl_graph _ _ Hi) l); [done|]. by eapply grow_anc. }
  assert (∀ b l, alone → (b, l) ∈ trx_heads t → ¬ anc st' (mkLocation n c) l) as Hnew.
  { intros b l Hal Hin Hx. pose proof (to_head _ _ _ Ht _ _ Hin) as [HDl _].
    destruct (anc_inv st' _ _ _ Hx Hseg) as [[Hs _]|(q & Hq & Hqx)]; [simpl in Hs; by rewrite Hs in HDl|].
    rewrite Hpr in Hq. destruct (Hfree b l q Hin Hq) as [[cq [HDq _]] Hno]. apply (Hno Hal). by eapply grow_anc. }
  split; simpl.
  - by apply bt_wf_insert.
  - intros b l Hin. apply elem_of_bt_insert in Hin as [[= -> ->]|Hin]; [|by apply Ha].
    split; [by right|]. by exists seg, cmd.
  - intros b l k Hin. apply elem_of_bt_insert in Hin as [[= -> ->]|Hin]; [by apply Hlast|by eapply Hl].
  - intros b l h Hal Hin Hhead. apply elem_of_bt_insert in Hin as [[= -> ->]|Hin]; [|by eapply Hf]. intros Hx. apply Hn.
    rewrite Hh in Hhead. destruct (sl_head _ _ _ Hi Hhead) as [ch [HDh _]].
    apply (anc_dom D st (sl_graph _ _ Hi) h (mkLocation n c)); [done|]. by eapply grow_anc.
  - intros b l b' l' Hal Hin Hin' Hne.
    apply elem_of_bt_insert in Hin as [[= -> ->]|Hin], Hin' as [[= -> ->]|Hin']; [done|by eapply Hnew| |by eapply Han].
    intros Hx. apply Hn. exact (Hdom _ _ _ Hin Hx).
  - by rewrite Hnone.
  - by rewrite Hnone.
Qed.

(** ** Storage operations inside the monad *)
Lemma wp_write D s p :
  env_ok D s → sl_persp D (en_storage s) p →
  wp D s (on_storage (st_write p)) (λ res D' s',
    en_trx s' = en_trx s ∧ get_head (en_storage s') = get_head (en_storage s) ∧
    match res with
    | Ok seg => ∃ n, D' = with_segment D n ∧ ¬ D n ∧ seg_at (en_storage s') n = Some seg ∧ seg_prior seg = sl_prior p
                ∧ ∀ id, p_includes id p = true → ∃ c cmd, seg_get_command seg (mkLocation n c) = Some cmd ∧ cmd_id cmd = id
    | _ => True
    end).
Proof.
  intros [Hi Ht] Hp res s' E Hs. unfold on_storage in E. pose proof (sl_write_grows p (en_storage s)) as Hgr.
  destruct (st_write p (en_storage s)) as [r st'] eqn:Ew. simpl in Hgr. injection E as <- <-. simpl in *.
  destruct (sl_write _ _ _ _ _ Hi Hp Ew Hs) as [Hh Hr].
  assert (∀ D', (∀ n, D n → D' n) → sl_inv D' st' → later D s D' (mkEnv (en_trx s) st' (en_sink s) (en_cache s))) as Hlater.
  { intros D' HD Hi'. split; [done|done|split; [done|by eapply (trx_ok_grow D D' (en_storage s))]|].
    intros h Hhead. exists h. split; [by rewrite <- Hhead|apply anc_refl]. }
  destruct r as [seg|e|x]; simpl.
  - destruct Hr as (n & Hn & Hi' & Hseg & Hpr & Hinc). exists (with_segment D n).
    split; [apply Hlater; [by left|done]|]. split_and!; [done..|]. by exists n.
  - exists D. split; [by apply Hlater|done].
  - exists D. split; [by apply Hlater|done].
Qed.

Lemma wp_write_facts D s f :
  env_ok D s → sl_facts D (en_storage s) f →
  wp D s (on_storage (st_write_facts f)) (λ res D' s',
    D' = D ∧ en_trx s' = en_trx s ∧ get_head (en_storage s') = get_head (en_storage s) ∧ ∀ i, res = Ok i → sl_index D (en_storage s') i).
Proof.
  intros [Hi Ht] Hf res s' E Hs. unfold on_storage in E. pose proof (sl_write_facts_grows f (en_storage s)) as Hgr.
  destruct (st_write_facts f (en_storage s)) as [r st'] eqn:Ew. simpl in Hgr. injection E as <- <-. simpl in *.
  destruct (sl_write_facts _ _ _ _ _ Hi Hf Ew) as (Hi' & Hh & Hr). exists D. split.
  - split; [done|done|split; [done|by eapply (trx_ok_grow D D (en_storage s))]|].
    intros h Hhead. exists h. split; [by rewrite <- Hhead|apply anc_refl].
  - split_and!; [done..|]. intros i Hri. apply Hr. destruct r; by simplify_eq/=.
Qed.

Lemma wp_try_commit D s n seg :
  env_ok D s → trx_heads (en_trx s) = [] → D n → seg_at (en_storage s) n = Some seg →
  wp D s (try_commit search_fuel seg) (λ res D' s',
    D' = D ∧ en_trx s' = en_trx s ∧ (res = Ok true → ∃ h, seg_head_location seg = Ok h ∧ get_head (en_storage s') = Ok h)).
Proof.
  intros [Hi Ht] Hnil Hn Hseg res s' E Hs. unfold try_commit in E.
  pose proof (sl_commit_grows (search_fuel (en_storage s)) seg (en_storage s)) as Hgr.
  destruct (st_commit _ seg (en_storage s)) as [r st'] eqn:Ec. simpl in Hgr. injection E as <- <-. simpl in *.
  destruct (sl_commit _ _ _ _ _ _ _ Hi Hn Hseg Ec) as [Hi' Hcase]. exists D. split.
  - split; [done|done| |].
    + split; [done|]. apply trx_ok_no_heads; [done|]. intros p Ep. apply (sl_persp_grows D D (en_storage s) st'); [done..|]. by apply (to_persp _ _ _ Ht).
    + intros h Hhead. destruct Hcase as [[_ Heq]|(h' & Hloc & Hh' & Hold)].
      * exists h. split; [by rewrite <- Hhead|apply anc_refl].
      * exists h'. split; [done|]. simpl. apply (grow_anc D (en_storage s) st'); [done|done| |by apply Hold].
        destruct (sl_head_location _ _ _ _ Hi Hn Hseg) as (c & Hc & _). rewrite Hloc in Hc. by injection Hc as ->.
  - split_and!; [done..|]. intros Hres. destruct Hcase as [[Hr _]|(h' & ? & ? & _)]; [|by eauto].
    destruct r as [[]|e|x]; [done|by destruct e|done].
Qed.

(** A pure value, through [lift] and friends. *)
Lemma wp_lift {A} D s (o : outcome ClientError A) Q : env_ok D s → Q o D s → wp D s (lift o) Q.
Proof. intros Hok HQ. by apply wp_same. Qed.
Lemma wp_with {A} D s (f : St → outcome ClientError A) Q : env_ok D s → Q (f (en_storage s)) D s → wp D s (with_storage f) Q.
Proof. intros Hok HQ. by apply wp_same. Qed.
Lemma wp_upd_trx D s f Q :
  env_ok D s → trx_ok D (en_storage s) (f (en_trx s)) →
  Q (Ok tt) D (mkEnv (f (en_trx s)) (en_storage s) (en_sink s) (en_cache s)) → wp D s (upd_trx f) Q.
Proof. intros Hok Ht HQ. by eapply wp_trx. Qed.
Lemma wp_upd_sink D s f Q :
  env_ok D s → Q (Ok tt) D (mkEnv (en_trx s) (en_storage s) (f (en_sink s)) (en_cache s)) → wp D s (upd_sink f) Q.
Proof. intros Hok HQ. eapply wp_trx; [done..|apply Hok|done]. Qed.

(** ** [flush_perspective] *)

(** The command [id] comes at or before one of the heads. *)
Definition under_heads st (heads : list (Address * Location)) (id : CommandId) : Prop :=
  ∃ a l x seg cmd, (a, l) ∈ heads ∧ anc st l x ∧ seg_at st (loc_segment x) = Some seg ∧ seg_get_command seg x = Some cmd ∧ cmd_id cmd = id.

Lemma wp_flush D s reset :
  env_ok D s →
  wp D s (flush_perspective reset) (λ res D' s', ∀ u, res = Ok u →
    trx_perspective (en_trx s') = None ∧ get_head (en_storage s') = get_head (en_storage s)
    ∧ (∀ a l, (a, l) ∈ trx_heads (en_trx s) → ∃ l', (a, l') ∈ trx_heads (en_trx s'))
    ∧ ∀ p, trx_perspective (en_trx s) = Some p →
        (∃ x, x ∈ trx_heads (en_trx s'))
        ∧ ∀ id, p_includes id p = true → under_heads (en_storage s') (trx_heads (en_trx s')) id).
Proof.
  intros Hok. unfold flush_perspective. apply wp_bind; [intros; grows_tac|]. apply wp_same; [done..|]. simpl.
  destruct (trx_perspective (en_trx s)) as [p|] eqn:Ep.
  2: { apply wp_same; [done..|]. intros u _. split_and!; [done|done|by eauto|done]. }
  pose proof Hok as [Hi Ht]. pose proof (to_persp _ _ _ Ht _ Ep) as Hp.
  apply wp_bind; [intros; grows_tac|]. set (t0 := set_perspective None (if reset then set_phead None (en_trx s) else en_trx s)).
  assert (trx_ok D (en_storage s) t0) as Ht0.
  { apply (trx_ok_shrink _ _ (en_trx s)); [done|..]; unfold t0; destruct reset; try done; apply Ht. }
  apply wp_upd_trx; [done..|]. set (s0 := mkEnv _ _ _ _). assert (env_ok D s0) as Hok0 by done.
  apply wp_bind; [intros; grows_tac|]. eapply wp_mono; [apply (wp_write D s0 p Hok0 Hp)|].
  intros [seg|e|x] D1 s1 Hl1 (Htrx & Hh & Hw); [|by intros u..]. destruct Hw as (n & -> & Hn & Hseg & Hpr & Hinc).
  pose proof (la_ok _ _ _ _ Hl1) as Hok1. pose proof Hok1 as [Hi1 Ht1].
  destruct (sl_head_location _ _ _ _ Hi1 (or_intror eq_refl) Hseg) as (c & Hloc & Hv & Hlast & Hhead).
  apply wp_bind; [intros; grows_tac|]. apply wp_lift; [done|]. destruct (seg_head seg) as [cmd|e|x]; [|by intros u..]. simpl.
  apply wp_bind; [intros; grows_tac|]. apply wp_lift; [done|]. destruct (cmd_address cmd) as [a|e|x] eqn:Ea; [|by intros u..]. simpl.
  apply wp_bind; [intros; grows_tac|]. apply wp_lift; [done|]. rewrite Hloc. simpl.
  assert (trx_heads (en_trx s1) = trx_heads (en_trx s)) as Hheads by (rewrite Htrx; by destruct reset).
  apply wp_upd_trx; [done| |].
  - eapply (trx_ok_insert D (en_storage s) _ (en_storage s1) (en_trx s1) n seg a c cmd); try done; try apply Hl1.
    + rewrite Htrx. done.
    + rewrite Htrx. by destruct reset.
    + intros b l q Hin Hq. rewrite Hheads in Hin. split; [by eapply sl_persp_prior|intros Hal; by eapply (to_persp_free _ _ _ Ht)].
    + by apply Hhead.
  - intros u _. simpl. rewrite Hheads. split_and!.
    + rewrite Htrx. by destruct reset.
    + done.
    + intros b l Hin. eapply elem_of_bt_insert_key; [apply Ht|done].
    + intros p' [= <-]. split; [eexists; apply elem_of_bt_insert_new|]. intros id Hid.
      destruct (Hinc id Hid) as (k & cmd' & Hk & Hidk). exists a, (mkLocation n c), (mkLocation n k), seg, cmd'.
      split_and!; [apply elem_of_bt_insert_new| |done..]. apply anc_here; [done|]. simpl. apply Hlast.
      destruct (go_shape _ _ (sl_graph _ _ Hi1) n (or_intror eq_refl)) as (seg' & base & len & Hs' & Hsh). simplify_eq.
      eexists. eapply shape_max_cut_at; [by right|done|done|]. apply (sh_command _ _ _ _ _ _ Hsh). by eexists.
Qed.

(** * Adding commands *)
Lemma wp_any {A} D s (m : TM A) Q : (∀ res D' s', Q res D' s') → wp D s m (λ _ _ _, True) → wp D s m Q.
Proof. intros HQ Hm. eapply wp_mono; [done|]. auto. Qed.

(** Skips to the continuation of a step that cannot fail usefully. *)
Ltac wp_step := apply wp_bind; [intros; grows_tac|].

Lemma trx_ok_open D st t a l p :
  sl_inv D st → trx_ok D st t → trx_perspective t = None → locate search_fuel t st a = Ok (Some l) →
  sl_persp D st p → sl_prior p = PSingle l →
  trx_ok D st (set_heads (bt_remove a (trx_heads t)) (set_phead (Some (ad_id a)) (set_perspective (Some p) t))).
Proof.
  intros Hi Ht Hnone Eloc Hp Hpr. pose proof Ht as [Hw Ha Hl Hf Han _ _].
  assert (∀ x, x ∈ bt_remove a (trx_heads t) → x ∈ trx_heads t) as Hsub by (intros x; apply elem_of_bt_remove).
  split; simpl; try (by intros; eauto).
  - by apply bt_wf_remove.
  - by intros p' [= <-].
  - intros p' b h q Hal [= <-] Hin. rewrite Hpr. intros ->%list_elem_of_singleton.
    eapply located_free; [done|done|done|done|by apply Hsub|]. intros ->.
    apply (bt_elem_get _ _ _ (bt_wf_remove _ _ Hw)) in Hin. rewrite bt_get_remove, ord_eqb_refl in Hin by done. done.
Qed.

Lemma wp_get_perspective D s a :
  env_ok D s → wp D s (get_perspective search_fuel a) (λ res D' s', ∀ p, res = Ok p → trx_perspective (en_trx s') = Some p).
Proof.
  intros Hok. unfold get_perspective. wp_step. apply wp_same; [done..|]. simpl. case_bool_decide as Hph.
  { apply wp_lift; [done|]. intros p Hp. by destruct (trx_perspective (en_trx s)); simplify_eq/=. }
  wp_step. eapply wp_mono; [apply wp_flush, Hok|]. intros [[]|e|x] D1 s1 Hl1 Hf; [|by intros p..].
  destruct (Hf tt eq_refl) as (Hnone & _). pose proof (la_ok _ _ _ _ Hl1) as Hok1. pose proof Hok1 as [Hi1 Ht1].
  wp_step. apply wp_same; [done..|]. simpl. wp_step. apply wp_with; [done|].
  destruct (locate search_fuel (en_trx s1) (en_storage s1) a) as [[l|]|e|x] eqn:El; [..|by intros p|by intros p].
  2: { wp_step. apply wp_same; [done..|]. by intros p. }
  destruct (locate_sound _ _ _ _ _ Hi1 Ht1 El) as [Hla _].
  wp_step. apply wp_same; [done..|]. simpl. wp_step. apply wp_with; [done|].
  destruct (get_linear_perspective (en_storage s1) l) as [[p|]|e|x] eqn:Ep; [..|by intros p|by intros p]; simpl.
  2: { wp_step. apply wp_lift; [done|]. by intros p. }
  destruct (sl_linear _ _ _ _ Hi1 (has_address_valid _ _ _ _ Hla) Ep) as [Hp Hpr].
  wp_step. apply wp_lift; [done|]. simpl. wp_step.
  assert (trx_ok D1 (en_storage s1) (set_heads (bt_remove a (trx_heads (en_trx s1)))
    (set_phead (Some (ad_id a)) (set_perspective (Some p) (en_trx s1))))) as Ht2 by by eapply trx_ok_open.
  apply wp_upd_trx; [done|done|]. apply wp_same; [done..|]. by intros p' [= <-].
Qed.

Lemma wp_eval D s pol c p :
  env_ok D s → trx_perspective (en_trx s) = Some p → wp D s (eval_on_perspective pol c p) (λ _ _ s', is_Some (trx_perspective (en_trx s'))).
Proof.
  intros Hok Ep. pose proof Hok as [Hi Ht]. unfold eval_on_perspective.
  destruct (pol_call_rule pol c RecallNone (p, en_sink s)) as [res [p' sk]] eqn:Er.
  assert (sl_persp D (en_storage s) p' ∧ sl_prior p' = sl_prior p) as [Hp' Hpr].
  { refine (call_rule_keeps (λ q, sl_persp D (en_storage s) q ∧ sl_prior q = sl_prior p) pol c RecallNone p _ res p' _ _ _ _ Er).
    - intros name keys v q [Hq <-]. by apply sl_insert.
    - intros name keys q [Hq <-]. by apply sl_delete.
    - split; [by apply (to_persp _ _ _ Ht)|done]. }
  eapply wp_trx; [done|cbn beta; rewrite Er; by destruct res|done| |by eexists].
  by eapply (trx_ok_persp D (en_storage s) (en_trx s) _ p p').
Qed.
Lemma wp_perspective_add D s c : env_ok D s → wp D s (perspective_add_command c) (λ _ _ _, True).
Proof.
  intros Hok. pose proof Hok as [Hi Ht]. unfold perspective_add_command.
  destruct (trx_perspective (en_trx s)) as [p|] eqn:Ep; [|apply wp_same; cbn beta; by rewrite ?Ep].
  destruct (p_add_command c p) as [res p'] eqn:Ea. destruct (sl_add D (en_storage s) c p res p') as [Hp' Hpr]; [by apply (to_persp _ _ _ Ht)|done|].
  eapply wp_trx; [done|cbn beta; by rewrite Ep, Ea|done| |done]. by eapply (trx_ok_persp D (en_storage s) (en_trx s) _ p p').
Qed.
Lemma wp_perspective_revert D s i : env_ok D s → wp D s (perspective_revert i) (λ _ _ _, True).
Proof.
  intros Hok. pose proof Hok as [Hi Ht]. unfold perspective_revert.
  destruct (trx_perspective (en_trx s)) as [p|] eqn:Ep; [|apply wp_same; cbn beta; by rewrite ?Ep].
  destruct (p_revert i p) as [p'|e|x] eqn:Ea; [|apply wp_same; cbn beta; by rewrite ?Ep, ?Ea..].
  destruct (sl_revert D (en_storage s) i p p') as [Hp' Hpr]; [by apply (to_persp _ _ _ Ht)|done|].
  eapply wp_trx; [done|cbn beta; by rewrite Ep, Ea|done| |done]. by eapply (trx_ok_persp D (en_storage s) (en_trx s) _ p p').
Qed.

Lemma wp_add_single D s e c a : env_ok D s → wp D s (add_single search_fuel e c a) (λ _ _ _, True).
Proof.
  intros Hok. unfold add_single. wp_step. eapply wp_mono; [apply wp_get_perspective, Hok|].
  intros [p|x|x] D1 s1 Hl1 Hp; [|done..]. specialize (Hp p eq_refl). pose proof (la_ok _ _ _ _ Hl1) as Hok1.
  wp_step. apply wp_lift; [done|]. destruct (try_engine _) as [pol|x|x]; [|done..].
  wp_step. apply wp_upd_sink; [done|]. set (s2 := mkEnv _ _ _ _). assert (env_ok D1 s2) as Hok2 by done.
  wp_step. eapply wp_mono; [by apply wp_eval|]. intros [[x|]|x|x] D3 s3 Hl3 _; [..|done|done];
    pose proof (la_ok _ _ _ _ Hl3) as Hok3; clear s2 Hok2 Hl3.
  - wp_step. eapply wp_mono; [apply wp_perspective_revert, Hok3|]. intros [[]|y|y] D4 s4 Hl4 _; [|done..].
    pose proof (la_ok _ _ _ _ Hl4) as Hok4. wp_step. apply wp_upd_sink; [done|]. by apply wp_same.
  - wp_step. eapply wp_mono; [apply wp_perspective_add, Hok3|]. intros [[]|y|y] D4 s4 Hl4 _; [|done..].
    pose proof (la_ok _ _ _ _ Hl4) as Hok4. wp_step. apply wp_upd_sink; [done|]. apply wp_upd_trx; [done| |done].
    apply (trx_ok_shrink _ _ (en_trx s4)); try done; apply Hok4.
Qed.

(** * Braids *)
Lemma call_rules_facts D st st0 pol rest f sk res f' sk' :
  sl_facts D st f → call_rules (Sk := Sk) pol st0 rest (f, sk) = (res, (f', sk')) → sl_facts D st f'.
Proof.
  revert f sk. induction rest as [|l rest IH]; intros f sk Hf E0; simpl in E0; [by simplify_eq|].
  destruct (try_storage _ ≫= _) as [c|x|x]; [|by simplify_eq..].
  destruct (pol_call_rule pol c RecallOnCheck (f, sk)) as [r [f1 sk1]] eqn:Er.
  assert (sl_facts D st f1) as Hf1.
  { refine (call_rule_keeps (sl_facts D st) pol c RecallOnCheck f sk r f1 sk1 _ _ Hf Er);
      intros; [by apply sl_facts_insert|by apply sl_facts_delete]. }
  destruct r as [u|[]|x]; simplify_eq; by eauto.
Qed.

Lemma wp_make_braid D s pol l r :
  env_ok D s → valid D (en_storage s) l → valid D (en_storage s) r →
  wp D s (make_braid_segment search_fuel braid_fuel pol l r) (λ res D' s',
    D' = D ∧ en_trx s' = en_trx s ∧ get_head (en_storage s') = get_head (en_storage s)
    ∧ ∀ i lca, res = Ok (i, lca) → sl_index D (en_storage s') i
        ∧ ∃ fuel, last_common_ancestor fuel (en_storage s) l r = Some (Ok lca)).
Proof.
  intros Hok Hl Hr. pose proof Hok as [Hi Ht]. unfold make_braid_segment.
  wp_step. { destruct a; grows_tac. apply grows_pure. intros s0. by destruct (call_rules _ _ _ _) as [? [? ?]]. }
  apply wp_with; [done|].
  destruct (braid _ _ (en_storage s) l r) as [[order|x|x]|] eqn:Eb; simpl; [|by split_and!..].
  pose proof (braid_sound D (en_storage s) (sl_graph _ _ Hi) _ _ _ _ _ Hl Hr Eb) as Hv.
  wp_step. { destruct order; grows_tac. apply grows_pure. intros s0. by destruct (call_rules _ _ _ _) as [? [? ?]]. }
  apply wp_with; [done|].
  destruct (last_common_ancestor _ (en_storage s) l r) as [[lca|x|x]|] eqn:Elca; simpl; [|by split_and!..].
  destruct order as [|first rest]; [by apply wp_same|]. apply Forall_inv in Hv.
  wp_step. { apply grows_pure. intros s0. by destruct (call_rules _ _ _ _) as [? [? ?]]. }
  apply wp_with; [done|].
  destruct (get_fact_perspective (en_storage s) first) as [f|x|x] eqn:Ef; simpl; [|by split_and!..].
  pose proof (sl_fact_perspective _ _ _ _ Hi Hv Ef) as Hf.
  wp_step. { apply grows_pure. intros s0. by destruct (call_rules _ _ _ _) as [? [? ?]]. }
  apply wp_upd_sink; [done|]. set (s1 := mkEnv _ _ _ _). assert (env_ok D s1) as Hok1 by done.
  wp_step. destruct (call_rules pol (en_storage s1) rest (f, en_sink s1)) as [res [f' sk']] eqn:Ec.
  eapply (wp_trx _ _ _ _ (mkEnv (en_trx s) (en_storage s) sk' (en_cache s))); [done|by rewrite Ec|done|done|]. rewrite Ec. simpl.
  set (s2 := mkEnv _ _ _ _). assert (env_ok D s2) as Hok2 by done.
  pose proof (call_rules_facts _ _ _ _ _ _ _ _ _ _ Hf Ec) as Hf'. destruct res as [[]|x|x]; simpl; [|by split_and!..].
  wp_step. eapply wp_mono; [by apply (wp_write_facts D s2)|]. intros [i|x|x] D3 s3 Hl3 (-> & Htrx & Hh & Hix); [|by split_and!..].
  pose proof (la_ok _ _ _ _ Hl3) as Hok3. wp_step. apply wp_upd_sink; [done|]. apply wp_same; [done..|].
  split_and!; [done..|]. intros i' lca' [= <- <-]. split; [by apply Hix|by eexists].
Qed.

(** A braid and the merge perspective opened on it. *)
Lemma merge_perspective_opened D s s' l r lca i policy p :
  env_ok D s → later D s D s' → valid D (en_storage s) l → valid D (en_storage s) r → (strict → incomp (en_storage s) l r) →
  sl_index D (en_storage s') i → (∃ fuel, last_common_ancestor fuel (en_storage s) l r = Some (Ok lca)) →
  new_merge_perspective (en_storage s') l r lca policy i = Ok (Some p) →
  sl_persp D (en_storage s') p ∧ sl_prior p = PMerge l r.
Proof.
  intros [Hi _] Hl Hvl Hvr Hinc Hix [fuel Hlca] Ep.
  eapply (sl_merge D (en_storage s) (en_storage s') fuel l r lca policy i p); try done; [apply Hl|apply Hl].
Qed.

Lemma wp_add_merge D s e c a b :
  (strict → False) → env_ok D s → wp D s (add_merge search_fuel braid_fuel e c a b) (λ _ _ _, True).
Proof.
  intros Hstrict Hok. unfold add_merge. wp_step. eapply wp_mono; [apply wp_flush, Hok|].
  intros [[]|x|x] D1 s1 Hl1 Hf; [|done..]. destruct (Hf tt eq_refl) as (Hnone & _).
  pose proof (la_ok _ _ _ _ Hl1) as Hok1. pose proof Hok1 as [Hi1 Ht1]. clear Hl1 Hf.
  wp_step. apply wp_same; [done..|]. simpl. wp_step. apply wp_with; [done|].
  destruct (locate search_fuel (en_trx s1) (en_storage s1) a) as [[l|]|x|x] eqn:Ea; [..|done|done].
  2: { wp_step. by apply wp_same. }
  wp_step. apply wp_same; [done..|]. simpl. wp_step. apply wp_with; [done|].
  destruct (locate search_fuel (en_trx s1) (en_storage s1) b) as [[r|]|x|x] eqn:Eb; [..|done|done].
  2: { wp_step. by apply wp_same. }
  destruct (locate_sound _ _ _ _ _ Hi1 Ht1 Ea) as [Hla%has_address_valid _].
  destruct (locate_sound _ _ _ _ _ Hi1 Ht1 Eb) as [Hlb%has_address_valid _].
  wp_step. apply wp_same; [done..|]. simpl. wp_step. apply wp_with; [done|]. destruct (choose_policy _ _ _ _) as [[pol pid]|x|x]; [|done..].
  wp_step. eapply wp_mono; [by apply wp_make_braid|]. intros [[i lca]|x|x] D2 s2 Hl2 (-> & Htrx & Hh & Hbr); [|done..].
  destruct (Hbr i lca eq_refl) as [Hix Hlca]. pose proof (la_ok _ _ _ _ Hl2) as Hok2. simpl.
  wp_step. apply wp_with; [done|]. destruct (new_merge_perspective _ _ _ _ _ _) as [[p|]|x|x] eqn:Ep; [..|done|done]; simpl.
  2: { wp_step. by apply wp_lift. }
  destruct (merge_perspective_opened _ _ _ _ _ _ _ _ _ Hok1 Hl2 Hla Hlb (λ H, False_ind _ (Hstrict H)) Hix Hlca Ep) as [Hp Hpr].
  wp_step. apply wp_lift; [done|]. simpl. wp_step. destruct (p_add_command c p) as [res p'] eqn:Eadd.
  destruct (sl_add _ _ _ _ _ _ Hp Eadd) as [Hp' Hpr']. rewrite Hpr in Hpr'. apply wp_same; [done..|]. cbn beta zeta iota.
  destruct res as [n|x|x]; simpl; [|done..]. pose proof Hok2 as [Hi2 Ht2].
  assert (bt_wf (bt_remove b (bt_remove a (trx_heads (en_trx s2))))) as Hw by apply bt_wf_remove, bt_wf_remove, Ht2.
  assert (∀ x, x ∈ bt_remove b (bt_remove a (trx_heads (en_trx s2))) → x ∈ trx_heads (en_trx s2)) as Hsub
    by (intros x Hx; by apply elem_of_bt_remove, elem_of_bt_remove in Hx).
  wp_step. apply wp_upd_trx; [done|by apply (trx_ok_shrink _ _ (en_trx s2))|]. set (s3 := mkEnv _ _ _ _).
  assert (env_ok D1 s3) as Hok3 by (split; [done|by apply (trx_ok_shrink _ _ (en_trx s2))]).
  assert (∀ d h, (d, h) ∈ trx_heads (en_trx s3) → d ≠ a ∧ d ≠ b ∧ (d, h) ∈ trx_heads (en_trx s1)) as Hnew.
  { intros d h Hin. split_and!; [intros ->|intros ->|rewrite <- Htrx; by apply Hsub];
      apply (bt_elem_get _ _ _ Hw) in Hin; rewrite !bt_get_remove in Hin by (try apply bt_wf_remove; apply Ht2);
      rewrite ord_eqb_refl in Hin; by repeat case_match. }
  assert (trx_ok D1 (en_storage s3) (set_perspective (Some p') (en_trx s3))) as Ht4.
  { pose proof Hok3 as [_ [Hw3 Ha3 Hl3 Hf3 Han3 _ _]]. split; simpl; try done; [by intros q [= <-]|].
    intros q d h x Hal [= <-] Hin. destruct (Hnew d h Hin) as (Hda & Hdb & Hin1). rewrite Hpr', prior_list_spec.
    intros [->|[->|[]%not_elem_of_nil]%elem_of_cons]%elem_of_cons Hx;
      [eapply (located_free _ _ _ _ l _ _ Hal Hi1 Ht1 Ea Hin1 Hda)|eapply (located_free _ _ _ _ r _ _ Hal Hi1 Ht1 Eb Hin1 Hdb)];
      (eapply (grow_anc D1 (en_storage s1) (en_storage s2)); [done|apply Hl2| |done]); [by destruct Hla as [? [? _]]|by destruct Hlb as [? [? _]]]. }
  wp_step. apply wp_upd_trx; [done..|]. set (s4 := mkEnv _ _ _ _). assert (env_ok D1 s4) as Hok4 by by split.
  wp_step. apply wp_upd_trx; [done|by apply (trx_ok_shrink _ _ (en_trx s4)); try done; apply Ht4|].
  apply wp_same; [|done..]. split; [done|]. apply (trx_ok_shrink _ _ (en_trx s4)); try done; apply Ht4.
Qed.

(** * The loop of [add_commands] *)
Lemma wp_cache D s a l : env_ok D s → wp D s (cache_add_command search_fuel a l) (λ _ _ _, True).
Proof.
  intros Hok. unfold cache_add_command. destruct (pc_add_command (search_fuel (en_storage s)) (en_storage s) a l (en_cache s)) as [res pc] eqn:Ec.
  eapply wp_trx; [done|cbn beta; by rewrite Ec|done|apply Hok|done].
Qed.

Lemma wp_add_one D s e c n : (strict → False) → env_ok D s → wp D s (add_command search_fuel braid_fuel e c n) (λ _ _ _, True).
Proof.
  intros Hstrict Hok. unfold add_command. wp_step. apply wp_same; [done..|]. simpl.
  assert (∀ D s k, env_ok D s → wp D s (mret k : TM nat) (λ _ _ _, True)) as Hret by (intros; by apply wp_same).
  destruct (match trx_perspective _ with Some _ => _ | None => _ end); [by apply Hret|].
  wp_step. apply wp_lift; [done|]. destruct (try_bug _) as [a|x|x]; [|done..]. wp_step. apply wp_with; [done|].
  assert (∀ D s l k, env_ok D s → wp D s (cache_add_command search_fuel a l ≫= λ _, mret k : TM nat) (λ _ _ _, True)) as Hcache.
  { intros D' s' l k Hok'. wp_step. eapply wp_mono; [by apply wp_cache|]. intros [[]|x|x] D2 s2 Hl2 _; [|done..]. apply Hret, Hl2. }
  destruct (locate _ _ _ _) as [[l|]|x|x]; [by apply Hcache| |done..].
  apply wp_bind; [intros; grows_tac|].
  match goal with |- wp D s ?m ?Q => assert (wp D s m (λ _ _ _, True)) as Hm end.
  { destruct (cmd_parent c) as [|a1|a1 a2].
    - case_bool_decide; [by apply Hret|by apply wp_same].
    - wp_step. eapply wp_mono; [by apply wp_add_single|]. intros [[]|x|x] D2 s2 Hl2 _; [|done..]. apply wp_lift; [apply Hl2|done].
    - wp_step. eapply wp_mono; [by apply wp_add_merge|]. intros [[]|x|x] D2 s2 Hl2 _; [..|done|done]; (apply wp_lift; [apply Hl2|done]). }
  eapply wp_mono; [exact Hm|]. intros [k|x|x] D2 s2 Hl2 _; [|done..]. pose proof (la_ok _ _ _ _ Hl2) as Hok2.
  wp_step. apply wp_same; [done..|]. simpl. wp_step. apply wp_with; [done|].
  destruct (locate _ _ _ _) as [[l|]|x|x]; [by apply Hcache|by apply Hret|done..].
Qed.

Lemma wp_add_commands D s e cs n :
  (strict → False) → env_ok D s → wp D s (add_commands_to search_fuel braid_fuel e cs n) (λ _ _ _, True).
Proof.
  intros Hstrict Hok. unfold add_commands_to. wp_step.
  assert (wp D s (add_command_loop search_fuel braid_fuel e cs n) (λ _ _ _, True)) as Hloop.
  { revert D s n Hok. induction cs as [|c cs IH]; intros D s n Hok; simpl; [by apply wp_same|]. wp_step.
    eapply wp_mono; [by apply wp_add_one|]. intros [k|x|x] D2 s2 Hl2 _; [|done..]. apply IH, Hl2. }
  eapply wp_mono; [exact Hloop|]. intros [k|x|x] D1 s1 Hl1 _; [|done..]. pose proof (la_ok _ _ _ _ Hl1) as Hok1.
  wp_step. apply wp_with; [done|]. destruct (try_storage (get_head _)) as [h|x|x]; [|done..].
  wp_step. apply wp_with; [done|]. destruct (try_storage (get_segment _ _)) as [seg|x|x]; [|done..].
  wp_step. apply wp_lift; [done|]. destruct (try_storage (seg_head seg)) as [c|x|x]; [|done..].
  wp_step. apply wp_lift; [done|]. destruct (try_bug (cmd_address c)) as [a|x|x]; [|done..].
  wp_step. eapply wp_mono; [by apply wp_cache|]. intros [[]|x|x] D2 s2 Hl2 _; [|done..]. apply wp_same; [apply Hl2|done..].
Qed.

(** * Committing *)
Lemma wp_merge_heads D s e x y :
  env_ok D s → valid D (en_storage s) x.2 → valid D (en_storage s) y.2 → (strict → incomp (en_storage s) x.2 y.2) →
  wp D s (merge_heads search_fuel braid_fuel e x y) (λ res D' s',
    en_trx s' = en_trx s ∧ get_head (en_storage s') = get_head (en_storage s) ∧
    ∀ a l, res = Ok (a, l) →
      D' = with_segment D (loc_segment l) ∧ ¬ D (loc_segment l) ∧ has_address D' (en_storage s') l a
      ∧ (∀ k, valid D' (en_storage s') (mkLocation (loc_segment l) k) → k ≤ loc_command l)
      ∧ ∀ z, D (loc_segment z) → anc (en_storage s') l z ↔ anc (en_storage s') x.2 z ∨ anc (en_storage s') y.2 z).
Proof.
  intros Hok Hx Hy Hinc. unfold merge_heads. wp_step. apply wp_with; [done|].
  destruct (choose_policy _ _ _ _) as [[pol pid]|u|u]; [|by split_and!..]. wp_step. apply wp_lift; [done|].
  destruct (try_bug (assume (merge_ids_new x.1 y.1) _)) as [ids|u|u]; [|by split_and!..].
  set (lr := match cmp x.1 y.1 with Gt => _ | _ => _ end).
  assert (valid D (en_storage s) lr.1 ∧ valid D (en_storage s) lr.2 ∧ (strict → incomp (en_storage s) lr.1 lr.2)
    ∧ ∀ Q : Location → Prop, Q lr.1 ∨ Q lr.2 ↔ Q x.2 ∨ Q y.2) as (Hl & Hr & Hinc' & Hlr).
  { unfold lr. destruct (cmp x.1 y.1); split_and!; try done. { intros [? ?]%Hinc. by split. } intros Q. tauto. }
  clearbody lr. destruct lr as [l r]. simpl in *. wp_step. apply wp_lift; [done|].
  destruct (try_engine (pol_merge pol ids)) as [c|u|u]; [|by split_and!..].
  wp_step. eapply wp_mono; [by apply wp_make_braid|]. intros [[i lca]|u|u] D2 s2 Hl2 (-> & Htrx & Hh & Hbr); [|by split_and!..].
  destruct (Hbr i lca eq_refl) as [Hix Hlca]. pose proof (la_ok _ _ _ _ Hl2) as Hok2. simpl.
  wp_step. apply wp_with; [done|]. destruct (new_merge_perspective _ _ _ _ _ _) as [[p|]|u|u] eqn:Ep; [..|by split_and!|by split_and!]; simpl.
  2: { wp_step. by apply wp_lift; [|split_and!]. }
  destruct (merge_perspective_opened _ _ _ _ _ _ _ _ _ Hok Hl2 Hl Hr Hinc' Hix Hlca Ep) as [Hp Hpr].
  wp_step. apply wp_lift; [done|]. simpl. wp_step. destruct (p_add_command c p) as [res p'] eqn:Eadd.
  destruct (sl_add _ _ _ _ _ _ Hp Eadd) as [Hp' Hpr']. rewrite Hpr in Hpr'. apply wp_same; [done..|]. cbn beta zeta iota.
  destruct res as [n|u|u]; simpl; [|by split_and!..].
  wp_step. eapply wp_mono; [by apply (wp_write D s2 p')|]. intros [seg|u|u] D3 s3 Hl3 (Htrx3 & Hh3 & Hw);
    [|split_and!; [by rewrite Htrx3|by rewrite Hh3|done]..].
  destruct Hw as (m & -> & Hm & Hseg & Hsp & _). rewrite Hpr' in Hsp. pose proof (la_ok _ _ _ _ Hl3) as Hok3. pose proof Hok3 as [Hi3 _].
  destruct (sl_head_location _ _ _ _ Hi3 (or_intror eq_refl) Hseg) as (k & Hloc & Hv & Hlast & Hhead).
  assert (en_trx s3 = en_trx s ∧ get_head (en_storage s3) = get_head (en_storage s)) as [Ht3 Hhd3] by (split; congruence).
  wp_step. apply wp_lift; [done|]. destruct (seg_head seg) as [cmd|u|u]; [|by split_and!..]. simpl.
  wp_step. apply wp_lift; [done|]. destruct (cmd_address cmd) as [a|u|u] eqn:Ea; [|by split_and!..]. simpl.
  wp_step. apply wp_lift; [done|]. rewrite Hloc. simpl. apply wp_same; [done..|]. split_and!; [done..|].
  intros a' l' [= <- <-]. simpl. split_and!; [done|done| |done|].
  - split; [by right|]. exists seg, cmd. split_and!; [done|by apply Hhead|done].
  - intros z HDz. rewrite <- (Hlr (λ q, anc (en_storage s3) q z)). split.
    + intros Hz. destruct (anc_inv (en_storage s3) (mkLocation m k) z seg Hz Hseg) as [[Hsz _]|(q & Hq & Hqz)]; [simpl in Hsz; by rewrite Hsz in HDz|].
      rewrite Hsp, prior_list_spec in Hq. apply elem_of_cons in Hq as [->| ->%list_elem_of_singleton]; [by left|by right].
    + intros [Hz|Hz]; (eapply (anc_prior (en_storage s3) (mkLocation m k)); [done| |done]); rewrite Hsp, prior_list_spec; [by left|by right; left].
Qed.

Lemma wp_commit_loop D s fuel e heads b :
  (strict → False) → env_ok D s → trx_heads (en_trx s) = [] → (∀ a l, (a, l) ∈ heads → valid D (en_storage s) l) →
  wp D s (commit_loop search_fuel braid_fuel fuel e heads b) (λ res D' s',
    en_trx s' = en_trx s ∧ (res = Ok tt → heads ≠ [] → ∃ h, get_head (en_storage s') = Ok h ∧ ∀ a l, (a, l) ∈ heads → anc (en_storage s') h l)).
Proof.
  intros Hstrict. revert D s heads b. induction fuel as [|fuel IH]; intros D s heads b Hok Hnil Hv.
  { destruct heads as [|x [|y heads]]; simpl; by apply wp_same. }
  destruct heads as [|x [|y heads]]; simpl; [by apply wp_same|..].
  - assert (valid D (en_storage s) x.2) as Hx by (destruct x as [ax lx]; apply (Hv ax); by left).
    destruct (valid_segment D (en_storage s) (sl_graph _ _ (proj1 Hok)) _ Hx) as (seg & base & len & Hseg & Hget & Hsh).
    pose proof Hx as [cx [HDx _]].
    destruct (sl_head_location _ _ _ _ (proj1 Hok) HDx Hseg) as (k & Hloc & _ & Hlast & _).
    wp_step. apply wp_with; [done|]. rewrite Hget. simpl.
    wp_step. eapply wp_mono; [by eapply wp_try_commit|]. intros [[]|u|u] D2 s2 Hl2 (-> & Htrx & Hc); [| |by split_and!..].
    + apply wp_same; [apply Hl2|done|]. split; [done|]. intros _ _. destruct (Hc eq_refl) as (h & Hh & Hhead). rewrite Hloc in Hh.
      injection Hh as <-. exists (mkLocation (loc_segment x.2) k). split; [done|]. intros a l Hin. apply list_elem_of_singleton in Hin as <-.
      apply anc_here; [done|]. simpl. apply Hlast. by destruct l.
    + pose proof (la_ok _ _ _ _ Hl2) as Hok2. destruct b; [by apply wp_same|].
      wp_step. apply wp_with; [done|]. destruct (get_head (en_storage s2)) as [h|u|u] eqn:Eh; simpl; [|by split_and!..].
      pose proof (sl_head _ _ _ (proj1 Hok2) Eh) as Hvh.
      destruct (valid_segment D (en_storage s2) (sl_graph _ _ (proj1 Hok2)) _ Hvh) as (hs & _ & _ & Hhs & Hgeth & _).
      wp_step. apply wp_with; [done|]. rewrite Hgeth. simpl. wp_step. apply wp_lift; [done|].
      destruct (seg_head hs) as [cmd|u|u]; simpl; [|by split_and!..]. wp_step. apply wp_lift; [done|].
      destruct (cmd_address cmd) as [a|u|u]; simpl; [|by split_and!..].
      destruct (sl_head_location _ _ _ _ (proj1 Hok2) (let '(ex_intro _ _ H) := Hvh in proj1 H) Hhs) as (kh & Hlh & Hvl & _).
      wp_step. apply wp_lift; [done|]. rewrite Hlh. simpl. eapply wp_mono.
      * apply (IH D s2); [done|by rewrite Htrx|]. intros a' l'. rewrite !elem_of_cons.
        intros [[= <-]|[[= -> ->]|[]%not_elem_of_nil]]; [|done].
        eapply grow_valid; [apply Hok|done|apply Hl2|]. exact Hx.
      * intros res D3 s3 Hl3 [Ht3 Hq]. split; [congruence|]. intros Hres _. destruct (Hq Hres) as (h3 & ? & Hall); [done|].
        exists h3. split; [done|]. intros a' l' Hin. apply (Hall a'). rewrite elem_of_cons. left. by apply list_elem_of_singleton in Hin.
  - assert (valid D (en_storage s) x.2) as Hx by (destruct x as [ax lx]; apply (Hv ax); by left).
    assert (valid D (en_storage s) y.2) as Hy by (destruct y as [ay ly]; apply (Hv ay); by right; left).
    wp_step. eapply wp_mono; [apply wp_merge_heads; try done|].
    intros [[a l]|u|u] D2 s2 Hl2 (Htrx & Hh & Hm); [|by split_and!..].
    destruct (Hm a l eq_refl) as (-> & Hn & Hal & _ & Hanc). eapply wp_mono.
    * apply (IH _ s2); [apply Hl2|by rewrite Htrx|]. unfold vec_push. intros a' l' [Hin|Hin]%elem_of_app.
      -- eapply grow_valid; [apply Hok|apply Hl2|apply Hl2|]. apply (Hv a'). by do 2 right.
      -- apply list_elem_of_singleton in Hin as [= -> ->]. by eapply has_address_valid.
    * intros res D3 s3 Hl3 [Ht3 Hq]. split; [congruence|]. intros Hres _. destruct (Hq Hres) as (h3 & Hh3 & Hall).
      { unfold vec_push. by destruct heads. }
      exists h3. split; [done|]. assert (∀ z, valid D (en_storage s) z → anc (en_storage s2) l z → anc (en_storage s3) h3 z) as Hup.
      { intros z _ Hz. eapply anc_trans; [apply (Hall a l); unfold vec_push; apply elem_of_app; right; by left|].
        eapply (grow_anc (with_segment D (loc_segment l)) (en_storage s2) (en_storage s3)); [apply Hl2|apply Hl3|by right|done]. }
      intros a' l'. rewrite !elem_of_cons. intros [<-|[<-|Hin]].
      -- apply Hup; [done|]. apply Hanc; [by destruct Hx as [? [? _]]|]. left. apply anc_refl.
      -- apply Hup; [done|]. apply Hanc; [by destruct Hy as [? [? _]]|]. right. apply anc_refl.
      -- apply (Hall a'). unfold vec_push. apply elem_of_app. by left.
Qed.

(** The command [id] is [h] or an ancestor of it. *)
Definition in_history st h (id : CommandId) : Prop :=
  ∃ x seg cmd, anc st h x ∧ seg_at st (loc_segment x) = Some seg ∧ seg_get_command seg x = Some cmd ∧ cmd_id cmd = id.

Lemma wp_commit_in D s e :
  (strict → False) → env_ok D s →
  wp D s (commit_in search_fuel braid_fuel e) (λ res D' s', res = Ok tt →
    trx_heads (en_trx s') = [] ∧ trx_perspective (en_trx s') = None ∧
    ((∃ x, x ∈ trx_heads (en_trx s)) ∨ is_Some (trx_perspective (en_trx s)) →
     ∃ h, get_head (en_storage s') = Ok h
       ∧ (∀ a l, (a, l) ∈ trx_heads (en_trx s) → ∃ l', has_address D' (en_storage s') l' a ∧ anc (en_storage s') h l')
       ∧ ∀ p id, trx_perspective (en_trx s) = Some p → p_includes id p = true → in_history (en_storage s') h id)).
Proof.
  intros Hstrict Hok. unfold commit_in. wp_step. eapply wp_mono; [apply wp_flush, Hok|]. intros [[]|u|u] D1 s1 Hl1 Hf; [|done..].
  destruct (Hf tt eq_refl) as (Hnone & Hh1 & Hkeys & Hpersp). pose proof (la_ok _ _ _ _ Hl1) as Hok1.
  wp_step. apply wp_same; [done..|]. cbn [get_trx fst]. wp_step.
  assert (trx_ok D1 (en_storage s1) (set_heads [] (en_trx s1))) as Ht2 by (apply trx_ok_no_heads; [done|simpl; by rewrite Hnone]).
  apply wp_upd_trx; [done|done|]. set (s2 := mkEnv _ _ _ _). assert (env_ok D1 s2) as Hok2 by (split; [apply Hok1|done]).
  eapply wp_mono; [apply (wp_commit_loop D1 s2); [done..|]|].
  { intros a l Hin. eapply has_address_valid, (to_head _ _ _ (proj2 Hok1)). exact Hin. }
  intros res D3 s3 Hl3 [Htrx Hc] Hres. rewrite Htrx. split_and!; [done|done|]. intros Hsome.
  assert (trx_heads (en_trx s1) ≠ []) as Hne.
  { destruct Hsome as [[[a l] Hin]|[p Hp]]; intros Hnil.
    - destruct (Hkeys a l Hin) as [l' Hl']. rewrite Hnil in Hl'. by apply not_elem_of_nil in Hl'.
    - destruct (Hpersp p Hp) as [[x Hx] _]. rewrite Hnil in Hx. by apply not_elem_of_nil in Hx. }
  destruct (Hc Hres Hne) as (h & Hh & Hall). exists h. split_and!; [done|..].
  - intros a l Hin. destruct (Hkeys a l Hin) as [l' Hl']. exists l'. split; [|by eapply Hall].
    eapply (grow_address D1); [apply Hl3|apply Hl3|]. by apply (to_head _ _ _ (proj2 Hok1)).
  - intros p id Hp Hid. destruct (Hpersp p Hp) as [_ Hu]. destruct (Hu id Hid) as (a & l & x & seg & cmd & Hin & Hx & Hseg & Hcmd & Hidc).
    destruct (sl_grows_seg _ _ _ _ (la_grows _ _ _ _ Hl3) Hseg) as (seg' & Hseg' & He). exists x, seg', cmd.
    rewrite <- (se_command _ _ He). split_and!; try done. eapply anc_trans; [by eapply Hall|].
    eapply (grow_anc D1 (en_storage s1) (en_storage s3)); [apply Hok1|apply Hl3| |done].
    by destruct (to_head _ _ _ (proj2 Hok1) _ _ Hin).
Qed.

(** * The turns of the loop of [commit] *)
(** One turn ends the loop, gives the heads of the next one, or meets the guard
    against merging with the head of the graph twice. *)
Inductive Turn := TurnDone | TurnNext (heads : list (Address * Location)) (merging_head : bool) | TurnAgain.

Definition graph_head : TM (Address * Location) :=
  head_loc ← with_storage (λ st, try_storage (get_head st));
  segment ← with_storage (λ st, try_storage (get_segment st head_loc));
  head ← lift (try_storage (seg_head segment));
  address ← lift (try_bug (cmd_address head));
  location ← lift (try_storage (seg_head_location segment));
  mret (address, location).
Lemma grows_graph_head : keeps env_keeps graph_head.
Proof. unfold graph_head. grows_tac. Qed.
#[local] Hint Resolve grows_graph_head : grows.
Definition commit_turn e (heads : list (Address * Location)) (merging_head : bool) : TM Turn :=
  match heads with
  | [] => mret TurnDone
  | l :: r :: heads' => head ← merge_heads search_fuel braid_fuel e l r; mret (TurnNext (vec_push head heads') merging_head)
  | [l] =>
      segment ← with_storage (λ st, try_storage (get_segment st l.2));
      committed ← try_commit search_fuel segment;
      if committed : bool then mret TurnDone
      else if merging_head then mret TurnAgain
      else head ← graph_head; mret (TurnNext [l; head] true)
  end.

Lemma commit_loop_turn fuel e heads b s :
  commit_loop search_fuel braid_fuel (S fuel) e heads b s
  = (turn ← commit_turn e heads b;
     match turn with
     | TurnDone => mret tt
     | TurnNext heads b => commit_loop search_fuel braid_fuel fuel e heads b
     | TurnAgain => throw (CEBug (BugMsg "merging with graph head again, would loop"))
     end) s.
Proof.
  destruct heads as [|x [|y heads]]; [done| |]; cbn [commit_loop commit_turn]; unfold graph_head, mbind, M_bind.
  - destruct (with_storage _ s) as [[seg| |] s1]; [|done..]. destruct (try_commit _ _ _) as [[[]| |] s2]; [done| |done..].
    destruct b; [done|]. repeat (match goal with |- context [match ?m with _ => _ end] =>
      match type of m with (outcome _ _ * _)%type => destruct m as [[?| |] ?] end end; [|done..]). done.
  - by destruct (merge_heads _ _ _ _ _ _) as [[head| |] s1].
Qed.

(** When the head of the graph is being merged, the last commit will be one of
    a segment with that head among the ancestors of its parents. *)
Definition over D (heads : list (Address * Location)) s : Prop :=
  ∃ h, get_head (en_storage s) = Ok h ∧
  ((∃ x y, heads = [x; y] ∧ anc (en_storage s) y.2 h) ∨
   ∃ y seg q, heads = [y] ∧ D (loc_segment y.2) ∧ seg_at (en_storage s) (loc_segment y.2) = Some seg
     ∧ q ∈ prior_list (seg_prior seg) ∧ anc (en_storage s) q h).
(** The turns of the loop that are left at most. *)
Definition turns (heads : list (Address * Location)) (merging_head : bool) : nat :=
  length heads + if merging_head then 0 else 2.

Lemma wp_eq {A} D s (m : TM A) Q : wp D s m Q → wp D s m (λ res D' s', Q res D' s' ∧ m s = (res, s')).
Proof. intros Hm res s' E Hs. destruct (Hm res s' E Hs) as (D' & Hl & Hq). by exists D'. Qed.

(** A segment over the head is not refused. *)
Lemma over_commits D s y seg q h s2 :
  env_ok D s → get_head (en_storage s) = Ok h → D (loc_segment y) → seg_at (en_storage s) (loc_segment y) = Some seg →
  q ∈ prior_list (seg_prior seg) → anc (en_storage s) q h → try_commit search_fuel seg s ≠ (Ok false, s2).
Proof.
  intros [Hi _] Hh HD Hseg Hq Hqh Ec. unfold try_commit in Ec.
  destruct (st_commit _ seg (en_storage s)) as [r st2] eqn:Er. assert (r = Err HeadNotAncestor) as ->.
  { destruct r as [u|[]|x0]; by simplify_eq/=. }
  exact (sl_commit_refuses _ _ _ _ _ _ Hi HD Hseg Er h q Hh Hq Hqh).
Qed.

Lemma wp_commit_turn D s e heads b :
  (strict → False) → env_ok D s → trx_heads (en_trx s) = [] → (∀ a l, (a, l) ∈ heads → valid D (en_storage s) l) →
  (b = true → over D heads s) →
  wp D s (commit_turn e heads b) (λ res D' s', en_trx s' = en_trx s ∧
    match res with
    | Ok (TurnNext heads' b') => (∀ a l, (a, l) ∈ heads' → valid D' (en_storage s') l) ∧ (b' = true → over D' heads' s')
        ∧ turns heads' b' < turns heads b ∧ heads' ≠ []
    | Ok TurnAgain => False
    | _ => True
    end).
Proof.
  intros Hstrict Hok Hnil Hv Hover. destruct heads as [|x [|y heads]]; simpl; [by apply wp_same|..].
  - assert (valid D (en_storage s) x.2) as Hx by (destruct x as [ax lx]; apply (Hv ax); by left).
    destruct (valid_segment D (en_storage s) (sl_graph _ _ (proj1 Hok)) _ Hx) as (seg & base & len & Hseg & Hget & Hsh).
    pose proof Hx as [cx [HDx _]]. wp_step. apply wp_with; [done|]. rewrite Hget. simpl.
    wp_step. eapply wp_mono; [eapply wp_eq; by eapply wp_try_commit|].
    intros [[]|u|u] D2 s2 Hl2 [(-> & Htrx & _) Ec]; [by apply wp_same; [apply Hl2|done|]| |by split_and!..].
    pose proof (la_ok _ _ _ _ Hl2) as Hok2. destruct b.
    { exfalso. destruct (Hover eq_refl) as (h & Hh & [(? & ? & [=] & _)|(y & seg' & q & [= <-] & HD & Hseg' & Hq & Hqh)]).
      rewrite Hseg in Hseg'. injection Hseg' as <-. by apply (over_commits D s x.2 seg q h s2 Hok Hh HD Hseg Hq Hqh). }
    unfold graph_head. wp_step. wp_step. apply wp_with; [done|].
    destruct (get_head (en_storage s2)) as [h|u|u] eqn:Eh; simpl; [|by split_and!..].
    pose proof (sl_head _ _ _ (proj1 Hok2) Eh) as Hvh.
    destruct (valid_segment D (en_storage s2) (sl_graph _ _ (proj1 Hok2)) _ Hvh) as (hs & _ & _ & Hhs & Hgeth & _).
    wp_step. apply wp_with; [done|]. rewrite Hgeth. simpl. wp_step. apply wp_lift; [done|].
    destruct (seg_head hs) as [cmd|u|u]; simpl; [|by split_and!..]. wp_step. apply wp_lift; [done|].
    destruct (cmd_address cmd) as [a|u|u]; simpl; [|by split_and!..].
    destruct (sl_head_location _ _ _ _ (proj1 Hok2) (let '(ex_intro _ _ H) := Hvh in proj1 H) Hhs) as (kh & Hlh & Hvl & Hlast & _).
    wp_step. apply wp_lift; [done|]. rewrite Hlh. simpl. apply wp_same; [done|done|]. simpl.
    apply wp_same; [done|done|]. simpl. split; [done|]. split_and!; [| |unfold turns; simpl; lia|done].
    + intros a' l'. rewrite !elem_of_cons. intros [[= <-]|[[= -> ->]|[]%not_elem_of_nil]]; [|done].
      eapply grow_valid; [apply Hok|done|apply Hl2|]. exact Hx.
    + intros _. exists h. split; [done|]. left. do 2 eexists. split; [done|]. apply anc_here; [done|]. simpl. apply Hlast. by destruct h.
  - assert (valid D (en_storage s) x.2) as Hx by (destruct x as [ax lx]; apply (Hv ax); by left).
    assert (valid D (en_storage s) y.2) as Hy by (destruct y as [ay ly]; apply (Hv ay); by right; left).
    wp_step. eapply wp_mono; [apply wp_merge_heads; try done|].
    intros [[a l]|u|u] D2 s2 Hl2 (Htrx & Hh & Hm); [|by split_and!..].
    destruct (Hm a l eq_refl) as (-> & Hn & Hal & _ & Hanc). pose proof (la_ok _ _ _ _ Hl2) as [Hi2 _].
    apply wp_same; [apply Hl2|done|]. simpl. split; [done|]. split_and!.
    + unfold vec_push. intros a' l' [Hin|Hin]%elem_of_app.
      * eapply grow_valid; [apply Hok|apply Hl2|apply Hl2|]. apply (Hv a'). by do 2 right.
      * apply list_elem_of_singleton in Hin as [= -> ->]. by eapply has_address_valid.
    + intros ->. destruct (Hover eq_refl) as (h & Hhead & [(x' & y' & [= <- <- ->] & Hyh)|(? & ? & ? & [=] & _)]).
      exists h. split; [by rewrite Hh|]. right. pose proof (sl_head _ _ _ (proj1 Hok) Hhead) as Hvh.
      assert (D (loc_segment h)) as HDh by (by destruct Hvh as [? [? _]]).
      destruct (valid_segment _ _ (sl_graph _ _ Hi2) _ (has_address_valid _ _ _ _ Hal)) as (seg & _ & _ & Hseg & _).
      assert (anc (en_storage s2) l h) as Hlh.
      { apply Hanc; [done|]. right. eapply (grow_anc D (en_storage s) (en_storage s2)); [apply Hok|apply Hl2| |done]. by destruct Hy as [? [? _]]. }
      destruct (anc_inv _ _ _ _ Hlh Hseg) as [[Hs _]|(q & Hq & Hqh)]; [by rewrite <- Hs in Hn|].
      exists (a, l), seg, q. split_and!; [done|by right|done..].
    + unfold turns, vec_push. rewrite length_app. simpl. lia.
    + unfold vec_push. by destruct heads.
Qed.

(** The run of the loop, turn by turn: how many turns it takes, and its result.
    There is no rule for the guard, and none for running out of fuel. *)
Inductive commit_run e : nat → list (Address * Location) → bool → env → outcome ClientError unit * env → Prop :=
| run_done heads b s s1 : commit_turn e heads b s = (Ok TurnDone, s1) → commit_run e 1 heads b s (Ok tt, s1)
| run_next heads b s heads' b' s1 n res :
    commit_turn e heads b s = (Ok (TurnNext heads' b'), s1) → commit_run e n heads' b' s1 res → commit_run e (S n) heads b s res
| run_fails heads b s err s1 : commit_turn e heads b s = (Err err, s1) → commit_run e 1 heads b s (Err err, s1)
| run_panics heads b s w s1 : commit_turn e heads b s = (Panic w, s1) → commit_run e 1 heads b s (Panic w, s1).

Lemma commit_loop_runs fuel D s e heads b :
  (strict → False) → env_ok D s → trx_heads (en_trx s) = [] → (∀ a l, (a, l) ∈ heads → valid D (en_storage s) l) →
  (b = true → over D heads s) → turns heads b ≤ fuel → 0 < turns heads b →
  sl_small (en_storage (commit_loop search_fuel braid_fuel fuel e heads b s).2) →
  ∃ n, n ≤ turns heads b ∧ commit_run e n heads b s (commit_loop search_fuel braid_fuel fuel e heads b s).
Proof.
  intros Hstrict. revert D s heads b. induction fuel as [|fuel IH]; intros D s heads b Hok Hnil Hv Hover Hf Hpos; [lia|].
  rewrite commit_loop_turn. intros Hsm. pose proof (wp_commit_turn D s e heads b Hstrict Hok Hnil Hv Hover) as Hturn.
  unfold mbind, M_bind in *. destruct (commit_turn e heads b s) as [[[|heads' b'|]|u|u] s1] eqn:Et.
  - exists 1. split; [lia|]. by apply run_done.
  - pose proof (grows_commit_loop fuel e heads' b' s1) as [Hg _].
    destruct (Hturn _ _ Et (sl_grows_small _ _ Hg Hsm)) as (D1 & Hl & Htrx & Hv1 & Hov1 & Hlt & Hne).
    destruct (IH D1 s1 heads' b') as (n & Hn & Hr); [apply Hl|by rewrite Htrx|done|done|lia| |done|].
    { unfold turns. destruct heads'; simpl; [done|lia]. }
    exists (S n). split; [lia|]. by eapply run_next.
  - destruct (Hturn _ _ Et) as (D1 & _ & _ & []). exact Hsm.
  - exists 1. split; [lia|]. by apply run_fails.
  - exists 1. split; [lia|]. by apply run_panics.
Qed.
End TransactionProofs.
