(* ===== verification/ClientState.v ===== *)
(** The client ([client.rs]): creating graphs, receiving commands in
    transactions, committing them, and performing actions; with the
    initialization of a graph by a transaction ([client/transaction.rs]). *)
From S2P Require Import Prelude Collections RuntimeTypes FactStore Graph Client RuntimeOps Transaction.
Local Open Scope string_scope.
Local Open Scope list_scope.
Local Open Scope nat_scope.

Section ClientState.
Context {St Seg P FP FI : Type} `{Storage St Seg} `{QueryMut P} `{!PerspectiveOps P} `{!RevertableOps P} `{QueryMut FP}.
Context `{!StorageOps St Seg P FP FI}.
Context {E Pol Action Effect Sk : Type} `{EngineOps E Pol} `{PolicyOps Pol Action Effect} `{Sink Sk Effect}.
Context {Pr : Type} `{!ProviderOps Pr St P}.
Context (search_fuel braid_fuel : St → nat).
Implicit Types (pr : Pr) (st : St) (sk : Sk) (command : Command).

Record ClientState := mkClientState { cl_engine : E; cl_provider : Pr }.
Definition client_new (engine : E) (provider : Pr) : ClientState := mkClientState engine provider.

(** What the client's methods change besides the transaction and the cache. *)
Record World := mkWorld { wo_client : ClientState; wo_sink : Sk }.
Abbreviation CM := (M World ClientError).

Definition on_provider {A} (m : M Pr StorageError A) : CM A := λ s,
  let '(res, pr) := m (cl_provider (wo_client s)) in
  (try_storage res, mkWorld (mkClientState (cl_engine (wo_client s)) pr) (wo_sink s)).
Definition on_engine {A} (m : M E EngineError A) : CM A := λ s,
  let '(res, e) := m (cl_engine (wo_client s)) in
  (try_engine res, mkWorld (mkClientState e (cl_provider (wo_client s))) (wo_sink s)).
Definition with_engine {A} (f : E → outcome EngineError A) : CM A := λ s, (try_engine (f (cl_engine (wo_client s))), s).
Definition world_sink (f : Sk → Sk) : CM unit := modify (λ s, mkWorld (wo_client s) (f (wo_sink s))).
(** A call of the policy on a perspective that the caller holds. *)
Definition on_perspective (m : M (P * Sk) EngineError unit) (p : P) : CM (option EngineError * P) := λ s,
  let '(res, (p, sk)) := m (p, wo_sink s) in
  (match res with Ok _ => Ok (None, p) | Err e => Ok (Some e, p) | Panic x => Panic x end, mkWorld (wo_client s) sk).

(** * The initialization of a graph by its first command *)
Definition trx_init (storage_id : GraphId) command : CM St :=
  if negb (bool_decide (storage_id = cmd_id command)) then throw CEInitError
  else match cmd_parent command, cmd_policy command with
       | PNone, Some policy_data =>
           policy_id ← on_engine (add_policy policy_data);
           policy ← with_engine (get_policy policy_id);
           world_sink sink_begin ≫= λ _,
           '(rejected, perspective) ← on_perspective (pol_call_rule policy command RecallNone)
                                        (pr_new_perspective policy_id);
           match rejected with
           | Some e => world_sink sink_rollback ≫= λ _, throw (ce_of_engine e)
           | None =>
               let '(res, perspective) := p_add_command command perspective in
               _ ← lift (try_storage res);
               '(_, st) ← on_provider (pr_new_storage perspective);
               world_sink sink_commit ≫= λ _,
               mret st
           end
       | _, _ => throw CEInitError
       end.

(** The transaction and the cache are returned in every case. *)
Definition TrxResult (A : Type) : Type := outcome ClientError A * Transaction P * PeerCache.

(** Run a method of the transaction on the graph's storage. *)
Definition in_storage {A} (graph : GraphId) (st : St) (m : E → M (Env St P Sk) ClientError A)
    (t : Transaction P) (pc : PeerCache) : World → TrxResult A * World := λ s,
  let c := wo_client s in
  let '(res, en) := m (cl_engine c) (mkEnv t st (wo_sink s) pc) in
  ((res, en_trx en, en_cache en),
   mkWorld (mkClientState (cl_engine c) (pr_set_storage graph (en_storage en) (cl_provider c))) (en_sink en)).

(** The storage, or the one that the first command initializes; the commands
    left and their count so far. *)
Definition open_or_init (id : GraphId) (commands : list Command) : CM (St * list Command * nat) := λ s,
  let '(res, pr) := pr_get_storage id (cl_provider (wo_client s)) in
  let s := mkWorld (mkClientState (cl_engine (wo_client s)) pr) (wo_sink s) in
  match res with
  | Ok st => (Ok (st, commands, 0), s)
  | Err NoSuchStorage =>
      (match commands with
       | [] => throw CEInitError
       | command :: commands' => st ← trx_init id command; mret (st, commands', 1)
       end) s
  | Err e => (Err (CEStorageError e), s)
  | Panic x => (Panic x, s)
  end.

Definition add_commands (t : Transaction P) (commands : list Command) (request_heads : PeerCache)
  : World → TrxResult nat * World := λ s,
  let id := trx_storage_id t in
  match open_or_init id commands s with
  | (Ok (st, commands, count), s) =>
      in_storage id st (λ engine, add_commands_to search_fuel braid_fuel engine commands count) t request_heads s
  | (Err e, s) => ((Err e, t, request_heads), s)
  | (Panic x, s) => ((Panic x, t, request_heads), s)
  end.

Definition commit (t : Transaction P) : World → outcome ClientError unit * Transaction P * World := λ s,
  let id := trx_storage_id t in
  match on_provider (pr_get_storage id) s with
  | (Ok st, s) =>
      let '((res, t, _), s) := in_storage id st (λ engine, commit_in search_fuel braid_fuel engine) t peer_cache_new s in
      (res, t, s)
  | (Err e, s) => (Err e, t, s)
  | (Panic x, s) => (Panic x, t, s)
  end.

(** * New graphs and actions *)
Definition new_graph (policy_data : list u8) (action : Action) : CM GraphId :=
  policy_id ← on_engine (add_policy policy_data);
  policy ← with_engine (get_policy policy_id);
  world_sink sink_begin ≫= λ _,
  '(rejected, perspective) ← on_perspective (pol_call_action policy action) (pr_new_perspective policy_id);
  match rejected with
  | Some e => world_sink sink_rollback ≫= λ _, throw (ce_of_engine e)
  | None =>
      world_sink sink_commit ≫= λ _,
      '(graph_id, _) ← on_provider (pr_new_storage perspective);
      mret graph_id
  end.

(** [storage.write] and [storage.commit] on the graph's storage. *)
Definition write_and_commit (graph : GraphId) (st : St) (p : P) : CM unit := λ s,
  let '(res, st) := (segment ← st_write p; st ← get_state; st_commit (search_fuel st) segment) st in
  (try_storage res, mkWorld (mkClientState (cl_engine (wo_client s)) (pr_set_storage graph st (cl_provider (wo_client s)))) (wo_sink s)).

Definition action (storage_id : GraphId) (act : Action) : CM unit :=
  st ← on_provider (pr_get_storage storage_id);
  head ← lift (try_storage (get_head st));
  opened ← lift (try_storage (get_linear_perspective st head));
  perspective ← lift (try_bug (assume opened "can always get perspective at head"));
  policy ← with_engine (get_policy (p_policy perspective));
  world_sink sink_begin ≫= λ _,
  '(rejected, perspective) ← on_perspective (pol_call_action policy act) perspective;
  match rejected with
  | None =>
      write_and_commit storage_id st perspective ≫= λ _,
      world_sink sink_commit
  | Some e => world_sink sink_rollback ≫= λ _, throw (ce_of_engine e)
  end.
End ClientState.
