(* ===== verification/StorageInstances.v ===== *)
(** Both storages implement the operations the client uses. *)
From S2P Require Import Prelude Collections RuntimeTypes FactStore MemFacts Graph MemStorage LinearFacts LinearStorage.
From S2P Require Import Client RuntimeOps.
Local Open Scope string_scope.
Local Open Scope list_scope.
Local Open Scope nat_scope.

(** * In memory *)
#[export] Instance mem_perspective_ops : PerspectiveOps MemPerspective := {|
  p_policy := mp_policy;
  p_add_command := mp_add_command;
  p_includes := mp_includes;
  p_head_address := mp_head_address
|}.
#[export] Instance mem_revertable_ops : RevertableOps MemPerspective := {|
  p_checkpoint := mp_checkpoint;
  p_revert := mp_revert
|}.
#[export] Instance mem_storage_ops : StorageOps MemStorage MemSegment MemPerspective MemFactPerspective MemFactIndex := {|
  seg_head s := c ← ms_head s; Ok (mem_command c);
  get_linear_perspective := mem_get_linear_perspective;
  get_fact_perspective := mem_get_fact_perspective;
  new_merge_perspective st l r _ policy braid := mem_new_merge_perspective st l r policy braid;
  st_write := mem_write;
  st_write_facts f := lift (write_facts f);
  st_commit _ := mem_commit
|}.
#[export] Instance mem_provider_ops : ProviderOps MemStorageProvider MemStorage MemPerspective := {|
  pr_new_perspective := mp_new_unrooted;
  pr_new_storage p := id ← new_storage p; pr ← get_state; st ← lift (get_storage id pr); mret (id, st);
  pr_get_storage id := λ pr, (get_storage id pr, pr);
  pr_set_storage := bt_insert
|}.

(** * On file

    [rand w] are the numbers drawn when a segment is written to [w]. *)
Section Linear.
Context {W : Type} `{FactIo W} `{SegIo W}.

#[export] Instance lin_query_instance : Query (LinearPerspective (W := W)) :=
  {| query p := lfp_query (lp_facts p); query_prefix p := lfp_query_prefix (lp_facts p) |}.
#[export] Instance lin_query_mut : QueryMut (LinearPerspective (W := W)) :=
  {| q_insert := lp_insert; q_delete := lp_delete |}.
#[export] Instance lin_perspective_ops : PerspectiveOps (LinearPerspective (W := W)) := {|
  p_policy := lp_policy;
  p_add_command := lp_add_command;
  p_includes := lp_includes;
  p_head_address := lp_head_address
|}.
#[export] Instance lin_revertable_ops : RevertableOps (LinearPerspective (W := W)) := {|
  p_checkpoint := lp_checkpoint;
  p_revert := lp_revert
|}.
Definition lin_storage_ops (rand : W → nat → nat → nat)
  : StorageOps W (LinearSegment (W := W)) (LinearPerspective (W := W)) (LinearFactPerspective (W := W)) (LinearFactIndex (W := W)) := {|
  seg_head := lseg_head;
  get_linear_perspective := lin_get_linear_perspective;
  get_fact_perspective := lin_get_fact_perspective;
  new_merge_perspective := lin_new_merge_perspective;
  st_write p := λ w, lin_write (rand w) p w;
  st_write_facts := lin_write_facts;
  st_commit := lin_commit
|}.
Definition lin_provider_ops {Mgr : Type} (io_create : GraphId → M Mgr StorageError W) (io_open : GraphId → M Mgr StorageError (option W))
  : ProviderOps (LinearStorageProvider (W := W) (Mgr := Mgr)) W (LinearPerspective (W := W)) := {|
  pr_new_perspective := lin_new_perspective;
  pr_new_storage p := id ← lin_new_storage io_create p; st ← lin_get_storage io_open id; mret (id, st);
  pr_get_storage := lin_get_storage io_open;
  pr_set_storage id w pr := mkLinearStorageProvider (lsp_manager pr) (bt_insert id w (lsp_storage pr))
|}.
End Linear.
