(* ===== verification/VmPolicyTheorems.v ===== *)
(** The claims about the VM policy. *)
From S2P Require Import Prelude Collections PolicyData PolicyModule VmScope Vm VmCalls RuntimeTypes FactStore MemFacts.
From S2P Require Import Graph MemStorage LinearFacts LinearStorage Client RuntimeOps VmPolicyIO VmPolicy.
From S2P Require Import VmPolicyProofs StorageInstances.
From S2P Require Import VmInvariant VmSafety VmTestIO VmTheorems VmEntry Ast CompileTypes Compile CompileProofs CompiledCode PolicySemantics CompileSim.
From S2P Require Import CompileLogic CompileLink CompileCorrect CompileTheorems Tracer TracerTheorems.
Local Open Scope string_scope.
Local Open Scope list_scope.
Local Open Scope nat_scope.

(** * Perspectives that check the parent of a command *)
Class HeadChecked (P : Type) `{PerspectiveOps P} (ok : P → Prop) : Prop := {
  hc_insert name keys v p : ok p → ok (q_insert name keys v p) ∧ p_head_address (q_insert name keys v p) = p_head_address p;
  hc_delete name keys p : ok p → ok (q_delete name keys p) ∧ p_head_address (q_delete name keys p) = p_head_address p;
  hc_add c p n p' : ok p → p_add_command c p = (Ok n, p') →
    p_head_address p = Ok (cmd_parent c) ∧ ok p' ∧ p_head_address p' ≠ Ok (cmd_parent c)
}.

#[export] Instance mem_head_checked : HeadChecked MemPerspective (λ _, True).
Proof.
  split; [done|done|]. intros c p n p' _ E. simpl in *. unfold mp_add_command in E.
  destruct (mp_head_address p) as [head|e|x]; [|done..]. cbn [sbug map_err] in E. case_bool_decide as Hp; [|done]. cbn [negb] in E. subst head.
  destruct (next_max_cut (cmd_parent c)) as [mc|e|x] eqn:Em; [|done..]. cbn [sbug map_err] in E. injection E as _ <-.
  split_and!; [done|done|]. unfold mp_head_address. cbn [mp_commands]. unfold vec_push. rewrite last_snoc. cbn. intros [= Heq].
  rewrite <- Heq in Em. simpl in Em. unfold assume in Em. destruct (checked_add _ 1) as [m|] eqn:Ec; [|done]. apply checked_add_Some in Ec as [-> _].
  simpl in Em. injection Em as Em. lia.
Qed.

Section Linear.
Context {W : Type} `{FactIo W} `{SegIo W}.
(** The parent of a new perspective is not at its own max cut. *)
Definition lp_head_ok (p : LinearPerspective (W := W)) : Prop :=
  lp_commands p = [] → ∀ a, lp_parents p = PSingle a → ad_max_cut a ≠ lp_max_cut p.
#[export] Instance lin_head_checked : HeadChecked (LinearPerspective (W := W)) lp_head_ok.
Proof.
  split; [done|done|]. intros c p n p' Hok E. simpl in *. unfold lp_add_command in E.
  destruct (lp_head_address p) as [head|e|x] eqn:Eh; [|done..]. cbn [sbug map_err] in E. case_bool_decide as Hp; [|done]. cbn [negb] in E. subst head.
  injection E as _ <-. split_and!; [done|intros Hn; by destruct (lp_commands p)|]. intros Heq.
  unfold lp_head_address in Heq. cbn [lp_commands lp_max_cut lp_parents] in Heq. unfold vec_push in Heq. rewrite last_snoc, length_app in Heq.
  unfold assume in Heq. destruct (checked_add (lp_max_cut p) _) as [k|] eqn:Ek; [|done]. apply checked_add_Some in Ek as [-> _]. simpl in Heq.
  destruct (checked_sub _ 1) as [k'|] eqn:Ek'; [|done]. apply checked_sub_Some in Ek' as [_ ->]. simpl in Heq. injection Heq as Heq.
  unfold lp_head_address in Eh. destruct (last (lp_commands p)) as [d|] eqn:El.
  - unfold assume in Eh. destruct (checked_add (lp_max_cut p) (length (lp_commands p))) as [m|] eqn:Em; [|done].
    apply checked_add_Some in Em as [-> _]. simpl in Eh. destruct (checked_sub (lp_max_cut p + length (lp_commands p)) 1) as [m'|] eqn:Em'; [|done].
    apply checked_sub_Some in Em' as [Hle ->]. simpl in Eh. injection Eh as Eh. rewrite <- Heq in Eh. injection Eh as _ Eh. lia.
  - apply last_None in El. injection Eh as Eh. apply (Hok El _ (eq_trans Eh (eq_sym Heq))). simpl. rewrite El. simpl. lia.
Qed.
End Linear.

(** * Publishing *)
Section Publishing.
Context `{!PolicyCodec} {E P Sk : Type} (fuel : nat) (ok : P → Prop) `{HeadChecked P ok} `{!Sink Sk VmEffect}.
Implicit Types (pol : VmPolicy E) (s : P * Sk * E).





End Publishing.

(** * Calls that the VM refuses *)
Section Refused.
Context {IO : Type} `{MachineIO IO} (m : Machine) (io : IO).
Hypothesis Hcm : codemap_total m.
Abbreviation keeps_io := (calm (λ s : RunState IO, rs_io s = io)).
Lemma fail_at_keeps_io {A} t : keeps_io (fail_at m t : VM A).
Proof. apply calm_bind; [intros s Hs; split; [done|apply Hcm]|intros; apply calm_throw]. Qed.
Lemma check_fields_keeps_io def fields : keeps_io (check_fields m def fields).
Proof.
  induction fields as [|[x v] fields IH]; [apply calm_ret|]. cbn [check_fields].
  apply calm_bind; [intros s Hs; split; [done|apply Hcm]|intros e]. apply calm_bind; [apply calm_lift_opt|intros t].
  apply calm_bind; [|intros [|]; [done|apply fail_at_keeps_io]].
  unfold fits_type. destruct v; destruct t; simpl; apply calm_ret.
Qed.
Lemma setup_command_keeps_io name lt this : keeps_io (setup_command m name lt this).
Proof.
  unfold setup_command, setup_function, set_pc_by_label. apply calm_bind; [|intros _].
  - apply calm_bind; [|intros _; apply calm_bind; [by apply calm_modify|intros _; by apply calm_modify]].
    destruct (bt_get _ _); [by apply calm_modify|apply fail_at_keeps_io].
  - apply calm_bind; [intros s Hs; split; [done|apply Hcm]|intros e]. apply calm_bind; [apply calm_lift_opt|intros def].
    destruct (negb _); [apply fail_at_keeps_io|]. apply calm_bind; [apply check_fields_keeps_io|intros _].
    unfold update_scope. apply calm_get. intros s Hs. apply (calm_bind_at (λ s, rs_io s = io)); [|intros; by apply calm_modify].
    pose proof (is_panic_scope_set "this" (VStruct this) (rs_scope s)) as Hp.
    destruct (scope_set _ _ _) as [sc|t|w]; [done|exact (fail_at_keeps_io t s Hs)|done].
Qed.
Lemma setup_command_refused name lt this s : rs_io s = io → ¬ (∃ s', setup_command m name lt this s = (Ok tt, s')) →
  ∃ e s', setup_command m name lt this s = (Err e, s') ∧ rs_io s' = io.
Proof.
  intros Hs Hn. destruct (setup_command_keeps_io name lt this s Hs) as [Hio Hp].
  destruct (setup_command m name lt this s) as [[[]|e|w] s']; [destruct Hn; by eexists|by exists e, s'|done].
Qed.
End Refused.

(** * Commands of a compiled policy

    What evaluating a command means in the policy's source: its open function
    makes a struct of the envelope, and its policy rule runs on that struct. *)
Section Source.
Context `{!PolicyCodec} {E F Sk : Type} `{QueryMut F} `{!Sink Sk VmEffect}.
Variables (env : CompileEnv) (pol : VmPolicy E).
(** What the foreign functions compute from their arguments and the engine. *)
Variable ffi : nat → nat → CommandContext → list Value → E → outcome MachineError Value * E.
(** The FFI modules take the arguments from the stack and leave the result. *)
Definition engine_contract : Prop :=
  ∀ i j mo f ctx (stk args : list Value) eng,
    ce_ffi_modules env !! i = Some mo → sch_functions mo !! j = Some f → length args = length (ffn_args f) → length stk < STACK_SIZE →
    ∃ call, vm_ffis pol !! i = Some call ∧
    match ffi i j ctx args eng with
    | (Ok v, eng') => call j (stk ++ args) ctx eng = (Ok tt, stk ++ [v], eng')
    | (Err e, eng') => ∃ stk', call j (stk ++ args) ctx eng = (Err e, stk', eng')
    | (Panic w, eng') => ∃ stk', call j (stk ++ args) ctx eng = (Panic w, stk', eng')
    end.
Definition on_engine {T} (i j : nat) (ctx : CommandContext) (args : list Value) (io : VmPolicyIO (P := F) (Sk := T) (E := E))
  : outcome MachineError Value * VmPolicyIO (P := F) (Sk := T) (E := E) :=
  let '(r, eng) := ffi i j ctx args (vio_engine io) in (r, mkVmPolicyIO (vio_facts io) (vio_sink io) (vio_publish_stack io) eng).
Lemma engine_contract_ffi {T} `{!Sink T VmEffect} : engine_contract → @ffi_contract _ (policy_io (F := F) (Sk := T) pol) env on_engine.
Proof.
  intros He i j mo f ctx stk args io Hm Hf Hl Hs. destruct (He i j mo f ctx stk args (vio_engine io) Hm Hf Hl Hs) as (call & Hc & Hr).
  unfold on_engine. cbn [io_call policy_io vio_machine_io]. unfold vio_call. rewrite Hc.
  destruct (ffi i j ctx args (vio_engine io)) as [[v|e|w] eng].
  - by rewrite Hr.
  - destruct Hr as [stk' ->]. by eexists.
  - destruct Hr as [stk' ->]. by eexists.
Qed.

Implicit Types (c : AstNode CommandDefinition) (this : Struct) (envelope : Envelope).
Definition of_source {T} `{!Sink T VmEffect} (n : nat) (ctx : CommandContext) (e : Entry) (io : VmPolicyIO (P := F) (Sk := T) (E := E)) :=
  @meaning _ (policy_io pol) env (globals (vm_machine pol)) (struct_defs (vm_machine pol)) (fact_defs (vm_machine pol)) ctx ser_struct deser_struct
    on_engine n e (entry_local e io).
Definition source_open n c envelope (f : F) (eng : E) :=
  of_source n (CtxOpen (mkOpenContext (cd_identifier (inner c)))) (EntryOpen c (envelope_struct envelope)) (vio_new f tt eng).
Definition source_policy n c ctx this envelope (f : F) (sk : Sk) (eng : E) :=
  of_source n ctx (EntryPolicy c this (envelope_struct envelope)) (vio_new f sk eng).
(** The struct has the fields that the command declares. *)
Definition fits_command c this : Prop :=
  length (s_fields this) = length (cd_fields (inner c)) ∧ Forall (declared (cd_fields (inner c))) (s_fields this)
  ∧ bt_get "this" (globals (vm_machine pol)) = None.
(** A call with enough fuel. *)
Definition settles {R} (call : nat → R) (r : R) : Prop := ∃ k, ∀ fuel, call (k + fuel) = r.
Definition left_by {T} (st : Local_ (VmPolicyIO (P := F) (Sk := T) (E := E))) : F * T * E :=
  (vio_facts (lo_io st), vio_sink (lo_io st), vio_engine (lo_io st)).
(** How the runtime reports what the policy rule did: [again] is what follows a
    check that failed. *)
Definition rule_follows (ctx : PolicyContext) (call : nat → outcome EngineError unit * (F * Sk * E))
    (again : nat → RunState (VmPolicyIO (P := F) (Sk := Sk) (E := E)) → outcome EngineError unit * RunState (VmPolicyIO (P := F) (Sk := Sk) (E := E)))
    (y : outcome stop (option Value) * Local_ (VmPolicyIO (P := F) (Sk := Sk) (E := E))) : Prop :=
  match y with
  | (Ok _, st) | (Err (StopExit ExitNormal), st) => settles call (Ok tt, left_by st)
  | (Err (StopExit ExitPanic), st) => settles call (Err EEPanic, left_by st)
  | (Err (StopExit ExitCheck), st) => ∃ k rs, rs_io rs = lo_io st ∧ rs_ctx rs = CtxRecall ctx ∧ ∀ fuel, call (k + fuel) = (let '(r, rs) := again (k + fuel) rs in (r, io_state rs))
  | (Err (StopError _), st) => settles call (Err EEInternalError, left_by st)
  | (Err (StopReturn _), _) => False
  | (Err StopUnknown, _) => True
  | (Panic w, _) => ∃ s, settles call (Panic w, s)
  end.
(** What a command that is not a merge carries: its kind, author and envelope. *)
Definition command_envelope (command : Command) : option (string * Id * Envelope) :=
  match deser_protocol (cmd_bytes command) with
  | Some (PDInit _ author_id kind serialized_fields signature) =>
      Some (kind, author_id, mkEnvelope id_default author_id (cmd_id command) serialized_fields signature)
  | Some (PDBasic parent author_id kind serialized_fields signature) =>
      Some (kind, author_id, mkEnvelope (ad_id parent) author_id (cmd_id command) serialized_fields signature)
  | _ => None
  end.
Lemma call_rule_evaluates fuel command recall kind author envelope (s : F * Sk * E) : command_envelope command = Some (kind, author, envelope) →
  vm_call_rule fuel pol command recall s = eval_command fuel pol command recall kind author envelope s.
Proof. unfold command_envelope, vm_call_rule. intros Hc. repeat case_match; by simplify_eq. Qed.

(** ** Calls with enough fuel *)
Lemma settles_eventually {R} (call call' : nat → R) k r :
  (∀ fuel, call (k + fuel) = call' (k + fuel)) → settles call' r → settles call r.
Proof. intros Hk [n Hn]. exists (k + n). intros fuel. rewrite <- Nat.add_assoc, Hk, Nat.add_assoc, (Nat.add_comm k n), <- Nat.add_assoc. apply Hn. Qed.
Lemma rule_follows_eventually ctx call call' k again y :
  (∀ fuel, call (k + fuel) = call' (k + fuel)) → rule_follows ctx call' again y → rule_follows ctx call again y.
Proof.
  intros Hk. destruct y as [[v|[[]|t|v|]|w] st]; cbn [rule_follows]; try done; try by apply (settles_eventually _ _ k).
  - intros (n & rs & Hio & Hctx & Hn). exists (k + n), rs. split_and!; [done|done|]. intros fuel.
    rewrite <- Nat.add_assoc, Hk, Nat.add_assoc, (Nat.add_comm k n), <- Nat.add_assoc. apply Hn.
  - intros [s Hs]. exists s. by apply (settles_eventually _ _ k _ Hk).
Qed.
(** What follows from the end of the open function. *)
Lemma call_follows_open command recall kind author envelope f (sk : Sk) eng res (f1 : F) (eng1 : E) :
  command_envelope command = Some (kind, author, envelope) → settles (λ fuel, open_command fuel pol kind envelope (f, eng)) (res, (f1, eng1)) →
  ∃ k, ∀ fuel, vm_call_rule (k + fuel) pol command recall (f, sk, eng) =
    match res with
    | Ok this => evaluate_rule (k + fuel) pol kind (struct_to_kvpairs this).2 envelope
                   (CtxPolicy (mkPolicyContext kind (cmd_id command) author id_default)) recall (f1, sk, eng1)
    | Err e => (Err e, (f1, sk, eng1))
    | Panic w => (Panic w, (f1, sk, eng1))
    end.
Proof.
  intros Hc [k Hk]. exists k. intros fuel. rewrite (call_rule_evaluates _ _ _ _ _ _ _ Hc).
  unfold eval_command, without_sink, mbind, M_bind. rewrite Hk. by destruct res.
Qed.

(** What is taken from the stack is a struct, or the call fails. *)
Lemma returned_struct (v : option Value) (rs : RunState (VmPolicyIO (P := F) (Sk := unit) (E := E))) : codemap_total (vm_machine pol) → on_stack v rs →
  let '(res, rs') := return_struct pol rs in
  res = match v with Some (VStruct t) => Ok t | _ => Err EEInternalError end ∧ rs_io rs' = rs_io rs.
Proof.
  intros Hcm Hv. unfold on_stack in Hv. unfold return_struct, consume_return, mbind, M_bind, get_state. rewrite Hv.
  destruct v as [v|]; [by destruct v|]. change (pop_value []) with (Err StackUnderflow : outcome MachineErrorType (Value * MachineStack)). cbn [try_at].
  destruct (fail_at_Ok (IO := VmPolicyIO (P := F) (Sk := unit) (E := E)) (A := Value * MachineStack) (vm_machine pol) StackUnderflow rs) as (e & -> & _). done.
Qed.

Section Compiled.
Hypothesis Hc : compiles_to env (vm_machine pol).
Hypothesis Hr : ranges_ok (ce_policy env).
Hypothesis Hstub : ce_stub_ffi env = false.
Hypothesis Hffi : engine_contract.
Context (c : AstNode CommandDefinition).
Hypothesis Hin : c ∈ pl_commands (ce_policy env).
Abbreviation kind := (cd_identifier (inner c)).

Lemma open_follows n envelope f eng :
  let call fuel := open_command fuel pol kind envelope (f, eng) in
  match source_open n c envelope f eng with
  | (Ok (Some (VStruct this)), st) => settles call (Ok this, (vio_facts (lo_io st), vio_engine (lo_io st)))
  | (Ok _, st) | (Err (StopError _), st) => settles call (Err EEInternalError, (vio_facts (lo_io st), vio_engine (lo_io st)))
  | (Err (StopExit ExitCheck), st) | (Err (StopExit ExitPanic), st) => settles call (Err EECheck, (vio_facts (lo_io st), vio_engine (lo_io st)))
  | (Err (StopExit ExitNormal), _) | (Err StopUnknown, _) => True
  | (Err (StopReturn _), _) => False
  | (Panic w, _) => ∃ s, settles call (Panic w, s)
  end.
Proof.
  intros call. pose proof (@compiled_entry_ends _ (policy_io pol) env (vm_machine pol) ser_struct deser_struct on_engine n (EntryOpen c (envelope_struct envelope))
    (run_state_new (vm_machine pol) (vio_new f tt eng) (CtxOpen (mkOpenContext kind))) Hc Hr Hstub (engine_contract_ffi Hffi) Hin eq_refl Logic.I) as He.
  pose proof (compiled_codemap_total _ _ Hc Hr) as Hcm.
  change (meaning _ _ _ _ _ _ _ _ n _ _) with (source_open n c envelope f eng) in He.
  destruct (source_open n c envelope f eng) as [[v|[r|t|v|]|w] st]; cbn [ends_as] in He.
  - destruct He as (k & s' & Hk & <- & Hst).
    assert (∀ fuel, call (k + fuel) = let '(res, rs) := return_struct pol s' in (res, facts_engine rs)) as Hcall.
    { intros fuel. unfold call, open_command. cbn [call_entry] in Hk. by rewrite Hk. }
    pose proof (returned_struct v s' Hcm Hst) as Hret. destruct v as [[]|].
    all: exists k; intros fuel; rewrite Hcall; destruct (return_struct pol s') as [res rs]; destruct Hret as [-> Hio]; unfold facts_engine; by rewrite Hio.
  - destruct He as (k & s' & Hk & <-). destruct r; [done|..].
    all: exists k; intros fuel; unfold call, open_command; cbn [call_entry] in Hk; by rewrite Hk.
  - destruct He as (k & e & s' & Hk & _ & <-). exists k. intros fuel. unfold call, open_command. cbn [call_entry] in Hk. by rewrite Hk.
  - done.
  - done.
  - destruct He as (k & s' & Hk). exists (facts_engine s'), k. intros fuel. unfold call, open_command. cbn [call_entry] in Hk. by rewrite Hk.
Qed.
(** The struct that the policy rule gets. *)
Abbreviation opened this := (struct_new kind (struct_to_kvpairs this).2).
Lemma accepts_fits ctx this envelope f sk eng :
  let s := run_state_new (vm_machine pol) (vio_new f sk eng) ctx in
  @accepts _ (policy_io pol) (vm_machine pol) (EntryPolicy c this (envelope_struct envelope)) s ↔ fits_command c this.
Proof.
  intros s. exact (@compiled_calls_typed _ (policy_io pol) env (vm_machine pol) (EntryPolicy c this (envelope_struct envelope)) s Hc Hr Hin (Nat.le_0_l _)).
Qed.
Lemma policy_follows n command author recall fields envelope f sk eng :
  let ctx := mkPolicyContext kind (cmd_id command) author id_default in
  let this := struct_new kind fields in
  let call fuel := evaluate_rule fuel pol kind fields envelope (CtxPolicy ctx) recall (f, sk, eng) in
  fits_command c this →
  rule_follows ctx call (λ fuel rs, recall_internal fuel pol recall kind this envelope rs) (source_policy n c (CtxPolicy ctx) this envelope f sk eng).
Proof.
  intros ctx this call Hfit. pose proof (@compiled_entry_ends _ (policy_io pol) env (vm_machine pol) ser_struct deser_struct on_engine n
    (EntryPolicy c this (envelope_struct envelope)) (run_state_new (vm_machine pol) (vio_new f sk eng) (CtxPolicy ctx)) Hc Hr Hstub
    (engine_contract_ffi Hffi) Hin eq_refl (proj2 (accepts_fits (CtxPolicy ctx) this envelope f sk eng) Hfit)) as He.
  change (meaning _ _ _ _ _ _ _ _ n _ _) with (source_policy n c (CtxPolicy ctx) this envelope f sk eng) in He.
  destruct (source_policy n c (CtxPolicy ctx) this envelope f sk eng) as [[v|[r|t|v|]|w] st]; cbn [ends_as call_entry] in He; cbn [rule_follows]; unfold left_by.
  - destruct He as (k & s' & Hk & <- & _). exists k. intros fuel. unfold call, evaluate_rule. cbn [s_name struct_new]. by rewrite Hk.
  - destruct He as (k & s' & Hk & <-). destruct r.
    + exists k. intros fuel. unfold call, evaluate_rule. cbn [s_name struct_new]. by rewrite Hk.
    + exists k, (set_context (CtxRecall ctx) s'). split_and!; [done|done|]. intros fuel. unfold call, evaluate_rule. cbn [s_name struct_new]. by rewrite Hk.
    + exists k. intros fuel. unfold call, evaluate_rule. cbn [s_name struct_new]. by rewrite Hk.
  - destruct He as (k & e & s' & Hk & _ & <-). exists k. intros fuel. unfold call, evaluate_rule. cbn [s_name struct_new]. by rewrite Hk.
  - done.
  - done.
  - destruct He as (k & s' & Hk). exists (io_state s'), k. intros fuel. unfold call, evaluate_rule. cbn [s_name struct_new]. by rewrite Hk.
Qed.
Lemma policy_refused fuel ctx recall fields envelope f sk eng :
  ¬ fits_command c (struct_new kind fields) →
  evaluate_rule fuel pol kind fields envelope ctx recall (f, sk, eng) = (Err EEInternalError, (f, sk, eng)).
Proof.
  intros Hn. pose proof (compiled_codemap_total _ _ Hc Hr) as Hcm. rewrite <- (accepts_fits ctx _ envelope f sk eng) in Hn.
  destruct (setup_command_refused (vm_machine pol) _ Hcm _ _ _ _ eq_refl Hn) as (e & s' & Hs & Hio).
  unfold evaluate_rule, call_command_policy. unfold mbind at 1, M_bind at 1. cbn [s_name struct_new] in *. rewrite Hs. unfold io_state. by rewrite Hio.
Qed.
End Compiled.
End Source.

Section Theorems.
Context `{!PolicyCodec} {E : Type} (fuel : nat).
Implicit Types (pol : VmPolicy E).

(** C17: the runtime evaluates a received command as the source of the policy
    says. For a policy that the compiler accepted and a command of one of its
    kinds that is not a merge, with enough fuel of the VM: if the open function
    of the command, on the command's envelope, returns a struct that has the
    declared fields, then the command is accepted when the policy rule ends or
    finishes on that struct, goes to [recall_internal] with a recall context
    when a check fails (which refuses it with [EECheck] if no recall is asked
    for), and is refused with [EEPanic] when the rule panics and with
    [EEInternalError] when it stops with an error; if the open function checks
    or panics, the command is refused with [EECheck], and if it errs or its
    result is not a struct with these fields, with [EEInternalError]. The
    facts, the sink and the engine are left the way the source leaves them, and
    the open function emits nothing to the sink. Nothing is said when the fuel
    of the semantics is too small, and of an open function that finishes:
    [finish] is not allowed there. Foreign functions are assumed to take their
    arguments from the stack and to leave their result on it. *)
Theorem received_command_follows_source {F Sk} `{QueryMut F} `{!Sink Sk VmEffect} env pol ffi n c command author envelope recall
    (f : F) (sk : Sk) (eng : E) :
  compiles_to env (vm_machine pol) → ranges_ok (ce_policy env) → ce_stub_ffi env = false → engine_contract env pol ffi →
  c ∈ pl_commands (ce_policy env) → command_envelope command = Some (cd_identifier (inner c), author, envelope) →
  let call fuel := vm_call_rule fuel pol command recall (f, sk, eng) in
  match source_open env pol ffi n c envelope f eng with
  | (Ok (Some (VStruct result)), st) =>
      let '(f1, eng1) := (vio_facts (lo_io st), vio_engine (lo_io st)) in
      let this := struct_new (cd_identifier (inner c)) (struct_to_kvpairs result).2 in
      let ctx := mkPolicyContext (cd_identifier (inner c)) (cmd_id command) author id_default in
      (fits_command pol c this →
       rule_follows ctx call (λ fuel rs, recall_internal fuel pol recall (cd_identifier (inner c)) this envelope rs)
         (source_policy env pol ffi n c (CtxPolicy ctx) this envelope f1 sk eng1))
      ∧ (¬ fits_command pol c this → settles call (Err EEInternalError, (f1, sk, eng1)))
  | (Ok _, st) | (Err (StopError _), st) => settles call (Err EEInternalError, (vio_facts (lo_io st), sk, vio_engine (lo_io st)))
  | (Err (StopExit ExitCheck), st) | (Err (StopExit ExitPanic), st) => settles call (Err EECheck, (vio_facts (lo_io st), sk, vio_engine (lo_io st)))
  | (Err (StopExit ExitNormal), _) | (Err StopUnknown, _) => True
  | (Err (StopReturn _), _) => False
  | (Panic w, _) => ∃ s, settles call (Panic w, s)
  end.
Proof.
  intros Hc Hr Hstub Hffi Hin Hcmd call.
  pose proof (open_follows env pol ffi Hc Hr Hstub Hffi c Hin n envelope f eng) as Ho.
  destruct (source_open env pol ffi n c envelope f eng) as [[v|[[]|t|v|]|w] st]; try done.
  - destruct v as [[]|]; try exact (call_follows_open pol command recall _ author envelope f sk eng _ _ _ Hcmd Ho).
    destruct (call_follows_open pol command recall _ author envelope f sk eng _ _ _ Hcmd Ho) as [k Hk]. split; intros Hfit.
    + eapply rule_follows_eventually; [|by apply policy_follows]. exact Hk.
    + exists k. intros fuel'. etrans; [apply Hk|]. by eapply policy_refused.
  - exact (call_follows_open pol command recall _ author envelope f sk eng _ _ _ Hcmd Ho).
  - exact (call_follows_open pol command recall _ author envelope f sk eng _ _ _ Hcmd Ho).
  - exact (call_follows_open pol command recall _ author envelope f sk eng _ _ _ Hcmd Ho).
  - destruct Ho as [[f1 eng1] Ho]. exists (f1, sk, eng1). exact (call_follows_open pol command recall _ author envelope f sk eng _ _ _ Hcmd Ho).
Qed.

End Theorems.

(** * The VM policy as a policy of the client

    Engine and foreign functions without state: then nothing is kept between
    calls but what the perspective and the sink hold. *)
Section Instance_.
Context `{!PolicyCodec} (fuel : nat).
Definition stateless {F Sk A} (m : M (F * Sk * unit) EngineError A) : M (F * Sk) EngineError A := λ '(f, sk),
  let '(res, (f, sk, _)) := m (f, sk, tt) in (res, (f, sk)).
(** [MAX_COMMAND_LENGTH] is the length of the buffer of a merge. *)
Definition vm_policy_ops : PolicyOps (VmPolicy unit) VmAction VmEffect := {|
  pol_serial := vm_serial;
  pol_call_rule F Sk _ _ _ pol c recall := stateless (vm_call_rule fuel pol c recall);
  pol_call_action P Sk _ _ _ _ pol act := stateless (vm_call_action fuel pol act);
  pol_merge pol := vm_merge pol (Z.to_nat 2048)
|}.
Lemma vm_policy_laws : @PolicyLaws _ _ _ vm_policy_ops.
Proof.
  split.
  - intros F Sk Hq Hm Hs I pol c recall f sk res f' sk' Hi Hd Hf E. simpl in E. unfold stateless in E.
    pose proof (vm_call_rule_stays fuel I (λ _ : Sk, True) Hi Hd (λ _ _ _, Logic.I) pol c recall (f, sk, tt) (conj Hf Logic.I)) as Hk.
    destruct (vm_call_rule _ _ _ _ _) as [r [[f1 sk1] []]]. simplify_eq. apply Hk.
  - intros P Sk Hq Hm Hp Hs I pol act p sk res p' sk' Hi Hd Ha Hp0 E. simpl in E. unfold stateless in E.
    pose proof (vm_call_action_stays fuel I (λ _ : Sk, True) Hi Hd (λ _ _ _, Logic.I) Ha pol act (p, sk, tt) (conj Hp0 Logic.I)) as Hk.
    destruct (vm_call_action _ _ _ _) as [r [[p1 sk1] []]]. simplify_eq. apply Hk.
Qed.
End Instance_.

(** ** A policy with one command *)
Module PolicyExample.
Definition envelope : Envelope := mkEnvelope id_default [Byte.x0a] [Byte.x01] [Byte.x2a] [].
(** Actions [go], [twice] and [none] publish [Cmd] once, twice and not at all. *)
Definition code : list Instruction :=
  [IStructNew "Cmd"; IPublish; IExit ExitNormal;
   IStructNew "Cmd"; IPublish; IStructNew "Cmd"; IPublish; IExit ExitNormal;
   IExit ExitNormal;
   (* seal *) IConst (VStruct (envelope_struct envelope)); IExit ExitNormal;
   (* open *) IStructNew "Cmd"; IExit ExitNormal;
   (* policy *) IFactNew "Done"; ICreate; IExit ExitNormal].
Definition machine : Machine :=
  mkMachine code
    (bt_from_iter [(mkLabel "go" LAction, 0); (mkLabel "twice" LAction, 3); (mkLabel "none" LAction, 8); (mkLabel "Cmd" LCommandSeal, 9);
                   (mkLabel "Cmd" LCommandOpen, 11); (mkLabel "Cmd" LCommandPolicy, 13)])
    (bt_from_iter [("go", []); ("twice", []); ("none", [])]) [("Cmd", [])] [("Done", mkFactDefinition false "Done" [] [])] [("Cmd", [])]
    [("Cmd", [("priority", VInt 3)])] None [].
(** A codec that is enough for it. *)
#[global] Instance codec : PolicyCodec := {|
  ser_struct _ := Some [];
  deser_struct _ := None;
  ser_facts _ := Some [];
  deser_facts _ := Some [];
  ser_protocol d := Some (match d with PDMerge _ _ => [Byte.x02] | _ => [Byte.x01] end);
  deser_protocol b := match b with
                      | [Byte.x01] => Some (PDInit [] [Byte.x0a] "Cmd" [Byte.x2a] [])
                      | [Byte.x03] => Some (PDInit [] [Byte.x0a] "Ping" [] [])
                      | _ => Some (PDMerge address_default address_default)
                      end;
  hash_for_testing_only b := b
|}.
Definition pol : VmPolicy unit := Eval vm_compute in
  match vm_policy_new machine [] with Ok p => p | _ => mkVmPolicy machine [] [] end.
Definition perspective : MemPerspective := mp_new_unrooted 0.
Definition act (name : string) : VmAction := mkVmAction name [].
Definition perform (name : string) := vm_call_action (Sk := unit) 20 pol (act name) (perspective, tt, tt).


(** What the actions do. *)
Example one_command_is_added : (perform "go").1 = Ok tt ∧ mp_includes [Byte.x01] (perform "go").2.1.1 = true
  ∧ query (perform "go").2.1.1 "Done" [] = Ok (Some []).
Proof. vm_compute. done. Qed.
Example two_commands_fail : (perform "twice").1 = Err EEWrite.
Proof. vm_compute. reflexivity. Qed.

(** A compiled policy, a command of it and a sink that keeps the effects. *)
Definition ping_pol : VmPolicy unit := mkVmPolicy (machine_of TracerExample.ping_module) [] [].
Definition ping_command : Command := mkCommand PrioInit [Byte.x07] PNone (Some []) [Byte.x03] (Ok 0).
Definition ping_envelope : Envelope := mkEnvelope id_default [Byte.x0a] [Byte.x07] [] [].
#[global] Instance effects : Sink (list VmEffect) VmEffect :=
  {| sink_begin := id; sink_consume e l := l ++ [e]; sink_rollback := id; sink_commit := id |}.
Definition no_ffi (_ _ : nat) (_ : CommandContext) (_ : list Value) (eng : unit) : outcome MachineError Value * unit := (Panic "no module", eng).
Definition facts : MemFactPerspective := mfp_new FPNone.
Lemma ping_ranges : ranges_ok (ce_policy TracerExample.ping_env).
Proof. apply Forall_singleton. vm_compute. lia. Qed.
Lemma ping_fits : fits_command ping_pol TracerExample.ping (struct_new "Ping" []).
Proof. split_and!; [reflexivity|constructor|reflexivity]. Qed.
End PolicyExample.

Lemma received_command_follows_source_witness :
  settles (λ fuel, vm_call_rule fuel PolicyExample.ping_pol PolicyExample.ping_command RecallNone (PolicyExample.facts, [], tt))
    (Ok tt, (PolicyExample.facts, [mkVmEffect "Pong" [] [Byte.x07] false], tt)).
Proof.
  destruct (received_command_follows_source (F := MemFactPerspective) (Sk := list VmEffect) TracerExample.ping_env PolicyExample.ping_pol
    PolicyExample.no_ffi 20 TracerExample.ping PolicyExample.ping_command [Byte.x0a] PolicyExample.ping_envelope RecallNone PolicyExample.facts [] tt)
    as [Hfollows _].
  - exact (compiles_module_to _ _ TracerExample.ping_compiled).
  - exact PolicyExample.ping_ranges.
  - reflexivity.
  - intros i j mo f ctx stk args eng Hmo. discriminate Hmo.
  - by left.
  - reflexivity.
  - exact (Hfollows PolicyExample.ping_fits).
Defined.

