(* ===== verification/SessionTheorems.v ===== *)
(** The claims about ephemeral sessions. *)
From S2P Require Import Prelude Collections RuntimeTypes FactStore MemFacts Graph MemStorage MemStorageFacts MemTheorems.
From S2P Require Import Client RuntimeOps StorageInstances Session SessionProofs.
Local Open Scope string_scope.
Local Open Scope list_scope.
Local Open Scope nat_scope.

Section Theorems.
Context {FI St Seg P Pr E Pol Action Effect : Type} `{Query FI} `{!SessionCodec}.
Context `{Storage St Seg} `{!SegmentFacts Seg FI} `{!ProviderOps Pr St P}.
Context `{!EngineOps E Pol} `{PolicyLaws Pol Action Effect}.
Context {MS : Type} `{!Sink MS (list u8)}.
Context (bwf : FI → Prop) (bview : FI → FactView) `{!QueryLaws FI bwf bview}.
Abbreviation reached := (session_reached (Pr := Pr) (E := E) (Pol := Pol) (Action := Action) (Effect := Effect)).

(** C15: a session shows the facts of the graph with its own updates on top:
    whatever actions and commands it has run, and however far a policy has got
    in another one (facts inserted and deleted, commands added, checkpoints
    reverted), a query returns the last update of the fact in the session's
    log, or else the fact of the graph's head when the session was made; a
    prefix query lists exactly the facts that are there in that sense, in key
    order, without the deleted ones and each once. *)
Theorem session_facts_overlay_graph gid (s : Session FI) (ms : MS) p :
  reached gid s → bwf (ss_base_facts s) → rtc perspective_step (s, ms) p →
  let facts := view_updates (ss_fact_log p.1) (bview (ss_base_facts s)) in
  (∀ n k, query p n k = Ok (facts n k))
  ∧ ∀ n prefix, ∃ l, query_prefix p n prefix = Ok (map Ok l) ∧ lists_prefix facts n prefix l.
Proof.
  intros Hr Hb Hsteps. apply session_reached_ok in Hr as Hok. destruct (perspective_steps_keep _ _ Hsteps Hok) as [Hok' Hbase].
  simpl in Hbase. rewrite <- Hbase in Hb |- *. assert (session_wf bwf p) as Hwf by done.
  split; [intros n k|intros n prefix].
  - by apply (query_view (wf := session_wf bwf) (view := session_view bview)).
  - by apply (query_prefix_view (wf := session_wf bwf) (view := session_view bview)).
Qed.

(** C16: what fails in a session leaves no trace in its facts, under any policy:
    if an action fails, the facts and the log of the session are what they
    were before it (only the head may have moved), and if a received command is
    rejected, the whole session is; an action or a command that succeeds only
    adds to the log. *)
Theorem failed_session_call_restores gid (s : Session FI) {ES} `{!Sink ES Effect} (e : E) :
  reached gid s →
  (∀ (act : Action) (ms : MS) (es : ES) res s' ms' es', session_action e act (s, ms, es) = (res, (s', ms', es')) →
     ss_fact_log s `prefix_of` ss_fact_log s' ∧ ∀ err, res = Err err → s' = set_head (ss_head s') s)
  ∧ ∀ bytes (es : ES) res s' es', session_receive e bytes (s, es) = (res, (s', es')) →
     ss_fact_log s `prefix_of` ss_fact_log s' ∧ ∀ err, res = Err err → s' = s.
Proof.
  intros Hok%session_reached_ok. split.
  - intros act ms es res s' ms' es' E'. by destruct (session_action_spec _ _ _ _ _ _ _ _ _ Hok E') as (_ & ? & ?).
  - intros bytes es res s' es' E'. by destruct (session_receive_spec _ _ _ _ _ _ _ Hok E') as (_ & ? & ?).
Qed.
End Theorems.

(** * A policy that changes a fact and then refuses *)
Module SessionExample.
Inductive Fussy : Type := mkFussy.
(** Commands that begin with a zero byte are accepted. *)
Definition fussy_rule {F Sk} `{QueryMut F} (c : Command) : M (F * Sk) EngineError unit := λ s,
  (match cmd_bytes c with Byte.x00 :: _ => Ok tt | _ => Err EECheck end, (q_insert "seen" [] (cmd_bytes c) s.1, s.2)).
Definition fussy_action {P Sk} `{PerspectiveOps P} (data : list u8) : M (P * Sk) EngineError unit := λ s,
  match p_head_address s.1 with
  | Ok prior =>
      let c := mkCommand (PrioBasic 0) (Byte.x77 :: data) prior None data (max_cut_of_parent prior) in
      let '(res, p) := p_add_command c s.1 in
      match res with Ok _ => fussy_rule c (p, s.2) | _ => (Err EEWrite, (p, s.2)) end
  | _ => (Err EEInternalError, s)
  end.
#[global] Instance fussy_ops : PolicyOps Fussy (list u8) unit := {|
  pol_serial _ := 0;
  pol_call_rule F Sk _ _ _ _ c _ := fussy_rule c;
  pol_call_action P Sk _ _ _ _ _ data := fussy_action data;
  pol_merge _ _ := Err EEInternalError
|}.
#[global] Instance fussy_engine : EngineOps unit Fussy := {| add_policy _ := mret 0; get_policy _ _ := Ok mkFussy |}.
#[global] Instance fussy_laws : PolicyLaws Fussy (list u8) unit.
Proof.
  split.
  - intros F Sk Hq Hm Hs I pol c recall f sk res f' sk' Hi Hd Hf E. simpl in E. unfold fussy_rule in E. simplify_eq/=. by apply Hi.
  - intros P Sk ? ? ? ? I pol data p sk res p' sk' Hi Hd Ha Hp E. simpl in E. unfold fussy_action in E. simpl in E.
    destruct (p_head_address p) as [prior| |]; [|simplify_eq; done..].
    destruct (p_add_command _ p) as [r p1] eqn:Ea. apply Ha in Ea; [|done].
    destruct r; [|simplify_eq; done..]. unfold fussy_rule in E. simplify_eq/=. by apply Hi.
Qed.
(** One byte of data at most, and no other content. *)
#[global] Instance codec : SessionCodec := {|
  to_allocvec c := Some (sn_data c);
  from_bytes b := Some (mkSessionCommand [Byte.x00] 0 [Byte.x78] (mkAddress [Byte.x00] 0) b)
|}.
Definition provider : MemStorageProvider := [(Example.id Byte.x00, Example.st_commit)].
Definition session : Session MemFactIndex := Eval vm_compute in
  match (session_new (Seg := MemSegment) (Example.id Byte.x00) provider).1 with
  | Ok s => s
  | _ => mkSession [] 0 (MemFacts [] None) [] [] (mkAddress [] 0)
  end.
Abbreviation reached := (session_reached (Pr := MemStorageProvider) (E := unit) (Pol := Fussy) (Action := list u8) (Effect := unit)).
Lemma session_is_reached : reached (Example.id Byte.x00) session.
Proof. apply (sr_new _ provider provider). vm_compute. reflexivity. Qed.

(** A failed action leaves the head on the command that was rolled back. *)
Example failed_action_moves_head :
  match session_action (Effect := unit) tt [Byte.x01] (session, tt, tt) with
  | (Err CENotAuthorized, (s', _, _)) => ss_head s' = mkAddress [Byte.x77; Byte.x01] 1 ∧ ss_head session = mkAddress [Byte.x00] 0
  | _ => False
  end.
Proof. vm_compute. done. Qed.
(** [test_query_iterator]. *)
Definition key (b : u8) : Keys := [[b]].
Example query_iterator_merges :
  query_iter [Ok (mkStoredFact (key Byte.x61) [Byte.x00]); Ok (mkStoredFact (key Byte.x63) [Byte.x00]); Ok (mkStoredFact (key Byte.x64) [Byte.x00]);
              Ok (mkStoredFact (key Byte.x66) [Byte.x00]); Err IoError]
    [(key Byte.x61, None); (key Byte.x62, Some [Byte.x01]); (key Byte.x65, None); (key Byte.x6a, None)]
  = [Ok (mkStoredFact (key Byte.x62) [Byte.x01]); Ok (mkStoredFact (key Byte.x63) [Byte.x00]); Ok (mkStoredFact (key Byte.x64) [Byte.x00]);
     Ok (mkStoredFact (key Byte.x66) [Byte.x00]); Err IoError].
Proof. vm_compute. reflexivity. Qed.
End SessionExample.

Lemma session_facts_overlay_graph_witness :
  let p : SessionPerspective MemFactIndex unit := q_insert "F" [[Byte.x02]] [Byte.x0b] (SessionExample.session, tt) in
  let facts := view_updates (ss_fact_log p.1) (mfi_view (ss_base_facts SessionExample.session)) in
  ((∀ n k, query p n k = Ok (facts n k))
   ∧ ∀ n prefix, ∃ l, query_prefix p n prefix = Ok (map Ok l) ∧ lists_prefix facts n prefix l)
  ∧ query p "F" [[Byte.x01]] = Ok (Some [Byte.x0a]) ∧ query p "F" [[Byte.x02]] = Ok (Some [Byte.x0b]).
Proof.
  intros p facts. split; [|split; vm_compute; reflexivity].
  apply (session_facts_overlay_graph mfi_wf mfi_view (Example.id Byte.x00) SessionExample.session tt p SessionExample.session_is_reached).
  - split; [|done]. split; repeat constructor.
  - apply rtc_once, ps_insert.
Defined.
Lemma failed_session_call_restores_witness :
  ∃ s' es', session_receive (Effect := unit) tt [Byte.x01] (SessionExample.session, tt) = (Err CENotAuthorized, (s', es')) ∧ s' = SessionExample.session.
Proof.
  do 2 eexists. split; [vm_compute; reflexivity|].
  refine (proj2 (proj2 (failed_session_call_restores (Example.id Byte.x00) SessionExample.session (MS := unit) (ES := unit) tt
    SessionExample.session_is_reached) [Byte.x01] tt (Err CENotAuthorized) _ tt _) CENotAuthorized eq_refl). vm_compute. reflexivity.
Defined.
