(* ===== verification/MemLaws.v ===== *)
(** The in-memory storage keeps the promises the client relies on. *)
From S2P Require Import Prelude Collections RuntimeTypes FactStore MemFacts Graph MemStorage MemStorageFacts.
From S2P Require Import MemTheorems Client BraidProofs RuntimeOps StorageLaws StorageInstances.
Local Open Scope string_scope.
Local Open Scope list_scope.
Local Open Scope nat_scope.

(** * Sets of segments that agree *)
Section Equiv.
Context {St Seg : Type} `{Storage St Seg}.
Variables (D D' : nat → Prop) (st : St).
Hypothesis HDD : ∀ n, D n ↔ D' n.

Lemma valid_equiv l : valid D st l ↔ valid D' st l.
Proof. unfold valid, max_cut_at. setoid_rewrite HDD. done. Qed.
Lemma graph_ok_equiv : graph_ok D st → graph_ok D' st.
Proof.
  intros Hg. split.
  - intros l seg HD. apply (go_index _ _ Hg). by apply HDD.
  - intros n HD%HDD. destruct (go_shape _ _ Hg n HD) as (seg & base & len & Hs & Hsh). exists seg, base, len. split; [done|].
    refine (ext_shape D D' st st Hg _ _ n seg seg base len HD Hs Hs Hsh); [intros k; apply HDD|].
    intros k s _ Hk. by exists s.
Qed.
End Equiv.

(** * The laws *)
Section MemLaws.
Context (strict : Prop).
Implicit Types (st : MemStorage) (p : MemPerspective) (D : nat → Prop).

Definition mem_merges st : Prop :=
  strict → ∀ n seg a b, st_segments st !! n = Some seg → ms_prior seg = PMerge a b → incomp st a b.
Definition mem_sl_inv D st : Prop := mem_inv st ∧ (∀ n, present st n ↔ D n) ∧ mem_merges st.
Definition mem_sl_persp D st p : Prop :=
  persp_ok st p ∧ (∀ q, q ∈ prior_list (mp_prior p) → valid D st q)
  ∧ ∀ a b, mp_prior p = PMerge a b → strict → incomp st a b.
Definition mem_grows st st' : Prop := st_segments st `prefix_of` st_segments st'.

#[export] Instance mem_grows_preorder : PreOrder mem_grows.
Proof. split; unfold mem_grows; [by intros st|]. intros s1 s2 s3 H1 H2. by etrans. Qed.

Lemma mem_valid D st l : mem_sl_inv D st → valid D st l ↔ valid (present st) st l.
Proof. intros (_ & HD & _). symmetry. by apply valid_equiv. Qed.

Lemma mem_grows_lookup st st' n seg : mem_grows st st' → st_segments st !! n = Some seg → st_segments st' !! n = Some seg.
Proof. intros [k Hk] Hn. rewrite Hk. by apply lookup_app_l_Some. Qed.
Lemma mem_grows_ext st st' n seg :
  mem_grows st st' → seg_at st n = Some seg → ∃ seg', seg_at st' n = Some seg' ∧ seg_eqv seg seg'.
Proof. intros Hg Hs. exists seg. rewrite seg_at_mem in *. split; [by eapply mem_grows_lookup|done]. Qed.

Lemma mem_grows_anc st st' l x :
  mem_ok st → mem_grows st st' → present st (loc_segment l) → anc st l x ↔ anc st' l x.
Proof.
  intros Hok Hg Hl. apply (ext_anc (present st) st st' (mem_graph_ok st Hok)); [|done].
  intros n seg _. by apply mem_grows_ext.
Qed.
Lemma mem_grows_incomp st st' a b :
  mem_ok st → mem_grows st st' → present st (loc_segment a) → present st (loc_segment b) → incomp st a b → incomp st' a b.
Proof.
  intros Hok Hg Ha Hb [H1 H2]. split; [rewrite <- (mem_grows_anc st st' a b)|rewrite <- (mem_grows_anc st st' b a)]; done.
Qed.
Lemma mem_stored_merge st st' n seg a b :
  mem_ok st → mem_merges st → mem_grows st st' → strict → st_segments st !! n = Some seg → ms_prior seg = PMerge a b →
  incomp st' a b.
Proof.
  intros Hok Hmer Hg Hst Hn Hpr. pose proof (mso_prior _ _ _ (Hok _ _ Hn)) as Hq. rewrite Hpr in Hq.
  destruct (Hq a) as (_ & ca & [Ha _] & _); [by left|]. destruct (Hq b) as (_ & cb & [Hb _] & _); [by right; left|].
  apply (mem_grows_incomp st); [done..|by eapply Hmer].
Qed.
Lemma persp_ok_grows st st' p : mem_grows st st' → persp_ok st p → persp_ok st' p.
Proof.
  intros Hg [Hp Hf]. split; [|done]. intros q Hq. destruct (Hp q Hq) as (c & Hc & ?). exists c. split; [|done].
  by eapply max_cut_at_grow.
Qed.
Lemma mem_sl_persp_grows st st' D D' p :
  mem_sl_inv D st → (∀ n, D n → D' n) → mem_grows st st' → mem_sl_persp D st p → mem_sl_persp D' st' p.
Proof.
  intros ((Hok & _) & HD & _) HDD Hg (Hp & Hv & Hm). split_and!; [by eapply persp_ok_grows|..].
  - intros q Hq. destruct (Hv q Hq) as (c & HDq & seg & cmd & Hs & Hc). exists c. split; [by apply HDD|]. exists seg, cmd.
    rewrite seg_at_mem in *. split; [by eapply mem_grows_lookup|done].
  - intros a b Epr Hs. apply (mem_grows_incomp st); [done..| | |by apply Hm]; apply HD;
      [destruct (Hv a) as (c & ? & _)|destruct (Hv b) as (c & ? & _)]; rewrite ?Epr; try done; [by left|by right; left].
Qed.

Lemma mem_write_grows p : keeps mem_grows (mem_write p).
Proof.
  unfold mem_write. intros st. unfold mbind, M_bind, lift, lift_opt, modify, mem_grows.
  destruct (write_facts (mp_facts p)); simpl; [|done..]. destruct (mp_commands p) as [|c cs]; simpl; [done|].
  unfold new_segment. destruct (assign_max_cuts _ _ _) as [[|d ds]| |]; simpl; try done. by apply prefix_app_r.
Qed.
Lemma mem_commit_grows seg : keeps mem_grows (mem_commit seg).
Proof.
  intros st. destruct (mem_commit seg st) as [r st'] eqn:E. simpl.
  apply mem_commit_inv in E as [->|(h & _ & ->)]; unfold mem_grows; done.
Qed.

(** ** Writing *)
Lemma mem_sl_write D st p res st' :
  mem_sl_inv D st → mem_sl_persp D st p → mem_write p st = (res, st') →
  mem_get_head st' = mem_get_head st ∧
  match res with
  | Ok seg => ∃ n, ¬ D n ∧ mem_sl_inv (with_segment D n) st' ∧ seg_at st' n = Some seg ∧ ms_prior seg = mp_prior p
              ∧ ∀ id, mp_includes id p = true → ∃ c cmd, ms_get_command seg (mkLocation n c) = Some cmd ∧ cmd_id cmd = id
  | _ => mem_sl_inv D st'
  end.
Proof.
  intros Hi (Hp & _ & Hm) E. pose proof Hi as ((Hok & Hh) & HD & Hmer).
  pose proof (mem_write_grows p st) as Hg. rewrite E in Hg. simpl in Hg.
  destruct (mem_write_spec st p res st' Hok Hp E) as (Hok' & Hhead & Hr).
  split; [unfold mem_get_head; by rewrite Hhead|].
  assert (st_segments st' = st_segments st → mem_sl_inv D st') as Hsame.
  { intros Hs. split_and!.
    - split; [done|]. intros h. rewrite Hhead, Hs. apply Hh.
    - intros n. rewrite <- HD. unfold present. by rewrite !seg_at_mem, Hs.
    - intros Hst n seg a b. rewrite Hs. intros Hn Hpr. by apply (mem_stored_merge st st' n seg). }
  destruct res as [seg|e|x]; [|apply Hsame; by destruct e; try done; destruct Hr|done].
  destruct Hr as (Hs & Hidx & Hpr & _ & _ & _ & Hids & _). set (n := length (st_segments st)).
  assert (st_segments st' !! n = Some seg) as Hn by (rewrite Hs; by apply list_lookup_middle).
  exists n. split_and!.
  - rewrite <- HD. unfold present. rewrite seg_at_mem. intros [x Hx]. apply lookup_lt_Some in Hx. unfold n in Hx. lia.
  - split_and!.
    + split; [done|]. intros h. rewrite Hhead, Hs. intros Hst. destruct (Hh h Hst) as (s0 & ? & ?). exists s0. split; [|done]. set_solver.
    + intros k. unfold with_segment. rewrite <- HD. unfold present. rewrite !seg_at_mem, Hs. unfold is_Some.
      setoid_rewrite lookup_app_Some. split.
      * intros [x [Hx|[Hle Hx]]]; [left; by exists x|right]. apply lookup_lt_Some in Hx. simpl in Hx. unfold n. lia.
      * intros [[x Hx]| ->]; [exists x; by left|]. exists seg. right. unfold n. split; [done|]. by rewrite Nat.sub_diag.
    + intros Hst k s0 a b Hk Hprior. rewrite Hs in Hk. apply lookup_app_Some in Hk as [Hk|[_ Hk]].
      * by apply (mem_stored_merge st st' k s0).
      * apply list_lookup_singleton_Some in Hk as [_ <-]. rewrite Hpr in Hprior.
        pose proof (po_prior _ _ Hp) as Hq. rewrite Hprior in Hq.
        apply (mem_grows_incomp st); [done|done|..|by apply Hm];
          [destruct (Hq a) as (c & [? _] & _)|destruct (Hq b) as (c & [? _] & _)]; try done; [by left|by right; left].
  - by rewrite seg_at_mem.
  - done.
  - intros id Hid. apply existsb_exists in Hid as (d & Hd & Hid). apply bool_decide_eq_true in Hid.
    assert (id ∈ map (λ d, mc_id (cd_command d)) (v1_list (ms_commands seg))) as Hin.
    { rewrite Hids. apply list_elem_of_In, in_map_iff. by exists d. }
    apply list_elem_of_In, in_map_iff in Hin as (d' & Hd' & Hin). apply list_elem_of_In, list_elem_of_lookup in Hin as [c Hc].
    exists c, (mem_command (cd_command d')). split; [|done]. unfold ms_get_command, ms_get_mem_command. simpl.
    by rewrite Hidx, Nat.eqb_refl, Hc.
Qed.

(** ** Heads and commits *)
Lemma mem_sl_head D st h : mem_sl_inv D st → mem_get_head st = Ok h → valid D st h.
Proof.
  intros Hi E. apply mem_valid; [done|]. apply head_valid; [apply Hi|]. unfold mem_get_head in E. by destruct (st_head st); simplify_eq/=.
Qed.

Lemma mem_sl_head_location D st n seg :
  mem_sl_inv D st → D n → seg_at st n = Some seg →
  ∃ c, ms_head_location seg = Ok (mkLocation n c) ∧ valid D st (mkLocation n c)
    ∧ (∀ k, valid D st (mkLocation n k) → k ≤ c)
    ∧ ∀ cmd, (m ← ms_head seg; Ok (mem_command m)) = Ok cmd → ms_get_command seg (mkLocation n c) = Some cmd.
Proof.
  intros Hi HD Hs. pose proof Hi as ((Hok & _) & _). rewrite seg_at_mem in Hs. pose proof (Hok n seg Hs) as Hso.
  pose proof (mso_index _ _ _ Hso) as Hidx. exists (v1_len (ms_commands seg) - 1).
  assert (ms_get_command seg (mkLocation n (v1_len (ms_commands seg) - 1))
    = Some (mem_command (cd_command (v1_last (ms_commands seg))))) as Hlast
    by (rewrite ms_get_command_Some by done; by rewrite v1_last_lookup).
  split_and!.
  - by rewrite ms_head_location_eq, Hidx.
  - apply mem_valid; [done|]. eexists. apply max_cut_at_mem. by eexists _, _.
  - intros k Hk. apply mem_valid in Hk as [c Hc]; [|done]. apply max_cut_at_mem in Hc as (seg' & cmd & Hs' & Hc & _).
    simpl in Hs'. rewrite Hs in Hs'. injection Hs' as <-. rewrite ms_get_command_Some in Hc by done.
    destruct (v1_list (ms_commands seg) !! k) as [d|] eqn:Ek; [|done]. apply lookup_lt_Some in Ek.
    rewrite v1_len_list in Ek. lia.
  - unfold ms_head. simpl. intros cmd [= <-]. done.
Qed.

Lemma mem_sl_commit D st n seg res st' :
  mem_sl_inv D st → D n → seg_at st n = Some seg → mem_commit seg st = (res, st') →
  mem_sl_inv D st' ∧
  (res ≠ Ok tt ∧ mem_get_head st' = mem_get_head st
   ∨ ∃ h, ms_head_location seg = Ok h ∧ mem_get_head st' = Ok h ∧ ∀ old, mem_get_head st = Ok old → anc st h old).
Proof.
  intros Hi HD Hs E. pose proof Hi as ((Hok & Hh) & HDp & Hmer). pose proof Hs as Hn. rewrite seg_at_mem in Hn.
  assert (mem_sl_inv D st') as Hi'.
  { apply mem_commit_inv in E as [->|(h & Hl & ->)]; [done|]. split_and!.
    - split; [intros k s Hk; apply (mem_seg_ok_grow st); [done|by apply Hok]|].
      intros h' [= <-]. exists seg. split; [|done]. by eapply list_elem_of_lookup_2.
    - intros k. rewrite <- HDp. unfold present. by rewrite !seg_at_mem.
    - intros Hst k s a b Hk Hpr. apply (mem_stored_merge st _ k s); unfold mem_grows; done. }
  split; [done|]. destruct (mem_sl_head_location D st n seg Hi HD Hs) as (c & Hl & _).
  unfold mem_commit in E. rewrite Hl in E. unfold mem_get_head.
  destruct (st_head st) as [old|] eqn:Eh; [|injection E as <- <-; right; by eexists].
  destruct (mem_is_ancestor st seg n old Hok Hn (head_valid _ _ (proj1 Hi) Eh)) as (b & Hb & Hiff). rewrite Hb in E.
  cbn [searched] in E. destruct b; injection E as <- <-.
  - right. eexists. split_and!; [done..|]. intros o [= <-]. destruct (proj1 Hiff eq_refl) as (q & Hq & Ha).
    by apply (anc_prior _ _ _ seg q); [|done..].
  - left. by rewrite Eh.
Qed.

Lemma mem_sl_commit_refuses D st n seg st' :
  mem_sl_inv D st → seg_at st n = Some seg → mem_commit seg st = (Err HeadNotAncestor, st') →
  ∀ old q, mem_get_head st = Ok old → q ∈ prior_list (ms_prior seg) → ¬ anc st q old.
Proof.
  intros Hi Hs E old q Hh Hq Ha. pose proof Hs as Hn. rewrite seg_at_mem in Hn. unfold mem_get_head in Hh.
  unfold mem_commit in E. rewrite ms_head_location_eq in E. destruct (st_head st) as [h|] eqn:Eh; [|done]. simplify_eq/=.
  destruct (mem_is_ancestor st seg n old (proj1 (proj1 Hi)) Hn (head_valid _ _ (proj1 Hi) Eh)) as (b & Hb & Hiff). rewrite Hb in E.
  assert (b = true) as -> by (apply Hiff; by exists q). done.
Qed.

Lemma mem_sl_linear D st l p :
  mem_sl_inv D st → valid D st l → mem_get_linear_perspective st l = Ok (Some p) → mem_sl_persp D st p ∧ mp_prior p = PSingle l.
Proof.
  intros ((Hok & _) & _) Hl E. assert (mp_prior p = PSingle l) as Hpr.
  { unfold mem_get_linear_perspective, mbind, outcome_bind in E. repeat case_match; by simplify_eq. }
  split; [|done]. split_and!; [by eapply get_linear_perspective_ok|..]; rewrite Hpr; [|done].
  by intros q ->%list_elem_of_singleton.
Qed.
Lemma mem_sl_merge D st0 st l r policy i p :
  mem_sl_inv D st0 → mem_sl_inv D st → mem_grows st0 st → valid D st0 l → valid D st0 r → (strict → incomp st0 l r) →
  mfi_wf i → mem_new_merge_perspective st l r policy i = Ok (Some p) → mem_sl_persp D st p ∧ mp_prior p = PMerge l r.
Proof.
  intros Hi0 ((Hok & _) & _) Hg Hl Hr Hinc Hw E. assert (mp_prior p = PMerge l r) as Hpr.
  { unfold mem_new_merge_perspective, mbind, outcome_bind in E. repeat case_match; by simplify_eq. }
  assert (∀ q, valid D st0 q → valid D st q) as Hgv.
  { intros q (c & HDq & seg & cmd & Hs & Hc). exists c. split; [done|]. exists seg, cmd. rewrite seg_at_mem in *.
    split; [by eapply mem_grows_lookup|done]. }
  split; [|done]. split_and!; [by eapply new_merge_perspective_ok|..]; rewrite Hpr.
  - intros q [->|[->|[]%not_elem_of_nil]%elem_of_cons]%elem_of_cons; by apply Hgv.
  - intros a b [= <- <-] Hs. apply mem_valid in Hl as [cl [Hl _]]; [|done]. apply mem_valid in Hr as [cr [Hr _]]; [|done].
    apply (mem_grows_incomp st0); [apply Hi0|done..|by apply Hinc].
Qed.
Lemma mem_sl_facts_same D st p p' :
  mem_sl_persp D st p → persp_ok st p' → mp_prior p' = mp_prior p → mem_sl_persp D st p' ∧ mp_prior p' = mp_prior p.
Proof. intros (_ & Hv & Hm) Hp Hpr. split; [|done]. split_and!; [done|..]; by rewrite Hpr. Qed.

Lemma mem_sl_fact_perspective D st l f : mem_sl_inv D st → mem_get_fact_perspective st l = Ok f → mfp_wf f.
Proof.
  intros ((Hok & _) & _) E. unfold mem_get_fact_perspective, mem_get_segment, mbind, outcome_bind in E.
  destruct (st_segments st !! loc_segment l) as [seg|] eqn:Es; cbn [ok_or] in E; [|done]. rewrite ms_head_location_eq in E.
  pose proof (Hok _ _ Es) as Hs. case_match; [injection E as <-; apply mfp_new_wf, Hs|]. case_match; [done|]. injection E as <-.
  rewrite replay_updates. repeat apply apply_updates_wf. apply mfp_new_wf. by eapply prior_of_option_wf.
Qed.

#[export] Program Instance mem_laws : StorageLaws strict MemStorage MemSegment MemPerspective MemFactPerspective MemFactIndex := {|
  sl_inv := mem_sl_inv;
  sl_persp := mem_sl_persp;
  sl_facts _ _ := mfp_wf;
  sl_index _ _ := mfi_wf;
  sl_prior := mp_prior;
  sl_grows := mem_grows;
  sl_small _ := True
|}.
Next Obligation. intros D st Hi. apply (graph_ok_equiv (present st)); [apply Hi|apply mem_graph_ok, Hi]. Qed.
Next Obligation. exact mem_sl_head. Qed.
Next Obligation. intros D st n seg a b Hst Hi HD Hs Hpr. apply Hi with n seg; [done|by rewrite <- seg_at_mem|done]. Qed.
Next Obligation. done. Qed.
Next Obligation. exact mem_grows_ext. Qed.
Next Obligation. intros D D' st st' p. apply mem_sl_persp_grows. Qed.
Next Obligation. exact mem_write_grows. Qed.
Next Obligation. intros f st. done. Qed.
Next Obligation. intros fuel. exact mem_commit_grows. Qed.
Next Obligation. exact mem_sl_linear. Qed.
Next Obligation. intros D st0 st fuel l r lca policy i p H0 H1 Hg Hl Hr Hinc _. by apply mem_sl_merge with st0. Qed.
Next Obligation. intros D st name keys v p Hp. eapply mem_sl_facts_same; [done| |done]. apply persp_ok_insert, Hp. Qed.
Next Obligation. intros D st name keys p Hp. eapply mem_sl_facts_same; [done| |done]. apply persp_ok_delete, Hp. Qed.
Next Obligation.
  intros D st c p res p' Hp E. eapply mem_sl_facts_same; [done|eapply persp_ok_add_command; [apply Hp|done]|].
  by apply mp_add_command_inv in E as [->|(d & _ & ->)].
Qed.
Next Obligation.
  intros D st i p p' Hp E. eapply mem_sl_facts_same; [done|eapply persp_ok_revert; [apply Hp|done]|].
  simpl in E. unfold mp_revert in E. by repeat case_match; simplify_eq.
Qed.
Next Obligation. intros D st p q (_ & Hv & _). apply Hv. Qed.
Next Obligation. intros D st l f Hi _ E. by eapply mem_sl_fact_perspective. Qed.
Next Obligation. intros D st name keys v f. apply mfp_update_wf. Qed.
Next Obligation. intros D st name keys f. apply mfp_update_wf. Qed.
Next Obligation.
  intros D st f res st' Hi Hf E. cbn in E. unfold lift in E. injection E as <- <-. split; [done|]. split; [done|]. intros i Hw.
  destruct (write_facts_spec f Hf) as (i' & Hw' & Hwf & _). rewrite Hw in Hw'. by injection Hw' as ->.
Qed.
Next Obligation. intros D st p res st' Hi Hp E _. by apply mem_sl_write. Qed.
Next Obligation. exact mem_sl_head_location. Qed.
Next Obligation. intros D st fuel n seg. apply mem_sl_commit. Qed.
Next Obligation. intros D st fuel n seg st' Hi _. apply (mem_sl_commit_refuses D st n seg st' Hi). Qed.
End MemLaws.
