(* ===== verification/LinearLaws.v ===== *)
(** The persistent storage keeps the promises the client relies on, over any
    file that keeps its own. *)
From S2P Require Import Prelude Collections RuntimeTypes FactStore MemFacts LinearFacts LinearFactsProofs Graph.
From S2P Require Import MemStorage MemStorageFacts Client BraidProofs LinearStorage LinearStorageProofs LinearReach.
From S2P Require Import RuntimeOps StorageLaws StorageInstances.
Local Open Scope string_scope.
Local Open Scope list_scope.
Local Open Scope nat_scope.

(** More fuel does not change the answer of a search that ended. *)
Lemma is_ancestor_mono {St Seg} `{Storage St Seg} fuel fuel' (st : St) search (seg : Seg) res :
  is_ancestor fuel st search seg = Some res → fuel ≤ fuel' → is_ancestor fuel' st search seg = Some res.
Proof.
  unfold is_ancestor. destruct (search_address st search) as [address| |]; [|done..]. generalize (prior_list (seg_prior seg)).
  revert fuel'. induction fuel as [|fuel IH]; intros [|fuel'] queue; simpl; try done; [lia|]. intros E Hf.
  destruct (vec_pop queue) as [[l rest]|]; [|done]. destruct (_ && _); [done|].
  destruct (get_segment st l) as [s| |]; [|done..]. destruct (seg_longest_max_cut s) as [m| |]; [|done..].
  destruct (_ <? _); (apply IH; [done|lia]).
Qed.

Section LinearLaws.
Context {W : Type} `{FactIoLaws W} `{!SegIo W} `{!SegIoLaws W}.
Context (strict : Prop).
Implicit Types (w : W) (D : nat → Prop) (p : LinearPerspective (W := W)) (f : LinearFactPerspective (W := W)).

(** No segment of the file reaches the limit of a max cut. *)
Definition lin_small w : Prop := ∀ o r, fetch_segment w o = Ok r → seg_bound r.
Definition lin_facts w f : Prop := (∃ v, lfp_ok f v) ∧ readers_in w f.
Definition lin_index w (i : LinearFactIndex (W := W)) : Prop := ∃ v, wrote w v (Ok i, w).

Lemma lin_write_grows rand p : keeps same_file (lin_write (W := W) rand p).
Proof.
  assert (PreOrder same_file) as Hpre by apply _. unfold lin_write. apply keeps_bind; [done|..].
  { intros w. by destruct (lin_write_facts_same (lp_facts p) w). }
  intros i. apply keeps_bind; [done|by apply keeps_lift|]. intros cmds. apply keeps_get. intros w.
  apply keeps_bind; [done|by apply keeps_lift|]. intros skips. apply keeps_bind; [done|..].
  - intros w'. unfold append_segment_item. destruct (append_segment _ w') as [r w''] eqn:E.
    by destruct (segment_keeps _ _ _ _ E) as (? & ? & _).
  - intros r. by apply keeps_get.
Qed.
Lemma lin_commit_grows fuel seg : keeps same_file (lin_commit (W := W) fuel seg).
Proof.
  intros w. unfold lin_commit. destruct (io_head w) as [h| |]; [|done..].
  destruct (is_ancestor fuel w h seg) as [[[]| |]|]; [|done..].
  destruct (io_commit _ w) as [r w'] eqn:E. by destruct (commit_keeps _ _ _ _ E) as (? & ? & _).
Qed.

(** ** Writing *)

(** The segment that was written, whatever its size. *)
Lemma lin_write_stored rand p w seg w' :
  lin_write rand p w = (Ok seg, w') →
  let r := lseg_repr seg in
  fetch_segment w' (sr_offset r) = Ok r ∧ sr_max_cut r = lp_max_cut p ∧ v1_list (sr_commands r) = lp_commands p
  ∧ (∀ o y, fetch_segment w o = Ok y → o < sr_offset r).
Proof.
  intros E. unfold lin_write in E. apply M_bind_inv_Ok in E as (i & w1 & Ei & E).
  pose proof (lin_write_facts_same (lp_facts p) w) as [[Hs _] _]. rewrite Ei in Hs. simpl in Hs.
  apply M_bind_inv_Ok in E as (cmds & w1' & Ec & E). unfold lift in Ec. injection Ec as Ec <-.
  apply M_bind_inv_Ok in E as (w2 & w2' & [= <- <-] & E). apply M_bind_inv_Ok in E as (sk & w3 & Esk & E).
  unfold lift in Esk. injection Esk as _ <-. apply M_bind_inv_Ok in E as (r & w4 & Er & E).
  apply M_bind_inv_Ok in E as (w5 & w5' & [= <- <-] & E). injection E as <- <-. cbn [lseg_repr].
  destruct (segment_fetch _ _ _ _ Er) as (off & -> & Hf & Hoff). cbn [sr_offset sr_max_cut sr_commands].
  split_and!; [done..| |].
  - destruct (lp_commands p); [done|]. by injection Ec as <-.
  - intros o y Hy. by eapply Hoff, Hs.
Qed.

Lemma lin_includes_stored r w id :
  seg_bound r → existsb (λ d, bool_decide (lcd_id d = id)) (v1_list (sr_commands r)) = true →
  ∃ c cmd, lseg_get_command (mkLinearSegment r w) (mkLocation (sr_offset r) c) = Some cmd ∧ cmd_id cmd = id.
Proof.
  intros Hb (d & [c Hc]%list_elem_of_In%list_elem_of_lookup & Hid%bool_decide_eq_true)%existsb_exists. exists c.
  pose proof (lseg_get_command_eq r w c Hb) as Hcmd. apply lookup_lt_Some in Hc as Hlt. rewrite v1_len_list in Hlt.
  destruct (lseg_get_command _ _) as [cmd|] eqn:E; [|lia]. exists cmd. split; [done|].
  unfold lseg_get_command in E. cbn [lseg_repr loc_segment loc_command] in E. rewrite Nat.eqb_refl, Hc in E.
  cbn [negb] in E. apply bind_Some in E as (d' & [= <-] & E). apply bind_Some in E as (par & _ & E).
  apply bind_Some in E as (mc & _ & E). by injection E as <-.
Qed.

Lemma lin_sl_write D w rand p res w' :
  lin_inv (strict := strict) D w → lpersp_ok (strict := strict) D w p → lin_write rand p w = (res, w') → lin_small w' →
  io_head w' = io_head w ∧
  match res with
  | Ok seg => ∃ n, ¬ D n ∧ lin_inv (strict := strict) (with_segment D n) w' ∧ seg_at w' n = Some seg
              ∧ sr_prior (lseg_repr seg) = lp_prior p
              ∧ ∀ id, lp_includes id p = true → ∃ c cmd, lseg_get_command seg (mkLocation n c) = Some cmd ∧ cmd_id cmd = id
  | _ => lin_inv (strict := strict) D w'
  end.
Proof.
  intros Hinv Hp E Hsm.
  assert (is_ok res = true → (Z.of_nat (lp_max_cut p) + Z.of_nat (length (lp_commands p)) < pow64)%Z) as Hb.
  { destruct res as [seg| |]; [|done..]. intros _. destruct (lin_write_stored _ _ _ _ _ E) as (Hf & <- & <- & _).
    apply (Hsm _ _ Hf). }
  pose proof (lin_write_spec D w rand p res w' Hinv Hp Hb E) as Hw.
  assert (io_head w' = io_head w) as Hh; [|split; [done|]].
  { clear -E SegIoLaws0 H0. pose proof (lin_write_facts_same (lp_facts p) w) as [_ Hh]. unfold lin_write, mbind, M_bind in E.
    destruct (lin_write_facts (lp_facts p) w) as [[i|e|x] w1]; simpl in Hh; [|by simplify_eq..].
    unfold lift, get_state, append_segment_item, mret, M_ret in E. destruct (ok_or _ _) as [c| |]; [|by simplify_eq..].
    destruct (lin_skip_list rand w1 p) as [sk| |]; [|by simplify_eq..].
    match type of E with context [append_segment ?g w1] => destruct (append_segment g w1) as [[r|e|x] w2] eqn:Ea end;
      destruct (segment_keeps _ _ _ _ Ea) as (_ & _ & Hh2); injection E as <- <-; congruence. }
  destruct res as [seg| |]; [|by destruct Hw..]. destruct Hw as (Hi & Hs & Hc & Hpr & _).
  destruct (lin_write_stored _ _ _ _ _ E) as (Hf & _ & _ & Hoff). exists (sr_offset (lseg_repr seg)). split_and!; try done.
  - intros HD. destruct (inv_seg _ _ Hinv _ HD) as [r Hr]. pose proof (Hoff _ _ (lso_fetch _ _ _ _ Hr)). lia.
  - intros id Hid. destruct seg as [r rd]. unfold lp_includes in Hid. simpl in Hc, Hf. rewrite <- Hc in Hid.
    apply lin_includes_stored; [by eapply Hsm|done].
Qed.

(** ** Heads and commits *)
Lemma lin_sl_head_location D w n seg :
  lin_inv (strict := strict) D w → D n → seg_at w n = Some seg →
  ∃ c, lseg_head_location seg = Ok (mkLocation n c) ∧ valid D w (mkLocation n c)
    ∧ (∀ k, valid D w (mkLocation n k) → k ≤ c)
    ∧ ∀ cmd, lseg_head seg = Ok cmd → lseg_get_command seg (mkLocation n c) = Some cmd.
Proof.
  intros Hinv HD Hs. destruct (inv_seg _ _ Hinv n HD) as [r Hr]. pose proof Hs as Hs'.
  rewrite seg_at_lin, (lso_fetch _ _ _ _ Hr) in Hs'. injection Hs' as <-. pose proof (lso_bound _ _ _ _ Hr) as Hb.
  pose proof (lso_offset _ _ _ _ Hr) as Ho. exists (v1_len (sr_commands r) - 1). split_and!.
  - unfold lseg_head_location. cbn [lseg_repr]. by rewrite Ho.
  - eexists. eapply shape_max_cut_at; [done|exact Hs|apply Hr|]. unfold v1_len. lia.
  - intros k [c (_ & seg & cmd & Hs' & Hcmd & _)]. simpl in Hs'. rewrite Hs in Hs'. injection Hs' as <-.
    pose proof (lseg_get_command_eq r w k Hb) as Hk. rewrite Ho in Hk. simpl in Hcmd. rewrite Hcmd in Hk. lia.
  - intros cmd Hcmd. unfold lseg_head in Hcmd. unfold lseg_get_command. cbn [lseg_repr loc_segment loc_command] in *.
    rewrite Ho, Nat.eqb_refl, v1_last_lookup. cbn [negb mbind option_bind].
    assert (v1_len (sr_commands r) = S (v1_len (sr_commands r) - 1)) as Hlen by (unfold v1_len; lia).
    set (m := v1_len (sr_commands r) - 1) in *. clearbody m. rewrite Hlen in Hcmd. unfold seg_bound in Hb. rewrite Hlen in Hb.
    assert (checked_sub (S m) 2 = checked_sub m 1) as Hsub by (by destruct m as [|[|m']]).
    assert (checked_sub (sr_max_cut r + S m) 1 = Some (sr_max_cut r + m)) as Hsub' by (apply checked_sub_Some; lia).
    rewrite Hsub in Hcmd. rewrite (checked_add_lt _ _ m Hb) by lia.
    destruct (checked_sub m 1) as [prev|] eqn:Eprev.
    + apply checked_sub_Some in Eprev as [? ->]. rewrite (checked_add_lt _ _ (m - 1) Hb) in * by lia. cbn in *.
      destruct (v1_list (sr_commands r) !! (m - 1)); cbn in *; [|done].
      rewrite (checked_add_lt _ _ (S m) Hb) in Hcmd by lia. cbn in Hcmd. rewrite Hsub' in Hcmd. cbn in Hcmd. congruence.
    + cbn in *. rewrite (checked_add_lt _ _ (S m) Hb) in Hcmd by lia. cbn in Hcmd. rewrite Hsub' in Hcmd. cbn in Hcmd. congruence.
Qed.

(** The answer of a search for the head that ended. *)
Lemma lin_head_search D w fuel n seg old b :
  lin_inv (strict := strict) D w → D n → seg_at w n = Some seg → io_head w = Ok old →
  is_ancestor fuel w old seg = Some b → ∃ c, b = Ok c ∧ (c = true ↔ ∃ q, q ∈ prior_list (seg_prior seg) ∧ anc w q old).
Proof.
  intros Hinv HD Hs Hh Ea. pose proof (lin_graph_ok D w Hinv) as Hg.
  destruct (go_shape _ _ Hg _ HD) as (seg' & base & len & Hseg' & Hsh). rewrite Hs in Hseg'. injection Hseg' as <-.
  destruct (is_ancestor_spec D w Hg (fuel + S (queue_weight (prior_list (seg_prior seg)))) old seg) as (c & Hanc & Hiff).
  { by apply (inv_head _ _ Hinv). }
  { apply Forall_forall. intros q Hq. destruct (sh_prior _ _ _ _ _ _ Hsh q Hq) as (_ & cq & Hc & _). by exists cq. }
  { lia. }
  rewrite (is_ancestor_mono fuel _ w old seg b Ea) in Hanc by lia. injection Hanc as ->. by exists c.
Qed.

Lemma lin_sl_commit D w fuel n seg res w' :
  lin_inv (strict := strict) D w → D n → seg_at w n = Some seg → lin_commit fuel seg w = (res, w') →
  lin_inv (strict := strict) D w' ∧
  (res ≠ Ok tt ∧ io_head w' = io_head w
   ∨ ∃ h, lseg_head_location seg = Ok h ∧ io_head w' = Ok h ∧ ∀ old, io_head w = Ok old → anc w h old).
Proof.
  intros Hinv HD Hs E. pose proof (lin_graph_ok D w Hinv) as Hg.
  destruct (lin_sl_head_location D w n seg Hinv HD Hs) as (c & Hh & Hv & _). unfold lin_commit in E.
  destruct (io_head w) as [old|e|x] eqn:Eh; [|injection E as <- <-; split; [done|left; by rewrite Eh]..].
  destruct (is_ancestor fuel w old seg) as [[[]|e|x]|] eqn:Ea;
    [|injection E as <- <-; split; [done|left; by rewrite Eh]..].
  destruct (lin_head_search D w fuel n seg old _ Hinv HD Hs Eh Ea) as (b & [= <-] & Hiff).
  destruct (proj1 Hiff eq_refl) as (q & Hq & Haq). 
  match type of E with io_commit ?l w = _ => assert (l = mkLocation n c) as Heq by (unfold lseg_head_location in Hh; congruence) end.
  rewrite Heq in E.
  destruct (commit_keeps _ _ _ _ E) as (Hks & Hkf & Hok & Hcases). split.
  - eapply lin_inv_grow; [done..|]. intros h' Hh'. destruct Hcases as [Hc'|Hc']; rewrite Hc' in Hh'; [by injection Hh' as <-|].
    by apply (inv_head _ _ Hinv).
  - destruct Hcases as [Hc'|Hc'].
    + right. exists (mkLocation n c). split_and!; [done|done|].
      intros o [= <-]. by eapply anc_prior.
    + destruct (is_ok res) eqn:Er; [|left; split; [by destruct res|congruence]].
      right. exists (mkLocation n c). split_and!; [done|by apply Hok|].
      intros o [= <-]. by eapply anc_prior.
Qed.

Lemma lin_sl_commit_refuses D w fuel n seg w' :
  lin_inv (strict := strict) D w → D n → seg_at w n = Some seg → lin_commit fuel seg w = (Err HeadNotAncestor, w') →
  ∀ old q, io_head w = Ok old → q ∈ prior_list (seg_prior seg) → ¬ anc w q old.
Proof.
  intros Hinv HD Hs E old q Hh Hq Ha. unfold lin_commit in E. rewrite Hh in E.
  destruct (is_ancestor fuel w old seg) as [b|] eqn:Ea; [|done].
  destruct (lin_head_search D w fuel n seg old b Hinv HD Hs Hh Ea) as (c & -> & Hiff).
  assert (c = true) as -> by (apply Hiff; by exists q). by apply commit_error in E.
Qed.

(** ** Perspectives and facts *)
Lemma lin_facts_update w name keys x f : lin_facts w f → lin_facts w (lfp_update name keys x f).
Proof. intros [[v Hv] Hr]. split; [eexists; by apply lfp_update_ok|by apply lfp_update_readers]. Qed.

Lemma lin_sl_write_facts D w f res w' :
  lin_inv (strict := strict) D w → lin_facts w f → lin_write_facts f w = (res, w') →
  lin_inv (strict := strict) D w' ∧ io_head w' = io_head w ∧ ∀ i, res = Ok i → lin_index w' i.
Proof.
  intros Hinv [(v & g & Hr & _) Hrd] E. pose proof (lin_write_facts_ok f g w Hr Hrd) as Hw.
  pose proof (lin_write_facts_same f w) as Hs. rewrite E in Hw, Hs. simpl in Hs.
  split_and!; [by eapply lin_inv_same|apply Hs|]. intros i ->. eexists. by eapply wrote_again.
Qed.

Lemma lpersp_ok_grows D D' w w' p :
  lin_inv (strict := strict) D w → (∀ n, D n → D' n) → same_file w w' →
  lpersp_ok (strict := strict) D w p → lpersp_ok (strict := strict) D' w' p.
Proof.
  intros Hinv HDD Hsame Hp. pose proof (lpersp_ok_same D w w' p Hinv Hsame Hp) as [_ Hroot Hm Hf Hrd].
  split; try done.
  - intros q Hq. destruct (lpo_prior _ _ _ Hp q Hq) as (c & Hc & Hlt). exists c. split; [by eapply lin_valid_grow|done].
  - intros a b E. destruct (Hm a b E) as [Hinc _]. split; [done|].
    destruct (lpo_merge _ _ _ Hp a b E) as (_ & lca & mc & Hl & Ha & Hb).
    destruct (lpo_prior _ _ _ Hp a) as (ca & Hca & _); [rewrite E; by left|].
    destruct (lpo_prior _ _ _ Hp b) as (cb & Hcb & _); [rewrite E; by right; left|].
    exists lca, mc. split_and!; [done|eapply (lin_choke_grow D D' w w'); try done; by eexists..].
Qed.
Lemma lin_linear_prior w l p : lin_get_linear_perspective w l = Ok (Some p) → lp_prior p = PSingle l.
Proof.
  unfold lin_get_linear_perspective. intros E. repeat (apply outcome_bind_Ok in E as (? & _ & E)). by injection E as <-.
Qed.
Lemma lin_merge_prior w l r lca policy i p :
  lin_new_merge_perspective w l r lca policy i = Ok (Some p) → lp_prior p = PMerge l r.
Proof.
  unfold lin_new_merge_perspective. intros E. repeat (apply outcome_bind_Ok in E as (? & _ & E)).
  case_match; [done|]. repeat (apply outcome_bind_Ok in E as (? & _ & E)). by injection E as <-.
Qed.

Context (rand : W → nat → nat → nat).
#[export] Program Instance lin_laws
  : StorageLaws (StorageOps0 := lin_storage_ops rand) strict W (LinearSegment (W := W)) (LinearPerspective (W := W))
      (LinearFactPerspective (W := W)) (LinearFactIndex (W := W)) := {|
  sl_inv := lin_inv (strict := strict);
  sl_persp := lpersp_ok (strict := strict);
  sl_facts _ := lin_facts;
  sl_index _ := lin_index;
  sl_prior := lp_prior;
  sl_grows := same_file;
  sl_small := lin_small
|}.
Next Obligation. apply lin_graph_ok. Qed.
Next Obligation. intros D w h Hi. apply (inv_head _ _ Hi). Qed.
Next Obligation. intros D w n seg a b Hst Hi HD Hs Hp. by eapply (inv_merge _ _ Hi). Qed.
Next Obligation. intros w w' [Hs _] Hsm o r Hr. by eapply Hsm, Hs. Qed.
Next Obligation. intros w w' n seg. by apply (same_file_ext (λ _, True)). Qed.
Next Obligation. intros D D' w w' p Hi HDD Hs Hp. by eapply lpersp_ok_grows. Qed.
Next Obligation. intros p w. exact (lin_write_grows (rand w) p w). Qed.
Next Obligation. intros f w. by destruct (lin_write_facts_same f w). Qed.
Next Obligation. intros fuel seg w. exact (lin_commit_grows fuel seg w). Qed.
Next Obligation.
  intros D w l p Hi Hl E. split; [by eapply lin_get_linear_perspective_ok|]. by apply lin_linear_prior in E.
Qed.
Next Obligation.
  intros D w w' fuel l r lca policy i p Hi Hi' Hs Hl Hr Hinc El [v Hw] E. split; [by apply (lin_merge_after D w w' fuel l r lca policy i v)|].
  by apply lin_merge_prior in E.
Qed.
Next Obligation. intros D w name keys v p Hp. split; [by apply lpersp_ok_insert|done]. Qed.
Next Obligation. intros D w name keys p Hp. split; [by apply lpersp_ok_delete|done]. Qed.
Next Obligation.
  intros D w c p res p' Hp E. cbn in E. split; [by eapply lpersp_ok_add_command|]. unfold lp_add_command in E.
  repeat case_match; by simplify_eq.
Qed.
Next Obligation.
  intros D w i p p' Hp E. cbn in E. split; [by eapply lpersp_ok_revert|]. unfold lp_revert in E. repeat case_match; by simplify_eq.
Qed.
Next Obligation. intros D w p q Hp Hq. destruct (lpo_prior _ _ _ Hp q Hq) as (c & Hc & _). by exists c. Qed.
Next Obligation. intros D w l f. apply lin_get_fact_perspective_ok. Qed.
Next Obligation. intros D w name keys v f. apply (lin_facts_update w name keys (Some v)). Qed.
Next Obligation. intros D w name keys f. apply (lin_facts_update w name keys None). Qed.
Next Obligation. intros D w f res w'. apply lin_sl_write_facts. Qed.
Next Obligation. intros D w p res w' Hi Hp E Hsm. exact (lin_sl_write D w (rand w) p res w' Hi Hp E Hsm). Qed.
Next Obligation. intros D w n seg. apply lin_sl_head_location. Qed.
Next Obligation. intros D w fuel n seg res w'. apply lin_sl_commit. Qed.
Next Obligation. intros D w fuel n seg w'. apply lin_sl_commit_refuses. Qed.
End LinearLaws.
