(* ===== verification/ClientProofs.v ===== *)
(** The client keeps every graph well formed: creating graphs, receiving
    commands in any number of open transactions, committing them and
    performing actions, in any order and with any policy. *)
From S2P Require Import Prelude Collections RuntimeTypes FactStore Graph Client BraidProofs SearchSound RuntimeOps.
From S2P Require Import StorageLaws Transaction TransactionProofs ClientState.
Local Open Scope string_scope.
Local Open Scope list_scope.
Local Open Scope nat_scope.

Section ClientProofs.
Context {St Seg P FP FI Pr : Type} `{HP : ProviderLaws False Pr St Seg P FP FI}.
Context {Eng Pol Action Effect Sk : Type} `{EngineOps Eng Pol} `{PolicyLaws Pol Action Effect} `{Sink Sk Effect}.
Context (search_fuel braid_fuel : St → nat).
Implicit Types (pr : Pr) (st : St) (D : nat → Prop) (Dm : GraphId → nat → Prop) (t : Transaction P).
Abbreviation world := (World (E := Eng) (Sk := Sk) (Pr := Pr)).
Abbreviation prov s := (cl_provider (wo_client s)).
Abbreviation tok := (trx_ok (strict := False) (alone := False)).

(** * The graphs of a provider *)
Definition prov_ok Dm pr : Prop := ∀ g st, pl_stored pr g = Some st → sl_inv (Dm g) st.
Definition prov_small pr : Prop := ∀ g st, pl_stored pr g = Some st → sl_small st.
Record prov_later Dm pr Dm' pr' : Prop := mk_prov_later {
  pv_stored g st : pl_stored pr g = Some st →
    (∀ n, Dm g n → Dm' g n) ∧ ∃ st', pl_stored pr' g = Some st' ∧ sl_grows st st' ∧ forward st st';
  pv_ok : prov_ok Dm' pr'
}.

Lemma forward_refl st : forward st st.
Proof. intros h Hh. exists h. split; [done|apply anc_refl]. Qed.
Lemma forward_trans D st1 st2 st3 :
  sl_inv D st2 → sl_grows st2 st3 → forward st1 st2 → forward st2 st3 → forward st1 st3.
Proof.
  intros Hi Hg Hf1 Hf2 h Hh. destruct (Hf1 h Hh) as (h1 & Hh1 & Ha). destruct (Hf2 h1 Hh1) as (h2 & Hh2 & Ha2).
  exists h2. split; [done|]. eapply anc_trans; [done|]. eapply (grow_anc D st2 st3); [done|done| |done].
  destruct (sl_head _ _ _ Hi Hh1) as [c [? _]]. done.
Qed.

Lemma prov_later_same Dm pr pr' :
  prov_ok Dm pr → (∀ g, pl_stored pr' g = pl_stored pr g) → prov_later Dm pr Dm pr'.
Proof.
  intros Hok Hs. split.
  - intros g st Hst. split; [done|]. exists st. rewrite Hs. split_and!; [done|reflexivity|apply forward_refl].
  - intros g st. rewrite Hs. apply Hok.
Qed.
Lemma prov_later_trans Dm pr Dm1 pr1 Dm2 pr2 :
  prov_later Dm pr Dm1 pr1 → prov_later Dm1 pr1 Dm2 pr2 → prov_later Dm pr Dm2 pr2.
Proof.
  intros [Hl1 Hok1] [Hl2 Hok2]. split; [|done]. intros g st Hst. destruct (Hl1 g st Hst) as (Hd1 & st1 & Hs1 & Hg1 & Hf1).
  destruct (Hl2 g st1 Hs1) as (Hd2 & st2 & Hs2 & Hg2 & Hf2). split; [auto|]. exists st2.
  split_and!; [done|by etrans|]. by eapply (forward_trans (Dm1 g)); [apply Hok1|..].
Qed.
(** Without the invariant: nothing written is lost. *)
Definition prov_grows pr pr' : Prop :=
  ∀ g st, pl_stored pr g = Some st → ∃ st', pl_stored pr' g = Some st' ∧ sl_grows st st'.
#[local] Instance prov_grows_preorder : PreOrder prov_grows.
Proof.
  split; [intros pr g st Hst; by exists st|]. intros pr1 pr2 pr3 Hg1 Hg2 g st Hst. destruct (Hg1 g st Hst) as (st1 & Hst1 & Hl1).
  destruct (Hg2 g st1 Hst1) as (st2 & Hst2 & Hl2). exists st2. split; [done|by etrans].
Qed.
Lemma prov_grows_same pr pr' : (∀ g, pl_stored pr' g = pl_stored pr g) → prov_grows pr pr'.
Proof. intros Hs g st Hst. exists st. by rewrite Hs. Qed.
Lemma prov_grows_small pr pr' : prov_grows pr pr' → prov_small pr' → prov_small pr.
Proof. intros Hg Hsm g st Hst. destruct (Hg g st Hst) as (st' & Hs' & Hl). eapply sl_grows_small; [done|by eapply Hsm]. Qed.
Lemma prov_grows_set pr g st st' : pl_stored pr g = Some st → sl_grows st st' → prov_grows pr (pr_set_storage g st' pr).
Proof.
  intros Hst Hl g' s Hs. rewrite pl_set. destruct (decide (g' = g)) as [->|]; [|by exists s].
  rewrite Hst in Hs. injection Hs as <-. by exists st'.
Qed.

(** The storage of a graph is replaced. *)
Lemma prov_later_set Dm pr g st D' st' :
  prov_ok Dm pr → pl_stored pr g = Some st → (∀ n, Dm g n → D' n) → sl_inv D' st' → sl_grows st st' → forward st st' →
  ∃ Dm', prov_later Dm pr Dm' (pr_set_storage g st' pr) ∧ Dm' g = D'.
Proof.
  intros Hok Hst HD Hi Hg Hf. exists (λ g', if decide (g' = g) then D' else Dm g'). split; [|by rewrite decide_True]. split.
  - intros g' s Hs. rewrite pl_set. destruct (decide (g' = g)) as [->|]; [simplify_eq; eauto|].
    split; [done|]. exists s. split_and!; [done|reflexivity|apply forward_refl].
  - intros g' s. rewrite pl_set. destruct (decide (g' = g)); [by intros [= <-]|apply Hok].
Qed.

(** * Transactions beside a provider *)
Definition trx_fine Dm pr t : Prop :=
  match pl_stored pr (trx_storage_id t) with
  | Some st => tok (Dm (trx_storage_id t)) st t
  | None => trx_heads t = [] ∧ trx_perspective t = None
  end.

Lemma trx_fine_later Dm pr Dm' pr' t :
  prov_ok Dm pr → prov_later Dm pr Dm' pr' → trx_fine Dm pr t → trx_fine Dm' pr' t.
Proof.
  unfold trx_fine. intros Hok [Hs Hok'] Ht. destruct (pl_stored pr (trx_storage_id t)) as [st|] eqn:E.
  - destruct (Hs _ _ E) as (Hd & st' & E' & Hg & _). rewrite E'.
    eapply (trx_ok_grow (Dm _) (Dm' _) st st'); [by apply Hok|by apply Hok'|done|done|done|done].
  - destruct Ht as [Hnil Hnone]. destruct (pl_stored pr' _) as [st|] eqn:E'; [|done].
    apply trx_ok_no_heads; [done|]. by rewrite Hnone.
Qed.

(** * Weakest preconditions of the client's methods

    [Q] holds when the method returns; nothing is lost in any case; and graphs
    that were well formed are so afterwards. *)
Definition wpw_post {A} Dm (s : world) (Q : A → world → Prop) (res : outcome ClientError A) (s' : world) : Prop :=
  (∀ a, res = Ok a → Q a s') ∧ prov_grows (prov s) (prov s')
  ∧ (prov_ok Dm (prov s) → prov_small (prov s') → ∃ Dm', prov_later Dm (prov s) Dm' (prov s')).
Definition wpw {A} Dm (s : world) (m : M world ClientError A) (Q : A → world → Prop) : Prop :=
  ∀ res s', m s = (res, s') → wpw_post Dm s Q res s'.
Definition keeps_prov {A} (m : M world ClientError A) : Prop := ∀ s, prov (m s).2 = prov s.

Lemma keeps_prov_bind {A B} (m : M world ClientError A) (k : A → M world ClientError B) :
  keeps_prov m → (∀ a, keeps_prov (k a)) → keeps_prov (m ≫= k).
Proof. intros Hm Hk s. unfold mbind, M_bind. specialize (Hm s). destruct (m s) as [[a| |] s1]; [|done..]. by rewrite Hk. Qed.
(** The state of the provider is as before. *)
Lemma wpw_stop {A} Dm (s s' : world) (res : outcome ClientError A) (Q : A → world → Prop) :
  (∀ g, pl_stored (prov s') g = pl_stored (prov s) g) → (∀ a, res = Ok a → Q a s') → wpw_post Dm s Q res s'.
Proof. intros Hs HQ. unfold wpw_post. split_and!; [done|by apply prov_grows_same|]. intros Hok _. exists Dm. by apply prov_later_same. Qed.
Lemma wpw_pure {A} Dm s (m : M world ClientError A) Q :
  keeps_prov m → (∀ a s1, m s = (Ok a, s1) → prov s1 = prov s → Q a s1) → wpw Dm s m Q.
Proof.
  intros Hm HQ res s' E. specialize (Hm s). rewrite E in Hm. simpl in Hm. apply wpw_stop; [by rewrite Hm|by intros a ->; auto].
Qed.
Lemma wpw_bind {A B} Dm s (m : M world ClientError A) (k : A → M world ClientError B) Q :
  keeps_prov m → (∀ a s1, m s = (Ok a, s1) → prov s1 = prov s → wpw Dm s1 (k a) Q) → wpw Dm s (m ≫= k) Q.
Proof.
  intros Hm Hk res s' E. specialize (Hm s). unfold mbind, M_bind in E. destruct (m s) as [[a|e|x] s1] eqn:Em; simpl in Hm.
  - unfold wpw_post. rewrite <- Hm. exact (Hk a s1 eq_refl Hm res s' E).
  - injection E as <- <-. apply wpw_stop; [by rewrite Hm|done].
  - injection E as <- <-. apply wpw_stop; [by rewrite Hm|done].
Qed.
(** A step that changes the provider, then steps that do not. *)
Lemma wpw_bind_last {A B} Dm s (m : M world ClientError A) (k : A → M world ClientError B) Q Q' :
  wpw Dm s m Q' → (∀ a, keeps_prov (k a)) →
  (∀ a s1 b s2, Q' a s1 → k a s1 = (Ok b, s2) → prov s2 = prov s1 → Q b s2) → wpw Dm s (m ≫= k) Q.
Proof.
  intros Hm Hk HQ res s' E. unfold mbind, M_bind in E. destruct (m s) as [[a|e|x] s1] eqn:Em; destruct (Hm _ _ Em) as [Ha Hl].
  - pose proof (Hk a s1) as Hp. rewrite E in Hp. simpl in Hp. unfold wpw_post. rewrite Hp. split; [|done].
    intros b ->. eapply HQ; [by apply Ha|done..].
  - by injection E as <- <-.
  - by injection E as <- <-.
Qed.

Lemma prov_on_engine {A} (m : M Eng EngineError A) : keeps_prov (on_engine m).
Proof. intros s. unfold on_engine. by destruct (m _). Qed.
Lemma prov_on_perspective (m : M (P * Sk) EngineError unit) p : keeps_prov (on_perspective m p).
Proof. intros s. unfold on_perspective. by destruct (m _) as [res [q sk]]. Qed.
Create HintDb prov.
#[local] Hint Resolve prov_on_engine prov_on_perspective : prov.
Ltac prov_tac := solve [auto with prov | done | apply keeps_prov_bind; [done|done]].
(** One step that leaves the provider alone; its value, the state after it and
    the equation of the step. *)
Tactic Notation "wpw_step" simple_intropattern(v) simple_intropattern(s) simple_intropattern(e) :=
  apply wpw_bind; [prov_tac|let Hq := fresh "Hprov" in intros v s e Hq; try rewrite <- Hq in *].

Lemma wpw_new_storage Dm s p o :
  pl_initial p o →
  wpw Dm s (on_provider (pr_new_storage p)) (λ r s', o = Some r.1 ∧ pl_stored (prov s) r.1 = None ∧ pl_stored (prov s') r.1 = Some r.2).
Proof.
  intros Hp res s' E. unfold on_provider in E. destruct (pr_new_storage p (prov s)) as [r pr'] eqn:En.
  injection E as <- <-. pose proof (pl_new _ _ _ _ _ Hp En) as Hn. destruct r as [[g st]|e|x].
  2, 3: by apply wpw_stop.
  unfold wpw_post. simpl. destruct Hn as (-> & Hnone & Hinv & Hs). split_and!.
  - intros a [= <-]. simpl. split_and!; [done..|]. by rewrite Hs, decide_True.
  - intros g' st' Hst. exists st'. split; [by eapply pl_new_keeps|reflexivity].
  - intros Hok Hsm. destruct Hinv as [D HD]; [apply (Hsm g); by rewrite Hs, decide_True|].
    exists (λ g', if decide (g' = g) then D else Dm g'). split.
    + intros g' st' Hst. rewrite Hs. destruct (decide (g' = g)) as [->|]; [congruence|]. split; [done|].
      exists st'. split_and!; [done|reflexivity|apply forward_refl].
    + intros g' st'. rewrite Hs. destruct (decide (g' = g)); [by intros [= <-]|apply Hok].
Qed.

(** ** Creating graphs *)
Lemma initial_rule (pol : Pol) c p o sk res p' (sk' : Sk) :
  pl_initial p o → pol_call_rule pol c RecallNone (p, sk) = (res, (p', sk')) → pl_initial p' o.
Proof.
  intros Hp E. refine (call_rule_keeps (λ q, pl_initial q o) pol c RecallNone p sk res p' sk' _ _ Hp E);
    intros; [by apply pl_insert|by apply pl_delete].
Qed.
Lemma initial_action (pol : Pol) (a : Action) p sk res p' (sk' : Sk) :
  (∃ o, pl_initial p o) → pol_call_action pol a (p, sk) = (res, (p', sk')) → ∃ o, pl_initial p' o.
Proof.
  intros Hp E. refine (call_action_keeps (λ q, ∃ o, pl_initial q o) pol a p sk res p' sk' _ _ _ Hp E).
  - intros name keys v q [o Hq]. exists o. by apply pl_insert.
  - intros name keys q [o Hq]. exists o. by apply pl_delete.
  - intros c q r q' [o Hq] Ea. destruct (pl_add _ _ _ _ _ Hq Ea) as (o' & ? & _). by exists o'.
Qed.

Lemma wpw_trx_init Dm s id c :
  wpw Dm s (trx_init id c) (λ st s', pl_stored (prov s) id = None ∧ pl_stored (prov s') id = Some st).
Proof.
  unfold trx_init. case_bool_decide as Hid; simpl; [|by apply wpw_pure].
  destruct (cmd_parent c); [|by apply wpw_pure..]. destruct (cmd_policy c) as [data|]; [|by apply wpw_pure].
  wpw_step pid s1 _. wpw_step pol s2 _. wpw_step [] s3 _. wpw_step [rej p] s4 E.
  assert (pl_initial p None) as Hp.
  { unfold on_perspective in E. destruct (pol_call_rule _ _ _ _) as [res [p1 sk]] eqn:Er.
    apply initial_rule with (o := None) in Er; [|apply pl_new_perspective]. by destruct res; simplify_eq/=. }
  destruct rej as [e|].
  { apply wpw_pure; [|done]. apply keeps_prov_bind; done. }
  destruct (p_add_command c p) as [r p2] eqn:Ea. destruct (pl_add _ _ _ _ _ Hp Ea) as (o & Ho & Hoc).
  wpw_step n s5 En. assert (o = Some (cmd_id c)) as -> by (apply Hoc; [by destruct r; simplify_eq/=|done]).
  eapply wpw_bind_last; [by apply wpw_new_storage|by intros [g st]; apply keeps_prov_bind|].
  intros [g st] s6 st' s7 (Hg & Hnone & Hst) E7 Hs7. injection Hg as <-. simpl in *.
  injection E7 as -> _. rewrite Hs7. by subst.
Qed.
Lemma wpw_new_graph Dm s data (act : Action) : wpw Dm s (new_graph data act) (λ _ _, True).
Proof.
  unfold new_graph. wpw_step pid s1 _. wpw_step pol s2 _. wpw_step [] s3 _. wpw_step [rej p] s4 E.
  assert (∃ o, pl_initial p o) as [o Hp].
  { unfold on_perspective in E. destruct (pol_call_action _ _ _) as [res [p1 sk]] eqn:Er.
    apply initial_action in Er; [|eexists; apply pl_new_perspective]. by destruct res; simplify_eq/=. }
  destruct rej as [e|].
  { apply wpw_pure; [|done]. apply keeps_prov_bind; done. }
  wpw_step [] s5 _. eapply wpw_bind_last; [by apply wpw_new_storage|by intros [g st]|done].
Qed.

(** ** Storages of a provider *)
Lemma wpw_bind_get {B} Dm s g (k : St → M world ClientError B) Q :
  (∀ st s1, (∀ g', pl_stored (prov s1) g' = pl_stored (prov s) g') → pl_stored (prov s1) g = Some st → wpw Dm s1 (k st) Q) →
  wpw Dm s (on_provider (pr_get_storage g) ≫= k) Q.
Proof.
  intros Hk res s' E. unfold mbind, M_bind, on_provider in E. destruct (pr_get_storage g (prov s)) as [r pr'] eqn:Eg.
  destruct (pl_get _ _ _ _ Eg) as [Hs Hr]. set (s1 := mkWorld _ _) in E.
  destruct r as [st|e|x]; simpl in E; [|injection E as <- <-; by apply wpw_stop..].
  destruct (Hk st s1) with res s' as (HQ & Hg & Hl); [done|by simpl; rewrite Hs|done|]. unfold wpw_post. split_and!; [done| |].
  - etrans; [by apply (prov_grows_same _ (prov s1))|done].
  - intros Hok Hsm. pose proof (prov_later_same Dm (prov s) (prov s1) Hok Hs) as Hl1.
    destruct (Hl (pv_ok _ _ _ _ Hl1) Hsm) as [Dm' Hl']. exists Dm'. by eapply prov_later_trans.
Qed.

Lemma write_commit_ok D st p res st' :
  sl_inv D st → sl_persp D st p →
  (segment ← st_write p; st ← get_state; st_commit (search_fuel st) segment) st = (res, st') → sl_small st' →
  ∃ D', (∀ n, D n → D' n) ∧ sl_inv D' st' ∧ sl_grows st st' ∧ forward st st'.
Proof.
  intros Hi Hp E Hsm. unfold mbind, M_bind, get_state in E. pose proof (sl_write_grows p st) as Hg.
  destruct (st_write p st) as [r st1] eqn:Ew. simpl in Hg.
  assert (forward st st1 → ∀ D', (∀ n, D n → D' n) → sl_inv D' st1 → ∃ D', (∀ n, D n → D' n) ∧ sl_inv D' st1 ∧ sl_grows st st1 ∧ forward st st1)
    as Hend by eauto.
  assert (get_head st1 = get_head st → forward st st1) as Hf.
  { intros Hh h Hhead. exists h. split; [by rewrite Hh|apply anc_refl]. }
  destruct r as [seg|e|x].
  2, 3: injection E as <- <-; destruct (sl_write _ _ _ _ _ Hi Hp Ew Hsm) as [Hh Hi1]; exact (Hend (Hf Hh) D (λ _ Hn, Hn) Hi1).
  pose proof (sl_commit_grows (search_fuel st1) seg st1) as Hg2. rewrite E in Hg2. simpl in Hg2.
  destruct (sl_write _ _ _ _ _ Hi Hp Ew (sl_grows_small _ _ Hg2 Hsm)) as [Hh (n & Hn & Hi1 & Hseg & _)].
  destruct (sl_commit _ _ _ n seg res st' Hi1 (or_intror eq_refl) Hseg E) as [Hi2 Hcase].
  exists (with_segment D n). split_and!; [by left|done|by etrans|].
  eapply (forward_trans (with_segment D n) st st1 st'); [done..|by apply Hf|].
  intros h Hhead. destruct Hcase as [[_ Heq]|(h' & Hloc & Hh' & Hold)].
  - exists h. split; [by rewrite <- Hhead|apply anc_refl].
  - exists h'. split; [done|]. apply (grow_anc (with_segment D n) st1 st'); [done|done| |by apply Hold].
    destruct (sl_head_location _ _ _ _ Hi1 (or_intror eq_refl) Hseg) as (c & Hc & _). rewrite Hloc in Hc. injection Hc as ->. by right.
Qed.

Lemma wpw_write_and_commit Dm s g st p :
  pl_stored (prov s) g = Some st → (prov_ok Dm (prov s) → sl_persp (Dm g) st p) →
  wpw Dm s (write_and_commit search_fuel g st p) (λ _ _, True).
Proof.
  intros Hst Hp res s' E. unfold write_and_commit in E.
  destruct ((segment ← st_write p; st ← get_state; st_commit (search_fuel st) segment) st) as [r st'] eqn:Ew.
  injection E as <- <-. unfold wpw_post. simpl in *. split_and!; [done| |].
  - eapply prov_grows_set; [done|].
    assert (keeps sl_grows (segment ← st_write p; st ← get_state; st_commit (search_fuel st) segment)) as Hk.
    { apply keeps_bind; [apply _|apply sl_write_grows|]. intros seg. apply keeps_get. intros st1. apply sl_commit_grows. }
    specialize (Hk st). by rewrite Ew in Hk.
  - intros Hok Hsm.
    destruct (write_commit_ok (Dm g) st p r st') as (D' & HD & Hi & Hg & Hf); [by apply Hok|by apply Hp|done| |].
    { apply (Hsm g). by rewrite pl_set, decide_True. }
    destruct (prov_later_set Dm (prov s) g st D' st') as (Dm' & Hl & _); [done..|]. by exists Dm'.
Qed.

Lemma wpw_action Dm s g (act : Action) : wpw Dm s (action search_fuel g act) (λ _ _, True).
Proof.
  unfold action. apply wpw_bind_get. intros st s0 _ Hst.
  wpw_step h s1 Eh. wpw_step o s2 Eo. wpw_step p s3 Ep. wpw_step pol s4 _. wpw_step [] s5 _. wpw_step [rej p'] s6 E.
  assert (prov_ok Dm (prov s6) → sl_persp (Dm g) st p') as Hp'.
  { intros Hok. assert (get_head st = Ok h) as Hh by (unfold lift in Eh; destruct (get_head st); by simplify_eq/=).
    assert (get_linear_perspective st h = Ok (Some p)) as Hlp.
    { unfold lift in Eo, Ep. destruct (get_linear_perspective st h) as [[q|]| |]; by simplify_eq/=. }
    destruct (sl_linear (Dm g) st h p (Hok _ _ Hst)) as [Hp _]; [by apply sl_head; [eapply Hok|]|done|].
    unfold on_perspective in E. destruct (pol_call_action _ _ _) as [res [p1 sk]] eqn:Er.
    apply (call_action_keeps (sl_persp (Dm g) st)) in Er; [by destruct res; simplify_eq/=|..|done].
    - intros name keys v q Hq. by apply sl_insert.
    - intros name keys q Hq. by apply sl_delete.
    - intros c q r q' Hq Ea. by eapply sl_add. }
  destruct rej as [e|].
  { apply wpw_pure; [|done]. apply keeps_prov_bind; done. }
  eapply wpw_bind_last; [by apply wpw_write_and_commit|done|done].
Qed.

(** ** Transactions *)
Lemma in_storage_grows {A} g st (m : Eng → M (Env St P Sk) ClientError A) t pc s r s' :
  pl_stored (prov s) g = Some st → (∀ e, keeps (env_keeps (strict := False)) (m e)) →
  in_storage g st m t pc s = (r, s') → prov_grows (prov s) (prov s').
Proof.
  intros Hst Hk E. unfold in_storage in E. set (en := mkEnv t st (wo_sink s) pc) in E.
  pose proof (Hk (cl_engine (wo_client s)) en) as [Hg _]. destruct (m _ en) as [res en']. injection E as <- <-.
  by eapply prov_grows_set.
Qed.

Lemma in_storage_ok {A} Dm g st (m : Eng → M (Env St P Sk) ClientError A) t pc s r s' :
  prov_ok Dm (prov s) → pl_stored (prov s) g = Some st → trx_storage_id t = g → tok (Dm g) st t →
  (∀ D en e, env_ok (strict := False) (alone := False) D en → wp (strict := False) (alone := False) D en (m e) (λ _ _ _, True)) →
  (∀ e, keeps (env_keeps (strict := False)) (m e)) →
  in_storage g st m t pc s = (r, s') → prov_small (prov s') →
  ∃ Dm', prov_later Dm (prov s) Dm' (prov s') ∧ trx_fine Dm' (prov s') r.1.2.
Proof.
  intros Hok Hst Hid Ht Hm Hk E Hsm. unfold in_storage in E. set (en := mkEnv t st (wo_sink s) pc) in E.
  destruct (m (cl_engine (wo_client s)) en) as [res en'] eqn:Em. injection E as <- <-. simpl in *.
  pose proof (Hk (cl_engine (wo_client s)) en) as [_ Hid']. rewrite Em in Hid'. simpl in Hid'.
  assert (env_ok (strict := False) (alone := False) (Dm g) en) as Hen by (split; [by apply Hok|done]).
  destruct (Hm _ _ (cl_engine (wo_client s)) Hen res en' Em) as (D' & Hl & _).
  { apply (Hsm g). by rewrite pl_set, decide_True. }
  destruct (prov_later_set Dm (prov s) g st D' (en_storage en')) as (Dm' & Hpl & HD');
    [done|done|apply Hl|apply (la_ok _ _ _ _ Hl)|apply (la_grows _ _ _ _ Hl)|apply (la_forward _ _ _ _ Hl)|].
  exists Dm'. split; [done|]. unfold trx_fine. rewrite Hid', Hid, pl_set, decide_True by done. rewrite HD'.
  apply (la_ok _ _ _ _ Hl).
Qed.

(** What a method of a transaction does to the provider and the transaction. *)
Definition trx_later Dm (s : world) t (s' : world) t' : Prop :=
  prov_grows (prov s) (prov s') ∧
  (prov_ok Dm (prov s) → trx_fine Dm (prov s) t → prov_small (prov s') →
   ∃ Dm', prov_later Dm (prov s) Dm' (prov s') ∧ trx_fine Dm' (prov s') t').

Lemma trx_later_same Dm s s' t : (∀ g, pl_stored (prov s') g = pl_stored (prov s) g) → trx_later Dm s t s' t.
Proof.
  intros Hs. split; [by apply prov_grows_same|]. intros Hok Ht _. exists Dm.
  pose proof (prov_later_same Dm (prov s) (prov s') Hok Hs) as Hl. split; [done|by eapply trx_fine_later].
Qed.
(** The provider changed first. *)
Lemma trx_later_trans Dm s s1 s' t t' :
  prov_grows (prov s) (prov s1) → (prov_ok Dm (prov s) → prov_small (prov s1) → ∃ Dm1, prov_later Dm (prov s) Dm1 (prov s1)) →
  (∀ Dm1, trx_later Dm1 s1 t s' t') → trx_later Dm s t s' t'.
Proof.
  intros Hg1 Hl1 H1'. split; [etrans; [done|apply (H1' Dm)]|]. intros Hok Ht Hsm.
  destruct (Hl1 Hok (prov_grows_small _ _ (proj1 (H1' Dm)) Hsm)) as [Dm1 Hl]. destruct (H1' Dm1) as [_ Hrest].
  destruct Hrest as (Dm2 & Hl2 & Ht2); [apply Hl|by eapply trx_fine_later|done|].
  exists Dm2. split; [by eapply prov_later_trans|done].
Qed.
Lemma trx_later_in {A} Dm st (m : Eng → M (Env St P Sk) ClientError A) t pc s r s' :
  pl_stored (prov s) (trx_storage_id t) = Some st →
  (∀ D en e, env_ok (strict := False) (alone := False) D en → wp (strict := False) (alone := False) D en (m e) (λ _ _ _, True)) →
  (∀ e, keeps (env_keeps (strict := False)) (m e)) →
  in_storage (trx_storage_id t) st m t pc s = (r, s') → trx_later Dm s t s' r.1.2.
Proof.
  intros Hst Hm Hk E. split; [by eapply in_storage_grows|]. intros Hok Ht Hsm. unfold trx_fine in Ht. rewrite Hst in Ht.
  by eapply in_storage_ok.
Qed.

Lemma add_commands_later Dm t cs pc s r s' :
  add_commands search_fuel braid_fuel t cs pc s = (r, s') → trx_later Dm s t s' r.1.2.
Proof.
  intros E. unfold add_commands in E.
  assert (∀ Dm st1 cs1 n1 s1, pl_stored (prov s1) (trx_storage_id t) = Some st1 →
    in_storage (trx_storage_id t) st1 (λ e, add_commands_to search_fuel braid_fuel e cs1 n1) t pc s1 = (r, s') →
    trx_later Dm s1 t s' r.1.2) as Hrun.
  { intros Dm1 st1 cs1 n1 s1 Hst1 E1. refine (trx_later_in Dm1 st1 _ t pc s1 r s' Hst1 _ _ E1).
    - intros D en e. by apply wp_add_commands.
    - intros e. apply grows_add_commands. }
  unfold open_or_init in E. destruct (pr_get_storage (trx_storage_id t) (prov s)) as [o pr1] eqn:Eg.
  destruct (pl_get _ _ _ _ Eg) as [Hs Hr]. set (s1 := mkWorld _ _) in E.
  assert (∀ Dm, trx_later Dm s t s1 t) as Hstop by (intros; by apply trx_later_same).
  destruct o as [st|e|x]; [|destruct e|].
  all: try (injection E as <- <-; exact (Hstop Dm)).
  - apply (trx_later_trans Dm s s1); [by apply prov_grows_same|intros Hok _; exists Dm; by apply prov_later_same|].
    intros Dm1. apply (Hrun Dm1 st cs 0 s1); [simpl; by rewrite Hs|done].
  - destruct cs as [|c cs]; [injection E as <- <-; exact (Hstop Dm)|]. unfold mbind, M_bind in E.
    apply (trx_later_trans Dm s s1); [by apply prov_grows_same|intros Hok _; exists Dm; by apply prov_later_same|].
    intros Dm1. destruct (trx_init (trx_storage_id t) c s1) as [ri s2] eqn:Ei.
    destruct (wpw_trx_init Dm1 s1 _ c _ _ Ei) as (Hst & Hg2 & Hl2). apply (trx_later_trans Dm1 s1 s2); [done|done|].
    intros Dm2. destruct ri as [st|e|x].
    + destruct (Hst st eq_refl) as [_ Hst2]. by apply (Hrun Dm2 st cs 1 s2).
    + injection E as <- <-. by apply trx_later_same.
    + injection E as <- <-. by apply trx_later_same.
Qed.

Lemma commit_later Dm t s res t' s' :
  commit search_fuel braid_fuel t s = (res, t', s') → trx_later Dm s t s' t'.
Proof.
  intros E. unfold commit, on_provider in E.
  destruct (pr_get_storage (trx_storage_id t) (prov s)) as [o pr1] eqn:Eg. destruct (pl_get _ _ _ _ Eg) as [Hs Hr].
  destruct o as [st|e|x]; simpl in E; [|injection E as <- <- <-; by apply trx_later_same..].
  set (s1 := mkWorld _ _) in E. destruct (in_storage _ _ _ _ _ _) as [[[r t1] pc1] s2] eqn:Ei. injection E as <- <- <-.
  apply (trx_later_trans Dm s s1); [by apply prov_grows_same|intros Hok _; exists Dm; by apply prov_later_same|].
  intros Dm1. refine (trx_later_in Dm1 st _ t peer_cache_new s1 _ s2 _ _ _ Ei); [simpl; by rewrite Hs| |].
  - intros D en e Hen. eapply wp_mono; [by apply wp_commit_in|done].
  - intros e. apply grows_commit_in.
Qed.

(** * The system

    A client and its open transactions. *)
Record System := mkSystem { sy_world : world; sy_trxs : list (Transaction P) }.
Inductive sys_step : System → System → Prop :=
| step_new_graph s ts data act res s' : new_graph data act s = (res, s') → sys_step (mkSystem s ts) (mkSystem s' ts)
| step_action s ts g (act : Action) res s' : action search_fuel g act s = (res, s') → sys_step (mkSystem s ts) (mkSystem s' ts)
| step_open s ts g : sys_step (mkSystem s ts) (mkSystem s (ts ++ [transaction_new g]))
| step_add s ts i t cs pc res t' pc' s' :
    ts !! i = Some t → add_commands search_fuel braid_fuel t cs pc s = ((res, t', pc'), s') →
    sys_step (mkSystem s ts) (mkSystem s' (<[i:=t']> ts))
| step_commit s ts i t res t' s' :
    ts !! i = Some t → commit search_fuel braid_fuel t s = (res, t', s') →
    sys_step (mkSystem s ts) (mkSystem s' (<[i:=t']> ts))
| step_drop s ts i : sys_step (mkSystem s ts) (mkSystem s (delete i ts)).

Definition sys_ok Dm (sy : System) : Prop :=
  prov_ok Dm (prov (sy_world sy)) ∧ Forall (trx_fine Dm (prov (sy_world sy))) (sy_trxs sy).

Lemma sys_step_ok sy sy' :
  sys_step sy sy' →
  prov_grows (prov (sy_world sy)) (prov (sy_world sy')) ∧
  ∀ Dm, sys_ok Dm sy → prov_small (prov (sy_world sy')) →
  ∃ Dm', prov_later Dm (prov (sy_world sy)) Dm' (prov (sy_world sy')) ∧ sys_ok Dm' sy'.
Proof.
  intros Hst.
  assert (∀ Dm Dm' pr' ts, prov_ok Dm (prov (sy_world sy)) → prov_later Dm (prov (sy_world sy)) Dm' pr' →
    Forall (trx_fine Dm (prov (sy_world sy))) ts → Forall (trx_fine Dm' pr') ts) as Hothers.
  { intros Dm Dm' pr' ts Hok Hl Hf. eapply Forall_impl; [exact Hf|]. intros t Ht. by eapply trx_fine_later. }
  assert (∀ Dm s s' ts i t t', ts !! i = Some t → trx_later Dm s t s' t' →
    sys_ok Dm (mkSystem s ts) → prov_small (prov s') →
    ∃ Dm', prov_later Dm (prov s) Dm' (prov s') ∧ sys_ok Dm' (mkSystem s' (<[i:=t']> ts))) as Htrx.
  { intros Dm s s' ts i t t' Hi [_ Hl] [Hok Hts] Hsm. destruct Hl as (Dm' & Hl & Ht); [done|by eapply Forall_lookup_1|done|].
    exists Dm'. split; [done|]. split; [apply Hl|]. apply Forall_insert; [|done]. simpl in *.
    eapply Forall_impl; [exact Hts|]. intros t0 Ht0. by eapply trx_fine_later. }
  destruct Hst as [s ts data act res s' E|s ts g act res s' E|s ts g|s ts i t cs pc res t' pc' s' Hi E|s ts i t res t' s' Hi E|s ts i]; simpl in *.
  - split; [apply (wpw_new_graph (λ _ _, True) s data act _ _ E)|]. intros Dm [Hok Hts] Hsm.
    destruct (wpw_new_graph Dm s data act _ _ E) as (_ & _ & Hl). destruct (Hl Hok Hsm) as [Dm' Hl'].
    exists Dm'. split; [done|]. split; [apply Hl'|by eapply Hothers].
  - split; [apply (wpw_action (λ _ _, True) s g act _ _ E)|]. intros Dm [Hok Hts] Hsm.
    destruct (wpw_action Dm s g act _ _ E) as (_ & _ & Hl). destruct (Hl Hok Hsm) as [Dm' Hl'].
    exists Dm'. split; [done|]. split; [apply Hl'|by eapply Hothers].
  - split; [reflexivity|]. intros Dm [Hok Hts] _. exists Dm. split; [by apply prov_later_same|]. split; [done|].
    apply Forall_app. split; [done|]. apply Forall_singleton.
    unfold trx_fine. simpl. destruct (pl_stored _ g); [by apply trx_ok_no_heads|done].
  - split; [apply (add_commands_later (λ _ _, True) _ _ _ _ _ _ E)|]. intros Dm Hok Hsm.
    eapply Htrx; [done| |done|done]. exact (add_commands_later Dm _ _ _ _ _ _ E).
  - split; [apply (commit_later (λ _ _, True) _ _ _ _ _ E)|]. intros Dm Hok Hsm.
    eapply Htrx; [done| |done|done]. exact (commit_later Dm _ _ _ _ _ E).
  - split; [reflexivity|]. intros Dm [Hok Hts] _. exists Dm. split; [by apply prov_later_same|]. split; [done|].
    by apply Forall_delete.
Qed.

(** Any number of steps. *)
Lemma sys_steps_ok sy sy' :
  rtc sys_step sy sy' →
  prov_grows (prov (sy_world sy)) (prov (sy_world sy')) ∧
  ∀ Dm, sys_ok Dm sy → prov_small (prov (sy_world sy')) →
  ∃ Dm', prov_later Dm (prov (sy_world sy)) Dm' (prov (sy_world sy')) ∧ sys_ok Dm' sy'.
Proof.
  induction 1 as [sy|sy sy1 sy' Hst _ [IHg IH]].
  - split; [reflexivity|]. intros Dm Hok _. exists Dm. split; [apply prov_later_same; [apply Hok|done]|done].
  - destruct (sys_step_ok _ _ Hst) as [Hg Hl]. split; [by etrans|]. intros Dm Hok Hsm.
    destruct (Hl Dm Hok (prov_grows_small _ _ IHg Hsm)) as (Dm1 & Hl1 & Hok1).
    destruct (IH Dm1 Hok1 Hsm) as (Dm2 & Hl2 & Hok2). exists Dm2. split; [by eapply prov_later_trans|done].
Qed.
End ClientProofs.
