(* ===== verification/Providers.v ===== *)
(** Both storage providers keep the promises the client relies on. *)
From S2P Require Import Prelude Collections RuntimeTypes FactStore MemFacts Graph MemStorage MemStorageFacts.
From S2P Require Import MemTheorems LinearFacts LinearFactsProofs Client BraidProofs LinearStorage LinearStorageProofs.
From S2P Require Import LinearFile RuntimeOps StorageLaws StorageInstances MemLaws LinearLaws.
Local Open Scope string_scope.
Local Open Scope list_scope.
Local Open Scope nat_scope.

(** * In memory *)
Lemma bt_get_set {V} (g g' : GraphId) (v : V) m :
  bt_get g' (bt_insert g v m) = if decide (g' = g) then Some v else bt_get g' m.
Proof. destruct (decide (g' = g)) as [->|]; [apply bt_get_insert_eq|by apply bt_get_insert_ne]. Qed.

Definition mem_initial (p : MemPerspective) (o : option CommandId) : Prop :=
  mp_prior p = PNone ∧ mfp_wf (mp_facts p) ∧ o = (mc_id ∘ cd_command) <$> head (mp_commands p).

Lemma mem_new_inv strict : mem_sl_inv strict (λ _, False) mem_storage_new.
Proof.
  split_and!; [split; [intros n seg; done|done]| |intros ? n seg a b; done]. intros n. unfold present. rewrite seg_at_mem.
  split; [by intros []|done].
Qed.

(** The storage of a new graph. *)
Lemma mem_create_ok strict p o st :
  mem_initial p o → (mem_write p ≫= mem_commit) mem_storage_new = (Ok tt, st) → ∃ D, mem_sl_inv strict D st.
Proof.
  intros (Hpr & Hf & _) E. apply M_bind_inv_Ok in E as (seg & st1 & Ew & Ec).
  assert (mem_sl_persp strict (λ _, False) mem_storage_new p) as Hp.
  { split_and!; [split; [|done]|..]; rewrite ?Hpr; [by intros q ?%not_elem_of_nil..|done]. }
  destruct (mem_sl_write strict _ _ _ _ _ (mem_new_inv strict) Hp Ew) as [_ (n & _ & Hi & Hs & _)].
  destruct (mem_sl_commit strict _ st1 n seg _ st Hi (or_intror eq_refl) Hs Ec) as [Hi' _]. by eexists.
Qed.

#[export] Program Instance mem_provider_laws
  : ProviderLaws False MemStorageProvider MemStorage MemSegment MemPerspective MemFactPerspective MemFactIndex := {|
  pl_stored pr g := bt_get g pr;
  pl_initial := mem_initial
|}.
Next Obligation. intros policy. split_and!; [done| |done]. by apply mfp_new_wf. Qed.
Next Obligation. intros name keys v p o (Hpr & Hf & ->). split_and!; [done|by apply mfp_update_wf|done]. Qed.
Next Obligation. intros name keys p o (Hpr & Hf & ->). split_and!; [done|by apply mfp_update_wf|done]. Qed.
Next Obligation.
  intros c p o res p' (Hpr & Hf & ->) E. exists ((mc_id ∘ cd_command) <$> head (mp_commands p')). cbn in E.
  unfold mp_add_command in E. destruct (sbug (mp_head_address p)); [|by simplify_eq..].
  case_match; [by simplify_eq|]. destruct (sbug (next_max_cut a)); [|by simplify_eq..].
  injection E as <- <-. split; [done|]. intros _ Hnil. simpl. by destruct (mp_commands p).
Qed.
Next Obligation.
  intros g pr res pr' E. cbn in E. injection E as <- <-. split; [done|]. unfold get_storage. simpl.
  by destruct (bt_get g pr).
Qed.
Next Obligation. intros g st pr g'. apply bt_get_set. Qed.
Next Obligation.
  intros p pr res pr' g st E Hst. cbn in E. unfold mbind, M_bind, get_state, lift, new_storage in E.
  destruct (mp_commands p) as [|c cs]; [by injection E as <- <-|].
  destruct (bt_get (mc_id (cd_command c)) pr) eqn:Eg; [by injection E as <- <-|].
  destruct ((mem_write p ≫= mem_commit) mem_storage_new) as [[[]|e|x] st1]; [|by injection E as <- <-..].
  unfold get_storage in E. rewrite bt_get_insert_eq in E. injection E as <- <-. rewrite bt_get_set. case_decide; congruence.
Qed.
Next Obligation.
  intros p o pr res pr' Hp E. cbn in E. unfold mbind, M_bind, get_state, lift in E. unfold new_storage in E.
  pose proof Hp as (_ & _ & Ho). destruct (mp_commands p) as [|c cs]; simpl in *; [by injection E as <- <-|].
  destruct (bt_get (mc_id (cd_command c)) pr) eqn:Eg; [by injection E as <- <-|].
  destruct ((mem_write p ≫= mem_commit) mem_storage_new) as [[[]|e|x] st] eqn:Ew; [|by injection E as <- <-..].
  unfold get_storage in E. rewrite bt_get_insert_eq in E. injection E as <- <-. split_and!; [done|done| |intros g'; apply bt_get_set].
  intros _. by apply (mem_create_ok False p o).
Qed.

(** * On file

    A manager that has no files from before. *)
Section Linear.
Context {W : Type} `{FactIoLaws W} `{!SegIo W} `{!SegIoLaws W}.
Context (rand : W → nat → nat → nat).
Context {Mgr : Type} (io_create : GraphId → M Mgr StorageError W) (io_open : GraphId → M Mgr StorageError (option W)).
Hypothesis nothing_to_open : ∀ g mgr, io_open g mgr = (Ok None, mgr).

Definition lin_starts (p : LinearPerspective (W := W)) (o : option CommandId) : Prop :=
  lin_initial p ∧ o = lcd_id <$> head (lp_commands p).

Lemma lin_create_small init w w' :
  lin_create init w = (Ok tt, w') → lin_small w' → (Z.of_nat (length (lp_commands init)) < pow64)%Z.
Proof.
  intros E Hsm. unfold lin_create in E. destruct (lp_prior init), (lp_parents init), (lfp_prior (lp_facts init)); try done.
  apply M_bind_inv_Ok in E as (fr & w1 & Ea & E). apply M_bind_inv_Ok in E as (cmds & w1' & Ec & E).
  unfold lift in Ec. injection Ec as Ec <-. apply M_bind_inv_Ok in E as (r & w2 & Es & E).
  apply M_bind_inv_Ok in E as (c & w2' & Ecmd & E). unfold lift in Ecmd. injection Ecmd as Ecmd <-.
  destruct (segment_fetch _ _ _ _ Es) as (off & Hrr & Hf & _). destruct (commit_keeps _ _ _ _ E) as (Hks & _).
  pose proof (Hsm _ _ (Hks _ _ Hf)) as Hb. unfold seg_bound in Hb. rewrite Hrr in Hb. simpl in Hb.
  assert (v1_len cmds = length (lp_commands init)) as <-; [|lia].
  destruct (lp_commands init); [done|]. by injection Ec as <-.
Qed.

#[export] Program Instance lin_provider_laws
  : ProviderLaws (StorageOps0 := lin_storage_ops rand) (HL := lin_laws False rand)
      (ProviderOps0 := lin_provider_ops io_create io_open) False
      (LinearStorageProvider (W := W) (Mgr := Mgr)) W (LinearSegment (W := W)) (LinearPerspective (W := W))
      (LinearFactPerspective (W := W)) (LinearFactIndex (W := W)) := {|
  pl_stored pr g := bt_get g (lsp_storage pr);
  pl_initial := lin_starts
|}.
Next Obligation. intros policy. split; [constructor|done]. Qed.
Next Obligation. intros name keys v p o [Hi ->]. split; [by constructor|done]. Qed.
Next Obligation. intros name keys p o [Hi ->]. split; [by constructor|done]. Qed.
Next Obligation.
  intros c p o res p' [Hi ->] E. cbn in E. exists (lcd_id <$> head (lp_commands p')). split; [split; [by eapply ini_add|done]|].
  unfold lp_add_command in E. destruct (sbug (lp_head_address p)); [|by simplify_eq..]. case_match; [by simplify_eq|].
  injection E as <- <-. intros _ Hnil. simpl. by destruct (lp_commands p).
Qed.
Next Obligation.
  intros g pr res pr' E. cbn in E. unfold lin_get_storage in E. rewrite nothing_to_open in E.
  destruct (bt_get g (lsp_storage pr)) eqn:Eg; by injection E as <- <-.
Qed.
Next Obligation. intros g st pr g'. apply bt_get_set. Qed.
Next Obligation.
  intros p pr res pr' g st E Hst. cbn in E. unfold mbind, M_bind, lin_new_storage in E.
  destruct (lp_commands p) as [|c cs]; [by injection E as <- <-|].
  destruct (bt_get (lcd_id c) (lsp_storage pr)) eqn:Eg; [by injection E as <- <-|].
  destruct (io_create (lcd_id c) (lsp_manager pr)) as [[w|e|x] mgr]; [|by injection E as <- <-..].
  destruct (lin_create p w) as [[[]|e|x] w']; [|by injection E as <- <-..].
  unfold lin_get_storage in E. simpl in E. rewrite bt_get_insert_eq in E. injection E as <- <-. simpl.
  rewrite bt_get_set. case_decide; congruence.
Qed.
Next Obligation.
  intros p o pr res pr' [Hi ->] E. cbn in E. unfold mbind, M_bind in E. unfold lin_new_storage in E.
  destruct (lp_commands p) as [|c cs] eqn:Ec; simpl in *; [by injection E as <- <-|].
  destruct (bt_get (lcd_id c) (lsp_storage pr)) eqn:Eg; [by injection E as <- <-|].
  destruct (io_create (lcd_id c) (lsp_manager pr)) as [[w|e|x] mgr]; [|by injection E as <- <-..].
  destruct (lin_create p w) as [[[]|e|x] w'] eqn:Ew; [|by injection E as <- <-..].
  unfold lin_get_storage in E. simpl in E. rewrite bt_get_insert_eq in E. injection E as <- <-.
  split_and!; [done|done| |intros g'; apply bt_get_set]. intros Hsm.
  destruct (lin_create_spec (strict := False) p w w' Hi (lin_create_small p w w' Ew Hsm) Ew) as (h & _ & Hinv). by eexists.
Qed.
End Linear.
