(* ===== verification/SeqPolicy.v ===== *)
(** The policy of the transaction tests ([client/transaction.rs], [mod test]):
    it appends the data of each command to one fact, so that the fact shows
    the order in which commands were evaluated. The graphs of those tests are
    run on both storages. *)
From S2P Require Import Prelude Collections RuntimeTypes FactStore MemFacts Graph MemStorage LinearFacts LinearStorage.
From S2P Require Import LinearFile Client RuntimeOps Transaction ClientState StorageInstances.
Local Open Scope string_scope.
Local Open Scope list_scope.
Local Open Scope nat_scope.

(** * The policy *)
Inductive SeqEngine : Type := mkSeqEngine.
Inductive SeqPolicy : Type := mkSeqPolicy.

Definition seq_call_rule {F Sk} `{QueryMut F} (c : Command) : M (F * Sk) EngineError unit := λ s,
  match cmd_parent c with
  | PMerge _ _ => (Panic "merges shouldn't be evaluated", s)
  | _ =>
      match query s.1 "seq" [] with
      | Ok (Some seq) => (Ok tt, (q_insert "seq" [] (seq ++ [Byte.x3a] ++ cmd_bytes c) s.1, s.2))
      | Ok None => (Ok tt, (q_insert "seq" [] (cmd_bytes c) s.1, s.2))
      | Err _ => (Err EEInternalError, s)
      | Panic x => (Panic x, s)
      end
  end.

(** The priority of [SeqCommand]: the last byte of the id. *)
Definition seq_priority (id : CommandId) (prior : Prior Address) : Priority :=
  match prior with
  | PNone => PrioInit
  | PSingle _ => PrioBasic (match last id with Some b => N.to_nat (Byte.to_N b) | None => 0 end)
  | PMerge _ _ => PrioMerge
  end.
(** [SeqCommand::new]; [data] is the printed id. *)
Definition seq_command (id : CommandId) (data : list u8) (prior : Prior Address) (max_cut : nat) : Command :=
  mkCommand (seq_priority id prior) id prior (match prior with PNone => Some [] | _ => None end) data (Ok max_cut).
(** The id of a merge is a hash of both parents; any injective function does. *)
Definition seq_merge (ids : MergeIds) : outcome EngineError Command :=
  let left := mi_left ids in let right := mi_right ids in
  max_cut ← map_err EEBug (assume (checked_add (Nat.max (ad_max_cut left) (ad_max_cut right)) 1) "must not overflow");
  Ok (seq_command (ad_id left ++ ad_id right) [] (PMerge left right) max_cut).

#[export] Instance seq_policy_ops : PolicyOps SeqPolicy unit unit := {|
  pol_serial _ := 0;
  pol_call_rule F Sk _ _ _ _ c _ := seq_call_rule c;
  pol_call_action P Sk _ _ _ _ _ _ := crash "not implemented";
  pol_merge _ := seq_merge
|}.
#[export] Instance seq_engine_ops : EngineOps SeqEngine SeqPolicy := {|
  add_policy _ := mret 0;
  get_policy _ _ := Ok mkSeqPolicy
|}.

#[export] Instance seq_policy_laws : PolicyLaws SeqPolicy unit unit.
Proof.
  split.
  - intros F Sk Hq Hm Hs I pol c recall f sk res f' sk' Hi Hd Hf E. simpl in E. unfold seq_call_rule in E.
    destruct (cmd_parent c), (query (f, sk).1 "seq" []) as [[?|]|?|?]; simplify_eq/=; by auto.
  - intros P Sk ? ? ? ? I pol action p sk res p' sk' _ _ _ Hp E. simpl in E. unfold crash in E. by simplify_eq.
Qed.

(** * The graphs of the tests

    An id is a base-58 number, here of two bytes; the letter [a] is 33. *)
Definition b58 (c : Ascii.ascii) : nat :=
  let n := Ascii.nat_of_ascii c in
  if n <? 58 then n - 49 else if n <? 108 then n - 64 else n - 65.
Definition mkid (x : string) : CommandId :=
  let n := fold_left (λ n c, n * 58 + b58 c) (String.list_ascii_of_string x) 0 in
  map (λ k, default Byte.x00 (Byte.of_N (N.of_nat k))) [n / 256; n `mod` 256].
Definition named (x : string) (prior : Prior Address) (max_cut : nat) : Command :=
  seq_command (mkid x) (String.list_byte_of_string x) prior max_cut.
Definition addr (x : string) (max_cut : nat) : Address := mkAddress (mkid x) max_cut.

(** The lines of the [graph!] macro. *)
Inductive Line : Type :=
| LInit (x : string)
| LLine (prev : string) (prev_max_cut : nat) (ids : list string)
| LMerge (l : string) (l_max_cut : nat) (r : string) (r_max_cut : nat) (ids : list string)
| LCommit.

Section Builder.
Context {St Seg P FP FI Pr : Type} `{Storage St Seg} `{QueryMut P} `{!PerspectiveOps P} `{!RevertableOps P} `{QueryMut FP}.
Context `{!StorageOps St Seg P FP FI} `{!ProviderOps Pr St P}.
Abbreviation SeqWorld := (World (E := SeqEngine) (Sk := unit) (Pr := Pr)).
Definition GraphBuilder : Type := outcome ClientError unit * Transaction P * SeqWorld.

Definition gb_commands (cs : list Command) (gb : GraphBuilder) : GraphBuilder :=
  match gb with
  | (Ok _, t, w) =>
      let '((res, t, _), w) := add_commands (λ _, 300) (λ _, 300) t cs peer_cache_new w in
      (_ ← res; Ok tt, t, w)
  | gb => gb
  end.
Fixpoint line_commands (prev : Address) (ids : list string) : list Command :=
  match ids with
  | [] => []
  | x :: ids' => named x (PSingle prev) (S (ad_max_cut prev)) :: line_commands (addr x (S (ad_max_cut prev))) ids'
  end.
Definition gb_line (gb : GraphBuilder) (l : Line) : GraphBuilder :=
  match l with
  | LInit x => gb_commands [named x PNone 0] gb
  | LLine prev mc ids => fold_left (λ gb c, gb_commands [c] gb) (line_commands (addr prev mc) ids) gb
  | LMerge l lm r rm ids =>
      let mc := S (Nat.max lm rm) in
      match ids with
      | [] => gb
      | x :: ids' => fold_left (λ gb c, gb_commands [c] gb)
                       (named x (PMerge (addr l lm) (addr r rm)) mc :: line_commands (addr x mc) ids') gb
      end
  | LCommit => match gb with
               | (Ok _, t, w) => commit (λ _, 300) (λ _, 300) t w
               | gb => gb
               end
  end.
(** [lookup(g, "seq")] at the head, with the head. *)
Definition gb_run (pr : Pr) (init : string) (ls : list Line) : outcome ClientError (Location * option Bytes) :=
  let '(res, t, w) := fold_left gb_line (LInit init :: ls)
    (Ok tt, transaction_new (mkid init), mkWorld (client_new mkSeqEngine pr) tt) in
  _ ← res;
  st ← try_storage (pr_get_storage (mkid init) (cl_provider (wo_client w))).1;
  head ← try_storage (get_head st);
  p ← try_storage (get_fact_perspective st head);
  seq ← try_storage (query p "seq" []);
  Ok (head, seq).
End Builder.

Definition seq_is (s : string) : option Bytes := Some (String.list_byte_of_string s).
Definition graph_simple : list Line :=
  [LLine "a" 0 ["b"]; LLine "a" 0 ["c"]; LMerge "b" 1 "c" 1 ["ma"]; LLine "b" 1 ["d"]; LMerge "ma" 2 "d" 2 ["mb"]; LCommit].
Example test_simple : gb_run [] "a" graph_simple = Ok (mkLocation 5 0, seq_is "a:b:d:c").
Proof. vm_compute. reflexivity. Qed.
Definition graph_complex : list Line :=
  [LLine "a" 0 ["1"; "2"; "3"]; LLine "3" 3 ["4"; "6"; "7"]; LLine "3" 3 ["5"; "8"]; LMerge "6" 5 "8" 5 ["9"; "aa"]; LCommit;
   LLine "7" 6 ["a1"; "a2"]; LMerge "aa" 7 "a2" 8 ["a3"]; LLine "a3" 9 ["a6"; "a4"]; LLine "a3" 9 ["a7"; "a5"];
   LMerge "a4" 11 "a5" 11 ["a8"]; LLine "9" 6 ["42"; "43"]; LLine "42" 7 ["45"; "46"]; LLine "45" 8 ["47"; "48"]; LCommit].
Example test_complex : gb_run [] "a" graph_complex
  = Ok (mkLocation 15 0, seq_is "a:1:2:3:5:8:4:6:42:45:47:48:46:43:aa:7:a1:a2:a7:a6:a5:a4").
Proof. vm_compute. reflexivity. Qed.
Definition graph_duplicates : list Line :=
  [LLine "a" 0 ["b"; "c"]; LLine "a" 0 ["b"]; LLine "b" 1 ["c"]; LLine "c" 2 ["d"]; LCommit;
   LLine "a" 0 ["b"]; LLine "b" 1 ["c"]; LLine "d" 3 ["e"]; LCommit].
Example test_duplicates : gb_run [] "a" graph_duplicates = Ok (mkLocation 2 0, seq_is "a:b:c:d:e").
Proof. vm_compute. reflexivity. Qed.
Definition graph_mid_braid_1 : list Line :=
  [LCommit; LLine "a" 0 ["b"; "c"; "d"; "e"; "f"; "g"]; LLine "d" 3 ["h"; "i"; "j"]; LCommit].
Definition graph_mid_braid_2 : list Line :=
  [LCommit; LLine "a" 0 ["b"; "c"; "d"; "h"; "i"; "j"]; LLine "d" 3 ["e"; "f"; "g"]; LCommit].
Example test_mid_braid : gb_run [] "a" graph_mid_braid_1 = Ok (mkLocation 3 0, seq_is "a:b:c:d:h:i:j:e:f:g")
  ∧ gb_run [] "a" graph_mid_braid_2 = Ok (mkLocation 3 0, seq_is "a:b:c:d:h:i:j:e:f:g").
Proof. vm_compute. done. Qed.

(** * A merge with an unknown parent

    [add_merge] takes the perspective before it looks for the parents and
    leaves [phead] as it is, so the next command on the old perspective fails
    with a bug. *)
Definition gb_retry (cs : list Command) (gb : GraphBuilder (P := MemPerspective) (Pr := MemStorageProvider)) :=
  gb_commands cs (Ok tt, gb.1.2, gb.2).
Definition graph_failed_merge : GraphBuilder (P := MemPerspective) (Pr := MemStorageProvider) :=
  gb_retry [named "m" (PMerge (addr "b" 1) (addr "x" 1)) 2]
    (fold_left gb_line [LInit "a"; LLine "a" 0 ["b"]] (Ok tt, transaction_new (mkid "a"), mkWorld (client_new mkSeqEngine []) tt)).
Example failed_merge_breaks_transaction :
  graph_failed_merge.1.1 = Err (CENoSuchParent (mkid "x"))
  ∧ (gb_retry [named "c" (PSingle (addr "b" 1)) 2] graph_failed_merge).1.1 = Err (CEBug (BugMsg "trx has perspective when has phead")).
Proof. vm_compute. done. Qed.
