(* ===== verification/ClientTheorems.v ===== *)
(** Theorems about the client: its graphs stay well formed and their histories
    only grow, a commit integrates the whole transaction, and committing ends. *)
From S2P Require Import Prelude Collections RuntimeTypes FactStore MemFacts Graph MemStorage LinearFacts LinearStorage.
From S2P Require Import LinearFile Client BraidProofs SearchSound RuntimeOps StorageLaws Transaction TransactionProofs.
From S2P Require Import ClientState ClientProofs StorageInstances MemLaws LinearLaws Providers SeqPolicy.
Local Open Scope string_scope.
Local Open Scope list_scope.
Local Open Scope nat_scope.

(** * Reachable systems *)
Section Systems.
Context {St Seg P FP FI Pr : Type} `{HP : ProviderLaws False Pr St Seg P FP FI}.
Context {Eng Pol Action Effect Sk : Type} `{EngineOps Eng Pol} `{PolicyLaws Pol Action Effect} `{Sink Sk Effect}.
Context (search_fuel braid_fuel : St → nat).
Abbreviation world := (World (E := Eng) (Sk := Sk) (Pr := Pr)).
Abbreviation System := (System (P := P) (Pr := Pr) (Eng := Eng) (Sk := Sk)).
Abbreviation step := (sys_step search_fuel braid_fuel).
Abbreviation prov s := (cl_provider (wo_client s)).
Implicit Types (sy : System).

(** The storage of a graph. *)
Definition stored sy (g : GraphId) : option St := pl_stored (prov (sy_world sy)) g.
(** A client without graphs and transactions, and what it can become. *)
Inductive sys_start : System → Prop :=
| start_empty engine pr sk : (∀ g, pl_stored pr g = None) → sys_start (mkSystem (mkWorld (client_new engine pr) sk) []).
Definition sys_reachable sy : Prop := ∃ sy0, sys_start sy0 ∧ rtc step sy0 sy.
Definition sys_small sy : Prop := prov_small (prov (sy_world sy)).

Lemma sys_start_ok sy : sys_start sy → sys_ok (λ _ _, False) sy.
Proof. intros [engine pr sk Hnone]. split; [|done]. intros g st. simpl. by rewrite Hnone. Qed.
Lemma sys_reachable_ok sy : sys_reachable sy → sys_small sy → ∃ Dm, sys_ok Dm sy.
Proof.
  intros (sy0 & H0' & Hsteps) Hsm. destruct (sys_steps_ok _ _ _ _ Hsteps) as [_ Hl].
  destruct (Hl _ (sys_start_ok _ H0') Hsm) as (Dm & _ & Hok). by exists Dm.
Qed.

(** What a commit that succeeds leaves. *)
Lemma commit_covers Dm t s t' s' :
  prov_ok Dm (prov s) → trx_fine Dm (prov s) t → commit search_fuel braid_fuel t s = (Ok tt, t', s') → prov_small (prov s') →
  trx_heads t' = [] ∧ trx_perspective t' = None ∧
  (trx_heads t ≠ [] ∨ is_Some (trx_perspective t) →
   ∃ st' D' h, pl_stored (prov s') (trx_storage_id t) = Some st' ∧ get_head st' = Ok h ∧ valid D' st' h
     ∧ (∀ a l, (a, l) ∈ trx_heads t → ∃ l', has_address D' st' l' a ∧ anc st' h l')
     ∧ ∀ p id, trx_perspective t = Some p → p_includes id p = true → in_history st' h id).
Proof.
  intros Hok Ht E Hsm. unfold commit, on_provider in E.
  destruct (pr_get_storage (trx_storage_id t) (prov s)) as [o pr1] eqn:Eg. destruct (pl_get _ _ _ _ Eg) as [_ Hr].
  destruct o as [st|e|x]; [|by simplify_eq/=..]. cbn [try_storage map_err] in E. unfold in_storage in E.
  cbn [wo_client wo_sink cl_engine cl_provider] in E. set (en := mkEnv t st _ _) in E.
  destruct (commit_in search_fuel braid_fuel _ en) as [res en'] eqn:Em. injection E as -> <- <-. simpl in Hsm.
  unfold trx_fine in Ht. rewrite Hr in Ht.
  assert (env_ok (strict := False) (alone := False) (Dm (trx_storage_id t)) en) as Hen by (split; [by apply Hok|done]).
  destruct (wp_commit_in search_fuel braid_fuel _ en _ id Hen _ _ Em) as (D' & Hl & HQ).
  { apply (Hsm (trx_storage_id t)). by rewrite pl_set, decide_True. }
  destruct (HQ eq_refl) as (Hnil & Hnone & Hcov). split_and!; [done..|]. intros Hsome.
  destruct Hcov as (h & Hh & Hall & Hids).
  { destruct Hsome as [Hne|]; [left|by right]. simpl. destruct (trx_heads t) as [|x l]; [done|]. exists x. by left. }
  exists (en_storage en'), D', h. split_and!; [simpl; by rewrite pl_set, decide_True|done| |done|done].
  apply sl_head; [apply (la_ok _ _ _ _ Hl)|done].
Qed.

(** * Claims *)

(** C12: the client never damages a graph and never loses history: whatever is
    done with it, creating graphs, receiving any commands from peers into any
    number of interleaved transactions, committing or dropping them,
    performing actions, with every error on the way and under any policy,
    each graph it stores is well formed, its head is a command of the graph,
    every segment ever written stays as it is, and a head that was there is
    an ancestor of every later head. It holds for both storages. *)
Theorem client_keeps_history sy sy' g st :
  sys_reachable sy → rtc step sy sy' → sys_small sy' → stored sy g = Some st →
  ∃ D D' st', stored sy' g = Some st' ∧ graph_ok D st ∧ graph_ok D' st'
    ∧ (∀ h, get_head st = Ok h → valid D st h ∧ ∃ h', get_head st' = Ok h' ∧ valid D' st' h' ∧ anc st' h' h)
    ∧ (∀ n, D n → D' n) ∧ ∀ n seg, seg_at st n = Some seg → ∃ seg', seg_at st' n = Some seg' ∧ seg_eqv seg seg'.
Proof.
  intros Hr Hsteps Hsm Hst. destruct (sys_steps_ok _ _ _ _ Hsteps) as [Hg Hl].
  destruct (sys_reachable_ok sy Hr (prov_grows_small _ _ Hg Hsm)) as [Dm Hok].
  destruct (Hl Dm Hok Hsm) as (Dm' & Hl' & Hok'). destruct (pv_stored _ _ _ _ Hl' g st Hst) as (HD & st' & Hst' & Hgr & Hf).
  pose proof (proj1 Hok g st Hst) as Hi. pose proof (proj1 Hok' g st' Hst') as Hi'. exists (Dm g), (Dm' g), st'.
  split_and!; [done|by apply sl_graph..| |done|by intros n seg; apply sl_grows_seg].
  intros h Hh. split; [by apply sl_head|]. destruct (Hf h Hh) as (h' & Hh' & Ha). exists h'.
  split_and!; [done|by apply sl_head|done].
Qed.

(** C13: a commit that succeeds integrates the whole transaction: in a reachable
    client it leaves the transaction empty, and every temporary head of the
    transaction and every command of its perspective is the new head of the
    graph or an ancestor of it, whatever was committed to the graph in
    between. *)
Theorem commit_integrates_transaction sy i t t' s' :
  sys_reachable sy → sy_trxs sy !! i = Some t →
  commit search_fuel braid_fuel t (sy_world sy) = (Ok tt, t', s') → sys_small (mkSystem s' (<[i:=t']> (sy_trxs sy))) →
  trx_heads t' = [] ∧ trx_perspective t' = None ∧
  (trx_heads t ≠ [] ∨ is_Some (trx_perspective t) →
   ∃ st' D' h, pl_stored (prov s') (trx_storage_id t) = Some st' ∧ get_head st' = Ok h ∧ valid D' st' h
     ∧ (∀ a l, (a, l) ∈ trx_heads t → ∃ l', has_address D' st' l' a ∧ anc st' h l')
     ∧ ∀ p id, trx_perspective t = Some p → p_includes id p = true → in_history st' h id).
Proof.
  intros Hr Hi E Hsm. destruct (commit_later search_fuel braid_fuel (λ _ _, True) t (sy_world sy) _ _ _ E) as [Hg _].
  destruct (sys_reachable_ok sy Hr (prov_grows_small _ _ Hg Hsm)) as (Dm & Hok & Hts).
  eapply commit_covers; [done|by eapply Forall_lookup_1|done|done].
Qed.
End Systems.

(** * Committing ends *)
Section Commit.
Context {St Seg P FP FI : Type} `{HL : StorageLaws False St Seg P FP FI}.
Context {Eng Pol Action Effect Sk : Type} `{EngineOps Eng Pol} `{PolicyLaws Pol Action Effect} `{Sink Sk Effect}.
Context (search_fuel braid_fuel : St → nat).
Implicit Types (s : Env St P Sk).

(** C36: committing ends: from any state of a transaction whose heads were taken
    out for the commit, the loop of [commit] runs for at most one turn per head
    and two more, and then ends, committed or with an error of one of its turns.
    A run has no rule for running out of fuel, and none for the guard against
    merging with the head of the graph twice: after the last head was refused
    and merged with the head of the graph, committing the merge is not refused
    again. *)
Theorem commit_loop_ends D s e heads :
  env_ok (alone := False) D s → trx_heads (en_trx s) = [] → (∀ a l, (a, l) ∈ heads → valid D (en_storage s) l) →
  sl_small (en_storage (commit_loop search_fuel braid_fuel (commit_fuel heads) e heads false s).2) →
  ∃ n, n ≤ length heads + 2 ∧
    commit_run search_fuel braid_fuel e n heads false s (commit_loop search_fuel braid_fuel (commit_fuel heads) e heads false s).
Proof.
  intros Hok Hnil Hv Hsm.
  apply (commit_loop_runs (alone := False) search_fuel braid_fuel (commit_fuel heads) D s e heads false); try done; unfold turns, commit_fuel; lia.
Qed.
End Commit.

(** * A concrete client

    A graph is received, committed, and extended by two branches in a second
    transaction. *)
Module ClientExample.
Definition fuel (_ : MemStorage) : nat := 300.
Abbreviation SeqSystem := (System (P := MemPerspective) (Pr := MemStorageProvider) (Eng := SeqEngine) (Sk := unit)).
Abbreviation step := (sys_step fuel fuel).
Definition graph : GraphId := mkid "a".
Definition start : SeqSystem := mkSystem (mkWorld (client_new mkSeqEngine []) tt) [].
Definition run_add (cs : list Command) (sy : SeqSystem) : SeqSystem :=
  match sy_trxs sy with
  | t :: _ => let '((_, t', _), s') := add_commands fuel fuel t cs peer_cache_new (sy_world sy) in mkSystem s' (<[0:=t']> (sy_trxs sy))
  | [] => sy
  end.
Definition run_commit (sy : SeqSystem) : SeqSystem :=
  match sy_trxs sy with
  | t :: _ => let '(_, t', s') := commit fuel fuel t (sy_world sy) in mkSystem s' (<[0:=t']> (sy_trxs sy))
  | [] => sy
  end.
Definition opened : SeqSystem := mkSystem (sy_world start) [transaction_new graph].
Definition received : SeqSystem := Eval vm_compute in run_add [named "a" PNone 0; named "b" (PSingle (addr "a" 0)) 1] opened.
Definition committed : SeqSystem := Eval vm_compute in run_commit received.
Definition forked : SeqSystem := Eval vm_compute in
  run_add [named "d" (PSingle (addr "a" 0)) 1; named "c" (PSingle (addr "b" 1)) 2] committed.
Definition merged : SeqSystem := Eval vm_compute in run_commit forked.

Lemma run_add_step cs t sy : sy_trxs sy !! 0 = Some t → step sy (run_add cs sy).
Proof.
  intros Ht. unfold run_add. destruct sy as [s [|t0 ts]]; [done|]. simpl in *. injection Ht as ->.
  destruct (add_commands fuel fuel t cs peer_cache_new s) as [[[res t'] pc'] s'] eqn:E. by apply (step_add _ _ s (t :: ts) 0 t cs peer_cache_new res t' pc').
Qed.
Lemma run_commit_step t sy : sy_trxs sy !! 0 = Some t → step sy (run_commit sy).
Proof.
  intros Ht. unfold run_commit. destruct sy as [s [|t0 ts]]; [done|]. simpl in *. injection Ht as ->.
  destruct (commit fuel fuel t s) as [[res t'] s'] eqn:E. by apply (step_commit _ _ s (t :: ts) 0 t res t').
Qed.
Lemma reach_received : sys_reachable fuel fuel received.
Proof.
  exists start. split; [by constructor|]. apply (rtc_l _ _ opened); [apply (step_open _ _ _ [] graph)|].
  apply rtc_once. assert (received = (run_add [named "a" PNone 0; named "b" (PSingle (addr "a" 0)) 1] opened)) as -> by (vm_compute; reflexivity).
  by apply (run_add_step _ (transaction_new graph)).
Qed.
Lemma reach_committed : sys_reachable fuel fuel committed.
Proof.
  destruct reach_received as (sy0 & Hs & Hr). exists sy0. split; [done|]. eapply rtc_r; [exact Hr|].
  assert (committed = run_commit received) as -> by (vm_compute; reflexivity). by eapply run_commit_step.
Qed.
Lemma reach_forked : sys_reachable fuel fuel forked.
Proof.
  destruct reach_committed as (sy0 & Hs & Hr). exists sy0. split; [done|]. eapply rtc_r; [exact Hr|].
  assert (forked = (run_add [named "d" (PSingle (addr "a" 0)) 1; named "c" (PSingle (addr "b" 1)) 2] committed)) as -> by (vm_compute; reflexivity).
  by eapply run_add_step.
Qed.
Lemma steps_merged : rtc step committed merged.
Proof.
  apply (rtc_l _ _ forked); [|apply rtc_once].
  - assert (forked = (run_add [named "d" (PSingle (addr "a" 0)) 1; named "c" (PSingle (addr "b" 1)) 2] committed)) as -> by (vm_compute; reflexivity).
    by eapply run_add_step.
  - assert (merged = run_commit forked) as -> by (vm_compute; reflexivity). by eapply run_commit_step.
Qed.
Definition storage_of (sy : SeqSystem) : MemStorage := default mem_storage_new (stored sy graph).
Definition trx_of (sy : SeqSystem) : Transaction MemPerspective := default (transaction_new graph) (sy_trxs sy !! 0).
(** The state of a commit of the transaction, with its heads taken out. *)
Definition taken_env : Env MemStorage MemPerspective unit :=
  mkEnv (set_heads [] (trx_of forked)) (storage_of forked) tt peer_cache_new.
Lemma taken_env_ok : ∃ D, env_ok (strict := False) (alone := False) D taken_env
  ∧ ∀ a l, (a, l) ∈ trx_heads (trx_of forked) → valid D (en_storage taken_env) l.
Proof.
  destruct (sys_reachable_ok fuel fuel forked reach_forked) as (Dm & Hok & Hts); [intros g st _; exact I|].
  assert (sy_trxs forked !! 0 = Some (trx_of forked)) as Ht by (vm_compute; reflexivity).
  pose proof (Forall_lookup_1 _ _ _ _ Hts Ht) as Hfine. unfold trx_fine in Hfine.
  assert (pl_stored (cl_provider (wo_client (sy_world forked))) (trx_storage_id (trx_of forked)) = Some (storage_of forked)) as Hst
    by (vm_compute; reflexivity).
  rewrite Hst in Hfine. exists (Dm (trx_storage_id (trx_of forked))). split; [split; [by apply Hok|]|].
  - apply trx_ok_no_heads; [done|]. intros p Hp. exact (to_persp _ _ _ Hfine p Hp).
  - intros a l Hin. eapply has_address_valid, (to_head _ _ _ Hfine a l Hin).
Qed.
End ClientExample.

Lemma client_keeps_history_witness :
  ∃ D D' st', stored ClientExample.merged ClientExample.graph = Some st'
    ∧ graph_ok D (ClientExample.storage_of ClientExample.committed) ∧ graph_ok D' st'
    ∧ (∀ h, get_head (ClientExample.storage_of ClientExample.committed) = Ok h →
         valid D (ClientExample.storage_of ClientExample.committed) h
         ∧ ∃ h', get_head st' = Ok h' ∧ valid D' st' h' ∧ anc st' h' h)
    ∧ (∀ n, D n → D' n)
    ∧ ∀ n seg, seg_at (ClientExample.storage_of ClientExample.committed) n = Some seg → ∃ seg', seg_at st' n = Some seg' ∧ seg_eqv seg seg'.
Proof.
  apply (client_keeps_history ClientExample.fuel ClientExample.fuel ClientExample.committed ClientExample.merged ClientExample.graph).
  - exact ClientExample.reach_committed.
  - exact ClientExample.steps_merged.
  - intros g st _. exact I.
  - vm_compute. reflexivity.
Defined.

Lemma commit_integrates_transaction_witness :
  let t := ClientExample.trx_of ClientExample.forked in
  let r := commit ClientExample.fuel ClientExample.fuel t (sy_world ClientExample.forked) in
  trx_heads r.1.2 = [] ∧ trx_perspective r.1.2 = None ∧
  (trx_heads t ≠ [] ∨ is_Some (trx_perspective t) →
   ∃ st' D' h, pl_stored (cl_provider (wo_client r.2)) (trx_storage_id t) = Some st' ∧ get_head st' = Ok h ∧ valid D' st' h
     ∧ (∀ a l, (a, l) ∈ trx_heads t → ∃ l', has_address D' st' l' a ∧ anc st' h l')
     ∧ ∀ p id, trx_perspective t = Some p → p_includes id p = true → in_history st' h id).
Proof.
  intros t r.
  apply (commit_integrates_transaction ClientExample.fuel ClientExample.fuel ClientExample.forked 0 t r.1.2 r.2).
  - exact ClientExample.reach_forked.
  - vm_compute. reflexivity.
  - vm_compute. reflexivity.
  - intros g st _. exact I.
Defined.

Lemma commit_loop_ends_witness :
  let s := ClientExample.taken_env in let heads := trx_heads (ClientExample.trx_of ClientExample.forked) in
  length heads = 1 ∧
  (commit_loop ClientExample.fuel ClientExample.fuel (commit_fuel heads) mkSeqEngine heads false s).1 = Ok tt ∧
  ∃ n, n ≤ 3 ∧ commit_run ClientExample.fuel ClientExample.fuel mkSeqEngine n heads false s
    (commit_loop ClientExample.fuel ClientExample.fuel (commit_fuel heads) mkSeqEngine heads false s).
Proof.
  intros s heads. split; [vm_compute; reflexivity|]. split; [vm_compute; reflexivity|].
  destruct ClientExample.taken_env_ok as (D & Hen & Hv).
  exact (commit_loop_ends ClientExample.fuel ClientExample.fuel D s mkSeqEngine heads Hen eq_refl Hv I).
Defined.
