(* ===== verification/Sync.v ===== *)
(** The sync protocol ([sync/mod.rs], [sync/dispatcher.rs], [sync/requester.rs]
    and [sync/responder.rs]): messages, the state machines of the requester and
    the responder, the choice of what to send, and the encoding of commands. *)
From S2P Require Import Prelude Collections RuntimeTypes FactStore Graph Client RuntimeOps Transaction.
Local Open Scope string_scope.
Local Open Scope list_scope.
Local Open Scope nat_scope.

(** * Messages ([sync/mod.rs], [sync/dispatcher.rs]) *)
Definition COMMAND_SAMPLE_MAX : nat := 100.
Definition REQUEST_MISSING_MAX : nat := 100.
Definition COMMAND_RESPONSE_MAX : nat := 100.
Definition SEGMENT_BUFFER_MAX : nat := 100.
(** [1024 + MAX_COMMAND_LENGTH * COMMAND_RESPONSE_MAX]. *)
Definition MAX_SYNC_MESSAGE_SIZE : Z := (1024 + 2048 * 100)%Z.

(** Lengths are [u32]. *)
Record CommandMeta := mkCommandMeta {
  cm_id : CommandId;
  cm_priority : Priority;
  cm_parent : Prior Address;
  cm_policy_length : Z;
  cm_length : Z;
  cm_max_cut : nat
}.
Definition meta_address (m : CommandMeta) : Address := mkAddress (cm_id m) (cm_max_cut m).

Inductive SyncError : Type :=
| SESessionMismatch
| SEMissingSyncResponse
| SESessionState
| SENotReady
| SECommandOverflow
| SEStorage (e : StorageError)
| SESerialize
| SEBug (b : Bug_).

(** A received command, as the [Command] it implements. *)
Record SyncCommand := mkSyncCommand {
  sc_priority : Priority;
  sc_id : CommandId;
  sc_parent : Prior Address;
  sc_policy : option (list u8);
  sc_data : list u8;
  sc_max_cut : nat
}.
Definition sync_command (c : SyncCommand) : Command :=
  mkCommand (sc_priority c) (sc_id c) (sc_parent c) (sc_policy c) (sc_data c) (Ok (sc_max_cut c)).

Inductive SyncRequestMessage : Type :=
| SyncRequest (session_id : Z) (storage_id : GraphId) (max_bytes : Z) (commands : list Address)
| RequestMissing (session_id : Z) (indexes : list nat)
| SyncResume (session_id : Z) (response_index : nat) (max_bytes : Z)
| RequestEndSession (session_id : Z).
Definition request_session_id (m : SyncRequestMessage) : Z :=
  match m with SyncRequest s _ _ _ | RequestMissing s _ | SyncResume s _ _ | RequestEndSession s => s end.

Inductive SyncResponseMessage : Type :=
| SyncResponse (session_id : Z) (index : nat) (commands : list CommandMeta)
| SyncEnd (session_id : Z) (max_index : nat) (remaining : bool)
| Offer (session_id : Z) (head : CommandId)
| ResponseEndSession (session_id : Z).
Definition response_session_id (m : SyncResponseMessage) : Z :=
  match m with SyncResponse s _ _ | SyncEnd s _ _ | Offer s _ | ResponseEndSession s => s end.

Inductive SyncType (A : Type) : Type :=
| Poll (request : SyncRequestMessage) (address : A)
| Subscribe (remain_open max_bytes : Z) (commands : list Address) (storage_id : GraphId) (address : A)
| Unsubscribe (address : A)
| Push (message : SyncResponseMessage) (storage_id : GraphId) (address : A).
Arguments Poll {A}.
Arguments Subscribe {A}.
Arguments Unsubscribe {A}.
Arguments Push {A}.

(** The conversions of [?]. *)
Definition sync_bug {A} (m : outcome Bug_ A) : outcome SyncError A := map_err SEBug m.
Definition sync_storage {A} (m : outcome StorageError A) : outcome SyncError A := map_err SEStorage m.

(** * Serialization

    postcard is a parameter: [to_slice m len] are the bytes of [m] when they
    fit in a buffer of [len] bytes. *)
Class Postcard (A : Type) := {
  response_to_slice : SyncResponseMessage → nat → option (list u8);
  type_to_slice : SyncType A → nat → option (list u8);
  take_response : list u8 → option (SyncResponseMessage * list u8)
}.

(** * The requester *)
Inductive SyncRequesterState : Type := RQNew | RQStart | RQWaiting | RQIdle | RQClosed | RQResync | RQPartialSync | RQReset.

Section Requester.
Context {St Seg P Pr A : Type} `{Storage St Seg} `{QueryMut P} `{!PerspectiveOps P} `{!ProviderOps Pr St P} `{!Postcard A}.
Context {FP FI : Type} `{!StorageOps St Seg P FP FI}.
Context (search_fuel : St → nat).

(** The buffer for messages out of order is not used. *)
Record SyncRequester := mkSyncRequester {
  rq_session_id : Z;
  rq_storage_id : GraphId;
  rq_state : SyncRequesterState;
  rq_max_bytes : Z;
  rq_next_index : nat;
  rq_server_address : A
}.
(** [session_id] is drawn by the random generator. *)
Definition requester_new (session_id : Z) (storage_id : GraphId) (server_address : A) : SyncRequester :=
  mkSyncRequester session_id storage_id RQNew 0 0 server_address.
Definition requester_new_session_id (storage_id : GraphId) (session_id : Z) (server_address : A) : SyncRequester :=
  mkSyncRequester session_id storage_id RQWaiting 0 0 server_address.
Definition requester_ready (r : SyncRequester) : bool :=
  match rq_state r with
  | RQNew | RQResync | RQReset => true
  | RQStart | RQWaiting | RQIdle | RQClosed | RQPartialSync => false
  end.
Definition rq_set_state (s : SyncRequesterState) (r : SyncRequester) : SyncRequester :=
  mkSyncRequester (rq_session_id r) (rq_storage_id r) s (rq_max_bytes r) (rq_next_index r) (rq_server_address r).
Definition rq_set_max_bytes (n : Z) (r : SyncRequester) : SyncRequester :=
  mkSyncRequester (rq_session_id r) (rq_storage_id r) (rq_state r) n (rq_next_index r) (rq_server_address r).
Definition rq_set_next_index (n : nat) (r : SyncRequester) : SyncRequester :=
  mkSyncRequester (rq_session_id r) (rq_storage_id r) (rq_state r) (rq_max_bytes r) n (rq_server_address r).

(** ** Receiving *)

(** [&remaining[start..end]]. *)
Definition slice (remaining : list u8) (start end_ : nat) : outcome SyncError (list u8) :=
  if (start <=? end_) && (end_ <=? length remaining) then Ok (take (end_ - start) (drop start remaining))
  else Panic "range end index out of range for slice".

(** The loop over [commands]. *)
Fixpoint parse_commands (remaining : list u8) (commands : list CommandMeta) (start : nat) (result : list SyncCommand)
  : outcome SyncError (list SyncCommand) :=
  match commands with
  | [] => Ok result
  | meta :: commands' =>
      let policy_len := Z.to_nat (cm_policy_length meta) in
      '(policy, start) ←
        if policy_len =? 0 then Ok (None, start)
        else
          end_ ← sync_bug (assume (checked_add start policy_len) "start + policy_len mustn't overflow");
          policy ← slice remaining start end_;
          Ok (Some policy, end_);
      let len := Z.to_nat (cm_length meta) in
      end_ ← sync_bug (assume (checked_add start len) "start + len mustn't overflow");
      payload ← slice remaining start end_;
      let command := mkSyncCommand (cm_priority meta) (cm_id meta) (cm_parent meta) policy payload (cm_max_cut meta) in
      if length result =? COMMAND_SAMPLE_MAX then Err (SEBug (BugMsg "commands is not larger than result"))
      else parse_commands remaining commands' end_ (vec_push command result)
  end.

Definition get_sync_commands (message : SyncResponseMessage) (remaining : list u8)
  : M SyncRequester SyncError (option (list SyncCommand)) := λ r,
  if negb (response_session_id message =? rq_session_id r)%Z then (Err SESessionMismatch, r)
  else match message with
       | SyncResponse _ index commands =>
           match rq_state r with
           | RQStart | RQWaiting =>
               if negb (index =? rq_next_index r) then (Err SEMissingSyncResponse, rq_set_state RQResync r)
               else match sync_bug (assume (checked_add (rq_next_index r) 1) "next_index + 1 mustn't overflow") with
                    | Ok next_index =>
                        let r := rq_set_state RQWaiting (rq_set_next_index next_index r) in
                        (result ← parse_commands remaining commands 0 []; Ok (Some result), r)
                    | Err e => (Err e, r)
                    | Panic x => (Panic x, r)
                    end
           | _ => (Err SESessionState, r)
           end
       | SyncEnd _ max_index _ =>
           match rq_state r with
           | RQStart | RQWaiting =>
               match sync_bug (assume (checked_sub (rq_next_index r) 1) "next_index must be positive") with
               | Ok last => if negb (max_index =? last) then (Err SEMissingSyncResponse, rq_set_state RQResync r)
                            else (Ok None, rq_set_state RQPartialSync r)
               | Err e => (Err e, r)
               | Panic x => (Panic x, r)
               end
           | _ => (Err SESessionState, r)
           end
       | Offer _ _ => match rq_state r with
                      | RQIdle => (Ok None, rq_set_state RQResync r)
                      | _ => (Err SESessionState, r)
                      end
       | ResponseEndSession _ => (Ok None, rq_set_state RQClosed r)
       end.
Definition requester_receive (data : list u8) : M SyncRequester SyncError (option (list SyncCommand)) := λ r,
  match take_response data with
  | Some (message, remaining) => get_sync_commands message remaining r
  | None => (Err SESerialize, r)
  end.

(** ** Sampling the graph *)

(** The locations of the peer's heads, which are in the sample. *)
Fixpoint head_locations (st : St) (heads : list Address) (locations : list Location) (commands : list Address)
  : outcome SyncError (list Location * list Address) :=
  match heads with
  | [] => Ok (locations, commands)
  | address :: heads' =>
      found ← sync_storage (search (get_location (search_fuel st) st address));
      location ← sync_bug (assume found "location must exist");
      if length locations =? PEER_HEAD_MAX then Err (SEBug (BugMsg "command locations should not be full"))
      else
        let locations := vec_push location locations in
        if length commands <? COMMAND_SAMPLE_MAX then head_locations st heads' locations (vec_push address commands)
        else head_locations st heads' locations commands
  end.

(** The loop over [current]; the flag says whether to break. *)
Fixpoint sample_level (st : St) (locations current : list Location) (next : list Location) (commands : list Address)
  : outcome SyncError (list Location * list Address) :=
  match current with
  | [] => Ok (next, commands)
  | location :: current' =>
      segment ← sync_storage (get_segment st location);
      head ← sync_storage (seg_head segment);
      head_address ← sync_bug (cmd_address head);
      if existsb (λ loc, loc_segment loc =? loc_segment location) locations
      then sample_level st locations current' next commands
      else if length commands =? COMMAND_SAMPLE_MAX then Err SECommandOverflow
      else
        let commands := vec_push head_address commands in
        let next := next ++ prior_list (seg_prior segment) in
        if COMMAND_SAMPLE_MAX <=? length commands then Ok (next, commands)
        else sample_level st locations current' next commands
  end.
(** Each turn goes from segments to their parents. *)
Fixpoint sample_loop (fuel : nat) (st : St) (locations current : list Location) (commands : list Address)
  : outcome SyncError (list Address) :=
  if (length commands <? COMMAND_SAMPLE_MAX) && negb (match current with [] => true | _ => false end) then
    match fuel with
    | 0 => Panic "segments do not end"
    | S fuel' =>
        '(next, commands) ← sample_level st locations current [] commands;
        sample_loop fuel' st locations next commands
    end
  else Ok commands.
Definition sample_commands (st : St) (heads : PeerCache) : outcome SyncError (list Address) :=
  '(locations, commands) ← head_locations st (pc_heads heads) [] [];
  head ← sync_storage (get_head st);
  sample_loop (S (loc_segment head)) st locations [head] commands.

Definition requester_get_commands (heads : PeerCache) : M (SyncRequester * Pr) SyncError (list Address) := λ s,
  let '(res, pr) := pr_get_storage (rq_storage_id s.1) s.2 in
  (match res with
   | Ok st => sample_commands st heads
   | Err NoSuchStorage => Ok []
   | Err e => Err (SEStorage e)
   | Panic x => Panic x
   end, (s.1, pr)).

(** ** Polling

    [target] is the length of the target buffer; the result are the bytes
    written to it and the number of commands of the sample. *)
Definition on_requester (f : SyncRequester → SyncRequester) : M (SyncRequester * Pr) SyncError unit := modify (λ s, (f s.1, s.2)).
Definition get_requester : M (SyncRequester * Pr) SyncError SyncRequester := λ s, (Ok s.1, s).
Definition requester_write (target : nat) (msg : SyncType A) : outcome SyncError (list u8) :=
  ok_or (type_to_slice msg target) SESerialize.

Definition requester_start (max_bytes : Z) (target : nat) (heads : PeerCache) : M (SyncRequester * Pr) SyncError (list u8 * nat) :=
  r ← get_requester;
  match rq_state r with
  | RQStart | RQNew =>
      on_requester (λ r, rq_set_max_bytes max_bytes (rq_set_state RQStart r)) ≫= λ _,
      commands ← requester_get_commands heads;
      r ← get_requester;
      bytes ← lift (requester_write target
        (Poll (SyncRequest (rq_session_id r) (rq_storage_id r) max_bytes commands) (rq_server_address r)));
      mret (bytes, length commands)
  | _ => on_requester (rq_set_state RQReset) ≫= λ _, throw SESessionState
  end.
Definition requester_resume (max_bytes : Z) (target : nat) : M (SyncRequester * Pr) SyncError (list u8 * nat) :=
  r ← get_requester;
  match rq_state r with
  | RQResync | RQIdle =>
      on_requester (rq_set_state RQWaiting) ≫= λ _,
      response_index ← lift (sync_bug (assume (checked_sub (rq_next_index r) 1) "next_index must be positive"));
      bytes ← lift (requester_write target (Poll (SyncResume (rq_session_id r) response_index max_bytes) (rq_server_address r)));
      mret (bytes, 0)
  | _ => throw SESessionState
  end.
Definition requester_end_session (target : nat) : M (SyncRequester * Pr) SyncError (list u8 * nat) :=
  r ← get_requester;
  bytes ← lift (requester_write target (Poll (RequestEndSession (rq_session_id r)) (rq_server_address r)));
  mret (bytes, 0).
Definition requester_poll (target : nat) (heads : PeerCache) : M (SyncRequester * Pr) SyncError (list u8 * nat) :=
  r ← get_requester;
  match rq_state r with
  | RQStart | RQWaiting | RQIdle | RQClosed | RQPartialSync => throw SENotReady
  | RQNew => on_requester (rq_set_state RQStart) ≫= λ _, requester_start (rq_max_bytes r) target heads
  | RQResync => requester_resume (rq_max_bytes r) target
  | RQReset => on_requester (rq_set_state RQClosed) ≫= λ _, requester_end_session target
  end.
Definition requester_subscribe (target : nat) (heads : PeerCache) (remain_open max_bytes : Z)
  : M (SyncRequester * Pr) SyncError (list u8) :=
  commands ← requester_get_commands heads;
  r ← get_requester;
  lift (requester_write target (Subscribe remain_open max_bytes commands (rq_storage_id r) (rq_server_address r))).
Definition requester_unsubscribe (target : nat) : M (SyncRequester * Pr) SyncError (list u8) :=
  r ← get_requester;
  lift (requester_write target (Unsubscribe (rq_server_address r))).
End Requester.
Arguments SyncRequester A : clear implicits.

(** * The responder *)
Inductive SyncResponderState : Type := RSNew | RSStart | RSSend | RSIdle | RSReset | RSStopped.

(** ** What to send *)
Section Needed.
Context {St Seg : Type} `{Storage St Seg}.
Context (search_fuel : St → nat).
Implicit Types (st : St) (seg : Seg).

Fixpoint have_locations st (commands : list Address) : outcome SyncError (list Location) :=
  match commands with
  | [] => Ok []
  | addr :: commands' =>
      found ← sync_storage (search (get_location (search_fuel st) st addr));
      rest ← have_locations st commands';
      Ok (match found with Some location => location :: rest | None => rest end)
  end.

Definition seg_contains_any seg (locations : list Location) : bool := existsb (seg_contains seg) locations.
(** [pop_back] when full, then [push_front]; the back is the end of the list. *)
Definition push_needed (location : Location) (result : list Location) : list Location :=
  location :: if length result =? SEGMENT_BUFFER_MAX then removelast result else result.

(** The loop over [current]: the next heads and the result. *)
Fixpoint needed_level st (have current heads result : list Location) : outcome SyncError (list Location * list Location) :=
  match current with
  | [] => Ok (heads, result)
  | head :: current' =>
      segment ← sync_storage (get_segment st head);
      if seg_contains_any segment result then needed_level st have current' heads result
      else match List.find (seg_contains segment) have with
           | Some location =>
               head_location ← sync_storage (seg_head_location segment);
               needed_level st have current' heads
                 (if bool_decide (location = head_location) then result else push_needed location result)
           | None =>
               needed_level st have current' (heads ++ prior_list (seg_prior segment))
                 (push_needed (seg_first_location segment) result)
           end
  end.
(** Each turn goes from segments to their parents. *)
Fixpoint needed_loop (fuel : nat) st (have heads result : list Location) : outcome SyncError (list Location) :=
  match heads, fuel with
  | [], _ => Ok result
  | _, 0 => Panic "segments do not end"
  | _, S fuel' =>
      '(heads, result) ← needed_level st have heads [] result;
      needed_loop fuel' st have heads result
  end.
Definition find_needed_segments st (commands : list Address) : outcome SyncError (list Location) :=
  have ← have_locations st commands;
  head ← sync_storage (get_head st);
  result ← needed_loop (S (loc_segment head)) st have [head] [];
  Ok (vec_sort result).
End Needed.

Section Responder.
Context {St Seg P Pr A : Type} `{Storage St Seg} `{QueryMut P} `{!PerspectiveOps P} `{!ProviderOps Pr St P} `{!Postcard A}.
Context (search_fuel : St → nat).

Record SyncResponder := mkSyncResponder {
  rs_session_id : option Z;
  rs_storage_id : option GraphId;
  rs_state : SyncResponderState;
  rs_bytes_sent : Z;
  rs_next_send : nat;
  rs_has : list Address;
  rs_to_send : list Location;
  rs_server_address : A
}.
Definition responder_new (server_address : A) : SyncResponder :=
  mkSyncResponder None None RSNew 0 0 [] [] server_address.
Definition responder_ready (r : SyncResponder) : bool :=
  match rs_state r with RSReset | RSStart | RSSend => true | RSNew | RSIdle | RSStopped => false end.

Definition rs_set_state (s : SyncResponderState) (r : SyncResponder) : SyncResponder :=
  mkSyncResponder (rs_session_id r) (rs_storage_id r) s (rs_bytes_sent r) (rs_next_send r) (rs_has r) (rs_to_send r) (rs_server_address r).
Definition rs_set_next_send (n : nat) (r : SyncResponder) : SyncResponder :=
  mkSyncResponder (rs_session_id r) (rs_storage_id r) (rs_state r) (rs_bytes_sent r) n (rs_has r) (rs_to_send r) (rs_server_address r).
Definition rs_set_to_send (l : list Location) (r : SyncResponder) : SyncResponder :=
  mkSyncResponder (rs_session_id r) (rs_storage_id r) (rs_state r) (rs_bytes_sent r) (rs_next_send r) (rs_has r) l (rs_server_address r).

Definition responder_receive (message : SyncRequestMessage) : M SyncResponder SyncError unit := λ r,
  let session_id := match rs_session_id r with None => request_session_id message | Some s => s end in
  let r := mkSyncResponder (Some session_id) (rs_storage_id r) (rs_state r) (rs_bytes_sent r) (rs_next_send r) (rs_has r)
             (rs_to_send r) (rs_server_address r) in
  if negb (session_id =? request_session_id message)%Z then (Err SESessionMismatch, r)
  else match message with
       | SyncRequest _ storage_id max_bytes commands =>
           (Ok tt, mkSyncResponder (Some session_id) (Some storage_id) RSStart max_bytes 0 commands [] (rs_server_address r))
       | RequestMissing _ _ | SyncResume _ _ _ => (Panic "not yet implemented", r)
       | RequestEndSession _ => (Ok tt, rs_set_state RSStopped r)
       end.

(** ** Encoding commands *)

(** [as u32]. *)
Definition as_u32 (n : nat) : Z := (Z.of_nat n mod 2 ^ 32)%Z.
Definition command_meta (c : Command) : outcome SyncError CommandMeta :=
  max_cut ← sync_bug (cmd_max_cut c);
  Ok (mkCommandMeta (cmd_id c) (cmd_priority c) (cmd_parent c)
        (as_u32 (match cmd_policy c with Some p => length p | None => 0 end)) (as_u32 (length (cmd_bytes c))) max_cut).
(** [extend_from_slice] on [command_data]. *)
Definition extend_data (bytes data : list u8) : outcome SyncError (list u8) :=
  if (Z.of_nat (length data + length bytes) <=? MAX_SYNC_MESSAGE_SIZE)%Z then Ok (data ++ bytes)
  else Err (SEBug (BugMsg "command_data is too large")).

(** The loop over [found], which ends when the response is full. *)
Fixpoint push_commands (found : list Command) (commands : list CommandMeta) (data : list u8)
  : outcome SyncError (list CommandMeta * list u8) :=
  match found with
  | [] => Ok (commands, data)
  | command :: found' =>
      data ← match cmd_policy command with Some policy => extend_data policy data | None => Ok data end;
      data ← extend_data (cmd_bytes command) data;
      meta ← command_meta command;
      if length commands =? COMMAND_RESPONSE_MAX then Err (SEBug (BugMsg "too many commands in segment"))
      else
        let commands := vec_push meta commands in
        if length commands =? COMMAND_RESPONSE_MAX then Ok (commands, data) else push_commands found' commands data
  end.
(** The loop over the segments to send; the flag says whether to reset. *)
Fixpoint push_segments (st : St) (to_send : list Location) (commands : list CommandMeta) (data : list u8) (index : nat)
  : outcome SyncError (list CommandMeta * list u8 * nat) * bool :=
  match to_send with
  | [] => (Ok (commands, data, index), false)
  | location :: to_send' =>
      if length commands =? COMMAND_RESPONSE_MAX then (Ok (commands, data, index), false)
      else match sync_bug (assume (checked_add index 1) "index + 1 mustn't overflow") with
           | Err e => (Err e, false)
           | Panic x => (Panic x, false)
           | Ok index =>
               match get_segment st location with
               | Err e => (Err (SEStorage e), true)
               | Panic x => (Panic x, false)
               | Ok segment =>
                   match (found ← sync_storage (seg_get_from segment location); push_commands found commands data) with
                   | Ok (commands, data) => push_segments st to_send' commands data index
                   | Err e => (Err e, false)
                   | Panic x => (Panic x, false)
                   end
               end
           end
  end.

(** What the methods change. *)
Record RespEnv := mkRespEnv { re_responder : SyncResponder; re_provider : Pr; re_cache : PeerCache }.
Abbreviation RM := (M RespEnv SyncError).
Definition get_responder : RM SyncResponder := λ s, (Ok (re_responder s), s).
Definition on_responder (f : SyncResponder → SyncResponder) : RM unit :=
  modify (λ s, mkRespEnv (f (re_responder s)) (re_provider s) (re_cache s)).
Definition session_id_of (r : SyncResponder) : outcome SyncError Z :=
  sync_bug (assume (rs_session_id r) "session id is set").

(** [get_storage], where an error resets the session. *)
Definition responder_storage (storage_id : GraphId) : RM St := λ s,
  let '(res, pr) := pr_get_storage storage_id (re_provider s) in
  match res with
  | Ok st => (Ok st, mkRespEnv (re_responder s) pr (re_cache s))
  | Err e => (Err (SEStorage e), mkRespEnv (rs_set_state RSReset (re_responder s)) pr (re_cache s))
  | Panic x => (Panic x, mkRespEnv (re_responder s) pr (re_cache s))
  end.
Definition reset_with {B} (msg : string) : RM B := on_responder (rs_set_state RSReset) ≫= λ _, throw (SEBug (BugMsg msg)).

Definition responder_get_commands : RM (list CommandMeta * list u8 * nat) :=
  r ← get_responder;
  match rs_storage_id r with
  | None => reset_with "get_next called before storage_id was set"
  | Some storage_id =>
      st ← responder_storage storage_id;
      let '(res, reset) := push_segments st (drop (rs_next_send r) (rs_to_send r)) [] [] (rs_next_send r) in
      (if reset : bool then on_responder (rs_set_state RSReset) else mret tt) ≫= λ _,
      lift res
  end.

(** [copy_from_slice] after the message; [target] is the length of the buffer. *)
Definition append_data (target : nat) (message data : list u8) : outcome SyncError (list u8) :=
  total_length ← sync_bug (assume (checked_add (length message) (length data)) "length + command_data_length mustn't overflow");
  if total_length <=? target then Ok (message ++ data) else Err (SEBug (BugMsg "sync message fits in target")).

Definition responder_get_next (target : nat) : RM (list u8) :=
  r ← get_responder;
  if length (rs_to_send r) <=? rs_next_send r then on_responder (rs_set_state RSIdle) ≫= λ _, mret []
  else
    '(commands, data, index) ← responder_get_commands;
    session_id ← lift (session_id_of r);
    on_responder (rs_set_next_send index) ≫= λ _,
    bytes ← lift (ok_or (response_to_slice (SyncResponse session_id (rs_next_send r) commands) target) SESerialize);
    lift (append_data target bytes data).

(** Update the cache with commands of the peer that are in the graph. *)
Fixpoint cache_commands (st : St) (commands : list Address) : RM unit := λ s,
  match commands with
  | [] => (Ok tt, s)
  | command :: commands' =>
      match sync_storage (search (get_location (search_fuel st) st command)) with
      | Ok (Some cmd_loc) =>
          let '(res, pc) := pc_add_command (search_fuel st) st command cmd_loc (re_cache s) in
          let s := mkRespEnv (re_responder s) (re_provider s) pc in
          match res with
          | Ok _ => cache_commands st commands' s
          | Err e => (Err (SEStorage e), s)
          | Panic x => (Panic x, s)
          end
      | Ok None => cache_commands st commands' s
      | Err e => (Err e, s)
      | Panic x => (Panic x, s)
      end
  end.

Definition responder_poll (target : nat) : RM (list u8) :=
  r ← get_responder;
  match rs_state r with
  | RSNew | RSIdle | RSStopped => throw SENotReady
  | RSStart =>
      match rs_storage_id r with
      | None => reset_with "poll called before storage_id was set"
      | Some storage_id =>
          st ← responder_storage storage_id;
          on_responder (rs_set_state RSSend) ≫= λ _,
          cache_commands st (rs_has r) ≫= λ _,
          to_send ← lift (find_needed_segments search_fuel st (rs_has r));
          on_responder (rs_set_to_send to_send) ≫= λ _,
          responder_get_next target
      end
  | RSSend => responder_get_next target
  | RSReset =>
      on_responder (rs_set_state RSStopped) ≫= λ _,
      session_id ← lift (session_id_of r);
      lift (ok_or (response_to_slice (ResponseEndSession session_id) target) SESerialize)
  end.

Definition responder_push (target : nat) : RM (list u8) :=
  r ← get_responder;
  match rs_storage_id r with
  | None => reset_with "poll called before storage_id was set"
  | Some storage_id =>
      st ← responder_storage storage_id;
      to_send ← lift (find_needed_segments search_fuel st (rs_has r));
      on_responder (rs_set_to_send to_send) ≫= λ _,
      '(commands, data, index) ← responder_get_commands;
      st ← responder_storage storage_id;
      cache_commands st (map meta_address commands) ≫= λ _,
      match commands with
      | [] => mret []
      | _ =>
          session_id ← lift (session_id_of r);
          let message := Push (SyncResponse session_id (rs_next_send r) commands) storage_id (rs_server_address r) in
          on_responder (rs_set_next_send index) ≫= λ _,
          bytes ← lift (ok_or (type_to_slice message target) SESerialize);
          lift (append_data target bytes data)
      end
  end.
End Responder.
Arguments SyncResponder A : clear implicits.
