(* ===== verification/SyncProofs.v ===== *)
(** What a sync sends, and its bytes. *)
From S2P Require Import Prelude Collections RuntimeTypes FactStore Graph Client BraidProofs SearchSound RuntimeOps.
From S2P Require Import Transaction Sync.
Local Open Scope string_scope.
Local Open Scope list_scope.
Local Open Scope nat_scope.

(** What a sync sends: the segments the responder finds are all that the
    requester may lack, parents before children; and the requester decodes
    what the responder encodes. *)
(** * Segments and their locations *)
Record segs_ok {St Seg} `{Storage St Seg} (D : nat → Prop) (st : St) : Prop := mk_segs_ok {
  sg_contains n seg l : D n → seg_at st n = Some seg → valid D st l → seg_contains seg l = true ↔ loc_segment l = n;
  sg_first n seg : D n → seg_at st n = Some seg → seg_first_location seg = mkLocation n 0;
  sg_head n seg : D n → seg_at st n = Some seg →
    ∃ c, seg_head_location seg = Ok (mkLocation n c) ∧ ∀ k, valid D st (mkLocation n k) → k ≤ c;
  sg_from n seg k : D n → seg_at st n = Some seg → valid D st (mkLocation n k) →
    ∃ cmds, seg_get_from seg (mkLocation n k) = Ok cmds ∧ ∀ i, cmds !! i = seg_get_command seg (mkLocation n (k + i))
}.

(** * The segments to send *)
Section Needed.
Context {St Seg : Type} `{Storage St Seg}.
Variables (D : nat → Prop) (st : St) (have : list Location) (ns : list nat).
Hypothesis Hg : graph_ok D st.
Hypothesis Hs : segs_ok D st.
Hypothesis Hhave : ∀ h, h ∈ have → valid D st h.
(** The graph has no more segments than fit in the buffer. *)
Hypothesis Hns : ∀ n, D n → n ∈ ns.
Hypothesis Hmax : length ns ≤ SEGMENT_BUFFER_MAX.
Implicit Types (l x q r : Location) (result heads current pending : list Location).

(** How a segment was dealt with: it is sent from its start, or there is a
    command of it that the peer has, after which it is sent. *)
Definition sent_whole result n : Prop := mkLocation n 0 ∈ result ∧ ∀ h, h ∈ have → loc_segment h ≠ n.
Definition sent_after result n : Prop :=
  ∃ h, h ∈ have ∧ loc_segment h = n ∧ (h ∈ result ∨ ∀ k, valid D st (mkLocation n k) → k ≤ loc_command h).
Definition visited result n : Prop := sent_whole result n ∨ sent_after result n.

Record needed_inv pending result : Prop := mk_needed_inv {
  ni_valid r : r ∈ result → valid D st r;
  ni_visited r : r ∈ result → visited result (loc_segment r);
  ni_start r : r ∈ result → r ∈ have ∨ sent_whole result (loc_segment r) ∧ loc_command r = 0;
  ni_nodup : NoDup (map loc_segment result);
  ni_prior n seg q : sent_whole result n → seg_at st n = Some seg → q ∈ prior_list (seg_prior seg) →
    visited result (loc_segment q) ∨ q ∈ pending
}.

Lemma visited_mono result result' n : (∀ r, r ∈ result → r ∈ result') → visited result n → visited result' n.
Proof.
  intros Hsub [[Hin Hno]|(h & Hh & Hn & Hcase)]; [left; split; auto|]. right. exists h. split_and!; [done..|].
  destruct Hcase as [Hin|Hall]; [left; auto|by right].
Qed.

(** A new segment fits. *)
Lemma push_fits pending result l :
  needed_inv pending result → D (loc_segment l) → ¬ (∃ r, r ∈ result ∧ loc_segment r = loc_segment l) →
  push_needed l result = l :: result.
Proof.
  intros [Hv _ _ Hnd _] HD Hnew.
  unfold push_needed. destruct (Nat.eqb_spec (length result) SEGMENT_BUFFER_MAX) as [Hfull|]; [|done]. exfalso.
  assert (length (loc_segment l :: map loc_segment result) ≤ length ns) as Hle.
  { apply submseteq_length, NoDup_submseteq.
    - constructor; [|done]. intros (r & Hr & Hin)%list_elem_of_fmap. apply Hnew. by exists r.
    - intros n [->|(r & -> & Hin)%list_elem_of_fmap]%elem_of_cons; [by apply Hns|]. apply Hns. by destruct (Hv r Hin) as [c [? _]]. }
  simpl in Hle. rewrite length_map in Hle. lia.
Qed.

Lemma valid_first l : valid D st l → valid D st (mkLocation (loc_segment l) 0).
Proof.
  intros Hl. destruct (valid_segment D st Hg l Hl) as (seg & base & len & Hseg & _ & Hsh). pose proof Hl as [c [HD _]].
  eexists. eapply shape_max_cut_at; [done..|]. apply (sh_longest _ _ _ _ _ _ Hsh).
Qed.

(** The three cases of a turn. *)
Lemma inv_skip l pending result :
  needed_inv (l :: pending) result → visited result (loc_segment l) → needed_inv pending result.
Proof.
  intros [Hv Hvis Hst Hnd Hpr] Hl. split; [done..|]. intros n seg q Hn Hseg Hq.
  destruct (Hpr n seg q Hn Hseg Hq) as [|[->|]%elem_of_cons]; auto.
Qed.
Lemma inv_after l h pending result :
  needed_inv (l :: pending) result → h ∈ have → loc_segment h = loc_segment l →
  ¬ (∃ r, r ∈ result ∧ loc_segment r = loc_segment l) → needed_inv pending (h :: result).
Proof.
  intros [Hv Hvis Hst Hnd Hpr] Hh Hseg Hnew. assert (∀ r, r ∈ result → r ∈ h :: result) as Hsub by (intros; by right).
  assert (visited (h :: result) (loc_segment l)) as Hl by (right; exists h; split_and!; [done..|left; by left]). split.
  - intros r [->|Hr]%elem_of_cons; auto.
  - intros r [->|Hr]%elem_of_cons; [by rewrite Hseg|]. eapply visited_mono; [done|auto].
  - intros r [->|Hr]%elem_of_cons; [by left|]. destruct (Hst r Hr) as [|[[Hw Hno] Hc]]; [by left|right]. split; [split; auto|done].
  - simpl. constructor; [|done]. intros (r & Hr & Hin)%list_elem_of_fmap. apply Hnew. exists r. split; [done|congruence].
  - intros n seg q [Hin Hno] Hsg Hq. apply elem_of_cons in Hin as [<-|Hin]; [by destruct (Hno _ Hh)|].
    destruct (Hpr n seg q) as [Hq'|[->|]%elem_of_cons]; [by split|done|done|..]; auto. left. by eapply visited_mono.
Qed.
Lemma inv_whole l seg pending result :
  needed_inv (l :: pending) result → valid D st l → seg_at st (loc_segment l) = Some seg →
  (∀ h, h ∈ have → loc_segment h ≠ loc_segment l) → ¬ (∃ r, r ∈ result ∧ loc_segment r = loc_segment l) →
  needed_inv (pending ++ prior_list (seg_prior seg)) (mkLocation (loc_segment l) 0 :: result).
Proof.
  intros [Hv Hvis Hst Hnd Hpr] Hl Hseg Hno Hnew. set (f := mkLocation (loc_segment l) 0).
  assert (∀ r, r ∈ result → r ∈ f :: result) as Hsub by (intros; by right).
  assert (sent_whole (f :: result) (loc_segment l)) as Hw by (split; [by left|done]). split.
  - intros r [->|Hr]%elem_of_cons; [by apply valid_first|auto].
  - intros r [->|Hr]%elem_of_cons; [by left|]. eapply visited_mono; [done|auto].
  - intros r [->|Hr]%elem_of_cons; [by right|]. destruct (Hst r Hr) as [|[[Hw' Hno'] Hc]]; [by left|right]. split; [split; auto|done].
  - simpl. constructor; [|done]. intros (r & Hr & Hin)%list_elem_of_fmap. apply Hnew. by exists r.
  - intros n sg q [Hin Hno'] Hsg Hq. apply elem_of_cons in Hin as [Hf|Hin].
    + injection Hf as ->. rewrite Hseg in Hsg. injection Hsg as <-. right. apply elem_of_app. by right.
    + destruct (Hpr n sg q) as [Hq'|[->|Hp]%elem_of_cons]; [by split|done|done|..].
      * left. by eapply visited_mono.
      * left. by left.
      * right. apply elem_of_app. by left.
Qed.

(** A level of the search. *)
Lemma needed_level_spec current heads result :
  needed_inv (current ++ heads) result → (∀ q, q ∈ current ++ heads → valid D st q) →
  ∃ heads' result', needed_level st have current heads result = Ok (heads', result')
    ∧ needed_inv heads' result' ∧ (∀ q, q ∈ heads' → valid D st q) ∧ (∀ r, r ∈ result → r ∈ result')
    ∧ (∀ q, q ∈ current → visited result' (loc_segment q))
    ∧ ∀ q, q ∈ heads' → q ∈ heads ∨ ∃ c, c ∈ current ∧ loc_segment q < loc_segment c.
Proof.
  revert heads result. induction current as [|l current IH]; intros heads result Hinv Hval; simpl.
  { exists heads, result. split_and!; [done|done|done|done|by intros q ?%not_elem_of_nil|by left]. }
  assert (valid D st l) as Hl by (apply Hval; by left). pose proof Hl as [cl [HD _]].
  destruct (valid_segment D st Hg l Hl) as (seg & base & len & Hseg & Hget & Hsh). rewrite Hget. cbn [sync_storage map_err mbind outcome_bind].
  (* what the rest of the level does with a new state *)
  assert (∀ heads1 result1, needed_inv (current ++ heads1) result1 → (∀ r, r ∈ result → r ∈ result1) →
    visited result1 (loc_segment l) → (∀ q, q ∈ heads1 → q ∈ heads ∨ q ∈ prior_list (seg_prior seg)) →
    ∃ heads' result', needed_level st have current heads1 result1 = Ok (heads', result')
      ∧ needed_inv heads' result' ∧ (∀ q, q ∈ heads' → valid D st q) ∧ (∀ r, r ∈ result → r ∈ result')
      ∧ (∀ q, q ∈ l :: current → visited result' (loc_segment q))
      ∧ ∀ q, q ∈ heads' → q ∈ heads ∨ ∃ c, c ∈ l :: current ∧ loc_segment q < loc_segment c) as Hrest.
  { intros heads1 result1 Hinv1 Hsub Hvl Hh1. destruct (IH heads1 result1 Hinv1) as (heads' & result' & Hrun & Hinv' & Hv' & Hsub' & Hvis & Hh').
    { intros q [Hq|Hq]%elem_of_app; [apply Hval; right; apply elem_of_app; by left|].
      destruct (Hh1 q Hq) as [Hq'|Hq']; [apply Hval; right; apply elem_of_app; by right|by eapply (prior_valid D st Hg l)]. }
    exists heads', result'. split_and!; try done; [auto| |].
    - intros q [->|Hq]%elem_of_cons; [by eapply visited_mono|auto].
    - intros q Hq. destruct (Hh' q Hq) as [Hq'|(c & Hc & Hlt)]; [|right; exists c; split; [by right|done]].
      destruct (Hh1 q Hq') as [|Hp]; [by left|right]. exists l. split; [by left|]. apply (sh_prior _ _ _ _ _ _ Hsh q Hp). }
  destruct (seg_contains_any seg result) eqn:Eany.
  { apply existsb_exists in Eany as (r & Hr%list_elem_of_In & Hc). apply (sg_contains D st Hs _ _ r HD Hseg) in Hc; [|by eapply ni_valid].
    pose proof (ni_visited _ _ Hinv r Hr) as Hvis. rewrite Hc in Hvis.
    apply Hrest; [by eapply inv_skip|done|done|by left]. }
  assert (¬ ∃ r, r ∈ result ∧ loc_segment r = loc_segment l) as Hnew.
  { intros (r & Hr & Hn). assert (seg_contains_any seg result = true); [|congruence]. apply existsb_exists. exists r.
    split; [by apply list_elem_of_In|]. apply (sg_contains D st Hs _ _ r HD Hseg); [by eapply ni_valid|done]. }
  destruct (List.find (seg_contains seg) have) as [h|] eqn:Ef.
  - apply find_some in Ef as [Hh%list_elem_of_In Hc]. apply (sg_contains D st Hs _ _ h HD Hseg) in Hc; [|by apply Hhave].
    destruct (sg_head D st Hs _ _ HD Hseg) as (c & -> & Hlast). cbn [sync_storage map_err mbind outcome_bind]. case_bool_decide as Hhd.
    + assert (visited result (loc_segment l)) as Hvl by (right; exists h; split_and!; [done..|right; by subst h]).
      apply Hrest; [by eapply inv_skip|done|done|by left].
    + rewrite (push_fits (l :: current ++ heads)) by (try done; by rewrite Hc).
      apply Hrest; [by eapply inv_after|by right| |by left]. right. exists h. split_and!; [done..|left; by left].
  - rewrite (sg_first D st Hs _ _ HD Hseg). rewrite (push_fits (l :: current ++ heads)) by done.
    assert (∀ h, h ∈ have → loc_segment h ≠ loc_segment l) as Hno.
    { intros h Hh Heq. eapply find_none in Ef; [|by apply list_elem_of_In]. 
      apply (sg_contains D st Hs _ _ h HD Hseg) in Heq; [congruence|by apply Hhave]. }
    apply Hrest; [|by right|left; split; [by left|done]|].
    + rewrite app_assoc. by eapply inv_whole.
    + intros q [Hq|Hq]%elem_of_app; [by left|by right].
Qed.

Lemma needed_loop_spec fuel heads result :
  needed_inv heads result → (∀ q, q ∈ heads → valid D st q ∧ loc_segment q < fuel) →
  ∃ result', needed_loop fuel st have heads result = Ok result' ∧ needed_inv [] result'
    ∧ (∀ r, r ∈ result → r ∈ result') ∧ ∀ q, q ∈ heads → visited result' (loc_segment q).
Proof.
  revert heads result. induction fuel as [|fuel IH]; intros heads result Hinv Hv.
  { destruct heads as [|l heads]; [|destruct (Hv l); [by left|lia]]. exists result. split_and!; try done. by intros q ?%not_elem_of_nil. }
  destruct heads as [|l heads]; [exists result; split_and!; try done; by intros q ?%not_elem_of_nil|]. cbn [needed_loop].
  destruct (needed_level_spec (l :: heads) [] result) as (heads' & result' & -> & Hinv' & Hv' & Hsub & Hvis & Hlt).
  { by rewrite app_nil_r. }
  { rewrite app_nil_r. intros q Hq. by apply Hv. }
  cbn [mbind outcome_bind]. destruct (IH heads' result' Hinv') as (result2 & Hrun & Hinv2 & Hsub2 & Hvis2).
  { intros q Hq. split; [auto|]. destruct (Hlt q Hq) as [Hn|(c & Hc & Hqc)]; [by apply not_elem_of_nil in Hn|].
    destruct (Hv c Hc) as [_ ?]. lia. }
  exists result2. split_and!; [done..|auto|]. intros q Hq. eapply visited_mono; [exact Hsub2|auto].
Qed.

(** ** What that means *)
Definition covered result x : Prop :=
  (∃ h, h ∈ have ∧ anc st h x) ∨ ∃ r, r ∈ result ∧ loc_segment r = loc_segment x ∧ loc_command r ≤ loc_command x.

Lemma visited_covered result l x :
  needed_inv [] result → valid D st l → visited result (loc_segment l) → anc st l x → valid D st x → covered result x.
Proof using Hg.
  intros Hinv Hl Hvis Ha Hx. induction Ha as [l x Hn Hc|l x seg q Hseg Hq Hqx IH].
  - destruct Hvis as [[Hin _]|(h & Hh & Hhn & Hcase)].
    + right. exists (mkLocation (loc_segment l) 0). split_and!; [done|done|apply Nat.le_0_l].
    + destruct (decide (loc_command x ≤ loc_command h)) as [|Hgt]; [left; exists h; split; [done|]; apply anc_here; [congruence|done]|].
      destruct Hcase as [Hin|Hall]; [right; exists h; split_and!; [done|congruence|by apply Nat.lt_le_incl, Nat.nle_gt]|].
      exfalso. apply Hgt, Hall. rewrite <- Hn. by destruct x.
  - destruct Hvis as [Hw|(h & Hh & Hhn & _)].
    + destruct (ni_prior _ _ Hinv _ _ _ Hw Hseg Hq) as [Hvq|Hn]; [|by apply not_elem_of_nil in Hn].
      apply IH; [by eapply (prior_valid D st Hg l)|done|done].
    + left. exists h. split; [done|]. eapply anc_prior; [by rewrite Hhn|done|done].
Qed.
End Needed.

(** * The whole search *)

(** What the other side says it has: the ancestors of its commands that are
    found. *)
Section Find.
Context {St Seg : Type} `{Storage St Seg}.
Variables (D : nat → Prop) (st : St) (bound : nat) (search_fuel : St → nat) (head : Location).
Hypothesis Hg : graph_ok D st.
Hypothesis Hbound : ∀ n, D n → n < bound.
Hypothesis Hsearch : 2 ^ bound ≤ search_fuel st.
Hypothesis Hhead : get_head st = Ok head.
Hypothesis Hvalid : valid D st head.
Implicit Types (l x q r : Location) (a : Address) (commands : list Address).

Lemma get_location_found a :
  ∃ found, search (get_location (search_fuel st) st a) = Ok found ∧
    match found with
    | Some l => has_address D st l a ∧ valid D st l
    | None => ∀ x, anc st head x → ¬ has_address D st x a
    end.
Proof.
  unfold get_location, get_location_from. rewrite Hhead.
  assert (queue_weight [head] < search_fuel st) as Hw.
  { unfold queue_weight. simpl. pose proof Hvalid as [c [HD _]].
    pose proof (weight_lt bound head (Hbound _ HD)). pose proof (Nat.pow_nonzero 2 bound). lia. }
  destruct (get_location_loop_spec D st Hg (search_fuel st) a [head]) as (found & E & Hf); [by constructor|done|].
  rewrite E. exists found. split; [done|]. destruct found as [l|]; [|intros x Hx; apply (Hf head x); [by left|done]].
  split; [exact Hf|]. eexists. by eapply has_address_max_cut.
Qed.

(** [peer_has commands x]: one of the commands is [x] or comes after it. *)
Definition peer_has commands x : Prop := ∃ a h, a ∈ commands ∧ has_address D st h a ∧ anc st h x.

Lemma have_locations_spec commands :
  ∃ have, have_locations search_fuel st commands = Ok have ∧ ∀ h, h ∈ have → valid D st h ∧ ∃ a, a ∈ commands ∧ has_address D st h a.
Proof.
  induction commands as [|a commands IH]; simpl; [exists []; split; [done|]; by intros h ?%not_elem_of_nil|].
  destruct (get_location_found a) as (found & -> & Hf). destruct IH as (have & -> & Hh). cbn [sync_storage map_err mbind outcome_bind].
  eexists. split; [done|]. intros h Hin. destruct found as [l|]; [apply elem_of_cons in Hin as [->|Hin]|].
  - split; [apply Hf|]. exists a. split; [by left|apply Hf].
  - destruct (Hh h Hin) as [? (a' & ? & ?)]. split; [done|]. exists a'. split; [by right|done].
  - destruct (Hh h Hin) as [? (a' & ? & ?)]. split; [done|]. exists a'. split; [by right|done].
Qed.

(** Looking up the head of a peer never fails hard, so adding commands to its
    cache does not fail. *)
Lemma is_ancestor_total l seg :
  valid D st l → D (loc_segment l) → (∃ n, D n ∧ seg_at st n = Some seg) →
  ∃ b, search (is_ancestor (search_fuel st) st l seg) = Ok b.
Proof.
  intros Hl HD (n & Hn & Hseg). destruct (is_ancestor_spec D st Hg (search_fuel st) l seg) as (b & -> & _); [done| | |by exists b].
  - destruct (go_shape _ _ Hg n Hn) as (seg' & base & len & Hs' & Hsh). simplify_eq. apply Forall_forall. intros q Hq.
    destruct (sh_prior _ _ _ _ _ _ Hsh q Hq) as (_ & c & Hc & _). by exists c.
  - by eapply (prior_weight D st Hg bound (search_fuel st) Hbound Hsearch).
Qed.
Lemma retain_head_no_panic a l add msg : valid D st l → (retain_head (search_fuel st) st a l add).1 ≠ Panic msg.
Proof.
  intros Hl. unfold retain_head. destruct (valid_segment D st Hg l Hl) as (seg & base & len & Hseg & -> & Hsh).
  pose proof Hl as [cl (HD & seg' & cmd & Hs' & Hcmd & Hmc)]. rewrite Hseg in Hs'. injection Hs' as <-.
  destruct (get_location_found a) as (found & -> & Hf). cbn [mbind outcome_bind]. destruct found as [q|]; [|done].
  destruct Hf as [_ Hq]. destruct (valid_segment D st Hg q Hq) as (segq & baseq & lenq & Hsq & Hgq & Hshq). pose proof Hq as [cq [HDq _]].
  cbn [assume ok_or sbug map_err mbind outcome_bind]. rewrite Hgq. cbn [mbind outcome_bind]. rewrite Hcmd. unfold cmd_address.
  rewrite Hmc. cbn [mbind outcome_bind sbug map_err].
  destruct (is_ancestor_total l segq Hl HD (ex_intro _ _ (conj HDq Hsq))) as [b ->].
  destruct (is_ancestor_total q seg Hq HDq (ex_intro _ _ (conj HD Hseg))) as [b' ->]. done.
Qed.
Lemma pc_add_command_ok a l pc : valid D st l → (pc_add_command (search_fuel st) st a l pc).1 = Ok tt.
Proof.
  intros Hl. unfold pc_add_command.
  assert (∀ heads add, ∃ kept add', retain_heads (search_fuel st) st l heads add = Ok (kept, add')) as Hret.
  { induction heads as [|h heads IH]; intros add; simpl; [by do 2 eexists|].
    pose proof (λ msg, retain_head_no_panic h l add msg Hl) as Hnp. destruct (retain_head _ _ _ _ _) as [[b|e|x] add1]; [..|by destruct (Hnp x)];
      destruct (IH add1) as (kept & add' & ->); cbn [mbind outcome_bind]; by do 2 eexists. }
  by destruct (Hret (pc_heads pc) true) as (kept & add' & ->).
Qed.

(** [find_needed_segments], whose result is sorted. *)
Definition sent (result : list Location) x : Prop :=
  ∃ r, r ∈ result ∧ loc_segment r = loc_segment x ∧ loc_command r ≤ loc_command x.
Definition sent_before (result : list Location) (i : nat) x : Prop :=
  ∃ j r, j < i ∧ result !! j = Some r ∧ loc_segment r = loc_segment x ∧ loc_command r ≤ loc_command x.

Lemma sorted_before (result : list Location) i r j q :
  StronglySorted ord_le result → result !! i = Some r → result !! j = Some q → loc_segment q < loc_segment r → j < i.
Proof.
  intros Hs Hi Hj Hlt. destruct (decide (j < i)) as [|Hge]; [done|]. exfalso.
  destruct (decide (i = j)) as [->|Hne]; [simplify_eq; lia|].
  rewrite <- (take_drop (S i) result) in Hs.
  assert (ord_le r q) as Hle.
  { eapply StronglySorted_app_1_elem_of; [exact Hs|..]; apply list_elem_of_lookup.
    - exists i. by rewrite lookup_take_lt by lia.
    - exists (j - S i). rewrite lookup_drop. by replace (S i + (j - S i)) with j by lia. }
  apply Hle. unfold cmp, location_ord, location_repr, cmp, pair_ord, cmp, nat_ord. simpl.
  by rewrite (proj2 (Nat.compare_gt_iff _ _) Hlt).
Qed.

Lemma find_needed_spec (Hs : segs_ok D st) (ns : list nat) (Hns : ∀ n, D n → n ∈ ns)
    (Hmax : length ns ≤ SEGMENT_BUFFER_MAX) commands :
  ∃ result, find_needed_segments search_fuel st commands = Ok result
    ∧ StronglySorted ord_le result ∧ Forall (valid D st) result ∧ NoDup (map loc_segment result)
    ∧ (∀ x, anc st head x → valid D st x → peer_has commands x ∨ sent result x)
    ∧ ∀ i r, result !! i = Some r →
        (∃ a, a ∈ commands ∧ has_address D st r a)
        ∨ loc_command r = 0 ∧ ∀ seg q, seg_at st (loc_segment r) = Some seg → q ∈ prior_list (seg_prior seg) →
            peer_has commands q ∨ sent_before result i q.
Proof.
  unfold find_needed_segments. destruct (have_locations_spec commands) as (have & -> & Hhave). rewrite Hhead.
  cbn [sync_storage map_err mbind outcome_bind].
  destruct (needed_loop_spec D st have ns Hg Hs (λ h Hh, proj1 (Hhave h Hh)) Hns Hmax (S (loc_segment head)) [head] [])
    as (result & -> & Hinv & _ & Hvis).
  { split; try (by intros ? ?%not_elem_of_nil); [constructor|]. by intros n seg q [?%not_elem_of_nil _]. }
  { intros q ->%list_elem_of_singleton. split; [done|lia]. }
  cbn [mbind outcome_bind]. pose proof (vec_sort_perm result) as Hperm. pose proof (vec_sort_sorted result) as Hsort.
  assert (∀ x, covered st have result x → peer_has commands x ∨ sent (vec_sort result) x) as Hcov.
  { intros x [(h & Hh & Ha)|(r & Hr & ?)]; [left|right; exists r; split; [by rewrite Hperm|done]].
    destruct (Hhave h Hh) as [_ (a & ? & ?)]. by exists a, h. }
  eexists. split_and!; [done|done|..].
  - rewrite Hperm. apply Forall_forall, (ni_valid _ _ _ _ _ Hinv).
  - rewrite Hperm. apply Hinv.
  - intros x Ha Hx. apply Hcov. eapply visited_covered; [exact Hg|exact Hinv|exact Hvalid|apply Hvis; by left|done|done].
  - intros i r Hi. assert (r ∈ result) as Hr by (rewrite <- Hperm; by eapply list_elem_of_lookup_2).
    destruct (ni_start _ _ _ _ _ Hinv r Hr) as [Hh|[Hw Hc]]; [left; apply (Hhave r Hh)|right]. split; [done|].
    intros seg q Hseg Hq. pose proof (ni_valid _ _ _ _ _ Hinv r Hr) as Hrv.
    assert (valid D st q) as Hqv by (by eapply (prior_valid D st Hg r)).
    destruct (ni_prior _ _ _ _ _ Hinv _ _ _ Hw Hseg Hq) as [Hvq|Hn]; [|by apply not_elem_of_nil in Hn].
    destruct (Hcov q) as [|(p & Hp & Hpq & ?)]; [|by left|].
    { eapply visited_covered; [exact Hg|exact Hinv|exact Hqv|exact Hvq|apply anc_refl|done]. }
    right. apply list_elem_of_lookup in Hp as [j Hj]. exists j, p. split_and!; [|done..].
    eapply sorted_before; [exact Hsort|exact Hi|exact Hj|]. rewrite Hpq.
    destruct (valid_segment D st Hg r Hrv) as (seg' & base & len & Hs' & _ & Hsh). simplify_eq.
    apply (sh_prior _ _ _ _ _ _ Hsh q Hq).
Qed.
End Find.

(** * The commands sent, in order *)
Section Order.
Context {St Seg : Type} `{Storage St Seg}.
Variables (D : nat → Prop) (st : St).
Hypothesis Hg : graph_ok D st.
Hypothesis Hs : segs_ok D st.
Implicit Types (l x q r : Location) (result locs : list Location).

(** The locations from [r] to the end of its segment, with their commands. *)
Definition block r (cmds : list Command) : list Location :=
  imap (λ i _, mkLocation (loc_segment r) (loc_command r + i)) cmds.
Definition sent_locations result (blocks : list (list Command)) : list Location := concat (zip_with block result blocks).
Definition holds l (c : Command) : Prop := ∃ seg, seg_at st (loc_segment l) = Some seg ∧ seg_get_command seg l = Some c.
Definition from_at r (cmds : list Command) : Prop :=
  ∃ seg, get_segment st r = Ok seg ∧ seg_at st (loc_segment r) = Some seg ∧ seg_get_from seg r = Ok cmds
    ∧ ∀ i, cmds !! i = seg_get_command seg (mkLocation (loc_segment r) (loc_command r + i)).

Lemma from_at_valid r : valid D st r → ∃ cmds, from_at r cmds.
Proof.
  intros Hr. destruct (valid_segment D st Hg r Hr) as (seg & base & len & Hseg & Hget & _). pose proof Hr as [c [HD _]].
  destruct (sg_from D st Hs (loc_segment r) seg (loc_command r) HD Hseg) as (cmds & Hf & Hi); [by destruct r|].
  exists cmds, seg. split_and!; [done..| |done]. by destruct r.
Qed.
Lemma from_at_all result : Forall (valid D st) result → ∃ blocks, Forall2 from_at result blocks.
Proof.
  induction 1 as [|r result Hr _ [blocks IH]]; [by exists []|]. destruct (from_at_valid r Hr) as [cmds Hc].
  exists (cmds :: blocks). by constructor.
Qed.

Lemma block_lookup r cmds i l : block r cmds !! i = Some l ↔ i < length cmds ∧ l = mkLocation (loc_segment r) (loc_command r + i).
Proof.
  unfold block. rewrite list_lookup_imap. split.
  - intros (c & Hi & ->)%fmap_Some. split; [by eapply lookup_lt_Some|done].
  - intros [[c Hc]%lookup_lt_is_Some ->]. by rewrite Hc.
Qed.
Lemma block_holds r cmds : from_at r cmds → Forall2 holds (block r cmds) cmds.
Proof.
  intros (seg & _ & Hseg & _ & Hi). apply Forall2_same_length_lookup_2; [unfold block; by rewrite length_imap|].
  intros i l c [_ ->]%block_lookup Hc. exists seg. split; [done|]. by rewrite <- Hi.
Qed.
Lemma sent_holds result blocks : Forall2 from_at result blocks → Forall2 holds (sent_locations result blocks) (concat blocks).
Proof. induction 1; [constructor|]. unfold sent_locations. simpl. apply Forall2_app; [by apply block_holds|done]. Qed.

(** Every command of the segments sent is there. *)
Lemma sent_elem result blocks x :
  Forall2 from_at result blocks → valid D st x → sent result x → x ∈ sent_locations result blocks.
Proof.
  intros Hb Hx (r & Hr & Hseg & Hle). induction Hb as [|r' cmds result blocks Hc Hb IH]; [by apply not_elem_of_nil in Hr|].
  unfold sent_locations. simpl. apply elem_of_app. apply elem_of_cons in Hr as [<-|Hr]; [left|right; auto].
  apply list_elem_of_lookup. exists (loc_command x - loc_command r). apply block_lookup.
  assert (x = mkLocation (loc_segment r) (loc_command r + (loc_command x - loc_command r))) as Heq.
  { destruct x as [xs xc]. simpl in *. subst xs. f_equal. lia. }
  split; [|done]. destruct Hc as (seg & _ & Hsg & _ & Hi). apply lookup_lt_is_Some. rewrite Hi, <- Heq.
  destruct Hx as (c & _ & seg' & cmd & Hs' & Hcmd & _). rewrite <- Hseg, Hsg in Hs'. injection Hs' as <-. by exists cmd.
Qed.

(** Parents come first. *)
Definition ready (known : Location → Prop) locs : Prop :=
  ∀ i l seg q, locs !! i = Some l → seg_at st (loc_segment l) = Some seg → q ∈ prior_list (back seg l) →
    known l ∨ known q ∨ ∃ j, j < i ∧ locs !! j = Some q.

Lemma sent_ready (known : Location → Prop) result blocks :
  Forall2 from_at result blocks → Forall (valid D st) result →
  (∀ i r, result !! i = Some r → known r ∨ loc_command r = 0 ∧ ∀ seg q,
     seg_at st (loc_segment r) = Some seg → q ∈ prior_list (seg_prior seg) → known q ∨ sent_before result i q) →
  ready known (sent_locations result blocks).
Proof.
  intros Hb Hv Hfirst i l seg q Hi Hseg Hq.
  assert (∃ pre r post bpre cmds bpost k, result = pre ++ r :: post ∧ blocks = bpre ++ cmds :: bpost ∧ Forall2 from_at pre bpre
    ∧ from_at r cmds ∧ block r cmds !! k = Some l ∧ i = length (sent_locations pre bpre) + k) as
    (pre & r & post & bpre & cmds & bpost & k & -> & -> & Hpre & Hr & Hk & ->).
  { clear Hfirst Hv. revert i Hi. induction Hb as [|r cmds result blocks Hc Hb IH]; intros i; [done|].
    unfold sent_locations. simpl. intros [Hin|[Hge Hin]]%lookup_app_Some.
    - exists [], r, result, [], cmds, blocks, i. split_and!; [done|done|constructor|done|done|done].
    - destruct (IH _ Hin) as (pre & r' & post & bpre & cmds' & bpost & k & -> & -> & Hpre & Hr' & Hk & Heq).
      exists (r :: pre), r', post, (cmds :: bpre), cmds', bpost, k. split_and!; try done; [by constructor|].
      unfold sent_locations in *. simpl. rewrite length_app. lia. }
  pose proof (Forall2_length _ _ _ Hpre) as Hlen.
  assert (sent_locations (pre ++ r :: post) (bpre ++ cmds :: bpost)
    = sent_locations pre bpre ++ block r cmds ++ sent_locations post bpost) as Hsplit.
  { unfold sent_locations. rewrite zip_with_app by done. simpl. by rewrite concat_app. }
  rewrite Hsplit. apply block_lookup in Hk as [Hlt ->]. unfold back, loc_previous in Hq. cbn [loc_segment loc_command] in *.
  destruct (checked_sub (loc_command r + k) 1) as [prev|] eqn:Eprev.
  - apply list_elem_of_singleton in Hq as ->. apply checked_sub_Some in Eprev as [Hpos ->]. destruct k as [|k].
    + left. destruct (Hfirst (length pre) r) as [Hkn|[? _]]; [by apply list_lookup_middle| |lia].
      replace (mkLocation (loc_segment r) (loc_command r + 0)) with r by (destruct r; simpl; f_equal; lia). done.
    + do 2 right. exists (length (sent_locations pre bpre) + k). split; [lia|]. rewrite lookup_app_r by lia.
      replace (length (sent_locations pre bpre) + k - length (sent_locations pre bpre)) with k by lia.
      rewrite lookup_app_l by (unfold block; rewrite length_imap; lia). apply block_lookup. split; [lia|]. f_equal. lia.
  - assert (k = 0 ∧ loc_command r = 0) as [-> Hz].
    { destruct (decide (1 ≤ loc_command r + k)) as [Hle|]; [|lia]. by rewrite (proj2 (checked_sub_Some _ _ _) (conj Hle eq_refl)) in Eprev. }
    destruct (Hfirst (length pre) r) as [Hkn|[_ Hpr]]; [by apply list_lookup_middle|left|right].
    { replace (mkLocation (loc_segment r) (loc_command r + 0)) with r by (destruct r; simpl; f_equal; lia). done. }
    destruct (Hpr seg q Hseg Hq) as [Hkn|(j & p & Hj & Hp & Hsame & Hle)]; [by left|right].
    assert (q ∈ sent_locations pre bpre) as [j' Hj']%list_elem_of_lookup.
    { apply sent_elem; [done| |].
      - apply (prior_valid D st Hg r seg q); [|done|done]. apply (proj1 (Forall_forall _ _) Hv). apply elem_of_app. right. by left.
      - exists p. split_and!; [|done..]. rewrite lookup_app_l in Hp by done. by eapply list_elem_of_lookup_2. }
    exists j'. pose proof (lookup_lt_Some _ _ _ Hj'). split; [lia|]. by apply lookup_app_l_Some.
Qed.
End Order.

(** The bytes of a sync response: what the responder encodes, the requester
    decodes. *)

(** * Commands and their bytes *)

(** The bytes of a command in the message. *)
Definition wire_data (c : Command) : list u8 := default [] (cmd_policy c) ++ cmd_bytes c.
(** A policy without bytes cannot be told from none. *)
Definition wire_policy (p : option (list u8)) : option (list u8) := match p with Some [] => None | _ => p end.
Definition received (c : Command) (s : SyncCommand) : Prop :=
  sync_command s = mkCommand (cmd_priority c) (cmd_id c) (cmd_parent c) (wire_policy (cmd_policy c)) (cmd_bytes c) (cmd_max_cut c).
(** No longer than [MAX_COMMAND_LENGTH]. *)
Definition sendable (c : Command) : Prop := is_ok (cmd_max_cut c) = true ∧ length (wire_data c) ≤ Z.to_nat 2048.
Definition wire (cs : list Command) : list u8 := concat (map wire_data cs).
Definition metas_of : list Command → list CommandMeta → Prop := Forall2 (λ c m, command_meta c = Ok m).

Lemma wire_app cs cs' : wire (cs ++ cs') = wire cs ++ wire cs'.
Proof. unfold wire. by rewrite map_app, concat_app. Qed.
Lemma wire_length cs : Forall sendable cs → (Z.of_nat (length (wire cs)) ≤ 2048 * Z.of_nat (length cs))%Z.
Proof.
  induction 1 as [|c cs [_ Hc] Hcs IH]; [done|]. unfold wire in *. simpl in *. rewrite length_app. lia.
Qed.
Lemma as_u32_small n : n ≤ Z.to_nat 2048 → as_u32 n = Z.of_nat n.
Proof. intros Hn. unfold as_u32. apply Z.mod_small. lia. Qed.
Lemma sendable_meta c : sendable c → ∃ mc, cmd_max_cut c = Ok mc ∧
  command_meta c = Ok (mkCommandMeta (cmd_id c) (cmd_priority c) (cmd_parent c)
    (Z.of_nat (length (default [] (cmd_policy c)))) (Z.of_nat (length (cmd_bytes c))) mc).
Proof.
  intros [Hmc Hlen]. unfold wire_data in Hlen. rewrite length_app in Hlen. unfold command_meta.
  destruct (cmd_max_cut c) as [mc|e|x] eqn:E; [|done..]. exists mc. split; [done|]. cbn [sync_bug map_err mbind outcome_bind].
  do 2 f_equal; [|apply as_u32_small; lia]. destruct (cmd_policy c); simpl in *; apply as_u32_small; lia.
Qed.

(** * Encoding *)
Lemma extend_data_fits bytes data :
  (Z.of_nat (length data + length bytes) ≤ MAX_SYNC_MESSAGE_SIZE)%Z → extend_data bytes data = Ok (data ++ bytes).
Proof. intros Hl. unfold extend_data. by rewrite (proj2 (Z.leb_le _ _) Hl). Qed.

Lemma push_commands_spec found commands data :
  Forall sendable found → length commands < COMMAND_RESPONSE_MAX → (Z.of_nat (length data) ≤ 2048 * Z.of_nat (length commands))%Z →
  let cs := take (COMMAND_RESPONSE_MAX - length commands) found in
  ∃ metas, push_commands found commands data = Ok (commands ++ metas, data ++ wire cs) ∧ metas_of cs metas.
Proof.
  revert commands data. induction found as [|c found IH]; intros commands data Hs Hc Hd.
  { exists []. simpl. rewrite take_nil. unfold wire. simpl. rewrite !app_nil_r. by split; [|constructor]. }
  apply Forall_cons in Hs as [Hsc Hs]. destruct (sendable_meta c Hsc) as (mc & _ & Hmeta).
  assert (∃ k, COMMAND_RESPONSE_MAX - length commands = S k) as [k Hk] by (exists (COMMAND_RESPONSE_MAX - length commands - 1); lia).
  pose proof Hsc as [_ Hlen]. unfold wire_data in Hlen. rewrite length_app in Hlen.
  assert (match cmd_policy c with Some policy => extend_data policy data | None => Ok data end = Ok (data ++ default [] (cmd_policy c))) as Hpol.
  { destruct (cmd_policy c) as [p|]; simpl in *; [|by rewrite app_nil_r].
    apply extend_data_fits. unfold MAX_SYNC_MESSAGE_SIZE, COMMAND_RESPONSE_MAX in *. lia. }
  cbn zeta. rewrite Hk. cbn [push_commands take]. rewrite Hpol. cbn [mbind outcome_bind].
  rewrite extend_data_fits by (rewrite length_app; unfold MAX_SYNC_MESSAGE_SIZE, COMMAND_RESPONSE_MAX in *; lia).
  rewrite Hmeta. cbn [mbind outcome_bind]. rewrite (proj2 (Nat.eqb_neq _ _)) by lia.
  set (meta := mkCommandMeta _ _ _ _ _ _) in *. unfold vec_push.
  assert (length (commands ++ [meta]) = S (length commands)) as Hl by (rewrite length_app; simpl; lia). rewrite Hl.
  destruct (Nat.eqb_spec (S (length commands)) COMMAND_RESPONSE_MAX) as [Hfull|Hnot].
  - assert (k = 0) as -> by lia. exists [meta]. unfold wire, wire_data. simpl. rewrite app_nil_r, <- !app_assoc. split; [done|].
    by repeat constructor.
  - destruct (IH (commands ++ [meta]) ((data ++ default [] (cmd_policy c)) ++ cmd_bytes c)) as (metas & -> & Hm);
      [done|lia|rewrite !length_app; simpl; lia|]. rewrite Hl in Hm |- *.
    replace (COMMAND_RESPONSE_MAX - S (length commands)) with k in Hm |- * by lia. exists (meta :: metas).
    change (wire (c :: take k found)) with (wire_data c ++ wire (take k found)). unfold wire_data.
    rewrite <- !app_assoc. split; [done|by constructor].
Qed.

Section Wire.
Context {St Seg : Type} `{Storage St Seg}.
Variable (st : St).

(** The commands from a location on. *)
Definition block_at (l : Location) (cmds : list Command) : Prop :=
  ∃ seg, get_segment st l = Ok seg ∧ seg_get_from seg l = Ok cmds.

Lemma push_segments_spec to_send blocks commands data index :
  Forall2 block_at to_send blocks → Forall sendable (concat blocks) → length commands ≤ COMMAND_RESPONSE_MAX →
  (Z.of_nat (length data) ≤ 2048 * Z.of_nat (length commands))%Z → (Z.of_nat (index + length to_send) < pow64)%Z →
  let cs := take (COMMAND_RESPONSE_MAX - length commands) (concat blocks) in
  ∃ metas index', push_segments st to_send commands data index = (Ok (commands ++ metas, data ++ wire cs, index'), false)
    ∧ metas_of cs metas.
Proof.
  intros Hb. revert commands data index. induction Hb as [|l cmds to_send blocks (seg & Hseg & Hfrom) Hb IH]; intros commands data index Hs Hc Hd Hi.
  { exists [], index. simpl. rewrite take_nil. unfold wire. simpl. rewrite !app_nil_r. by split; [|constructor]. }
  simpl in Hs. apply Forall_app in Hs as [Hs1 Hs2]. cbn [push_segments concat length] in *.
  destruct (Nat.eqb_spec (length commands) COMMAND_RESPONSE_MAX) as [Hfull|Hnot].
  { exists [], index. rewrite Hfull, Nat.sub_diag. simpl. unfold wire. simpl. rewrite !app_nil_r. by split; [|constructor]. }
  assert (checked_add index 1 = Some (index + 1)) as -> by (apply checked_add_Some; lia).
  cbn [assume ok_or sync_bug map_err]. rewrite Hseg, Hfrom. cbn [sync_storage map_err mbind outcome_bind].
  destruct (push_commands_spec cmds commands data) as (metas & -> & Hm); [done|lia|done|]. set (n := COMMAND_RESPONSE_MAX - length commands) in *.
  pose proof (Forall2_length _ _ _ Hm) as Hlm. rewrite length_take in Hlm.
  assert (Forall sendable (take n cmds)) as Hst by (by apply Forall_take). pose proof (wire_length _ Hst) as Hw. rewrite length_take in Hw.
  destruct (IH (commands ++ metas) (data ++ wire (take n cmds)) (index + 1)) as (metas' & index' & -> & Hm');
    [done|rewrite length_app; lia|rewrite !length_app; lia|lia|].
  exists (metas ++ metas'), index'. rewrite !app_assoc.
  assert (take n (cmds ++ concat blocks) = take n cmds ++ take (COMMAND_RESPONSE_MAX - length (commands ++ metas)) (concat blocks)) as ->.
  { rewrite take_app. f_equal. rewrite length_app. f_equal. lia. }
  rewrite wire_app, <- !app_assoc. split; [done|]. by apply Forall2_app.
Qed.
End Wire.

(** * Decoding *)
Lemma slice_app pre mid post : slice (pre ++ mid ++ post) (length pre) (length pre + length mid) = Ok mid.
Proof.
  unfold slice. rewrite (proj2 (Nat.leb_le _ _)) by lia. rewrite (proj2 (Nat.leb_le _ _)) by (rewrite !length_app; lia). simpl.
  replace (length pre + length mid - length pre) with (length mid) by lia. by rewrite drop_app_length, take_app_length.
Qed.

Lemma parse_commands_spec cs metas pre post result :
  metas_of cs metas → Forall sendable cs → length result + length cs ≤ COMMAND_SAMPLE_MAX →
  (Z.of_nat (length (pre ++ wire cs)) < pow64)%Z →
  ∃ scs, parse_commands (pre ++ wire cs ++ post) metas (length pre) result = Ok (result ++ scs) ∧ Forall2 received cs scs.
Proof.
  intros Hm. revert pre result. induction Hm as [|c m cs metas Hc Hm IH]; intros pre result Hs Hr Hl.
  { exists []. rewrite app_nil_r. by split; [|constructor]. }
  apply Forall_cons in Hs as [Hsc Hs]. destruct (sendable_meta c Hsc) as (mc & Hmc & Hmeta). rewrite Hc in Hmeta. injection Hmeta as ->.
  change (wire (c :: cs)) with (wire_data c ++ wire cs) in *. unfold wire_data in *.
  set (pol := default [] (cmd_policy c)) in *. rewrite !length_app in Hl. simpl in Hr.
  cbn [parse_commands cm_policy_length cm_length cm_priority cm_id cm_parent cm_max_cut]. rewrite !Nat2Z.id.
  assert (((if length pol =? 0 then Ok (None, length pre) else
      end_ ← sync_bug (assume (checked_add (length pre) (length pol)) "start + policy_len mustn't overflow");
      policy ← slice (pre ++ ((pol ++ cmd_bytes c) ++ wire cs) ++ post) (length pre) end_;
      Ok (Some policy, end_)) : outcome SyncError (option (list u8) * nat)) = Ok (wire_policy (cmd_policy c), length (pre ++ pol))) as ->.
  { destruct (Nat.eqb_spec (length pol) 0) as [Hz|Hnz].
    - apply length_zero_iff_nil in Hz. rewrite Hz, app_nil_r. unfold pol in Hz. by destruct (cmd_policy c) as [p|]; simpl in Hz; [subst p|].
    - assert (checked_add (length pre) (length pol) = Some (length pre + length pol)) as -> by (apply checked_add_Some; lia).
      cbn [assume ok_or sync_bug map_err mbind outcome_bind]. rewrite <- !app_assoc, slice_app. cbn [mbind outcome_bind].
      rewrite length_app. unfold pol in *. destruct (cmd_policy c) as [[|b p]|]; simpl in *; done. }
  cbn [mbind outcome_bind].
  assert (checked_add (length (pre ++ pol)) (length (cmd_bytes c)) = Some (length (pre ++ pol) + length (cmd_bytes c))) as ->
    by (apply checked_add_Some; rewrite length_app in *; lia).
  cbn [assume ok_or sync_bug map_err mbind outcome_bind].
  replace (pre ++ ((pol ++ cmd_bytes c) ++ wire cs) ++ post) with ((pre ++ pol) ++ cmd_bytes c ++ (wire cs ++ post)) by (by rewrite <- !app_assoc).
  rewrite slice_app. cbn [mbind outcome_bind]. rewrite (proj2 (Nat.eqb_neq _ _)) by lia. unfold vec_push. set (sc := mkSyncCommand _ _ _ _ _ _).
  rewrite <- length_app, app_assoc.
  destruct (IH ((pre ++ pol) ++ cmd_bytes c) (result ++ [sc])) as (scs & -> & Hrec); [done|rewrite length_app; simpl; lia|rewrite !length_app; lia|].
  exists (sc :: scs). rewrite <- app_assoc. split; [done|]. constructor; [|done]. unfold received, sync_command, sc. simpl. by rewrite Hmc.
Qed.
