(* ===== verification/SyncTheorems.v ===== *)
(** The sync protocol: what a request is answered with, and what the requester
    makes of the answer. *)
From stdpp Require Import countable.
From S2P Require Import Prelude Collections RuntimeTypes FactStore MemFacts Graph MemStorage MemStorageFacts.
From S2P Require Import MemTheorems Client BraidProofs SearchSound RuntimeOps StorageLaws StorageInstances MemLaws.
From S2P Require Import LinearFacts LinearStorage LinearStorageProofs LinearLaws Transaction Sync SyncProofs.
Local Open Scope string_scope.
Local Open Scope list_scope.
Local Open Scope nat_scope.

(** * The segments of the two storages *)
Lemma mem_segs_ok strict D (st : MemStorage) : mem_sl_inv strict D st → segs_ok D st.
Proof.
  intros Hi. pose proof Hi as ((Hok & _) & HD & _).
  assert (∀ n seg, seg_at st n = Some seg → ms_index seg = n) as Hidx.
  { intros n seg Hs. rewrite seg_at_mem in Hs. apply (Hok n seg Hs). }
  assert (∀ n seg k, seg_at st n = Some seg → valid D st (mkLocation n k) → k < v1_len (ms_commands seg)) as Hlen.
  { intros n seg k Hs (c & _ & seg' & cmd & Hs' & Hcmd & _). simpl in Hs'. rewrite Hs in Hs'. injection Hs' as <-.
    simpl in Hcmd. unfold ms_get_command, ms_get_mem_command in Hcmd. rewrite (Hidx _ _ Hs) in Hcmd. simpl in Hcmd.
    rewrite Nat.eqb_refl in Hcmd. simpl in Hcmd. destruct (v1_list (ms_commands seg) !! k) eqn:E; [|done].
    apply lookup_lt_Some in E. done. }
  split.
  - intros n seg l Hn Hs Hl. simpl. unfold ms_contains. rewrite (Hidx _ _ Hs). apply Nat.eqb_eq.
  - intros n seg Hn Hs. simpl. unfold ms_first_location. by rewrite (Hidx _ _ Hs).
  - intros n seg Hn Hs. simpl. rewrite ms_head_location_eq, (Hidx _ _ Hs). eexists. split; [done|].
    intros k Hk. pose proof (Hlen _ _ _ Hs Hk). lia.
  - intros n seg k Hn Hs Hk. simpl. unfold ms_get_from. rewrite (Hidx _ _ Hs). simpl. rewrite Nat.eqb_refl. simpl.
    pose proof (Hlen _ _ _ Hs Hk). rewrite (proj2 (Nat.leb_le _ _)) by lia. eexists. split; [done|]. intros i.
    unfold ms_get_command, ms_get_mem_command. rewrite (Hidx _ _ Hs). cbn [loc_segment loc_command]. rewrite Nat.eqb_refl. cbn [negb].
    rewrite <- lookup_drop. generalize (drop k (v1_list (ms_commands seg))). intros ds. rewrite list_lookup_fmap. by destruct (ds !! i).
Qed.

Section Linear.
Context {W : Type} `{FactIoLaws W} `{!SegIo W} `{!SegIoLaws W}.

Lemma collect_commands_spec (f : nat → option Command) k n :
  (∀ i, i < n → is_Some (f (k + i))) → (∀ i, n ≤ i → f (k + i) = None) →
  ∃ cmds, collect_commands (map f (seq k n)) = Ok cmds ∧ ∀ i, cmds !! i = f (k + i).
Proof.
  revert k. induction n as [|n IH]; intros k Hs Hn; simpl.
  { exists []. split; [done|]. intros i. rewrite Hn by lia. done. }
  destruct (Hs 0) as [c Hc]; [lia|]. rewrite Nat.add_0_r in Hc. rewrite Hc.
  destruct (IH (S k)) as (cmds & -> & Hi).
  - intros i Hlt. replace (S k + i) with (k + S i) by lia. apply Hs. lia.
  - intros i Hle. replace (S k + i) with (k + S i) by lia. apply Hn. lia.
  - exists (c :: cmds). split; [done|]. intros [|i]; simpl; [by rewrite Nat.add_0_r|]. rewrite Hi. f_equal. lia.
Qed.

Lemma lin_segs_ok strict D (w : W) : lin_inv (strict := strict) D w → segs_ok D w.
Proof.
  intros Hinv.
  assert (∀ n seg, D n → seg_at w n = Some seg → ∃ r, seg = mkLinearSegment r w ∧ lin_seg_ok D w n r) as Hseg.
  { intros n seg HD Hs. destruct (inv_seg _ _ Hinv n HD) as [r Hr]. exists r. split; [|done].
    rewrite seg_at_lin, (lso_fetch _ _ _ _ Hr) in Hs. by injection Hs as <-. }
  assert (∀ n r k, lin_seg_ok D w n r → valid D w (mkLocation n k) → k < v1_len (sr_commands r)) as Hlen.
  { intros n r k Hr (c & HD & seg & cmd & Hs & Hcmd & _). destruct (Hseg n seg HD Hs) as (r' & -> & Hr').
    assert (r' = r) as -> by (pose proof (lso_fetch _ _ _ _ Hr); pose proof (lso_fetch _ _ _ _ Hr'); congruence).
    apply (sh_command _ _ _ _ _ _ (lso_shape _ _ _ _ Hr)). by exists cmd. }
  split.
  - intros n seg l HD Hs Hl. destruct (Hseg n seg HD Hs) as (r & -> & Hr). simpl. unfold lseg_contains. cbn [lseg_repr].
    rewrite (lso_offset _ _ _ _ Hr), andb_true_iff, Nat.eqb_eq, Nat.ltb_lt. split; [by intros [? _]|]. intros <-. split; [done|].
    apply (Hlen _ _ _ Hr). by destruct l.
  - intros n seg HD Hs. destruct (Hseg n seg HD Hs) as (r & -> & Hr). simpl. unfold lseg_first_location. cbn [lseg_repr].
    by rewrite (lso_offset _ _ _ _ Hr).
  - intros n seg HD Hs. destruct (lin_sl_head_location strict D w n seg Hinv HD Hs) as (c & ? & _ & ? & _). by exists c.
  - intros n seg k HD Hs Hk. destruct (Hseg n seg HD Hs) as (r & -> & Hr). simpl. unfold lseg_get_from. cbn [lseg_repr loc_segment loc_command].
    rewrite (lso_offset _ _ _ _ Hr), Nat.eqb_refl. cbn [negb]. pose proof (Hlen _ _ _ Hr Hk) as Hlt.
    apply (collect_commands_spec (λ c, lseg_get_command (mkLinearSegment r w) (mkLocation n c))).
    + intros i Hi. apply (sh_command _ _ _ _ _ _ (lso_shape _ _ _ _ Hr)). lia.
    + intros i Hi. destruct (lseg_get_command _ _) as [cmd|] eqn:E; [|done]. exfalso.
      assert (k + i < v1_len (sr_commands r)); [|lia]. apply (sh_command _ _ _ _ _ _ (lso_shape _ _ _ _ Hr)). by exists cmd.
Qed.
End Linear.

(** * A round of the protocol *)

(** What postcard documents: [to_slice] writes the encoding of a message when
    it fits, and [take_from_bytes] reads a message from the front of a slice
    and returns the rest. *)
Class PostcardLaws (A : Type) `{!Postcard A} := {
  response_bytes : SyncResponseMessage → list u8;
  to_slice_fits m len : response_to_slice m len = if length (response_bytes m) <=? len then Some (response_bytes m) else None;
  take_to_slice m rest : take_response (response_bytes m ++ rest) = Some (m, rest)
}.

(** The graph of a responder: well formed, with a head, no more segments than
    the buffer holds, and commands that fit in messages. [bound] limits the
    indices of segments, and so the fuel of searches. *)
Record responder_graph {St Seg} `{Storage St Seg} (D : nat → Prop) (st : St) (head : Location) (bound fuel : nat) : Prop :=
  mk_responder_graph {
  rg_graph : graph_ok D st;
  rg_segs : segs_ok D st;
  rg_bound n : D n → n < bound;
  rg_fuel : 2 ^ bound ≤ fuel;
  rg_head : get_head st = Ok head;
  rg_valid : valid D st head;
  rg_few : ∃ ns, length ns ≤ SEGMENT_BUFFER_MAX ∧ ∀ n, D n → n ∈ ns;
  rg_sendable l c : D (loc_segment l) → holds st l c → sendable c
}.

Section Round.
Context {St Seg P Pr A : Type} `{Storage St Seg} `{QueryMut P} `{!PerspectiveOps P} `{!ProviderOps Pr St P}.
Context `{PostcardLaws A}.
Variables (D : nat → Prop) (st : St) (head : Location) (bound : nat) (search_fuel : St → nat).
Hypothesis Hr : responder_graph D st head bound (search_fuel st).

Lemma cache_commands_ok commands (s : RespEnv (Pr := Pr) (A := A)) :
  ∃ pc, cache_commands search_fuel st commands s = (Ok tt, mkRespEnv (re_responder s) (re_provider s) pc).
Proof.
  destruct Hr as [Hg _ Hb Hf Hh Hv _ _]. revert s. induction commands as [|a commands IH]; intros s; simpl.
  { exists (re_cache s). by destruct s. }
  destruct (get_location_found D st bound search_fuel head Hg Hb Hf Hh Hv a) as (found & -> & Hfound).
  cbn [sync_storage map_err]. destruct found as [l|]; [|apply IH].
  pose proof (pc_add_command_ok D st bound search_fuel head Hg Hb Hf Hh Hv a l (re_cache s) (proj2 Hfound)) as Hok.
  destruct (pc_add_command _ _ _ _ _) as [res pc]. simpl in Hok. subst res. apply (IH (mkRespEnv _ _ pc)).
Qed.

(** What there is to send, and its encoding. *)
Lemma needed_response commands :
  ∃ to_send blocks metas index,
    find_needed_segments search_fuel st commands = Ok to_send
    ∧ push_segments st to_send [] [] 0 = (Ok (metas, wire (take COMMAND_RESPONSE_MAX (concat blocks)), index), false)
    ∧ metas_of (take COMMAND_RESPONSE_MAX (concat blocks)) metas
    ∧ Forall sendable (concat blocks)
    ∧ Forall2 (holds st) (sent_locations to_send blocks) (concat blocks)
    ∧ (to_send = [] → sent_locations to_send blocks = [])
    ∧ (∀ x, anc st head x → valid D st x → peer_has D st commands x ∨ x ∈ sent_locations to_send blocks)
    ∧ ready st (peer_has D st commands) (sent_locations to_send blocks).
Proof.
  destruct Hr as [Hg Hs Hb Hf Hh Hv (ns & Hmax & Hns) Hsend].
  destruct (find_needed_spec D st bound search_fuel head Hg Hb Hf Hh Hv Hs ns Hns Hmax commands)
    as (to_send & Hfind & _ & Hval & Hnd & Hcov & Hfirst).
  destruct (from_at_all D st Hg Hs to_send Hval) as [blocks Hblocks].
  assert (Forall sendable (concat blocks)) as Hall.
  { clear - Hblocks Hval Hsend. induction Hblocks as [|r cmds to_send blocks Hc _ IH]; [constructor|]. simpl.
    apply Forall_cons in Hval as [[c [HD _]] Hval]. apply Forall_app. split; [|by apply IH].
    pose proof (block_holds st r cmds Hc) as Hh. apply Forall_forall. intros cmd [i Hi]%list_elem_of_lookup.
    destruct (Forall2_lookup_r _ _ _ _ _ Hh Hi) as (l & [_ ->]%block_lookup & Hl). by eapply Hsend; [|exact Hl]. }
  assert (length to_send ≤ SEGMENT_BUFFER_MAX) as Hlen.
  { etrans; [|exact Hmax]. rewrite <- (length_map loc_segment). apply submseteq_length, NoDup_submseteq; [done|].
    intros n (r & -> & Hin)%list_elem_of_fmap. apply Hns. apply (proj1 (Forall_forall _ _) Hval) in Hin as [c [? _]]. done. }
  destruct (push_segments_spec st to_send blocks [] [] 0) as (metas & index & Hpush & Hm); [|done|simpl; lia|done|unfold SEGMENT_BUFFER_MAX, pow64 in *; lia|].
  { eapply Forall2_impl; [exact Hblocks|]. intros r cmds (seg & ? & _ & ? & _). by exists seg. }
  exists to_send, blocks, metas, index. split_and!; [done..| | | |].
  - by apply sent_holds.
  - by intros ->.
  - intros x Ha Hx. destruct (Hcov x Ha Hx) as [|Hsent]; [by left|right]. by eapply sent_elem.
  - eapply sent_ready; [exact Hg|exact Hblocks|exact Hval|]. intros i r Hi.
    destruct (Hfirst i r Hi) as [(a & Ha & Hra)|?]; [left|by right]. exists a, r. split_and!; [done..|apply anc_refl].
Qed.

(** The responder's answer to a request. *)
Lemma responder_answers session gid max_bytes commands (address : A) (cache : PeerCache) (pr : Pr) to_send metas data index :
  pr_get_storage gid pr = (Ok st, pr) → find_needed_segments search_fuel st commands = Ok to_send →
  push_segments st to_send [] [] 0 = (Ok (metas, data, index), false) →
  ∃ responder, responder_receive (SyncRequest session gid max_bytes commands) (responder_new address) = (Ok tt, responder)
    ∧ ∀ target, let message := response_bytes (SyncResponse session 0 metas) in
        length message + length data ≤ target → (Z.of_nat target < pow64)%Z →
        ∃ env, responder_poll search_fuel target (mkRespEnv responder pr cache)
                 = (Ok (match to_send with [] => [] | _ => message ++ data end), env)
          ∧ (to_send = [] → rs_state (re_responder env) = RSIdle).
Proof.
  intros Hget Hfind Hpush. eexists. split.
  { unfold responder_receive. cbn [responder_new rs_session_id request_session_id]. rewrite Z.eqb_refl. reflexivity. }
  intros target message Hfit Hlt.
  unfold responder_poll, mbind, M_bind, get_responder. cbn [re_responder rs_state rs_storage_id]. unfold responder_storage.
  cbn [re_provider re_cache re_responder]. rewrite Hget. unfold on_responder, modify. cbn [re_responder re_provider re_cache].
  edestruct (cache_commands_ok commands) as (pc & Hcache). cbn [rs_set_state rs_has] in *. rewrite Hcache. clear Hcache.
  unfold lift. rewrite Hfind. cbn [re_responder re_provider re_cache]. unfold responder_get_next, mbind, M_bind, get_responder.
  cbn [re_responder rs_set_to_send rs_to_send rs_next_send]. destruct to_send as [|l to_send].
  { eexists. split; [reflexivity|]. done. }
  cbn [rs_set_to_send rs_set_state rs_next_send length Nat.leb]. unfold responder_get_commands, mbind, M_bind, get_responder. cbn [rs_set_to_send rs_set_state re_responder rs_storage_id rs_next_send rs_to_send drop].
  unfold responder_storage. cbn [rs_set_to_send rs_set_state re_provider re_cache re_responder rs_next_send rs_to_send drop]. rewrite Hget, Hpush.
  unfold lift, session_id_of. cbn. rewrite to_slice_fits. unfold message in *. rewrite (proj2 (Nat.leb_le _ _)) by lia.
  cbn [ok_or]. unfold append_data.
  assert (checked_add (length (response_bytes (SyncResponse session 0 metas))) (length data)
    = Some (length (response_bytes (SyncResponse session 0 metas)) + length data)) as -> by (apply checked_add_Some; lia).
  cbn [assume ok_or sync_bug map_err mbind outcome_bind]. rewrite (proj2 (Nat.leb_le _ _)) by lia. by eexists.
Qed.

(** The requester's view of the answer. *)
Lemma requester_reads session cs metas (rq : SyncRequester A) :
  metas_of cs metas → Forall sendable cs → length cs ≤ COMMAND_SAMPLE_MAX →
  rq_session_id rq = session → rq_state rq = RQStart → rq_next_index rq = 0 →
  ∃ scs, requester_receive (response_bytes (SyncResponse session 0 metas) ++ wire cs) rq
           = (Ok (Some scs), rq_set_state RQWaiting (rq_set_next_index 1 rq)) ∧ Forall2 received cs scs.
Proof.
  intros Hm Hs Hl Hid Hst Hnext. unfold requester_receive. rewrite take_to_slice. unfold get_sync_commands.
  cbn [response_session_id]. rewrite Hid, Z.eqb_refl, Hst, Hnext. cbn [negb Nat.eqb].
  assert (checked_add 0 1 = Some 1) as -> by reflexivity. cbn [assume ok_or sync_bug map_err].
  destruct (parse_commands_spec cs metas [] [] [] Hm Hs) as (scs & Hp & Hrec); [done| |].
  { simpl. pose proof (wire_length cs Hs). unfold COMMAND_SAMPLE_MAX, pow64 in *. lia. }
  rewrite app_nil_r in Hp. simpl in Hp. rewrite Hp. by exists scs.
Qed.
End Round.

(** C14: A round of sync delivers what is missing, in order. Let the graph of a
    responder be well formed, with at most [SEGMENT_BUFFER_MAX] segments and
    commands of at most [MAX_COMMAND_LENGTH] bytes. For every request there is
    a list of locations such that (1) every command of the graph is an ancestor
    of a command the request names, or in the list; (2) in the list the parents
    of a command come before it, unless they are ancestors of a command the
    request names; (3) with a buffer that is large enough, the responder
    accepts the request and its poll succeeds; when the list is empty, it goes
    idle, and otherwise the requester decodes from the bytes exactly the first
    [COMMAND_RESPONSE_MAX] commands of the list, unchanged but that an empty
    policy becomes no policy, and waits for the next message. *)
Theorem sync_round_delivers {St Seg P Pr A} `{Storage St Seg} `{QueryMut P} `{!PerspectiveOps P} `{!ProviderOps Pr St P}
    `{PostcardLaws A} (D : nat → Prop) (st : St) head bound search_fuel session gid max_bytes commands (address : A) cache (pr : Pr) :
  responder_graph D st head bound (search_fuel st) → pr_get_storage gid pr = (Ok st, pr) →
  ∃ locs need responder,
    (∀ x, anc st head x → valid D st x → peer_has D st commands x ∨ x ∈ locs)
    ∧ ready st (peer_has D st commands) locs
    ∧ responder_receive (SyncRequest session gid max_bytes commands) (responder_new address) = (Ok tt, responder)
    ∧ ∀ target, need ≤ target → (Z.of_nat target < pow64)%Z →
      ∃ bytes env, responder_poll search_fuel target (mkRespEnv responder pr cache) = (Ok bytes, env) ∧
        (locs = [] ∧ bytes = [] ∧ rs_state (re_responder env) = RSIdle
         ∨ ∃ cmds, Forall2 (holds st) (take COMMAND_RESPONSE_MAX locs) cmds ∧
             ∀ rq : SyncRequester A, rq_session_id rq = session → rq_state rq = RQStart → rq_next_index rq = 0 →
               ∃ scs, requester_receive bytes rq = (Ok (Some scs), rq_set_state RQWaiting (rq_set_next_index 1 rq))
                 ∧ Forall2 received cmds scs).
Proof.
  intros Hr Hget.
  destruct (needed_response D st head bound search_fuel Hr commands)
    as (to_send & blocks & metas & index & Hfind & Hpush & Hm & Hsend & Hholds & Hempty & Hcov & Hready).
  destruct (responder_answers D st head bound search_fuel Hr session gid max_bytes commands address cache pr _ _ _ _ Hget Hfind Hpush)
    as (responder & Hrecv & Hpoll).
  eexists _, _, responder. split_and!; [exact Hcov|exact Hready|exact Hrecv|]. intros target Hfit Hlt.
  destruct (Hpoll target Hfit Hlt) as (env & Hp & Hidle). eexists _, env. split; [exact Hp|].
  destruct to_send as [|l to_send]; [left; auto|right]. eexists. split; [by apply Forall2_take|].
  intros rq Hid Hst Hnext. apply requester_reads; [done|by apply Forall_take| |done..].
  rewrite length_take. unfold COMMAND_RESPONSE_MAX, COMMAND_SAMPLE_MAX. lia.
Qed.

(** ** A codec and a graph *)
Module SyncExample.
(** Messages as numbers, written in binary and closed by a zero byte. *)
Fixpoint pos_bytes (p : positive) : list u8 :=
  match p with
  | xH => [Byte.x00]
  | xO p' => Byte.x01 :: pos_bytes p'
  | xI p' => Byte.x02 :: pos_bytes p'
  end.
Fixpoint take_pos (bytes : list u8) : option (positive * list u8) :=
  match bytes with
  | Byte.x00 :: rest => Some (xH, rest)
  | Byte.x01 :: rest => match take_pos rest with Some (p, r) => Some (xO p, r) | None => None end
  | Byte.x02 :: rest => match take_pos rest with Some (p, r) => Some (xI p, r) | None => None end
  | _ => None
  end.
Lemma take_pos_bytes p rest : take_pos (pos_bytes p ++ rest) = Some (p, rest).
Proof. induction p as [p IH|p IH|]; simpl; rewrite ?IH; done. Qed.

#[local] Instance byte_countable : Countable u8 := inj_countable Byte.to_N Byte.of_N Byte.of_to_N.
Definition MetaRepr : Type := CommandId * (nat * nat) * list (CommandId * nat) * Z * Z * nat.
Definition meta_repr (m : CommandMeta) : MetaRepr :=
  (cm_id m, priority_repr (cm_priority m), map address_repr (prior_list (cm_parent m)), cm_policy_length m, cm_length m, cm_max_cut m).
Definition meta_of_repr (x : MetaRepr) : CommandMeta :=
  let '(i, p, parents, pl, l, mc) := x in
  mkCommandMeta i
    (match p with (0, _) => PrioMerge | (1, n) => PrioBasic n | (2, _) => PrioFinalize | _ => PrioInit end)
    (match map (λ a, mkAddress a.1 a.2) parents with [] => PNone | [a] => PSingle a | a :: b :: _ => PMerge a b end) pl l mc.
Lemma meta_of_meta_repr m : meta_of_repr (meta_repr m) = m.
Proof.
  destruct m as [i p parent pl l mc]. unfold meta_repr. cbn [cm_id cm_priority cm_parent cm_policy_length cm_length cm_max_cut].
  rewrite prior_list_spec. destruct p, parent as [|[? ?]|[? ?] [? ?]]; reflexivity.
Qed.
Definition ResponseRepr : Type := Z * nat * list MetaRepr + (Z * nat * bool + (Z * CommandId + Z)).
Definition response_repr (m : SyncResponseMessage) : ResponseRepr :=
  match m with
  | SyncResponse s i cs => inl (s, i, map meta_repr cs)
  | SyncEnd s i b => inr (inl (s, i, b))
  | Offer s h => inr (inr (inl (s, h)))
  | ResponseEndSession s => inr (inr (inr s))
  end.
Definition response_of_repr (x : ResponseRepr) : SyncResponseMessage :=
  match x with
  | inl (s, i, cs) => SyncResponse s i (map meta_of_repr cs)
  | inr (inl (s, i, b)) => SyncEnd s i b
  | inr (inr (inl (s, h))) => Offer s h
  | inr (inr (inr s)) => ResponseEndSession s
  end.
Lemma response_of_response_repr m : response_of_repr (response_repr m) = m.
Proof.
  destruct m as [s i cs| | |]; [|done..]. simpl. f_equal. rewrite map_map. rewrite <- (map_id cs) at 2. apply map_ext, meta_of_meta_repr.
Qed.
Definition message_bytes (m : SyncResponseMessage) : list u8 := pos_bytes (encode (response_repr m)).
#[global] Instance codec : Postcard unit := {|
  response_to_slice m len := if length (message_bytes m) <=? len then Some (message_bytes m) else None;
  type_to_slice _ _ := None;
  take_response bytes := '(p, rest) ← take_pos bytes; x ← decode p; Some (response_of_repr x, rest)
|}.
#[global] Program Instance codec_laws : PostcardLaws unit := {| response_bytes := message_bytes |}.
Next Obligation. done. Qed.
Next Obligation.
  intros m rest. simpl. unfold message_bytes. rewrite take_pos_bytes. simpl. rewrite decode_encode. simpl. by rewrite response_of_response_repr.
Qed.

(** The graph of two branches and their merge, committed. *)
Definition st : MemStorage := Eval vm_compute in (mem_commit Example.seg_merge Example.st_merge).2.
Definition provider : MemStorageProvider := [(Example.id Byte.x00, st)].
Lemma st_reachable : mem_reachable st.
Proof.
  eapply rtc_r; [exact Example.reachable|]. apply (step_commit _ Example.seg_merge (mem_commit Example.seg_merge Example.st_merge).1).
  - apply (list_elem_of_lookup_2 _ 3). reflexivity.
  - reflexivity.
Qed.
Lemma present_below n : present st n → n < 4.
Proof. unfold present. rewrite seg_at_mem. intros [seg Hs]. by apply lookup_lt_Some in Hs. Qed.
Lemma st_graph : responder_graph (present st) st (mkLocation 3 0) 4 16.
Proof.
  pose proof (reachable_inv _ st_reachable) as Hinv. split.
  - apply mem_graph_ok, Hinv.
  - apply (mem_segs_ok False). split_and!; [done|done|by intros []].
  - apply present_below.
  - vm_compute. lia.
  - reflexivity.
  - exists 3. apply max_cut_at_mem. do 2 eexists. split_and!; reflexivity.
  - exists [0; 1; 2; 3]. split; [vm_compute; lia|]. intros n Hn%present_below. repeat (destruct n as [|n]; [set_solver|]). lia.
  - intros [n i] c Hn%present_below (seg & Hseg & Hc). simpl in Hn, Hseg, Hc. rewrite seg_at_mem in Hseg.
    assert (∃ d, v1_list (ms_commands seg) !! i = Some d ∧ c = mem_command (cd_command d)) as (d & Hd & ->).
    { unfold ms_get_command, ms_get_mem_command in Hc. destruct (negb _); [done|]. simpl in Hc.
      destruct (v1_list (ms_commands seg) !! i) as [d|] eqn:E; [|done]. exists d. simpl in Hc. split; [done|congruence]. }
    apply list_elem_of_lookup_2 in Hd. assert (Forall (λ d, mc_policy (cd_command d) = None ∧ mc_data (cd_command d) = []) (v1_list (ms_commands seg))) as Hall.
    { repeat (destruct n as [|n]; [injection Hseg as <-; repeat constructor|]). lia. }
    destruct (proj1 (Forall_forall _ _) Hall d Hd) as [Hp Hdata]. split; [done|]. unfold wire_data. simpl. rewrite Hp, Hdata. simpl. lia.
Qed.
End SyncExample.

Lemma sync_round_delivers_witness :
  ∃ locs need responder,
    (∀ x, anc SyncExample.st (mkLocation 3 0) x → valid (present SyncExample.st) SyncExample.st x →
       peer_has (present SyncExample.st) SyncExample.st [Example.at_ Byte.x01 1] x ∨ x ∈ locs)
    ∧ ready SyncExample.st (peer_has (present SyncExample.st) SyncExample.st [Example.at_ Byte.x01 1]) locs
    ∧ responder_receive (SyncRequest 7 (Example.id Byte.x00) 0 [Example.at_ Byte.x01 1]) (responder_new tt) = (Ok tt, responder)
    ∧ ∀ target, need ≤ target → (Z.of_nat target < pow64)%Z →
      ∃ bytes env, responder_poll (λ _, 16) target (mkRespEnv responder SyncExample.provider peer_cache_new) = (Ok bytes, env) ∧
        (locs = [] ∧ bytes = [] ∧ rs_state (re_responder env) = RSIdle
         ∨ ∃ cmds, Forall2 (holds SyncExample.st) (take COMMAND_RESPONSE_MAX locs) cmds ∧
             ∀ rq : SyncRequester unit, rq_session_id rq = 7%Z → rq_state rq = RQStart → rq_next_index rq = 0 →
               ∃ scs, requester_receive bytes rq = (Ok (Some scs), rq_set_state RQWaiting (rq_set_next_index 1 rq))
                 ∧ Forall2 received cmds scs).
Proof.
  apply (sync_round_delivers (present SyncExample.st) SyncExample.st (mkLocation 3 0) 4 (λ _, 16) 7%Z (Example.id Byte.x00) 0%Z
           [Example.at_ Byte.x01 1] tt peer_cache_new SyncExample.provider).
  - exact SyncExample.st_graph.
  - reflexivity.
Defined.
