(* ===== verification/AfcTypes.v ===== *)
(** Fast channels: identifiers, directed keys and errors, the headers of
    messages, and the keys over the contexts of HPKE. *)
From S2P Require Import Prelude Collections Bytes.
Local Open Scope string_scope.
Local Open Scope list_scope.
Local Open Scope nat_scope.

(** Fast channels: identifiers and directed keys ([aranya-fast-channels/src/
    state.rs]) and the errors of the crate ([error.rs], [buf.rs],
    [shm/error.rs]). A [u16], [u32] or [u64] is a [Z] with its range. *)
(** * Identifiers *)
Definition u16_ok (z : Z) : Prop := (0 ≤ z < 256 ^ Z.of_nat 2)%Z.
Definition u32_ok (z : Z) : Prop := (0 ≤ z < 256 ^ Z.of_nat 4)%Z.
Definition u64_ok (z : Z) : Prop := (0 ≤ z < 256 ^ Z.of_nat 8)%Z.

Record NodeId := mkNodeId { node_id_u32 : Z }.
Record ChanLabel := mkLabel { label_u32 : Z }.

#[export] Instance node_id_eq_dec : EqDecision NodeId.
Proof. solve_decision. Defined.
#[export] Instance label_eq_dec : EqDecision ChanLabel.
Proof. solve_decision. Defined.

(** [NodeId::to_bytes], [NodeId::from_bytes] and the same of [Label]. *)
Definition node_id_to_bytes (n : NodeId) : list u8 := le_bytes 4 (node_id_u32 n).
Definition label_to_bytes (l : ChanLabel) : list u8 := le_bytes 4 (label_u32 l).
(** [LittleEndian::read_u32] panics on fewer than four bytes. *)
Definition read_u32 (b : list u8) : outcome string Z :=
  match split_first_chunk 4 b with
  | Some (c, _) => Ok (from_le c)
  | None => Panic "range end index out of range"
  end.
Definition node_id_from_bytes (b : list u8) : outcome string NodeId := mkNodeId <$> read_u32 b.
Definition label_from_bytes (b : list u8) : outcome string ChanLabel := mkLabel <$> read_u32 b.

Record ChannelId := mkChannelId { ch_node_id : NodeId; ch_label : ChanLabel }.
#[export] Instance channel_id_eq_dec : EqDecision ChannelId.
Proof. solve_decision. Defined.

(** [ChannelId::to_bytes]. *)
Definition channel_id_to_bytes (c : ChannelId) : list u8 :=
  node_id_to_bytes (ch_node_id c) ++ label_to_bytes (ch_label c).

(** The derived [Ord]: by node, then by label. *)
Definition ch_pair (c : ChannelId) : Z * Z :=
  (node_id_u32 (ch_node_id c), label_u32 (ch_label c)).
#[export] Instance ch_pair_inj : Inj eq eq ch_pair.
Proof. intros [[a] [b]] [[c] [d]] H. by injection H as -> ->. Qed.
#[export] Instance channel_id_ord : Ord ChannelId := λ a b, cmp (ch_pair a) (ch_pair b).
#[export] Instance channel_id_ord_laws : OrdLaws ChannelId := ord_laws_inj ch_pair.

(** * Directed keys *)
Inductive Directed (S O : Type) : Type :=
  | SealOnly (seal : S)
  | OpenOnly (open : O)
  | Bidirectional (seal : S) (open : O).
Arguments SealOnly {S O} seal.
Arguments OpenOnly {S O} open.
Arguments Bidirectional {S O} seal open.

Section Directed.
Context {S O : Type}.

(** [Directed::seal] and [seal_mut], [Directed::open] and [open_mut]. *)
Definition dir_seal (d : Directed S O) : option S :=
  match d with SealOnly s | Bidirectional s _ => Some s | OpenOnly _ => None end.
Definition dir_open (d : Directed S O) : option O :=
  match d with OpenOnly o | Bidirectional _ o => Some o | SealOnly _ => None end.

(** An assignment through the reference that [seal_mut] returns. *)
Definition dir_set_seal (s : S) (d : Directed S O) : Directed S O :=
  match d with
  | SealOnly _ => SealOnly s
  | Bidirectional _ o => Bidirectional s o
  | OpenOnly o => OpenOnly o
  end.

(** [PartialEq for Directed], with the constant-time comparisons of the keys. *)
Definition dir_eq (ct_eq_s : S → S → bool) (ct_eq_o : O → O → bool) (a b : Directed S O) : bool :=
  match a, b with
  | SealOnly l, SealOnly r => ct_eq_s l r
  | OpenOnly l, OpenOnly r => ct_eq_o l r
  | Bidirectional ls lo, Bidirectional rs ro => ct_eq_s ls rs && ct_eq_o lo ro
  | _, _ => false
  end.

Lemma dir_seal_set s d : dir_seal (dir_set_seal s d) = (λ _, s) <$> dir_seal d.
Proof. by destruct d. Qed.
Lemma dir_open_set s d : dir_open (dir_set_seal s d) = dir_open d.
Proof. by destruct d. Qed.
End Directed.

(** * Errors *)
(** The header was invalid ([header.rs]). *)
Inductive HeaderError :=
  | HeBug (w : string)
  | HeInvalidSize
  | HeUnknownVersion
  | HeInvalidMsgType.

(** [hpke::HpkeError]: the variants that the code tells apart. *)
Inductive HpkeError :=
  | HpkeMessageLimitReached
  | HpkeOpenAuthentication
  | HpkeOther (w : string).

(** [aranya_crypto::Error]: the variants that the crate builds. *)
Inductive CryptoError :=
  | CeHpke (e : HpkeError)
  | CeImport (w : string).

(** [SealError] and [OpenError] ([aranya-crypto/src/afc/keys.rs]). *)
Inductive SealError :=
  | SeMessageLimitReached
  | SeOther (e : HpkeError)
  | SeBug (w : string).
Inductive OpenError :=
  | OeAuthentication
  | OeMessageLimitReached
  | OeOther (e : HpkeError)
  | OeBug (w : string).

Definition seal_error_of_hpke (e : HpkeError) : SealError :=
  match e with
  | HpkeMessageLimitReached => SeMessageLimitReached
  | err => SeOther err
  end.
Definition open_error_of_hpke (e : HpkeError) : OpenError :=
  match e with
  | HpkeOpenAuthentication => OeAuthentication
  | HpkeMessageLimitReached => OeMessageLimitReached
  | err => OeOther err
  end.

(** [shm::LayoutError] and [shm::Corrupted]. *)
Inductive ShmLayoutError :=
  | LeBug (w : string)
  | LePageSize
  | LeLayout.
Inductive Corrupted :=
  | CoBug (w : string)
  | CoSharedMemMagic (got : Z)
  | CoSharedMemSize (got want : Z)
  | CoSharedMemPageAlignment (aligned : bool)
  | CoSharedMemKeySize (got : Z)
  | CoChanListMagic (got : Z)
  | CoChanMagic (got : Z)
  | CoChanDirection (got : Z)
  | CoLayout (e : ShmLayoutError)
  | CoSharedMemVersion (got want : Z)
  | CoOther (w : string).
(** [shm::Error]. *)
Inductive ShmError :=
  | ShmBug (w : string)
  | ShmErrno
  | ShmInvalidArgument (w : string)
  | ShmInvalidPath
  | ShmCorrupted (c : Corrupted)
  | ShmLayoutErr (e : ShmLayoutError)
  | ShmOutOfSpace.

(** [AllocError] ([buf.rs]). *)
Inductive AllocError :=
  | AllocDefault
  | AllocBug (w : string)
  | AllocTryReserve.

(** [Error] ([error.rs]). *)
Inductive AfcError :=
  | AeBug (w : string)
  | AeInvalidHeader (e : HeaderError)
  | AeNotFound (c : ChannelId)
  | AeInputTooLarge
  | AeBufferTooSmall
  | AeKeyExpired
  | AeAuthentication
  | AeCrypto (e : CryptoError)
  | AeAllocation (e : AllocError)
  | AeErrno
  | AeInvalidArgument (w : string)
  | AeMemoryLayout
  | AeOutOfSpace
  | AeSharedMem (e : ShmError)
  | AeCorrupted (w : string).

(** [From<SealError>], [From<OpenError>] and [From<Corrupted> for Error]. *)
Definition afc_of_seal (e : SealError) : AfcError :=
  match e with
  | SeMessageLimitReached => AeKeyExpired
  | SeOther err => AeCrypto (CeHpke err)
  | SeBug w => AeBug w
  end.
Definition afc_of_open (e : OpenError) : AfcError :=
  match e with
  | OeAuthentication => AeAuthentication
  | OeMessageLimitReached => AeKeyExpired
  | OeOther err => AeCrypto (CeHpke err)
  | OeBug w => AeBug w
  end.
Definition afc_of_corrupted (c : Corrupted) : AfcError := AeSharedMem (ShmCorrupted c).

(** * Identifiers survive their encoding *)
Lemma node_id_bytes_roundtrip n : u32_ok (node_id_u32 n) → node_id_from_bytes (node_id_to_bytes n) = Ok n.
Proof.
  destruct n as [n]. intros Hn. unfold node_id_from_bytes, node_id_to_bytes, read_u32.
  rewrite <- (app_nil_r (le_bytes 4 _)), split_first_chunk_app by apply length_le_bytes.
  simpl node_id_u32. by rewrite from_le_bytes.
Qed.

Lemma label_bytes_roundtrip l : u32_ok (label_u32 l) → label_from_bytes (label_to_bytes l) = Ok l.
Proof.
  destruct l as [l]. intros Hl. unfold label_from_bytes, label_to_bytes, read_u32.
  rewrite <- (app_nil_r (le_bytes 4 _)), split_first_chunk_app by apply length_le_bytes.
  simpl label_u32. by rewrite from_le_bytes.
Qed.

(** Fast channels: the headers of messages ([aranya-fast-channels/src/
    header.rs]). [Header] precedes every message, [DataHeader] follows the
    ciphertext of a data message. *)

(** * Versions and types of messages *)
Inductive AfcVersion := V1.
Definition version_to_u16 (v : AfcVersion) : Z := match v with V1 => 28500 end.
Definition version_current : AfcVersion := V1.
Definition version_try_from_u16 (v : Z) : option AfcVersion :=
  if (v =? version_to_u16 V1)%Z then Some V1 else None.

Inductive MsgType := MtData | MtControl.
Definition msg_type_to_u16 (t : MsgType) : Z := match t with MtData => 1 | MtControl => 2 end.
Definition msg_type_try_from_u16 (v : Z) : option MsgType :=
  if (v =? 1)%Z then Some MtData else if (v =? 2)%Z then Some MtControl else None.

(** * [Header] *)
Record Header := mkHeader {
  hdr_version : AfcVersion;
  hdr_msg_type : MsgType;
  hdr_label : ChanLabel
}.
Definition HEADER_SIZE : nat := 8.

(** [split_first_chunk().assume(..)?]. *)
Definition chunk_or_bug (n : nat) (w : string) (buf : list u8) : outcome HeaderError (list u8 * list u8) :=
  ok_or (split_first_chunk n buf) (HeBug w).

Definition header_try_parse (buf : list u8) : outcome HeaderError Header :=
  '(version, rest) ← chunk_or_bug 2 "`buf` should be large enough for `Version`" buf;
  '(msg_typ, rest) ← chunk_or_bug 2 "`buf` should be large enough for `MsgType`" rest;
  '(label, rest) ← chunk_or_bug 4 "`buf` should be large enough for `Label`" rest;
  match rest with
  | _ :: _ => Err (HeBug "`rest` has trailing data")
  | [] =>
    version ← ok_or (version_try_from_u16 (from_le version)) HeUnknownVersion;
    msg_type ← ok_or (msg_type_try_from_u16 (from_le msg_typ)) HeInvalidMsgType;
    mret (mkHeader version msg_type (mkLabel (from_le label)))
  end.

(** Writing [bytes] to the first chunk of [out] and going on with the rest:
    what was written stays when a later step fails. *)
Definition put_chunk (bytes : list u8) (w : string)
    (k : M (list u8) HeaderError unit) : M (list u8) HeaderError unit := λ out,
  match split_first_chunk (length bytes) out with
  | None => (Err (HeBug w), out)
  | Some (_, rest) => let '(r, rest') := k rest in (r, bytes ++ rest')
  end.
Definition put_end (w : string) : M (list u8) HeaderError unit := λ out,
  match out with [] => (Ok tt, out) | _ => (Err (HeBug w), out) end.

Definition header_encode (h : Header) : M (list u8) HeaderError unit :=
  put_chunk (le_bytes 2 (version_to_u16 (hdr_version h))) "`out` should be large enough for `Version`" (
  put_chunk (le_bytes 2 (msg_type_to_u16 (hdr_msg_type h))) "`out` should be large enough for `MsgType`" (
  put_chunk (le_bytes 4 (label_u32 (hdr_label h))) "`out` should be large enough for `Label`" (
  put_end "`out` should be exactly `Header::PACKED_SIZE`"))).

(** * [DataHeader] *)
Record DataHeader := mkDataHeader { dh_label : ChanLabel; dh_seq : Z }.
Definition DATA_HEADER_SIZE : nat := 12.

Definition data_header_try_parse (buf : list u8) : outcome HeaderError DataHeader :=
  '(label, rest) ← chunk_or_bug 4 "`buf` should be large enough for `Label`" buf;
  '(seq, rest) ← chunk_or_bug 8 "`buf` should be large enough for `Seq`" rest;
  match rest with
  | _ :: _ => Err (HeBug "`rest` has trailing data")
  | [] => Ok (mkDataHeader (mkLabel (from_le label)) (from_le seq))
  end.

Definition data_header_encode (h : DataHeader) : M (list u8) HeaderError unit :=
  put_chunk (le_bytes 4 (label_u32 (dh_label h))) "`out` should be large enough for `Label`" (
  put_chunk (le_bytes 8 (dh_seq h)) "`out` should be large enough for a sequence number" (
  put_end "`out` should be exactly `DataHeader::PACKED_SIZE`")).

(** The bytes of a data header. *)
Definition data_header_bytes (h : DataHeader) : list u8 :=
  le_bytes 4 (label_u32 (dh_label h)) ++ le_bytes 8 (dh_seq h).
Definition header_bytes (h : Header) : list u8 :=
  le_bytes 2 (version_to_u16 (hdr_version h)) ++ le_bytes 2 (msg_type_to_u16 (hdr_msg_type h))
  ++ le_bytes 4 (label_u32 (hdr_label h)).

(** * Messages ([client.rs]) *)
Inductive Payload := PayData (b : list u8) | PayControl (b : list u8).
Record AfcMessage := mkAfcMessage { am_header : Header; am_payload : Payload }.

(** [Message::try_parse]; [ParseError] wraps the [HeaderError]. *)
Definition message_try_parse (buf : list u8) : outcome HeaderError AfcMessage :=
  '(header, payload) ← ok_or (split_first_chunk HEADER_SIZE buf) HeInvalidSize;
  header ← header_try_parse header;
  mret (mkAfcMessage header
    match hdr_msg_type header with
    | MtData => PayData payload
    | MtControl => PayControl payload
    end).

(** * Proofs *)
Lemma length_data_header_bytes h : length (data_header_bytes h) = DATA_HEADER_SIZE.
Proof. done. Qed.
Lemma length_header_bytes h : length (header_bytes h) = HEADER_SIZE.
Proof. done. Qed.

Lemma split_nil_r n a : length a = n → split_first_chunk n a = Some (a, []).
Proof. intros H. rewrite <- (app_nil_r a) at 1. by apply split_first_chunk_app. Qed.

Lemma put_chunk_exact bytes w k (out : list u8) r rest :
  length bytes ≤ length out → k (drop (length bytes) out) = (r, rest) →
  put_chunk bytes w k out = (r, bytes ++ rest).
Proof.
  intros Hlen Hk. unfold put_chunk, split_first_chunk.
  destruct (Nat.leb_spec (length bytes) (length out)); [|lia]. by rewrite Hk.
Qed.

Lemma put_end_nil w out : length out = 0 → put_end w out = (Ok tt, []).
Proof. by destruct out. Qed.

Lemma data_header_encode_spec h out :
  length out = DATA_HEADER_SIZE → data_header_encode h out = (Ok tt, data_header_bytes h).
Proof.
  unfold DATA_HEADER_SIZE. intros Hlen. unfold data_header_encode, data_header_bytes.
  rewrite <- (app_nil_r (le_bytes 8 (dh_seq h))).
  apply put_chunk_exact; [rewrite length_le_bytes; lia|].
  apply put_chunk_exact; rewrite ?length_drop, !length_le_bytes; [lia|].
  apply put_end_nil. rewrite !length_drop. lia.
Qed.

Lemma header_encode_spec h out :
  length out = HEADER_SIZE → header_encode h out = (Ok tt, header_bytes h).
Proof.
  unfold HEADER_SIZE. intros Hlen. unfold header_encode, header_bytes.
  rewrite <- (app_nil_r (le_bytes 4 _)).
  apply put_chunk_exact; [rewrite length_le_bytes; lia|].
  apply put_chunk_exact; rewrite ?length_drop, !length_le_bytes; [lia|].
  apply put_chunk_exact; rewrite ?length_drop, !length_le_bytes; [lia|].
  apply put_end_nil. rewrite !length_drop. lia.
Qed.

Lemma data_header_parse_app a b :
  length a = 4 → length b = 8 →
  data_header_try_parse (a ++ b) = Ok (mkDataHeader (mkLabel (from_le a)) (from_le b)).
Proof.
  intros Ha Hb. unfold data_header_try_parse, chunk_or_bug.
  rewrite split_first_chunk_app by done. simpl. by rewrite split_nil_r.
Qed.

Lemma data_header_parse_bytes h :
  u32_ok (label_u32 (dh_label h)) → u64_ok (dh_seq h) →
  data_header_try_parse (data_header_bytes h) = Ok h.
Proof.
  destruct h as [[l] q]. intros Hl Hq. unfold data_header_bytes.
  rewrite data_header_parse_app by apply length_le_bytes.
  cbn [dh_label dh_seq label_u32] in *. by rewrite !from_le_bytes.
Qed.

Lemma data_header_parse_total buf :
  length buf = DATA_HEADER_SIZE →
  ∃ h, data_header_try_parse buf = Ok h ∧ buf = data_header_bytes h ∧
       u32_ok (label_u32 (dh_label h)) ∧ u64_ok (dh_seq h).
Proof.
  intros Hlen. unfold DATA_HEADER_SIZE in Hlen. pose proof (take_drop 4 buf) as Hb.
  assert (length (take 4 buf) = 4) as H4 by (rewrite length_take; lia).
  assert (length (drop 4 buf) = 8) as H8 by (rewrite length_drop; lia).
  pose proof (data_header_parse_app _ _ H4 H8) as Hp. rewrite Hb in Hp.
  eexists. split; [exact Hp|]. cbn [dh_label dh_seq label_u32]. split_and!.
  - unfold data_header_bytes. cbn [dh_label dh_seq label_u32].
    pose proof (le_bytes_from (take 4 buf)) as E4. pose proof (le_bytes_from (drop 4 buf)) as E8.
    rewrite H4 in E4. rewrite H8 in E8. by rewrite E4, E8.
  - pose proof (from_le_range (take 4 buf)) as R. by rewrite H4 in R.
  - pose proof (from_le_range (drop 4 buf)) as R. by rewrite H8 in R.
Qed.

Lemma version_roundtrip v : version_try_from_u16 (version_to_u16 v) = Some v.
Proof. by destruct v. Qed.
Lemma msg_type_roundtrip t : msg_type_try_from_u16 (msg_type_to_u16 t) = Some t.
Proof. by destruct t. Qed.
Lemma version_from_inv z v : version_try_from_u16 z = Some v → z = version_to_u16 v.
Proof. unfold version_try_from_u16. case_match eqn:E; [|done]. apply Z.eqb_eq in E. by destruct v. Qed.
Lemma msg_type_from_inv z t : msg_type_try_from_u16 z = Some t → z = msg_type_to_u16 t.
Proof.
  unfold msg_type_try_from_u16. case_match eqn:E; [apply Z.eqb_eq in E; by intros [= <-]|].
  case_match eqn:E2; [|done]. apply Z.eqb_eq in E2. by intros [= <-].
Qed.

Lemma header_parse_app a b c :
  length a = 2 → length b = 2 → length c = 4 →
  header_try_parse (a ++ b ++ c) =
    (version ← ok_or (version_try_from_u16 (from_le a)) HeUnknownVersion;
     msg_type ← ok_or (msg_type_try_from_u16 (from_le b)) HeInvalidMsgType;
     mret (mkHeader version msg_type (mkLabel (from_le c)))).
Proof.
  intros Ha Hb Hc. unfold header_try_parse, chunk_or_bug.
  rewrite split_first_chunk_app by done. simpl. rewrite split_first_chunk_app by done. simpl.
  by rewrite split_nil_r.
Qed.

Lemma header_parse_bytes h :
  u32_ok (label_u32 (hdr_label h)) → header_try_parse (header_bytes h) = Ok h.
Proof.
  destruct h as [v t [l]]. intros Hl. unfold header_bytes.
  rewrite header_parse_app by apply length_le_bytes. cbn [hdr_version hdr_msg_type hdr_label label_u32] in *.
  rewrite (from_le_bytes 4) by done.
  rewrite (from_le_bytes 2 (version_to_u16 v)) by (by destruct v).
  rewrite (from_le_bytes 2 (msg_type_to_u16 t)) by (by destruct t).
  by rewrite version_roundtrip, msg_type_roundtrip.
Qed.

(** Fast channels: keys ([aranya-crypto/src/afc/keys.rs], [afc/shared.rs]).
    A key wraps a context of HPKE, which comes from another crate: it is the
    class [Hpke], and what its documentation promises is [HpkeLaws]. *)

(** * The contexts of HPKE *)
(** Keys and base nonces are byte arrays of fixed size. A method that writes to
    a buffer has the buffer in its state. *)
Class Hpke := {
  SealCtx : Type;
  OpenCtx : Type;
  KEY_SIZE : nat;
  NONCE_SIZE : nat;
  TAG_SIZE : nat;
  seal_ctx_new : list u8 → list u8 → Z → outcome string SealCtx;
  open_ctx_new : list u8 → list u8 → Z → outcome string OpenCtx;
  seal_ctx_seq : SealCtx → Z;
  (** [SealCtx::seal] of a plaintext with additional data, into [dst]. *)
  seal_ctx_seal : list u8 → list u8 → M (SealCtx * list u8) HpkeError Z;
  (** [SealCtx::seal_in_place] with additional data, on data and tag. *)
  seal_ctx_seal_in_place : list u8 → M (SealCtx * (list u8 * list u8)) HpkeError Z;
  (** [OpenCtx::open_at] of a ciphertext with additional data, into [dst]. *)
  open_ctx_open_at : OpenCtx → list u8 → list u8 → Z → M (list u8) HpkeError unit;
  (** [OpenCtx::open_in_place_at] with a tag and additional data, on data. *)
  open_ctx_open_in_place_at : OpenCtx → list u8 → list u8 → Z → M (list u8) HpkeError unit
}.

(** A context encrypts with its key, base nonce and sequence number, by a
    deterministic AEAD whose decryption accepts exactly the ciphertexts of its
    encryption. Sealing uses the current sequence number and moves on to the
    next one; opening fails beyond the largest sequence number or if the
    ciphertext is not authentic. *)
Class HpkeLaws `{Hpke} := {
  aead_seal : list u8 * list u8 → Z → list u8 → list u8 → list u8;
  aead_open : list u8 * list u8 → Z → list u8 → list u8 → option (list u8);
  max_seq : Z;
  seal_key_of : SealCtx → list u8 * list u8;
  open_key_of : OpenCtx → list u8 * list u8;
  tag_size_ok : (Z.of_nat TAG_SIZE < pow64)%Z;
  aead_length k q ad pt : length (aead_seal k q ad pt) = length pt + TAG_SIZE;
  aead_roundtrip k q ad pt : aead_open k q ad (aead_seal k q ad pt) = Some pt;
  aead_tidy k q ad ct pt : aead_open k q ad ct = Some pt → ct = aead_seal k q ad pt;
  seal_ctx_new_law k n q c :
    seal_ctx_new k n q = Ok c → seal_key_of c = (k, n) ∧ seal_ctx_seq c = q;
  seal_ctx_new_total k n q : is_panic (seal_ctx_new k n q) = false;
  open_ctx_new_law k n q c : open_ctx_new k n q = Ok c → open_key_of c = (k, n);
  open_ctx_new_total k n q : is_panic (open_ctx_new k n q) = false;
  seal_ctx_seal_law c pt ad dst :
    length dst = length pt + TAG_SIZE →
    match seal_ctx_seal pt ad (c, dst) with
    | (Ok q, (c', dst')) =>
        q = seal_ctx_seq c ∧ u64_ok q ∧ (q ≤ max_seq)%Z ∧ seal_ctx_seq c' = (q + 1)%Z ∧
        seal_key_of c' = seal_key_of c ∧ dst' = aead_seal (seal_key_of c) q ad pt
    | (Err _, (c', dst')) =>
        (seal_ctx_seq c ≤ seal_ctx_seq c')%Z ∧ seal_key_of c' = seal_key_of c ∧
        length dst' = length dst
    | (Panic _, _) => False
    end;
  seal_ctx_seal_in_place_law c ad data tag :
    length tag = TAG_SIZE →
    match seal_ctx_seal_in_place ad (c, (data, tag)) with
    | (Ok q, (c', (data', tag'))) =>
        q = seal_ctx_seq c ∧ u64_ok q ∧ (q ≤ max_seq)%Z ∧ seal_ctx_seq c' = (q + 1)%Z ∧
        seal_key_of c' = seal_key_of c ∧ length data' = length data ∧
        data' ++ tag' = aead_seal (seal_key_of c) q ad data
    | (Err _, (c', (data', tag'))) =>
        (seal_ctx_seq c ≤ seal_ctx_seq c')%Z ∧ seal_key_of c' = seal_key_of c ∧
        length data' = length data ∧ length tag' = length tag
    | (Panic _, _) => False
    end;
  open_ctx_open_at_law c ct ad q dst :
    TAG_SIZE ≤ length ct → length ct - TAG_SIZE ≤ length dst →
    match open_ctx_open_at c ct ad q dst with
    | (Ok _, dst') => (q ≤ max_seq)%Z ∧ ∃ pt,
        aead_open (open_key_of c) q ad ct = Some pt ∧ dst' = pt ++ drop (length pt) dst
    | (Err HpkeMessageLimitReached, dst') => (max_seq < q)%Z ∧ length dst' = length dst
    | (Err HpkeOpenAuthentication, dst') =>
        (q ≤ max_seq)%Z ∧ aead_open (open_key_of c) q ad ct = None ∧ length dst' = length dst
    | _ => False
    end;
  open_ctx_open_in_place_at_law c tag ad q data :
    length tag = TAG_SIZE →
    match open_ctx_open_in_place_at c tag ad q data with
    | (Ok _, data') =>
        (q ≤ max_seq)%Z ∧ aead_open (open_key_of c) q ad (data ++ tag) = Some data'
    | (Err HpkeMessageLimitReached, data') => (max_seq < q)%Z ∧ length data' = length data
    | (Err HpkeOpenAuthentication, data') =>
        (q ≤ max_seq)%Z ∧ aead_open (open_key_of c) q ad (data ++ tag) = None ∧
        length data' = length data
    | _ => False
    end
}.

(** * Keys *)
(** [RawSealKey] and [RawOpenKey]: the same parts, for the two directions. *)
Record RawKey := mkRawKey { rk_key : list u8; rk_base_nonce : list u8 }.
Definition raw_pair (k : RawKey) : list u8 * list u8 := (rk_key k, rk_base_nonce k).

Record AuthData := mkAuthData { ad_version : Z; ad_label : Z }.
Definition auth_data_to_bytes (a : AuthData) : list u8 :=
  le_bytes 4 (ad_version a) ++ le_bytes 4 (ad_label a).

Section Keys.
Context `{Hpke}.

Record SealKey := mkSealKey { sk_ctx : SealCtx }.
Record OpenKey := mkOpenKey { ok_ctx : OpenCtx }.

(** [SealKey::from_raw], [SealKey::seq], [OpenKey::from_raw]. *)
Definition seal_key_from_raw (k : RawKey) (seq : Z) : outcome string SealKey :=
  mkSealKey <$> seal_ctx_new (rk_key k) (rk_base_nonce k) seq.
Definition seal_key_seq (k : SealKey) : Z := seal_ctx_seq (sk_ctx k).
Definition open_key_from_raw (k : RawKey) : outcome string OpenKey :=
  mkOpenKey <$> open_ctx_new (rk_key k) (rk_base_nonce k) 0.

(** [SealKey::seal] and [seal_in_place]. *)
Definition seal_key_seal (plaintext : list u8) (ad : AuthData) : M (SealKey * list u8) SealError Z :=
  λ '(k, dst),
  let '(r, (c, dst)) := seal_ctx_seal plaintext (auth_data_to_bytes ad) (sk_ctx k, dst) in
  (map_err seal_error_of_hpke r, (mkSealKey c, dst)).
Definition seal_key_seal_in_place (ad : AuthData) : M (SealKey * (list u8 * list u8)) SealError Z :=
  λ '(k, buf),
  let '(r, (c, buf)) := seal_ctx_seal_in_place (auth_data_to_bytes ad) (sk_ctx k, buf) in
  (map_err seal_error_of_hpke r, (mkSealKey c, buf)).

(** [OpenKey::open] and [open_in_place]. *)
Definition open_key_open (k : OpenKey) (ciphertext : list u8) (ad : AuthData) (seq : Z)
    : M (list u8) OpenError unit := λ dst,
  let '(r, dst) := open_ctx_open_at (ok_ctx k) ciphertext (auth_data_to_bytes ad) seq dst in
  (map_err open_error_of_hpke r, dst).
Definition open_key_open_in_place (k : OpenKey) (tag : list u8) (ad : AuthData) (seq : Z)
    : M (list u8) OpenError unit := λ data,
  let '(r, data) := open_ctx_open_in_place_at (ok_ctx k) tag (auth_data_to_bytes ad) seq data in
  (map_err open_error_of_hpke r, data).
End Keys.

(** The authenticated data tells versions and labels apart. *)
Lemma auth_data_inj a b :
  u32_ok (ad_version a) → u32_ok (ad_label a) → u32_ok (ad_version b) → u32_ok (ad_label b) →
  auth_data_to_bytes a = auth_data_to_bytes b → a = b.
Proof.
  destruct a as [v l], b as [v' l']. unfold auth_data_to_bytes. simpl ad_version. simpl ad_label.
  intros Hv Hl Hv' Hl' [E1 E2]%app_inj_1; [|by rewrite !length_le_bytes].
  apply (f_equal from_le) in E1, E2. rewrite !from_le_bytes in E1, E2 by done. by subst.
Qed.
