(* ===== verification/AfcClient.v ===== *)
(** Fast channels: the interface of the state that holds the keys, with the
    in-memory state; buffers; the client that seals and opens messages, and what
    its methods do on every branch. *)
From S2P Require Import Prelude Collections Bytes AfcTypes.
Local Open Scope string_scope.
Local Open Scope list_scope.
Local Open Scope nat_scope.

(** Fast channels: the traits through which the two sides use the shared state
    ([aranya-fast-channels/src/state.rs]) as classes with laws, and the
    in-memory state ([memory.rs]), which satisfies them. *)
(** * [AfcState] *)
(** The result of a closure that the state has invoked: the outer [Result] is
    the state's, the inner one the closure's; a panic goes through both. *)
Definition closure_result {T} (r : outcome AfcError T) : outcome AfcError (AfcError + T) :=
  match r with Ok t => Ok (inr t) | Err e => Ok (inl e) | Panic w => Panic w end.
(** The second [?] of [state.seal(..)??]. *)
Definition flatten_result {T} (r : outcome AfcError (AfcError + T)) : outcome AfcError T :=
  x ← r; match x with inr t => Ok t | inl e => Err e end.

(** A closure runs on the key it is given and on what it captures, [X]. *)
Class AfcState `{Hpke} (S : Type) := {
  afc_seal {X T} : ChannelId → M (SealKey * X) AfcError T → M (S * X) AfcError (AfcError + T);
  afc_open {X T} : ChannelId → (OpenKey → M X AfcError T) → M (S * X) AfcError (AfcError + T);
  afc_exists : ChannelId → M S AfcError bool
}.
#[global] Hint Mode AfcState - ! : typeclass_instances.

Section ClosureLaws.
Context `{HpkeLaws}.

(** What a sealing closure does to the key, from what it captured: a success
    uses up sequence numbers, a failure gives none back, and the key stays the
    same key. *)
Definition good_closure {X T} (f : M (SealKey * X) AfcError T) (x : X) : Prop := ∀ k,
  seal_key_of (sk_ctx (f (k, x)).2.1) = seal_key_of (sk_ctx k) ∧
  match (f (k, x)).1 with
  | Ok _ => (seal_key_seq k < seal_key_seq (f (k, x)).2.1)%Z
  | Err _ => (seal_key_seq k ≤ seal_key_seq (f (k, x)).2.1)%Z
  | Panic _ => False
  end.
End ClosureLaws.

(** What an implementation promises to the client: a channel's closure is run
    on that channel's key, once, and its result returned. A key that has to be
    imported may be refused; [afc_open_imports] says which decryption keys are
    not. *)
Class AfcLaws `{HpkeLaws} (S : Type) `{!AfcState S} := {
  afc_inv : S → Prop;
  afc_seal_key : S → ChannelId → option (list u8 * list u8);
  afc_open_key : S → ChannelId → option (list u8 * list u8);
  afc_open_imports : S → list u8 * list u8 → bool;
  afc_seal_law s id X T (f : M (SealKey * X) AfcError T) x :
    afc_inv s → good_closure f x →
    let '(r, (s', x')) := afc_seal id f (s, x) in
    afc_inv s' ∧ (∀ c, afc_seal_key s' c = afc_seal_key s c) ∧
    (∀ c, afc_open_key s' c = afc_open_key s c) ∧
    match afc_seal_key s id with
    | None => r = Err (AeNotFound id) ∧ x' = x
    | Some k => (∃ w, r = Err (AeCrypto (CeImport w)) ∧ x' = x) ∨
        ∃ key, seal_key_of (sk_ctx key) = k ∧
               r = closure_result (f (key, x)).1 ∧ x' = (f (key, x)).2.2
    end;
  afc_open_law s id X T (f : OpenKey → M X AfcError T) x :
    afc_inv s → (∀ k, is_panic (f k x).1 = false) →
    let '(r, (s', x')) := afc_open id f (s, x) in
    afc_inv s' ∧ (∀ c, afc_seal_key s' c = afc_seal_key s c) ∧
    (∀ c, afc_open_key s' c = afc_open_key s c) ∧
    match afc_open_key s id with
    | None => r = Err (AeNotFound id) ∧ x' = x
    | Some k => (∃ w, afc_open_imports s k = false ∧ r = Err (AeCrypto (CeImport w)) ∧ x' = x) ∨
        ∃ key, open_key_of (ok_ctx key) = k ∧
               r = closure_result (f key x).1 ∧ x' = (f key x).2
    end;
  afc_exists_law s id :
    afc_inv s →
    afc_exists id s = (Ok (bool_decide (is_Some (afc_seal_key s id) ∨ is_Some (afc_open_key s id))), s)
}.
#[global] Hint Mode AfcLaws - - ! - : typeclass_instances.

(** * [AranyaState] *)
(** A predicate of [remove_if] is a [FnMut]: it has a state [C] of its own. *)
Class AranyaState (S K E : Type) := {
  ar_add : ChannelId → Directed K K → M S E unit;
  ar_remove : ChannelId → M S E unit;
  ar_remove_all : M S E unit;
  ar_remove_if {C} : (ChannelId → C → bool * C) → M (S * C) E unit;
  ar_exists : ChannelId → M S E bool
}.

(** The default methods of the trait, for an implementation of [remove_if]. *)
Section Defaults.
Context {S E : Type} (remove_if : ∀ C, (ChannelId → C → bool * C) → M (S * C) E unit).
Definition default_remove (id : ChannelId) : M S E unit := λ s,
  let '(r, (s, _)) := remove_if unit (λ v c, (bool_decide (v = id), c)) (s, tt) in (r, s).
Definition default_remove_all : M S E unit := λ s,
  let '(r, (s, _)) := remove_if unit (λ _ c, (true, c)) (s, tt) in (r, s).
End Defaults.

(** * The in-memory state *)
Section Memory.
Context `{Hpke}.

(** A [BTreeMap] of channels; the mutex is not poisoned, because a panic of a
    method ends the program's use of the state. *)
Definition MemAfc : Type := list (ChannelId * Directed SealKey OpenKey).
Definition mem_afc_new : MemAfc := [].

Definition mem_afc_seal {X T} (id : ChannelId) (f : M (SealKey * X) AfcError T)
    : M (MemAfc * X) AfcError (AfcError + T) := λ '(chans, x),
  match bt_get id chans with
  | None => (Err (AeNotFound id), (chans, x))
  | Some keys =>
    match dir_seal keys with
    | None => (Err (AeNotFound id), (chans, x))
    | Some key =>
      let '(r, (key, x)) := f (key, x) in
      (closure_result r, (bt_insert id (dir_set_seal key keys) chans, x))
    end
  end.

Definition mem_afc_open {X T} (id : ChannelId) (f : OpenKey → M X AfcError T)
    : M (MemAfc * X) AfcError (AfcError + T) := λ '(chans, x),
  match bt_get id chans with
  | None => (Err (AeNotFound id), (chans, x))
  | Some keys =>
    match dir_open keys with
    | None => (Err (AeNotFound id), (chans, x))
    | Some key => let '(r, x) := f key x in (closure_result r, (chans, x))
    end
  end.

Definition mem_afc_exists {E} (id : ChannelId) : M MemAfc E bool := λ chans,
  (Ok (bt_contains id chans), chans).

#[export] Instance mem_afc_state : AfcState MemAfc := {|
  afc_seal X T := mem_afc_seal;
  afc_open X T := mem_afc_open;
  afc_exists := mem_afc_exists
|}.

Definition mem_afc_add (id : ChannelId) (keys : Directed SealKey OpenKey) : M MemAfc string unit :=
  λ chans, (Ok tt, bt_insert id keys chans).
Definition mem_afc_remove (id : ChannelId) : M MemAfc string unit := λ chans,
  (Ok tt, bt_remove id chans).
Definition mem_afc_remove_all : M MemAfc string unit := λ _, (Ok tt, []).
(** [BTreeMap::retain], in the order of the keys. *)
Fixpoint bt_retain {V C} (f : ChannelId → C → bool * C) (m : list (ChannelId * V)) (c : C)
    : list (ChannelId * V) * C :=
  match m with
  | [] => ([], c)
  | (id, v) :: r =>
    let '(drop_it, c) := f id c in
    let '(r, c) := bt_retain f r c in
    (if drop_it then r else (id, v) :: r, c)
  end.
Definition mem_afc_remove_if {C} (f : ChannelId → C → bool * C) : M (MemAfc * C) string unit :=
  λ '(chans, c), (Ok tt, bt_retain f chans c).

(** What a channel map shows of its keys. *)
Definition mem_seal_key `{!HpkeLaws} (s : MemAfc) (id : ChannelId) : option (list u8 * list u8) :=
  d ← bt_get id s; k ← dir_seal d; Some (seal_key_of (sk_ctx k)).
Definition mem_open_key `{!HpkeLaws} (s : MemAfc) (id : ChannelId) : option (list u8 * list u8) :=
  d ← bt_get id s; k ← dir_open d; Some (open_key_of (ok_ctx k)).
End Memory.

Section MemoryLaws.
Context `{HpkeLaws}.

(** Writing back a key of the same identity changes nothing that shows. *)
Lemma mem_keys_set s id d k k' c :
  bt_get id s = Some d → dir_seal d = Some k →
  seal_key_of (sk_ctx k') = seal_key_of (sk_ctx k) →
  mem_seal_key (bt_insert id (dir_set_seal k' d) s) c = mem_seal_key s c ∧
  mem_open_key (bt_insert id (dir_set_seal k' d) s) c = mem_open_key s c.
Proof.
  intros Hg Hd Hk. unfold mem_seal_key, mem_open_key. rewrite bt_get_insert.
  destruct (ord_eqb c id) eqn:E; [apply ord_eqb_true in E as ->|done]. rewrite Hg. simpl.
  rewrite dir_seal_set, dir_open_set, Hd. simpl. by rewrite Hk.
Qed.

#[export] Program Instance mem_afc_laws : AfcLaws MemAfc := {|
  afc_inv := bt_wf;
  afc_seal_key := mem_seal_key;
  afc_open_key := mem_open_key;
  afc_open_imports _ _ := true
|}.
Next Obligation.
  intros s id X T f x Hinv Hf. cbn [afc_seal mem_afc_state]. unfold mem_afc_seal.
  destruct (bt_get id s) as [d|] eqn:Hg; [|by unfold mem_seal_key; rewrite Hg].
  destruct (dir_seal d) as [k|] eqn:Hd; [|by unfold mem_seal_key; rewrite Hg; simpl; rewrite Hd].
  destruct (Hf k) as [Hk _]. destruct (f (k, x)) as [r [k' x']] eqn:Hr. simpl in Hk.
  pose proof (λ c, mem_keys_set s id d k k' c Hg Hd Hk) as Hkeys.
  split_and!; [by apply bt_wf_insert|apply Hkeys..|].
  assert (mem_seal_key s id = Some (seal_key_of (sk_ctx k))) as ->
    by (unfold mem_seal_key; rewrite Hg; simpl; by rewrite Hd).
  right. exists k. by rewrite Hr.
Qed.
Next Obligation.
  intros s id X T f x Hinv Hf. cbn [afc_open mem_afc_state]. unfold mem_afc_open.
  destruct (bt_get id s) as [d|] eqn:Hg; [|by unfold mem_open_key; rewrite Hg].
  destruct (dir_open d) as [k|] eqn:Hd; [|by unfold mem_open_key; rewrite Hg; simpl; rewrite Hd].
  destruct (f k x) as [r x'] eqn:Hr. split_and!; [done..|].
  assert (mem_open_key s id = Some (open_key_of (ok_ctx k))) as ->
    by (unfold mem_open_key; rewrite Hg; simpl; by rewrite Hd).
  right. exists k. by rewrite Hr.
Qed.
Next Obligation.
  intros s id Hinv. cbn [afc_exists mem_afc_state]. unfold mem_afc_exists. do 2 f_equal.
  unfold bt_contains, mem_seal_key, mem_open_key.
  by destruct (bt_get id s) as [[k|k|k o]|].
Qed.

(** ** The writer's side *)
Lemma bt_retain_pure {V C} (p : ChannelId → bool) (m : list (ChannelId * V)) (c : C) :
  bt_retain (λ id c, (p id, c)) m c = (List.filter (λ e, negb (p e.1)) m, c).
Proof. induction m as [|[id v] m IH]; [done|]. cbn. rewrite IH. by destruct (p id). Qed.

Lemma mem_afc_default_remove id s :
  bt_wf s → default_remove (λ C, mem_afc_remove_if) id s = mem_afc_remove id s.
Proof.
  intros Hwf. unfold default_remove, mem_afc_remove_if, mem_afc_remove. cbn.
  rewrite (bt_retain_pure (λ v, bool_decide (v = id))). f_equal.
  apply bt_ext; [by apply bt_wf_filter|by apply bt_wf_remove|]. intros k. rewrite bt_get_filter, bt_get_remove by done.
  destruct (ord_eqb k id) eqn:E; [apply ord_eqb_true in E|apply ord_eqb_false in E];
    destruct (bt_get k s); simpl; try done.
  - by rewrite bool_decide_eq_true_2.
  - by rewrite bool_decide_eq_false_2.
Qed.
End MemoryLaws.

(** Fast channels: growable buffers ([aranya-fast-channels/src/buf.rs]). The
    trait [Buf] is a class with laws; [FixedBuf] and [Vec] are instances. *)

(** * [Buf] *)
(** [buf_bytes] is [Deref] to the used bytes, [buf_write] what writes through
    [DerefMut] leave there (as many bytes as before). *)
Class Buf (B : Type) := {
  buf_bytes : B → list u8;
  buf_write : list u8 → B → B;
  buf_truncate : nat → B → B;
  buf_try_reserve_exact : nat → M B AllocError unit;
  buf_try_resize : nat → u8 → M B AllocError unit
}.
#[global] Hint Mode Buf ! : typeclass_instances.

(** The provided method [zeroize]. *)
Definition buf_zeroize `{Buf B} (b : B) : B :=
  buf_write (replicate (length (buf_bytes b)) Byte.x00) b.

Class BufLaws (B : Type) `{Buf B} := {
  buf_wf : B → Prop;
  buf_wf_len b : buf_wf b → (Z.of_nat (length (buf_bytes b)) < pow64)%Z;
  buf_write_law l b : buf_wf b → length l = length (buf_bytes b) →
    buf_wf (buf_write l b) ∧ buf_bytes (buf_write l b) = l;
  buf_truncate_law n b : buf_wf b →
    buf_wf (buf_truncate n b) ∧ buf_bytes (buf_truncate n b) = take n (buf_bytes b);
  (** Reserving keeps the bytes; what was reserved can be used. *)
  buf_reserve_law n b : buf_wf b →
    match buf_try_reserve_exact n b with
    | (Ok _, b') => buf_wf b' ∧ buf_bytes b' = buf_bytes b ∧
        ∀ v, ∃ b'', buf_try_resize (length (buf_bytes b) + n) v b' = (Ok tt, b'') ∧
             buf_wf b'' ∧ buf_bytes b'' = buf_bytes b ++ replicate n v
    | (Err _, b') => buf_wf b' ∧ buf_bytes b' = buf_bytes b
    | (Panic _, _) => False
    end
}.
#[global] Hint Mode BufLaws ! - : typeclass_instances.

Lemma buf_zeroize_law `{BufLaws B} (b : B) :
  buf_wf b → buf_wf (buf_zeroize b) ∧
  buf_bytes (buf_zeroize b) = replicate (length (buf_bytes b)) Byte.x00.
Proof. intros Hb. apply buf_write_law; [done|]. by rewrite length_replicate. Qed.

(** * [FixedBuf] *)
(** The used bytes are [data[..len]]; the rest of [data] can be grown into. *)
Record FixedBuf := mkFixedBuf { fb_data : list u8; fb_len : nat }.

Definition from_slice_mut (data : list u8) (len : nat) : option FixedBuf :=
  if len <=? length data then Some (mkFixedBuf data len) else None.
Definition fixed_capacity (b : FixedBuf) : nat := length (fb_data b).

Definition fixed_truncate (len : nat) (b : FixedBuf) : FixedBuf :=
  if len <? fb_len b then mkFixedBuf (fb_data b) len else b.

Definition fixed_try_reserve_exact (additional : nat) : M FixedBuf AllocError unit := λ b,
  match checked_sub (fixed_capacity b) (fb_len b) with
  | None => (Panic "attempt to subtract with overflow", b)
  | Some avail => if avail <? additional then (Err AllocDefault, b) else (Ok tt, b)
  end.

Definition fixed_try_resize (new_len : nat) (value : u8) : M FixedBuf AllocError unit := λ b,
  let old_len := fb_len b in
  if old_len <? new_len then
    match fixed_try_reserve_exact (new_len - old_len) b with
    | (Ok _, b) =>
      if new_len <=? length (fb_data b) then
        (Ok tt, mkFixedBuf (take old_len (fb_data b) ++ replicate (new_len - old_len) value
                            ++ drop new_len (fb_data b)) new_len)
      else (Err (AllocBug "should have enough capacity"), b)
    | (Err e, b) => (Err e, b)
    | (Panic w, b) => (Panic w, b)
    end
  else (Ok tt, fixed_truncate new_len b).

#[export] Instance fixed_buf : Buf FixedBuf := {|
  buf_bytes b := take (fb_len b) (fb_data b);
  buf_write l b := mkFixedBuf (l ++ drop (fb_len b) (fb_data b)) (fb_len b);
  buf_truncate := fixed_truncate;
  buf_try_reserve_exact := fixed_try_reserve_exact;
  buf_try_resize := fixed_try_resize
|}.

(** What [from_slice_mut] establishes; slices have at most [isize::MAX] bytes. *)
Definition fixed_wf (b : FixedBuf) : Prop :=
  fb_len b ≤ length (fb_data b) ∧ (Z.of_nat (length (fb_data b)) < 2 ^ 63)%Z.

Lemma from_slice_mut_wf data len b :
  (Z.of_nat (length data) < 2 ^ 63)%Z → from_slice_mut data len = Some b →
  fixed_wf b ∧ buf_bytes b = take len data.
Proof.
  unfold from_slice_mut. intros Hd. case_match eqn:E; [|done]. apply Nat.leb_le in E.
  by intros [= <-].
Qed.

(** Growing into reserved space appends the fill byte. *)
Lemma fixed_resize_grow n v b :
  fixed_wf b → fb_len b + n ≤ length (fb_data b) →
  ∃ b', fixed_try_resize (fb_len b + n) v b = (Ok tt, b') ∧ fixed_wf b' ∧
        buf_bytes b' = buf_bytes b ++ replicate n v.
Proof.
  intros [Hl Hm] Hn. destruct b as [data len]. unfold fixed_try_resize. cbn [fb_len fb_data] in *.
  destruct (Nat.ltb_spec len (len + n)).
  - unfold fixed_try_reserve_exact, checked_sub, fixed_capacity. cbn [fb_len fb_data].
    rewrite (proj2 (Nat.leb_le _ _) Hl), (proj2 (Nat.ltb_ge _ _)) by lia.
    cbn [fb_len fb_data]. rewrite (proj2 (Nat.leb_le _ _) Hn). replace (len + n - len) with n by lia.
    eexists. split; [done|]. unfold fixed_wf. cbn.
    rewrite !length_app, length_take, length_replicate, length_drop. split_and!; [lia..|].
    rewrite (assoc_L (++)), take_app_length'; [done|].
    rewrite length_app, length_take, length_replicate. lia.
  - assert (n = 0) as -> by lia. exists (mkFixedBuf data len).
    unfold fixed_truncate. cbn [fb_len fb_data]. rewrite (proj2 (Nat.ltb_ge _ _)) by lia.
    split_and!; [done|by split|]. by rewrite app_nil_r.
Qed.

#[export] Program Instance fixed_buf_laws : BufLaws FixedBuf := {| buf_wf := fixed_wf |}.
Next Obligation.
  intros b [Hl Hm]. cbn. rewrite length_take. unfold pow64. lia.
Qed.
Next Obligation.
  intros l [data len] [Hl Hm]. cbn in *. rewrite length_take. intros Hlen.
  unfold fixed_wf. cbn. rewrite length_app, length_drop. split_and!; [lia..|].
  by rewrite take_app_length' by lia.
Qed.
Next Obligation.
  intros n [data len] [Hl Hm]. cbn [buf_truncate buf_bytes fixed_buf fb_len fb_data] in *.
  unfold fixed_truncate. cbn [fb_len fb_data].
  destruct (Nat.ltb_spec n len); unfold fixed_wf; cbn; split_and!; try lia.
  - by rewrite take_take, Nat.min_l by lia.
  - rewrite take_take, Nat.min_r by lia. done.
Qed.
Next Obligation.
  intros n b [Hl Hm]. cbn [buf_try_reserve_exact fixed_buf].
  unfold fixed_try_reserve_exact, checked_sub, fixed_capacity.
  rewrite (proj2 (Nat.leb_le _ _) Hl). destruct (Nat.ltb_spec (length (fb_data b) - fb_len b) n).
  - by split_and!.
  - split_and!; [done..|]. intros v. cbn [buf_bytes buf_try_resize fixed_buf].
    rewrite length_take, Nat.min_l by done. apply fixed_resize_grow; [by split|lia].
Qed.

(** * [Vec<u8>] *)
(** A vector has a capacity; [alloc] says which capacities the allocator
    grants. Capacities stay below [isize::MAX]. *)
Record VecBuf := mkVecBuf { vb_data : list u8; vb_cap : nat }.

Section Vec.
Context (alloc : nat → bool).

Definition vec_try_reserve_exact (additional : nat) : M VecBuf AllocError unit := λ b,
  let len := length (vb_data b) in
  if additional <=? vb_cap b - len then (Ok tt, b)
  else if (Z.of_nat (len + additional) <? 2 ^ 63)%Z && alloc (len + additional)
  then (Ok tt, mkVecBuf (vb_data b) (len + additional))
  else (Err AllocTryReserve, b).

(** [Vec::resize]: growing beyond the capacity panics where it cannot. *)
Definition vec_resize (new_len : nat) (value : u8) : M VecBuf AllocError unit := λ b,
  let len := length (vb_data b) in
  if len <? new_len then
    if (new_len <=? vb_cap b) || ((Z.of_nat new_len <? 2 ^ 63)%Z && alloc new_len)
    then (Ok tt, mkVecBuf (vb_data b ++ replicate (new_len - len) value) (vb_cap b `max` new_len))
    else (Panic "capacity overflow", b)
  else (Ok tt, mkVecBuf (take new_len (vb_data b)) (vb_cap b)).

Definition vec_buf : Buf VecBuf := {|
  buf_bytes := vb_data;
  buf_write l b := mkVecBuf l (vb_cap b);
  buf_truncate n b := mkVecBuf (take n (vb_data b)) (vb_cap b);
  buf_try_reserve_exact := vec_try_reserve_exact;
  buf_try_resize := vec_resize
|}.

Definition vec_wf (b : VecBuf) : Prop :=
  length (vb_data b) ≤ vb_cap b ∧ (Z.of_nat (vb_cap b) < 2 ^ 63)%Z.

Lemma vec_resize_grow n v b :
  vec_wf b → length (vb_data b) + n ≤ vb_cap b →
  ∃ b', vec_resize (length (vb_data b) + n) v b = (Ok tt, b') ∧ vec_wf b' ∧
        vb_data b' = vb_data b ++ replicate n v.
Proof.
  intros [Hl Hm] Hn. destruct b as [data cap]. unfold vec_resize, vec_wf. cbn [vb_data vb_cap] in *.
  destruct (Nat.ltb_spec (length data) (length data + n)).
  - rewrite (proj2 (Nat.leb_le _ _) Hn). cbn [orb]. eexists. split; [done|]. cbn [vb_data vb_cap].
    replace (length data + n - length data) with n by lia.
    rewrite length_app, length_replicate. split_and!; [lia..|done].
  - assert (n = 0) as -> by lia. eexists. split; [done|]. cbn.
    rewrite app_nil_r, take_ge by lia. done.
Qed.

#[export] Program Instance vec_buf_laws : @BufLaws VecBuf vec_buf := {| buf_wf := vec_wf |}.
Next Obligation. intros b [Hl Hm]. cbn. unfold pow64. lia. Qed.
Next Obligation.
  intros l [data cap] [Hl Hm] Hlen. cbn in *. unfold vec_wf. cbn. split_and!; [lia..|done].
Qed.
Next Obligation.
  intros n [data cap] [Hl Hm]. cbn in *. unfold vec_wf. cbn. rewrite length_take.
  split_and!; [lia..|done].
Qed.
Next Obligation.
  intros n b [Hl Hm]. cbn [buf_try_reserve_exact vec_buf]. unfold vec_try_reserve_exact.
  destruct (Nat.leb_spec n (vb_cap b - length (vb_data b))).
  - split_and!; [done..|]. intros v. apply vec_resize_grow; [done|lia].
  - destruct (_ && _) eqn:E; [|by split_and!]. apply andb_true_iff in E as [E%Z.ltb_lt _].
    assert (vec_wf (mkVecBuf (vb_data b) (length (vb_data b) + n))) by (unfold vec_wf; cbn; lia).
    split_and!; [done..|]. intros v. by apply (vec_resize_grow n v (mkVecBuf _ _)).
Qed.
End Vec.

(** Fast channels: the client that encrypts and decrypts messages
    ([aranya-fast-channels/src/client.rs]), over any [AfcState] and any [Buf].
    The parts of a message are ordered ciphertext, tag, data header. *)

Section Client.
Context `{Hpke}.
Context {S : Type} `{!AfcState S}.
(** Whether the build checks the overflow of plain arithmetic. *)
Context (checked : bool).

Definition CLIENT_OVERHEAD : nat := TAG_SIZE + DATA_HEADER_SIZE.

(** The authenticated data of a channel's messages. *)
Definition client_auth_data (l : ChanLabel) : AuthData :=
  mkAuthData (version_to_u16 version_current) (label_u32 l).

(** A buffer overwritten with zeros. *)
Definition zeroed (b : list u8) : list u8 := replicate (length b) Byte.x00.

(** [do_seal]: runs [f] with the channel's key, then writes the header. *)
Definition do_seal {X} (id : ChannelId) (f : AuthData → M (SealKey * X) AfcError Z)
    : M (S * (X * list u8)) AfcError Header := λ '(s, (x, header)),
  let '(r, (s, x)) := afc_seal id (f (client_auth_data (ch_label id))) (s, x) in
  match flatten_result r with
  | Ok seq =>
    let '(r, header) := data_header_encode (mkDataHeader (ch_label id) seq) header in
    (match r with
     | Ok _ => Ok (mkHeader version_current MtData (ch_label id))
     | Err e => Err (AeInvalidHeader e)
     | Panic w => Panic w
     end, (s, (x, header)))
  | Err e => (Err e, (s, (x, header)))
  | Panic w => (Panic w, (s, (x, header)))
  end.

(** The closure of [seal]: [aead.seal(out, plaintext, ad).map_err(Into::into)]. *)
Definition seal_closure (plaintext : list u8) (ad : AuthData) : M (SealKey * list u8) AfcError Z :=
  λ st, let '(r, st) := seal_key_seal plaintext ad st in (map_err afc_of_seal r, st).

Definition client_seal (id : ChannelId) (plaintext : list u8) : M (S * list u8) AfcError Header :=
  λ '(s, dst),
  match checked_add (length plaintext) CLIENT_OVERHEAD with
  | None => (Err AeInputTooLarge, (s, dst))
  | Some ciphertext_len =>
    if ciphertext_len <=? length dst then
      let window := take ciphertext_len dst in
      let rest := drop ciphertext_len dst in
      match split_last_chunk DATA_HEADER_SIZE window with
      | None => (Err (AeBug "we've already checked that `dst` contains enough space"), (s, dst))
      | Some (out, header) =>
        let '(r, (s, (out, header))) := do_seal id (seal_closure plaintext) (s, (out, header)) in
        (r, (s, match r with Err _ => zeroed window | _ => out ++ header end ++ rest))
      end
    else (Err AeBufferTooSmall, (s, dst))
  end.

(** The closure of [seal_in_place]. *)
Definition seal_in_place_closure (ad : AuthData) : M (SealKey * (list u8 * list u8)) AfcError Z :=
  λ st, let '(r, st) := seal_key_seal_in_place ad st in (map_err afc_of_seal r, st).

(** [a - b] of two lengths: a panic or a wrap-around if it underflows. *)
Definition len_sub (a b : nat) : outcome AfcError Z :=
  if b <=? a then Ok (Z.of_nat (a - b))
  else if checked then Panic "attempt to subtract with overflow"
  else Ok (Z.of_nat a - Z.of_nat b + pow64)%Z.
(** [a + b] of two lengths, in the same way. *)
Definition len_add (a b : nat) : outcome AfcError nat :=
  match checked_add a b with
  | Some n => Ok n
  | None => if checked then Panic "attempt to add with overflow"
            else Ok (Z.to_nat (Z.of_nat a + Z.of_nat b - pow64))
  end.
(** [split_at_mut_checked]. *)
Definition split_at_checked (mid : Z) (b : list u8) : option (list u8 * list u8) :=
  if (mid <=? Z.of_nat (length b))%Z then Some (take (Z.to_nat mid) b, drop (Z.to_nat mid) b) else None.

Definition client_seal_in_place `{Buf B} (id : ChannelId) : M (S * B) AfcError Header :=
  λ '(s, data),
  match buf_try_reserve_exact CLIENT_OVERHEAD data with
  | (Err e, data) => (Err (AeAllocation e), (s, data))
  | (Panic w, data) => (Panic w, (s, data))
  | (Ok _, data) =>
    match len_add (length (buf_bytes data)) CLIENT_OVERHEAD with
    | Err e => (Err e, (s, data))
    | Panic w => (Panic w, (s, data))
    | Ok new_len =>
      match buf_try_resize new_len Byte.x00 data with
      | (Err e, data) => (Err (AeAllocation e), (s, data))
      | (Panic w, data) => (Panic w, (s, data))
      | (Ok _, data) =>
        match split_last_chunk DATA_HEADER_SIZE (buf_bytes data) with
        | None => (Err (AeBug "we've already checked that `data` can fit a header"), (s, data))
        | Some (rest, header) =>
          match len_sub (length rest) TAG_SIZE with
          | Err e => (Err e, (s, data))
          | Panic w => (Panic w, (s, data))
          | Ok mid =>
            match split_at_checked mid rest with
            | None => (Err (AeBug "we've already checked that `data` can fit a tag"), (s, data))
            | Some (out, tag) =>
              let '(r, (s, ((out, tag), header))) :=
                do_seal id seal_in_place_closure (s, ((out, tag), header)) in
              (r, (s, match r with
                      | Err _ => buf_zeroize data
                      | _ => buf_write (out ++ tag ++ header) data
                      end))
            end
          end
        end
      end
    end
  end.

(** [do_open]: runs [f] with the channel's key. *)
Definition do_open {X T} (id : ChannelId) (seq : Z) (f : OpenKey → AuthData → Z → M X AfcError T)
    : M (S * X) AfcError T := λ '(s, x),
  let '(r, (s, x)) := afc_open id (λ aead, f aead (client_auth_data (ch_label id)) seq) (s, x) in
  (flatten_result r, (s, x)).

Definition open_closure (ciphertext : list u8) (aead : OpenKey) (ad : AuthData) (seq : Z)
    : M (list u8) AfcError unit := λ dst,
  let '(r, dst) := open_key_open aead ciphertext ad seq dst in (map_err afc_of_open r, dst).
Definition open_in_place_closure (tag : list u8) (aead : OpenKey) (ad : AuthData) (seq : Z)
    : M (list u8) AfcError unit := λ data,
  let '(r, data) := open_key_open_in_place aead tag ad seq data in (map_err afc_of_open r, data).

Definition client_open (peer : NodeId) (ciphertext : list u8) : M (S * list u8) AfcError (ChanLabel * Z) :=
  λ '(s, dst),
  match split_last_chunk DATA_HEADER_SIZE ciphertext with
  | None => (Err (AeInvalidHeader HeInvalidSize), (s, dst))
  | Some (ciphertext, header) =>
    match data_header_try_parse header with
    | Err e => (Err (AeInvalidHeader e), (s, dst))
    | Panic w => (Panic w, (s, dst))
    | Ok h =>
      match checked_sub (length ciphertext) TAG_SIZE with
      | None => (Err AeAuthentication, (s, dst))
      | Some plaintext_len =>
        if length dst <? plaintext_len then (Err AeBufferTooSmall, (s, dst))
        else
          let id := mkChannelId peer (dh_label h) in
          let '(r, (s, dst)) := do_open id (dh_seq h) (open_closure ciphertext) (s, dst) in
          match r with
          | Ok _ => (Ok (dh_label h, dh_seq h), (s, dst))
          | Err e => (Err e, (s, zeroed dst))
          | Panic w => (Panic w, (s, dst))
          end
      end
    end
  end.

Definition client_open_in_place `{Buf B} (peer : NodeId) : M (S * B) AfcError (ChanLabel * Z) :=
  λ '(s, data),
  match split_last_chunk DATA_HEADER_SIZE (buf_bytes data) with
  | None => (Err (AeInvalidHeader HeInvalidSize), (s, data))
  | Some (rest, header) =>
    match data_header_try_parse header with
    | Err e => (Err (AeInvalidHeader e), (s, data))
    | Panic w => (Panic w, (s, data))
    | Ok h =>
      match len_sub (length rest) TAG_SIZE with
      | Err e => (Err e, (s, data))
      | Panic w => (Panic w, (s, data))
      | Ok mid =>
        match split_at_checked mid rest with
        | None => (Err AeAuthentication, (s, data))
        | Some (out, tag) =>
          let id := mkChannelId peer (dh_label h) in
          let plaintext_len := length out in
          let '(r, (s, out)) := do_open id (dh_seq h) (open_in_place_closure tag) (s, out) in
          let data := buf_write (out ++ tag ++ header) data in
          match r with
          | Ok _ => (Ok (dh_label h, dh_seq h), (s, buf_truncate plaintext_len data))
          | Err e => (Err e, (s, buf_zeroize data))
          | Panic w => (Panic w, (s, data))
          end
        end
      end
    end
  end.
End Client.

(** Fast channels: what the methods of the client do, on every branch, for any
    state that satisfies [AfcLaws] and any buffer that satisfies [BufLaws]. *)

Section ClientProofs.
Context `{HpkeLaws}.
Context {S : Type} `{!AfcState S, !AfcLaws S}.

(** The channels look the same. *)
Definition same_keys (s s' : S) : Prop :=
  (∀ c, afc_seal_key s' c = afc_seal_key s c) ∧ (∀ c, afc_open_key s' c = afc_open_key s c).

Lemma flatten_closure {T} (r : outcome AfcError T) : flatten_result (closure_result r) = r.
Proof. by destruct r. Qed.

(** The bytes of the authenticated data of a label. *)
Definition ad_bytes (l : ChanLabel) : list u8 := auth_data_to_bytes (client_auth_data l).

(** * Closures *)
Lemma seal_closure_run pt l k out r k' out' :
  length out = length pt + TAG_SIZE →
  seal_closure pt (client_auth_data l) (k, out) = (r, (k', out')) →
  seal_key_of (sk_ctx k') = seal_key_of (sk_ctx k) ∧ length out' = length out ∧
  match r with
  | Ok q => q = seal_key_seq k ∧ u64_ok q ∧ (q ≤ max_seq)%Z ∧ seal_key_seq k' = (q + 1)%Z ∧
            out' = aead_seal (seal_key_of (sk_ctx k)) q (ad_bytes l) pt
  | Err _ => (seal_key_seq k ≤ seal_key_seq k')%Z
  | Panic _ => False
  end.
Proof.
  intros Hlen. unfold seal_closure, seal_key_seal. fold (ad_bytes l).
  pose proof (seal_ctx_seal_law (sk_ctx k) pt (ad_bytes l) out Hlen) as HL.
  destruct (seal_ctx_seal _ _ _) as [[q|e|w] [c' o']]; intros [= <- <- <-]; cbn.
  - destruct HL as (-> & ? & ? & ? & ? & ->). by rewrite aead_length.
  - by destruct HL as (? & ? & ?).
  - done.
Qed.

Lemma seal_in_place_closure_run l k data tag r k' data' tag' :
  length tag = TAG_SIZE →
  seal_in_place_closure (client_auth_data l) (k, (data, tag)) = (r, (k', (data', tag'))) →
  seal_key_of (sk_ctx k') = seal_key_of (sk_ctx k) ∧ length data' = length data ∧
  length tag' = length tag ∧
  match r with
  | Ok q => q = seal_key_seq k ∧ u64_ok q ∧ (q ≤ max_seq)%Z ∧ seal_key_seq k' = (q + 1)%Z ∧
            data' ++ tag' = aead_seal (seal_key_of (sk_ctx k)) q (ad_bytes l) data
  | Err _ => (seal_key_seq k ≤ seal_key_seq k')%Z
  | Panic _ => False
  end.
Proof.
  intros Hlen. unfold seal_in_place_closure, seal_key_seal_in_place. fold (ad_bytes l).
  pose proof (seal_ctx_seal_in_place_law (sk_ctx k) (ad_bytes l) data tag Hlen) as HL.
  destruct (seal_ctx_seal_in_place _ _) as [[q|e|w] [c' [d' t']]]; intros [= <- <- <- <-]; cbn.
  - destruct HL as (-> & ? & ? & ? & ? & Hd & E). split_and!; try done.
    apply (f_equal length) in E. rewrite length_app, aead_length in E. lia.
  - by destruct HL as (? & ? & ? & ?).
  - done.
Qed.

Lemma seal_closure_good pt l out :
  length out = length pt + TAG_SIZE → good_closure (seal_closure pt (client_auth_data l)) out.
Proof.
  intros Hlen k. destruct (seal_closure _ _ _) as [r [k' o']] eqn:E.
  apply seal_closure_run in E as (? & _ & Hr); [|done]. split; [done|]. cbn.
  destruct r; [destruct Hr as (-> & _ & _ & -> & _); lia|done..].
Qed.

Lemma seal_in_place_closure_good l data tag :
  length tag = TAG_SIZE → good_closure (seal_in_place_closure (client_auth_data l)) (data, tag).
Proof.
  intros Hlen k. destruct (seal_in_place_closure _ _) as [r [k' [d' t']]] eqn:E.
  apply seal_in_place_closure_run in E as (? & _ & _ & Hr); [|done]. split; [done|]. cbn.
  destruct r; [destruct Hr as (-> & _ & _ & -> & _); lia|done..].
Qed.

Lemma open_closure_run ct key l q dst r dst' :
  TAG_SIZE ≤ length ct → length ct - TAG_SIZE ≤ length dst →
  open_closure ct key (client_auth_data l) q dst = (r, dst') →
  length dst' = length dst ∧
  match r with
  | Ok _ => (q ≤ max_seq)%Z ∧ ∃ pt, ct = aead_seal (open_key_of (ok_ctx key)) q (ad_bytes l) pt ∧
            dst' = pt ++ drop (length pt) dst
  | Err AeKeyExpired => (max_seq < q)%Z
  | Err AeAuthentication =>
      (q ≤ max_seq)%Z ∧ aead_open (open_key_of (ok_ctx key)) q (ad_bytes l) ct = None
  | _ => False
  end.
Proof.
  intros Ht Hd. unfold open_closure, open_key_open. fold (ad_bytes l).
  pose proof (open_ctx_open_at_law (ok_ctx key) ct (ad_bytes l) q dst Ht Hd) as HL.
  destruct (open_ctx_open_at _ _ _ _ _) as [[[]|[]|] d']; try done; intros [= <- <-].
  - destruct HL as (? & pt & Ho & ->). apply aead_tidy in Ho as Hc.
    rewrite Hc, aead_length in Hd. rewrite length_app, length_drop. cbn.
    split_and!; [lia|done|eauto].
  - by destruct HL.
  - by destruct HL as (? & ? & ?).
Qed.

Lemma open_in_place_closure_run tag key l q data r data' :
  length tag = TAG_SIZE →
  open_in_place_closure tag key (client_auth_data l) q data = (r, data') →
  length data' = length data ∧
  match r with
  | Ok _ => (q ≤ max_seq)%Z ∧
            data ++ tag = aead_seal (open_key_of (ok_ctx key)) q (ad_bytes l) data'
  | Err AeKeyExpired => (max_seq < q)%Z
  | Err AeAuthentication =>
      (q ≤ max_seq)%Z ∧ aead_open (open_key_of (ok_ctx key)) q (ad_bytes l) (data ++ tag) = None
  | _ => False
  end.
Proof.
  intros Ht. unfold open_in_place_closure, open_key_open_in_place. fold (ad_bytes l).
  pose proof (open_ctx_open_in_place_at_law (ok_ctx key) tag (ad_bytes l) q data Ht) as HL.
  destruct (open_ctx_open_in_place_at _ _ _ _ _) as [[[]|[]|] d']; try done; intros [= <- <-].
  - destruct HL as (? & Ho). apply aead_tidy in Ho. split_and!; [|done..].
    apply (f_equal length) in Ho. rewrite length_app, aead_length in Ho. lia.
  - by destruct HL.
  - by destruct HL as (? & ? & ?).
Qed.

(** * [do_seal] and [do_open] *)
Lemma do_seal_spec {X} id (f : AuthData → M (SealKey * X) AfcError Z) s x header r s' x' header' :
  afc_inv s → good_closure (f (client_auth_data (ch_label id))) x →
  length header = DATA_HEADER_SIZE →
  do_seal id f (s, (x, header)) = (r, (s', (x', header'))) →
  afc_inv s' ∧ same_keys s s' ∧
  match r with
  | Ok h => h = mkHeader version_current MtData (ch_label id) ∧ ∃ key key' q,
      afc_seal_key s id = Some (seal_key_of (sk_ctx key)) ∧
      f (client_auth_data (ch_label id)) (key, x) = (Ok q, (key', x')) ∧
      header' = data_header_bytes (mkDataHeader (ch_label id) q)
  | Err e => header' = header ∧
      ((afc_seal_key s id = None ∧ e = AeNotFound id) ∨
       (is_Some (afc_seal_key s id) ∧ ((∃ w, e = AeCrypto (CeImport w)) ∨
          ∃ key, f (client_auth_data (ch_label id)) (key, x) =
                 (Err e, (f (client_auth_data (ch_label id)) (key, x)).2))))
  | Panic _ => False
  end.
Proof.
  intros Hinv Hf Hh. unfold do_seal.
  pose proof (afc_seal_law s id X Z _ x Hinv Hf) as HL.
  destruct (afc_seal id _ _) as [r0 [s0 x0]]. destruct HL as (Hi & Hs & Ho & HL).
  destruct (afc_seal_key s id) as [k|] eqn:Hk.
  - destruct HL as [(w & -> & ->)|(key & <- & -> & ->)].
    + cbn. intros [= <- <- <- <-]. split_and!; [done..|]. right. split; [by eexists|].
      left. by eexists.
    + rewrite flatten_closure. destruct (Hf key) as [_ Hp].
      destruct (f _ (key, x)) as [[q|e|w] [key' x1]] eqn:E; cbn in Hp |- *; [| |done].
      * rewrite data_header_encode_spec by done. intros [= <- <- <- <-].
        split_and!; [done..|]. by exists key, key', q.
      * intros [= <- <- <- <-]. split_and!; [done..|]. right.
        split; [by eexists|]. right. exists key. by rewrite E.
  - destruct HL as [-> ->]. cbn. intros [= <- <- <- <-]. split_and!; [done..|]. by left.
Qed.

Lemma do_open_spec {X T} id q (f : OpenKey → AuthData → Z → M X AfcError T) s x r s' x' :
  afc_inv s → (∀ key, is_panic (f key (client_auth_data (ch_label id)) q x).1 = false) →
  do_open id q f (s, x) = (r, (s', x')) →
  afc_inv s' ∧ same_keys s s' ∧
  match afc_open_key s id with
  | None => r = Err (AeNotFound id) ∧ x' = x
  | Some k => (∃ w, afc_open_imports s k = false ∧ r = Err (AeCrypto (CeImport w)) ∧ x' = x) ∨
      ∃ key, open_key_of (ok_ctx key) = k ∧ f key (client_auth_data (ch_label id)) q x = (r, x')
  end.
Proof.
  intros Hinv Hf. unfold do_open.
  pose proof (afc_open_law s id X T (λ aead, f aead (client_auth_data (ch_label id)) q) x Hinv Hf) as HL.
  destruct (afc_open id _ _) as [r0 [s0 x0]]. destruct HL as (Hi & Hs & Ho & HL).
  intros [= <- <- <-]. split_and!; [done..|].
  destruct (afc_open_key s id) as [k|].
  - destruct HL as [(w & ? & -> & ->)|(key & <- & -> & ->)]; [left; by exists w|].
    right. exists key. rewrite flatten_closure. split; [done|]. by destruct (f _ _ _ _).
  - by destruct HL as [-> ->].
Qed.

(** * Sealing *)
(** A sealed message. *)
Definition sealed_message (k : list u8 * list u8) (q : Z) (l : ChanLabel) (pt : list u8) : list u8 :=
  aead_seal k q (ad_bytes l) pt ++ data_header_bytes (mkDataHeader l q).

Lemma length_sealed k q l pt : length (sealed_message k q l pt) = length pt + CLIENT_OVERHEAD.
Proof.
  unfold sealed_message, CLIENT_OVERHEAD. rewrite length_app, aead_length, length_data_header_bytes. lia.
Qed.

(** A buffer of the size of a message, split for [do_seal]. *)
Lemma split_window n (window : list u8) :
  length window = n + CLIENT_OVERHEAD →
  ∃ out header, split_last_chunk DATA_HEADER_SIZE window = Some (out, header) ∧
    window = out ++ header ∧ length out = n + TAG_SIZE ∧ length header = DATA_HEADER_SIZE.
Proof.
  unfold CLIENT_OVERHEAD. intros Hlen.
  destruct (split_last_chunk DATA_HEADER_SIZE window) as [[out header]|] eqn:E.
  - apply split_last_chunk_Some in E as [-> Hh]. rewrite length_app in Hlen.
    exists out, header. split_and!; [done..| |done]. lia.
  - apply split_last_chunk_None in E. lia.
Qed.

Lemma client_seal_spec id pt s dst r s' dst' :
  afc_inv s → client_seal id pt (s, dst) = (r, (s', dst')) →
  afc_inv s' ∧ same_keys s s' ∧ length dst' = length dst ∧
  match r with
  | Ok h => h = mkHeader version_current MtData (ch_label id) ∧ ∃ k q,
      afc_seal_key s id = Some k ∧ u64_ok q ∧ (q ≤ max_seq)%Z ∧
      dst' = sealed_message k q (ch_label id) pt ++ drop (length pt + CLIENT_OVERHEAD) dst
  | Err e => dst' = dst ∨ dst' = zeroed (take (length pt + CLIENT_OVERHEAD) dst) ++
                                 drop (length pt + CLIENT_OVERHEAD) dst
  | Panic _ => False
  end.
Proof.
  intros Hinv. unfold client_seal.
  destruct (checked_add _ _) as [n|] eqn:En; [|by intros [= <- <- <-]; split_and!; [..|left]].
  apply checked_add_Some in En as [-> _].
  destruct (Nat.leb_spec (length pt + CLIENT_OVERHEAD) (length dst)) as [Hle|];
    [|by intros [= <- <- <-]; split_and!; [..|left]].
  set (n := length pt + CLIENT_OVERHEAD) in *.
  destruct (split_window (length pt) (take n dst)) as (out & header & -> & Hw & Ho & Hh);
    [rewrite length_take; lia|].
  destruct (do_seal _ _ _) as [r0 [s0 [out' header']]] eqn:E. intros [= <- <- <-].
  pose proof (do_seal_spec _ _ _ _ _ _ _ _ _ Hinv (seal_closure_good pt (ch_label id) out Ho) Hh E)
    as (Hi & Hk & Hr).
  split_and!; [done|done| |].
  - destruct r0 as [h|e|w]; [| |done]; rewrite !length_app, ?length_drop.
    + destruct Hr as (-> & key & key' & q & _ & Hrun & ->).
      apply seal_closure_run in Hrun as (_ & -> & _); [|done].
      rewrite length_data_header_bytes. unfold n, CLIENT_OVERHEAD in *. lia.
    + unfold zeroed. rewrite length_replicate, length_take. lia.
  - destruct r0 as [h|e|w]; [|by right|done].
    destruct Hr as (-> & key & key' & q & Hkey & Hrun & ->). split; [done|].
    apply seal_closure_run in Hrun as (_ & _ & -> & ? & ? & _ & ->); [|done].
    eexists _, _. split_and!; [done..|]. done.
Qed.

(** * Opening *)
(** The messages that a channel of [peer] accepts. *)
Definition accepts (s : S) (peer : NodeId) (l : ChanLabel) (q : Z) (pt msg : list u8) : Prop :=
  u32_ok (label_u32 l) ∧ u64_ok q ∧ (q ≤ max_seq)%Z ∧ ∃ k,
  afc_open_key s (mkChannelId peer l) = Some k ∧ msg = sealed_message k q l pt.

(** What it takes for such a message to be opened. *)
Definition importable (s : S) (peer : NodeId) (l : ChanLabel) : Prop :=
  ∀ k, afc_open_key s (mkChannelId peer l) = Some k → afc_open_imports s k = true.

Lemma sealed_inj k q l pt (ct header : list u8) :
  u32_ok (label_u32 l) → u64_ok q → length header = DATA_HEADER_SIZE →
  ct ++ header = sealed_message k q l pt →
  ct = aead_seal k q (ad_bytes l) pt ∧ data_header_try_parse header = Ok (mkDataHeader l q).
Proof.
  intros Hl Hq Hh E. unfold sealed_message in E. apply app_inj_2 in E as [-> ->]; [|done].
  split; [done|]. by apply data_header_parse_bytes.
Qed.

(** The header of an accepted message names its channel and position. *)
Lemma accepts_split s peer l q pt ct h :
  u32_ok (label_u32 (dh_label h)) → u64_ok (dh_seq h) →
  accepts s peer l q pt (ct ++ data_header_bytes h) →
  l = dh_label h ∧ q = dh_seq h ∧ ∃ k, afc_open_key s (mkChannelId peer l) = Some k ∧
  (q ≤ max_seq)%Z ∧ ct = aead_seal k q (ad_bytes l) pt.
Proof.
  intros Hl Hq (Hl' & Hq' & Hm & k & Hk & E). apply sealed_inj in E as [-> Hp]; [|done..].
  rewrite data_header_parse_bytes in Hp by done. injection Hp as ->. split_and!; [done..|]. by exists k.
Qed.

Lemma client_open_spec peer msg s dst r s' dst' :
  afc_inv s → client_open peer msg (s, dst) = (r, (s', dst')) →
  afc_inv s' ∧ same_keys s s' ∧
  match r with
  | Ok (l, q) => ∃ pt, accepts s peer l q pt msg ∧ length pt ≤ length dst ∧
                       dst' = pt ++ drop (length pt) dst
  | Err _ => (dst' = dst ∨ dst' = zeroed dst) ∧
      ∀ l q pt, accepts s peer l q pt msg → importable s peer l → length dst < length pt
  | Panic _ => False
  end.
Proof.
  intros Hinv. unfold client_open.
  destruct (split_last_chunk _ msg) as [[ct header]|] eqn:Es.
  2:{ apply split_last_chunk_None in Es. intros [= <- <- <-]. split_and!; [done..|by left|].
      intros l q pt (_ & _ & _ & k & _ & ->). rewrite length_sealed in Es. unfold CLIENT_OVERHEAD in Es. lia. }
  apply split_last_chunk_Some in Es as [-> Hh].
  destruct (data_header_parse_total header Hh) as (h & -> & Eh & Hl & Hq).
  pose proof (λ l q pt, accepts_split s peer l q pt ct h Hl Hq) as Hacc. rewrite <- Eh in Hacc.
  destruct (checked_sub _ _) as [n|] eqn:Ec.
  2:{ apply checked_sub_None in Ec. intros [= <- <- <-]. split_and!; [done..|by left|].
      intros l q pt (-> & -> & k & _ & _ & ->)%Hacc. rewrite aead_length in Ec. lia. }
  apply checked_sub_Some in Ec as [Ht ->].
  destruct (Nat.ltb_spec (length dst) (length ct - TAG_SIZE)) as [Hd|Hd].
  { intros [= <- <- <-]. split_and!; [done..|by left|].
    intros l q pt (-> & -> & k & _ & _ & ->)%Hacc. rewrite aead_length in Hd. lia. }
  destruct (do_open _ _ _ _) as [r0 [s0 dst0]] eqn:E.
  apply do_open_spec in E as (Hi & Hk & Hr); [|done|].
  2:{ intros key. destruct (open_closure _ _ _ _ _) as [rc dc] eqn:Ec.
      apply open_closure_run in Ec as [_ Ec]; [|done..]. by destruct rc as [|[]|]. }
  destruct (afc_open_key s _) as [k|] eqn:Ek.
  2:{ destruct Hr as [-> ->]. intros [= <- <- <-]. split_and!; [done..|by right|].
      intros l q pt (-> & -> & k & Hk' & _)%Hacc. cbn in Ek. congruence. }
  destruct Hr as [(w & Hf & -> & ->)|(key & <- & Hrun)].
  { intros [= <- <- <-]. split_and!; [done..|by right|].
    intros l q pt (-> & -> & k' & Hk' & _)%Hacc Himp. specialize (Himp _ Hk').
    cbn in Ek. congruence. }
  apply open_closure_run in Hrun as [Hlen Hrun]; [|done..]. cbn [ch_label] in Hrun.
  destruct r0 as [[]|e|w]; intros [= <- <- <-]; [| |done]; (split; [done|]; split; [done|]).
  - destruct Hrun as (Hm & pt & -> & ->). exists pt.
    split; [|split; [rewrite aead_length in Hd; lia|done]]. split_and!; [done..|].
    eexists. split; [done|]. unfold sealed_message. by rewrite Eh; destruct h.
  - split; [right; unfold zeroed; by rewrite Hlen|].
    intros l q pt (-> & -> & k & Hk' & Hm & ->)%Hacc _. cbn in Ek.
    assert (k = open_key_of (ok_ctx key)) as -> by congruence.
    destruct e; try done; [lia|]. destruct Hrun as [_ Hrun]. by rewrite aead_roundtrip in Hrun.
Qed.

(** * In place *)
Context {B : Type} `{BufLaws B}.
Context (checked : bool).

Lemma len_sub_ok a b : b ≤ a → len_sub checked a b = Ok (Z.of_nat (a - b)).
Proof. intros Hb. unfold len_sub. by rewrite (proj2 (Nat.leb_le _ _) Hb). Qed.

Lemma split_at_checked_nat n (l : list u8) :
  n ≤ length l → split_at_checked (Z.of_nat n) l = Some (take n l, drop n l).
Proof.
  intros Hn. unfold split_at_checked. rewrite (proj2 (Z.leb_le _ _)) by lia. by rewrite Nat2Z.id.
Qed.

(** Splitting off the tag. *)
Lemma split_tag (rest : list u8) :
  TAG_SIZE ≤ length rest →
  ∃ out tag, split_at_checked (Z.of_nat (length rest - TAG_SIZE)) rest = Some (out, tag) ∧
    rest = out ++ tag ∧ length tag = TAG_SIZE ∧ length out = length rest - TAG_SIZE.
Proof.
  intros Ht. exists (take (length rest - TAG_SIZE) rest), (drop (length rest - TAG_SIZE) rest).
  rewrite split_at_checked_nat by lia. rewrite take_drop, length_take, length_drop.
  split_and!; [done..|lia|lia].
Qed.

Lemma client_seal_in_place_spec id s (data : B) r s' data' :
  afc_inv s → buf_wf data → client_seal_in_place checked id (s, data) = (r, (s', data')) →
  afc_inv s' ∧ same_keys s s' ∧ buf_wf data' ∧
  match r with
  | Ok h => h = mkHeader version_current MtData (ch_label id) ∧ ∃ k q,
      afc_seal_key s id = Some k ∧ u64_ok q ∧ (q ≤ max_seq)%Z ∧
      buf_bytes data' = sealed_message k q (ch_label id) (buf_bytes data)
  | Err e => buf_bytes data' = buf_bytes data ∨
      buf_bytes data' = replicate (length (buf_bytes data) + CLIENT_OVERHEAD) Byte.x00
  | Panic _ => False
  end.
Proof.
  intros Hinv Hwf. unfold client_seal_in_place.
  pose proof (buf_reserve_law CLIENT_OVERHEAD data Hwf) as HR.
  destruct (buf_try_reserve_exact _ data) as [[[]|e|w] d1]; [| |done].
  2:{ destruct HR as [? Hb]. intros [= <- <- <-]. split_and!; [done..|]. by left. }
  destruct HR as (Hwf1 & Hb1 & HR). destruct (HR Byte.x00) as (d2 & Hrs & Hwf2 & Hb2).
  pose proof (buf_wf_len d2 Hwf2) as Hlen. rewrite Hb2, length_app, length_replicate in Hlen.
  assert (len_add checked (length (buf_bytes d1)) CLIENT_OVERHEAD
          = Ok (length (buf_bytes data) + CLIENT_OVERHEAD)) as ->.
  { unfold len_add, checked_add. rewrite Hb1, (proj2 (Z.ltb_lt _ _)) by lia. done. }
  rewrite Hrs.
  assert (length (buf_bytes d2) = length (buf_bytes data) + CLIENT_OVERHEAD) as Hl2
    by (rewrite Hb2, length_app, length_replicate; done).
  destruct (split_window _ _ Hl2) as (rest & header & -> & Hw & Hr & Hh).
  rewrite len_sub_ok by lia.
  destruct (split_tag rest) as (out & tag & -> & -> & Htag & Hout); [lia|].
  assert (out = buf_bytes data) as ->.
  { rewrite Hb2, <- (assoc_L (++)) in Hw. apply app_inj_1 in Hw as [-> _]; [done|].
    rewrite length_app in *. lia. }
  destruct (do_seal _ _ _) as [r0 [s0 [[out' tag'] header']]] eqn:E. intros [= <- <- <-].
  apply do_seal_spec in E as (Hi & Hk & Hr0); [|done|by apply seal_in_place_closure_good|done].
  destruct (buf_zeroize_law d2 Hwf2) as [Hz1 Hz2].
  destruct r0 as [h|e|w]; [| |done].
  - destruct Hr0 as (-> & key & key' & q & Hkey & Hrun & ->).
    apply seal_in_place_closure_run in Hrun as (_ & Hld & Hlt & -> & ? & ? & _ & Hsealed); [|done].
    set (msg := out' ++ tag' ++ _).
    assert (msg = sealed_message (seal_key_of (sk_ctx key)) (seal_key_seq key) (ch_label id) (buf_bytes data))
      as Hmsg by (unfold msg, sealed_message; by rewrite (assoc_L (++)), Hsealed).
    destruct (buf_write_law msg d2 Hwf2) as [? Hbw]; [by rewrite Hmsg, length_sealed, Hl2|].
    split_and!; [done..|]. eexists _, _. split_and!; [done..|]. by rewrite Hbw.
  - split_and!; [done..|]. right. by rewrite Hz2, Hl2.
Qed.

Lemma client_open_in_place_spec peer s (data : B) r s' data' :
  afc_inv s → buf_wf data → client_open_in_place checked peer (s, data) = (r, (s', data')) →
  afc_inv s' ∧ same_keys s s' ∧ buf_wf data' ∧
  match r with
  | Ok (l, q) => accepts s peer l q (buf_bytes data') (buf_bytes data)
  | Err _ => (buf_bytes data' = buf_bytes data ∨ buf_bytes data' = zeroed (buf_bytes data)) ∧
      ∀ l q pt, accepts s peer l q pt (buf_bytes data) → ¬ importable s peer l
  | Panic _ => checked = true ∧ length (buf_bytes data) < CLIENT_OVERHEAD
  end.
Proof.
  intros Hinv Hwf. unfold client_open_in_place.
  destruct (split_last_chunk _ (buf_bytes data)) as [[rest header]|] eqn:Es.
  2:{ apply split_last_chunk_None in Es. intros [= <- <- <-]. split_and!; [done..|by left|].
      intros l q pt (_ & _ & _ & k & _ & E). rewrite E, length_sealed in Es. unfold CLIENT_OVERHEAD in Es. lia. }
  apply split_last_chunk_Some in Es as [Eb Hh].
  destruct (data_header_parse_total header Hh) as (h & -> & Eh & Hl & Hq).
  pose proof (λ l q pt, accepts_split s peer l q pt rest h Hl Hq) as Hacc. rewrite <- Eh, <- Eb in Hacc.
  assert (length (buf_bytes data) = length rest + DATA_HEADER_SIZE) as Hlen by (rewrite Eb, length_app; lia).
  destruct (Nat.leb_spec TAG_SIZE (length rest)) as [Ht|Ht].
  2:{ assert (∀ l q pt, accepts s peer l q pt (buf_bytes data) → ¬ importable s peer l) as Hno.
      { intros l q pt (_ & _ & k & _ & _ & ->)%Hacc. rewrite aead_length in Ht. lia. }
      unfold len_sub. rewrite (proj2 (Nat.leb_gt _ _) Ht). destruct checked.
      - intros [= <- <- <-]. split_and!; [done..|]. unfold CLIENT_OVERHEAD. lia.
      - unfold split_at_checked. pose proof tag_size_ok. rewrite (proj2 (Z.leb_gt _ _)) by lia.
        intros [= <- <- <-]. split_and!; [done..|by left|done]. }
  rewrite len_sub_ok by done.
  destruct (split_tag rest Ht) as (out & tag & -> & -> & Htag & Hout).
  destruct (do_open _ _ _ _) as [r0 [s0 out']] eqn:E.
  apply do_open_spec in E as (Hi & Hk & Hr); [|done|].
  2:{ intros key. destruct (open_in_place_closure _ _ _ _ _) as [rc dc] eqn:Ec.
      apply open_in_place_closure_run in Ec as [_ Ec]; [|done..]. by destruct rc as [|[]|]. }
  set (msg := out' ++ tag ++ header). intros Hret.
  assert (length out' = length out → buf_wf (buf_write msg data) ∧ buf_bytes (buf_write msg data) = msg) as Hw.
  { intros Hl'. apply buf_write_law; [done|]. unfold msg. rewrite Hlen, !length_app. lia. }
  assert (length out' = length out → buf_wf (buf_zeroize (buf_write msg data)) ∧
    buf_bytes (buf_zeroize (buf_write msg data)) = zeroed (buf_bytes data)) as Hz.
  { intros Hl'. destruct (Hw Hl') as [Hw1 Hw2]. destruct (buf_zeroize_law _ Hw1) as [? ->].
    split; [done|]. unfold zeroed. f_equal. rewrite Hw2. unfold msg. rewrite Hlen, !length_app. lia. }
  destruct (afc_open_key s _) as [k|] eqn:Ek; [destruct Hr as [(w & Hf & -> & ->)|(key & <- & Hrun)]|].
  - injection Hret as <- <- <-. destruct Hz; [done|]. split_and!; [done..|by right|].
    intros l q pt (-> & -> & k' & Hk' & _)%Hacc Himp. specialize (Himp _ Hk'). cbn in Ek. congruence.
  - apply open_in_place_closure_run in Hrun as [Hl' Hrun]; [|done]. cbn [ch_label] in Hrun.
    destruct (Hw Hl') as [Hw1 Hw2].
    destruct r0 as [[]|e|w]; injection Hret as <- <- <-; [| |done].
    + destruct (buf_truncate_law (length out) _ Hw1) as [? Htr]. split_and!; [done..|].
      rewrite Htr, Hw2. unfold msg. rewrite take_app_length' by done.
      destruct Hrun as [Hm Hs]. split_and!; [done..|]. eexists. split; [done|].
      rewrite Eb, Hs. unfold sealed_message. by rewrite Eh; destruct h.
    + destruct (Hz Hl'). split_and!; [done..|by right|].
      intros l q pt (-> & -> & k & Hk' & Hm & Hs)%Hacc _. cbn in Ek.
      assert (k = open_key_of (ok_ctx key)) as -> by congruence. rewrite Hs in Hrun.
      destruct e; try done; [lia|]. destruct Hrun as [_ Hrun]. by rewrite aead_roundtrip in Hrun.
  - destruct Hr as [-> ->]. injection Hret as <- <- <-. destruct Hz; [done|]. split_and!; [done..|by right|].
    intros l q pt (-> & -> & k & Hk' & _)%Hacc. cbn in Ek. congruence.
Qed.
End ClientProofs.

(** * Messages that are accepted *)
Section Messages.
Context `{HpkeLaws}.
Context {S : Type} `{!AfcState S, !AfcLaws S}.

(** A message determines its channel, position and text. *)
Lemma accepts_functional (s : S) peer l q pt l' q' pt' msg :
  accepts s peer l q pt msg → accepts s peer l' q' pt' msg → l = l' ∧ q = q' ∧ pt = pt'.
Proof.
  intros (Hl & Hq & Hm & k & Hk & E) Hacc. rewrite E in Hacc. unfold sealed_message in Hacc.
  apply accepts_split in Hacc as (-> & -> & k' & Hk' & _ & Ha); [|done..]. cbn in *.
  split_and!; [done..|]. rewrite Hk in Hk'. injection Hk' as <-.
  apply (f_equal (aead_open k q (ad_bytes l))) in Ha. rewrite !aead_roundtrip in Ha. by injection Ha.
Qed.

Lemma client_open_accepts (s : S) peer l q pt msg dst :
  afc_inv s → importable s peer l → length pt ≤ length dst → accepts s peer l q pt msg →
  ∃ s', client_open peer msg (s, dst) = (Ok (l, q), (s', pt ++ drop (length pt) dst)).
Proof.
  intros Hi Himp Hlen Hacc. destruct (client_open peer msg (s, dst)) as [r [s' dst']] eqn:E.
  apply client_open_spec in E as (_ & _ & Hr); [|done]. destruct r as [[l' q']|e|w]; [| |done].
  - destruct Hr as (pt' & Hacc' & _ & ->). destruct (accepts_functional _ _ _ _ _ _ _ _ _ Hacc Hacc') as (-> & -> & ->).
    by exists s'.
  - destruct Hr as [_ Hr]. specialize (Hr _ _ _ Hacc Himp). lia.
Qed.
End Messages.

(** What one state seals, another one that has the same key opens. *)
Lemma client_seal_opens `{HpkeLaws} {S1 S2 : Type} `{!AfcState S1, !AfcLaws S1, !AfcState S2, !AfcLaws S2}
    (s1 s1' : S1) (s2 : S2) id peer pt (dst dst' dst2 : list u8) k h :
  afc_inv s1 → afc_inv s2 → u32_ok (label_u32 (ch_label id)) →
  afc_seal_key s1 id = Some k → afc_open_key s2 (mkChannelId peer (ch_label id)) = Some k →
  afc_open_imports s2 k = true → length pt ≤ length dst2 →
  client_seal id pt (s1, dst) = (Ok h, (s1', dst')) →
  h = mkHeader version_current MtData (ch_label id) ∧
  ∃ q s2', take (length pt + CLIENT_OVERHEAD) dst' = sealed_message k q (ch_label id) pt ∧ u64_ok q ∧
    client_open peer (take (length pt + CLIENT_OVERHEAD) dst') (s2, dst2)
      = (Ok (ch_label id, q), (s2', pt ++ drop (length pt) dst2)).
Proof.
  intros Hi1 Hi2 Hl Hk1 Hk2 Himp Hlen E.
  apply client_seal_spec in E as (_ & _ & _ & -> & k' & q & Hk & Hq & Hm & Hdst); [|done].
  rewrite Hk1 in Hk. injection Hk as <-. split; [done|].
  rewrite Hdst, take_app_length' by by rewrite length_sealed.
  destruct (client_open_accepts s2 peer (ch_label id) q pt (sealed_message k q (ch_label id) pt) dst2) as [s2' Ho];
    [done| |done|by split_and!; [..|exists k]|by exists q, s2'].
  intros k0 Hk0. rewrite Hk2 in Hk0. by injection Hk0 as <-.
Qed.
