(* ===== verification/AfcShm.v ===== *)
(** Fast channels: the shared memory, and the writer and the reader on it. *)
From S2P Require Import Prelude Collections Bytes AfcTypes AfcClient.
Local Open Scope string_scope.
Local Open Scope list_scope.
Local Open Scope nat_scope.

(** Fast channels: the shared memory ([aranya-fast-channels/src/shm/shared.rs]).
    The memory holds two lists of channels, the sides, at two offsets; the
    readers use the side at [read_off], the writer the one at [write_off].
    Integers in the memory are little endian, which is the value itself on the
    machine that is modelled. *)
(** What the memory needs of other crates: random keys, and the hash of the
    parts of a key, which has at least 16 bytes. *)
Class Csprng (R : Type) := random_raw_key : R → RawKey * R.
Class TupleHash := tuple_hash : list (list u8) → list u8.

(** * Operations and directions *)
Inductive ShmOp := OpSeal | OpOpen | OpAny.
Definition op_to_u32 (o : ShmOp) : Z := match o with OpSeal => 1 | OpOpen => 2 | OpAny => 3 end.

Inductive ChanDirection := DirSealOnly | DirOpenOnly | DirBidirectional.
Definition direction_to_u32 (d : ChanDirection) : Z :=
  match d with DirSealOnly => 1 | DirOpenOnly => 2 | DirBidirectional => 3 end.
Definition direction_try_from_u32 (v : Z) : option ChanDirection :=
  if (v =? 1)%Z then Some DirSealOnly else if (v =? 2)%Z then Some DirOpenOnly
  else if (v =? 3)%Z then Some DirBidirectional else None.
Definition direction_from_directed {S O} (d : Directed S O) : ChanDirection :=
  match d with
  | SealOnly _ => DirSealOnly
  | OpenOnly _ => DirOpenOnly
  | Bidirectional _ _ => DirBidirectional
  end.
(** [ChanDirection::matches], on the bits of the two numbers. *)
Definition direction_matches (d : ChanDirection) (o : ShmOp) : bool :=
  negb (Z.land (direction_to_u32 d) (op_to_u32 o) =? 0)%Z.

(** * Channels in memory *)
Record ShmChan := mkShmChan {
  sc_magic : Z;
  sc_node_id : Z;
  sc_label : Z;
  sc_direction : Z;
  sc_seq : Z;
  sc_seal_key : RawKey;
  sc_open_key : RawKey;
  sc_key_id : list u8
}.
Definition CHAN_MAGIC : Z := 918236227.
Definition U64_MAX : Z := 18446744073709551615.

(** * Lists of channels *)
(** [cl_chans] is the trailing array of [cap] channels, of which [len] are in
    use. *)
Record ChanListData := mkChanListData {
  cl_gen : Z;
  cl_len : nat;
  cl_cap : nat;
  cl_chans : list ShmChan
}.
Record ChanList := mkChanList { clist_magic : Z; clist_data : ChanListData }.
Definition CHANLIST_MAGIC : Z := 460788292.

Definition set_gen (g : Z) (l : ChanListData) : ChanListData :=
  mkChanListData g (cl_len l) (cl_cap l) (cl_chans l).
Definition set_len (n : nat) (l : ChanListData) : ChanListData :=
  mkChanListData (cl_gen l) n (cl_cap l) (cl_chans l).
Definition set_chans (c : list ShmChan) (l : ChanListData) : ChanListData :=
  mkChanListData (cl_gen l) (cl_len l) (cl_cap l) c.

(** [gen.fetch_add(1, _)] of an [AtomicU32] wraps around. *)
Definition gen_next (g : Z) : Z := ((g + 1) mod 2 ^ 32)%Z.
Definition bump_gen (l : ChanListData) : ChanListData := set_gen (gen_next (cl_gen l)) l.

(** * The memory *)
Record SharedMem := mkSharedMem {
  sm_magic : Z;
  sm_version : Z;
  sm_size : Z;
  sm_page_aligned : bool;
  sm_key_size : Z;
  sm_nonce_size : Z;
  sm_read_off : nat;
  sm_write_off : nat;
  sm_sides : list (nat * ChanList)
}.
Definition SHM_MAGIC : Z := 4243473189.
Definition SHM_VERSION : Z := 0.

Definition set_read_off (o : nat) (m : SharedMem) : SharedMem :=
  mkSharedMem (sm_magic m) (sm_version m) (sm_size m) (sm_page_aligned m) (sm_key_size m)
    (sm_nonce_size m) o (sm_write_off m) (sm_sides m).
Definition set_write_off (o : nat) (m : SharedMem) : SharedMem :=
  mkSharedMem (sm_magic m) (sm_version m) (sm_size m) (sm_page_aligned m) (sm_key_size m)
    (sm_nonce_size m) (sm_read_off m) o (sm_sides m).
Definition set_sides (s : list (nat * ChanList)) (m : SharedMem) : SharedMem :=
  mkSharedMem (sm_magic m) (sm_version m) (sm_size m) (sm_page_aligned m) (sm_key_size m)
    (sm_nonce_size m) (sm_read_off m) (sm_write_off m) s.

(** A process's [State]: the offsets it knows to be valid. *)
Record ShmState := mkShmState { st_max_chans : nat; st_side_a : nat; st_side_b : nat }.

Section Shm.
Context `{Hpke}.
(** Whether debug assertions are compiled in. *)
Context (dbg : bool).

Definition debug_assert {E} (b : bool) (w : string) : outcome E unit :=
  if dbg && negb b then Panic w else Ok tt.

(** ** [ShmChan] *)
Definition chan_check (c : ShmChan) : outcome Corrupted unit :=
  debug_assert (sc_magic c =? CHAN_MAGIC)%Z "invalid magic" ≫= λ _,
  if (sc_magic c =? CHAN_MAGIC)%Z then Ok tt else Err (CoChanMagic (sc_magic c)).

Definition chan_id (c : ShmChan) : outcome Corrupted ChannelId :=
  chan_check c ≫= λ _,
  Ok (mkChannelId (mkNodeId (sc_node_id c)) (mkLabel (sc_label c))).

Definition chan_direction (c : ShmChan) : outcome Corrupted ChanDirection :=
  chan_check c ≫= λ _,
  ok_or (direction_try_from_u32 (sc_direction c)) (CoChanDirection (sc_direction c)).

Definition chan_matches (c : ShmChan) (op : ShmOp) : outcome Corrupted bool :=
  d ← chan_direction c; Ok (direction_matches d op).

Definition chan_set_seq (seq : Z) (c : ShmChan) : outcome Corrupted ShmChan :=
  debug_assert (sc_seq c <? seq)%Z "assertion failed: seq.to_u64() > self.seq.into()" ≫= λ _,
  Ok (mkShmChan (sc_magic c) (sc_node_id c) (sc_label c) (sc_direction c) seq
        (sc_seal_key c) (sc_open_key c) (sc_key_id c)).

(** [KeyId::new]. *)
Definition key_id_new `{TupleHash} (seal open : RawKey) : list u8 :=
  take 16 (tuple_hash [rk_key seal; rk_base_nonce seal; rk_key open; rk_base_nonce open]).

(** [ShmChan::init]: a key that the channel does not have is random, and its
    sequence number exhausted. *)
Definition chan_init `{TupleHash} {R} `{Csprng R} (id : ChannelId) (keys : Directed RawKey RawKey) (rng : R)
    : ShmChan * R :=
  let '(seal_key, rng) :=
    match dir_seal keys with Some k => (k, rng) | None => random_raw_key rng end in
  let '(open_key, rng) :=
    match dir_open keys with Some k => (k, rng) | None => random_raw_key rng end in
  (mkShmChan CHAN_MAGIC (node_id_u32 (ch_node_id id)) (label_u32 (ch_label id))
     (direction_to_u32 (direction_from_directed keys))
     (match dir_seal keys with Some _ => 0%Z | None => U64_MAX end)
     seal_key open_key (key_id_new seal_key open_key), rng).

(** ** [ChanListData] *)
Definition cl_check (l : ChanListData) : outcome Corrupted unit :=
  debug_assert (cl_len l <=? cl_cap l) "assertion failed: self.len <= self.cap".

(** [chans] and [chans_mut]: a slice over the first [len] slots. A length beyond
    the array is outside of what the code may rely on. *)
Definition cl_in_use (l : ChanListData) : outcome Corrupted (list ShmChan) :=
  cl_check l ≫= λ _,
  if cl_len l <=? length (cl_chans l) then Ok (take (cl_len l) (cl_chans l))
  else Panic "slice beyond the mapped memory".

Definition cl_get (idx : nat) (l : ChanListData) : outcome Corrupted (option ShmChan) :=
  chans ← cl_in_use l; Ok (chans !! idx).

(** [raw_at] followed by a write: an error if [idx] is not a slot. *)
Definition cl_write_raw_at (idx : nat) (c : ShmChan) (l : ChanListData) : outcome Corrupted ChanListData :=
  cl_check l ≫= λ _,
  if idx <? length (cl_chans l) then Ok (set_chans (<[idx := c]> (cl_chans l)) l)
  else Err (CoOther "`ShmChan` index out of range").

(** [clear]. *)
Definition cl_clear (l : ChanListData) : ChanListData := bump_gen (set_len 0 l).

(** [swap_remove]. *)
Definition cl_swap_remove (idx : nat) (l : ChanListData) : outcome Corrupted ChanListData :=
  cl_check l ≫= λ _,
  let len := cl_len l in
  if len =? 0 then Err (CoOther "`swap_remove` called with len == 0")
  else if len <=? idx then Err (CoOther "`ShmChan` index out of range")
  else
    l ← (if 1 <? len then
           cl_in_use l ≫= λ _,
           match vec_swap idx (len - 1) (cl_chans l) with
           | Some c => Ok (set_chans c l)
           | None => Panic "index out of bounds"
           end
         else Ok l);
    let l := set_len (len - 1) l in
    if cl_len l <=? cl_cap l then Ok l else Panic "assertion failed: self.len <= self.cap".

(** The loop of [remove_if]; [updated] says whether the generation has been
    incremented. *)
Fixpoint remove_if_loop {C} (fuel : nat) (f : ChannelId → C → bool * C) (idx : nat) (updated : bool)
    : M (ChanListData * C) Corrupted unit := λ '(l, c),
  match fuel with
  | 0 => (Panic "out of fuel", (l, c))
  | S fuel =>
    match cl_get idx l with
    | Err e => (Err e, (l, c))
    | Panic w => (Panic w, (l, c))
    | Ok None => (Ok tt, (l, c))
    | Ok (Some chan) =>
      match chan_id chan with
      | Err e => (Err e, (l, c))
      | Panic w => (Panic w, (l, c))
      | Ok id =>
        let '(remove, c) := f id c in
        if remove then
          let l := if updated then l else bump_gen l in
          match cl_swap_remove idx l with
          | Err e => (Err e, (l, c))
          | Panic w => (Panic w, (l, c))
          | Ok l => remove_if_loop fuel f idx true (l, c)
          end
        else remove_if_loop fuel f (S idx) updated (l, c)
      end
    end
  end.
Definition cl_remove_if {C} (f : ChannelId → C → bool * C) : M (ChanListData * C) Corrupted unit :=
  λ '(l, c), remove_if_loop (S (cl_len l)) f 0 false (l, c).

(** The predicate of [find]: the channel and an operation that it allows. *)
Definition chan_is (id : ChannelId) (op : ShmOp) (c : ShmChan) : outcome Corrupted bool :=
  got ← chan_id c;
  if bool_decide (got = id) then chan_matches c op else Ok false.

(** [try_iter().enumerate().try_find(p)], from index [i]. *)
Fixpoint try_find {A} (p : A → outcome Corrupted bool) (i : nat) (l : list A)
    : outcome Corrupted (option (nat * A)) :=
  match l with
  | [] => Ok None
  | x :: r => b ← p x; if b : bool then Ok (Some (i, x)) else try_find p (S i) r
  end.

(** [find] and [find_mut]: an error while looking at the hint is ignored. *)
Definition cl_find (id : ChannelId) (hint : option nat) (op : ShmOp) (l : ChanListData)
    : outcome Corrupted (option (nat * ShmChan)) :=
  let search := chans ← cl_in_use l; try_find (chan_is id op) 0 chans in
  match hint with
  | None => search
  | Some idx =>
    c ← cl_get idx l;
    match c with
    | None => search
    | Some chan =>
      match chan_is id op chan with
      | Ok true => Ok (Some (idx, chan))
      | Panic w => Panic w
      | _ => search
      end
    end
  end.

Definition cl_exists (id : ChannelId) (hint : option nat) (op : ShmOp) (l : ChanListData)
    : outcome ShmError bool :=
  r ← map_err ShmCorrupted (cl_check l ≫= λ _, cl_find id hint op l);
  Ok match r with Some _ => true | None => false end.

(** ** [ChanList] and [SharedMem] *)
Definition chanlist_check (l : ChanList) : outcome Corrupted unit :=
  debug_assert (clist_magic l =? CHANLIST_MAGIC)%Z "magic" ≫= λ _,
  if (clist_magic l =? CHANLIST_MAGIC)%Z then Ok tt else Err (CoChanListMagic (clist_magic l)).

(** The memory is zeroed before it is set up. *)
Definition zero_chan : ShmChan :=
  let zero_key := mkRawKey (replicate KEY_SIZE Byte.x00) (replicate NONCE_SIZE Byte.x00) in
  mkShmChan 0 0 0 0 0 zero_key zero_key (replicate 16 Byte.x00).
(** [ChanList::new]. *)
Definition chanlist_new (max_chans : nat) : ChanList :=
  mkChanList CHANLIST_MAGIC (mkChanListData 0 0 max_chans (replicate max_chans zero_chan)).

(** [SharedMem::init] at the offsets of a layout. *)
Definition shm_init (max_chans : nat) (size : Z) (page_aligned : bool) (side_a side_b : nat) : SharedMem :=
  mkSharedMem SHM_MAGIC SHM_VERSION size page_aligned (Z.of_nat KEY_SIZE) (Z.of_nat NONCE_SIZE)
    side_a side_b
    (bt_insert side_b (chanlist_new max_chans) (bt_insert side_a (chanlist_new max_chans) [])).

Definition shm_check (m : SharedMem) : outcome Corrupted unit :=
  debug_assert ((sm_magic m =? SHM_MAGIC)%Z && (sm_version m =? SHM_VERSION)%Z) "magic, version" ≫= λ _,
  if (sm_magic m =? SHM_MAGIC)%Z then Ok tt else Err (CoSharedMemMagic (sm_magic m)).

(** [SharedMem::side]: the list at an offset. *)
Definition shm_side (off : nat) (m : SharedMem) : outcome Corrupted ChanListData :=
  shm_check m ≫= λ _,
  match bt_get off (sm_sides m) with
  | None => Panic "no list at this offset"
  | Some l => chanlist_check l ≫= λ _, Ok (clist_data l)
  end.
(** A write through the lock of the list at an offset. *)
Definition shm_put_side (off : nat) (d : ChanListData) (m : SharedMem) : SharedMem :=
  set_sides (bt_alter off (λ l, mkChanList (clist_magic l) d) (sm_sides m)) m.

(** ** [State] *)
(** [validate], against the size and alignment of the layout. *)
Definition state_validate (size : Z) (page_aligned : bool) (m : SharedMem) : outcome Corrupted unit :=
  if negb (sm_magic m =? SHM_MAGIC)%Z then Err (CoSharedMemMagic (sm_magic m))
  else if negb (sm_version m =? SHM_VERSION)%Z then Err (CoSharedMemVersion (sm_version m) SHM_VERSION)
  else if negb (sm_size m =? size)%Z then Err (CoSharedMemSize (sm_size m) size)
  else if negb (Bool.eqb (sm_page_aligned m) page_aligned) then Err (CoSharedMemPageAlignment page_aligned)
  else if negb (sm_key_size m =? Z.of_nat KEY_SIZE)%Z then Err (CoSharedMemKeySize (sm_key_size m))
  else Ok tt.

Context (st : ShmState).

Definition valid_offset (off : nat) : bool := (off =? st_side_a st) || (off =? st_side_b st).

Definition shm_read_off (m : SharedMem) : outcome Corrupted nat :=
  if valid_offset (sm_read_off m) then Ok (sm_read_off m) else Err (CoOther "invalid read offset").
Definition shm_write_off (m : SharedMem) : outcome Corrupted nat :=
  if valid_offset (sm_write_off m) then Ok (sm_write_off m) else Err (CoOther "invalid write offset").

(** [swap_offsets]: an atomic swap, then a check of the old value. *)
Definition swap_offsets (write_off : nat) : M SharedMem Corrupted nat := λ m,
  let off := sm_read_off m in
  (if valid_offset off then Ok off else Err (CoOther "invalid write offset"), set_read_off write_off m).

(** [load_read_list] and [load_write_list], with the offset of the list. *)
Definition load_read_list (m : SharedMem) : outcome Corrupted (nat * ChanListData) :=
  off ← shm_read_off m; d ← shm_side off m; Ok (off, d).
Definition load_write_list (m : SharedMem) : outcome Corrupted (nat * ChanListData) :=
  off ← shm_write_off m; d ← shm_side off m; Ok (off, d).
End Shm.

(** Fast channels: the writer and the reader of the shared memory
    ([aranya-fast-channels/src/shm/write.rs], [shm/read.rs]). A writer's
    operation has four steps, which the readers of other processes can
    interleave with: it changes the write side under its lock, swaps the sides
    for the readers, changes the other side under its lock, and stores the new
    write offset. *)

Section Ops.
Context `{Hpke, TupleHash}.
Context (dbg : bool) (st : ShmState).

(** * The writer *)
(** A computation on the list at [off], under its lock. *)
Definition with_side {A} (off : nat) (k : M ChanListData ShmError A) : M SharedMem ShmError A := λ m,
  match shm_side dbg off m with
  | Ok d => let '(r, d) := k d in (r, shm_put_side off d m)
  | Err e => (Err (ShmCorrupted e), m)
  | Panic w => (Panic w, m)
  end.

Definition lift_c {S A} (m : outcome Corrupted A) : M S ShmError A := lift (map_err ShmCorrupted m).
(** A fallible update of the list. *)
Definition update_c (f : ChanListData → outcome Corrupted ChanListData) : M ChanListData ShmError unit := λ d,
  match f d with
  | Ok d => (Ok tt, d)
  | Err e => (Err (ShmCorrupted e), d)
  | Panic w => (Panic w, d)
  end.
(** [assert!(side.len <= side.cap)]. *)
Definition assert_len : M ChanListData ShmError unit := λ d,
  if cl_len d <=? cl_cap d then (Ok tt, d) else (Panic "assertion failed: side.len <= side.cap", d).

(** The channel of an [id], whatever its direction. *)
Definition find_id (id : ChannelId) (d : ChanListData) : outcome Corrupted (option (nat * ShmChan)) :=
  chans ← cl_in_use dbg d;
  try_find (λ c, got ← chan_id dbg c; Ok (bool_decide (got = id))) 0 chans.

(** Initializing a slot, then counting it in if it is new. *)
Definition put_chan (idx : nat) (grow : bool) (chan : ShmChan) : M ChanListData ShmError unit :=
  update_c (cl_write_raw_at dbg idx chan) ;;
  modify bump_gen ;;
  (if grow then modify (λ d, set_len (S (cl_len d)) d) else mret tt) ;;
  assert_len.

(** The first block of [add]: the slot, and the write side changed. *)
Definition add_slot (id : ChannelId) : M ChanListData ShmError (nat * bool) :=
  d ← get_state;
  found ← lift_c (find_id id d);
  match found with
  | Some (i, _) => mret (i, false)
  | None => if cl_cap d <=? cl_len d then throw ShmOutOfSpace else mret (cl_len d, true)
  end.
Definition add_write_side (id : ChannelId) (chan : ShmChan) : M SharedMem ShmError (nat * nat * bool) :=
  m ← get_state;
  off ← lift_c (shm_write_off st m);
  '(idx, grow) ← with_side off ('(idx, grow) ← add_slot id; put_chan idx grow chan ;; mret (idx, grow));
  mret (off, idx, grow).

(** [swap_offsets] and a change [k] of the side that the readers have left. *)
Definition change_read_side (write_off : nat) (k : M ChanListData ShmError unit) : M SharedMem ShmError nat :=
  m ← get_state;
  let '(r, m') := swap_offsets st write_off m in
  put_state m' ;;
  off ← lift_c r;
  with_side off k ;;
  mret off.
Definition add_read_side (write_off idx : nat) (grow : bool) (chan : ShmChan) : M SharedMem ShmError nat :=
  change_read_side write_off (put_chan idx grow chan).
(** The last step of every operation. *)
Definition store_write_off (off : nat) : M SharedMem ShmError unit := modify (set_write_off off).

(** [add]. The channel is initialized once per side, with fresh random keys.
    The random numbers of the first side are drawn once the slot is known, so
    the generator is left alone when there is no space. *)
Definition ws_add {R} `{Csprng R} (id : ChannelId) (keys : Directed RawKey RawKey)
    : M (SharedMem * R) ShmError unit := λ '(m, rng),
  let '(chan1, rng1) := chan_init id keys rng in
  match add_write_side id chan1 m with
  | (Err e, m) => (Err e, (m, rng))
  | (Panic w, m) => (Panic w, (m, rng))
  | (Ok (write_off, idx, grow), m) =>
    let '(chan2, rng2) := chan_init id keys rng1 in
    match add_read_side write_off idx grow chan2 m with
    | (Err e, m) => (Err e, (m, rng1))
    | (Panic w, m) => (Panic w, (m, rng1))
    | (Ok off, m) => let '(r, m) := store_write_off off m in (r, (m, rng2))
    end
  end.

(** [remove]: [None] if there is no such channel. *)
Definition remove_at (idx : nat) : M ChanListData ShmError unit :=
  modify bump_gen ;; update_c (cl_swap_remove dbg idx).
Definition remove_write_side (id : ChannelId) : M SharedMem ShmError (option (nat * nat)) :=
  m ← get_state;
  off ← lift_c (shm_write_off st m);
  with_side off (
    d ← get_state;
    if cl_len d =? 0 then mret None
    else
      found ← lift_c (find_id id d);
      match found with
      | None => mret None
      | Some (idx, _) => remove_at idx ;; mret (Some (off, idx))
      end).
Definition remove_read_side (write_off idx : nat) : M SharedMem ShmError nat :=
  change_read_side write_off (remove_at idx).
Definition ws_remove (id : ChannelId) : M SharedMem ShmError unit :=
  r ← remove_write_side id;
  match r with
  | None => mret tt
  | Some (write_off, idx) => off ← remove_read_side write_off idx; store_write_off off
  end.

(** [remove_all]. *)
Definition clear_write_side : M SharedMem ShmError nat :=
  m ← get_state;
  off ← lift_c (shm_write_off st m);
  with_side off (modify cl_clear) ;;
  mret off.
Definition clear_read_side (write_off : nat) : M SharedMem ShmError nat :=
  change_read_side write_off (modify cl_clear).
Definition ws_remove_all : M SharedMem ShmError unit :=
  write_off ← clear_write_side;
  off ← clear_read_side write_off;
  store_write_off off.

(** [remove_if], with the state [C] of its predicate. *)
Definition side_remove_if {C} (f : ChannelId → C → bool * C) (off : nat)
    (guard : ChanListData → outcome ShmError bool) : M (SharedMem * C) ShmError bool := λ '(m, c),
  match shm_side dbg off m with
  | Err e => (Err (ShmCorrupted e), (m, c))
  | Panic w => (Panic w, (m, c))
  | Ok d =>
    match guard d with
    | Err e => (Err e, (m, c))
    | Panic w => (Panic w, (m, c))
    | Ok false => (Ok false, (m, c))
    | Ok true =>
      let '(r, (d, c)) := cl_remove_if dbg f (d, c) in
      (match r with Ok _ => Ok true | Err e => Err (ShmCorrupted e) | Panic w => Panic w end,
       (shm_put_side off d m, c))
    end
  end.
Definition ws_remove_if {C} (f : ChannelId → C → bool * C) : M (SharedMem * C) ShmError unit := λ '(m, c),
  match shm_write_off st m with
  | Err e => (Err (ShmCorrupted e), (m, c))
  | Panic w => (Panic w, (m, c))
  | Ok write_off =>
    match side_remove_if f write_off (λ d, Ok (negb (cl_len d =? 0))) (m, c) with
    | (Err e, s) => (Err e, s)
    | (Panic w, s) => (Panic w, s)
    | (Ok false, s) => (Ok tt, s)
    | (Ok true, (m, c)) =>
      let '(r, m) := swap_offsets st write_off m in
      match r with
      | Err e => (Err (ShmCorrupted e), (m, c))
      | Panic w => (Panic w, (m, c))
      | Ok off =>
        match side_remove_if f off
          (λ d, debug_assert dbg (0 <? cl_len d) "assertion failed: side.len > 0" ≫= λ _, Ok true) (m, c) with
        | (Err e, s) => (Err e, s)
        | (Panic w, s) => (Panic w, s)
        | (Ok _, (m, c)) => (Ok tt, (set_write_off off m, c))
        end
      end
    end
  end.

(** [exists] of the writer. *)
Definition ws_exists (id : ChannelId) : M SharedMem ShmError bool := λ m,
  match load_write_list dbg st m with
  | Ok (_, d) => (cl_exists dbg id None OpAny d, m)
  | Err e => (Err (ShmCorrupted e), m)
  | Panic w => (Panic w, m)
  end.

(** * The reader *)
(** [Cache] of a key; a cached encryption key has the [KeyId] of its channel. *)
Record Cache (K : Type) := mkCache { ca_id : ChannelId; ca_key : K; ca_gen : Z; ca_idx : nat }.
Arguments mkCache {K} _ _ _ _.
Arguments ca_id {K} _.
Arguments ca_key {K} _.
Arguments ca_gen {K} _.
Arguments ca_idx {K} _.
Record CachedSealKey := mkCachedSealKey { ck_key : SealKey; ck_id : list u8 }.

(** [ReadState], without the mapping of the memory. *)
Record ReadState := mkReadState {
  rs_last_seal : option (Cache CachedSealKey);
  rs_last_open : option (Cache OpenKey)
}.
Definition read_state_new : ReadState := mkReadState None None.

Definition cached_for {K} (id : ChannelId) (c : option (Cache K)) : option (Cache K) :=
  match c with Some e => if bool_decide (ca_id e = id) then Some e else None | None => None end.

(** Writing the sequence number of an evicted key back to its channel. *)
Definition write_back (old : Cache CachedSealKey) (d : ChanListData) : outcome Corrupted ChanListData :=
  found ← cl_find dbg (ca_id old) (Some (ca_idx old)) OpSeal d;
  match found with
  | None => Ok d
  | Some (idx, chan) =>
    if bool_decide (sc_key_id chan = ck_id (ca_key old)) then
      chan ← chan_set_seq dbg (seal_key_seq (ck_key (ca_key old))) chan;
      Ok (set_chans (<[idx := chan]> (cl_chans d)) d)
    else Ok d
  end.

(** [seal] without a usable cached key: [f] runs on the channel's own key, which
    is cached if [f] succeeds. *)
Definition seal_uncached {X T} (id : ChannelId) (hint : option nat) (off : nat) (d : ChanListData)
    (f : M (SealKey * X) AfcError T) : M ((SharedMem * ReadState) * X) AfcError (AfcError + T) :=
  λ '((m, rs), x),
  match cl_find dbg id hint OpSeal d with
  | Err e => (Err (afc_of_corrupted e), ((m, rs), x))
  | Panic w => (Panic w, ((m, rs), x))
  | Ok None => (Err (AeNotFound id), ((m, rs), x))
  | Ok (Some (idx, chan)) =>
    match seal_key_from_raw (sc_seal_key chan) (sc_seq chan) with
    | Err e => (Err (AeCrypto (CeImport e)), ((m, rs), x))
    | Panic w => (Panic w, ((m, rs), x))
    | Ok key =>
      let '(result, (key, x)) := f (key, x) in
      match result with
      | Ok t =>
        let new := mkCache id (mkCachedSealKey key (sc_key_id chan)) (cl_gen d) idx in
        let rs' := mkReadState (Some new) (rs_last_open rs) in
        match rs_last_seal rs with
        | None => (Ok (inr t), ((m, rs'), x))
        | Some old =>
          match write_back old d with
          | Err e => (Err (afc_of_corrupted e), ((m, rs'), x))
          | Panic w => (Panic w, ((m, rs'), x))
          | Ok d => (Ok (inr t), ((shm_put_side off d m, rs'), x))
          end
        end
      | Err e => (Ok (inl e), ((m, rs), x))
      | Panic w => (Panic w, ((m, rs), x))
      end
    end
  end.

Definition rs_seal {X T} (id : ChannelId) (f : M (SealKey * X) AfcError T)
    : M ((SharedMem * ReadState) * X) AfcError (AfcError + T) := λ '((m, rs), x),
  match load_read_list dbg st m with
  | Err e => (Err (afc_of_corrupted e), ((m, rs), x))
  | Panic w => (Panic w, ((m, rs), x))
  | Ok (off, d) =>
    match cached_for id (rs_last_seal rs) with
    | Some c =>
      if (ca_gen c =? cl_gen d)%Z then
        let '(result, (key, x)) := f (ck_key (ca_key c), x) in
        let c := mkCache (ca_id c) (mkCachedSealKey key (ck_id (ca_key c))) (ca_gen c) (ca_idx c) in
        (closure_result result, ((m, mkReadState (Some c) (rs_last_open rs)), x))
      else seal_uncached id (Some (ca_idx c)) off d f ((m, rs), x)
    | None => seal_uncached id None off d f ((m, rs), x)
    end
  end.

Definition open_uncached {X T} (id : ChannelId) (hint : option nat) (d : ChanListData)
    (f : OpenKey → M X AfcError T) : M ((SharedMem * ReadState) * X) AfcError (AfcError + T) :=
  λ '((m, rs), x),
  match cl_find dbg id hint OpOpen d with
  | Err e => (Err (afc_of_corrupted e), ((m, rs), x))
  | Panic w => (Panic w, ((m, rs), x))
  | Ok None => (Err (AeNotFound id), ((m, rs), x))
  | Ok (Some (idx, chan)) =>
    match open_key_from_raw (sc_open_key chan) with
    | Err e => (Err (AeCrypto (CeImport e)), ((m, rs), x))
    | Panic w => (Panic w, ((m, rs), x))
    | Ok key =>
      let '(result, x) := f key x in
      match result with
      | Ok t => (Ok (inr t), ((m, mkReadState (rs_last_seal rs) (Some (mkCache id key (cl_gen d) idx))), x))
      | Err e => (Ok (inl e), ((m, rs), x))
      | Panic w => (Panic w, ((m, rs), x))
      end
    end
  end.

Definition rs_open {X T} (id : ChannelId) (f : OpenKey → M X AfcError T)
    : M ((SharedMem * ReadState) * X) AfcError (AfcError + T) := λ '((m, rs), x),
  match load_read_list dbg st m with
  | Err e => (Err (afc_of_corrupted e), ((m, rs), x))
  | Panic w => (Panic w, ((m, rs), x))
  | Ok (_, d) =>
    match cached_for id (rs_last_open rs) with
    | Some c =>
      if (ca_gen c =? cl_gen d)%Z then
        let '(result, x) := f (ca_key c) x in (closure_result result, ((m, rs), x))
      else open_uncached id (Some (ca_idx c)) d f ((m, rs), x)
    | None => open_uncached id None d f ((m, rs), x)
    end
  end.

(** [exists] of the reader. *)
Definition rs_exists (id : ChannelId) : M (SharedMem * ReadState) AfcError bool := λ '(m, rs),
  match load_read_list dbg st m with
  | Ok (_, d) => (map_err AeSharedMem (cl_exists dbg id None OpAny d), (m, rs))
  | Err e => (Err (afc_of_corrupted e), (m, rs))
  | Panic w => (Panic w, (m, rs))
  end.

Definition shm_afc_state : AfcState (SharedMem * ReadState) := {|
  afc_seal X T := rs_seal;
  afc_open X T := rs_open;
  afc_exists := rs_exists
|}.
End Ops.
Arguments mkCache {K} _ _ _ _.
Arguments ca_id {K} _.
Arguments ca_key {K} _.
Arguments ca_gen {K} _.
Arguments ca_idx {K} _.
