(* ===== verification/AfcLayout.v ===== *)
(** Fast channels: the layout of the shared memory and its correctness. *)
From S2P Require Import Prelude Collections Bytes AfcTypes AfcShm.
Local Open Scope string_scope.
Local Open Scope list_scope.
Local Open Scope Z_scope.

(** Fast channels: how the shared memory is laid out ([align.rs], the layouts of
    [shared.rs]) and how a state is opened, on a 64-bit machine. *)
Definition USIZE : Z := 2 ^ 64.
Definition ISIZE_MAX : Z := 2 ^ 63 - 1.
Definition wrapping (z : Z) : Z := z mod USIZE.

(** * [core::alloc::Layout] *)
Record Layout := mkLayout { ly_size : Z; ly_align : Z }.

Definition is_power_of_two (a : Z) : bool := (0 <? a) && (Z.land a (a - 1) =? 0).

Definition from_size_align (size align : Z) : option Layout :=
  if negb (is_power_of_two align) then None
  else if ISIZE_MAX - (align - 1) <? size then None
  else Some (mkLayout size align).

(** [padding_needed_for]: in wrapping arithmetic. *)
Definition padding_needed_for (size align : Z) : Z :=
  let len_rounded_up :=
    Z.land (wrapping (wrapping (size + align) - 1)) (wrapping (Z.lnot (wrapping (align - 1)))) in
  wrapping (len_rounded_up - size).

Definition checked_usize (z : Z) : option Z := if z <? USIZE then Some z else None.

(** [Layout::extend]: the layout and the offset of [next] in it. *)
Definition layout_extend (l next : Layout) : option (Layout * Z) :=
  offset ← checked_usize (ly_size l + padding_needed_for (ly_size l) (ly_align next));
  new_size ← checked_usize (offset + ly_size next);
  new ← from_size_align new_size (Z.max (ly_align l) (ly_align next));
  Some (new, offset).
Definition align_to (l : Layout) (align : Z) : option Layout :=
  from_size_align (ly_size l) (Z.max (ly_align l) align).
Definition pad_to_align (l : Layout) : Layout :=
  mkLayout (ly_size l + padding_needed_for (ly_size l) (ly_align l)) (ly_align l).

(** [layout_repeat]. *)
Definition layout_repeat (l : Layout) (n : Z) : option Layout :=
  let padded_size := ly_size l + padding_needed_for (ly_size l) (ly_align l) in
  alloc_size ← checked_usize (padded_size * n);
  from_size_align alloc_size (ly_align l).

(** [is_aligned_to]: [None] when the assertion fails. *)
Definition is_aligned_to (v align : Z) : option bool :=
  if is_power_of_two align then Some (v mod align =? 0) else None.

(** * Types with a [C] representation *)
(** The offsets of the fields one after another, and the end of the last. *)
Fixpoint field_offsets (off : Z) (fields : list Layout) : list Z * Z :=
  match fields with
  | [] => ([], off)
  | f :: fields =>
    let off := off + (- off) mod ly_align f in
    let '(offs, last) := field_offsets (off + ly_size f) fields in (off :: offs, last)
  end.
(** [repr(C, align(min))]. *)
Definition repr_c (min : Z) (fields : list Layout) : Layout :=
  let align := fold_right (λ f, Z.max (ly_align f)) min fields in
  let last := (field_offsets 0 fields).2 in
  mkLayout (last + (- last) mod align) align.

Definition ly_u32 : Layout := mkLayout 4 4.
Definition ly_u64 : Layout := mkLayout 8 8.
Definition ly_bool : Layout := mkLayout 1 1.
Definition ly_bytes (n : Z) : Layout := mkLayout n 1.

Section Layouts.
Context `{Hpke}.
(** [align(32)], [align(64)] or [align(128)], by the architecture. *)
Context (cache_line : Z).

Definition ly_cache_aligned (l : Layout) : Layout := repr_c cache_line [l].
Definition ly_raw_key : Layout := repr_c 1 [ly_bytes (Z.of_nat KEY_SIZE); ly_bytes (Z.of_nat NONCE_SIZE)].
Definition ly_shm_chan : Layout :=
  repr_c 1 [ly_u32; ly_u32; ly_u32; ly_u32; ly_u64; ly_raw_key; ly_raw_key; ly_bytes 16].
Definition chan_list_data_fields : list Layout := [ly_u32; ly_bytes 4; ly_u64; ly_u64].
Definition ly_chan_list_data : Layout := repr_c 8 chan_list_data_fields.
Definition ly_mutex_data : Layout := repr_c 8 [ly_u32; ly_chan_list_data].
Definition ly_chan_list : Layout := repr_c cache_line [ly_u32; ly_bytes 4; ly_mutex_data].
Definition ly_shared_mem : Layout :=
  repr_c cache_line [ly_u32; ly_u32; ly_u64; ly_bool; ly_bytes 7; ly_u64; ly_u64;
                     ly_cache_aligned ly_u64; ly_cache_aligned ly_u64].

(** Where the channels of a list begin: the address of [chans], which is the end
    of the data inside the mutex of the list. *)
Definition CHANS_OFF : Z :=
  List.nth 2 (field_offsets 0 [ly_u32; ly_bytes 4; ly_mutex_data]).1 0 +
  List.nth 1 (field_offsets 0 [ly_u32; ly_chan_list_data]).1 0 +
  (field_offsets 0 chan_list_data_fields).2.

(** * The layout of the memory *)
(** The feature [page-aligned], and what [getpagesize] returns. *)
Context (feature_page_aligned : bool) (getpagesize : outcome ShmLayoutError (option Z)).

Definition layout_or {A} (o : option A) : outcome ShmLayoutError A :=
  match o with Some a => Ok a | None => Err LeLayout end.

Definition chan_list_layout (max_chans : Z) : outcome ShmLayoutError (Layout * bool) :=
  chans ← layout_or (layout_repeat ly_shm_chan max_chans);
  '(layout, _) ← layout_or (layout_extend ly_chan_list chans);
  '(page_size, page_aligned) ←
    (if feature_page_aligned then
       page ← getpagesize;
       match page with
       | None => Err (LeBug "`page-aligned` feature requires `libc`")
       | Some page_size =>
         if USIZE <=? ly_size layout * 2 then Panic "attempt to multiply with overflow"
         else if page_size <? ly_size layout * 2 then
           match is_aligned_to page_size (ly_align layout) with
           | Some b => Ok (page_size, b)
           | None => Panic "assertion failed: align.is_power_of_two()"
           end
         else Ok (page_size, false)
       end
     else Ok (0, false));
  if (page_aligned : bool) then layout ← layout_or (align_to layout page_size); Ok (layout, true)
  else Ok (layout, false).

(** [ShmLayout]. *)
Record ShmLayout := mkShmLayout {
  shl_layout : Layout;
  shl_side_a : Z;
  shl_side_b : Z;
  shl_page_aligned : bool
}.

Definition shm_layout (max_chans : Z) : outcome ShmLayoutError ShmLayout :=
  '(lst, page_aligned) ← chan_list_layout max_chans;
  '(layout, side_a) ← layout_or (layout_extend ly_shared_mem lst);
  '(layout, side_b) ← layout_or (layout_extend layout lst);
  layout ←
    (if (page_aligned : bool) then
       page ← getpagesize;
       match page with
       | Some page_size =>
         if ly_size layout <? page_size then layout_or (align_to layout page_size) else Ok layout
       | None => Ok layout
       end
     else Ok layout);
  Ok (mkShmLayout (pad_to_align layout) side_a side_b page_aligned).

(** * [State::open] *)
(** The memory that is mapped has what [Mapping::open] found there; [create] is
    the flag [Create]. *)
Definition state_open (create : bool) (max_chans : nat) (mapped : SharedMem)
    : outcome ShmError (ShmState * SharedMem) :=
  layout ← map_err ShmLayoutErr (shm_layout (Z.of_nat max_chans));
  let side_a := Z.to_nat (shl_side_a layout) in
  let side_b := Z.to_nat (shl_side_b layout) in
  let size := ly_size (shl_layout layout) in
  let m := if create then shm_init max_chans size (shl_page_aligned layout) side_a side_b else mapped in
  layout ← map_err (λ e, ShmCorrupted (CoLayout e)) (shm_layout (Z.of_nat max_chans));
  _ ← map_err ShmCorrupted (state_validate (ly_size (shl_layout layout)) (shl_page_aligned layout) m);
  Ok (mkShmState max_chans side_a side_b, m).
End Layouts.

(** Fast channels: the two sides of the shared memory lie apart, inside the
    memory, and hold their channels. *)

(** * Powers of two *)
Lemma is_power_of_two_spec a : is_power_of_two a = true ↔ ∃ k, 0 ≤ k ∧ a = 2 ^ k.
Proof.
  unfold is_power_of_two. rewrite andb_true_iff, Z.ltb_lt, Z.eqb_eq. split.
  - intros [Ha Hl]. exists (Z.log2 a). split; [apply Z.log2_nonneg|].
    destruct (Z.log2_spec a Ha) as [H1 H2]. apply dec_stable. intros Hne.
    assert (Z.log2 (a - 1) = Z.log2 a) as E.
    { apply Z.log2_unique; [apply Z.log2_nonneg|]. lia. }
    assert (0 < a - 1) as Ha1 by (pose proof (Z.pow_pos_nonneg 2 (Z.log2 a)); pose proof (Z.log2_nonneg a); lia).
    apply (f_equal (λ z, Z.testbit z (Z.log2 a))) in Hl.
    rewrite Z.land_spec, Z.bit_log2 in Hl by lia. rewrite <- E, Z.bit_log2 in Hl by lia.
    by rewrite Z.bits_0 in Hl.
  - intros (k & Hk & ->). split; [by apply Z.pow_pos_nonneg|].
    replace (2 ^ k - 1) with (Z.ones k) by (rewrite Z.ones_equiv; lia).
    rewrite Z.land_ones by done. by apply Z.mod_same, Z.pow_nonzero.
Qed.

(** * Padding *)
(** [size] rounded up to a multiple of [align]. *)
Definition round_up (size align : Z) : Z := size + (- size) mod align.

Lemma round_up_spec size align :
  0 < align → size ≤ round_up size align < size + align ∧ (align | round_up size align).
Proof.
  intros Ha. unfold round_up. pose proof (Z.mod_pos_bound (- size) align Ha). split; [lia|].
  exists (- (- size / align)). pose proof (Z.div_mod (- size) align). lia.
Qed.

Lemma round_up_unique size align n : 0 < align → size ≤ n < size + align → (align | n) → round_up size align = n.
Proof.
  intros Ha Hn [q ->]. unfold round_up. rewrite <- (Z.mod_unique (- size) align (- q) (q * align - size)); lia.
Qed.

(** Masking off the low bits of a word. *)
Lemma mask_low_bits x k :
  0 ≤ x < USIZE → 0 ≤ k ≤ 63 → Z.land x (wrapping (Z.lnot (wrapping (2 ^ k - 1)))) = x - x mod 2 ^ k.
Proof.
  intros Hx Hk. unfold wrapping, USIZE in *. pose proof (Z.pow_pos_nonneg 2 k).
  assert (2 ^ k ≤ 2 ^ 63) by (apply Z.pow_le_mono_r; lia).
  rewrite (Z.mod_small (2 ^ k - 1)) by lia.
  replace (2 ^ k - 1) with (Z.ones k) by (rewrite Z.ones_equiv; lia).
  rewrite <- Z.land_ones by lia. rewrite (Z.land_comm (Z.lnot _)), Z.land_assoc, Z.land_ones, Z.mod_small by lia.
  rewrite <- Z.ldiff_land, Z.ldiff_ones_r, Z.shiftl_mul_pow2, Z.shiftr_div_pow2 by lia.
  pose proof (Z.div_mod x (2 ^ k)). lia.
Qed.

(** The wrapping computation is the rounding it stands for. *)
Lemma padding_needed_for_spec size align :
  is_power_of_two align = true → align ≤ 2 ^ 63 → 0 ≤ size ≤ ISIZE_MAX →
  size + padding_needed_for size align = round_up size align.
Proof.
  intros (k & Hk & ->)%is_power_of_two_spec Ha Hs.
  assert (k ≤ 63) as Hk63 by (apply (Z.pow_le_mono_r_iff 2); lia).
  pose proof (Z.pow_pos_nonneg 2 k ltac:(lia) Hk) as Hpos. unfold padding_needed_for.
  assert (wrapping (wrapping (size + 2 ^ k) - 1) = size + 2 ^ k - 1) as ->.
  { unfold wrapping, USIZE, ISIZE_MAX in *. rewrite (Z.mod_small (size + 2 ^ k)) by lia. apply Z.mod_small. lia. }
  rewrite mask_low_bits by (unfold USIZE, ISIZE_MAX in *; lia).
  set (x := size + 2 ^ k - 1). pose proof (Z.mod_pos_bound x (2 ^ k) Hpos). pose proof (Z.div_mod x (2 ^ k)).
  assert (round_up size (2 ^ k) = x - x mod 2 ^ k) as E.
  { apply round_up_unique; [done|lia|]. exists (x / 2 ^ k). lia. }
  rewrite E. unfold wrapping. rewrite Z.mod_small; unfold USIZE, ISIZE_MAX in *; lia.
Qed.

(** * Layouts *)
Record layout_ok (l : Layout) : Prop := {
  lo_size : 0 ≤ ly_size l;
  lo_align : is_power_of_two (ly_align l) = true;
  lo_fits : ly_size l ≤ ISIZE_MAX - (ly_align l - 1)
}.

Lemma power_of_two_pos a : is_power_of_two a = true → 0 < a.
Proof. unfold is_power_of_two. intros [?%Z.ltb_lt _]%andb_true_iff. done. Qed.

Lemma layout_ok_align l : layout_ok l → 0 < ly_align l ≤ 2 ^ 63.
Proof.
  intros [? Ha ?]. pose proof (power_of_two_pos _ Ha). unfold ISIZE_MAX in *. lia.
Qed.

Lemma power_divide a b : is_power_of_two a = true → is_power_of_two b = true → a ≤ b → (a | b).
Proof.
  intros (j & Hj & ->)%is_power_of_two_spec (k & Hk & ->)%is_power_of_two_spec Hle.
  apply Z.pow_le_mono_r_iff in Hle; [|lia..]. exists (2 ^ (k - j)). rewrite <- Z.pow_add_r by lia. f_equal. lia.
Qed.

Lemma from_size_align_ok size align l :
  0 ≤ size → from_size_align size align = Some l → layout_ok l ∧ ly_size l = size ∧ ly_align l = align.
Proof.
  unfold from_size_align. intros Hs. destruct (is_power_of_two align) eqn:Ea; cbn; [|done].
  destruct (Z.ltb_spec (ISIZE_MAX - (align - 1)) size); [done|]. by intros [= <-].
Qed.

Lemma padded_size l : layout_ok l →
  ly_size l + padding_needed_for (ly_size l) (ly_align l) = round_up (ly_size l) (ly_align l).
Proof.
  intros Hl. pose proof (layout_ok_align l Hl). destruct Hl. apply padding_needed_for_spec; [done|lia|lia].
Qed.

Lemma layout_extend_ok l next new off :
  layout_ok l → layout_ok next → layout_extend l next = Some (new, off) →
  layout_ok new ∧ off = round_up (ly_size l) (ly_align next) ∧ ly_size new = off + ly_size next ∧
  ly_align new = Z.max (ly_align l) (ly_align next).
Proof.
  intros Hl Hn. unfold layout_extend. pose proof (layout_ok_align _ Hn) as Hna. pose proof (layout_ok_align _ Hl).
  rewrite padding_needed_for_spec; [|apply Hn|lia|destruct Hl; lia].
  pose proof (round_up_spec (ly_size l) (ly_align next)) as Hr.
  unfold checked_usize. destruct (_ <? _); cbn; [|done]. destruct (_ <? _); cbn; [|done].
  destruct (from_size_align _ _) as [l'|] eqn:E; cbn; [|done]. intros [= <- <-].
  apply from_size_align_ok in E as (? & ? & ?); [done|]. destruct Hl, Hn. lia.
Qed.

Lemma align_to_ok l a l' :
  layout_ok l → align_to l a = Some l' →
  layout_ok l' ∧ ly_size l' = ly_size l ∧ ly_align l' = Z.max (ly_align l) a.
Proof. intros Hl. apply from_size_align_ok, Hl. Qed.

Lemma layout_repeat_ok l n l' :
  layout_ok l → 0 ≤ n → (ly_align l | ly_size l) → layout_repeat l n = Some l' →
  layout_ok l' ∧ ly_size l' = ly_size l * n ∧ ly_align l' = ly_align l.
Proof.
  intros Hl Hn Hd. unfold layout_repeat. rewrite padded_size by done.
  pose proof (layout_ok_align l Hl). rewrite (round_up_unique _ _ (ly_size l)); [|lia|lia|done].
  unfold checked_usize. destruct (_ <? _); cbn; [|done]. apply from_size_align_ok. destruct Hl. nia.
Qed.

(** * The layouts of the memory *)
Lemma cache_lines c : c ∈ [32; 64; 128] → c = 32 ∨ c = 64 ∨ c = 128.
Proof. set_solver. Qed.

Section Layouts.
Context `{Hpke}.
Context (cache_line : Z) (Hcl : cache_line ∈ [32; 64; 128]).
(** The keys have a sensible size. *)
Context (Hkeys : Z.of_nat (KEY_SIZE + NONCE_SIZE) ≤ 2 ^ 32).
Context (feature_page_aligned : bool) (getpagesize : outcome ShmLayoutError (option Z)).
Context (Hpage : is_panic getpagesize = false).

Lemma raw_key_size : ly_size ly_raw_key = Z.of_nat (KEY_SIZE + NONCE_SIZE).
Proof. cbn. rewrite !Z.mod_1_r. lia. Qed.

Lemma shm_chan_fields k : ly_align k = 1 →
  (field_offsets 0 [ly_u32; ly_u32; ly_u32; ly_u32; ly_u64; k; k; ly_bytes 16]).2 = 40 + 2 * ly_size k.
Proof.
  intros E. cbn -[Z.mul Z.add Z.opp Z.modulo]. rewrite E, !Z.mod_1_r.
  match goal with |- ?n + 0 + _ + 0 + _ + _ + _ = _ => change n with 24 end. cbn -[Z.mul Z.add]. lia.
Qed.

Lemma shm_chan_layout :
  layout_ok ly_shm_chan ∧ ly_align ly_shm_chan = 8 ∧ (8 | ly_size ly_shm_chan) ∧ 40 ≤ ly_size ly_shm_chan.
Proof.
  assert (ly_size ly_shm_chan = round_up (40 + 2 * ly_size ly_raw_key) 8) as E.
  { unfold ly_shm_chan, repr_c. cbn [ly_size]. rewrite shm_chan_fields by done. done. }
  pose proof (round_up_spec (40 + 2 * ly_size ly_raw_key) 8 ltac:(lia)) as [Hb Hd].
  rewrite raw_key_size in *. rewrite <- E in Hb, Hd.
  split_and!; [|done|done|lia]. split; [lia|done|]. change (ly_align ly_shm_chan) with 8.
  unfold ISIZE_MAX. lia.
Qed.

(** The fixed part of a list ends after the place where its channels begin. *)
Lemma chan_list_fixed :
  layout_ok (ly_chan_list cache_line) ∧ ly_align (ly_chan_list cache_line) = cache_line ∧
  CHANS_OFF = 40 ∧ CHANS_OFF ≤ ly_size (ly_chan_list cache_line).
Proof.
  destruct (cache_lines _ Hcl) as [->|[->| ->]].
  all: split_and!; [split|..]; vm_compute; try done.
Qed.
Lemma shared_mem_fixed :
  layout_ok (ly_shared_mem cache_line) ∧ ly_align (ly_shared_mem cache_line) = cache_line ∧
  0 < ly_size (ly_shared_mem cache_line).
Proof.
  destruct (cache_lines _ Hcl) as [->|[->| ->]].
  all: split_and!; [split|..]; vm_compute; try done.
Qed.

Lemma layout_or_Ok {A} (o : option A) a : layout_or o = Ok a → o = Some a.
Proof. destruct o; [by intros [= ->]|done]. Qed.

Lemma list_base chans n :
  0 ≤ n → layout_repeat ly_shm_chan n = Some chans →
  layout_ok chans ∧ ly_size chans = ly_size ly_shm_chan * n ∧ ly_align chans = 8.
Proof.
  intros Hn Hr. destruct shm_chan_layout as (Hok & Ha & Hd & _).
  destruct (layout_repeat_ok _ _ _ Hok Hn ltac:(by rewrite Ha) Hr) as (? & ? & ?). split_and!; [done..|congruence].
Qed.

(** What [chan_list_layout] returns. *)
Definition list_layout_ok n (l : Layout) : Prop :=
  layout_ok l ∧ (cache_line | ly_align l) ∧ CHANS_OFF + ly_size ly_shm_chan * n ≤ ly_size l.

Lemma chan_list_layout_ok n :
  0 ≤ n →
  match chan_list_layout cache_line feature_page_aligned getpagesize n with
  | Ok (l, _) => list_layout_ok n l
  | Err _ => True
  | Panic _ => False
  end.
Proof.
  intros Hn. unfold chan_list_layout.
  destruct (layout_repeat ly_shm_chan n) as [chans|] eqn:Er; cbn; [|done].
  apply list_base in Er as (Hc & Hsz & Hal); [|done].
  destruct chan_list_fixed as (Hf & Hfa & _ & Hoff).
  destruct (layout_extend _ _) as [[l off]|] eqn:Ee; cbn; [|done].
  apply layout_extend_ok in Ee as (Hl & -> & Hls & Hla); [|done..].
  pose proof (round_up_spec (ly_size (ly_chan_list cache_line)) (ly_align chans) ltac:(lia)) as [Hr _].
  assert (is_power_of_two cache_line = true) as Hclp by (rewrite <- Hfa; apply Hf).
  assert (list_layout_ok n l) as Hbase.
  { split; [done|]. split; [apply power_divide; [done|apply Hl|lia]|]. lia. }
  assert (∀ p, match align_to l p with Some l' => list_layout_ok n l' | None => True end) as Hto.
  { intros p. destruct (align_to l p) as [l'|] eqn:E; [|done]. apply align_to_ok in E as (Hok & Es & Ea); [|done].
    destruct Hbase as (_ & Hdiv & Hfit). split; [done|]. rewrite Es. split; [|done].
    etransitivity; [exact Hdiv|]. apply power_divide; [apply Hl|apply Hok|lia]. }
  destruct feature_page_aligned; [|done]. destruct getpagesize as [[page|]| |]; cbn; try done.
  destruct (Z.leb_spec USIZE (ly_size l * 2)) as [Hov|_].
  { pose proof (lo_fits _ Hl). pose proof (layout_ok_align _ Hl). unfold USIZE, ISIZE_MAX in *. lia. }
  destruct (page <? _); cbn; [|done]. unfold is_aligned_to. rewrite (lo_align _ Hl). cbn.
  destruct (_ =? _); [|done]. specialize (Hto page). by destruct (align_to l page).
Qed.

(** What [shm_layout] returns. *)
Definition shm_layout_ok n (L : ShmLayout) : Prop :=
  ∃ lst, list_layout_ok n lst ∧
    ly_size (ly_shared_mem cache_line) ≤ shl_side_a L ∧ shl_side_a L + ly_size lst ≤ shl_side_b L ∧
    shl_side_b L + ly_size lst ≤ ly_size (shl_layout L) ∧
    (ly_align lst | shl_side_a L) ∧ (ly_align lst | shl_side_b L) ∧
    (ly_align (shl_layout L) | ly_size (shl_layout L)) ∧ ly_size (shl_layout L) ≤ ISIZE_MAX.

Lemma pad_to_align_ok l :
  layout_ok l → ly_size l ≤ ly_size (pad_to_align l) ≤ ISIZE_MAX ∧
    (ly_align (pad_to_align l) | ly_size (pad_to_align l)).
Proof.
  intros Hl. cbn. rewrite padded_size by done. pose proof (layout_ok_align _ Hl).
  destruct (round_up_spec (ly_size l) (ly_align l)) as [? ?]; [lia|]. pose proof (lo_fits _ Hl). split; [lia|done].
Qed.

Lemma shm_layout_spec n :
  0 ≤ n →
  match shm_layout cache_line feature_page_aligned getpagesize n with
  | Ok L => shm_layout_ok n L
  | Err _ => True
  | Panic _ => False
  end.
Proof.
  intros Hn. unfold shm_layout. pose proof (chan_list_layout_ok n Hn) as Hlst.
  destruct (chan_list_layout _ _ _ n) as [[lst pa]| |]; cbn; [|done..].
  destruct shared_mem_fixed as (Hm & _ & _). pose proof Hlst as (Hl & Hdiv & Hfit).
  pose proof (layout_ok_align _ Hl) as Hla.
  destruct (layout_extend (ly_shared_mem cache_line) lst) as [[l1 a]|] eqn:E1; cbn; [|done].
  apply layout_extend_ok in E1 as (H1 & -> & S1 & _); [|done..].
  destruct (layout_extend l1 lst) as [[l2 b]|] eqn:E2; cbn; [|done].
  apply layout_extend_ok in E2 as (H2 & -> & S2 & _); [|done..].
  destruct (round_up_spec (ly_size (ly_shared_mem cache_line)) (ly_align lst)) as [? ?]; [lia|].
  destruct (round_up_spec (ly_size l1) (ly_align lst)) as [? ?]; [lia|].
  assert (∀ l, layout_ok l → ly_size l = ly_size l2 → shm_layout_ok n (mkShmLayout (pad_to_align l)
    (round_up (ly_size (ly_shared_mem cache_line)) (ly_align lst)) (round_up (ly_size l1) (ly_align lst)) pa)) as Hend.
  { intros l Hlok Es. destruct (pad_to_align_ok l Hlok) as [? ?]. exists lst. cbn [shl_layout shl_side_a shl_side_b].
    split; [done|]. split_and!; try done; lia. }
  destruct pa; cbn; [|by apply Hend]. destruct getpagesize as [[page|]| |]; cbn; try done; [|by apply Hend].
  destruct (_ <? _); cbn; [|by apply Hend].
  destruct (align_to l2 page) as [l3|] eqn:E3; cbn; [|done]. apply align_to_ok in E3 as (? & ? & _); [|done].
  by apply Hend.
Qed.

(** A new memory validates, and its sides are two. *)
Lemma state_open_create max_chans mapped :
  match state_open cache_line feature_page_aligned getpagesize true max_chans mapped with
  | Ok (st, m) => st_side_a st ≠ st_side_b st ∧ st_max_chans st = max_chans ∧
      ∃ size pa, m = shm_init max_chans size pa (st_side_a st) (st_side_b st)
  | Err e => ∃ e', e = ShmLayoutErr e' ∧
      shm_layout cache_line feature_page_aligned getpagesize (Z.of_nat max_chans) = Err e'
  | Panic _ => False
  end.
Proof.
  unfold state_open. pose proof (shm_layout_spec (Z.of_nat max_chans) ltac:(lia)) as HL.
  destruct (shm_layout _ _ _ _) as [L|e|w]; cbn; [|by exists e|done].
  unfold state_validate. cbn. rewrite !Z.eqb_refl, Bool.eqb_reflx. cbn.
  destruct HL as (lst & (Hl & _ & Hfit) & Ha & Hb & _). split_and!; [|done|by eexists _, _].
  destruct shared_mem_fixed as (Hm & _ & ?), chan_list_fixed as (_ & _ & Hoff & _), shm_chan_layout as (_ & _ & _ & ?).
  assert (0 ≤ ly_size ly_shm_chan * Z.of_nat max_chans) by nia. lia.
Qed.

(** Layouts that are not huge exist. *)
Lemma layout_extend_some l next :
  layout_ok l → layout_ok next → ly_align l ≤ 2 ^ 20 → ly_align next ≤ 2 ^ 20 →
  ly_size l + ly_size next ≤ 2 ^ 62 →
  ∃ new off, layout_extend l next = Some (new, off) ∧ ly_size new ≤ ly_size l + ly_size next + 2 ^ 20.
Proof.
  intros Hl Hn Ha Hb Hs. unfold layout_extend.
  pose proof (layout_ok_align _ Hl). pose proof (layout_ok_align _ Hn).
  pose proof (lo_size _ Hl). pose proof (lo_size _ Hn).
  rewrite padding_needed_for_spec; [|apply Hn|lia|destruct Hl; lia].
  destruct (round_up_spec (ly_size l) (ly_align next)) as [Hr _]; [lia|].
  unfold checked_usize. destruct (Z.ltb_spec (round_up (ly_size l) (ly_align next)) USIZE); [cbn|unfold USIZE in *; lia].
  destruct (Z.ltb_spec (round_up (ly_size l) (ly_align next) + ly_size next) USIZE); [cbn|unfold USIZE in *; lia].
  unfold from_size_align.
  assert (is_power_of_two (Z.max (ly_align l) (ly_align next)) = true) as ->.
  { destruct (Z.max_spec (ly_align l) (ly_align next)) as [[_ ->]|[_ ->]]; [apply Hn|apply Hl]. }
  cbn. destruct (Z.ltb_spec (ISIZE_MAX - (Z.max (ly_align l) (ly_align next) - 1))
    (round_up (ly_size l) (ly_align next) + ly_size next)); [unfold ISIZE_MAX in *; lia|].
  cbn. eexists _, _. split; [done|]. cbn. lia.
Qed.

Lemma shm_layout_succeeds n :
  feature_page_aligned = false → 0 ≤ n → ly_size ly_shm_chan * n ≤ 2 ^ 60 →
  is_ok (shm_layout cache_line feature_page_aligned getpagesize n) = true.
Proof.
  intros -> Hn Hsz. unfold shm_layout, chan_list_layout.
  destruct shm_chan_layout as (Hc & Hca & Hcd & Hc0).
  assert (∃ chans, layout_repeat ly_shm_chan n = Some chans) as [chans Er].
  { unfold layout_repeat. rewrite padded_size, Hca by done. rewrite (round_up_unique _ _ (ly_size ly_shm_chan)) by (done || lia).
    unfold checked_usize. destruct (Z.ltb_spec (ly_size ly_shm_chan * n) USIZE); [|unfold USIZE in *; lia].
    cbn [mbind option_bind]. unfold from_size_align. change (negb (is_power_of_two 8)) with false. cbv iota.
    destruct (Z.ltb_spec (ISIZE_MAX - (8 - 1)) (ly_size ly_shm_chan * n)); [unfold ISIZE_MAX in *; lia|].
    by eexists. }
  rewrite Er. cbn. apply list_base in Er as (Hch & Hchs & Hcha); [|done].
  destruct chan_list_fixed as (Hf & Hfa & _ & _). destruct shared_mem_fixed as (Hm & Hma & _).
  assert (cache_line ≤ 128 ∧ ly_size (ly_chan_list cache_line) ≤ 128 ∧ ly_size (ly_shared_mem cache_line) ≤ 1024)
    as (Hc1 & Hc2 & Hc3).
  { destruct (cache_lines _ Hcl) as [->|[->| ->]].
    all: split_and!; vm_compute; done. }
  destruct (layout_extend_some (ly_chan_list cache_line) chans) as (lst & off & El & Hls); try done; try lia.
  rewrite El. cbn. apply layout_extend_ok in El as (Hl & _ & _ & Hla); [|done..].
  destruct (layout_extend_some (ly_shared_mem cache_line) lst) as (l1 & a & E1 & H1s); try done; try lia.
  rewrite E1. cbn. apply layout_extend_ok in E1 as (H1 & _ & _ & H1a); [|done..].
  destruct (layout_extend_some l1 lst) as (l2 & b & E2 & H2s); try done; try lia. by rewrite E2.
Qed.
End Layouts.
