(* ===== verification/AfcShmProofs.v ===== *)
(** Fast channels: the shared memory as a map of channels: lists of channels,
    the invariant of the memory, the writer and the reader. *)
From S2P Require Import Prelude Collections Bytes AfcTypes AfcClient AfcShm.
Local Open Scope string_scope.
Local Open Scope list_scope.
Local Open Scope nat_scope.

(** Fast channels: lists of channels in shared memory. What the methods of
    [ChanListData] do to the channels in use, as operations on lists, and the
    map of channels that a list stands for. *)
(** * Lists *)
(** Removing an element by moving the last one into its place. *)
Definition swap_rm {A} (idx : nat) (l : list A) : list A :=
  match last l with Some x => take (length l - 1) (<[idx := x]> l) | None => l end.

Section Lists.
Context {A : Type}.
Implicit Types (l : list A).

Lemma swap_rm_snoc idx l x :
  idx ≤ length l → swap_rm idx (l ++ [x]) = <[idx := x]> l.
Proof.
  intros Hi. unfold swap_rm. rewrite last_snoc, length_app. simpl.
  replace (length l + 1 - 1) with (length l) by lia.
  destruct (decide (idx = length l)) as [->|].
  - rewrite (list_insert_ge l) by lia. rewrite insert_app_r_alt by lia.
    rewrite take_app_length' by lia. done.
  - rewrite insert_app_l by lia. rewrite take_app_length' by (rewrite length_insert; lia). done.
Qed.

Lemma swap_rm_length idx l : idx < length l → S (length (swap_rm idx l)) = length l.
Proof.
  destruct l as [|x l _] using rev_ind; [simpl; lia|]. intros Hi. rewrite length_app in *. simpl in *.
  rewrite swap_rm_snoc, length_insert by lia. lia.
Qed.

Lemma insert_perm idx l x y : l !! idx = Some x → <[idx := y]> l ≡ₚ y :: delete idx l.
Proof.
  revert idx. induction l as [|z l IH]; intros [|idx] Hx; simpl in *; try done.
  rewrite IH by done. constructor.
Qed.

Lemma swap_rm_perm idx l x : l !! idx = Some x → l ≡ₚ x :: swap_rm idx l.
Proof.
  destruct l as [|y l _] using rev_ind; [done|]. intros Hx.
  pose proof (lookup_lt_Some _ _ _ Hx) as Hi. rewrite length_app in Hi. simpl in Hi.
  rewrite swap_rm_snoc by lia. destruct (decide (idx = length l)) as [->|].
  - rewrite lookup_app_r, Nat.sub_diag in Hx by lia. injection Hx as ->.
    rewrite list_insert_ge by lia. by rewrite Permutation_app_comm.
  - rewrite lookup_app_l in Hx by lia.
    rewrite (insert_perm idx l x y Hx), Permutation_app_comm. simpl.
    rewrite (delete_Permutation l idx x Hx) at 1. constructor.
Qed.


Lemma take_swap_rm idx l : idx < length l → take idx (swap_rm idx l) = take idx l.
Proof.
  destruct l as [|x l _] using rev_ind; [simpl; lia|]. rewrite length_app. simpl. intros Hi.
  rewrite swap_rm_snoc, take_insert_ge, take_app_le by lia. done.
Qed.

(** A swap with the last of the first [n] elements, which is then left out. *)
Lemma take_swap idx n l l' :
  n ≤ length l → idx < n → vec_swap idx (n - 1) l = Some l' →
  take (n - 1) l' = swap_rm idx (take n l).
Proof.
  intros Hn Hi. unfold vec_swap. destruct (l !! idx) as [x|] eqn:Hx; [|done].
  destruct (l !! (n - 1)) as [y|] eqn:Hy; [|done]. intros [= <-].
  unfold swap_rm. rewrite last_lookup, length_take, Nat.min_l by done.
  replace (pred n) with (n - 1) by lia. rewrite lookup_take_lt, Hy by lia.
  apply list_eq. intros i. destruct (decide (i < n - 1)) as [Hlt|Hge].
  - rewrite !lookup_take_lt by done. destruct (decide (i = idx)) as [->|Hne].
    + rewrite !list_lookup_insert_eq; [done|..]; rewrite ?length_insert, ?length_take; lia.
    + rewrite !list_lookup_insert_ne by lia. by rewrite lookup_take_lt by lia.
  - by rewrite !lookup_take_ge by lia.
Qed.
End Lists.

Lemma list_filter_all {A} (P : A → Prop) `{∀ x, Decision (P x)} (l : list A) :
  Forall P l → filter P l = l.
Proof. induction 1 as [|x l Hx _ IH]; [done|]. by rewrite filter_cons_True, IH by done. Qed.

Lemma swap_rm_Forall2 {A B} (R : A → B → Prop) idx l k :
  idx < length l → Forall2 R l k → Forall2 R (swap_rm idx l) (swap_rm idx k).
Proof.
  intros Hi HF. pose proof (Forall2_length _ _ _ HF) as Hlen.
  destruct l as [|x l _] using rev_ind; [simpl in Hi; lia|].
  destruct k as [|y k _] using rev_ind; [rewrite length_app in Hlen; simpl in Hlen; lia|].
  rewrite !length_app in *. simpl in *. apply Forall2_app_inv in HF as [HF Hxy]; [|lia].
  rewrite !swap_rm_snoc by lia. apply Forall2_insert; [done|]. by inversion Hxy.
Qed.

(** * Channels *)
Definition cid (c : ShmChan) : ChannelId := mkChannelId (mkNodeId (sc_node_id c)) (mkLabel (sc_label c)).

(** The keys of a channel, by its direction. *)
Definition chan_keys (c : ShmChan) : option (Directed RawKey RawKey) :=
  d ← direction_try_from_u32 (sc_direction c);
  Some match d with
       | DirSealOnly => SealOnly (sc_seal_key c)
       | DirOpenOnly => OpenOnly (sc_open_key c)
       | DirBidirectional => Bidirectional (sc_seal_key c) (sc_open_key c)
       end.

Definition chan_ok (c : ShmChan) : Prop := sc_magic c = CHAN_MAGIC ∧ is_Some (chan_keys c).

(** The first channel of an [id]. *)
Fixpoint chan_at (id : ChannelId) (l : list ShmChan) : option ShmChan :=
  match l with
  | [] => None
  | c :: r => if bool_decide (cid c = id) then Some c else chan_at id r
  end.

Lemma chan_at_elem id l c : chan_at id l = Some c → c ∈ l ∧ cid c = id.
Proof.
  induction l as [|x l IH]; [done|]. simpl. case_bool_decide as E.
  - intros [= ->]. split; [by left|done].
  - intros [? ?]%IH. split; [by right|done].
Qed.

Lemma chan_at_None id l : chan_at id l = None ↔ id ∉ cid <$> l.
Proof.
  induction l as [|x l IH]; [split; [intros _ H; inversion H|done]|]. simpl. rewrite not_elem_of_cons.
  case_bool_decide as E; [|rewrite IH]; naive_solver.
Qed.

Lemma chan_at_Some id l c : NoDup (cid <$> l) → chan_at id l = Some c ↔ c ∈ l ∧ cid c = id.
Proof.
  intros Hnd. split; [apply chan_at_elem|]. intros [Hin <-].
  induction l as [|x l IH]; [inversion Hin|]. simpl in *. apply NoDup_cons in Hnd as [Hx Hnd].
  apply elem_of_cons in Hin as [->|Hin]; [by rewrite bool_decide_true|].
  rewrite bool_decide_false; [by apply IH|]. intros E. apply Hx. rewrite E.
  by apply list_elem_of_fmap_2.
Qed.

#[export] Instance chan_at_perm id : Proper ((λ l k, l ≡ₚ k ∧ NoDup (cid <$> l)) ==> eq) (chan_at id).
Proof.
  intros l k [Hp Hnd]. assert (NoDup (cid <$> k)) as Hnd' by (by rewrite <- Hp).
  destruct (chan_at id k) as [c|] eqn:E.
  - apply chan_at_Some in E as [? ?]; [|done]. apply chan_at_Some; [done|]. by rewrite Hp.
  - apply chan_at_None in E. apply chan_at_None. by rewrite Hp.
Qed.

Lemma chan_at_permute id l k : l ≡ₚ k → NoDup (cid <$> l) → chan_at id l = chan_at id k.
Proof. intros. by apply chan_at_perm. Qed.

Lemma chan_at_filter (p : ChannelId → bool) id l :
  chan_at id (filter (λ c, p (cid c) = false) l) = if p id then None else chan_at id l.
Proof.
  induction l as [|x l IH]; [by case_match|]. rewrite filter_cons. simpl.
  destruct (p (cid x)) eqn:Ep.
  - rewrite decide_False by congruence. rewrite IH. destruct (p id) eqn:E; [done|].
    rewrite bool_decide_false; [done|]. congruence.
  - rewrite decide_True by done. simpl. rewrite IH. case_bool_decide as E; [|done].
    subst id. by rewrite Ep.
Qed.

(** Two copies of a channel show the same; they may differ in the sequence
    number and in the keys that the direction leaves out. *)
Definition chan_same (a b : ShmChan) : Prop :=
  cid a = cid b ∧ sc_direction a = sc_direction b ∧ chan_keys a = chan_keys b.
#[export] Instance chan_same_equiv : Equivalence chan_same.
Proof.
  split; [by intros a|by intros a b (? & ? & ?)|].
  intros a b c (? & ? & ?) (? & ? & ?). split_and!; congruence.
Qed.

Lemma chan_at_same id l k :
  Forall2 chan_same l k → (chan_at id l ≫= chan_keys) = (chan_at id k ≫= chan_keys).
Proof.
  induction 1 as [|a b l k (Hid & Hd & Hk) _ IH]; [done|]. simpl. rewrite Hid.
  by case_bool_decide.
Qed.

Lemma cids_same l k : Forall2 chan_same l k → cid <$> l = cid <$> k.
Proof. induction 1 as [|a b l k (Hid & _) _ IH]; [done|]. rewrite !fmap_cons. by rewrite Hid, IH. Qed.

(** * Well-formed lists *)
Definition used (d : ChanListData) : list ShmChan := take (cl_len d) (cl_chans d).

Record list_ok (cap : nat) (d : ChanListData) : Prop := {
  lo_cap : cl_cap d = cap;
  lo_slots : length (cl_chans d) = cap;
  lo_len : cl_len d ≤ cap;
  lo_chans : Forall chan_ok (used d);
  lo_ids : NoDup (cid <$> used d);
  lo_gen : (0 ≤ cl_gen d < 2 ^ 32)%Z
}.

(** The map of channels that a list stands for. *)
Definition list_view (d : ChanListData) (id : ChannelId) : option (Directed RawKey RawKey) :=
  chan_at id (used d) ≫= chan_keys.

Lemma used_length cap d : list_ok cap d → length (used d) = cl_len d.
Proof. intros [_ Hs Hl _ _ _]. unfold used. rewrite length_take. lia. Qed.

Lemma gen_next_range g : (0 ≤ gen_next g < 2 ^ 32)%Z.
Proof. apply Z.mod_pos_bound. lia. Qed.
Lemma gen_next_ne g : (0 ≤ g < 2 ^ 32)%Z → gen_next g ≠ g.
Proof.
  intros Hg E. unfold gen_next in E. destruct (Z.eq_dec g (2 ^ 32 - 1)%Z) as [->|Hn]; [by vm_compute in E|].
  rewrite Z.mod_small in E by lia. lia.
Qed.

Section Specs.
Context (dbg : bool) (cap : nat).

Lemma debug_assert_ok {E} b w : b = true → debug_assert (E := E) dbg b w = Ok tt.
Proof. intros ->. unfold debug_assert. by rewrite andb_false_r. Qed.

Lemma chan_id_ok c : chan_ok c → chan_id dbg c = Ok (cid c).
Proof.
  intros [Hm _]. unfold chan_id, chan_check. rewrite debug_assert_ok by (rewrite Hm; done).
  simpl. by rewrite Hm.
Qed.

Lemma chan_direction_ok c : chan_ok c →
  ∃ d, chan_direction dbg c = Ok d ∧ direction_try_from_u32 (sc_direction c) = Some d.
Proof.
  intros [Hm [v Hv]]. unfold chan_direction, chan_check. rewrite debug_assert_ok by (rewrite Hm; done).
  simpl. rewrite Hm. unfold chan_keys in Hv.
  destruct (direction_try_from_u32 (sc_direction c)) as [d|] eqn:E; [|done]. by exists d.
Qed.

(** The operations that a channel's keys allow. *)
Definition keys_match (op : ShmOp) (k : Directed RawKey RawKey) : bool :=
  match op with
  | OpSeal => bool_decide (is_Some (dir_seal k))
  | OpOpen => bool_decide (is_Some (dir_open k))
  | OpAny => true
  end.

Lemma chan_matches_ok c op : chan_ok c →
  ∃ k, chan_keys c = Some k ∧ chan_matches dbg c op = Ok (keys_match op k).
Proof.
  intros Hc. destruct (chan_direction_ok c Hc) as (d & Hd & E). unfold chan_matches. rewrite Hd.
  unfold chan_keys. rewrite E. simpl. eexists. split; [done|]. f_equal. by destruct d, op.
Qed.

Lemma cl_in_use_ok d : list_ok cap d → cl_in_use dbg d = Ok (used d).
Proof.
  intros [Hc Hs Hl _ _ _]. unfold cl_in_use, cl_check.
  rewrite debug_assert_ok by (apply Nat.leb_le; lia). simpl.
  by rewrite (proj2 (Nat.leb_le _ _)) by lia.
Qed.

Lemma cl_get_ok idx d : list_ok cap d → cl_get dbg idx d = Ok (used d !! idx).
Proof. intros Hd. unfold cl_get. by rewrite cl_in_use_ok. Qed.

(** ** Searching *)
Lemma try_find_ok {A} (p : A → outcome Corrupted bool) (g : A → bool) (l : list A) i :
  (∀ x, x ∈ l → p x = Ok (g x)) →
  match try_find p i l with
  | Ok (Some (j, x)) => ∃ n, j = i + n ∧ l !! n = Some x ∧ g x = true
  | Ok None => ∀ x, x ∈ l → g x = false
  | _ => False
  end.
Proof.
  revert i. induction l as [|x l IH]; intros i Hp; [intros x Hx; inversion Hx|].
  simpl. rewrite (Hp x) by left. simpl. destruct (g x) eqn:E; [by exists 0; rewrite Nat.add_0_r|].
  specialize (IH (S i) (λ y Hy, Hp y (list_elem_of_further _ _ _ Hy))).
  destruct (try_find p (S i) l) as [[[j y]|]|e|w]; [| |done..].
  - destruct IH as (n & -> & ? & ?). exists (S n). split_and!; [lia|done..].
  - intros y [->|Hy]%elem_of_cons; [done|auto].
Qed.

(** What a search for [id] finds: the channel, if [g] accepts it. *)
Definition found (id : ChannelId) (g : ShmChan → bool) (d : ChanListData)
    (r : outcome Corrupted (option (nat * ShmChan))) : Prop :=
  match chan_at id (used d) with
  | Some c => if g c then ∃ idx, r = Ok (Some (idx, c)) ∧ used d !! idx = Some c else r = Ok None
  | None => r = Ok None
  end.

Lemma try_find_found d id p (g : ShmChan → bool) :
  list_ok cap d →
  (∀ c, c ∈ used d → p c = Ok (bool_decide (cid c = id) && g c)) →
  found id g d (try_find p 0 (used d)).
Proof.
  intros Hd Hp. pose proof (try_find_ok p _ (used d) 0 Hp) as HT. unfold found.
  destruct (try_find p 0 (used d)) as [[[j c]|]|e|w]; [| |done..].
  - destruct HT as (n & -> & Hn & [E%bool_decide_eq_true Hg]%andb_true_iff).
    assert (chan_at id (used d) = Some c) as ->.
    { apply chan_at_Some; [apply Hd|]. split; [by eapply list_elem_of_lookup_2|done]. }
    rewrite Hg. by exists n.
  - destruct (chan_at id (used d)) as [c|] eqn:E; [|done].
    apply chan_at_elem in E as [Hin E]. specialize (HT c Hin).
    rewrite bool_decide_true in HT by done. simpl in HT. by rewrite HT.
Qed.

Lemma find_id_found id d : list_ok cap d → found id (λ _, true) d (find_id dbg id d).
Proof.
  intros Hd. unfold find_id. rewrite cl_in_use_ok by done. simpl. apply try_find_found; [done|].
  intros c Hc. rewrite chan_id_ok by (by eapply Forall_forall; [apply Hd|]). simpl. by rewrite andb_true_r.
Qed.

(** The direction of a channel allows an operation. *)
Definition allows (op : ShmOp) (c : ShmChan) : bool :=
  match chan_keys c with Some k => keys_match op k | None => false end.

Lemma chan_is_ok id op c :
  chan_ok c → chan_is dbg id op c = Ok (bool_decide (cid c = id) && allows op c).
Proof.
  intros Hc. unfold chan_is. rewrite chan_id_ok by done. simpl. case_bool_decide; [|done].
  destruct (chan_matches_ok c op Hc) as (k & Hk & ->). unfold allows. by rewrite Hk.
Qed.

Lemma cl_find_found id hint op d : list_ok cap d → found id (allows op) d (cl_find dbg id hint op d).
Proof.
  intros Hd. unfold cl_find. rewrite cl_in_use_ok by done. cbn [mbind outcome_bind].
  assert (∀ c, c ∈ used d → chan_is dbg id op c = Ok (bool_decide (cid c = id) && allows op c)) as Hp.
  { intros c Hc. apply chan_is_ok. by eapply Forall_forall; [apply Hd|]. }
  pose proof (try_find_found d id _ _ Hd Hp) as HF. destruct hint as [idx|]; [|done].
  rewrite cl_get_ok by done. cbn [mbind outcome_bind]. destruct (used d !! idx) as [c|] eqn:Hc; [|done].
  assert (c ∈ used d) as Hin by by eapply list_elem_of_lookup_2. rewrite Hp by done.
  destruct (bool_decide (cid c = id) && allows op c) eqn:E; [|done].
  apply andb_true_iff in E as [E%bool_decide_eq_true Ha]. unfold found.
  assert (chan_at id (used d) = Some c) as -> by (apply chan_at_Some; [apply Hd|done]).
  rewrite Ha. by exists idx.
Qed.

(** ** Updates *)
Lemma list_ok_bump d : list_ok cap d → list_ok cap (bump_gen d).
Proof. intros [? ? ? ? ? ?]. split; try done. apply gen_next_range. Qed.

(** The list with other channels in use. *)
Lemma list_ok_used d d' :
  list_ok cap d → cl_cap d' = cl_cap d → length (cl_chans d') = length (cl_chans d) →
  cl_len d' ≤ cap → (0 ≤ cl_gen d' < 2 ^ 32)%Z →
  Forall chan_ok (used d') → NoDup (cid <$> used d') → list_ok cap d'.
Proof. intros [? ? ? ? ? ?] ? ? ? ? ? ?. split; congruence || done. Qed.

Lemma cl_swap_remove_ok idx d :
  list_ok cap d → idx < cl_len d →
  ∃ d', cl_swap_remove dbg idx d = Ok d' ∧ list_ok cap d' ∧ cl_gen d' = cl_gen d ∧
        used d' = swap_rm idx (used d).
Proof.
  intros Hd Hi. pose proof Hd as [Hc Hs Hl HF HN Hg]. unfold cl_swap_remove, cl_check.
  rewrite debug_assert_ok by (apply Nat.leb_le; lia). cbn [mbind outcome_bind].
  rewrite (proj2 (Nat.eqb_neq _ _)) by lia. rewrite (proj2 (Nat.leb_gt _ _)) by lia.
  assert (∃ d1, (if 1 <? cl_len d
     then cl_in_use dbg d ≫= λ _, match vec_swap idx (cl_len d - 1) (cl_chans d) with
                                  | Some c => Ok (set_chans c d)
                                  | None => Panic "index out of bounds" end
     else Ok d) = Ok d1 ∧ cl_gen d1 = cl_gen d ∧ cl_cap d1 = cl_cap d ∧
     length (cl_chans d1) = length (cl_chans d) ∧
     take (cl_len d - 1) (cl_chans d1) = swap_rm idx (used d)) as (d1 & E & Hg1 & Hc1 & Hl1 & Ht1).
  { destruct (Nat.ltb_spec 1 (cl_len d)).
    - rewrite cl_in_use_ok by done. cbn [mbind outcome_bind].
      destruct (vec_swap idx (cl_len d - 1) (cl_chans d)) as [l'|] eqn:E.
      + exists (set_chans l' d). split_and!; try done; [by apply vec_swap_lookup in E as [? _]|].
        apply take_swap; [lia|done..].
      + exfalso. unfold vec_swap in E. destruct (cl_chans d !! idx) eqn:E1.
        * destruct (cl_chans d !! (cl_len d - 1)) eqn:E2; [done|]. apply lookup_ge_None in E2. lia.
        * apply lookup_ge_None in E1. lia.
    - exists d. split_and!; try done. assert (cl_len d = 1) as E by lia.
      unfold used. rewrite E. unfold swap_rm. case_match eqn:El; [by rewrite length_take, Nat.min_l by lia|].
      apply last_None in El. apply (f_equal length) in El. rewrite length_take, Nat.min_l in El by lia. done. }
  rewrite E. cbn [mbind outcome_bind]. rewrite (proj2 (Nat.leb_le _ _)) by (cbn; lia).
  eexists. split; [done|].
  assert (used (set_len (cl_len d - 1) d1) = swap_rm idx (used d)) as Hu by done.
  destruct (used d !! idx) as [c|] eqn:Hx.
  2:{ apply lookup_ge_None in Hx. rewrite (used_length cap) in Hx by done. lia. }
  pose proof (swap_rm_perm _ _ _ Hx) as Hp.
  split_and!; [|done..]. apply (list_ok_used d); try done; [cbn; lia|by cbn; rewrite Hg1|..].
  - rewrite Hu. rewrite Hp in HF. by apply Forall_cons in HF as [_ ?].
  - rewrite Hu. rewrite Hp, fmap_cons in HN. by apply NoDup_cons in HN as [_ ?].
Qed.

(** A channel added at the end, or replaced. *)
Definition put_at (idx : nat) (grow : bool) (c : ShmChan) (l : list ShmChan) : list ShmChan :=
  if grow then l ++ [c] else <[idx := c]> l.
(** When a channel can be put into a slot. *)
Definition slot_ok (idx : nat) (grow : bool) (c : ShmChan) (d : ChanListData) : Prop :=
  if grow then idx = cl_len d ∧ cl_len d < cap ∧ chan_at (cid c) (used d) = None
  else ∃ old, used d !! idx = Some old ∧ cid old = cid c.

Lemma put_chan_ok idx grow c d :
  list_ok cap d → chan_ok c → slot_ok idx grow c d →
  ∃ d', put_chan dbg idx grow c d = (Ok tt, d') ∧ list_ok cap d' ∧
        cl_gen d' = gen_next (cl_gen d) ∧ used d' = put_at idx grow c (used d).
Proof.
  intros Hd Hc Hslot. pose proof Hd as [Hcap Hs Hl HF HN Hg].
  assert (idx < length (cl_chans d)) as Hi.
  { destruct grow; cbn in Hslot; [lia|]. destruct Hslot as (old & Hold & _).
    apply lookup_lt_Some in Hold. rewrite (used_length cap) in Hold by done. lia. }
  set (d1 := set_chans (<[idx := c]> (cl_chans d)) d).
  set (d2 := if grow then set_len (S (cl_len d)) (bump_gen d1) else bump_gen d1).
  assert (used d2 = put_at idx grow c (used d)) as Hu.
  { unfold d2, d1, used, put_at. destruct grow; cbn in Hslot |- *.
    - destruct Hslot as (-> & Hlt & _). rewrite (take_S_r _ _ c).
      + by rewrite take_insert_ge by lia.
      + by rewrite list_lookup_insert_eq by lia.
    - destruct Hslot as (old & Hold & _). apply lookup_lt_Some in Hold.
      rewrite (used_length cap) in Hold by done. by rewrite take_insert_lt by lia. }
  exists d2. split_and!; [| |by destruct grow|done].
  - assert (update_c (cl_write_raw_at dbg idx c) d = (Ok tt, d1)) as Hw.
    { unfold update_c, cl_write_raw_at, cl_check.
      rewrite debug_assert_ok by (apply Nat.leb_le; lia). cbn [mbind outcome_bind].
      by rewrite (proj2 (Nat.ltb_lt _ _) Hi). }
    unfold put_chan. rewrite (M_bind_Ok _ _ _ _ _ Hw).
    unfold assert_len, mbind, M_bind, modify.
    destruct grow; cbn [mret M_ret];
      (rewrite (proj2 (Nat.leb_le _ _)); [done|cbn in Hslot |- *; lia]).
  - apply (list_ok_used d); try done.
    + by destruct grow.
    + destruct grow; cbn; by rewrite length_insert.
    + destruct grow; cbn in Hslot |- *; lia.
    + destruct grow; apply gen_next_range.
    + rewrite Hu. unfold put_at. destruct grow; [by apply Forall_app_2; [|constructor]|by apply Forall_insert].
    + rewrite Hu. unfold put_at. destruct grow; cbn in Hslot.
      * destruct Hslot as (_ & _ & Hno). rewrite fmap_app. apply NoDup_app. split_and!; [done| |apply NoDup_singleton].
        intros id Hin ->%list_elem_of_singleton. by apply chan_at_None in Hno.
      * destruct Hslot as (old & Hold & Hid). rewrite list_fmap_insert, <- Hid.
        by rewrite list_insert_id; [|rewrite list_lookup_fmap, Hold].
Qed.

Lemma chan_at_put idx grow c d d' id :
  list_ok cap d → list_ok cap d' → slot_ok idx grow c d → used d' = put_at idx grow c (used d) →
  chan_at id (used d') = if bool_decide (id = cid c) then Some c else chan_at id (used d).
Proof.
  intros Hd Hd' Hslot Hu. destruct grow; cbn in Hslot.
  - destruct Hslot as (_ & _ & Hno).
    rewrite (chan_at_permute id (used d') (c :: used d)); [|rewrite Hu; symmetry; apply Permutation_cons_append|apply Hd'].
    simpl. rewrite (bool_decide_ext (cid c = id) (id = cid c)) by done. by case_bool_decide.
  - destruct Hslot as (old & Hold & Hid).
    rewrite (chan_at_permute id (used d') (c :: delete idx (used d))); [|rewrite Hu; by eapply insert_perm|apply Hd'].
    rewrite (chan_at_permute id (used d) (old :: delete idx (used d))); [|by apply delete_Permutation|apply Hd].
    simpl. rewrite Hid, (bool_decide_ext (cid c = id) (id = cid c)) by done. by case_bool_decide.
Qed.
Lemma list_view_put idx grow c d d' id :
  list_ok cap d → list_ok cap d' → slot_ok idx grow c d → used d' = put_at idx grow c (used d) →
  list_view d' id = if bool_decide (id = cid c) then chan_keys c else list_view d id.
Proof. intros. unfold list_view. rewrite (chan_at_put idx grow c d d') by done. by case_bool_decide. Qed.

(** ** Removals *)
Lemma remove_at_ok idx d :
  list_ok cap d → idx < cl_len d →
  ∃ d', remove_at dbg idx d = (Ok tt, d') ∧ list_ok cap d' ∧
        cl_gen d' = gen_next (cl_gen d) ∧ used d' = swap_rm idx (used d).
Proof.
  intros Hd Hi. destruct (cl_swap_remove_ok idx (bump_gen d)) as (d' & E & ? & ? & ?);
    [by apply list_ok_bump|done|].
  exists d'. split_and!; try done. unfold remove_at, update_c, mbind, M_bind, modify. by rewrite E.
Qed.

Lemma list_view_swap_rm idx c d d' id :
  list_ok cap d → list_ok cap d' → used d !! idx = Some c → used d' = swap_rm idx (used d) →
  list_view d' id = if bool_decide (id = cid c) then None else list_view d id.
Proof.
  intros Hd Hd' Hc Hu. pose proof (swap_rm_perm _ _ _ Hc) as Hp. unfold list_view.
  rewrite (chan_at_permute id (used d) _ Hp) by apply Hd. rewrite <- Hu. simpl.
  rewrite (bool_decide_ext (cid c = id) (id = cid c)) by done. case_bool_decide as E; [|done].
  subst id. assert (chan_at (cid c) (used d') = None) as ->; [|done].
  apply chan_at_None. rewrite Hu. pose proof (lo_ids _ _ Hd) as HN. rewrite Hp, fmap_cons in HN.
  by apply NoDup_cons in HN as [? _].
Qed.

Lemma cl_clear_ok d :
  list_ok cap d → list_ok cap (cl_clear d) ∧ used (cl_clear d) = [].
Proof.
  intros Hd. assert (used (cl_clear d) = []) as Hu by done. split; [|done].
  apply (list_ok_used d); try done; [cbn; lia|apply gen_next_range|..]; rewrite Hu; constructor.
Qed.

(** The loop of [remove_if] on the channels alone. *)
Fixpoint rm_if (fuel : nat) (p : ChannelId → bool) (idx : nat) (l : list ShmChan) : list ShmChan :=
  match fuel with
  | 0 => l
  | S fuel =>
    match l !! idx with
    | None => l
    | Some c => if p (cid c) then rm_if fuel p idx (swap_rm idx l) else rm_if fuel p (S idx) l
    end
  end.

Lemma rm_if_perm fuel p idx l :
  length l < fuel + idx → Forall (λ c, p (cid c) = false) (take idx l) →
  rm_if fuel p idx l ≡ₚ filter (λ c, p (cid c) = false) l.
Proof.
  revert idx l. induction fuel as [|fuel IH]; intros idx l Hf Hk.
  { rewrite take_ge in Hk by lia. simpl. by rewrite list_filter_all. }
  simpl. destruct (l !! idx) as [c|] eqn:Hc.
  2:{ apply lookup_ge_None in Hc. rewrite take_ge in Hk by lia. by rewrite list_filter_all. }
  pose proof (lookup_lt_Some _ _ _ Hc) as Hi. destruct (p (cid c)) eqn:Hp.
  - pose proof (swap_rm_length idx l Hi). rewrite IH; [|lia|by rewrite take_swap_rm].
    rewrite (swap_rm_perm idx l c Hc) at 2. by rewrite filter_cons_False by congruence.
  - rewrite IH; [done|lia|]. rewrite (take_S_r _ _ c) by done. apply Forall_app_2; [done|by constructor].
Qed.

Lemma rm_if_Forall2 fuel p idx l k :
  Forall2 chan_same l k → Forall2 chan_same (rm_if fuel p idx l) (rm_if fuel p idx k).
Proof.
  revert idx l k. induction fuel as [|fuel IH]; intros idx l k HF; [done|]. simpl.
  destruct (l !! idx) as [c|] eqn:Hc.
  - destruct (Forall2_lookup_l _ _ _ _ _ HF Hc) as (c' & -> & Hid & _ & _). rewrite Hid.
    case_match; apply IH; [|done]. apply swap_rm_Forall2; [by apply lookup_lt_Some in Hc|done].
  - apply Forall2_length in HF as Hlen. apply lookup_ge_None in Hc.
    by rewrite (proj2 (lookup_ge_None _ _)) by lia.
Qed.

(** Whether something is removed from [idx] on. *)
Definition removes (p : ChannelId → bool) (l : list ShmChan) : bool := existsb (λ c, p (cid c)) l.

Lemma removes_same p l k : Forall2 chan_same l k → removes p l = removes p k.
Proof. induction 1 as [|a b l k (Hid & _) _ IH]; [done|]. simpl. by rewrite Hid, IH. Qed.

Lemma remove_if_loop_ok {C} (f : ChannelId → C → bool * C) (p : ChannelId → bool) fuel idx updated d c :
  (∀ id x, (f id x).1 = p id) → list_ok cap d → idx ≤ cl_len d → cl_len d < fuel + idx →
  ∃ d' c', remove_if_loop dbg fuel f idx updated (d, c) = (Ok tt, (d', c')) ∧ list_ok cap d' ∧
    used d' = rm_if fuel p idx (used d) ∧
    cl_gen d' = if negb updated && removes p (drop idx (used d)) then gen_next (cl_gen d) else cl_gen d.
Proof.
  intros Hf. revert idx updated d c. induction fuel as [|fuel IH]; intros idx updated d c Hd Hle Hlt.
  all: pose proof (used_length cap d Hd) as Hlen.
  - lia.
  - cbn [remove_if_loop rm_if]. rewrite cl_get_ok by done.
    destruct (used d !! idx) as [ch|] eqn:Hc.
    2:{ apply lookup_ge_None in Hc. exists d, c. rewrite drop_ge by done. cbn. by rewrite andb_false_r. }
    pose proof (lookup_lt_Some _ _ _ Hc) as Hi.
    rewrite chan_id_ok by (eapply Forall_lookup_1; [apply Hd|done]).
    rewrite (drop_S _ _ _ Hc). cbn [removes existsb]. specialize (Hf (cid ch) c) as Hp.
    destruct (f (cid ch) c) as [b c1]. cbn in Hp. subst b. destruct (p (cid ch)) eqn:Ep.
    + set (d1 := if updated then d else bump_gen d).
      assert (list_ok cap d1) as Hd1 by (destruct updated; [done|by apply list_ok_bump]).
      destruct (cl_swap_remove_ok idx d1 Hd1) as (d2 & -> & Hd2 & Hg2 & Hu2); [unfold d1; destruct updated; cbn; lia|].
      assert (used d1 = used d) as E1 by by destruct updated. rewrite E1 in Hu2.
      pose proof (swap_rm_length idx (used d) Hi) as Hsl. rewrite <- Hu2, (used_length cap) in Hsl by done.
      destruct (IH idx true d2 c1 Hd2) as (d' & c' & -> & ? & Hu' & Hg); [lia..|].
      exists d', c'. rewrite Hu', Hu2. split_and!; [done..|]. rewrite Hg, Hg2. by destruct updated.
    + destruct (IH (S idx) updated d c1 Hd) as (d' & c' & -> & ? & Hu' & Hg); [lia..|].
      exists d', c'. by split_and!.
Qed.

Lemma cl_remove_if_ok {C} (f : ChannelId → C → bool * C) (p : ChannelId → bool) d c :
  (∀ id x, (f id x).1 = p id) → list_ok cap d →
  ∃ d' c', cl_remove_if dbg f (d, c) = (Ok tt, (d', c')) ∧ list_ok cap d' ∧
    used d' = rm_if (S (cl_len d)) p 0 (used d) ∧
    cl_gen d' = if removes p (used d) then gen_next (cl_gen d) else cl_gen d.
Proof.
  intros Hf Hd. destruct (remove_if_loop_ok f p (S (cl_len d)) 0 false d c Hf Hd) as (d' & c' & ? & ? & ? & ?);
    [lia..|]. by exists d', c'.
Qed.

Lemma list_view_rm_if p n d d' id :
  list_ok cap d → list_ok cap d' → cl_len d < n → used d' = rm_if n p 0 (used d) →
  list_view d' id = if p id then None else list_view d id.
Proof.
  intros Hd Hd' Hn Hu. unfold list_view.
  rewrite (chan_at_permute id (used d') (filter (λ c, p (cid c) = false) (used d)));
    [|rewrite Hu; apply rm_if_perm; [rewrite (used_length cap) by done; lia|constructor]|apply Hd'].
  rewrite chan_at_filter. by destruct (p id).
Qed.

(** The channels that stay are left alone if nothing is removed. *)
Lemma rm_if_removes_none p n l : length l < n → removes p l = false → rm_if n p 0 l = l.
Proof.
  intros Hn Hr. assert (∀ idx m, rm_if m p idx l = l) as Hall; [|apply Hall].
  intros idx m. revert idx. induction m as [|m IH]; intros idx; [done|]. simpl.
  destruct (l !! idx) as [c|] eqn:Hc; [|done].
  assert (p (cid c) = false) as ->; [|apply IH].
  apply not_true_is_false. intros Hp. apply not_true_iff_false in Hr. apply Hr.
  apply existsb_exists. exists c. split; [|done]. apply list_elem_of_In. by eapply list_elem_of_lookup_2.
Qed.

(** ** Writing back a sequence number *)
Section WriteBack.
Context `{Hpke}.

Definition with_seq (q : Z) (c : ShmChan) : ShmChan :=
  mkShmChan (sc_magic c) (sc_node_id c) (sc_label c) (sc_direction c) q
    (sc_seal_key c) (sc_open_key c) (sc_key_id c).
Definition evict_to (old : Cache CachedSealKey) (c : ShmChan) : ShmChan :=
  if allows OpSeal c && bool_decide (sc_key_id c = ck_id (ca_key old))
  then with_seq (seal_key_seq (ck_key (ca_key old))) c else c.

Lemma evict_same old c : chan_same c (evict_to old c).
Proof. unfold evict_to. by case_match. Qed.

Lemma list_insert_same idx (l : list ShmChan) c c' :
  l !! idx = Some c → chan_same c c' → Forall2 chan_same l (<[idx := c']> l).
Proof.
  intros Hc Hs. rewrite <- (list_insert_id l idx c Hc) at 1. apply Forall2_insert; [|done].
  reflexivity.
Qed.

(** Replacing a channel by a copy. *)
Lemma replace_chan_ok idx c c' d :
  list_ok cap d → used d !! idx = Some c → chan_same c c' → sc_magic c' = sc_magic c →
  let d' := set_chans (<[idx := c']> (cl_chans d)) d in
  list_ok cap d' ∧ Forall2 chan_same (used d) (used d') ∧
  ∀ id, chan_at id (used d') = if bool_decide (id = cid c) then Some c' else chan_at id (used d).
Proof.
  intros Hd Hc Hs Hm d'. pose proof (lookup_lt_Some _ _ _ Hc) as Hi. rewrite (used_length cap) in Hi by done.
  assert (used d' = <[idx := c']> (used d)) as Hu by (unfold used, d'; cbn; by rewrite take_insert_lt by lia).
  assert (Forall2 chan_same (used d) (used d')) as HF by (rewrite Hu; by eapply list_insert_same).
  assert (chan_ok c) as [Hok1 Hok2] by (eapply Forall_lookup_1; [apply Hd|done]).
  destruct Hs as (Hid & Hdir & Hk).
  assert (list_ok cap d') as Hd'.
  { destruct Hd as [? ? ? HFd HN ?]. split; try done.
    - unfold d'. cbn. by rewrite length_insert.
    - rewrite Hu. apply Forall_insert; [done|]. split; [congruence|by rewrite <- Hk].
    - by rewrite <- (cids_same _ _ HF). }
  split_and!; [done..|]. intros id.
  rewrite (chan_at_permute id (used d') (c' :: delete idx (used d))); [|rewrite Hu; by eapply insert_perm|apply Hd'].
  rewrite (chan_at_permute id (used d) (c :: delete idx (used d))); [|by apply delete_Permutation|apply Hd].
  simpl. rewrite <- Hid, (bool_decide_ext (cid c = id) (id = cid c)) by done. by case_bool_decide.
Qed.

Lemma write_back_ok old d :
  list_ok cap d →
  (∀ c, chan_at (ca_id old) (used d) = Some c → allows OpSeal c = true → sc_key_id c = ck_id (ca_key old) →
        dbg = false ∨ (sc_seq c < seal_key_seq (ck_key (ca_key old)))%Z) →
  ∃ d', write_back dbg old d = Ok d' ∧ list_ok cap d' ∧ cl_gen d' = cl_gen d ∧
    Forall2 chan_same (used d) (used d') ∧
    ∀ id, chan_at id (used d') =
          if bool_decide (id = ca_id old) then evict_to old <$> chan_at id (used d) else chan_at id (used d).
Proof.
  intros Hd Hseq. unfold write_back.
  pose proof (cl_find_found (ca_id old) (Some (ca_idx old)) OpSeal d Hd) as HF. unfold found in HF.
  assert (Forall2 chan_same (used d) (used d)) as Hrefl by reflexivity.
  destruct (chan_at (ca_id old) (used d)) as [c|] eqn:Hc.
  - destruct (allows OpSeal c) eqn:Ha.
    + destruct HF as (idx & -> & Hi). cbn [mbind outcome_bind]. case_bool_decide as Hk.
      * assert (chan_set_seq dbg (seal_key_seq (ck_key (ca_key old))) c =
                Ok (with_seq (seal_key_seq (ck_key (ca_key old))) c)) as ->.
        { unfold chan_set_seq, debug_assert. destruct (Hseq c eq_refl Ha Hk) as [->|Hlt]; [done|].
          rewrite (proj2 (Z.ltb_lt _ _) Hlt). by rewrite andb_false_r. }
        cbn [mbind outcome_bind]. eexists. split; [done|].
        apply chan_at_elem in Hc as Hc2. destruct Hc2 as [_ Hcid].
        destruct (replace_chan_ok idx c (with_seq (seal_key_seq (ck_key (ca_key old))) c) d Hd Hi) as (? & ? & Hat);
          [done..|]. split_and!; [done..|]. intros id. rewrite Hat, Hcid. case_bool_decide as E; [|done].
        subst id. rewrite Hc. simpl. unfold evict_to. by rewrite Ha, bool_decide_true.
      * exists d. split_and!; [done..|]. intros id. case_bool_decide as E; [|done]. subst id. rewrite Hc.
        simpl. unfold evict_to. by rewrite bool_decide_false, andb_false_r.
    + rewrite HF. exists d. split_and!; [done..|]. intros id. case_bool_decide as E; [|done].
      subst id. rewrite Hc. simpl. unfold evict_to. by rewrite Ha.
  - rewrite HF. exists d. split_and!; [done..|]. intros id. case_bool_decide as E; [|done].
    subst id. by rewrite Hc.
Qed.
End WriteBack.
End Specs.

(** Fast channels: the shared memory as a map of channels. The invariant of the
    memory between operations, what each operation of the writer does to the
    map, and the laws of [AfcState] for the reader. *)

(** * The invariant *)
Definition side_at (off : nat) (d : ChanListData) (m : SharedMem) : Prop :=
  bt_get off (sm_sides m) = Some (mkChanList CHANLIST_MAGIC d).

(** [dr] is the list of the readers, [dw] the other one: two copies of one list
    of channels, with the same generation. *)
Record shm_inv (st : ShmState) (m : SharedMem) (dr dw : ChanListData) : Prop := {
  si_magic : sm_magic m = SHM_MAGIC;
  si_version : sm_version m = SHM_VERSION;
  si_offs : sm_read_off m ≠ sm_write_off m;
  si_read_valid : valid_offset st (sm_read_off m) = true;
  si_write_valid : valid_offset st (sm_write_off m) = true;
  si_wf : bt_wf (sm_sides m);
  si_read : side_at (sm_read_off m) dr m;
  si_write : side_at (sm_write_off m) dw m;
  si_rok : list_ok (st_max_chans st) dr;
  si_wok : list_ok (st_max_chans st) dw;
  si_gen : cl_gen dr = cl_gen dw;
  si_same : Forall2 chan_same (used dr) (used dw)
}.

(** The map of channels that the readers see. *)
Definition shm_view (m : SharedMem) (id : ChannelId) : option (Directed RawKey RawKey) :=
  l ← bt_get (sm_read_off m) (sm_sides m); list_view (clist_data l) id.

Lemma shm_view_eq st m dr dw id : shm_inv st m dr dw → shm_view m id = list_view dr id.
Proof. intros Hi. unfold shm_view. pose proof (si_read _ _ _ _ Hi) as E. unfold side_at in E. by rewrite E. Qed.

Lemma side_at_put off off' d d' d0 m :
  bt_wf (sm_sides m) → side_at off' d0 m →
  side_at off d (shm_put_side off' d' m) ↔ if bool_decide (off = off') then d = d' else side_at off d m.
Proof.
  intros Hw H0. unfold side_at, shm_put_side in *. cbn. rewrite bt_get_alter. case_bool_decide as E.
  - subst off'. rewrite (proj2 (ord_eqb_true off off)) by done. rewrite H0. cbn. naive_solver.
  - by rewrite (proj2 (ord_eqb_false off off')) by done.
Qed.

Lemma put_side_wf off d m : bt_wf (sm_sides m) → bt_wf (sm_sides (shm_put_side off d m)).
Proof. intros Hw. by apply bt_wf_alter. Qed.

Lemma put_side_same off d m : bt_wf (sm_sides m) → side_at off d m → shm_put_side off d m = m.
Proof.
  intros Hw Hd. unfold shm_put_side, set_sides. destruct m as [? ? ? ? ? ? ? ? sides]; cbn in *. f_equal.
  apply bt_ext; [by apply bt_wf_alter|done|]. intros k. rewrite bt_get_alter.
  destruct (ord_eqb k off) eqn:E; [|done]. apply ord_eqb_true in E as ->.
  unfold side_at in Hd. cbn in Hd. by rewrite Hd.
Qed.

Section Memory.
Context (dbg : bool) (st : ShmState).

Lemma shm_side_ok off d m :
  sm_magic m = SHM_MAGIC → sm_version m = SHM_VERSION → side_at off d m → shm_side dbg off m = Ok d.
Proof.
  intros Hm Hv Hd. unfold shm_side, shm_check. rewrite debug_assert_ok by by rewrite Hm, Hv.
  cbn [mbind outcome_bind]. rewrite Hm, Z.eqb_refl. cbn [mbind outcome_bind].
  unfold side_at in Hd. rewrite Hd. unfold chanlist_check. cbn [clist_magic].
  by rewrite debug_assert_ok by done.
Qed.

Lemma with_side_run {A} off d m (k : M ChanListData ShmError A) r d' :
  sm_magic m = SHM_MAGIC → sm_version m = SHM_VERSION → side_at off d m → k d = (r, d') →
  with_side dbg off k m = (r, shm_put_side off d' m).
Proof. intros Hm Hv Hd Hk. unfold with_side. by rewrite (shm_side_ok off d), Hk. Qed.

Lemma load_read_ok m dr dw :
  shm_inv st m dr dw → load_read_list dbg st m = Ok (sm_read_off m, dr).
Proof.
  intros Hi. unfold load_read_list, shm_read_off. rewrite (si_read_valid _ _ _ _ Hi).
  cbn [mbind outcome_bind]. by rewrite (shm_side_ok _ dr) by apply Hi.
Qed.

Lemma load_write_ok m dr dw :
  shm_inv st m dr dw → load_write_list dbg st m = Ok (sm_write_off m, dw).
Proof.
  intros Hi. unfold load_write_list, shm_write_off. rewrite (si_write_valid _ _ _ _ Hi).
  cbn [mbind outcome_bind]. by rewrite (shm_side_ok _ dw) by apply Hi.
Qed.

(** ** The steps of an operation *)
(** The memory after the write side has been changed to [dw1]. *)
Definition step1 (m : SharedMem) (dw1 : ChanListData) : SharedMem := shm_put_side (sm_write_off m) dw1 m.
(** After the swap: the readers now use the changed side. *)
Definition step2 (m : SharedMem) (dw1 : ChanListData) : SharedMem :=
  set_read_off (sm_write_off m) (step1 m dw1).
(** After the other side has been changed to [dr1]. *)
Definition step3 (m : SharedMem) (dw1 dr1 : ChanListData) : SharedMem :=
  shm_put_side (sm_read_off m) dr1 (step2 m dw1).
(** At the end. *)
Definition step4 (m : SharedMem) (dw1 dr1 : ChanListData) : SharedMem :=
  set_write_off (sm_read_off m) (step3 m dw1 dr1).

Lemma step_sides m dr dw dw1 dr1 :
  shm_inv st m dr dw →
  (side_at (sm_read_off m) dr (step1 m dw1) ∧ side_at (sm_write_off m) dw1 (step1 m dw1)) ∧
  (side_at (sm_read_off m) dr1 (step3 m dw1 dr1) ∧ side_at (sm_write_off m) dw1 (step3 m dw1 dr1)).
Proof.
  intros Hi. pose proof (si_wf _ _ _ _ Hi) as Hw. pose proof (si_offs _ _ _ _ Hi) as Hne.
  assert (side_at (sm_read_off m) dr (step1 m dw1)) as H1.
  { apply (side_at_put _ _ _ _ dw); [done|apply Hi|]. rewrite bool_decide_false by done. apply Hi. }
  assert (side_at (sm_write_off m) dw1 (step1 m dw1)) as H2.
  { apply (side_at_put _ _ _ _ dw); [done|apply Hi|]. by rewrite bool_decide_true. }
  split; [done|]. split; apply (side_at_put _ _ _ _ dr); try done; try (by apply put_side_wf).
  - by rewrite bool_decide_true.
  - by rewrite bool_decide_false.
Qed.

Lemma step4_inv m dr dw dw1 dr1 :
  shm_inv st m dr dw → list_ok (st_max_chans st) dw1 → list_ok (st_max_chans st) dr1 →
  cl_gen dw1 = cl_gen dr1 → Forall2 chan_same (used dw1) (used dr1) →
  shm_inv st (step4 m dw1 dr1) dw1 dr1.
Proof.
  intros Hi Hw1 Hr1 Hg Hs. destruct (step_sides m dr dw dw1 dr1 Hi) as [_ [H1 H2]].
  destruct Hi. split; try done; cbn; try done.
  by do 2 apply bt_wf_alter.
Qed.

(** [swap_offsets] after the first step. *)
Lemma swap_ok m dr dw dw1 :
  shm_inv st m dr dw →
  swap_offsets st (sm_write_off m) (step1 m dw1) = (Ok (sm_read_off m), step2 m dw1).
Proof.
  intros Hi. unfold swap_offsets. cbn [sm_read_off step1 shm_put_side set_sides].
  by rewrite (si_read_valid _ _ _ _ Hi).
Qed.
End Memory.

(** Fast channels: the operations of the writer keep the memory well formed and
    do to the map of channels what their names say. *)

Section Write.
Context `{TupleHash}.
Context (dbg : bool) (st : ShmState).
Implicit Types (m : SharedMem) (dr dw : ChanListData).

Lemma lift_c_Ok {S A} (a : A) (s : S) : lift_c (Ok a) s = (Ok a, s).
Proof. done. Qed.

Lemma change_read_side_ok m dr dw dw1 dr1 k :
  shm_inv st m dr dw → k dr = (Ok tt, dr1) →
  change_read_side dbg st (sm_write_off m) k (step1 m dw1) = (Ok (sm_read_off m), step3 m dw1 dr1).
Proof.
  intros Hi Hk. unfold change_read_side, mbind, M_bind. cbn [get_state].
  rewrite (swap_ok st m dr dw dw1 Hi). cbn [put_state lift_c lift map_err].
  rewrite (with_side_run dbg (sm_read_off m) dr _ k (Ok tt) dr1); try done; try apply Hi.
  destruct (step_sides st m dr dw dw1 dr1 Hi) as [[H1 _] _]. done.
Qed.

(** ** Channels as they are initialized *)
Lemma chan_init_ok {R} `{Csprng R} id keys (rng : R) :
  let c := (chan_init id keys rng).1 in chan_ok c ∧ cid c = id ∧ chan_keys c = Some keys.
Proof.
  unfold chan_init. destruct keys as [s|o|s o]; cbn.
  - destruct (random_raw_key rng). cbn. split; [split; [done|by eexists]|]. by destruct id as [[] []].
  - destruct (random_raw_key rng). cbn. split; [split; [done|by eexists]|]. by destruct id as [[] []].
  - split; [split; [done|by eexists]|]. by destruct id as [[] []].
Qed.

Lemma chan_init_same {R} `{Csprng R} id keys (rng rng' : R) :
  chan_same (chan_init id keys rng).1 (chan_init id keys rng').1.
Proof.
  destruct (chan_init_ok id keys rng) as (_ & E1 & K1). destruct (chan_init_ok id keys rng') as (_ & E2 & K2).
  split_and!; [congruence| |congruence]. unfold chan_init.
  destruct keys; cbn; repeat case_match; done.
Qed.

(** ** [add] *)
(** The slot of a channel, on the write side and on the other one. *)
Lemma add_slot_ok id m dr dw :
  shm_inv st m dr dw →
  (add_slot dbg id dw = (Err ShmOutOfSpace, dw) ∧ list_view dr id = None ∧ cl_len dr = st_max_chans st) ∨
  ∃ idx grow, add_slot dbg id dw = (Ok (idx, grow), dw) ∧
    (is_Some (list_view dr id) ∨ cl_len dr < st_max_chans st) ∧
    (∀ c, cid c = id → slot_ok (st_max_chans st) idx grow c dw ∧ slot_ok (st_max_chans st) idx grow c dr).
Proof.
  intros Hi. pose proof (si_wok _ _ _ _ Hi) as Hw. pose proof (si_rok _ _ _ _ Hi) as Hr.
  pose proof (si_same _ _ _ _ Hi) as HF.
  assert (cl_len dr = cl_len dw) as Hlen.
  { rewrite <- (used_length _ _ Hr), <- (used_length _ _ Hw). by apply Forall2_length in HF. }
  assert (chan_at id (used dw) = None → chan_at id (used dr) = None) as Hnone
    by (rewrite !chan_at_None, (cids_same _ _ HF); done).
  unfold add_slot, mbind, M_bind. cbn [get_state lift_c lift].
  pose proof (find_id_found dbg _ id dw Hw) as Hfind. unfold found in Hfind.
  destruct (chan_at id (used dw)) as [c|] eqn:Hc.
  - destruct Hfind as (idx & -> & Hidx). right. exists idx, false. split; [done|].
    split.
    + left. unfold list_view. rewrite (chan_at_same id _ _ HF), Hc. cbn.
      eapply (Forall_lookup_1 chan_ok); [apply Hw|done].
    + intros c' Hc'. apply chan_at_elem in Hc as [_ Hc]. split; [exists c; split; congruence|].
      destruct (Forall2_lookup_r _ _ _ _ _ HF Hidx) as (c0 & Hc0 & Hid & _). exists c0. split; [done|congruence].
  - rewrite Hfind. cbn [map_err]. rewrite (lo_cap _ _ Hw). specialize (Hnone eq_refl).
    destruct (Nat.leb_spec (st_max_chans st) (cl_len dw)) as [Hge|Hlt].
    + left. split; [done|]. split; [unfold list_view; by rewrite Hnone|]. pose proof (lo_len _ _ Hw). lia.
    + right. exists (cl_len dw), true. split; [done|]. split; [right; lia|]. intros c' Hc'. unfold slot_ok.
      rewrite Hc', Hc, Hnone, Hlen. done.
Qed.

Lemma put_at_same idx grow c c' l k :
  chan_same c c' → Forall2 chan_same l k → Forall2 chan_same (put_at idx grow c l) (put_at idx grow c' k).
Proof.
  intros Hc HF. unfold put_at. destruct grow.
  - apply Forall2_app; [done|]. by constructor.
  - by apply Forall2_insert.
Qed.

(** The states of an [add] that finds a slot. *)
Lemma add_steps id (keys : Directed RawKey RawKey) c1 c2 m dr dw :
  shm_inv st m dr dw → chan_ok c1 → chan_ok c2 → cid c1 = id → cid c2 = id →
  chan_keys c1 = Some keys → chan_keys c2 = Some keys → chan_same c1 c2 →
  (add_write_side dbg st id c1 m = (Err ShmOutOfSpace, m) ∧ list_view dr id = None ∧
   cl_len dr = st_max_chans st) ∨
  ∃ idx grow dw1 dr1,
    add_write_side dbg st id c1 m = (Ok (sm_write_off m, idx, grow), step1 m dw1) ∧
    add_read_side dbg st (sm_write_off m) idx grow c2 (step1 m dw1) = (Ok (sm_read_off m), step3 m dw1 dr1) ∧
    list_ok (st_max_chans st) dw1 ∧ list_ok (st_max_chans st) dr1 ∧
    shm_inv st (step4 m dw1 dr1) dw1 dr1 ∧ cl_gen dw1 = gen_next (cl_gen dr) ∧
    (is_Some (list_view dr id) ∨ cl_len dr < st_max_chans st) ∧
    (∀ id', list_view dw1 id' = if bool_decide (id' = id) then Some keys else list_view dr id') ∧
    (∀ id', chan_at id' (used dw1) = if bool_decide (id' = id) then Some c1 else chan_at id' (used dw)) ∧
    ∀ id', chan_at id' (used dr1) = if bool_decide (id' = id) then Some c2 else chan_at id' (used dr).
Proof.
  intros Hi Hok1 Hok2 Hid1 Hid2 Hk1 Hk2 Hs12.
  pose proof (si_wok _ _ _ _ Hi) as Hw. pose proof (si_rok _ _ _ _ Hi) as Hr.
  unfold add_write_side, mbind, M_bind. cbn [get_state lift_c lift]. unfold shm_write_off.
  rewrite (si_write_valid _ _ _ _ Hi). cbn [map_err].
  destruct (add_slot_ok id m dr dw Hi) as [(Hslot & Hnone & Hfull)|(idx & grow & Hslot & Hroom & Hput)].
  - left. split; [|done]. erewrite (with_side_run dbg (sm_write_off m) dw m _ (Err ShmOutOfSpace) dw);
      [|apply Hi..|by rewrite Hslot]. by rewrite put_side_same by apply Hi.
  - right. destruct (Hput c1 Hid1) as [Hs1 _]. destruct (Hput c2 Hid2) as [_ Hs2].
    destruct (put_chan_ok dbg _ idx grow c1 dw Hw Hok1 Hs1) as (dw1 & Hp1 & Hw1 & Hg1 & Hu1).
    destruct (put_chan_ok dbg _ idx grow c2 dr Hr Hok2 Hs2) as (dr1 & Hp2 & Hr1 & Hg2 & Hu2).
    exists idx, grow, dw1, dr1. split_and!; try done.
    + erewrite (with_side_run dbg (sm_write_off m) dw m _ (Ok (idx, grow)) dw1);
        [done|apply Hi..|]. by rewrite Hslot, Hp1.
    + unfold add_read_side. by apply (change_read_side_ok m dr dw).
    + apply (step4_inv st m dr dw); try done; [by rewrite Hg1, Hg2, (si_gen _ _ _ _ Hi)|].
      rewrite Hu1, Hu2. apply put_at_same; [done|]. symmetry. apply Hi.
    + by rewrite Hg1, (si_gen _ _ _ _ Hi).
    + intros id'. rewrite (list_view_put _ idx grow c1 dw dw1) by done. rewrite Hid1, Hk1.
      case_bool_decide; [done|]. unfold list_view. symmetry. by apply chan_at_same, Hi.
    + intros id'. by rewrite (chan_at_put _ idx grow c1 dw dw1), Hid1 by done.
    + intros id'. by rewrite (chan_at_put _ idx grow c2 dr dr1), Hid2 by done.
Qed.

(** What an operation does to the map: the new memory is well formed, its
    generation is the next one, and the channels are those of [v]. *)
Definition updates (dr : ChanListData) (m' : SharedMem) (v : ChannelId → option (Directed RawKey RawKey)) : Prop :=
  ∃ dr' dw', shm_inv st m' dr' dw' ∧ cl_gen dr' = gen_next (cl_gen dr) ∧ ∀ id, list_view dr' id = v id.

Lemma ws_add_ok {R} `{Csprng R} id keys m dr dw (rng : R) :
  shm_inv st m dr dw →
  ∃ r m' rng', ws_add dbg st id keys (m, rng) = (r, (m', rng')) ∧
  ((r = Ok tt ∧ (is_Some (list_view dr id) ∨ cl_len dr < st_max_chans st) ∧
    updates dr m' (λ id', if bool_decide (id' = id) then Some keys else list_view dr id')) ∨
   (r = Err ShmOutOfSpace ∧ m' = m ∧ list_view dr id = None ∧ cl_len dr = st_max_chans st)).
Proof.
  intros Hi. unfold ws_add.
  destruct (chan_init id keys rng) as [c1 rng1] eqn:E1. destruct (chan_init id keys rng1) as [c2 rng2] eqn:E2.
  destruct (chan_init_ok id keys rng) as (? & ? & ?). destruct (chan_init_ok id keys rng1) as (? & ? & ?).
  pose proof (chan_init_same id keys rng rng1). rewrite E1, E2 in *. cbn [fst] in *.
  destruct (add_steps id keys c1 c2 m dr dw) as [(-> & ? & ?)|(idx & grow & dw1 & dr1 & -> & Hrd & ? & ? & ? & ? & ? & ? & _)];
    try done.
  - do 3 eexists. split; [done|]. by right.
  - rewrite Hrd. cbn. do 3 eexists. split; [done|]. left. split; [done|]. split; [done|]. by exists dw1, dr1.
Qed.

(** The channels after an [add] that succeeds: the sides have changed places, and
    each has the new channel, unused, and its own other channels. *)
Lemma ws_add_chans {R} `{Csprng R} id keys m dr dw (rng : R) m' rng' :
  shm_inv st m dr dw → ws_add dbg st id keys (m, rng) = (Ok tt, (m', rng')) →
  ∃ dr' dw' c1 c2, shm_inv st m' dr' dw' ∧ cl_gen dr' = gen_next (cl_gen dr) ∧
    (∀ id', chan_at id' (used dr') = if bool_decide (id' = id) then Some c1 else chan_at id' (used dw)) ∧
    (∀ id', chan_at id' (used dw') = if bool_decide (id' = id) then Some c2 else chan_at id' (used dr)) ∧
    ∀ k, dir_seal keys = Some k → sc_seal_key c1 = k ∧ sc_seq c1 = 0%Z ∧ sc_seal_key c2 = k ∧ sc_seq c2 = 0%Z.
Proof.
  intros Hi. unfold ws_add.
  destruct (chan_init id keys rng) as [c1 rng1] eqn:E1. destruct (chan_init id keys rng1) as [c2 rng2] eqn:E2.
  destruct (chan_init_ok id keys rng) as (? & ? & ?). destruct (chan_init_ok id keys rng1) as (? & ? & ?).
  pose proof (chan_init_same id keys rng rng1). rewrite E1, E2 in *. cbn [fst] in *.
  destruct (add_steps id keys c1 c2 m dr dw) as [(-> & ? & ?)|(idx & grow & dw1 & dr1 & -> & Hrd & _ & _ & ? & ? & _ & _ & ? & ?)];
    try done.
  rewrite Hrd. cbn. intros [= <- <-]. exists dw1, dr1, c1, c2. split_and!; [done..|].
  intros k Hk. unfold chan_init in E1, E2. rewrite Hk in E1, E2.
  destruct (match dir_open keys with Some _ => _ | None => _ end) in E1; destruct (match dir_open keys with Some _ => _ | None => _ end) in E2.
  by injection E1 as <- <-; injection E2 as <- <-.
Qed.

(** ** [remove] *)
Lemma remove_steps id m dr dw :
  shm_inv st m dr dw →
  (list_view dr id = None ∧ remove_write_side dbg st id m = (Ok None, m)) ∨
  (is_Some (list_view dr id) ∧ ∃ idx dw1 dr1,
    remove_write_side dbg st id m = (Ok (Some (sm_write_off m, idx)), step1 m dw1) ∧
    remove_read_side dbg st (sm_write_off m) idx (step1 m dw1) = (Ok (sm_read_off m), step3 m dw1 dr1) ∧
    shm_inv st (step4 m dw1 dr1) dw1 dr1 ∧ cl_gen dw1 = gen_next (cl_gen dr) ∧
    ∀ id', list_view dw1 id' = if bool_decide (id' = id) then None else list_view dr id').
Proof.
  intros Hi. pose proof (si_wok _ _ _ _ Hi) as Hw. pose proof (si_rok _ _ _ _ Hi) as Hr.
  pose proof (si_same _ _ _ _ Hi) as HF.
  assert (∀ id', list_view dw id' = list_view dr id') as Hview
    by (intros; symmetry; by apply chan_at_same).
  rewrite <- Hview. unfold remove_write_side, mbind, M_bind. cbn [get_state lift_c lift].
  unfold shm_write_off. rewrite (si_write_valid _ _ _ _ Hi). cbn [map_err].
  set (k := λ s : ChanListData, _).
  assert ((chan_at id (used dw) = None ∧ k dw = (Ok None, dw)) ∨
    ∃ idx c, chan_at id (used dw) = Some c ∧ used dw !! idx = Some c ∧
      k dw = match remove_at dbg idx dw with
             | (Ok _, s) => (Ok (Some (sm_write_off m, idx)), s)
             | (Err e, s) => (Err e, s)
             | (Panic w, s) => (Panic w, s) end) as Hk.
  { unfold k. destruct (Nat.eqb_spec (cl_len dw) 0) as [E|E].
    { left. unfold used. rewrite E. done. }
    pose proof (find_id_found dbg _ id dw Hw) as Hfind. unfold found in Hfind.
    destruct (chan_at id (used dw)) as [c|].
    - destruct Hfind as (idx & -> & Hidx). right. by exists idx, c.
    - rewrite Hfind. by left. }
  destruct Hk as [(Hnone & Hk)|(idx & c & Hc & Hidx & Hk)].
  - left. erewrite (with_side_run dbg (sm_write_off m) dw m k); [|apply Hi..|exact Hk].
    rewrite put_side_same by apply Hi. split; [|done]. unfold list_view. by rewrite Hnone.
  - right. pose proof (lookup_lt_Some _ _ _ Hidx) as Hlt. rewrite (used_length _ _ Hw) in Hlt.
    destruct (remove_at_ok dbg _ idx dw Hw Hlt) as (dw1 & Hr1 & Hok1 & Hg1 & Hu1). rewrite Hr1 in Hk.
    destruct (Forall2_lookup_r _ _ _ _ _ HF Hidx) as (c' & Hidx' & Hcc).
    pose proof (lookup_lt_Some _ _ _ Hidx') as Hlt'. rewrite (used_length _ _ Hr) in Hlt'.
    destruct (remove_at_ok dbg _ idx dr Hr Hlt') as (dr1 & Hr2 & Hok2 & Hg2 & Hu2).
    erewrite (with_side_run dbg (sm_write_off m) dw m k); [|apply Hi..|exact Hk].
    apply chan_at_elem in Hc as Hc'. destruct Hc' as [_ Hcid]. split.
    { unfold list_view. rewrite Hc. cbn. eapply (Forall_lookup_1 chan_ok); [apply Hw|done]. }
    exists idx, dw1, dr1. split_and!; [done| | |by rewrite Hg1, (si_gen _ _ _ _ Hi)|].
    + unfold remove_read_side. by apply (change_read_side_ok m dr dw dw1 dr1).
    + apply (step4_inv st m dr dw); try done; [by rewrite Hg1, Hg2, (si_gen _ _ _ _ Hi)|].
      rewrite Hu1, Hu2. apply swap_rm_Forall2; [rewrite (used_length _ _ Hw); done|]. by symmetry.
    + intros id'. rewrite (list_view_swap_rm _ idx c dw dw1) by done. rewrite Hcid.
      case_bool_decide; [done|]. apply Hview.
Qed.

Lemma ws_remove_ok id m dr dw :
  shm_inv st m dr dw →
  ∃ m', ws_remove dbg st id m = (Ok tt, m') ∧
  (if bool_decide (is_Some (list_view dr id))
   then updates dr m' (λ id', if bool_decide (id' = id) then None else list_view dr id')
   else m' = m).
Proof.
  intros Hi. unfold ws_remove.
  destruct (remove_steps id m dr dw Hi) as [[Hno E]|(Hex & idx & dw1 & dr1 & E1 & E2 & ? & ? & ?)].
  - rewrite (M_bind_Ok _ _ _ _ _ E). eexists. split; [done|].
    rewrite Hno, bool_decide_false; [done|]. by intros [? ?].
  - rewrite (M_bind_Ok _ _ _ _ _ E1), (M_bind_Ok _ _ _ _ _ E2). eexists. split; [done|].
    rewrite bool_decide_true by done. by exists dw1, dr1.
Qed.

(** ** [remove_all] *)
Lemma clear_steps m dr dw :
  shm_inv st m dr dw →
  clear_write_side dbg st m = (Ok (sm_write_off m), step1 m (cl_clear dw)) ∧
  clear_read_side dbg st (sm_write_off m) (step1 m (cl_clear dw))
    = (Ok (sm_read_off m), step3 m (cl_clear dw) (cl_clear dr)) ∧
  shm_inv st (step4 m (cl_clear dw) (cl_clear dr)) (cl_clear dw) (cl_clear dr) ∧
  cl_gen (cl_clear dw) = gen_next (cl_gen dr) ∧ ∀ id, list_view (cl_clear dw) id = None.
Proof.
  intros Hi. pose proof (si_wok _ _ _ _ Hi) as Hw. pose proof (si_rok _ _ _ _ Hi) as Hr.
  destruct (cl_clear_ok _ _ Hw) as [Hw1 Hu1]. destruct (cl_clear_ok _ _ Hr) as [Hr1 Hu2].
  assert (cl_gen (cl_clear dw) = gen_next (cl_gen dr)) as Hg by (cbn; by rewrite (si_gen _ _ _ _ Hi)).
  split_and!; [| | |done|].
  - unfold clear_write_side, mbind, M_bind. cbn [get_state lift_c lift].
    unfold shm_write_off. rewrite (si_write_valid _ _ _ _ Hi). cbn [map_err].
    by rewrite (with_side_run dbg (sm_write_off m) dw m _ (Ok tt) (cl_clear dw)); [|apply Hi..|].
  - unfold clear_read_side. by apply (change_read_side_ok m dr dw).
  - apply (step4_inv st m dr dw); try done.
  - intros id. unfold list_view. by rewrite Hu1.
Qed.

Lemma ws_remove_all_ok m dr dw :
  shm_inv st m dr dw →
  ∃ m', ws_remove_all dbg st m = (Ok tt, m') ∧ updates dr m' (λ _, None).
Proof.
  intros Hi. destruct (clear_steps m dr dw Hi) as (E1 & E2 & ? & ? & ?).
  unfold ws_remove_all. rewrite (M_bind_Ok _ _ _ _ _ E1), (M_bind_Ok _ _ _ _ _ E2).
  eexists. split; [done|]. by exists (cl_clear dw), (cl_clear dr).
Qed.

(** ** [remove_if] *)
Lemma side_remove_if_ok {C} (f : ChannelId → C → bool * C) p off guard m d (c : C) :
  sm_magic m = SHM_MAGIC → sm_version m = SHM_VERSION → side_at off d m → guard d = Ok true →
  (∀ id x, (f id x).1 = p id) → list_ok (st_max_chans st) d →
  ∃ d' c', side_remove_if dbg f off guard (m, c) = (Ok true, (shm_put_side off d' m, c')) ∧
    list_ok (st_max_chans st) d' ∧ used d' = rm_if (S (cl_len d)) p 0 (used d) ∧
    cl_gen d' = if removes p (used d) then gen_next (cl_gen d) else cl_gen d.
Proof.
  intros Hm Hv Hd Hgd Hf Hok. unfold side_remove_if. rewrite (shm_side_ok dbg off d), Hgd by done.
  destruct (cl_remove_if_ok dbg _ f p d c Hf Hok) as (d' & c' & -> & ? & ? & ?). by exists d', c'.
Qed.

(** For a predicate whose answers depend on the channel only. *)
Lemma ws_remove_if_ok {C} (f : ChannelId → C → bool * C) p m dr dw (c : C) :
  shm_inv st m dr dw → (∀ id x, (f id x).1 = p id) →
  ∃ m' c' dr' dw', ws_remove_if dbg st f (m, c) = (Ok tt, (m', c')) ∧ shm_inv st m' dr' dw' ∧
    (∀ id, list_view dr' id = if p id then None else list_view dr id) ∧
    cl_gen dr' = (if removes p (used dr) then gen_next (cl_gen dr) else cl_gen dr) ∧
    ((m' = m ∧ side_remove_if dbg f (sm_write_off m) (λ d, Ok (negb (cl_len d =? 0))) (m, c)
               = (Ok false, (m, c))) ∨ (m' = step4 m dr' dw' ∧ ∃ c1,
      side_remove_if dbg f (sm_write_off m) (λ d, Ok (negb (cl_len d =? 0))) (m, c)
        = (Ok true, (step1 m dr', c1)))).
Proof.
  intros Hi Hf. pose proof (si_wok _ _ _ _ Hi) as Hw. pose proof (si_rok _ _ _ _ Hi) as Hr.
  pose proof (si_same _ _ _ _ Hi) as HF.
  assert (cl_len dr = cl_len dw) as Hlen.
  { rewrite <- (used_length _ _ Hr), <- (used_length _ _ Hw). by apply Forall2_length in HF. }
  unfold ws_remove_if, shm_write_off. rewrite (si_write_valid _ _ _ _ Hi).
  destruct (Nat.eqb_spec (cl_len dw) 0) as [E|E].
  - assert (side_remove_if dbg f (sm_write_off m) (λ d, Ok (negb (cl_len d =? 0))) (m, c) = (Ok false, (m, c)))
      as Hstop.
    { unfold side_remove_if. rewrite (shm_side_ok dbg _ dw) by apply Hi. by rewrite (proj2 (Nat.eqb_eq _ _) E). }
    rewrite Hstop. exists m, c, dr, dw. assert (used dr = []) as Hu by (unfold used; rewrite Hlen, E; done).
    split_and!; [done..| |by rewrite Hu|by left]. intros id. unfold list_view. rewrite Hu. by destruct (p id).
  - destruct (side_remove_if_ok f p (sm_write_off m) (λ d, Ok (negb (cl_len d =? 0))) m dw c)
      as (dw1 & c1 & E1 & Hw1 & Hu1 & Hg1); try done; try apply Hi.
    { by rewrite (proj2 (Nat.eqb_neq _ _) E). }
    fold (step1 m dw1) in E1. rewrite E1. rewrite (swap_ok st m dr dw dw1 Hi).
    destruct (side_remove_if_ok f p (sm_read_off m)
      (λ d, debug_assert dbg (0 <? cl_len d) "assertion failed: side.len > 0" ≫= λ _, Ok true)
      (step2 m dw1) dr c1) as (dr1 & c2 & -> & Hr1 & Hu2 & Hg2); try done; try apply Hi.
    { destruct (step_sides st m dr dw dw1 dw1 Hi) as [[? _] _]. done. }
    { rewrite debug_assert_ok; [done|]. apply Nat.ltb_lt. lia. }
    fold (step3 m dw1 dr1). fold (step4 m dw1 dr1). exists (step4 m dw1 dr1), c2, dw1, dr1.
    rewrite (removes_same p _ _ HF).
    split_and!; [done| | |by rewrite Hg1, (si_gen _ _ _ _ Hi)|right; split; [done|by exists c1]].
    + apply (step4_inv st m dr dw); try done.
      * by rewrite Hg1, Hg2, (si_gen _ _ _ _ Hi), (removes_same p _ _ HF).
      * rewrite Hu1, Hu2, Hlen. apply rm_if_Forall2. by symmetry.
    + intros id. rewrite (list_view_rm_if _ p (S (cl_len dw)) dw dw1) by (done || lia).
      destruct (p id); [done|]. symmetry. by apply chan_at_same.
Qed.

(** ** [exists] *)
Lemma cl_exists_ok id d :
  list_ok (st_max_chans st) d → cl_exists dbg id None OpAny d = Ok (bool_decide (is_Some (list_view d id))).
Proof.
  intros Hd. unfold cl_exists, cl_check. pose proof (lo_cap _ _ Hd). pose proof (lo_len _ _ Hd).
  rewrite debug_assert_ok by (apply Nat.leb_le; lia). cbn [mbind outcome_bind].
  pose proof (cl_find_found dbg _ id None OpAny d Hd) as HF. unfold found in HF. unfold list_view.
  destruct (chan_at id (used d)) as [c|] eqn:Hc.
  - apply chan_at_elem in Hc as [Hin _]. apply list_elem_of_lookup_1 in Hin as [i Hin].
    destruct (Forall_lookup_1 chan_ok _ _ _ (lo_chans _ _ Hd) Hin) as [_ [k Hk]]. unfold allows in HF. rewrite Hk in HF.
    destruct HF as (idx & -> & _). cbn. rewrite Hk. by rewrite bool_decide_true by eauto.
  - rewrite HF. done.
Qed.
End Write.

(** Fast channels: the reader of the shared memory satisfies the laws of
    [AfcState], in spite of its caches: a cached key is used only as long as its
    channel is in the map with that key. *)

(** The raw keys of a channel in a list. *)
Definition view_seal (d : ChanListData) (id : ChannelId) : option RawKey := list_view d id ≫= dir_seal.
Definition view_open (d : ChanListData) (id : ChannelId) : option RawKey := list_view d id ≫= dir_open.

Lemma list_view_same d d' id : Forall2 chan_same (used d) (used d') → list_view d' id = list_view d id.
Proof. intros HF. symmetry. by apply chan_at_same. Qed.

Section Find.
Context (dbg : bool) (cap : nat).

(** A search for encryption finds the channel with its key, if there is one. *)
Lemma find_seal_ok id hint d :
  list_ok cap d →
  match view_seal d id with
  | None => cl_find dbg id hint OpSeal d = Ok None
  | Some k => ∃ idx c, cl_find dbg id hint OpSeal d = Ok (Some (idx, c)) ∧
      chan_at id (used d) = Some c ∧ allows OpSeal c = true ∧ sc_seal_key c = k
  end.
Proof.
  intros Hd. pose proof (cl_find_found dbg _ id hint OpSeal d Hd) as HF. unfold found in HF.
  unfold view_seal, list_view. destruct (chan_at id (used d)) as [c|] eqn:Hc; cbn; [|done].
  assert (match chan_keys c ≫= dir_seal with
          | Some k => allows OpSeal c = true ∧ sc_seal_key c = k
          | None => allows OpSeal c = false end) as Hk.
  { unfold allows, chan_keys. by destruct (direction_try_from_u32 _) as [[]|]. }
  destruct (chan_keys c ≫= dir_seal) as [k|]; [|by rewrite Hk in HF].
  destruct Hk as [Ha Hk]. rewrite Ha in HF. destruct HF as (idx & -> & _). by exists idx, c.
Qed.

Lemma find_open_ok id hint d :
  list_ok cap d →
  match view_open d id with
  | None => cl_find dbg id hint OpOpen d = Ok None
  | Some k => ∃ idx c, cl_find dbg id hint OpOpen d = Ok (Some (idx, c)) ∧ sc_open_key c = k
  end.
Proof.
  intros Hd. pose proof (cl_find_found dbg _ id hint OpOpen d Hd) as HF. unfold found in HF.
  unfold view_open, list_view. destruct (chan_at id (used d)) as [c|] eqn:Hc; cbn; [|done].
  assert (match chan_keys c ≫= dir_open with
          | Some k => allows OpOpen c = true ∧ sc_open_key c = k
          | None => allows OpOpen c = false end) as Hk.
  { unfold allows, chan_keys. by destruct (direction_try_from_u32 _) as [[]|]. }
  destruct (chan_keys c ≫= dir_open) as [k|]; [|by rewrite Hk in HF].
  destruct Hk as [Ha Hk]. rewrite Ha in HF. destruct HF as (idx & -> & _). by exists idx, c.
Qed.
End Find.

Section Read.
Context `{HpkeLaws}.
Context (dbg : bool) (st : ShmState).
Implicit Types (m : SharedMem) (dr dw : ChanListData) (rs : ReadState).

(** A cached key is from a generation up to the current one; if it is from the
    current one it is the key of its channel. *)
Record cache_ok dr rs : Prop := {
  co_seal c : rs_last_seal rs = Some c → (ca_gen c ≤ cl_gen dr)%Z ∧
    (ca_gen c = cl_gen dr →
     raw_pair <$> view_seal dr (ca_id c) = Some (seal_key_of (sk_ctx (ck_key (ca_key c)))));
  co_open c : rs_last_open rs = Some c → (ca_gen c ≤ cl_gen dr)%Z ∧
    (ca_gen c = cl_gen dr →
     raw_pair <$> view_open dr (ca_id c) = Some (open_key_of (ok_ctx (ca_key c))))
}.

Lemma cache_ok_new dr : cache_ok dr read_state_new.
Proof. by split. Qed.

Lemma cache_ok_same dr dr' rs :
  cl_gen dr' = cl_gen dr → (∀ id, list_view dr' id = list_view dr id) → cache_ok dr rs → cache_ok dr' rs.
Proof.
  intros Hg Hv [Hs Ho]. split; intros c Hc; rewrite Hg; unfold view_seal, view_open; rewrite Hv;
    [by apply Hs|by apply Ho].
Qed.

(** After a change the old keys are recognized as old, until the generation
    wraps around. *)
Lemma cache_ok_next dr dr' rs :
  list_ok (st_max_chans st) dr → (cl_gen dr < 2 ^ 32 - 1)%Z →
  cl_gen dr' = gen_next (cl_gen dr) → cache_ok dr rs → cache_ok dr' rs.
Proof.
  intros Hd Hg Hn [Hs Ho]. pose proof (lo_gen _ _ Hd). unfold gen_next in Hn. rewrite Z.mod_small in Hn by lia.
  split; intros c Hc; [destruct (Hs c Hc)|destruct (Ho c Hc)]; split; lia.
Qed.

Lemma reader_put_inv m dr dw d' :
  shm_inv st m dr dw → list_ok (st_max_chans st) d' → cl_gen d' = cl_gen dr →
  Forall2 chan_same (used dr) (used d') → shm_inv st (shm_put_side (sm_read_off m) d' m) d' dw.
Proof.
  intros Hi Hd Hg HF. pose proof (si_wf _ _ _ _ Hi) as Hw. pose proof (si_read _ _ _ _ Hi) as Hr.
  pose proof (si_offs _ _ _ _ Hi) as Hne. split; try apply Hi; cbn [sm_read_off sm_write_off shm_put_side set_sides].
  - by apply put_side_wf.
  - apply (side_at_put _ _ _ _ dr); [done..|]. by rewrite bool_decide_true.
  - apply (side_at_put _ _ _ _ dr); [done..|]. rewrite bool_decide_false by done. apply Hi.
  - done.
  - by rewrite Hg, (si_gen _ _ _ _ Hi).
  - transitivity (used dr); [by symmetry|apply Hi].
Qed.

(** ** [seal] *)
(** The state after a call of the reader: the same channels, well formed. *)
Definition reads (m m' : SharedMem) dr dw rs' : Prop :=
  ∃ dr', shm_inv st m' dr' dw ∧ cl_gen dr' = cl_gen dr ∧ (∀ id, list_view dr' id = list_view dr id) ∧
         cache_ok dr' rs' ∧ sm_read_off m' = sm_read_off m.

(** What a write-back must not trip over: the assertion that the sequence
    number grows, in builds that have it. *)
Definition may_write_back dr rs : Prop := ∀ old c,
  rs_last_seal rs = Some old → chan_at (ca_id old) (used dr) = Some c → allows OpSeal c = true →
  sc_key_id c = ck_id (ca_key old) → dbg = false ∨ (sc_seq c < seal_key_seq (ck_key (ca_key old)))%Z.

Lemma seal_from_raw_ok k q key :
  seal_key_from_raw k q = Ok key → seal_key_of (sk_ctx key) = raw_pair k ∧ seal_key_seq key = q.
Proof.
  unfold seal_key_from_raw. destruct (seal_ctx_new _ _ _) as [c|e|w] eqn:E; [|done..].
  intros [= <-]. by apply seal_ctx_new_law in E.
Qed.

Lemma seal_uncached_ok {X T} id hint (f : M (SealKey * X) AfcError T) x m dr dw rs :
  shm_inv st m dr dw → cache_ok dr rs → may_write_back dr rs → good_closure f x →
  ∃ r m' rs' x', seal_uncached dbg id hint (sm_read_off m) dr f ((m, rs), x) = (r, ((m', rs'), x')) ∧
    reads m m' dr dw rs' ∧
    match view_seal dr id with
    | None => r = Err (AeNotFound id) ∧ x' = x
    | Some k => (∃ w q, seal_key_from_raw k q = Err w ∧ r = Err (AeCrypto (CeImport w)) ∧ x' = x) ∨
        ∃ key, seal_key_of (sk_ctx key) = raw_pair k ∧
               r = closure_result (f (key, x)).1 ∧ x' = (f (key, x)).2.2
    end.
Proof.
  intros Hi Hc Hwb Hf. pose proof (si_rok _ _ _ _ Hi) as Hr.
  assert (reads m m dr dw rs) as Hsame by (exists dr; by split_and!).
  unfold seal_uncached. pose proof (find_seal_ok dbg _ id hint dr Hr) as HF.
  destruct (view_seal dr id) as [k|] eqn:Hk; [|by rewrite HF; eexists _, _, _, _].
  destruct HF as (idx & c & -> & Hat & Ha & Hkey).
  destruct (seal_key_from_raw (sc_seal_key c) (sc_seq c)) as [key|e|w] eqn:Hraw.
  2:{ eexists _, _, _, _. split; [done|]. split; [done|]. left. rewrite Hkey in Hraw. eauto. }
  2:{ exfalso. unfold seal_key_from_raw in Hraw. pose proof (seal_ctx_new_total (rk_key (sc_seal_key c))
        (rk_base_nonce (sc_seal_key c)) (sc_seq c)) as Ht. by destruct (seal_ctx_new _ _ _). }
  apply seal_from_raw_ok in Hraw as [Hko Hkq]. rewrite Hkey in Hko.
  destruct (Hf key) as [Hk' Hres]. destruct (f (key, x)) as [res [key' x1]] eqn:Hrun. cbn in Hk', Hres.
  destruct res as [t|e|w]; [| |done].
  2:{ eexists _, _, _, _. split; [done|]. split; [done|]. right. exists key. by rewrite Hrun. }
  set (new := mkCache id (mkCachedSealKey key' (sc_key_id c)) (cl_gen dr) idx).
  assert (cache_ok dr (mkReadState (Some new) (rs_last_open rs))) as Hnew.
  { split; [|apply Hc]. intros c0 [= <-]. cbn. split; [done|]. intros _. by rewrite Hk, Hk', Hko. }
  assert (∃ key0, seal_key_of (sk_ctx key0) = raw_pair k ∧
    Ok (inr t) = closure_result (f (key0, x)).1 ∧ x1 = (f (key0, x)).2.2) as Hrunk
    by (exists key; by rewrite Hrun).
  destruct (rs_last_seal rs) as [old|] eqn:Hold.
  - destruct (write_back_ok dbg _ old dr Hr) as (d' & -> & Hd' & Hg' & HF' & _).
    { intros c0. by apply Hwb. }
    eexists _, _, _, _. split; [done|]. split; [|by right].
    assert (∀ id', list_view d' id' = list_view dr id') by (intros; by apply list_view_same).
    exists d'. split_and!; [by apply (reader_put_inv m dr)|done..| |done]. by apply (cache_ok_same dr).
  - eexists _, _, _, _. split; [done|]. split; [|by right]. exists dr. by split_and!.
Qed.

Lemma rs_seal_ok {X T} id (f : M (SealKey * X) AfcError T) x m dr dw rs :
  shm_inv st m dr dw → cache_ok dr rs → may_write_back dr rs → good_closure f x →
  ∃ r m' rs' x', rs_seal dbg st id f ((m, rs), x) = (r, ((m', rs'), x')) ∧ reads m m' dr dw rs' ∧
    match view_seal dr id with
    | None => r = Err (AeNotFound id) ∧ x' = x
    | Some k => (∃ w q, seal_key_from_raw k q = Err w ∧ r = Err (AeCrypto (CeImport w)) ∧ x' = x) ∨
        ∃ key, seal_key_of (sk_ctx key) = raw_pair k ∧
               r = closure_result (f (key, x)).1 ∧ x' = (f (key, x)).2.2
    end.
Proof.
  intros Hi Hc Hwb Hf. unfold rs_seal. rewrite (load_read_ok dbg st m dr dw Hi).
  unfold cached_for. destruct (rs_last_seal rs) as [c|] eqn:Hl; [|by apply seal_uncached_ok].
  case_bool_decide as Hid; [|by apply seal_uncached_ok].
  destruct (Z.eqb_spec (ca_gen c) (cl_gen dr)) as [Hg|Hg]; [|by apply seal_uncached_ok].
  destruct (co_seal _ _ Hc c Hl) as [Hle Hkey]. specialize (Hkey Hg). rewrite Hid in Hkey.
  destruct (view_seal dr id) as [k|] eqn:Hk; [|done]. cbn in Hkey. injection Hkey as Hkey.
  destruct (Hf (ck_key (ca_key c))) as [Hk' Hres].
  destruct (f (ck_key (ca_key c), x)) as [res [key' x1]] eqn:Hrun. cbn in Hk'.
  eexists _, _, _, _. split; [done|]. split.
  - exists dr. split_and!; [done..| |done]. split; [|apply Hc]. intros c0 [= <-]. cbn. split; [done|].
    intros _. by rewrite Hid, Hk, Hk', <- Hkey.
  - right. exists (ck_key (ca_key c)). by rewrite Hrun.
Qed.

(** ** [open] *)
Lemma open_from_raw_ok k key : open_key_from_raw k = Ok key → open_key_of (ok_ctx key) = raw_pair k.
Proof.
  unfold open_key_from_raw. destruct (open_ctx_new _ _ _) as [c|e|w] eqn:E; [|done..].
  intros [= <-]. by apply open_ctx_new_law in E.
Qed.

Definition imports (k : list u8 * list u8) : bool := is_ok (open_ctx_new k.1 k.2 0).

Definition open_post {X T} id (f : OpenKey → M X AfcError T) x dr r x' : Prop :=
  match view_open dr id with
  | None => r = Err (AeNotFound id) ∧ x' = x
  | Some k => (∃ w, imports (raw_pair k) = false ∧ r = Err (AeCrypto (CeImport w)) ∧ x' = x) ∨
      ∃ key, open_key_of (ok_ctx key) = raw_pair k ∧ r = closure_result (f key x).1 ∧ x' = (f key x).2
  end.

Lemma open_uncached_ok {X T} id hint (f : OpenKey → M X AfcError T) x m dr dw rs :
  shm_inv st m dr dw → cache_ok dr rs → (∀ k, is_panic (f k x).1 = false) →
  ∃ r rs' x', open_uncached dbg id hint dr f ((m, rs), x) = (r, ((m, rs'), x')) ∧
    cache_ok dr rs' ∧ rs_last_seal rs' = rs_last_seal rs ∧ open_post id f x dr r x'.
Proof.
  intros Hi Hc Hf. pose proof (si_rok _ _ _ _ Hi) as Hr. unfold open_uncached, open_post.
  pose proof (find_open_ok dbg _ id hint dr Hr) as HF.
  destruct (view_open dr id) as [k|] eqn:Hk; [|by rewrite HF; eexists _, _, _].
  destruct HF as (idx & c & -> & Hkey). rewrite Hkey.
  destruct (open_key_from_raw k) as [key|e|w] eqn:Hraw.
  - apply open_from_raw_ok in Hraw as Hko. specialize (Hf key).
    destruct (f key x) as [[t|e|w] x1] eqn:Hrun; [| |done].
    + eexists _, _, _. split; [done|]. split; [|split; [done|]; right; exists key; by rewrite Hrun].
      split; [apply Hc|]. intros c0 [= <-]. cbn. split; [done|]. intros _. by rewrite Hk, Hko.
    + eexists _, _, _. split; [done|]. split; [done|]. split; [done|]. right. exists key. by rewrite Hrun.
  - eexists _, _, _. split; [done|]. split; [done|]. split; [done|]. left. exists e. split; [|done].
    unfold imports, raw_pair. cbn. unfold open_key_from_raw in Hraw. by destruct (open_ctx_new _ _ _).
  - exfalso. unfold open_key_from_raw in Hraw.
    pose proof (open_ctx_new_total (rk_key k) (rk_base_nonce k) 0) as Ht. by destruct (open_ctx_new _ _ _).
Qed.

Lemma rs_open_ok {X T} id (f : OpenKey → M X AfcError T) x m dr dw rs :
  shm_inv st m dr dw → cache_ok dr rs → (∀ k, is_panic (f k x).1 = false) →
  ∃ r rs' x', rs_open dbg st id f ((m, rs), x) = (r, ((m, rs'), x')) ∧
    cache_ok dr rs' ∧ rs_last_seal rs' = rs_last_seal rs ∧ open_post id f x dr r x'.
Proof.
  intros Hi Hc Hf. unfold rs_open. rewrite (load_read_ok dbg st m dr dw Hi).
  unfold cached_for. destruct (rs_last_open rs) as [c|] eqn:Hl; [|by eapply open_uncached_ok].
  case_bool_decide as Hid; [|by eapply open_uncached_ok].
  destruct (Z.eqb_spec (ca_gen c) (cl_gen dr)) as [Hg|Hg]; [|by eapply open_uncached_ok].
  destruct (co_open _ _ Hc c Hl) as [Hle Hkey]. specialize (Hkey Hg). rewrite Hid in Hkey.
  unfold open_post. destruct (view_open dr id) as [k|] eqn:Hk; [|done]. cbn in Hkey. injection Hkey as Hkey.
  destruct (f (ca_key c) x) as [res x1] eqn:Hrun.
  eexists _, _, _. split; [done|]. split; [done|]. split; [done|]. right. exists (ca_key c). by rewrite Hrun.
Qed.

Lemma rs_exists_ok id m dr dw rs :
  shm_inv st m dr dw →
  rs_exists dbg st id (m, rs) = (Ok (bool_decide (is_Some (list_view dr id))), (m, rs)).
Proof.
  intros Hi. unfold rs_exists. rewrite (load_read_ok dbg st m dr dw Hi).
  by rewrite (cl_exists_ok dbg st id dr) by apply Hi.
Qed.
End Read.

(** * The laws of [AfcState] *)
(** For builds without debug assertions: there a write-back never fails. *)
Section Laws.
Context `{HpkeLaws}.
Context (st : ShmState).

Definition shm_seal_key (s : SharedMem * ReadState) (id : ChannelId) : option (list u8 * list u8) :=
  raw_pair <$> (shm_view s.1 id ≫= dir_seal).
Definition shm_open_key (s : SharedMem * ReadState) (id : ChannelId) : option (list u8 * list u8) :=
  raw_pair <$> (shm_view s.1 id ≫= dir_open).

(** The memory with generation [g], the channels [v], and [dw] as its other
    side: what the reader's calls keep. *)
Context (dw : ChanListData) (g : Z) (v : ChannelId → option (Directed RawKey RawKey)).
Definition reader_inv (s : SharedMem * ReadState) : Prop :=
  ∃ dr, shm_inv st s.1 dr dw ∧ cache_ok dr s.2 ∧ cl_gen dr = g ∧ ∀ id, list_view dr id = v id.

Lemma may_write_back_release dr rs : may_write_back false dr rs.
Proof. intros old c _ _ _ _. by left. Qed.

#[local] Instance shm_reader_state : AfcState (SharedMem * ReadState) := shm_afc_state false st.

Program Definition shm_afc_laws : AfcLaws (SharedMem * ReadState) := {|
  afc_inv := reader_inv;
  afc_seal_key := shm_seal_key;
  afc_open_key := shm_open_key;
  afc_open_imports _ := imports
|}.
Next Obligation.
  intros [m rs] id X T f x (dr & Hi & Hc & Hg & Hv) Hf. cbn [fst snd] in *.
  destruct (rs_seal_ok false st id f x m dr dw rs Hi Hc (may_write_back_release dr rs) Hf)
    as (r & m' & rs' & x' & E & (dr' & Hi' & Hg' & Hv' & Hc' & Ho') & Hpost).
  cbn [afc_seal shm_reader_state shm_afc_state]. rewrite E.
  assert (∀ c, shm_view m' c = shm_view m c) as Hview.
  { intros c. by rewrite (shm_view_eq st m' dr' dw), (shm_view_eq st m dr dw) by done. }
  split_and!.
  - exists dr'. split_and!; [done..|congruence|]. intros c. by rewrite Hv', Hv.
  - intros c. unfold shm_seal_key. cbn [fst]. by rewrite Hview.
  - intros c. unfold shm_open_key. cbn [fst]. by rewrite Hview.
  - unfold shm_seal_key. cbn [fst]. rewrite (shm_view_eq st m dr dw) by done.
    fold (view_seal dr id). destruct (view_seal dr id); [|done].
    destruct Hpost as [(w & q & _ & ?)|?]; [left; by exists w|by right].
Qed.
Next Obligation.
  intros [m rs] id X T f x (dr & Hi & Hc & Hg & Hv) Hf. cbn [fst snd] in *.
  destruct (rs_open_ok false st id f x m dr dw rs Hi Hc Hf) as (r & rs' & x' & E & Hc' & _ & Hpost).
  cbn [afc_open shm_reader_state shm_afc_state]. rewrite E.
  split_and!; [by exists dr|done..|].
  unfold shm_open_key. cbn [fst]. rewrite (shm_view_eq st m dr dw) by done.
  fold (view_open dr id). unfold open_post in Hpost. by destruct (view_open dr id).
Qed.
Next Obligation.
  intros [m rs] id (dr & Hi & Hc & Hg & Hv). cbn [fst snd] in *.
  cbn [afc_exists shm_reader_state shm_afc_state]. rewrite (rs_exists_ok false st id m dr dw rs Hi).
  do 2 f_equal. apply bool_decide_ext. unfold shm_seal_key, shm_open_key. cbn [fst].
  rewrite (shm_view_eq st m dr dw) by done. destruct (list_view dr id) as [[]|]; cbn.
  - split; [left; by eexists|by eexists].
  - split; [right; by eexists|by eexists].
  - split; [left; by eexists|by eexists].
  - split; [intros [? [=]]|intros [[? [=]]|[? [=]]]].
Qed.
End Laws.
