(* ===== verification/AfcShmSys.v ===== *)
(** Fast channels: sequences of operations on the shared memory: the numbers of
    the messages that a reader seals, and a writer with any number of readers. *)
From S2P Require Import Prelude Collections Bytes AfcTypes AfcClient AfcShm AfcShmProofs.
Local Open Scope string_scope.
Local Open Scope list_scope.
Local Open Scope nat_scope.

(** Fast channels: sequence numbers. As long as the writer does not change the
    channels, the reader never seals two messages of a channel with the same
    sequence number, although the numbers are kept in its cache and written
    back only when a cached key is evicted. *)
Section Seq.
Context `{HpkeLaws}.
Context (dbg : bool) (st : ShmState).
Implicit Types (m : SharedMem) (dr dw : ChanListData) (rs : ReadState).

(** The cached key is the key of its channel, ahead of the number in memory. *)
Definition seal_coherent dr rs : Prop := ∀ c, rs_last_seal rs = Some c →
  ca_gen c = cl_gen dr ∧ ∃ ch, chan_at (ca_id c) (used dr) = Some ch ∧ allows OpSeal ch = true ∧
  sc_key_id ch = ck_id (ca_key c) ∧ (sc_seq ch < seal_key_seq (ck_key (ca_key c)))%Z ∧
  seal_key_of (sk_ctx (ck_key (ca_key c))) = raw_pair (sc_seal_key ch).

(** The sequence number of the next message of a channel. *)
Definition next_seq dr rs id : option Z :=
  match cached_for id (rs_last_seal rs) with
  | Some c => Some (seal_key_seq (ck_key (ca_key c)))
  | None => sc_seq <$> chan_at id (used dr)
  end.

(** No number is given out again. *)
Definition seqs_grow dr rs dr' rs' : Prop := ∀ id n, next_seq dr rs id = Some n →
  ∃ n', next_seq dr' rs' id = Some n' ∧ (n ≤ n')%Z.

Lemma seqs_grow_refl dr rs : seqs_grow dr rs dr rs.
Proof. intros id n Hn. by exists n. Qed.
Lemma seqs_grow_trans dr rs dr' rs' dr'' rs'' :
  seqs_grow dr rs dr' rs' → seqs_grow dr' rs' dr'' rs'' → seqs_grow dr rs dr'' rs''.
Proof.
  intros H1 H2 id n (n' & Hn' & ?)%H1. apply H2 in Hn' as (n'' & ? & ?). exists n''. split; [done|lia].
Qed.

Lemma cached_for_Some {K} id (c c' : Cache K) :
  cached_for id (Some c) = Some c' ↔ c' = c ∧ ca_id c = id.
Proof. unfold cached_for. case_bool_decide; naive_solver. Qed.
Lemma cached_for_None {K} id (c : Cache K) : cached_for id (Some c) = None ↔ ca_id c ≠ id.
Proof. unfold cached_for. by case_bool_decide. Qed.

(** What a call of [seal] does to the numbers. *)
Definition seal_seq_post {X T} id (f : M (SealKey * X) AfcError T) x m dr dw rs
    (res : outcome AfcError (AfcError + T) * ((SharedMem * ReadState) * X)) : Prop :=
  ∃ dr', shm_inv st res.2.1.1 dr' dw ∧ seal_coherent dr' res.2.1.2 ∧
    rs_last_open res.2.1.2 = rs_last_open rs ∧ cl_gen dr' = cl_gen dr ∧
    (∀ id', list_view dr' id' = list_view dr id') ∧
    seqs_grow dr rs dr' res.2.1.2 ∧
    match res.1 with
    | Ok (inr t) => ∃ key key' x', f (key, x) = (Ok t, (key', x')) ∧ res.2.2 = x' ∧
        next_seq dr rs id = Some (seal_key_seq key) ∧
        next_seq dr' res.2.1.2 id = Some (seal_key_seq key')
    | _ => True
    end.

Lemma seal_seq_same {X T} id (f : M (SealKey * X) AfcError T) x m dr dw rs r x' :
  shm_inv st m dr dw → seal_coherent dr rs → (∀ t, r ≠ Ok (inr t)) →
  seal_seq_post id f x m dr dw rs (r, ((m, rs), x')).
Proof.
  intros Hi Hc Hr. exists dr. split_and!; cbn; try done; [apply seqs_grow_refl|].
  by destruct r as [[|t]| |]; try done; specialize (Hr t).
Qed.

Lemma coherent_may_write_back dr rs : seal_coherent dr rs → may_write_back dbg dr rs.
Proof.
  intros Hc old c Hold Hat _ _. right. destruct (Hc old Hold) as (_ & ch & Hch & _ & _ & Hlt & _).
  rewrite Hch in Hat. by injection Hat as ->.
Qed.

Lemma seal_uncached_seq {X T} id hint (f : M (SealKey * X) AfcError T) x m dr dw rs :
  shm_inv st m dr dw → seal_coherent dr rs → cached_for id (rs_last_seal rs) = None → good_closure f x →
  seal_seq_post id f x m dr dw rs (seal_uncached dbg id hint (sm_read_off m) dr f ((m, rs), x)).
Proof.
  intros Hi Hc Hnone Hf. pose proof (si_rok _ _ _ _ Hi) as Hr. unfold seal_uncached.
  pose proof (find_seal_ok dbg _ id hint dr Hr) as HF.
  destruct (view_seal dr id) as [k|]; [|rewrite HF; by apply seal_seq_same].
  destruct HF as (idx & c & -> & Hat & Ha & Hkey).
  destruct (seal_key_from_raw (sc_seal_key c) (sc_seq c)) as [key|e|w] eqn:Hraw; [|by apply seal_seq_same..].
  apply seal_from_raw_ok in Hraw as [Hko Hkq].
  destruct (Hf key) as [Hk' Hres]. destruct (f (key, x)) as [res [key' x1]] eqn:Hrun. cbn in Hk', Hres.
  destruct res as [t|e|w]; [|by apply seal_seq_same..].
  set (new := mkCache id (mkCachedSealKey key' (sc_key_id c)) (cl_gen dr) idx).
  assert (next_seq dr rs id = Some (seal_key_seq key)) as Hnext
    by (unfold next_seq; by rewrite Hnone, Hat, Hkq).
  assert (∀ dr', cl_gen dr' = cl_gen dr → chan_at id (used dr') = Some c →
    seal_coherent dr' (mkReadState (Some new) (rs_last_open rs)) ∧
    next_seq dr' (mkReadState (Some new) (rs_last_open rs)) id = Some (seal_key_seq key')) as Hnew.
  { intros dr' Hg Hat'. split.
    - intros c0 [= <-]. split; [done|]. exists c. cbn. split_and!; try done; [lia|congruence].
    - unfold next_seq. cbn [rs_last_seal]. by rewrite (proj2 (cached_for_Some id new new)). }
  destruct (rs_last_seal rs) as [old|] eqn:Hold.
  - apply cached_for_None in Hnone as Hne. destruct (Hc old Hold) as (_ & ch & Hch & Hcha & Hchid & Hchlt & _).
    destruct (write_back_ok dbg _ old dr Hr) as (d' & -> & Hd' & Hg' & HF' & Hat').
    { intros c0. by apply (coherent_may_write_back dr rs Hc old c0). }
    assert (chan_at id (used d') = Some c) as Hatc by (rewrite Hat', bool_decide_false by done; done).
    destruct (Hnew d' Hg' Hatc) as [Hco Hnx].
    exists d'. cbn [fst snd]. split_and!; try done.
    + by apply (reader_put_inv st m dr).
    + intros id'. by apply list_view_same.
    + intros id' n Hn. destruct (decide (id' = id)) as [->|Hid'].
      { rewrite Hnext in Hn. injection Hn as <-. exists (seal_key_seq key'). split; [done|lia]. }
      exists n. split; [|done]. unfold next_seq in Hn |- *. rewrite Hold in Hn. cbn [rs_last_seal].
      rewrite (proj2 (cached_for_None id' new)) by done. rewrite Hat'.
      destruct (cached_for id' (Some old)) as [c0|] eqn:E.
      * apply cached_for_Some in E as [-> <-]. rewrite bool_decide_true, Hch by done. cbn.
        unfold evict_to. by rewrite Hcha, bool_decide_true.
      * apply cached_for_None in E. by rewrite bool_decide_false.
    + by exists key, key', x1.
  - destruct (Hnew dr eq_refl Hat) as [Hco Hnx]. exists dr. cbn [fst snd]. split_and!; try done.
    + intros id' n Hn. destruct (decide (id' = id)) as [->|Hid'].
      { rewrite Hnext in Hn. injection Hn as <-. exists (seal_key_seq key'). split; [done|lia]. }
      exists n. split; [|done]. unfold next_seq in Hn |- *. rewrite Hold in Hn. cbn [rs_last_seal].
      by rewrite (proj2 (cached_for_None id' new)).
    + by exists key, key', x1.
Qed.

Lemma rs_seal_seq {X T} id (f : M (SealKey * X) AfcError T) x m dr dw rs :
  shm_inv st m dr dw → seal_coherent dr rs → good_closure f x →
  seal_seq_post id f x m dr dw rs (rs_seal dbg st id f ((m, rs), x)).
Proof.
  intros Hi Hc Hf. unfold rs_seal. rewrite (load_read_ok dbg st m dr dw Hi).
  destruct (cached_for id (rs_last_seal rs)) as [c|] eqn:Hl; [|by apply seal_uncached_seq].
  destruct (rs_last_seal rs) as [c0|] eqn:Hl0; [|done]. apply cached_for_Some in Hl as [-> Hid].
  destruct (Hc c0 Hl0) as (Hg & ch & Hch & Ha & Hkid & Hlt & Hko). rewrite Hg, Z.eqb_refl.
  destruct (Hf (ck_key (ca_key c0))) as [Hk' Hres].
  destruct (f (ck_key (ca_key c0), x)) as [res [key' x1]] eqn:Hrun. cbn in Hk', Hres.
  set (c1 := mkCache (ca_id c0) (mkCachedSealKey key' (ck_id (ca_key c0))) (cl_gen dr) (ca_idx c0)).
  assert (seal_key_seq (ck_key (ca_key c0)) ≤ seal_key_seq key')%Z as Hle by (destruct res; [lia|lia|done]).
  assert (next_seq dr rs id = Some (seal_key_seq (ck_key (ca_key c0)))) as Hn1
    by (unfold next_seq; by rewrite Hl0, (proj2 (cached_for_Some id c0 c0))).
  assert (next_seq dr (mkReadState (Some c1) (rs_last_open rs)) id = Some (seal_key_seq key')) as Hn2
    by (unfold next_seq; cbn [rs_last_seal]; by rewrite (proj2 (cached_for_Some id c1 c1))).
  exists dr. cbn [fst snd]. split_and!; try done.
  - intros c2 [= <-]. split; [done|]. exists ch. cbn. split_and!; try done; [lia|congruence].
  - intros id' n Hn. destruct (decide (id' = id)) as [->|Hid'].
    { rewrite Hn1 in Hn. injection Hn as <-. by exists (seal_key_seq key'). }
    exists n. split; [|done]. unfold next_seq in Hn |- *. rewrite Hl0 in Hn. cbn [rs_last_seal].
    rewrite (proj2 (cached_for_None id' c1)) by (cbn; congruence).
    by rewrite (proj2 (cached_for_None id' c0)) in Hn by congruence.
  - destruct res as [t|e|w]; cbn; [|done..]. by exists (ck_key (ca_key c0)), key', x1.
Qed.

(** * Sequences of calls *)
#[local] Instance reader_state : AfcState (SharedMem * ReadState) := shm_afc_state dbg st.

(** What a process can do with a client. *)
Inductive ReaderJob :=
  | JobSeal (id : ChannelId) (plaintext : list u8)
  | JobOpen (peer : NodeId) (msg : list u8)
  | JobExists (id : ChannelId).

(** The message that a job sends, with its channel, and the state after it. *)
Definition run_job (j : ReaderJob) (s : SharedMem * ReadState)
    : list (ChannelId * list u8) * (SharedMem * ReadState) :=
  match j with
  | JobSeal id pt =>
    let '(r, (s, dst)) := client_seal id pt (s, replicate (length pt + CLIENT_OVERHEAD) Byte.x00) in
    (match r with Ok _ => [(id, dst)] | _ => [] end, s)
  | JobOpen peer msg =>
    let '(_, (s, _)) := client_open peer msg (s, replicate (length msg) Byte.x00) in ([], s)
  | JobExists id => ([], (rs_exists dbg st id s).2)
  end.
Fixpoint run_jobs (js : list ReaderJob) (s : SharedMem * ReadState)
    : list (ChannelId * list u8) * (SharedMem * ReadState) :=
  match js with
  | [] => ([], s)
  | j :: js => let '(out, s) := run_job j s in let '(outs, s) := run_jobs js s in (out ++ outs, s)
  end.

(** The sequence number that a message carries. *)
Definition msg_seq (msg : list u8) : option Z :=
  match split_last_chunk DATA_HEADER_SIZE msg with
  | Some (_, header) =>
    match data_header_try_parse header with Ok h => Some (dh_seq h) | _ => None end
  | None => None
  end.

Lemma msg_seq_sealed k q l pt : u64_ok q → msg_seq (sealed_message k q l pt) = Some q.
Proof.
  intros Hq. unfold msg_seq, sealed_message. rewrite split_last_chunk_app by apply length_data_header_bytes.
  unfold data_header_bytes. rewrite data_header_parse_app by apply length_le_bytes.
  cbn [dh_seq]. by rewrite from_le_bytes.
Qed.

(** What stays true of the reader between calls. *)
Definition reader_ok dw (s : SharedMem * ReadState) dr : Prop :=
  shm_inv st s.1 dr dw ∧ seal_coherent dr s.2 ∧ cache_ok dr s.2.

Lemma coherent_cache_ok dr rs rs0 :
  seal_coherent dr rs → cache_ok dr rs0 → rs_last_open rs = rs_last_open rs0 → cache_ok dr rs.
Proof.
  intros Hc [_ Ho] E. split; [|by rewrite E]. intros c Hl.
  destruct (Hc c Hl) as (Hg & ch & Hch & Ha & _ & _ & Hko). split; [lia|]. intros _.
  rewrite Hko. unfold view_seal, list_view. rewrite Hch. cbn. unfold allows in Ha.
  unfold chan_keys in *. by destruct (direction_try_from_u32 _) as [[]|].
Qed.

Lemma client_seal_seq id pt s dr dw dst r s' dst' :
  reader_ok dw s dr → length dst = length pt + CLIENT_OVERHEAD →
  client_seal id pt (s, dst) = (r, (s', dst')) →
  ∃ dr', reader_ok dw s' dr' ∧ seqs_grow dr s.2 dr' s'.2 ∧
  match r with
  | Ok _ => ∃ q, next_seq dr s.2 id = Some q ∧ next_seq dr' s'.2 id = Some (q + 1)%Z ∧ msg_seq dst' = Some q
  | _ => True
  end.
Proof.
  destruct s as [m rs]. intros (Hi & Hc & Hca) Hlen. cbn [fst snd] in *. unfold client_seal.
  assert (∀ r0, (∀ h, r0 ≠ Ok h) → ((r0 : outcome AfcError Header), ((m, rs), dst)) = (r, (s', dst')) →
    ∃ dr', reader_ok dw s' dr' ∧ seqs_grow dr rs dr' s'.2 ∧
    match r with
    | Ok _ => ∃ q, next_seq dr rs id = Some q ∧ next_seq dr' s'.2 id = Some (q + 1)%Z ∧ msg_seq dst' = Some q
    | _ => True end) as Hstay.
  { intros r0 Hno [= <- <- <-]. exists dr. split; [done|]. split; [apply seqs_grow_refl|].
    destruct r0 as [h| |]; [by destruct (Hno h)|done..]. }
  destruct (checked_add _ _) as [n|] eqn:En; [|by apply Hstay].
  apply checked_add_Some in En as [-> _].
  destruct (Nat.leb_spec (length pt + CLIENT_OVERHEAD) (length dst)) as [Hle|]; [|lia].
  rewrite take_ge, drop_ge by lia.
  destruct (split_window (length pt) dst Hlen) as (out & header & -> & Hw & Ho & Hh). clear Hstay.
  unfold do_seal. cbn [afc_seal reader_state shm_afc_state].
  pose proof (rs_seal_seq id (seal_closure pt (client_auth_data (ch_label id))) out m dr dw rs Hi Hc
    (seal_closure_good pt (ch_label id) out Ho)) as HS.
  destruct (rs_seal dbg st id _ _) as [r0 [[m0 rs0] x0]].
  destruct HS as (dr' & Hi' & Hc' & Hop & Hg & Hv & Hgrow & Hpost). cbn [fst snd] in *.
  assert (reader_ok dw (m0, rs0) dr') as Hok.
  { split_and!; [done..|]. apply (coherent_cache_ok dr' rs0 rs); [done| |done].
    by apply (cache_ok_same dr). }
  destruct r0 as [[e|q]|e|w]; cbn [flatten_result mbind outcome_bind].
  - intros [= <- <- <-]. by exists dr'.
  - destruct Hpost as (key & key' & x1 & Hrun & -> & Hn & Hn').
    apply seal_closure_run in Hrun as (_ & _ & -> & Hq & _ & Hk' & ->); [|done].
    rewrite data_header_encode_spec by done. intros [= <- <- <-]. rewrite app_nil_r.
    exists dr'. split; [done|]. split; [done|]. exists (seal_key_seq key). split_and!; [done|by cbn [snd]; rewrite Hn', Hk'|].
    by apply msg_seq_sealed.
  - intros [= <- <- <-]. by exists dr'.
  - intros [= <- <- <-]. by exists dr'.
Qed.

Lemma client_open_seq peer msg s dr dw dst r s' dst' :
  reader_ok dw s dr → length dst = length msg → client_open peer msg (s, dst) = (r, (s', dst')) →
  reader_ok dw s' dr ∧ seqs_grow dr s.2 dr s'.2.
Proof.
  destruct s as [m rs]. intros (Hi & Hc & Hca) Hlen. cbn [fst snd] in *. unfold client_open.
  assert (reader_ok dw (m, rs) dr ∧ seqs_grow dr rs dr rs) as Hstay by (split; [done|apply seqs_grow_refl]).
  destruct (split_last_chunk _ msg) as [[ct header]|] eqn:Es; [|by intros [= <- <- <-]].
  apply split_last_chunk_Some in Es as [-> Hh]. rewrite length_app in Hlen.
  destruct (data_header_parse_total header Hh) as (h & -> & _).
  destruct (checked_sub _ _) as [n|] eqn:Ec; [|by intros [= <- <- <-]]. apply checked_sub_Some in Ec as [Ht ->].
  destruct (Nat.ltb_spec (length dst) (length ct - TAG_SIZE)); [lia|].
  unfold do_open. cbn [afc_open reader_state shm_afc_state].
  edestruct (rs_open_ok dbg st (mkChannelId peer (dh_label h)) (λ aead, open_closure ct aead
    (client_auth_data (dh_label h)) (dh_seq h)) dst m dr dw rs Hi Hca)
    as (r0 & rs' & x' & E & Hca' & Hseal & _).
  { intros k. destruct (open_closure _ _ _ _ _) as [rc dc] eqn:Ec.
    apply open_closure_run in Ec as [_ Ec]; [|lia..]. by destruct rc as [|[]|]. }
  cbn [ch_label] in *. rewrite E.
  assert (reader_ok dw (m, rs') dr ∧ seqs_grow dr rs dr rs') as Hgo.
  { split; [split_and!; [done| |done]|].
    - intros c. cbn [snd]. rewrite Hseal. apply Hc.
    - intros id n Hn. exists n. split; [|done]. unfold next_seq in *. by rewrite Hseal. }
  destruct (flatten_result r0); intros [= <- <- <-]; done.
Qed.

(** Messages that are sent later carry larger numbers. *)
Definition seq_before (a b : ChannelId * list u8) : Prop :=
  a.1 = b.1 → ∃ p q, msg_seq a.2 = Some p ∧ msg_seq b.2 = Some q ∧ (p < q)%Z.

(** A job keeps the reader in order, and what it sends has the next number. *)
Lemma run_job_seq j s dr dw :
  reader_ok dw s dr →
  ∃ dr', reader_ok dw (run_job j s).2 dr' ∧ seqs_grow dr s.2 dr' (run_job j s).2.2 ∧
  match (run_job j s).1 with
  | [] => True
  | [(id, msg)] => ∃ q, next_seq dr s.2 id = Some q ∧ next_seq dr' (run_job j s).2.2 id = Some (q + 1)%Z ∧
                        msg_seq msg = Some q
  | _ => False
  end.
Proof.
  intros Hok. destruct j as [id pt|peer msg|id]; cbn [run_job].
  - destruct (client_seal _ _ _) as [r [s' dst']] eqn:E.
    apply (client_seal_seq _ _ _ dr dw) in E as (dr' & ? & ? & Hr); [|done|by rewrite length_replicate].
    exists dr'. split; [done|]. split; [done|]. by destruct r.
  - destruct (client_open _ _ _) as [r [s' dst']] eqn:E.
    apply (client_open_seq _ _ _ dr dw) in E as [? ?]; [|done|by rewrite length_replicate]. by exists dr.
  - destruct s as [m rs]. rewrite (rs_exists_ok dbg st id m dr dw rs) by apply Hok. exists dr.
    split; [done|]. split; [apply seqs_grow_refl|done].
Qed.

Lemma run_jobs_seq js s dr dw :
  reader_ok dw s dr →
  StronglySorted seq_before (run_jobs js s).1 ∧
  ∀ id msg n, (id, msg) ∈ (run_jobs js s).1 → next_seq dr s.2 id = Some n →
              ∃ q, msg_seq msg = Some q ∧ (n ≤ q)%Z.
Proof.
  revert s dr. induction js as [|j js IH]; intros s dr Hok; cbn [run_jobs].
  { split; [constructor|]. intros id msg n Hin. inversion Hin. }
  destruct (run_job_seq j s dr dw Hok) as (dr1 & Hok1 & Hgrow & Hout).
  destruct (run_job j s) as [out s1]. cbn [fst snd] in *.
  destruct (IH s1 dr1 Hok1) as [Hsorted Hlow]. destruct (run_jobs js s1) as [outs s2]. cbn [fst snd] in *.
  assert (∀ id msg n, (id, msg) ∈ outs → next_seq dr s.2 id = Some n → ∃ q, msg_seq msg = Some q ∧ (n ≤ q)%Z)
    as Hlater.
  { intros id msg n Hin (n' & Hn' & ?)%Hgrow. destruct (Hlow _ _ _ Hin Hn') as (q & ? & ?).
    exists q. split; [done|lia]. }
  destruct out as [|[id msg] [|]]; [done| |done].
  destruct Hout as (q & Hn & Hn' & Hq). split.
  - cbn. constructor; [done|]. apply Forall_forall. intros [id' msg'] Hin E. cbn in E. subst id'.
    destruct (Hlow _ _ _ Hin Hn') as (q' & ? & ?). exists q, q'. split_and!; [done..|lia].
  - intros id' msg' n [[= -> ->]|Hin]%elem_of_cons Hnn; [|by eapply Hlater].
    rewrite Hn in Hnn. injection Hnn as ->. by exists n.
Qed.

(** * Keys that are imported again *)
(** The reader has cached the key of [id] in the current generation. *)
Definition caches id dr rs : Prop :=
  ∃ c, rs_last_seal rs = Some c ∧ ca_id c = id ∧ ca_gen c = cl_gen dr.

(** With a cache that cannot be used, [seal] imports the channel's key with the
    number in memory. *)
Lemma rs_seal_imports {X T} id (f : M (SealKey * X) AfcError T) x m dr dw rs r s' x' :
  shm_inv st m dr dw → (∀ c, rs_last_seal rs = Some c → ca_gen c ≠ cl_gen dr) →
  rs_seal dbg st id f ((m, rs), x) = (r, (s', x')) →
  match r with
  | Ok (inr t) => ∃ c key key', chan_at id (used dr) = Some c ∧
      seal_key_from_raw (sc_seal_key c) (sc_seq c) = Ok key ∧ f (key, x) = (Ok t, (key', x')) ∧
      caches id dr s'.2 ∧ (rs_last_seal rs = None → s'.1 = m)
  | _ => rs_last_seal rs = None → s' = (m, rs)
  end.
Proof.
  intros Hi Hstale. unfold rs_seal. rewrite (load_read_ok dbg st m dr dw Hi).
  assert (∀ hint, seal_uncached dbg id hint (sm_read_off m) dr f ((m, rs), x) = (r, (s', x')) →
    match r with
    | Ok (inr t) => ∃ c key key', chan_at id (used dr) = Some c ∧
        seal_key_from_raw (sc_seal_key c) (sc_seq c) = Ok key ∧ f (key, x) = (Ok t, (key', x')) ∧
        caches id dr s'.2 ∧ (rs_last_seal rs = None → s'.1 = m)
    | _ => rs_last_seal rs = None → s' = (m, rs)
    end) as Hun.
  { intros hint. unfold seal_uncached. pose proof (find_seal_ok dbg _ id hint dr (si_rok _ _ _ _ Hi)) as HF.
    destruct (view_seal dr id) as [k|]; [|rewrite HF; by intros [= <- <- <-]].
    destruct HF as (idx & c & -> & Hat & _). destruct (seal_key_from_raw _ _) as [key|e|w] eqn:Hraw; [|by intros [= <- <- <-]..].
    destruct (f (key, x)) as [[t|e|w] [key' x1]] eqn:Hrun; [|by intros [= <- <- <-]..].
    destruct (rs_last_seal rs) as [old|] eqn:Hold; [destruct (write_back dbg old dr)|];
      intros [= <- <- <-]; try done; exists c, key, key'; (split_and!; [done..|by eexists|done]). }
  destruct (cached_for id (rs_last_seal rs)) as [c|] eqn:Hc; [|by apply Hun].
  destruct (rs_last_seal rs) as [c0|] eqn:Hl; [|done]. apply cached_for_Some in Hc as [-> _].
  rewrite (proj2 (Z.eqb_neq _ _) (Hstale c0 eq_refl)). by apply Hun.
Qed.

Lemma rs_seal_cached {X T} id (f : M (SealKey * X) AfcError T) x m dr dw rs r s' x' :
  shm_inv st m dr dw → caches id dr rs → rs_seal dbg st id f ((m, rs), x) = (r, (s', x')) →
  s'.1 = m ∧ caches id dr s'.2.
Proof.
  intros Hi (c & Hl & <- & Hg). unfold rs_seal. rewrite (load_read_ok dbg st m dr dw Hi), Hl.
  rewrite (proj2 (cached_for_Some (ca_id c) c c)) by done. rewrite Hg, Z.eqb_refl.
  destruct (f _) as [res [key' x1]]. intros [= _ <- _]. split; [done|]. by eexists.
Qed.

(** A client's [seal] is one call of the state's. *)
Lemma client_seal_run id pt s dst r s' dst' :
  length dst = length pt + CLIENT_OVERHEAD → client_seal id pt (s, dst) = (r, (s', dst')) →
  is_ok r = false ∧ s' = s ∨
  ∃ out r0 x0, length out = length pt + TAG_SIZE ∧
    rs_seal dbg st id (seal_closure pt (client_auth_data (ch_label id))) (s, out) = (r0, (s', x0)) ∧
    match r with
    | Ok _ => ∃ q, r0 = Ok (inr q) ∧ dst' = x0 ++ data_header_bytes (mkDataHeader (ch_label id) q)
    | _ => ∀ q, r0 ≠ Ok (inr q)
    end.
Proof.
  intros Hlen. unfold client_seal. destruct (checked_add _ _) as [n|] eqn:En; [|intros [= <- <- _]; by left].
  apply checked_add_Some in En as [-> _].
  destruct (Nat.leb_spec (length pt + CLIENT_OVERHEAD) (length dst)) as [Hle|]; [|lia].
  rewrite take_ge, drop_ge by lia.
  destruct (split_window (length pt) dst Hlen) as (out & header & -> & Hw & Ho & Hh).
  unfold do_seal. cbn [afc_seal reader_state shm_afc_state]. intros E. right. exists out.
  destruct (rs_seal dbg st id _ _) as [r0 [s0 x0]]. exists r0, x0.
  destruct r0 as [[e|q]|e|w]; cbn [flatten_result mbind outcome_bind] in E.
  - injection E as <- <- _. by split_and!.
  - rewrite data_header_encode_spec in E by done. injection E as <- <- <-. rewrite app_nil_r.
    split_and!; [done..|]. by exists q.
  - injection E as <- <- _. by split_and!.
  - injection E as <- <- _. by split_and!.
Qed.

(** The first message of a channel after its key was imported. *)
Definition imported id dr pt msg : Prop :=
  ∃ c, chan_at id (used dr) = Some c ∧ u64_ok (sc_seq c) ∧
       msg = sealed_message (raw_pair (sc_seal_key c)) (sc_seq c) (ch_label id) pt.

Lemma run_seal_imports id pt m dr dw rs out s' :
  shm_inv st m dr dw → (∀ c, rs_last_seal rs = Some c → ca_gen c ≠ cl_gen dr) →
  run_job (JobSeal id pt) (m, rs) = (out, s') →
  out = [] ∧ (rs_last_seal rs = None → s' = (m, rs)) ∨
  ∃ msg, out = [(id, msg)] ∧ imported id dr pt msg ∧ caches id dr s'.2 ∧ (rs_last_seal rs = None → s'.1 = m).
Proof.
  intros Hi Hstale. cbn [run_job]. destruct (client_seal _ _ _) as [r [s1 dst']] eqn:E. intros [= <- <-].
  apply client_seal_run in E as [[Hr ->]|(o & r0 & x0 & Ho & E & Hr)]; [destruct r; [done|by left..]| |by rewrite length_replicate].
  apply (rs_seal_imports _ _ _ _ dr dw) in E; [|done..]. destruct r as [h|e|w].
  - destruct Hr as (q & -> & ->). destruct E as (c & key & key' & Hat & Hraw & Hrun & Hca & Hm). right. eexists. split; [done|].
    apply seal_from_raw_ok in Hraw as [Hko Hkq].
    apply seal_closure_run in Hrun as (_ & _ & -> & Hq & _ & _ & ->); [|done]. rewrite Hkq in *.
    split_and!; [|done..]. exists c. split_and!; [done..|]. by rewrite Hko.
  - left. split; [done|]. destruct r0 as [[|q]| |]; try exact E. by destruct (Hr q).
  - left. split; [done|]. destruct r0 as [[|q]| |]; try exact E. by destruct (Hr q).
Qed.

(** A new reader that seals for one channel leaves the memory alone; its first
    message has the number in memory. *)
Lemma seals_from_memory id pts m dr dw rs out s' :
  shm_inv st m dr dw → rs_last_seal rs = None ∨ caches id dr rs →
  run_jobs (JobSeal id <$> pts) (m, rs) = (out, s') →
  s'.1 = m ∧ (rs_last_seal s'.2 = None ∨ caches id dr s'.2) ∧
  (rs_last_seal rs = None → ∀ x rest, out = x :: rest → x.1 = id ∧ ∃ pt, imported id dr pt x.2).
Proof.
  intros Hi. revert rs out. induction pts as [|pt pts IH]; intros rs out Hrs; cbn [run_jobs fmap list_fmap].
  { intros [= <- <-]. by split_and!. }
  destruct (run_job (JobSeal id pt) (m, rs)) as [o1 [m1 rs1]] eqn:E1. destruct (run_jobs _ (m1, rs1)) as [o2 s2] eqn:E2.
  intros [= <- <-]. assert (m1 = m ∧ (rs_last_seal rs1 = None ∨ caches id dr rs1) ∧
    (rs_last_seal rs = None → o1 = [] ∧ rs1 = rs ∨ ∃ msg, o1 = [(id, msg)] ∧ imported id dr pt msg)) as (-> & Hrs1 & Ho1).
  { destruct Hrs as [Hn|Hc].
    - apply (run_seal_imports _ _ _ dr dw) in E1 as [[-> Hs]|(msg & -> & Him & Hca & Hm)]; [| |done|by rewrite Hn].
      + specialize (Hs Hn) as [= -> ->]. split; [done|]. split; [by left|]. by left.
      + split; [by apply Hm|]. split; [by right|]. right. by exists msg.
    - cbn [run_job] in E1. destruct (client_seal _ _ _) as [r [s1 dst']] eqn:E. injection E1 as _ ->.
      assert (rs_last_seal rs ≠ None) as Hn by (by destruct Hc as (? & -> & _)).
      apply client_seal_run in E as [[_ [= -> ->]]|(o & r0 & x0 & _ & E & _)]; [by split_and!; [|right|]| |by rewrite length_replicate].
      apply (rs_seal_cached _ _ _ _ dr dw) in E as [? ?]; [|done..]. by split_and!; [|right|]. }
  destruct (IH rs1 o2 Hrs1 E2) as (Hm & Hc & Hfirst). split_and!; [done..|].
  intros Hn x rest Hout. destruct (Ho1 Hn) as [[-> ->]|(msg & -> & Him)]; [by eapply Hfirst|].
  injection Hout as <- <-. split; [done|]. by exists pt.
Qed.
End Seq.

(** Fast channels: a writer and any number of readers on one shared memory, in
    any order of operations, against the abstract map of channels; and the
    memory in the middle of a writer's operation. *)

(** * The system *)
Inductive AfcOp :=
  | AfcAdd (id : ChannelId) (keys : Directed RawKey RawKey)
  | AfcRemove (id : ChannelId)
  | AfcRemoveAll
  | AfcRemoveIf (p : ChannelId → bool)
  | AfcReader (i : nat) (j : ReaderJob).

(** ** The abstract map *)
Definition ChanMap : Type := list (ChannelId * Directed RawKey RawKey).
Definition map_op (max_chans : nat) (op : AfcOp) (c : ChanMap) : outcome ShmError unit * ChanMap :=
  match op with
  | AfcAdd id keys =>
    if bt_contains id c || (length c <? max_chans) then (Ok tt, bt_insert id keys c)
    else (Err ShmOutOfSpace, c)
  | AfcRemove id => (Ok tt, bt_remove id c)
  | AfcRemoveAll => (Ok tt, [])
  | AfcRemoveIf p => (Ok tt, List.filter (λ e, negb (p e.1)) c)
  | AfcReader _ _ => (Ok tt, c)
  end.

Section Sys.
Context `{Hpke, TupleHash} {R : Type} `{Csprng R}.
Context (st : ShmState).

Record AfcSys := mkAfcSys { sy_mem : SharedMem; sy_rng : R; sy_readers : list ReadState }.

(** One operation, in builds without debug assertions. *)
Definition sys_op (op : AfcOp) (s : AfcSys) : outcome ShmError unit * AfcSys :=
  match op with
  | AfcAdd id keys =>
    let '(r, (m, rng)) := ws_add false st id keys (sy_mem s, sy_rng s) in (r, mkAfcSys m rng (sy_readers s))
  | AfcRemove id =>
    let '(r, m) := ws_remove false st id (sy_mem s) in (r, mkAfcSys m (sy_rng s) (sy_readers s))
  | AfcRemoveAll =>
    let '(r, m) := ws_remove_all false st (sy_mem s) in (r, mkAfcSys m (sy_rng s) (sy_readers s))
  | AfcRemoveIf p =>
    let '(r, (m, _)) := ws_remove_if false st (λ id c, (p id, c)) (sy_mem s, tt) in
    (r, mkAfcSys m (sy_rng s) (sy_readers s))
  | AfcReader i j =>
    match sy_readers s !! i with
    | None => (Ok tt, s)
    | Some rs =>
      let '(_, (m, rs)) := run_job false st j (sy_mem s, rs) in
      (Ok tt, mkAfcSys m (sy_rng s) (<[i := rs]> (sy_readers s)))
    end
  end.

(** The results of a sequence of operations, and the state after it. *)
Fixpoint sys_run (ops : list AfcOp) (s : AfcSys) : list (outcome ShmError unit) * AfcSys :=
  match ops with
  | [] => ([], s)
  | op :: ops => let '(r, s) := sys_op op s in let '(rs, s) := sys_run ops s in (r :: rs, s)
  end.
Fixpoint map_run (max_chans : nat) (ops : list AfcOp) (c : ChanMap) : list (outcome ShmError unit) * ChanMap :=
  match ops with
  | [] => ([], c)
  | op :: ops =>
    let '(r, c) := map_op max_chans op c in let '(rs, c) := map_run max_chans ops c in (r :: rs, c)
  end.

(** The memory after each of the steps of a writer's operation that the readers
    can see: the write side changed, the sides swapped, the other side changed,
    the write offset stored. *)
Definition op_steps (op : AfcOp) (m : SharedMem) (rng : R) : list SharedMem :=
  match op with
  | AfcAdd id keys =>
    let '(c1, rng1) := chan_init id keys rng in
    let '(c2, _) := chan_init id keys rng1 in
    match add_write_side false st id c1 m with
    | (Ok (w, idx, grow), m1) =>
      [m1; (swap_offsets st w m1).2; (add_read_side false st w idx grow c2 m1).2;
       (ws_add false st id keys (m, rng)).2.1]
    | (_, m1) => [m1]
    end
  | AfcRemove id =>
    match remove_write_side false st id m with
    | (Ok (Some (w, idx)), m1) =>
      [m1; (swap_offsets st w m1).2; (remove_read_side false st w idx m1).2; (ws_remove false st id m).2]
    | (_, m1) => [m1]
    end
  | AfcRemoveAll =>
    match clear_write_side false st m with
    | (Ok w, m1) =>
      [m1; (swap_offsets st w m1).2; (clear_read_side false st w m1).2; (ws_remove_all false st m).2]
    | (_, m1) => [m1]
    end
  | AfcRemoveIf p =>
    let f := λ id c, (p id, c) in
    match side_remove_if false f (sm_write_off m) (λ d, Ok (negb (cl_len d =? 0))) (m, tt) with
    | (Ok true, (m1, _)) =>
      let m2 := (swap_offsets st (sm_write_off m) m1).2 in
      [m1; m2; (side_remove_if false f (sm_read_off m) (λ _, Ok true) (m2, tt)).2.1;
       (ws_remove_if false st f (m, tt)).2.1]
    | (_, (m1, _)) => [m1]
    end
  | AfcReader _ _ => []
  end.

(** A memory that has just been set up, with [n] readers. *)
Definition sys_init (size : Z) (aligned : bool) (rng : R) (n : nat) : AfcSys :=
  mkAfcSys (shm_init (st_max_chans st) size aligned (st_side_a st) (st_side_b st)) rng
    (replicate n read_state_new).
End Sys.
Arguments mkAfcSys {_ R} _ _ _.
Arguments sy_mem {_ R} _.
Arguments sy_rng {_ R} _.
Arguments sy_readers {_ R} _.

Section SysProofs.
Context `{HpkeLaws, TupleHash} {R : Type} `{Csprng R}.
Context (st : ShmState).
Implicit Types (s : AfcSys (R := R)) (c : ChanMap).

(** [n] bounds the number of changes so far. *)
Record sys_inv (n : Z) s (dr dw : ChanListData) : Prop := {
  sv_mem : shm_inv st (sy_mem s) dr dw;
  sv_readers : Forall (cache_ok dr) (sy_readers s);
  sv_gen : (cl_gen dr ≤ n)%Z
}.

Lemma shm_init_inv size aligned :
  st_side_a st ≠ st_side_b st →
  shm_inv st (shm_init (st_max_chans st) size aligned (st_side_a st) (st_side_b st))
    (clist_data (chanlist_new (st_max_chans st))) (clist_data (chanlist_new (st_max_chans st))).
Proof.
  intros Hne. set (d := clist_data _).
  assert (list_ok (st_max_chans st) d) as Hd.
  { split; cbn; [done|by rewrite length_replicate|lia|constructor|constructor|lia]. }
  split; try done; unfold valid_offset, side_at; cbn [shm_init sm_read_off sm_write_off sm_sides].
  - by rewrite Nat.eqb_refl.
  - by rewrite Nat.eqb_refl, orb_true_r.
  - apply bt_wf_insert, bt_wf_insert, bt_wf_nil.
  - rewrite bt_get_insert_ne by done. by rewrite bt_get_insert_eq.
  - by rewrite bt_get_insert_eq.
Qed.

(** The reader's calls. *)
Lemma run_job_reads j m dr dw rs :
  shm_inv st m dr dw → cache_ok dr rs →
  ∃ m' rs' out dr', run_job false st j (m, rs) = (out, (m', rs')) ∧ shm_inv st m' dr' dw ∧
    cl_gen dr' = cl_gen dr ∧ (∀ id, list_view dr' id = list_view dr id) ∧ cache_ok dr' rs'.
Proof.
  intros Hi Hc. destruct j as [id pt|peer msg|id]; cbn [run_job].
  - destruct (client_seal _ _ _) as [r [[m' rs'] dst']] eqn:E.
    eapply (client_seal_spec (AfcLaws0 := shm_afc_laws st dw (cl_gen dr) (list_view dr)))
      in E as ((dr' & ? & ? & ? & ?) & _); [|by exists dr]. by eexists m', rs', _, dr'.
  - destruct (client_open _ _ _) as [r [[m' rs'] dst']] eqn:E.
    eapply (client_open_spec (AfcLaws0 := shm_afc_laws st dw (cl_gen dr) (list_view dr)))
      in E as ((dr' & ? & ? & ? & ?) & _); [|by exists dr]. by eexists m', rs', _, dr'.
  - rewrite (rs_exists_ok false st id m dr dw rs Hi). by exists m, rs, [], dr.
Qed.

(** ** The map and the list *)
(** A list shows the channels of [c]. *)
Definition shows (dr : ChanListData) c : Prop := bt_wf c ∧ ∀ id, list_view dr id = bt_get id c.

Lemma list_view_None cap d id : list_ok cap d → list_view d id = None ↔ id ∉ cid <$> used d.
Proof.
  intros Hd. rewrite <- chan_at_None. unfold list_view. destruct (chan_at id (used d)) as [ch|] eqn:E; [|done].
  apply chan_at_elem in E as [Hin _]. apply list_elem_of_lookup_1 in Hin as [i Hin].
  destruct (Forall_lookup_1 chan_ok _ _ _ (lo_chans _ _ Hd) Hin) as [_ [k Hk]]. cbn. by rewrite Hk.
Qed.

Lemma bt_keys_NoDup c : bt_wf c → NoDup c.*1.
Proof.
  induction c as [|[k v] c IH]; intros Hw; [constructor|]. cbn. constructor.
  - apply bt_get_None_notin. by eapply bt_wf_notin.
  - apply IH. by eapply bt_wf_tail.
Qed.

Lemma shows_length dr c : list_ok (st_max_chans st) dr → shows dr c → length c = cl_len dr.
Proof.
  intros Hd [Hw Hv]. rewrite <- (used_length _ _ Hd), <- (length_fmap cid), <- (length_fmap fst c).
  apply Permutation_length, NoDup_Permutation; [by apply bt_keys_NoDup|apply Hd|].
  intros id. destruct (decide (id ∈ c.*1)) as [Hin|Hin].
  - split; [intros _|done]. apply dec_stable. intros Hno.
    apply (list_view_None _ _ _ Hd) in Hno. rewrite Hv in Hno. by apply bt_get_None_notin in Hno.
  - split; [done|]. intros Hin'. exfalso. apply bt_get_None_notin in Hin.
    rewrite <- Hv, (list_view_None _ _ _ Hd) in Hin. done.
Qed.

Lemma shows_insert dr' dr c id keys :
  shows dr c → (∀ id', list_view dr' id' = if bool_decide (id' = id) then Some keys else list_view dr id') →
  shows dr' (bt_insert id keys c).
Proof.
  intros [Hw Hv] Hn. split; [by apply bt_wf_insert|]. intros id'. rewrite Hn, Hv, bt_get_insert.
  case_bool_decide as E; [by rewrite (proj2 (ord_eqb_true _ _) E)|by rewrite (proj2 (ord_eqb_false _ _) E)].
Qed.

Lemma shows_remove dr' dr c id :
  shows dr c → (∀ id', list_view dr' id' = if bool_decide (id' = id) then None else list_view dr id') →
  shows dr' (bt_remove id c).
Proof.
  intros [Hw Hv] Hn. split; [by apply bt_wf_remove|]. intros id'. rewrite Hn, Hv, bt_get_remove by done.
  case_bool_decide as E; [by rewrite (proj2 (ord_eqb_true _ _) E)|by rewrite (proj2 (ord_eqb_false _ _) E)].
Qed.

Lemma shows_filter dr' dr c (p : ChannelId → bool) :
  shows dr c → (∀ id', list_view dr' id' = if p id' then None else list_view dr id') →
  shows dr' (List.filter (λ e, negb (p e.1)) c).
Proof.
  intros [Hw Hv] Hn. split; [by apply bt_wf_filter|]. intros id'. rewrite Hn, Hv, bt_get_filter by done.
  cbn. by destruct (p id'), (bt_get id' c).
Qed.

(** A change of the memory, seen by the readers. *)
Lemma sys_inv_update n s dr dw m' (rng' : R) v :
  sys_inv n s dr dw → (n < 2 ^ 32 - 1)%Z → updates st dr m' v →
  ∃ dr' dw', sys_inv (n + 1) (mkAfcSys m' rng' (sy_readers s)) dr' dw' ∧ ∀ id, list_view dr' id = v id.
Proof.
  intros [Hm Hc Hg] Hn (dr' & dw' & Hi & Hg' & Hv). exists dr', dw'. split; [|done].
  pose proof (si_rok _ _ _ _ Hm) as Hr. pose proof (lo_gen _ _ Hr).
  split; [done| |].
  - cbn. eapply Forall_impl; [exact Hc|]. intros rs. apply (cache_ok_next st); [done|lia|done].
  - rewrite Hg'. unfold gen_next. rewrite Z.mod_small by lia. lia.
Qed.

Lemma sys_inv_same n s dr dw (rng' : R) :
  sys_inv n s dr dw → sys_inv (n + 1) (mkAfcSys (sy_mem s) rng' (sy_readers s)) dr dw.
Proof. intros [? ? ?]. split; [done..|]. lia. Qed.

Lemma removes_none_view p d id : removes p (used d) = false → p id = true → list_view d id = None.
Proof.
  intros Hr Hp. unfold list_view. destruct (chan_at id (used d)) as [ch|] eqn:E; [|done].
  apply chan_at_elem in E as [Hin <-]. apply not_true_iff_false in Hr. destruct Hr.
  apply existsb_exists. exists ch. split; [by apply list_elem_of_In|done].
Qed.

(** ** One operation *)
Lemma sys_op_ok op n s dr dw c :
  sys_inv n s dr dw → (n < 2 ^ 32 - 1)%Z → shows dr c →
  ∃ dr' dw', sys_inv (n + 1) (sys_op st op s).2 dr' dw' ∧
    (sys_op st op s).1 = (map_op (st_max_chans st) op c).1 ∧
    shows dr' (map_op (st_max_chans st) op c).2.
Proof.
  intros Hs Hn Hc. pose proof (sv_mem _ _ _ _ Hs) as Hm. pose proof (si_rok _ _ _ _ Hm) as Hr.
  destruct op as [id keys|id| |p|i j]; cbn [sys_op map_op].
  - destruct (ws_add_ok false st id keys _ dr dw (sy_rng s) Hm) as (r & m' & rng' & -> & [(-> & Hroom & Hu)|(-> & -> & Hno & Hfull)]).
    + destruct (sys_inv_update n s dr dw m' rng' _ Hs Hn Hu) as (dr' & dw' & Hs' & Hv').
      assert (bt_contains id c || (length c <? st_max_chans st) = true) as ->.
      { rewrite (shows_length dr c) by done. destruct Hc as [_ Hv]. unfold bt_contains. rewrite <- Hv.
        destruct Hroom as [[k ->]|Hroom]; [done|]. by rewrite (proj2 (Nat.ltb_lt _ _) Hroom), orb_true_r. }
      exists dr', dw'. split_and!; [done..|]. by apply (shows_insert _ dr).
    + assert (bt_contains id c || (length c <? st_max_chans st) = false) as ->.
      { rewrite (shows_length dr c), Hfull, Nat.ltb_irrefl, orb_false_r by done.
        unfold bt_contains. destruct Hc as [_ Hv]. by rewrite <- Hv, Hno. }
      exists dr, dw. split_and!; [by apply sys_inv_same|done..].
  - destruct (ws_remove_ok false st id _ dr dw Hm) as (m' & -> & Hu). case_bool_decide as Hex.
    + destruct (sys_inv_update n s dr dw m' (sy_rng s) _ Hs Hn Hu) as (dr' & dw' & Hs' & Hv').
      exists dr', dw'. split_and!; [done..|]. by apply (shows_remove _ dr).
    + subst m'. exists dr, dw. split_and!; [by apply sys_inv_same|done|]. apply (shows_remove _ dr); [done|].
      intros id'. case_bool_decide as E; [|done]. subst id'. by apply eq_None_not_Some.
  - destruct (ws_remove_all_ok false st _ dr dw Hm) as (m' & -> & Hu).
    destruct (sys_inv_update n s dr dw m' (sy_rng s) _ Hs Hn Hu) as (dr' & dw' & Hs' & Hv').
    exists dr', dw'. split_and!; [done..|]. split; [apply bt_wf_nil|done].
  - destruct (ws_remove_if_ok false st (λ id x, (p id, x)) p _ dr dw tt Hm) as (m' & [] & dr' & dw' & -> & Hi' & Hv & Hg & _);
      [done|]. exists dr', dw'. split_and!; [|done|by apply (shows_filter _ dr)].
    pose proof (sv_gen _ _ _ _ Hs). pose proof (sv_readers _ _ _ _ Hs) as Hrs.
    pose proof (lo_gen _ _ Hr). split; [done|cbn|]; destruct (removes p (used dr)) eqn:Er; rewrite ?Hg.
    + eapply Forall_impl; [exact Hrs|]. intros rs. apply (cache_ok_next st); [done|lia|done].
    + eapply Forall_impl; [exact Hrs|]. intros rs. apply cache_ok_same; [done|].
      intros id. rewrite Hv. destruct (p id) eqn:Ep; [|done]. symmetry. by apply (removes_none_view p).
    + unfold gen_next. rewrite Z.mod_small by lia. lia.
    + lia.
  - destruct (sy_readers s !! i) as [rs|] eqn:Hi.
    2:{ exists dr, dw. split_and!; [|done..]. destruct Hs. split; [done..|cbn; lia]. }
    pose proof (sv_readers _ _ _ _ Hs) as Hrs.
    destruct (run_job_reads j _ dr dw rs Hm) as (m' & rs' & out & dr' & -> & Hi' & Hg' & Hv' & Hc');
      [by eapply Forall_lookup_1|].
    exists dr', dw. split_and!; [|done|]. 
    + split; [done| |rewrite Hg'; pose proof (sv_gen _ _ _ _ Hs); lia]. cbn.
      apply Forall_insert; [|done]. eapply Forall_impl; [exact Hrs|]. intros rs0. by apply cache_ok_same.
    + destruct Hc as [Hw Hv]. split; [done|]. intros id. by rewrite Hv'.
Qed.

Lemma sys_run_ok ops n s dr dw c :
  sys_inv n s dr dw → (n + Z.of_nat (length ops) < 2 ^ 32)%Z → shows dr c →
  ∃ dr' dw', sys_inv (n + Z.of_nat (length ops)) (sys_run st ops s).2 dr' dw' ∧
    (sys_run st ops s).1 = (map_run (st_max_chans st) ops c).1 ∧
    shows dr' (map_run (st_max_chans st) ops c).2.
Proof.
  revert n s dr dw c. induction ops as [|op ops IH]; intros n s dr dw c Hs Hn Hc; cbn [sys_run map_run].
  { exists dr, dw. cbn. by rewrite Z.add_0_r. }
  cbn [length] in Hn. destruct (sys_op_ok op n s dr dw c Hs) as (dr1 & dw1 & Hs1 & Hr1 & Hc1); [lia|done|].
  destruct (sys_op st op s) as [r s1]. destruct (map_op (st_max_chans st) op c) as [r' c1]. cbn [fst snd] in *.
  destruct (IH (n + 1)%Z s1 dr1 dw1 c1 Hs1) as (dr2 & dw2 & Hs2 & Hr2 & Hc2); [lia|done|].
  destruct (sys_run st ops s1) as [rs s2]. destruct (map_run (st_max_chans st) ops c1) as [rs' c2].
  cbn [fst snd] in *. exists dr2, dw2. split_and!; [|congruence|done].
  cbn [length]. replace (n + Z.of_nat (S (length ops)))%Z with (n + 1 + Z.of_nat (length ops))%Z by lia. done.
Qed.

Lemma sys_init_inv size aligned (rng : R) n :
  st_side_a st ≠ st_side_b st →
  ∃ dr dw, sys_inv 0 (sys_init st size aligned rng n) dr dw ∧ shows dr [].
Proof.
  intros Hne. exists (clist_data (chanlist_new (st_max_chans st))), (clist_data (chanlist_new (st_max_chans st))).
  split; [|split; [apply bt_wf_nil|done]]. split; [by apply shm_init_inv| |done].
  apply Forall_replicate, cache_ok_new.
Qed.

(** What a state reached by [ops] looks like. *)
Lemma sys_reached ops size aligned (rng : R) n :
  st_side_a st ≠ st_side_b st → (Z.of_nat (length ops) < 2 ^ 32)%Z →
  ∃ dr dw, sys_inv (Z.of_nat (length ops)) (sys_run st ops (sys_init st size aligned rng n)).2 dr dw ∧
    (sys_run st ops (sys_init st size aligned rng n)).1 = (map_run (st_max_chans st) ops []).1 ∧
    shows dr (map_run (st_max_chans st) ops []).2.
Proof.
  intros Hne Hn. destruct (sys_init_inv size aligned rng n Hne) as (dr & dw & Hs & Hc).
  destruct (sys_run_ok ops 0 _ dr dw [] Hs) as (dr' & dw' & ? & ? & ?); [lia|done|]. by exists dr', dw'.
Qed.

(** ** The memory in the middle of an operation *)
Lemma shm_view_side d m id : side_at (sm_read_off m) d m → shm_view m id = list_view d id.
Proof. intros Hd. unfold shm_view. unfold side_at in Hd. by rewrite Hd. Qed.

Lemma step_views m dr dw dw1 dr1 id :
  shm_inv st m dr dw →
  shm_view (step1 m dw1) id = list_view dr id ∧ shm_view (step2 m dw1) id = list_view dw1 id ∧
  shm_view (step3 m dw1 dr1) id = list_view dw1 id ∧ shm_view (step4 m dw1 dr1) id = list_view dw1 id.
Proof.
  intros Hi. destruct (step_sides st m dr dw dw1 dr1 Hi) as [[H1' H2'] [H3' H4']].
  split_and!; by apply shm_view_side.
Qed.

(** Old channels up to some step, new ones from there on. *)
Definition switches (old new : ChannelId → option (Directed RawKey RawKey)) (l : list SharedMem) : Prop :=
  ∃ before after, l = before ++ after ∧
    Forall (λ m, ∀ id, shm_view m id = old id) before ∧ Forall (λ m, ∀ id, shm_view m id = new id) after.

Lemma switches_steps m dr dw dw1 dr1 dr2 :
  shm_inv st m dr dw →
  switches (list_view dr) (shm_view (step4 m dw1 dr2))
    [step1 m dw1; step2 m dw1; step3 m dw1 dr1; step4 m dw1 dr2].
Proof.
  intros Hi. exists [step1 m dw1], [step2 m dw1; step3 m dw1 dr1; step4 m dw1 dr2].
  pose proof (λ d id, step_views m dr dw dw1 d id Hi) as Hv.
  split; [done|]. split; repeat constructor; intros id; destruct (Hv dr1 id) as (? & ? & ? & ?);
    destruct (Hv dr2 id) as (? & ? & ? & ?); congruence.
Qed.

Lemma switches_same m dr dw new : shm_inv st m dr dw → switches (list_view dr) new [m].
Proof.
  intros Hi. exists [m], []. split; [done|]. split; repeat constructor. intros id. by eapply shm_view_eq.
Qed.

Lemma op_steps_switch op s dr dw :
  shm_inv st (sy_mem s) dr dw →
  switches (list_view dr) (shm_view (sy_mem (sys_op st op s).2)) (op_steps st op (sy_mem s) (sy_rng s)).
Proof.
  destruct s as [m rng rds]. cbn [sy_mem sy_rng]. intros Hi.
  destruct op as [id keys|id| |p|i j]; cbn [op_steps sys_op sy_mem sy_rng sy_readers].
  - unfold ws_add. destruct (chan_init id keys rng) as [c1 rng1] eqn:E1.
    destruct (chan_init id keys rng1) as [c2 rng2] eqn:E2.
    destruct (chan_init_ok id keys rng) as (? & ? & ?). destruct (chan_init_ok id keys rng1) as (? & ? & ?).
    pose proof (chan_init_same id keys rng rng1). rewrite E1, E2 in *. cbn [fst] in *.
    destruct (add_steps false st id keys c1 c2 m dr dw)
      as [(-> & _)|(idx & grow & dw1 & dr1 & E3 & E4 & _)]; try done.
    + by apply (switches_same m dr dw).
    + rewrite E3, E4, (swap_ok st m dr dw dw1 Hi). by apply (switches_steps m dr dw).
  - destruct (remove_steps false st id m dr dw Hi) as [[_ ->]|(_ & idx & dw1 & dr1 & E1 & E2 & _)].
    + by apply (switches_same m dr dw).
    + unfold ws_remove. rewrite (M_bind_Ok _ _ _ _ _ E1), (M_bind_Ok _ _ _ _ _ E2), E1, E2.
      rewrite (swap_ok st m dr dw dw1 Hi). by apply (switches_steps m dr dw).
  - destruct (clear_steps false st m dr dw Hi) as (E1 & E2 & _).
    unfold ws_remove_all. rewrite (M_bind_Ok _ _ _ _ _ E1), (M_bind_Ok _ _ _ _ _ E2), E1, E2.
    rewrite (swap_ok st m dr dw _ Hi). by apply (switches_steps m dr dw).
  - destruct (ws_remove_if_ok false st (λ id (x : unit), (p id, x)) p m dr dw tt Hi)
      as (m' & [] & dr' & dw' & -> & Hi' & _ & _ & [[-> E1]|[-> [[] E1]]]); [done| |].
    + rewrite E1. by apply (switches_same m dr dw).
    + rewrite E1, (swap_ok st m dr dw _ Hi). cbn [snd fst].
      destruct (step_sides st m dr dw dr' dr' Hi) as [[Hrd _] _].
      destruct (side_remove_if_ok false st (λ id (x : unit), (p id, x)) p (sm_read_off m) (λ _, Ok true) (step2 m dr') dr tt)
        as (d' & [] & -> & _); try done; try apply Hi.
      by apply (switches_steps m dr dw).
  - exists [], []. by split_and!.
Qed.
End SysProofs.
