(* ===== verification/AfcMutex.v ===== *)
(** Fast channels: the mutex that guards each side of the shared memory
    ([mutex.rs]), as an interleaving of atomic steps of any number of threads.
    Both variants are modelled: the one on futexes and the spinlock. *)
From S2P Require Import Prelude.
Local Open Scope list_scope.
Local Open Scope nat_scope.

Definition MUTEX_UNLOCKED : Z := 0.
Definition MUTEX_LOCKED : Z := 1.
Definition MUTEX_SLEEPING : Z := 2.
Definition PASSIVE_SPIN : nat := 5.

(** * Threads *)
(** Where a thread is in [sys_lock]. *)
Inductive LockPc :=
  | LkCas                            (* the first [compare_exchange] *)
  | LkLoad (wait : Z) (n : nat)      (* the [load] of the [while], with [n] turns of the [for] to go *)
  | LkTry (wait : Z) (n : nat)       (* the [compare_exchange] of the [while] *)
  | LkSwap                           (* the [swap] after the [for] *)
  | LkWait                           (* the call of [futex_wait] *)
  | LkSleep.                         (* waiting in the kernel *)
#[export] Instance lock_pc_eq_dec : EqDecision LockPc.
Proof. solve_decision. Defined.

(** A thread updates the data under the lock: it reads the value through the
    guard, writes the new one and drops the guard. *)
Inductive ThreadPc (T : Type) :=
  | PcOut
  | PcLock (l : LockPc)
  | PcHeld                           (* has the guard *)
  | PcRead (v : T)                   (* has read [v] through it *)
  | PcUnlock                         (* the [swap] of [sys_unlock] *)
  | PcWake                           (* the call of [futex_wake] *)
  | PcBug.                           (* [sys_unlock] returned a [Bug] *)
Arguments PcOut {T}.
Arguments PcLock {T} _.
Arguments PcHeld {T}.
Arguments PcRead {T} _.
Arguments PcUnlock {T}.
Arguments PcWake {T}.
Arguments PcBug {T}.

Section Mutex.
Context {T : Type}.
(** [futex]: the variant on futexes; otherwise the spinlock. *)
Context (futex : bool).
Implicit Types (pc : ThreadPc T).

(** A thread with the updates it is still to make. *)
Record Thread := mkThread { th_pc : ThreadPc T; th_todo : list (T → T) }.

Record Mutex := mkMutex { mx_key : Z; mx_data : T; mx_threads : list Thread }.

Definition mutex_new (v : T) (todos : list (list (T → T))) : Mutex :=
  mkMutex MUTEX_UNLOCKED v (mkThread PcOut <$> todos).

(** * Steps *)
(** One atomic step of [sys_lock]: the new key, and where the thread is next;
    [None] when it has the lock. *)
Definition sys_lock_step (l : LockPc) (key : Z) : Z * option LockPc :=
  match l with
  | LkCas =>
    if (key =? MUTEX_UNLOCKED)%Z then (MUTEX_LOCKED, None)
    else (key, Some (if futex then LkLoad key PASSIVE_SPIN else LkCas))
  | LkLoad wait n =>
    (key, Some (if (key =? MUTEX_UNLOCKED)%Z then LkTry wait n
                else match n with S (S n) => LkLoad wait (S n) | _ => LkSwap end))
  | LkTry wait n =>
    if (key =? MUTEX_UNLOCKED)%Z then (wait, None) else (key, Some (LkLoad wait n))
  | LkSwap => (MUTEX_SLEEPING, if (key =? MUTEX_UNLOCKED)%Z then None else Some LkWait)
  | LkWait =>
    (key, Some (if (key =? MUTEX_SLEEPING)%Z then LkSleep else LkLoad MUTEX_SLEEPING PASSIVE_SPIN))
  | LkSleep => (key, Some LkSleep)
  end.

(** Where a thread is after the [swap] of [sys_unlock] returned [old]. *)
Definition sys_unlock_step (old : Z) : ThreadPc T :=
  if futex then
    if (old =? MUTEX_UNLOCKED)%Z then PcBug
    else if (old =? MUTEX_SLEEPING)%Z then PcWake
    else if (old =? MUTEX_LOCKED)%Z then PcOut
    else PcBug
  else PcOut.

Definition asleep (t : Thread) : bool := match th_pc t with PcLock LkSleep => true | _ => false end.

(** A thread that the kernel has let go returns from [futex_wait]. *)
Definition woken (t : Thread) : Thread := mkThread (PcLock (LkLoad MUTEX_SLEEPING PASSIVE_SPIN)) (th_todo t).

(** What a thread does next, without the kernel. *)
Definition thread_step (sleepers : bool) (th : Thread) (key : Z) (data : T) : option (Thread * Z * T) :=
  let 'mkThread pc todo := th in
  match pc, todo with
  | PcOut, _ :: _ => Some (mkThread (PcLock LkCas) todo, key, data)
  | PcOut, [] => None
  | PcLock LkSleep, _ => None
  | PcLock l, _ =>
    let '(key', next) := sys_lock_step l key in
    Some (mkThread (match next with Some l' => PcLock l' | None => PcHeld end) todo, key', data)
  | PcHeld, _ => Some (mkThread (PcRead data) todo, key, data)
  | PcRead v, f :: todo => Some (mkThread PcUnlock todo, key, f v)
  | PcRead _, [] => None
  | PcUnlock, _ => Some (mkThread (sys_unlock_step key) todo, MUTEX_UNLOCKED, data)
  | PcWake, _ => if sleepers then None else Some (mkThread PcOut todo, key, data)
  | PcBug, _ => None
  end.

(** A step of the system: of a thread, of a thread that wakes a sleeping one
    ([futex_wake] wakes one thread if any sleeps), or of the kernel, which may
    let a sleeping thread go at any time, as on a signal. *)
Inductive MutexLabel := StepRun (i : nat) | StepWake (i j : nat) | StepSignal (j : nat).

Definition mutex_step (l : MutexLabel) (s : Mutex) : option Mutex :=
  match l with
  | StepRun i =>
    th ← mx_threads s !! i;
    '(th', key, data) ← thread_step (existsb asleep (mx_threads s)) th (mx_key s) (mx_data s);
    Some (mkMutex key data (<[i := th']> (mx_threads s)))
  | StepWake i j =>
    th ← mx_threads s !! i;
    w ← mx_threads s !! j;
    match th_pc th with
    | PcWake =>
      if asleep w
      then Some (mkMutex (mx_key s) (mx_data s) (<[i := mkThread PcOut (th_todo th)]> (<[j := woken w]> (mx_threads s))))
      else None
    | _ => None
    end
  | StepSignal j =>
    w ← mx_threads s !! j;
    if asleep w then Some (mkMutex (mx_key s) (mx_data s) (<[j := woken w]> (mx_threads s))) else None
  end.

Fixpoint mutex_run (ls : list MutexLabel) (s : Mutex) : option Mutex :=
  match ls with [] => Some s | l :: ls => s ← mutex_step l s; mutex_run ls s end.

(** Every state that the threads can get to. *)
Inductive mutex_reaches : Mutex → Mutex → Prop :=
  | mr_refl s : mutex_reaches s s
  | mr_step s s1 s2 l : mutex_reaches s s1 → mutex_step l s1 = Some s2 → mutex_reaches s s2.

Lemma mutex_reaches_trans s s1 s2 : mutex_reaches s s1 → mutex_reaches s1 s2 → mutex_reaches s s2.
Proof. intros H1 H2. revert H1. induction H2; intros H1; [done|]. eapply mr_step; [|done]. auto. Qed.

Lemma mutex_run_reaches ls s s' : mutex_run ls s = Some s' → mutex_reaches s s'.
Proof.
  revert s. induction ls as [|l ls IH]; intros s Hr; cbn in Hr; [injection Hr as ->; constructor|].
  destruct (mutex_step l s) as [s1|] eqn:E; cbn in Hr; [|done].
  eapply mutex_reaches_trans; [|by apply IH]. eapply mr_step; [constructor|done].
Qed.

(** * Invariants *)
(** The thread is between [lock] and the end of the [swap] of [sys_unlock]. *)
Definition holds (t : Thread) : bool :=
  match th_pc t with PcHeld | PcRead _ | PcUnlock => true | _ => false end.

(** The thread will set the key to [MUTEX_SLEEPING], or wakes a sleeping one. *)
Definition vigilant (t : Thread) : bool :=
  match th_pc t with
  | PcWake => true
  | PcLock (LkLoad w _) | PcLock (LkTry w _) => (w =? MUTEX_SLEEPING)%Z
  | PcLock LkSwap | PcLock LkWait => true
  | _ => false
  end.

Definition pc_ok (data : T) (t : Thread) : Prop :=
  match th_pc t with
  | PcOut | PcUnlock | PcWake => True
  | PcLock (LkLoad w _) | PcLock (LkTry w _) =>
    th_todo t ≠ [] ∧ (w = MUTEX_LOCKED ∨ w = MUTEX_SLEEPING)
  | PcLock _ | PcHeld => th_todo t ≠ []
  | PcRead v => th_todo t ≠ [] ∧ v = data
  | PcBug => False
  end.

(** How many threads satisfy [p]. *)
Definition count (p : Thread → bool) (l : list Thread) : nat := length (List.filter p l).
#[local] Arguments count : simpl never.

Lemma count_cons p x l : count p (x :: l) = Nat.b2n (p x) + count p l.
Proof. unfold count. cbn. by destruct (p x). Qed.

Lemma count_insert (p : Thread → bool) i t t' l :
  l !! i = Some t → count p (<[i := t']> l) + Nat.b2n (p t) = count p l + Nat.b2n (p t').
Proof.
  revert i. induction l as [|x l IH]; intros [|i] Hi; try done; cbn in Hi.
  - injection Hi as ->. change (<[0 := t']> (t :: l)) with (t' :: l). rewrite !count_cons. lia.
  - specialize (IH i Hi). change (<[S i := t']> (x :: l)) with (x :: <[i := t']> l).
    rewrite !count_cons. lia.
Qed.

Lemma count_zero p l : count p l = 0 ↔ existsb p l = false.
Proof.
  induction l as [|x l IH]; [done|]. rewrite count_cons. cbn. destruct (p x); cbn; [by split|done].
Qed.

Lemma count_none p l : count p l = 0 ↔ Forall (λ t, p t = false) l.
Proof.
  induction l as [|x l IH]; [by split; [constructor|]|]. rewrite count_cons, Forall_cons, <- IH.
  destruct (p x); cbn; [|tauto]. split; [done|by intros [? _]].
Qed.

Lemma count_pos (p : Thread → bool) i t l : l !! i = Some t → p t = true → 0 < count p l.
Proof.
  revert i. induction l as [|x l IH]; intros [|i] Hi Hp; try done; cbn in Hi; rewrite count_cons.
  - injection Hi as ->. rewrite Hp. cbn. lia.
  - specialize (IH i Hi Hp). lia.
Qed.

Lemma count_exists (p : Thread → bool) l : 0 < count p l → ∃ i t, l !! i = Some t ∧ p t = true.
Proof.
  induction l as [|x l IH]; [by inversion 1|]. rewrite count_cons. destruct (p x) eqn:E; cbn; intros Hc.
  - by exists 0, x.
  - destruct (IH Hc) as (i & t & ? & ?). by exists (S i), t.
Qed.

Lemma count_one (p : Thread → bool) i j t t' l :
  count p l ≤ 1 → l !! i = Some t → l !! j = Some t' → p t = true → p t' = true → i = j.
Proof.
  revert i j. induction l as [|x l IH]; intros [|i] [|j] Hc Hi Hj Hp Hp'; try done;
    cbn in Hi, Hj; rewrite count_cons in Hc.
  - injection Hi as ->. rewrite Hp in Hc. pose proof (count_pos p j t' l Hj Hp'). cbn in Hc. lia.
  - injection Hj as ->. rewrite Hp' in Hc. pose proof (count_pos p i t l Hi Hp). cbn in Hc. lia.
  - f_equal. apply (IH i j); try done. lia.
Qed.

(** The threads of the spinlock. *)
Definition spins (t : Thread) : Prop :=
  match th_pc t with PcLock LkCas => True | PcLock _ | PcWake => False | _ => True end.

Record mutex_inv (s : Mutex) : Prop := {
  mi_key : mx_key s = MUTEX_UNLOCKED ∨ mx_key s = MUTEX_LOCKED ∨ mx_key s = MUTEX_SLEEPING;
  mi_pc : Forall (pc_ok (mx_data s)) (mx_threads s);
  mi_held : count holds (mx_threads s) = if (mx_key s =? MUTEX_UNLOCKED)%Z then 0 else 1;
  mi_wake : 0 < count asleep (mx_threads s) →
            mx_key s = MUTEX_SLEEPING ∨ 0 < count vigilant (mx_threads s);
  mi_spin : futex = false → mx_key s ≠ MUTEX_SLEEPING ∧ Forall spins (mx_threads s)
}.

Lemma mutex_new_inv v todos : mutex_inv (mutex_new v todos).
Proof.
  assert (∀ p, p (mkThread PcOut []) = false → (∀ td, p (mkThread PcOut td) = false) →
    count p (mkThread PcOut <$> todos) = 0) as Hno.
  { intros p _ Hp. induction todos as [|td l IH]; [done|]. rewrite fmap_cons, count_cons, Hp. done. }
  split; cbn.
  - by left.
  - apply Forall_fmap, Forall_true. done.
  - by apply Hno.
  - rewrite Hno by done. lia.
  - intros _. split; [done|]. by apply Forall_fmap, Forall_true.
Qed.

(** A waiting thread that the kernel lets go is vigilant. *)
Lemma woken_inv s j w :
  mutex_inv s → mx_threads s !! j = Some w → asleep w = true →
  mutex_inv (mkMutex (mx_key s) (mx_data s) (<[j := woken w]> (mx_threads s))).
Proof.
  intros [Hk Hpc Hh Hw Hsp] Hj Ha. unfold asleep in Ha.
  destruct w as [pc todo]. destruct pc as [|[]| | | | |]; try done.
  pose proof (Forall_lookup_1 _ _ _ _ Hpc Hj) as Hok. split; cbn; [done| | | |].
  - apply Forall_insert; [done|]. split; [done|by right].
  - pose proof (count_insert holds j _ (woken (mkThread (PcLock LkSleep) todo)) _ Hj) as E. cbn in E. lia.
  - intros _. right. eapply count_pos; [apply list_lookup_insert_eq; by eapply lookup_lt_Some|done].
  - intros [_ Hall]%Hsp. by pose proof (Forall_lookup_1 _ _ _ _ Hall Hj).
Qed.

(** What a step of one thread must ensure. *)
Lemma put_thread_inv s i th th' key data :
  mutex_inv s → mx_threads s !! i = Some th →
  (key = MUTEX_UNLOCKED ∨ key = MUTEX_LOCKED ∨ key = MUTEX_SLEEPING) → pc_ok data th' →
  (data = mx_data s ∨ holds th = true) →
  Nat.b2n (holds th') + (if (mx_key s =? MUTEX_UNLOCKED)%Z then 0 else 1)
    = Nat.b2n (holds th) + (if (key =? MUTEX_UNLOCKED)%Z then 0 else 1) →
  (asleep th' = true → key = MUTEX_SLEEPING) →
  (mx_key s = MUTEX_SLEEPING ∨ vigilant th = true →
   key = MUTEX_SLEEPING ∨ vigilant th' = true ∨ count asleep (mx_threads s) = 0 ∨
   ∃ j t, j ≠ i ∧ mx_threads s !! j = Some t ∧ vigilant t = true) →
  (futex = false → key ≠ MUTEX_SLEEPING ∧ spins th') →
  mutex_inv (mkMutex key data (<[i := th']> (mx_threads s))).
Proof.
  intros [Hk Hpc Hh Hw Hsp] Hi Hk' Hok Hd Hc Ha Hv Hsp'. pose proof (lookup_lt_Some _ _ _ Hi) as Hlt.
  split; cbn; [done| | | |].
  - apply Forall_lookup. intros j t Hj. destruct (decide (j = i)) as [->|Hne].
    { rewrite list_lookup_insert_eq in Hj by done. by injection Hj as <-. }
    rewrite list_lookup_insert_ne in Hj by done. pose proof (Forall_lookup_1 _ _ _ _ Hpc Hj) as Hok'.
    destruct Hd as [->|Hhold]; [done|]. destruct t as [pc todo]. destruct pc; try done.
    destruct Hne. assert (count holds (mx_threads s) ≤ 1) as Hone by (rewrite Hh; destruct (_ =? _)%Z; lia).
    by apply (count_one holds j i (mkThread (PcRead v) todo) th (mx_threads s) Hone).
  - pose proof (count_insert holds i th th' _ Hi). lia.
  - intros Hs. destruct (asleep th') eqn:Eas; [left; by apply Ha|].
    pose proof (count_insert asleep i th th' _ Hi) as E. rewrite Eas in E. cbn in E.
    assert (mx_key s = MUTEX_SLEEPING ∨ vigilant th = true ∨ 0 < count vigilant (<[i := th']> (mx_threads s)))
      as Hcase.
    { destruct Hw as [?|(j & t & Hj & Ht)%count_exists]; [lia|by left|right].
      destruct (decide (j = i)) as [->|Hne]; [left; congruence|right].
      eapply (count_pos _ j); [|exact Ht]. by rewrite list_lookup_insert_ne. }
    destruct Hcase as [Hcase|[Hcase|Hcase]]; [| |by right].
    all: destruct Hv as [->|[Hvig|[Hno|(j & t & Hne & Hj & Ht)]]]; [tauto|by left| |lia|].
    all: right.
    1,3: eapply (count_pos _ i); [by apply list_lookup_insert_eq|done].
    all: eapply (count_pos _ j); [|exact Ht]; by rewrite list_lookup_insert_ne.
  - intros Hf. destruct (Hsp' Hf) as [? ?], (Hsp Hf) as [_ ?]. split; [done|]. by apply Forall_insert.
Qed.

Lemma run_inv s i th th' key data :
  mutex_inv s → mx_threads s !! i = Some th →
  thread_step (existsb asleep (mx_threads s)) th (mx_key s) (mx_data s) = Some (th', key, data) →
  mutex_inv (mkMutex key data (<[i := th']> (mx_threads s))).
Proof.
  intros Hs Hi Hstep. pose proof (Forall_lookup_1 _ _ _ _ (mi_pc _ Hs) Hi) as Hok.
  assert (holds th = true → mx_key s ≠ MUTEX_UNLOCKED) as Hhold.
  { intros Hh E. pose proof (mi_held _ Hs) as Hc. rewrite E in Hc. cbn in Hc.
    pose proof (count_pos _ _ _ _ Hi Hh). lia. }
  assert (futex = false → mx_key s ≠ MUTEX_SLEEPING ∧ spins th) as Hspin.
  { intros Hf. destruct (mi_spin _ Hs Hf) as [? Hall]. split; [done|]. exact (Forall_lookup_1 _ _ _ _ Hall Hi). }
  destruct th as [pc todo]. unfold pc_ok in Hok. unfold spins in Hspin. cbn [th_pc th_todo] in Hok, Hspin.
  assert (futex = true ∨ futex = false) as [Ef|Ef] by (destruct futex; tauto).
  all: try (specialize (Hspin Ef) as [Hk2 Hspin]).
  all: destruct (mi_key _ Hs) as [Hk|[Hk|Hk]]; [rewrite Hk in *..|];
    destruct pc as [|[|w n|w n| | |]| |v| | |], todo as [|f todo]; cbn in Hstep, Hhold; try done;
    try (destruct (existsb asleep (mx_threads s)) eqn:Esl; [done|apply count_zero in Esl]);
    try (match type of Hok with _ ∧ (_ ∨ _) => destruct Hok as [Hok [-> | ->]] end); rewrite ?Hk in Hstep;
    unfold sys_unlock_step in Hstep; try (destruct n as [|[|n]]); rewrite ?Ef in Hstep; cbn in Hstep;
    injection Hstep as <- <- <-;
    (eapply put_thread_inv; [exact Hs|exact Hi|..]; rewrite ?Hk, ?Ef; cbn; try done; try tauto; try (intros [?|?]; done)).
Qed.

Lemma mutex_step_inv l s s' : mutex_inv s → mutex_step l s = Some s' → mutex_inv s'.
Proof.
  intros Hs Hstep. destruct l as [i|i j|j]; cbn in Hstep.
  - destruct (mx_threads s !! i) as [th|] eqn:Hi; cbn in Hstep; [|done].
    destruct (thread_step _ th _ _) as [[[th' key] data]|] eqn:E; cbn in Hstep; [|done].
    injection Hstep as <-. by apply (run_inv s i th).
  - destruct (mx_threads s !! i) as [th|] eqn:Hi; cbn in Hstep; [|done].
    destruct (mx_threads s !! j) as [w|] eqn:Hj; cbn in Hstep; [|done].
    destruct th as [[] todo]; try done. cbn in Hstep. destruct (asleep w) eqn:Ew; [|done]. injection Hstep as <-.
    assert (i ≠ j) as Hne by (intros ->; rewrite Hi in Hj; by injection Hj as <-).
    pose proof (woken_inv s j w Hs Hj Ew) as Hs1.
    assert (<[j := woken w]> (mx_threads s) !! i = Some (mkThread PcWake todo)) as Hi1
      by by rewrite list_lookup_insert_ne.
    apply (put_thread_inv _ i (mkThread PcWake todo) (mkThread PcOut todo) (mx_key s) (mx_data s) Hs1 Hi1);
      cbn [mx_key mx_data mx_threads]; try done; [apply Hs|by left| |].
    + intros _. right; right; right. exists j, (woken w). split_and!; [done|by eapply list_lookup_insert_eq, lookup_lt_Some|done].
    + intros Hf. split; [by apply (mi_spin _ Hs Hf)|done].
  - destruct (mx_threads s !! j) as [w|] eqn:Hj; cbn in Hstep; [|done].
    destruct (asleep w) eqn:Ew; [|done]. injection Hstep as <-. by apply woken_inv.
Qed.

Lemma mutex_reaches_inv s s' : mutex_reaches s s' → mutex_inv s → mutex_inv s'.
Proof. induction 1; [done|]. intros Hs. eapply mutex_step_inv; [|done]. auto. Qed.

(** * The updates *)
(** The updates that the threads are still to make. *)
Definition pending (s : Mutex) : list (T → T) := concat (th_todo <$> mx_threads s).
Definition apply_all (fs : list (T → T)) (v : T) : T := fold_left (λ d f, f d) fs v.

Lemma todo_insert i th th' (l : list Thread) :
  l !! i = Some th → th_todo th' = th_todo th → th_todo <$> <[i := th']> l = th_todo <$> l.
Proof.
  intros Hi E. rewrite list_fmap_insert, E. apply list_insert_id. by rewrite list_lookup_fmap, Hi.
Qed.

Lemma todo_done i th f todo pc (l : list Thread) :
  l !! i = Some th → th_todo th = f :: todo →
  concat (th_todo <$> l) ≡ₚ f :: concat (th_todo <$> <[i := mkThread pc todo]> l).
Proof.
  revert i. induction l as [|x l IH]; intros [|i] Hi E; try done; cbn in Hi.
  - injection Hi as ->. change (<[0 := mkThread pc todo]> (th :: l)) with (mkThread pc todo :: l).
    rewrite !fmap_cons. cbn [concat th_todo]. by rewrite E.
  - change (<[S i := mkThread pc todo]> (x :: l)) with (x :: <[i := mkThread pc todo]> l).
    rewrite !fmap_cons. cbn [concat]. rewrite (IH i Hi E). symmetry. apply Permutation_middle.
Qed.

Lemma pending_new v todos : pending (mutex_new v todos) = concat todos.
Proof.
  unfold pending, mutex_new. cbn [mx_threads]. f_equal. induction todos as [|td l IH]; [done|].
  by rewrite !fmap_cons, IH.
Qed.
Lemma pending_done s :
  Forall (λ th, th_pc th = PcOut ∧ th_todo th = []) (mx_threads s) → pending s = [].
Proof. unfold pending. induction 1 as [|th l [_ E] _ IH]; [done|]. rewrite fmap_cons. cbn [concat]. by rewrite E. Qed.

(** A step makes one update or none. *)
Lemma mutex_step_updates l s s' :
  mutex_inv s → mutex_step l s = Some s' →
  (mx_data s' = mx_data s ∧ pending s' = pending s) ∨
  ∃ f, mx_data s' = f (mx_data s) ∧ pending s ≡ₚ f :: pending s'.
Proof.
  intros Hs Hstep. destruct l as [i|i j|j]; cbn in Hstep.
  - destruct (mx_threads s !! i) as [th|] eqn:Hi; cbn in Hstep; [|done].
    pose proof (Forall_lookup_1 _ _ _ _ (mi_pc _ Hs) Hi) as Hok.
    destruct (thread_step _ th _ _) as [[[th' key] data]|] eqn:E; cbn in Hstep; [|done].
    injection Hstep as <-. unfold pending. cbn [mx_data mx_threads].
    destruct th as [pc todo]. destruct pc as [|l| |v| | |], todo as [|f todo]; cbn in E; try done.
    all: try (destruct l; try done); try (destruct (sys_lock_step _ _) as [k' nx]);
      try (destruct (existsb _ _); [done|]); injection E as <- <- <-.
    all: try (left; split; [done|]; by rewrite (todo_insert i _ _ _ Hi)).
    destruct Hok as [_ ->]. right. exists f. split; [done|]. by eapply todo_done.
  - destruct (mx_threads s !! i) as [th|] eqn:Hi; cbn in Hstep; [|done].
    destruct (mx_threads s !! j) as [w|] eqn:Hj; cbn in Hstep; [|done].
    destruct th as [[] todo]; try done. cbn in Hstep. destruct (asleep w) eqn:Ew; [|done]. injection Hstep as <-.
    assert (i ≠ j) as Hne by (intros ->; rewrite Hi in Hj; by injection Hj as <-).
    left. split; [done|]. unfold pending. cbn [mx_threads].
    rewrite (todo_insert i (mkThread PcWake todo)), (todo_insert j w) by (try done; by rewrite list_lookup_insert_ne).
    done.
  - destruct (mx_threads s !! j) as [w|] eqn:Hj; cbn in Hstep; [|done].
    destruct (asleep w) eqn:Ew; [|done]. injection Hstep as <-.
    left. split; [done|]. unfold pending. cbn [mx_threads]. by rewrite (todo_insert j w).
Qed.

Lemma mutex_reaches_updates s s' :
  mutex_reaches s s' → mutex_inv s →
  ∃ fs, mx_data s' = apply_all fs (mx_data s) ∧ pending s ≡ₚ fs ++ pending s'.
Proof.
  induction 1 as [s|s s1 s2 l Hr IH Hstep]; intros Hs; [by exists []|].
  destruct (IH Hs) as (fs & Hd & Hp).
  destruct (mutex_step_updates l s1 s2) as [[-> ->]|(f & -> & Hp')]; [by eapply mutex_reaches_inv|done|by exists fs|].
  exists (fs ++ [f]). split.
  - unfold apply_all in *. rewrite fold_left_app. cbn. by rewrite Hd.
  - by rewrite Hp, Hp', <- app_assoc.
Qed.

(** * Waiting threads *)
(** [s'] can be reached from [s] by steps of the threads alone. *)
Definition quiet (l : MutexLabel) : bool := match l with StepSignal _ => false | _ => true end.
Definition can (s s' : Mutex) : Prop := ∃ ls, forallb quiet ls = true ∧ mutex_run ls s = Some s'.

Lemma can_refl s : can s s.
Proof. by exists []. Qed.
Lemma can_step l s s1 s2 : quiet l = true → mutex_step l s = Some s1 → can s1 s2 → can s s2.
Proof. intros Hq Hl (ls & Hls & Hr). exists (l :: ls). cbn. by rewrite Hq, Hl. Qed.
Lemma can_trans s s1 s2 : can s s1 → can s1 s2 → can s s2.
Proof.
  intros (ls & Hls & Hr) Hc. revert s Hr. induction ls as [|l ls IH]; intros s Hr; cbn in Hls, Hr.
  { by injection Hr as ->. }
  apply andb_true_iff in Hls as [Hq Hls]. destruct (mutex_step l s) as [s'|] eqn:E; cbn in Hr; [|done].
  eapply can_step; [done..|]. by apply IH.
Qed.
Lemma can_inv s s' : can s s' → mutex_inv s → mutex_inv s'.
Proof.
  intros (ls & _ & Hr). revert s Hr. induction ls as [|l ls IH]; intros s Hr Hs; cbn in Hr.
  { by injection Hr as <-. }
  destruct (mutex_step l s) as [s1|] eqn:E; cbn in Hr; [|done]. apply (IH s1 Hr). by eapply mutex_step_inv.
Qed.

Lemma run_once s i th th' key data s2 :
  mx_threads s !! i = Some th →
  thread_step (existsb asleep (mx_threads s)) th (mx_key s) (mx_data s) = Some (th', key, data) →
  can (mkMutex key data (<[i := th']> (mx_threads s))) s2 → can s s2.
Proof. intros Hi E. apply (can_step (StepRun i)); [done|]. cbn. rewrite Hi. cbn. by rewrite E. Qed.

(** [s'] is [s] but for thread [i]. *)
Definition only (i : nat) (s s' : Mutex) : Prop := ∀ j, j ≠ i → mx_threads s' !! j = mx_threads s !! j.

Lemma only_insert i th key data (s s' : Mutex) :
  only i (mkMutex key data (<[i := th]> (mx_threads s))) s' → only i s s'.
Proof. intros Ho j Hj. rewrite Ho by done. cbn [mx_threads]. by rewrite list_lookup_insert_ne. Qed.

(** A thread that holds the lock can release it. *)
Definition releases (i : nat) (s : Mutex) : Prop :=
  ∃ s' th', can s s' ∧ only i s s' ∧ mx_key s' = MUTEX_UNLOCKED ∧ mx_threads s' !! i = Some th' ∧
    (futex = true → mx_key s = MUTEX_SLEEPING → th_pc th' = PcWake).

Lemma releases_step s i th th' data :
  mx_threads s !! i = Some th →
  thread_step (existsb asleep (mx_threads s)) th (mx_key s) (mx_data s) = Some (th', mx_key s, data) →
  releases i (mkMutex (mx_key s) data (<[i := th']> (mx_threads s))) → releases i s.
Proof.
  intros Hi E (s' & th2 & Hc & Ho & Hk & Hl & Hw). exists s', th2.
  split_and!; [by eapply run_once|by eapply only_insert|done..].
Qed.

Lemma holder_releases s i th :
  mutex_inv s → mx_threads s !! i = Some th → holds th = true → releases i s.
Proof.
  intros Hs Hi Hh. pose proof (Forall_lookup_1 _ _ _ _ (mi_pc _ Hs) Hi) as Hok.
  pose proof (lookup_lt_Some _ _ _ Hi) as Hlt.
  assert (∀ s0 todo, i < length (mx_threads s0) → mx_threads s0 !! i = Some (mkThread PcUnlock todo) →
    releases i s0) as Hlast.
  { intros s0 todo Hlt0 Hi0. eexists _, _. split.
    { eapply run_once; [done|reflexivity|apply can_refl]. }
    split; [by eapply only_insert|]. split; [done|]. cbn [mx_threads].
    split; [by apply list_lookup_insert_eq|]. cbn [th_pc]. intros Hf Hk. unfold sys_unlock_step. by rewrite Hf, Hk. }
  assert (∀ s0 v f todo, i < length (mx_threads s0) → mx_threads s0 !! i = Some (mkThread (PcRead v) (f :: todo)) →
    releases i s0) as Hread.
  { intros s0 v f todo Hlt0 Hi0. eapply releases_step; [done|reflexivity|]. eapply Hlast; cbn [mx_threads].
    - by rewrite length_insert.
    - by apply list_lookup_insert_eq. }
  destruct th as [pc todo]. destruct pc; try done.
  - destruct todo as [|f todo]; [done|]. eapply releases_step; [done|reflexivity|]. eapply Hread; cbn [mx_threads].
    + by rewrite length_insert.
    + by apply list_lookup_insert_eq.
  - destruct todo as [|f todo]; [by destruct Hok|]. by eapply Hread.
  - by eapply Hlast.
Qed.

(** A thread that is awake can take a lock that is free. *)
Definition acquires (i : nat) (s : Mutex) (th : Thread) : Prop :=
  ∃ s', can s s' ∧ only i s s' ∧ mx_threads s' !! i = Some (mkThread PcHeld (th_todo th)) ∧
    (vigilant th = true → mx_key s' = MUTEX_SLEEPING).

Lemma acquires_step s i th th' :
  mx_threads s !! i = Some th → th_todo th' = th_todo th → (vigilant th = true → vigilant th' = true) →
  thread_step (existsb asleep (mx_threads s)) th (mx_key s) (mx_data s) = Some (th', mx_key s, mx_data s) →
  acquires i (mkMutex (mx_key s) (mx_data s) (<[i := th']> (mx_threads s))) th' → acquires i s th.
Proof.
  intros Hi Ht Hv E (s' & Hc & Ho & Hl & Hk). exists s'. rewrite <- Ht.
  split_and!; [by eapply run_once|by eapply only_insert|done|auto].
Qed.

Lemma awake_acquires s i l todo :
  mx_key s = MUTEX_UNLOCKED → mx_threads s !! i = Some (mkThread (PcLock l) todo) → l ≠ LkSleep →
  acquires i s (mkThread (PcLock l) todo).
Proof.
  assert (∀ s0 l0 key, i < length (mx_threads s0) → mx_threads s0 !! i = Some (mkThread (PcLock l0) todo) → l0 ≠ LkSleep →
    sys_lock_step l0 (mx_key s0) = (key, None) →
    (vigilant (mkThread (PcLock l0) todo) = true → key = MUTEX_SLEEPING) →
    acquires i s0 (mkThread (PcLock l0) todo)) as Hlast.
  { intros s0 l0 key Hlt0 Hi0 Hne E Hv. eexists. split.
    { eapply (run_once _ i _ (mkThread PcHeld todo) key (mx_data s0)); [done| |apply can_refl]. cbn [thread_step]. destruct l0; try done; by rewrite E. }
    split; [by eapply only_insert|]. split; [by apply list_lookup_insert_eq|done]. }
  assert (∀ s0 w n, mx_key s0 = MUTEX_UNLOCKED → i < length (mx_threads s0) →
    mx_threads s0 !! i = Some (mkThread (PcLock (LkTry w n)) todo) →
    acquires i s0 (mkThread (PcLock (LkTry w n)) todo)) as Htry.
  { intros s0 w n Hk Hlt0 Hi0. eapply (Hlast _ _ w); [done..|cbn; by rewrite Hk|]. apply Z.eqb_eq. }
  assert (∀ s0 w n, mx_key s0 = MUTEX_UNLOCKED → i < length (mx_threads s0) →
    mx_threads s0 !! i = Some (mkThread (PcLock (LkLoad w n)) todo) →
    acquires i s0 (mkThread (PcLock (LkLoad w n)) todo)) as Hload.
  { intros s0 w n Hk Hlt0 Hi0. eapply (acquires_step _ _ _ (mkThread (PcLock (LkTry w n)) todo)); [done..| |].
    - cbn. by rewrite Hk.
    - apply Htry; cbn [mx_threads mx_key]; [done|by rewrite length_insert|by apply list_lookup_insert_eq]. }
  intros Hk Hi Hne. pose proof (lookup_lt_Some _ _ _ Hi) as Hlt. destruct l as [|w n|w n| | |]; try done.
  - eapply (Hlast _ _ MUTEX_LOCKED); [done..|cbn; by rewrite Hk|done].
  - by apply Hload.
  - by apply Htry.
  - eapply (Hlast _ _ MUTEX_SLEEPING); [done..|cbn; by rewrite Hk|done].
  - eapply (acquires_step _ _ _ (mkThread (PcLock (LkLoad MUTEX_SLEEPING PASSIVE_SPIN)) todo)); [done..| |].
    + cbn. by rewrite Hk.
    + apply Hload; cbn [mx_threads mx_key]; [done|by rewrite length_insert|by apply list_lookup_insert_eq].
Qed.

(** A thread that is asleep can be woken when the lock is free. *)
Lemma sleeper_wakes s i todo :
  mutex_inv s → mx_key s = MUTEX_UNLOCKED → mx_threads s !! i = Some (mkThread (PcLock LkSleep) todo) →
  ∃ s', can s s' ∧ mx_key s' = MUTEX_UNLOCKED ∧
    mx_threads s' !! i = Some (woken (mkThread (PcLock LkSleep) todo)).
Proof.
  intros Hs Hk Hi. set (th := mkThread (PcLock LkSleep) todo).
  assert (∀ s0 j todo', mx_key s0 = MUTEX_UNLOCKED → mx_threads s0 !! i = Some th →
    mx_threads s0 !! j = Some (mkThread PcWake todo') →
    ∃ s', can s0 s' ∧ mx_key s' = MUTEX_UNLOCKED ∧ mx_threads s' !! i = Some (woken th)) as Hwake.
  { intros s0 j todo' Hk0 Hi0 Hj0. eexists. split.
    { eapply (can_step (StepWake j i)); [done| |apply can_refl]. cbn. rewrite Hi0, Hj0. reflexivity. }
    split; [done|]. cbn [mx_threads]. assert (j ≠ i) by (intros ->; unfold th in *; congruence).
    rewrite list_lookup_insert_ne by done. by eapply list_lookup_insert_eq, lookup_lt_Some. }
  destruct (mi_wake _ Hs) as [E|Hvig]; [by eapply (count_pos _ i)|by rewrite Hk in E|].
  apply count_exists in Hvig as (j & [pc todo'] & Hj & Hv).
  assert (futex = true) as Hf.
  { apply not_false_iff_true. intros Hf. destruct (mi_spin _ Hs Hf) as [_ Hall].
    by pose proof (Forall_lookup_1 _ _ _ _ Hall Hi). }
  destruct pc as [|l| | | | |]; try done; [|by eapply Hwake].
  assert (l ≠ LkSleep) as Hl by (intros ->; done). assert (i ≠ j) as Hne by (intros ->; congruence).
  destruct (awake_acquires s j l todo' Hk Hj Hl) as (s1 & Hc1 & Ho1 & Hj1 & Hk1). specialize (Hk1 Hv).
  assert (mutex_inv s1) as Hs1 by exact (can_inv _ _ Hc1 Hs).
  destruct (holder_releases s1 j _ Hs1 Hj1) as (s2 & th2 & Hc2 & Ho2 & Hk2 & Hj2 & Hw2); [done|].
  destruct th2 as [pc2 todo2]. specialize (Hw2 Hf Hk1). cbn in Hw2. subst pc2.
  destruct (Hwake s2 j todo2) as (s3 & Hc3 & ?); [done|by rewrite Ho2, Ho1|done|].
  exists s3. split; [|done]. exact (can_trans _ _ _ Hc1 (can_trans _ _ _ Hc2 Hc3)).
Qed.

Lemma waiter_acquires s i l todo :
  mutex_inv s → mx_threads s !! i = Some (mkThread (PcLock l) todo) →
  ∃ s', can s s' ∧ mx_threads s' !! i = Some (mkThread PcHeld todo).
Proof.
  intros Hs Hi.
  assert (∃ s1, can s s1 ∧ mx_key s1 = MUTEX_UNLOCKED ∧ mx_threads s1 !! i = Some (mkThread (PcLock l) todo))
    as (s1 & Hc1 & Hk1 & Hi1).
  { destruct (Z.eq_dec (mx_key s) MUTEX_UNLOCKED) as [Hk|Hk]; [exists s; split; [apply can_refl|done]|].
    pose proof (mi_held _ Hs) as Hh. apply Z.eqb_neq in Hk. rewrite Hk in Hh.
    destruct (count_exists holds (mx_threads s)) as (j & th & Hj & Hth); [lia|].
    destruct (holder_releases s j th Hs Hj Hth) as (s' & th' & Hc & Ho & Hk' & _).
    exists s'. split; [done|]. split; [done|]. rewrite Ho; [done|]. intros ->. rewrite Hi in Hj. by injection Hj as <-. }
  assert (mutex_inv s1) as Hs1 by exact (can_inv _ _ Hc1 Hs).
  destruct (decide (l = LkSleep)) as [->|Hl].
  - destruct (sleeper_wakes s1 i todo Hs1 Hk1 Hi1) as (s2 & Hc2 & Hk2 & Hi2).
    destruct (awake_acquires s2 i _ todo Hk2 Hi2) as (s3 & Hc3 & _ & Hi3 & _); [done|].
    exists s3. split; [|done]. exact (can_trans _ _ _ Hc1 (can_trans _ _ _ Hc2 Hc3)).
  - destruct (awake_acquires s1 i l todo Hk1 Hi1 Hl) as (s3 & Hc3 & _ & Hi3 & _).
    exists s3. split; [|done]. by eapply can_trans.
Qed.

(** A system in which no thread can take a step is done. *)
Lemma stuck_done s :
  mutex_inv s → (∀ l, quiet l = true → mutex_step l s = None) →
  Forall (λ th, th_pc th = PcOut ∧ th_todo th = []) (mx_threads s).
Proof.
  intros Hs Hstuck. apply Forall_lookup. intros i [pc todo] Hi.
  pose proof (Forall_lookup_1 _ _ _ _ (mi_pc _ Hs) Hi) as Hok.
  assert (∀ s', can s s' → s' = s) as Hno.
  { intros s' (ls & Hq & Hr). destruct ls as [|l ls]; [by injection Hr as <-|]. cbn in Hq, Hr.
    apply andb_true_iff in Hq as [Hq _]. by rewrite (Hstuck l Hq) in Hr. }
  pose proof (Hstuck (StepRun i) eq_refl) as Hrun. cbn in Hrun. rewrite Hi in Hrun. cbn in Hrun.
  destruct pc as [|l| |v| | |]; cbn in Hok.
  - by destruct todo.
  - destruct (waiter_acquires s i l todo Hs Hi) as (s' & Hc & Hi'). apply Hno in Hc as ->. congruence.
  - done.
  - by destruct todo; [destruct Hok|].
  - done.
  - destruct (existsb asleep (mx_threads s)) eqn:E; [|done].
    destruct (count asleep (mx_threads s)) eqn:Ec; [apply count_zero in Ec; congruence|].
    destruct (count_exists asleep (mx_threads s)) as (j & w & Hj & Hw); [lia|].
    pose proof (Hstuck (StepWake i j) eq_refl) as Hwk. cbn in Hwk. rewrite Hi, Hj in Hwk. cbn in Hwk. by rewrite Hw in Hwk.
  - done.
Qed.
End Mutex.
