(* ===== verification/AfcChannels.v ===== *)
(** Fast channels: how two users come to share the keys of a channel
    ([aranya-crypto/src/afc/bidi.rs], [afc/uni.rs]; [aranya-afc-util/src/
    ffi.rs], [handler.rs], [transform.rs]; [aranya-crypto/src/keystore]). The
    author's policy creates a channel and leaves a secret in the key store;
    both users' handlers then derive the keys, the author from the secret, the
    peer from the encapsulation that the author sent. *)
From S2P Require Import Prelude Collections Bytes PolicyData AfcTypes AfcClient AfcShm.
Local Open Scope string_scope.
Local Open Scope list_scope.
Local Open Scope nat_scope.

(** * The key encapsulation of HPKE *)
(** The keys and contexts of another crate. *)
Class HpkeKem := {
  DecapKey : Type;
  EncapKey : Type;
  KemEncap : Type;
  SendCtx : Type;
  RecvCtx : Type;
  decap_public : DecapKey → outcome string EncapKey;
  encap_key_export : EncapKey → list u8;
  (** Decoding of a public key, [decode_enc_pk]. *)
  decode_enc_pk : list u8 → outcome string EncapKey;
  encap_as_bytes : KemEncap → list u8;
  encap_import : list u8 → outcome string KemEncap;
  (** [setup_send_deterministically] in the mode [Auth]: the author's secret
      key, the peer's public key, the info and the ephemeral secret. *)
  setup_send : DecapKey → EncapKey → list u8 → DecapKey → outcome HpkeError (KemEncap * SendCtx);
  (** [setup_recv] in the mode [Auth]. *)
  setup_recv : EncapKey → KemEncap → DecapKey → list u8 → outcome HpkeError RecvCtx;
  send_export : SendCtx → list u8 → outcome HpkeError (list u8);
  recv_export : RecvCtx → list u8 → outcome HpkeError (list u8);
  send_raw_parts : SendCtx → option (list u8 * list u8);
  recv_raw_parts : RecvCtx → option (list u8 * list u8)
}.

(** Sender and receiver of matching keys derive the same secrets (RFC 9180). *)
Class HpkeKemLaws `{HpkeKem} := {
  kem_agrees skA pkA skB pkB info root enc ctx :
    decap_public skA = Ok pkA → decap_public skB = Ok pkB →
    setup_send skA pkB info root = Ok (enc, ctx) →
    ∃ ctx', setup_recv pkA enc skB info = Ok ctx' ∧
      (∀ l, recv_export ctx' l = send_export ctx l) ∧ recv_raw_parts ctx' = send_raw_parts ctx;
  kem_exports skA pkB info root enc ctx l :
    setup_send skA pkB info root = Ok (enc, ctx) → is_ok (send_export ctx l) = true;
  kem_raw_parts skA pkB info root enc ctx :
    setup_send skA pkB info root = Ok (enc, ctx) → is_Some (send_raw_parts ctx);
  encap_roundtrip e : encap_import (encap_as_bytes e) = Ok e
}.

(** The identifiers of the cipher suite. *)
Class SuiteIds := { suite_ids : list u8; suite_id : list u8 }.

(** * Errors and identifiers *)
(** [aranya_crypto::Error]: the variants that these modules return. *)
Inductive CryptoErr :=
  | CrInvalidArgument (w : string)
  | CrBug (w : string)
  | CrHpke (e : HpkeError)
  | CrImport (w : string).
Definition same_user_id : CryptoErr := CrInvalidArgument "same `UserId`".

Definition str (s : string) : list u8 := String.list_byte_of_string s.
Arguments str : simpl never.

Section Channels.
Context `{HpkeKem, TupleHash, SuiteIds}.

(** [Id::new]. *)
Definition id_new (data tag : list u8) : Id :=
  tuple_hash [str "ID-v1"; suite_id; suite_ids; data; tag].

(** [id] of the secrets, by [sk_misc!]: the name in the context is not
    substituted by the macro. *)
Definition secret_id (sk : DecapKey) : outcome string Id :=
  pk ← decap_public sk; Ok (id_new (encap_key_export pk) (str "$sk")).

(** * Bidirectional channels *)
Record BidiChannel := mkBidiChannel {
  bc_parent_cmd_id : Id;
  bc_our_sk : DecapKey;
  bc_our_id : Id;
  bc_their_pk : EncapKey;
  bc_their_id : Id;
  bc_label : Z
}.
Definition bidi_info (ch : BidiChannel) (author peer : Id) : list u8 :=
  tuple_hash [str "AfcChannelKeys"; suite_ids; suite_id; bc_parent_cmd_id ch; author; peer;
              be_bytes 4 (bc_label ch)].
Definition author_info (ch : BidiChannel) : list u8 := bidi_info ch (bc_our_id ch) (bc_their_id ch).
Definition peer_info (ch : BidiChannel) : list u8 := bidi_info ch (bc_their_id ch) (bc_our_id ch).

Record BidiAuthorSecret := mkBidiAuthorSecret { bidi_root : DecapKey }.
Record BidiPeerEncap := mkBidiPeerEncap { bidi_encap : KemEncap }.
Definition bidi_encap_id (e : BidiPeerEncap) : Id := id_new (encap_as_bytes (bidi_encap e)) (str "BidiChannelId").

(** [RootChannelKey::random]: a generator of keys. *)
Class KeyGen (R : Type) := random_decap : R → DecapKey * R.

Definition bidi_secrets_new {R} `{KeyGen R} (ch : BidiChannel)
    : M R CryptoErr (BidiAuthorSecret * BidiPeerEncap) := λ rng,
  if bool_decide (bc_our_id ch = bc_their_id ch) then (Err same_user_id, rng)
  else
    let '(root_sk, rng) := random_decap rng in
    match setup_send (bc_our_sk ch) (bc_their_pk ch) (author_info ch) root_sk with
    | Ok (enc, _) => (Ok (mkBidiAuthorSecret root_sk, mkBidiPeerEncap enc), rng)
    | Err e => (Err (CrHpke e), rng)
    | Panic w => (Panic w, rng)
    end.

(** The raw keys of a user: for encryption and for decryption. *)
Record BidiKeys := mkBidiKeys { bk_seal : RawKey; bk_open : RawKey }.

Definition raw_parts (p : option (list u8 * list u8)) (w : string) : outcome CryptoErr RawKey :=
  match p with Some (key, base_nonce) => Ok (mkRawKey key base_nonce) | None => Err (CrBug w) end.

Definition bidi_from_author_secret (ch : BidiChannel) (secret : BidiAuthorSecret) : outcome CryptoErr BidiKeys :=
  if bool_decide (bc_our_id ch = bc_their_id ch) then Err same_user_id
  else
    '(_, ctx) ← map_err CrHpke (setup_send (bc_our_sk ch) (bc_their_pk ch) (author_info ch) (bidi_root secret));
    key ← map_err CrHpke (send_export ctx (str "bidi response key"));
    base_nonce ← map_err CrHpke (send_export ctx (str "bidi response base_nonce"));
    seal ← raw_parts (send_raw_parts ctx) "`SendCtx` should still contain the raw key";
    Ok (mkBidiKeys seal (mkRawKey key base_nonce)).

Definition bidi_from_peer_encap (ch : BidiChannel) (enc : BidiPeerEncap) : outcome CryptoErr BidiKeys :=
  if bool_decide (bc_their_id ch = bc_our_id ch) then Err same_user_id
  else
    ctx ← map_err CrHpke (setup_recv (bc_their_pk ch) (bidi_encap enc) (bc_our_sk ch) (peer_info ch));
    key ← map_err CrHpke (recv_export ctx (str "bidi response key"));
    base_nonce ← map_err CrHpke (recv_export ctx (str "bidi response base_nonce"));
    open ← raw_parts (recv_raw_parts ctx) "`RecvCtx` should still contain the raw key";
    Ok (mkBidiKeys (mkRawKey key base_nonce) open).

(** * Unidirectional channels *)
Record UniChannel := mkUniChannel {
  uc_parent_cmd_id : Id;
  uc_our_sk : DecapKey;
  uc_their_pk : EncapKey;
  uc_seal_id : Id;
  uc_open_id : Id;
  uc_label : Z
}.
Definition uni_info (ch : UniChannel) : list u8 :=
  tuple_hash [str "AfcUnidirectionalKey"; suite_ids; suite_id; uc_parent_cmd_id ch; uc_seal_id ch;
              uc_open_id ch; be_bytes 4 (uc_label ch)].

Record UniAuthorSecret := mkUniAuthorSecret { uni_root : DecapKey }.
Record UniPeerEncap := mkUniPeerEncap { uni_encap : KemEncap }.
Definition uni_encap_id (e : UniPeerEncap) : Id := id_new (encap_as_bytes (uni_encap e)) (str "UniChannelId").

Definition uni_secrets_new {R} `{KeyGen R} (ch : UniChannel)
    : M R CryptoErr (UniAuthorSecret * UniPeerEncap) := λ rng,
  if bool_decide (uc_seal_id ch = uc_open_id ch) then (Err same_user_id, rng)
  else
    let '(root_sk, rng) := random_decap rng in
    match setup_send (uc_our_sk ch) (uc_their_pk ch) (uni_info ch) root_sk with
    | Ok (enc, _) => (Ok (mkUniAuthorSecret root_sk, mkUniPeerEncap enc), rng)
    | Err e => (Err (CrHpke e), rng)
    | Panic w => (Panic w, rng)
    end.

(** [uni_key!]: the same for [UniSealKey] and [UniOpenKey]. *)
Definition uni_from_author_secret (ch : UniChannel) (secret : UniAuthorSecret) : outcome CryptoErr RawKey :=
  if bool_decide (uc_seal_id ch = uc_open_id ch) then Err same_user_id
  else
    '(_, ctx) ← map_err CrHpke (setup_send (uc_our_sk ch) (uc_their_pk ch) (uni_info ch) (uni_root secret));
    raw_parts (send_raw_parts ctx) "`SendCtx` should still contain the raw key".
Definition uni_from_peer_encap (ch : UniChannel) (enc : UniPeerEncap) : outcome CryptoErr RawKey :=
  if bool_decide (uc_seal_id ch = uc_open_id ch) then Err same_user_id
  else
    ctx ← map_err CrHpke (setup_recv (uc_their_pk ch) (uni_encap enc) (uc_our_sk ch) (uni_info ch));
    raw_parts (recv_raw_parts ctx) "`RecvCtx` should still contain the raw key".
End Channels.
Arguments KeyGen {_} R.

(** * [Transform] *)
Class Transform (V K : Type) := transform : V → outcome CryptoErr K.

Section Transforms.
Context `{Hpke, HpkeKem, TupleHash, SuiteIds}.

(** [BidiKeys::into_keys], [UniSealKey::into_key] and [UniOpenKey::into_key]. *)
Definition bidi_into_keys (k : BidiKeys) : outcome CryptoErr (SealKey * OpenKey) :=
  seal ← map_err CrImport (seal_key_from_raw (bk_seal k) 0);
  open ← map_err CrImport (open_key_from_raw (bk_open k));
  Ok (seal, open).
Definition uni_into_seal_key (k : RawKey) : outcome CryptoErr SealKey := map_err CrImport (seal_key_from_raw k 0).
Definition uni_into_open_key (k : RawKey) : outcome CryptoErr OpenKey := map_err CrImport (open_key_from_raw k).
Definition bidi_into_raw_keys (k : BidiKeys) : RawKey * RawKey := (bk_seal k, bk_open k).

#[global] Instance transform_bidi_author : Transform (BidiChannel * BidiAuthorSecret) (SealKey * OpenKey) :=
  λ '(ch, secret), bidi_from_author_secret ch secret ≫= bidi_into_keys.
#[global] Instance transform_bidi_author_raw : Transform (BidiChannel * BidiAuthorSecret) (RawKey * RawKey) :=
  λ '(ch, secret), bidi_into_raw_keys <$> bidi_from_author_secret ch secret.
#[global] Instance transform_bidi_peer : Transform (BidiChannel * BidiPeerEncap) (SealKey * OpenKey) :=
  λ '(ch, enc), bidi_from_peer_encap ch enc ≫= bidi_into_keys.
#[global] Instance transform_bidi_peer_raw : Transform (BidiChannel * BidiPeerEncap) (RawKey * RawKey) :=
  λ '(ch, enc), bidi_into_raw_keys <$> bidi_from_peer_encap ch enc.
#[global] Instance transform_uni_author_seal : Transform (UniChannel * UniAuthorSecret) SealKey :=
  λ '(ch, secret), uni_from_author_secret ch secret ≫= uni_into_seal_key.
#[global] Instance transform_uni_author_open : Transform (UniChannel * UniAuthorSecret) OpenKey :=
  λ '(ch, secret), uni_from_author_secret ch secret ≫= uni_into_open_key.
#[global] Instance transform_uni_author_raw : Transform (UniChannel * UniAuthorSecret) RawKey :=
  λ '(ch, secret), uni_from_author_secret ch secret.
#[global] Instance transform_uni_peer_seal : Transform (UniChannel * UniPeerEncap) SealKey :=
  λ '(ch, enc), uni_from_peer_encap ch enc ≫= uni_into_seal_key.
#[global] Instance transform_uni_peer_open : Transform (UniChannel * UniPeerEncap) OpenKey :=
  λ '(ch, enc), uni_from_peer_encap ch enc ≫= uni_into_open_key.
#[global] Instance transform_uni_peer_raw : Transform (UniChannel * UniPeerEncap) RawKey :=
  λ '(ch, enc), uni_from_peer_encap ch enc.
End Transforms.

(** * Key stores *)
Inductive KsErrorKind := KsAlreadyExists | KsOther.

(** The trait [KeyStore] for one type of wrapped keys. [ks_entry] tells whether
    the entry is occupied; the entry's methods are operations on the store. *)
Class KeyStore (S W : Type) := {
  ks_entry : Id → S → outcome KsErrorKind bool;
  ks_get : Id → S → outcome KsErrorKind (option W);
  ks_vacant_insert : Id → W → M S KsErrorKind unit;
  ks_occupied_remove : Id → M S KsErrorKind W
}.

(** A store is a map. *)
Class KeyStoreLaws (S W : Type) `{KeyStore S W} := {
  ks_inv : S → Prop;
  ks_view : S → Id → option W;
  ks_entry_law s id : ks_inv s → ks_entry id s = Ok (bool_decide (is_Some (ks_view s id)));
  ks_get_law s id : ks_inv s → ks_get id s = Ok (ks_view s id);
  ks_insert_law s id w :
    ks_inv s → ks_view s id = None →
    match ks_vacant_insert id w s with
    | (Ok _, s') => ks_inv s' ∧ ∀ id', ks_view s' id' = if bool_decide (id' = id) then Some w else ks_view s id'
    | (Err _, s') => s' = s
    | (Panic _, _) => False
    end;
  ks_remove_law s id w :
    ks_inv s → ks_view s id = Some w →
    ∃ s', ks_occupied_remove id s = (Ok w, s') ∧ ks_inv s' ∧
      ∀ id', ks_view s' id' = if bool_decide (id' = id) then None else ks_view s id'
}.

(** [Engine]: wrapping and unwrapping of secrets, with its random numbers. The
    secrets are the users' keys and the authors' secrets, all decapsulation keys
    ([AlgId::Decap]), which an engine does not tell apart. *)
Class Engine `{HpkeKem} (R W : Type) := {
  eng_keygen :: KeyGen R;
  wrap_secret : Id → DecapKey → M R string W;
  unwrap_secret : W → outcome string DecapKey
}.
Class EngineLaws `{HpkeKem} (R W : Type) `{!Engine R W} := {
  unwrap_wrapped id sk (r r' : R) (w : W) : wrap_secret id sk r = (Ok w, r') → unwrap_secret w = Ok sk
}.

Section Store.
Context `{HpkeKem, TupleHash, SuiteIds}.
Context {S W R : Type} `{!KeyStore S W, !Engine R W}.

(** The provided methods. *)
Definition ks_try_insert (id : Id) (key : W) : M S KsErrorKind unit := λ s,
  match ks_entry id s with
  | Ok false => ks_vacant_insert id key s
  | Ok true => (Err KsAlreadyExists, s)
  | Err e => (Err e, s)
  | Panic w => (Panic w, s)
  end.
Definition ks_remove (id : Id) : M S KsErrorKind (option W) := λ s,
  match ks_entry id s with
  | Ok false => (Ok None, s)
  | Ok true => let '(r, s) := ks_occupied_remove id s in (Some <$> r, s)
  | Err e => (Err e, s)
  | Panic w => (Panic w, s)
  end.

(** [Engine::wrap], [Engine::unwrap]. *)
Definition eng_wrap (sk : DecapKey) : M R string W := λ r,
  match secret_id sk with
  | Ok id => wrap_secret id sk r
  | Err e => (Err e, r)
  | Panic w => (Panic w, r)
  end.

(** [KeyStoreExt]. *)
Definition unwrap_key (w : option W) : outcome KsErrorKind (option DecapKey) :=
  match w with
  | None => Ok None
  | Some w => Some <$> map_err (λ _, KsOther) (unwrap_secret w)
  end.
Definition ks_get_key (id : Id) (s : S) : outcome KsErrorKind (option DecapKey) := ks_get id s ≫= unwrap_key.
Definition ks_remove_key (id : Id) : M S KsErrorKind (option DecapKey) := λ s,
  let '(r, s) := ks_remove id s in (r ≫= unwrap_key, s).
End Store.

(** * The in-memory key store *)
(** postcard, for wrapped keys. *)
Class WrappedCodec (W : Type) := {
  wk_to_allocvec : W → option (list u8);
  wk_from_bytes : list u8 → option W
}.
Definition MemStore : Type := list (Id * list u8).
Definition mem_store_new : MemStore := [].

Section MemStore.
Context {W : Type} `{WrappedCodec W}.
Definition stored_new (key : W) : outcome KsErrorKind (list u8) := ok_or (wk_to_allocvec key) KsOther.
Definition to_wrapped (b : list u8) : outcome KsErrorKind W := ok_or (wk_from_bytes b) KsOther.

#[global] Instance mem_store : KeyStore MemStore W := {|
  ks_entry id s := Ok (bt_contains id s);
  ks_get id s := match bt_get id s with Some v => Some <$> to_wrapped v | None => Ok None end;
  ks_vacant_insert id key s :=
    match stored_new key with
    | Ok b => (Ok tt, bt_insert id b s)
    | Err e => (Err e, s)
    | Panic w => (Panic w, s)
    end;
  ks_occupied_remove id s :=
    match bt_get id s with
    | Some b => (to_wrapped b, bt_remove id s)
    | None => (Panic "vacant entry", s)
    end
|}.

Context (codec_roundtrip : ∀ (w : W) b, wk_to_allocvec w = Some b → wk_from_bytes b = Some w).

(** Every key of the store can be decoded. *)
Definition mem_store_inv (s : MemStore) : Prop :=
  bt_wf s ∧ ∀ id b, bt_get id s = Some b → is_Some (wk_from_bytes b).

Program Definition mem_store_laws : KeyStoreLaws MemStore W := {|
  ks_inv := mem_store_inv;
  ks_view s id := bt_get id s ≫= wk_from_bytes
|}.
Next Obligation.
  intros s id [Hw Hd]. cbn. unfold bt_contains. destruct (bt_get id s) as [b|] eqn:E; cbn; [|done].
  by destruct (Hd id b E) as [w ->].
Qed.
Next Obligation.
  intros s id [Hw Hd]. cbn. destruct (bt_get id s) as [b|] eqn:E; cbn; [|done].
  destruct (Hd id b E) as [w Hb]. unfold to_wrapped. by rewrite Hb.
Qed.
Next Obligation.
  intros s id w [Hw Hd] Hno. cbn. unfold stored_new. destruct (wk_to_allocvec w) as [b|] eqn:E; cbn; [|done].
  assert (∀ id', bt_get id' (bt_insert id b s) = if bool_decide (id' = id) then Some b else bt_get id' s) as Hget.
  { intros id'. rewrite bt_get_insert. case_bool_decide as Eid;
      [by rewrite (proj2 (ord_eqb_true _ _) Eid)|by rewrite (proj2 (ord_eqb_false _ _) Eid)]. }
  split; [split; [by apply bt_wf_insert|]|].
  - intros id' b'. rewrite Hget. case_bool_decide; [|apply Hd]. intros [= <-]. eauto.
  - intros id'. rewrite Hget. case_bool_decide; [cbn; eauto|done].
Qed.
Next Obligation.
  intros s id w [Hw Hd] Hv. cbn in *. destruct (bt_get id s) as [b|] eqn:E; cbn in Hv; [|done].
  unfold to_wrapped. rewrite Hv. cbn. eexists. split; [done|].
  assert (∀ id', bt_get id' (bt_remove id s) = if bool_decide (id' = id) then None else bt_get id' s) as Hget.
  { intros id'. rewrite bt_get_remove by done. case_bool_decide as Eid;
      [by rewrite (proj2 (ord_eqb_true _ _) Eid)|by rewrite (proj2 (ord_eqb_false _ _) Eid)]. }
  split; [split; [by apply bt_wf_remove|]|].
  - intros id' b'. rewrite Hget. case_bool_decide; [done|apply Hd].
  - intros id'. rewrite Hget. by case_bool_decide.
Qed.
End MemStore.

(** * The FFI module *)
Inductive FfiError :=
  | FfCrypto (e : CryptoErr)
  | FfKeyNotFound
  | FfEncoding
  | FfWrap (w : string)
  | FfKeyStore.

(** [AfcBidiChannel] and [AfcUniChannel]. *)
Record AfcChannel := mkAfcChannel { ac_peer_encap : list u8; ac_key_id : Id }.

(** [TryFrom<Value> for Label]: a policy's integer as a label. *)
Definition label_from_value (v : Value) : outcome ValueConversionError ChanLabel :=
  x ← try_from_value (T := Z) v;
  if (0 <=? x)%Z && (x <? 2 ^ 32)%Z then Ok (mkLabel x) else Err VCE_OutOfRange.

Section Ffi.
Context `{HpkeKem, TupleHash, SuiteIds}.
Context {S W R : Type} `{!KeyStore S W, !Engine R W}.

(** The user's key, and the other's public key. *)
Definition ffi_keys (enc_key_id : Id) (their_pk : list u8) (s : S) : outcome FfiError (DecapKey * EncapKey) :=
  sk ← map_err (λ _, FfKeyStore) (ks_get_key (R := R) enc_key_id s);
  our_sk ← ok_or sk FfKeyNotFound;
  their_pk ← map_err (λ _, FfEncoding) (decode_enc_pk their_pk);
  Ok (our_sk, their_pk).

(** Wrapping the author's secret, and storing it under the channel's id. *)
Definition ffi_store (key_id : Id) (secret : DecapKey) (encap : list u8) : M (S * R) FfiError AfcChannel :=
  λ '(s, r),
  let '(wrapped, r) := eng_wrap secret r in
  match wrapped with
  | Err w => (Err (FfWrap w), (s, r))
  | Panic w => (Panic w, (s, r))
  | Ok wrapped =>
    let '(res, s) := ks_try_insert key_id wrapped s in
    match res with
    | Ok _ => (Ok (mkAfcChannel encap key_id), (s, r))
    | Err _ => (Err FfKeyStore, (s, r))
    | Panic w => (Panic w, (s, r))
    end
  end.

Definition create_bidi_channel (parent_cmd_id our_enc_key_id our_id : Id) (their_enc_pk : list u8)
    (their_id : Id) (label : ChanLabel) : M (S * R) FfiError AfcChannel := λ '(s, r),
  match ffi_keys our_enc_key_id their_enc_pk s with
  | Err e => (Err e, (s, r))
  | Panic w => (Panic w, (s, r))
  | Ok (our_sk, their_pk) =>
    let ch := mkBidiChannel parent_cmd_id our_sk our_id their_pk their_id (label_u32 label) in
    let '(secrets, r) := bidi_secrets_new ch r in
    match secrets with
    | Err e => (Err (FfCrypto e), (s, r))
    | Panic w => (Panic w, (s, r))
    | Ok (author, peer) =>
      ffi_store (bidi_encap_id peer) (bidi_root author) (encap_as_bytes (bidi_encap peer)) (s, r)
    end
  end.

Definition create_uni_channel (parent_cmd_id author_enc_key_id : Id) (their_pk : list u8)
    (seal_id open_id : Id) (label : ChanLabel) : M (S * R) FfiError AfcChannel := λ '(s, r),
  match ffi_keys author_enc_key_id their_pk s with
  | Err e => (Err e, (s, r))
  | Panic w => (Panic w, (s, r))
  | Ok (our_sk, their_pk) =>
    let ch := mkUniChannel parent_cmd_id our_sk their_pk seal_id open_id (label_u32 label) in
    let '(secrets, r) := uni_secrets_new ch r in
    match secrets with
    | Err e => (Err (FfCrypto e), (s, r))
    | Panic w => (Panic w, (s, r))
    | Ok (author, peer) =>
      ffi_store (uni_encap_id peer) (uni_root author) (encap_as_bytes (uni_encap peer)) (s, r)
    end
  end.
End Ffi.

(** * The handler of effects *)
Inductive HandlerError :=
  | HdNotAuthor
  | HdNotRecipient
  | HdKeyStore
  | HdKeyNotFound
  | HdTransform
  | HdEncoding
  | HdCrypto (e : CryptoErr).

(** The effects: of a channel that this user created, and of one that it
    received. *)
Record BidiChannelCreated := mkBidiCreated {
  bcc_parent_cmd_id : Id;
  bcc_author_id : Id;
  bcc_author_enc_key_id : Id;
  bcc_peer_id : Id;
  bcc_peer_enc_pk : list u8;
  bcc_label : ChanLabel;
  bcc_key_id : Id
}.
Record BidiChannelReceived := mkBidiReceived {
  bcr_parent_cmd_id : Id;
  bcr_author_id : Id;
  bcr_author_enc_pk : list u8;
  bcr_peer_id : Id;
  bcr_peer_enc_key_id : Id;
  bcr_label : ChanLabel;
  bcr_encap : list u8
}.
Record UniChannelCreated := mkUniCreated {
  ucc_parent_cmd_id : Id;
  ucc_author_id : Id;
  ucc_seal_id : Id;
  ucc_open_id : Id;
  ucc_author_enc_key_id : Id;
  ucc_peer_enc_pk : list u8;
  ucc_label : ChanLabel;
  ucc_key_id : Id
}.
Record UniChannelReceived := mkUniReceived {
  ucr_parent_cmd_id : Id;
  ucr_author_id : Id;
  ucr_seal_id : Id;
  ucr_open_id : Id;
  ucr_author_enc_pk : list u8;
  ucr_peer_enc_key_id : Id;
  ucr_label : ChanLabel;
  ucr_encap : list u8
}.

Section Handler.
Context `{HpkeKem, TupleHash, SuiteIds}.
Context {S W R : Type} `{!KeyStore S W, !Engine R W}.
Context {SK OK : Type}.
(** The handler's user. *)
Context (user_id : Id).

Definition hd_keys (enc_key_id : Id) (their_pk : list u8) (s : S) : outcome HandlerError (DecapKey * EncapKey) :=
  sk ← map_err (λ _, HdKeyStore) (ks_get_key (R := R) enc_key_id s);
  our_sk ← ok_or sk HdKeyNotFound;
  their_pk ← map_err (λ _, HdEncoding) (decode_enc_pk their_pk);
  Ok (our_sk, their_pk).

(** The author's secret is taken out of the store. *)
Definition take_secret (key_id : Id) : M S HandlerError DecapKey := λ s,
  let '(r, s) := ks_remove_key (R := R) key_id s in
  (secret ← map_err (λ _, HdKeyStore) r; ok_or secret HdKeyNotFound, s).

Definition bidi_channel_created `{!Transform (BidiChannel * BidiAuthorSecret) (SK * OK)}
    (effect : BidiChannelCreated) : M S HandlerError (Directed SK OK) := λ s,
  if negb (bool_decide (user_id = bcc_author_id effect)) then (Err HdNotAuthor, s)
  else
    let '(secret, s) := take_secret (bcc_key_id effect) s in
    (secret ← secret;
     '(our_sk, their_pk) ← hd_keys (bcc_author_enc_key_id effect) (bcc_peer_enc_pk effect) s;
     let ch := mkBidiChannel (bcc_parent_cmd_id effect) our_sk (bcc_author_id effect) their_pk
                 (bcc_peer_id effect) (label_u32 (bcc_label effect)) in
     '(seal, open) ← map_err (λ _, HdTransform) (transform (ch, mkBidiAuthorSecret secret));
     Ok (Bidirectional seal open), s).

Definition bidi_channel_received `{!Transform (BidiChannel * BidiPeerEncap) (SK * OK)}
    (effect : BidiChannelReceived) (s : S) : outcome HandlerError (Directed SK OK) :=
  if negb (bool_decide (user_id = bcr_peer_id effect)) then Err HdNotRecipient
  else
    encap ← map_err (λ e, HdCrypto (CrImport e)) (encap_import (bcr_encap effect));
    '(our_sk, their_pk) ← hd_keys (bcr_peer_enc_key_id effect) (bcr_author_enc_pk effect) s;
    let ch := mkBidiChannel (bcr_parent_cmd_id effect) our_sk (bcr_peer_id effect) their_pk
                (bcr_author_id effect) (label_u32 (bcr_label effect)) in
    '(seal, open) ← map_err (λ _, HdTransform) (transform (ch, mkBidiPeerEncap encap));
    Ok (Bidirectional seal open).

(** [UniKey::new] and the choice between the directions. *)
Definition uni_key_new {V} `{!Transform V SK, !Transform V OK} (seal_id : Id) (v : V)
    : outcome HandlerError (Directed SK OK) :=
  if bool_decide (user_id = seal_id)
  then SealOnly <$> map_err (λ _, HdTransform) (transform v)
  else OpenOnly <$> map_err (λ _, HdTransform) (transform v).

Definition uni_channel_created `{!Transform (UniChannel * UniAuthorSecret) SK, !Transform (UniChannel * UniAuthorSecret) OK}
    (effect : UniChannelCreated) : M S HandlerError (Directed SK OK) := λ s,
  if (negb (bool_decide (user_id = ucc_seal_id effect)) && negb (bool_decide (user_id = ucc_open_id effect)))
     || negb (bool_decide (user_id = ucc_author_id effect))
  then (Err HdNotAuthor, s)
  else
    let '(secret, s) := take_secret (ucc_key_id effect) s in
    (secret ← secret;
     '(our_sk, their_pk) ← hd_keys (ucc_author_enc_key_id effect) (ucc_peer_enc_pk effect) s;
     let ch := mkUniChannel (ucc_parent_cmd_id effect) our_sk their_pk (ucc_seal_id effect)
                 (ucc_open_id effect) (label_u32 (ucc_label effect)) in
     uni_key_new (ucc_seal_id effect) (ch, mkUniAuthorSecret secret), s).

Definition uni_channel_received `{!Transform (UniChannel * UniPeerEncap) SK, !Transform (UniChannel * UniPeerEncap) OK}
    (effect : UniChannelReceived) (s : S) : outcome HandlerError (Directed SK OK) :=
  if (negb (bool_decide (user_id = ucr_seal_id effect)) && negb (bool_decide (user_id = ucr_open_id effect)))
     || bool_decide (user_id = ucr_author_id effect)
  then Err HdNotRecipient
  else
    encap ← map_err (λ e, HdCrypto (CrImport e)) (encap_import (ucr_encap effect));
    '(our_sk, their_pk) ← hd_keys (ucr_peer_enc_key_id effect) (ucr_author_enc_pk effect) s;
    let ch := mkUniChannel (ucr_parent_cmd_id effect) our_sk their_pk (ucr_seal_id effect)
                (ucr_open_id effect) (label_u32 (ucr_label effect)) in
    uni_key_new (ucr_seal_id effect) (ch, mkUniPeerEncap encap).
End Handler.

(** * Correctness *)
(** ** Both users derive the same keys *)
Section Agree.
Context `{HpkeKemLaws, TupleHash, SuiteIds}.

Lemma bidi_keys_agree parent skA idA pkA skB idB pkB label root enc ctx :
  decap_public skA = Ok pkA → decap_public skB = Ok pkB → idA ≠ idB →
  let chA := mkBidiChannel parent skA idA pkB idB label in
  let chB := mkBidiChannel parent skB idB pkA idA label in
  setup_send skA pkB (author_info chA) root = Ok (enc, ctx) →
  ∃ ab ba, bidi_from_author_secret chA (mkBidiAuthorSecret root) = Ok (mkBidiKeys ab ba) ∧
           bidi_from_peer_encap chB (mkBidiPeerEncap enc) = Ok (mkBidiKeys ba ab).
Proof.
  intros HA HB Hne chA chB E. destruct (kem_agrees _ _ _ _ _ _ _ _ HA HB E) as (ctx' & E' & Hex & Hraw).
  destruct (kem_raw_parts _ _ _ _ _ _ E) as [[key nonce] Hp]. pose proof (λ l, kem_exports _ _ _ _ _ _ l E) as Hl.
  unfold bidi_from_author_secret, bidi_from_peer_encap. cbn [bc_our_id bc_their_id bc_our_sk bc_their_pk bidi_root bidi_encap chA chB].
  rewrite !bool_decide_false by done. fold chA. rewrite E.
  change (peer_info chB) with (author_info chA). rewrite E'. cbn. rewrite !Hex, Hraw, Hp.
  pose proof (Hl (str "bidi response key")) as Hx1. pose proof (Hl (str "bidi response base_nonce")) as Hx2.
  destruct (send_export ctx (str "bidi response key")); cbn; [|done..].
  destruct (send_export ctx (str "bidi response base_nonce")); cbn; [|done..]. by eexists _, _.
Qed.

Lemma uni_keys_agree parent skA pkA skB pkB seal_id open_id label root enc ctx :
  decap_public skA = Ok pkA → decap_public skB = Ok pkB → seal_id ≠ open_id →
  let chA := mkUniChannel parent skA pkB seal_id open_id label in
  let chB := mkUniChannel parent skB pkA seal_id open_id label in
  setup_send skA pkB (uni_info chA) root = Ok (enc, ctx) →
  ∃ k, uni_from_author_secret chA (mkUniAuthorSecret root) = Ok k ∧
       uni_from_peer_encap chB (mkUniPeerEncap enc) = Ok k.
Proof.
  intros HA HB Hne chA chB E. destruct (kem_agrees _ _ _ _ _ _ _ _ HA HB E) as (ctx' & E' & _ & Hraw).
  destruct (kem_raw_parts _ _ _ _ _ _ E) as [[key nonce] Hp].
  unfold uni_from_author_secret, uni_from_peer_encap. cbn [uc_seal_id uc_open_id uc_our_sk uc_their_pk uni_root uni_encap chA chB].
  rewrite !bool_decide_false by done. fold chA. rewrite E.
  change (uni_info chB) with (uni_info chA). rewrite E'. cbn. rewrite Hraw, Hp. by eexists.
Qed.
End Agree.

(** ** The secret waits in the author's store *)
Section StoreProofs.
Context `{HpkeKem, TupleHash, SuiteIds}.
Context {S W R : Type} `{!KeyStore S W, !KeyStoreLaws S W, !Engine R W, !EngineLaws R W}.
Implicit Types (s : S) (r : R).

(** [s'] is [s] with a secret under a new id. *)
Definition holds_secret s s' (id : Id) (sk : DecapKey) : Prop :=
  ks_inv s' ∧ ks_view s id = None ∧ ∃ w, unwrap_secret w = Ok sk ∧
    ∀ id', ks_view s' id' = if bool_decide (id' = id) then Some w else ks_view s id'.

Lemma ffi_store_ok key_id sk encap s r ac s' r' :
  ks_inv s → ffi_store key_id sk encap (s, r) = (Ok ac, (s', r')) →
  ac = mkAfcChannel encap key_id ∧ holds_secret s s' key_id sk.
Proof.
  intros Hs. unfold ffi_store, eng_wrap. destruct (secret_id sk) as [id|e|w]; [|done..].
  destruct (wrap_secret id sk r) as [[w|e|w] r1] eqn:Ew; [|done..].
  unfold ks_try_insert. rewrite ks_entry_law by done.
  destruct (ks_view s key_id) as [w0|] eqn:Ev; [done|]. cbn.
  pose proof (ks_insert_law s key_id w Hs Ev) as Hi.
  destruct (ks_vacant_insert key_id w s) as [[[]|e|p] s1]; [|done..].
  intros [= <- <- <-]. destruct Hi as [Hi Hv]. split; [done|]. split; [done|]. split; [done|].
  exists w. split; [by eapply unwrap_wrapped|done].
Qed.

Lemma get_key_spec id s sk :
  ks_inv s → ks_get_key (R := R) id s = Ok (Some sk) ↔ ∃ w, ks_view s id = Some w ∧ unwrap_secret w = Ok sk.
Proof.
  intros Hs. unfold ks_get_key. rewrite ks_get_law by done. cbn. destruct (ks_view s id) as [w|]; cbn; [|naive_solver].
  destruct (unwrap_secret w) as [k|e|p] eqn:E; cbn; split; first [by intros|intros (w' & [= <-] & Hu); congruence|idtac].
  intros [= <-]. eauto.
Qed.

Lemma get_key_view s s' id sk :
  ks_inv s → ks_inv s' → (∀ id, ks_view s' id = ks_view s id) →
  ks_get_key (R := R) id s = Ok (Some sk) → ks_get_key (R := R) id s' = Ok (Some sk).
Proof. intros Hs Hs' Hv. rewrite !get_key_spec, Hv by done. done. Qed.

(** Taking the secret restores the store. *)
Lemma take_secret_ok s s' key_id sk :
  holds_secret s s' key_id sk →
  ∃ s'', take_secret (R := R) key_id s' = (Ok sk, s'') ∧ ks_inv s'' ∧ ∀ id, ks_view s'' id = ks_view s id.
Proof.
  intros (Hs' & Hno & w & Hw & Hv). unfold take_secret, ks_remove_key, ks_remove. rewrite ks_entry_law by done.
  assert (ks_view s' key_id = Some w) as Hk by by rewrite Hv, bool_decide_true.
  rewrite Hk. cbn. destruct (ks_remove_law s' key_id w Hs' Hk) as (s'' & -> & Hs'' & Hv''). cbn. rewrite Hw. cbn.
  exists s''. split; [done|]. split; [done|]. intros id. rewrite Hv''. case_bool_decide as E; [by subst|].
  by rewrite Hv, bool_decide_false.
Qed.

Lemma hd_keys_ok id pk s sk k :
  ks_get_key (R := R) id s = Ok (Some sk) → decode_enc_pk pk = Ok k → hd_keys (R := R) id pk s = Ok (sk, k).
Proof. intros Hg Hd. unfold hd_keys. rewrite Hg. cbn. by rewrite Hd. Qed.

Lemma ffi_keys_ok id pk s sk k :
  ffi_keys (R := R) id pk s = Ok (sk, k) → ks_get_key (R := R) id s = Ok (Some sk) ∧ decode_enc_pk pk = Ok k.
Proof.
  unfold ffi_keys. destruct (ks_get_key id s) as [[sk'|]|e|w]; cbn; try done.
  destruct (decode_enc_pk pk) as [k'|e|w]; cbn; [|done..]. by intros [= <- <-].
Qed.

(** What a successful [create_bidi_channel] has done. *)
Lemma create_bidi_ok parent key_id idA pkB idB label s r ac s' r' :
  ks_inv s → create_bidi_channel parent key_id idA pkB idB label (s, r) = (Ok ac, (s', r')) →
  ∃ sk pk root enc ctx, ks_get_key (R := R) key_id s = Ok (Some sk) ∧ decode_enc_pk pkB = Ok pk ∧ idA ≠ idB ∧
    setup_send sk pk (author_info (mkBidiChannel parent sk idA pk idB (label_u32 label))) root = Ok (enc, ctx) ∧
    ac_peer_encap ac = encap_as_bytes enc ∧ holds_secret s s' (ac_key_id ac) root.
Proof.
  intros Hs. unfold create_bidi_channel. destruct (ffi_keys key_id pkB s) as [[sk pk]|e|w] eqn:Ek; [|done..].
  apply ffi_keys_ok in Ek as [Hg Hd]. unfold bidi_secrets_new. cbn [bc_our_id bc_their_id].
  case_bool_decide as Hid; [done|]. destruct (random_decap r) as [root r1].
  cbn [bc_our_sk bc_their_pk]. destruct (setup_send _ _ _ _) as [[enc ctx]|e|w] eqn:E; [|done..].
  intros Hst. apply ffi_store_ok in Hst as [-> Hh]; [|done]. by exists sk, pk, root, enc, ctx.
Qed.

Lemma create_uni_ok parent key_id pkB seal_id open_id label s r ac s' r' :
  ks_inv s → create_uni_channel parent key_id pkB seal_id open_id label (s, r) = (Ok ac, (s', r')) →
  ∃ sk pk root enc ctx, ks_get_key (R := R) key_id s = Ok (Some sk) ∧ decode_enc_pk pkB = Ok pk ∧ seal_id ≠ open_id ∧
    setup_send sk pk (uni_info (mkUniChannel parent sk pk seal_id open_id (label_u32 label))) root = Ok (enc, ctx) ∧
    ac_peer_encap ac = encap_as_bytes enc ∧ holds_secret s s' (ac_key_id ac) root.
Proof.
  intros Hs. unfold create_uni_channel. destruct (ffi_keys key_id pkB s) as [[sk pk]|e|w] eqn:Ek; [|done..].
  apply ffi_keys_ok in Ek as [Hg Hd]. unfold uni_secrets_new. cbn [uc_seal_id uc_open_id].
  case_bool_decide as Hid; [done|]. destruct (random_decap r) as [root r1].
  cbn [uc_our_sk uc_their_pk]. destruct (setup_send _ _ _ _) as [[enc ctx]|e|w] eqn:E; [|done..].
  intros Hst. apply ffi_store_ok in Hst as [-> Hh]; [|done]. by exists sk, pk, root, enc, ctx.
Qed.
End StoreProofs.

(** ** Both handlers' results *)
(** A user's store holds, under [key_id], the secret key of the public key that
    others know as [pub]. *)
Definition has_key `{HpkeKem} {S W} (R : Type) `{!KeyStore S W, !KeyStoreLaws S W, !Engine R W}
    (s : S) (key_id : Id) (pub : list u8) : Prop :=
  ks_inv s ∧ ∃ sk pk, ks_get_key (R := R) key_id s = Ok (Some sk) ∧
    decap_public sk = Ok pk ∧ decode_enc_pk pub = Ok pk.

Section Setup.
Context `{HpkeKemLaws, TupleHash, SuiteIds}.
Context {S1 W1 R1 : Type} `{!KeyStore S1 W1, !KeyStoreLaws S1 W1, !Engine R1 W1, !EngineLaws R1 W1}.
Context {S2 W2 R2 : Type} `{!KeyStore S2 W2, !KeyStoreLaws S2 W2, !Engine R2 W2}.
Context {SK OK : Type}.

(** The handlers transform what both users derive the same keys from. *)
Lemma bidi_setup `{!Transform (BidiChannel * BidiAuthorSecret) (SK * OK), !Transform (BidiChannel * BidiPeerEncap) (SK * OK)}
    (sA sA' : S1) (sB : S2) (r r' : R1) parent keyA pubA idA keyB pubB idB label ac :
  has_key R1 sA keyA pubA → has_key R2 sB keyB pubB →
  create_bidi_channel parent keyA idA pubB idB label (sA, r) = (Ok ac, (sA', r')) →
  ∃ chA chB root enc ab ba sA'',
    bidi_from_author_secret chA root = Ok (mkBidiKeys ab ba) ∧
    bidi_from_peer_encap chB enc = Ok (mkBidiKeys ba ab) ∧
    bidi_channel_created (R := R1) idA (mkBidiCreated parent idA keyA idB pubB label (ac_key_id ac)) sA'
      = ('(seal, open) ← map_err (λ _, HdTransform) (transform (chA, root)); Ok (Bidirectional (S := SK) (O := OK) seal open), sA'') ∧
    bidi_channel_received (R := R2) idB (mkBidiReceived parent idA pubA idB keyB label (ac_peer_encap ac)) sB
      = ('(seal, open) ← map_err (λ _, HdTransform) (transform (chB, enc)); Ok (Bidirectional (S := SK) (O := OK) seal open)) ∧
    ks_inv sA'' ∧ (∀ id, ks_view sA'' id = ks_view sA id) ∧ ks_view sA (ac_key_id ac) = None.
Proof.
  intros (Hs & skA & pkA & Hg & HpA & HdA) (HsB & skB & pkB & HgB & HpB & HdB) Hc.
  apply create_bidi_ok in Hc as (sk & pk & root & enc & ctx & Hg' & Hd' & Hne & Hsend & Henc & Hh); [|done].
  rewrite Hg in Hg'. injection Hg' as <-. rewrite HdB in Hd'. injection Hd' as <-.
  destruct (take_secret_ok _ _ _ _ Hh) as (sA'' & Ht & Hi & Hv).
  destruct (bidi_keys_agree _ _ _ _ _ _ _ _ _ _ _ HpA HpB Hne Hsend) as (ab & ba & Ha & Hb).
  eexists _, _, _, _, ab, ba, sA''. split; [exact Ha|]. split; [exact Hb|]. split_and!; [| |done..|].
  - unfold bidi_channel_created. cbn. rewrite bool_decide_true by done. cbn. rewrite Ht. cbn.
    by rewrite (hd_keys_ok _ _ _ skA pkB) by eauto using get_key_view.
  - unfold bidi_channel_received. cbn. rewrite bool_decide_true by done. cbn. rewrite Henc, encap_roundtrip. cbn.
    by rewrite (hd_keys_ok _ _ _ skB pkA).
  - by destruct Hh as (_ & ? & _).
Qed.

(** The author's secret is gone, so that it derives the keys only once. *)
Lemma take_secret_gone (s : S1) key_id :
  ks_inv s → ks_view s key_id = None → take_secret (R := R1) key_id s = (Err HdKeyNotFound, s).
Proof.
  intros Hi Hv. unfold take_secret, ks_remove_key, ks_remove. by rewrite ks_entry_law, Hv by done.
Qed.

(** The ids of who seals and who opens, from the author's side. *)
Definition seal_side (author_seals : bool) (idA idB : Id) : Id := if author_seals then idA else idB.
Definition open_side (author_seals : bool) (idA idB : Id) : Id := if author_seals then idB else idA.

Lemma uni_setup `{!Transform (UniChannel * UniAuthorSecret) SK, !Transform (UniChannel * UniAuthorSecret) OK,
                  !Transform (UniChannel * UniPeerEncap) SK, !Transform (UniChannel * UniPeerEncap) OK}
    (sA sA' : S1) (sB : S2) (r r' : R1) parent keyA pubA idA keyB pubB idB author_seals label ac :
  let seal_id := seal_side author_seals idA idB in let open_id := open_side author_seals idA idB in
  has_key R1 sA keyA pubA → has_key R2 sB keyB pubB →
  create_uni_channel parent keyA pubB seal_id open_id label (sA, r) = (Ok ac, (sA', r')) →
  ∃ chA chB root enc k sA'',
    uni_from_author_secret chA root = Ok k ∧ uni_from_peer_encap chB enc = Ok k ∧
    uni_channel_created (R := R1) idA
        (mkUniCreated parent idA seal_id open_id keyA pubB label (ac_key_id ac)) sA'
      = (if author_seals then SealOnly (S := SK) (O := OK) <$> map_err (λ _, HdTransform) (transform (chA, root))
         else OpenOnly <$> map_err (λ _, HdTransform) (transform (chA, root)), sA'') ∧
    uni_channel_received (R := R2) idB
        (mkUniReceived parent idA seal_id open_id pubA keyB label (ac_peer_encap ac)) sB
      = (if author_seals then OpenOnly (S := SK) (O := OK) <$> map_err (λ _, HdTransform) (transform (chB, enc))
         else SealOnly <$> map_err (λ _, HdTransform) (transform (chB, enc))) ∧
    ks_inv sA'' ∧ (∀ id, ks_view sA'' id = ks_view sA id) ∧ ks_view sA (ac_key_id ac) = None.
Proof.
  intros seal_id open_id (Hs & skA & pkA & Hg & HpA & HdA) (HsB & skB & pkB & HgB & HpB & HdB) Hc.
  apply create_uni_ok in Hc as (sk & pk & root & enc & ctx & Hg' & Hd' & Hne & Hsend & Henc & Hh); [|done].
  rewrite Hg in Hg'. injection Hg' as <-. rewrite HdB in Hd'. injection Hd' as <-.
  destruct (take_secret_ok _ _ _ _ Hh) as (sA'' & Ht & Hi & Hv).
  destruct (uni_keys_agree _ _ _ _ _ _ _ _ _ _ _ HpA HpB Hne Hsend) as (k & Ha & Hb).
  assert (idA ≠ idB) as Hid by (by destruct author_seals; intros ->; apply Hne).
  eexists _, _, _, _, k, sA''. split; [exact Ha|]. split; [exact Hb|]. split_and!; [| |done..|].
  - unfold uni_channel_created. cbn. rewrite (bool_decide_true (idA = idA)) by done.
    replace (negb (bool_decide (idA = seal_id)) && negb (bool_decide (idA = open_id))) with false
      by (unfold seal_id, open_id; destruct author_seals; cbn; rewrite (bool_decide_true (idA = idA)) by done; by rewrite ?andb_false_r).
    cbn. rewrite Ht. cbn. rewrite (hd_keys_ok _ _ _ skA pkB) by eauto using get_key_view.
    cbn. unfold uni_key_new, seal_id. by destruct author_seals; cbn; [rewrite bool_decide_true|rewrite bool_decide_false].
  - unfold uni_channel_received. cbn. rewrite (bool_decide_false (idB = idA)) by done.
    replace (negb (bool_decide (idB = seal_id)) && negb (bool_decide (idB = open_id))) with false
      by (unfold seal_id, open_id; destruct author_seals; cbn; rewrite (bool_decide_true (idB = idB)) by done; by rewrite ?andb_false_r).
    cbn. rewrite Henc, encap_roundtrip. cbn. rewrite (hd_keys_ok _ _ _ skB pkA) by done. cbn. unfold uni_key_new, seal_id.
    by destruct author_seals; cbn; [rewrite bool_decide_false|rewrite bool_decide_true].
  - by destruct Hh as (_ & ? & _).
Qed.
End Setup.

(** ** The channel carries messages *)
(** What the channel [id] of the state [s1] seals, the state [s2] opens as a
    message of [peer]. *)
Definition carries `{Hpke} {S1 S2 : Type} `{!AfcState S1, !AfcState S2} (s1 : S1) (id : ChannelId)
    (s2 : S2) (peer : NodeId) : Prop :=
  ∀ pt (dst dst' dst2 : list u8) h s1', length pt ≤ length dst2 →
    client_seal id pt (s1, dst) = (Ok h, (s1', dst')) →
    ∃ q s2', client_open peer (take (length pt + CLIENT_OVERHEAD) dst') (s2, dst2)
             = (Ok (ch_label id, q), (s2', pt ++ drop (length pt) dst2)).

(** A policy's label fits into 32 bits. *)
Lemma label_from_value_ok v l : label_from_value v = Ok l → u32_ok (label_u32 l).
Proof.
  unfold label_from_value. destruct (try_from_value v) as [x|e|w]; cbn; [|done..].
  destruct ((0 <=? x)%Z && (x <? 2 ^ 32)%Z) eqn:E; [|done]. intros [= <-].
  apply andb_true_iff in E as [E1 E2]. unfold u32_ok. cbn. lia.
Qed.

Section Carry.
Context `{HpkeLaws}.

Lemma seal_key_pair k q key : seal_key_from_raw k q = Ok key → seal_key_of (sk_ctx key) = raw_pair k.
Proof.
  unfold seal_key_from_raw. destruct (seal_ctx_new _ _ _) as [c|e|w] eqn:E; cbn; [|done..]. intros [= <-].
  by apply seal_ctx_new_law in E as [? _].
Qed.
Lemma open_key_pair k key : open_key_from_raw k = Ok key → open_key_of (ok_ctx key) = raw_pair k.
Proof.
  unfold open_key_from_raw. destruct (open_ctx_new _ _ _) as [c|e|w] eqn:E; cbn; [|done..]. intros [= <-].
  by apply open_ctx_new_law in E.
Qed.

(** The keys that a handler returns are those that were derived. *)
Lemma bidi_handled `{!HpkeKem} ab ba d :
  ('(seal, open) ← map_err (λ _, HdTransform) (bidi_into_keys (mkBidiKeys ab ba)); Ok (Bidirectional seal open))
    = Ok d →
  ∃ s o, d = Bidirectional s o ∧ seal_key_of (sk_ctx s) = raw_pair ab ∧ open_key_of (ok_ctx o) = raw_pair ba.
Proof.
  unfold bidi_into_keys. cbn. destruct (seal_key_from_raw ab 0) as [s|e|w] eqn:Es; [|done..]. cbn.
  destruct (open_key_from_raw ba) as [o|e|w] eqn:Eo; [|done..]. cbn. intros [= <-].
  eauto 10 using seal_key_pair, open_key_pair.
Qed.

Lemma carries_added (m1 m2 : MemAfc) label peer1 peer2 d1 d2 k1 k2 :
  bt_wf m1 → bt_wf m2 → u32_ok (label_u32 label) → dir_seal d1 = Some k1 → dir_open d2 = Some k2 →
  seal_key_of (sk_ctx k1) = open_key_of (ok_ctx k2) →
  carries (bt_insert (mkChannelId peer2 label) d1 m1) (mkChannelId peer2 label)
          (bt_insert (mkChannelId peer1 label) d2 m2) peer1.
Proof.
  intros Hw1 Hw2 Hl Hd1 Hd2 Hk pt dst dst' dst2 h m1' Hlen E.
  eapply (client_seal_opens _ _ (bt_insert (mkChannelId peer1 label) d2 m2) _ peer1) in E as (_ & q & s2' & _ & _ & E); [by exists q, s2'|..].
  - by apply bt_wf_insert.
  - by apply bt_wf_insert.
  - done.
  - cbn. unfold mem_seal_key. rewrite bt_get_insert, (proj2 (ord_eqb_true _ _) eq_refl). cbn. by rewrite Hd1.
  - cbn. unfold mem_open_key. rewrite bt_get_insert, (proj2 (ord_eqb_true _ _) eq_refl). cbn. rewrite Hd2. cbn. by rewrite <- Hk.
  - done.
  - done.
Qed.
End Carry.
