(* ===== verification/AfcTheorems.v ===== *)
(** Fast channels: the claims, with a small cipher as an instance of the HPKE
    contexts. *)
From S2P Require Import Prelude Collections Bytes PolicyData AfcTypes AfcClient AfcShm AfcLayout AfcShmProofs AfcShmSys AfcMutex AfcChannels.
Local Open Scope string_scope.
Local Open Scope list_scope.
Local Open Scope nat_scope.

(** * An instance of the laws *)
(** A cipher that only authenticates: the tag is a checksum of the key, the
    sequence number, the additional data and the text. *)
Module AfcExample.
Definition TAG : nat := 8.
Definition MAX : Z := (2 ^ 64 - 2)%Z.
Definition tag_of (k : list u8 * list u8) (q : Z) (ad pt : list u8) : list u8 :=
  le_bytes TAG (from_le (k.1 ++ k.2) + 3 * q + 5 * from_le ad + 7 * from_le pt).
Definition ex_seal (k : list u8 * list u8) (q : Z) (ad pt : list u8) : list u8 := pt ++ tag_of k q ad pt.
Definition ex_open (k : list u8 * list u8) (q : Z) (ad ct : list u8) : option (list u8) :=
  match split_last_chunk TAG ct with
  | Some (pt, tag) => if bool_decide (tag = tag_of k q ad pt) then Some pt else None
  | None => None
  end.

Record Ctx := mkCtx { cx_key : list u8; cx_nonce : list u8; cx_seq : Z }.
Definition cx_pair (c : Ctx) : list u8 * list u8 := (cx_key c, cx_nonce c).

Definition seal_ok (q : Z) : bool := (0 <=? q)%Z && (q <=? MAX)%Z.
Definition ex_ctx_seal (pt ad : list u8) : M (Ctx * list u8) HpkeError Z := λ '(c, dst),
  if seal_ok (cx_seq c)
  then (Ok (cx_seq c), (mkCtx (cx_key c) (cx_nonce c) (cx_seq c + 1), ex_seal (cx_pair c) (cx_seq c) ad pt))
  else (Err HpkeMessageLimitReached, (c, dst)).
Definition ex_ctx_seal_in_place (ad : list u8) : M (Ctx * (list u8 * list u8)) HpkeError Z :=
  λ '(c, (data, tag)),
  if seal_ok (cx_seq c)
  then (Ok (cx_seq c), (mkCtx (cx_key c) (cx_nonce c) (cx_seq c + 1),
                        (data, tag_of (cx_pair c) (cx_seq c) ad data)))
  else (Err HpkeMessageLimitReached, (c, (data, tag))).
Definition ex_ctx_open_at (c : Ctx) (ct ad : list u8) (q : Z) : M (list u8) HpkeError unit := λ dst,
  if (MAX <? q)%Z then (Err HpkeMessageLimitReached, dst)
  else match ex_open (cx_pair c) q ad ct with
       | Some pt => (Ok tt, pt ++ drop (length pt) dst)
       | None => (Err HpkeOpenAuthentication, dst)
       end.
Definition ex_ctx_open_in_place_at (c : Ctx) (tag ad : list u8) (q : Z) : M (list u8) HpkeError unit := λ data,
  if (MAX <? q)%Z then (Err HpkeMessageLimitReached, data)
  else match ex_open (cx_pair c) q ad (data ++ tag) with
       | Some pt => (Ok tt, pt)
       | None => (Err HpkeOpenAuthentication, data)
       end.

#[export] Instance ex_hpke : Hpke := {|
  SealCtx := Ctx;
  OpenCtx := Ctx;
  KEY_SIZE := 4;
  NONCE_SIZE := 4;
  TAG_SIZE := TAG;
  seal_ctx_new k n q := Ok (mkCtx k n q);
  open_ctx_new k n q := Ok (mkCtx k n q);
  seal_ctx_seq := cx_seq;
  seal_ctx_seal := ex_ctx_seal;
  seal_ctx_seal_in_place := ex_ctx_seal_in_place;
  open_ctx_open_at := ex_ctx_open_at;
  open_ctx_open_in_place_at := ex_ctx_open_in_place_at
|}.

Lemma length_tag k q ad pt : length (tag_of k q ad pt) = TAG.
Proof. apply length_le_bytes. Qed.

Lemma ex_open_seal k q ad pt : ex_open k q ad (ex_seal k q ad pt) = Some pt.
Proof.
  unfold ex_open, ex_seal. rewrite split_last_chunk_app by apply length_tag. by rewrite bool_decide_true.
Qed.

Lemma ex_open_tidy k q ad ct pt : ex_open k q ad ct = Some pt → ct = ex_seal k q ad pt.
Proof.
  unfold ex_open. destruct (split_last_chunk TAG ct) as [[p t]|] eqn:E; [|done].
  apply split_last_chunk_Some in E as [-> _]. case_bool_decide as Ht; [|done]. intros [= ->].
  unfold ex_seal. by rewrite Ht.
Qed.

Lemma seal_ok_range q : seal_ok q = true → u64_ok q ∧ (q ≤ MAX)%Z.
Proof.
  unfold seal_ok, u64_ok, MAX. intros [H1%Z.leb_le H2%Z.leb_le]%andb_true_iff. split; [|done].
  split; [done|]. change (256 ^ Z.of_nat 8)%Z with (2 ^ 64)%Z. lia.
Qed.

#[export] Program Instance ex_hpke_laws : HpkeLaws := {|
  aead_seal := ex_seal;
  aead_open := ex_open;
  max_seq := MAX;
  seal_key_of := cx_pair;
  open_key_of := cx_pair
|}.
Next Obligation. done. Qed.
Next Obligation. intros k q ad pt. unfold ex_seal. by rewrite length_app, length_tag. Qed.
Next Obligation. apply ex_open_seal. Qed.
Next Obligation. apply ex_open_tidy. Qed.
Next Obligation. by intros k n q c [= <-]. Qed.
Next Obligation. done. Qed.
Next Obligation. by intros k n q c [= <-]. Qed.
Next Obligation. done. Qed.
Next Obligation.
  intros c pt ad dst Hlen. cbn. unfold ex_ctx_seal. destruct (seal_ok (cx_seq c)) eqn:E; [|done].
  apply seal_ok_range in E as [? ?]. by split_and!.
Qed.
Next Obligation.
  intros c ad data tag Hlen. cbn. unfold ex_ctx_seal_in_place. destruct (seal_ok (cx_seq c)) eqn:E; [|done].
  apply seal_ok_range in E as [? ?]. by split_and!.
Qed.
Next Obligation.
  intros c ct ad q dst Ht Hd. cbn. unfold ex_ctx_open_at. destruct (Z.ltb_spec MAX q); [done|].
  destruct (ex_open _ _ _ _) as [pt|]; [|done]. split; [done|]. by exists pt.
Qed.
Next Obligation.
  intros c tag ad q data Ht. cbn. unfold ex_ctx_open_in_place_at. destruct (Z.ltb_spec MAX q); [done|].
  by destruct (ex_open _ _ _ _).
Qed.

(** Channels, keys and memories for the examples. *)
Definition key_a : RawKey := mkRawKey [Byte.x01; Byte.x02; Byte.x03; Byte.x04] [Byte.x05; Byte.x06; Byte.x07; Byte.x08].
Definition key_b : RawKey := mkRawKey [Byte.x11; Byte.x12; Byte.x13; Byte.x14] [Byte.x15; Byte.x16; Byte.x17; Byte.x18].
Definition alice : NodeId := mkNodeId 1.
Definition bob : NodeId := mkNodeId 2.
Definition label7 : ChanLabel := mkLabel 7.
Definition to_bob : ChannelId := mkChannelId bob label7.
Definition from_alice : ChannelId := mkChannelId alice label7.
Definition hello : list u8 := String.list_byte_of_string "hello".
Definition world : list u8 := String.list_byte_of_string "world!".

#[export] Instance ex_csprng : Csprng nat := λ n, (mkRawKey (le_bytes 4 (Z.of_nat n)) (le_bytes 4 0), S n).
#[export] Instance ex_hash : TupleHash := λ l, take 16 (concat l ++ replicate 16 Byte.x00).

(** The memory state of each side, with the key of one channel. *)
Definition ctx_a : Ctx := mkCtx (rk_key key_a) (rk_base_nonce key_a) 0.
Definition alice_state : MemAfc := [(to_bob, SealOnly (mkSealKey ctx_a))].
Definition bob_state : MemAfc := [(from_alice, OpenOnly (mkOpenKey ctx_a))].
Definition sent : outcome AfcError Header * (MemAfc * list u8) :=
  client_seal to_bob hello (alice_state, replicate 30 Byte.x00).
Definition st0 : ShmState := mkShmState 3 256 1024.
Lemma triple_eta {A B C} (p : A * (B * C)) a : p.1 = a → p = (a, (p.2.1, p.2.2)).
Proof. intros <-. by destruct p as [? [? ?]]. Qed.
Lemma pair_eta_l {A B} (p : A * B) a : p.1 = a → p = (a, p.2).
Proof. intros <-. by destruct p. Qed.
(** Keys for the set-up of channels: a key agreement over the natural numbers,
    with the public key [3 * sk], and an in-memory key store. *)
Definition unary (n : nat) : list u8 := replicate n Byte.x00.
Record KemCtx := mkKemCtx { kc_secret : nat; kc_info : list u8 }.
Definition kem_export (c : KemCtx) (l : list u8) : outcome HpkeError (list u8) :=
  Ok (le_bytes 4 (Z.of_nat (kc_secret c + length l + length (kc_info c)))).
Definition kem_parts (c : KemCtx) : option (list u8 * list u8) :=
  Some (le_bytes 4 (Z.of_nat (kc_secret c)), le_bytes 4 (Z.of_nat (length (kc_info c)))).
#[export] Instance ex_kem : HpkeKem := {|
  DecapKey := nat;
  EncapKey := nat;
  KemEncap := nat;
  SendCtx := KemCtx;
  RecvCtx := KemCtx;
  decap_public sk := Ok (3 * sk);
  encap_key_export := unary;
  decode_enc_pk b := Ok (length b);
  encap_as_bytes := unary;
  encap_import b := Ok (length b);
  setup_send sk pk info root := Ok (3 * root, mkKemCtx (root * pk + 2 * (sk * pk)) info);
  setup_recv pk enc sk info := Ok (mkKemCtx (sk * enc + 2 * (sk * pk)) info);
  send_export := kem_export;
  recv_export := kem_export;
  send_raw_parts := kem_parts;
  recv_raw_parts := kem_parts
|}.
#[export] Instance ex_kem_laws : HpkeKemLaws.
Proof.
  constructor.
  - intros skA pkA skB pkB info root enc ctx [= <-] [= <-] [= <- <-].
    exists (mkKemCtx (root * (3 * skB) + 2 * (skA * (3 * skB))) info). split; [|done].
    change (Ok (mkKemCtx (skB * (3 * root) + 2 * (skB * (3 * skA))) info)
      = Ok (E := HpkeError) (mkKemCtx (root * (3 * skB) + 2 * (skA * (3 * skB))) info)). do 2 f_equal. lia.
  - done.
  - intros. by eexists.
  - intros e. cbn. f_equal. apply length_replicate.
Qed.

#[export] Instance ex_engine : Engine nat nat := {|
  eng_keygen := λ n, (n, S n);
  wrap_secret _ sk := λ r, (Ok (sk + 5), r);
  unwrap_secret w := Ok (w - 5)
|}.
#[export] Instance ex_engine_laws : EngineLaws nat nat.
Proof. constructor. intros id sk r r' w [= <- <-]. cbn. f_equal. lia. Qed.
#[export] Instance ex_codec : WrappedCodec nat := {|
  wk_to_allocvec n := Some (unary n);
  wk_from_bytes b := Some (length b)
|}.
Lemma ex_codec_roundtrip (n : nat) b : wk_to_allocvec n = Some b → wk_from_bytes b = Some n.
Proof. intros [= <-]. cbn. f_equal. apply length_replicate. Qed.
#[export] Instance ex_store_laws : KeyStoreLaws MemStore nat := mem_store_laws ex_codec_roundtrip.
#[export] Instance ex_suite : SuiteIds := {| suite_ids := [Byte.x01]; suite_id := [Byte.x02] |}.

(** Alice's secret key is 2, Bob's is 3. *)
Definition alice_id : Id := [Byte.x0a].
Definition bob_id : Id := [Byte.x0b].
Definition key_id : Id := [Byte.x0c].
Definition alice_store : MemStore := [(key_id, unary 7)].
Definition bob_store : MemStore := [(key_id, unary 8)].
Lemma alice_has_key : has_key nat alice_store key_id (unary 6).
Proof. split; [split; [repeat constructor|by eexists]|by exists 2, 6]. Qed.
Lemma bob_has_key : has_key nat bob_store key_id (unary 9).
Proof. split; [split; [repeat constructor|by eexists]|by exists 3, 9]. Qed.
Definition bidi_made : outcome FfiError AfcChannel * (MemStore * nat) :=
  create_bidi_channel [Byte.x01] key_id alice_id (unary 9) bob_id label7 (alice_store, 4).
Definition uni_made : outcome FfiError AfcChannel * (MemStore * nat) :=
  create_uni_channel [Byte.x01] key_id (unary 9) bob_id alice_id label7 (alice_store, 4).
Definition made (c : outcome FfiError AfcChannel * (MemStore * nat)) : AfcChannel :=
  match c.1 with Ok ac => ac | _ => mkAfcChannel [] [] end.
Definition alice_handled : outcome HandlerError (Directed SealKey OpenKey) * MemStore :=
  bidi_channel_created (R := nat) alice_id
    (mkBidiCreated [Byte.x01] alice_id key_id bob_id (unary 9) label7 (ac_key_id (made bidi_made))) bidi_made.2.1.
Definition bob_handled : outcome HandlerError (Directed SealKey OpenKey) :=
  bidi_channel_received (R := nat) bob_id
    (mkBidiReceived [Byte.x01] alice_id (unary 6) bob_id key_id label7 (ac_peer_encap (made bidi_made))) bob_store.
Definition handled (o : outcome HandlerError (Directed SealKey OpenKey)) : Directed SealKey OpenKey :=
  match o with Ok d => d | _ => OpenOnly (mkOpenKey ctx_a) end.
Lemma handled_ok o : is_ok o = true → o = Ok (handled o).
Proof. by destruct o. Qed.
End AfcExample.
Import AfcExample.

(** * Messages *)
(** C30: What one side seals, the other side opens. If a client's [seal] succeeds
    for a channel, then the message, sent behind its header, is parsed as a data
    message with that payload, and a client whose channel with that label has
    the same key opens it to the plaintext and reports the channel's label and
    the sequence number under which it was sealed, which the message's own
    header carries; for any two implementations of the shared state. *)
Theorem open_recovers_sealed `{HpkeLaws} {S1 S2 : Type} `{!AfcState S1, !AfcLaws S1, !AfcState S2, !AfcLaws S2}
    (s1 s1' : S1) (s2 : S2) id peer pt (dst dst' dst2 : list u8) k h :
  afc_inv s1 → afc_inv s2 → u32_ok (label_u32 (ch_label id)) →
  afc_seal_key s1 id = Some k → afc_open_key s2 (mkChannelId peer (ch_label id)) = Some k →
  afc_open_imports s2 k = true → length pt ≤ length dst2 →
  client_seal id pt (s1, dst) = (Ok h, (s1', dst')) →
  let msg := take (length pt + CLIENT_OVERHEAD) dst' in
  message_try_parse (header_bytes h ++ msg) = Ok (mkAfcMessage h (PayData msg)) ∧
  ∃ q s2', msg = aead_seal k q (ad_bytes (ch_label id)) pt ++ data_header_bytes (mkDataHeader (ch_label id) q) ∧
    data_header_try_parse (drop (length msg - DATA_HEADER_SIZE) msg) = Ok (mkDataHeader (ch_label id) q) ∧
    client_open peer msg (s2, dst2) = (Ok (ch_label id, q), (s2', pt ++ drop (length pt) dst2)).
Proof.
  intros Hi1 Hi2 Hl Hk1 Hk2 Himp Hlen E msg.
  destruct (client_seal_opens _ _ _ _ _ _ _ _ _ _ _ Hi1 Hi2 Hl Hk1 Hk2 Himp Hlen E) as (-> & q & s2' & Hm & Hq & Ho).
  fold msg in Hm, Ho. split.
  - unfold message_try_parse. rewrite split_first_chunk_app by apply length_header_bytes. cbn [ok_or mbind outcome_bind].
    by rewrite header_parse_bytes.
  - exists q, s2'. split_and!; [exact Hm| |exact Ho]. rewrite Hm. unfold sealed_message.
    rewrite length_app, length_data_header_bytes, drop_app_length' by lia. by apply data_header_parse_bytes.
Qed.

Lemma open_recovers_sealed_witness :
  ∃ msg q s2', sent.1 = Ok (mkHeader V1 MtData label7) ∧
    data_header_try_parse (drop (length msg - DATA_HEADER_SIZE) msg) = Ok (mkDataHeader label7 q) ∧
    client_open alice msg (bob_state, replicate 5 Byte.x00)
      = (Ok (label7, q), (s2', hello)).
Proof.
  assert (afc_inv alice_state) as Ha by (change (bt_wf alice_state); repeat constructor).
  assert (afc_inv bob_state) as Hb by (change (bt_wf bob_state); repeat constructor).
  assert (u32_ok (label_u32 (ch_label to_bob))) as Hl by (split; vm_compute; congruence).
  assert (sent.1 = Ok (mkHeader V1 MtData label7)) as Hr by (vm_compute; reflexivity).
  assert (sent = (Ok (mkHeader V1 MtData label7), (sent.2.1, sent.2.2))) as Hrun.
  { rewrite <- Hr. by destruct sent as [? [? ?]]. }
  assert (afc_seal_key alice_state to_bob = Some (raw_pair key_a)) as Hs by (vm_compute; reflexivity).
  assert (afc_open_key bob_state (mkChannelId alice label7) = Some (raw_pair key_a)) as Ho by (vm_compute; reflexivity).
  destruct (open_recovers_sealed (S1 := MemAfc) (S2 := MemAfc) alice_state sent.2.1 bob_state to_bob alice hello
    (replicate 30 Byte.x00) sent.2.2 (replicate 5 Byte.x00) (raw_pair key_a) (mkHeader V1 MtData label7)
    Ha Hb Hl Hs Ho eq_refl (le_n 5) Hrun) as [_ (q & s2' & _ & Hq & E)].
  eexists _, q, s2'. split; [exact Hr|]. split; [exact Hq|exact E].
Defined.

(** C31: A client opens exactly the messages that were sealed for it. On every
    input [open] returns; it succeeds with a label, a sequence number and a
    plaintext if and only if the input is the message that the channel's key
    makes of them; and when it fails the output buffer is untouched or all
    zeros. *)
Theorem open_accepts_exactly `{HpkeLaws} {S : Type} `{!AfcState S, !AfcLaws S} (s : S) peer msg (dst : list u8) :
  afc_inv s → (∀ l, importable s peer l) →
  let '(r, (s', dst')) := client_open peer msg (s, dst) in
  afc_inv s' ∧ same_keys s s' ∧
  (∀ l q pt, length pt ≤ length dst →
     (r = Ok (l, q) ∧ length pt + CLIENT_OVERHEAD = length msg ∧ dst' = pt ++ drop (length pt) dst) ↔
     accepts s peer l q pt msg) ∧
  match r with
  | Ok (l, q) => ∃ pt, accepts s peer l q pt msg ∧ length pt ≤ length dst
  | Err _ => dst' = dst ∨ dst' = zeroed dst
  | Panic _ => False
  end.
Proof.
  intros Hi Himp. destruct (client_open peer msg (s, dst)) as [r [s' dst']] eqn:E.
  pose proof (client_open_spec _ _ _ _ _ _ _ Hi E) as (Hi' & Hk' & Hr).
  split_and!; [done..| |].
  - intros l q pt Hlen. split.
    + intros (-> & Hmsg & ->). destruct Hr as (pt' & Hacc & _ & Hd).
      assert (length pt = length pt') as Hpt.
      { destruct Hacc as (_ & _ & _ & k & _ & ->). rewrite length_sealed in Hmsg. lia. }
      by apply app_inj_1 in Hd as [-> _].
    + intros Hacc. destruct (client_open_accepts s peer l q pt msg dst Hi (Himp l) Hlen Hacc) as [s'' E'].
      rewrite E in E'. injection E' as -> _ ->. split_and!; [done| |done].
      destruct Hacc as (_ & _ & _ & k & _ & ->). by rewrite length_sealed.
  - destruct r as [[l q]|e|w]; [|by destruct Hr|done]. destruct Hr as (pt & Hacc & Hlen & ->). by exists pt.
Qed.

Lemma open_accepts_exactly_witness : accepts bob_state alice label7 0 hello (take 25 sent.2.2).
Proof.
  assert (afc_inv bob_state) as Hb by (change (bt_wf bob_state); repeat constructor).
  pose proof (open_accepts_exactly bob_state alice (take 25 sent.2.2) (replicate 5 Byte.x00) Hb
    ltac:(done)) as HT.
  assert ((client_open alice (take 25 sent.2.2) (bob_state, replicate 5 Byte.x00)).1 = Ok (label7, 0%Z)) as E1
    by (vm_compute; reflexivity).
  assert ((client_open alice (take 25 sent.2.2) (bob_state, replicate 5 Byte.x00)).2.2 = hello) as E2
    by (vm_compute; reflexivity).
  destruct (client_open _ _ _) as [r [s' dst']]. cbn [fst snd] in E1, E2. destruct HT as (_ & _ & HT & _).
  apply (HT label7 0%Z hello); [vm_compute; lia|]. split; [exact E1|]. split; [vm_compute; reflexivity|exact E2].
Defined.

(** C32: Opening in place gives what opening into a buffer gives. For a buffer
    with at least a tag and a header, [open_in_place] succeeds exactly when
    [open] does, with the same label and sequence number, and leaves the
    plaintext that [open] writes; otherwise the buffer is as it was or all
    zeros. *)
Theorem open_in_place_agrees `{HpkeLaws} {S : Type} `{!AfcState S, !AfcLaws S} `{BufLaws B}
    checked (s : S) peer (data : B) (dst : list u8) :
  afc_inv s → (∀ l, importable s peer l) → buf_wf data → CLIENT_OVERHEAD ≤ length (buf_bytes data) →
  length dst = length (buf_bytes data) - CLIENT_OVERHEAD →
  let '(r, (_, data')) := client_open_in_place checked peer (s, data) in
  let '(r', (_, dst')) := client_open peer (buf_bytes data) (s, dst) in
  (∀ l q pt, r = Ok (l, q) ∧ buf_bytes data' = pt ↔ r' = Ok (l, q) ∧ dst' = pt) ∧
  is_panic r = false ∧
  (is_ok r = false → buf_bytes data' = buf_bytes data ∨ buf_bytes data' = zeroed (buf_bytes data)).
Proof.
  intros Hi Himp Hwf Hlen Hdst.
  destruct (client_open_in_place checked peer (s, data)) as [r [s1 data']] eqn:E1.
  destruct (client_open peer (buf_bytes data) (s, dst)) as [r' [s2 dst']] eqn:E2.
  apply client_open_in_place_spec in E1 as (_ & _ & _ & Hr); [|done..].
  pose proof (client_open_spec _ _ _ _ _ _ _ Hi E2) as (_ & _ & Hr').
  assert (∀ l q pt, accepts s peer l q pt (buf_bytes data) → length pt = length dst) as Hpt.
  { intros l q pt (_ & _ & _ & k & _ & E). rewrite E, length_sealed in Hdst. lia. }
  split_and!.
  - intros l q pt. split; intros [-> <-].
    + destruct (client_open_accepts s peer l q (buf_bytes data') (buf_bytes data) dst Hi (Himp l)) as [s' E];
        [by rewrite (Hpt _ _ _ Hr)|done|].
      rewrite E2 in E. injection E as -> _ ->. by rewrite drop_ge, app_nil_r by by rewrite (Hpt _ _ _ Hr).
    + destruct Hr' as (pt & Hacc & _ & ->). rewrite drop_ge, app_nil_r by by rewrite (Hpt _ _ _ Hacc).
      destruct r as [[l' q']|e|w].
      * by destruct (accepts_functional _ _ _ _ _ _ _ _ _ Hr Hacc) as (-> & -> & ->).
      * destruct Hr as [_ Hr]. by destruct (Hr _ _ _ Hacc (Himp l)).
      * lia.
  - destruct r; [done..|]. lia.
  - destruct r; cbn; [done|by destruct Hr|lia].
Qed.

Lemma open_in_place_agrees_witness :
  ∃ s' data', client_open_in_place (B := FixedBuf) true alice (bob_state, mkFixedBuf (sent.2.2) 25)
    = (Ok (label7, 0%Z), (s', data')) ∧ buf_bytes data' = hello.
Proof.
  assert (afc_inv bob_state) as Hb by (change (bt_wf bob_state); repeat constructor).
  assert (buf_wf (mkFixedBuf (sent.2.2) 25)) as Hw by (vm_compute; split; [lia|done]).
  pose proof (open_in_place_agrees true bob_state alice (mkFixedBuf (sent.2.2) 25) (replicate 5 Byte.x00) Hb
    ltac:(done) Hw ltac:(vm_compute; lia) ltac:(vm_compute; reflexivity)) as HT.
  assert ((client_open alice (buf_bytes (mkFixedBuf (sent.2.2) 25)) (bob_state, replicate 5 Byte.x00)).1
    = Ok (label7, 0%Z)) as E1 by (vm_compute; reflexivity).
  assert ((client_open alice (buf_bytes (mkFixedBuf (sent.2.2) 25)) (bob_state, replicate 5 Byte.x00)).2.2 = hello)
    as E2 by (vm_compute; reflexivity).
  destruct (client_open_in_place true alice _) as [r [s1 data']].
  destruct (client_open alice _ _) as [r' [s2 dst']]. cbn [fst snd] in E1, E2.
  destruct HT as [HT _]. destruct (proj2 (HT label7 0%Z hello) (conj E1 E2)) as [-> Hd].
  by exists s1, data'.
Defined.

(** A message that is too short for a tag is an authentication failure for
    [open], but [open_in_place] subtracts the size of the tag from its length
    without a check: in builds that check arithmetic it panics, whatever the
    state and the sender. *)
Theorem short_message_panics_in_place `{HpkeLaws} {S : Type} `{!AfcState S} `{Buf B}
    (s : S) peer (data : B) (dst : list u8) :
  DATA_HEADER_SIZE ≤ length (buf_bytes data) < CLIENT_OVERHEAD →
  (∃ w, client_open_in_place true peer (s, data) = (Panic w, (s, data))) ∧
  client_open peer (buf_bytes data) (s, dst) = (Err AeAuthentication, (s, dst)).
Proof.
  intros Hlen. unfold client_open_in_place, client_open.
  destruct (split_last_chunk _ (buf_bytes data)) as [[rest header]|] eqn:Es.
  2:{ apply split_last_chunk_None in Es. lia. }
  apply split_last_chunk_Some in Es as [Eb Hh]. rewrite Eb, length_app in Hlen. unfold CLIENT_OVERHEAD in Hlen.
  destruct (data_header_parse_total header Hh) as (h & -> & _).
  unfold len_sub. rewrite (proj2 (Nat.leb_gt TAG_SIZE (length rest))) by lia. split; [by eexists|].
  rewrite (proj2 (checked_sub_None (length rest) TAG_SIZE)) by lia. done.
Qed.

Lemma short_message_panics_in_place_witness :
  ∃ w, client_open_in_place (B := FixedBuf) true alice (bob_state, mkFixedBuf (replicate 12 Byte.x00) 12)
       = (Panic w, (bob_state, mkFixedBuf (replicate 12 Byte.x00) 12)).
Proof.
  destruct (short_message_panics_in_place bob_state alice (mkFixedBuf (replicate 12 Byte.x00) 12) [])
    as [Hw _]; [vm_compute; lia|exact Hw].
Defined.

(** * The layout of the memory *)
(** C26: The memory is laid out as its users assume. For every architecture's
    cache line and any number of channels, [SharedMem::layout] never panics,
    and without page alignment it fails only for lists larger than [2^60]
    bytes. When it succeeds, the header and the two sides follow one another
    inside the memory without overlapping, aligned to cache lines, and every
    channel of a side lies inside it and is aligned, although the channels
    begin before the place that the layout reserves for them. A memory that
    [State::open] creates then passes its own validation, and its two sides
    are two. *)
Theorem memory_layout_is_sound `{Hpke} cache_line feature getpagesize (max_chans : nat) mapped :
  cache_line ∈ [32; 64; 128]%Z → (Z.of_nat (KEY_SIZE + NONCE_SIZE) ≤ 2 ^ 32)%Z → is_panic getpagesize = false →
  let n := Z.of_nat max_chans in
  match shm_layout cache_line feature getpagesize n with
  | Ok L => ∃ side_size,
      (ly_size (ly_shared_mem cache_line) ≤ shl_side_a L ∧ shl_side_a L + side_size ≤ shl_side_b L ∧
       shl_side_b L + side_size ≤ ly_size (shl_layout L) ≤ ISIZE_MAX ∧
       (cache_line | shl_side_a L) ∧ (cache_line | shl_side_b L) ∧
       ∀ i, 0 ≤ i < n → (8 | CHANS_OFF + ly_size ly_shm_chan * i) ∧
                        CHANS_OFF + ly_size ly_shm_chan * (i + 1) ≤ side_size)%Z
  | Err _ => feature = true ∨ (2 ^ 60 < ly_size ly_shm_chan * n)%Z
  | Panic _ => False
  end ∧
  match state_open cache_line feature getpagesize true max_chans mapped with
  | Ok (st, m) => st_side_a st ≠ st_side_b st ∧ st_max_chans st = max_chans ∧
      ∃ size pa, m = shm_init max_chans size pa (st_side_a st) (st_side_b st)
  | Err e => ∃ e', e = ShmLayoutErr e' ∧ shm_layout cache_line feature getpagesize n = Err e'
  | Panic _ => False
  end.
Proof.
  intros Hcl Hkeys Hpage n. split; [|by apply state_open_create].
  assert (0 ≤ n)%Z as Hn by lia. destruct (shm_chan_layout Hkeys) as (_ & _ & Hd & ?).
  destruct (chan_list_fixed cache_line Hcl) as (_ & _ & Hoff & _).
  pose proof (shm_layout_spec cache_line Hcl Hkeys feature getpagesize Hpage n Hn) as HL.
  pose proof (shm_layout_succeeds cache_line Hcl Hkeys feature getpagesize n) as HS.
  destruct (shm_layout _ _ _ n) as [L|e|w]; [|destruct feature; [by left|right]|done].
  - destruct HL as (lst & (Hl & Hdiv & Hfit) & ? & ? & ? & Da & Db & _ & ?). exists (ly_size lst).
    split_and!; [lia..|by etransitivity|by etransitivity|]. intros i Hi. split; [|nia].
    rewrite Hoff. apply Z.divide_add_r; [by exists 5%Z|by apply Z.divide_mul_l].
  - apply Z.nle_gt. intros Hle. by discriminate (HS eq_refl Hn Hle).
Qed.

Lemma memory_layout_is_sound_witness :
  ∃ st m, state_open 64 false (Ok (Some 4096%Z)) true 3 (shm_init 0 0 false 0 0) = Ok (st, m) ∧
          st_side_a st ≠ st_side_b st.
Proof.
  pose proof (memory_layout_is_sound 64 false (Ok (Some 4096%Z)) 3 (shm_init 0 0 false 0 0)
    ltac:(by right; left) ltac:(by vm_compute) eq_refl) as [_ HT].
  assert (is_ok (state_open 64 false (Ok (Some 4096%Z)) true 3 (shm_init 0 0 false 0 0)) = true) as Hok
    by (vm_compute; reflexivity).
  destruct (state_open _ _ _ _ _ _) as [[st m]|e|w]; [|discriminate Hok..].
  exists st, m. split; [reflexivity|exact (proj1 HT)].
Defined.

(** * The shared memory *)
(** C19: The shared memory is a map of channels. Start from a fresh memory and
    let a writer and any number of readers do any fewer than [2^32] operations
    in any order: every operation of the writer returns what it returns on the
    map, so [add] fails only for a new channel when the memory is full, and the
    memory shows the channels of the map with their keys; both sides agree on
    which channels exist. *)
Theorem shm_refines_channel_map `{HpkeLaws, TupleHash} {R : Type} `{Csprng R}
    (st : ShmState) ops size aligned (rng : R) n :
  st_side_a st ≠ st_side_b st → (Z.of_nat (length ops) < 2 ^ 32)%Z →
  let s := sys_run st ops (sys_init st size aligned rng n) in
  let c := map_run (st_max_chans st) ops [] in
  s.1 = c.1 ∧ (∀ id, shm_view (sy_mem s.2) id = bt_get id c.2) ∧
  (∀ id, ws_exists false st id (sy_mem s.2) = (Ok (bt_contains id c.2), sy_mem s.2)) ∧
  ∀ i rs id, sy_readers s.2 !! i = Some rs →
    rs_exists false st id (sy_mem s.2, rs) = (Ok (bt_contains id c.2), (sy_mem s.2, rs)).
Proof.
  intros Hne Hn s c. destruct (sys_reached st ops size aligned rng n Hne Hn) as (dr & dw & Hs & Hr & [Hw Hv]).
  fold s in Hs, Hr. fold c in Hr, Hw, Hv. pose proof (sv_mem _ _ _ _ _ Hs) as Hm.
  assert (∀ id, bool_decide (is_Some (list_view dr id)) = bt_contains id c.2) as Hex.
  { intros id. rewrite Hv. unfold bt_contains. by destruct (bt_get id c.2). }
  split_and!; [done|intros id; by rewrite (shm_view_eq st _ dr dw)|..].
  - intros id. unfold ws_exists. rewrite (load_write_ok false st _ dr dw) by done.
    rewrite (cl_exists_ok false st id dw) by apply Hm.
    assert (list_view dw id = list_view dr id) as -> by (symmetry; unfold list_view; apply chan_at_same, Hm).
    by rewrite Hex.
  - intros i rs id _. by rewrite (rs_exists_ok false st id _ dr dw), Hex by done.
Qed.

Lemma shm_refines_channel_map_witness :
  (sys_run st0 [AfcAdd to_bob (SealOnly key_a); AfcReader 0 (JobSeal to_bob hello);
                AfcAdd from_alice (OpenOnly key_b); AfcRemove to_bob] (sys_init st0 1024 true 0 1)).1
    = [Ok tt; Ok tt; Ok tt; Ok tt] ∧
  ws_exists false st0 to_bob
    (sy_mem (sys_run st0 [AfcAdd to_bob (SealOnly key_a); AfcReader 0 (JobSeal to_bob hello);
                AfcAdd from_alice (OpenOnly key_b); AfcRemove to_bob] (sys_init st0 1024 true 0 1)).2)
    = (Ok false, sy_mem (sys_run st0 [AfcAdd to_bob (SealOnly key_a); AfcReader 0 (JobSeal to_bob hello);
                AfcAdd from_alice (OpenOnly key_b); AfcRemove to_bob] (sys_init st0 1024 true 0 1)).2).
Proof.
  destruct (shm_refines_channel_map st0 [AfcAdd to_bob (SealOnly key_a); AfcReader 0 (JobSeal to_bob hello);
    AfcAdd from_alice (OpenOnly key_b); AfcRemove to_bob] 1024 true 0 1) as (Hr & _ & Hw & _);
    [by vm_compute|by vm_compute|].
  split; [exact Hr|exact (Hw to_bob)].
Defined.

(** C20: A reader uses the keys that the writer has set, and only those. Whatever
    it has cached, after any fewer than [2^32] operations of the writer and of
    the readers a call on a channel runs on the key that the map of channels
    holds for it at that moment, or fails with an import error of that key; and
    for a channel that is not in the map, or not for this direction, the call
    is refused and nothing is written. A removed channel is refused at once. *)
Theorem readers_serve_exactly_the_map `{HpkeLaws, TupleHash} {R : Type} `{Csprng R}
    (st : ShmState) ops size aligned (rng : R) n i rs id
    {X T} (f : M (SealKey * X) AfcError T) (g : OpenKey → M X AfcError T) (x : X) :
  st_side_a st ≠ st_side_b st → (Z.of_nat (length ops) < 2 ^ 32)%Z →
  good_closure f x → (∀ k, is_panic (g k x).1 = false) →
  let s := (sys_run st ops (sys_init st size aligned rng n)).2 in
  let c := (map_run (st_max_chans st) ops []).2 in
  sy_readers s !! i = Some rs →
  (let '(r, (_, x')) := rs_seal false st id f ((sy_mem s, rs), x) in
   match bt_get id c ≫= dir_seal with
   | None => r = Err (AeNotFound id) ∧ x' = x
   | Some k => (∃ w q, seal_key_from_raw k q = Err w ∧ r = Err (AeCrypto (CeImport w)) ∧ x' = x) ∨
       ∃ key, seal_key_of (sk_ctx key) = raw_pair k ∧ r = closure_result (f (key, x)).1 ∧ x' = (f (key, x)).2.2
   end) ∧
  (let '(r, (_, x')) := rs_open false st id g ((sy_mem s, rs), x) in
   match bt_get id c ≫= dir_open with
   | None => r = Err (AeNotFound id) ∧ x' = x
   | Some k => (∃ w, imports (raw_pair k) = false ∧ r = Err (AeCrypto (CeImport w)) ∧ x' = x) ∨
       ∃ key, open_key_of (ok_ctx key) = raw_pair k ∧ r = closure_result (g key x).1 ∧ x' = (g key x).2
   end).
Proof.
  intros Hne Hn Hf Hg s c Hrs.
  destruct (sys_reached st ops size aligned rng n Hne Hn) as (dr & dw & [Hm Hca _] & _ & [_ Hv]).
  fold s in Hm, Hca. fold c in Hv. pose proof (Forall_lookup_1 _ _ _ _ Hca Hrs) as Hc.
  rewrite <- Hv. fold (view_seal dr id) (view_open dr id). split.
  - destruct (rs_seal_ok false st id f x _ dr dw rs Hm Hc (may_write_back_release dr rs) Hf)
      as (r & m' & rs' & x' & -> & _ & Hpost). exact Hpost.
  - destruct (rs_open_ok false st id g x _ dr dw rs Hm Hc Hg) as (r & rs' & x' & -> & _ & _ & Hpost). exact Hpost.
Qed.

Lemma readers_serve_exactly_the_map_witness :
  ∃ rs, sy_readers (sys_run st0 [AfcAdd to_bob (SealOnly key_a); AfcReader 0 (JobSeal to_bob hello);
                                 AfcRemove to_bob] (sys_init st0 1024 true 0 1)).2 !! 0 = Some rs ∧
    is_Some (rs_last_seal rs) ∧
    (rs_seal false st0 to_bob (seal_closure hello (client_auth_data label7))
      ((sy_mem (sys_run st0 [AfcAdd to_bob (SealOnly key_a); AfcReader 0 (JobSeal to_bob hello);
                             AfcRemove to_bob] (sys_init st0 1024 true 0 1)).2, rs), replicate 13 Byte.x00)).1
    = Err (AeNotFound to_bob).
Proof.
  set (ops := [AfcAdd to_bob (SealOnly key_a); AfcReader 0 (JobSeal to_bob hello); AfcRemove to_bob]).
  assert (match sy_readers (sys_run st0 ops (sys_init st0 1024 true 0 1)).2 !! 0 with
          | Some rs => match rs_last_seal rs with Some _ => true | None => false end
          | None => false end = true) as Hsome by (vm_compute; reflexivity).
  destruct (sy_readers _ !! 0) as [rs|] eqn:Hrs; [|discriminate Hsome]. exists rs.
  split; [reflexivity|]. split; [destruct (rs_last_seal rs); [by eexists|discriminate Hsome]|].
  pose proof (readers_serve_exactly_the_map st0 ops 1024 true 0 1 0 rs to_bob
    (seal_closure hello (client_auth_data label7)) (λ _ x, (Ok 0%Z, x)) (replicate 13 Byte.x00)
    ltac:(by vm_compute) ltac:(by vm_compute) (seal_closure_good hello label7 (replicate 13 Byte.x00) eq_refl)
    ltac:(done) Hrs) as [HT _].
  destruct (rs_seal _ _ _ _ _) as [r [s' x']].
  assert (bt_get to_bob (map_run (st_max_chans st0) ops []).2 ≫= dir_seal = None) as E by (vm_compute; reflexivity).
  rewrite E in HT. exact (proj1 HT).
Defined.

(** C22: As long as the writer makes no change and no other reader uses the
    memory, a reader never uses a sequence number of a channel twice. Let a new
    reader join a memory after any fewer than [2^32] operations, and then seal,
    open and ask in any order: of two messages of a channel the later one
    carries the larger number, although the numbers live in a cache of one key
    and reach the memory only when that key is evicted. This holds with and
    without debug assertions. *)
Theorem reader_never_reuses_sequence_numbers `{HpkeLaws, TupleHash} {R : Type} `{Csprng R}
    dbg (st : ShmState) ops size aligned (rng : R) n js :
  st_side_a st ≠ st_side_b st → (Z.of_nat (length ops) < 2 ^ 32)%Z →
  let m := sy_mem (sys_run st ops (sys_init st size aligned rng n)).2 in
  StronglySorted seq_before (run_jobs dbg st js (m, read_state_new)).1.
Proof.
  intros Hne Hn m. destruct (sys_reached st ops size aligned rng n Hne Hn) as (dr & dw & [Hm _ _] & _ & _).
  fold m in Hm. apply (run_jobs_seq dbg st js _ dr dw). split_and!; [done|done|apply cache_ok_new].
Qed.

Lemma reader_never_reuses_sequence_numbers_witness :
  StronglySorted seq_before
    (run_jobs true st0 [JobSeal to_bob hello; JobSeal to_bob world; JobSeal from_alice hello; JobSeal to_bob hello]
      (sy_mem (sys_run st0 [AfcAdd to_bob (SealOnly key_a); AfcAdd from_alice (Bidirectional key_b key_a)]
                 (sys_init st0 1024 true 0 1)).2, read_state_new)).1.
Proof.
  apply (reader_never_reuses_sequence_numbers true st0
    [AfcAdd to_bob (SealOnly key_a); AfcAdd from_alice (Bidirectional key_b key_a)] 1024 true 0 1); by vm_compute.
Defined.

(** With a second reader this fails: its older number is written back over the
    one of the first reader, which then uses a number again. *)
Definition to_bob8 : ChannelId := mkChannelId bob (mkLabel 8).
Definition numbers (msgs : list (ChannelId * list u8)) : list (ChannelId * option Z) := map (λ e, (e.1, msg_seq e.2)) msgs.
Example two_readers_reuse_sequence_number :
  let s0 := (sys_run st0 [AfcAdd to_bob (SealOnly key_a); AfcAdd to_bob8 (SealOnly key_b)] (sys_init st0 1024 true 0 0)).2 in
  let '(b1, (m1, rs_b)) := run_jobs false st0 [JobSeal to_bob hello] (sy_mem s0, read_state_new) in
  let '(a1, (m2, rs_a)) := run_jobs false st0 [JobSeal to_bob hello; JobSeal to_bob world; JobSeal to_bob8 hello] (m1, read_state_new) in
  let '(b2, (m3, _)) := run_jobs false st0 [JobSeal to_bob8 hello] (m2, rs_b) in
  let '(a2, _) := run_jobs false st0 [JobSeal to_bob world] (m3, rs_a) in
  numbers a1 = [(to_bob, Some 0%Z); (to_bob, Some 1%Z); (to_bob8, Some 0%Z)] ∧ numbers a2 = [(to_bob, Some 1%Z)].
Proof. vm_compute. split; reflexivity. Qed.

(** C23: A change of the writer makes a reader use a sequence number again,
    whatever the channels, keys and messages are. The writer adds a channel to
    any memory that was reached before; a new reader seals any messages for it,
    of which the first one carries the number 0; the writer adds any other
    channel; then the reader's next message carries the number 0 again, under
    the same key: the key is imported with the number in memory before the
    reader's own number is written back. *)
Theorem seal_after_add_reuses_sequence_number `{HpkeLaws, TupleHash} {R : Type} `{Csprng R}
    dbg (st : ShmState) ops size aligned (rng : R) n id keys k m0 rng0 pts msg sent m1 rs1 id' keys' m2 rng2 pt msg' s3 :
  st_side_a st ≠ st_side_b st → (Z.of_nat (length ops) < 2 ^ 32)%Z → dir_seal keys = Some k →
  let s := (sys_run st ops (sys_init st size aligned rng n)).2 in
  ws_add dbg st id keys (sy_mem s, sy_rng s) = (Ok tt, (m0, rng0)) →
  run_jobs dbg st (JobSeal id <$> pts) (m0, read_state_new) = ((id, msg) :: sent, (m1, rs1)) →
  id' ≠ id → ws_add dbg st id' keys' (m1, rng0) = (Ok tt, (m2, rng2)) →
  run_jobs dbg st [JobSeal id pt] (m2, rs1) = ([(id, msg')], s3) →
  (∃ pt0, msg = sealed_message (raw_pair k) 0 (ch_label id) pt0) ∧
  msg' = sealed_message (raw_pair k) 0 (ch_label id) pt.
Proof.
  intros Hne Hn Hk s Hadd Hrun Hid Hadd' Hrun'.
  destruct (sys_reached st ops size aligned rng n Hne Hn) as (dr & dw & [Hm _ _] & _ & _). fold s in Hm.
  destruct (ws_add_chans dbg st _ _ _ _ _ _ _ _ Hm Hadd) as (dr0 & dw0 & c1 & c2 & Hi0 & Hg0 & Hr0 & Hw0 & Hnew).
  destruct (Hnew k Hk) as (Hk1 & Hq1 & Hk2 & Hq2).
  apply (seals_from_memory dbg st id pts m0 dr0 dw0) in Hrun as (Hm1 & Hrs & Hfirst); [|done|by left].
  cbn [fst snd] in *. subst m1. destruct (Hfirst eq_refl _ _ eq_refl) as (_ & pt0 & c & Hc & _ & Hmsg).
  rewrite Hr0, bool_decide_true in Hc by done. injection Hc as <-. rewrite Hk1, Hq1 in Hmsg.
  destruct (ws_add_chans dbg st _ _ _ _ _ _ _ _ Hi0 Hadd') as (dr2 & dw2 & c3 & c4 & Hi2 & Hg2 & Hr2 & _).
  split; [by exists pt0|]. cbn [run_jobs] in Hrun'. destruct (run_job _ _ _ _) as [out s4] eqn:E.
  apply (run_seal_imports dbg st id pt m2 dr2 dw2) in E as [[-> _]|(msg2 & -> & (c & Hc & _ & ->) & _)]; [done| |done|].
  - rewrite Hr2, bool_decide_false, Hw0, bool_decide_true in Hc by done. injection Hc as <-.
    rewrite Hk2, Hq2 in Hrun'. by injection Hrun' as <-.
  - intros c0 Hc0. destruct Hrs as [Hnone|(c5 & Hc5 & _ & Hg5)]; [congruence|]. rewrite Hc0 in Hc5. injection Hc5 as <-.
    rewrite Hg5, Hg2. by apply not_eq_sym, gen_next_ne, (lo_gen _ _ (si_rok _ _ _ _ Hi0)).
Qed.

Lemma seal_after_add_reuses_sequence_number_witness :
  let s0 := (sys_run st0 [] (sys_init st0 1024 true 0 0)).2 in
  let a1 := ws_add false st0 to_bob (SealOnly key_a) (sy_mem s0, sy_rng s0) in
  let r1 := run_jobs false st0 (JobSeal to_bob <$> [hello; world]) (a1.2.1, read_state_new) in
  let a2 := ws_add false st0 from_alice (OpenOnly key_b) (r1.2.1, a1.2.2) in
  let r2 := run_jobs false st0 [JobSeal to_bob world] (a2.2.1, r1.2.2) in
  match r1.1, r2.1 with
  | (_, first) :: _, [(_, again)] =>
      (∃ pt0, first = sealed_message (raw_pair key_a) 0 label7 pt0) ∧ again = sealed_message (raw_pair key_a) 0 label7 world
  | _, _ => False
  end.
Proof.
  intros s0 a1 r1 a2 r2.
  assert (a1.1 = Ok tt) as E1 by (vm_compute; reflexivity). assert (a2.1 = Ok tt) as E3 by (vm_compute; reflexivity).
  assert (r1.1 = [(to_bob, sealed_message (raw_pair key_a) 0 label7 hello); (to_bob, sealed_message (raw_pair key_a) 1 label7 world)])
    as E2 by (vm_compute; reflexivity).
  assert (r2.1 = [(to_bob, sealed_message (raw_pair key_a) 0 label7 world)]) as E4 by (vm_compute; reflexivity).
  assert (st_side_a st0 ≠ st_side_b st0) as Hst by (vm_compute; congruence).
  assert (from_alice ≠ to_bob) as Hid by (vm_compute; congruence).
  pose proof (seal_after_add_reuses_sequence_number false st0 [] 1024%Z true 0 0 to_bob (SealOnly key_a) key_a a1.2.1 a1.2.2
    [hello; world] (sealed_message (raw_pair key_a) 0 label7 hello) [(to_bob, sealed_message (raw_pair key_a) 1 label7 world)]
    r1.2.1 r1.2.2 from_alice (OpenOnly key_b) a2.2.1 a2.2.2 world (sealed_message (raw_pair key_a) 0 label7 world) r2.2
    Hst eq_refl eq_refl (triple_eta a1 _ E1) (triple_eta r1 _ E2) Hid (triple_eta a2 _ E3) (pair_eta_l r2 _ E4)) as Hmsg.
  rewrite E2, E4. exact Hmsg.
Defined.

(** C21: The writer's updates are atomic for the readers. After any fewer than
    [2^32] operations, take any operation of the writer and the memory after
    each of its steps (the write side changed, the sides swapped, the other
    side changed, the write offset stored): up to some step the readers see
    the channels as they were before it, and from there on those that it
    leaves; no step shows a mixture. *)
Theorem writer_updates_are_atomic `{HpkeLaws, TupleHash} {R : Type} `{Csprng R}
    (st : ShmState) ops size aligned (rng : R) n op :
  st_side_a st ≠ st_side_b st → (Z.of_nat (S (length ops)) < 2 ^ 32)%Z →
  let s := (sys_run st ops (sys_init st size aligned rng n)).2 in
  let c := (map_run (st_max_chans st) ops []).2 in
  switches (λ id, bt_get id c) (λ id, bt_get id (map_op (st_max_chans st) op c).2)
    (op_steps st op (sy_mem s) (sy_rng s)).
Proof.
  intros Hne Hn s c. destruct (sys_reached st ops size aligned rng n Hne) as (dr & dw & Hs & _ & Hc); [lia|].
  fold s in Hs. fold c in Hc.
  destruct (sys_op_ok st op _ s dr dw c Hs) as (dr' & dw' & Hs' & _ & Hc'); [lia|done|].
  destruct (op_steps_switch st op s dr dw (sv_mem _ _ _ _ _ Hs)) as (before & after & -> & Hb & Ha).
  exists before, after. split; [done|]. destruct Hc as [_ Hv], Hc' as [_ Hv']. split.
  - eapply Forall_impl; [exact Hb|]. intros m Hm id. by rewrite Hm.
  - eapply Forall_impl; [exact Ha|]. intros m Hm id.
    by rewrite Hm, (shm_view_eq st _ dr' dw') by apply Hs'.
Qed.

Lemma writer_updates_are_atomic_witness :
  switches (λ id, bt_get id [(to_bob, SealOnly key_a)])
    (λ id, bt_get id (map_op 3 (AfcAdd from_alice (OpenOnly key_b)) [(to_bob, SealOnly key_a)]).2)
    (op_steps st0 (AfcAdd from_alice (OpenOnly key_b))
      (sy_mem (sys_run st0 [AfcAdd to_bob (SealOnly key_a)] (sys_init st0 1024 true 0 1)).2) 2) ∧
  length (op_steps st0 (AfcAdd from_alice (OpenOnly key_b))
      (sy_mem (sys_run st0 [AfcAdd to_bob (SealOnly key_a)] (sys_init st0 1024 true 0 1)).2) 2) = 4.
Proof.
  split; [|vm_compute; reflexivity].
  exact (writer_updates_are_atomic st0 [AfcAdd to_bob (SealOnly key_a)] 1024 true 0 1
    (AfcAdd from_alice (OpenOnly key_b)) ltac:(by vm_compute) ltac:(by vm_compute)).
Defined.

(** * The mutex *)
(** C24: The mutex keeps its threads apart, on futexes and as a spinlock. Whatever
    the interleaving of the threads' atomic steps, and whenever the kernel lets
    sleeping threads go: at most one thread is between getting the guard and
    releasing it, the key is 0 exactly when none is, [sys_unlock] never meets a
    state that it reports as a bug, and no update is lost: the data is the
    first value with the updates made so far applied one after another, and
    with those still to make they are all the updates there were. *)
Theorem mutex_serialises_updates {T : Type} futex (v : T) todos s :
  mutex_reaches futex (mutex_new v todos) s →
  (∀ i j th th', mx_threads s !! i = Some th → mx_threads s !! j = Some th' →
     holds th = true → holds th' = true → i = j) ∧
  (mx_key s = MUTEX_UNLOCKED ↔ Forall (λ th, holds th = false) (mx_threads s)) ∧
  Forall (λ th, th_pc th ≠ PcBug) (mx_threads s) ∧
  ∃ fs, mx_data s = apply_all fs v ∧ concat todos ≡ₚ fs ++ pending s.
Proof.
  intros Hr. pose proof (mutex_reaches_inv futex _ _ Hr (mutex_new_inv futex v todos)) as Hs.
  pose proof (mi_held _ _ Hs) as Hh. split_and!.
  - intros i j th th'. apply count_one. rewrite Hh. destruct (_ =? _)%Z; lia.
  - rewrite <- Z.eqb_eq. transitivity (count holds (mx_threads s) = 0).
    { rewrite Hh. by destruct (_ =? _)%Z. }
    apply count_none.
  - eapply Forall_impl; [exact (mi_pc _ _ Hs)|]. intros [[] ?] Hok; done.
  - destruct (mutex_reaches_updates futex _ _ Hr (mutex_new_inv futex v todos)) as (fs & Hd & Hp).
    exists fs. split; [done|]. by rewrite <- Hp, pending_new.
Qed.

Lemma mutex_serialises_updates_witness :
  ∃ s, mutex_run true [StepRun 0; StepRun 0; StepRun 1; StepRun 1; StepRun 0; StepRun 0]
         (mutex_new 1%Z [[Z.mul 3]; [Z.add 1]]) = Some s ∧
  ∃ fs, mx_data s = apply_all fs 1%Z ∧ [Z.mul 3; Z.add 1] ≡ₚ fs ++ pending s.
Proof.
  destruct (mutex_run true [StepRun 0; StepRun 0; StepRun 1; StepRun 1; StepRun 0; StepRun 0]
         (mutex_new 1%Z [[Z.mul 3]; [Z.add 1]])) as [s|] eqn:E; [|discriminate E].
  exists s. split; [reflexivity|].
  exact (proj2 (proj2 (proj2 (mutex_serialises_updates true 1%Z [[Z.mul 3]; [Z.add 1]] s
    (mutex_run_reaches _ _ _ _ E))))).
Defined.

(** C25: No thread waits for the mutex for ever because a wake-up was lost. From
    every state that the threads can get to, a thread that is in [lock], asleep
    in the kernel or not, can still get the lock by steps of the threads alone,
    without the kernel letting anyone go by itself; and a state in which no
    thread can take a step is one in which all have finished, with the data
    that applying all the updates in some order gives. *)
Theorem mutex_waiters_get_the_lock {T : Type} futex (v : T) todos s :
  mutex_reaches futex (mutex_new v todos) s →
  (∀ i l todo, mx_threads s !! i = Some (mkThread (PcLock l) todo) →
     ∃ ls s', forallb quiet ls = true ∧ mutex_run futex ls s = Some s' ∧
              mx_threads s' !! i = Some (mkThread PcHeld todo)) ∧
  ((∀ l, quiet l = true → mutex_step futex l s = None) →
   Forall (λ th, th_pc th = PcOut ∧ th_todo th = []) (mx_threads s) ∧
   ∃ fs, mx_data s = apply_all fs v ∧ fs ≡ₚ concat todos).
Proof.
  intros Hr. pose proof (mutex_reaches_inv futex _ _ Hr (mutex_new_inv futex v todos)) as Hs. split.
  - intros i l todo Hi. destruct (waiter_acquires futex s i l todo Hs Hi) as (s' & (ls & Hq & Hrun) & Hi').
    by exists ls, s'.
  - intros Hstuck. pose proof (stuck_done futex s Hs Hstuck) as Hdone. split; [done|].
    destruct (mutex_reaches_updates futex _ _ Hr (mutex_new_inv futex v todos)) as (fs & Hd & Hp).
    exists fs. split; [done|]. rewrite pending_new, (pending_done s Hdone), app_nil_r in Hp. by symmetry.
Qed.

Lemma mutex_waiters_get_the_lock_witness :
  ∃ s, mutex_run true ([StepRun 0; StepRun 0; StepRun 1; StepRun 1] ++ replicate 7 (StepRun 1))
         (mutex_new 1%Z [[Z.mul 3]; [Z.add 1]]) = Some s ∧
  ∃ ls s', forallb quiet ls = true ∧ mutex_run true ls s = Some s' ∧
           mx_threads s' !! 1 = Some (mkThread PcHeld [Z.add 1]).
Proof.
  assert (mutex_run true ([StepRun 0; StepRun 0; StepRun 1; StepRun 1] ++ replicate 7 (StepRun 1))
         (mutex_new 1%Z [[Z.mul 3]; [Z.add 1]]) ≫= (λ s, mx_threads s !! 1)
       = Some (mkThread (PcLock LkSleep) [Z.add 1])) as Hi by (vm_compute; reflexivity).
  destruct (mutex_run true ([StepRun 0; StepRun 0; StepRun 1; StepRun 1] ++ replicate 7 (StepRun 1))
         (mutex_new 1%Z [[Z.mul 3]; [Z.add 1]])) as [s|] eqn:E; [|discriminate Hi].
  exists s. split; [reflexivity|].
  apply (proj1 (mutex_waiters_get_the_lock true 1%Z [[Z.mul 3]; [Z.add 1]] s (mutex_run_reaches _ _ _ _ E))
    1 LkSleep [Z.add 1]).
  exact Hi.
Defined.

(** * Setting up channels *)
(** C28: Both users of a bidirectional channel derive the same keys, crosswise. When
    the author's policy has created a channel, the author's handler, which takes
    the secret out of the store, and the peer's handler, which uses the
    encapsulation, both succeed: the key with which one encrypts is the one with
    which the other decrypts. The author's store is then as before the channel
    was created, and a second attempt finds no secret. *)
Theorem bidi_channel_keys_match `{HpkeKemLaws, TupleHash, SuiteIds}
    {S1 W1 R1 S2 W2 R2 : Type} `{!KeyStore S1 W1, !KeyStoreLaws S1 W1, !Engine R1 W1, !EngineLaws R1 W1,
      !KeyStore S2 W2, !KeyStoreLaws S2 W2, !Engine R2 W2}
    (sA sA' : S1) (sB : S2) (r r' : R1) parent keyA pubA idA keyB pubB idB label ac :
  has_key R1 sA keyA pubA → has_key R2 sB keyB pubB →
  create_bidi_channel parent keyA idA pubB idB label (sA, r) = (Ok ac, (sA', r')) →
  let created := mkBidiCreated parent idA keyA idB pubB label (ac_key_id ac) in
  let received := mkBidiReceived parent idA pubA idB keyB label (ac_peer_encap ac) in
  ∃ (ab ba : RawKey) sA'',
    bidi_channel_created (R := R1) idA created sA' = (Ok (Bidirectional ab ba), sA'') ∧
    bidi_channel_received (R := R2) idB received sB = Ok (Bidirectional ba ab) ∧
    (∀ id, ks_view sA'' id = ks_view sA id) ∧
    bidi_channel_created (R := R1) (SK := RawKey) (OK := RawKey) idA created sA'' = (Err HdKeyNotFound, sA'').
Proof.
  intros HA HB Hc created received.
  destruct (bidi_setup (SK := RawKey) (OK := RawKey) _ _ _ _ _ _ _ _ _ _ _ _ _ _ HA HB Hc)
    as (chA & chB & root & enc & ab & ba & sA'' & Ea & Eb & Hcr & Hrc & Hi & Hv & Hno).
  exists ab, ba, sA''. split_and!; [| |done|].
  - fold created in Hcr. rewrite Hcr. unfold transform, transform_bidi_author_raw. by rewrite Ea.
  - fold received in Hrc. rewrite Hrc. unfold transform, transform_bidi_peer_raw. by rewrite Eb.
  - unfold bidi_channel_created. cbn. rewrite bool_decide_true by done. cbn.
    by rewrite take_secret_gone by by rewrite ?Hv.
Qed.

Lemma bidi_channel_keys_match_witness :
  ∃ (ab ba : RawKey) s'',
    bidi_channel_created (R := nat) alice_id
      (mkBidiCreated [Byte.x01] alice_id key_id bob_id (unary 9) label7 (ac_key_id (made bidi_made))) bidi_made.2.1
      = (Ok (Bidirectional ab ba), s'') ∧
    bidi_channel_received (R := nat) bob_id
      (mkBidiReceived [Byte.x01] alice_id (unary 6) bob_id key_id label7 (ac_peer_encap (made bidi_made))) bob_store
      = Ok (Bidirectional ba ab).
Proof.
  assert (bidi_made = (Ok (made bidi_made), (bidi_made.2.1, bidi_made.2.2))) as E by (vm_compute; reflexivity).
  destruct (bidi_channel_keys_match alice_store bidi_made.2.1 bob_store 4 bidi_made.2.2 [Byte.x01] key_id (unary 6)
    alice_id key_id (unary 9) bob_id label7 (made bidi_made) alice_has_key bob_has_key E)
    as (ab & ba & s'' & Hc & Hr & _).
  exists ab, ba, s''. exact (conj Hc Hr).
Defined.

(** C29: Both users of a unidirectional channel derive the same key, the one who
    seals as a key for encryption and the other as a key for decryption, whichever
    of them is the author; the author's store is restored, and a second attempt
    finds no secret. *)
Theorem uni_channel_keys_match `{HpkeKemLaws, TupleHash, SuiteIds}
    {S1 W1 R1 S2 W2 R2 : Type} `{!KeyStore S1 W1, !KeyStoreLaws S1 W1, !Engine R1 W1, !EngineLaws R1 W1,
      !KeyStore S2 W2, !KeyStoreLaws S2 W2, !Engine R2 W2}
    (sA sA' : S1) (sB : S2) (r r' : R1) parent keyA pubA idA keyB pubB idB (author_seals : bool) label ac :
  let seal_id := if author_seals then idA else idB in
  let open_id := if author_seals then idB else idA in
  has_key R1 sA keyA pubA → has_key R2 sB keyB pubB →
  create_uni_channel parent keyA pubB seal_id open_id label (sA, r) = (Ok ac, (sA', r')) →
  let created := mkUniCreated parent idA seal_id open_id keyA pubB label (ac_key_id ac) in
  let received := mkUniReceived parent idA seal_id open_id pubA keyB label (ac_peer_encap ac) in
  ∃ (k : RawKey) sA'',
    uni_channel_created (R := R1) idA created sA'
      = (Ok (if author_seals then SealOnly k else OpenOnly k), sA'') ∧
    uni_channel_received (R := R2) idB received sB
      = Ok (if author_seals then OpenOnly k else SealOnly k) ∧
    (∀ id, ks_view sA'' id = ks_view sA id) ∧
    uni_channel_created (R := R1) (SK := RawKey) (OK := RawKey) idA created sA'' = (Err HdKeyNotFound, sA'').
Proof.
  intros seal_id open_id HA HB Hc created received.
  destruct (uni_setup (SK := RawKey) (OK := RawKey) _ _ _ _ _ _ _ _ _ _ _ _ author_seals _ _ HA HB Hc)
    as (chA & chB & root & enc & k & sA'' & Ea & Eb & Hcr & Hrc & Hi & Hv & Hno).
  change (seal_side author_seals idA idB) with seal_id in *. change (open_side author_seals idA idB) with open_id in *.
  fold created in Hcr. fold received in Hrc. exists k, sA''. split_and!; [| |done|].
  - rewrite Hcr. unfold transform, transform_uni_author_raw. rewrite Ea. by destruct author_seals.
  - rewrite Hrc. unfold transform, transform_uni_peer_raw. rewrite Eb. by destruct author_seals.
  - unfold uni_channel_created. cbn. rewrite (bool_decide_true (idA = idA)) by done.
    rewrite take_secret_gone by by rewrite ?Hv. unfold seal_id, open_id.
    by destruct author_seals; cbn; rewrite (bool_decide_true (idA = idA)) by done; rewrite ?andb_false_r.
Qed.

Lemma uni_channel_keys_match_witness :
  ∃ (k : RawKey) s'',
    uni_channel_created (R := nat) alice_id
      (mkUniCreated [Byte.x01] alice_id bob_id alice_id key_id (unary 9) label7 (ac_key_id (made uni_made))) uni_made.2.1
      = (Ok (OpenOnly k), s'') ∧
    uni_channel_received (R := nat) bob_id
      (mkUniReceived [Byte.x01] alice_id bob_id alice_id (unary 6) key_id label7 (ac_peer_encap (made uni_made))) bob_store
      = Ok (SealOnly k).
Proof.
  assert (uni_made = (Ok (made uni_made), (uni_made.2.1, uni_made.2.2))) as E by (vm_compute; reflexivity).
  destruct (uni_channel_keys_match alice_store uni_made.2.1 bob_store 4 uni_made.2.2 [Byte.x01] key_id (unary 6)
    alice_id key_id (unary 9) bob_id false label7 (made uni_made) alice_has_key bob_has_key E)
    as (k & s'' & Hc & Hr & _).
  exists k, s''. exact (conj Hc Hr).
Defined.

(** C27: A channel that was set up carries messages both ways. When the handlers of
    both users have derived the keys of a bidirectional channel, with a label that
    the policy gave, and each user
    adds them to its in-memory state, what one seals for the channel the other
    opens, and the other way round. *)
Theorem bidi_channel_carries_messages `{HpkeLaws, HpkeKemLaws, TupleHash, SuiteIds}
    {S1 W1 R1 S2 W2 R2 : Type} `{!KeyStore S1 W1, !KeyStoreLaws S1 W1, !Engine R1 W1, !EngineLaws R1 W1,
      !KeyStore S2 W2, !KeyStoreLaws S2 W2, !Engine R2 W2}
    (sA sA' sA'' : S1) (sB : S2) (r r' : R1) parent keyA pubA idA keyB pubB idB label ac
    dA dB (mA mB mA' mB' : MemAfc) nodeA nodeB v :
  has_key R1 sA keyA pubA → has_key R2 sB keyB pubB → label_from_value v = Ok label → bt_wf mA → bt_wf mB →
  create_bidi_channel parent keyA idA pubB idB label (sA, r) = (Ok ac, (sA', r')) →
  bidi_channel_created (R := R1) idA
    (mkBidiCreated parent idA keyA idB pubB label (ac_key_id ac)) sA' = (Ok dA, sA'') →
  bidi_channel_received (R := R2) idB
    (mkBidiReceived parent idA pubA idB keyB label (ac_peer_encap ac)) sB = Ok dB →
  mem_afc_add (mkChannelId nodeB label) dA mA = (Ok tt, mA') →
  mem_afc_add (mkChannelId nodeA label) dB mB = (Ok tt, mB') →
  carries mA' (mkChannelId nodeB label) mB' nodeA ∧ carries mB' (mkChannelId nodeA label) mA' nodeB.
Proof.
  intros HA HB Hl%label_from_value_ok HwA HwB Hc HdA HdB [= <-] [= <-].
  destruct (bidi_setup (SK := SealKey) (OK := OpenKey) _ _ _ _ _ _ _ _ _ _ _ _ _ _ HA HB Hc)
    as (chA & chB & root & enc & ab & ba & s & Ea & Eb & Hcr & Hrc & _).
  rewrite HdA in Hcr. injection Hcr as Hcr <-. rewrite HdB in Hrc.
  unfold transform, transform_bidi_author, transform_bidi_peer in *. rewrite Ea in Hcr. rewrite Eb in Hrc.
  symmetry in Hcr, Hrc. apply bidi_handled in Hcr as (a1 & o1 & -> & Ha1 & Ho1), Hrc as (a2 & o2 & -> & Ha2 & Ho2).
  split; (eapply carries_added; [done..|]); congruence.
Qed.

Lemma bidi_channel_carries_messages_witness :
  let dA := handled alice_handled.1 in let dB := handled bob_handled in
  carries (bt_insert to_bob dA []) to_bob (bt_insert from_alice dB []) alice ∧
  carries (bt_insert from_alice dB []) from_alice (bt_insert to_bob dA []) bob.
Proof.
  assert (bidi_made = (Ok (made bidi_made), (bidi_made.2.1, bidi_made.2.2))) as E by (vm_compute; reflexivity).
  assert (alice_handled = (Ok (handled alice_handled.1), alice_handled.2)) as Ea.
  { rewrite <- handled_ok by (vm_compute; reflexivity). by destruct alice_handled. }
  assert (bob_handled = Ok (handled bob_handled)) as Eb by (apply handled_ok; vm_compute; reflexivity).
  exact (bidi_channel_carries_messages alice_store bidi_made.2.1 alice_handled.2 bob_store 4 bidi_made.2.2
    [Byte.x01] key_id (unary 6) alice_id key_id (unary 9) bob_id label7 (made bidi_made)
    (handled alice_handled.1) (handled bob_handled) [] []
    (bt_insert to_bob (handled alice_handled.1) []) (bt_insert from_alice (handled bob_handled) []) alice bob (VInt 7)
    alice_has_key bob_has_key eq_refl bt_wf_nil bt_wf_nil E Ea Eb eq_refl eq_refl).
Defined.
